(* ===== verification/_CoqProject ===== *)
-Q . S2P
Prelude.v
Json.v
Paths.v
Types.v
Host.v
AppServer.v
Session.v
Storage.v
Workspaces.v
WorkspaceCrud.v
Worktrees.v
Lifecycle.v
PatchParser.v
PatchPrint.v
AbsolutePath.v
Permissions.v
Access.v
SandboxRoots.v
PatchApply.v
PatchProofs.v
PatchFiles.v
PatchInvocation.v
StreamText.v
TaggedLines.v
Utf8Stream.v
HeadTail.v
Protocol.v
Truncate.v
Contextual.v
TokenUsage.v
ImageEstimate.v
Normalize.v
ContextHistory.v
ExecRules.v
ExecPolicy.v
ExecPolicyParser.v
ShellScripts.v
CommandSafety.v
ExecAmend.v
ExecApproval.v
PolicyTransforms.v
PatchSafety.v
NetAddr.v
IpAddresses.v
HostPatterns.v
NetConfig.v
NetProxy.v
NetHandlers.v
NetSafety.v
NetSettings.v
LocalUsage.v
UsageStats.v
Prompts.v
PromptProofs.v
WorkspaceFiles.v
FileProofs.v
TextArea.v
TextEdits.v
TextAreaProofs.v
TextElements.v
TextComposer.v
PasteBurst.v
PasteProofs.v
WorktreeChanges.v
MentionCodec.v
ComposerHistory.v
ComposerSearch.v
Streaming.v
StreamProofs.v
