(* ===== verification/Prelude.v ===== *)
(** * CodexMonitor: a verification development

    CodexMonitor is a desktop application around the codex agent. Its Rust
    backend ([src-tauri/src]) keeps a list of workspaces (repositories, their
    clones and git worktrees), talks to one [codex app-server] process for all
    connected workspaces in JSON-RPC over its standard streams, and stores
    workspaces and settings in two JSON files. The agent itself is in the tree
    as [codex-rs]; of it the development models the patches it applies to files,
    the text it streams, the output of commands it keeps, the history of a
    thread it sends to the model, and what guards its actions: the rules for
    commands and the questions they lead to, the permissions of a sandbox, the
    assessment of patches, and the proxy between commands and the network.

    ** The parts

    - [Prelude]: strings (a string is the list of its scalar values, [str]), the
      standard library operations on them the code uses, results, hash maps in
      an arbitrary order of iteration (class [HashOrder]), shared lemmas.
    - [Json]: [serde_json::Value] and its accessors.
    - [Paths]: [std::path] on Unix for paths that are valid Unicode, the
      normalisation of Windows name space prefixes ([utils.rs], [storage.rs]) and
      of workspace roots ([backend/app_server.rs]), and the choice of directory
      names ([shared/worktree_core.rs]).
    - [Types]: the structures and defaults of [types.rs].
    - [Host]: what the machine offers, as the class [Host] (files, git, fresh
      identifiers, the environment); on it the git helpers of
      [shared/git_core.rs], [resolve_git_root] of [git_utils.rs], and the codex
      home of [codex/home.rs].
    - [AppServer]: what [backend/app_server.rs] reads out of a message, and where
      a message goes.
    - [Session]: [WorkspaceSession], the reader task of [spawn_workspace_session]
      (one definition per stage of its loop body, in their order) and
      [send_request_for_workspace], whose tasks interleave as the constructors
      of [step].
    - [Storage]: [storage.rs]; the JSON text is serde's (class [Serde]).
    - [Workspaces]: [shared/workspaces_core/{helpers,connect,runtime_codex_args}.rs]
      and [codex/args.rs], over one [State] that joins the maps behind the
      mutexes of [AppState] ([state.rs]) with a heap of processes.
    - [WorkspaceCrud]: [shared/workspaces_core/crud_persistence.rs] and
      [workspaces/settings.rs].
    - [Worktrees]: [shared/workspaces_core/worktree.rs].
    - [WorktreeChanges]: [shared/workspaces_core/git_orchestration.rs], the changes of
      a worktree applied to its parent (class [GitBytes] for git on bytes), and the
      proofs about it.
    - [Lifecycle]: [AppState::load] and the operations above as one transition
      system.
    - [PatchParser], [PatchPrint]: [codex-rs/apply-patch/src/parser.rs] and the
      grammar in its header as a printer.
    - [AbsolutePath]: [codex-rs/utils/absolute-path/src], resolution by text.
    - [PatchApply], [PatchProofs], [PatchFiles]: [seek_sequence.rs] and [lib.rs]
      of [codex-rs/apply-patch/src], proofs about lines, and proofs about files
      (class [ExecutorFileSystem], the trait of the same name).
    - [StreamText], [TaggedLines], [Utf8Stream]: the crate
      [codex-rs/utils/stream-parser/src]: parsers that take a text in pieces
      (class [StreamTextParser], the trait of the same name), for inline hidden
      tags and citations, for tags on lines of their own, plans and the text of
      the assistant, and for bytes.
    - [HeadTail]: [HeadTailBuffer] of [codex-rs/core/src/unified_exec].
    - [Protocol]: the items of [codex-rs/protocol/src/models.rs].
    - [Truncate]: cutting texts and outputs to a budget,
      [codex-rs/utils/{string,output-truncation}/src].
    - [Contextual], [TokenUsage], [ImageEstimate], [Normalize],
      [ContextHistory]: the history of a thread,
      [codex-rs/core/src/context_manager/{history,normalize}.rs]: which messages
      were injected ([core/src/context], [event_mapping.rs]), counts and estimates
      of tokens ([protocol.rs], the estimators of [history.rs]), the pairing of
      calls and outputs, and the operations on the state [ContextManager].
    - [ExecRules], [ExecPolicy], [ExecPolicyParser]: the crate
      [codex-rs/execpolicy/src]: rules and what they match, the operations on a
      policy, and the reading of policy files.
    - [ShellScripts], [CommandSafety]: [codex-rs/shell-command/src]: the plain
      commands of a shell script, and which commands are known to be safe or
      dangerous.
    - [ExecAmend]: [execpolicy/src/amend.rs], the rules appended to a policy file.
    - [ExecApproval]: [core/src/exec_policy.rs]: whether a command runs, is asked
      about or is refused, the amendments that are proposed, the loading of policies.
    - [Permissions], [Access], [SandboxRoots]: [protocol/src/permissions.rs]:
      the entries of a sandbox policy; proofs about the access they give, and
      about the roots a sandbox is given.
    - [PolicyTransforms]: [sandboxing/src/policy_transforms.rs] and the
      permission profiles of [protocol/src/models.rs].
    - [PatchInvocation], [PatchSafety]: [apply-patch/src/invocation.rs], the patch in a
      command and the changes it shows, and [core/src/safety.rs], whether it
      is applied without a question.
    - [NetAddr], [IpAddresses], [HostPatterns]: [network-proxy/src/policy.rs]: addresses,
      hosts and patterns of domains (class [NetLib] for the crates behind them),
      and proofs about addresses and about patterns.
    - [NetConfig]: [network-proxy/src/{config,state}.rs]: settings and managed settings.
    - [NetProxy], [NetHandlers]: the state of the proxy with its operations
      ([runtime.rs], [network_policy.rs]), and what it does with a request
      ([http_proxy.rs], [socks5.rs], [mitm.rs], [responses.rs]).
    - [NetSafety], [NetSettings]: proofs about the requests that are passed on, and
      about changes of the settings.
    - [LocalUsage], [UsageStats]: [shared/local_usage_core.rs], statistics from the
      logs of sessions, and proofs about what they count.
    - [Prompts], [PromptProofs]: [shared/prompts_core.rs], custom prompts in files,
      and proofs about their text and their files.
    - [WorkspaceFiles], [FileProofs]: [files/{io,policy,ops}.rs], [shared/files_core.rs] and
      [rules.rs]: the files of a workspace or of the codex home and the rules file
      with its lock, and proofs about them.
    - [TextArea], [TextEdits], [TextAreaProofs], [TextElements], [TextComposer]:
      [codex-rs/tui/src/bottom_pane/textarea.rs] and [wrap_ranges] of
      [codex-rs/tui/src/wrapping.rs], the text that is edited in the terminal
      interface (class [Segmentation] for the crates that split and wrap text);
      slices and edits; each operation; elements; the theorems.
    - [PasteBurst], [PasteProofs]: [bottom_pane/paste_burst.rs], pastes that arrive as
      keys, and proofs about a client that follows its documented contract.
    - [MentionCodec]: [codex-rs/tui/src/mention_codec.rs], the links that stand for
      mentions in stored messages.
    - [ComposerHistory], [ComposerSearch]: [bottom_pane/chat_composer_history.rs],
      the messages one comes back to, and proofs about search and Up.
    - [Streaming], [StreamProofs]: [codex-rs/tui/src/markdown_stream.rs] and
      [codex-rs/tui/src/streaming], the way of a message from its pieces to the
      terminal (class [Rendering] for the renderer of markdown and its lines), and the
      proofs about it.

    ** What is proved

    - Sessions ([Session]): requests are never lost, their ids are unique, an
      answer reaches the request with its id; events of a thread go to the
      workspace that started it; hidden threads are silent; the end of the
      output releases every waiting request.
    - Workspaces ([Workspaces], [WorkspaceCrud], [Worktrees], [Lifecycle]): every
      operation on every branch, errors included: what it does to the entries,
      the stored file, the sessions, the processes and, where it matters, which
      git commands it issues. Changes of a worktree reach only a clean parent
      ([WorktreeChanges]). Adding, cloning and renaming are all or nothing
      ([add_worktree_core] is not, and that is a theorem too). In every reachable
      state the entries are a forest of depth one, all connected workspaces share
      one process, and no process is orphaned but those that were started for
      worktrees whose file could not be written.
    - Names and files ([Paths], [Host], [Storage]): chosen paths and branch names
      are fresh and the first that are; what is written is read back; migrations.
    - Patches: parsing is total and reads back what is written in the grammar, with
      and without context; a search finds the first position under the strictest
      comparison; replacing equals one pass over the lines and does not panic; an
      update does what its chunks say line by line ([updated]); applying hunks
      refines a specification on the map of files, with what a failure leaves. An
      update that moves a file onto itself loses it, and one blank line at the end
      of a file is lost with any update.
    - Streams ([StreamText], [TaggedLines], [Utf8Stream]): what is shown and what is
      extracted does not depend on how a text is cut into pieces (class
      [ChunkIndependent]); citations round-trip; the bytes of a text give what
      the text gives; bytes that are not UTF-8 leave the parser as it was.
    - Commands ([ExecPolicy], [ExecApproval], [CommandSafety], [ShellScripts]): checking
      takes the severest of the rules that match; forbidden commands never
      run, dangerous ones never without a question where questions are asked,
      and what is asked follows the approval policy; an accepted amendment is
      stored, in force, and answers the question it came from; rules for the file
      name of a program can give way to it.
    - Sandboxes ([Access], [SandboxRoots], [PolicyTransforms]): the most specific
      entry decides; the roots of a sandbox let be written what the policy
      does on a disk without links, and on any disk what may not be written is
      carved out of them; metadata of projects is protected, denials survive, and permissions
      on top give no more than was asked and granted (for reading; for writing
      they may, and that is a theorem too).
    - Safety of patches ([PatchInvocation], [PatchSafety]): what is shown of a patch
      is what it does, and without a question only writable files change, both
      for patches without a second hunk for a file (which can hide a move:
      [a_second_hunk_hides_a_move]) and not under the policy that asks after a
      failure only.
    - The proxy ([IpAddresses], [HostPatterns], [NetSafety], [NetSettings]): which
      addresses are not public; patterns allow a pattern when they match its
      hosts; denied hosts are not reached but through a tunnel that is open
      already, local ones only when listed (a name is looked up for its port, and
      again for requests inside of an intercepted tunnel), and in limited mode
      nothing is written; the settings in force stay within the managed ones, as
      long as what is reloaded does, and updates lose no settings, though the
      record of blocked requests.
    - Statistics ([UsageStats]): of the days asked for, tokens are counted once whatever
      mixture of totals and additions the logs report; the days sum up to the total.
    - Prompts and files ([PromptProofs], [FileProofs]): a saved prompt is read back, up
      to quotes, which each save escapes again; writes stay below the directory
      they were resolved to, unless a link dangles; a rule that is written is
      found again; the lock is got or given up, unless a stale one stays. Which file
      is written is stated by its name.
    - The text area ([TextComposer]): no sequence of keys and calls panics; keys keep
      elements whole; what is killed can be yanked back; the cursor stays on the
      screen.
    - Messages ([PasteProofs], [MentionCodec], [ComposerSearch]): nothing that is entered
      is lost, doubled or moved by the detection of pastes, but a newline that
      overtakes a character that is held, and nothing is held for long; mentions
      are read back, but for those a link cannot hold; a search lists the messages that match, each text once.
    - The terminal ([StreamProofs]): a stream never panics and gives back its whole
      text; while the width stays it shows each line once and in order (after a
      resize it may not); ticks show the lines they take from the queues, in order,
      and the two modes do not flap.
    - Output ([HeadTail], [Truncate]): what a capped buffer and a cut text keep of
      both ends, in bounds and exactly.
    - History ([Normalize], [ContextHistory]): normalisation pairs calls and outputs
      and is idempotent, debug builds panic exactly on histories that break the
      pairing, trimming keeps it, a rollback drops the last turns, records are
      cut to the budget, sums of tokens saturate, and a history whose version is
      the same has not been rewritten.

    ** Choices

    The functions of the workspace components run one after the other, as they do
    under their spawn lock and the commands of one user; the reader of a session
    handles a line in one step, and requests interleave with lines between
    steps. Values read before the lock is taken are the ones read at the start.
    An operation on files or git is a step of the machine and may fail; a failed
    [std::fs] operation leaves the model's machine as the class says, that is in
    any state. The loops of the code that are not structural have fuel: the
    search for a live session has one round per session and one more
    ([take_live_shared_session_finds_live]), the loops of the patch parser a round
    per line and one more ([parse_patch_text_total]); the theorems in parentheses
    show that it suffices. Request ids are unsigned 64-bit integers that wrap;
    theorems about their uniqueness are for histories that have not wrapped.
    [Path::parent] is modelled up to the equality of paths. Counters of lines
    and indices are natural numbers, as no input is as long as their range; where
    the code saturates, so does the model (the sizes of [HeadTail] and
    [Truncate], the versions and tokens of the history). Positions in a string
    are counted in scalar values where the code only compares and slices at
    positions it found in the same string, and in bytes of UTF-8 where sizes in
    bytes matter ([Truncate]). A slice inside of a code point, an index out of
    range and a failed assertion are [None] where the code could panic. The loop
    of [push_str] has a round per pending scalar value and one more. Doubles are
    those of [SpecFloat]. Times of keys are nanoseconds of a clock. A scan of the
    messages has a round per message and one more, which is enough
    ([searches_list_the_unique_matches]); the loops over mentions have a round per
    character. Unicode lower case is a parameter.

    The agent is modelled as compiled for Unix; what differs on macOS is an
    argument of the handlers of the proxy. Code of other crates is a parameter:
    the tree of a script (tree-sitter), PowerShell's own parser, the evaluator
    of Starlark, shlex, the unified diff of similar, globs of globset, the host
    and URL parsers of url and the hosts of rama. The disk under a sandbox policy
    is a snapshot ([Disk]), the files of policies are a state. The reloader of the
    proxy and the resolver of names answer from a script; what other tasks do
    between two locks of an operation is a list of functions, one for each round of
    its loop, so that the loop ends when other tasks stop interfering. The loop over Connection
    headers has a round per header and one more, that over the ancestors of a
    path one per component.

    ** What is not modelled

    The Tauri commands that forward to these functions or to a remote backend;
    spawning and the initialize handshake of a process; serde's derived codecs
    and TOML; git's user interface through libgit2 and gh; the daemon and its
    remote client; Tailscale, terminals, dictation, menus and windows, which are
    calls of the operating system; the configuration of agents, which is edits of
    a TOML document inside [toml_edit]; the requests about account and threads,
    which wrap a JSON object around [send_request]; the rest of [codex-rs]: the
    display of parsed commands, the dangerous commands of Windows, the terminal
    interface but for the parts above, and of the proxy its listeners, certificates
    and connections; the cache of image estimates, which is a parameter at the
    moment of a look-up; the TypeScript frontend. *)
From Corelib Require Export ssreflect.
From stdpp Require Export base tactics option list fin_maps gmap sets strings numbers sorting.
From Stdlib Require Export Ascii.
#[global] Open Scope general_if_scope.
#[export] Set Warnings "-rewrite-rw".

(** ** Rust strings *)

(** A Rust [char] is a Unicode scalar value, a [str] a sequence of them. *)
Abbreviation char := N (only parsing).
Definition str : Type := list N.

(** The ASCII string literals of the source. *)
Definition lit (x : string) : str := map N_of_ascii (String.list_ascii_of_string x).
Coercion lit : string >-> str.
Arguments lit x : simpl never.

Declare Scope rust_scope.
Delimit Scope rust_scope with rust.
Open Scope string_scope.
Open Scope list_scope.

#[global] Instance str_eq_dec : EqDecision str.
Proof. unfold str; apply _. Defined.
#[global] Instance str_countable : Countable str.
Proof. unfold str; apply _. Defined.
#[global] Instance str_inhabited : Inhabited str := populate [].

Definition str_eqb (a b : str) : bool := bool_decide (a = b).
Infix "=s?" := str_eqb (at level 70) : rust_scope.
Open Scope rust_scope.

#[global] Arguments N.eqb n m : simpl never.

(** Named characters. *)
Definition ch_nl : char := 10%N.
Definition ch_cr : char := 13%N.
Definition ch_sp : char := 32%N.
Definition ch_star : char := 42%N.
Definition ch_plus : char := 43%N.
Definition ch_minus : char := 45%N.
Definition ch_dot : char := 46%N.
Definition ch_slash : char := 47%N.
Definition ch_colon : char := 58%N.
Definition ch_backslash : char := 92%N.
Definition ch_underscore : char := 95%N.

Definition in_range (lo hi c : N) : bool := (lo <=? c)%N && (c <=? hi)%N.

(** [char::is_whitespace]: the Unicode [White_Space] property. *)
Definition is_whitespace (c : char) : bool :=
  in_range 9 13 c || (c =? 32)%N || (c =? 133)%N || (c =? 160)%N || (c =? 5760)%N
  || in_range 8192 8202 c || (c =? 8232)%N || (c =? 8233)%N || (c =? 8239)%N
  || (c =? 8287)%N || (c =? 12288)%N.

Definition is_ascii_upper (c : char) : bool := in_range 65 90 c.
Definition is_ascii_lower (c : char) : bool := in_range 97 122 c.
Definition is_ascii_digit (c : char) : bool := in_range 48 57 c.
Definition is_ascii_alphabetic (c : char) : bool := is_ascii_upper c || is_ascii_lower c.
Definition is_ascii_alphanumeric (c : char) : bool := is_ascii_alphabetic c || is_ascii_digit c.

Definition lower_char (c : char) : char := if is_ascii_upper c then (c + 32)%N else c.
(** [str::to_ascii_lowercase] and [str::eq_ignore_ascii_case]. *)
Definition to_ascii_lowercase (s : str) : str := map lower_char s.
Definition eq_ignore_ascii_case (a b : str) : bool := to_ascii_lowercase a =s? to_ascii_lowercase b.

(** [str::len] is a number of bytes: the UTF-8 length of each scalar value. *)
Definition utf8_width (c : char) : nat :=
  if (c <=? 127)%N then 1 else if (c <=? 2047)%N then 2 else if (c <=? 65535)%N then 3 else 4.
Fixpoint str_len (s : str) : nat :=
  match s with [] => 0 | c :: r => utf8_width c + str_len r end.

Fixpoint drop_while (f : char → bool) (s : str) : str :=
  match s with
  | [] => []
  | c :: r => if f c then drop_while f r else s
  end.
Definition trim_start_matches (f : char → bool) (s : str) : str := drop_while f s.
Definition trim_end_matches (f : char → bool) (s : str) : str := reverse (drop_while f (reverse s)).
Definition trim_matches (f : char → bool) (s : str) : str := trim_end_matches f (trim_start_matches f s).
Definition trim_end (s : str) : str := trim_end_matches is_whitespace s.
Definition trim_start (s : str) : str := trim_start_matches is_whitespace s.
Definition trim (s : str) : str := trim_matches is_whitespace s.

Definition is_empty {A} (l : list A) : bool := match l with [] => true | _ => false end.

(** [str::strip_prefix], [str::starts_with] and their suffix versions. *)
Fixpoint strip_prefix (p s : str) : option str :=
  match p, s with
  | [], _ => Some s
  | c :: p', d :: s' => if (c =? d)%N then strip_prefix p' s' else None
  | _ :: _, [] => None
  end.
Definition starts_with (p s : str) : bool := match strip_prefix p s with Some _ => true | None => false end.
Definition strip_suffix (p s : str) : option str := reverse <$> strip_prefix (reverse p) (reverse s).
Definition ends_with (p s : str) : bool := match strip_suffix p s with Some _ => true | None => false end.

(** [str::find]: the position, in scalar values, of the first occurrence. *)
Fixpoint find_str (needle s : str) : option nat :=
  if starts_with needle s then Some 0
  else match s with [] => None | _ :: r => S <$> find_str needle r end.

(** [str::replace] of single characters. *)
Definition replace_chars (f : char → bool) (d : char) (s : str) : str :=
  map (λ c, if f c then d else c) s.

(** [str::split(c)]: always at least one piece. *)
Fixpoint split_on (c : char) (s : str) : list str :=
  match s with
  | [] => [[]]
  | d :: r =>
      if (c =? d)%N then [] :: split_on c r
      else match split_on c r with
           | [] => [[d]]
           | p :: ps => (d :: p) :: ps
           end
  end.

(** [str::split_once] and [str::rsplit_once]. *)
Fixpoint split_once (c : char) (s : str) : option (str * str) :=
  match s with
  | [] => None
  | d :: r => if (d =? c)%N then Some ([], r) else '(a, b) ← split_once c r; Some (d :: a, b)
  end.
Definition rsplit_once (c : char) (s : str) : option (str * str) :=
  '(b, a) ← split_once c (reverse s); Some (reverse a, reverse b).

(** [[str]::join] and [str::contains(char)]. *)
Fixpoint join (sep : str) (l : list str) : str :=
  match l with
  | [] => []
  | [x] => x
  | x :: r => x ++ sep ++ join sep r
  end.
Definition contains_char (c : char) (s : str) : bool := existsb (N.eqb c) s.

(** [str::lines]: the pieces between newlines, the last one dropped when it
    is empty; a line that a newline ends also loses one carriage return. *)
Definition strip_cr (s : str) : str :=
  match strip_suffix [ch_cr] s with Some r => r | None => s end.
Fixpoint lines_of_pieces (ps : list str) : list str :=
  match ps with
  | [] => []
  | [p] => if is_empty p then [] else [p]
  | p :: r => strip_cr p :: lines_of_pieces r
  end.
Definition lines (s : str) : list str := lines_of_pieces (split_on ch_nl s).

(** [str::split_inclusive('\n')]. *)
Fixpoint split_lines (s : str) : list str :=
  match s with
  | [] => []
  | c :: r => if (c =? ch_nl)%N then [c] :: split_lines r
              else match split_lines r with [] => [[c]] | l :: ls => (c :: l) :: ls end
  end.

(** Decimal rendering ([format!("{n}")] of an unsigned integer). *)
Fixpoint digits_fuel (fuel : nat) (n : N) (acc : str) : str :=
  match fuel with
  | 0 => acc
  | S k =>
      let acc' := (48 + n mod 10)%N :: acc in
      if (n <? 10)%N then acc' else digits_fuel k (n / 10)%N acc'
  end.
Definition show_N (n : N) : str := digits_fuel (S (N.size_nat n)) n [].

(** ** [usize] *)

(** An unsigned 64-bit integer; [N.sub] is [saturating_sub]. *)
Definition usize_max : N := 18446744073709551615%N.
Definition saturating_add (a b : N) : N := N.min (a + b) usize_max.
Definition saturating_mul (a b : N) : N := N.min (a * b) usize_max.
#[global] Opaque usize_max.

(** Lexicographic order of strings ([Ord for str] compares UTF-8 bytes, which
    orders as the scalar values do). *)
Fixpoint str_compare (a b : str) : comparison :=
  match a, b with
  | [], [] => Eq
  | [], _ :: _ => Lt
  | _ :: _, [] => Gt
  | c :: a', d :: b' =>
      match N.compare c d with Eq => str_compare a' b' | o => o end
  end.

(** ** Results *)

(** Rust's [Result]; [?] is the bind of the monad. *)
Inductive result (E A : Type) : Type :=
| Ok (a : A)
| Err (e : E).
Arguments Ok {E A} a.
Arguments Err {E A} e.

#[global] Instance result_ret E : MRet (result E) := λ A a, Ok a.
#[global] Instance result_bind E : MBind (result E) := λ A B f m,
  match m with Ok a => f a | Err e => Err e end.
#[global] Instance result_fmap E : FMap (result E) := λ A B f m,
  match m with Ok a => Ok (f a) | Err e => Err e end.
#[global] Instance result_eq_dec `{EqDecision E, EqDecision A} : EqDecision (result E A).
Proof. solve_decision. Defined.

Definition map_err {E F A} (f : E → F) (r : result E A) : result F A :=
  match r with Ok a => Ok a | Err e => Err (f e) end.
Definition ok_or {E A} (e : E) (o : option A) : result E A :=
  match o with Some a => Ok a | None => Err e end.
Definition is_ok {E A} (r : result E A) : bool :=
  match r with Ok _ => true | Err _ => false end.
Definition or_else {A} (a b : option A) : option A :=
  match a with Some _ => a | None => b end.
Definition is_some_b {A} (o : option A) : bool :=
  match o with Some _ => true | None => false end.
Definition opt_filter {A} (f : A → bool) (o : option A) : option A :=
  match o with Some a => if f a then Some a else None | None => None end.
Definition unwrap_or {A} (d : A) (o : option A) : A :=
  match o with Some a => a | None => d end.

(** ** Containers *)

(** A [HashMap] iterates in an arbitrary order: what the code may rely on is
    that every entry comes exactly once. *)
Class HashOrder := {
  hash_iter : ∀ {V : Type}, gmap str V → list (str * V);
  hash_iter_perm : ∀ (V : Type) (m : gmap str V), hash_iter m ≡ₚ map_to_list m
}.

(** [Iterator::min_by]: the first of the least elements. *)
Definition min_by {A} (cmp : A → A → comparison) (l : list A) : option A :=
  match l with
  | [] => None
  | x :: r => Some (foldl (λ best y, match cmp best y with Gt => y | _ => best end) x r)
  end.

(** [Iterator::max_by_key]: the last of the greatest elements. *)
Fixpoint max_by_key_from {A} (key : A → Z) (best : A) (l : list A) : A :=
  match l with
  | [] => best
  | x :: r => max_by_key_from key (if (key best <=? key x)%Z then x else best) r
  end.
Definition max_by_key {A} (key : A → Z) (l : list A) : option A :=
  match l with [] => None | x :: r => Some (max_by_key_from key x r) end.

(** Keeping the first occurrence of each element, with the set of those seen
    ([filter(|x| seen.insert(x))]). *)
Fixpoint dedup_from (seen : gset str) (l : list str) : list str :=
  match l with
  | [] => []
  | x :: r => if decide (x ∈ seen) then dedup_from seen r
              else x :: dedup_from ({[x]} ∪ seen) r
  end.

(** A stable insertion sort by a boolean order ([slice::sort_by]). *)
Fixpoint insert_sorted {A} (le : A → A → bool) (x : A) (l : list A) : list A :=
  match l with
  | [] => [x]
  | y :: r => if le x y then x :: l else y :: insert_sorted le x r
  end.
Fixpoint sort_by {A} (le : A → A → bool) (l : list A) : list A :=
  match l with
  | [] => []
  | x :: r => insert_sorted le x (sort_by le r)
  end.

(** ** Automation *)

Create HintDb codex.
Create Rewrite HintDb codex_rw.

(** Lengths of lists of strings agree up to the name of the type. *)
Ltac slia := unfold str in *; lia.

Ltac case_matches := repeat (case_match; simplify_eq/=).
Ltac solve_by_cases := intros; repeat (case_match || case_decide); simplify_eq/=; eauto with codex.
(** A closed goal that evaluation settles. *)
Ltac eval_done := first [vm_compute; reflexivity | vm_compute; congruence | done].

(** ** Lemmas: strings *)

Lemma str_eqb_eq (a b : str) : (a =s? b) = true ↔ a = b.
Proof. apply bool_decide_eq_true. Qed.

Lemma str_eqb_refl (a : str) : (a =s? a) = true.
Proof. by apply str_eqb_eq. Qed.

Lemma str_eqb_neq (a b : str) : (a =s? b) = false ↔ a ≠ b.
Proof. apply bool_decide_eq_false. Qed.

Lemma is_empty_true {A} (l : list A) : is_empty l = true ↔ l = [].
Proof. by destruct l. Qed.

Lemma is_empty_false {A} (l : list A) : is_empty l = false ↔ l ≠ [].
Proof. by destruct l. Qed.

Lemma drop_while_suffix f s : ∃ p, s = p ++ drop_while f s ∧ Forall (λ c, f c = true) p.
Proof.
  induction s as [|c s [p [Hs Hp]]]; simpl; [by exists nil|].
  destruct (f c) eqn:E; last by exists nil.
  exists (c :: p). split; [by rewrite {1}Hs|by constructor].
Qed.

Lemma drop_while_head f s c r : drop_while f s = c :: r → f c = false.
Proof. induction s as [|d s IH]; intros; simplify_eq/=; case_matches; auto. Qed.

Lemma drop_while_id f s : (∀ c r, s = c :: r → f c = false) → drop_while f s = s.
Proof. destruct s as [|c s]; simpl; [done|]. intros H. by rewrite (H c s). Qed.

Lemma drop_while_all f s : Forall (λ c, f c = true) s → drop_while f s = [].
Proof. induction 1 as [|c s Hc _ IH]; simpl; [done|]. by rewrite Hc. Qed.

Lemma drop_while_nil f s : drop_while f s = [] → Forall (λ c, f c = true) s.
Proof.
  intros H. destruct (drop_while_suffix f s) as (p & Hs & Hp).
  by rewrite Hs H app_nil_r.
Qed.

Lemma trim_end_matches_prefix f s :
  ∃ q, s = trim_end_matches f s ++ q ∧ Forall (λ c, f c = true) q.
Proof.
  unfold trim_end_matches. destruct (drop_while_suffix f (reverse s)) as (p & Hs & Hp).
  exists (reverse p). split; [|by apply Forall_reverse].
  by rewrite -reverse_app -Hs reverse_involutive.
Qed.

Lemma trim_end_matches_last f s r c : trim_end_matches f s = r ++ [c] → f c = false.
Proof.
  unfold trim_end_matches. intros H.
  assert (drop_while f (reverse s) = c :: reverse r) as H'.
  { rewrite -(reverse_involutive (drop_while f (reverse s))) H reverse_app. done. }
  by eapply drop_while_head.
Qed.

Lemma trim_end_matches_id f s :
  (∀ r c, s = r ++ [c] → f c = false) → trim_end_matches f s = s.
Proof.
  intros H. unfold trim_end_matches. rewrite drop_while_id; last by rewrite reverse_involutive.
  intros c r Hr. apply (H (reverse r)).
  by rewrite -(reverse_involutive s) Hr reverse_cons.
Qed.

Lemma trim_end_matches_idemp f s :
  trim_end_matches f (trim_end_matches f s) = trim_end_matches f s.
Proof. apply trim_end_matches_id. intros r c. apply trim_end_matches_last. Qed.

Lemma trim_end_matches_head f s c r :
  trim_end_matches f s = c :: r → ∃ r', s = c :: r'.
Proof.
  intros H. destruct (trim_end_matches_prefix f s) as (q & Hq & _).
  rewrite H in Hq. eauto.
Qed.

Lemma trim_matches_idemp f s : trim_matches f (trim_matches f s) = trim_matches f s.
Proof.
  unfold trim_matches, trim_start_matches.
  rewrite (drop_while_id f (trim_end_matches f (drop_while f s))).
  - intros c r Hr. apply trim_end_matches_head in Hr as [r' Hr'].
    by eapply drop_while_head.
  - apply trim_end_matches_idemp.
Qed.

Lemma trim_idemp s : trim (trim s) = trim s.
Proof. apply trim_matches_idemp. Qed.

Lemma trim_infix s : ∃ p q, s = p ++ trim s ++ q
  ∧ Forall (λ c, is_whitespace c = true) p ∧ Forall (λ c, is_whitespace c = true) q.
Proof.
  destruct (drop_while_suffix is_whitespace s) as (p & Hs & Hp).
  destruct (trim_end_matches_prefix is_whitespace (drop_while is_whitespace s)) as (q & Hq & Hqs).
  exists p, q. split; [|done]. unfold trim, trim_matches, trim_start_matches.
  by rewrite -Hq.
Qed.

Lemma trim_nil_iff s : trim s = [] ↔ Forall (λ c, is_whitespace c = true) s.
Proof.
  split.
  - destruct (trim_infix s) as (p & q & Hs & Hp & Hq). intros H.
    rewrite Hs H. by apply Forall_app.
  - intros H. unfold trim, trim_matches, trim_start_matches.
    by rewrite drop_while_all.
Qed.

(** [s] stands between characters that trimming would keep. *)
Lemma trim_padded s ws :
  Forall (λ c, is_whitespace c = true) ws →
  (∀ c r, s = c :: r → is_whitespace c = false) → (∀ r c, s = r ++ [c] → is_whitespace c = false) →
  s ≠ [] → trim (s ++ ws) = s.
Proof.
  intros Hws Hfirst Hlast Hne. unfold trim, trim_matches, trim_start_matches, trim_end_matches.
  rewrite (drop_while_id _ (s ++ ws)). { intros c r Hs. destruct s; simplify_eq/=. by eapply Hfirst. }
  destruct s as [|c s _] using rev_ind; [done|]. rewrite reverse_app.
  rewrite -{2}(reverse_involutive (s ++ [c])). f_equal. rewrite reverse_snoc.
  assert (∀ a b, Forall (λ c, is_whitespace c = true) a → is_whitespace c = false →
    drop_while is_whitespace (a ++ c :: b) = c :: b) as Hdrop.
  { intros a b Ha Hc. induction Ha as [|x a Hx _ IH]; simpl; [by rewrite Hc|by rewrite Hx]. }
  apply Hdrop; [by apply Forall_reverse|by eapply Hlast].
Qed.

Lemma trim_id s :
  (∀ c r, s = c :: r → is_whitespace c = false) → (∀ r c, s = r ++ [c] → is_whitespace c = false) → trim s = s.
Proof.
  intros Hf Hl. destruct s as [|c s]; [done|]. rewrite -{1}(app_nil_r (c :: s)). by apply trim_padded.
Qed.

Lemma trim_not_empty c s : is_whitespace c = false → is_empty (trim (c :: s)) = false.
Proof.
  intros Hc. apply is_empty_false. intros Hs%trim_nil_iff. inversion Hs as [|? ? Hw]. by rewrite Hc in Hw.
Qed.

Lemma strip_prefix_Some p s r : strip_prefix p s = Some r ↔ s = p ++ r.
Proof.
  revert s; induction p as [|c p IH]; intros s; simpl; [naive_solver|].
  destruct s as [|d s]; [naive_solver|].
  destruct (N.eqb_spec c d) as [->|Hne]; [|naive_solver].
  rewrite IH. naive_solver.
Qed.

Lemma starts_with_spec p s : starts_with p s = true ↔ ∃ r, s = p ++ r.
Proof.
  unfold starts_with. destruct (strip_prefix p s) as [r|] eqn:E.
  - apply strip_prefix_Some in E. naive_solver.
  - split; [done|]. intros [r Hr]. apply strip_prefix_Some in Hr. congruence.
Qed.

Lemma strip_suffix_Some p s r : strip_suffix p s = Some r ↔ s = r ++ p.
Proof.
  unfold strip_suffix. rewrite fmap_Some. split.
  - intros (x & Hx & ->). apply strip_prefix_Some in Hx.
    by rewrite -(reverse_involutive s) Hx reverse_app reverse_involutive.
  - intros ->. exists (reverse r). split; [|by rewrite reverse_involutive].
    apply strip_prefix_Some. apply reverse_app.
Qed.

Lemma strip_prefix_app p r : strip_prefix p (p ++ r) = Some r.
Proof. by apply strip_prefix_Some. Qed.

Lemma split_on_not_nil c s : split_on c s ≠ [].
Proof. destruct s; simpl; [done|]. repeat case_match; done. Qed.

Lemma join_cons sep x l : l ≠ [] → join sep (x :: l) = x ++ sep ++ join sep l.
Proof. by destruct l. Qed.

Lemma join_snoc sep ls l : ls ≠ [] → join sep (ls ++ [l]) = join sep ls ++ sep ++ l.
Proof.
  induction ls as [|x ls IH]; [done|]. intros _. destruct ls as [|y ls]; [done|].
  rewrite -app_comm_cons join_cons; [by destruct ls|]. rewrite IH // (join_cons sep x (y :: ls)) //. by rewrite -!app_assoc.
Qed.

Lemma join_split_on c s : join [c] (split_on c s) = s.
Proof.
  induction s as [|d s IH]; [done|]. simpl.
  destruct (N.eqb_spec c d) as [->|Hne].
  - rewrite join_cons; [apply split_on_not_nil|by rewrite IH].
  - destruct (split_on c s) as [|p ps] eqn:E; [by destruct (split_on_not_nil c s)|].
    rewrite -IH. by destruct ps.
Qed.

Lemma split_on_app c p s :
  c ∉ p → split_on c (p ++ c :: s) = p :: split_on c s.
Proof.
  induction p as [|d p IH]; simpl; intros H.
  - by rewrite N.eqb_refl.
  - apply not_elem_of_cons in H as [Hcd Hp]. apply N.eqb_neq in Hcd.
    by rewrite Hcd IH.
Qed.

Lemma split_on_none c p : c ∉ p → split_on c p = [p].
Proof.
  induction p as [|d p IH]; simpl; intros H; [done|].
  apply not_elem_of_cons in H as [Hcd Hp]. apply N.eqb_neq in Hcd.
  by rewrite Hcd IH.
Qed.

Lemma split_join c (l : list str) :
  l ≠ [] → Forall (λ p, c ∉ p) l → split_on c (join [c] l) = l.
Proof.
  intros Hne Hl. induction Hl as [|p l Hp Hl IH]; [done|].
  destruct l as [|q l]; [by apply split_on_none|].
  rewrite join_cons //. rewrite split_on_app // IH //.
Qed.

Lemma split_on_pieces c s : Forall (λ p, c ∉ p) (split_on c s).
Proof.
  induction s as [|d s IH]; simpl.
  - repeat constructor. apply not_elem_of_nil.
  - destruct (N.eqb_spec c d) as [->|Hne].
    + constructor; [apply not_elem_of_nil|done].
    + destruct (split_on c s) as [|p ps]; [repeat constructor; set_solver|].
      inversion IH; subst. constructor; [set_solver|done].
Qed.

Lemma split_once_Some c s a b : split_once c s = Some (a, b) → s = a ++ c :: b.
Proof.
  revert a. induction s as [|d s IH]; intros a; [done|]. simpl. destruct (N.eqb_spec d c) as [->|]; [by intros [= <- <-]|].
  intros ([a' b'] & Hs & [= <- <-])%bind_Some. by rewrite (IH _ Hs).
Qed.

Lemma rsplit_once_Some c s a b : rsplit_once c s = Some (a, b) → s = a ++ c :: b.
Proof.
  unfold rsplit_once. intros ([b' a'] & Hs%split_once_Some & [= <- <-])%bind_Some.
  apply (f_equal reverse) in Hs. rewrite reverse_involutive in Hs. by rewrite Hs reverse_app reverse_cons -app_assoc.
Qed.

Lemma contains_char_false c s : contains_char c s = false ↔ c ∉ s.
Proof.
  unfold contains_char. rewrite -not_true_iff_false existsb_exists. setoid_rewrite <-list_elem_of_In.
  split; [intros H Hc; apply H; exists c; by rewrite N.eqb_refl|]. intros H (d & Hd & ->%N.eqb_eq). done.
Qed.

(** A small character of the normal form is one of the text. *)
Lemma bind_Ok {E A B} (m : result E A) (f : A → result E B) b :
  (a ← m; f a) = Ok b ↔ ∃ a, m = Ok a ∧ f a = Ok b.
Proof. destruct m; simpl; naive_solver. Qed.

Lemma map_err_Ok {E F A} (f : E → F) (m : result E A) a : map_err f m = Ok a ↔ m = Ok a.
Proof. destruct m; naive_solver. Qed.

(** A line that [lines] returns as it is. *)
Definition line_ok (l : str) : Prop := (ch_nl ∉ l) ∧ last l ≠ Some ch_cr.

Lemma strip_cr_id l : last l ≠ Some ch_cr → strip_cr l = l.
Proof.
  unfold strip_cr. destruct (strip_suffix [ch_cr] l) as [r|] eqn:Hs; [|done].
  apply strip_suffix_Some in Hs as ->. by rewrite last_snoc.
Qed.

Lemma lines_join ls : Forall line_ok ls → last ls ≠ Some [] → lines (join [ch_nl] ls) = ls.
Proof.
  intros Hok Hlast. unfold lines. destruct (decide (ls = [])) as [->|Hne]; [done|].
  rewrite split_join //; [by eapply Forall_impl; [exact Hok|intros l []]|]. clear Hne.
  induction Hok as [|l ls [_ Hl] _ IH]; [done|]. destruct ls as [|l' ls].
  - simpl in *. by destruct l.
  - change ((strip_cr l :: lines_of_pieces (l' :: ls)) = l :: l' :: ls). by rewrite strip_cr_id // IH.
Qed.

Lemma str_len_app a b : str_len (a ++ b) = str_len a + str_len b.
Proof. induction a; simpl; lia. Qed.

Lemma utf8_width_pos c : 0 < utf8_width c.
Proof. unfold utf8_width. repeat case_match; lia. Qed.

Lemma str_len_zero s : str_len s = 0 → s = [].
Proof. destruct s as [|c s]; simpl; [done|]. pose proof (utf8_width_pos c). lia. Qed.

(** Of two prefixes of one string the byte lengths decide which is longer. *)
Lemma prefix_len_eq a b x y : a ++ x = b ++ y → str_len a = str_len b → a = b.
Proof.
  revert b; induction a as [|c a IH]; intros [|d b]; simpl; intros H Hl; try done.
  - pose proof (utf8_width_pos d). lia.
  - pose proof (utf8_width_pos c). lia.
  - simplify_eq. f_equal. apply IH; [done|lia].
Qed.

Lemma split_on_app_sep c s t : split_on c (s ++ c :: t) = split_on c s ++ split_on c t.
Proof.
  induction s as [|d s IH]; simpl; [by rewrite N.eqb_refl|].
  destruct (N.eqb_spec c d) as [->|_]; [by rewrite IH|].
  rewrite IH. destruct (split_on c s) eqn:E; [by destruct (split_on_not_nil c s)|done].
Qed.

Lemma lines_of_terminated ps : lines_of_pieces (ps ++ [[]]) = map strip_cr ps.
Proof. induction ps as [|p ps IH]; [done|]. simpl. rewrite -IH. by destruct ps. Qed.

Lemma lines_terminated b : lines (b ++ [ch_nl]) = map strip_cr (split_on ch_nl b).
Proof. unfold lines. by rewrite split_on_app_sep -lines_of_terminated. Qed.

Lemma split_lines_none line : ch_nl ∉ line → line ≠ [] → split_lines line = [line].
Proof.
  induction line as [|c l IH]; [done|]. intros [Hc Hl]%not_elem_of_cons _. simpl.
  destruct (N.eqb_spec c ch_nl); [congruence|]. destruct l as [|d l]; [done|]. by rewrite IH.
Qed.

Lemma split_lines_cons line r : ch_nl ∉ line → split_lines (line ++ ch_nl :: r) = (line ++ [ch_nl]) :: split_lines r.
Proof.
  induction line as [|c l IH]; [done|]. intros [Hc Hl]%not_elem_of_cons. simpl.
  destruct (N.eqb_spec c ch_nl); [congruence|]. by rewrite IH.
Qed.

(** [n] stands in [s] at position [i]. *)
Definition occurs_at (n s : str) (i : nat) : Prop := ∃ a b, s = a ++ n ++ b ∧ length a = i.

Lemma occurs_at_0 n s : occurs_at n s 0 ↔ starts_with n s = true.
Proof.
  rewrite starts_with_spec. split.
  - intros (a & b & -> & ->%nil_length_inv). by exists b.
  - intros [r ->]. by exists [], r.
Qed.

Lemma occurs_at_S n c s i : occurs_at n (c :: s) (S i) ↔ occurs_at n s i.
Proof.
  split.
  - intros ([|d a] & b & Hs & Hl); simplify_eq/=. by exists a, b.
  - intros (a & b & -> & <-). by exists (c :: a), b.
Qed.

Lemma find_str_Some n s i : find_str n s = Some i ↔ occurs_at n s i ∧ ∀ j, j < i → ¬ occurs_at n s j.
Proof.
  revert i. induction s as [|c s IH]; intros i; cbn [find_str]; destruct (starts_with n _) eqn:E.
  1, 3: split; [intros [= <-]; split; [by apply occurs_at_0|lia]|];
    intros [_ Hj]; destruct i as [|i]; [done|]; destruct (Hj 0); [lia|by apply occurs_at_0].
  - split; [done|]. intros [(a & b & Hs & _) _]. destruct a, n, b; simplify_eq/=.
  - rewrite fmap_Some. split.
    + intros (k & [Hk Hmin]%IH & ->). split; [by apply occurs_at_S|].
      intros [|j] Hj; [rewrite occurs_at_0 E //|]. rewrite occurs_at_S. apply Hmin. lia.
    + intros [Hi Hmin]. destruct i as [|i]; [apply occurs_at_0 in Hi; congruence|].
      exists i. split; [|done]. apply IH. split; [by apply occurs_at_S in Hi|].
      intros j Hj Ho. apply (Hmin (S j)); [lia|by apply occurs_at_S].
Qed.

Lemma find_str_None n s : find_str n s = None ↔ ∀ i, ¬ occurs_at n s i.
Proof.
  split.
  - intros Hn i. induction i as [i IH] using lt_wf_ind. intros Ho.
    assert (find_str n s = Some i) by (by apply find_str_Some). congruence.
  - intros Hno. destruct (find_str n s) as [i|] eqn:E; [|done]. apply find_str_Some in E as [Ho _].
    by destruct (Hno i).
Qed.

(** The search in a string whose first [d] positions hold no occurrence. *)
Lemma find_str_shift n s s' d :
  (∀ i, occurs_at n s i ↔ ∃ j, i = d + j ∧ occurs_at n s' j) →
  find_str n s = (λ j, d + j) <$> find_str n s'.
Proof.
  intros Hiff. destruct (find_str n s') as [j|] eqn:E; simpl.
  - apply find_str_Some in E as [Ho Hmin]. apply find_str_Some. split; [apply Hiff; eauto|].
    intros k Hk (l & -> & Hl)%Hiff. apply (Hmin l); [lia|done].
  - apply find_str_None. intros i (l & -> & Hl)%Hiff. by eapply find_str_None in E.
Qed.

Lemma find_str_app n s t i : find_str n s = Some i → find_str n (s ++ t) = Some i.
Proof.
  intros [(a & b & -> & <-) Hmin]%find_str_Some. apply find_str_Some. split.
  - exists a, (b ++ t). by rewrite -!app_assoc.
  - intros j Hj (a' & b' & Hs & <-). apply (Hmin (length a')); [done|].
    exists a', (drop (length a' + length n) (a ++ n ++ b)). split; [|done].
    assert (take (length a' + length n) (a ++ n ++ b) = a' ++ n) as Ht; last by rewrite (app_assoc a') -Ht take_drop.
    rewrite -(take_app_le _ t); [rewrite !length_app; slia|].
    by rewrite Hs app_assoc take_app_le ?length_app // -length_app firstn_all.
Qed.

(** ** Lemmas: [usize] *)

Lemma saturating_saturating a b c : saturating_add (saturating_add a b) c = saturating_add a (b + c).
Proof. unfold saturating_add. lia. Qed.
Lemma saturating_add_0 a : (a <= usize_max)%N → saturating_add a 0 = a.
Proof. unfold saturating_add. lia. Qed.
Lemma saturating_small a b : (a + b <= usize_max)%N → saturating_add a b = (a + b)%N.
Proof. unfold saturating_add. lia. Qed.

(** ** Lemmas: lists *)

Section min_by.
Context {A : Type} (cmp : A → A → comparison).
Context (cmp_trans : ∀ x y z, cmp x y ≠ Gt → cmp y z ≠ Gt → cmp x z ≠ Gt).
Context (cmp_flip : ∀ x y, cmp x y = Gt → cmp y x ≠ Gt) (cmp_refl : ∀ x, cmp x x ≠ Gt).

Lemma min_by_Some l x : min_by cmp l = Some x → x ∈ l ∧ ∀ y, y ∈ l → cmp x y ≠ Gt.
Proof using Type*.
  destruct l as [|b l]; [done|]. intros [= <-]. revert b.
  induction l as [|y l IH]; intros b; simpl.
  - split; [by left|]. by intros z ->%list_elem_of_singleton.
  - set (b' := match cmp b y with Gt => y | _ => b end).
    assert (cmp b' b ≠ Gt ∧ cmp b' y ≠ Gt ∧ (b' = b ∨ b' = y)) as (Hb & Hy & Hb').
    { unfold b'. destruct (cmp b y) eqn:E; repeat split; auto; congruence. }
    destruct (IH b') as [Hin Hmin]. pose proof (Hmin b' ltac:(left)) as Hm. split.
    + rewrite !elem_of_cons. apply elem_of_cons in Hin as [->|Hin]; [tauto|by do 2 right].
    + intros z [->|[->|Hz]%elem_of_cons]%elem_of_cons; [by eapply cmp_trans..|]. apply Hmin. by right.
Qed.
End min_by.

Lemma min_by_None {A} (cmp : A → A → comparison) l : min_by cmp l = None ↔ l = [].
Proof. by destruct l. Qed.

Lemma min_by_map {A B} (cmp : A → A → comparison) (cmp' : B → B → comparison) (f : A → B) l :
  (∀ x y, cmp' (f x) (f y) = cmp x y) → min_by cmp' (f <$> l) = f <$> min_by cmp l.
Proof.
  intros Hf. destruct l as [|x l]; [done|]. simpl. f_equal. revert x.
  induction l as [|y l IH]; intros x; simpl; [done|]. rewrite Hf -IH. by destruct (cmp x y).
Qed.

Lemma dedup_from_elem seen l x : x ∈ dedup_from seen l ↔ x ∈ l ∧ x ∉ seen.
Proof.
  revert seen; induction l as [|y l IH]; intros seen; simpl.
  - split; [inversion 1|intros [H _]; inversion H].
  - case_decide; rewrite elem_of_cons; [rewrite IH; naive_solver|].
    rewrite elem_of_cons IH not_elem_of_union not_elem_of_singleton.
    destruct (decide (x = y)); naive_solver.
Qed.

Lemma dedup_from_NoDup seen l : NoDup (dedup_from seen l).
Proof.
  revert seen; induction l as [|y l IH]; intros seen; simpl; [constructor|].
  case_decide; [done|]. constructor; [|done].
  rewrite dedup_from_elem. set_solver.
Qed.

Lemma max_by_key_from_spec {A} (key : A → Z) best l :
  (max_by_key_from key best l = best ∨ max_by_key_from key best l ∈ l)
  ∧ (∀ x, x ∈ best :: l → (key x <= key (max_by_key_from key best l))%Z).
Proof.
  revert best; induction l as [|y l IH]; intros best; simpl.
  - split; [by left|]. intros x ->%list_elem_of_singleton. lia.
  - destruct (IH (if (key best <=? key y)%Z then y else best)) as [Hin Hge].
    assert (key best <= key (if (key best <=? key y)%Z then y else best)
            ∧ key y <= key (if (key best <=? key y)%Z then y else best))%Z as [Hb Hy].
    { destruct (Z.leb_spec (key best) (key y)); lia. }
    pose proof (Hge _ ltac:(by left)) as Hm. split.
    + destruct (Z.leb_spec (key best) (key y)); destruct Hin as [Hin|Hin]; set_solver.
    + intros x Hx. apply elem_of_cons in Hx as [->|Hx]; [lia|].
      apply elem_of_cons in Hx as [->|Hx]; [lia|].
      apply Hge. by right.
Qed.

Lemma max_by_key_Some {A} (key : A → Z) l x :
  max_by_key key l = Some x → x ∈ l ∧ (∀ y, y ∈ l → (key y <= key x)%Z).
Proof.
  destruct l as [|y l]; [done|]. intros [= <-].
  destruct (max_by_key_from_spec key y l) as [[->|Hin] Hge]; split; try done; set_solver.
Qed.

Lemma max_by_key_None {A} (key : A → Z) l : max_by_key key l = None ↔ l = [].
Proof. by destruct l. Qed.

Lemma insert_sorted_perm {A} (le : A → A → bool) x l : insert_sorted le x l ≡ₚ x :: l.
Proof.
  induction l as [|y l IH]; simpl; [done|]. case_match; [done|].
  rewrite IH. apply Permutation_swap.
Qed.

Lemma sort_by_perm {A} (le : A → A → bool) l : sort_by le l ≡ₚ l.
Proof. induction l as [|x l IH]; simpl; [done|]. by rewrite insert_sorted_perm IH. Qed.

Section sorting.
Context {A : Type} (le : A → A → bool).
Context (le_total : ∀ x y, le x y = true ∨ le y x = true).

Lemma insert_sorted_HdRel x y l :
  le x y = true → HdRel (λ a b, le a b = true) x l →
  HdRel (λ a b, le a b = true) x (insert_sorted le y l).
Proof. intros Hxy Hl. destruct l as [|z l]; simpl; [by constructor|]. inversion Hl. case_match; by constructor. Qed.

Lemma insert_sorted_Sorted x l :
  Sorted (λ a b, le a b = true) l → Sorted (λ a b, le a b = true) (insert_sorted le x l).
Proof.
  induction 1 as [|y l Hl IH Hy]; simpl; [by repeat constructor|].
  destruct (le x y) eqn:E; [repeat constructor; done|].
  constructor; [done|]. apply insert_sorted_HdRel; [|done].
  destruct (le_total x y); congruence.
Qed.

Lemma sort_by_Sorted l : Sorted (λ a b, le a b = true) (sort_by le l).
Proof. induction l; simpl; [constructor|by apply insert_sorted_Sorted]. Qed.
End sorting.

Section hash_order.
Context `{HashOrder} {V : Type} (m : gmap str V).

Lemma elem_of_hash_iter i x : (i, x) ∈ hash_iter m ↔ m !! i = Some x.
Proof. by rewrite hash_iter_perm elem_of_map_to_list. Qed.

Lemma hash_iter_nil : hash_iter m = [] ↔ m = ∅.
Proof.
  split.
  - intros Hm. apply map_to_list_empty_iff. apply Permutation_nil. by rewrite -Hm hash_iter_perm.
  - intros ->. apply Permutation_nil. by rewrite hash_iter_perm map_to_list_empty.
Qed.

Lemma hash_iter_NoDup_fst : NoDup (hash_iter m).*1.
Proof. rewrite hash_iter_perm. apply NoDup_fst_map_to_list. Qed.

Lemma hash_iter_length : length (hash_iter m) = size m.
Proof. by rewrite hash_iter_perm length_map_to_list. Qed.
End hash_order.

(** A concrete iteration order, for evaluation. *)
Definition map_order : HashOrder := {|
  hash_iter := λ V m, map_to_list m;
  hash_iter_perm := λ V m, Permutation_refl _
|}.

Lemma reverse_order_perm (V : Type) (m : gmap str V) : reverse (map_to_list m) ≡ₚ map_to_list m.
Proof. apply reverse_Permutation. Qed.

(** And its reverse. *)
Definition reverse_order : HashOrder := {|
  hash_iter := λ V m, reverse (map_to_list m);
  hash_iter_perm := reverse_order_perm
|}.

#[export] Hint Resolve str_eqb_refl trim_idemp dedup_from_NoDup : codex.
#[export] Hint Rewrite trim_idemp str_eqb_eq str_eqb_neq @is_empty_true @is_empty_false : codex_rw.
