(* ===== verification/Json.v ===== *)
(** JSON values as [serde_json] represents them, with the accessors the code
    uses: [Value::get], [as_str], [as_array], [as_object], [as_u64], [as_i64],
    [as_bool], and the insertion, removal and key iteration of its map.
    The map is a [BTreeMap] (the crate is built without [preserve_order]):
    an association list in increasing order of its keys. *)
From S2P Require Import Prelude.

(** A JSON number is an unsigned or a negative 64-bit integer, or a float.
    Of a float the code only uses the conversion [as i64], so it is kept as
    the result of that conversion. *)
Inductive number :=
| PosInt (n : Z)
| NegInt (n : Z)
| Float (as_i64_cast : Z).

Inductive value :=
| VNull
| VBool (b : bool)
| VNumber (n : number)
| VString (s : str)
| VArray (l : list value)
| VObject (m : list (str * value)).

Definition object : Type := list (str * value).

(** [Map::get]. *)
Fixpoint obj_get (k : str) (m : object) : option value :=
  match m with
  | [] => None
  | (k', v) :: r => if k =s? k' then Some v else obj_get k r
  end.

(** [get(k)] followed by [f]: the form a structural recursion accepts. *)
Definition obj_get_with {A} (k : str) (f : value → A) (d : A) : object → A :=
  fix go m :=
    match m with
    | [] => d
    | (k', v) :: r => if k =s? k' then f v else go r
    end.

Definition obj_contains_key (k : str) (m : object) : bool := is_some_b (obj_get k m).
Definition obj_keys (m : object) : list str := m.*1.

(** [Map::insert], at the key's place in the order. *)
Fixpoint obj_insert (k : str) (v : value) (m : object) : object :=
  match m with
  | [] => [(k, v)]
  | (k', v') :: r =>
      match str_compare k k' with
      | Lt => (k, v) :: m
      | Eq => (k, v) :: r
      | Gt => (k', v') :: obj_insert k v r
      end
  end.
Definition obj_retain (f : str → bool) (m : object) : object := filter (λ kv, f kv.1 = true) m.

(** [json!({ ... })]: keys inserted one after the other. *)
Definition mk_object (kvs : list (str * value)) : object :=
  foldl (λ m kv, obj_insert kv.1 kv.2 m) [] kvs.

(** [Value::get] of a string key: [None] on anything but an object. *)
Definition get (k : str) (v : value) : option value :=
  match v with VObject m => obj_get k m | _ => None end.
(** [get(a).or_else(|| get(b))]. *)
Definition get2 (a b : str) (v : value) : option value := or_else (get a v) (get b v).

Definition as_str (v : value) : option str := match v with VString s => Some s | _ => None end.
Definition as_array (v : value) : option (list value) := match v with VArray l => Some l | _ => None end.
Definition as_object (v : value) : option object := match v with VObject m => Some m | _ => None end.
Definition as_bool (v : value) : option bool := match v with VBool b => Some b | _ => None end.
Definition as_u64 (v : value) : option Z :=
  match v with VNumber (PosInt n) => Some n | _ => None end.
Definition i64_max : Z := 9223372036854775807.
Definition as_i64 (v : value) : option Z :=
  match v with
  | VNumber (PosInt n) => if (n <=? i64_max)%Z then Some n else None
  | VNumber (NegInt n) => Some n
  | _ => None
  end.
(** [as_f64().map(|f| f as i64)]: an integer that [as_i64] refuses is above
    [i64::MAX], where the cast of its float saturates. *)
Definition as_f64_cast (v : value) : option Z :=
  match v with
  | VNumber (Float z) => Some z
  | VNumber (PosInt n) => Some (Z.min n i64_max)
  | VNumber (NegInt n) => Some n
  | _ => None
  end.

Definition vstr (s : str) : value := VString s.

(** ** Lemmas *)

Lemma obj_get_with_spec {A} k (f : value → A) d m :
  obj_get_with k f d m = from_option f d (obj_get k m).
Proof. induction m as [|[k' v] m IH]; simpl; [done|]. by case_match. Qed.

Lemma str_compare_eq a b : str_compare a b = Eq ↔ a = b.
Proof.
  revert b; induction a as [|c a IH]; intros [|d b]; simpl; try done.
  destruct (N.compare_spec c d) as [->|H|H]; [rewrite IH; naive_solver|..];
    split; try done; intros [= -> ->]; lia.
Qed.

Lemma str_compare_refl a : str_compare a a = Eq.
Proof. by apply str_compare_eq. Qed.

Lemma str_compare_antisym a b : str_compare b a = CompOpp (str_compare a b).
Proof.
  revert b; induction a as [|c a IH]; intros [|d b]; simpl; try done.
  rewrite N.compare_antisym. by destruct (N.compare c d); simpl.
Qed.

Lemma str_compare_lt_trans a b c :
  str_compare a b = Lt → str_compare b c = Lt → str_compare a c = Lt.
Proof.
  revert b c; induction a as [|x a IH]; intros [|y b] [|z c]; simpl; try done.
  destruct (N.compare_spec x y), (N.compare_spec y z), (N.compare_spec x z);
    subst; intros; try done; try lia; eauto.
Qed.

Lemma obj_get_insert_eq k v m : obj_get k (obj_insert k v m) = Some v.
Proof.
  induction m as [|[k' v'] m IH]; simpl; [by rewrite str_eqb_refl|].
  destruct (str_compare k k') eqn:E; simpl; rewrite ?str_eqb_refl //.
  assert (k ≠ k') as Hne%str_eqb_neq.
  { intros ->. by rewrite str_compare_refl in E. }
  by rewrite Hne.
Qed.

Lemma obj_get_insert_ne k k' v m : k ≠ k' → obj_get k (obj_insert k' v m) = obj_get k m.
Proof.
  intros Hne. pose proof Hne as Hb%str_eqb_neq.
  induction m as [|[k2 v2] m IH]; simpl; [by rewrite Hb|].
  destruct (str_compare k' k2) eqn:E; simpl; rewrite ?Hb //.
  - apply str_compare_eq in E as ->. by rewrite Hb.
  - by rewrite IH.
Qed.

Lemma obj_get_retain f k m :
  obj_get k (obj_retain f m) = if f k then obj_get k m else None.
Proof.
  unfold obj_retain. induction m as [|[k' v] m IH]; simpl; [by case_match|].
  destruct (str_eqb k k') eqn:E.
  - apply str_eqb_eq in E as ->.
    destruct (f k') eqn:Hf.
    + rewrite filter_cons_True //=. by rewrite str_eqb_refl.
    + rewrite filter_cons_False /=; [congruence|done].
  - destruct (decide (f k' = true)).
    + rewrite filter_cons_True //=. by rewrite E.
    + rewrite filter_cons_False //.
Qed.

Lemma obj_get_elem k m v : obj_get k m = Some v → (k, v) ∈ m.
Proof.
  induction m as [|[k' v'] m IH]; simpl; [done|].
  destruct (str_eqb k k') eqn:E; intros; simplify_eq.
  - apply str_eqb_eq in E as ->. by left.
  - right. auto.
Qed.

(** Values nest through lists: the induction principle that says so. *)
Section value_ind.
Context (P : value → Prop).
Context (Hnull : P VNull) (Hbool : ∀ b, P (VBool b)) (Hnum : ∀ n, P (VNumber n))
  (Hstr : ∀ s, P (VString s)) (Harr : ∀ l, Forall P l → P (VArray l))
  (Hobj : ∀ m, Forall (λ kv, P kv.2) m → P (VObject m)).

Lemma value_nested_ind v : P v.
Proof.
  revert v. fix IH 1. intros [|b|n|s|l|m]; [done|done|done|done|apply Harr|apply Hobj].
  - induction l; constructor; auto.
  - induction m as [|[k v] m IHm]; constructor; [apply IH|apply IHm].
Qed.
End value_ind.

#[export] Hint Rewrite @obj_get_with_spec obj_get_insert_eq obj_get_retain : codex_rw.
#[export] Hint Resolve obj_get_insert_eq obj_get_insert_ne : codex.
