(* ===== verification/Paths.v ===== *)
(** Paths: the operations of [std::path] the code uses (on Unix, for paths that
    are valid Unicode), the Windows namespace normalisation of
    [src-tauri/src/utils.rs] and [src-tauri/src/storage.rs], the root
    normalisation of [backend/app_server.rs], and the naming of worktree and
    clone directories of [shared/worktree_core.rs]. *)
From S2P Require Import Prelude.

(** ** [std::path] *)

Inductive component := RootDir | CurDir | ParentDir | Normal (name : str).

#[global] Instance component_eq_dec : EqDecision component.
Proof. solve_decision. Defined.

Definition classify (p : str) : component :=
  if p =s? ".." then ParentDir else Normal p.

(** The pieces between slashes: empty ones and dots vanish. *)
Definition piece_components (ps : list str) : list component :=
  omap (λ p, if is_empty p || (p =s? ".") then None else Some (classify p)) ps.

Arguments piece_components ps : simpl never.

(** [Path::components]: a root first, a leading dot kept. *)
Definition components (p : str) : list component :=
  let ps := split_on ch_slash p in
  if starts_with [ch_slash] p then RootDir :: piece_components ps
  else match ps with
       | d :: r => if d =s? "." then CurDir :: piece_components r else piece_components ps
       | [] => []
       end.

(** [Path] equality and [Path::starts_with] compare components. *)
Definition path_eq (a b : str) : bool := bool_decide (components a = components b).
Definition path_starts_with (p base : str) : bool :=
  bool_decide (take (length (components base)) (components p) = components base).

(** [Path::join] and [Path::file_name]. *)
Definition path_join (base p : str) : str :=
  if starts_with [ch_slash] p then p
  else if is_empty base || ends_with [ch_slash] base then base ++ p
  else base ++ [ch_slash] ++ p.
Definition file_name (p : str) : option str :=
  match last (components p) with Some (Normal n) => Some n | _ => None end.

(** [Path::file_stem] and [Path::extension]: a dot at the beginning of a name
    is part of the stem. *)
Definition split_extension (name : str) : str * option str :=
  match rsplit_once ch_dot name with
  | Some (before, after) => if is_empty before then (name, None) else (before, Some after)
  | None => (name, None)
  end.
Definition file_stem (p : str) : option str := (λ n, (split_extension n).1) <$> file_name p.
Definition extension (p : str) : option str := n ← file_name p; (split_extension n).2.

(** ** Windows namespace prefixes *)

Definition strip_prefix_ascii_case (v prefix : str) : option str :=
  let n := length prefix in
  if (n <=? length v)%nat && eq_ignore_ascii_case (take n v) prefix then Some (drop n v) else None.

Definition starts_with_drive_path (v : str) : bool :=
  match v with
  | a :: b :: c :: _ =>
      is_ascii_alphabetic a && (b =? ch_colon)%N && ((c =? ch_backslash)%N || (c =? ch_slash)%N)
  | _ => false
  end.

Definition normalize_windows_namespace_path (path : str) : str :=
  if is_empty path then []
  else match strip_prefix_ascii_case path "\\?\UNC\" with
  | Some rest => lit "\\" ++ rest
  | None =>
  match strip_prefix_ascii_case path "//?/UNC/" with
  | Some rest => lit "//" ++ rest
  | None =>
  match opt_filter starts_with_drive_path (strip_prefix_ascii_case path "\\?\") with
  | Some rest => rest
  | None =>
  match opt_filter starts_with_drive_path (strip_prefix_ascii_case path "//?/") with
  | Some rest => rest
  | None =>
  match opt_filter starts_with_drive_path (strip_prefix_ascii_case path "\\.\") with
  | Some rest => rest
  | None =>
  match opt_filter starts_with_drive_path (strip_prefix_ascii_case path "//./") with
  | Some rest => rest
  | None => path
  end end end end end end.

(** ** Workspace roots (app_server.rs) *)

Definition is_drive_path (s : str) : bool :=
  match s with
  | a :: b :: c :: _ => is_ascii_alphabetic a && (b =? ch_colon)%N && (c =? ch_slash)%N
  | _ => false
  end.

Definition normalize_root_path (v : str) : str :=
  let normalized := replace_chars (N.eqb ch_backslash) ch_slash v in
  let normalized := trim_end_matches (N.eqb ch_slash) normalized in
  if is_empty normalized then []
  else
    let lower := to_ascii_lowercase normalized in
    let normalized :=
      if starts_with "//?/unc/" lower then lit "//" ++ drop 8 normalized
      else if starts_with "//?/" lower || starts_with "//./" lower then drop 4 normalized
      else normalized in
    if is_empty normalized then []
    else if is_drive_path normalized || starts_with "//" normalized
    then to_ascii_lowercase normalized
    else normalized.

(** ** Worktree and clone directories (worktree_core.rs) *)

Definition sanitize_char (ch : char) : char :=
  if is_ascii_alphanumeric ch || (ch =? ch_minus)%N || (ch =? ch_underscore)%N || (ch =? ch_dot)%N
  then ch else ch_minus.

Definition sanitize_name (v fallback : str) : str :=
  let trimmed := trim_matches (N.eqb ch_minus) (map sanitize_char v) in
  if is_empty trimmed then fallback else trimmed.

Definition sanitize_worktree_name (branch : str) : str := sanitize_name branch "worktree".
Definition sanitize_clone_dir_name (name : str) : str := sanitize_name name "copy".

(** [base_dir.join(format!("{name}-{index}"))] and the range [2..1000]. *)
Definition numbered_path (base_dir name : str) (index : N) : str :=
  path_join base_dir (name ++ lit "-" ++ show_N index).
Definition suffix_indices : list N := map N.of_nat (seq 2 998).

Definition no_worktree_path_error (base_dir : str) : str :=
  lit "Failed to find an available worktree path under " ++ base_dir ++ lit ".".

Section unique.
(** The file system: [Path::exists]. *)
Context (path_exists : str → bool).

Definition first_free (ok : str → bool) (base_dir name : str) : option str :=
  List.find ok (map (numbered_path base_dir name) suffix_indices).

Definition unique_worktree_path_best_effort (base_dir name : str) : str :=
  let candidate := path_join base_dir name in
  if negb (path_exists candidate) then candidate
  else unwrap_or candidate (first_free (λ p, negb (path_exists p)) base_dir name).

Definition unique_worktree_path_strict (base_dir name : str) : result str str :=
  let candidate := path_join base_dir name in
  if negb (path_exists candidate) then Ok candidate
  else ok_or (no_worktree_path_error base_dir)
         (first_free (λ p, negb (path_exists p)) base_dir name).

Definition unique_worktree_path_for_rename (base_dir name current_path : str) : result str str :=
  let candidate := path_join base_dir name in
  if path_eq candidate current_path then Ok candidate
  else if negb (path_exists candidate) then Ok candidate
  else ok_or (no_worktree_path_error base_dir)
         (first_free (λ p, path_eq p current_path || negb (path_exists p)) base_dir name).

Definition build_clone_destination_path (copies_folder copy_name : str) : str :=
  unique_worktree_path_best_effort copies_folder (sanitize_clone_dir_name copy_name).
End unique.

(** ** Lemmas *)

Definition name_char (c : char) : Prop := sanitize_char c = c.

Lemma sanitize_char_idemp c : name_char (sanitize_char c).
Proof. unfold name_char, sanitize_char at 2 3. case_match eqn:E; [|done]. unfold sanitize_char. by rewrite E. Qed.

Lemma name_char_not_slash n : Forall name_char n → ch_slash ∉ n.
Proof. intros Hn Hin. rewrite Forall_forall in Hn. by specialize (Hn _ Hin). Qed.

Lemma trim_matches_Forall (P : char → Prop) f s : Forall P s → Forall P (trim_matches f s).
Proof.
  intros Hs. unfold trim_matches, trim_start_matches.
  destruct (drop_while_suffix f s) as (p & Hp & _).
  destruct (trim_end_matches_prefix f (drop_while f s)) as (q & Hq & _).
  rewrite Hp in Hs. apply Forall_app in Hs as [_ Hs].
  rewrite Hq in Hs. by apply Forall_app in Hs as [Hs _].
Qed.

Lemma sanitize_name_chars v fallback :
  Forall name_char fallback → fallback ≠ [] →
  Forall name_char (sanitize_name v fallback) ∧ sanitize_name v fallback ≠ [].
Proof.
  intros Hf Hne. unfold sanitize_name.
  destruct (is_empty _) eqn:E; [done|]. split; [|by apply is_empty_false].
  apply trim_matches_Forall, Forall_map, Forall_true. intros c. apply sanitize_char_idemp.
Qed.

Lemma sanitize_worktree_name_chars b :
  Forall name_char (sanitize_worktree_name b) ∧ sanitize_worktree_name b ≠ [].
Proof. apply sanitize_name_chars; [by repeat constructor|done]. Qed.

Lemma sanitize_clone_dir_name_chars b :
  Forall name_char (sanitize_clone_dir_name b) ∧ sanitize_clone_dir_name b ≠ [].
Proof. apply sanitize_name_chars; [by repeat constructor|done]. Qed.

Lemma digits_fuel_digits fuel n acc :
  Forall (λ c, is_ascii_digit c = true) acc →
  Forall (λ c, is_ascii_digit c = true) (digits_fuel fuel n acc).
Proof.
  revert n acc; induction fuel as [|k IH]; intros n acc Hacc; simpl; [done|].
  assert (is_ascii_digit (48 + n mod 10)%N = true) as Hd.
  { unfold is_ascii_digit, in_range. pose proof (N.mod_upper_bound n 10 ltac:(lia)).
    revert H. generalize (n mod 10)%N. intros m Hm.
    apply andb_true_intro. split; apply N.leb_le; lia. }
  case_match; [by constructor|]. apply IH. by constructor.
Qed.

Lemma show_N_name_chars n : Forall name_char (show_N n).
Proof.
  eapply Forall_impl; [apply digits_fuel_digits; constructor|].
  intros c Hc. unfold name_char, sanitize_char, is_ascii_alphanumeric.
  by rewrite Hc orb_true_r.
Qed.

Lemma piece_components_app a b :
  piece_components (a ++ b) = piece_components a ++ piece_components b.
Proof. apply omap_app. Qed.

Lemma starts_with_app_ne p s t : length p = 1 → s ≠ [] → starts_with p (s ++ t) = starts_with p s.
Proof.
  intros Hp Hs. destruct s as [|d s], p as [|c [|c' p]]; try done.
  unfold starts_with. simpl. by destruct (c =? d)%N.
Qed.

(** Appending pieces after a separator appends their components. *)
Lemma components_app_piece base n :
  base ≠ [] → ch_slash ∉ n → n ≠ [] → n ≠ lit "." →
  components (base ++ ch_slash :: n) = components base ++ [classify n].
Proof.
  intros Hb Hs Hne Hdot. unfold components.
  rewrite starts_with_app_ne // split_on_app_sep (split_on_none _ n) //.
  assert (piece_components [n] = [classify n]) as Hn.
  { unfold piece_components. simpl.
    apply is_empty_false in Hne. apply str_eqb_neq in Hdot. by rewrite Hne Hdot. }
  destruct (starts_with [ch_slash] base); [by rewrite piece_components_app Hn|].
  destruct (split_on ch_slash base) as [|d r] eqn:E; [by destruct (split_on_not_nil ch_slash base)|].
  simpl. destruct (str_eqb d "."); [by rewrite piece_components_app Hn|].
  change (d :: r ++ [n]) with ((d :: r) ++ [n]). by rewrite piece_components_app Hn.
Qed.

Lemma starts_with_prefix p base : path_starts_with p base = true ↔ components base `prefix_of` components p.
Proof.
  unfold path_starts_with. rewrite bool_decide_eq_true. split.
  - intros <-. apply prefix_take.
  - intros [l ->]. apply take_app_length.
Qed.

Lemma components_trailing_slash b : b ≠ [] → components (b ++ [ch_slash]) = components b.
Proof.
  intros Hb. unfold components.
  rewrite starts_with_app_ne // (split_on_app_sep ch_slash b []) /=.
  destruct (starts_with [ch_slash] b); [by rewrite piece_components_app app_nil_r|].
  destruct (split_on ch_slash b) as [|d r] eqn:E; [by destruct (split_on_not_nil ch_slash b)|].
  simpl. destruct (str_eqb d "."); [by rewrite piece_components_app app_nil_r|].
  change (d :: r ++ [[]]) with ((d :: r) ++ [[]]). by rewrite piece_components_app app_nil_r.
Qed.

(** Joining a single name appends one component to those of the base. *)
Lemma components_join base n :
  base ≠ [] → ch_slash ∉ n → n ≠ [] → n ≠ lit "." →
  components (path_join base n) = components base ++ [classify n].
Proof.
  intros Hb Hs Hne Hdot. unfold path_join.
  assert (starts_with [ch_slash] n = false) as ->.
  { destruct n as [|c n]; [done|]. unfold starts_with. simpl.
    destruct (N.eqb_spec ch_slash c) as [<-|]; [|done]. by destruct Hs; left. }
  assert (is_empty base = false) as -> by by apply is_empty_false.
  simpl. destruct (ends_with [ch_slash] base) eqn:E; [|by apply components_app_piece].
  unfold ends_with in E. destruct (strip_suffix _ base) as [b|] eqn:Eb; [|done].
  apply strip_suffix_Some in Eb as ->. rewrite -app_assoc /=.
  destruct (decide (b = [])) as [->|Hb'].
  - simpl. unfold components. simpl. rewrite (split_on_none _ n) // /piece_components /=.
    apply is_empty_false in Hne. apply str_eqb_neq in Hdot. by rewrite Hne Hdot.
  - rewrite components_app_piece // components_trailing_slash //.
Qed.

Lemma numbered_name_normal name i n :
  Forall name_char name → n = name ++ lit "-" ++ show_N i →
  (ch_slash ∉ n) ∧ n ≠ [] ∧ n ≠ lit "." ∧ classify n = Normal n.
Proof.
  intros Hname Hn. assert (ch_minus ∈ n) as Hm.
  { rewrite Hn !elem_of_app. right. left. by left. }
  split_and!.
  - apply name_char_not_slash. rewrite Hn. repeat apply Forall_app_2; [done| |apply show_N_name_chars].
    by repeat constructor.
  - intros E. rewrite E in Hm. inversion Hm.
  - intros E. rewrite E in Hm. by apply list_elem_of_singleton in Hm.
  - unfold classify. destruct (str_eqb n "..") eqn:E; [|done].
    apply str_eqb_eq in E. rewrite E in Hm.
    apply elem_of_cons in Hm as [|Hm]; [done|]. by apply list_elem_of_singleton in Hm.
Qed.

Lemma first_free_Some ok base name p :
  first_free ok base name = Some p →
  ok p = true ∧ ∃ i, (2 <= i < 1000)%N ∧ p = numbered_path base name i.
Proof.
  intros [Hin Hok]%find_some. split; [done|].
  apply list_elem_of_In, list_elem_of_fmap in Hin as (i & -> & Hi).
  apply list_elem_of_fmap in Hi as (k & -> & Hk). apply elem_of_seq in Hk.
  exists (N.of_nat k). split; [lia|done].
Qed.

Lemma first_free_None ok base name :
  first_free ok base name = None ↔
  ∀ i, (2 <= i < 1000)%N → ok (numbered_path base name i) = false.
Proof.
  split.
  - intros H i Hi. eapply find_none; [exact H|]. apply list_elem_of_In, list_elem_of_fmap.
    exists i. split; [done|]. apply list_elem_of_fmap. exists (N.to_nat i).
    split; [lia|]. apply elem_of_seq. lia.
  - intros H. destruct (first_free ok base name) as [p|] eqn:E; [|done].
    apply first_free_Some in E as (Hok & i & Hi & ->). by rewrite H in Hok.
Qed.

Lemma lower_char_fix c d :
  is_ascii_lower d = false → is_ascii_upper d = false → lower_char c = d ↔ c = d.
Proof.
  unfold lower_char, is_ascii_upper, is_ascii_lower, in_range. intros Hl Hu.
  destruct (N.leb_spec 65 c), (N.leb_spec c 90), (N.leb_spec 97 d), (N.leb_spec d 122),
    (N.leb_spec 65 d), (N.leb_spec d 90); simpl in *; split; intros; subst; try done; lia.
Qed.

Lemma lower_char_idemp c : lower_char (lower_char c) = lower_char c.
Proof.
  unfold lower_char, is_ascii_upper, in_range.
  destruct (N.leb_spec 65 c), (N.leb_spec c 90); simpl;
    destruct (N.leb_spec 65 c), (N.leb_spec c 90); simpl; try lia; try done;
    destruct (N.leb_spec 65 (c+32)), (N.leb_spec (c+32) 90); simpl; lia.
Qed.

Lemma to_ascii_lowercase_idemp s : to_ascii_lowercase (to_ascii_lowercase s) = to_ascii_lowercase s.
Proof. unfold to_ascii_lowercase. rewrite map_map. apply map_ext, lower_char_idemp. Qed.

Lemma last_to_lower s : last (to_ascii_lowercase s) = lower_char <$> last s.
Proof. apply (fmap_last lower_char). Qed.

Lemma last_drop_short {A} n (l : list A) : n < length l → last (drop n l) = last l.
Proof.
  intros H. rewrite -{2}(take_drop n l) last_app.
  destruct (last (drop n l)) eqn:E; [done|]. apply last_None in E.
  apply (f_equal length) in E. rewrite length_drop /= in E. lia.
Qed.

Lemma trim_slashes_last s : last (trim_end_matches (N.eqb ch_slash) s) ≠ Some ch_slash.
Proof.
  intros [r Hr]%last_Some. by apply trim_end_matches_last in Hr.
Qed.

Lemma starts_with_lower_length p s :
  starts_with p (to_ascii_lowercase s) = true → last p = Some ch_slash →
  last s ≠ Some ch_slash → length p < length s.
Proof.
  intros [r Hr]%starts_with_spec Hp Hs.
  assert (length s = length p + length r) as Hlen.
  { apply (f_equal length) in Hr. unfold to_ascii_lowercase in Hr.
    by rewrite length_map length_app in Hr. }
  destruct r; [|simpl in Hlen; lia]. rewrite app_nil_r in Hr.
  exfalso. apply (f_equal last) in Hr. rewrite last_to_lower Hp in Hr.
  apply fmap_Some in Hr as (c & Hc & Hd). symmetry in Hd.
  apply (proj1 (lower_char_fix c ch_slash eq_refl eq_refl)) in Hd. by rewrite Hc Hd in Hs.
Qed.

Lemma replace_chars_absent f d s : f d = false → Forall (λ c, f c = false) (replace_chars f d s).
Proof.
  intros Hd. apply Forall_map, Forall_true. intros c. simpl. by destruct (f c) eqn:E.
Qed.

Lemma trim_end_slash s :
  trim_end_matches (N.eqb ch_slash) (s ++ [ch_slash]) = trim_end_matches (N.eqb ch_slash) s.
Proof. unfold trim_end_matches. rewrite reverse_app. by cbn. Qed.

Lemma last_lower_not_slash s :
  last s ≠ Some ch_slash → last (to_ascii_lowercase s) ≠ Some ch_slash.
Proof.
  rewrite last_to_lower. intros Hs [c [Hc Hd]]%fmap_Some.
  apply Hs. symmetry in Hd. apply (proj1 (lower_char_fix c ch_slash eq_refl eq_refl)) in Hd.
  by rewrite Hc Hd.
Qed.

(** The string after its namespace prefix, before the case folding. *)
Definition strip_namespace (s : str) : str :=
  if starts_with "//?/unc/" (to_ascii_lowercase s) then lit "//" ++ drop 8 s
  else if starts_with "//?/" (to_ascii_lowercase s) || starts_with "//./" (to_ascii_lowercase s)
  then drop 4 s else s.

Lemma strip_namespace_last s :
  last s ≠ Some ch_slash → last (strip_namespace s) ≠ Some ch_slash.
Proof.
  intros Hs. unfold strip_namespace. case_match eqn:E.
  - apply starts_with_lower_length in E; try done. simpl in E.
    rewrite last_app last_drop_short //.
    destruct (last s) eqn:El; [done|]. apply last_None in El. subst. simpl in E. lia.
  - case_match eqn:E'; [|done].
    apply orb_true_iff in E' as [E'|E']; apply starts_with_lower_length in E'; try done;
      simpl in E'; by rewrite last_drop_short.
Qed.

Lemma strip_namespace_Forall (P : char → Prop) s :
  P ch_slash → Forall P s → Forall P (strip_namespace s).
Proof.
  intros Hp Hs. unfold strip_namespace. repeat case_match; [|by apply Forall_drop|done].
  apply Forall_app_2; [by repeat constructor|by apply Forall_drop].
Qed.

Lemma normalize_root_path_unfold v :
  let s := strip_namespace (trim_end_matches (N.eqb ch_slash)
             (replace_chars (N.eqb ch_backslash) ch_slash v)) in
  normalize_root_path v = [] ∨ normalize_root_path v = s ∨ normalize_root_path v = to_ascii_lowercase s.
Proof.
  unfold normalize_root_path, strip_namespace. cbv zeta.
  destruct (is_empty (trim_end_matches _ _)); [by left|].
  destruct (is_empty _); [by left|]. right. destruct (_ || _); eauto.
Qed.

Lemma normalize_root_path_last v : last (normalize_root_path v) ≠ Some ch_slash.
Proof.
  pose proof (strip_namespace_last _ (trim_slashes_last
    (replace_chars (N.eqb ch_backslash) ch_slash v))) as H.
  destruct (normalize_root_path_unfold v) as [-> | [-> | ->]]; [done|done|by apply last_lower_not_slash].
Qed.

Lemma normalize_root_path_no_backslash v : ch_backslash ∉ normalize_root_path v.
Proof.
  assert (Forall (λ c, c ≠ ch_backslash) (strip_namespace (trim_end_matches (N.eqb ch_slash)
    (replace_chars (N.eqb ch_backslash) ch_slash v)))) as H.
  { apply strip_namespace_Forall; [done|].
    destruct (trim_end_matches_prefix (N.eqb ch_slash) (replace_chars (N.eqb ch_backslash) ch_slash v))
      as (q & Hq & _).
    assert (Forall (λ c, c ≠ ch_backslash) (replace_chars (N.eqb ch_backslash) ch_slash v)) as Hr.
    { eapply Forall_impl; [by apply replace_chars_absent|].
      intros c Hc ->. by rewrite N.eqb_refl in Hc. }
    rewrite Hq in Hr. by apply Forall_app in Hr as [Hr _]. }
  intros Hin. destruct (normalize_root_path_unfold v) as [E|[E|E]]; rewrite E in Hin.
  - inversion Hin.
  - rewrite Forall_forall in H. by apply (H _ Hin).
  - apply list_elem_of_fmap in Hin as (c & Hc & Hin). symmetry in Hc.
    apply (proj1 (lower_char_fix c ch_backslash eq_refl eq_refl)) in Hc.
    rewrite Forall_forall in H. by apply (H _ Hin).
Qed.

(** ** Properties *)

Section worktree_paths.
Context (path_exists : str → bool) (base : str).
Context (Hbase : base ≠ []).

(** The directory a name lands in: a fresh child of the base. *)
Definition fresh_child (p : str) : Prop :=
  path_exists p = false ∧
  ∃ n, Forall name_char n ∧ components p = components base ++ [Normal n].

Lemma candidate_child name :
  Forall name_char name → name ≠ [] →
  path_exists (path_join base ".") = true → path_exists (path_join base "..") = true →
  path_exists (path_join base name) = false → fresh_child (path_join base name).
Proof.
  intros Hc Hne Hdot Hdd Hfree. split; [done|]. exists name. split; [done|].
  assert (name ≠ lit "." ∧ name ≠ lit "..") as [Hn1 Hn2] by (split; congruence).
  rewrite components_join //; [by apply name_char_not_slash|].
  unfold classify. apply str_eqb_neq in Hn2. by rewrite Hn2.
Qed.

Lemma numbered_child name i :
  Forall name_char name → path_exists (numbered_path base name i) = false →
  fresh_child (numbered_path base name i).
Proof.
  intros Hc Hfree. split; [done|]. exists (name ++ lit "-" ++ show_N i). split.
  - repeat apply Forall_app_2; [done|by repeat constructor|apply show_N_name_chars].
  - destruct (numbered_name_normal name i _ Hc eq_refl) as (Hs & Hne & Hd & Hcl).
    unfold numbered_path. by rewrite components_join // Hcl.
Qed.
End worktree_paths.

(** The directory of a new worktree is a free direct child of the worktrees
    root, whatever the branch is called: the only names with a special
    meaning, the dots, exist already. *)
Theorem worktree_path_is_fresh_child (path_exists : str → bool) (base branch p : str)
  (Hbase : base ≠ [])
  (Hdot : path_exists (path_join base ".") = true)
  (Hdotdot : path_exists (path_join base "..") = true)
  (Hp : unique_worktree_path_strict path_exists base (sanitize_worktree_name branch) = Ok p) :
  fresh_child path_exists base p.
Proof.
  destruct (sanitize_worktree_name_chars branch) as [Hc Hne].
  revert Hp. unfold unique_worktree_path_strict.
  destruct (path_exists (path_join base (sanitize_worktree_name branch))) eqn:E; simpl.
  - destruct (first_free _ _ _) as [q|] eqn:F; simpl; intros; simplify_eq.
    apply first_free_Some in F as (Hfree & i & _ & ->).
    apply numbered_child; [done..|]. by apply negb_true_iff.
  - intros [= <-]. by apply candidate_child.
Qed.

Theorem worktree_path_is_fresh_child_witness :
  fresh_child (λ p, (p =s? "/w/.") || (p =s? "/w/..") || (p =s? "/w/feat-x")) "/w" "/w/feat-x-2".
Proof. apply (worktree_path_is_fresh_child _ "/w" "feat/x"); vm_compute; congruence. Defined.

(** The search of a free directory gives up exactly when the plain name and
    every suffix from 2 to 999 are taken. *)
Theorem unique_worktree_path_strict_error (path_exists : str → bool) (base name : str) :
  unique_worktree_path_strict path_exists base name = Err (no_worktree_path_error base) ↔
  path_exists (path_join base name) = true ∧
  ∀ i, (2 <= i < 1000)%N → path_exists (numbered_path base name i) = true.
Proof.
  unfold unique_worktree_path_strict.
  destruct (path_exists (path_join base name)); simpl; [|naive_solver].
  pose proof (first_free_None (λ p, negb (path_exists p)) base name) as Hnone.
  setoid_rewrite negb_false_iff in Hnone.
  destruct (first_free _ _ _) as [q|]; simpl; [|naive_solver].
  split; [done|]. intros [_ H]. by apply Hnone in H.
Qed.

(** Roots that differ in their slashes only have one normal form, which
    holds no backslash and does not end in a slash. *)
Theorem normalize_root_path_canonical (v : str) :
  normalize_root_path (v ++ [ch_slash]) = normalize_root_path v
  ∧ normalize_root_path (replace_chars (N.eqb ch_slash) ch_backslash v) = normalize_root_path v
  ∧ last (normalize_root_path v) ≠ Some ch_slash
  ∧ ch_backslash ∉ normalize_root_path v.
Proof.
  assert (∀ w, replace_chars (N.eqb ch_backslash) ch_slash w = replace_chars (N.eqb ch_backslash) ch_slash v
    → normalize_root_path w = normalize_root_path v) as Hcong.
  { unfold normalize_root_path. by intros w ->. }
  split_and!.
  - unfold normalize_root_path, replace_chars. rewrite map_app /=.
    by rewrite trim_end_slash.
  - apply Hcong. unfold replace_chars. rewrite map_map. apply map_ext. intros c.
    destruct (N.eqb_spec ch_slash c) as [<-|]; [done|done].
  - apply normalize_root_path_last.
  - apply normalize_root_path_no_backslash.
Qed.
