(* ===== verification/Types.v ===== *)
(** The data of [src-tauri/src/types.rs]: workspaces, their settings and the
    application settings with their defaults. The field names carry a prefix
    per structure ([entry_], [info_], [ws_], [app_], ...). *)
From S2P Require Import Prelude.
From Stdlib Require Import SpecFloat.

Definition ch_quote : char := 34%N.
(** [1.0] as an IEEE 754 double. *)
Definition f64_one : spec_float := S754_finite false 4503599627370496 (-52).

(** The branch of a worktree workspace. *)
Record WorktreeInfo := MkWorktreeInfo {
  wt_branch : str
}.

(** A launch script of a workspace. *)
Record LaunchScriptEntry := MkLaunchScriptEntry {
  ls_id : str;
  ls_script : str;
  ls_icon : str;
  ls_label : option str
}.

(** Per-workspace settings. *)
Record WorkspaceSettings := MkWorkspaceSettings {
  ws_sidebar_collapsed : bool;
  ws_sort_order : option N;
  ws_group_id : option str;
  ws_clone_source_workspace_id : option str;
  ws_git_root : option str;
  ws_launch_script : option str;
  ws_launch_scripts : option (list LaunchScriptEntry);
  ws_worktree_setup_script : option str;
  ws_worktrees_folder : option str
}.

(** [WorkspaceSettings::default()] (derived). *)
Definition WorkspaceSettings_default : WorkspaceSettings := MkWorkspaceSettings
  false None None None None None None None None.

Inductive WorkspaceKind := Main | Worktree.

Definition WorkspaceKind_default : WorkspaceKind := Main.

Definition is_worktree (k : WorkspaceKind) : bool := match k with Worktree => true | Main => false end.

(** A workspace, as it is kept in memory and stored. *)
Record WorkspaceEntry := MkWorkspaceEntry {
  entry_id : str;
  entry_name : str;
  entry_path : str;
  entry_kind : WorkspaceKind;
  entry_parent_id : option str;
  entry_worktree : option WorktreeInfo;
  entry_settings : WorkspaceSettings
}.

(** A workspace as the frontend sees it. *)
Record WorkspaceInfo := MkWorkspaceInfo {
  info_id : str;
  info_name : str;
  info_path : str;
  info_connected : bool;
  info_kind : WorkspaceKind;
  info_parent_id : option str;
  info_worktree : option WorktreeInfo;
  info_settings : WorkspaceSettings
}.

(** Whether the setup script of a worktree is to run. *)
Record WorktreeSetupStatus := MkWorktreeSetupStatus {
  setup_should_run : bool;
  setup_script : option str
}.

(** A group of workspaces in the sidebar. *)
Record WorkspaceGroup := MkWorkspaceGroup {
  group_id : str;
  group_name : str;
  group_sort_order : option N;
  group_copies_folder : option str
}.

(** An application that opens a workspace. *)
Record OpenAppTarget := MkOpenAppTarget {
  target_id : str;
  target_label : str;
  target_kind : str;
  target_app_name : option str;
  target_command : option str;
  target_args : list str
}.

Inductive BackendMode := Local | Remote.

Inductive RemoteBackendProvider := Tcp.

(** A remote daemon. *)
Record RemoteBackendTarget := MkRemoteBackendTarget {
  remote_id : str;
  remote_name : str;
  remote_provider : RemoteBackendProvider;
  remote_host : str;
  remote_token : option str;
  remote_last_connected_at_ms : option Z
}.

(** The settings of the application. *)
Record AppSettings := MkAppSettings {
  app_codex_bin : option str;
  app_codex_args : option str;
  app_backend_mode : BackendMode;
  app_remote_backend_provider : RemoteBackendProvider;
  app_remote_backend_host : str;
  app_remote_backend_token : option str;
  app_remote_backends : list RemoteBackendTarget;
  app_active_remote_backend_id : option str;
  app_keep_daemon_running_after_app_close : bool;
  app_default_access_mode : str;
  app_review_delivery_mode : str;
  app_composer_model_shortcut : option str;
  app_composer_access_shortcut : option str;
  app_composer_reasoning_shortcut : option str;
  app_interrupt_shortcut : option str;
  app_composer_collaboration_shortcut : option str;
  app_new_agent_shortcut : option str;
  app_new_worktree_agent_shortcut : option str;
  app_new_clone_agent_shortcut : option str;
  app_archive_thread_shortcut : option str;
  app_toggle_projects_sidebar_shortcut : option str;
  app_toggle_git_sidebar_shortcut : option str;
  app_toggle_debug_panel_shortcut : option str;
  app_toggle_terminal_shortcut : option str;
  app_cycle_agent_next_shortcut : option str;
  app_cycle_agent_prev_shortcut : option str;
  app_cycle_workspace_next_shortcut : option str;
  app_cycle_workspace_prev_shortcut : option str;
  app_last_composer_model_id : option str;
  app_last_composer_reasoning_effort : option str;
  app_ui_scale : spec_float;
  app_ui_language : str;
  app_theme : str;
  app_usage_show_remaining : bool;
  app_show_message_file_path : bool;
  app_chat_history_scrollback_items : option N;
  app_thread_title_autogeneration_enabled : bool;
  app_automatic_app_update_checks_enabled : bool;
  app_ui_font_family : str;
  app_code_font_family : str;
  app_code_font_size : N;
  app_notification_sounds_enabled : bool;
  app_split_chat_diff_view : bool;
  app_preload_git_diffs : bool;
  app_git_diff_ignore_whitespace_changes : bool;
  app_commit_message_prompt : str;
  app_commit_message_model_id : option str;
  app_system_notifications_enabled : bool;
  app_subagent_system_notifications_enabled : bool;
  app_collaboration_modes_enabled : bool;
  app_steer_enabled : bool;
  app_follow_up_message_behavior : str;
  app_composer_follow_up_hint_enabled : bool;
  app_pause_queued_messages_when_response_required : bool;
  app_unified_exec_enabled : bool;
  app_experimental_apps_enabled : bool;
  app_personality : str;
  app_dictation_enabled : bool;
  app_dictation_model_id : str;
  app_dictation_preferred_language : option str;
  app_dictation_hold_key : str;
  app_composer_editor_preset : str;
  app_composer_fence_expand_on_space : bool;
  app_composer_fence_expand_on_enter : bool;
  app_composer_fence_language_tags : bool;
  app_composer_fence_wrap_selection : bool;
  app_composer_fence_auto_wrap_paste_multiline : bool;
  app_composer_fence_auto_wrap_paste_code_like : bool;
  app_composer_list_continuation : bool;
  app_composer_code_block_copy_use_modifier : bool;
  app_workspace_groups : list WorkspaceGroup;
  app_global_worktrees_folder : option str;
  app_open_app_targets : list OpenAppTarget;
  app_selected_open_app_id : str
}.

(** The platforms the defaults tell apart with [cfg!]. *)
Inductive platform := MacOS | IOS | Windows | OtherOS.

Section defaults.
Context (target_os : platform).

Definition on_macos {A} (a b : A) : A := match target_os with MacOS => a | _ => b end.
Definition on_windows {A} (a b : A) : A := match target_os with Windows => a | _ => b end.

Definition default_access_mode : str :=
  lit "current".
Definition default_review_delivery_mode : str :=
  lit "inline".
Definition default_backend_mode : BackendMode :=
  match target_os with IOS => Remote | _ => Local end.
Definition default_remote_backend_host : str :=
  lit "127.0.0.1:4732".
Definition default_remote_backends : list RemoteBackendTarget :=
  [].
Definition default_ui_scale : spec_float :=
  f64_one.
Definition default_theme : str :=
  lit "system".
Definition default_ui_language : str :=
  lit "en".
Definition default_usage_show_remaining : bool :=
  false.
Definition default_show_message_file_path : bool :=
  true.
Definition default_chat_history_scrollback_items : option N :=
  Some 200%N.
Definition default_automatic_app_update_checks_enabled : bool :=
  true.
Definition default_ui_font_family : str :=
  lit "system-ui, -apple-system, BlinkMacSystemFont, "
    ++ [ch_quote]
    ++ lit "Segoe UI"
    ++ [ch_quote]
    ++ lit ", Roboto, "
    ++ [ch_quote]
    ++ lit "Helvetica Neue"
    ++ [ch_quote]
    ++ lit ", Arial, sans-serif".
Definition default_code_font_family : str :=
  lit "ui-monospace, "
    ++ [ch_quote]
    ++ lit "Cascadia Mono"
    ++ [ch_quote]
    ++ lit ", "
    ++ [ch_quote]
    ++ lit "Segoe UI Mono"
    ++ [ch_quote]
    ++ lit ", Menlo, Monaco, Consolas, "
    ++ [ch_quote]
    ++ lit "Liberation Mono"
    ++ [ch_quote]
    ++ lit ", "
    ++ [ch_quote]
    ++ lit "Courier New"
    ++ [ch_quote]
    ++ lit ", monospace".
Definition default_code_font_size : N :=
  11%N.
Definition default_composer_model_shortcut : option str :=
  Some (on_macos (lit "cmd+shift+m") (lit "ctrl+shift+m")).
Definition default_composer_access_shortcut : option str :=
  Some (on_macos (lit "cmd+shift+a") (lit "ctrl+shift+a")).
Definition default_composer_reasoning_shortcut : option str :=
  Some (on_macos (lit "cmd+shift+r") (lit "ctrl+shift+r")).
Definition default_interrupt_shortcut : option str :=
  Some (on_macos (lit "ctrl+c") (lit "ctrl+shift+c")).
Definition default_composer_collaboration_shortcut : option str :=
  Some (lit "shift+tab").
Definition default_new_agent_shortcut : option str :=
  Some (on_macos (lit "cmd+n") (lit "ctrl+n")).
Definition default_new_worktree_agent_shortcut : option str :=
  Some (on_macos (lit "cmd+shift+n") (lit "ctrl+shift+n")).
Definition default_new_clone_agent_shortcut : option str :=
  Some (on_macos (lit "cmd+alt+n") (lit "ctrl+alt+n")).
Definition default_archive_thread_shortcut : option str :=
  Some (on_macos (lit "cmd+ctrl+a") (lit "ctrl+alt+a")).
Definition default_toggle_projects_sidebar_shortcut : option str :=
  Some (on_macos (lit "cmd+shift+p") (lit "ctrl+shift+p")).
Definition default_toggle_git_sidebar_shortcut : option str :=
  Some (on_macos (lit "cmd+shift+g") (lit "ctrl+shift+g")).
Definition default_toggle_debug_panel_shortcut : option str :=
  Some (on_macos (lit "cmd+shift+d") (lit "ctrl+shift+d")).
Definition default_toggle_terminal_shortcut : option str :=
  Some (on_macos (lit "cmd+shift+t") (lit "ctrl+shift+t")).
Definition default_cycle_agent_next_shortcut : option str :=
  Some (on_macos (lit "cmd+ctrl+down") (lit "ctrl+alt+down")).
Definition default_cycle_agent_prev_shortcut : option str :=
  Some (on_macos (lit "cmd+ctrl+up") (lit "ctrl+alt+up")).
Definition default_cycle_workspace_next_shortcut : option str :=
  Some (on_macos (lit "cmd+shift+down") (lit "ctrl+alt+shift+down")).
Definition default_cycle_workspace_prev_shortcut : option str :=
  Some (on_macos (lit "cmd+shift+up") (lit "ctrl+alt+shift+up")).
Definition default_notification_sounds_enabled : bool :=
  true.
Definition default_system_notifications_enabled : bool :=
  true.
Definition default_subagent_system_notifications_enabled : bool :=
  true.
Definition default_split_chat_diff_view : bool :=
  false.
Definition default_preload_git_diffs : bool :=
  true.
Definition default_git_diff_ignore_whitespace_changes : bool :=
  false.
Definition default_commit_message_prompt : str :=
  lit "Generate a concise git commit message for the following changes. Follow conventional commit format (e.g., feat:, fix:, refactor:, docs:, etc.). Keep the summary line under 72 characters. Only output the commit message, nothing else."
    ++ [ch_nl]
    ++ [ch_nl]
    ++ lit "Changes:"
    ++ [ch_nl]
    ++ lit "{diff}".
Definition default_collaboration_modes_enabled : bool :=
  true.
Definition default_steer_enabled : bool :=
  true.
Definition default_follow_up_message_behavior : str :=
  lit "queue".
Definition default_composer_follow_up_hint_enabled : bool :=
  true.
Definition default_pause_queued_messages_when_response_required : bool :=
  true.
Definition default_unified_exec_enabled : bool :=
  true.
Definition default_experimental_apps_enabled : bool :=
  false.
Definition default_personality : str :=
  lit "friendly".
Definition default_dictation_enabled : bool :=
  false.
Definition default_dictation_model_id : str :=
  lit "base".
Definition default_dictation_hold_key : str :=
  lit "alt".
Definition default_composer_editor_preset : str :=
  lit "default".
Definition default_composer_fence_expand_on_space : bool :=
  false.
Definition default_composer_fence_expand_on_enter : bool :=
  false.
Definition default_composer_fence_language_tags : bool :=
  false.
Definition default_composer_fence_wrap_selection : bool :=
  false.
Definition default_composer_fence_auto_wrap_paste_multiline : bool :=
  false.
Definition default_composer_fence_auto_wrap_paste_code_like : bool :=
  false.
Definition default_composer_list_continuation : bool :=
  false.
Definition default_composer_code_block_copy_use_modifier : bool :=
  false.
Definition default_workspace_groups : list WorkspaceGroup :=
  [].
Definition default_open_app_targets : list OpenAppTarget :=
  on_macos
    [MkOpenAppTarget (lit "vscode") (lit "VS Code") (lit "app") (Some (lit "Visual Studio Code")) (None) [];
     MkOpenAppTarget (lit "cursor") (lit "Cursor") (lit "app") (Some (lit "Cursor")) (None) [];
     MkOpenAppTarget (lit "zed") (lit "Zed") (lit "app") (Some (lit "Zed")) (None) [];
     MkOpenAppTarget (lit "ghostty") (lit "Ghostty") (lit "app") (Some (lit "Ghostty")) (None) [];
     MkOpenAppTarget (lit "antigravity") (lit "Antigravity") (lit "app") (Some (lit "Antigravity")) (None) [];
     MkOpenAppTarget (lit "finder") (lit "Finder") (lit "finder") (None) (None) []]
    (let file_manager_label := on_windows (lit "Explorer") (lit "File Manager") in
    [MkOpenAppTarget (lit "vscode") (lit "VS Code") (lit "command") (None) (Some (lit "code")) [];
     MkOpenAppTarget (lit "cursor") (lit "Cursor") (lit "command") (None) (Some (lit "cursor")) [];
     MkOpenAppTarget (lit "zed") (lit "Zed") (lit "command") (None) (Some (lit "zed")) [];
     MkOpenAppTarget (lit "ghostty") (lit "Ghostty") (lit "command") (None) (Some (lit "ghostty")) [];
     MkOpenAppTarget (lit "antigravity") (lit "Antigravity") (lit "command") (None) (Some (lit "antigravity")) [];
     MkOpenAppTarget (lit "finder") (file_manager_label) (lit "finder") (None) (None) []]).
Definition default_selected_open_app_id : str :=
  on_windows (lit "finder") (lit "vscode").

Definition AppSettings_default : AppSettings := {|
  app_codex_bin := None;
  app_codex_args := None;
  app_backend_mode := default_backend_mode;
  app_remote_backend_provider := Tcp;
  app_remote_backend_host := default_remote_backend_host;
  app_remote_backend_token := None;
  app_remote_backends := default_remote_backends;
  app_active_remote_backend_id := None;
  app_keep_daemon_running_after_app_close := false;
  app_default_access_mode := lit "current";
  app_review_delivery_mode := default_review_delivery_mode;
  app_composer_model_shortcut := default_composer_model_shortcut;
  app_composer_access_shortcut := default_composer_access_shortcut;
  app_composer_reasoning_shortcut := default_composer_reasoning_shortcut;
  app_interrupt_shortcut := default_interrupt_shortcut;
  app_composer_collaboration_shortcut := default_composer_collaboration_shortcut;
  app_new_agent_shortcut := default_new_agent_shortcut;
  app_new_worktree_agent_shortcut := default_new_worktree_agent_shortcut;
  app_new_clone_agent_shortcut := default_new_clone_agent_shortcut;
  app_archive_thread_shortcut := default_archive_thread_shortcut;
  app_toggle_projects_sidebar_shortcut := default_toggle_projects_sidebar_shortcut;
  app_toggle_git_sidebar_shortcut := default_toggle_git_sidebar_shortcut;
  app_toggle_debug_panel_shortcut := default_toggle_debug_panel_shortcut;
  app_toggle_terminal_shortcut := default_toggle_terminal_shortcut;
  app_cycle_agent_next_shortcut := default_cycle_agent_next_shortcut;
  app_cycle_agent_prev_shortcut := default_cycle_agent_prev_shortcut;
  app_cycle_workspace_next_shortcut := default_cycle_workspace_next_shortcut;
  app_cycle_workspace_prev_shortcut := default_cycle_workspace_prev_shortcut;
  app_last_composer_model_id := None;
  app_last_composer_reasoning_effort := None;
  app_ui_scale := f64_one;
  app_ui_language := default_ui_language;
  app_theme := default_theme;
  app_usage_show_remaining := default_usage_show_remaining;
  app_show_message_file_path := default_show_message_file_path;
  app_chat_history_scrollback_items := default_chat_history_scrollback_items;
  app_thread_title_autogeneration_enabled := false;
  app_automatic_app_update_checks_enabled := true;
  app_ui_font_family := default_ui_font_family;
  app_code_font_family := default_code_font_family;
  app_code_font_size := default_code_font_size;
  app_notification_sounds_enabled := true;
  app_system_notifications_enabled := true;
  app_subagent_system_notifications_enabled := true;
  app_split_chat_diff_view := default_split_chat_diff_view;
  app_preload_git_diffs := default_preload_git_diffs;
  app_git_diff_ignore_whitespace_changes := default_git_diff_ignore_whitespace_changes;
  app_commit_message_prompt := default_commit_message_prompt;
  app_commit_message_model_id := None;
  app_collaboration_modes_enabled := true;
  app_steer_enabled := true;
  app_follow_up_message_behavior := default_follow_up_message_behavior;
  app_composer_follow_up_hint_enabled := default_composer_follow_up_hint_enabled;
  app_pause_queued_messages_when_response_required := default_pause_queued_messages_when_response_required;
  app_unified_exec_enabled := true;
  app_experimental_apps_enabled := false;
  app_personality := default_personality;
  app_dictation_enabled := false;
  app_dictation_model_id := default_dictation_model_id;
  app_dictation_preferred_language := None;
  app_dictation_hold_key := default_dictation_hold_key;
  app_composer_editor_preset := default_composer_editor_preset;
  app_composer_fence_expand_on_space := default_composer_fence_expand_on_space;
  app_composer_fence_expand_on_enter := default_composer_fence_expand_on_enter;
  app_composer_fence_language_tags := default_composer_fence_language_tags;
  app_composer_fence_wrap_selection := default_composer_fence_wrap_selection;
  app_composer_fence_auto_wrap_paste_multiline := default_composer_fence_auto_wrap_paste_multiline;
  app_composer_fence_auto_wrap_paste_code_like := default_composer_fence_auto_wrap_paste_code_like;
  app_composer_list_continuation := default_composer_list_continuation;
  app_composer_code_block_copy_use_modifier := default_composer_code_block_copy_use_modifier;
  app_workspace_groups := default_workspace_groups;
  app_global_worktrees_folder := None;
  app_open_app_targets := default_open_app_targets;
  app_selected_open_app_id := default_selected_open_app_id
|}.
End defaults.

(** Struct update: [AppSettings { global_worktrees_folder, ..settings }]. *)
Definition set_global_worktrees_folder (s : AppSettings) (v : option str) : AppSettings := {|
  app_codex_bin := app_codex_bin s;
  app_codex_args := app_codex_args s;
  app_backend_mode := app_backend_mode s;
  app_remote_backend_provider := app_remote_backend_provider s;
  app_remote_backend_host := app_remote_backend_host s;
  app_remote_backend_token := app_remote_backend_token s;
  app_remote_backends := app_remote_backends s;
  app_active_remote_backend_id := app_active_remote_backend_id s;
  app_keep_daemon_running_after_app_close := app_keep_daemon_running_after_app_close s;
  app_default_access_mode := app_default_access_mode s;
  app_review_delivery_mode := app_review_delivery_mode s;
  app_composer_model_shortcut := app_composer_model_shortcut s;
  app_composer_access_shortcut := app_composer_access_shortcut s;
  app_composer_reasoning_shortcut := app_composer_reasoning_shortcut s;
  app_interrupt_shortcut := app_interrupt_shortcut s;
  app_composer_collaboration_shortcut := app_composer_collaboration_shortcut s;
  app_new_agent_shortcut := app_new_agent_shortcut s;
  app_new_worktree_agent_shortcut := app_new_worktree_agent_shortcut s;
  app_new_clone_agent_shortcut := app_new_clone_agent_shortcut s;
  app_archive_thread_shortcut := app_archive_thread_shortcut s;
  app_toggle_projects_sidebar_shortcut := app_toggle_projects_sidebar_shortcut s;
  app_toggle_git_sidebar_shortcut := app_toggle_git_sidebar_shortcut s;
  app_toggle_debug_panel_shortcut := app_toggle_debug_panel_shortcut s;
  app_toggle_terminal_shortcut := app_toggle_terminal_shortcut s;
  app_cycle_agent_next_shortcut := app_cycle_agent_next_shortcut s;
  app_cycle_agent_prev_shortcut := app_cycle_agent_prev_shortcut s;
  app_cycle_workspace_next_shortcut := app_cycle_workspace_next_shortcut s;
  app_cycle_workspace_prev_shortcut := app_cycle_workspace_prev_shortcut s;
  app_last_composer_model_id := app_last_composer_model_id s;
  app_last_composer_reasoning_effort := app_last_composer_reasoning_effort s;
  app_ui_scale := app_ui_scale s;
  app_ui_language := app_ui_language s;
  app_theme := app_theme s;
  app_usage_show_remaining := app_usage_show_remaining s;
  app_show_message_file_path := app_show_message_file_path s;
  app_chat_history_scrollback_items := app_chat_history_scrollback_items s;
  app_thread_title_autogeneration_enabled := app_thread_title_autogeneration_enabled s;
  app_automatic_app_update_checks_enabled := app_automatic_app_update_checks_enabled s;
  app_ui_font_family := app_ui_font_family s;
  app_code_font_family := app_code_font_family s;
  app_code_font_size := app_code_font_size s;
  app_notification_sounds_enabled := app_notification_sounds_enabled s;
  app_split_chat_diff_view := app_split_chat_diff_view s;
  app_preload_git_diffs := app_preload_git_diffs s;
  app_git_diff_ignore_whitespace_changes := app_git_diff_ignore_whitespace_changes s;
  app_commit_message_prompt := app_commit_message_prompt s;
  app_commit_message_model_id := app_commit_message_model_id s;
  app_system_notifications_enabled := app_system_notifications_enabled s;
  app_subagent_system_notifications_enabled := app_subagent_system_notifications_enabled s;
  app_collaboration_modes_enabled := app_collaboration_modes_enabled s;
  app_steer_enabled := app_steer_enabled s;
  app_follow_up_message_behavior := app_follow_up_message_behavior s;
  app_composer_follow_up_hint_enabled := app_composer_follow_up_hint_enabled s;
  app_pause_queued_messages_when_response_required := app_pause_queued_messages_when_response_required s;
  app_unified_exec_enabled := app_unified_exec_enabled s;
  app_experimental_apps_enabled := app_experimental_apps_enabled s;
  app_personality := app_personality s;
  app_dictation_enabled := app_dictation_enabled s;
  app_dictation_model_id := app_dictation_model_id s;
  app_dictation_preferred_language := app_dictation_preferred_language s;
  app_dictation_hold_key := app_dictation_hold_key s;
  app_composer_editor_preset := app_composer_editor_preset s;
  app_composer_fence_expand_on_space := app_composer_fence_expand_on_space s;
  app_composer_fence_expand_on_enter := app_composer_fence_expand_on_enter s;
  app_composer_fence_language_tags := app_composer_fence_language_tags s;
  app_composer_fence_wrap_selection := app_composer_fence_wrap_selection s;
  app_composer_fence_auto_wrap_paste_multiline := app_composer_fence_auto_wrap_paste_multiline s;
  app_composer_fence_auto_wrap_paste_code_like := app_composer_fence_auto_wrap_paste_code_like s;
  app_composer_list_continuation := app_composer_list_continuation s;
  app_composer_code_block_copy_use_modifier := app_composer_code_block_copy_use_modifier s;
  app_workspace_groups := app_workspace_groups s;
  app_global_worktrees_folder := v;
  app_open_app_targets := app_open_app_targets s;
  app_selected_open_app_id := app_selected_open_app_id s
|}.
