(* ===== verification/Host.v ===== *)
(** What the backend asks of the machine it runs on: the file system, the git
    program, fresh identifiers, the environment. These are parameters (class
    [Host]); on top of them, the git helpers of [src-tauri/src/shared/git_core.rs]
    and the paths of [codex/home.rs] are the code's own. *)
From S2P Require Import Prelude Json Paths Types.

(** ** Paths that lead elsewhere *)

Definition render_component (c : component) : str :=
  match c with
  | RootDir => []
  | CurDir => "."
  | ParentDir => ".."
  | Normal n => n
  end.

(** [Path::parent], up to the equality of paths. *)
Definition path_of_components (cs : list component) : str :=
  match cs with
  | [RootDir] => [ch_slash]
  | _ => join [ch_slash] (map render_component cs)
  end.
Definition path_parent (p : str) : option str :=
  match reverse (components p) with
  | [] | RootDir :: _ => None
  | _ :: r => Some (path_of_components (reverse r))
  end.

(** ** The machine *)

(** What a git process prints and its exit code. *)
Record GitOutput := MkGitOutput {
  git_code : option Z;
  git_stdout : str;
  git_stderr : str
}.
Definition git_success (o : GitOutput) : bool := match git_code o with Some c => (c =? 0)%Z | None => false end.

Class Host := {
  target_os : platform;
  World : Type;
  is_dir : World → str → bool;
  is_file : World → str → bool;
  path_exists : World → str → bool;
  read_dir_is_empty : World → str → result str bool;
  read_to_string : World → str → result str str;
  create_dir_all : str → World → World * result str unit;
  remove_dir_all : str → World → World * result str unit;
  copy_file : str → str → World → World * result str unit;
  rename_file : str → str → World → World * result str unit;
  remove_file : str → World → World * result str unit;
  write_file : str → str → World → World * result str unit;
  git : str → list str → World → World * result str GitOutput;
  new_uuid : World → World * str;
  unix_seconds : World → N;
  env_var : World → str → option str;
  passwd_dir : World → option str
}.

(** A computation that only touches the machine. *)
Definition W `{Host} (A : Type) : Type := World → World * result str A.

#[global] Instance W_ret `{Host} : MRet W := λ A a w, (w, Ok a).
#[global] Instance W_bind `{Host} : MBind W := λ A B f m w,
  match m w with
  | (w', Ok a) => f a w'
  | (w', Err e) => (w', Err e)
  end.
Definition W_err `{Host} {A} (e : str) : W A := λ w, (w, Err e).
Definition W_map_err `{Host} {A} (f : str → str) (m : W A) : W A := λ w, let '(w', r) := m w in (w', map_err f r).

(** ** codex/home.rs *)

Section home.
Context `{Host}.

Definition nonblank_path (v : option str) : option str := opt_filter (λ d, negb (is_empty (trim d))) v.

Definition resolve_home_dir (w : World) : option str :=
  or_else (nonblank_path (env_var w "HOME"))
    (or_else (nonblank_path (env_var w "USERPROFILE"))
       match target_os with Windows => None | _ => nonblank_path (passwd_dir w) end).

Definition upper_char (c : char) : char := if is_ascii_lower c then (c - 32)%N else c.
Definition to_ascii_uppercase (s : str) : str := map upper_char s.

Definition lookup_env_value (w : World) (name : str) : option str :=
  let upper := to_ascii_uppercase name in
  let lower := to_ascii_lowercase name in
  or_else (nonblank_path (env_var w name))
    (or_else (if upper =s? name then None else nonblank_path (env_var w upper))
       (if (lower =s? name) || (lower =s? upper) then None else nonblank_path (env_var w lower))).

Definition resolve_env_var (w : World) (name : str) : option str :=
  or_else (if eq_ignore_ascii_case name "HOME" then resolve_home_dir w else None) (lookup_env_value w name).

Definition join_env_path (prefix remainder : str) : str :=
  let base := trim prefix in
  let trimmed_remainder := trim_start_matches (λ c, (c =? ch_slash)%N || (c =? ch_backslash)%N) remainder in
  if is_empty trimmed_remainder then base else path_join base trimmed_remainder.

(** [find] and the two slices around the character found. *)
Fixpoint split_at_char (f : char → bool) (s : str) : str * str :=
  match s with
  | [] => ([], [])
  | c :: r => if f c then ([], s) else let '(a, b) := split_at_char f r in (c :: a, b)
  end.
Definition split_before (c : char) (s : str) : option (str * str) :=
  match split_at_char (N.eqb c) s with
  | (name, _ :: remaining) => Some (name, remaining)
  | (_, []) => None
  end.

Definition expand_tilde (w : World) (v : str) : option str :=
  if negb (starts_with "~" v) then None
  else home_dir ← resolve_home_dir w;
       if v =s? "~" then Some home_dir
       else rest ← strip_prefix "~/" v; Some (path_join home_dir rest).

Definition expand_variable (w : World) (var remainder : str) : option str :=
  if is_empty var then None
  else v ← resolve_env_var w var; Some (join_env_path v remainder).

Definition expand_dollar_env (w : World) (v : str) : option str :=
  rest ← strip_prefix "$" v;
  if is_empty rest then None
  else
    '(var, remainder) ← match strip_prefix "{" rest with
                        | Some inner => split_before 125%N inner
                        | None => Some (split_at_char
                            (λ c, negb (is_ascii_alphanumeric c || (c =? ch_underscore)%N)) rest)
                        end;
    expand_variable w var remainder.

Definition expand_percent_env (w : World) (v : str) : option str :=
  rest ← strip_prefix "%" v;
  '(var, remainder) ← split_before 37%N rest;
  expand_variable w var remainder.

Definition normalize_codex_home (w : World) (v : str) : option str :=
  let trimmed := trim v in
  if is_empty trimmed then None
  else or_else (expand_tilde w trimmed)
         (or_else (expand_dollar_env w trimmed) (or_else (expand_percent_env w trimmed) (Some trimmed))).

Definition resolve_default_codex_home (w : World) : option str :=
  or_else (v ← env_var w "CODEX_HOME"; normalize_codex_home w v)
    ((λ home, path_join home ".codex") <$> resolve_home_dir w).

Definition resolve_workspace_codex_home (w : World) (_entry : WorkspaceEntry)
    (_parent_entry : option WorkspaceEntry) : option str :=
  resolve_default_codex_home w.
End home.

(** ** git_core.rs *)

Section git_core.
Context `{Host}.

Definition format_git_error (stdout stderr : str) : str :=
  let detail := if is_empty (trim stderr) then trim stdout else trim stderr in
  if is_empty detail then "Git command failed." else detail.

Definition git_output (repo_path : str) (args : list str) : W GitOutput :=
  W_map_err (λ err, lit "Failed to run git: " ++ err) (git repo_path args).

Definition run_git_command (repo_path : str) (args : list str) : W str :=
  output ← git_output repo_path args;
  if git_success output then mret (trim (git_stdout output))
  else W_err (format_git_error (git_stdout output) (git_stderr output)).

Definition run_git_diff (repo_path : str) (args : list str) : W str :=
  output ← git_output repo_path args;
  if git_success output || bool_decide (git_code output = Some 1%Z) then mret (git_stdout output)
  else W_err (format_git_error (git_stdout output) (git_stderr output)).

Fixpoint contains_str (sub s : str) : bool :=
  starts_with sub s || match s with [] => false | _ :: r => contains_str sub r end.
Definition is_missing_worktree_error (error : str) : bool := contains_str "is not a working tree" error.

Definition git_branch_exists (repo_path branch : str) : W bool :=
  status ← git_output repo_path ["show-ref" : str; "--verify" : str; lit "refs/heads/" ++ branch];
  mret (git_success status).

Definition git_remote_exists (repo_path remote : str) : W bool :=
  status ← git_output repo_path ["remote" : str; "get-url" : str; remote];
  mret (git_success status).

Definition git_remote_branch_exists_live (repo_path remote branch : str) : W bool :=
  output ← git_output repo_path ["ls-remote" : str; "--heads" : str; remote; lit "refs/heads/" ++ branch];
  if git_success output then mret (negb (is_empty (trim (git_stdout output))))
  else W_err (format_git_error (git_stdout output) (git_stderr output)).

Definition git_remote_branch_exists_local (repo_path remote branch : str) : W bool :=
  status ← git_output repo_path
    ["show-ref" : str; "--verify" : str; lit "refs/remotes/" ++ remote ++ lit "/" ++ branch];
  mret (git_success status).

Definition nonempty_trimmed (l : list str) : list str :=
  filter (λ line, line ≠ []) (map trim l).
Definition git_list_remotes (repo_path : str) : W (list str) :=
  output ← run_git_command repo_path ["remote" : str];
  mret (nonempty_trimmed (lines output)).

(** The first remote but "origin" for which the check answers yes. *)
Fixpoint first_remote (check : str → W bool) (remotes : list str) : W (option str) :=
  match remotes with
  | [] => mret None
  | remote :: r =>
      if remote =s? "origin" then first_remote check r
      else found ← check remote;
           if found : bool then mret (Some remote) else first_remote check r
  end.

Definition git_find_remote_for_branch_live (repo_path branch : str) : W (option str) :=
  origin ← git_remote_exists repo_path "origin";
  found ← (if origin : bool then git_remote_branch_exists_live repo_path "origin" branch else mret false);
  if found : bool then mret (Some ("origin" : str))
  else remotes ← git_list_remotes repo_path;
       first_remote (λ remote, git_remote_branch_exists_live repo_path remote branch) remotes.

Definition git_find_remote_tracking_branch_local (repo_path branch : str) : W (option str) :=
  found ← git_remote_branch_exists_local repo_path "origin" branch;
  if found : bool then mret (Some (lit "origin/" ++ branch))
  else remotes ← git_list_remotes repo_path;
       found ← first_remote (λ remote, git_remote_branch_exists_local repo_path remote branch) remotes;
       mret ((λ remote, remote ++ lit "/" ++ branch) <$> found).

Definition numbered_branch (desired : str) (index : N) : str := desired ++ lit "-" ++ show_N index.
Definition no_branch_name_error : str := "Unable to find an available branch name.".

Definition remote_check (repo_path : str) (remote : option str) (candidate : str) : W bool :=
  match remote with
  | Some remote => git_remote_branch_exists_live repo_path remote candidate
  | None => mret false
  end.

Fixpoint try_branch_indices (repo_path desired : str) (remote : option str) (indices : list N)
    : W (str * bool) :=
  match indices with
  | [] => W_err no_branch_name_error
  | index :: r =>
      local_exists ← git_branch_exists repo_path (numbered_branch desired index);
      remote_exists ← remote_check repo_path remote (numbered_branch desired index);
      if negb local_exists && negb remote_exists then mret (numbered_branch desired index, true)
      else try_branch_indices repo_path desired remote r
  end.

Definition unique_branch_name_live (repo_path desired : str) (remote : option str) : W (str * bool) :=
  if is_empty desired then mret (desired, false)
  else
    local_exists ← git_branch_exists repo_path desired;
    taken ← (if local_exists : bool then mret true else remote_check repo_path remote desired);
    if taken : bool then try_branch_indices repo_path desired remote suffix_indices
    else mret (desired, false).

Definition git_get_origin_url (repo_path : str) : World → World * option str := λ w,
  match run_git_command repo_path ["remote" : str; "get-url" : str; "origin" : str] w with
  | (w', Ok url) => (w', Some url)
  | (w', Err _) => (w', None)
  end.

(** [git_utils.rs]: the repository of a workspace. *)
Definition resolve_git_root (entry : WorkspaceEntry) : W str := λ w,
  let base := entry_path entry in
  match opt_filter (λ v, negb (is_empty v)) (trim <$> ws_git_root (entry_settings entry)) with
  | None => (w, Ok base)
  | Some root =>
      let root_path := if starts_with [ch_slash] root then root else path_join base root in
      if is_dir w root_path then (w, Ok root_path)
      else (w, Err (lit "Git root not found: " ++ root))
  end.
End git_core.

(** ** Lemmas *)

Section W_lemmas.
Context `{Host}.

Lemma W_bind_ok {A B} (m : W A) (f : A → W B) w w' b :
  (m ≫= f) w = (w', Ok b) ↔ ∃ w1 a, m w = (w1, Ok a) ∧ f a w1 = (w', Ok b).
Proof.
  unfold mbind, W_bind. destruct (m w) as [w1 [a|e]]; split.
  - intros Hf. by exists w1, a.
  - intros (w2 & a' & [= -> ->] & Hf). done.
  - done.
  - by intros (w2 & a' & ? & _).
Qed.

Lemma W_ret_ok {A} (a b : A) w w' : (mret a : W A) w = (w', Ok b) ↔ w' = w ∧ b = a.
Proof. unfold mret, W_ret. naive_solver. Qed.

Lemma git_output_world repo args w : (git_output repo args w).1 = (git repo args w).1.
Proof. unfold git_output, W_map_err. by destruct (git repo args w). Qed.
End W_lemmas.

(** Queries leave the repository alone: [git show-ref], [git ls-remote] and
    [git remote] only print. *)
Definition query_commands : list str := ["show-ref" : str; "ls-remote" : str; "remote" : str].
Class GitQueries `{Host} : Prop :=
  query_pure : ∀ repo cmd args w, cmd ∈ query_commands → (git repo (cmd :: args) w).1 = w.

Section branch_names.
Context `{GitQueries}.

Lemma query_output repo cmd args w w' r :
  cmd ∈ query_commands → git_output repo (cmd :: args) w = (w', r) → w' = w.
Proof.
  intros Hcmd Hg. rewrite -(query_pure repo cmd args w Hcmd) -git_output_world Hg. done.
Qed.

Ltac query := eapply query_output; [|eassumption]; apply (bool_decide_unpack _); exact I.

Lemma git_branch_exists_world repo branch w w' b :
  git_branch_exists repo branch w = (w', Ok b) → w' = w.
Proof. intros (w1 & o & Hg & [-> ->]%W_ret_ok)%W_bind_ok. query. Qed.

Lemma remote_check_world repo remote branch w w' b :
  remote_check repo remote branch w = (w', Ok b) → w' = w.
Proof.
  destruct remote as [r|]; simpl; [|by intros [-> _]%W_ret_ok].
  intros (w1 & o & Hg & Ho)%W_bind_ok. destruct (git_success o); [|done].
  apply W_ret_ok in Ho as [-> _]. query.
Qed.

(** Neither the repository nor the remote, when there is one, has the branch. *)
Definition branch_available (repo : str) (remote : option str) (w : World) (name : str) : Prop :=
  git_branch_exists repo name w = (w, Ok false) ∧ remote_check repo remote name w = (w, Ok false).

Lemma try_branch_indices_ok repo desired remote indices w w' name renamed :
  try_branch_indices repo desired remote indices w = (w', Ok (name, renamed)) →
  w' = w ∧ renamed = true ∧ branch_available repo remote w name
  ∧ ∃ before i after, indices = before ++ i :: after ∧ name = numbered_branch desired i
    ∧ Forall (λ j, ¬ branch_available repo remote w (numbered_branch desired j)) before.
Proof.
  induction indices as [|i indices IH]; simpl; [done|].
  intros (w1 & l & Hl & (w2 & r & Hr & Hrest)%W_bind_ok)%W_bind_ok.
  pose proof (git_branch_exists_world _ _ _ _ _ Hl) as ->.
  pose proof (remote_check_world _ _ _ _ _ _ Hr) as ->.
  destruct (negb l && negb r) eqn:E.
  - apply W_ret_ok in Hrest as [-> [= -> ->]].
    apply andb_true_iff in E as [El%negb_true_iff Er%negb_true_iff]. subst.
    split_and!; [done..|]. by exists [], i, indices.
  - destruct (IH Hrest) as (-> & -> & Hav & before & i' & after & -> & -> & Hb).
    split_and!; [done..|]. exists (i :: before), i', after. split_and!; [done..|].
    constructor; [|done]. intros [Hl' Hr']. rewrite Hl' in Hl. rewrite Hr' in Hr. by simplify_eq.
Qed.
End branch_names.

Lemma numbered_branch_ne desired i : numbered_branch desired i ≠ desired.
Proof.
  unfold numbered_branch. intros Heq. apply (f_equal length) in Heq.
  rewrite !length_app /= in Heq. lia.
Qed.

(** ** Properties *)

(** The branch name chosen for a worktree is the first free one of the desired
    name and its numbered variants, in the repository as it is left; the flag
    says whether it differs from the desired one. *)
Theorem unique_branch_name_live_first_available `{GitQueries} (repo desired : str) (remote : option str)
  (w w' : World) (name : str) (renamed : bool)
  (Hdesired : desired ≠ [])
  (Hok : unique_branch_name_live repo desired remote w = (w', Ok (name, renamed))) :
  w' = w ∧ branch_available repo remote w name ∧ (renamed = true ↔ name ≠ desired)
  ∧ ∃ before after, desired :: map (numbered_branch desired) suffix_indices = before ++ name :: after
    ∧ Forall (λ n, ¬ branch_available repo remote w n) before.
Proof.
  unfold unique_branch_name_live in Hok. apply is_empty_false in Hdesired. rewrite Hdesired in Hok.
  apply W_bind_ok in Hok as (w1 & l & Hl & (w2 & t & Ht & Hrest)%W_bind_ok).
  pose proof (git_branch_exists_world _ _ _ _ _ Hl) as ->.
  assert (w2 = w ∧ (t = false → branch_available repo remote w desired)
          ∧ (t = true → ¬ branch_available repo remote w desired)) as (-> & Hfree & Htaken).
  { destruct l; [apply W_ret_ok in Ht as [-> ->]|pose proof (remote_check_world _ _ _ _ _ _ Ht) as ->].
    - split_and!; [done..|]. intros _ [Hl' _]. congruence.
    - split_and!; [done|by intros ->|]. intros -> [_ Hr']. congruence. }
  destruct t.
  - destruct (try_branch_indices_ok _ _ _ _ _ _ _ _ Hrest)
      as (-> & -> & Hav & before & i & after & Hsplit & -> & Hb).
    split_and!; [done|done|by split; [intros _; apply numbered_branch_ne|]|].
    exists (desired :: map (numbered_branch desired) before), (map (numbered_branch desired) after).
    rewrite Hsplit map_app. split; [done|]. constructor; [by apply Htaken|by apply Forall_map].
  - apply W_ret_ok in Hrest as [-> [= -> ->]]. split_and!; [done|by apply Hfree|done|].
    exists [], (map (numbered_branch desired) suffix_indices). done.
Qed.

(** ** A machine to evaluate on *)

(** The world is a repository with the branch main; nothing else exists. *)
Definition demo_git (repo : str) (args : list str) (w : unit) : unit * result str GitOutput :=
  (w, Ok (MkGitOutput (Some (if bool_decide (lit "refs/heads/main" ∈ args) then 0 else 1)%Z) [] [])).

Definition demo_host : Host := {|
  target_os := OtherOS;
  World := unit;
  is_dir := λ _ _, true; is_file := λ _ _, false; path_exists := λ _ _, false;
  read_dir_is_empty := λ _ _, Ok true; read_to_string := λ _ _, Ok [];
  create_dir_all := λ _ w, (w, Ok tt); remove_dir_all := λ _ w, (w, Ok tt);
  copy_file := λ _ _ w, (w, Ok tt); rename_file := λ _ _ w, (w, Ok tt); remove_file := λ _ w, (w, Ok tt);
  write_file := λ _ _ w, (w, Ok tt); git := demo_git; new_uuid := λ w, (w, "0b5f" : str);
  unix_seconds := λ _, 0%N;
  env_var := λ _ name, if name =s? "HOME" then Some ("/home/me" : str) else None;
  passwd_dir := λ _, None
|}.

Lemma demo_queries : @GitQueries demo_host.
Proof. by intros repo cmd args w _. Qed.

Lemma unique_branch_name_live_first_available_witness :
  @branch_available demo_host "/repo" None tt "main-2".
Proof.
  apply (@unique_branch_name_live_first_available demo_host demo_queries "/repo" "main" None tt tt "main-2" true).
  - discriminate.
  - vm_compute. reflexivity.
Defined.
