(* ===== verification/AppServer.v ===== *)
(** The pure part of [src-tauri/src/backend/app_server.rs]: what the backend
    reads out of the JSON-RPC messages of [codex app-server] (thread ids,
    related threads, thread lists, the kind of a sub-agent source) and how it
    decides where a message goes. *)
From S2P Require Import Prelude Json Paths.

(** ** Thread ids *)

Definition extract_from_container (container : option value) : option str :=
  container ← container;
  or_else (get2 "threadId" "thread_id" container ≫= as_str)
          (thread ← get "thread" container; id ← get "id" thread; as_str id).

Definition extract_thread_id (v : value) : option str :=
  or_else (extract_from_container (get "params" v)) (extract_from_container (get "result" v)).

Definition nonblank (s : str) : option str :=
  let t := trim s in if is_empty t then None else Some t.

(** The ids [push_thread_id] appends to its output, in order. *)
Fixpoint push_thread_id_value (v : value) : list str :=
  match v with
  | VString s => option_list (nonblank s)
  | VArray l => flat_map push_thread_id_value l
  | _ => []
  end.
Definition push_thread_id (v : option value) : list str :=
  match v with Some v => push_thread_id_value v | None => [] end.

Fixpoint collect_agent_thread_ids_value (v : value) : list str :=
  match v with
  | VArray l => flat_map collect_agent_thread_ids_value l
  | VObject record =>
      push_thread_id (or_else (obj_get "threadId" record) (obj_get "thread_id" record))
      ++ push_thread_id (obj_get "id" record)
      ++ push_thread_id (thread ← obj_get "thread" record;
           or_else (get "id" thread) (get2 "threadId" "thread_id" thread))
  | _ => []
  end.
Definition collect_agent_thread_ids (v : option value) : list str :=
  match v with Some v => collect_agent_thread_ids_value v | None => [] end.

Definition obj_get2 (a b : str) (m : object) : option value := or_else (obj_get a m) (obj_get b m).

(** The part of [collect_from_container] before the nested [item]. *)
Definition container_thread_ids (c : object) : list str :=
  push_thread_id (obj_get2 "threadId" "thread_id" c)
  ++ push_thread_id (obj_get "thread" c ≫= get "id")
  ++ push_thread_id (obj_get "params" c ≫= get2 "threadId" "thread_id")
  ++ push_thread_id (obj_get "result" c ≫= get2 "threadId" "thread_id")
  ++ push_thread_id (obj_get2 "newThreadId" "new_thread_id" c)
  ++ push_thread_id (obj_get2 "receiverThreadId" "receiver_thread_id" c)
  ++ push_thread_id (obj_get2 "receiverThreadIds" "receiver_thread_ids" c)
  ++ collect_agent_thread_ids (obj_get2 "receiverAgents" "receiver_agents" c)
  ++ collect_agent_thread_ids (obj_get2 "receiverAgent" "receiver_agent" c)
  ++ collect_agent_thread_ids (obj_get2 "agentStatuses" "agent_statuses" c)
  ++ match obj_get "statuses" c ≫= as_object with
     | Some status_map => omap nonblank (obj_keys status_map)
     | None => []
     end.

Fixpoint collect_from_container_value (v : value) : list str :=
  match v with
  | VObject c => container_thread_ids c ++ obj_get_with "item" collect_from_container_value [] c
  | _ => []
  end.
Definition collect_from_container (container : option value) : list str :=
  match container with Some v => collect_from_container_value v | None => [] end.

Definition extract_related_thread_ids (v : value) : list str :=
  dedup_from ∅ (collect_from_container (get "params" v)
    ++ collect_from_container (get "result" v) ++ collect_from_container (Some v)).

(** ** Sub-agent sources *)

Definition normalize_subagent_kind (v : str) : str :=
  let normalized := replace_chars (λ c, (c =? ch_sp)%N || (c =? ch_minus)%N) ch_underscore
                      (to_ascii_lowercase (trim v)) in
  match strip_prefix "subagent_" normalized with
  | Some stripped => stripped
  | None => match strip_prefix "sub_agent_" normalized with
            | Some stripped => stripped
            | None => normalized
            end
  end.

Definition kind_of (raw : str) : option str :=
  let normalized := normalize_subagent_kind raw in
  if is_empty normalized then None else Some normalized.

Definition source_subagent_kind (source : value) : option str :=
  match as_str source with
  | Some raw => kind_of raw
  | None =>
      source_obj ← as_object source;
      sub_agent ← or_else (obj_get "subAgent" source_obj) (obj_get2 "sub_agent" "subagent" source_obj);
      match as_str sub_agent with
      | Some raw => kind_of raw
      | None =>
          sub_agent_obj ← as_object sub_agent;
          match or_else (obj_get "kind" sub_agent_obj) (or_else (obj_get "type" sub_agent_obj)
                  (obj_get2 "name" "id" sub_agent_obj)) ≫= as_str with
          | Some explicit => kind_of explicit
          | None =>
              match filter (λ k, k ≠ lit "thread_spawn" ∧ k ≠ lit "threadSpawn") (obj_keys sub_agent_obj) with
              | [key] => kind_of key
              | _ => None
              end
          end
      end
  end.

Definition is_memory_consolidation_source (source : value) : bool :=
  match source_subagent_kind source with
  | Some kind => kind =s? "memory_consolidation"
  | None => false
  end.

Definition thread_started_is_memory_consolidation (v : value) : bool :=
  match params ← get "params" v;
        or_else (thread ← get "thread" params; get "source" thread) (get "source" params) with
  | Some source => is_memory_consolidation_source source
  | None => false
  end.

(** ** Thread lists *)

Record ThreadListEntry := MkThreadListEntry {
  tle_thread_id : str;
  tle_cwd : option str;
  tle_is_memory_consolidation : bool
}.

(** The entry an object of a thread list stands for, if it names a thread. *)
Definition thread_list_entry (o : object) : option ThreadListEntry :=
  let cwd := or_else (obj_get "cwd" o ≫= as_str)
               (thread ← obj_get "thread" o; c ← get "cwd" thread; as_str c) in
  let thread_id := or_else (or_else (obj_get "threadId" o) (obj_get2 "thread_id" "id" o) ≫= as_str)
                     (thread ← obj_get "thread" o; i ← get "id" thread; as_str i) in
  tid ← thread_id;
  let source := or_else (obj_get "source" o) (obj_get "thread" o ≫= get "source") in
  Some (MkThreadListEntry tid cwd
    match source with Some s => is_memory_consolidation_source s | None => false end).

Definition thread_list_keys : list str := ["threads" : str; "items" : str; "results" : str; "data" : str].

Fixpoint collect_entries (input : value) : list ThreadListEntry :=
  match input with
  | VArray values => flat_map collect_entries values
  | VObject o =>
      option_list (thread_list_entry o)
      ++ flat_map (λ key, obj_get_with key
           (λ v, match v with VArray values => flat_map collect_entries values | _ => [] end) [] o)
           thread_list_keys
  | _ => []
  end.

Definition extract_thread_entries_from_thread_list_result (v : value) : list ThreadListEntry :=
  match get "result" v with Some result => collect_entries result | None => [] end.

(** ** Routing decisions *)

Definition root_matches (cwd root : str) : bool :=
  match strip_prefix root cwd with
  | Some [] => true
  | Some (c :: _) => (c =? ch_slash)%N
  | None => false
  end.

(** The roots of which the directory is part, with their lengths in bytes. *)
Definition matching_roots (cwd : str) (entries : list (str * str)) : list (str * nat) :=
  omap (λ '(workspace_id, root),
    if is_empty root then None
    else if root_matches cwd root then Some (workspace_id, str_len root) else None) entries.

Definition resolve_workspace_for_cwd `{HashOrder} (cwd : str) (workspace_roots : gmap str str) : option str :=
  let normalized_cwd := normalize_root_path cwd in
  if is_empty normalized_cwd then None
  else fst <$> max_by_key (λ p, Z.of_nat p.2) (matching_roots normalized_cwd (hash_iter workspace_roots)).

Definition should_suppress_hidden_thread_event (method_name : option str) (has_result_or_error : bool) : bool :=
  negb has_result_or_error
  && negb match method_name with
          | Some m => (m =s? "thread/archived") || (m =s? "codex/backgroundThread")
          | None => false
          end.

Definition is_global_workspace_notification (method : str) : bool :=
  (method =s? "account/updated") || (method =s? "account/rateLimits/updated")
  || (method =s? "account/login/completed").

Definition should_broadcast_global_workspace_notification
    (method_name thread_id request_workspace : option str) : bool :=
  match method_name with Some m => is_global_workspace_notification m | None => false end
  && negb (is_some_b thread_id) && negb (is_some_b request_workspace).

(** ** Messages the backend builds *)

Definition build_initialize_params (client_version : str) : value :=
  VObject (mk_object [
    ("clientInfo" : str, VObject (mk_object [
       ("name" : str, vstr "codex_monitor"); ("title" : str, vstr "Codex Monitor");
       ("version" : str, vstr client_version)]));
    ("capabilities" : str, VObject (mk_object [("experimentalApi" : str, VBool true)]))]).

Definition hide_event (tid : str) : value :=
  VObject (mk_object [("method" : str, vstr "codex/backgroundThread");
    ("params" : str, VObject (mk_object [("threadId" : str, vstr tid); ("action" : str, vstr "hide")]))]).

Definition parse_error_event (error raw : str) : value :=
  VObject (mk_object [("method" : str, vstr "codex/parseError");
    ("params" : str, VObject (mk_object [("error" : str, vstr error); ("raw" : str, vstr raw)]))]).

Definition stderr_event (message : str) : value :=
  VObject (mk_object [("method" : str, vstr "codex/stderr");
    ("params" : str, VObject (mk_object [("message" : str, vstr message)]))]).

Definition connected_event (workspace_id : str) : value :=
  VObject (mk_object [("method" : str, vstr "codex/connected");
    ("params" : str, VObject (mk_object [("workspaceId" : str, vstr workspace_id)]))]).

(** ** Lemmas *)

Definition clean_id (t : str) : Prop := t ≠ [] ∧ trim t = t.

Lemma nonblank_clean s t : nonblank s = Some t → clean_id t.
Proof.
  unfold nonblank. case_match eqn:E; intros; simplify_eq.
  split; [by apply is_empty_false|apply trim_idemp].
Qed.

Lemma nonblank_Some s : trim s ≠ [] → nonblank s = Some (trim s).
Proof. intros H%is_empty_false. unfold nonblank. by rewrite H. Qed.

Lemma Forall_flat_map {A B} (P : B → Prop) (f : A → list B) l :
  Forall (λ x, Forall P (f x)) l → Forall P (flat_map f l).
Proof. induction 1; simpl; [constructor|by apply Forall_app_2]. Qed.

Lemma push_thread_id_clean v : Forall clean_id (push_thread_id v).
Proof.
  destruct v as [v|]; [|constructor]. simpl.
  induction v as [| | |s|l IH|] using value_nested_ind; simpl; try constructor.
  - destruct (nonblank s) eqn:E; simpl; constructor; [by eapply nonblank_clean|constructor].
  - by apply Forall_flat_map.
Qed.

Lemma collect_agent_thread_ids_clean v : Forall clean_id (collect_agent_thread_ids v).
Proof.
  destruct v as [v|]; [|constructor]. simpl.
  induction v as [| | | |l IH|m _] using value_nested_ind; simpl; try constructor.
  - by apply Forall_flat_map.
  - repeat apply Forall_app_2; apply push_thread_id_clean.
Qed.

#[local] Hint Resolve push_thread_id_clean collect_agent_thread_ids_clean : codex.

Lemma container_thread_ids_clean c : Forall clean_id (container_thread_ids c).
Proof.
  unfold container_thread_ids. repeat apply Forall_app_2; auto with codex.
  case_match; [|constructor]. apply Forall_forall. intros t Ht.
  apply list_elem_of_omap in Ht as (s & _ & Hs). by eapply nonblank_clean.
Qed.

Lemma obj_get_Forall (P : value → Prop) m k v :
  Forall (λ kv, P kv.2) m → obj_get k m = Some v → P v.
Proof. intros Hm Hg%obj_get_elem. rewrite Forall_forall in Hm. by apply (Hm (k, v)). Qed.

Lemma collect_from_container_clean v : Forall clean_id (collect_from_container v).
Proof.
  destruct v as [v|]; [|constructor]. simpl.
  induction v as [| | | | |m IH] using value_nested_ind; simpl; try constructor.
  apply Forall_app_2; [apply container_thread_ids_clean|].
  rewrite obj_get_with_spec. destruct (obj_get "item" m) eqn:E; simpl; [|constructor].
  by apply (obj_get_Forall (λ v, Forall clean_id (collect_from_container_value v)) m "item").
Qed.

Lemma push_thread_id_str k c t :
  obj_get k c ≫= as_str = Some t → trim t ≠ [] → trim t ∈ push_thread_id (obj_get k c).
Proof.
  intros H Ht. destruct (obj_get k c) as [[]|]; simpl in *; simplify_eq.
  rewrite (nonblank_Some t) //. by left.
Qed.

(** What a container is routed by is among the ids collected from it. *)
Lemma extract_from_container_collected c t :
  extract_from_container c = Some t → trim t ≠ [] → trim t ∈ collect_from_container c.
Proof.
  intros H Ht. destruct c as [[| | | | |c]|]; simpl in *; try done.
  apply elem_of_app. left. unfold container_thread_ids.
  destruct (get2 "threadId" "thread_id" (VObject c) ≫= as_str) as [t'|] eqn:E.
  - simpl in H. simplify_eq. apply elem_of_app. left. unfold get2, obj_get2 in *. simpl in *.
    destruct (or_else _ _) as [[]|]; simpl in *; simplify_eq.
    rewrite (nonblank_Some t) //. by left.
  - simpl in H. apply elem_of_app. right. apply elem_of_app. left.
    destruct (obj_get "thread" c) as [th|]; simpl in *; [|done].
    destruct (get "id" th) as [[]|]; simpl in *; simplify_eq.
    rewrite (nonblank_Some t) //. by left.
Qed.

(** The directory is the root or lies below it. *)
Definition inside (root cwd : str) : Prop := cwd = root ∨ ∃ rest, cwd = root ++ ch_slash :: rest.

Lemma root_matches_spec cwd root : root_matches cwd root = true ↔ inside root cwd.
Proof.
  unfold root_matches, inside. destruct (strip_prefix root cwd) as [[|c rest]|] eqn:E.
  - apply strip_prefix_Some in E. rewrite app_nil_r in E. naive_solver.
  - apply strip_prefix_Some in E as ->. rewrite N.eqb_eq. split.
    + intros ->. right. eauto.
    + intros [H|[r H]]; [|by simplify_list_eq].
      apply (f_equal length) in H. rewrite length_app /= in H. lia.
  - split; [done|]. intros [->|[r ->]].
    + by rewrite -{2}(app_nil_r root) strip_prefix_app in E.
    + by rewrite strip_prefix_app in E.
Qed.

Lemma inside_same_len a b cwd : inside a cwd → inside b cwd → str_len a = str_len b → a = b.
Proof.
  assert (∀ r, inside r cwd → ∃ x, cwd = r ++ x) as Hpre.
  { intros r [->|[rest ->]]; [exists []; by rewrite app_nil_r|eauto]. }
  intros [x Hx]%Hpre [y Hy]%Hpre. apply prefix_len_eq with x y. by rewrite -Hx.
Qed.

Lemma elem_of_matching_roots cwd l w n :
  (w, n) ∈ matching_roots cwd l ↔ ∃ r, (w, r) ∈ l ∧ r ≠ [] ∧ inside r cwd ∧ n = str_len r.
Proof.
  unfold matching_roots. rewrite list_elem_of_omap. split.
  - intros ([w' r] & Hin & H). destruct (is_empty r) eqn:Er; [done|].
    destruct (root_matches cwd r) eqn:Em; simplify_eq.
    exists r. split_and!; [done|by apply is_empty_false|by apply root_matches_spec|done].
  - intros (r & Hin & Hr%is_empty_false & Hm%root_matches_spec & ->).
    exists (w, r). by rewrite Hr Hm.
Qed.

Section resolve.
Context `{HashOrder} (roots : gmap str str).

(** The workspace [w] claims the directory through a root no other claiming
    root is longer than. *)
Definition longest_root_of (cwd w : str) : Prop :=
  ∃ r, roots !! w = Some r ∧ r ≠ [] ∧ inside r cwd ∧
    ∀ w' r', roots !! w' = Some r' → r' ≠ [] → inside r' cwd → str_len r' <= str_len r.

Lemma resolve_workspace_for_cwd_Some cwd w :
  resolve_workspace_for_cwd cwd roots = Some w → longest_root_of (normalize_root_path cwd) w.
Proof.
  unfold resolve_workspace_for_cwd. case_match; [done|]. intros ([w' n] & Hmax & ->)%fmap_Some.
  apply max_by_key_Some in Hmax as [Hin Hge].
  apply elem_of_matching_roots in Hin as (r & Hr%elem_of_hash_iter & Hne & Hi & ->).
  exists r. split_and!; [done..|]. intros w2 r2 Hr2 Hne2 Hi2.
  apply (Nat2Z.inj_le), (Hge (w2, str_len r2)). apply elem_of_matching_roots.
  exists r2. by rewrite elem_of_hash_iter.
Qed.

Lemma resolve_workspace_for_cwd_None cwd :
  resolve_workspace_for_cwd cwd roots = None →
  ∀ w r, roots !! w = Some r → r ≠ [] → ¬ inside r (normalize_root_path cwd).
Proof.
  unfold resolve_workspace_for_cwd. intros Hn w r Hr Hne Hi.
  destruct (is_empty (normalize_root_path cwd)) eqn:E.
  - apply is_empty_true in E. rewrite E in Hi. destruct Hi as [Hi|[rest Hi]]; [done|].
    by destruct r.
  - apply fmap_None, max_by_key_None in Hn.
    assert ((w, str_len r) ∈ matching_roots (normalize_root_path cwd) (hash_iter roots)) as Hin.
    { apply elem_of_matching_roots. exists r. by rewrite elem_of_hash_iter. }
    rewrite Hn in Hin. inversion Hin.
Qed.
End resolve.

(** ** Properties *)

(** The threads a message is related to come without repetition, none of
    them blank or padded; and the thread the message is routed by is one. *)
Theorem related_thread_ids_sound (v : value) :
  NoDup (extract_related_thread_ids v)
  ∧ Forall (λ t, t ≠ [] ∧ trim t = t) (extract_related_thread_ids v)
  ∧ ∀ t, extract_thread_id v = Some t → trim t ≠ [] → trim t ∈ extract_related_thread_ids v.
Proof.
  split_and!; [apply dedup_from_NoDup|..].
  - apply Forall_forall. intros t [Ht _]%dedup_from_elem.
    assert (Forall clean_id (collect_from_container (get "params" v)
      ++ collect_from_container (get "result" v) ++ collect_from_container (Some v))) as Hall.
    { repeat apply Forall_app_2; apply collect_from_container_clean. }
    rewrite Forall_forall in Hall. by apply Hall.
  - intros t Ht Hne. apply dedup_from_elem. split; [|set_solver].
    unfold extract_thread_id in Ht. rewrite !elem_of_app.
    destruct (extract_from_container (get "params" v)) as [t'|] eqn:E; simpl in Ht; simplify_eq.
    + left. by apply extract_from_container_collected.
    + right. left. by apply extract_from_container_collected.
Qed.

(** A working directory belongs to the workspace with the longest root that
    contains it, and to none when no root does. *)
Theorem resolve_workspace_for_cwd_longest `{HashOrder} (cwd : str) (roots : gmap str str) :
  match resolve_workspace_for_cwd cwd roots with
  | Some w => longest_root_of roots (normalize_root_path cwd) w
  | None => ∀ w r, roots !! w = Some r → r ≠ [] → ¬ inside r (normalize_root_path cwd)
  end.
Proof.
  destruct (resolve_workspace_for_cwd cwd roots) eqn:E.
  - by apply resolve_workspace_for_cwd_Some.
  - by apply resolve_workspace_for_cwd_None.
Qed.

(** When no two workspaces share a root, the workspace of a directory does
    not depend on the order in which the map iterates. *)
Theorem resolve_workspace_for_cwd_order_independent (H1 H2 : HashOrder) (cwd : str) (roots : gmap str str)
  (Hinj : ∀ w w' r, roots !! w = Some r → roots !! w' = Some r → w = w') :
  @resolve_workspace_for_cwd H1 cwd roots = @resolve_workspace_for_cwd H2 cwd roots.
Proof.
  assert (∀ (Ha Hb : HashOrder) w, @resolve_workspace_for_cwd Ha cwd roots = Some w →
    @resolve_workspace_for_cwd Hb cwd roots = Some w) as Haux.
  { intros Ha Hb w Hw. apply (resolve_workspace_for_cwd_Some roots) in Hw as (r & Hr & Hne & Hi & Hmax).
    destruct (@resolve_workspace_for_cwd Hb cwd roots) as [w'|] eqn:E.
    - apply (resolve_workspace_for_cwd_Some roots) in E as (r' & Hr' & Hne' & Hi' & Hmax').
      assert (r = r') as <-.
      { apply (inside_same_len r r' _ Hi Hi').
        pose proof (Hmax _ _ Hr' Hne' Hi'). pose proof (Hmax' _ _ Hr Hne Hi). lia. }
      f_equal. by eapply Hinj.
    - by destruct (resolve_workspace_for_cwd_None roots _ E _ _ Hr Hne). }
  destruct (@resolve_workspace_for_cwd H1 cwd roots) as [w|] eqn:E.
  - symmetry. by apply (Haux H1 H2 w E).
  - destruct (@resolve_workspace_for_cwd H2 cwd roots) as [w|] eqn:E2; [|done].
    by rewrite (Haux H2 H1 w E2) in E.
Qed.

Theorem resolve_workspace_for_cwd_order_independent_witness :
  let roots : gmap str str := {["outer" : str := lit "c:/dev"; "inner" : str := lit "c:/dev/app"]} in
  @resolve_workspace_for_cwd map_order "C:/Dev/App/src" roots
  = @resolve_workspace_for_cwd reverse_order "C:/Dev/App/src" roots
  ∧ @resolve_workspace_for_cwd map_order "C:/Dev/App/src" roots = Some (lit "inner").
Proof.
  split; [|vm_compute; reflexivity].
  apply (resolve_workspace_for_cwd_order_independent map_order reverse_order).
  intros w w' r [[<- <-]|[_ [<- <-]%lookup_singleton_Some]]%lookup_insert_Some
    [[<- Hr]|[_ [<- Hr]%lookup_singleton_Some]]%lookup_insert_Some; done.
Defined.
