(* ===== verification/Session.v ===== *)
(** A session with one [codex app-server] process: the shared state of
    [WorkspaceSession] in [src-tauri/src/backend/app_server.rs], the reader
    task that routes each line of the process (split here in the stages of its
    loop body), and the requests that wait for their responses. Several
    requests and the reader run as concurrent tasks: they interleave as the
    steps of a transition system. *)
From S2P Require Import Prelude Json Paths AppServer.

(** ** State *)

Record RequestContext := MkRequestContext { rc_workspace_id : str; rc_method : str }.

Record AppServerEvent := MkAppServerEvent { ev_workspace_id : str; ev_message : value }.

(** A [oneshot::Sender] and a background channel are known by a number. *)
Record WorkspaceSession := MkWorkspaceSession {
  session_codex_args : option str;
  pending : gmap Z nat;
  request_context : gmap Z RequestContext;
  thread_workspace : gmap str str;
  hidden_thread_ids : gset str;
  next_id : Z;
  background_thread_callbacks : gmap str nat;
  owner_workspace_id : str;
  workspace_ids : gset str;
  workspace_roots : gmap str str
}.

Definition set_pending (s : WorkspaceSession) (p : gmap Z nat) : WorkspaceSession :=
  MkWorkspaceSession (session_codex_args s) p (request_context s) (thread_workspace s) (hidden_thread_ids s)
    (next_id s) (background_thread_callbacks s) (owner_workspace_id s) (workspace_ids s) (workspace_roots s).
Definition set_request_context (s : WorkspaceSession) (c : gmap Z RequestContext) : WorkspaceSession :=
  MkWorkspaceSession (session_codex_args s) (pending s) c (thread_workspace s) (hidden_thread_ids s)
    (next_id s) (background_thread_callbacks s) (owner_workspace_id s) (workspace_ids s) (workspace_roots s).
Definition set_thread_workspace (s : WorkspaceSession) (t : gmap str str) : WorkspaceSession :=
  MkWorkspaceSession (session_codex_args s) (pending s) (request_context s) t (hidden_thread_ids s)
    (next_id s) (background_thread_callbacks s) (owner_workspace_id s) (workspace_ids s) (workspace_roots s).
Definition set_hidden_thread_ids (s : WorkspaceSession) (h : gset str) : WorkspaceSession :=
  MkWorkspaceSession (session_codex_args s) (pending s) (request_context s) (thread_workspace s) h
    (next_id s) (background_thread_callbacks s) (owner_workspace_id s) (workspace_ids s) (workspace_roots s).
Definition set_next_id (s : WorkspaceSession) (n : Z) : WorkspaceSession :=
  MkWorkspaceSession (session_codex_args s) (pending s) (request_context s) (thread_workspace s)
    (hidden_thread_ids s) n (background_thread_callbacks s) (owner_workspace_id s) (workspace_ids s)
    (workspace_roots s).
Definition set_workspaces (s : WorkspaceSession) (ids : gset str) (roots : gmap str str) : WorkspaceSession :=
  MkWorkspaceSession (session_codex_args s) (pending s) (request_context s) (thread_workspace s)
    (hidden_thread_ids s) (next_id s) (background_thread_callbacks s) (owner_workspace_id s) ids roots.
Definition set_background (s : WorkspaceSession) (b : gmap str nat) : WorkspaceSession :=
  MkWorkspaceSession (session_codex_args s) (pending s) (request_context s) (thread_workspace s)
    (hidden_thread_ids s) (next_id s) b (owner_workspace_id s) (workspace_ids s) (workspace_roots s).

(** The session [spawn_workspace_session] creates for a workspace entry. *)
Definition new_session (codex_args : option str) (entry_id entry_path : str) : WorkspaceSession :=
  MkWorkspaceSession codex_args ∅ ∅ ∅ ∅ 1 ∅ entry_id {[entry_id]}
    {[entry_id := normalize_root_path entry_path]}.

(** ** Workspaces of a session *)

Definition register_workspace_with_path (s : WorkspaceSession) (workspace_id : str) (workspace_path : option str)
    : WorkspaceSession :=
  let ids := {[workspace_id]} ∪ workspace_ids s in
  match workspace_path with
  | Some path =>
      let normalized := normalize_root_path path in
      if is_empty normalized then set_workspaces s ids (workspace_roots s)
      else set_workspaces s ids (<[workspace_id := normalized]> (workspace_roots s))
  | None => set_workspaces s ids (workspace_roots s)
  end.

Definition register_workspace (s : WorkspaceSession) (workspace_id : str) : WorkspaceSession :=
  register_workspace_with_path s workspace_id None.

Definition unregister_workspace (s : WorkspaceSession) (workspace_id : str) : WorkspaceSession :=
  set_workspaces s (workspace_ids s ∖ {[workspace_id]}) (delete workspace_id (workspace_roots s)).

Definition workspace_ids_snapshot `{HashOrder} (s : WorkspaceSession) : list str :=
  (hash_iter (gset_to_gmap tt (workspace_ids s))).*1.

(** ** The reader task *)

(** What handling a message does outside the session's state: an event for the
    frontend, a value for a waiting request, one for a background thread. *)
Inductive Output :=
| Emit (e : AppServerEvent)
| Resolve (tx : nat) (v : value)
| Background (ch : nat) (v : value).

Section reader.
Context `{HashOrder}.

Definition message_id (v : value) : option Z := get "id" v ≫= as_u64.
Definition has_method (v : value) : bool := is_some_b (get "method" v).
Definition has_result_or_error (v : value) : bool := is_some_b (get "result" v) || is_some_b (get "error" v).
Definition method_name (v : value) : option str := get "method" v ≫= as_str.
Definition method_is (v : value) (m : str) : bool :=
  match method_name v with Some n => n =s? m | None => false end.

(** The context of the request a response answers, removed from the map. *)
Definition take_request_context (s : WorkspaceSession) (v : value) : WorkspaceSession * option RequestContext :=
  match message_id v with
  | Some id =>
      if has_result_or_error v
      then (set_request_context s (delete id (request_context s)), request_context s !! id)
      else (s, None)
  | None => (s, None)
  end.

Definition insert_all (tids : list str) (w : str) (m : gmap str str) : gmap str str :=
  foldl (λ m tid, <[tid := w]> m) m tids.

(** The threads of a response belong to the workspace of the request. *)
Definition record_related_threads (s : WorkspaceSession) (v : value) (request_workspace : option str)
    : WorkspaceSession :=
  match request_workspace with
  | Some w =>
      let related_thread_ids := extract_related_thread_ids v in
      if negb (is_empty related_thread_ids)
      then set_thread_workspace s (insert_all related_thread_ids w (thread_workspace s))
      else match extract_thread_id v with
           | Some tid => set_thread_workspace s (<[tid := w]> (thread_workspace s))
           | None => s
           end
  | None => s
  end.

(** One entry of a thread list: a memory consolidation thread is forgotten
    and hidden, any other goes to the workspace of its directory. *)
Definition record_thread_entry (roots : gmap str str) (acc : gmap str str * gset str) (e : ThreadListEntry)
    : gmap str str * gset str :=
  let '(tw, hidden) := acc in
  if tle_is_memory_consolidation e
  then (delete (tle_thread_id e) tw, {[tle_thread_id e]} ∪ hidden)
  else match tle_cwd e ≫= λ cwd, resolve_workspace_for_cwd cwd roots with
       | Some w => (<[tle_thread_id e := w]> tw, hidden)
       | None => (tw, hidden)
       end.

Definition record_thread_list (s : WorkspaceSession) (v : value) (request_method : option str)
    : WorkspaceSession :=
  if match request_method with Some m => m =s? "thread/list" | None => false end then
    let '(tw, hidden) := foldl (record_thread_entry (workspace_roots s))
                           (thread_workspace s, hidden_thread_ids s)
                           (extract_thread_entries_from_thread_list_result v) in
    set_hidden_thread_ids (set_thread_workspace s tw) hidden
  else s.

Definition routed_workspace (s : WorkspaceSession) (fallback : str) (v : value) (request_workspace : option str)
    : str :=
  unwrap_or fallback (or_else (tid ← extract_thread_id v; thread_workspace s !! tid) request_workspace).

(** [params.action], with its default; anything but "hide" leaves the set. *)
Definition background_action (v : value) : str :=
  unwrap_or ("hide" : str) (params ← get "params" v; action ← get "action" params; as_str action).

(** Hidden threads. The handling of the message ends here when the boolean is
    set: a memory consolidation thread starts, or a hidden thread speaks. *)
Definition handle_hidden (s : WorkspaceSession) (routed : str) (v : value)
    : WorkspaceSession * list Output * bool :=
  match extract_thread_id v with
  | None => (s, [], false)
  | Some tid =>
      let suppress s :=
        bool_decide (tid ∈ hidden_thread_ids s)
        && should_suppress_hidden_thread_event (method_name v) (has_result_or_error v) in
      let hide s := set_hidden_thread_ids s ({[tid]} ∪ hidden_thread_ids s) in
      if method_is v "codex/backgroundThread" then
        let s := if eq_ignore_ascii_case (background_action v) "hide" then hide s else s in
        (s, [], suppress s)
      else if method_is v "thread/started" && thread_started_is_memory_consolidation v then
        (hide s, [Emit (MkAppServerEvent routed (hide_event tid))], true)
      else (s, [], suppress s)
  end.

(** The threads an item mentions go to the routed workspace unless they
    already have one ([entry().or_insert_with()]). *)
Definition insert_missing (tids : list str) (w : str) (m : gmap str str) : gmap str str :=
  foldl (λ m tid, match m !! tid with Some _ => m | None => <[tid := w]> m end) m tids.
Definition record_item_threads (s : WorkspaceSession) (routed : str) (v : value) : WorkspaceSession :=
  if method_is v "item/started" || method_is v "item/completed"
  then set_thread_workspace s (insert_missing (extract_related_thread_ids v) routed (thread_workspace s))
  else s.

Definition forget_archived (s : WorkspaceSession) (v : value) : WorkspaceSession :=
  if method_is v "thread/archived" then
    match extract_thread_id v with
    | Some tid => set_hidden_thread_ids (set_thread_workspace s (delete tid (thread_workspace s)))
                    (hidden_thread_ids s ∖ {[tid]})
    | None => s
    end
  else s.

(** A request or notification of the process: to the background thread that
    listens, to every workspace, or to the routed one. *)
Definition forward (s : WorkspaceSession) (routed : str) (v : value) (request_workspace : option str)
    : list Output :=
  match tid ← extract_thread_id v; background_thread_callbacks s !! tid with
  | Some ch => [Background ch v]
  | None =>
      if should_broadcast_global_workspace_notification (method_name v) (extract_thread_id v) request_workspace
      then let ids := workspace_ids_snapshot s in
           if is_empty ids then [Emit (MkAppServerEvent routed v)]
           else map (λ w, Emit (MkAppServerEvent w v)) ids
      else [Emit (MkAppServerEvent routed v)]
  end.

(** [pending.remove(&id)] and [tx.send(value)]. *)
Definition resolve_pending (s : WorkspaceSession) (id : Z) (v : value) : WorkspaceSession * list Output :=
  match pending s !! id with
  | Some tx => (set_pending s (delete id (pending s)), [Resolve tx v])
  | None => (s, [])
  end.

Definition dispatch (s : WorkspaceSession) (routed : str) (v : value) (request_workspace : option str)
    : WorkspaceSession * list Output :=
  match message_id v with
  | Some id =>
      if has_result_or_error v then resolve_pending s id v
      else if has_method v then (s, forward s routed v request_workspace)
      else resolve_pending s id v
  | None => if has_method v then (s, forward s routed v request_workspace) else (s, [])
  end.

(** The body of the reader's loop for a parsed message. *)
Definition handle_value (fallback : str) (s : WorkspaceSession) (v : value) : WorkspaceSession * list Output :=
  let '(s, ctx) := take_request_context s v in
  let request_workspace := rc_workspace_id <$> ctx in
  let s := record_related_threads s v request_workspace in
  let s := record_thread_list s v (rc_method <$> ctx) in
  let routed := routed_workspace s fallback v request_workspace in
  let '(s, out, stop) := handle_hidden s routed v in
  if stop then (s, out)
  else
    let s := record_item_threads s routed v in
    let s := forget_archived s v in
    dispatch s routed v request_workspace.

(** A line of output; [from_str] is [serde_json::from_str]. *)
Definition handle_line (from_str : str → result str value) (fallback : str) (s : WorkspaceSession) (line : str)
    : WorkspaceSession * list Output :=
  if is_empty (trim line) then (s, [])
  else match from_str line with
       | Err err => (s, [Emit (MkAppServerEvent fallback (parse_error_event err line))])
       | Ok v => handle_value fallback s v
       end.
End reader.

(** The end of the output: every pending request loses its sender. *)
Definition handle_eof (s : WorkspaceSession) : WorkspaceSession :=
  set_request_context (set_pending s ∅) ∅.

(** ** Requests *)

Definition u64_modulus : Z := 18446744073709551616.
Definition REQUEST_TIMEOUT : N := 300.

(** The part of [send_request_for_workspace] before the write: an id, a
    oneshot channel [tx], and the entries other tasks will look up. *)
Definition begin_request (s : WorkspaceSession) (tx : nat) (workspace_id method : str) (params : value)
    : WorkspaceSession * Z :=
  let id := next_id s in
  let s := set_next_id s ((next_id s + 1) mod u64_modulus) in
  let s := register_workspace s workspace_id in
  let s := set_pending s (<[id := tx]> (pending s)) in
  let s := set_request_context s (<[id := MkRequestContext workspace_id method]> (request_context s)) in
  match extract_thread_id (VObject (mk_object [("params" : str, params)])) with
  | Some tid => (set_thread_workspace s (<[tid := workspace_id]> (thread_workspace s)), id)
  | None => (s, id)
  end.

Definition request_message (id : Z) (method : str) (params : value) : value :=
  VObject (mk_object [("id" : str, VNumber (PosInt id)); ("method" : str, vstr method); ("params" : str, params)]).

(** After a failed write or a timeout: the entries are removed. *)
Definition abandon_request (s : WorkspaceSession) (id : Z) : WorkspaceSession :=
  set_request_context (set_pending s (delete id (pending s))) (delete id (request_context s)).

Definition request_canceled : str := "request canceled".
Definition request_timed_out : str :=
  lit "request timed out after " ++ show_N REQUEST_TIMEOUT ++ lit " seconds".

(** ** The tasks of a session, interleaved *)

(** The receiving end of a oneshot channel. *)
Inductive Slot := Empty | Full (v : value) | Closed.

(** Where a call of [send_request_for_workspace] stands. *)
Inductive Phase := Writing | Waiting | Finished (r : result str value).

Record Task := MkTask { t_id : Z; t_phase : Phase; t_slot : Slot }.

Record System := MkSystem {
  sys_session : WorkspaceSession;
  sys_tasks : gmap nat Task;
  sys_next : nat;
  sys_log : list Output
}.

Definition finished (t : Task) : Prop := match t_phase t with Finished _ => True | _ => False end.
Definition set_phase (p : Phase) (t : Task) : Task := MkTask (t_id t) p (t_slot t).
Definition close_slot (t : Task) : Task :=
  MkTask (t_id t) (t_phase t) match t_slot t with Empty => Closed | s => s end.
Definition fill_slot (v : value) (t : Task) : Task :=
  MkTask (t_id t) (t_phase t) match t_slot t with Empty => Full v | s => s end.

Definition deliver (tasks : gmap nat Task) (out : list Output) : gmap nat Task :=
  foldl (λ ts o, match o with Resolve tx v => alter (fill_slot v) tx ts | _ => ts end) tasks out.

Definition drop_senders (p : gmap Z nat) (tasks : gmap nat Task) : gmap nat Task :=
  map_imap (λ tx t, Some (if decide (p !! t_id t = Some tx) then close_slot t else t)) tasks.

Section system.
Context `{HashOrder} (from_str : str → result str value) (fallback : str).

Inductive step : System → System → Prop :=
| step_begin s ts n log w method params s' id :
    begin_request s n w method params = (s', id) →
    step (MkSystem s ts n log)
      (MkSystem s' (<[n := MkTask id Writing Empty]>
         match pending s !! id with Some old => alter close_slot old ts | None => ts end) (S n) log)
| step_written s ts n log tx t :
    ts !! tx = Some t → t_phase t = Writing →
    step (MkSystem s ts n log) (MkSystem s (<[tx := set_phase Waiting t]> ts) n log)
| step_write_error s ts n log tx t e :
    ts !! tx = Some t → t_phase t = Writing →
    step (MkSystem s ts n log)
      (MkSystem (abandon_request s (t_id t)) (<[tx := set_phase (Finished (Err e)) t]> ts) n log)
| step_receive s ts n log tx t v :
    ts !! tx = Some t → t_phase t = Waiting → t_slot t = Full v →
    step (MkSystem s ts n log) (MkSystem s (<[tx := set_phase (Finished (Ok v)) t]> ts) n log)
| step_canceled s ts n log tx t :
    ts !! tx = Some t → t_phase t = Waiting → t_slot t = Closed →
    step (MkSystem s ts n log)
      (MkSystem s (<[tx := set_phase (Finished (Err request_canceled)) t]> ts) n log)
| step_timeout s ts n log tx t :
    ts !! tx = Some t → t_phase t = Waiting → t_slot t = Empty →
    step (MkSystem s ts n log)
      (MkSystem (abandon_request s (t_id t))
         (<[tx := set_phase (Finished (Err request_timed_out)) t]> ts) n log)
| step_line s ts n log line s' out :
    handle_line from_str fallback s line = (s', out) →
    step (MkSystem s ts n log) (MkSystem s' (deliver ts out) n (log ++ out))
| step_eof s ts n log :
    step (MkSystem s ts n log) (MkSystem (handle_eof s) (drop_senders (pending s) ts) n log)
| step_register s ts n log w path :
    step (MkSystem s ts n log) (MkSystem (register_workspace_with_path s w path) ts n log)
| step_unregister s ts n log w :
    step (MkSystem s ts n log) (MkSystem (unregister_workspace s w) ts n log).

Definition initial (codex_args : option str) (id path : str) : System :=
  MkSystem (new_session codex_args id path) ∅ 0 [].

Definition reachable (sys : System) : Prop :=
  ∃ codex_args id path, rtc step (initial codex_args id path) sys.
End system.

(** The id of the request with number [tx]. *)
Definition id_of (tx : nat) : Z := (1 + Z.of_nat tx) mod u64_modulus.

Record Inv (sys : System) : Prop := {
  inv_next : next_id (sys_session sys) = id_of (sys_next sys);
  inv_id : ∀ tx t, sys_tasks sys !! tx = Some t → tx < sys_next sys ∧ t_id t = id_of tx;
  inv_pending : ∀ id tx, pending (sys_session sys) !! id = Some tx →
    ∃ t, sys_tasks sys !! tx = Some t ∧ t_id t = id ∧ t_slot t = Empty ∧ ¬ finished t;
  inv_waiting : ∀ tx t, sys_tasks sys !! tx = Some t → ¬ finished t → t_slot t = Empty →
    pending (sys_session sys) !! t_id t = Some tx;
  inv_slot : ∀ tx t v, sys_tasks sys !! tx = Some t → t_slot t = Full v → message_id v = Some (t_id t);
  inv_result : ∀ tx t v, sys_tasks sys !! tx = Some t → t_phase t = Finished (Ok v) →
    message_id v = Some (t_id t)
}.

(** ** Lemmas *)

(** The stages before the dispatch touch neither the requests nor the
    workspaces. *)
Record frame (s s' : WorkspaceSession) : Prop := {
  frame_pending : pending s' = pending s;
  frame_next : next_id s' = next_id s;
  frame_background : background_thread_callbacks s' = background_thread_callbacks s;
  frame_ids : workspace_ids s' = workspace_ids s;
  frame_roots : workspace_roots s' = workspace_roots s
}.

#[export] Instance frame_preorder : PreOrder frame.
Proof. split; [done|]. intros s1 s2 s3 [] []. split; congruence. Qed.

Section reader_lemmas.
Context `{HashOrder}.

Lemma take_request_context_frame s v : frame s (take_request_context s v).1.
Proof. unfold take_request_context. repeat case_match; done. Qed.

Lemma record_related_threads_frame s v w : frame s (record_related_threads s v w).
Proof. unfold record_related_threads. repeat case_match; done. Qed.

Lemma record_thread_list_frame s v m : frame s (record_thread_list s v m).
Proof. unfold record_thread_list. repeat case_match; done. Qed.

Lemma handle_hidden_frame s routed v : frame s (handle_hidden s routed v).1.1.
Proof. unfold handle_hidden. repeat case_match; done. Qed.

Lemma record_item_threads_frame s routed v : frame s (record_item_threads s routed v).
Proof. unfold record_item_threads. repeat case_match; done. Qed.

Lemma forget_archived_frame s v : frame s (forget_archived s v).
Proof. unfold forget_archived. repeat case_match; done. Qed.

(** No output of the hidden stage or of forwarding answers a request. *)
Definition no_resolve (out : list Output) : Prop :=
  Forall (λ o, match o with Resolve _ _ => False | _ => True end) out.

Lemma handle_hidden_no_resolve s routed v : no_resolve (handle_hidden s routed v).1.2.
Proof. unfold handle_hidden, no_resolve. repeat case_match; simpl; repeat constructor. Qed.

Lemma forward_no_resolve s routed v w : no_resolve (forward s routed v w).
Proof.
  unfold forward, no_resolve. repeat case_match; try (by repeat constructor).
  apply Forall_map, Forall_true. done.
Qed.

(** A message changes the requests in at most one way: the one its id names
    is removed and gets the message. *)
Inductive request_effect (s s' : WorkspaceSession) (v : value) (out : list Output) : Prop :=
| effect_none : pending s' = pending s → no_resolve out → request_effect s s' v out
| effect_resolve id tx : message_id v = Some id → pending s !! id = Some tx →
    pending s' = delete id (pending s) → out = [Resolve tx v] → request_effect s s' v out.

Lemma resolve_pending_effect s id v :
  message_id v = Some id →
  request_effect s (resolve_pending s id v).1 v (resolve_pending s id v).2.
Proof.
  intros Hid. unfold resolve_pending. destruct (pending s !! id) as [tx|] eqn:E; simpl.
  - by eapply effect_resolve.
  - apply effect_none; [done|constructor].
Qed.

Lemma dispatch_effect s routed v w :
  request_effect s (dispatch s routed v w).1 v (dispatch s routed v w).2.
Proof.
  unfold dispatch. destruct (message_id v) as [id|] eqn:Hid.
  - destruct (has_result_or_error v); [by apply resolve_pending_effect|].
    destruct (has_method v); [|by apply resolve_pending_effect].
    apply effect_none; [done|apply forward_no_resolve].
  - destruct (has_method v); apply effect_none; try done; [apply forward_no_resolve|constructor].
Qed.

Lemma dispatch_next s routed v w :
  next_id (dispatch s routed v w).1 = next_id s ∧ workspace_ids (dispatch s routed v w).1 = workspace_ids s.
Proof. unfold dispatch, resolve_pending. repeat case_match; done. Qed.

(** The state at the dispatch, and whether the message gets there. *)
Definition before_dispatch (fallback : str) (s : WorkspaceSession) (v : value)
    : WorkspaceSession * list Output * bool :=
  let s1 := (take_request_context s v).1 in
  let ctx := (take_request_context s v).2 in
  let s2 := record_thread_list (record_related_threads s1 v (rc_workspace_id <$> ctx)) v (rc_method <$> ctx) in
  handle_hidden s2 (routed_workspace s2 fallback v (rc_workspace_id <$> ctx)) v.

Definition routed_at (fallback : str) (s : WorkspaceSession) (v : value) : str :=
  let s1 := (take_request_context s v).1 in
  let ctx := (take_request_context s v).2 in
  routed_workspace (record_thread_list (record_related_threads s1 v (rc_workspace_id <$> ctx)) v (rc_method <$> ctx))
    fallback v (rc_workspace_id <$> ctx).

Lemma handle_value_unfold fallback s v :
  handle_value fallback s v =
    let '(s3, out, stop) := before_dispatch fallback s v in
    if (stop : bool) then (s3, out)
    else dispatch (forget_archived (record_item_threads s3 (routed_at fallback s v) v) v)
           (routed_at fallback s v) v (rc_workspace_id <$> (take_request_context s v).2).
Proof.
  unfold handle_value, before_dispatch, routed_at.
  destruct (take_request_context s v) as [s1 ctx]. done.
Qed.

Lemma before_dispatch_frame fallback s v : frame s (before_dispatch fallback s v).1.1.
Proof.
  unfold before_dispatch. etrans; [|apply handle_hidden_frame].
  etrans; [|apply record_thread_list_frame]. etrans; [|apply record_related_threads_frame].
  apply take_request_context_frame.
Qed.

Lemma after_hidden_frame s routed v : frame s (forget_archived (record_item_threads s routed v) v).
Proof. etrans; [apply record_item_threads_frame|apply forget_archived_frame]. Qed.

Lemma request_effect_frame s s1 s' v out :
  frame s s1 → request_effect s1 s' v out → request_effect s s' v out.
Proof.
  intros [Hp _ _ _ _] []; [apply effect_none|eapply effect_resolve]; try done; congruence.
Qed.

Lemma handle_value_effect fallback s v :
  request_effect s (handle_value fallback s v).1 v (handle_value fallback s v).2
  ∧ next_id (handle_value fallback s v).1 = next_id s
  ∧ workspace_ids (handle_value fallback s v).1 = workspace_ids s.
Proof.
  rewrite handle_value_unfold. pose proof (before_dispatch_frame fallback s v) as Hf.
  assert (no_resolve (before_dispatch fallback s v).1.2) as Hn by apply handle_hidden_no_resolve.
  destruct (before_dispatch fallback s v) as [[s3 out] stop]. simpl in *.
  destruct stop; simpl.
  - destruct Hf. split_and!; try done. by apply effect_none.
  - pose proof (after_hidden_frame s3 (routed_at fallback s v) v) as Hf'.
    split; [eapply request_effect_frame; [etrans; [exact Hf|exact Hf']|apply dispatch_effect]|].
    destruct (dispatch_next (forget_archived (record_item_threads s3 (routed_at fallback s v) v) v)
      (routed_at fallback s v) v (rc_workspace_id <$> (take_request_context s v).2)) as [-> ->].
    destruct Hf, Hf'. split; congruence.
Qed.
End reader_lemmas.

Lemma id_of_inj a b : (Z.of_nat a < u64_modulus)%Z → (Z.of_nat b < u64_modulus)%Z → id_of a = id_of b → a = b.
Proof.
  unfold id_of, u64_modulus. intros Ha Hb Hab.
  assert (∀ n : nat, (Z.of_nat n < 18446744073709551616)%Z →
    ((1 + Z.of_nat n) mod 18446744073709551616)%Z =
      if decide (Z.of_nat n = 18446744073709551615)%Z then 0%Z else (1 + Z.of_nat n)%Z) as Heq.
  { intros n Hn. case_decide as Hd; [by rewrite Hd|]. apply Z.mod_small. lia. }
  rewrite !Heq in Hab; try done. repeat case_decide; lia.
Qed.

Lemma id_of_succ n : ((id_of n + 1) mod u64_modulus)%Z = id_of (S n).
Proof.
  unfold id_of, u64_modulus. rewrite Zplus_mod_idemp_l. f_equal. lia.
Qed.

Lemma deliver_no_resolve ts out : no_resolve out → deliver ts out = ts.
Proof.
  unfold deliver, no_resolve. intros Hout. revert ts.
  induction Hout as [|[] out Ho _ IH]; intros ts; simpl; [done|apply IH|done|apply IH].
Qed.

Lemma begin_request_spec s tx w m params :
  let '(s', id) := begin_request s tx w m params in
  id = next_id s ∧ pending s' = <[id := tx]> (pending s)
  ∧ next_id s' = ((next_id s + 1) mod u64_modulus)%Z
  ∧ request_context s' !! id = Some (MkRequestContext w m).
Proof.
  unfold begin_request, register_workspace, register_workspace_with_path.
  destruct (extract_thread_id _); simpl; by rewrite lookup_insert_eq.
Qed.

(** Updating one task, keeping its id and its slot. *)
Lemma inv_set_phase s ts n log tx t p :
  Inv (MkSystem s ts n log) → ts !! tx = Some t → ¬ finished t →
  (∀ v, p = Finished (Ok v) → message_id v = Some (t_id t)) →
  (∀ r, p = Finished r → t_slot t ≠ Empty) →
  Inv (MkSystem s (<[tx := set_phase p t]> ts) n log).
Proof.
  intros [Hn Hid Hp Hw Hs Hr] Ht Hnf Hok Hfin. simpl in *.
  split; simpl; [done|..].
  - intros tx' t' [[<- <-]|[Hne Ht']]%lookup_insert_Some; [exact (Hid _ _ Ht)|by apply Hid].
  - intros id tx' Hpend. destruct (Hp _ _ Hpend) as (t' & Ht' & Hid' & Hslot & Hf).
    destruct (decide (tx = tx')) as [<-|Hne].
    + simplify_eq. eexists. rewrite lookup_insert_eq. split_and!; [done..|].
      unfold finished. simpl. destruct p; [tauto|tauto|]. by destruct (Hfin _ eq_refl).
    + exists t'. by rewrite lookup_insert_ne.
  - intros tx' t' [[<- <-]|[Hne Ht']]%lookup_insert_Some; simpl; intros Hf He; [|by apply Hw].
    by apply Hw.
  - intros tx' t' v [[<- <-]|[Hne Ht']]%lookup_insert_Some; simpl; eauto.
  - intros tx' t' v [[<- <-]|[Hne Ht']]%lookup_insert_Some; simpl; eauto.
Qed.

(** Giving up a task that has no answer yet. *)
Lemma inv_abandon s ts n log tx t e :
  (Z.of_nat n <= u64_modulus)%Z →
  Inv (MkSystem s ts n log) → ts !! tx = Some t →
  Inv (MkSystem (abandon_request s (t_id t)) (<[tx := set_phase (Finished (Err e)) t]> ts) n log).
Proof.
  intros Hb [Hn Hid Hp Hw Hs Hr] Ht. simpl in *.
  assert (∀ tx' t', ts !! tx' = Some t' → t_id t' = t_id t → tx' = tx) as Huniq.
  { intros tx' t' Ht' Heq. destruct (Hid _ _ Ht) as [Hlt Hi], (Hid _ _ Ht') as [Hlt' Hi'].
    apply id_of_inj; [lia..|congruence]. }
  split; simpl; [done|..].
  - intros tx' t' [[<- <-]|[Hne Ht']]%lookup_insert_Some; [exact (Hid _ _ Ht)|by apply Hid].
  - intros id tx' [Hne Hpend]%lookup_delete_Some.
    destruct (Hp _ _ Hpend) as (t' & Ht' & Hid' & Hslot & Hf).
    exists t'. rewrite lookup_insert_ne; [intros <-; by simplify_eq|done].
  - intros tx' t' [[<- <-]|[Hne Ht']]%lookup_insert_Some; simpl; intros Hf He.
    + by destruct Hf.
    + rewrite lookup_delete_ne; [intros Heq; by apply Hne, symmetry, (Huniq _ _ Ht')|by apply Hw].
  - intros tx' t' v [[<- <-]|[Hne Ht']]%lookup_insert_Some; simpl; eauto.
  - intros tx' t' v [[<- <-]|[Hne Ht']]%lookup_insert_Some; simpl; eauto. done.
Qed.

(** A message that leaves the requests alone, or answers one of them. *)
Lemma inv_effect s s' ts n log log' v out :
  Inv (MkSystem s ts n log) → next_id s' = next_id s → request_effect s s' v out →
  Inv (MkSystem s' (deliver ts out) n log').
Proof.
  intros [Hn Hid Hp Hw Hs Hr] Hnext Heff. simpl in *.
  destruct Heff as [Hpend Hno|id tx Hmid Hpend Hdel ->].
  - rewrite deliver_no_resolve //. split; simpl; try done; rewrite ?Hpend ?Hnext //.
  - destruct (Hp _ _ Hpend) as (t & Ht & Hti & Hslot & Hf).
    assert (deliver ts [Resolve tx v] = <[tx := MkTask id (t_phase t) (Full v)]> ts) as ->.
    { unfold deliver. simpl. apply map_eq. intros i. rewrite lookup_alter lookup_insert.
      case_decide as Hd; [|done]. rewrite Ht /= /fill_slot Hslot Hti. done. }
    split; simpl; [by rewrite Hnext|..].
    + intros tx' t' [[<- <-]|[Hne Ht']]%lookup_insert_Some; [|by apply Hid].
      simpl. rewrite -Hti. exact (Hid _ _ Ht).
    + rewrite Hdel. intros id' tx' [Hne Hp']%lookup_delete_Some.
      destruct (Hp _ _ Hp') as (t' & Ht' & Hid' & Hslot' & Hf').
      exists t'. rewrite lookup_insert_ne; [intros <-; by simplify_eq|done].
    + rewrite Hdel. intros tx' t' [[<- <-]|[Hne Ht']]%lookup_insert_Some; [done|]. intros Hf' He.
      rewrite lookup_delete_ne; [|by apply Hw]. intros Heq. apply Hne.
      pose proof (Hw _ _ Ht' Hf' He) as Hw'. rewrite -Heq in Hw'. by simplify_eq.
    + intros tx' t' v' [[<- <-]|[Hne Ht']]%lookup_insert_Some; [|by eauto].
      simpl. by intros [= <-].
    + intros tx' t' v' [[<- <-]|[Hne Ht']]%lookup_insert_Some; [|by eauto].
      simpl. intros Hph. rewrite -Hti. by eapply Hr.
Qed.

Lemma inv_workspaces s s' ts n log :
  pending s' = pending s → next_id s' = next_id s →
  Inv (MkSystem s ts n log) → Inv (MkSystem s' ts n log).
Proof. intros Hp Hn []. split; simpl in *; rewrite ?Hp ?Hn //. Qed.

Lemma register_workspace_requests s w path :
  pending (register_workspace_with_path s w path) = pending s
  ∧ next_id (register_workspace_with_path s w path) = next_id s.
Proof. unfold register_workspace_with_path. repeat case_match; done. Qed.

Lemma lookup_drop_senders p ts tx t :
  drop_senders p ts !! tx = Some t →
  ∃ t0, ts !! tx = Some t0 ∧ t = if decide (p !! t_id t0 = Some tx) then close_slot t0 else t0.
Proof.
  unfold drop_senders. rewrite map_lookup_imap. intros (t0 & Ht0 & [= <-])%bind_Some. eauto.
Qed.

Lemma close_slot_fields t :
  t_id (close_slot t) = t_id t ∧ t_phase (close_slot t) = t_phase t ∧ t_slot (close_slot t) ≠ Empty
  ∧ ∀ v, t_slot (close_slot t) = Full v → t_slot t = Full v.
Proof. destruct t as [? ? []]; naive_solver. Qed.

Lemma inv_eof s ts n log :
  Inv (MkSystem s ts n log) → Inv (MkSystem (handle_eof s) (drop_senders (pending s) ts) n log).
Proof.
  intros [Hn Hid Hp Hw Hs Hr]. simpl in *.
  split; simpl; [done|..].
  - intros tx t (t0 & Ht0 & ->)%lookup_drop_senders.
    destruct (close_slot_fields t0) as (Hi & _). case_decide; rewrite ?Hi; exact (Hid _ _ Ht0).
  - intros id tx H. by rewrite lookup_empty in H.
  - intros tx t (t0 & Ht0 & ->)%lookup_drop_senders Hf He. exfalso.
    destruct (close_slot_fields t0) as (Hi & Hph & Hne & _). case_decide as Hd; [done|].
    by destruct Hd; apply Hw.
  - intros tx t v (t0 & Ht0 & ->)%lookup_drop_senders.
    destruct (close_slot_fields t0) as (Hi & Hph & _ & Hv).
    case_decide; rewrite ?Hi; [intros Hv'%Hv|intros Hv']; by eapply Hs.
  - intros tx t v (t0 & Ht0 & ->)%lookup_drop_senders.
    destruct (close_slot_fields t0) as (Hi & Hph & _ & Hv).
    case_decide; rewrite ?Hi ?Hph; by eapply Hr.
Qed.

Lemma inv_begin s ts n log w m params s' id :
  (Z.of_nat n < u64_modulus)%Z →
  begin_request s n w m params = (s', id) →
  Inv (MkSystem s ts n log) →
  Inv (MkSystem s' (<[n := MkTask id Writing Empty]>
         match pending s !! id with Some old => alter close_slot old ts | None => ts end) (S n) log).
Proof.
  intros Hb Hbegin [Hn Hid Hp Hw Hs Hr]. simpl in *.
  pose proof (begin_request_spec s n w m params) as Hspec. rewrite Hbegin in Hspec.
  destruct Hspec as (-> & Hpend & Hnext & _). rewrite Hn in Hpend Hnext |- *.
  assert (∀ tx t, ts !! tx = Some t → t_id t ≠ id_of n) as Hfresh.
  { intros tx t Ht Heq. destruct (Hid _ _ Ht) as [Hlt Hi]. rewrite Hi in Heq.
    apply id_of_inj in Heq; lia. }
  assert (pending s !! id_of n = None) as Hnone.
  { destruct (pending s !! id_of n) as [tx|] eqn:E; [|done].
    destruct (Hp _ _ E) as (t & Ht & Hi & _). by destruct (Hfresh _ _ Ht). }
  rewrite Hnone. split; simpl.
  - by rewrite Hnext id_of_succ.
  - intros tx t [[<- <-]|[Hne Ht]]%lookup_insert_Some; [simpl; split; [lia|done]|].
    destruct (Hid _ _ Ht). split; [lia|done].
  - rewrite Hpend. intros id tx [[<- <-]|[Hne Hpd]]%lookup_insert_Some.
    + eexists. rewrite lookup_insert_eq. split_and!; [done..|]. by intros [].
    + destruct (Hp _ _ Hpd) as (t & Ht & Hrest). exists t.
      rewrite lookup_insert_ne; [intros <-; destruct (Hid _ _ Ht); lia|done].
  - rewrite Hpend. intros tx t [[<- <-]|[Hne Ht]]%lookup_insert_Some; simpl; intros Hf He.
    + by rewrite lookup_insert_eq.
    + rewrite lookup_insert_ne; [intros Heq; by apply (Hfresh _ _ Ht)|by apply Hw].
  - intros tx t v [[<- <-]|[Hne Ht]]%lookup_insert_Some; simpl; [done|by eauto].
  - intros tx t v [[<- <-]|[Hne Ht]]%lookup_insert_Some; simpl; [done|by eauto].
Qed.

Lemma not_finished t : (∀ r, t_phase t ≠ Finished r) → ¬ finished t.
Proof. intros Hr Hf. unfold finished in Hf. destruct (t_phase t) as [| |r]; try done. by destruct (Hr r). Qed.

Section system_lemmas.
Context `{HashOrder} (from_str : str → result str value) (fallback : str).

Lemma inv_initial codex_args id path : Inv (initial codex_args id path).
Proof. split; simpl; try done; intros *; by rewrite ?lookup_empty. Qed.

Lemma inv_line s ts n log line s' out :
  handle_line from_str fallback s line = (s', out) →
  Inv (MkSystem s ts n log) → Inv (MkSystem s' (deliver ts out) n (log ++ out)).
Proof.
  assert (∀ o, no_resolve o → Inv (MkSystem s ts n log) → Inv (MkSystem s (deliver ts o) n (log ++ o))) as Hnone.
  { intros o Ho Hinv. eapply (inv_effect _ _ _ _ _ _ VNull); [done|done|by apply effect_none]. }
  unfold handle_line. destruct (is_empty _); [intros [= <- <-]; apply Hnone; constructor|].
  destruct (from_str line) as [v|err]; [|intros [= <- <-]; apply Hnone; by repeat constructor].
  intros Hv Hinv. destruct (handle_value_effect fallback s v) as (Heff & Hnext & _).
  rewrite Hv in Heff, Hnext. by eapply inv_effect.
Qed.

Lemma inv_step sys sys' :
  step from_str fallback sys sys' → (Z.of_nat (sys_next sys') <= u64_modulus)%Z → Inv sys → Inv sys'.
Proof.
  destruct 1 as [s ts n log w m params s' id Hb|s ts n log tx t Ht Hph|s ts n log tx t e Ht Hph
    |s ts n log tx t v Ht Hph Hsl|s ts n log tx t Ht Hph Hsl|s ts n log tx t Ht Hph Hsl
    |s ts n log line s' out Hl|s ts n log|s ts n log w path|s ts n log w]; simpl; intros Hbound Hinv.
  - eapply inv_begin; [lia|done..].
  - apply inv_set_phase; try done. apply not_finished. by rewrite Hph.
  - by apply inv_abandon.
  - apply inv_set_phase; try done; [by apply not_finished; rewrite Hph|..].
    + intros v' [= <-]. by apply (inv_slot _ Hinv tx).
    + intros _ _. by rewrite Hsl.
  - apply inv_set_phase; try done; [by apply not_finished; rewrite Hph|].
    intros _ _. by rewrite Hsl.
  - by apply inv_abandon.
  - by eapply inv_line.
  - by apply inv_eof.
  - destruct (register_workspace_requests s w path). by apply (inv_workspaces s).
  - by apply (inv_workspaces s).
Qed.

Lemma step_next sys sys' : step from_str fallback sys sys' → sys_next sys <= sys_next sys'.
Proof. destruct 1; simpl; lia. Qed.

Lemma inv_steps sys sys' :
  rtc (step from_str fallback) sys sys' → (Z.of_nat (sys_next sys') <= u64_modulus)%Z → Inv sys → Inv sys'.
Proof.
  intros Hsteps Hb Hinv.
  assert (sys_next sys <= sys_next sys' ∧ Inv sys') as [_ Hend]; [|done].
  revert Hb Hinv. induction Hsteps as [sys|sys1 sys2 sys3 Hstep Hsteps IH]; intros Hb Hinv; [done|].
  assert (∀ a b, rtc (step from_str fallback) a b → sys_next a <= sys_next b) as Hmono.
  { induction 1 as [|a b c Hab _ IHab]; [done|]. apply step_next in Hab. lia. }
  pose proof (Hmono _ _ Hsteps). pose proof (step_next _ _ Hstep).
  destruct IH as [Hle Hi]; [done|eapply inv_step; [done|lia|done]|]. split; [lia|done].
Qed.

Lemma inv_reachable sys :
  reachable from_str fallback sys → (Z.of_nat (sys_next sys) <= u64_modulus)%Z → Inv sys.
Proof. intros (args & id & path & Hs) Hb. eapply inv_steps; [done|done|apply inv_initial]. Qed.
End system_lemmas.

Section handle_lemmas.
Context `{HashOrder}.

(** What becomes of the map from threads to workspaces. *)
Lemma insert_all_lookup tids w m t : t ∈ tids → insert_all tids w m !! t = Some w.
Proof.
  unfold insert_all. revert m. induction tids as [|x tids IH]; intros m Hin; [inversion Hin|]. simpl.
  destruct (decide (t ∈ tids)) as [Ht|Ht]; [by apply IH|].
  apply elem_of_cons in Hin as [->|]; [|done].
  assert (∀ l (m : gmap str str), x ∉ l → m !! x = Some w → foldl (λ m tid, <[tid:=w]> m) m l !! x = Some w) as Hkeep.
  { clear. induction l as [|y l IH]; intros m Hx Hm; [done|]. apply not_elem_of_cons in Hx as [Hxy Hx].
    simpl. apply IH; [done|]. by rewrite lookup_insert_ne. }
  apply Hkeep; [done|]. by rewrite lookup_insert_eq.
Qed.

Lemma handle_hidden_threads s routed v :
  thread_workspace (handle_hidden s routed v).1.1 = thread_workspace s.
Proof. unfold handle_hidden. repeat case_match; done. Qed.

Lemma dispatch_threads s routed v w :
  thread_workspace (dispatch s routed v w).1 = thread_workspace s
  ∧ request_context (dispatch s routed v w).1 = request_context s
  ∧ hidden_thread_ids (dispatch s routed v w).1 = hidden_thread_ids s.
Proof. unfold dispatch, resolve_pending. repeat case_match; done. Qed.

Definition request_context_kept (s s' : WorkspaceSession) : Prop := request_context s' = request_context s.

Lemma before_dispatch_context fallback s v :
  request_context (before_dispatch fallback s v).1.1 = request_context (take_request_context s v).1.
Proof.
  unfold before_dispatch, handle_hidden, record_thread_list, record_related_threads.
  repeat case_match; done.
Qed.

Lemma after_hidden_context s routed v :
  request_context (forget_archived (record_item_threads s routed v) v) = request_context s.
Proof. unfold forget_archived, record_item_threads. repeat case_match; done. Qed.

(** A message without method leaves the maps as they are after the hidden stage. *)
Lemma no_method_stages s routed v :
  get "method" v = None → forget_archived (record_item_threads s routed v) v = s.
Proof.
  intros Hm. unfold forget_archived, record_item_threads, method_is, method_name. by rewrite Hm.
Qed.

Lemma global_not_item s routed v m :
  get "method" v = Some (VString m) → is_global_workspace_notification m = true →
  forget_archived (record_item_threads s routed v) v = s.
Proof.
  intros Hm Hg. unfold forget_archived, record_item_threads, method_is, method_name. rewrite Hm /=.
  unfold is_global_workspace_notification in Hg.
  repeat (apply orb_true_iff in Hg as [Hg|Hg]); apply str_eqb_eq in Hg as ->; done.
Qed.

Lemma workspace_ids_snapshot_perm s : workspace_ids_snapshot s ≡ₚ elements (workspace_ids s).
Proof.
  apply NoDup_Permutation; [apply hash_iter_NoDup_fst|apply NoDup_elements|]. intros x.
  unfold workspace_ids_snapshot. rewrite elem_of_elements list_elem_of_fmap. split.
  - intros ([y []] & -> & Hy). apply elem_of_hash_iter, lookup_gset_to_gmap_Some in Hy. by destruct Hy.
  - intros Hx. exists (x, tt). split; [done|]. apply elem_of_hash_iter. by apply lookup_gset_to_gmap_Some.
Qed.

(** A response without method always reaches the dispatch. *)
Lemma response_not_stopped s routed v :
  has_result_or_error v = true → get "method" v = None → handle_hidden s routed v = (s, [], false).
Proof.
  intros Hr Hm. unfold handle_hidden, method_is, method_name, should_suppress_hidden_thread_event.
  rewrite Hm Hr. simpl. case_match; [|done]. by rewrite andb_false_r.
Qed.

(** A notification or request of the process has no context to take. *)
Lemma notification_context s v :
  has_result_or_error v = false → take_request_context s v = (s, None).
Proof. intros Hr. unfold take_request_context. rewrite Hr. by case_match. Qed.

Lemma notification_before fallback s v :
  has_result_or_error v = false →
  before_dispatch fallback s v = handle_hidden s (routed_workspace s fallback v None) v
  ∧ routed_at fallback s v = routed_workspace s fallback v None.
Proof.
  intros Hr. unfold before_dispatch, routed_at. by rewrite (notification_context s v Hr).
Qed.

Lemma record_item_threads_hidden s routed v :
  hidden_thread_ids (record_item_threads s routed v) = hidden_thread_ids s.
Proof. unfold record_item_threads. by case_match. Qed.

(** A notification that is neither silenced nor bound for a background thread
    goes to the workspace it is routed to. *)
Lemma notification_emitted fallback s v tid :
  message_id v = None → has_method v = true → has_result_or_error v = false →
  extract_thread_id v = Some tid → tid ∉ hidden_thread_ids s →
  background_thread_callbacks s !! tid = None →
  (method_is v "thread/started" && thread_started_is_memory_consolidation v) = false →
  (handle_value fallback s v).2 =
    [Emit (MkAppServerEvent (routed_workspace s fallback v None) v)].
Proof.
  intros Hid Hm Hr Ht Hhid Hbg Hmem. rewrite handle_value_unfold.
  destruct (notification_before fallback s v Hr) as [-> ->].
  rewrite (notification_context s v Hr). set (routed := routed_workspace _ _ _ _).
  pose proof (handle_hidden_frame s routed v) as [_ _ Hbg' _ _].
  assert ((handle_hidden s routed v).2 = false ∧ (handle_hidden s routed v).1.2 = []) as [Hstop Hout].
  { unfold handle_hidden. rewrite Ht Hmem. destruct (method_is v "codex/backgroundThread") eqn:E; simpl.
    - split; [|done]. unfold should_suppress_hidden_thread_event.
      unfold method_is in E. destruct (method_name v) as [n|]; [|done].
      by rewrite E orb_true_r /= !andb_false_r.
    - split; [|done]. by rewrite bool_decide_false. }
  destruct (handle_hidden s routed v) as [[s3 out] stop]. simpl in *. subst.
  pose proof (after_hidden_frame s3 routed v) as [_ _ Hbg2 _ _].
  unfold dispatch. rewrite Hid Hm /=. unfold forward. rewrite Ht /= Hbg2 Hbg' Hbg.
  unfold should_broadcast_global_workspace_notification. by rewrite /= andb_false_r.
Qed.
End handle_lemmas.

(** ** Properties *)

(** C2. Whatever the interleaving of requests, lines, timeouts and the end of the
    output, no request is lost: as long as it is not finished it is pending
    or its answer is there. Ids are not shared, and the answer a request
    returns carries its own id. *)
Theorem requests_are_tracked `{HashOrder} (from_str : str → result str value) (fallback : str) (sys : System)
  (Hreach : reachable from_str fallback sys)
  (Hbound : (Z.of_nat (sys_next sys) <= u64_modulus)%Z) :
  (∀ tx t, sys_tasks sys !! tx = Some t → ¬ finished t →
     pending (sys_session sys) !! t_id t = Some tx ∨ t_slot t ≠ Empty)
  ∧ (∀ tx tx' t t', sys_tasks sys !! tx = Some t → sys_tasks sys !! tx' = Some t' →
       t_id t = t_id t' → tx = tx')
  ∧ (∀ tx t v, sys_tasks sys !! tx = Some t → t_phase t = Finished (Ok v) → message_id v = Some (t_id t)).
Proof.
  destruct (inv_reachable from_str fallback sys Hreach Hbound) as [Hn Hid Hp Hw Hs Hr].
  split_and!; [|..].
  - intros tx t Ht Hf. destruct (t_slot t) eqn:E; [left; by apply Hw|by right..].
  - intros tx tx' t t' Ht Ht' Heq. destruct (Hid _ _ Ht) as [Hlt Hi], (Hid _ _ Ht') as [Hlt' Hi'].
    apply id_of_inj; [lia..|congruence].
  - done.
Qed.

(** C40. When the output of the process ends, every request that still waits finds
    its channel filled or closed: none is left to its timeout, and the maps
    of requests are empty. *)
Theorem eof_releases_requests `{HashOrder} (from_str : str → result str value) (fallback : str)
  (s : WorkspaceSession) (ts : gmap nat Task) (n : nat) (log : list Output)
  (Hreach : reachable from_str fallback (MkSystem s ts n log))
  (Hbound : (Z.of_nat n <= u64_modulus)%Z) :
  pending (handle_eof s) = ∅ ∧ request_context (handle_eof s) = ∅
  ∧ ∀ tx t, drop_senders (pending s) ts !! tx = Some t → ¬ finished t → t_slot t ≠ Empty.
Proof.
  pose proof (inv_eof s ts n log (inv_reachable from_str fallback _ Hreach Hbound)) as Hinv.
  split_and!; [done..|]. intros tx t Ht Hf He.
  pose proof (inv_waiting _ Hinv tx t Ht Hf He) as Hp. by rewrite lookup_empty in Hp.
Qed.

(** A response is handed to the request with its id, to no other, and
    nothing is emitted; the request is forgotten. *)
Theorem response_resolves_request `{HashOrder} (fallback : str) (s : WorkspaceSession) (v : value)
  (id : Z) (tx : nat)
  (Hid : message_id v = Some id) (Hresponse : has_result_or_error v = true)
  (Hmethod : get "method" v = None) (Hpending : pending s !! id = Some tx) :
  let '(s', out) := handle_value fallback s v in
  out = [Resolve tx v] ∧ pending s' = delete id (pending s) ∧ request_context s' !! id = None.
Proof.
  rewrite handle_value_unfold.
  pose proof (before_dispatch_frame fallback s v) as [Hp _ _ _ _].
  pose proof (before_dispatch_context fallback s v) as Hc.
  assert ((before_dispatch fallback s v).2 = false) as Hstop.
  { unfold before_dispatch. by rewrite response_not_stopped. }
  destruct (before_dispatch fallback s v) as [[s3 out] stop]. simpl in *. subst stop.
  rewrite no_method_stages //. unfold dispatch, resolve_pending.
  rewrite Hid Hresponse Hp Hpending /=. split_and!; [done..|].
  rewrite Hc /take_request_context Hid Hresponse /=. by rewrite lookup_delete_eq.
Qed.

(** A response to a request of a workspace makes it the owner of the threads
    it names: what the process later says about such a thread goes there. *)
Theorem thread_events_follow_the_response `{HashOrder} (fallback : str) (s : WorkspaceSession)
  (response event : value) (id : Z) (ctx : RequestContext) (tid : str)
  (Hid : message_id response = Some id) (Hresponse : has_result_or_error response = true)
  (Hmethod : get "method" response = None)
  (Hctx : request_context s !! id = Some ctx) (Hlist : rc_method ctx ≠ lit "thread/list")
  (Htid : tid ∈ extract_related_thread_ids response)
  (Hevent : message_id event = None) (Hem : has_method event = true) (Her : has_result_or_error event = false)
  (Het : extract_thread_id event = Some tid)
  (Hshown : tid ∉ hidden_thread_ids s) (Hbg : background_thread_callbacks s !! tid = None)
  (Hmem : (method_is event "thread/started" && thread_started_is_memory_consolidation event) = false) :
  let s' := (handle_value fallback s response).1 in
  (handle_value fallback s' event).2 = [Emit (MkAppServerEvent (rc_workspace_id ctx) event)].
Proof.
  intros s'.
  assert (thread_workspace s' !! tid = Some (rc_workspace_id ctx) ∧ hidden_thread_ids s' = hidden_thread_ids s
    ∧ background_thread_callbacks s' = background_thread_callbacks s) as (Htw & Hh & Hb).
  { subst s'. rewrite handle_value_unfold. unfold before_dispatch.
    rewrite response_not_stopped // no_method_stages //.
    unfold take_request_context. rewrite Hid Hresponse Hctx /=.
    unfold record_thread_list, record_related_threads.
    apply str_eqb_neq in Hlist. rewrite Hlist.
    destruct (extract_related_thread_ids response) as [|x l] eqn:El; [by inversion Htid|].
    cbn [is_empty negb]. unfold dispatch, resolve_pending. rewrite Hid Hresponse.
    case_match; (split_and!; [exact (insert_all_lookup (x :: l) _ _ _ Htid)|done|done]). }
  rewrite -Hh in Hshown. rewrite -Hb in Hbg.
  rewrite (notification_emitted fallback s' event tid Hevent Hem Her Het Hshown Hbg Hmem).
  unfold routed_workspace. by rewrite Het /= Htw.
Qed.

(** A hidden thread is not heard: unless a message archives it or is about
    background threads, it reaches no one, answers no one, and the thread
    stays hidden. *)
Theorem hidden_threads_are_silent `{HashOrder} (fallback : str) (s : WorkspaceSession) (v : value) (tid : str)
  (Htid : extract_thread_id v = Some tid) (Hhidden : tid ∈ hidden_thread_ids s)
  (Hnotif : has_result_or_error v = false)
  (Hm1 : method_is v "thread/archived" = false) (Hm2 : method_is v "codex/backgroundThread" = false)
  (Hmem : (method_is v "thread/started" && thread_started_is_memory_consolidation v) = false) :
  let '(s', out) := handle_value fallback s v in
  out = [] ∧ tid ∈ hidden_thread_ids s' ∧ pending s' = pending s.
Proof.
  rewrite handle_value_unfold. destruct (notification_before fallback s v Hnotif) as [-> _].
  assert (∀ r, handle_hidden s r v = (s, [], true)) as Hstop.
  { intros r. unfold handle_hidden. rewrite Htid Hmem Hm2 /should_suppress_hidden_thread_event Hnotif.
    rewrite bool_decide_true //. unfold method_is in *.
    destruct (method_name v); simpl; [by rewrite Hm1 Hm2|done]. }
  by rewrite Hstop.
Qed.

(** An account notification of no particular thread reaches each workspace
    of the session exactly once. *)
Theorem account_notifications_reach_every_workspace `{HashOrder} (fallback : str) (s : WorkspaceSession) (v : value)
  (m : str) (Hid : message_id v = None) (Hm : get "method" v = Some (VString m))
  (Hglobal : is_global_workspace_notification m = true)
  (Hnotif : has_result_or_error v = false) (Hthread : extract_thread_id v = None)
  (Hids : workspace_ids s ≠ ∅) :
  (handle_value fallback s v).2 ≡ₚ map (λ w, Emit (MkAppServerEvent w v)) (elements (workspace_ids s)).
Proof.
  rewrite handle_value_unfold. destruct (notification_before fallback s v Hnotif) as [-> ->].
  rewrite (notification_context s v Hnotif). set (routed := routed_workspace _ _ _ _).
  assert (handle_hidden s routed v = (s, [], false)) as ->.
  { unfold handle_hidden. by rewrite Hthread. }
  assert (has_method v = true ∧ method_name v = Some m) as [Hhas Hname].
  { unfold has_method, method_name. by rewrite Hm. }
  rewrite (global_not_item _ _ _ m Hm Hglobal). unfold dispatch. rewrite Hid Hhas /=.
  unfold forward, should_broadcast_global_workspace_notification.
  rewrite Hthread Hname Hglobal /=. destruct (is_empty _) eqn:E.
  { apply is_empty_true, fmap_nil_inv, hash_iter_nil in E. destruct Hids. apply set_eq. intros x.
    split; [|set_solver]. intros Hx. exfalso.
    assert (gset_to_gmap () (workspace_ids s) !! x = Some ()) as Hl by by apply lookup_gset_to_gmap_Some.
    by rewrite E lookup_empty in Hl. }
  by rewrite workspace_ids_snapshot_perm.
Qed.

(** ** The theorems at concrete inputs *)

Definition demo_session : WorkspaceSession := new_session None "w1" "/repo".
Definition demo_response : value :=
  VObject (mk_object [("id" : str, VNumber (PosInt 1));
    ("result" : str, VObject (mk_object [("threadId" : str, vstr "t1")]))]).
Definition demo_event : value :=
  VObject (mk_object [("method" : str, vstr "turn/started");
    ("params" : str, VObject (mk_object [("threadId" : str, vstr "t1")]))]).
Definition demo_account_event : value := VObject (mk_object [("method" : str, vstr "account/updated")]).
Definition demo_from_str (line : str) : result str value := Ok demo_response.

(** Workspace w2 shares the session and has sent one request. *)
Definition demo_requested : WorkspaceSession := (begin_request demo_session 0 "w2" "thread/start" VNull).1.
Definition demo_system : System := MkSystem demo_requested {[0 := MkTask 1 Writing Empty]} 1 [].

Lemma demo_reachable : reachable (H := map_order) demo_from_str "w1" demo_system.
Proof.
  exists None, "w1", "/repo". apply rtc_once.
  exact (step_begin (H := map_order) demo_from_str "w1" demo_session ∅ 0 [] "w2" "thread/start" VNull
    demo_requested 1%Z eq_refl).
Defined.

Lemma requests_are_tracked_witness :
  pending demo_requested !! 1%Z = Some 0 ∨ Empty ≠ Empty.
Proof.
  destruct (@requests_are_tracked map_order demo_from_str "w1" demo_system demo_reachable) as [Htracked _];
    [vm_compute; discriminate|].
  apply (Htracked 0 (MkTask 1 Writing Empty)); [reflexivity|]. intros Hf. exact Hf.
Defined.

Lemma eof_releases_requests_witness : pending (handle_eof demo_requested) = ∅.
Proof.
  apply (@eof_releases_requests map_order demo_from_str "w1" demo_requested _ 1 [] demo_reachable).
  vm_compute. discriminate.
Defined.

Lemma response_resolves_request_witness :
  (handle_value (H := map_order) "w1" demo_requested demo_response).2 = [Resolve 0 demo_response].
Proof.
  pose proof (@response_resolves_request map_order "w1" demo_requested demo_response 1%Z 0
    eq_refl eq_refl eq_refl eq_refl) as Hr.
  destruct (handle_value _ _ _) as [s' out]. apply Hr.
Defined.

Lemma thread_events_follow_the_response_witness :
  let s' := (handle_value (H := map_order) "w1" demo_requested demo_response).1 in
  (handle_value (H := map_order) "w1" s' demo_event).2 = [Emit (MkAppServerEvent "w2" demo_event)].
Proof.
  apply (@thread_events_follow_the_response map_order "w1" demo_requested demo_response demo_event 1%Z
    (MkRequestContext "w2" "thread/start") "t1"); try (vm_compute; reflexivity).
  - vm_compute. discriminate.
  - apply (bool_decide_unpack _). vm_compute. exact I.
  - apply (bool_decide_unpack _). vm_compute. exact I.
Defined.

Lemma hidden_threads_are_silent_witness :
  (handle_value (H := map_order) "w1" (set_hidden_thread_ids demo_requested {["t1" : str]}) demo_event).2 = [].
Proof.
  pose proof (@hidden_threads_are_silent map_order "w1" (set_hidden_thread_ids demo_requested {["t1" : str]})
    demo_event "t1" eq_refl) as Hs.
  destruct (handle_value _ _ _) as [s' out]. apply Hs; try reflexivity.
Defined.

Lemma account_notifications_reach_every_workspace_witness :
  (handle_value (H := map_order) "w1" demo_requested demo_account_event).2
  ≡ₚ map (λ w, Emit (MkAppServerEvent w demo_account_event)) (elements (workspace_ids demo_requested)).
Proof.
  apply (@account_notifications_reach_every_workspace map_order "w1" demo_requested demo_account_event
    "account/updated"); try reflexivity.
  intros Hempty. apply (f_equal elements) in Hempty. vm_compute in Hempty. discriminate.
Defined.
