(* ===== verification/Storage.v ===== *)
(** The files of the backend: [src-tauri/src/storage.rs]. Workspaces and
    settings are read and written with their paths normalised; older settings
    files are migrated. The text of the files is serde_json's (class [Serde]). *)
From S2P Require Import Prelude Json Paths Types Host.

(** What [serde_json] and the derived codecs of the types provide. *)
Class Serde := {
  entries_to_string : list WorkspaceEntry → result str str;
  entries_from_str : str → result str (list WorkspaceEntry);
  value_from_str : str → result str value;
  settings_from_value : value → result str AppSettings;
  settings_to_string : AppSettings → result str str
}.

(** ** Normalisation *)

Definition normalize_optional_windows_namespace_path (path : option str) : option str * bool :=
  match path with
  | Some path =>
      let normalized := normalize_windows_namespace_path path in
      (Some normalized, negb (normalized =s? path))
  | None => (None, false)
  end.

Definition set_worktrees_folder (s : WorkspaceSettings) (f : option str) : WorkspaceSettings :=
  MkWorkspaceSettings (ws_sidebar_collapsed s) (ws_sort_order s) (ws_group_id s)
    (ws_clone_source_workspace_id s) (ws_git_root s) (ws_launch_script s) (ws_launch_scripts s)
    (ws_worktree_setup_script s) f.

Definition normalize_workspace_settings (s : WorkspaceSettings) : WorkspaceSettings * bool :=
  let '(worktrees_folder, changed) := normalize_optional_windows_namespace_path (ws_worktrees_folder s) in
  (set_worktrees_folder s worktrees_folder, changed).

Definition normalize_workspace_entry (e : WorkspaceEntry) : WorkspaceEntry * bool :=
  let normalized_path := normalize_windows_namespace_path (entry_path e) in
  let '(settings, settings_changed) := normalize_workspace_settings (entry_settings e) in
  (MkWorkspaceEntry (entry_id e) (entry_name e) normalized_path (entry_kind e) (entry_parent_id e)
     (entry_worktree e) settings,
   negb (normalized_path =s? entry_path e) || settings_changed).

Definition normalize_workspace_entries (entries : list WorkspaceEntry) : list WorkspaceEntry * bool :=
  (map (λ e, (normalize_workspace_entry e).1) entries,
   existsb (λ e, (normalize_workspace_entry e).2) entries).

Definition normalize_app_settings (s : AppSettings) : AppSettings * bool :=
  let '(global_worktrees_folder, changed) :=
    normalize_optional_windows_namespace_path (app_global_worktrees_folder s) in
  (set_global_worktrees_folder s global_worktrees_folder, changed).

(** ** Migrations of the settings *)

Definition remote_entry_keys : list str :=
  ["id" : str; "name" : str; "provider" : str; "host" : str; "token" : str; "lastConnectedAtMs" : str].

Definition sanitize_remote_entry (entry : value) : value :=
  match entry with
  | VObject o => VObject (obj_retain (λ key, bool_decide (key ∈ remote_entry_keys))
                            (obj_insert "provider" (vstr "tcp") o))
  | _ => entry
  end.

Definition sanitize_remote_settings_for_tcp_only (v : value) : value :=
  match v with
  | VObject root =>
      let root := obj_insert "remoteBackendProvider" (vstr "tcp") root in
      let root :=
        match obj_get "remoteBackends" root with
        | Some (VArray remote_backends) =>
            obj_insert "remoteBackends" (VArray (map sanitize_remote_entry remote_backends)) root
        | _ => root
        end in
      VObject (obj_retain (λ key, negb (starts_with "orb" (to_ascii_lowercase key))) root)
  | _ => v
  end.

Definition migrate_follow_up_message_behavior (v : value) : value :=
  match v with
  | VObject root =>
      if obj_contains_key "followUpMessageBehavior" root then v
      else
        let steer_enabled :=
          unwrap_or true (or_else (obj_get "steerEnabled" root) (obj_get "experimentalSteerEnabled" root)
                          ≫= as_bool) in
        VObject (obj_insert "followUpMessageBehavior" (vstr (if steer_enabled then "steer" else "queue")) root)
  | _ => v
  end.

(** ** Files *)

Section files.
Context `{Host, Serde}.

Definition create_parent (path : str) : W unit :=
  match path_parent path with
  | Some parent => create_dir_all parent
  | None => mret tt
  end.

Definition W_result {A} (r : result str A) : W A := λ w, (w, r).

Definition write_workspaces (path : str) (entries : list WorkspaceEntry) : W unit :=
  _ ← create_parent path;
  data ← W_result (entries_to_string (normalize_workspace_entries entries).1);
  write_file path data.

Definition entries_map (l : list WorkspaceEntry) : gmap str WorkspaceEntry :=
  foldl (λ m e, <[entry_id e := e]> m) ∅ l.

Definition read_workspaces (path : str) : W (gmap str WorkspaceEntry) := λ w,
  if negb (path_exists w path) then (w, Ok ∅)
  else (w, data ← read_to_string w path;
           list ← entries_from_str data;
           mret (entries_map (normalize_workspace_entries list).1)).

Definition write_settings (path : str) (settings : AppSettings) : W unit :=
  _ ← create_parent path;
  data ← W_result (settings_to_string (normalize_app_settings settings).1);
  write_file path data.

(** A failed rewrite is only reported on stderr. *)
Definition finalize_loaded_settings (path : str) (settings : AppSettings) : W AppSettings := λ w,
  let '(settings, changed) := normalize_app_settings settings in
  if changed then ((write_settings path settings w).1, Ok settings) else (w, Ok settings).

Definition read_settings (path : str) : W AppSettings := λ w,
  if negb (path_exists w path) then (w, Ok (AppSettings_default target_os))
  else (data ← W_result (read_to_string w path);
        v ← W_result (value_from_str data);
        let v := migrate_follow_up_message_behavior v in
        match settings_from_value v with
        | Ok settings => finalize_loaded_settings path settings
        | Err _ =>
            let v := migrate_follow_up_message_behavior (sanitize_remote_settings_for_tcp_only v) in
            settings ← W_result (settings_from_value v);
            finalize_loaded_settings path settings
        end) w.
End files.

(** ** Lemmas *)

(** What a file system and the codecs promise: what was written is read back. *)
Class FileLaws `{Host, Serde} : Prop := {
  written_exists : ∀ path data w w', write_file path data w = (w', Ok tt) → path_exists w' path = true;
  written_read : ∀ path data w w', write_file path data w = (w', Ok tt) → read_to_string w' path = Ok data;
  entries_decode : ∀ l data, entries_to_string l = Ok data → entries_from_str data = Ok l
}.

Lemma entries_map_lookup l (m : gmap str WorkspaceEntry) k e :
  NoDup (map entry_id l) →
  (foldl (λ m e, <[entry_id e := e]> m) m l) !! k = Some e ↔
    (e ∈ l ∧ entry_id e = k) ∨ ((k ∉ map entry_id l) ∧ m !! k = Some e).
Proof.
  revert m. induction l as [|x l IH]; intros m Hnd; simpl.
  - split; [intros Hm; right; split; [apply not_elem_of_nil|done]|].
    intros [[Hin _]|[_ Hm]]; [by apply elem_of_nil in Hin|done].
  - apply NoDup_cons in Hnd as [Hx Hnd]. rewrite (IH _ Hnd) lookup_insert_Some elem_of_cons not_elem_of_cons.
    split.
    + intros [[Hin Hk]|[Hk [[Hxk ->]|[Hxk Hm]]]].
      * left. by split; [right|].
      * left. by split; [left|].
      * right. split_and!; [by apply not_eq_sym|done..].
    + intros [[[-> |Hin] Hk]|[[Hkx Hk] Hm]].
      * right. split; [by rewrite -Hk|]. by left.
      * by left.
      * right. split; [done|]. right. by split; [apply not_eq_sym|].
Qed.

Lemma normalize_workspace_entry_id e : entry_id (normalize_workspace_entry e).1 = entry_id e.
Proof. unfold normalize_workspace_entry. by destruct (normalize_workspace_settings _). Qed.

(** A map kept under the ids of its entries, as a list and back. *)
Definition keyed (m : gmap str WorkspaceEntry) : Prop := ∀ k e, m !! k = Some e → entry_id e = k.

Lemma entries_map_of_list (f : WorkspaceEntry → WorkspaceEntry) m l :
  (∀ e, entry_id (f e) = entry_id e) → keyed m → l ≡ₚ (map_to_list m).*2 →
  entries_map (map f l) = f <$> m.
Proof.
  intros Hf Hk Hl.
  assert (map entry_id (map f l) ≡ₚ (map_to_list m).*1) as Hids.
  { rewrite map_map. transitivity (map entry_id l); [apply reflexive_eq, map_ext, Hf|].
    rewrite Hl. apply reflexive_eq. change (map entry_id) with (fmap (M := list) entry_id).
    rewrite -list_fmap_compose.
    apply list_fmap_ext. intros i [k e] Hi%list_elem_of_lookup_2. simpl.
    apply elem_of_map_to_list in Hi. by apply Hk. }
  apply map_eq. intros k. apply option_eq. intros e. unfold entries_map.
  rewrite entries_map_lookup; [rewrite Hids; apply NoDup_fst_map_to_list|].
  rewrite lookup_fmap fmap_Some lookup_empty. split.
  - intros [[Hin Hid]|[_ ?]]; [|done].
    apply list_elem_of_fmap in Hin as (e0 & -> & Hin). rewrite Hl in Hin.
    apply list_elem_of_fmap in Hin as ([k0 e1] & -> & Hin). apply elem_of_map_to_list in Hin. simpl in *.
    exists e1. split; [|done]. rewrite Hf (Hk _ _ Hin) in Hid. by subst.
  - intros (e0 & Hm & ->). left. split; [|rewrite Hf; by apply Hk].
    apply list_elem_of_fmap. exists e0. split; [done|]. rewrite Hl. apply list_elem_of_fmap.
    exists (k, e0). by rewrite elem_of_map_to_list.
Qed.

Lemma W_result_ok `{Host} {A} (r : result str A) w w' a : W_result r w = (w', Ok a) ↔ w' = w ∧ r = Ok a.
Proof. unfold W_result. naive_solver. Qed.

Lemma allowed_after_sanitize o :
  let o' := obj_retain (λ key, bool_decide (key ∈ remote_entry_keys)) (obj_insert "provider" (vstr "tcp") o) in
  obj_get "provider" o' = Some (vstr "tcp")
  ∧ ∀ k, obj_get k o' = if decide (k = lit "provider") then Some (vstr "tcp")
                        else if decide (k ∈ remote_entry_keys) then obj_get k o else None.
Proof.
  cbv zeta. split.
  - by rewrite obj_get_retain obj_get_insert_eq.
  - intros k. rewrite obj_get_retain. case_decide as Hk.
    + subst. by rewrite obj_get_insert_eq.
    + rewrite obj_get_insert_ne //. case_decide as Hin.
      * by rewrite bool_decide_true.
      * by rewrite bool_decide_false.
Qed.

Definition is_orb_key (k : str) : bool := starts_with "orb" (to_ascii_lowercase k).

Lemma sanitize_root_get root k :
  ∃ root', sanitize_remote_settings_for_tcp_only (VObject root) = VObject root' ∧
  obj_get k root' =
    if is_orb_key k then None
    else if decide (k = lit "remoteBackendProvider") then Some (vstr "tcp")
    else if decide (k = lit "remoteBackends")
         then match obj_get k root with
              | Some (VArray l) => Some (VArray (map sanitize_remote_entry l))
              | o => o
              end
         else obj_get k root.
Proof.
  unfold sanitize_remote_settings_for_tcp_only. eexists. split; [done|].
  rewrite obj_get_retain. fold (is_orb_key k). destruct (is_orb_key k); [done|]. simpl.
  rewrite (obj_get_insert_ne "remoteBackends") //.
  assert (∀ v, obj_get k (obj_insert "remoteBackendProvider" v root) =
    if decide (k = lit "remoteBackendProvider") then Some v else obj_get k root) as Hp.
  { intros v. case_decide; [subst; apply obj_get_insert_eq|by apply obj_get_insert_ne]. }
  destruct (decide (k = lit "remoteBackends")) as [->|Hne].
  - destruct (obj_get "remoteBackends" root) as [[]|]; by rewrite ?obj_get_insert_eq ?Hp.
  - destruct (obj_get "remoteBackends" root) as [[]|]; by rewrite ?(obj_get_insert_ne k "remoteBackends") ?Hp.
Qed.

(** ** Properties *)

(** What is written as the workspaces is read back as the workspaces: the
    entries come back under their ids, with their paths normalised as on both
    occasions. *)
Theorem write_read_workspaces `{FileLaws} (path : str) (m : gmap str WorkspaceEntry)
  (list : list WorkspaceEntry) (w w' : World)
  (Hkeyed : keyed m) (Hlist : list ≡ₚ (map_to_list m).*2)
  (Hwrite : write_workspaces path list w = (w', Ok tt)) :
  read_workspaces path w' =
    (w', Ok ((λ e, (normalize_workspace_entry (normalize_workspace_entry e).1).1) <$> m)).
Proof.
  unfold write_workspaces in Hwrite.
  apply W_bind_ok in Hwrite as (w1 & [] & _ & (w2 & data & [-> Hdata]%W_result_ok & Hfile)%W_bind_ok).
  unfold read_workspaces. rewrite (written_exists _ _ _ _ Hfile) (written_read _ _ _ _ Hfile) /=.
  rewrite (entries_decode _ _ Hdata) /=. do 2 f_equal. rewrite map_map.
  apply (entries_map_of_list (λ e, (normalize_workspace_entry (normalize_workspace_entry e).1).1)); try done.
  intros e. by rewrite !normalize_workspace_entry_id.
Qed.

(** Settings of a version with other remote providers are cut down to what the
    current one can read: the provider is tcp everywhere, remote backends keep
    their known fields only, the keys of the removed provider are gone, and
    every other setting is as it was. *)
Theorem sanitize_remote_settings_tcp_only (root : object) :
  ∃ root', sanitize_remote_settings_for_tcp_only (VObject root) = VObject root'
  ∧ obj_get "remoteBackendProvider" root' = Some (vstr "tcp")
  ∧ (∀ k, is_orb_key k = true → obj_get k root' = None)
  ∧ (∀ k, is_orb_key k = false → k ≠ lit "remoteBackendProvider" → k ≠ lit "remoteBackends" →
       obj_get k root' = obj_get k root)
  ∧ (∀ l o, obj_get "remoteBackends" root' = Some (VArray l) → VObject o ∈ l →
       obj_get "provider" o = Some (vstr "tcp") ∧ ∀ k, obj_get k o ≠ None → k ∈ remote_entry_keys).
Proof.
  destruct (sanitize_root_get root []) as (root' & Heq & _). exists root'. split; [done|].
  assert (∀ k, obj_get k root' = if is_orb_key k then None
    else if decide (k = lit "remoteBackendProvider") then Some (vstr "tcp")
    else if decide (k = lit "remoteBackends")
         then match obj_get k root with
              | Some (VArray l) => Some (VArray (map sanitize_remote_entry l))
              | o => o
              end
         else obj_get k root) as Hget.
  { intros k. destruct (sanitize_root_get root k) as (r & Hr & Hk). rewrite Heq in Hr. by simplify_eq. }
  split_and!.
  - by rewrite Hget.
  - intros k Hk. by rewrite Hget Hk.
  - intros k Hk H1 H2. by rewrite Hget Hk !decide_False.
  - intros l o Hl Ho. rewrite Hget /= in Hl.
    destruct (obj_get "remoteBackends" root) as [[]|] eqn:E; simplify_eq.
    apply list_elem_of_fmap in Ho as (v & Hv & _). destruct v as [| | | | |o0]; try discriminate.
    destruct (allowed_after_sanitize o0) as [Hp Hk]. injection Hv as ->. split; [exact Hp|].
    intros k Hk'. rewrite Hk in Hk'. case_decide as Hkp; [|by case_decide].
    subst. apply (bool_decide_unpack _). vm_compute. exact I.
Qed.

(** The follow-up behaviour of older settings comes from their steering switch,
    on unless said otherwise; a behaviour that is set is kept, nothing else
    changes, and migrating again changes nothing. *)
Theorem migrate_follow_up_message_behavior_spec (root : object) :
  let migrated := migrate_follow_up_message_behavior (VObject root) in
  let steer := or_else (obj_get "steerEnabled" root) (obj_get "experimentalSteerEnabled" root) in
  get "followUpMessageBehavior" migrated =
    match obj_get "followUpMessageBehavior" root with
    | Some v => Some v
    | None => Some (match steer with Some (VBool false) => vstr "queue" | _ => vstr "steer" end)
    end
  ∧ (∀ k, k ≠ lit "followUpMessageBehavior" → get k migrated = obj_get k root)
  ∧ migrate_follow_up_message_behavior migrated = migrated.
Proof.
  cbv zeta. unfold migrate_follow_up_message_behavior. unfold obj_contains_key.
  destruct (obj_get "followUpMessageBehavior" root) as [v|] eqn:E; simpl.
  - rewrite E /=. done.
  - rewrite obj_get_insert_eq /=. split_and!; [|by intros; apply obj_get_insert_ne|done].
    by destruct (or_else _ _) as [[| [] | | | |]|].
Qed.

(** ** The round trip at a concrete input *)

(** A file system of one file, and a codec that knows one list. *)
Definition one_file_host : Host := {|
  target_os := OtherOS; World := option str;
  is_dir := λ _ _, false; is_file := λ w _, is_some_b w; path_exists := λ w _, is_some_b w;
  read_dir_is_empty := λ _ _, Ok true;
  read_to_string := λ w _, ok_or ("no such file" : str) w;
  create_dir_all := λ _ w, (w, Ok tt); remove_dir_all := λ _ w, (w, Ok tt);
  copy_file := λ _ _ w, (w, Ok tt); rename_file := λ _ _ w, (w, Ok tt); remove_file := λ _ _, (None, Ok tt);
  write_file := λ _ data _, (Some data, Ok tt); git := λ _ _ w, (w, Err ("no git" : str));
  new_uuid := λ w, (w, "0b5f" : str); unix_seconds := λ _, 0%N; env_var := λ _ _, None; passwd_dir := λ _, None
|}.

Definition demo_entry : WorkspaceEntry :=
  MkWorkspaceEntry "w1" "Repo" "/repo" Main None None WorkspaceSettings_default.

#[global] Instance spec_float_eq_dec : EqDecision SpecFloat.spec_float.
Proof. solve_decision. Defined.
#[global] Instance launch_script_eq_dec : EqDecision LaunchScriptEntry.
Proof. solve_decision. Defined.
#[global] Instance workspace_settings_eq_dec : EqDecision WorkspaceSettings.
Proof. solve_decision. Defined.
#[global] Instance worktree_info_eq_dec : EqDecision WorktreeInfo.
Proof. solve_decision. Defined.
#[global] Instance workspace_kind_eq_dec : EqDecision WorkspaceKind.
Proof. solve_decision. Defined.
#[global] Instance workspace_entry_eq_dec : EqDecision WorkspaceEntry.
Proof. solve_decision. Defined.

Definition one_list_serde : Serde := {|
  entries_to_string := λ l, if decide (l = [demo_entry]) then Ok ("[w1]" : str) else Err ("unsupported" : str);
  entries_from_str := λ data, if data =s? "[w1]" then Ok [demo_entry] else Err ("unsupported" : str);
  value_from_str := λ _, Err ("unsupported" : str);
  settings_from_value := λ _, Err ("unsupported" : str);
  settings_to_string := λ _, Err ("unsupported" : str)
|}.

Lemma one_file_laws : @FileLaws one_file_host one_list_serde.
Proof.
  split.
  - intros path data w w' Hw. injection Hw as <-. reflexivity.
  - intros path data w w' Hw. injection Hw as <-. reflexivity.
  - intros l data Hl. cbn in *. destruct (decide _) as [->|]; [|discriminate]. by injection Hl as <-.
Qed.

Lemma write_read_workspaces_witness :
  @read_workspaces one_file_host one_list_serde "/data/workspaces.json" (Some ("[w1]" : str)) =
    (Some ("[w1]" : str), Ok {["w1" : str := demo_entry]}).
Proof.
  rewrite (@write_read_workspaces one_file_host one_list_serde one_file_laws "/data/workspaces.json"
    {["w1" : str := demo_entry]} [demo_entry] None (Some ("[w1]" : str))).
  - intros k e [<- <-]%lookup_singleton_Some. reflexivity.
  - rewrite map_to_list_singleton. reflexivity.
  - vm_compute. reflexivity.
  - rewrite map_fmap_singleton. reflexivity.
Defined.
