(* ===== verification/Workspaces.v ===== *)
(** The workspaces of the backend and their processes:
    [src-tauri/src/shared/workspaces_core/]{[helpers.rs], [connect.rs],
    [runtime_codex_args.rs]}. The maps behind the mutexes are one [State];
    sessions are shared by reference ([Arc]), so the map of sessions holds the
    number of a process and the processes are a heap. *)
From S2P Require Import Prelude Json Paths Types Host AppServer Session Storage.

(** ** State *)

(** A [codex app-server] child and the session around it. *)
Record Process := MkProcess {
  proc_session : WorkspaceSession;
  proc_alive : bool
}.

Record State `{Host} := MkState {
  workspaces : gmap str WorkspaceEntry;
  sessions : gmap str nat;
  processes : gmap nat Process;
  next_process : nat;
  app_settings : AppSettings;
  git_log : list (str * list str);
  world : World
}.

Section setters.
Context `{Host}.
Definition set_entries (m : gmap str WorkspaceEntry) (s : State) : State :=
  MkState _ m (sessions s) (processes s) (next_process s) (app_settings s) (git_log s) (world s).
Definition set_sessions (m : gmap str nat) (s : State) : State :=
  MkState _ (workspaces s) m (processes s) (next_process s) (app_settings s) (git_log s) (world s).
Definition set_processes (m : gmap nat Process) (s : State) : State :=
  MkState _ (workspaces s) (sessions s) m (next_process s) (app_settings s) (git_log s) (world s).
Definition set_next_process (n : nat) (s : State) : State :=
  MkState _ (workspaces s) (sessions s) (processes s) n (app_settings s) (git_log s) (world s).
Definition set_world (w : World) (s : State) : State :=
  MkState _ (workspaces s) (sessions s) (processes s) (next_process s) (app_settings s) (git_log s) w.
Definition log_git (c : str * list str) (s : State) : State :=
  MkState _ (workspaces s) (sessions s) (processes s) (next_process s) (app_settings s) (git_log s ++ [c])
    (world s).
End setters.

(** A computation on the state that may fail; what it did stays done. *)
Definition M `{Host} (A : Type) : Type := State → State * result str A.

#[global] Instance M_ret `{Host} : MRet M := λ A a s, (s, Ok a).
#[global] Instance M_bind `{Host} : MBind M := λ A B f m s,
  match m s with
  | (s', Ok a) => f a s'
  | (s', Err e) => (s', Err e)
  end.

Section operations.
Context `{Host}.

Definition throw {A} (e : str) : M A := λ s, (s, Err e).
Definition gets {A} (f : State → A) : M A := λ s, (s, Ok (f s)).
Definition modify (f : State → State) : M unit := λ s, (f s, Ok tt).
Definition of_option {A} (e : str) (o : option A) : M A := λ s, (s, ok_or e o).
(** A check of the current state that may fail. *)
Definition of_result {A} (f : State → result str A) : M A := λ s, (s, f s).
Definition lift {A} (m : W A) : M A := λ s, let '(w, r) := m (world s) in (set_world w s, r).
(** [match m { Ok(_) => .., Err(_) => .. }]. *)
Definition attempt {A} (m : M A) : M (result str A) := λ s, let '(s', r) := m s in (s', Ok r).
(** [let _ = m]. *)
Definition ignore {A} (m : M A) : M unit := λ s, ((m s).1, Ok tt).
Definition guard_err (b : bool) (e : str) : M unit := if b then mret tt else throw e.

(** [run_git_command_unit]; each command is noted. *)
Definition run_git (repo_path : str) (args : list str) : M unit :=
  _ ← modify (log_git (repo_path, args));
  lift (_ ← run_git_command repo_path args; mret tt).

Definition uuid : M str := λ s, let '(w, id) := new_uuid (world s) in (set_world w s, Ok id).
End operations.

(** ** helpers.rs *)

Section helpers.
Context `{Host}.

Definition AGENTS_MD_FILE_NAME : str := "AGENTS.md".
Definition WORKTREE_SETUP_MARKERS_DIR : str := "worktree-setup".
Definition WORKTREE_SETUP_MARKER_EXT : str := "ran".

Definition finalize_agents_md (temp_path destination_path : str) : W unit := λ w,
  match rename_file temp_path destination_path w with
  | (w', Ok _) => (w', Ok tt)
  | (w', Err err) =>
      ((remove_file temp_path w').1,
       Err (lit "Failed to finalize " ++ AGENTS_MD_FILE_NAME ++ lit " copy to " ++ destination_path
              ++ lit ": " ++ err))
  end.

Definition copy_agents_md (source_path temp_path destination_path : str) : W unit :=
  _ ← W_map_err (λ err, lit "Failed to copy " ++ AGENTS_MD_FILE_NAME ++ lit " from " ++ source_path
                   ++ lit " to " ++ temp_path ++ lit ": " ++ err) (copy_file source_path temp_path);
  finalize_agents_md temp_path destination_path.

Definition copy_agents_md_from_parent_to_worktree (parent_repo_root worktree_root : str) : W unit := λ w,
  let source_path := path_join parent_repo_root AGENTS_MD_FILE_NAME in
  if negb (is_file w source_path) then (w, Ok tt)
  else
    let destination_path := path_join worktree_root AGENTS_MD_FILE_NAME in
    if is_file w destination_path then (w, Ok tt)
    else
      let temp_path := path_join worktree_root (AGENTS_MD_FILE_NAME ++ lit ".tmp") in
      copy_agents_md source_path temp_path destination_path w.

Definition normalize_setup_script (script : option str) : option str :=
  match script with
  | Some v => if is_empty (trim v) then None else Some v
  | None => None
  end.

Definition worktree_setup_marker_path (data_dir workspace_id : str) : str :=
  path_join (path_join data_dir WORKTREE_SETUP_MARKERS_DIR)
    (workspace_id ++ lit "." ++ WORKTREE_SETUP_MARKER_EXT).

Definition normalize_workspace_path_input (w : World) (path : str) : str :=
  let trimmed := trim path in
  match rest ← strip_prefix "~/" trimmed; home ← resolve_home_dir w; Some (path_join home rest) with
  | Some p => p
  | None =>
      match if trimmed =s? "~" then resolve_home_dir w else None with
      | Some home => home
      | None => trimmed
      end
  end.

Definition is_workspace_path_dir_core (w : World) (path : str) : bool :=
  is_dir w (normalize_workspace_path_input w path).

Definition workspace_path_to_string (path : str) : str := normalize_windows_namespace_path path.

Definition u32_max : N := 4294967295.
Definition info_order (i : WorkspaceInfo) : N := unwrap_or u32_max (ws_sort_order (info_settings i)).

Definition comparison_le (c : comparison) : bool := match c with Gt => false | _ => true end.
Definition info_compare (a b : WorkspaceInfo) : comparison :=
  if (info_order a =? info_order b)%N
  then match str_compare (info_name a) (info_name b) with
       | Eq => str_compare (info_id a) (info_id b)
       | c => c
       end
  else N.compare (info_order a) (info_order b).
Definition sort_workspaces (l : list WorkspaceInfo) : list WorkspaceInfo :=
  sort_by (λ a b, comparison_le (info_compare a b)) l.

Definition workspace_info (e : WorkspaceEntry) (connected : bool) : WorkspaceInfo :=
  MkWorkspaceInfo (entry_id e) (entry_name e) (entry_path e) connected (entry_kind e) (entry_parent_id e)
    (entry_worktree e) (entry_settings e).

Definition list_workspaces_core `{HashOrder} (s : State) : list WorkspaceInfo :=
  sort_workspaces (map (λ e, workspace_info e (is_some_b (sessions s !! entry_id e)))
    (hash_iter (workspaces s)).*2).

Definition workspace_not_found : str := "workspace not found".

Definition resolve_entry_and_parent (workspace_id : str) : M (WorkspaceEntry * option WorkspaceEntry) :=
  ws ← gets workspaces;
  entry ← of_option workspace_not_found (ws !! workspace_id);
  mret (entry, parent_id ← entry_parent_id entry; ws !! parent_id).

(** [codex/args.rs]. *)
Definition normalize_codex_args (v : str) : option str :=
  let trimmed := trim v in if is_empty trimmed then None else Some trimmed.
Definition resolve_workspace_codex_args (_entry : WorkspaceEntry) (_parent_entry : option WorkspaceEntry)
    (app_settings : option AppSettings) : option str :=
  settings ← app_settings; v ← app_codex_args settings; normalize_codex_args v.
End helpers.

(** ** connect.rs *)

Section connect.
Context `{Host, HashOrder}.

Definition session_process_is_alive (s : State) (session : nat) : bool :=
  match processes s !! session with Some p => proc_alive p | None => false end.

(** [sessions.retain(|_, candidate| !Arc::ptr_eq(candidate, session))]. *)
Definition remove_session_references (session : nat) (s : State) : State :=
  set_sessions (filter (λ kv, kv.2 ≠ session) (sessions s)) s.

(** [sessions.values().next()]. *)
Definition first_session (s : State) : option nat := snd <$> head (hash_iter (sessions s)).

(** The loop, with fuel; [None] when it runs out. *)
Fixpoint take_live_loop (fuel : nat) (s : State) : option (State * option nat) :=
  match fuel with
  | 0 => None
  | S k =>
      match first_session s with
      | None => Some (s, None)
      | Some existing_session =>
          if session_process_is_alive s existing_session then Some (s, Some existing_session)
          else take_live_loop k (remove_session_references existing_session s)
      end
  end.
(** Each round drops a reference at least. *)
Definition take_live_shared_session : M (option nat) := λ s,
  match take_live_loop (S (size (sessions s))) s with
  | Some (s', r) => (s', Ok r)
  | None => (s, Ok None)
  end.

Definition update_session (session : nat) (f : WorkspaceSession → WorkspaceSession) (s : State) : State :=
  set_processes (alter (λ p, MkProcess (f (proc_session p)) (proc_alive p)) session (processes s)) s.
Definition register_session (session : nat) (id : str) (path : option str) (s : State) : State :=
  update_session session (λ ws, register_workspace_with_path ws id path) s.
Definition kill_process (session : nat) (s : State) : State :=
  set_processes (alter (λ p, MkProcess (proc_session p) false) session (processes s)) s.
Definition insert_session (id : str) (session : nat) (s : State) : State :=
  set_sessions (<[id := session]> (sessions s)) s.

(** The closure every operation gets to start a process: it returns the new
    session, whose process runs ([Arc::new]). *)
Context (spawn_session : WorkspaceEntry → option str → option str → option str → W WorkspaceSession).

Definition new_process (ws : WorkspaceSession) (s : State) : State :=
  set_next_process (S (next_process s))
    (set_processes (<[next_process s := MkProcess ws true]> (processes s)) s).

Definition spawn (entry : WorkspaceEntry) (bin args home : option str) : M nat :=
  ws ← lift (spawn_session entry bin args home);
  session ← gets next_process;
  _ ← modify (new_process ws);
  mret session.

(** The part of the callers that reads the settings and spawns. *)
Definition spawn_for (entry : WorkspaceEntry) (parent_entry : option WorkspaceEntry) : M nat :=
  settings ← gets app_settings;
  codex_home ← gets (λ s, resolve_workspace_codex_home (world s) entry parent_entry);
  spawn entry (app_codex_bin settings) (resolve_workspace_codex_args entry parent_entry (Some settings))
    codex_home.

(** How every operation that needs a process gets one: the live shared session,
    or a new one; the boolean tells which. *)
Definition shared_or_spawned (entry : WorkspaceEntry) (parent_entry : option WorkspaceEntry) : M (nat * bool) :=
  existing_session ← take_live_shared_session;
  match existing_session with
  | Some existing_session => mret (existing_session, false)
  | None => session ← spawn_for entry parent_entry; mret (session, true)
  end.

Definition connect_workspace_core (workspace_id : str) : M unit :=
  '(entry, parent_entry) ← resolve_entry_and_parent workspace_id;
  existing_for_entry ← gets (λ s, sessions s !! entry_id entry);
  alive ← gets (λ s, match existing_for_entry with
                     | Some e => session_process_is_alive s e
                     | None => false
                     end);
  if alive : bool then mret tt
  else
    _ ← match existing_for_entry with
        | Some e => modify (remove_session_references e)
        | None => mret tt
        end;
    existing_session ← take_live_shared_session;
    match existing_session with
    | Some session =>
        _ ← modify (register_session session (entry_id entry) (Some (entry_path entry)));
        modify (insert_session (entry_id entry) session)
    | None =>
        session ← spawn_for entry parent_entry;
        _ ← modify (register_session session (entry_id entry) (Some (entry_path entry)));
        modify (insert_session (entry_id entry) session)
    end.

(** [child.kill()] when no other workspace refers to the session. *)
Definition kill_session_by_id (id : str) (s : State) : State :=
  match sessions s !! id with
  | None => s
  | Some session =>
      let s1 := set_sessions (delete id (sessions s)) s in
      let still_referenced := existsb (λ kv, (kv.2 =? session)%nat) (hash_iter (sessions s1)) in
      let s2 := update_session session (λ ws, unregister_workspace ws id) s1 in
      if still_referenced then s2 else kill_process session s2
  end.

(** ** runtime_codex_args.rs *)

Record WorkspaceRuntimeCodexArgsResult := MkWorkspaceRuntimeCodexArgsResult {
  applied_codex_args : option str;
  respawned : bool
}.

Definition point_all_sessions (session : nat) (s : State) : State :=
  set_sessions ((λ _, session) <$> sessions s) s.

(** [path.is_empty()] stands for an unknown workspace. *)
Definition register_known_path (session : nat) (s : State) (id : str) : State :=
  let workspace_path := match workspaces s !! id with Some e => entry_path e | None => [] end in
  register_session session id (if is_empty workspace_path then None else Some workspace_path) s.

Definition respawn_with_args (entry : WorkspaceEntry) (parent_entry : option WorkspaceEntry)
    (current_session : nat) (default_bin target_args : option str) : M WorkspaceRuntimeCodexArgsResult :=
  codex_home ← gets (λ s, resolve_workspace_codex_home (world s) entry parent_entry);
  new_session ← spawn entry default_bin target_args codex_home;
  workspace_ids ← gets (λ s, (hash_iter (sessions s)).*1);
  _ ← modify (point_all_sessions new_session);
  _ ← modify (λ s, foldl (register_known_path new_session) s workspace_ids);
  _ ← modify (kill_process current_session);
  mret (MkWorkspaceRuntimeCodexArgsResult target_args true).

Definition set_workspace_runtime_codex_args_core (workspace_id : str) (codex_args_override : option str)
    : M WorkspaceRuntimeCodexArgsResult :=
  '(entry, parent_entry) ← resolve_entry_and_parent workspace_id;
  settings ← gets app_settings;
  let resolved_args := resolve_workspace_codex_args entry parent_entry (Some settings) in
  let target_args := or_else (opt_filter (λ v, negb (is_empty v)) (trim <$> codex_args_override)) resolved_args in
  let unchanged := MkWorkspaceRuntimeCodexArgsResult target_args false in
  workspace_connected ← gets (λ s, is_some_b (sessions s !! entry_id entry));
  current_session ← gets first_session;
  current_args ← gets (λ s, session ← current_session; p ← processes s !! session;
                            Some (session_codex_args (proc_session p)));
  if negb workspace_connected then mret unchanged
  else match current_session with
       | None => mret unchanged
       | Some session =>
           if bool_decide (current_args = Some target_args) then mret unchanged
           else respawn_with_args entry parent_entry session (app_codex_bin settings) target_args
       end.
End connect.

(** ** Reasoning about computations *)

Section wp.
Context `{Host}.

(** What holds of the state and the result a computation ends with. *)
Definition wp {A} (m : M A) (Q : State → result str A → Prop) (s : State) : Prop := Q (m s).1 (m s).2.

Lemma wp_mono {A} (m : M A) (P Q : State → result str A → Prop) s :
  wp m P s → (∀ s' r, P s' r → Q s' r) → wp m Q s.
Proof. unfold wp. eauto. Qed.

Lemma wp_ret {A} (a : A) Q s : Q s (Ok a) → wp (mret a) Q s.
Proof. done. Qed.

Lemma wp_throw {A} (e : str) (Q : State → result str A → Prop) s : Q s (Err e) → wp (throw e) Q s.
Proof. done. Qed.

Lemma wp_bind {A B} (m : M A) (f : A → M B) Q s :
  wp m (λ s' r, match r with Ok a => wp (f a) Q s' | Err e => Q s' (Err e) end) s →
  wp (m ≫= f) Q s.
Proof. unfold wp, mbind, M_bind. by destruct (m s) as [s' [a|e]]. Qed.

Lemma wp_gets {A} (f : State → A) Q s : Q s (Ok (f s)) → wp (gets f) Q s.
Proof. done. Qed.

Lemma wp_modify f Q s : Q (f s) (Ok tt) → wp (modify f) Q s.
Proof. done. Qed.

Lemma wp_of_option {A} e (o : option A) Q s :
  (∀ a, o = Some a → Q s (Ok a)) → (o = None → Q s (Err e)) → wp (of_option e o) Q s.
Proof. unfold wp, of_option. destruct o; simpl; eauto. Qed.

(** The machine may do anything to itself. *)
Lemma wp_lift {A} (m : W A) (Q : State → result str A → Prop) s :
  (∀ w r, m (world s) = (w, r) → Q (set_world w s) r) → wp (lift m) Q s.
Proof. unfold wp, lift. destruct (m (world s)) as [w r]. eauto. Qed.

Lemma wp_uuid Q s : (∀ w id, new_uuid (world s) = (w, id) → Q (set_world w s) (Ok id)) → wp uuid Q s.
Proof. unfold wp, uuid. destruct (new_uuid (world s)) as [w id]. eauto. Qed.

Lemma wp_run_git repo args Q s :
  (∀ w r, Q (set_world w (log_git (repo, args) s)) r) → wp (run_git repo args) Q s.
Proof.
  intros HQ. apply wp_bind, wp_modify, wp_lift. intros w r _. apply HQ.
Qed.

Lemma wp_attempt {A} (m : M A) Q s : wp m (λ s' r, Q s' (Ok r)) s → wp (attempt m) Q s.
Proof. unfold wp, attempt. by destruct (m s). Qed.

Lemma wp_ignore {A} (m : M A) Q s : wp m (λ s' _, Q s' (Ok tt)) s → wp (ignore m) Q s.
Proof. done. Qed.

Lemma wp_if {A} (b : bool) (m1 m2 : M A) Q s :
  (b = true → wp m1 Q s) → (b = false → wp m2 Q s) → wp (if b then m1 else m2) Q s.
Proof. destruct b; auto. Qed.
End wp.

(** One step of the symbolic execution of a computation. *)
Ltac wp_step :=
  lazymatch goal with
  | |- wp (_ ≫= _) _ _ => apply wp_bind
  | |- wp (mret _) _ _ => apply wp_ret
  | |- wp (throw _) _ _ => apply wp_throw
  | |- wp (gets _) _ _ => apply wp_gets
  | |- wp (modify _) _ _ => apply wp_modify
  | |- wp (of_option _ _) _ _ => apply wp_of_option; [intros ? ?|intros ?]
  | |- wp (lift _) _ _ => apply wp_lift; intros ? [?|?] ?
  | |- wp uuid _ _ => apply wp_uuid; intros ? ? ?
  | |- wp (run_git _ _) _ _ => apply wp_run_git; intros ? [?|?]
  | |- wp (attempt _) _ _ => apply wp_attempt
  | |- wp (ignore _) _ _ => apply wp_ignore
  | |- wp (if _ then _ else _) _ _ => apply wp_if; intros ?
  | |- wp (let _ := _ in _) _ _ => cbv zeta
  | |- match Ok _ with Ok _ => _ | Err _ => _ end => cbv iota
  | |- match Err _ with Ok _ => _ | Err _ => _ end => cbv iota
  end.
Ltac wp_run := repeat wp_step.

(** ** Sessions and processes *)

Section sessions.
Context `{Host, HashOrder}.

Definition live (s : State) (session : nat) : Prop := session_process_is_alive s session = true.
Definition held (s : State) (session : nat) : Prop := ∃ id, sessions s !! id = Some session.

(** All workspaces share one session, which knows them. *)
Record sessions_ok (s : State) : Prop := {
  ok_shared : ∀ id1 id2 l1 l2, sessions s !! id1 = Some l1 → sessions s !! id2 = Some l2 → l1 = l2;
  ok_registered : ∀ id l, sessions s !! id = Some l →
    ∃ p, processes s !! l = Some p ∧ id ∈ workspace_ids (proc_session p);
  ok_below : ∀ l p, processes s !! l = Some p → l < next_process s
}.

(** Every process that runs is the session of a workspace. *)
Definition no_orphans (s : State) : Prop := ∀ l, live s l → held s l.
(** The same but for some processes. *)
Definition orphans_in (left_over : nat → Prop) (s : State) : Prop := ∀ l, live s l → held s l ∨ left_over l.
Lemma no_orphans_in s : no_orphans s ↔ orphans_in (λ _, False) s.
Proof. unfold no_orphans, orphans_in. naive_solver. Qed.

Lemma set_world_ok w s : sessions_ok (set_world w s) ↔ sessions_ok s.
Proof. split; intros []; split; done. Qed.
Lemma log_git_ok c s : sessions_ok (log_git c s) ↔ sessions_ok s.
Proof. split; intros []; split; done. Qed.
Lemma set_entries_ok m s : sessions_ok (set_entries m s) ↔ sessions_ok s.
Proof. split; intros []; split; done. Qed.

Lemma first_session_None s : first_session s = None ↔ sessions s = ∅.
Proof.
  unfold first_session. rewrite -hash_iter_nil. destruct (hash_iter (sessions s)); simpl; naive_solver.
Qed.

Lemma first_session_Some s l : first_session s = Some l → held s l.
Proof.
  unfold first_session, held. destruct (hash_iter (sessions s)) as [|[id l'] r] eqn:E; simpl; [done|].
  intros [= ->]. exists id. apply elem_of_hash_iter. rewrite E. by left.
Qed.

Lemma held_remove s l l' : held (remove_session_references l s) l' ↔ held s l' ∧ l' ≠ l.
Proof.
  unfold held. simpl. setoid_rewrite map_lookup_filter_Some. simpl. naive_solver.
Qed.

Lemma remove_references_size s l :
  held s l → size (sessions (remove_session_references l s)) < size (sessions s).
Proof.
  intros [id Hid]. simpl. apply map_subset_size. split; [apply map_filter_subseteq|].
  intros Hsub. pose proof (lookup_weaken _ _ _ _ Hid Hsub) as Hin.
  apply map_lookup_filter_Some in Hin as [_ Hne]. by apply Hne.
Qed.

Lemma remove_references_ok s l : sessions_ok s → sessions_ok (remove_session_references l s).
Proof.
  intros [Hs Hr Hb]. split; simpl.
  - intros id1 id2 l1 l2 [H1 _]%map_lookup_filter_Some [H2 _]%map_lookup_filter_Some. eauto.
  - intros id l' [Hl _]%map_lookup_filter_Some. eauto.
  - done.
Qed.

Lemma remove_references_orphans L s l :
  ¬ live s l → orphans_in L s → orphans_in L (remove_session_references l s).
Proof.
  intros Hdead Hno l' Hl'. destruct (Hno l' Hl') as [Hh|]; [left|by right].
  apply held_remove. split; [done|]. intros ->. by apply Hdead.
Qed.

(** What the search for a live session leaves: dead ones are forgotten. *)
Record after_search (s s' : State) (r : option nat) : Prop := {
  search_frame : s' = set_sessions (sessions s') s;
  search_sub : sessions s' ⊆ sessions s;
  search_dropped : ∀ id l, sessions s !! id = Some l → sessions s' !! id = None → ¬ live s l;
  search_ok : sessions_ok s → sessions_ok s';
  search_orphans : ∀ L, orphans_in L s → orphans_in L s';
  search_result : match r with Some l => live s' l ∧ held s' l | None => sessions s' = ∅ end
}.

Lemma take_live_loop_spec fuel s :
  size (sessions s) < fuel → ∃ s' r, take_live_loop fuel s = Some (s', r) ∧ after_search s s' r.
Proof.
  revert s. induction fuel as [|fuel IH]; intros s Hfuel; [lia|]. simpl.
  destruct (first_session s) as [l|] eqn:Hf.
  - pose proof (first_session_Some _ _ Hf) as Hheld.
    destruct (session_process_is_alive s l) eqn:Hl.
    + exists s, (Some l). split; [done|]. split; try done; [by destruct s|congruence].
    + pose proof (remove_references_size _ _ Hheld).
      destruct (IH (remove_session_references l s)) as (s' & r & Heq & [Hfr Hsub Hdrop Hok Hor Hres]); [lia|].
      exists s', r. split; [done|]. split; try done.
      * etrans; [exact Hsub|apply map_filter_subseteq].
      * intros id l' Hid Hnone. destruct (decide (l' = l)) as [->|Hne]; [unfold live; by rewrite Hl|].
        apply (Hdrop id l'); [|done]. by apply map_lookup_filter_Some.
      * intros Hs. by apply Hok, remove_references_ok.
      * intros L Hs. apply Hor, remove_references_orphans; [|done]. unfold live. by rewrite Hl.
  - exists s, None. split; [done|]. split; try done; [by destruct s|congruence|by apply first_session_None].
Qed.

Lemma take_live_spec s :
  ∃ s' r, take_live_shared_session s = (s', Ok r) ∧ after_search s s' r.
Proof.
  unfold take_live_shared_session.
  destruct (take_live_loop_spec (S (size (sessions s))) s) as (s' & r & -> & Hspec); [lia|].
  by exists s', r.
Qed.

Lemma wp_take_live Q s :
  (∀ s' r, after_search s s' r → Q s' (Ok r)) → wp take_live_shared_session Q s.
Proof. intros HQ. unfold wp. destruct (take_live_spec s) as (s' & r & -> & Hs). by apply HQ. Qed.

Lemma after_search_workspaces s s' r :
  after_search s s' r → workspaces s' = workspaces s ∧ world s' = world s ∧ processes s' = processes s
  ∧ next_process s' = next_process s ∧ app_settings s' = app_settings s.
Proof. intros [Hf _ _ _ _ _]. rewrite Hf. done. Qed.

Lemma register_workspace_ids ws id path :
  workspace_ids (register_workspace_with_path ws id path) = {[id]} ∪ workspace_ids ws.
Proof. unfold register_workspace_with_path. repeat case_match; done. Qed.

Lemma live_update l f s l' : live (update_session l f s) l' ↔ live s l'.
Proof.
  unfold live, session_process_is_alive, update_session. simpl. rewrite lookup_alter.
  case_decide; [subst; by destruct (processes s !! l')|done].
Qed.

Lemma live_process s l : live s l → ∃ p, processes s !! l = Some p ∧ proc_alive p = true.
Proof. unfold live, session_process_is_alive. destruct (processes s !! l); [eauto|done]. Qed.

(** A workspace joins the shared session. *)
Definition attach (l : nat) (id : str) (path : option str) (s : State) : State :=
  insert_session id l (register_session l id path s).

Lemma attach_ok s l p id path :
  sessions_ok s → processes s !! l = Some p → (∀ l', held s l' → l' = l) →
  sessions_ok (attach l id path s).
Proof.
  intros [Hs Hr Hb] Hp Honly. split; simpl.
  - intros id1 id2 l1 l2 [[_ <-]|[_ H1]]%lookup_insert_Some [[_ <-]|[_ H2]]%lookup_insert_Some;
      eauto; [symmetry|]; apply Honly; by eexists.
  - intros id' l' Hl'.
    assert (l' = l) as ->.
    { apply lookup_insert_Some in Hl' as [[_ <-]|[_ Hl']]; [done|]. apply Honly. by eexists. }
    rewrite lookup_alter_eq Hp /=. eexists. split; [done|]. simpl. rewrite register_workspace_ids.
    apply lookup_insert_Some in Hl' as [[<- _]|[_ Hl']]; [set_solver|].
    destruct (Hr _ _ Hl') as (p' & Hp' & Hin). simplify_eq. set_solver.
  - intros l' p' Hl'. rewrite lookup_alter in Hl'. case_decide; [|eauto].
    apply fmap_Some in Hl' as (p0 & Hp0 & _). subst. eauto.
Qed.

Lemma attach_orphans L s l id path :
  (∀ l', live s l' → l' = l ∨ held s l' ∨ L l') → (∀ l', held s l' → l' = l) →
  orphans_in L (attach l id path s).
Proof.
  intros Hlive Honly l' Hl'%live_update.
  assert (l' = l ∨ L l') as [->|] by (destruct (Hlive _ Hl') as [|[|]]; auto); [left|by right].
  exists id. simpl. by rewrite lookup_insert_eq.
Qed.

Lemma live_attach s l id path l' : live (attach l id path s) l' ↔ live s l'.
Proof. apply (live_update l (λ ws, register_workspace_with_path ws id path) s). Qed.

Lemma new_process_ok ws s : sessions_ok s → sessions_ok (new_process ws s).
Proof.
  intros [Hs Hr Hb]. split; simpl; [done|..].
  - intros id l Hl. destruct (Hr _ _ Hl) as (p & Hp & Hin). exists p.
    rewrite lookup_insert_ne; [specialize (Hb _ _ Hp); lia|done].
  - intros l p [[<- _]|[_ Hp]]%lookup_insert_Some; [lia|]. specialize (Hb _ _ Hp). lia.
Qed.

Lemma live_new_process ws s l : live (new_process ws s) l ↔ l = next_process s ∨ (l ≠ next_process s ∧ live s l).
Proof.
  unfold live, session_process_is_alive. simpl. rewrite lookup_insert. case_decide; subst; naive_solver.
Qed.

Lemma held_unchanged s s' l : sessions s' = sessions s → held s' l ↔ held s l.
Proof. unfold held. by intros ->. Qed.

(** The last workspace to leave stops the process. *)
Lemma references_left (m : gmap str nat) l :
  existsb (λ kv, (kv.2 =? l)%nat) (hash_iter m) = true ↔ ∃ id, m !! id = Some l.
Proof.
  rewrite existsb_exists. split.
  - intros ([id l'] & Hin & Heq). apply Nat.eqb_eq in Heq. simpl in Heq. subst.
    exists id. apply elem_of_hash_iter. by apply list_elem_of_In.
  - intros [id Hid]. exists (id, l). split; [|by apply Nat.eqb_refl].
    apply list_elem_of_In. by apply elem_of_hash_iter.
Qed.

Lemma kill_session_frame id s :
  workspaces (kill_session_by_id id s) = workspaces s ∧ world (kill_session_by_id id s) = world s
  ∧ sessions (kill_session_by_id id s) = delete id (sessions s)
  ∧ next_process (kill_session_by_id id s) = next_process s
  ∧ app_settings (kill_session_by_id id s) = app_settings s.
Proof.
  unfold kill_session_by_id. destruct (sessions s !! id) eqn:E; [|by rewrite delete_id].
  by destruct (existsb _ _).
Qed.

Lemma kill_session_process id s l l' :
  sessions s !! id = Some l →
  processes (kill_session_by_id id s) !! l' =
    (λ p, if decide (l = l')
          then MkProcess (unregister_workspace (proc_session p) id)
                 (proc_alive p && existsb (λ kv, (kv.2 =? l)%nat) (hash_iter (delete id (sessions s))))
          else p) <$> processes s !! l'.
Proof.
  intros Hid. unfold kill_session_by_id. rewrite Hid /=.
  destruct (existsb _ _); simpl; rewrite !lookup_alter; repeat case_decide; subst; try done;
    destruct (processes s !! _); simpl; rewrite ?andb_true_r ?andb_false_r //.
Qed.

Lemma kill_session_live id s l :
  live (kill_session_by_id id s) l ↔
    live s l ∧ (sessions s !! id = Some l → ∃ id', delete id (sessions s) !! id' = Some l).
Proof.
  unfold live, session_process_is_alive. destruct (sessions s !! id) as [l0|] eqn:Hid.
  - rewrite (kill_session_process _ _ _ _ Hid). rewrite -(references_left (delete id (sessions s)) l).
    destruct (processes s !! l) as [p|]; simpl; [|naive_solver].
    case_decide; simpl; [subst; rewrite andb_true_iff|]; naive_solver.
  - unfold kill_session_by_id. rewrite Hid. naive_solver.
Qed.

Lemma kill_session_ok id s : sessions_ok s → sessions_ok (kill_session_by_id id s).
Proof.
  intros [Hs Hr Hb]. destruct (sessions s !! id) as [l0|] eqn:Hid;
    [|unfold kill_session_by_id; rewrite Hid; by split].
  destruct (kill_session_frame id s) as (_ & _ & Hss & Hnext & _).
  split; rewrite ?Hss ?Hnext.
  - intros id1 id2 l1 l2 [_ H1]%lookup_delete_Some [_ H2]%lookup_delete_Some. eauto.
  - intros id' l [Hne Hl]%lookup_delete_Some. destruct (Hr _ _ Hl) as (p & Hp & Hin).
    rewrite (kill_session_process _ _ _ _ Hid) Hp /=. eexists. split; [done|].
    case_decide; simpl; [|done]. set_solver.
  - intros l p. rewrite (kill_session_process _ _ _ _ Hid). intros (p0 & Hp0 & _)%fmap_Some. eauto.
Qed.

Lemma kill_session_orphans L id s : orphans_in L s → orphans_in L (kill_session_by_id id s).
Proof.
  intros Hno l [Hl Hlast]%kill_session_live. destruct (kill_session_frame id s) as (_ & _ & Hss & _).
  unfold held. rewrite Hss. destruct (Hno _ Hl) as [[id' Hid']|]; [left|by right].
  destruct (decide (id = id')) as [<-|Hne]; [by apply Hlast|].
  exists id'. by rewrite lookup_delete_ne.
Qed.

Lemma same_sessions_iff s s' :
  sessions s' = sessions s → processes s' = processes s → next_process s' = next_process s →
  (sessions_ok s' ↔ sessions_ok s) ∧ ∀ L, orphans_in L s' ↔ orphans_in L s.
Proof.
  intros Hs Hp Hn. split.
  - split; intros [H1 H2 H3]; split; rewrite -?Hs -?Hp -?Hn // ?Hs ?Hp ?Hn //.
  - intros L. unfold orphans_in, live, session_process_is_alive, held. by rewrite Hs Hp.
Qed.

Context (spawn_session : WorkspaceEntry → option str → option str → option str → W WorkspaceSession).

(** A session to attach a workspace to has been found or started. *)
Record ready (s s' : State) (l : nat) (spawned : bool) : Prop := {
  ready_entries : workspaces s' = workspaces s;
  ready_settings : app_settings s' = app_settings s;
  ready_sub : sessions s' ⊆ sessions s;
  ready_live : live s' l;
  ready_ok : sessions_ok s → sessions_ok s' ∧ ∀ l', held s' l' → l' = l;
  ready_orphans : ∀ L, orphans_in L s → ∀ l', live s' l' → l' = l ∨ held s' l' ∨ L l';
  ready_spawned : if spawned then sessions s' = ∅ ∧ l = next_process s ∧ ∀ l', held s l' → ¬ live s l'
                  else held s' l ∧ live s l ∧ next_process s' = next_process s ∧ world s' = world s
}.
Record not_ready (s s' : State) : Prop := {
  failed_entries : workspaces s' = workspaces s;
  failed_settings : app_settings s' = app_settings s;
  failed_sub : sessions s' ⊆ sessions s;
  failed_ok : sessions_ok s → sessions_ok s';
  failed_orphans : ∀ L, orphans_in L s → orphans_in L s';
  failed_processes : processes s' = processes s
}.

Lemma wp_spawn entry bin args home Q s :
  (∀ w ws, Q (new_process ws (set_world w s)) (Ok (next_process s))) →
  (∀ w e, Q (set_world w s) (Err e)) → wp (spawn spawn_session entry bin args home) Q s.
Proof. intros Hok Herr. unfold spawn. wp_run; [|by apply Herr]. apply Hok. Qed.

Lemma ready_shared s s' l : after_search s s' (Some l) → ready s s' l false.
Proof.
  intros Ha. pose proof Ha as [Hf Hsub Hdrop Hok Hor [Hl Hh]].
  destruct (after_search_workspaces _ _ _ Ha) as (? & ? & ? & ? & ?). split; try done.
  - intros Hs. split; [by apply Hok|]. intros l' [id' Hid']. destruct Hh as [id Hid].
    by apply (ok_shared _ (Hok Hs) id' id).
  - intros L Hs l' Hl'. right. by apply (Hor L Hs).
  - split_and!; [done| |done..]. by rewrite Hf in Hl.
Qed.

Lemma search_none_dead L s s' : after_search s s' None → orphans_in L s → ∀ l, live s l → L l.
Proof.
  intros [Hf _ _ _ Hor Hnone] Hs l Hl. specialize (Hor L Hs). rewrite Hf in Hor.
  destruct (Hor l Hl) as [[id Hid]|]; [|done]. simpl in Hid. by rewrite Hnone lookup_empty in Hid.
Qed.

Lemma ready_new s s' w ws :
  after_search s s' None → ready s (new_process ws (set_world w s')) (next_process s') true.
Proof.
  intros Ha. pose proof Ha as [Hf Hsub Hdrop Hok Hor Hnone].
  destruct (after_search_workspaces _ _ _ Ha) as (? & ? & ? & Hn & ?).
  assert (∀ l', ¬ held (new_process ws (set_world w s')) l') as Hno.
  { intros l' [id Hid]. simpl in Hid. by rewrite Hnone lookup_empty in Hid. }
  split; try done.
  - apply live_new_process. by left.
  - intros Hs. split; [by apply new_process_ok, set_world_ok, Hok|]. intros l' Hl'. by destruct (Hno l').
  - intros L Hs l' Hl'%live_new_process. simpl in Hl'. destruct Hl' as [->|[_ Hl']]; [by left|].
    right. right. apply (search_none_dead L _ _ Ha Hs l'). by rewrite Hf in Hl'.
  - split_and!; [done|done|]. intros l' [id Hid]. apply (Hdrop id l' Hid). by rewrite Hnone lookup_empty.
Qed.

Lemma not_ready_search s s' w : after_search s s' None → not_ready s (set_world w s').
Proof.
  intros Ha. pose proof Ha as [Hf Hsub Hdrop Hok Hor Hnone].
  destruct (after_search_workspaces _ _ _ Ha) as (? & ? & ? & ? & ?).
  split; try done. intros Hs. by apply set_world_ok, Hok.
Qed.

Lemma wp_spawn_for entry parent Q s :
  (∀ w ws, Q (new_process ws (set_world w s)) (Ok (next_process s))) →
  (∀ w e, Q (set_world w s) (Err e)) → wp (spawn_for spawn_session entry parent) Q s.
Proof. intros Hok Herr. unfold spawn_for. wp_run. by apply wp_spawn. Qed.

Lemma wp_shared_or_spawned entry parent Q s :
  (∀ s' l spawned, ready s s' l spawned → Q s' (Ok (l, spawned))) →
  (∀ s' e, not_ready s s' → Q s' (Err e)) →
  wp (shared_or_spawned spawn_session entry parent) Q s.
Proof.
  intros Hok Herr. apply wp_bind, wp_take_live. intros s' [l|] Ha.
  - apply Hok. by apply ready_shared.
  - apply wp_bind, wp_spawn_for; [intros w ws; by apply Hok, ready_new|].
    intros w e. by apply Herr, not_ready_search.
Qed.

(** Attaching a workspace to the session that is ready. *)
Lemma attach_ready_ok s s' l spawned id path :
  ready s s' l spawned → sessions_ok s → sessions_ok (attach l id path s').
Proof.
  intros Hr Hs. destruct (live_process _ _ (ready_live _ _ _ _ Hr)) as (p & Hp & _).
  destruct (ready_ok _ _ _ _ Hr Hs) as [Hok Honly]. by eapply attach_ok.
Qed.

Lemma attach_ready_orphans L s s' l spawned id path :
  ready s s' l spawned → sessions_ok s → orphans_in L s → orphans_in L (attach l id path s').
Proof.
  intros Hr Hs Hno. destruct (ready_ok _ _ _ _ Hr Hs) as [_ Honly].
  apply attach_orphans; [by apply (ready_orphans _ _ _ _ Hr)|done].
Qed.

(** What an operation on one workspace's session guarantees. *)
Record sessions_kept (s s' : State) : Prop := {
  kept_ok : sessions_ok s → sessions_ok s';
  kept_orphans : ∀ L, sessions_ok s → orphans_in L s → orphans_in L s'
}.
Lemma kept_no_orphans s s' : sessions_kept s s' → sessions_ok s → no_orphans s → no_orphans s'.
Proof. intros [_ Hk] Hs. rewrite !no_orphans_in. by apply Hk. Qed.

Lemma sessions_kept_refl s : sessions_kept s s.
Proof. by split. Qed.

Lemma sessions_kept_trans s1 s2 s3 : sessions_kept s1 s2 → sessions_kept s2 s3 → sessions_kept s1 s3.
Proof. intros [H1 H2] [H3 H4]. split; auto. Qed.

Lemma sessions_kept_same s s' :
  sessions s' = sessions s → processes s' = processes s → next_process s' = next_process s → sessions_kept s s'.
Proof.
  intros H1 H2 H3. destruct (same_sessions_iff s s' H1 H2 H3) as [Hok Hno]. split.
  - by intros Hs%Hok.
  - by intros L _ Hs%Hno.
Qed.

Lemma attach_ready_kept s s' l spawned id path :
  ready s s' l spawned → sessions_kept s (attach l id path s').
Proof.
  intros Hr. split; [by eapply attach_ready_ok|intros L; by eapply attach_ready_orphans].
Qed.

Lemma not_ready_kept s s' : not_ready s s' → sessions_kept s s'.
Proof. intros []. split; auto. Qed.

(** How [connect_workspace_core] ends, on each of its branches. *)
Definition connect_post (s : State) (entry : WorkspaceEntry) (s' : State) (r : result str unit) : Prop :=
  match r with
  | Ok _ =>
      (s' = s ∧ ∃ l, sessions s !! entry_id entry = Some l ∧ live s l)
      ∨ ∃ s0 s1 l spawned, sessions_kept s s0 ∧ workspaces s0 = workspaces s
          ∧ sessions s0 ⊆ sessions s ∧ (∀ l, held s l → live s l → held s0 l)
          ∧ next_process s0 = next_process s ∧ world s0 = world s ∧ processes s0 = processes s
          ∧ ready s0 s1 l spawned ∧ s' = attach l (entry_id entry) (Some (entry_path entry)) s1
  | Err _ => ∃ s0, sessions_kept s s0 ∧ workspaces s0 = workspaces s ∧ sessions s0 ⊆ sessions s
          ∧ (∀ l, held s l → live s l → held s0 l) ∧ processes s0 = processes s ∧ not_ready s0 s'
          ∧ ∀ l, held s l → ¬ live s l
  end.

Lemma connect_workspace_post workspace_id entry parent s :
  resolve_entry_and_parent workspace_id s = (s, Ok (entry, parent)) →
  wp (connect_workspace_core spawn_session workspace_id) (connect_post s entry) s.
Proof.
  intros Hres. apply wp_bind. unfold wp at 1. rewrite Hres /=. wp_run.
  { left. split; [done|]. destruct (sessions s !! entry_id entry) as [l|]; [|done]. by exists l. }
  match goal with H : _ = false |- _ => rename H into Hdead end.
  set (s0 := match sessions s !! entry_id entry with Some e => remove_session_references e s | None => s end).
  assert (sessions_kept s s0 ∧ sessions s0 ⊆ sessions s ∧ (∀ l, held s l → live s l → held s0 l)
    ∧ workspaces s0 = workspaces s ∧ next_process s0 = next_process s ∧ world s0 = world s
    ∧ processes s0 = processes s) as (Hk & Hsub & Hlive & Hw & Hn & Hwd & Hp).
  { subst s0. destruct (sessions s !! entry_id entry) as [e|] eqn:He; [|by split_and!].
    assert (¬ live s e) as Hde by (unfold live; by rewrite Hdead).
    split_and!; try done.
    - split; [apply remove_references_ok|intros L _; by apply remove_references_orphans].
    - apply map_filter_subseteq.
    - intros l Hl Hlv. apply held_remove. split; [done|]. by intros ->. }
  apply (wp_mono _ (λ s1 r, s1 = s0 ∧ r = Ok tt)).
  { subst s0. by destruct (sessions s !! entry_id entry). }
  intros s1 r [-> ->]. apply wp_bind, wp_take_live. intros s1 [l|] Ha.
  - wp_run. right. exists s0, s1, l, false. split_and!; try done. by apply ready_shared.
  - apply wp_bind, wp_spawn_for.
    + intros w ws. wp_run. right. eexists s0, _, _, true. split_and!; try done. by apply ready_new.
    + intros w e. exists s0. split_and!; try done; [by apply not_ready_search|].
      intros l Hl Hlv. destruct Ha as [_ _ Hdrop _ _ Hnone].
      destruct (Hlive l Hl Hlv) as [id Hid]. apply (Hdrop id l Hid); [by rewrite Hnone lookup_empty|].
      revert Hlv. unfold live, session_process_is_alive. by rewrite Hp.
Qed.

Lemma resolve_entry_spec workspace_id s :
  resolve_entry_and_parent workspace_id s =
    (s, match workspaces s !! workspace_id with
        | Some entry => Ok (entry, parent_id ← entry_parent_id entry; workspaces s !! parent_id)
        | None => Err workspace_not_found
        end).
Proof.
  unfold resolve_entry_and_parent, gets, of_option, mbind, M_bind. cbn.
  by destruct (workspaces s !! workspace_id).
Qed.

Lemma connect_kept workspace_id s :
  sessions_kept s (connect_workspace_core spawn_session workspace_id s).1.
Proof.
  pose proof (resolve_entry_spec workspace_id s) as Hres.
  destruct (workspaces s !! workspace_id) as [entry|] eqn:He.
  - pose proof (connect_workspace_post _ _ _ _ Hres) as Hpost. unfold wp in Hpost.
    destruct (connect_workspace_core _ _ _) as [s' [r|e]]; simpl in *.
    + destruct Hpost as [[-> _]|(s0 & s1 & l & sp & Hk & _ & _ & _ & _ & _ & _ & Hr & ->)];
        [apply sessions_kept_refl|].
      eapply sessions_kept_trans; [exact Hk|by eapply attach_ready_kept].
    + destruct Hpost as (s0 & Hk & _ & _ & _ & _ & Hn & _).
      eapply sessions_kept_trans; [exact Hk|by apply not_ready_kept].
  - unfold connect_workspace_core, mbind, M_bind. rewrite Hres. apply sessions_kept_refl.
Qed.

Lemma register_known_paths n ids s p :
  processes s !! n = Some p →
  let s' := foldl (register_known_path n) s ids in
  sessions s' = sessions s ∧ workspaces s' = workspaces s ∧ next_process s' = next_process s
  ∧ app_settings s' = app_settings s ∧ world s' = world s
  ∧ (∃ p', processes s' !! n = Some p' ∧ proc_alive p' = proc_alive p
       ∧ ∀ id, id ∈ workspace_ids (proc_session p') ↔ id ∈ ids ∨ id ∈ workspace_ids (proc_session p))
  ∧ ∀ l, l ≠ n → processes s' !! l = processes s !! l.
Proof.
  revert s p. induction ids as [|i ids IH]; intros s p Hp; simpl.
  - split_and!; try done. exists p. split_and!; try done. set_solver.
  - set (s1 := register_known_path n s i).
    assert (∃ path, processes s1 !! n =
      Some (MkProcess (register_workspace_with_path (proc_session p) i path) (proc_alive p))) as [path Hp1].
    { unfold s1, register_known_path, register_session, update_session. simpl.
      rewrite lookup_alter_eq Hp. eexists. done. }
    destruct (IH s1 _ Hp1) as (-> & -> & -> & -> & -> & (p' & Hp' & Ha & Hids) & Hother).
    split_and!; try done.
    + exists p'. split_and!; try done. intros id. rewrite Hids /= register_workspace_ids. set_solver.
    + intros l Hl. rewrite Hother //. unfold s1, register_known_path, register_session. simpl.
      by rewrite lookup_alter_ne.
Qed.

Lemma kill_process_live l s l' : live (kill_process l s) l' ↔ live s l' ∧ l' ≠ l.
Proof.
  unfold live, session_process_is_alive, kill_process. simpl. rewrite lookup_alter.
  case_decide; [|naive_solver]. subst. destruct (processes s !! l'); simpl; naive_solver.
Qed.

(** All workspaces move to a new process, and the old one stops. *)
Definition respawned_state (s : State) (w : World) (ws : WorkspaceSession) (old : nat) : State :=
  kill_process old
    (foldl (register_known_path (next_process s)) (point_all_sessions (next_process s) (new_process ws (set_world w s)))
       (hash_iter (sessions s)).*1).

Lemma wp_respawn entry parent old bin args s Q :
  (∀ w ws, Q (respawned_state s w ws old) (Ok (MkWorkspaceRuntimeCodexArgsResult args true))) →
  (∀ w e, Q (set_world w s) (Err e)) →
  wp (respawn_with_args spawn_session entry parent old bin args) Q s.
Proof. intros Hok Herr. unfold respawn_with_args. wp_run. apply wp_spawn; [|done]. intros w ws. wp_run. apply Hok. Qed.

(** Its parts, for the session [n] that replaces the old one. *)
Lemma respawned_parts s w ws old :
  old ≠ next_process s →
  let s' := respawned_state s w ws old in
  let n := next_process s in
  sessions s' = (λ _, n) <$> sessions s ∧ workspaces s' = workspaces s ∧ next_process s' = S n
  ∧ app_settings s' = app_settings s
  ∧ (∃ p, processes s' !! n = Some p ∧ proc_alive p = true
       ∧ ∀ id, is_Some (sessions s !! id) → id ∈ workspace_ids (proc_session p))
  ∧ (∀ l, l ≠ n → l ≠ old → processes s' !! l = processes s !! l) ∧ ¬ live s' old
  ∧ (∀ l p, l ≠ n → processes s' !! l = Some p → is_Some (processes s !! l)).
Proof.
  intros Hold. cbv zeta. set (n := next_process s).
  set (s1 := point_all_sessions n (new_process ws (set_world w s))).
  assert (processes s1 !! n = Some (MkProcess ws true)) as Hp1 by (simpl; by rewrite lookup_insert_eq).
  destruct (register_known_paths n (hash_iter (sessions s)).*1 s1 _ Hp1)
    as (Hs & Hw & Hn & Ha & _ & (p & Hp & Halive & Hids) & Hother).
  unfold respawned_state. fold n s1. set (s2 := foldl (register_known_path n) s1 _) in *.
  split_and!; simpl; try done.
  - exists p. rewrite lookup_alter_ne //. split_and!; try done.
    intros id [l Hid]. apply Hids. left. apply list_elem_of_fmap. exists (id, l).
    split; [done|]. by apply elem_of_hash_iter.
  - intros l Hln Hlo. rewrite lookup_alter_ne // Hother //. simpl. by rewrite lookup_insert_ne.
  - intros [_ Hne]%kill_process_live. done.
  - intros l p' Hln Hl. rewrite lookup_alter in Hl. case_decide.
    + subst. apply fmap_Some in Hl as (p0 & Hp0 & _). rewrite Hother // in Hp0. simpl in Hp0.
      rewrite lookup_insert_ne // in Hp0. by exists p0.
    + rewrite Hother // in Hl. simpl in Hl. rewrite lookup_insert_ne // in Hl. by exists p'.
Qed.

Lemma respawn_kept s w ws old :
  held s old → sessions_ok s → sessions_ok (respawned_state s w ws old)
  ∧ ∀ L, orphans_in L s → orphans_in L (respawned_state s w ws old).
Proof.
  intros Hheld Hs. pose proof Hs as [Hsh Hreg Hb].
  assert (old < next_process s) as Hlt.
  { destruct Hheld as [id Hid]. destruct (Hreg _ _ Hid) as (p & Hp & _). eauto. }
  assert (old ≠ next_process s) as Hne by lia.
  destruct (respawned_parts s w ws old Hne) as (Hss & _ & Hn & _ & (p & Hp & Ha & Hids) & Hother & Hdead & Hold).
  split; [split|].
  - rewrite Hss. intros id1 id2 l1 l2 (? & <- & _)%lookup_fmap_Some (? & <- & _)%lookup_fmap_Some. done.
  - rewrite Hss. intros id l (l0 & Heq & Hl0)%lookup_fmap_Some. subst l. exists p. split; [done|]. by apply Hids.
  - rewrite Hn. intros l p' Hl. destruct (decide (l = next_process s)) as [->|Hln]; [lia|].
    destruct (Hold _ _ Hln Hl) as [p0 Hp0]. specialize (Hb _ _ Hp0). lia.
  - intros L Hno l Hl. unfold held. rewrite Hss.
    destruct (decide (l = next_process s)) as [->|Hln].
    + left. destruct Hheld as [id Hid]. exists id. by rewrite lookup_fmap Hid.
    + destruct (decide (l = old)) as [->|Hlo]; [done|].
      assert (live s l) as Hls by (unfold live, session_process_is_alive in *; by rewrite Hother in Hl).
      destruct (Hno _ Hls) as [[id Hid]|]; [|by right]. destruct Hheld as [id' Hid']. by destruct Hlo; apply (Hsh id id').
Qed.

Lemma runtime_args_kept workspace_id override s :
  sessions_kept s (set_workspace_runtime_codex_args_core spawn_session workspace_id override s).1.
Proof.
  change (wp (set_workspace_runtime_codex_args_core spawn_session workspace_id override)
            (λ s' _, sessions_kept s s') s).
  apply wp_bind. unfold wp at 1. rewrite resolve_entry_spec /=.
  destruct (workspaces s !! workspace_id) as [entry|]; [|apply sessions_kept_refl]. simpl.
  wp_run; [apply sessions_kept_refl|].
  destruct (first_session s) as [old|] eqn:Hf; wp_run; [apply sessions_kept_refl| |apply sessions_kept_refl].
  apply first_session_Some in Hf. apply wp_respawn; intros w ?.
  - split; [|intros L]; intros Hs; by apply respawn_kept.
  - by apply sessions_kept_same.
Qed.
End sessions.

(** ** The order of the list of workspaces *)

(** Three keys compared one after the other. *)
Lemma info_compare_antisym a b : info_compare b a = CompOpp (info_compare a b).
Proof.
  unfold info_compare. rewrite N.eqb_sym (str_compare_antisym (info_name a)) (str_compare_antisym (info_id a))
    N.compare_antisym.
  destruct (N.eqb_spec (info_order a) (info_order b)); [|done].
  by destruct (str_compare (info_name a) (info_name b)).
Qed.

Lemma info_compare_eq a b : info_compare a b = Eq → info_id a = info_id b.
Proof.
  unfold info_compare. destruct (N.eqb_spec (info_order a) (info_order b)) as [He|He].
  - destruct (str_compare (info_name a) (info_name b)); try done. by intros ?%str_compare_eq.
  - by intros ?%N.compare_eq.
Qed.

Definition info_le (a b : WorkspaceInfo) : bool := comparison_le (info_compare a b).

Lemma info_le_spec a b :
  info_le a b = true ↔
    (info_order a < info_order b)%N
    ∨ info_order a = info_order b ∧
        (str_compare (info_name a) (info_name b) = Lt
         ∨ info_name a = info_name b ∧ str_compare (info_id a) (info_id b) ≠ Gt).
Proof.
  unfold info_le, info_compare. destruct (N.eqb_spec (info_order a) (info_order b)) as [He|He].
  - destruct (str_compare (info_name a) (info_name b)) eqn:E.
    + apply str_compare_eq in E. destruct (str_compare (info_id a) (info_id b)); simpl; split; try done; try naive_solver lia.
    + naive_solver.
    + assert (info_name a ≠ info_name b) by (intros Hn; rewrite Hn str_compare_refl in E; done).
      simpl. split; [done|]. intros [?|[_ [?|[? _]]]]; [lia|done|done].
  - destruct (N.compare_spec (info_order a) (info_order b)); simpl; split; try done; try lia.
Qed.

Lemma info_le_trans a b c : info_le a b = true → info_le b c = true → info_le a c = true.
Proof.
  rewrite !info_le_spec. intros [?|[He1 [Hn1|[Hn1 Hi1]]]] [?|[He2 [Hn2|[Hn2 Hi2]]]]; try (left; lia).
  - right. split; [congruence|]. left. by eapply str_compare_lt_trans.
  - right. split; [congruence|]. left. congruence.
  - right. split; [congruence|]. left. congruence.
  - right. split; [congruence|]. right. split; [congruence|].
    destruct (str_compare (info_id a) (info_id b)) eqn:E1; [|..|done].
    + apply str_compare_eq in E1. congruence.
    + destruct (str_compare (info_id b) (info_id c)) eqn:E2; [|..|done].
      * apply str_compare_eq in E2. by rewrite -E2 E1.
      * by rewrite (str_compare_lt_trans _ _ _ E1 E2).
Qed.

Lemma info_le_total a b : info_le a b = true ∨ info_le b a = true.
Proof. unfold info_le. rewrite (info_compare_antisym a b). destruct (info_compare a b); simpl; auto. Qed.

Lemma info_le_same_id a b : info_le a b = true → info_le b a = true → info_id a = info_id b.
Proof.
  unfold info_le. rewrite (info_compare_antisym a b). intros H1 H2.
  apply info_compare_eq. by destruct (info_compare a b).
Qed.

Lemma sort_workspaces_unique l1 l2 :
  (∀ a b, a ∈ l1 → b ∈ l1 → info_id a = info_id b → a = b) → l1 ≡ₚ l2 → sort_workspaces l1 = sort_workspaces l2.
Proof.
  intros Hids Hperm. unfold sort_workspaces. fold info_le.
  assert (∀ l, StronglySorted (λ a b, info_le a b = true) (sort_by info_le l)) as Hsorted.
  { intros l. apply Sorted_StronglySorted; [intros a b c; apply info_le_trans|].
    apply sort_by_Sorted, info_le_total. }
  eapply StronglySorted_unique_strong; [|apply Hsorted..|].
  - intros a b Ha Hb H1 H2. rewrite sort_by_perm in Ha. rewrite sort_by_perm in Hb.
    apply Hids; [done|by rewrite Hperm|by apply info_le_same_id].
  - by rewrite !sort_by_perm.
Qed.

(** ** Properties *)

(** The search for a session to share ends. It returns a session that runs,
    if any workspace has one; otherwise no reference to a dead session is
    left. *)
Theorem take_live_shared_session_finds_live `{Host, HashOrder} (s : State) :
  ∃ s' r, take_live_shared_session s = (s', Ok r) ∧
  match r with
  | Some l => held s l ∧ live s l ∧ held s' l
  | None => sessions s' = ∅ ∧ ∀ l, held s l → ¬ live s l
  end.
Proof.
  destruct (take_live_spec s) as (s' & r & Heq & Ha). exists s', r. split; [done|].
  pose proof Ha as [Hf Hsub Hdrop _ _ Hres]. destruct r as [l|].
  - destruct Hres as [Hl Hh]. split_and!; [|by rewrite Hf in Hl|done].
    destruct Hh as [id Hid]. exists id. by eapply lookup_weaken.
  - split; [done|]. intros l [id Hid]. apply (Hdrop id l Hid). by rewrite Hres lookup_empty.
Qed.

(** Connecting a workspace leaves it on a session that runs, shared with every
    other workspace; a process is started only when none of them runs. *)
Theorem connect_workspace_shares_the_process `{Host, HashOrder}
  (spawn_session : WorkspaceEntry → option str → option str → option str → W WorkspaceSession)
  (s s' : State) (id : str)
  (Hkeyed : keyed (workspaces s)) (Hok : sessions_ok s) (Hno : no_orphans s)
  (Hconnect : connect_workspace_core spawn_session id s = (s', Ok tt)) :
  sessions_ok s' ∧ no_orphans s' ∧ workspaces s' = workspaces s
  ∧ (∃ l, sessions s' !! id = Some l ∧ live s' l)
  ∧ ((∃ l, live s l) → next_process s' = next_process s ∧ world s' = world s).
Proof.
  pose proof (connect_kept spawn_session id s) as Hkept. rewrite Hconnect in Hkept.
  pose proof (kept_ok _ _ Hkept) as Hok'. pose proof (kept_no_orphans _ _ Hkept) as Hno'.
  split; [by apply Hok'|]. split; [by apply Hno'|].
  pose proof (resolve_entry_spec id s) as Hres. destruct (workspaces s !! id) as [entry|] eqn:He.
  2: { unfold connect_workspace_core, mbind, M_bind in Hconnect. by rewrite Hres in Hconnect. }
  pose proof (connect_workspace_post spawn_session _ _ _ _ Hres) as Hpost.
  unfold wp in Hpost. rewrite Hconnect /= (Hkeyed _ _ He) in Hpost.
  destruct Hpost as [[-> (l & Hl & Hlive)]|Hpost]; [split_and!; [done|by exists l|done]|].
  destruct Hpost as (s0 & s1 & l & sp & Hk & Hw & _ & Hkeep & Hn & Hwd & Hp & Hr & ->). split_and!.
  - simpl. by rewrite (ready_entries _ _ _ _ Hr).
  - exists l. simpl. rewrite lookup_insert_eq. split; [done|].
    apply live_attach. apply (ready_live _ _ _ _ Hr).
  - intros [l0 Hl0]. destruct (Hno _ Hl0) as [id0 Hid0].
    pose proof (ready_spawned _ _ _ _ Hr) as Hsp. destruct sp.
    + destruct Hsp as (_ & _ & Hdead). destruct (Hdead l0); [by apply Hkeep; [exists id0|]|].
      revert Hl0. unfold live, session_process_is_alive. by rewrite Hp.
    + destruct Hsp as (_ & _ & Hn' & Hw'). simpl. by rewrite Hn' Hw'.
Qed.

(** Disconnecting a workspace stops its process exactly when no other workspace
    uses it; all other processes and workspaces are left alone. *)
Theorem kill_session_by_id_stops_the_last `{Host, HashOrder} (s : State) (id : str) :
  let s' := kill_session_by_id id s in
  sessions s' = delete id (sessions s) ∧ workspaces s' = workspaces s ∧
  ∀ l, live s' l ↔ live s l ∧ (sessions s !! id = Some l → ∃ id', id' ≠ id ∧ sessions s !! id' = Some l).
Proof.
  cbv zeta. destruct (kill_session_frame id s) as (Hw & _ & Hs & _).
  split; [done|]. split; [done|]. intros l. rewrite kill_session_live.
  setoid_rewrite lookup_delete_Some. naive_solver.
Qed.

(** New arguments reach every workspace at once: after a respawn they all are
    on one new process and the old one is stopped; without one, nothing has
    changed. *)
Theorem set_workspace_runtime_codex_args_moves_all `{Host, HashOrder}
  (spawn_session : WorkspaceEntry → option str → option str → option str → W WorkspaceSession)
  (s s' : State) (id : str) (override : option str) (r : WorkspaceRuntimeCodexArgsResult)
  (Hok : sessions_ok s)
  (Hset : set_workspace_runtime_codex_args_core spawn_session id override s = (s', Ok r)) :
  if respawned r then
    (∀ id', sessions s' !! id' = (λ _, next_process s) <$> sessions s !! id')
    ∧ live s' (next_process s) ∧ (∀ l, held s l → ¬ live s' l) ∧ workspaces s' = workspaces s
  else s' = s.
Proof.
  assert (wp (set_workspace_runtime_codex_args_core spawn_session id override)
    (λ s1 r, match r with
             | Ok r => if respawned r then ∃ old w ws, held s old ∧ s1 = respawned_state s w ws old else s1 = s
             | Err _ => True
             end) s) as Hwp.
  { apply wp_bind. unfold wp at 1. rewrite resolve_entry_spec /=.
    destruct (workspaces s !! id) as [entry|]; [|done]. simpl. wp_run; [done|].
    destruct (first_session s) as [old|] eqn:Hf; wp_run; [done| |done].
    apply first_session_Some in Hf. apply wp_respawn; intros w ws; [|done]. simpl. eauto. }
  unfold wp in Hwp. rewrite Hset /= in Hwp. destruct (respawned r); [|done].
  destruct Hwp as (old & w & ws & Hheld & ->).
  assert (old < next_process s) as Hlt.
  { destruct Hheld as [id' Hid]. destruct (ok_registered _ Hok _ _ Hid) as (p & Hp & _).
    by eapply ok_below. }
  destruct (respawned_parts s w ws old ltac:(lia)) as (Hs & Hw & _ & _ & (p & Hp & Ha & _) & _ & Hdead & _).
  split_and!; [intros id'; by rewrite Hs lookup_fmap| |intros l [id1 Hl]|done].
  - unfold live, session_process_is_alive. by rewrite Hp.
  - destruct Hheld as [id2 Hid2]. by rewrite (ok_shared _ Hok _ _ _ _ Hl Hid2).
Qed.

(** The list of workspaces is sorted, complete and does not depend on the
    order the map happens to have. *)
Theorem list_workspaces_core_sorted `{Host} (order1 order2 : HashOrder) (s : State)
  (Hkeyed : keyed (workspaces s)) :
  list_workspaces_core (H0 := order1) s = list_workspaces_core (H0 := order2) s
  ∧ Sorted (λ a b, info_le a b = true) (list_workspaces_core (H0 := order1) s)
  ∧ ∀ i, i ∈ list_workspaces_core (H0 := order1) s ↔
      ∃ e, workspaces s !! entry_id e = Some e ∧ i = workspace_info e (is_some_b (sessions s !! entry_id e)).
Proof.
  assert (∀ (order : HashOrder) e, e ∈ (hash_iter (workspaces s)).*2 ↔ workspaces s !! entry_id e = Some e) as Hin.
  { intros order e. rewrite list_elem_of_fmap. split.
    - intros ([k e'] & -> & Hk%elem_of_hash_iter). simpl. by rewrite (Hkeyed _ _ Hk).
    - intros He. exists (entry_id e, e). by rewrite elem_of_hash_iter. }
  split_and!.
  - apply sort_workspaces_unique.
    + intros a b (ea & -> & Ha)%list_elem_of_fmap (eb & -> & Hb)%list_elem_of_fmap Heq. simpl in Heq.
      apply Hin in Ha, Hb. rewrite Heq in Ha. by simplify_eq.
    + apply Permutation_map, fmap_Permutation. by rewrite !hash_iter_perm.
  - apply sort_by_Sorted, info_le_total.
  - intros i. unfold list_workspaces_core, sort_workspaces. rewrite sort_by_perm list_elem_of_fmap.
    setoid_rewrite Hin. naive_solver.
Qed.

(** ** The theorems at concrete inputs *)

Definition demo_spawn (entry : WorkspaceEntry) (bin args home : option str) : W (H := demo_host) WorkspaceSession :=
  λ w, (w, Ok (new_session args (entry_id entry) (entry_path entry))).
Definition demo_second : WorkspaceEntry :=
  MkWorkspaceEntry "w2" "Other" "/other" Main None None WorkspaceSettings_default.
Definition demo_state : State (H := demo_host) :=
  MkState demo_host (<["w2" : str := demo_second]> {["w1" : str := demo_entry]}) ∅ ∅ 0
    (AppSettings_default OtherOS) [] tt.

Lemma no_sessions_ok `{Host} (s : State) : sessions s = ∅ → processes s = ∅ → sessions_ok s ∧ no_orphans s.
Proof.
  intros Hs Hp. split.
  - split; rewrite ?Hs ?Hp; intros *; by rewrite lookup_empty.
  - intros l. unfold live, session_process_is_alive. by rewrite Hp lookup_empty.
Qed.

Lemma demo_keyed : keyed (workspaces demo_state).
Proof.
  intros k e Hk. unfold demo_state, workspaces in Hk.
  apply lookup_insert_Some in Hk as [[<- <-]|[_ [<- <-]%lookup_singleton_Some]]; reflexivity.
Qed.

Definition demo_connected : State (H := demo_host) :=
  (connect_workspace_core (H0 := map_order) demo_spawn "w1" demo_state).1.

Lemma connect_workspace_shares_the_process_witness :
  ∃ l, sessions demo_connected !! ("w1" : str) = Some l ∧ live demo_connected l.
Proof.
  assert (sessions_ok demo_state ∧ no_orphans demo_state) as [Hok Hno] by (apply no_sessions_ok; reflexivity).
  pose proof (@connect_workspace_shares_the_process demo_host map_order demo_spawn demo_state demo_connected "w1"
    demo_keyed Hok Hno) as Hc.
  apply Hc. unfold demo_connected. vm_compute. reflexivity.
Defined.

Lemma demo_connected_ok : sessions_ok demo_connected.
Proof.
  apply (kept_ok _ _ (connect_kept (H0 := map_order) demo_spawn "w1" demo_state)).
  apply no_sessions_ok; reflexivity.
Qed.

Lemma set_workspace_runtime_codex_args_moves_all_witness :
  let s' := (set_workspace_runtime_codex_args_core (H0 := map_order) demo_spawn "w1"
               (Some ("--search" : str)) demo_connected).1 in
  sessions s' !! ("w1" : str) = Some 1.
Proof.
  cbv zeta.
  destruct (@set_workspace_runtime_codex_args_moves_all demo_host map_order demo_spawn demo_connected
    (set_workspace_runtime_codex_args_core (H0 := map_order) demo_spawn "w1"
       (Some ("--search" : str)) demo_connected).1 "w1"
    (Some ("--search" : str)) (MkWorkspaceRuntimeCodexArgsResult (Some ("--search" : str)) true)
    demo_connected_ok) as [Hs _]; [vm_compute; reflexivity|].
  rewrite Hs. reflexivity.
Defined.

Lemma list_workspaces_core_sorted_witness :
  list_workspaces_core (H0 := map_order) demo_state = list_workspaces_core (H0 := reverse_order) demo_state.
Proof. apply (@list_workspaces_core_sorted demo_host map_order reverse_order demo_state demo_keyed). Defined.
