(* ===== verification/WorkspaceCrud.v ===== *)
(** Adding, cloning, removing and configuring workspaces:
    [src-tauri/src/shared/workspaces_core/crud_persistence.rs], with
    [workspaces/settings.rs] for the update of one entry. *)
From S2P Require Import Prelude Json Paths Types Host AppServer Session Storage Workspaces.

(** ** Pieces the operations share *)

Section pieces.
Context `{Host, HashOrder, Serde}.

(** [workspaces.values().cloned().collect()] and [write_workspaces]. *)
Definition persist (storage_path : str) : M unit :=
  ws ← gets workspaces;
  lift (write_workspaces storage_path (hash_iter ws).*2).

Definition insert_entry (entry : WorkspaceEntry) (s : State) : State :=
  set_entries (<[entry_id entry := entry]> (workspaces s)) s.
Definition remove_entry (id : str) (s : State) : State := set_entries (delete id (workspaces s)) s.

(** The end of every operation that adds a main workspace: it is stored, or
    taken back with the process that was started for it. *)
Definition commit_workspace (storage_path : str) (entry : WorkspaceEntry) (session : nat)
    (spawned_new_session : bool) (cleanup : M unit) : M WorkspaceInfo :=
  stored ← attempt (_ ← modify (insert_entry entry); persist storage_path);
  match stored with
  | Err error =>
      _ ← modify (remove_entry (entry_id entry));
      _ ← (if spawned_new_session then modify (kill_process session) else mret tt);
      _ ← cleanup;
      throw error
  | Ok _ =>
      _ ← modify (register_session session (entry_id entry) (Some (entry_path entry)));
      _ ← modify (insert_session (entry_id entry) session);
      mret (workspace_info entry true)
  end.

Definition main_entry (id name path : str) (settings : WorkspaceSettings) : WorkspaceEntry :=
  MkWorkspaceEntry id name path Main None None settings.

Definition ignore_remove_dir_all (path : str) : M unit := ignore (lift (remove_dir_all path)).
End pieces.

(** ** Names of cloned repositories *)

Definition default_repo_name_from_url (url : str) : option str :=
  let trimmed := trim_end_matches (N.eqb ch_slash) (trim url) in
  tail ← trim <$> last (split_on ch_slash trimmed);
  if is_empty tail then None
  else
    let without_git_suffix := unwrap_or tail (strip_suffix ".git" tail) in
    if is_empty without_git_suffix then None else Some without_git_suffix.

Definition folder_name_required : str := "Target folder name is required.".
Definition folder_name_invalid : str :=
  "Target folder name must be a single relative folder name without separators or traversal.".

Definition validate_target_folder_name (v : str) : result str str :=
  let trimmed := trim v in
  if is_empty trimmed then Err folder_name_required
  else if contains_char ch_slash trimmed || contains_char ch_backslash trimmed then Err folder_name_invalid
  else match components trimmed with
       | [Normal _] => Ok trimmed
       | _ => Err folder_name_invalid
       end.

(** ** Operations *)

Section crud.
Context `{Host, HashOrder, Serde}.
Context (spawn_session : WorkspaceEntry → option str → option str → option str → W WorkspaceSession).
Context (storage_path : str).

Definition add_workspace_core (path : str) : M WorkspaceInfo :=
  normalized_path ← gets (λ s, normalize_workspace_path_input (world s) path);
  dir ← gets (λ s, is_dir (world s) normalized_path);
  _ ← guard_err dir "Workspace path must be a folder.";
  let path := workspace_path_to_string normalized_path in
  let name := unwrap_or ("Workspace" : str) (file_name path) in
  id ← uuid;
  let entry := main_entry id name path WorkspaceSettings_default in
  '(session, spawned_new_session) ← shared_or_spawned spawn_session entry None;
  commit_workspace storage_path entry session spawned_new_session (mret tt).

Definition inherited_group_id (ws : gmap str WorkspaceEntry) (source : WorkspaceEntry) : option str :=
  if is_worktree (entry_kind source)
  then parent_id ← entry_parent_id source; parent ← ws !! parent_id; ws_group_id (entry_settings parent)
  else ws_group_id (entry_settings source).

Definition clone_source (source : WorkspaceEntry) : option str :=
  or_else (ws_clone_source_workspace_id (entry_settings source))
    (if is_worktree (entry_kind source) then entry_parent_id source else Some (entry_id source)).

Definition clone_settings (ws : gmap str WorkspaceEntry) (source : WorkspaceEntry) : WorkspaceSettings :=
  MkWorkspaceSettings false None (inherited_group_id ws source) (clone_source source) None None None None None.

(** [git clone]; a failed one leaves nothing behind. *)
Definition git_clone (cwd source destination : str) : M unit :=
  cloned ← attempt (run_git cwd ["clone" : str; source; destination]);
  match cloned with
  | Ok _ => mret tt
  | Err error => _ ← ignore_remove_dir_all destination; throw error
  end.

Definition copy_origin (source destination : str) : M unit :=
  origin ← lift (λ w, let '(w', o) := git_get_origin_url source w in (w', Ok o));
  match origin with
  | Some origin_url =>
      ignore (run_git destination ["remote" : str; "set-url" : str; "origin" : str; origin_url])
  | None => mret tt
  end.

(** Getting a session for a clone: its directory goes when that fails. *)
Definition session_for_clone (entry : WorkspaceEntry) (destination : str) : M (nat * bool) :=
  acquired ← attempt (shared_or_spawned spawn_session entry None);
  match acquired with
  | Ok r => mret r
  | Err error => _ ← ignore_remove_dir_all destination; throw error
  end.

Definition create_copies_folder (copies_folder : str) : M unit :=
  lift (W_map_err (λ e, lit "Failed to create copies folder: " ++ e) (create_dir_all copies_folder)).

Definition add_clone_core (source_workspace_id copy_name copies_folder : str) : M WorkspaceInfo :=
  let copy_name := trim copy_name in
  _ ← guard_err (negb (is_empty copy_name)) "Copy name is required.";
  let copies_folder := trim copies_folder in
  _ ← guard_err (negb (is_empty copies_folder)) "Copies folder is required.";
  _ ← create_copies_folder copies_folder;
  dir ← gets (λ s, is_dir (world s) copies_folder);
  _ ← guard_err dir "Copies folder must be a directory.";
  ws ← gets workspaces;
  source_entry ← of_option ("source workspace not found" : str) (ws !! source_workspace_id);
  destination_path ← gets (λ s, build_clone_destination_path (path_exists (world s)) copies_folder copy_name);
  _ ← git_clone copies_folder (entry_path source_entry) destination_path;
  _ ← copy_origin (entry_path source_entry) destination_path;
  id ← uuid;
  let entry := main_entry id copy_name (workspace_path_to_string destination_path)
                 (clone_settings ws source_entry) in
  '(session, spawned_new_session) ← session_for_clone entry destination_path;
  commit_workspace storage_path entry session spawned_new_session (ignore_remove_dir_all destination_path).

(** An existing destination must be an empty directory. *)
Definition check_destination (clone_path : str) : M unit :=
  exists_ ← gets (λ s, path_exists (world s) clone_path);
  if exists_ : bool then
    empty ← of_result (λ s, map_err (λ err, lit "Failed to inspect destination path: " ++ err)
                        (read_dir_is_empty (world s) clone_path));
    guard_err empty "Destination path already exists and is not empty."
  else mret tt.

Definition requested_folder_name (url : str) (target_folder_name : option str) : option str :=
  or_else (opt_filter (λ v, negb (is_empty v)) (trim <$> target_folder_name)) (default_repo_name_from_url url).

Definition add_workspace_from_git_url_core (url destination_path : str) (target_folder_name : option str)
    : M WorkspaceInfo :=
  let url := trim url in
  _ ← guard_err (negb (is_empty url)) "Remote Git URL is required.";
  let destination_parent := trim destination_path in
  _ ← guard_err (negb (is_empty destination_parent)) "Destination folder is required.";
  dir ← gets (λ s, is_dir (world s) destination_parent);
  _ ← guard_err dir "Destination folder must be an existing directory.";
  folder_name ← of_option ("Could not determine target folder name from URL." : str)
                  (requested_folder_name url target_folder_name);
  folder_name ← of_result (λ _, validate_target_folder_name folder_name);
  let clone_path := path_join destination_parent folder_name in
  _ ← check_destination clone_path;
  _ ← git_clone destination_parent url clone_path;
  id ← uuid;
  let entry := main_entry id (unwrap_or ("Workspace" : str) (file_name clone_path))
                 (workspace_path_to_string clone_path) WorkspaceSettings_default in
  '(session, spawned_new_session) ← session_for_clone entry clone_path;
  commit_workspace storage_path entry session spawned_new_session (ignore_remove_dir_all clone_path).

(** The closure the callers give for a worktree's directory. *)
Definition remove_worktree_folder (path : str) : M unit :=
  lift (W_map_err (λ err, lit "Failed to remove worktree folder: " ++ err) (remove_dir_all path)).

Definition remove_folder_if_exists (path : str) : M unit :=
  exists_ ← gets (λ s, path_exists (world s) path);
  if exists_ : bool then remove_worktree_folder path else mret tt.

Definition worktree_remove_args (path : str) : list str := ["worktree" : str; "remove" : str; "--force" : str; path].
Definition worktree_prune_args : list str := ["worktree" : str; "prune" : str; "--expire" : str; "now" : str].

(** The directory of a worktree goes: by git when the repository is there. *)
Definition remove_worktree_directory (repo_path : str) (repo_path_exists : bool) (path : str) : M unit :=
  exists_ ← gets (λ s, path_exists (world s) path);
  if negb exists_ then mret tt
  else if negb repo_path_exists then remove_worktree_folder path
  else
    removed ← attempt (run_git repo_path (worktree_remove_args path));
    match removed with
    | Ok _ => mret tt
    | Err error => if is_missing_worktree_error error then remove_folder_if_exists path else throw error
    end.

(** The loop over the worktrees: the ids that went, and those that failed. *)
Fixpoint remove_children (repo_path : str) (repo_path_exists continue_on_child_error : bool)
    (child_worktrees : list WorkspaceEntry) (removed_child_ids : list str) (failures : list (str * str))
    : M (list str * list (str * str)) :=
  match child_worktrees with
  | [] => mret (removed_child_ids, failures)
  | child :: rest =>
      _ ← modify (kill_session_by_id (entry_id child));
      removed ← attempt (remove_worktree_directory repo_path repo_path_exists (entry_path child));
      match removed with
      | Ok _ => remove_children repo_path repo_path_exists continue_on_child_error rest
                  (removed_child_ids ++ [entry_id child]) failures
      | Err error =>
          if continue_on_child_error
          then remove_children repo_path repo_path_exists continue_on_child_error rest removed_child_ids
                 (failures ++ [(entry_id child, error)])
          else throw error
      end
  end.

Definition children_of (id : str) (ws : gmap str WorkspaceEntry) : list WorkspaceEntry :=
  filter (λ e, entry_parent_id e = Some id) (hash_iter ws).*2.

Definition remove_entries (ids : list str) (s : State) : State :=
  set_entries (foldl (λ m id, delete id m) (workspaces s) ids) s.

Definition removal_failed_message (failures : list (str * str)) : str :=
  foldl (λ message f, message ++ [ch_nl] ++ lit "- " ++ f.1 ++ lit ": " ++ f.2)
    (lit "Failed to remove one or more worktrees; parent workspace was not removed.") failures.

Definition remove_workspace_core (id : str)
    (require_all_children_removed_to_remove_parent continue_on_child_error : bool) : M unit :=
  ws ← gets workspaces;
  entry ← of_option workspace_not_found (ws !! id);
  _ ← guard_err (negb (is_worktree (entry_kind entry))) "Use remove_worktree for worktree agents.";
  let repo_path := entry_path entry in
  repo_path_exists ← gets (λ s, is_dir (world s) repo_path);
  '(removed_child_ids, failures) ←
    remove_children repo_path repo_path_exists continue_on_child_error (children_of id ws) [] [];
  _ ← (if repo_path_exists : bool then ignore (run_git repo_path worktree_prune_args) else mret tt);
  let remove_parent := is_empty failures || negb require_all_children_removed_to_remove_parent in
  _ ← (if remove_parent then modify (kill_session_by_id id) else mret tt);
  _ ← modify (remove_entries (removed_child_ids ++ if remove_parent then [id] else []));
  _ ← persist storage_path;
  if is_empty failures then mret tt
  else if require_all_children_removed_to_remove_parent then throw (removal_failed_message failures)
  else mret tt.

(** *** Settings *)

(** [workspaces/settings.rs]. *)
Definition set_entry_settings (e : WorkspaceEntry) (settings : WorkspaceSettings) : WorkspaceEntry :=
  MkWorkspaceEntry (entry_id e) (entry_name e) (entry_path e) (entry_kind e) (entry_parent_id e)
    (entry_worktree e) settings.
Definition apply_workspace_settings_update (id : str) (settings : WorkspaceSettings) : M WorkspaceEntry :=
  ws ← gets workspaces;
  entry ← of_option workspace_not_found (ws !! id);
  let entry := set_entry_settings entry settings in
  _ ← modify (set_entries (<[id := entry]> ws));
  mret entry.

Definition set_setup_script (script : option str) (s : WorkspaceSettings) : WorkspaceSettings :=
  MkWorkspaceSettings (ws_sidebar_collapsed s) (ws_sort_order s) (ws_group_id s)
    (ws_clone_source_workspace_id s) (ws_git_root s) (ws_launch_script s) (ws_launch_scripts s)
    script (ws_worktrees_folder s).

(** [workspaces.get_mut(&child_id)]. *)
Definition set_child_script (script : option str) (s : State) (child_id : str) : State :=
  set_entries (alter (λ e, set_entry_settings e (set_setup_script script (entry_settings e))) child_id
                 (workspaces s)) s.

Definition normalize_updated_settings (settings : WorkspaceSettings) : WorkspaceSettings :=
  let settings := set_setup_script (normalize_setup_script (ws_worktree_setup_script settings)) settings in
  set_worktrees_folder settings (normalize_windows_namespace_path <$> ws_worktrees_folder settings).

Definition update_workspace_settings_core (id : str) (settings : WorkspaceSettings) : M WorkspaceInfo :=
  let settings := normalize_updated_settings settings in
  ws ← gets workspaces;
  previous_entry ← of_option workspace_not_found (ws !! id);
  let previous_worktree_setup_script := ws_worktree_setup_script (entry_settings previous_entry) in
  entry_snapshot ← apply_workspace_settings_update id settings;
  child_entries ← gets (λ s, children_of id (workspaces s));
  let script := ws_worktree_setup_script (entry_settings entry_snapshot) in
  connected ← gets (λ s, is_some_b (sessions s !! id));
  _ ← (if negb (bool_decide (previous_worktree_setup_script = script))
          && negb (is_worktree (entry_kind entry_snapshot))
       then modify (λ s, foldl (set_child_script script) s (map entry_id child_entries))
       else mret tt);
  _ ← persist storage_path;
  mret (workspace_info entry_snapshot connected).
End crud.

(** ** Lemmas *)

Section crud_lemmas.
Context `{Host, HashOrder, Serde}.
Context (storage_path : str).

(** The file of the workspaces was last written with the map in memory. *)
Definition stored (s : State) : Prop :=
  ∃ w, write_workspaces storage_path (hash_iter (workspaces s)).*2 w = (world s, Ok tt).

Lemma wp_persist (Q : State → result str unit → Prop) s :
  (∀ w, stored (set_world w s) → Q (set_world w s) (Ok tt)) →
  (∀ w e, Q (set_world w s) (Err e)) → wp (persist storage_path) Q s.
Proof.
  intros Hok Herr. apply wp_bind, wp_gets, wp_lift. intros w [[]|e] Hw; [|apply Herr].
  apply Hok. exists (world s). done.
Qed.

Lemma wp_ignore_remove_dir_all path Q s :
  (∀ w, Q (set_world w s) (Ok tt)) → wp (ignore_remove_dir_all path) Q s.
Proof. intros HQ. apply wp_ignore, wp_lift. intros w r _. apply HQ. Qed.

(** A cleanup reaches the machine only. *)
Definition outside_only (m : M unit) : Prop := ∀ s, ∃ w, m s = (set_world w s, Ok tt).

Lemma outside_ret : outside_only (mret tt).
Proof. intros s. exists (world s). by destruct s. Qed.

Lemma outside_remove_dir path : outside_only (ignore_remove_dir_all path).
Proof.
  intros s. unfold ignore_remove_dir_all, ignore, lift.
  destruct (remove_dir_all path (world s)) as [w r]. by exists w.
Qed.

(** How the operations that add a main workspace end. *)
Definition add_post (s s' : State) (r : result str WorkspaceInfo) : Prop :=
  sessions_kept s s' ∧
  match r with
  | Ok info => ∃ e, workspaces s !! entry_id e = None ∧ entry_kind e = Main ∧ entry_parent_id e = None
      ∧ info = workspace_info e true ∧ workspaces s' = <[entry_id e := e]> (workspaces s) ∧ stored s'
      ∧ (∃ l, sessions s' !! entry_id e = Some l ∧ live s' l)
      ∧ ∀ id l, sessions s' !! id = Some l → id = entry_id e ∨ is_Some (sessions s !! id)
  | Err _ => workspaces s' = workspaces s ∧ sessions s' ⊆ sessions s
  end.

Lemma add_post_error s s' e :
  workspaces s' = workspaces s → sessions s' = sessions s → processes s' = processes s →
  next_process s' = next_process s → add_post s s' (Err e).
Proof. intros Hw Hs Hp Hn. split; [by apply sessions_kept_same|]. by rewrite Hs. Qed.

(** Nothing but the machine and the list of git commands changes. *)
Definition outside (s s' : State) : Prop :=
  workspaces s' = workspaces s ∧ sessions s' = sessions s ∧ processes s' = processes s
  ∧ next_process s' = next_process s ∧ app_settings s' = app_settings s.

Lemma outside_refl s : outside s s.
Proof. done. Qed.
Lemma outside_world s s' w : outside s s' → outside s (set_world w s').
Proof. done. Qed.
Lemma outside_log s s' c : outside s s' → outside s (log_git c s').
Proof. done. Qed.
Lemma outside_trans s1 s2 s3 : outside s1 s2 → outside s2 s3 → outside s1 s3.
Proof. intros (?&?&?&?&?) (?&?&?&?&?). split_and!; congruence. Qed.

Lemma outside_kept s s' : outside s s' → sessions_kept s s'.
Proof. intros (?&?&?&?&?). by apply sessions_kept_same. Qed.

Lemma outside_add_error s s' e : outside s s' → add_post s s' (Err e).
Proof. intros (?&?&?&?&?). by apply add_post_error. Qed.

Lemma outside_add_post s s0 s' r : outside s s0 → add_post s0 s' r → add_post s s' r.
Proof.
  intros Ho [Hk Hr]. split; [eapply sessions_kept_trans; [by apply outside_kept|exact Hk]|].
  destruct Ho as (Hw & Hs & _). destruct r; by rewrite -?Hw -?Hs.
Qed.

Lemma not_ready_add_post s s' e : not_ready s s' → add_post s s' (Err e).
Proof. intros Hn. split; [by apply not_ready_kept|]. by destruct Hn. Qed.

Lemma kill_new_kept s s' l spawned :
  ready s s' l spawned → sessions_kept s (if spawned then kill_process l s' else s').
Proof.
  intros Hr. split.
  - intros Hs. destruct (ready_ok _ _ _ _ Hr Hs) as [[Hsh Hreg Hb] _]. destruct spawned; [|by split].
    destruct (ready_spawned _ _ _ _ Hr) as (Hnone & _). split; simpl; rewrite ?Hnone.
    + intros *; by rewrite lookup_empty.
    + intros *; by rewrite lookup_empty.
    + intros l' p. rewrite lookup_alter. case_decide; [|by eauto]. subst.
      intros (p0 & Hp0 & _)%fmap_Some. eauto.
  - intros L Hs Hno. pose proof (ready_orphans _ _ _ _ Hr L Hno) as Hor.
    pose proof (ready_spawned _ _ _ _ Hr) as Hsp. destruct spawned.
    + intros l' [Hl Hne]%kill_process_live. destruct (Hor _ Hl) as [|[|]]; [done| |by right].
      left. by eapply held_unchanged.
    + intros l' Hl. destruct (Hor _ Hl) as [->|]; [left; by destruct Hsp|done].
Qed.

Lemma wp_commit_workspace s s1 e l spawned cleanup :
  ready s s1 l spawned → workspaces s !! entry_id e = None → entry_kind e = Main → entry_parent_id e = None →
  outside_only cleanup →
  wp (commit_workspace storage_path e l spawned cleanup) (add_post s) s1.
Proof.
  intros Hr Hfresh Hmain Hpar Hout.
  pose proof (ready_entries _ _ _ _ Hr) as Hw. unfold commit_workspace.
  wp_run. apply wp_persist.
  - intros w Hst. wp_run. split; [|exists e; split_and!; try done].
    + pose proof (attach_ready_kept _ _ _ _ (entry_id e) (Some (entry_path e)) Hr) as Hk.
      eapply sessions_kept_trans; [exact Hk|]. by apply sessions_kept_same.
    + simpl. by rewrite Hw.
    + exists l. simpl. rewrite lookup_insert_eq. split; [done|].
      apply (live_attach s1 l (entry_id e) (Some (entry_path e))). apply (ready_live _ _ _ _ Hr).
    + simpl. intros id l' [[<- _]|[_ Hl]]%lookup_insert_Some; [by left|right].
      exists l'. eapply lookup_weaken; [exact Hl|apply (ready_sub _ _ _ _ Hr)].
  - intros w err. cbv iota.
    assert (delete (entry_id e) (<[entry_id e:=e]> (workspaces s1)) = workspaces s) as Hd.
    { rewrite delete_insert_id; [by rewrite Hw|done]. }
    pose proof (kill_new_kept _ _ _ _ Hr) as Hk. pose proof (ready_sub _ _ _ _ Hr) as Hsub.
    destruct spawned; (apply wp_bind, wp_modify; cbv iota; wp_run; unfold wp;
      edestruct Hout as [w' ->]; simpl; split; [|by split];
      eapply sessions_kept_trans; [exact Hk|by apply sessions_kept_same]).
Qed.

(** *** Computations that leave the workspaces and sessions alone *)

Definition outside_m {A} (m : M A) : Prop := ∀ s, outside s (m s).1.

Lemma wp_outside {A} (m : M A) (Q : State → result str A → Prop) s s0 :
  outside_m m → outside s s0 → (∀ s' r, outside s s' → Q s' r) → wp m Q s0.
Proof. intros Hm Hs HQ. apply HQ. eapply outside_trans; [exact Hs|apply Hm]. Qed.

Lemma outside_m_ret {A} (a : A) : outside_m (mret a).
Proof. intros s. apply outside_refl. Qed.
Lemma outside_m_throw {A} e : outside_m (A := A) (throw e).
Proof. intros s. apply outside_refl. Qed.
Lemma outside_m_gets {A} (f : State → A) : outside_m (gets f).
Proof. intros s. apply outside_refl. Qed.
Lemma outside_m_of_option {A} e (o : option A) : outside_m (of_option e o).
Proof. intros s. apply outside_refl. Qed.
Lemma outside_m_guard b e : outside_m (guard_err b e).
Proof. intros s. destruct b; apply outside_refl. Qed.
Lemma outside_m_result {A} (f : State → result str A) : outside_m (of_result f).
Proof. intros s. apply outside_refl. Qed.
Lemma outside_m_lift {A} (m : W A) : outside_m (lift m).
Proof. intros s. unfold lift. by destruct (m (world s)). Qed.
Lemma outside_m_bind {A B} (m : M A) (f : A → M B) :
  outside_m m → (∀ a, outside_m (f a)) → outside_m (m ≫= f).
Proof.
  intros Hm Hf s. unfold mbind, M_bind. specialize (Hm s). destruct (m s) as [s' [a|e]]; [|done].
  eapply outside_trans; [exact Hm|apply Hf].
Qed.
Lemma outside_m_attempt {A} (m : M A) : outside_m m → outside_m (attempt m).
Proof. intros Hm s. specialize (Hm s). unfold attempt. by destruct (m s). Qed.
Lemma outside_m_ignore {A} (m : M A) : outside_m m → outside_m (ignore m).
Proof. intros Hm s. apply Hm. Qed.
Lemma outside_m_run_git repo args : outside_m (run_git repo args).
Proof. apply outside_m_bind; [intros s; by apply outside_log|]. intros _. apply outside_m_lift. Qed.
Lemma outside_m_if {A} (b : bool) (m1 m2 : M A) : outside_m m1 → outside_m m2 → outside_m (if b then m1 else m2).
Proof. by destruct b. Qed.
Lemma outside_m_uuid : outside_m uuid.
Proof. intros s. unfold uuid. by destruct (new_uuid (world s)). Qed.

End crud_lemmas.

Ltac outside_step :=
  lazymatch goal with
  | |- outside_m (run_git _ _) => apply outside_m_run_git
  | |- outside_m (lift _) => apply outside_m_lift
  | |- outside_m (gets _) => apply outside_m_gets
  | |- outside_m (throw _) => apply outside_m_throw
  | |- outside_m (mret _) => apply outside_m_ret
  | |- outside_m (guard_err _ _) => apply outside_m_guard
  | |- outside_m (attempt _) => apply outside_m_attempt
  | |- outside_m (ignore _) => apply outside_m_ignore
  | |- outside_m (_ ≫= _) => apply outside_m_bind; [|intros ?]
  | |- outside_m (of_result _) => apply outside_m_result
  | |- outside_m (if _ then _ else _) => apply outside_m_if
  | |- outside_m (match ?x with Ok _ => _ | Err _ => _ end) => destruct x
  | |- outside_m (match ?x with Some _ => _ | None => _ end) => destruct x
  end.
Ltac outside_steps := repeat outside_step.

Section add_lemmas.
Context `{Host, HashOrder, Serde}.
Context (spawn_session : WorkspaceEntry → option str → option str → option str → W WorkspaceSession).
Context (storage_path : str).

Lemma git_clone_outside cwd source destination : outside_m (git_clone cwd source destination).
Proof.
  unfold git_clone, ignore_remove_dir_all. outside_steps.
Qed.
Lemma copy_origin_outside source destination : outside_m (copy_origin source destination).
Proof. unfold copy_origin. outside_steps. Qed.
Lemma check_destination_outside path : outside_m (check_destination path).
Proof. unfold check_destination. outside_steps. Qed.

(** The common end: a fresh entry, a session for it, and the commit. *)
Definition uuid_fresh (s : State) : Prop :=
  ∀ w w' id, new_uuid w = (w', id) → workspaces s !! id = None.

Lemma wp_session_for_clone entry destination Q s :
  (∀ s' l spawned, ready s s' l spawned → Q s' (Ok (l, spawned))) →
  (∀ s' e w, not_ready s s' → Q (set_world w s') (Err e)) →
  wp (session_for_clone spawn_session entry destination) Q s.
Proof.
  intros Hok Herr. apply wp_bind, wp_attempt, wp_shared_or_spawned.
  - intros s' l spawned Hr. wp_run. by apply Hok.
  - intros s' e Hn. cbv iota. apply wp_bind, wp_ignore_remove_dir_all. intros w. wp_run. by apply Herr.
Qed.

Lemma not_ready_world s s' w : not_ready s s' → not_ready s (set_world w s').
Proof. intros []. split; try done. intros Hs. apply set_world_ok. auto. Qed.

Lemma wp_add_tail s s0 (mk : str → WorkspaceEntry) (acquire : WorkspaceEntry → M (nat * bool)) cleanup :
  outside s s0 → uuid_fresh s →
  (∀ id, entry_id (mk id) = id ∧ entry_kind (mk id) = Main ∧ entry_parent_id (mk id) = None) →
  (∀ e Q s, (∀ s' l spawned, ready s s' l spawned → Q s' (Ok (l, spawned))) →
            (∀ s' e, not_ready s s' → Q s' (Err e)) → wp (acquire e) Q s) →
  outside_only cleanup →
  wp (id ← uuid; '(session, spawned) ← acquire (mk id);
      commit_workspace storage_path (mk id) session spawned cleanup) (add_post storage_path s) s0.
Proof.
  intros Ho Hfresh Hmk Hacq Hclean. wp_run.
  match goal with Hu : new_uuid _ = (?w, ?i) |- _ => rename w into w1, i into id end.
  assert (outside s (set_world w1 s0)) as Ho1 by done.
  destruct (Hmk id) as (Hid & Hkind & Hpar).
  apply Hacq.
  - intros s' l spawned Hr. eapply wp_mono.
    + eapply wp_commit_workspace; [exact Hr| |done..|exact Hclean].
      rewrite Hid. destruct Ho1 as [-> _]. by eapply Hfresh.
    + intros s2 r Hp. by eapply outside_add_post.
  - intros s' e Hn. eapply outside_add_post; [exact Ho1|]. by apply not_ready_add_post.
Qed.

Ltac skip_outside lem :=
  apply wp_bind; eapply wp_outside; [apply lem|eassumption|];
  let r := fresh "r" in intros ? r ?; destruct r; [|by apply outside_add_error].

Lemma add_workspace_core_post path s :
  uuid_fresh s → wp (add_workspace_core spawn_session storage_path path) (add_post storage_path s) s.
Proof.
  intros Hf. pose proof (outside_refl s) as Ho. unfold add_workspace_core.
  skip_outside @outside_m_gets. skip_outside @outside_m_gets. skip_outside @outside_m_guard.
  cbv zeta. eapply (wp_add_tail s _ (λ id, main_entry id _ _ WorkspaceSettings_default)
    (λ e, shared_or_spawned spawn_session e None)); try done; [|apply outside_ret].
  intros. by apply wp_shared_or_spawned.
Qed.

Lemma wp_session_for_clone' entry destination Q s :
  (∀ s' l spawned, ready s s' l spawned → Q s' (Ok (l, spawned))) →
  (∀ s' e, not_ready s s' → Q s' (Err e)) →
  wp (session_for_clone spawn_session entry destination) Q s.
Proof. intros Hok Herr. apply wp_session_for_clone; [done|]. intros. by apply Herr, not_ready_world. Qed.

Lemma add_clone_core_post source copy_name copies_folder s :
  uuid_fresh s → wp (add_clone_core spawn_session storage_path source copy_name copies_folder) (add_post storage_path s) s.
Proof.
  intros Hf. pose proof (outside_refl s) as Ho. unfold add_clone_core. cbv zeta.
  skip_outside @outside_m_guard. skip_outside @outside_m_guard. skip_outside @outside_m_lift.
  skip_outside @outside_m_gets. skip_outside @outside_m_guard. skip_outside @outside_m_gets.
  skip_outside @outside_m_of_option. skip_outside @outside_m_gets.
  skip_outside git_clone_outside. skip_outside copy_origin_outside.
  eapply (wp_add_tail s _ (λ id, main_entry id _ _ (clone_settings _ _))
    (λ e, session_for_clone spawn_session e _)); try done; [|apply outside_remove_dir].
  intros. by apply wp_session_for_clone'.
Qed.

Lemma add_workspace_from_git_url_core_post url destination folder s :
  uuid_fresh s →
  wp (add_workspace_from_git_url_core spawn_session storage_path url destination folder) (add_post storage_path s) s.
Proof.
  intros Hf. pose proof (outside_refl s) as Ho. unfold add_workspace_from_git_url_core. cbv zeta.
  skip_outside @outside_m_guard. skip_outside @outside_m_guard. skip_outside @outside_m_gets.
  skip_outside @outside_m_guard. skip_outside @outside_m_of_option. skip_outside @outside_m_result.
  skip_outside check_destination_outside. skip_outside git_clone_outside.
  eapply (wp_add_tail s _ (λ id, main_entry id _ _ WorkspaceSettings_default)
    (λ e, session_for_clone spawn_session e _)); try done; [|apply outside_remove_dir].
  intros. by apply wp_session_for_clone'.
Qed.

End add_lemmas.

(** *** Removal *)

Section removal_lemmas.
Context `{Host, HashOrder, Serde}.
Context (storage_path : str).

Lemma remove_worktree_directory_outside repo ex path : outside_m (remove_worktree_directory repo ex path).
Proof. unfold remove_worktree_directory, remove_folder_if_exists, remove_worktree_folder. outside_steps. Qed.

Lemma kill_session_kept id s : sessions_kept s (kill_session_by_id id s).
Proof. split; [apply kill_session_ok|intros L _; apply kill_session_orphans]. Qed.

(** What the loop over the worktrees has done so far. *)
Record shrunk (s s' : State) (gone : list str) : Prop := {
  shrunk_kept : sessions_kept s s';
  shrunk_entries : workspaces s' = workspaces s;
  shrunk_settings : app_settings s' = app_settings s;
  shrunk_sessions : ∀ id l, sessions s' !! id = Some l → sessions s !! id = Some l ∧ id ∉ gone
}.

Lemma shrunk_refl s : shrunk s s [].
Proof. split; try done. intros id l Hl. split; [done|apply not_elem_of_nil]. Qed.

Lemma shrunk_kill s s' gone id :
  shrunk s s' gone → shrunk s (kill_session_by_id id s') (id :: gone).
Proof.
  intros [Hk Hw Ha Hs]. destruct (kill_session_frame id s') as (Hw' & _ & Hs' & _ & Ha').
  split; [|congruence..|].
  - eapply sessions_kept_trans; [exact Hk|apply kill_session_kept].
  - rewrite Hs'. intros id' l [Hne Hl]%lookup_delete_Some. destruct (Hs _ _ Hl).
    split; [done|]. by apply not_elem_of_cons.
Qed.

Lemma shrunk_outside s s1 s2 gone : shrunk s s1 gone → outside s1 s2 → shrunk s s2 gone.
Proof.
  intros [Hk Hw Ha Hs] Ho. pose proof (outside_kept _ _ Ho) as Hk2. destruct Ho as (Hw2 & Hs2 & _ & _ & Ha2).
  split; [by eapply sessions_kept_trans|congruence..|]. by rewrite Hs2.
Qed.

Lemma shrunk_weaken s s' g1 g2 : shrunk s s' g1 → (∀ x, x ∈ g2 → x ∈ g1) → shrunk s s' g2.
Proof. intros [] Hsub. split; try done. intros id l Hl. naive_solver. Qed.

(** How the loop ends. *)
Lemma wp_remove_children s s0 gone0 repo ex cont kids removed failures :
  shrunk s s0 gone0 →
  wp (remove_children repo ex cont kids removed failures)
     (λ s' r, match r with
              | Ok (removed', failures') => ∃ gone failed, removed' = removed ++ gone ∧ failures' = failures ++ failed
                  ∧ map entry_id kids ≡ₚ gone ++ failed.*1
                  ∧ shrunk s s' (gone0 ++ map entry_id kids) ∧ (cont = false → failed = [])
              | Err _ => cont = false ∧ shrunk s s' []
              end) s0.
Proof.
  revert s0 gone0 removed failures. induction kids as [|k kids IH]; intros s0 gone0 removed failures Hs; simpl.
  - wp_run. exists [], []. rewrite !app_nil_r. done.
  - wp_run. pose proof (shrunk_kill _ _ _ (entry_id k) Hs) as Hk.
    eapply (wp_outside _ _ (kill_session_by_id (entry_id k) s0));
      [apply remove_worktree_directory_outside|apply outside_refl|].
    intros s1 r Ho. pose proof (shrunk_outside _ _ _ _ Hk Ho) as Hs1. cbv beta iota. destruct r as [u|e].
    + eapply wp_mono; [by apply IH|]. intros s2 [[removed' failures']|e]; [|done].
      intros (gone & failed & -> & -> & Hp & Hsh & Hc). exists (entry_id k :: gone), failed.
      rewrite -!app_assoc /=. split_and!; try done; [by rewrite Hp|].
      eapply shrunk_weaken; [exact Hsh|]. set_solver.
    + destruct cont.
      * eapply wp_mono; [by apply IH|]. intros s2 [[removed' failures']|e']; [|done].
        intros (gone & failed & -> & -> & Hp & Hsh & Hc). exists gone, ((entry_id k, e) :: failed).
        rewrite -!app_assoc /=. split_and!; try done; [by rewrite Hp Permutation_middle|].
        eapply shrunk_weaken; [exact Hsh|]. set_solver.
      * wp_run. split; [done|]. eapply shrunk_weaken; [exact Hs1|]. set_solver.
Qed.

Lemma lookup_remove_all ids (m : gmap str WorkspaceEntry) k :
  foldl (λ m id, delete id m) m ids !! k = if decide (k ∈ ids) then None else m !! k.
Proof.
  revert m. induction ids as [|i ids IH]; intros m; cbn [foldl].
  - case_decide as Hin; [by apply elem_of_nil in Hin|done].
  - rewrite IH. repeat case_decide; try done; try set_solver.
    + assert (k = i) as -> by set_solver. apply lookup_delete_eq.
    + rewrite lookup_delete_ne //. set_solver.
Qed.

Lemma elem_of_children id ws e :
  keyed ws → e ∈ children_of id ws ↔ ws !! entry_id e = Some e ∧ entry_parent_id e = Some id.
Proof.
  intros Hk. unfold children_of. rewrite list_elem_of_filter list_elem_of_fmap. split.
  - intros [Hp ([k e'] & -> & Hin%elem_of_hash_iter)]. simpl in *. by rewrite (Hk _ _ Hin).
  - intros [He Hp]. split; [done|]. exists (entry_id e, e). by rewrite elem_of_hash_iter.
Qed.

(** The entries left when a workspace goes with its worktrees. *)
Definition without (id : str) (ws : gmap str WorkspaceEntry) : gmap str WorkspaceEntry :=
  filter (λ kv, kv.1 ≠ id ∧ entry_parent_id kv.2 ≠ Some id) ws.

Lemma remove_all_children id ws ids :
  keyed ws → ids ≡ₚ map entry_id (children_of id ws) →
  foldl (λ m i, delete i m) ws (ids ++ [id]) = without id ws.
Proof.
  intros Hk Hids. apply map_eq. intros k. rewrite lookup_remove_all. unfold without.
  apply option_eq. intros e. rewrite map_lookup_filter_Some /=. case_decide as Hin.
  - split; [done|]. intros (He & Hne & Hp). apply elem_of_app in Hin as [Hin|Hin%list_elem_of_singleton]; [|done].
    rewrite Hids in Hin. apply list_elem_of_fmap in Hin as (e' & -> & Hc).
    apply elem_of_children in Hc as [He' Hp']; [|done]. simplify_eq.
  - split; [|naive_solver]. intros He. split_and!; [done|set_solver|]. intros Hp. apply Hin.
    apply elem_of_app. left. rewrite Hids. apply list_elem_of_fmap. exists e.
    split; [by rewrite (Hk _ _ He)|]. apply elem_of_children; [done|]. by rewrite (Hk _ _ He).
Qed.

(** How a removal ends: the entries that are gone have no session left, and
    the workspace itself goes only with all its worktrees. *)
Definition remove_post (id : str) (s s' : State) (r : result str unit) : Prop :=
  sessions_kept s s' ∧ app_settings s' = app_settings s ∧
  ∃ ids, workspaces s' = foldl (λ m i, delete i m) (workspaces s) ids
    ∧ (∀ i, i ∈ ids → i = id ∨ i ∈ map entry_id (children_of id (workspaces s)))
    ∧ (∀ i l, sessions s' !! i = Some l → sessions s !! i = Some l ∧ i ∉ ids)
    ∧ (id ∈ ids → workspaces s' = without id (workspaces s))
    ∧ match r with Ok _ => id ∈ ids ∧ stored storage_path s' | Err _ => True end.

Lemma remove_post_nothing id s s' e : shrunk s s' [] → remove_post id s s' (Err e).
Proof.
  intros [Hk Hw Ha Hs]. split_and!; [done..|]. exists []. simpl. split_and!; try done.
  - intros i Hi. by apply elem_of_nil in Hi.
  - by intros Hi%elem_of_nil.
Qed.

Lemma remove_ends id s s1 s2 (gone : list str) (failed : list (str * str)) :
  keyed (workspaces s) → id ∉ map entry_id (children_of id (workspaces s)) →
  map entry_id (children_of id (workspaces s)) ≡ₚ gone ++ failed.*1 →
  shrunk s s1 (map entry_id (children_of id (workspaces s))) →
  outside s1 s2 →
  wp (_ ← (if is_empty failed || negb true then modify (kill_session_by_id id) else mret tt);
      _ ← modify (remove_entries (gone ++ if is_empty failed || negb true then [id] else []));
      _ ← persist storage_path;
      if is_empty failed then mret tt else if true then throw (removal_failed_message failed) else mret tt)
     (remove_post id s) s2.
Proof.
  intros Hkeyed Hself Hp Hsh Ho. pose proof (shrunk_outside _ _ _ _ Hsh Ho) as Hs2.
  assert (∀ i, i ∈ gone → i ∈ map entry_id (children_of id (workspaces s))) as Hgone.
  { intros i Hi. rewrite Hp. by apply elem_of_app; left. }
  rewrite orb_false_r. destruct (is_empty failed) eqn:Hf.
  - apply is_empty_true in Hf. subst. rewrite app_nil_r in Hp.
    pose proof (shrunk_kill _ _ _ id Hs2) as [Hk Hw Ha Hs].
    assert (∀ w r, (match r with Ok _ => stored storage_path (set_world w
        (remove_entries (gone ++ [id]) (kill_session_by_id id s2))) | Err _ => True end) →
      remove_post id s (set_world w (remove_entries (gone ++ [id]) (kill_session_by_id id s2))) r) as Hpost.
    { intros w r Hst. split_and!; [eapply sessions_kept_trans; [exact Hk|by apply sessions_kept_same]|done|].
      exists (gone ++ [id]). simpl. rewrite Hw. split_and!; try done.
      - intros i [Hi|Hi%list_elem_of_singleton]%elem_of_app; [right; by apply Hgone|by left].
      - intros i l Hl. destruct (Hs _ _ Hl) as [Hl' Hn]. split; [done|].
        intros [Hi|Hi%list_elem_of_singleton]%elem_of_app; apply Hn; [right; by apply Hgone|subst; by left].
      - intros _. by apply remove_all_children.
      - destruct r; [|done]. split; [|done]. apply elem_of_app. right. by left. }
    wp_run. apply wp_persist; intros w; [intros Hst; wp_run; by apply (Hpost w (Ok tt))|].
    intros e. by apply (Hpost w (Err e)).
  - rewrite app_nil_r. wp_run. destruct Hs2 as [Hk Hw Ha Hs].
    assert (∀ w e, remove_post id s (set_world w (remove_entries gone s2)) (Err e)) as Hpost.
    { intros w e. split_and!; [eapply sessions_kept_trans; [exact Hk|by apply sessions_kept_same]|done|].
      exists gone. simpl. rewrite Hw. split_and!; try done; [by right; apply Hgone|..].
      - intros i l Hl. destruct (Hs _ _ Hl) as [Hl' Hn]. split; [done|]. naive_solver.
      - intros Hid. by destruct Hself; apply Hgone. }
    apply wp_persist; intros w; [intros Hst; wp_run; apply Hpost|]. intros e. apply Hpost.
Qed.

(** The shape of the forest: worktrees hang on main workspaces, which have no
    parent. *)
Record entries_ok (ws : gmap str WorkspaceEntry) : Prop := {
  entries_keyed : keyed ws;
  entries_main : ∀ k e, ws !! k = Some e → entry_kind e = Main → entry_parent_id e = None;
  entries_tree : ∀ k e, ws !! k = Some e → entry_kind e = Worktree →
    ∃ p pe, entry_parent_id e = Some p ∧ ws !! p = Some pe ∧ entry_kind pe = Main
}.

Lemma main_not_own_child id e ws :
  entries_ok ws → ws !! id = Some e → is_worktree (entry_kind e) = false →
  id ∉ map entry_id (children_of id ws).
Proof.
  intros Hok He Hm (e' & Heq & Hc)%list_elem_of_fmap.
  apply elem_of_children in Hc as [He' Hp]; [|apply Hok]. rewrite -Heq He in He'. injection He' as <-.
  rewrite (entries_main _ Hok _ _ He) in Hp; [by destruct (entry_kind e)|done].
Qed.

Lemma remove_workspace_core_post id cont s :
  entries_ok (workspaces s) → wp (remove_workspace_core storage_path id true cont) (remove_post id s) s.
Proof.
  intros Hok. unfold remove_workspace_core. wp_run; [|apply remove_post_nothing, shrunk_refl].
  match goal with He : workspaces s !! id = Some ?e |- _ => rename He into He0; rename e into entry0 end.
  apply (wp_mono _ (λ s' r, s' = s ∧ r = ok_or (lit "Use remove_worktree for worktree agents.")
            (if is_worktree (entry_kind entry0) then None else Some tt))).
  { by destruct (is_worktree (entry_kind entry0)). }
  intros s' r [-> ->]. destruct (is_worktree (entry_kind entry0)) eqn:Hm; simpl;
    [apply remove_post_nothing, shrunk_refl|].
  wp_run. eapply wp_mono; [apply (wp_remove_children s s []), shrunk_refl|].
  intros s1 [[removed failures]|e].
  - intros (gone & failed & -> & -> & Hp & Hsh & _). rewrite /= in Hsh.
    cbv beta iota. rewrite !app_nil_l.
    pose proof (main_not_own_child _ _ _ Hok He0 Hm) as Hself.
    apply wp_bind. eapply wp_outside; [|apply (outside_refl s1)|].
    { apply outside_m_if; [apply outside_m_ignore, outside_m_run_git|apply outside_m_ret]. }
    intros s2 r Ho.
    destruct r as [[]|e]; [by eapply remove_ends; [apply Hok|..]|].
    eapply remove_post_nothing, shrunk_outside; [|exact Ho]. eapply shrunk_weaken; [exact Hsh|].
    intros x Hx. by apply elem_of_nil in Hx.
  - intros [_ Hsh]. by apply remove_post_nothing.
Qed.

(** *** Settings *)

Definition with_script (script : option str) (e : WorkspaceEntry) : WorkspaceEntry :=
  set_entry_settings e (set_setup_script script (entry_settings e)).

Lemma with_script_idemp script e : with_script script (with_script script e) = with_script script e.
Proof. done. Qed.

Lemma lookup_child_scripts script ids s k :
  let s' := foldl (set_child_script script) s ids in
  workspaces s' !! k = (if decide (k ∈ ids) then with_script script <$> workspaces s !! k else workspaces s !! k)
  ∧ sessions s' = sessions s ∧ processes s' = processes s ∧ next_process s' = next_process s
  ∧ app_settings s' = app_settings s.
Proof.
  revert s. induction ids as [|i ids IH]; intros s; cbn [foldl]; cbv zeta.
  - split; [|done]. case_decide as Hin; [by apply elem_of_nil in Hin|done].
  - destruct (IH (set_child_script script s i)) as (-> & -> & -> & -> & ->). split; [|done].
    simpl. rewrite lookup_alter. fold (with_script script).
    destruct (decide (i = k)) as [->|Hne].
    + rewrite (decide_True _ _ (P := k ∈ k :: ids)); [by left|]. case_decide; [|done].
      destruct (workspaces s !! k); simpl; [by rewrite with_script_idemp|done].
    + repeat case_decide; try done; set_solver.
Qed.

(** The map after an update. *)
Definition updated_entry (id : str) (previous : WorkspaceEntry) (settings : WorkspaceSettings)
    (k : str) (e : WorkspaceEntry) : WorkspaceEntry :=
  let script := ws_worktree_setup_script settings in
  let e := if decide (k = id) then set_entry_settings e settings else e in
  if decide (entry_parent_id e = Some id ∧ is_worktree (entry_kind previous) = false
             ∧ ws_worktree_setup_script (entry_settings previous) ≠ script)
  then with_script script e else e.

Definition update_post (id : str) (settings : WorkspaceSettings) (s s' : State) (r : result str WorkspaceInfo)
    : Prop :=
  sessions s' = sessions s ∧ processes s' = processes s ∧ next_process s' = next_process s
  ∧ app_settings s' = app_settings s ∧
  match workspaces s !! id with
  | None => r = Err workspace_not_found ∧ workspaces s' = workspaces s
  | Some previous =>
      (∀ k, workspaces s' !! k = updated_entry id previous settings k <$> workspaces s !! k)
      ∧ match r with
        | Ok info => stored storage_path s' ∧ info = workspace_info (set_entry_settings previous settings)
                                          (is_some_b (sessions s !! id))
        | Err _ => True
        end
  end.

Lemma update_workspace_settings_post id settings s :
  keyed (workspaces s) →
  wp (update_workspace_settings_core storage_path id settings)
     (update_post id (normalize_updated_settings settings) s) s.
Proof.
  intros Hkeyed. unfold update_workspace_settings_core. cbv zeta.
  set (st := normalize_updated_settings settings). unfold update_post. wp_step. wp_step. cbv iota. wp_step.
  destruct (workspaces s !! id) as [previous|] eqn:He; [|done].
  unfold of_option, wp at 1. cbn [fst snd ok_or]. unfold apply_workspace_settings_update.
  do 4 wp_step. unfold of_option, wp at 1. rewrite He. cbn [fst snd ok_or]. wp_step. cbv zeta. do 3 wp_step. cbv iota.
  do 2 wp_step. cbv iota. wp_step. cbv iota.
  set (s1 := set_entries (<[id:=set_entry_settings previous st]> (workspaces s)) s).
  assert (keyed (workspaces s1)) as Hk1.
  { intros k e Hl. unfold s1 in Hl. simpl in Hl.
    apply lookup_insert_Some in Hl as [[<- <-]|[_ Hl]]; [by apply (Hkeyed _ _ He)|by apply Hkeyed]. }
  set (kids := map entry_id (children_of id (workspaces s1))).
  assert (∀ k e, workspaces s1 !! k = Some e → k ∈ kids ↔ entry_parent_id e = Some id) as Hkids.
  { intros k e Hl. unfold kids. rewrite list_elem_of_fmap. split.
    - intros (e' & -> & [He' Hp]%elem_of_children); [|done]. rewrite Hl in He'. by injection He' as <-.
    - intros Hp. exists e. split; [by rewrite (Hk1 _ _ Hl)|].
      apply elem_of_children; [done|]. by rewrite (Hk1 _ _ Hl). }
  cbn [ws_worktree_setup_script entry_settings entry_kind set_entry_settings].
  set (b := negb (bool_decide _) && negb (is_worktree (entry_kind previous))).
  set (script := ws_worktree_setup_script st).
  set (s2 := if b then foldl (set_child_script script) s1 kids else s1).
  apply wp_bind, (wp_mono _ (λ s' r, s' = s2 ∧ r = Ok tt)); [subst s2; by destruct b|].
  intros s' r [-> ->].
  assert (sessions s2 = sessions s ∧ processes s2 = processes s ∧ next_process s2 = next_process s
    ∧ app_settings s2 = app_settings s) as (Hs & Hp & Hn & Ha).
  { subst s2. destruct b; [|done].
    destruct (lookup_child_scripts script kids s1 id) as (_ & -> & -> & -> & ->). done. }
  assert (∀ k, workspaces s2 !! k = updated_entry id previous st k <$> workspaces s !! k) as Hupd.
  { intros k. assert (workspaces s1 !! k = (λ e, if decide (k = id) then set_entry_settings e st else e)
      <$> workspaces s !! k) as H1k.
    { unfold s1. simpl. rewrite lookup_insert. repeat case_decide; subst; try done.
      - by rewrite He.
      - by destruct (workspaces s !! k). }
    assert (∀ e, workspaces s1 !! k = Some e → (b = true ∧ k ∈ kids ↔ entry_parent_id e = Some id
      ∧ is_worktree (entry_kind previous) = false ∧ ws_worktree_setup_script (entry_settings previous) ≠ script)) as Hb.
    { intros e Hl. rewrite (Hkids _ _ Hl). unfold b. rewrite andb_true_iff !negb_true_iff bool_decide_eq_false.
      fold script. naive_solver. }
    destruct (workspaces s !! k) as [e|] eqn:Hek; simpl in *.
    - unfold updated_entry. fold script. specialize (Hb _ H1k).
      set (e1 := if decide (k = id) then _ else e) in *.
      subst s2. destruct b.
      + destruct (lookup_child_scripts script kids s1 k) as (-> & _). rewrite H1k.
        repeat case_decide; naive_solver.
      + rewrite H1k. f_equal. case_decide as Hd; [|done]. apply Hb in Hd as [? _]. done.
    - subst s2. destruct b; [|done]. destruct (lookup_child_scripts script kids s1 k) as (-> & _).
      rewrite H1k. by case_decide. }
  apply wp_bind, wp_persist.
  - intros w Hst. wp_run. by split_and!.
  - intros w e. done.
Qed.

(** What the operations keep of the forest. *)
Lemma entries_ok_insert_main ws e :
  entries_ok ws → ws !! entry_id e = None → entry_kind e = Main → entry_parent_id e = None →
  entries_ok (<[entry_id e := e]> ws).
Proof.
  intros [Hk Hm Ht] Hf Hmain Hpar. split.
  - intros k e' [[<- <-]|[_ He]]%lookup_insert_Some; [done|by apply Hk].
  - intros k e' [[<- <-]|[_ He]]%lookup_insert_Some; [done|by apply (Hm k)].
  - intros k e' [[<- <-]|[_ He]]%lookup_insert_Some Hw; [congruence|].
    destruct (Ht _ _ He Hw) as (p & pe & Hp & Hpe & Hpm). exists p, pe. split_and!; [done| |done].
    rewrite lookup_insert_ne; [intros <-; by rewrite Hf in Hpe|done].
Qed.

Lemma entries_ok_remove ws ids id :
  entries_ok ws → (∀ i, i ∈ ids → i = id ∨ i ∈ map entry_id (children_of id ws)) →
  (id ∈ ids → foldl (λ m i, delete i m) ws ids = without id ws) →
  entries_ok (foldl (λ m i, delete i m) ws ids).
Proof.
  intros [Hk Hm Ht] Hids Hall.
  assert (∀ k e, foldl (λ m i, delete i m) ws ids !! k = Some e ↔ ws !! k = Some e ∧ k ∉ ids) as Hl.
  { intros k e. rewrite lookup_remove_all. case_decide; naive_solver. }
  split.
  - intros k e [He _]%Hl. by apply Hk.
  - intros k e [He _]%Hl. by apply (Hm k).
  - intros k e [He Hni]%Hl Hw. destruct (Ht _ _ He Hw) as (p & pe & Hp & Hpe & Hpm).
    exists p, pe. split_and!; [done| |done]. apply Hl. split; [done|]. intros Hin.
    destruct (Hids _ Hin) as [->|Hc].
    + assert (foldl (λ m i, delete i m) ws ids !! k = Some e) as He2 by (by apply Hl).
      rewrite (Hall Hin) in He2. apply map_lookup_filter_Some in He2 as [_ [_ Hne]]. by apply Hne.
    + apply list_elem_of_fmap in Hc as (e' & Heq & Hc). apply elem_of_children in Hc as [He' Hp']; [|done].
      rewrite -Heq Hpe in He'. injection He' as <-. by rewrite (Hm _ _ Hpe Hpm) in Hp'.
Qed.

Lemma updated_entry_shape id previous settings k e :
  entry_id (updated_entry id previous settings k e) = entry_id e
  ∧ entry_kind (updated_entry id previous settings k e) = entry_kind e
  ∧ entry_parent_id (updated_entry id previous settings k e) = entry_parent_id e.
Proof. unfold updated_entry. cbv zeta. repeat case_match; done. Qed.

Lemma entries_ok_shape ws ws' (f : str → WorkspaceEntry → WorkspaceEntry) :
  (∀ k e, entry_id (f k e) = entry_id e ∧ entry_kind (f k e) = entry_kind e
          ∧ entry_parent_id (f k e) = entry_parent_id e) →
  (∀ k, ws' !! k = f k <$> ws !! k) → entries_ok ws → entries_ok ws'.
Proof.
  intros Hf Hws [Hk Hm Ht]. split.
  - intros k e He. rewrite Hws in He. apply fmap_Some in He as (e0 & He & ->).
    destruct (Hf k e0) as (-> & _). by apply Hk.
  - intros k e He. rewrite Hws in He. apply fmap_Some in He as (e0 & He & ->).
    destruct (Hf k e0) as (_ & -> & ->). by apply (Hm k).
  - intros k e He. rewrite Hws in He. apply fmap_Some in He as (e0 & He & ->).
    destruct (Hf k e0) as (_ & -> & ->). intros Hw. destruct (Ht _ _ He Hw) as (p & pe & Hp & Hpe & Hpm).
    exists p, (f p pe). split_and!; [done|by rewrite Hws Hpe|]. by destruct (Hf p pe) as (_ & -> & _).
Qed.
End removal_lemmas.

(** ** Properties *)

Section crud_properties.
Context `{Host, HashOrder, Serde}.
Context (spawn_session : WorkspaceEntry → option str → option str → option str → W WorkspaceSession).
Context (storage_path : str).

(** C5. Adding a workspace, by path, by cloning another or from a Git URL, does it
    or leaves no trace among the workspaces: on success the new main
    workspace is in memory and in the file, and on a session that runs; on an
    error the workspaces are as before, no session was added and no process
    is left behind. *)
Theorem adding_a_workspace_is_atomic (s s' : State) (r : result str WorkspaceInfo) (add : M WorkspaceInfo)
  (Hok : sessions_ok s) (Hno : no_orphans s)
  (Hfresh : ∀ w w' id, new_uuid w = (w', id) → workspaces s !! id = None)
  (Hadd : (∃ path, add = add_workspace_core spawn_session storage_path path)
        ∨ (∃ source name folder, add = add_clone_core spawn_session storage_path source name folder)
        ∨ (∃ url dest folder, add = add_workspace_from_git_url_core spawn_session storage_path url dest folder))
  (Hrun : add s = (s', r)) :
  sessions_ok s' ∧ no_orphans s' ∧
  match r with
  | Ok info => ∃ e, workspaces s !! entry_id e = None ∧ entry_kind e = Main ∧ info = workspace_info e true
      ∧ workspaces s' = <[entry_id e := e]> (workspaces s) ∧ stored storage_path s'
      ∧ ∃ l, sessions s' !! entry_id e = Some l ∧ live s' l
  | Err _ => workspaces s' = workspaces s ∧ sessions s' ⊆ sessions s
  end.
Proof.
  assert (wp add (add_post storage_path s) s) as Hwp.
  { destruct Hadd as [[path ->]|[(source & name & folder & ->)|(url & dest & folder & ->)]];
      [by apply add_workspace_core_post|by apply add_clone_core_post|
       by apply add_workspace_from_git_url_core_post]. }
  unfold wp in Hwp. rewrite Hrun in Hwp. destruct Hwp as [Hk Hr]. simpl in *.
  split; [by apply (kept_ok _ _ Hk)|]. split; [by apply (kept_no_orphans _ _ Hk)|].
  destruct r; [|done]. destruct Hr as (e & ? & ? & _ & ? & ? & ? & ? & _). by exists e.
Qed.

(** Removing a workspace removes its worktrees with it: on success they are
    all gone from memory, from the file and from the sessions; on an error the
    workspace is gone only together with all of them, and every workspace
    that is not one of them is untouched. *)
Theorem remove_workspace_core_removes_the_family (s s' : State) (r : result str unit) (id : str) (cont : bool)
  (Hentries : entries_ok (workspaces s)) (Hok : sessions_ok s) (Hno : no_orphans s)
  (Hrun : remove_workspace_core storage_path id true cont s = (s', r)) :
  sessions_ok s' ∧ no_orphans s' ∧ entries_ok (workspaces s')
  ∧ (∀ k l, sessions s' !! k = Some l → sessions s !! k = Some l ∧ workspaces s' !! k = workspaces s !! k)
  ∧ match r with
    | Ok _ => workspaces s' = without id (workspaces s) ∧ stored storage_path s'
    | Err _ => (workspaces s' !! id = workspaces s !! id ∨ workspaces s' = without id (workspaces s))
        ∧ ∀ k e, k ≠ id → workspaces s !! k = Some e → entry_parent_id e ≠ Some id → workspaces s' !! k = Some e
    end.
Proof.
  pose proof (remove_workspace_core_post storage_path id cont s Hentries) as Hwp.
  unfold wp in Hwp. rewrite Hrun in Hwp. destruct Hwp as (Hk & _ & ids & Hw & Hids & Hs & Hall & Hr).
  simpl in *. assert (∀ k, workspaces s' !! k = if decide (k ∈ ids) then None else workspaces s !! k) as Hl.
  { intros k. by rewrite Hw lookup_remove_all. }
  split_and!; [by apply (kept_ok _ _ Hk)|by apply (kept_no_orphans _ _ Hk)| | |].
  - rewrite Hw. eapply entries_ok_remove; [done|done|]. by rewrite -Hw.
  - intros k l [Hl1 Hn]%Hs. split; [done|]. by rewrite Hl decide_False.
  - destruct r.
    + destruct Hr as [Hin Hst]. split; [by apply Hall|done].
    + split.
      * rewrite Hl. case_decide; [right; by apply Hall|by left].
      * intros k e0 Hne He Hp. rewrite Hl decide_False //. intros [->|Hc]%Hids; [done|].
        apply list_elem_of_fmap in Hc as (e' & -> & [He' Hp']%elem_of_children); [|apply Hentries].
        rewrite He in He'. by injection He' as <-.
Qed.

(** New settings of a workspace are stored, and its worktrees take over a changed
    setup script; everything else about every workspace stays. *)
Theorem update_workspace_settings_core_propagates (s s' : State) (id : str) (settings : WorkspaceSettings)
  (info : WorkspaceInfo)
  (Hkeyed : keyed (workspaces s))
  (Hrun : update_workspace_settings_core storage_path id settings s = (s', Ok info)) :
  ∃ previous, workspaces s !! id = Some previous
  ∧ let settings' := normalize_updated_settings settings in
    let script := ws_worktree_setup_script settings' in
    stored storage_path s' ∧ sessions s' = sessions s
    ∧ info_settings info = settings'
    ∧ (entry_parent_id previous ≠ Some id →
       workspaces s' !! id = Some (set_entry_settings previous settings'))
    ∧ ∀ k e, k ≠ id → workspaces s !! k = Some e →
        workspaces s' !! k = Some
          (if decide (entry_parent_id e = Some id ∧ is_worktree (entry_kind previous) = false
                      ∧ ws_worktree_setup_script (entry_settings previous) ≠ script)
           then with_script script e else e).
Proof.
  pose proof (update_workspace_settings_post storage_path id settings s Hkeyed) as Hwp.
  unfold wp in Hwp. rewrite Hrun in Hwp. destruct Hwp as (Hs & _ & _ & _ & Hwp). simpl in *.
  destruct (workspaces s !! id) as [previous|] eqn:He; [|by destruct Hwp].
  destruct Hwp as (Hupd & Hst & ->). exists previous. split; [done|]. split_and!; try done.
  - intros Hp. rewrite Hupd He /=. unfold updated_entry. destruct (decide (id = id)) as [_|]; [|done].
    rewrite decide_False //=. by intros [? _].
  - intros k e Hne Hk. rewrite Hupd Hk /=. unfold updated_entry. by destruct (decide (k = id)).
Qed.
End crud_properties.

(** ** The theorems at concrete inputs *)

Definition demo_serde : Serde := {|
  entries_to_string := λ l, Ok ("[]" : str);
  entries_from_str := λ _, Ok [];
  value_from_str := λ _, Ok (VObject []);
  settings_from_value := λ _, Ok (AppSettings_default OtherOS);
  settings_to_string := λ _, Ok ("{}" : str)
|}.

Definition demo_worktree : WorkspaceEntry :=
  MkWorkspaceEntry "w1a" "feature" "/worktrees/feature" Worktree (Some ("w1" : str))
    (Some (MkWorktreeInfo "feature")) WorkspaceSettings_default.
(** Two main workspaces, the first with a worktree. *)
Definition demo_forest : State (H := demo_host) :=
  MkState demo_host
    (<["w1a" : str := demo_worktree]> (<["w2" : str := demo_second]> {["w1" : str := demo_entry]})) ∅ ∅ 0
    (AppSettings_default OtherOS) [] tt.
Definition demo_file : str := "/data/workspaces.json".

Lemma demo_forest_entry k e :
  workspaces demo_forest !! k = Some e →
  (k = lit "w1a" ∧ e = demo_worktree) ∨ (k = lit "w2" ∧ e = demo_second) ∨ (k = lit "w1" ∧ e = demo_entry).
Proof.
  intros Hk. unfold demo_forest, workspaces in Hk.
  apply lookup_insert_Some in Hk as [[<- <-]|[_ Hk]]; [by left|].
  apply lookup_insert_Some in Hk as [[<- <-]|[_ [<- <-]%lookup_singleton_Some]]; [by right; left|by right; right].
Qed.

Lemma demo_forest_ok : entries_ok (workspaces demo_forest).
Proof.
  split.
  - intros k e [[-> ->]|[[-> ->]|[-> ->]]]%demo_forest_entry; reflexivity.
  - intros k e [[-> ->]|[[-> ->]|[-> ->]]]%demo_forest_entry; [discriminate|reflexivity|reflexivity].
  - intros k e [[-> ->]|[[-> ->]|[-> ->]]]%demo_forest_entry; [|discriminate|discriminate].
    intros _. exists "w1", demo_entry. split_and!; reflexivity.
Qed.

Lemma demo_forest_sessions : sessions_ok demo_forest ∧ no_orphans demo_forest.
Proof. apply no_sessions_ok; reflexivity. Qed.

Lemma demo_uuid_fresh (w w' : World (Host := demo_host)) id :
  new_uuid w = (w', id) → workspaces demo_forest !! id = None.
Proof. intros Hu. injection Hu as _ <-. reflexivity. Qed.

Definition demo_add : M (H := demo_host) WorkspaceInfo :=
  add_workspace_core (H0 := map_order) (H1 := demo_serde) demo_spawn demo_file "/repo3".

Lemma adding_a_workspace_is_atomic_witness :
  is_ok (demo_add demo_forest).2 = true ∧ no_orphans (demo_add demo_forest).1.
Proof.
  split; [vm_compute; reflexivity|].
  destruct demo_forest_sessions as [Hok Hno].
  destruct (@adding_a_workspace_is_atomic demo_host map_order demo_serde demo_spawn demo_file demo_forest
    (demo_add demo_forest).1 (demo_add demo_forest).2 demo_add Hok Hno demo_uuid_fresh) as (_ & Hor & _).
  - left. eexists. reflexivity.
  - apply surjective_pairing.
  - exact Hor.
Defined.

Lemma remove_workspace_core_removes_the_family_witness :
  workspaces (remove_workspace_core (H0 := map_order) (H1 := demo_serde) demo_file "w1" true true demo_forest).1
    = without "w1" (workspaces demo_forest).
Proof.
  destruct demo_forest_sessions as [Hok Hno].
  destruct (@remove_workspace_core_removes_the_family demo_host map_order demo_serde demo_file demo_forest
    (remove_workspace_core (H0 := map_order) (H1 := demo_serde) demo_file "w1" true true demo_forest).1 (Ok tt)
    "w1" true demo_forest_ok Hok Hno) as (_ & _ & _ & _ & Hw & _).
  - vm_compute. reflexivity.
  - exact Hw.
Defined.

Definition demo_new_settings : WorkspaceSettings :=
  set_setup_script (Some ("npm ci" : str)) WorkspaceSettings_default.

Lemma update_workspace_settings_core_propagates_witness :
  workspaces (update_workspace_settings_core (H0 := map_order) (H1 := demo_serde) demo_file "w1"
                demo_new_settings demo_forest).1 !! ("w1a" : str)
    = Some (with_script (Some ("npm ci" : str)) demo_worktree).
Proof.
  destruct (@update_workspace_settings_core_propagates demo_host map_order demo_serde demo_file demo_forest
    (update_workspace_settings_core (H0 := map_order) (H1 := demo_serde) demo_file "w1" demo_new_settings
       demo_forest).1 "w1" demo_new_settings
    (workspace_info (set_entry_settings demo_entry demo_new_settings) false)
    (entries_keyed _ demo_forest_ok)) as (previous & Hp & _ & _ & _ & _ & Hall).
  - vm_compute. reflexivity.
  - injection Hp as <-. rewrite (Hall "w1a" demo_worktree); [discriminate|reflexivity|].
    vm_compute. reflexivity.
Defined.
