(* ===== verification/Worktrees.v ===== *)
(** Worktree workspaces: [src-tauri/src/shared/workspaces_core/worktree.rs].
    Creation, removal, renaming (with the undoing of a failed one), the
    renaming of the upstream branch, and the setup script's marker. *)
From S2P Require Import Prelude Json Paths Types Host AppServer Session Storage Workspaces WorkspaceCrud.

Definition not_a_worktree : str := "Not a worktree workspace.".
Definition worktree_parent_not_found : str := "worktree parent not found".
Definition branch_name_required : str := "Branch name is required.".
Definition branch_name_unchanged : str := "Branch name is unchanged.".

(** ** Setup script *)

Section setup.
Context `{Host}.

Definition worktree_setup_status_core (workspace_id data_dir : str) : M WorktreeSetupStatus :=
  ws ← gets workspaces;
  entry ← of_option workspace_not_found (ws !! workspace_id);
  let script := normalize_setup_script (ws_worktree_setup_script (entry_settings entry)) in
  marker_exists ← gets (λ s, if is_worktree (entry_kind entry)
                             then path_exists (world s) (worktree_setup_marker_path data_dir (entry_id entry))
                             else false);
  mret (MkWorktreeSetupStatus (is_worktree (entry_kind entry) && is_some_b script && negb marker_exists) script).

Definition prepare_marker_directory (marker_path : str) : M unit :=
  match path_parent marker_path with
  | Some parent =>
      lift (W_map_err (λ err, lit "Failed to prepare worktree marker directory: " ++ err) (create_dir_all parent))
  | None => mret tt
  end.

Definition worktree_setup_mark_ran_core (workspace_id data_dir : str) : M unit :=
  ws ← gets workspaces;
  entry ← of_option workspace_not_found (ws !! workspace_id);
  _ ← guard_err (is_worktree (entry_kind entry)) not_a_worktree;
  let marker_path := worktree_setup_marker_path data_dir (entry_id entry) in
  _ ← prepare_marker_directory marker_path;
  ran_at ← gets (λ s, unix_seconds (world s));
  lift (W_map_err (λ err, lit "Failed to write worktree setup marker: " ++ err)
          (write_file marker_path (lit "ran_at=" ++ show_N ran_at ++ [ch_nl]))).
End setup.

(** ** Operations *)

Section worktrees.
Context `{Host, HashOrder, Serde}.
Context (spawn_session : WorkspaceEntry → option str → option str → option str → W WorkspaceSession).
Context (storage_path data_dir : str).
(** The closures the callers give. *)
Context (sanitize : str → str).
Context (unique_worktree_path : World → str → str → result str str).
Context (unique_worktree_path_for_rename : World → str → str → str → result str str).
Context (branch_exists : str → str → W bool).
Context (find_remote_tracking : option (str → str → W (option str))).
Context (git_root : WorkspaceEntry → W str).
Context (unique_branch_name : str → str → W str).

(** Per-workspace setting, global setting, default. *)
Definition worktree_root_of (settings : AppSettings) (parent : WorkspaceEntry) : str :=
  match ws_worktrees_folder (entry_settings parent) with
  | Some custom_folder => workspace_path_to_string custom_folder
  | None =>
      match app_global_worktrees_folder settings with
      | Some global_folder => path_join (workspace_path_to_string global_folder) (entry_id parent)
      | None => path_join (path_join data_dir "worktrees") (entry_id parent)
      end
  end.

Definition prepare_worktree_root (parent : WorkspaceEntry) : M str :=
  settings ← gets app_settings;
  let worktree_root := worktree_root_of settings parent in
  _ ← lift (W_map_err (λ err, lit "Failed to create worktree directory: " ++ err)
              (create_dir_all worktree_root));
  mret worktree_root.

(** [git worktree add], with a new branch when there is none. *)
Definition git_add_worktree (repo_path branch worktree_path : str) : M unit :=
  exists_ ← lift (branch_exists repo_path branch);
  if exists_ : bool then run_git repo_path ["worktree" : str; "add" : str; worktree_path; branch]
  else
    remote_ref ← match find_remote_tracking with
                 | Some find => lift (find repo_path branch)
                 | None => mret None
                 end;
    match remote_ref with
    | Some remote_ref =>
        run_git repo_path ["worktree" : str; "add" : str; "-b" : str; branch; worktree_path; remote_ref]
    | None => run_git repo_path ["worktree" : str; "add" : str; "-b" : str; branch; worktree_path]
    end.

Definition worktree_entry (id : str) (name : option str) (branch path : str) (parent : WorkspaceEntry)
    : WorkspaceEntry :=
  MkWorkspaceEntry id (unwrap_or branch name) path Worktree (Some (entry_id parent))
    (Some (MkWorktreeInfo branch))
    (set_setup_script (normalize_setup_script (ws_worktree_setup_script (entry_settings parent)))
       WorkspaceSettings_default).

(** Unlike [commit_workspace], nothing is taken back when the file cannot be
    written. *)
Definition commit_worktree (entry : WorkspaceEntry) (session : nat) : M WorkspaceInfo :=
  _ ← modify (insert_entry entry);
  _ ← persist storage_path;
  _ ← modify (register_session session (entry_id entry) (Some (entry_path entry)));
  _ ← modify (insert_session (entry_id entry) session);
  mret (workspace_info entry true).

Definition add_worktree_core (parent_id branch : str) (name : option str) (copy_agents_md : bool)
    : M WorkspaceInfo :=
  let branch := trim branch in
  _ ← guard_err (negb (is_empty branch)) branch_name_required;
  let name := opt_filter (λ v, negb (is_empty v)) (trim <$> name) in
  ws ← gets workspaces;
  parent_entry ← of_option ("parent workspace not found" : str) (ws !! parent_id);
  _ ← guard_err (negb (is_worktree (entry_kind parent_entry))) "Cannot create a worktree from another worktree.";
  worktree_root ← prepare_worktree_root parent_entry;
  worktree_path ← of_result (λ s, unique_worktree_path (world s) worktree_root (sanitize branch));
  let repo_path := entry_path parent_entry in
  _ ← git_add_worktree repo_path branch worktree_path;
  _ ← (if copy_agents_md
       then ignore (lift (copy_agents_md_from_parent_to_worktree repo_path worktree_path)) else mret tt);
  id ← uuid;
  let entry := worktree_entry id name branch (workspace_path_to_string worktree_path) parent_entry in
  '(session, _) ← shared_or_spawned spawn_session entry (Some parent_entry);
  commit_worktree entry session.

Definition worktree_and_parent (id : str) : M (WorkspaceEntry * WorkspaceEntry) :=
  ws ← gets workspaces;
  entry ← of_option workspace_not_found (ws !! id);
  _ ← guard_err (is_worktree (entry_kind entry)) not_a_worktree;
  parent_id ← of_option worktree_parent_not_found (entry_parent_id entry);
  parent ← of_option worktree_parent_not_found (ws !! parent_id);
  mret (entry, parent).

Definition remove_worktree_core (id : str) : M unit :=
  '(entry, parent) ← worktree_and_parent id;
  let parent_path := entry_path parent in
  parent_path_exists ← gets (λ s, is_dir (world s) parent_path);
  _ ← modify (kill_session_by_id (entry_id entry));
  _ ← remove_worktree_directory parent_path parent_path_exists (entry_path entry);
  _ ← (if parent_path_exists : bool then ignore (run_git parent_path worktree_prune_args) else mret tt);
  _ ← modify (remove_entry (entry_id entry));
  persist storage_path.

(** *** Renaming *)

Definition rename_branch_args (old new : str) : list str := ["branch" : str; "-m" : str; old; new].
Definition move_worktree_args (old new : str) : list str := ["worktree" : str; "move" : str; old; new].

(** What a renaming is going to do. *)
Record RenamePlan := MkRenamePlan {
  plan_root : str;
  old_branch : str;
  final_branch : str;
  old_path : str;
  next_path : str
}.
Definition stored_next_path (p : RenamePlan) : str := workspace_path_to_string (next_path p).

Definition plan_rename (id branch : str) : M RenamePlan :=
  let trimmed := trim branch in
  _ ← guard_err (negb (is_empty trimmed)) branch_name_required;
  '(entry, parent) ← worktree_and_parent id;
  old_branch ← of_option ("worktree metadata missing" : str) (wt_branch <$> entry_worktree entry);
  _ ← guard_err (negb (old_branch =s? trimmed)) branch_name_unchanged;
  parent_root ← lift (git_root parent);
  final_branch ← lift (unique_branch_name parent_root trimmed);
  _ ← guard_err (negb (final_branch =s? old_branch)) branch_name_unchanged;
  worktree_root ← prepare_worktree_root parent;
  next_path ← of_result (λ s, unique_worktree_path_for_rename (world s) worktree_root (sanitize final_branch)
                          (entry_path entry));
  mret (MkRenamePlan parent_root old_branch final_branch (entry_path entry) next_path).

Definition undo_branch (p : RenamePlan) : M unit :=
  ignore (run_git (plan_root p) (rename_branch_args (final_branch p) (old_branch p))).
Definition undo_move (p : RenamePlan) (moved_worktree : bool) : M unit :=
  if moved_worktree
  then ignore (run_git (plan_root p) (move_worktree_args (next_path p) (old_path p))) else mret tt.

(** [git branch -m] and [git worktree move]; whether the second was needed. *)
Definition rename_in_git (p : RenamePlan) : M bool :=
  _ ← run_git (plan_root p) (rename_branch_args (old_branch p) (final_branch p));
  if negb (stored_next_path p =s? old_path p) then
    moved ← attempt (run_git (plan_root p) (move_worktree_args (old_path p) (next_path p)));
    match moved with
    | Ok _ => mret true
    | Err error => _ ← undo_branch p; throw error
    end
  else mret false.

Definition renamed_entry (p : RenamePlan) (e : WorkspaceEntry) : WorkspaceEntry :=
  MkWorkspaceEntry (entry_id e) (if trim (entry_name e) =s? old_branch p then final_branch p else entry_name e)
    (stored_next_path p) (entry_kind e) (entry_parent_id e) (Some (MkWorktreeInfo (final_branch p)))
    (entry_settings e).

Definition undo_rename {A} (p : RenamePlan) (moved_worktree : bool) (error : str) : M A :=
  _ ← undo_move p moved_worktree;
  _ ← undo_branch p;
  throw error.

Definition register_if_connected (e : WorkspaceEntry) (s : State) : State :=
  match sessions s !! entry_id e with
  | Some session => register_session session (entry_id e) (Some (entry_path e)) s
  | None => s
  end.

Definition commit_rename (id : str) (p : RenamePlan) (moved_worktree : bool) : M WorkspaceInfo :=
  ws ← gets workspaces;
  match ws !! id with
  | None => undo_rename p moved_worktree workspace_not_found
  | Some old_snapshot =>
      let entry_snapshot := renamed_entry p old_snapshot in
      _ ← modify (set_entries (<[id := entry_snapshot]> ws));
      written ← attempt (persist storage_path);
      match written with
      | Err error =>
          _ ← undo_move p moved_worktree;
          _ ← undo_branch p;
          _ ← modify (λ s, set_entries (alter (λ _, old_snapshot) id (workspaces s)) s);
          throw error
      | Ok _ =>
          _ ← modify (register_if_connected entry_snapshot);
          connected ← gets (λ s, is_some_b (sessions s !! entry_id entry_snapshot));
          mret (workspace_info entry_snapshot connected)
      end
  end.

Definition rename_worktree_core (id branch : str) : M WorkspaceInfo :=
  p ← plan_rename id branch;
  moved_worktree ← rename_in_git p;
  commit_rename id p moved_worktree.

(** *** Renaming upstream *)

Context (find_remote_for_branch : str → str → W (option str)).
Context (remote_exists : str → str → W bool).
Context (remote_branch_exists : str → str → str → W bool).

Definition upstream_remote (parent_root : str) (remote_for_old : option str) : M str :=
  match remote_for_old with
  | Some remote => mret remote
  | None =>
      origin ← lift (remote_exists parent_root "origin");
      if origin : bool then mret ("origin" : str) else throw "No git remote configured for this worktree."
  end.

Definition push_renamed (parent_root remote_name old_branch new_branch : str) (had_remote : bool) : M unit :=
  if had_remote then
    _ ← run_git parent_root ["push" : str; remote_name; new_branch ++ lit ":" ++ new_branch];
    run_git parent_root ["push" : str; remote_name; lit ":" ++ old_branch]
  else run_git parent_root ["push" : str; remote_name; new_branch].

Definition rename_worktree_upstream_core (id old_branch new_branch : str) : M unit :=
  let old_branch := trim old_branch in
  let new_branch := trim new_branch in
  _ ← guard_err (negb (is_empty old_branch || is_empty new_branch)) branch_name_required;
  _ ← guard_err (negb (old_branch =s? new_branch)) branch_name_unchanged;
  '(_, parent) ← worktree_and_parent id;
  parent_root ← lift (git_root parent);
  local ← lift (branch_exists parent_root new_branch);
  _ ← guard_err local "Local branch not found.";
  remote_for_old ← lift (find_remote_for_branch parent_root old_branch);
  remote_name ← upstream_remote parent_root remote_for_old;
  taken ← lift (remote_branch_exists parent_root remote_name new_branch);
  _ ← guard_err (negb taken) "Remote branch already exists.";
  _ ← push_renamed parent_root remote_name old_branch new_branch (is_some_b remote_for_old);
  run_git parent_root ["branch" : str; "--set-upstream-to" : str;
    remote_name ++ lit "/" ++ new_branch; new_branch].
End worktrees.

(** ** Lemmas *)

Section worktree_lemmas.
Context `{Host, HashOrder, Serde}.

(** Nothing but the machine changes. *)
Definition quiet (s s' : State) : Prop := outside s s' ∧ git_log s' = git_log s.

Lemma quiet_refl s : quiet s s.
Proof. done. Qed.

Lemma wp_guard b e (Q : State → result str unit → Prop) s :
  (b = true → Q s (Ok tt)) → (b = false → Q s (Err e)) → wp (guard_err b e) Q s.
Proof. destruct b; simpl; [intros HQ _; by apply HQ|intros _ HQ; by apply HQ]. Qed.

Lemma wp_of_result {A} (f : State → result str A) Q s : Q s (f s) → wp (of_result f) Q s.
Proof. done. Qed.

(** A worktree and the main workspace it belongs to. *)
Definition worktree_with_parent (s : State) (id : str) (entry parent : WorkspaceEntry) : Prop :=
  workspaces s !! id = Some entry ∧ entry_kind entry = Worktree
  ∧ ∃ pid, entry_parent_id entry = Some pid ∧ workspaces s !! pid = Some parent.

Lemma wp_worktree_and_parent id (Q : State → result str (WorkspaceEntry * WorkspaceEntry) → Prop) s :
  (∀ entry parent, worktree_with_parent s id entry parent → Q s (Ok (entry, parent))) →
  (∀ e, Q s (Err e)) → wp (worktree_and_parent id) Q s.
Proof.
  intros Hok Herr. unfold worktree_and_parent. wp_run; [|done].
  apply wp_guard; [intros Hw|done]. wp_run; [|done..].
  apply Hok. split; [done|]. split; [by destruct (entry_kind _)|eauto].
Qed.

Lemma wp_prepare_worktree_root data_dir parent (Q : State → result str str → Prop) s :
  (∀ w, Q (set_world w s) (Ok (worktree_root_of data_dir (app_settings s) parent))) →
  (∀ w e, Q (set_world w s) (Err e)) → wp (prepare_worktree_root data_dir parent) Q s.
Proof. intros Hok Herr. unfold prepare_worktree_root. wp_run; [apply Hok|apply Herr]. Qed.
End worktree_lemmas.

(** *** Renaming *)

Section rename_lemmas.
Context `{Host, HashOrder, Serde}.
Context (storage_path data_dir : str).
Context (sanitize : str → str).
Context (unique_worktree_path_for_rename : World → str → str → str → result str str).
Context (git_root : WorkspaceEntry → W str).
Context (unique_branch_name : str → str → W str).

(** The commands a renaming runs, and their reverses. *)
Definition rename_commands (p : RenamePlan) (moved : bool) : list (str * list str) :=
  (plan_root p, rename_branch_args (old_branch p) (final_branch p))
  :: if moved then [(plan_root p, move_worktree_args (old_path p) (next_path p))] else [].
Definition undo_commands (p : RenamePlan) (moved : bool) : list (str * list str) :=
  (if moved then [(plan_root p, move_worktree_args (next_path p) (old_path p))] else [])
  ++ [(plan_root p, rename_branch_args (final_branch p) (old_branch p))].

Definition needs_move (p : RenamePlan) : bool := negb (stored_next_path p =s? old_path p).

(** The plan for an entry and a branch: from what the entry says, with the branch that
    is free for the one that was asked for, and the directory that is free for it. *)
Record planned (s : State) (branch : str) (entry parent : WorkspaceEntry) (p : RenamePlan) : Prop := {
  planned_path : old_path p = entry_path entry;
  planned_branch : entry_worktree entry = Some (MkWorktreeInfo (old_branch p));
  planned_root : ∃ w w', git_root parent w = (w', Ok (plan_root p));
  planned_final : ∃ w w', unique_branch_name (plan_root p) (trim branch) w = (w', Ok (final_branch p));
  planned_next : ∃ w, unique_worktree_path_for_rename w (worktree_root_of data_dir (app_settings s) parent)
                        (sanitize (final_branch p)) (entry_path entry) = Ok (next_path p);
  planned_new : old_branch p ≠ final_branch p
}.

Lemma wp_plan_rename id branch (Q : State → result str RenamePlan → Prop) s :
  (∀ s' p entry parent, quiet s s' → worktree_with_parent s id entry parent → planned s branch entry parent p → Q s' (Ok p)) →
  (∀ s' e, quiet s s' → Q s' (Err e)) →
  wp (plan_rename data_dir sanitize unique_worktree_path_for_rename git_root unique_branch_name id branch) Q s.
Proof.
  intros Hok Herr. unfold plan_rename. cbv zeta. apply wp_bind, wp_guard; [intros _|intros _; by apply Herr].
  apply wp_bind, wp_worktree_and_parent; [|intros e; by apply Herr]. intros entry parent Hwp. cbv iota.
  wp_step. wp_step; [|by apply Herr]. apply wp_bind, wp_guard; [intros _|intros _; by apply Herr].
  do 2 wp_step; [|by apply Herr]. do 2 wp_step; [|by apply Herr].
  apply wp_bind, wp_guard; [intros Hne|intros _; by apply Herr].
  apply wp_bind, wp_prepare_worktree_root; [|intros w2 e; by apply Herr]. intros w2. cbv iota.
  apply wp_bind, wp_of_result. destruct (unique_worktree_path_for_rename _ _ _ _) eqn:Hnext; [|by apply Herr].
  wp_run. eapply Hok; [done|exact Hwp|]. split; cbn [plan_root old_branch final_branch old_path next_path]; [done|..].
  - destruct (entry_worktree entry) as [[b]|]; simpl in *; [congruence|done].
  - by eexists _, _.
  - by eexists _, _.
  - by eexists _.
  - apply negb_true_iff, str_eqb_neq in Hne. congruence.
Qed.

Lemma wp_undo_rename {A} p moved e (Q : State → result str A → Prop) s s0 cmds :
  outside s s0 → git_log s0 = cmds →
  (∀ s', outside s s' → git_log s' = cmds ++ undo_commands p moved → Q s' (Err e)) →
  wp (undo_rename p moved e) Q s0.
Proof.
  intros Ho <- HQ. unfold undo_rename, undo_move, undo_branch. destruct moved; wp_run;
    (apply HQ; [done|by rewrite /= -?app_assoc]).
Qed.

(** Git refused a command, which is the last that ran, or after which the branch got
    its name back. *)
Definition branch_refused (p : RenamePlan) (s s' : State) (error : str) : Prop :=
  ∃ s1, git_log s1 = git_log s ∧ run_git (plan_root p) (rename_branch_args (old_branch p) (final_branch p)) s1 = (s', Err error).
Definition move_refused (p : RenamePlan) (s s' : State) (error : str) : Prop :=
  needs_move p = true ∧ ∃ s1 s2, git_log s1 = git_log s ++ rename_commands p false
    ∧ run_git (plan_root p) (move_worktree_args (old_path p) (next_path p)) s1 = (s2, Err error)
    ∧ git_log s' = git_log s2 ++ undo_commands p false.

Lemma wp_run_git_eq repo args (Q : State → result str unit → Prop) s :
  (∀ s' r, (∃ w, s' = set_world w (log_git (repo, args) s)) → run_git repo args s = (s', r) → Q s' r) → wp (run_git repo args) Q s.
Proof.
  intros HQ. unfold wp. destruct (run_git repo args s) as [s' r] eqn:Hr. apply HQ; [|done].
  unfold run_git, mbind, M_bind, modify, lift in Hr. destruct (W_bind _ _ _ _ _) as [w r']. injection Hr as <- <-. by exists w.
Qed.

(** After the git commands: all ran, or what ran was reversed. *)
Lemma wp_rename_in_git p (Q : State → result str bool → Prop) s :
  (∀ s', outside s s' → git_log s' = git_log s ++ rename_commands p (needs_move p) → Q s' (Ok (needs_move p))) →
  (∀ s' e, outside s s' → branch_refused p s s' e ∨ move_refused p s s' e → Q s' (Err e)) →
  wp (rename_in_git p) Q s.
Proof.
  intros Hok Herr. unfold rename_in_git. fold (needs_move p). wp_step. apply wp_run_git_eq. intros s1 [u|e] (w & ->) Hrun.
  2: { apply Herr; [done|]. left. by exists s. }
  cbv iota. destruct (needs_move p) eqn:Hm; [|wp_run; by apply Hok].
  wp_step. apply wp_attempt, wp_run_git_eq. intros s2 [u1|e] (w1 & ->) Hrun1.
  - wp_run. apply Hok; [done|]. by rewrite /= -app_assoc.
  - cbv iota. unfold undo_branch. wp_run; (apply Herr; [done|]; right; split; [done|]; eexists _, _; split_and!; [|exact Hrun1|]; done).
Qed.

(** How a renaming ends. *)
Definition rename_post (id branch : str) (s s' : State) (r : result str WorkspaceInfo) : Prop :=
  sessions s' = sessions s ∧ next_process s' = next_process s ∧ app_settings s' = app_settings s ∧
  match r with
  | Ok info => ∃ p entry parent, worktree_with_parent s id entry parent ∧ planned s branch entry parent p
      ∧ workspaces s' = <[id := renamed_entry p entry]> (workspaces s) ∧ stored storage_path s'
      ∧ git_log s' = git_log s ++ rename_commands p (needs_move p)
      ∧ info = workspace_info (renamed_entry p entry) (is_some_b (sessions s !! entry_id entry))
      ∧ (∀ l, live s' l ↔ live s l) ∧ (sessions_ok s → sessions_ok s')
  | Err e => workspaces s' = workspaces s ∧ processes s' = processes s
      ∧ (git_log s' = git_log s
         ∨ ∃ p entry parent, worktree_with_parent s id entry parent ∧ planned s branch entry parent p
             ∧ (branch_refused p s s' e ∨ move_refused p s s' e
                ∨ git_log s' = git_log s ++ rename_commands p (needs_move p) ++ undo_commands p (needs_move p)))
  end.

Lemma register_if_connected_spec e s :
  let s' := register_if_connected e s in
  workspaces s' = workspaces s ∧ sessions s' = sessions s ∧ next_process s' = next_process s
  ∧ app_settings s' = app_settings s ∧ git_log s' = git_log s ∧ world s' = world s
  ∧ (∀ l, live s' l ↔ live s l) ∧ (sessions_ok s → sessions_ok s').
Proof.
  cbv zeta. unfold register_if_connected. destruct (sessions s !! entry_id e) as [l|] eqn:Hl; [|done].
  split_and!; try done; [apply live_update|].
  intros [Hsh Hr Hb]. split; [done|..].
  - intros id' l' Hl'. destruct (Hr _ _ Hl') as (p & Hp & Hin).
    unfold register_session, update_session, set_processes, processes at 1.
    destruct (decide (l = l')) as [<-|Hne].
    + rewrite lookup_alter_eq Hp. eexists. split; [reflexivity|].
      cbn [proc_session]. rewrite register_workspace_ids. set_solver.
    + rewrite lookup_alter_ne //. by exists p.
  - intros l' p. unfold register_session, update_session, set_processes, processes at 1.
    rewrite lookup_alter. case_decide; [|by apply Hb]. intros (p0 & Hp0 & _)%fmap_Some. subst. by eapply Hb.
Qed.

Lemma stored_ext s s' : workspaces s' = workspaces s → world s' = world s → stored storage_path s → stored storage_path s'.
Proof. intros Hw Hd [w Hs]. exists w. by rewrite Hw Hd. Qed.

Lemma wp_commit_rename id branch p moved s s0 entry parent :
  keyed (workspaces s) → worktree_with_parent s id entry parent → outside s s0 →
  git_log s0 = git_log s ++ rename_commands p moved → moved = needs_move p → planned s branch entry parent p →
  wp (commit_rename storage_path id p moved) (rename_post id branch s) s0.
Proof.
  intros Hkeyed Hwp Ho Hlog -> Hplan. pose proof Ho as (Hw & Hs & Hp & Hn & Ha).
  pose proof Hwp as (He & _ & _).
  unfold commit_rename. do 2 wp_step. cbv iota. rewrite Hw He. wp_run. apply wp_persist.
  - intros w Hst. cbv iota. wp_run.
    match goal with |- rename_post _ _ _ ?st _ => set (s' := st) end.
    match goal with st := register_if_connected _ ?x |- _ => set (s1 := x) in * end.
    destruct (register_if_connected_spec (renamed_entry p entry) s1) as (F1 & F2 & F3 & F4 & F5 & F6 & F7 & F8).
    fold s' in F1, F2, F3, F4, F5, F6, F7, F8. change (sessions s1) with (sessions s0) in F2. rewrite Hs in F2.
    split_and!; [exact F2|by rewrite F3|by rewrite F4|]. exists p, entry, parent. split_and!; try done.
    + by eapply stored_ext.
    + by rewrite F5.
    + rewrite F2. done.
    + intros l. rewrite F7. unfold live, session_process_is_alive. simpl. by rewrite Hp.
    + intros Hok. apply F8. by apply (same_sessions_iff s s1 Hs Hp Hn).
  - intros w e. cbv iota. unfold undo_move, undo_branch.
    assert (alter (λ _, entry) id (<[id:=renamed_entry p entry]> (workspaces s)) = workspaces s) as Hback.
    { apply map_eq. intros k. destruct (decide (id = k)) as [<-|Hne].
      - by rewrite lookup_alter_eq lookup_insert_eq He.
      - by rewrite lookup_alter_ne // lookup_insert_ne. }
    destruct (needs_move p) eqn:Hm; wp_run;
      (split_and!; try done; right; exists p, entry, parent; split_and!; [done..|]; right; right; rewrite Hm /= Hlog -?app_assoc //).
Qed.

Lemma rename_worktree_post id branch s :
  keyed (workspaces s) →
  wp (rename_worktree_core storage_path data_dir sanitize unique_worktree_path_for_rename git_root
        unique_branch_name id branch) (rename_post id branch s) s.
Proof.
  intros Hkeyed. unfold rename_worktree_core. apply wp_bind, wp_plan_rename.
  2: { intros s1 e [(?&?&?&?&?) Hl]. split_and!; try done. by left. }
  intros s1 p entry parent [Ho Hl] Hwp Hplan. apply wp_bind, wp_rename_in_git.
  - intros s2 Ho2 Hl2. eapply wp_commit_rename; try done; [by eapply outside_trans|congruence].
  - intros s2 e Ho2 Hl2. destruct (outside_trans _ _ _ Ho Ho2) as (?&?&?&?&?). split_and!; try done. right.
    exists p, entry, parent. split_and!; [done..|]. unfold branch_refused, move_refused in *. rewrite Hl in Hl2. naive_solver.
Qed.
End rename_lemmas.

(** *** Adding and removing *)

Section add_remove_lemmas.
Context `{Host, HashOrder, Serde}.
Context (spawn_session : WorkspaceEntry → option str → option str → option str → W WorkspaceSession).
Context (storage_path data_dir : str).
Context (sanitize : str → str).
Context (unique_worktree_path : World → str → str → result str str).
Context (branch_exists : str → str → W bool).
Context (find_remote_tracking : option (str → str → W (option str))).

(** The worktree an addition was to make. *)
Definition new_worktree (s : State) (parent_id : str) (e : WorkspaceEntry) : Prop :=
  workspaces s !! entry_id e = None ∧ entry_kind e = Worktree ∧ entry_parent_id e = Some parent_id
  ∧ ∃ parent, workspaces s !! parent_id = Some parent ∧ entry_kind parent = Main.

(** How an addition ends; the second way to fail is a file that could not be
    written. *)
Definition add_worktree_post (parent_id : str) (s s' : State) (r : result str WorkspaceInfo) : Prop :=
  match r with
  | Ok info => ∃ e, new_worktree s parent_id e ∧ info = workspace_info e true
      ∧ workspaces s' = <[entry_id e := e]> (workspaces s) ∧ stored storage_path s'
      ∧ (∃ l, sessions s' !! entry_id e = Some l ∧ live s' l) ∧ sessions_kept s s'
      ∧ ∀ id l, sessions s' !! id = Some l → id = entry_id e ∨ is_Some (sessions s !! id)
  | Err _ => workspaces s' = workspaces s ∧ sessions s' ⊆ sessions s ∧ sessions_kept s s'
      ∨ ∃ e s0 s1 l spawned, new_worktree s parent_id e ∧ outside s s0 ∧ ready s0 s1 l spawned
          ∧ workspaces s' = <[entry_id e := e]> (workspaces s)
          ∧ sessions s' = sessions s1 ∧ processes s' = processes s1 ∧ next_process s' = next_process s1
  end.

Lemma git_add_worktree_outside repo branch path :
  outside_m (git_add_worktree branch_exists find_remote_tracking repo branch path).
Proof. unfold git_add_worktree. outside_steps. Qed.

Lemma add_worktree_outside_err parent_id s s' e : outside s s' → add_worktree_post parent_id s s' (Err e).
Proof.
  intros Ho. left. pose proof (outside_kept _ _ Ho). destruct Ho as (-> & -> & _). done.
Qed.

Lemma wp_commit_worktree parent_id s s0 s1 e l spawned :
  outside s s0 → new_worktree s parent_id e → ready s0 s1 l spawned →
  wp (commit_worktree storage_path e l) (add_worktree_post parent_id s) s1.
Proof.
  intros Ho Hnew Hr. pose proof (ready_entries _ _ _ _ Hr) as Hw.
  pose proof Ho as (Hw0 & Hs0 & Hp0 & Hn0 & Ha0). unfold commit_worktree. wp_run. apply wp_persist.
  - intros w Hst. wp_run. exists e. split_and!; try done.
    + simpl. by rewrite Hw Hw0.
    + exists l. simpl. rewrite lookup_insert_eq. split; [done|].
      apply (live_attach s1 l (entry_id e) (Some (entry_path e))). apply (ready_live _ _ _ _ Hr).
    + eapply sessions_kept_trans; [by apply (sessions_kept_same s s0)|].
      eapply sessions_kept_trans; [apply (attach_ready_kept _ _ _ _ (entry_id e) (Some (entry_path e)) Hr)|].
      by apply sessions_kept_same.
    + simpl. intros id l' [[<- _]|[_ Hl]]%lookup_insert_Some; [by left|right].
      rewrite -Hs0. exists l'. eapply lookup_weaken; [exact Hl|apply (ready_sub _ _ _ _ Hr)].
  - intros w err. right. exists e, s0, s1, l, spawned. split_and!; try done. simpl. by rewrite Hw Hw0.
Qed.

Lemma add_worktree_core_post parent_id branch name copy s :
  uuid_fresh s → keyed (workspaces s) →
  wp (add_worktree_core spawn_session storage_path data_dir sanitize unique_worktree_path branch_exists
        find_remote_tracking parent_id branch name copy) (add_worktree_post parent_id s) s.
Proof.
  intros Hfresh Hkeyed. unfold add_worktree_core. cbv zeta.
  assert (∀ s' e, outside s s' → add_worktree_post parent_id s s' (Err e)) as Herr
    by (intros; by apply add_worktree_outside_err).
  apply wp_bind, wp_guard; [intros _|intros _; by apply Herr]. wp_step. wp_step. cbv iota. wp_step. wp_step;
    [|by apply Herr].
  match goal with Hp : workspaces s !! parent_id = Some ?e |- _ => rename e into parent; rename Hp into Hparent end.
  cbv iota. apply wp_bind, wp_guard; [intros Hmain|intros _; by apply Herr]. cbv iota.
  apply wp_bind, wp_prepare_worktree_root; [intros w|intros w e; by apply Herr]. cbv iota.
  apply wp_bind, wp_of_result. destruct (unique_worktree_path _ _ _) as [path|e]; [|by apply Herr].
  apply wp_bind. eapply (wp_outside _ _ s); [apply git_add_worktree_outside|done|].
  intros s1 [[]|e] Ho1; [|by apply Herr].
  apply wp_bind. eapply (wp_outside _ _ s); [|exact Ho1|].
  { destruct copy; [apply outside_m_ignore, outside_m_lift|apply outside_m_ret]. }
  intros s2 [[]|e] Ho2; [|by apply Herr]. wp_run.
  match goal with Hu : new_uuid _ = (?w1, ?i) |- _ => rename w1 into w'; rename i into id; rename Hu into Hid end.
  apply wp_shared_or_spawned.
  - intros s3 l spawned Hr. eapply wp_commit_worktree; [|split_and!|exact Hr]; try done.
    + simpl. by eapply Hfresh.
    + simpl. by rewrite (Hkeyed _ _ Hparent).
    + exists parent. split; [done|]. by destruct (entry_kind parent).
  - intros s3 e Hn. left. destruct Ho2 as (Hw & Hs & Hp & Hnx & Ha). destruct Hn as [N1 N2 N3 N4 N5 N6].
    simpl in *. split_and!; [congruence|by rewrite -Hs|].
    destruct (same_sessions_iff s s2 Hs Hp Hnx) as [Hok Hno]. split; [intros Hx|intros L _ Hx].
    + apply N4. apply set_world_ok. by apply Hok.
    + apply N5. by apply Hno.
Qed.

(** How a removal of a worktree ends. *)
Definition remove_worktree_post (id : str) (s s' : State) (r : result str unit) : Prop :=
  sessions_kept s s' ∧ app_settings s' = app_settings s
  ∧ (∀ k l, sessions s' !! k = Some l → sessions s !! k = Some l)
  ∧ match r with
    | Ok _ => ∃ entry parent, worktree_with_parent s id entry parent
        ∧ workspaces s' = delete id (workspaces s) ∧ stored storage_path s' ∧ sessions s' !! id = None
    | Err _ => workspaces s' = workspaces s
        ∨ (∃ entry parent, worktree_with_parent s id entry parent)
          ∧ workspaces s' = delete id (workspaces s) ∧ sessions s' !! id = None
    end.

Lemma remove_worktree_core_post id s :
  keyed (workspaces s) → wp (remove_worktree_core storage_path id) (remove_worktree_post id s) s.
Proof.
  intros Hkeyed. unfold remove_worktree_core. apply wp_bind, wp_worktree_and_parent.
  2: { intros e. split_and!; try done. by left. }
  intros entry parent Hwp. cbv iota zeta. wp_step. wp_step. cbv iota. wp_step. wp_step. cbv iota.
  pose proof Hwp as (He & _ & _). rewrite (Hkeyed _ _ He).
  set (s1 := kill_session_by_id id s).
  destruct (kill_session_frame id s) as (Hw1 & _ & Hs1 & _ & Ha1). fold s1 in Hw1, Hs1, Ha1.
  pose proof (kill_session_kept id s) as Hk1. fold s1 in Hk1.
  assert (∀ s2, outside s1 s2 → sessions_kept s s2 ∧ app_settings s2 = app_settings s
    ∧ workspaces s2 = workspaces s ∧ sessions s2 = delete id (sessions s)) as Hout.
  { intros s2 Ho. pose proof (outside_kept _ _ Ho) as Hk2. destruct Ho as (? & ? & _ & _ & ?).
    split_and!; [by eapply sessions_kept_trans|congruence..]. }
  assert (∀ s2 e, outside s1 s2 → remove_worktree_post id s s2 (Err e)) as Herr.
  { intros s2 e (Hk & Ha & Hw & Hs)%Hout. split_and!; [done|done| |by left].
    rewrite Hs. by intros k l [_ Hl]%lookup_delete_Some. }
  apply wp_bind. eapply wp_outside; [apply remove_worktree_directory_outside|apply outside_refl|].
  intros s2 [[]|e] Ho2; [|by apply Herr].
  apply wp_bind. eapply wp_outside; [|exact Ho2|].
  { apply outside_m_if; [apply outside_m_ignore, outside_m_run_git|apply outside_m_ret]. }
  intros s3 [[]|e] Ho3; [|by apply Herr]. wp_step. wp_step. cbv iota.
  destruct (Hout _ Ho3) as (Hk & Ha & Hw & Hs).
  assert (∀ w, sessions_kept s (set_world w (remove_entry id s3))
    ∧ (∀ k l, sessions s3 !! k = Some l → sessions s !! k = Some l) ∧ sessions s3 !! id = None) as Hpost.
  { intros w. split_and!; [eapply sessions_kept_trans; [exact Hk|by apply sessions_kept_same]| |].
    - rewrite Hs. by intros k l [_ Hl]%lookup_delete_Some.
    - by rewrite Hs lookup_delete_eq. }
  apply wp_persist.
  - intros w Hst. destruct (Hpost w) as (? & ? & ?). split_and!; try done.
    exists entry, parent. split_and!; try done. simpl. by rewrite Hw.
  - intros w e. destruct (Hpost w) as (? & ? & ?). split_and!; try done. right.
    split_and!; [by exists entry, parent|simpl; by rewrite Hw|done].
Qed.
End add_remove_lemmas.

(** *** The upstream branch *)

Definition upstream_commands (root remote old_branch new_branch : str) (had_remote : bool) : list (str * list str) :=
  (if had_remote
   then [(root, ["push" : str; remote; new_branch ++ lit ":" ++ new_branch]);
         (root, ["push" : str; remote; lit ":" ++ old_branch])]
   else [(root, ["push" : str; remote; new_branch])])
  ++ [(root, ["branch" : str; "--set-upstream-to" : str; remote ++ lit "/" ++ new_branch; new_branch])].

Lemma new_worktree_entries_ok `{Host} s parent_id e :
  entries_ok (workspaces s) → new_worktree s parent_id e → entries_ok (<[entry_id e := e]> (workspaces s)).
Proof.
  intros [Hk Hm Ht] (Hf & Hw & Hp & parent & Hpar & Hmain).
  assert (∀ p pe, workspaces s !! p = Some pe → <[entry_id e := e]> (workspaces s) !! p = Some pe) as Hkeep.
  { intros p pe Hpe. rewrite lookup_insert_ne; [intros <-; by rewrite Hf in Hpe|done]. }
  split.
  - intros k e' [[<- <-]|[_ He]]%lookup_insert_Some; [done|by apply Hk].
  - intros k e' [[<- <-]|[_ He]]%lookup_insert_Some; [congruence|by apply (Hm k)].
  - intros k e' [[<- <-]|[_ He]]%lookup_insert_Some Hwk.
    + exists parent_id, parent. split_and!; [done|by apply Hkeep|done].
    + destruct (Ht _ _ He Hwk) as (p & pe & Hpp & Hpe & Hpm). exists p, pe. split_and!; [done|by apply Hkeep|done].
Qed.

Lemma delete_worktree_entries_ok `{Host} s id entry parent :
  entries_ok (workspaces s) → worktree_with_parent s id entry parent → entries_ok (delete id (workspaces s)).
Proof.
  intros [Hk Hm Ht] (He & Hw & _). split.
  - intros k e' [_ He']%lookup_delete_Some. by apply Hk.
  - intros k e' [_ He']%lookup_delete_Some. by apply (Hm k).
  - intros k e' [Hne He']%lookup_delete_Some Hwk. destruct (Ht _ _ He' Hwk) as (p & pe & Hpp & Hpe & Hpm).
    exists p, pe. split_and!; [done| |done]. rewrite lookup_delete_ne; [intros ->|done]. simplify_eq.
    by rewrite Hw in Hpm.
Qed.

Lemma outside_live `{Host} s s' l : outside s s' → (live s' l ↔ live s l) ∧ (held s' l ↔ held s l).
Proof. intros (_ & Hs & Hp & _). unfold live, session_process_is_alive, held. by rewrite Hs Hp. Qed.

Lemma W_map_err_ok `{Host} {A} f (m : W A) w w' a : W_map_err f m w = (w', Ok a) → m w = (w', Ok a).
Proof. unfold W_map_err. destruct (m w) as [w1 [b|e]]; simpl; [done|]. intros Hc. by simplify_eq. Qed.

Definition upstream_post `{Host} (s : State) (old_branch new_branch : str) (s' : State) (r : result str unit)
    : Prop :=
  outside s s' ∧
  ∃ root remote had_remote ran,
    git_log s' = git_log s ++ ran
    ∧ ran `prefix_of` upstream_commands root remote old_branch new_branch had_remote
    ∧ (is_ok r = true → ran = upstream_commands root remote old_branch new_branch had_remote).

Lemma wp_push_renamed `{Host} s s0 root remote old_branch new_branch had :
  outside s s0 → git_log s0 = git_log s →
  wp (_ ← push_renamed root remote old_branch new_branch had;
      run_git root ["branch" : str; "--set-upstream-to" : str; remote ++ lit "/" ++ new_branch; new_branch])
     (upstream_post s old_branch new_branch) s0.
Proof.
  intros Ho Hl.
  assert (∀ n s' r, outside s s' →
    git_log s' = git_log s ++ take n (upstream_commands root remote old_branch new_branch had) →
    (is_ok r = true → n = if had then 3 else 2) → upstream_post s old_branch new_branch s' r) as Hpost.
  { intros n s' r Ho' Hl' Hn. split; [done|]. eexists root, remote, had, _. split; [exact Hl'|]. split.
    - eexists. symmetry. apply take_drop.
    - intros Hok. rewrite (Hn Hok). by destruct had. }
  unfold push_renamed. destruct had; wp_run;
    first [apply (Hpost 1); [done|by rewrite /= Hl -?app_assoc|done]
          |apply (Hpost 2); [done|by rewrite /= Hl -?app_assoc|done]
          |apply (Hpost 3); [done|by rewrite /= Hl -?app_assoc|done]].
Qed.

(** ** Properties *)

Section rename_property.
Context `{Host, HashOrder, Serde}.
Context (storage_path data_dir : str).
Context (sanitize : str → str).
Context (unique_worktree_path_for_rename : World → str → str → str → result str str).
Context (git_root : WorkspaceEntry → W str).
Context (unique_branch_name : str → str → W str).

Abbreviation rename := (rename_worktree_core storage_path data_dir sanitize unique_worktree_path_for_rename
  git_root unique_branch_name).
Abbreviation planned' := (planned data_dir sanitize unique_worktree_path_for_rename git_root unique_branch_name).

(** C3. Among workspaces that are stored under their ids, renaming a worktree happens as a
    whole or not at all. On success the entry has the branch and the path that are free for what was asked, in memory and in the
    file, and git was told the same. On an error the workspaces are as before, and
    either no git command ran; or git refused to rename the branch, which was all it
    was asked; or git refused to move the worktree, after which it was told to give
    the branch its name back; or it was told to reverse everything, the last first. *)
Theorem rename_worktree_core_all_or_nothing (s s' : State) (r : result str WorkspaceInfo) (id branch : str)
  (Hkeyed : keyed (workspaces s))
  (Hrun : rename id branch s = (s', r)) :
  sessions s' = sessions s ∧
  match r with
  | Ok info => ∃ p entry parent, worktree_with_parent s id entry parent ∧ planned' s branch entry parent p
      ∧ workspaces s' = <[id := renamed_entry p entry]> (workspaces s) ∧ stored storage_path s'
      ∧ git_log s' = git_log s ++ rename_commands p (needs_move p)
      ∧ info = workspace_info (renamed_entry p entry) (is_some_b (sessions s !! entry_id entry))
  | Err error => workspaces s' = workspaces s ∧ processes s' = processes s
      ∧ (git_log s' = git_log s
         ∨ ∃ p entry parent, worktree_with_parent s id entry parent ∧ planned' s branch entry parent p
             ∧ (branch_refused p s s' error ∨ move_refused p s s' error
                ∨ git_log s' = git_log s ++ rename_commands p (needs_move p) ++ undo_commands p (needs_move p)))
  end.
Proof.
  pose proof (rename_worktree_post storage_path data_dir sanitize unique_worktree_path_for_rename git_root
    unique_branch_name id branch s Hkeyed) as Hwp.
  unfold wp in Hwp. rewrite Hrun in Hwp. destruct Hwp as (Hs & _ & _ & Hr). split; [done|].
  destruct r; [|done]. destruct Hr as (p & entry & parent & ? & ? & ? & ? & ? & ? & _). by exists p, entry, parent.
Qed.

End rename_property.

Section add_properties.
Context `{Host, HashOrder, Serde}.
Context (spawn_session : WorkspaceEntry → option str → option str → option str → W WorkspaceSession).
Context (storage_path data_dir : str).
Context (sanitize : str → str).
Context (unique_worktree_path : World → str → str → result str str).
Context (branch_exists : str → str → W bool).
Context (find_remote_tracking : option (str → str → W (option str))).

Abbreviation add := (add_worktree_core spawn_session storage_path data_dir sanitize unique_worktree_path
  branch_exists find_remote_tracking).

(** A worktree is added under a main workspace only, with a session that runs;
    an error before the file is written leaves the workspaces as they were
    and no process behind. *)
Theorem add_worktree_core_adds_a_child (s s' : State) (r : result str WorkspaceInfo)
  (parent_id branch : str) (name : option str) (copy_agents_md : bool)
  (Hentries : entries_ok (workspaces s)) (Hok : sessions_ok s) (Hno : no_orphans s)
  (Hfresh : ∀ w w' id, new_uuid w = (w', id) → workspaces s !! id = None)
  (Hrun : add parent_id branch name copy_agents_md s = (s', r)) :
  sessions_ok s' ∧ entries_ok (workspaces s') ∧
  match r with
  | Ok info => no_orphans s' ∧ stored storage_path s' ∧
      ∃ e, new_worktree s parent_id e ∧ info = workspace_info e true
        ∧ workspaces s' = <[entry_id e := e]> (workspaces s)
        ∧ ∃ l, sessions s' !! entry_id e = Some l ∧ live s' l
  | Err _ => workspaces s' = workspaces s → no_orphans s'
  end.
Proof.
  pose proof (add_worktree_core_post spawn_session storage_path data_dir sanitize unique_worktree_path
    branch_exists find_remote_tracking parent_id branch name copy_agents_md s Hfresh (entries_keyed _ Hentries))
    as Hwp.
  unfold wp in Hwp. rewrite Hrun in Hwp. destruct r as [info|error]; simpl in Hwp.
  - destruct Hwp as (e & Hnew & -> & Hw & Hst & Hl & Hk & _).
    split; [by apply (kept_ok _ _ Hk)|]. split; [rewrite Hw; by eapply new_worktree_entries_ok|].
    split; [by apply (kept_no_orphans _ _ Hk)|]. split; [done|]. by exists e.
  - destruct Hwp as [(Hw & _ & Hk)|(e & s0 & s1 & l & sp & Hnew & Ho & Hr & Hw & Hs & Hp & Hn)].
    + split; [by apply (kept_ok _ _ Hk)|]. split; [by rewrite Hw|]. intros _. by apply (kept_no_orphans _ _ Hk).
    + split; [|split; [rewrite Hw; by eapply new_worktree_entries_ok|]].
      * apply (same_sessions_iff s1 s' Hs Hp Hn), (ready_ok _ _ _ _ Hr).
        destruct (outside_kept _ _ Ho) as [Hk _]. by apply Hk.
      * intros Hsame. destruct Hnew as (Hf & _). rewrite -Hsame Hw lookup_insert_eq in Hf. done.
Qed.

(** Unlike the operations that add a main workspace, this one takes nothing back
    when the file cannot be written: the worktree stays in memory without a
    session, and the process that was started for it runs on for no one. *)
Theorem add_worktree_core_keeps_what_it_could_not_store (s s' : State) (error : str)
  (parent_id branch : str) (name : option str) (copy_agents_md : bool)
  (Hkeyed : keyed (workspaces s))
  (Hfresh : ∀ w w' id, new_uuid w = (w', id) → workspaces s !! id = None ∧ sessions s !! id = None)
  (Hidle : ∀ l, held s l → ¬ live s l)
  (Hrun : add parent_id branch name copy_agents_md s = (s', Err error))
  (Hchanged : workspaces s' ≠ workspaces s) :
  ∃ e l, new_worktree s parent_id e ∧ workspaces s' = <[entry_id e := e]> (workspaces s)
    ∧ sessions s' !! entry_id e = None ∧ live s' l ∧ ¬ held s' l.
Proof.
  pose proof (add_worktree_core_post spawn_session storage_path data_dir sanitize unique_worktree_path
    branch_exists find_remote_tracking parent_id branch name copy_agents_md s
    (λ w w' id Hu, proj1 (Hfresh w w' id Hu)) Hkeyed) as Hwp.
  unfold wp in Hwp. rewrite Hrun in Hwp. simpl in Hwp.
  destruct Hwp as [(Hw & _)|(e & s0 & s1 & l & sp & Hnew & Ho & Hr & Hw & Hs & Hp & Hn)]; [done|].
  pose proof (ready_spawned _ _ _ _ Hr) as Hsp. destruct sp.
  - destruct Hsp as (Hnone & _ & _). exists e, l. split_and!; [done|done|by rewrite Hs Hnone lookup_empty| |].
    + unfold live, session_process_is_alive. rewrite Hp. apply (ready_live _ _ _ _ Hr).
    + intros [k Hk]. by rewrite Hs Hnone lookup_empty in Hk.
  - destruct Hsp as ([k Hk] & Hl & _). destruct (outside_live _ _ l Ho) as [Hlive Hheld].
    destruct (Hidle l); [|by apply Hlive]. apply Hheld. exists k.
    eapply lookup_weaken; [exact Hk|apply (ready_sub _ _ _ _ Hr)].
Qed.

End add_properties.

Section remove_property.
Context `{Host, HashOrder, Serde}.
Context (storage_path : str).

(** Removing a worktree that succeeds takes it out of memory, of the file and of
    the sessions; whatever fails, no other workspace changes, and its process
    is stopped if it was its last user. *)
Theorem remove_worktree_core_removes (s s' : State) (r : result str unit) (id : str)
  (Hentries : entries_ok (workspaces s)) (Hok : sessions_ok s) (Hno : no_orphans s)
  (Hrun : remove_worktree_core storage_path id s = (s', r)) :
  sessions_ok s' ∧ no_orphans s' ∧ entries_ok (workspaces s')
  ∧ (∀ k, k ≠ id → workspaces s' !! k = workspaces s !! k)
  ∧ match r with
    | Ok _ => workspaces s' = delete id (workspaces s) ∧ stored storage_path s' ∧ sessions s' !! id = None
        ∧ ∃ entry parent, worktree_with_parent s id entry parent
    | Err _ => workspaces s' = workspaces s ∨ workspaces s' = delete id (workspaces s)
    end.
Proof.
  pose proof (remove_worktree_core_post storage_path id s (entries_keyed _ Hentries)) as Hwp.
  unfold wp in Hwp. rewrite Hrun in Hwp. destruct Hwp as (Hk & _ & _ & Hr). simpl in *.
  split; [by apply (kept_ok _ _ Hk)|]. split; [by apply (kept_no_orphans _ _ Hk)|].
  assert (workspaces s' = workspaces s
    ∨ (∃ entry parent, worktree_with_parent s id entry parent) ∧ workspaces s' = delete id (workspaces s)) as Hw.
  { destruct r; [right; destruct Hr as (entry & parent & ? & ? & _); eauto|naive_solver]. }
  split_and!.
  - destruct Hw as [->|[(entry & parent & Hwp) ->]]; [done|by eapply delete_worktree_entries_ok].
  - intros k Hne. destruct Hw as [->|[_ ->]]; [done|by apply lookup_delete_ne].
  - destruct r; [destruct Hr as (entry & parent & ? & ? & ? & ?)|]; naive_solver.
Qed.

End remove_property.

Section upstream_property.
Context `{Host}.
Context (git_root : WorkspaceEntry → W str).
Context (branch_exists : str → str → W bool).
Context (find_remote_for_branch : str → str → W (option str)).
Context (remote_exists : str → str → W bool).
Context (remote_branch_exists : str → str → str → W bool).

(** The old branch is deleted on the remote only after the new one was pushed
    there: whatever fails, the commands that ran are a prefix of push, delete,
    set upstream. *)
Theorem rename_worktree_upstream_core_order (s : State) (id old_branch new_branch : str) :
  let '(s', r) := rename_worktree_upstream_core branch_exists git_root find_remote_for_branch remote_exists
                    remote_branch_exists id old_branch new_branch s in
  outside s s' ∧
  ∃ root remote had_remote ran,
    git_log s' = git_log s ++ ran
    ∧ ran `prefix_of` upstream_commands root remote (trim old_branch) (trim new_branch) had_remote
    ∧ (is_ok r = true → ran = upstream_commands root remote (trim old_branch) (trim new_branch) had_remote).
Proof.
  assert (wp (rename_worktree_upstream_core branch_exists git_root find_remote_for_branch remote_exists
                remote_branch_exists id old_branch new_branch)
             (upstream_post s (trim old_branch) (trim new_branch)) s) as Hwp.
  { unfold rename_worktree_upstream_core. cbv zeta.
    assert (∀ s' e, quiet s s' → upstream_post s (trim old_branch) (trim new_branch) s' (Err e)) as Herr.
    { intros s' e [Ho Hl]. split; [done|]. exists [], [], false, []. rewrite app_nil_r.
      split_and!; [done|apply prefix_nil|done]. }
    apply wp_bind, wp_guard; [intros _|intros _; by apply Herr].
    apply wp_bind, wp_guard; [intros _|intros _; by apply Herr].
    apply wp_bind, wp_worktree_and_parent; [|intros e; by apply Herr]. intros _ parent _. cbv iota.
    do 2 wp_step; [|by apply Herr]. do 2 wp_step; [|by apply Herr].
    apply wp_bind, wp_guard; [intros _|intros _; by apply Herr]. do 2 wp_step; [|by apply Herr].
    apply wp_bind. unfold upstream_remote. eapply wp_mono with (P := λ s' r, quiet s s').
    { match goal with |- context [match ?o with Some _ => _ | None => _ end] => destruct o end; wp_run; done. }
    intros s1 [remote|e] Hq; [|by apply Herr]. destruct Hq as [Ho Hl]. do 2 wp_step; [|by apply Herr].
    apply wp_bind, wp_guard; [intros _|intros _; by apply Herr].
    apply wp_push_renamed; done. }
  unfold wp in Hwp. destruct (rename_worktree_upstream_core _ _ _ _ _ _ _ _ _) as [s' r]. exact Hwp.
Qed.
End upstream_property.

(** A setup script that was marked as run is not run again. *)
Theorem worktree_setup_runs_once `{FileLaws} (s s' : State) (id data_dir : str)
  (Hkeyed : keyed (workspaces s))
  (Hmark : worktree_setup_mark_ran_core id data_dir s = (s', Ok tt)) :
  ∃ status, worktree_setup_status_core id data_dir s' = (s', Ok status) ∧ setup_should_run status = false.
Proof.
  assert (wp (worktree_setup_mark_ran_core id data_dir) (λ s1 r,
    match r with
    | Ok _ => ∃ entry, workspaces s1 !! id = Some entry
        ∧ path_exists (world s1) (worktree_setup_marker_path data_dir (entry_id entry)) = true
    | Err _ => True
    end) s) as Hwp.
  { unfold worktree_setup_mark_ran_core. wp_step. wp_step. cbv iota. wp_step. wp_step; [|done]. cbv iota.
    apply wp_bind, wp_guard; [intros _|done]. cbv zeta. unfold prepare_marker_directory.
    apply wp_bind, (wp_mono _ (λ s1 r, match r with Ok _ => workspaces s1 = workspaces s | Err _ => True end)).
    { destruct (path_parent _); wp_run; done. }
    intros s1 [[]|e] Hw; [|done]. wp_step. wp_step. cbv iota. apply wp_lift. intros w [[]|e] Hwrite; [|done].
    eexists. simpl. rewrite Hw. split; [done|]. eapply written_exists. by eapply W_map_err_ok. }
  unfold wp in Hwp. rewrite Hmark in Hwp. simpl in Hwp. destruct Hwp as (entry & He & Hex).
  unfold worktree_setup_status_core, mbind, M_bind, gets, of_option. cbn. rewrite He. cbn. rewrite Hex.
  eexists. split; [reflexivity|]. simpl. destruct (is_worktree _); [|done]. by rewrite andb_false_r.
Qed.

(** ** The theorems at concrete inputs *)

(** A machine where git does as it is told, and files can be written unless the
    disk is full. *)
Definition machine (full : bool) : Host := {|
  target_os := OtherOS; World := unit;
  is_dir := λ _ _, true; is_file := λ _ _, false; path_exists := λ _ _, false;
  read_dir_is_empty := λ _ _, Ok true; read_to_string := λ _ _, Ok [];
  create_dir_all := λ _ w, (w, Ok tt); remove_dir_all := λ _ w, (w, Ok tt);
  copy_file := λ _ _ w, (w, Ok tt); rename_file := λ _ _ w, (w, Ok tt); remove_file := λ _ w, (w, Ok tt);
  write_file := λ _ _ w, (w, if full then Err ("disk full" : str) else Ok tt);
  git := λ _ _ w, (w, Ok (MkGitOutput (Some 0%Z) [] [])); new_uuid := λ w, (w, "0b5f" : str);
  unix_seconds := λ _, 0%N; env_var := λ _ _, None; passwd_dir := λ _, None
|}.

Definition forest (full : bool) : State (H := machine full) :=
  MkState (machine full)
    (<["w1a" : str := demo_worktree]> (<["w2" : str := demo_second]> {["w1" : str := demo_entry]})) ∅ ∅ 0
    (AppSettings_default OtherOS) [] tt.

Lemma forest_ok full : entries_ok (workspaces (forest full)) ∧ sessions_ok (forest full) ∧ no_orphans (forest full).
Proof. split; [exact demo_forest_ok|]. apply no_sessions_ok; reflexivity. Qed.

Lemma forest_fresh full (w w' : World (Host := machine full)) id :
  new_uuid w = (w', id) → workspaces (forest full) !! id = None ∧ sessions (forest full) !! id = None.
Proof. intros Hu. injection Hu as _ <-. split; reflexivity. Qed.

Definition forest_spawn (full : bool) (entry : WorkspaceEntry) (bin args home : option str)
    : W (H := machine full) WorkspaceSession :=
  λ w, (w, Ok (new_session args (entry_id entry) (entry_path entry))).

Definition forest_add (full : bool) : M (H := machine full) WorkspaceInfo :=
  add_worktree_core (H0 := map_order) (H1 := demo_serde) (forest_spawn full) demo_file "/data"
    sanitize_worktree_name (λ _ base name, Ok (path_join base name)) (λ _ _ w, (w, Ok true)) None
    "w1" "feature/x" None false.

Definition forest_rename (full : bool) : M (H := machine full) WorkspaceInfo :=
  rename_worktree_core (H0 := map_order) (H1 := demo_serde) demo_file "/data" sanitize_worktree_name
    (λ _ base name _, Ok (path_join base name)) (λ e w, (w, Ok (entry_path e))) (λ _ name w, (w, Ok name))
    "w1a" "renamed".

(** With a full disk the renaming is refused, and undone. *)
Lemma rename_worktree_core_all_or_nothing_witness :
  is_ok (forest_rename true (forest true)).2 = false
  ∧ workspaces (forest_rename true (forest true)).1 = workspaces (forest true).
Proof.
  split; [vm_compute; reflexivity|].
  destruct (@rename_worktree_core_all_or_nothing (machine true) map_order demo_serde demo_file "/data"
    sanitize_worktree_name (λ _ base name _, Ok (path_join base name)) (λ e w, (w, Ok (entry_path e)))
    (λ _ name w, (w, Ok name)) (forest true) (forest_rename true (forest true)).1 (Err ("disk full" : str))
    "w1a" "renamed" (entries_keyed _ demo_forest_ok)) as (_ & Hw & _).
  - vm_compute. reflexivity.
  - exact Hw.
Defined.

Lemma add_worktree_core_adds_a_child_witness :
  is_ok (forest_add false (forest false)).2 = true ∧ entries_ok (workspaces (forest_add false (forest false)).1).
Proof.
  split; [vm_compute; reflexivity|]. destruct (forest_ok false) as (He & Hok & Hno).
  apply (@add_worktree_core_adds_a_child (machine false) map_order demo_serde (forest_spawn false) demo_file "/data"
    sanitize_worktree_name (λ _ base name, Ok (path_join base name)) (λ _ _ w, (w, Ok true)) None
    (forest false) (forest_add false (forest false)).1 (forest_add false (forest false)).2
    "w1" "feature/x" None false He Hok Hno (λ w w' id Hu, proj1 (forest_fresh false w w' id Hu))).
  apply surjective_pairing.
Defined.

Lemma add_worktree_core_keeps_what_it_could_not_store_witness :
  ∃ l, live (forest_add true (forest true)).1 l ∧ ¬ held (forest_add true (forest true)).1 l.
Proof.
  destruct (@add_worktree_core_keeps_what_it_could_not_store (machine true) map_order demo_serde (forest_spawn true)
    demo_file "/data" sanitize_worktree_name (λ _ base name, Ok (path_join base name)) (λ _ _ w, (w, Ok true)) None
    (forest true) (forest_add true (forest true)).1 "disk full" "w1" "feature/x" None false
    (entries_keyed _ demo_forest_ok) (forest_fresh true)) as (e & l & _ & _ & _ & Hl & Hh).
  - intros l [k Hk]. discriminate Hk.
  - vm_compute. reflexivity.
  - intros Heq. apply (f_equal (λ m, m !! ("0b5f" : str))) in Heq. vm_compute in Heq. discriminate Heq.
  - exists l. split; [exact Hl|exact Hh].
Defined.

Lemma remove_worktree_core_removes_witness :
  workspaces (remove_worktree_core (H0 := map_order) (H1 := demo_serde) demo_file "w1a" (forest false)).1
    !! ("w1a" : str) = None.
Proof.
  destruct (forest_ok false) as (He & Hok & Hno).
  destruct (@remove_worktree_core_removes (machine false) map_order demo_serde demo_file (forest false)
    (remove_worktree_core (H0 := map_order) (H1 := demo_serde) demo_file "w1a" (forest false)).1 (Ok tt) "w1a"
    He Hok Hno) as (_ & _ & _ & _ & Hw & _).
  - vm_compute. reflexivity.
  - rewrite Hw. apply lookup_delete_eq.
Defined.

Definition marked_state (w : option str) : State (H := one_file_host) :=
  MkState one_file_host {["w1a" : str := set_entry_settings demo_worktree demo_new_settings]} ∅ ∅ 0
    (AppSettings_default OtherOS) [] w.

Lemma worktree_setup_runs_once_witness :
  ∃ status, worktree_setup_status_core "w1a" "/data" (marked_state (Some (lit "ran_at=0" ++ [ch_nl]))) =
    (marked_state (Some (lit "ran_at=0" ++ [ch_nl])), Ok status) ∧ setup_should_run status = false.
Proof.
  apply (@worktree_setup_runs_once one_file_host one_list_serde one_file_laws (marked_state None) _ "w1a" "/data").
  - intros k e Hk. unfold marked_state, workspaces in Hk. apply lookup_singleton_Some in Hk as [<- <-]. reflexivity.
  - vm_compute. reflexivity.
Defined.
