(* ===== verification/Lifecycle.v ===== *)
(** The backend over time. The operations on workspaces, the activity of their
    sessions and the death of processes are the steps of one transition
    system; what holds in every state it reaches is the contract of the
    workspace components together. *)
From S2P Require Import Prelude Json Paths Types Host AppServer Session Storage Workspaces WorkspaceCrud Worktrees.

Section lifecycle.
Context `{Host, HashOrder, Serde}.
Context (spawn_session : WorkspaceEntry → option str → option str → option str → W WorkspaceSession).
Context (data_dir : str).
Context (sanitize : str → str).
Context (unique_worktree_path : World → str → str → result str str).
Context (unique_worktree_path_for_rename : World → str → str → str → result str str).
Context (branch_exists : str → str → W bool).
Context (find_remote_tracking : option (str → str → W (option str))).
Context (git_root : WorkspaceEntry → W str).
Context (unique_branch_name : str → str → W str).

#[local] Abbreviation storage_path := (path_join data_dir "workspaces.json").

(** The state after start-up; files that cannot be read count as missing. *)
Definition load (w : World) : State :=
  let '(w, ws) := read_workspaces storage_path w in
  let '(w, settings) := read_settings (path_join data_dir "settings.json") w in
  MkState _ (match ws with Ok m => m | Err _ => ∅ end) ∅ ∅ 0
    (match settings with Ok a => a | Err _ => AppSettings_default target_os end) [] w.

Definition set_app_settings (a : AppSettings) (s : State) : State :=
  MkState _ (workspaces s) (sessions s) (processes s) (next_process s) a (git_log s) (world s).

(** What a session does between two operations keeps the workspaces it knows. *)
Definition session_activity (f : WorkspaceSession → WorkspaceSession) : Prop :=
  ∀ ws, workspace_ids ws ⊆ workspace_ids (f ws).

(** The processes that an operation started. *)
Definition started_by (s s' : State) : gset nat := dom (processes s') ∖ dom (processes s).

(** The operations, with the arguments of their callers. A step names the processes
    that it leaves to no one: those of the addition of a worktree that is in memory
    but whose file could not be written. *)
Inductive backend_step (s : State) : gset nat → State → Prop :=
| step_connect id :
    backend_step s ∅ (connect_workspace_core spawn_session id s).1
| step_runtime_args id override :
    backend_step s ∅ (set_workspace_runtime_codex_args_core spawn_session id override s).1
| step_add path :
    uuid_fresh s → backend_step s ∅ (add_workspace_core spawn_session storage_path path s).1
| step_clone source copy_name copies_folder :
    uuid_fresh s →
    backend_step s ∅ (add_clone_core spawn_session storage_path source copy_name copies_folder s).1
| step_add_from_url url destination folder :
    uuid_fresh s →
    backend_step s ∅ (add_workspace_from_git_url_core spawn_session storage_path url destination folder s).1
| step_remove id :
    backend_step s ∅ (remove_workspace_core storage_path id true true s).1
| step_settings id settings :
    backend_step s ∅ (update_workspace_settings_core storage_path id settings s).1
| step_add_worktree parent_id branch name copy s' r :
    uuid_fresh s →
    add_worktree_core spawn_session storage_path data_dir sanitize unique_worktree_path branch_exists
      find_remote_tracking parent_id branch name copy s = (s', r) →
    is_ok r = true ∨ workspaces s' = workspaces s →
    backend_step s ∅ s'
| step_add_worktree_unstored parent_id branch name copy s' e :
    uuid_fresh s →
    add_worktree_core spawn_session storage_path data_dir sanitize unique_worktree_path branch_exists
      find_remote_tracking parent_id branch name copy s = (s', Err e) →
    workspaces s' ≠ workspaces s →
    backend_step s (started_by s s') s'
| step_remove_worktree id :
    backend_step s ∅ (remove_worktree_core storage_path id s).1
| step_rename_worktree id branch :
    backend_step s ∅ (rename_worktree_core storage_path data_dir sanitize unique_worktree_path_for_rename
      git_root unique_branch_name id branch s).1
| step_process_exits l : backend_step s ∅ (kill_process l s)
| step_session l f : session_activity f → backend_step s ∅ (update_session l f s)
| step_app_settings a : backend_step s ∅ (set_app_settings a s)
| step_machine w : backend_step s ∅ (set_world w s).

(** Start-up from a file of workspaces that is a forest. *)
Definition started (s : State) : Prop := ∃ w, s = load w ∧ entries_ok (workspaces s).

(** The states that are reached, with all the processes that were left to no one. *)
Inductive backend_reachable : gset nat → State → Prop :=
| reached_start s : started s → backend_reachable ∅ s
| reached_step lost s more s' : backend_reachable lost s → backend_step s more s' → backend_reachable (lost ∪ more) s'.

Record backend_inv (lost : gset nat) (s : State) : Prop := {
  backend_entries : entries_ok (workspaces s);
  backend_sessions : sessions_ok s;
  backend_orphans : orphans_in (.∈ lost) s;
  backend_known : ∀ id l, sessions s !! id = Some l → is_Some (workspaces s !! id)
}.

(** ** Lemmas *)

Section kept.
Context (lost : gset nat).

Lemma inv_kept s s' :
  backend_inv lost s → sessions_kept s s' → entries_ok (workspaces s') →
  (∀ id l, sessions s' !! id = Some l → is_Some (workspaces s' !! id)) → backend_inv lost s'.
Proof. intros [He Hs Hn Hk] [Ho Hno] He' Hk'. split; auto. Qed.

Lemma inv_started s : started s → backend_inv ∅ s.
Proof.
  intros (w & Hload & He). assert (sessions s = ∅ ∧ processes s = ∅) as [Hs Hp].
  { subst. unfold load. destruct (read_workspaces _ w) as [w1 ws]. by destruct (read_settings _ w1). }
  destruct (no_sessions_ok s Hs Hp) as [Hok Hno]. split; try done; [intros l Hl; left; by apply Hno|]. intros id l. by rewrite Hs lookup_empty.
Qed.

Lemma inv_connect s id : backend_inv lost s → backend_inv lost (connect_workspace_core spawn_session id s).1.
Proof.
  intros Hinv. pose proof (connect_kept spawn_session id s) as Hk.
  pose proof (resolve_entry_spec id s) as Hres. destruct Hinv as [He Hs Hn Hknown] eqn:Hi.
  assert (workspaces (connect_workspace_core spawn_session id s).1 = workspaces s
    ∧ ∀ k l, sessions (connect_workspace_core spawn_session id s).1 !! k = Some l →
        is_Some (workspaces s !! k)) as [Hw Hks].
  2: { eapply inv_kept; [exact Hinv|done|by rewrite Hw|by rewrite Hw]. }
  clear Hi Hk. destruct (workspaces s !! id) as [entry|] eqn:Hent.
  2: { unfold connect_workspace_core, mbind, M_bind. rewrite Hres. done. }
  pose proof (connect_workspace_post spawn_session _ _ _ _ Hres) as Hpost. unfold wp in Hpost.
  destruct (connect_workspace_core spawn_session id s) as [s' [[]|e]]; simpl in *.
  - destruct Hpost as [[-> _]|(s0 & s1 & l & sp & _ & Hw0 & Hsub & _ & _ & _ & _ & Hr & ->)]; [done|].
    split; [simpl; by rewrite (ready_entries _ _ _ _ Hr)|]. simpl.
    intros k l' [[<- _]|[_ Hl]]%lookup_insert_Some.
    + by rewrite (entries_keyed _ He _ _ Hent) Hent.
    + eapply Hknown, lookup_weaken; [exact Hl|]. etrans; [apply (ready_sub _ _ _ _ Hr)|done].
  - destruct Hpost as (s0 & _ & Hw0 & Hsub & _ & _ & Hn0 & _). split; [by rewrite (failed_entries _ _ Hn0)|].
    intros k l' Hl. eapply Hknown, lookup_weaken; [exact Hl|]. etrans; [apply (failed_sub _ _ Hn0)|done].
Qed.

Lemma inv_add s s' r : backend_inv lost s → add_post storage_path s s' r → backend_inv lost s'.
Proof.
  intros Hinv [Hk Hr]. destruct r as [info|e].
  - destruct Hr as (e & Hf & Hm & Hp & _ & Hw & _ & _ & Hids). eapply inv_kept; [done|done|..]; rewrite Hw.
    + apply entries_ok_insert_main; [apply Hinv|done..].
    + intros id l [->|[l' Hl]]%Hids; [by rewrite lookup_insert_eq|].
      apply lookup_insert_is_Some'. right. by eapply (backend_known _ _ Hinv).
  - destruct Hr as [Hw Hsub]. eapply inv_kept; [done|done|..]; rewrite Hw; [apply Hinv|].
    intros id l Hl. by eapply (backend_known _ _ Hinv), lookup_weaken.
Qed.

Lemma inv_remove s id : backend_inv lost s → backend_inv lost (remove_workspace_core storage_path id true true s).1.
Proof.
  intros Hinv. pose proof (remove_workspace_core_post storage_path id true s (backend_entries _ _ Hinv)) as Hwp.
  unfold wp in Hwp. destruct Hwp as (Hk & _ & ids & Hw & Hids & Hs & Hall & _).
  eapply inv_kept; [done|done|..]; rewrite Hw.
  - eapply entries_ok_remove; [apply Hinv|done|]. by rewrite -Hw.
  - intros k l [Hl Hn]%Hs. rewrite lookup_remove_all decide_False //. by eapply (backend_known _ _ Hinv).
Qed.

Lemma inv_settings s id settings :
  backend_inv lost s → backend_inv lost (update_workspace_settings_core storage_path id settings s).1.
Proof.
  intros Hinv.
  pose proof (update_workspace_settings_post storage_path id settings s (entries_keyed _ (backend_entries _ _ Hinv)))
    as Hwp.
  unfold wp in Hwp. destruct Hwp as (Hs & Hp & Hn & _ & Hw).
  set (s' := (update_workspace_settings_core storage_path id settings s).1) in *.
  assert (∃ f, (∀ k e, entry_id (f k e) = entry_id e ∧ entry_kind (f k e) = entry_kind e
          ∧ entry_parent_id (f k e) = entry_parent_id e) ∧ ∀ k, workspaces s' !! k = f k <$> workspaces s !! k)
    as (f & Hf & Hfw).
  { destruct (workspaces s !! id) as [previous|].
    - destruct Hw as [Hw _]. eexists. split; [|exact Hw]. apply updated_entry_shape.
    - destruct Hw as [_ Hw]. exists (λ _ e, e). split; [done|]. intros k. rewrite Hw. by destruct (workspaces s !! k). }
  eapply inv_kept; [done|by apply sessions_kept_same|..].
  - eapply entries_ok_shape; [exact Hf|exact Hfw|apply Hinv].
  - intros k l. rewrite Hs Hfw. intros Hl. apply fmap_is_Some. by eapply (backend_known _ _ Hinv).
Qed.

Lemma inv_runtime_args s id override :
  backend_inv lost s → backend_inv lost (set_workspace_runtime_codex_args_core spawn_session id override s).1.
Proof.
  intros Hinv. pose proof (runtime_args_kept spawn_session id override s) as Hk.
  assert (workspaces (set_workspace_runtime_codex_args_core spawn_session id override s).1 = workspaces s
    ∧ ∀ k, is_Some (sessions (set_workspace_runtime_codex_args_core spawn_session id override s).1 !! k) →
           is_Some (sessions s !! k)) as [Hw Hs].
  2: { eapply inv_kept; [done|done|..]; rewrite Hw; [apply Hinv|]. intros k l Hl.
       destruct (Hs k) as [l' Hl']; [by exists l|]. by eapply (backend_known _ _ Hinv). }
  change (wp (set_workspace_runtime_codex_args_core spawn_session id override)
            (λ s' _, workspaces s' = workspaces s ∧ ∀ k, is_Some (sessions s' !! k) → is_Some (sessions s !! k)) s).
  apply wp_bind. unfold wp at 1. rewrite resolve_entry_spec /=.
  destruct (workspaces s !! id) as [entry|]; [|done]. simpl. wp_run; [done|].
  destruct (first_session s) as [old|] eqn:Hf; wp_run; [done| |done].
  apply first_session_Some in Hf. apply wp_respawn; intros w ws; [|done].
  assert (old < next_process s) as Hlt.
  { destruct Hf as [k Hl]. destruct (ok_registered _ (backend_sessions _ _ Hinv) _ _ Hl) as (p & Hp & _).
    by eapply (ok_below _ (backend_sessions _ _ Hinv)). }
  destruct (respawned_parts s w ws old ltac:(lia)) as (Hs & Hw & _). split; [done|].
  intros k. rewrite Hs lookup_fmap. by intros Hsome%fmap_is_Some.
Qed.

Lemma inv_process s l : backend_inv lost s → backend_inv lost (kill_process l s).
Proof.
  intros [He [Hsh Hr Hb] Hn Hk]. split; try done.
  - split; [done|..].
    + intros id l' Hl. destruct (Hr _ _ Hl) as (p & Hp & Hin). unfold kill_process, set_processes, processes at 1.
      destruct (decide (l = l')) as [<-|Hne].
      * rewrite lookup_alter_eq Hp. by eexists.
      * rewrite lookup_alter_ne //. by exists p.
    + intros l' p. unfold kill_process, set_processes, processes at 1. rewrite lookup_alter.
      case_decide; [|by apply Hb]. intros (p0 & Hp0 & _)%fmap_Some. subst. by eapply Hb.
  - intros l' [Hl _]%kill_process_live. by apply (Hn l').
Qed.

Lemma inv_session s l f : session_activity f → backend_inv lost s → backend_inv lost (update_session l f s).
Proof.
  intros Hf [He [Hsh Hr Hb] Hn Hk]. split; try done.
  - split; [done|..].
    + intros id l' Hl. destruct (Hr _ _ Hl) as (p & Hp & Hin). unfold update_session, set_processes, processes at 1.
      destruct (decide (l = l')) as [<-|Hne].
      * rewrite lookup_alter_eq Hp. eexists. split; [reflexivity|]. by apply Hf.
      * rewrite lookup_alter_ne //. by exists p.
    + intros l' p. unfold update_session, set_processes, processes at 1. rewrite lookup_alter.
      case_decide; [|by apply Hb]. intros (p0 & Hp0 & _)%fmap_Some. subst. by eapply Hb.
  - intros l' Hl%live_update. by apply (Hn l').
Qed.

Lemma inv_add_worktree s s' r parent_id :
  backend_inv lost s → add_worktree_post storage_path parent_id s s' r →
  is_ok r = true ∨ workspaces s' = workspaces s → backend_inv lost s'.
Proof.
  intros Hinv Hpost Hstored. destruct r as [info|e].
  - destruct Hpost as (e & Hnew & _ & Hw & _ & _ & Hk & Hids). eapply inv_kept; [done|done|..]; rewrite Hw.
    + eapply new_worktree_entries_ok; [apply Hinv|done].
    + intros id l [->|[l' Hl]]%Hids; [by rewrite lookup_insert_eq|].
      apply lookup_insert_is_Some'. right. by eapply (backend_known _ _ Hinv).
  - destruct Hpost as [(Hw & Hsub & Hk)|(e' & s0 & s1 & l & sp & Hnew & _ & _ & Hw & _)].
    + eapply inv_kept; [done|done|..]; rewrite Hw; [apply Hinv|].
      intros id l Hl. by eapply (backend_known _ _ Hinv), lookup_weaken.
    + destruct Hstored as [|Hsame]; [done|]. destruct Hnew as (Hf & _).
      by rewrite -Hsame Hw lookup_insert_eq in Hf.
Qed.

Lemma add_worktree_ends s s' r parent_id branch name copy :
  backend_inv lost s → uuid_fresh s →
  add_worktree_core spawn_session storage_path data_dir sanitize unique_worktree_path branch_exists
    find_remote_tracking parent_id branch name copy s = (s', r) → add_worktree_post storage_path parent_id s s' r.
Proof.
  intros Hinv Hf Hrun. pose proof (add_worktree_core_post spawn_session storage_path data_dir sanitize unique_worktree_path
    branch_exists find_remote_tracking parent_id branch name copy s Hf (entries_keyed _ (backend_entries _ _ Hinv))) as Hwp.
  unfold wp in Hwp. by rewrite Hrun in Hwp.
Qed.
(** The one way to leave a process to no one. *)
Lemma inv_add_worktree_unstored s s' e parent_id :
  backend_inv lost s → add_worktree_post storage_path parent_id s s' (Err e) →
  workspaces s' ≠ workspaces s → backend_inv (lost ∪ started_by s s') s'.
Proof.
  intros Hinv [(Hw & _)|(e' & s0 & s1 & l & sp & Hnew & Ho & Hr & Hw & Hs & Hp & Hn)] Hne; [done|].
  pose proof (outside_kept _ _ Ho) as Hk0. destruct Ho as (Hw0 & Hs0 & Hp0 & Hn0 & _).
  pose proof (kept_ok _ _ Hk0 (backend_sessions _ _ Hinv)) as Hok0.
  destruct (ready_ok _ _ _ _ Hr Hok0) as [Hok1 _]. destruct (same_sessions_iff s1 s' Hs Hp Hn) as [Hok' _]. split.
  - rewrite Hw. eapply new_worktree_entries_ok; [apply Hinv|done].
  - by apply Hok'.
  - pose proof (kept_orphans _ _ Hk0 _ (backend_sessions _ _ Hinv) (backend_orphans _ _ Hinv)) as Hor.
    intros l' Hl'. assert (live s1 l') as Hl1 by (revert Hl'; unfold live, session_process_is_alive; by rewrite Hp).
    destruct (ready_orphans _ _ _ _ Hr _ Hor l' Hl1) as [->|[Hh|Hh]]; [|by left; apply (held_unchanged s1)|right; set_solver].
    pose proof (ready_spawned _ _ _ _ Hr) as Hsp. destruct sp; [|left; apply (held_unchanged s1); [done|apply Hsp]].
    right. apply elem_of_union_r. unfold started_by. rewrite elem_of_difference. destruct Hsp as (_ & -> & _). split.
    + destruct (live_process _ _ Hl') as (p & Hpl & _). by apply elem_of_dom.
    + intros [p Hpl]%elem_of_dom. rewrite -Hp0 in Hpl. pose proof (ok_below _ Hok0 _ _ Hpl). lia.
  - intros id k Hk. rewrite Hs in Hk. rewrite Hw. apply lookup_insert_is_Some'. right.
    apply (backend_known _ _ Hinv id k). rewrite -Hs0. eapply lookup_weaken; [exact Hk|apply (ready_sub _ _ _ _ Hr)].
Qed.

Lemma inv_remove_worktree s id : backend_inv lost s → backend_inv lost (remove_worktree_core storage_path id s).1.
Proof.
  intros Hinv. pose proof (remove_worktree_core_post storage_path id s (entries_keyed _ (backend_entries _ _ Hinv)))
    as Hwp.
  unfold wp in Hwp. destruct Hwp as (Hk & _ & Hsub & Hr).
  set (s' := (remove_worktree_core storage_path id s).1) in *.
  assert (workspaces s' = workspaces s ∨ (∃ entry parent, worktree_with_parent s id entry parent)
    ∧ workspaces s' = delete id (workspaces s) ∧ sessions s' !! id = None) as Hw.
  { destruct ((remove_worktree_core storage_path id s).2); [|done].
    right. destruct Hr as (entry & parent & ? & ? & _ & ?). eauto. }
  destruct Hw as [Hw|((entry & parent & Hwp) & Hw & Hnone)]; (eapply inv_kept; [done|done|..]); rewrite Hw.
  - apply Hinv.
  - intros k l Hl%Hsub. by eapply (backend_known _ _ Hinv).
  - eapply delete_worktree_entries_ok; [apply Hinv|done].
  - intros k l Hl. rewrite lookup_delete_ne; [intros ->; by rewrite Hnone in Hl|].
    by eapply (backend_known _ _ Hinv), Hsub.
Qed.

Lemma renamed_entries_ok s id p entry parent :
  entries_ok (workspaces s) → worktree_with_parent s id entry parent →
  entries_ok (<[id := renamed_entry p entry]> (workspaces s)).
Proof.
  intros Hok (He & _). eapply (entries_ok_shape _ _ (λ k e, if decide (k = id) then renamed_entry p e else e));
    [|..|exact Hok].
  - intros k e. by case_decide.
  - intros k. rewrite lookup_insert. case_decide; [subst; by rewrite He /= decide_True|].
    destruct (workspaces s !! k); simpl; [by rewrite decide_False|done].
Qed.

Lemma inv_rename s id branch :
  backend_inv lost s →
  backend_inv lost (rename_worktree_core storage_path data_dir sanitize unique_worktree_path_for_rename
    git_root unique_branch_name id branch s).1.
Proof.
  intros Hinv. pose proof (rename_worktree_post storage_path data_dir sanitize unique_worktree_path_for_rename
    git_root unique_branch_name id branch s (entries_keyed _ (backend_entries _ _ Hinv))) as Hwp.
  unfold wp in Hwp. destruct Hwp as (Hs & Hn & _ & Hr). revert Hs Hn Hr.
  destruct (rename_worktree_core _ _ _ _ _ _ _ _ s) as [s' [info|e]]; simpl; intros Hs Hn Hr.
  - destruct Hr as (p & entry & parent & Hwp & _ & Hw & _ & _ & _ & Hlive & Hok).
    pose proof (renamed_entries_ok s id p entry parent (backend_entries _ _ Hinv) Hwp) as Hok'.
    split; [by rewrite Hw|by apply Hok, Hinv| |].
    + intros l Hl%Hlive. unfold held. rewrite Hs. by apply (backend_orphans _ _ Hinv).
    + intros k l. rewrite Hs Hw. intros Hl. apply lookup_insert_is_Some'. right. by eapply (backend_known _ _ Hinv).
  - destruct Hr as (Hw & Hp & _). eapply inv_kept; [done|by apply sessions_kept_same|..]; rewrite Hw; [apply Hinv|].
    rewrite Hs. apply (backend_known _ _ Hinv).
Qed.
End kept.

Lemma backend_inv_step lost s more s' : backend_step s more s' → backend_inv lost s → backend_inv (lost ∪ more) s'.
Proof.
  assert (∀ s', backend_inv lost s' → backend_inv (lost ∪ ∅) s') as Hsame by (intros s1; by rewrite union_empty_r_L).
  destruct 1; intros Hinv; try apply Hsame.
  - by apply inv_connect.
  - by apply inv_runtime_args.
  - eapply inv_add; [done|]. by apply add_workspace_core_post.
  - eapply inv_add; [done|]. by apply add_clone_core_post.
  - eapply inv_add; [done|]. by apply add_workspace_from_git_url_core_post.
  - by apply inv_remove.
  - by apply inv_settings.
  - eapply inv_add_worktree; [done| |done]. by eapply add_worktree_ends.
  - eapply inv_add_worktree_unstored; [done| |done]. by eapply add_worktree_ends.
  - by apply inv_remove_worktree.
  - by apply inv_rename.
  - by apply inv_process.
  - by apply inv_session.
  - eapply inv_kept; [exact Hinv|by apply sessions_kept_same|apply Hinv|apply (backend_known _ _ Hinv)].
  - eapply inv_kept; [exact Hinv|by apply sessions_kept_same|apply Hinv|apply (backend_known _ _ Hinv)].
Qed.

Lemma backend_inv_reachable lost s : backend_reachable lost s → backend_inv lost s.
Proof. induction 1; [by apply inv_started|by eapply backend_inv_step]. Qed.

(** ** The contract of the backend *)

(** C1. In every state the backend reaches from its start, on a file whose workspaces
    form a forest, by operations on workspaces that succeed or fail, activity of the
    sessions and death of processes in any order, with fresh identifiers for new
    workspaces: the workspaces form a forest of depth one, stored under their ids; all
    connected workspaces are stored workspaces that share one process, whose
    session knows each of them; and every codex process that runs belongs to a
    connected workspace, or was started by an addition of a worktree whose file
    could not be written, which leaves its process to no one. *)
Theorem every_reachable_state_is_sound lost s :
  backend_reachable lost s →
  (∀ k e, workspaces s !! k = Some e → entry_id e = k ∧
     match entry_kind e with
     | Main => entry_parent_id e = None
     | Worktree => ∃ p parent, entry_parent_id e = Some p ∧ workspaces s !! p = Some parent
                     ∧ entry_kind parent = Main
     end)
  ∧ (∀ id l, sessions s !! id = Some l → is_Some (workspaces s !! id)
       ∧ (∃ p, processes s !! l = Some p ∧ id ∈ workspace_ids (proc_session p))
       ∧ ∀ id', is_Some (sessions s !! id') → sessions s !! id' = Some l)
  ∧ ∀ l, live s l → (∃ id, sessions s !! id = Some l) ∨ l ∈ lost.
Proof.
  intros [[Hk Hm Ht] [Hsh Hr _] Hno Hknown]%backend_inv_reachable. split_and!; [| |exact Hno].
  - intros k e He. split; [by apply Hk|]. destruct (entry_kind e) eqn:Hkind; [by eapply Hm|by eapply Ht].
  - intros id l Hl. split_and!; [by eapply Hknown|by apply Hr|].
    intros id' [l' Hl']. rewrite Hl'. f_equal. by eapply Hsh.
Qed.
End lifecycle.

(** ** The theorem at a concrete history *)

(** A machine with a file of workspaces: a repository and its worktree. *)
Definition stored_host : Host := {|
  target_os := OtherOS; World := unit;
  is_dir := λ _ _, true; is_file := λ _ _, false; path_exists := λ _ _, true;
  read_dir_is_empty := λ _ _, Ok true; read_to_string := λ _ _, Ok [];
  create_dir_all := λ _ w, (w, Ok tt); remove_dir_all := λ _ w, (w, Ok tt);
  copy_file := λ _ _ w, (w, Ok tt); rename_file := λ _ _ w, (w, Ok tt); remove_file := λ _ w, (w, Ok tt);
  write_file := λ _ _ w, (w, Ok tt); git := demo_git; new_uuid := λ w, (w, "0b5f" : str);
  unix_seconds := λ _, 0%N; env_var := λ _ _, None; passwd_dir := λ _, None
|}.

Definition stored_serde : Serde := {|
  entries_to_string := λ l, Ok ("[]" : str);
  entries_from_str := λ _, Ok [demo_entry; demo_worktree];
  value_from_str := λ _, Ok (VObject []);
  settings_from_value := λ _, Ok (AppSettings_default OtherOS);
  settings_to_string := λ _, Ok ("{}" : str)
|}.

Definition stored_spawn (entry : WorkspaceEntry) (bin args home : option str)
    : W (H := stored_host) WorkspaceSession :=
  λ w, (w, Ok (new_session args (entry_id entry) (entry_path entry))).

Definition stored_state : State (H := stored_host) := load (H1 := stored_serde) "/data" (tt : World (Host := stored_host)).
Definition connect_stored (id : str) (s : State (H := stored_host)) : State (H := stored_host) :=
  (connect_workspace_core (H0 := map_order) stored_spawn id s).1.

Lemma stored_entries :
  workspaces stored_state = <["w1a" : str := demo_worktree]> {["w1" : str := demo_entry]}.
Proof. vm_compute. reflexivity. Qed.

Lemma stored_entries_ok : entries_ok (workspaces stored_state).
Proof.
  rewrite stored_entries.
  split; intros k e Hk; apply lookup_insert_Some in Hk as [[<- <-]|[_ [<- <-]%lookup_singleton_Some]]; try done.
  intros _. exists "w1", demo_entry. by vm_compute.
Qed.

(** Start-up, then both the repository and its worktree are connected. *)
Lemma every_reachable_state_is_sound_witness :
  sessions (connect_stored "w1a" (connect_stored "w1" stored_state)) !! ("w1" : str) = Some 0
  ∧ sessions (connect_stored "w1a" (connect_stored "w1" stored_state)) !! ("w1a" : str) = Some 0.
Proof.
  set (s := connect_stored "w1a" (connect_stored "w1" stored_state)).
  assert (sessions s !! ("w1" : str) = Some 0) as Hl by (vm_compute; reflexivity).
  split; [exact Hl|].
  destruct (@every_reachable_state_is_sound stored_host map_order stored_serde stored_spawn "/data"
    sanitize_worktree_name (λ _ base name, Ok (path_join base name)) (λ _ base name _, Ok (path_join base name))
    (λ _ _ w, (w, Ok true)) None (λ e w, (w, Ok (entry_path e))) (λ _ name w, (w, Ok name)) (∅ ∪ ∅ ∪ ∅) s)
    as (_ & Hs & _).
  - eapply reached_step; [eapply reached_step; [apply reached_start; exists tt; split; [reflexivity|exact stored_entries_ok]|]|].
    + apply (step_connect _ _ _ _ _ _ _ _ _ _ "w1").
    + apply (step_connect _ _ _ _ _ _ _ _ _ _ "w1a").
  - destruct (Hs _ _ Hl) as (_ & _ & Hall). apply Hall. eexists. vm_compute. reflexivity.
Defined.
