(* ===== verification/PatchParser.v ===== *)
(** The patches of the codex agent, parsed: [codex-rs/apply-patch/src/parser.rs].
    A patch text is a list of lines; the parser turns the lines between its
    markers into hunks, in one of three modes. *)
From S2P Require Import Prelude.
#[local] Open Scope nat_scope.

(** ** Data *)

Definition BEGIN_PATCH_MARKER : str := "*** Begin Patch".
Definition END_PATCH_MARKER : str := "*** End Patch".
Definition ADD_FILE_MARKER : str := "*** Add File: ".
Definition DELETE_FILE_MARKER : str := "*** Delete File: ".
Definition UPDATE_FILE_MARKER : str := "*** Update File: ".
Definition MOVE_TO_MARKER : str := "*** Move to: ".
Definition EOF_MARKER : str := "*** End of File".
Definition CHANGE_CONTEXT_MARKER : str := "@@ ".
Definition EMPTY_CHANGE_CONTEXT_MARKER : str := "@@".
Definition PARSE_IN_STRICT_MODE : bool := false.

Inductive ParseError : Type :=
| InvalidPatchError (message : str)
| InvalidHunkError (message : str) (line_number : nat).

Record UpdateFileChunk := MkUpdateFileChunk {
  change_context : option str;
  old_lines : list str;
  new_lines : list str;
  is_end_of_file : bool
}.

Inductive Hunk : Type :=
| AddFile (path contents : str)
| DeleteFile (path : str)
| UpdateFile (path : str) (move_path : option str) (chunks : list UpdateFileChunk).

(** The path a hunk affects: the destination of a move. *)
Definition hunk_path (h : Hunk) : str :=
  match h with
  | AddFile path _ => path
  | DeleteFile path => path
  | UpdateFile _ (Some path) _ => path
  | UpdateFile path None _ => path
  end.

Record ApplyPatchArgs := MkApplyPatchArgs {
  args_patch : str;
  args_hunks : list Hunk;
  args_workdir : option str
}.

(** No error of the parser has this message; a loop that ran out of fuel has. *)
Definition out_of_fuel : ParseError := InvalidPatchError [].

Inductive ParseMode : Type := Strict | Lenient | Streaming.

(** ** Chunks of an update *)

Definition no_lines_message : str := "Update hunk does not contain any lines".
Definition unexpected_line_message (line : str) : str :=
  lit "Unexpected line found in update hunk: '" ++ line
  ++ lit "'. Every line should start with ' ' (context line), '+' (added line), or '-' (removed line)".

Definition push_old (l : str) (c : UpdateFileChunk) : UpdateFileChunk :=
  MkUpdateFileChunk (change_context c) (old_lines c ++ [l]) (new_lines c) (is_end_of_file c).
Definition push_new (l : str) (c : UpdateFileChunk) : UpdateFileChunk :=
  MkUpdateFileChunk (change_context c) (old_lines c) (new_lines c ++ [l]) (is_end_of_file c).
Definition set_end_of_file (c : UpdateFileChunk) : UpdateFileChunk :=
  MkUpdateFileChunk (change_context c) (old_lines c) (new_lines c) true.

(** The loop over the lines of a chunk, with the number of lines taken. *)
Fixpoint parse_chunk_lines (line_number : nat) (lines : list str) (chunk : UpdateFileChunk) (parsed_lines : nat)
    : result ParseError (UpdateFileChunk * nat) :=
  match lines with
  | [] => Ok (chunk, parsed_lines)
  | line :: rest =>
      if line =s? EOF_MARKER then
        if (parsed_lines =? 0)%nat then Err (InvalidHunkError no_lines_message (line_number + 1))
        else Ok (set_end_of_file chunk, S parsed_lines)
      else
        match line with
        | [] => parse_chunk_lines line_number rest (push_new [] (push_old [] chunk)) (S parsed_lines)
        | c :: contents =>
            if (c =? ch_sp)%N then
              parse_chunk_lines line_number rest (push_new contents (push_old contents chunk)) (S parsed_lines)
            else if (c =? ch_plus)%N then
              parse_chunk_lines line_number rest (push_new contents chunk) (S parsed_lines)
            else if (c =? ch_minus)%N then
              parse_chunk_lines line_number rest (push_old contents chunk) (S parsed_lines)
            else if (parsed_lines =? 0)%nat then
              Err (InvalidHunkError (unexpected_line_message line) (line_number + 1))
            else Ok (chunk, parsed_lines)
        end
  end.

Definition expected_context_message (line : str) : str :=
  lit "Expected update hunk to start with a @@ context marker, got: '" ++ line ++ lit "'".

(** The context of a chunk and the index of its first line. *)
Definition chunk_context (first : str) (line_number : nat) (allow_missing_context : bool)
    : result ParseError (option str * nat) :=
  if first =s? EMPTY_CHANGE_CONTEXT_MARKER then Ok (None, 1)
  else match strip_prefix CHANGE_CONTEXT_MARKER first with
       | Some context => Ok (Some context, 1)
       | None =>
           if negb allow_missing_context
           then Err (InvalidHunkError (expected_context_message first) line_number)
           else Ok (None, 0)
       end.

Definition parse_update_file_chunk (lines : list str) (line_number : nat) (allow_missing_context : bool)
    : result ParseError (UpdateFileChunk * nat) :=
  match lines with
  | [] => Err (InvalidHunkError no_lines_message line_number)
  | first :: _ =>
      '(change_context, start_index) ← chunk_context first line_number allow_missing_context;
      if (length lines <=? start_index)%nat then Err (InvalidHunkError no_lines_message (line_number + 1))
      else
        '(chunk, parsed_lines) ←
          parse_chunk_lines line_number (drop start_index lines)
            (MkUpdateFileChunk change_context [] [] false) 0;
        mret (chunk, parsed_lines + start_index)
  end.

(** ** Hunks *)

(** The added lines that follow a header, and their number. *)
Fixpoint parse_add_lines (lines : list str) (contents : str) (parsed_lines : nat) : str * nat :=
  match lines with
  | [] => (contents, parsed_lines)
  | add_line :: rest =>
      match strip_prefix [ch_plus] add_line with
      | Some line_to_add => parse_add_lines rest (contents ++ line_to_add ++ [ch_nl]) (S parsed_lines)
      | None => (contents, parsed_lines)
      end
  end.

(** The loop over the chunks of an update; [None] is lack of fuel. *)
Fixpoint parse_chunks (fuel : nat) (line_number : nat) (allow_incomplete : bool) (remaining_lines : list str)
    (parsed_lines : nat) (chunks : list UpdateFileChunk)
    : option (result ParseError (list UpdateFileChunk * nat)) :=
  match fuel with
  | 0 => None
  | S k =>
      match remaining_lines with
      | [] => Some (Ok (chunks, parsed_lines))
      | line :: rest =>
          if is_empty (trim line) then
            parse_chunks k line_number allow_incomplete rest (S parsed_lines) chunks
          else if starts_with [ch_star] line then Some (Ok (chunks, parsed_lines))
          else if allow_incomplete && (line =s? "@") then Some (Ok (chunks, parsed_lines))
          else
            match parse_update_file_chunk remaining_lines (line_number + parsed_lines) (is_empty chunks) with
            | Ok (chunk, chunk_lines) =>
                parse_chunks k line_number allow_incomplete (drop chunk_lines remaining_lines)
                  (parsed_lines + chunk_lines) (chunks ++ [chunk])
            | Err (InvalidHunkError m n) =>
                if allow_incomplete && negb (is_empty chunks) then Some (Ok (chunks, parsed_lines))
                else Some (Err (InvalidHunkError m n))
            | Err e => Some (Err e)
            end
      end
  end.

Definition empty_update_message (path : str) : str :=
  lit "Update file hunk for path '" ++ path ++ lit "' is empty".
Definition invalid_header_message (first_line : str) : str :=
  lit "'" ++ first_line ++ lit "' is not a valid hunk header. Valid hunk headers: '*** Add File: {path}', '*** Delete File: {path}', '*** Update File: {path}'".

(** The destination line of a move. *)
Definition parse_move_path (lines : list str) : option str :=
  match lines with [] => None | line :: _ => strip_prefix MOVE_TO_MARKER line end.

(** Each round of the loop takes a line. *)
Definition parse_update_hunk (path : str) (lines : list str) (line_number : nat) (allow_incomplete : bool)
    : result ParseError (Hunk * nat) :=
  let move_path := parse_move_path lines in
  let '(remaining_lines, parsed_lines) := if is_some_b move_path then (drop 1 lines, 2) else (lines, 1) in
  match parse_chunks (S (length remaining_lines)) line_number allow_incomplete remaining_lines parsed_lines [] with
  | Some parsed =>
      '(chunks, parsed_lines) ← parsed;
      if is_empty chunks then Err (InvalidHunkError (empty_update_message path) line_number)
      else Ok (UpdateFile path move_path chunks, parsed_lines)
  | None => Err out_of_fuel
  end.

(** One hunk from the start of the lines, and the number of lines it takes. *)
Definition parse_one_hunk (first : str) (rest : list str) (line_number : nat) (allow_incomplete : bool)
    : result ParseError (Hunk * nat) :=
  let first_line := trim first in
  match strip_prefix ADD_FILE_MARKER first_line with
  | Some path =>
      let '(contents, parsed_lines) := parse_add_lines rest [] 1 in
      Ok (AddFile path contents, parsed_lines)
  | None =>
      match strip_prefix DELETE_FILE_MARKER first_line with
      | Some path => Ok (DeleteFile path, 1)
      | None =>
          match strip_prefix UPDATE_FILE_MARKER first_line with
          | Some path => parse_update_hunk path rest line_number allow_incomplete
          | None => Err (InvalidHunkError (invalid_header_message first_line) line_number)
          end
      end
  end.

(** The loop over the hunks; [None] is lack of fuel. *)
Fixpoint parse_hunks (fuel : nat) (remaining_lines : list str) (line_number : nat) (allow_incomplete : bool)
    (hunks : list Hunk) : option (result ParseError (list Hunk)) :=
  match fuel with
  | 0 => None
  | S k =>
      match remaining_lines with
      | [] => Some (Ok hunks)
      | first :: rest =>
          match parse_one_hunk first rest line_number allow_incomplete with
          | Ok (hunk, hunk_lines) =>
              parse_hunks k (drop hunk_lines remaining_lines) (line_number + hunk_lines) allow_incomplete
                (hunks ++ [hunk])
          | Err e => Some (Err e)
          end
      end
  end.

(** ** The boundaries of a patch *)

Definition first_line_error : ParseError :=
  InvalidPatchError "The first line of the patch must be '*** Begin Patch'".
Definition last_line_error : ParseError :=
  InvalidPatchError "The last line of the patch must be '*** End Patch'".

Definition check_start_and_end_lines_strict (first_line last_line : option str) : result ParseError unit :=
  match trim <$> first_line, trim <$> last_line with
  | Some first, Some last =>
      if (first =s? BEGIN_PATCH_MARKER) && (last =s? END_PATCH_MARKER) then Ok tt
      else if negb (first =s? BEGIN_PATCH_MARKER) then Err first_line_error
      else Err last_line_error
  | Some first, None => if negb (first =s? BEGIN_PATCH_MARKER) then Err first_line_error else Err last_line_error
  | None, _ => Err last_line_error
  end.

(** The lines without the first and the last. *)
Definition inner_lines (l : list str) : list str := take (length l - 2) (drop 1 l).

Definition check_patch_boundaries_strict (l : list str) : result ParseError (list str * list str) :=
  _ ← check_start_and_end_lines_strict (head l) (last l);
  mret (l, inner_lines l).

Definition heredoc_openings : list str :=
  ["<<EOF" : str; "<<'EOF'" : str; lit "<<" ++ [34%N] ++ lit "EOF" ++ [34%N]].

Definition check_patch_boundaries_lenient (original_lines : list str) : result ParseError (list str * list str) :=
  match check_patch_boundaries_strict original_lines with
  | Ok lines => Ok lines
  | Err original_parse_error =>
      match original_lines, last original_lines with
      | first :: _ :: _, Some last =>
          if existsb (str_eqb first) heredoc_openings && ends_with "EOF" last
             && (4 <=? length original_lines)%nat
          then check_patch_boundaries_strict (inner_lines original_lines)
          else Err original_parse_error
      | _, _ => Err original_parse_error
      end
  end.

Definition has_end_marker (l : list str) : bool :=
  match last l with Some line => trim line =s? END_PATCH_MARKER | None => false end.

Definition check_patch_boundaries_streaming (original_lines : list str)
    : result ParseError (list str * list str) :=
  match original_lines with
  | first :: rest =>
      if trim first =s? BEGIN_PATCH_MARKER then
        let body_lines :=
          if has_end_marker original_lines then inner_lines original_lines
          else rest in
        Ok (original_lines, body_lines)
      else check_patch_boundaries_strict original_lines
  | [] => check_patch_boundaries_strict original_lines
  end.

Definition check_patch_boundaries (mode : ParseMode) (ls : list str) : result ParseError (list str * list str) :=
  match mode with
  | Strict => check_patch_boundaries_strict ls
  | Lenient => check_patch_boundaries_lenient ls
  | Streaming => check_patch_boundaries_streaming ls
  end.

(** ** Patches *)

(** Each hunk takes a line. *)
Definition parse_patch_text (patch : str) (mode : ParseMode) : result ParseError ApplyPatchArgs :=
  let ls := lines (trim patch) in
  '(patch_lines, hunk_lines) ← check_patch_boundaries mode ls;
  let allow_incomplete := match mode with Streaming => true | _ => false end in
  match parse_hunks (S (length hunk_lines)) hunk_lines 2 allow_incomplete [] with
  | Some parsed => hunks ← parsed; mret (MkApplyPatchArgs (join [ch_nl] patch_lines) hunks None)
  | None => Err out_of_fuel
  end.

Definition parse_patch (patch : str) : result ParseError ApplyPatchArgs :=
  parse_patch_text patch (if PARSE_IN_STRICT_MODE then Strict else Lenient).

Definition parse_patch_streaming (patch : str) : result ParseError ApplyPatchArgs :=
  parse_patch_text patch Streaming.

#[global] Arguments parse_update_file_chunk : simpl never.
#[global] Arguments parse_one_hunk : simpl never.
#[global] Arguments strip_prefix : simpl never.
#[global] Arguments BEGIN_PATCH_MARKER : simpl never.
#[global] Arguments END_PATCH_MARKER : simpl never.
#[global] Arguments ADD_FILE_MARKER : simpl never.
#[global] Arguments DELETE_FILE_MARKER : simpl never.
#[global] Arguments UPDATE_FILE_MARKER : simpl never.
#[global] Arguments MOVE_TO_MARKER : simpl never.
#[global] Arguments EOF_MARKER : simpl never.
#[global] Arguments CHANGE_CONTEXT_MARKER : simpl never.
#[global] Arguments EMPTY_CHANGE_CONTEXT_MARKER : simpl never.

(** ** What the loops take *)

(** Every line a chunk takes is stored. *)
Definition chunk_size (c : UpdateFileChunk) : nat := length (old_lines c) + length (new_lines c).

Lemma parse_chunk_lines_bound ln ls c n c' n' :
  parse_chunk_lines ln ls c n = Ok (c', n') → (n = 0 → ls ≠ []) →
  n ≤ n' ≤ n + length ls ∧ 0 < n' ∧ chunk_size c ≤ chunk_size c' ∧ (n = 0 → 0 < chunk_size c').
Proof.
  revert c n. induction ls as [|line rest IH]; intros c n Hp Hn; simpl in *.
  { simplify_eq. destruct n'; [by destruct Hn|]. lia. }
  assert (∀ c1, parse_chunk_lines ln rest c1 (S n) = Ok (c', n') → chunk_size c < chunk_size c1 →
    n ≤ n' ≤ n + S (length rest) ∧ 0 < n' ∧ chunk_size c ≤ chunk_size c' ∧ (n = 0 → 0 < chunk_size c')) as Hstep.
  { intros c1 Hc1 Hlt. apply IH in Hc1; [|done]. lia. }
  case_match; [case_match; simplify_eq; destruct n as [|n]; [done|]; unfold chunk_size; simpl; lia|].
  case_match; [eapply Hstep; [eassumption|]; unfold chunk_size; rewrite /= !length_app /=; lia|].
  repeat case_match; simplify_eq;
    try (eapply Hstep; [eassumption|]; unfold chunk_size; rewrite /= !length_app /=; lia).
  destruct n' as [|n']; [done|]. unfold chunk_size. lia.
Qed.

Lemma chunk_context_bound first ln b ctx i : chunk_context first ln b = Ok (ctx, i) → i ≤ 1.
Proof. unfold chunk_context. intros. repeat case_match; simplify_eq; lia. Qed.

Lemma parse_update_file_chunk_bound ls ln b c n :
  parse_update_file_chunk ls ln b = Ok (c, n) → 1 ≤ n ≤ length ls ∧ 0 < chunk_size c.
Proof.
  destruct ls as [|first rest]; [done|]. unfold parse_update_file_chunk.
  destruct (chunk_context first ln b) as [[ctx i]|] eqn:Hc; [|done]. unfold mbind, result_bind.
  apply chunk_context_bound in Hc. destruct (Nat.leb_spec (length (first :: rest)) i) as [|Hi]; [done|].
  destruct (parse_chunk_lines _ _ _ _) as [[c' n']|] eqn:Hp; [|done]. intros [= <- <-].
  apply parse_chunk_lines_bound in Hp.
  - rewrite length_drop in Hp. simpl in *. lia.
  - intros _ Hd. apply (f_equal length) in Hd. rewrite length_drop /= in Hd. simpl in Hi. lia.
Qed.

Definition hunk_ok (h : Hunk) : Prop :=
  match h with
  | UpdateFile _ _ chunks => chunks ≠ [] ∧ Forall (λ c, 0 < chunk_size c) chunks
  | _ => True
  end.

(** [lo] to [hi] are the line numbers an error may have. *)
Definition error_within (lo hi : nat) (e : ParseError) : Prop :=
  match e with InvalidHunkError _ n => lo ≤ n ≤ hi | InvalidPatchError _ => False end.

Lemma error_within_weaken lo hi lo' hi' e : lo' ≤ lo → hi ≤ hi' → error_within lo hi e → error_within lo' hi' e.
Proof. destruct e; simpl; [done|lia]. Qed.

Lemma parse_chunk_lines_error ln ls c n e : parse_chunk_lines ln ls c n = Err e → error_within ln (S ln) e.
Proof.
  revert c n. induction ls as [|line rest IH]; intros c n Hp; simpl in *; [done|].
  repeat case_match; simplify_eq; simpl; first [by eapply IH|lia].
Qed.

Lemma parse_update_file_chunk_error ls ln b e :
  parse_update_file_chunk ls ln b = Err e → error_within ln (S ln) e.
Proof.
  destruct ls as [|first rest]; [intros [= <-]; simpl; lia|]. unfold parse_update_file_chunk.
  destruct (chunk_context first ln b) as [[ctx i]|e'] eqn:Hc; unfold mbind, result_bind.
  - case_match; [intros [= <-]; simpl; lia|].
    destruct (parse_chunk_lines _ _ _ _) as [[c' n']|] eqn:Hp; [done|]. intros [= <-].
    by apply parse_chunk_lines_error in Hp.
  - intros [= <-]. unfold chunk_context in Hc. repeat case_match; simplify_eq; simpl; lia.
Qed.

(** What the loop over chunks returns when its fuel is the number of lines. *)
Definition chunks_post (ln total : nat) (n : nat) (chunks : list UpdateFileChunk)
    (r : result ParseError (list UpdateFileChunk * nat)) : Prop :=
  match r with
  | Ok (chunks', n') => n ≤ n' ≤ total ∧ Forall (λ c, 0 < chunk_size c) chunks' ∧ (chunks ≠ [] → chunks' ≠ [])
  | Err e => error_within ln (ln + total) e
  end.

Lemma parse_chunks_enough fuel ln b ls n chunks :
  length ls < fuel → Forall (λ c, 0 < chunk_size c) chunks →
  ∃ r, parse_chunks fuel ln b ls n chunks = Some r ∧ chunks_post ln (n + length ls) n chunks r.
Proof.
  revert ls n chunks. induction fuel as [|k IH]; intros ls n chunks Hlen Hall; [lia|].
  destruct ls as [|line rest]; simpl in *.
  { eexists. split; [done|]. simpl. split_and!; [lia|lia|done|done]. }
  assert (∃ r, Some (Ok (chunks, n)) = Some r ∧ chunks_post ln (n + S (length rest)) n chunks r) as Hstop.
  { eexists. split; [done|]. simpl. split_and!; [lia|lia|done|done]. }
  case_match.
  { destruct (IH rest (S n) chunks) as (r & -> & Hr); [lia|done|]. eexists. split; [done|].
    rewrite Nat.add_succ_r. destruct r as [[]|]; [|done]. simpl in *. split_and!; [lia|lia|naive_solver..]. }
  case_match; [exact Hstop|]. case_match; [exact Hstop|].
  destruct (parse_update_file_chunk _ _ _) as [[c cn]|[m|m en]] eqn:Hc.
  - apply parse_update_file_chunk_bound in Hc as [Hcn Hsize]. simpl in Hcn.
    destruct (IH (drop cn (line :: rest)) (n + cn) (chunks ++ [c])) as (r & -> & Hr).
    + rewrite length_drop /=. lia.
    + apply Forall_app. split; [done|]. by constructor.
    + eexists. split; [done|]. rewrite length_drop in Hr. simpl in Hr. destruct r as [[chunks' n']|e]; simpl in *.
      * destruct Hr as (Hb & Hf & Hne). split_and!; [lia|lia|done|]. intros _. apply Hne. by destruct chunks.
      * eapply error_within_weaken; [| |exact Hr]; lia.
  - by apply parse_update_file_chunk_error in Hc.
  - case_match; [exact Hstop|]. eexists. split; [done|]. apply parse_update_file_chunk_error in Hc. simpl in *. lia.
Qed.

Definition hunk_post (ln total : nat) (r : result ParseError (Hunk * nat)) : Prop :=
  match r with
  | Ok (h, n) => 1 ≤ n ≤ total ∧ hunk_ok h
  | Err e => error_within ln (ln + total) e
  end.

Lemma parse_add_lines_bound ls contents n :
  n ≤ (parse_add_lines ls contents n).2 ≤ n + length ls.
Proof.
  revert contents n. induction ls as [|l rest IH]; intros contents n; simpl; [lia|].
  case_match; simpl; [|lia]. match goal with |- context [parse_add_lines rest ?c (S n)] => specialize (IH c (S n)) end.
  lia.
Qed.

Lemma parse_one_hunk_post first rest ln b :
  hunk_post ln (S (length rest)) (parse_one_hunk first rest ln b).
Proof.
  unfold parse_one_hunk. case_match.
  { pose proof (parse_add_lines_bound rest [] 1) as Hb. destruct (parse_add_lines rest [] 1) as [c n].
    simpl in *. split; [lia|done]. }
  case_match; [simpl; split; [lia|done]|]. case_match; [|simpl; lia]. unfold parse_update_hunk.
  set (mp := parse_move_path rest).
  assert (∃ ls n, (if is_some_b mp then (drop 1 rest, 2) else (rest, 1)) = (ls, n) ∧ 1 ≤ n
    ∧ n + length ls = S (length rest)) as (ls & n & -> & Hn & Hls).
  { unfold mp, parse_move_path. destruct rest as [|l rest'].
    - exists [], 1. simpl. split_and!; [done|lia|lia].
    - destruct (strip_prefix MOVE_TO_MARKER l); simpl.
      + exists rest', 2. rewrite drop_0. split_and!; [done|lia|lia].
      + exists (l :: rest'), 1. simpl. split_and!; [done|lia|lia]. }
  destruct (parse_chunks_enough (S (length ls)) ln b ls n [] ltac:(lia) (Forall_nil_2 _)) as (r & -> & Hr).
  unfold mbind, result_bind. destruct r as [[chunks n']|e]; simpl in *.
  - destruct Hr as (Hb & Hall & _). case_match; simpl; [lia|]. split_and!; [lia|lia| |done].
    by apply is_empty_false.
  - eapply error_within_weaken; [| |exact Hr]; lia.
Qed.

Lemma parse_hunks_enough fuel ls ln b hunks :
  length ls < fuel → Forall hunk_ok hunks →
  ∃ r, parse_hunks fuel ls ln b hunks = Some r ∧
    match r with
    | Ok hunks' => Forall hunk_ok hunks' ∧ ∃ new, hunks' = hunks ++ new
    | Err e => error_within ln (ln + length ls) e
    end.
Proof.
  revert ls ln hunks. induction fuel as [|k IH]; intros ls ln hunks Hlen Hall; [lia|].
  destruct ls as [|first rest]; simpl in *.
  { eexists. split; [done|]. split; [done|]. exists []. by rewrite app_nil_r. }
  pose proof (parse_one_hunk_post first rest ln b) as Hone.
  destruct (parse_one_hunk first rest ln b) as [[h n]|e]; simpl in Hone.
  - destruct Hone as [Hn Hok]. destruct (IH (drop n (first :: rest)) (ln + n) (hunks ++ [h])) as (r & -> & Hr).
    + rewrite length_drop /=. lia.
    + apply Forall_app. by rewrite Forall_singleton.
    + eexists. split; [done|]. destruct r as [hunks'|e].
      * destruct Hr as [? [new ->]]. split; [done|]. exists (h :: new). by rewrite -app_assoc.
      * eapply error_within_weaken; [| |exact Hr]; [lia|]. rewrite length_drop. simpl. lia.
  - eexists. split; [done|]. done.
Qed.

(** ** Modes *)

Lemma parse_chunks_incomplete fuel ln ls n chunks r :
  parse_chunks fuel ln false ls n chunks = Some (Ok r) → parse_chunks fuel ln true ls n chunks = Some (Ok r).
Proof.
  revert ls n chunks. induction fuel as [|k IH]; intros ls n chunks; simpl; [done|].
  destruct ls as [|line rest]; [done|]. case_match; [apply IH|]. case_match; [done|].
  destruct (line =s? "@") eqn:Hat; simpl.
  - apply str_eqb_eq in Hat as ->. by destruct chunks.
  - destruct (parse_update_file_chunk _ _ _) as [[c cn]|[]]; [apply IH|done|done].
Qed.

Lemma parse_one_hunk_incomplete first rest ln r :
  parse_one_hunk first rest ln false = Ok r → parse_one_hunk first rest ln true = Ok r.
Proof.
  unfold parse_one_hunk. case_match; [done|]. case_match; [done|]. case_match; [|done].
  unfold parse_update_hunk. destruct (if is_some_b _ then _ else _) as [ls n].
  destruct (parse_chunks _ _ false _ _ _) as [[x|]|] eqn:Hp; [|done..].
  by rewrite (parse_chunks_incomplete _ _ _ _ _ _ Hp).
Qed.

Lemma parse_hunks_incomplete fuel ls ln hunks r :
  parse_hunks fuel ls ln false hunks = Some (Ok r) → parse_hunks fuel ls ln true hunks = Some (Ok r).
Proof.
  revert ls ln hunks. induction fuel as [|k IH]; intros ls ln hunks; simpl; [done|].
  destruct ls as [|first rest]; [done|]. destruct (parse_one_hunk first rest ln false) as [[h n]|] eqn:Hp; [|done].
  rewrite (parse_one_hunk_incomplete _ _ _ _ Hp). apply IH.
Qed.

(** What the strict boundary check accepts. *)
Lemma check_strict_Ok l r :
  check_patch_boundaries_strict l = Ok r →
  r = (l, inner_lines l) ∧ ∃ first mid last, l = first :: mid ++ [last] ∧ inner_lines l = mid
    ∧ trim first = BEGIN_PATCH_MARKER ∧ trim last = END_PATCH_MARKER.
Proof.
  unfold check_patch_boundaries_strict, check_start_and_end_lines_strict.
  destruct l as [|first rest]; [done|]. destruct rest as [|x rest _] using rev_ind.
  - simpl. destruct (trim first =s? BEGIN_PATCH_MARKER) eqn:Hb; [|done].
    apply str_eqb_eq in Hb. rewrite Hb. done.
  - rewrite app_comm_cons last_snoc /=.
    destruct (trim first =s? BEGIN_PATCH_MARKER) eqn:Hb; [|done].
    destruct (trim x =s? END_PATCH_MARKER) eqn:He; [|done]. intros [= <-]. split; [done|].
    exists first, rest, x. apply str_eqb_eq in Hb, He. split_and!; [done| |done|done].
    unfold inner_lines. rewrite /= length_app /= drop_0.
    replace (length rest + 1 - 1) with (length rest) by lia. apply take_app_length.
Qed.

Lemma check_strict_Err l e : check_patch_boundaries_strict l = Err e → e = first_line_error ∨ e = last_line_error.
Proof.
  unfold check_patch_boundaries_strict, check_start_and_end_lines_strict, mbind, result_bind.
  intros. repeat case_match; simplify_eq/=; auto.
Qed.

Lemma check_strict_post l :
  match check_patch_boundaries_strict l with
  | Ok (_, hs) => S (length hs) ≤ length l
  | Err e => e = first_line_error ∨ e = last_line_error
  end.
Proof.
  destruct (check_patch_boundaries_strict l) as [[pl hs]|e] eqn:Hc; [|by eapply check_strict_Err].
  apply check_strict_Ok in Hc as ([= -> ->] & first & mid & x & -> & -> & _). rewrite /= length_app /=. lia.
Qed.

Lemma inner_lines_length l : length (inner_lines l) ≤ length l.
Proof. unfold inner_lines. rewrite length_take length_drop. lia. Qed.

Lemma boundaries_post mode l :
  match check_patch_boundaries mode l with
  | Ok (_, hs) => S (length hs) ≤ length l
  | Err e => e = first_line_error ∨ e = last_line_error
  end.
Proof.
  unfold check_patch_boundaries. destruct mode; [apply check_strict_post|..].
  - unfold check_patch_boundaries_lenient. pose proof (check_strict_post l) as Hl.
    destruct (check_patch_boundaries_strict l) as [[]|e]; [done|].
    destruct l as [|first [|second rest]]; [done..|]. destruct (last _) as [x|]; [|done].
    destruct (_ && _); [|done]. pose proof (check_strict_post (inner_lines (first :: second :: rest))) as Hi.
    pose proof (inner_lines_length (first :: second :: rest)).
    destruct (check_patch_boundaries_strict _) as [[]|]; [lia|done].
  - unfold check_patch_boundaries_streaming. pose proof (check_strict_post l) as Hl.
    destruct l as [|first rest]; [done|]. destruct (trim first =s? BEGIN_PATCH_MARKER); [|done].
    destruct (has_end_marker (first :: rest)); [|simpl; lia]. unfold inner_lines. rewrite length_take length_drop. simpl. lia.
Qed.

(** ** Properties *)

(** C33. Parsing a patch ends in every mode, with a result or with one of the
    errors the parser documents, never for lack of fuel. What it returns has no
    update without chunks and no chunk without lines, and the line number of an
    error is that of a line after the first, or of the line after the last. *)
Theorem parse_patch_text_total patch mode :
  match parse_patch_text patch mode with
  | Ok args => Forall hunk_ok (args_hunks args)
  | Err (InvalidHunkError _ n) => 2 ≤ n ≤ S (length (lines (trim patch)))
  | Err e => e = first_line_error ∨ e = last_line_error
  end.
Proof.
  unfold parse_patch_text. set (ls := lines (trim patch)).
  pose proof (boundaries_post mode ls) as Hb.
  destruct (check_patch_boundaries mode ls) as [[patch_lines hs]|e]; unfold mbind, result_bind;
    [|destruct Hb as [-> | ->]; simpl; auto].
  match goal with |- context [parse_hunks _ hs 2 ?b []] =>
    destruct (parse_hunks_enough (S (length hs)) hs 2 b [] ltac:(lia) (Forall_nil_2 _)) as (r & -> & Hr) end.
  destruct r as [hunks|[m|m n]]; [by destruct Hr|done|]. simpl in Hr. lia.
Qed.

(** The modes differ only on what the strict mode rejects: a patch the strict
    mode accepts is parsed to the same hunks by the default, lenient mode and
    by the streaming mode. *)
Theorem strict_patches_parse_alike patch args mode :
  parse_patch_text patch Strict = Ok args → parse_patch_text patch mode = Ok args.
Proof.
  unfold parse_patch_text. set (ls := lines (trim patch)). simpl check_patch_boundaries.
  destruct (check_patch_boundaries_strict ls) as [[pl hs]|] eqn:Hb; [|done]. unfold mbind, result_bind.
  destruct (parse_hunks _ hs 2 false []) as [[hunks|]|] eqn:Hp; [|done..]. intros [= <-].
  assert (check_patch_boundaries mode ls = Ok (pl, hs)) as ->.
  { destruct mode; simpl; [done|by rewrite /check_patch_boundaries_lenient Hb|].
    pose proof Hb as Hs. apply check_strict_Ok in Hs as ([= -> ->] & first & mid & final & -> & Hin & Hf & Hl).
    unfold check_patch_boundaries_streaming, has_end_marker. rewrite app_comm_cons last_snoc Hf Hl Hin.
    by rewrite !str_eqb_refl. }
  destruct mode; [by rewrite Hp..|]. by rewrite (parse_hunks_incomplete _ _ _ _ _ Hp).
Qed.

(** ** The theorem at a concrete patch *)

Definition demo_patch : str :=
  join [ch_nl] ["*** Begin Patch" : str; "*** Add File: a.txt" : str; "+hello" : str; "*** End Patch" : str].

Lemma strict_patches_parse_alike_witness :
  parse_patch_streaming demo_patch
  = Ok (MkApplyPatchArgs demo_patch [AddFile "a.txt" (lit "hello" ++ [ch_nl])] None).
Proof. apply strict_patches_parse_alike. vm_compute. reflexivity. Defined.
