(* ===== verification/PatchPrint.v ===== *)
(** Patches, printed. [print_patch] writes hunks in the grammar that heads
    [codex-rs/apply-patch/src/parser.rs]; the parser reads them back, in each of
    its modes, and inside a here document. *)
From S2P Require Import Prelude PatchParser.
#[local] Open Scope nat_scope.

(** ** The grammar *)

Definition header (marker text : str) : str := marker ++ text.
#[local] Arguments header : simpl never.

Definition context_line (ctx : option str) : str :=
  match ctx with
  | None => EMPTY_CHANGE_CONTEXT_MARKER
  | Some c => header CHANGE_CONTEXT_MARKER c
  end.
#[local] Arguments context_line : simpl never.

(** The lines of a chunk: kept (a blank one may be left empty), removed, added. *)
Inductive Change : Type := Kept (l : str) | KeptBlank | Removed (l : str) | Added (l : str).
Definition print_change (ch : Change) : str :=
  match ch with Kept l => ch_sp :: l | KeptBlank => [] | Removed l => ch_minus :: l | Added l => ch_plus :: l end.
Definition old_of (ch : Change) : option str :=
  match ch with Kept l | Removed l => Some l | KeptBlank => Some [] | Added _ => None end.
Definition new_of (ch : Change) : option str :=
  match ch with Kept l | Added l => Some l | KeptBlank => Some [] | Removed _ => None end.
#[local] Arguments print_change : simpl never.

(** A chunk as it is written: with or without its marker, which may have a
    context. *)
Record Written := MkWritten { marker : option (option str); chunk_changes : list Change; at_end : bool }.
Definition chunk_of (c : Written) : UpdateFileChunk :=
  MkUpdateFileChunk (default None (marker c)) (omap old_of (chunk_changes c)) (omap new_of (chunk_changes c)) (at_end c).
Definition marker_lines (c : Written) : list str := match marker c with Some ctx => [context_line ctx] | None => [] end.
Definition print_chunk (c : Written) : list str :=
  marker_lines c ++ map print_change (chunk_changes c) ++ (if at_end c then [EOF_MARKER] else []).
#[local] Arguments print_chunk : simpl never.

Definition terminated (ls : list str) : str := flat_map (λ l, l ++ [ch_nl]) ls.

(** A hunk as it is written. *)
Inductive Source : Type :=
| WriteAdd (path : str) (ls : list str)
| WriteDelete (path : str)
| WriteUpdate (path : str) (move_path : option str) (first : Written) (others : list Written).
Definition hunk_of (h : Source) : Hunk :=
  match h with
  | WriteAdd path ls => AddFile path (terminated ls)
  | WriteDelete path => DeleteFile path
  | WriteUpdate path move_path first others => UpdateFile path move_path (chunk_of <$> first :: others)
  end.
Definition hunk_header (h : Source) : str :=
  match h with
  | WriteAdd path _ => header ADD_FILE_MARKER path
  | WriteDelete path => header DELETE_FILE_MARKER path
  | WriteUpdate path _ _ _ => header UPDATE_FILE_MARKER path
  end.
Definition move_lines (move_path : option str) : list str :=
  match move_path with Some dest => [header MOVE_TO_MARKER dest] | None => [] end.
Definition hunk_body (h : Source) : list str :=
  match h with
  | WriteAdd _ ls => map (cons ch_plus) ls
  | WriteDelete _ => []
  | WriteUpdate _ move_path first others => move_lines move_path ++ print_chunk first ++ flat_map print_chunk others
  end.
Definition print_hunk (h : Source) : list str := hunk_header h :: hunk_body h.

Definition patch_lines (hunks : list Source) : list str :=
  BEGIN_PATCH_MARKER :: flat_map print_hunk hunks ++ [END_PATCH_MARKER].
Definition print_patch (hunks : list Source) : str := join [ch_nl] (patch_lines hunks).

(** What can be written: texts of one line that does not end in a carriage return, a path
    that does not end in white space, a chunk that has lines. Only the first chunk of an update may lack its
    marker, and then its first line is not white space. *)
Definition path_ok (path : str) : Prop := line_ok path ∧ ∃ p c, path = p ++ [c] ∧ is_whitespace c = false.
Definition change_ok (ch : Change) : Prop := match ch with Kept l | Removed l | Added l => line_ok l | KeptBlank => True end.
Definition chunk_ok (c : Written) : Prop :=
  Forall change_ok (chunk_changes c) ∧ chunk_changes c ≠ [] ∧
  match marker c with Some (Some ctx) => line_ok ctx | _ => True end.
Definition marked (c : Written) : Prop := marker c ≠ None.
Definition begins (c : Written) : Prop :=
  marked c ∨ ∃ ch rest, chunk_changes c = ch :: rest ∧ is_empty (trim (print_change ch)) = false.
Definition printable (h : Source) : Prop :=
  match h with
  | WriteAdd path ls => path_ok path ∧ Forall line_ok ls
  | WriteDelete path => path_ok path
  | WriteUpdate path move_path first others =>
      path_ok path ∧ match move_path with Some dest => line_ok dest | None => True end ∧
      begins first ∧ chunk_ok first ∧ Forall (λ c, marked c ∧ chunk_ok c) others
  end.

#[local] Instance line_ok_dec l : Decision (line_ok l).
Proof. unfold line_ok. apply _. Defined.

(** ** Lines *)

Lemma line_ok_app p l : ch_nl ∉ p → last p ≠ Some ch_cr → line_ok l → line_ok (p ++ l).
Proof.
  intros Hp Hcr [Hl Hlast]. split; [by rewrite not_elem_of_app|].
  destruct l as [|c l _] using rev_ind; [by rewrite app_nil_r|]. rewrite last_snoc in Hlast. by rewrite app_assoc last_snoc.
Qed.

Ltac marker_ok := first [unfold header; apply line_ok_app | split];
  [refine (bool_decide_unpack _ _); vm_compute; exact I|vm_compute; done|..].

Lemma line_ok_cons c l : c ≠ ch_nl → c ≠ ch_cr → line_ok l → line_ok (c :: l).
Proof.
  intros Hn Hr Hl. apply (line_ok_app [c]); [|by intros [= ?]|done]. by rewrite list_elem_of_singleton.
Qed.

Lemma print_change_ok ch : change_ok ch → line_ok (print_change ch).
Proof. destruct ch; [by apply line_ok_cons|by split; [apply not_elem_of_nil|]|by apply line_ok_cons..]. Qed.
Lemma print_chunk_lines c : chunk_ok c → Forall line_ok (print_chunk c).
Proof.
  intros (Hl & _ & Hc). unfold print_chunk, marker_lines. repeat rewrite Forall_app. split_and!.
  - destruct (marker c) as [ctx|]; [|done]. apply Forall_singleton. destruct ctx; unfold context_line; marker_ok; done.
  - apply Forall_fmap. eapply Forall_impl; [exact Hl|]. intros ch. apply print_change_ok.
  - destruct (at_end c); [|done]. constructor; [marker_ok|done].
Qed.

Lemma Forall_flat_map_lines {A} (f : A → list str) (P : A → Prop) l :
  (∀ x, P x → Forall line_ok (f x)) → Forall P l → Forall line_ok (flat_map f l).
Proof. intros Hf. induction 1; simpl; [done|]. apply Forall_app. auto. Qed.

Lemma print_hunk_lines h : printable h → Forall line_ok (print_hunk h).
Proof.
  destruct h as [path ls|path|path mp first others]; simpl.
  - intros ([Hp _] & Hls). constructor; [by marker_ok|]. simpl.
    apply Forall_fmap. eapply Forall_impl; [exact Hls|]. intros l Hl. by apply line_ok_cons.
  - intros [Hp _]. constructor; [by marker_ok|done].
  - intros ([Hp _] & Hm & _ & Hf & Ho). constructor; [by marker_ok|]. simpl. apply Forall_app. split; [|apply Forall_app; split].
    + destruct mp; [|done]. constructor; [by marker_ok|done].
    + by apply print_chunk_lines.
    + eapply (Forall_flat_map_lines _ (λ c, marked c ∧ chunk_ok c)); [|done]. intros c [_ Hc]. by apply print_chunk_lines.
Qed.

Lemma patch_lines_ok hunks : Forall printable hunks → Forall line_ok (patch_lines hunks).
Proof.
  intros H. constructor; [marker_ok|]. apply Forall_app. split.
  - eapply Forall_flat_map_lines; [apply print_hunk_lines|done].
  - constructor; [marker_ok|done].
Qed.

(** ** Chunks, parsed back *)

(** Where the lines of a chunk end. *)
Definition chunk_stops (rest : list str) : Prop :=
  match rest with
  | [] => True
  | l :: _ => l ≠ EOF_MARKER ∧ ∃ c l', l = c :: l' ∧ (c = 64%N ∨ c = ch_star)
  end.

Lemma parse_changes ln chs rest c n :
  parse_chunk_lines ln (map print_change chs ++ rest) c n =
  parse_chunk_lines ln rest
    (MkUpdateFileChunk (change_context c) (old_lines c ++ omap old_of chs) (new_lines c ++ omap new_of chs) (is_end_of_file c))
    (n + length chs).
Proof.
  revert c n. induction chs as [|ch chs IH]; intros c n.
  - rewrite /= !app_nil_r Nat.add_0_r. by destruct c.
  - destruct ch; cbn [map print_change]; simpl; rewrite IH /= -?app_assoc /=; f_equal; lia.
Qed.

Lemma parse_chunk_end ln (eof : bool) rest c n :
  0 < n → is_end_of_file c = false → chunk_stops rest →
  parse_chunk_lines ln ((if eof then [EOF_MARKER] else []) ++ rest) c n =
  Ok (MkUpdateFileChunk (change_context c) (old_lines c) (new_lines c) eof, n + if eof then 1 else 0).
Proof.
  intros Hn He Hstop. destruct n as [|n]; [lia|]. destruct eof.
  - rewrite Nat.add_1_r. reflexivity.
  - rewrite Nat.add_0_r. assert (c = MkUpdateFileChunk (change_context c) (old_lines c) (new_lines c) false) as <-.
    { destruct c. simpl in *. by subst. }
    destruct rest as [|l rest]; [done|]. destruct Hstop as (Hne & d & l' & -> & Hd).
    simpl. apply str_eqb_neq in Hne. rewrite Hne. by destruct Hd as [-> | ->].
Qed.

Lemma chunk_context_printed ctx ln b : chunk_context (context_line ctx) ln b = Ok (ctx, 1).
Proof. by destruct ctx. Qed.

Lemma print_chunk_length c :
  length (print_chunk c) = length (marker_lines c) + (length (chunk_changes c) + if at_end c then 1 else 0).
Proof. unfold print_chunk. rewrite !length_app length_map. by destruct (at_end c). Qed.

Lemma print_chunk_grows c : chunk_changes c ≠ [] → 0 < length (print_chunk c).
Proof. intros Hne. rewrite print_chunk_length. destruct (chunk_changes c); [done|simpl; lia]. Qed.

Lemma parse_chunk_after_context ctx body ln b :
  body ≠ [] →
  parse_update_file_chunk (context_line ctx :: body) ln b =
  ('(chunk, n) ← parse_chunk_lines ln body (MkUpdateFileChunk ctx [] [] false) 0; mret (chunk, n + 1)).
Proof. intros Hne. unfold parse_update_file_chunk. rewrite chunk_context_printed. by destruct body. Qed.

Lemma parse_written_lines ln c rest ctx : chunk_changes c ≠ [] → chunk_stops rest →
  parse_chunk_lines ln ((map print_change (chunk_changes c) ++ (if at_end c then [EOF_MARKER] else [])) ++ rest) (MkUpdateFileChunk ctx [] [] false) 0
  = Ok (MkUpdateFileChunk ctx (omap old_of (chunk_changes c)) (omap new_of (chunk_changes c)) (at_end c),
        length (chunk_changes c) + if at_end c then 1 else 0).
Proof.
  intros Hne Hstop. rewrite -!app_assoc parse_changes parse_chunk_end //. destruct (chunk_changes c); [done|simpl; lia].
Qed.

(** The first line of a chunk without marker. *)
Lemma unmarked_line ch : is_empty (trim (print_change ch)) = false →
  (∀ ln, chunk_context (print_change ch) ln true = Ok (None, 0)) ∧ starts_with [ch_star] (print_change ch) = false
  ∧ (print_change ch =s? "@") = false.
Proof. destruct ch; [intros _|discriminate|intros _..]; (split; [reflexivity|split; reflexivity]). Qed.

Lemma parse_printed_chunk c rest ln b :
  chunk_changes c ≠ [] → marked c ∨ (begins c ∧ b = true) → chunk_stops rest →
  parse_update_file_chunk (print_chunk c ++ rest) ln b = Ok (chunk_of c, length (print_chunk c)).
Proof.
  intros Hne Hm Hstop. rewrite print_chunk_length. unfold print_chunk, marker_lines, chunk_of.
  assert (map print_change (chunk_changes c) ++ (if at_end c then [EOF_MARKER] else []) ++ rest ≠ []) as Hbody by (by destruct (chunk_changes c)).
  destruct (marker c) as [ctx|] eqn:Hc.
  - rewrite -!app_assoc /=. rewrite parse_chunk_after_context //. rewrite app_assoc parse_written_lines //.
    unfold mret, result_ret, mbind, result_bind. simpl. do 2 f_equal. lia.
  - destruct Hm as [Hm|[[Hm|(ch & chs & Hchs & Hb)] ->]]; [done..|]. cbn [app length Nat.add].
    pose proof (parse_written_lines ln c rest None Hne Hstop) as Hp. destruct (unmarked_line ch Hb) as (Hctx & _ & _).
    revert Hp. rewrite Hchs. cbn [map]. rewrite -!app_assoc -app_comm_cons. intros Hp. unfold parse_update_file_chunk. rewrite Hctx.
    unfold mbind, result_bind. cbn [length Nat.leb drop]. rewrite Hp. unfold mret, result_ret. do 2 f_equal. cbn [length]. destruct (at_end c); lia.
Qed.

(** Where the chunks of an update end: at the header of a hunk. *)
Definition header_next (rest : list str) : Prop :=
  match rest with [] => True | l :: _ => l ≠ EOF_MARKER ∧ ∃ l', l = ch_star :: l' end.

Lemma header_stops rest : header_next rest → chunk_stops rest.
Proof. destruct rest; [done|]. intros (? & l' & ->). split; [done|]. eauto. Qed.

Lemma context_stops ctx rest : chunk_stops (context_line ctx :: rest).
Proof. split; [by destruct ctx|]. destruct ctx; eexists _, _; (split; [reflexivity|by left]). Qed.

Lemma chunks_then_header cs rest : Forall marked cs → header_next rest → chunk_stops (flat_map print_chunk cs ++ rest).
Proof.
  intros Hm. destruct Hm as [|c cs Hm _]; [apply header_stops|]. intros _.
  change (flat_map print_chunk (c :: cs)) with (print_chunk c ++ flat_map print_chunk cs). rewrite -app_assoc.
  unfold print_chunk, marker_lines. destruct (marker c) as [ctx|] eqn:Hc; [|by destruct Hm]. refine (context_stops ctx _).
Qed.

(** The first line of a chunk is not one the loop over chunks looks for. *)
Lemma context_line_passes ctx b :
  is_empty (trim (context_line ctx)) = false ∧ starts_with [ch_star] (context_line ctx) = false
  ∧ b && (context_line ctx =s? "@") = false.
Proof.
  assert (∃ c l, context_line ctx = 64%N :: 64%N :: l ∧ c = ctx) as (c & l & -> & _)
    by (destruct ctx; eauto).
  split_and!; [by apply trim_not_empty|done|]. rewrite andb_false_iff. right. by apply str_eqb_neq.
Qed.

Lemma first_line_passes c b : chunk_changes c ≠ [] → begins c → ∃ l tail, print_chunk c = l :: tail ∧
  is_empty (trim l) = false ∧ starts_with [ch_star] l = false ∧ b && (l =s? "@") = false.
Proof.
  intros Hne Hb. unfold print_chunk, marker_lines. destruct (marker c) as [ctx|] eqn:Hc.
  - eexists (context_line ctx), _. split; [done|apply context_line_passes].
  - destruct Hb as [Hb|(ch & chs & -> & Hb)]; [done|]. eexists (print_change ch), _. split; [done|].
    destruct (unmarked_line ch Hb) as (_ & -> & ->). by rewrite andb_false_r.
Qed.

(** One round of the loop over the chunks. *)
Lemma parse_printed_round k ln b c rest n acc :
  chunk_changes c ≠ [] → begins c → (acc = [] ∨ marked c) → chunk_stops rest →
  parse_chunks (S k) ln b (print_chunk c ++ rest) n acc = parse_chunks k ln b rest (n + length (print_chunk c)) (acc ++ [chunk_of c]).
Proof.
  intros Hne Hb Hm Hstop. destruct (first_line_passes c b Hne Hb) as (l & tail & Hl & Htrim & Hstar & Hat).
  assert (print_chunk c ++ rest = l :: (tail ++ rest)) as Heq by (by rewrite Hl).
  rewrite Heq. cbn [parse_chunks]. rewrite Htrim Hstar Hat -Heq parse_printed_chunk //.
  - destruct Hm as [-> |Hm]; [by right|by left].
  - by rewrite drop_app_length.
Qed.

Lemma parse_printed_chunks fuel ln b cs rest n acc :
  length (flat_map print_chunk cs ++ rest) < fuel → Forall (λ c, marked c ∧ chunk_ok c) cs → header_next rest →
  parse_chunks fuel ln b (flat_map print_chunk cs ++ rest) n acc =
  Some (Ok (acc ++ (chunk_of <$> cs), n + length (flat_map print_chunk cs))).
Proof.
  intros Hlen Hall Hrest. revert fuel n acc Hlen. induction Hall as [|c cs [Hm Hc] Hall IH]; intros fuel n acc Hlen.
  - rewrite app_nil_r Nat.add_0_r. destruct fuel as [|k]; [lia|]. simpl.
    destruct rest as [|l rest]; [done|]. destruct Hrest as (_ & l' & ->).
    rewrite trim_not_empty //.
  - destruct fuel as [|k]; [lia|]. destruct Hc as (_ & Hne & _).
    change (flat_map print_chunk (c :: cs)) with (print_chunk c ++ flat_map print_chunk cs) in *.
    rewrite -app_assoc in Hlen |- *. rewrite parse_printed_round //; [by left|by right| |].
    { apply chunks_then_header; [|done]. eapply Forall_impl; [exact Hall|]. by intros ? [? _]. }
    rewrite IH.
    + pose proof (print_chunk_grows c Hne). rewrite (length_app (print_chunk c)) in Hlen. slia.
    + rewrite -app_assoc (length_app (print_chunk c)) /=. do 3 f_equal. lia.
Qed.

(** ** Hunks, parsed back *)

Lemma header_trimmed marker path :
  (∃ m, marker = ch_star :: m) → path_ok path → trim (header marker path) = header marker path.
Proof.
  intros [m ->] (_ & p & c & -> & Hc). apply trim_id.
  - intros d r [= <- _]. reflexivity.
  - intros r d Hr. unfold header in Hr. rewrite app_assoc in Hr. by apply app_inj_tail in Hr as [_ <-].
Qed.

Lemma parse_printed_add ls rest contents n :
  header_next rest →
  parse_add_lines (map (cons ch_plus) ls ++ rest) contents n = (contents ++ terminated ls, n + length ls).
Proof.
  intros Hrest. revert contents n. induction ls as [|l ls IH]; intros contents n.
  - rewrite app_nil_r Nat.add_0_r. destruct rest as [|l rest]; [done|]. by destruct Hrest as (_ & l' & ->).
  - change (parse_add_lines (map (cons ch_plus) ls ++ rest) (contents ++ l ++ [ch_nl]) (S n) =
            (contents ++ terminated (l :: ls), n + S (length ls))).
    rewrite IH /= -!app_assoc /=. f_equal. lia.
Qed.

Lemma parse_printed_update path mp first others rest ln b :
  begins first → chunk_ok first → Forall (λ c, marked c ∧ chunk_ok c) others → header_next rest →
  parse_update_hunk path (move_lines mp ++ (print_chunk first ++ flat_map print_chunk others) ++ rest) ln b =
  Ok (UpdateFile path mp (chunk_of <$> first :: others), length (print_hunk (WriteUpdate path mp first others))).
Proof.
  intros Hb (_ & Hne & _) Hall Hrest. unfold parse_update_hunk. rewrite -app_assoc.
  set (body := print_chunk first ++ flat_map print_chunk others ++ rest).
  assert (parse_move_path (move_lines mp ++ body) = mp) as ->.
  { destruct mp as [dest|]; [apply strip_prefix_app|]. unfold body. destruct (first_line_passes first true Hne Hb) as (l & tail & -> & _ & Hs & _).
    cbn. destruct (strip_prefix MOVE_TO_MARKER l) as [r|] eqn:He; [|done]. apply strip_prefix_Some in He as ->. by vm_compute in Hs. }
  assert (chunk_stops (flat_map print_chunk others ++ rest)) as Hstop.
  { apply chunks_then_header; [|done]. eapply Forall_impl; [exact Hall|]. by intros ? [? _]. }
  assert (∀ n, parse_chunks (S (length body)) ln b body n [] = Some (Ok (chunk_of <$> first :: others, n + length (print_chunk first ++ flat_map print_chunk others))))
    as Hparse.
  { intros n. unfold body at 2. rewrite parse_printed_round //; [by left|]. rewrite parse_printed_chunks //.
    - pose proof (print_chunk_grows first Hne). unfold body. rewrite (length_app (print_chunk first)). slia.
    - rewrite (length_app (print_chunk first)). do 3 f_equal. lia. }
  destruct mp as [dest|]; simpl is_some_b; cbv iota beta zeta; rewrite ?drop_1 Hparse;
    unfold mbind, result_bind; cbn [fmap list_fmap is_empty]; do 2 f_equal; simpl; slia.
Qed.

Lemma parse_printed_hunk h rest ln b :
  printable h → header_next rest →
  parse_one_hunk (hunk_header h) (hunk_body h ++ rest) ln b = Ok (hunk_of h, length (print_hunk h)).
Proof.
  intros Hh Hrest. destruct h as [path ls|path|path mp first others]; unfold parse_one_hunk, print_hunk; simpl.
  - destruct Hh as (Hp & Hls). rewrite header_trimmed //; [by eexists|].
    rewrite strip_prefix_app parse_printed_add //. by rewrite length_map.
  - rewrite header_trimmed //. by eexists.
  - destruct Hh as (Hp & _ & Hb & Hf & Ho). rewrite header_trimmed //; [by eexists|].
    change (strip_prefix ADD_FILE_MARKER (header UPDATE_FILE_MARKER path)) with (@None str).
    change (strip_prefix DELETE_FILE_MARKER (header UPDATE_FILE_MARKER path)) with (@None str).
    rewrite strip_prefix_app -app_assoc parse_printed_update //.
Qed.

Lemma hunks_header hunks : header_next (flat_map print_hunk hunks).
Proof. destruct hunks as [|[] hunks]; [done|..]; (split; [done|by eexists]). Qed.

Lemma parse_printed_hunks fuel hunks ln b acc :
  length (flat_map print_hunk hunks) < fuel → Forall printable hunks →
  parse_hunks fuel (flat_map print_hunk hunks) ln b acc = Some (Ok (acc ++ (hunk_of <$> hunks))).
Proof.
  intros Hlen Hall. revert fuel ln acc Hlen. induction Hall as [|h hunks Hh _ IH]; intros fuel ln acc Hlen.
  - rewrite app_nil_r. destruct fuel; [simpl in *; lia|done].
  - destruct fuel as [|k]; [lia|].
    change (flat_map print_hunk (h :: hunks)) with (print_hunk h ++ flat_map print_hunk hunks) in *.
    simpl. rewrite (parse_printed_hunk h _ ln b Hh (hunks_header hunks)).
    change (hunk_header h :: hunk_body h ++ flat_map print_hunk hunks)
      with (print_hunk h ++ flat_map print_hunk hunks).
    rewrite drop_app_length IH; [rewrite length_app /= in Hlen; lia|]. by rewrite -app_assoc.
Qed.

(** ** Whole patches *)

Lemma patch_boundaries mode hunks :
  check_patch_boundaries mode (patch_lines hunks) = Ok (patch_lines hunks, flat_map print_hunk hunks).
Proof.
  assert (inner_lines (patch_lines hunks) = flat_map print_hunk hunks) as Hin.
  { unfold inner_lines, patch_lines. rewrite /= length_app /= drop_0.
    replace (length (flat_map print_hunk hunks) + 1 - 1) with (length (flat_map print_hunk hunks)) by lia.
    apply take_app_length. }
  assert (last (patch_lines hunks) = Some END_PATCH_MARKER) as Hlast
    by (unfold patch_lines; by rewrite app_comm_cons last_snoc).
  assert (check_patch_boundaries_strict (patch_lines hunks) = Ok (patch_lines hunks, flat_map print_hunk hunks))
    as Hs.
  { unfold check_patch_boundaries_strict. by rewrite Hin Hlast. }
  destruct mode; simpl; [done|by rewrite /check_patch_boundaries_lenient Hs|].
  unfold check_patch_boundaries_streaming, has_end_marker. by rewrite Hlast Hin.
Qed.

(** The text of lines whose ends trimming keeps. *)
Lemma lines_of_text first mid final ws :
  Forall line_ok (first :: mid ++ [final]) → Forall (λ c, is_whitespace c = true) ws →
  (∃ c r, first = c :: r ∧ is_whitespace c = false) → (∃ r c, final = r ++ [c] ∧ is_whitespace c = false) →
  lines (trim (join [ch_nl] (first :: mid ++ [final]) ++ ws)) = first :: mid ++ [final].
Proof.
  intros Hok Hws (c & r & -> & Hc) (r' & c' & -> & Hc').
  assert (∃ t, join [ch_nl] (((c :: r) :: mid) ++ [r' ++ [c']]) = c :: t ++ [c']) as [t Ht].
  { rewrite join_snoc //. destruct mid as [|m mid].
    - exists (r ++ [ch_nl] ++ r'). by rewrite /= -!app_assoc.
    - rewrite join_cons //. exists (r ++ [ch_nl] ++ join [ch_nl] (m :: mid) ++ [ch_nl] ++ r').
      rewrite -!app_assoc -app_comm_cons. done. }
  rewrite -app_comm_cons in Ht. rewrite trim_padded //; [..|by rewrite Ht|].
  - intros d s. rewrite Ht. by intros [= <- _].
  - intros s d. rewrite Ht app_comm_cons. by intros [_ <-]%app_inj_tail.
  - apply lines_join; [done|]. rewrite app_comm_cons last_snoc. intros [=]. by destruct r'.
Qed.

Lemma parse_boundaries patch mode pl hunks :
  check_patch_boundaries mode (lines (trim patch)) = Ok (pl, flat_map print_hunk hunks) → Forall printable hunks →
  parse_patch_text patch mode = Ok (MkApplyPatchArgs (join [ch_nl] pl) (hunk_of <$> hunks) None).
Proof.
  intros Hb Hall. unfold parse_patch_text. rewrite Hb. unfold mbind, result_bind.
  by rewrite parse_printed_hunks; [lia|done|].
Qed.

Lemma heredoc_boundaries opening hunks :
  opening ∈ heredoc_openings →
  check_patch_boundaries Lenient (opening :: patch_lines hunks ++ ["EOF" : str])
  = Ok (patch_lines hunks, flat_map print_hunk hunks).
Proof.
  intros Hin. unfold check_patch_boundaries, check_patch_boundaries_lenient.
  assert (check_patch_boundaries_strict (opening :: patch_lines hunks ++ ["EOF" : str]) = Err first_line_error)
    as ->.
  { unfold check_patch_boundaries_strict. rewrite app_comm_cons last_snoc.
    repeat (apply elem_of_cons in Hin as [-> |Hin]; [reflexivity|]). by apply elem_of_nil in Hin. }
  assert (existsb (str_eqb opening) heredoc_openings = true) as ->.
  { apply existsb_exists. exists opening. split; [by apply list_elem_of_In|]. apply str_eqb_refl. }
  assert (inner_lines (opening :: patch_lines hunks ++ ["EOF" : str]) = patch_lines hunks) as Hinner.
  { unfold inner_lines. rewrite length_cons length_app. apply (take_app_length' (patch_lines hunks)). simpl. lia. }
  assert ((4 <=? length (opening :: patch_lines hunks ++ ["EOF" : str])) = true) as Hlen.
  { apply Nat.leb_le. unfold patch_lines. rewrite !(length_cons, length_app). simpl. lia. }
  pose proof (patch_boundaries Strict hunks) as Hstrict. simpl in Hstrict.
  assert (last (opening :: patch_lines hunks ++ ["EOF" : str]) = Some ("EOF" : str)) as Hlast
    by by rewrite app_comm_cons last_snoc.
  destruct (patch_lines hunks ++ ["EOF" : str]) as [|s l] eqn:E; [done|].
  by rewrite Hlast Hlen Hinner.
Qed.

(** ** Properties *)

(** C32. A patch written in the grammar of the parser (hunks that add, delete, update and move files; chunks
    with or without context, the first of an update also without its marker, with kept, removed and
    added lines in any order and the mark of the end of the file) is read back as the hunks it says, in every
    mode, with white space after it, and in the default mode also between the
    lines of a here document, as the models write it; the patch text that is
    kept is the one without the here document. Lines must not end in a carriage
    return, paths not in white space, and an update whose first chunk has no marker does not begin with a
    line of white space. *)
Theorem parse_print_patch hunks ws :
  Forall printable hunks → Forall (λ c, is_whitespace c = true) ws →
  (∀ mode, parse_patch_text (print_patch hunks ++ ws) mode
           = Ok (MkApplyPatchArgs (print_patch hunks) (hunk_of <$> hunks) None))
  ∧ ∀ opening, opening ∈ heredoc_openings →
      parse_patch (join [ch_nl] (opening :: patch_lines hunks ++ ["EOF" : str]) ++ ws)
      = Ok (MkApplyPatchArgs (print_patch hunks) (hunk_of <$> hunks) None).
Proof.
  intros Hall Hws. split.
  - intros mode. apply parse_boundaries; [|done]. unfold print_patch, patch_lines at 1.
    rewrite lines_of_text //; [by apply patch_lines_ok|by eexists _, _|by exists (lit "*** End Patc"), 104%N|].
    apply patch_boundaries.
  - intros opening Hin. apply parse_boundaries; [|done].
    assert (Forall line_ok heredoc_openings) as Hopen.
    { apply (bool_decide_unpack _). vm_compute. exact I. }
    assert (∃ c r, opening = c :: r ∧ is_whitespace c = false) as Hfirst.
    { repeat (apply elem_of_cons in Hin as [-> |Hin]; [by eexists _, _|]). by apply elem_of_nil in Hin. }
    rewrite lines_of_text //; [|by exists (lit "EO"), 70%N|by apply heredoc_boundaries].
    constructor; [by eapply Forall_forall|]. apply Forall_app. split; [by apply patch_lines_ok|].
    constructor; [by marker_ok|done].
Qed.

(** ** The theorem at a concrete patch *)

Definition demo_sources : list Source :=
  [WriteAdd "src/new.txt" ["hello" : str; [] : str; "+plus" : str];
   WriteDelete "old name.txt";
   WriteUpdate "a.txt" (Some ("b.txt" : str))
     (MkWritten None [Kept "before"; Removed "old"; Added "new"; KeptBlank; Kept "after"] false)
     [MkWritten (Some (Some ("fn main() {" : str))) [Removed "old"; Added "new"; Added []] false;
      MkWritten (Some None) [Added "last"] true]].
Definition demo_hunks : list Hunk :=
  [AddFile "src/new.txt" (terminated ["hello" : str; [] : str; "+plus" : str]);
   DeleteFile "old name.txt";
   UpdateFile "a.txt" (Some ("b.txt" : str))
     [MkUpdateFileChunk None ["before" : str; "old" : str; [] : str; "after" : str] ["before" : str; "new" : str; [] : str; "after" : str] false;
      MkUpdateFileChunk (Some ("fn main() {" : str)) ["old" : str] ["new" : str; [] : str] false;
      MkUpdateFileChunk None [] ["last" : str] true]].

Lemma parse_print_patch_witness :
  parse_patch (print_patch demo_sources) = Ok (MkApplyPatchArgs (print_patch demo_sources) demo_hunks None).
Proof.
  destruct (parse_print_patch demo_sources []) as [Hmodes _].
  - assert (∀ l : str, bool_decide (ch_nl ∉ l) && bool_decide (last l ≠ Some ch_cr) = true → line_ok l) as Hline.
    { intros l [?%bool_decide_eq_true ?%bool_decide_eq_true]%andb_prop. by split. }
    assert (∀ (p : str) c, line_ok (p ++ [c]) → is_whitespace c = false → path_ok (p ++ [c])) as Hpath.
    { intros p c Hl Hc. split; [exact Hl|]. exists p, c. split; [reflexivity|exact Hc]. }
    repeat apply Forall_cons_2; [..|apply Forall_nil_2].
    + split; [apply (Hpath "src/new.tx" 116%N); [apply Hline|]; vm_compute; reflexivity|].
      repeat apply Forall_cons_2; [..|apply Forall_nil_2]; apply Hline; vm_compute; reflexivity.
    + apply (Hpath "old name.tx" 116%N); [apply Hline|]; vm_compute; reflexivity.
    + split; [apply (Hpath "a.tx" 116%N); [apply Hline|]; vm_compute; reflexivity|].
      split; [apply Hline; vm_compute; reflexivity|].
      split; [right; eexists _, _; split; [reflexivity|vm_compute; reflexivity]|].
      assert (∀ chs, forallb (λ ch, match ch with Kept l | Removed l | Added l => bool_decide (ch_nl ∉ l) && bool_decide (last l ≠ Some ch_cr) | KeptBlank => true end) chs = true
        → Forall change_ok chs) as Hchanges.
      { intros chs Hc. apply Forall_forall. intros ch Hin. rewrite forallb_forall in Hc. apply list_elem_of_In, Hc in Hin.
        destruct ch; [apply Hline, Hin|exact I|apply Hline, Hin..]. }
      split; [split_and!; [apply Hchanges; vm_compute; reflexivity|discriminate|exact I]|].
      repeat apply Forall_cons_2; [..|apply Forall_nil_2];
        (split; [discriminate|split_and!; [apply Hchanges; vm_compute; reflexivity|discriminate|first [exact I|apply Hline; vm_compute; reflexivity]]]).
  - apply Forall_nil_2.
  - pose proof (Hmodes Lenient) as Hm. rewrite app_nil_r in Hm. exact Hm.
Defined.

(** A line of white space is skipped, also where it is the first of an update
    without a marker. *)
Example leading_white_space_is_skipped :
  parse_patch (join [ch_nl] ["*** Begin Patch" : str; "*** Update File: a.txt" : str; "  " : str; "-old" : str; "*** End Patch" : str])
  = Ok (MkApplyPatchArgs (join [ch_nl] ["*** Begin Patch" : str; "*** Update File: a.txt" : str; "  " : str; "-old" : str; "*** End Patch" : str])
          [UpdateFile "a.txt" None [MkUpdateFileChunk None ["old" : str] [] false]] None).
Proof. vm_compute. reflexivity. Qed.

(** A second marker in a row is not read, although the instructions for models
    have one. *)
Example two_markers_are_refused :
  is_ok (parse_patch (join [ch_nl] ["*** Begin Patch" : str; "*** Update File: a.py" : str; "@@ class BaseClass" : str; "@@ def method():" : str;
                             "-old" : str; "*** End Patch" : str])) = false.
Proof. vm_compute. reflexivity. Qed.
