(* ===== verification/AbsolutePath.v ===== *)
(** Absolute paths of the codex agent: [codex-rs/utils/absolute-path/src/lib.rs]
    and its [absolutize.rs], on Unix. A path is resolved against a base by text
    alone: the home directory is expanded, the base is prefixed, dots and double
    dots are removed. *)
From S2P Require Import Prelude Json Paths Types Host.
#[local] Open Scope nat_scope.

(** ** [absolutize.rs] *)

Definition path_pop (p : str) : str := match path_parent p with Some q => q | None => p end.

Definition push_component (normalized : str) (c : component) : str :=
  match c with
  | CurDir => normalized
  | ParentDir => path_pop normalized
  | RootDir => path_join normalized [ch_slash]
  | Normal n => path_join normalized n
  end.

Definition normalize_path (path : str) : str :=
  let normalized := foldl push_component [] (components path) in
  if is_empty normalized then "." else normalized.

Definition is_absolute (path : str) : bool := starts_with [ch_slash] path.

Definition path_with_base (path base_path : str) : str :=
  if is_absolute path then path else path_join base_path path.

Definition absolutize_from (path base_path : str) : str := normalize_path (path_with_base path base_path).

(** [std::env::current_dir] may fail. *)
Definition absolutize (current_dir : result str str) (path : str) : result str str :=
  if is_absolute path then Ok (normalize_path path)
  else cwd ← current_dir; mret (absolutize_from path cwd).

(** ** [lib.rs] *)

(** [home_dir] of the dirs crate is a parameter. *)
Definition maybe_expand_home_directory (home_dir : option str) (path : str) : str :=
  match home_dir with
  | Some home =>
      match strip_prefix "~" path with
      | Some rest =>
          if is_empty rest then home
          else match strip_prefix [ch_slash] rest with
               | Some rest => path_join home (trim_start_matches (N.eqb ch_slash) rest)
               | None => path
               end
      | None => path
      end
  | None => path
  end.

Definition resolve_path_against_base (home_dir : option str) (path base_path : str) : str :=
  absolutize_from (maybe_expand_home_directory home_dir path) base_path.

Definition from_absolute_path (home_dir : option str) (current_dir : result str str) (path : str)
    : result str str :=
  absolutize current_dir (maybe_expand_home_directory home_dir path).

Definition from_absolute_path_checked (home_dir : option str) (path : str) : result str str :=
  let expanded := maybe_expand_home_directory home_dir path in
  if negb (is_absolute expanded) then Err (lit "path is not absolute: " ++ path)
  else Ok (absolutize_from expanded "/").

Definition relative_to_current_dir (home_dir : option str) (current_dir : result str str) (path : str)
    : result str str :=
  cwd ← current_dir; mret (resolve_path_against_base home_dir path cwd).

Definition absolute_join (home_dir : option str) (self path : str) : str :=
  resolve_path_against_base home_dir path self.

(** ** Dots and double dots, on components *)

(** The reference: a stack of components that double dots pop, down to the root. *)
Definition norm_step (stack : list component) (c : component) : list component :=
  match c with
  | CurDir => stack
  | ParentDir => match last stack with Some (Normal _) => removelast stack | _ => stack end
  | c => stack ++ [c]
  end.
Definition norm_components (cs : list component) : list component := foldl norm_step [] cs.

(** A name between slashes. *)
Definition plain_name (n : str) : Prop := n ≠ [] ∧ (ch_slash ∉ n) ∧ n ≠ lit "." ∧ n ≠ lit "..".
Definition plain (c : component) : Prop := match c with Normal n => plain_name n | _ => False end.
(** A stack: perhaps the root, then names. *)
Definition stack_ok (cs : list component) : Prop :=
  match cs with RootDir :: r => Forall plain r | _ => Forall plain cs end.

(** ** Lemmas *)

Lemma plain_names cs : Forall plain cs → ∃ ns, cs = map Normal ns ∧ Forall plain_name ns.
Proof.
  induction 1 as [|c cs Hc _ (ns & -> & Hns)]; [by exists []|]. destruct c as [| | |n]; try done.
  exists (n :: ns). split; [done|by constructor].
Qed.

Lemma piece_components_names ns : Forall plain_name ns → piece_components ns = map Normal ns.
Proof.
  induction 1 as [|n ns (Hne & _ & Hdot & Hdots) _ IH]; [done|]. unfold piece_components in *. simpl.
  apply is_empty_false in Hne. apply str_eqb_neq in Hdot, Hdots. rewrite Hne Hdot.
  unfold classify at 1. rewrite Hdots. cbn. by f_equal.
Qed.

Lemma join_names ns : map render_component (map Normal ns) = ns.
Proof. induction ns; simpl; congruence. Qed.

Lemma names_no_slash ns : Forall plain_name ns → Forall (λ p, ch_slash ∉ p) ns.
Proof. intros H. eapply Forall_impl; [exact H|]. by intros n (_ & ? & _). Qed.

Lemma components_rooted ns :
  Forall plain_name ns → components (path_of_components (RootDir :: map Normal ns)) = RootDir :: map Normal ns.
Proof.
  intros Hns. destruct ns as [|n ns]; [done|].
  change (path_of_components (RootDir :: map Normal (n :: ns)))
    with (ch_slash :: join [ch_slash] (map render_component (map Normal (n :: ns)))).
  rewrite join_names. unfold components.
  change (starts_with [ch_slash] (ch_slash :: join [ch_slash] (n :: ns))) with true. cbv iota.
  change (split_on ch_slash (ch_slash :: join [ch_slash] (n :: ns)))
    with ([] :: split_on ch_slash (join [ch_slash] (n :: ns))).
  rewrite split_join //; [by apply names_no_slash|]. by rewrite -piece_components_names.
Qed.

Lemma components_relative ns :
  Forall plain_name ns → components (path_of_components (map Normal ns)) = map Normal ns.
Proof.
  intros Hns. destruct ns as [|n ns]; [done|].
  change (path_of_components (map Normal (n :: ns)))
    with (join [ch_slash] (map render_component (map Normal (n :: ns)))).
  rewrite join_names. unfold components. rewrite split_join //; [by apply names_no_slash|].
  inversion Hns as [|? ? (Hne & Hslash & Hdot & _)]; subst.
  assert (starts_with [ch_slash] (join [ch_slash] (n :: ns)) = false) as ->.
  { destruct (starts_with _ _) eqn:E; [|done]. apply starts_with_spec in E as [r Hr]. destruct n as [|c n]; [done|].
    destruct Hslash. destruct ns; simpl in Hr; injection Hr as -> _; by left. }
  apply str_eqb_neq in Hdot. rewrite Hdot. by apply piece_components_names.
Qed.

Lemma components_stack cs : stack_ok cs → components (path_of_components cs) = cs.
Proof.
  destruct cs as [|[| | |n] cs]; intros Hok; try by inversion Hok.
  - destruct (plain_names _ Hok) as (ns & -> & Hns). by apply components_rooted.
  - destruct (plain_names _ Hok) as (ns & -> & Hns). by apply components_relative.
Qed.

Lemma components_proper p : Forall (λ c, c = RootDir ∨ c = CurDir ∨ c = ParentDir ∨ plain c) (components p).
Proof.
  assert (∀ ps, Forall (λ q, ch_slash ∉ q) ps →
    Forall (λ c, c = RootDir ∨ c = CurDir ∨ c = ParentDir ∨ plain c) (piece_components ps)) as Hpieces.
  { intros ps Hps. unfold piece_components. induction Hps as [|q ps Hq _ IH]; [done|]. simpl.
    destruct (is_empty q || (q =s? ".")) eqn:E; [done|]. apply orb_false_iff in E as [E1 E2]. simpl.
    constructor; [|done]. unfold classify. destruct (q =s? "..") eqn:E3; [auto|]. do 3 right.
    apply is_empty_false in E1. apply str_eqb_neq in E2, E3. by split_and!. }
  unfold components. pose proof (Hpieces _ (split_on_pieces ch_slash p)) as Hp.
  destruct (starts_with [ch_slash] p); [constructor; auto|].
  pose proof (split_on_pieces ch_slash p) as Hs. destruct (split_on ch_slash p) as [|d r]; [done|].
  destruct (d =s? "."); [|done]. constructor; [auto|]. apply Hpieces. by inversion Hs.
Qed.

(** Only the first component is the root. *)
Lemma components_root p : match components p with [] => True | _ :: r => RootDir ∉ r end.
Proof.
  assert (∀ ps, RootDir ∉ piece_components ps) as Hno.
  { intros ps Hin. unfold piece_components in Hin. apply list_elem_of_omap in Hin as (q & _ & Hq).
    unfold classify in Hq. by repeat case_match. }
  unfold components. destruct (starts_with [ch_slash] p); [apply Hno|].
  destruct (split_on ch_slash p) as [|d r]; [done|]. destruct (d =s? "."); [apply Hno|].
  pose proof (Hno (d :: r)) as Hn. destruct (piece_components (d :: r)); [done|]. set_solver.
Qed.

Lemma names_text ns :
  Forall plain_name ns → ns ≠ [] → ∃ t c, join [ch_slash] ns = t ++ [c] ∧ c ≠ ch_slash.
Proof.
  intros Hns Hne. destruct ns as [|x ns _] using rev_ind; [done|].
  apply Forall_app in Hns as [_ (Hx & Hxs & _)%Forall_singleton].
  destruct x as [|c x _] using rev_ind; [done|].
  assert (c ≠ ch_slash) as Hc by (intros ->; apply Hxs; set_solver).
  destruct ns as [|y ns]; [by exists x, c|]. rewrite join_snoc //.
  exists (join [ch_slash] (y :: ns) ++ [ch_slash] ++ x), c. by rewrite -!app_assoc.
Qed.

Lemma not_ends_with c d t : d ≠ c → ends_with [c] (t ++ [d]) = false.
Proof.
  intros Hne. unfold ends_with. destruct (strip_suffix [c] (t ++ [d])) as [r|] eqn:Hs; [|done].
  apply strip_suffix_Some in Hs. by apply app_inj_tail in Hs as [_ ->].
Qed.

Lemma path_of_snoc cs n :
  stack_ok cs → plain_name n → path_join (path_of_components cs) n = path_of_components (cs ++ [Normal n]).
Proof.
  intros Hok (Hne & Hslash & _). unfold path_join.
  assert (starts_with [ch_slash] n = false) as ->.
  { destruct (starts_with _ _) eqn:E; [|done]. apply starts_with_spec in E as [r ->]. destruct Hslash. by left. }
  assert (∀ ns, ns ≠ [] → join [ch_slash] (map render_component (map Normal ns ++ [Normal n]))
    = join [ch_slash] ns ++ [ch_slash] ++ n) as Hjoin.
  { intros ns Hns. rewrite map_app join_names. by apply join_snoc. }
  destruct cs as [|[| | |m] cs]; try by inversion Hok.
  - destruct (plain_names _ Hok) as (ns & -> & Hns). destruct (decide (ns = [])) as [->|Hnn]; [done|].
    assert (∀ cs, cs ≠ [] → path_of_components (RootDir :: cs) = ch_slash :: join [ch_slash] (map render_component cs))
      as Hroot by by intros [].
    destruct (names_text ns Hns Hnn) as (t & c & Ht & Hc).
    rewrite -app_comm_cons !Hroot; [by destruct ns..|]. rewrite Hjoin // join_names Ht.
    rewrite app_comm_cons not_ends_with // -app_comm_cons /=.
  - destruct (plain_names _ Hok) as (ns & Hcs & Hns). rewrite Hcs. destruct ns as [|x ns]; [done|].
    destruct (names_text _ Hns ltac:(done)) as (t & c & Ht & Hc).
    change (path_of_components (map Normal (x :: ns)))
      with (join [ch_slash] (map render_component (map Normal (x :: ns)))).
    change (path_of_components (map Normal (x :: ns) ++ [Normal n]))
      with (join [ch_slash] (map render_component (map Normal (x :: ns) ++ [Normal n]))).
    rewrite Hjoin // join_names Ht not_ends_with //. by destruct t.
Qed.

Lemma path_pop_stack cs :
  stack_ok cs →
  path_pop (path_of_components cs)
  = path_of_components (match last cs with Some (Normal _) => removelast cs | _ => cs end).
Proof.
  intros Hok. unfold path_pop, path_parent. rewrite components_stack //.
  destruct cs as [|c cs _] using rev_ind; [done|]. rewrite reverse_app last_snoc /= reverse_involutive.
  rewrite removelast_last.
  destruct c as [| | |n]; [done|exfalso..|done].
  - destruct cs as [|[] cs]; simpl in Hok; inversion Hok; subst; try done;
      match goal with Hf : Forall plain (_ ++ _) |- _ => apply Forall_app in Hf as [_ Hf]; by inversion Hf end.
  - destruct cs as [|[] cs]; simpl in Hok; inversion Hok; subst; try done;
      match goal with Hf : Forall plain (_ ++ _) |- _ => apply Forall_app in Hf as [_ Hf]; by inversion Hf end.
Qed.

Lemma stack_snoc cs n : stack_ok cs → plain_name n → stack_ok (cs ++ [Normal n]).
Proof.
  intros Hok Hn. assert (Forall plain [Normal n]) as Hs by (apply Forall_singleton; exact Hn).
  destruct cs as [|[| | |m] cs]; simpl in *; try by inversion Hok.
  - by apply Forall_app.
  - by apply (Forall_app plain (Normal m :: cs)).
Qed.

Lemma stack_pop cs : stack_ok cs → stack_ok (match last cs with Some (Normal _) => removelast cs | _ => cs end).
Proof.
  intros Hok. destruct cs as [|c cs _] using rev_ind; [done|]. rewrite last_snoc removelast_last.
  destruct c; try done. destruct cs as [|[| | |m] cs]; simpl in *; try by inversion Hok.
  - by apply Forall_app in Hok as [? _].
  - apply (Forall_app plain (Normal m :: cs)) in Hok as [? _]. done.
Qed.

(** One component, on the text as on the stack. *)
Lemma push_component_stack cs c :
  stack_ok cs → (plain c ∨ c = CurDir ∨ c = ParentDir ∨ (c = RootDir ∧ cs = [])) →
  push_component (path_of_components cs) c = path_of_components (norm_step cs c) ∧ stack_ok (norm_step cs c).
Proof.
  intros Hok [Hc|[->|[->|[-> ->]]]].
  - destruct c as [| | |n]; try done. split; [by apply path_of_snoc|by apply stack_snoc].
  - done.
  - split; [by apply path_pop_stack|by apply stack_pop].
  - by split.
Qed.

Lemma fold_components l cs :
  stack_ok cs → Forall (λ c, plain c ∨ c = CurDir ∨ c = ParentDir) l →
  foldl push_component (path_of_components cs) l = path_of_components (foldl norm_step cs l)
  ∧ stack_ok (foldl norm_step cs l).
Proof.
  intros Hok Hl. revert cs Hok. induction Hl as [|c l Hc _ IH]; intros cs Hok; [done|]. simpl.
  destruct (push_component_stack cs c Hok ltac:(naive_solver)) as [-> Hok']. by apply IH.
Qed.

Lemma normalize_stack p :
  foldl push_component [] (components p) = path_of_components (norm_components (components p))
  ∧ stack_ok (norm_components (components p)).
Proof.
  pose proof (components_proper p) as Hp. pose proof (components_root p) as Hr. unfold norm_components.
  destruct (components p) as [|c l]; [split; [done|apply Forall_nil_2]|]. inversion Hp as [|? ? Hc Hl]; subst.
  assert (Forall (λ c, plain c ∨ c = CurDir ∨ c = ParentDir) l) as Hl'.
  { apply Forall_forall. intros d Hd. rewrite Forall_forall in Hl.
    destruct (Hl d Hd) as [->|[->|[->|?]]]; [done|auto..]. }
  simpl. destruct (push_component_stack [] c) as [Hpush Hok]; [by apply Forall_nil_2|naive_solver|].
  change [] with (path_of_components []) at 1. rewrite Hpush. by apply fold_components.
Qed.

Lemma path_of_nil cs : stack_ok cs → path_of_components cs = [] → cs = [].
Proof. intros Hok Hp. rewrite -(components_stack cs Hok) Hp. done. Qed.

Lemma norm_components_id cs : stack_ok cs → norm_components cs = cs.
Proof.
  unfold norm_components. assert (∀ l acc, Forall plain l → foldl norm_step acc l = acc ++ l) as Hplain.
  { intros l acc Hl. revert acc. induction Hl as [|c l Hc _ IH]; intros acc; simpl; [by rewrite app_nil_r|].
    rewrite IH. destruct c; try done. by rewrite /= -app_assoc. }
  intros Hok. destruct cs as [|[| | |n] cs]; try by inversion Hok.
  - simpl. by rewrite Hplain.
  - by rewrite Hplain.
Qed.

Lemma normalize_components p :
  components (normalize_path p) =
  match norm_components (components p) with [] => [CurDir] | cs => cs end.
Proof.
  unfold normalize_path. destruct (normalize_stack p) as [-> Hok].
  destruct (is_empty (path_of_components (norm_components (components p)))) eqn:E.
  - apply is_empty_true in E. by rewrite (path_of_nil _ Hok E).
  - rewrite components_stack //. destruct (norm_components (components p)); [done|done].
Qed.

(** ** Properties *)

Lemma norm_step_root cs c : ∃ cs', norm_step (RootDir :: cs) c = RootDir :: cs'.
Proof.
  destruct c; [by eexists|by eexists| |by eexists].
  destruct cs as [|d cs _] using rev_ind; [by exists []|]. unfold norm_step.
  rewrite app_comm_cons last_snoc removelast_last. destruct d; eauto.
Qed.

Lemma norm_keeps_root l cs : ∃ cs', foldl norm_step (RootDir :: cs) l = RootDir :: cs'.
Proof.
  revert cs. induction l as [|c l IH]; intros cs; [by exists cs|]. simpl foldl.
  destruct (norm_step_root cs c) as [cs' ->]. apply IH.
Qed.

(** Absolute paths without dots, as text. *)
Definition settled (p : str) : Prop := ∃ ns, Forall plain_name ns ∧ p = path_of_components (RootDir :: map Normal ns).

Lemma settled_absolute p : settled p → is_absolute p = true.
Proof. intros (ns & _ & ->). by destruct ns. Qed.

Lemma settled_names p : settled p → ∃ ns, Forall plain_name ns ∧ components p = RootDir :: map Normal ns.
Proof. intros (ns & Hns & ->). exists ns. by rewrite components_rooted. Qed.

Lemma settled_text p : settled p → p = path_of_components (components p).
Proof. intros (ns & Hns & ->). by rewrite components_rooted. Qed.

Lemma settled_eq p q : settled p → settled q → components p = components q → p = q.
Proof. intros Hp Hq Heq. by rewrite (settled_text p) // (settled_text q) // Heq. Qed.

Lemma names_inj ns ms : map Normal ns = map Normal ms → ns = ms.
Proof. intros H. rewrite -(join_names ns) H. apply join_names. Qed.

Lemma settled_prefix p ns ms : settled p → components p = RootDir :: map Normal (ns ++ ms) →
  settled (path_of_components (RootDir :: map Normal ns)).
Proof.
  intros (ks & Hks & ->). rewrite components_rooted //. intros [= Heq%names_inj].
  exists ns. split; [|done]. subst. by apply Forall_app in Hks as [? _].
Qed.

Lemma path_with_base_absolute p base : is_absolute base = true → is_absolute (path_with_base p base) = true.
Proof.
  intros Hbase. unfold path_with_base. destruct (is_absolute p) eqn:E; [done|].
  unfold path_join. unfold is_absolute in E. rewrite E. apply starts_with_spec in Hbase as [r ->].
  by destruct (_ || _).
Qed.

Lemma normalize_absolute p :
  is_absolute p = true → settled (normalize_path p) ∧ components (normalize_path p) = norm_components (components p).
Proof.
  intros Habs. destruct (normalize_stack p) as [Hfold Hok].
  assert (∃ l, components p = RootDir :: l) as [l Hl].
  { unfold components, is_absolute in *. rewrite Habs. eauto. }
  destruct (norm_keeps_root l []) as [cs Hcs].
  assert (norm_components (components p) = foldl norm_step [RootDir] l) as Hnorm by by rewrite Hl.
  rewrite Hnorm Hcs in Hfold Hok. rewrite Hnorm Hcs.
  destruct (plain_names _ Hok) as (ns & -> & Hns).
  assert (normalize_path p = path_of_components (RootDir :: map Normal ns)) as ->.
  { unfold normalize_path. rewrite Hfold. by destruct ns. }
  split; [by exists ns|by rewrite components_rooted].
Qed.

Lemma normalize_settled p : settled p → normalize_path p = p.
Proof.
  intros Hp. destruct (normalize_absolute p (settled_absolute p Hp)) as [Hs Hc]. apply settled_eq; [done..|]. rewrite Hc.
  destruct (settled_names p Hp) as (ns & Hns & ->). apply norm_components_id.
  change (Forall plain (map Normal ns)). apply Forall_fmap. eapply Forall_impl; [exact Hns|]. done.
Qed.

(** A path resolved against an absolute base is absolute, has the components
    of the path (after the base, when the path is relative) with each double dot
    taking back the name before it, so that none and no dot is left; resolving
    it again, against any base, changes nothing. *)
Theorem resolve_path_against_base_absolute home_dir path base_path base' :
  is_absolute base_path = true →
  let expanded := maybe_expand_home_directory home_dir path in
  let resolved := resolve_path_against_base home_dir path base_path in
  components resolved = norm_components (components (path_with_base expanded base_path))
  ∧ (∃ names, components resolved = RootDir :: map Normal names ∧ Forall plain_name names)
  ∧ is_absolute resolved = true ∧ absolutize_from resolved base' = resolved.
Proof.
  intros Hbase expanded resolved. unfold resolved, resolve_path_against_base, absolutize_from. fold expanded.
  destruct (normalize_absolute _ (path_with_base_absolute expanded _ Hbase)) as [Hs ->].
  destruct (normalize_absolute _ (path_with_base_absolute expanded _ Hbase)) as [_ Hc].
  destruct (settled_names _ Hs) as (ns & Hns & Hnames). split_and!; [done|exists ns; by rewrite -Hc|by apply settled_absolute|].
  unfold path_with_base at 1. rewrite settled_absolute //. by apply normalize_settled.
Qed.

Lemma resolve_path_against_base_absolute_witness :
  resolve_path_against_base (Some ("/home/me" : str)) "../x/./y/.." "/repo/src" = "/repo/x"
  ∧ components (resolve_path_against_base (Some ("/home/me" : str)) "../x/./y/.." "/repo/src")
    = norm_components (components "/repo/src/../x/./y/..").
Proof.
  split; [vm_compute; reflexivity|].
  destruct (resolve_path_against_base_absolute (Some ("/home/me" : str)) "../x/./y/.." "/repo/src" "/") as [Hc _].
  - reflexivity.
  - exact Hc.
Defined.
