(* ===== verification/Permissions.v ===== *)
(** What a command of the agent may read and write:
    [codex-rs/protocol/src/permissions.rs], with the legacy [SandboxPolicy] and
    [WritableRoot] of [protocol.rs], on Unix. A policy is a list of entries, each
    of which gives a path an access mode; the entry with the longest path that a
    file lies under decides. The disk is read, never written: it is a snapshot
    (class [Disk]). Paths that are [AbsolutePathBuf] in the code are strings
    that the theorems take to be absolute and normalised. *)
From S2P Require Import Prelude Json Paths Types Host AbsolutePath.
#[local] Open Scope nat_scope.

(** ** The disk *)

(** [std::env] and [std::fs] as they are asked; [disk_canonicalize] is
    [std::fs::canonicalize], which [dunce::canonicalize] is on Unix, and
    [disk_is_symlink] is [std::fs::symlink_metadata], which may fail. The globs of
    the globset crate are compiled to a test of paths. *)
Class Disk := {
  disk_home_dir : option str;
  disk_current_dir : result str str;
  disk_tmpdir_var : option str;
  disk_is_dir : str → bool;
  disk_is_file : str → bool;
  disk_exists : str → bool;
  disk_read_to_string : str → result str str;
  disk_is_symlink : str → option bool;
  disk_canonicalize : str → option str;
  build_glob_matcher : str → option (str → bool)
}.

(** ** Data *)

Inductive NetworkSandboxPolicy : Type := NetworkRestricted | NetworkEnabled.
Definition network_is_enabled (self : NetworkSandboxPolicy) : bool :=
  match self with NetworkEnabled => true | NetworkRestricted => false end.

(** The derived order of access modes: [Read], [Write], [None]. *)
Inductive FileSystemAccessMode : Type := Read | Write | NoAccess.
#[global] Instance access_eq_dec : EqDecision FileSystemAccessMode.
Proof. solve_decision. Defined.
Definition access_rank (a : FileSystemAccessMode) : nat := match a with Read => 0 | Write => 1 | NoAccess => 2 end.
Definition can_read (self : FileSystemAccessMode) : bool := negb (bool_decide (self = NoAccess)).
Definition can_write (self : FileSystemAccessMode) : bool := bool_decide (self = Write).

Inductive FileSystemSpecialPath : Type :=
| Root
| Minimal
| ProjectRoots (subpath : option str)
| Tmpdir
| SlashTmp
| UnknownPath (path : str) (subpath : option str).
#[global] Instance special_path_eq_dec : EqDecision FileSystemSpecialPath.
Proof. solve_decision. Defined.

Inductive FileSystemPath : Type :=
| PathEntry (path : str)
| GlobPattern (pattern : str)
| Special (value : FileSystemSpecialPath).
#[global] Instance file_system_path_eq_dec : EqDecision FileSystemPath.
Proof. solve_decision. Defined.

Record FileSystemSandboxEntry := MkEntry { entry_path : FileSystemPath; entry_access : FileSystemAccessMode }.
#[global] Instance entry_eq_dec : EqDecision FileSystemSandboxEntry.
Proof. solve_decision. Defined.

Inductive FileSystemSandboxKind : Type := Restricted | Unrestricted | ExternalSandbox.
#[global] Instance kind_eq_dec : EqDecision FileSystemSandboxKind.
Proof. solve_decision. Defined.

Record FileSystemSandboxPolicy := MkPolicy {
  policy_kind : FileSystemSandboxKind;
  glob_scan_max_depth : option N;
  entries : list FileSystemSandboxEntry
}.

Record ResolvedFileSystemEntry := MkResolved { resolved_path : str; resolved_access : FileSystemAccessMode }.

Record WritableRoot := MkWritableRoot { root : str; read_only_subpaths : list str }.

Inductive NetworkAccess : Type := AccessRestricted | AccessEnabled.
Inductive SandboxPolicy : Type :=
| DangerFullAccess
| ReadOnly (network_access : bool)
| ExternalSandboxPolicy (network_access : NetworkAccess)
| WorkspaceWrite (writable_roots : list str) (network_access exclude_tmpdir_env_var exclude_slash_tmp : bool).

Record FileSystemSemanticSignature := MkSignature {
  sig_full_disk_read_access : bool;
  sig_full_disk_write_access : bool;
  sig_include_platform_defaults : bool;
  sig_readable_roots : list str;
  sig_writable_roots : list WritableRoot;
  sig_unreadable_roots : list str;
  sig_unreadable_globs : list str
}.

Definition is_restricted (self : FileSystemSandboxPolicy) : bool := bool_decide (policy_kind self = Restricted).

(** [AbsolutePathBuf]s are equal when their components are, and so are the paths
    inside of equal entries. *)
Definition special_path_eqb (a b : FileSystemSpecialPath) : bool :=
  let subpath_eqb s t :=
    match s, t with Some s, Some t => path_eq s t | None, None => true | _, _ => false end in
  match a, b with
  | Root, Root | Minimal, Minimal | Tmpdir, Tmpdir | SlashTmp, SlashTmp => true
  | ProjectRoots s, ProjectRoots t => subpath_eqb s t
  | UnknownPath p s, UnknownPath q t => (p =s? q) && subpath_eqb s t
  | _, _ => false
  end.
Definition file_system_path_eqb (a b : FileSystemPath) : bool :=
  match a, b with
  | PathEntry p, PathEntry q => path_eq p q
  | GlobPattern p, GlobPattern q => p =s? q
  | Special v, Special w => special_path_eqb v w
  | _, _ => false
  end.
Definition entry_eqb (a b : FileSystemSandboxEntry) : bool :=
  file_system_path_eqb (entry_path a) (entry_path b) && bool_decide (entry_access a = entry_access b).

(** ** Constructors *)

Definition root_entry (access : FileSystemAccessMode) : FileSystemSandboxEntry := MkEntry (Special Root) access.
Definition restricted (es : list FileSystemSandboxEntry) : FileSystemSandboxPolicy := MkPolicy Restricted None es.
Definition unrestricted : FileSystemSandboxPolicy := MkPolicy Unrestricted None [].
Definition external_sandbox : FileSystemSandboxPolicy := MkPolicy ExternalSandbox None [].
Definition policy_default : FileSystemSandboxPolicy := restricted [root_entry Read].

(** ** [std::path] *)

(** [Path::ancestors]: a path has fewer than as many as it has components, and itself. *)
Fixpoint ancestors_fuel (fuel : nat) (path : str) : list str :=
  path :: match fuel with
          | 0 => []
          | S fuel => match path_parent path with Some parent => ancestors_fuel fuel parent | None => [] end
          end.
Definition ancestors (path : str) : list str := ancestors_fuel (length (components path)) path.

(** [Path::strip_prefix], up to the equality of paths. *)
Definition path_strip_prefix (path base : str) : option str :=
  if path_starts_with path base then Some (path_of_components (drop (length (components base)) (components path)))
  else None.

(** [Path]'s order compares components; those of absolute paths are the root and names. *)
Definition component_rank (c : component) : nat :=
  match c with RootDir => 0 | CurDir => 1 | ParentDir => 2 | Normal _ => 3 end.
Definition component_compare (c d : component) : comparison :=
  match c, d with
  | Normal m, Normal n => str_compare m n
  | _, _ => Nat.compare (component_rank c) (component_rank d)
  end.
Fixpoint components_compare (a b : list component) : comparison :=
  match a, b with
  | [], [] => Eq
  | [], _ :: _ => Lt
  | _ :: _, [] => Gt
  | c :: a, d :: b => match component_compare c d with Eq => components_compare a b | o => o end
  end.
Definition path_le (a b : str) : bool :=
  match components_compare (components a) (components b) with Gt => false | _ => true end.

(** [Iterator::max_by_key] for a key with a boolean order: the last of the greatest. *)
Definition max_by_order {A} (le : A → A → bool) (l : list A) : option A :=
  match l with
  | [] => None
  | x :: r => Some (foldl (λ best y, if le best y then y else best) x r)
  end.

Section disk.
Context {D : Disk}.

(** ** Paths, looked up on the disk *)

Definition absolute (path : str) : option str :=
  match from_absolute_path disk_home_dir disk_current_dir path with Ok p => Some p | Err _ => None end.
Definition resolve_against (path base : str) : str := resolve_path_against_base disk_home_dir path base.
(** [AbsolutePathBuf::join]. *)
Definition join_absolute (self path : str) : str := absolute_join disk_home_dir self path.

Definition should_preserve_logical_path (logical : str) : bool :=
  existsb (λ ancestor,
    match disk_is_symlink ancestor with
    | Some is_symlink => is_symlink && is_some_b (parent ← path_parent ancestor; path_parent parent)
    | None => false
    end) (ancestors logical).

Definition canonicalize_preserving_symlinks (path : str) : option str :=
  logical ← absolute path;
  let preserve_logical_path := should_preserve_logical_path logical in
  match disk_canonicalize path with
  | Some canonical => if preserve_logical_path && negb (path_eq canonical logical) then Some logical else Some canonical
  | None => Some logical
  end.

(** What one ancestor of a path says of the path, if anything. *)
Definition normalized_through (raw_path ancestor : str) : option str :=
  _ ← disk_is_symlink ancestor;
  normalized_ancestor ← canonicalize_preserving_symlinks ancestor;
  suffix ← path_strip_prefix raw_path ancestor;
  absolute (path_join normalized_ancestor suffix).
Definition normalize_effective_absolute_path (path : str) : str :=
  unwrap_or path (head (omap (normalized_through path) (ancestors path))).

(** The first of the paths that are equal stays; sets of paths compare components. *)
Fixpoint insert_new_paths (seen : list str) (paths : list str) : list str :=
  match paths with
  | [] => []
  | path :: rest =>
      if existsb (path_eq path) seen then insert_new_paths seen rest
      else path :: insert_new_paths (path :: seen) rest
  end.
Definition dedup_absolute_paths (paths : list str) (normalize_effective_paths : bool) : list str :=
  insert_new_paths [] (if normalize_effective_paths then normalize_effective_absolute_path <$> paths else paths).

Definition sorted_absolute_paths (paths : list str) : list str := sort_by path_le paths.
Definition sorted_writable_roots (roots : list WritableRoot) : list WritableRoot :=
  sort_by (λ left right, path_le (root left) (root right))
    ((λ r, MkWritableRoot (root r) (sorted_absolute_paths (read_only_subpaths r))) <$> roots).

(** ** The paths of entries *)

(** [None] also where the code panics: [root_of_cwd] below shows that it does not. *)
Definition absolute_root_path_for_cwd (cwd : str) : option str :=
  root ← last (ancestors cwd); absolute root.

Definition resolve_file_system_special_path (value : FileSystemSpecialPath) (cwd : option str) : option str :=
  match value with
  | Root | Minimal | UnknownPath _ _ => None
  | ProjectRoots subpath =>
      cwd ← cwd;
      match subpath with
      | Some subpath => Some (resolve_against subpath cwd)
      | None => Some cwd
      end
  | Tmpdir =>
      tmpdir ← disk_tmpdir_var;
      if is_empty tmpdir then None else absolute tmpdir
  | SlashTmp =>
      slash_tmp ← absolute "/tmp";
      if negb (disk_is_dir slash_tmp) then None else Some slash_tmp
  end.

Definition resolve_file_system_path (path : FileSystemPath) (cwd : option str) : option str :=
  match path with
  | PathEntry path => Some path
  | GlobPattern _ => None
  | Special value => resolve_file_system_special_path value cwd
  end.

Definition resolve_entry_path (path : FileSystemPath) (cwd : option str) : option str :=
  match path with
  | Special Root => cwd ← cwd; absolute_root_path_for_cwd cwd
  | _ => resolve_file_system_path path cwd
  end.

Definition resolve_candidate_path (path cwd : str) : option str :=
  if is_absolute path then absolute path else Some (resolve_against path cwd).

Definition special_paths_share_target (left right : FileSystemSpecialPath) : bool := special_path_eqb left right.

Definition special_path_matches_absolute_path (value : FileSystemSpecialPath) (path : str) : bool :=
  match value with
  | Root => negb (is_some_b (path_parent path))
  | SlashTmp => path_eq path "/tmp"
  | _ => false
  end.

Definition file_system_paths_share_target (l r : FileSystemPath) : bool :=
  match l, r with
  | PathEntry l, PathEntry r => path_eq l r
  | Special l, Special r => special_paths_share_target l r
  | PathEntry path, Special value | Special value, PathEntry path => special_path_matches_absolute_path value path
  | GlobPattern l, GlobPattern r => l =s? r
  | GlobPattern _, _ | _, GlobPattern _ => false
  end.

Definition resolved_entry_le (a b : ResolvedFileSystemEntry) : bool :=
  let specificity e := length (components (resolved_path e)) in
  (specificity a <? specificity b)
  || ((specificity a =? specificity b) && (access_rank (resolved_access a) <=? access_rank (resolved_access b))).

Definition resolved_entries_with_cwd (self : FileSystemSandboxPolicy) (cwd : str) : list ResolvedFileSystemEntry :=
  let cwd_absolute := absolute cwd in
  omap (λ entry, (λ path, MkResolved path (entry_access entry)) <$> resolve_entry_path (entry_path entry) cwd_absolute)
    (entries self).

(** ** What a policy allows *)

Definition has_root_access (self : FileSystemSandboxPolicy) (predicate : FileSystemAccessMode → bool) : bool :=
  is_restricted self
  && existsb (λ entry, match entry_path entry with Special Root => predicate (entry_access entry) | _ => false end)
       (entries self).

Definition is_denied (entry : FileSystemSandboxEntry) : bool := bool_decide (entry_access entry = NoAccess).
Definition has_denied_read_restrictions (self : FileSystemSandboxPolicy) : bool :=
  is_restricted self && existsb is_denied (entries self).

Definition has_same_target_write_override (self : FileSystemSandboxPolicy) (entry : FileSystemSandboxEntry) : bool :=
  existsb (λ candidate,
    can_write (entry_access candidate)
    && (access_rank (entry_access entry) <? access_rank (entry_access candidate))
    && file_system_paths_share_target (entry_path candidate) (entry_path entry)) (entries self).

Definition narrows_write (self : FileSystemSandboxPolicy) (entry : FileSystemSandboxEntry) : bool :=
  if can_write (entry_access entry) then false
  else match entry_path entry with
       | PathEntry _ => negb (has_same_target_write_override self entry)
       | GlobPattern _ => true
       | Special Root => is_denied entry
       | Special (Minimal | UnknownPath _ _) => false
       | Special _ => negb (has_same_target_write_override self entry)
       end.
Definition has_write_narrowing_entries (self : FileSystemSandboxPolicy) : bool :=
  is_restricted self && existsb (narrows_write self) (entries self).

Definition has_full_disk_read_access (self : FileSystemSandboxPolicy) : bool :=
  match policy_kind self with
  | Unrestricted | ExternalSandbox => true
  | Restricted => has_root_access self can_read && negb (has_denied_read_restrictions self)
  end.

Definition has_full_disk_write_access (self : FileSystemSandboxPolicy) : bool :=
  match policy_kind self with
  | Unrestricted | ExternalSandbox => true
  | Restricted => has_root_access self can_write && negb (has_write_narrowing_entries self)
  end.

Definition include_platform_defaults (self : FileSystemSandboxPolicy) : bool :=
  negb (has_full_disk_read_access self) && is_restricted self
  && existsb (λ entry, match entry_path entry with Special Minimal => can_read (entry_access entry) | _ => false end)
       (entries self).

Definition deciding_entry (path : str) (resolved : list ResolvedFileSystemEntry) : option ResolvedFileSystemEntry :=
  max_by_order resolved_entry_le (List.filter (λ entry, path_starts_with path (resolved_path entry)) resolved).
Definition resolve_access_with_cwd (self : FileSystemSandboxPolicy) (path cwd : str) : FileSystemAccessMode :=
  match policy_kind self with
  | Unrestricted | ExternalSandbox => Write
  | Restricted =>
      match resolve_candidate_path path cwd with
      | None => NoAccess
      | Some path =>
          unwrap_or NoAccess (resolved_access <$> deciding_entry path (resolved_entries_with_cwd self cwd))
      end
  end.
Definition can_read_path_with_cwd (self : FileSystemSandboxPolicy) (path cwd : str) : bool :=
  can_read (resolve_access_with_cwd self path cwd).
Definition can_write_path_with_cwd (self : FileSystemSandboxPolicy) (path cwd : str) : bool :=
  can_write (resolve_access_with_cwd self path cwd).

(** ** Entries that protect the metadata of a project *)

Definition append_default_read_only_entry_if_no_explicit_rule (es : list FileSystemSandboxEntry) (path : FileSystemPath) :
    list FileSystemSandboxEntry :=
  if existsb (λ entry, file_system_paths_share_target (entry_path entry) path) es then es
  else es ++ [MkEntry path Read].
Definition append_default_read_only_path_if_no_explicit_rule (es : list FileSystemSandboxEntry) (path : str) :
    list FileSystemSandboxEntry :=
  append_default_read_only_entry_if_no_explicit_rule es (PathEntry path).
Definition append_default_read_only_project_root_subpath_if_no_explicit_rule (es : list FileSystemSandboxEntry)
    (subpath : str) : list FileSystemSandboxEntry :=
  append_default_read_only_entry_if_no_explicit_rule es (Special (ProjectRoots (Some subpath))).

Definition has_explicit_resolved_path_entry (es : list ResolvedFileSystemEntry) (path : str) : bool :=
  existsb (λ entry, path_eq (resolved_path entry) path) es.

Definition is_git_pointer_file (path : str) : bool :=
  disk_is_file path && bool_decide (file_name path = Some (lit ".git")).

Definition resolve_gitdir_from_file (dot_git : str) : option str :=
  match disk_read_to_string dot_git with
  | Err _ => None
  | Ok contents =>
      '(_, gitdir_raw) ← split_once ch_colon (trim contents);
      let gitdir_raw := trim gitdir_raw in
      if is_empty gitdir_raw then None
      else
        base ← path_parent dot_git;
        let gitdir_path := resolve_against gitdir_raw base in
        if negb (disk_exists gitdir_path) then None else Some gitdir_path
  end.

Definition default_read_only_subpaths_for_writable_root (writable_root : str) (protect_missing_dot_codex : bool) : list str :=
  let top_level_git := join_absolute writable_root ".git" in
  let top_level_git_is_file := disk_is_file top_level_git in
  let top_level_git_is_dir := disk_is_dir top_level_git in
  let git_subpaths :=
    if top_level_git_is_dir || top_level_git_is_file then
      (if top_level_git_is_file && is_git_pointer_file top_level_git then option_list (resolve_gitdir_from_file top_level_git)
       else []) ++ [top_level_git]
    else [] in
  let top_level_agents := join_absolute writable_root ".agents" in
  let agents_subpaths := if disk_is_dir top_level_agents then [top_level_agents] else [] in
  let top_level_codex := join_absolute writable_root ".codex" in
  let codex_subpaths := if protect_missing_dot_codex || disk_is_dir top_level_codex then [top_level_codex] else [] in
  dedup_absolute_paths (git_subpaths ++ agents_subpaths ++ codex_subpaths) false.

Definition protect_default_subpaths (protect_missing_dot_codex : bool) (es : list FileSystemSandboxEntry)
    (writable_root : str) : list FileSystemSandboxEntry :=
  foldl append_default_read_only_path_if_no_explicit_rule es
    (default_read_only_subpaths_for_writable_root writable_root protect_missing_dot_codex).

(** The entries of a writable workspace before anything is protected. *)
Definition workspace_write_grants (writable_roots : list str) (exclude_tmpdir_env_var exclude_slash_tmp : bool) :
    list FileSystemSandboxEntry :=
  [root_entry Read; MkEntry (Special (ProjectRoots None)) Write]
  ++ (if negb exclude_slash_tmp then [MkEntry (Special SlashTmp) Write] else [])
  ++ (if negb exclude_tmpdir_env_var then [MkEntry (Special Tmpdir) Write] else [])
  ++ ((λ path, MkEntry (PathEntry path) Write) <$> writable_roots).

Definition workspace_write (writable_roots : list str) (exclude_tmpdir_env_var exclude_slash_tmp : bool) :
    FileSystemSandboxPolicy :=
  let es := workspace_write_grants writable_roots exclude_tmpdir_env_var exclude_slash_tmp in
  let es := append_default_read_only_project_root_subpath_if_no_explicit_rule es ".git" in
  let es := append_default_read_only_project_root_subpath_if_no_explicit_rule es ".agents" in
  let es := append_default_read_only_project_root_subpath_if_no_explicit_rule es ".codex" in
  restricted (foldl (protect_default_subpaths false) es writable_roots).

(** ** Legacy policies *)

Definition has_full_network_access (self : SandboxPolicy) : bool :=
  match self with
  | DangerFullAccess => true
  | ExternalSandboxPolicy network_access => match network_access with AccessEnabled => true | AccessRestricted => false end
  | ReadOnly network_access => network_access
  | WorkspaceWrite _ network_access _ _ => network_access
  end.
Definition network_policy_from (value : SandboxPolicy) : NetworkSandboxPolicy :=
  if has_full_network_access value then NetworkEnabled else NetworkRestricted.

Definition file_system_policy_from (value : SandboxPolicy) : FileSystemSandboxPolicy :=
  match value with
  | DangerFullAccess => unrestricted
  | ExternalSandboxPolicy _ => external_sandbox
  | ReadOnly _ => restricted [root_entry Read]
  | WorkspaceWrite writable_roots _ exclude_tmpdir_env_var exclude_slash_tmp =>
      workspace_write writable_roots exclude_tmpdir_env_var exclude_slash_tmp
  end.

Definition set_entries (self : FileSystemSandboxPolicy) (es : list FileSystemSandboxEntry) : FileSystemSandboxPolicy :=
  MkPolicy (policy_kind self) (glob_scan_max_depth self) es.

(** What is protected in the current directory and in the roots. *)
Definition protect_roots (es : list FileSystemSandboxEntry) (writable_roots : list str) (cwd : str) :
    list FileSystemSandboxEntry :=
  let es := match absolute cwd with
            | Some cwd_root => protect_default_subpaths true es cwd_root
            | None => es
            end in
  foldl (protect_default_subpaths false) es writable_roots.

Definition from_legacy_sandbox_policy_for_cwd (sandbox_policy : SandboxPolicy) (cwd : str) : FileSystemSandboxPolicy :=
  let file_system_policy := file_system_policy_from sandbox_policy in
  match sandbox_policy with
  | WorkspaceWrite writable_roots _ _ _ =>
      set_entries file_system_policy (protect_roots (entries file_system_policy) writable_roots cwd)
  | _ => file_system_policy
  end.

Definition add_missing_entry (es : list FileSystemSandboxEntry) (deny_entry : FileSystemSandboxEntry) :
    list FileSystemSandboxEntry :=
  if existsb (λ entry, entry_eqb entry deny_entry) es then es else es ++ [deny_entry].
Definition deny_entries (es : list FileSystemSandboxEntry) : list FileSystemSandboxEntry := List.filter is_denied es.

Definition from_legacy_sandbox_policy_preserving_deny_entries (sandbox_policy : SandboxPolicy) (cwd : str)
    (existing : FileSystemSandboxPolicy) : FileSystemSandboxPolicy :=
  let rebuilt := from_legacy_sandbox_policy_for_cwd sandbox_policy cwd in
  if negb (is_restricted rebuilt) then rebuilt
  else MkPolicy (policy_kind rebuilt) (glob_scan_max_depth existing)
         (foldl add_missing_entry (entries rebuilt) (deny_entries (entries existing))).

Definition preserve_deny_read_restrictions_from (self existing : FileSystemSandboxPolicy) : FileSystemSandboxPolicy :=
  let has_deny_read_entries := existsb is_denied (entries existing) in
  let self := if bool_decide (policy_kind self = Unrestricted) && has_deny_read_entries
              then restricted [root_entry Write] else self in
  if negb (is_restricted self) then self
  else MkPolicy (policy_kind self) (or_else (glob_scan_max_depth self) (glob_scan_max_depth existing))
         (foldl add_missing_entry (entries self) (deny_entries (entries existing))).

Definition legacy_runtime_file_system_policy_for_cwd (sandbox_policy : SandboxPolicy) (cwd : str) : FileSystemSandboxPolicy :=
  match sandbox_policy with
  | WorkspaceWrite writable_roots _ exclude_tmpdir_env_var exclude_slash_tmp =>
      restricted (protect_roots (workspace_write_grants writable_roots exclude_tmpdir_env_var exclude_slash_tmp) writable_roots cwd)
  | _ => file_system_policy_from sandbox_policy
  end.

(** ** More roots *)

Definition materialize_entry (cwd : option str) (entry : FileSystemSandboxEntry) : FileSystemSandboxEntry :=
  match entry_path entry with
  | Special (ProjectRoots _) =>
      match resolve_file_system_path (entry_path entry) cwd with
      | Some path => MkEntry (PathEntry path) (entry_access entry)
      | None => entry
      end
  | _ => entry
  end.
Definition materialize_project_roots_with_cwd (self : FileSystemSandboxPolicy) (cwd : str) : FileSystemSandboxPolicy :=
  set_entries self (materialize_entry (absolute cwd) <$> entries self).

Definition add_readable_root (cwd : str) (self : FileSystemSandboxPolicy) (path : str) : FileSystemSandboxPolicy :=
  if can_read_path_with_cwd self path cwd then self else set_entries self (entries self ++ [MkEntry (PathEntry path) Read]).
Definition with_additional_readable_roots (self : FileSystemSandboxPolicy) (cwd : str) (additional_readable_roots : list str) :
    FileSystemSandboxPolicy :=
  if has_full_disk_read_access self then self else foldl (add_readable_root cwd) self additional_readable_roots.

Definition add_writable_root (cwd : str) (self : FileSystemSandboxPolicy) (path : str) : FileSystemSandboxPolicy :=
  if can_write_path_with_cwd self path cwd then self else set_entries self (entries self ++ [MkEntry (PathEntry path) Write]).
Definition with_additional_writable_roots (self : FileSystemSandboxPolicy) (cwd : str) (additional_writable_roots : list str) :
    FileSystemSandboxPolicy :=
  foldl (add_writable_root cwd) self additional_writable_roots.

Definition add_legacy_writable_root (es : list FileSystemSandboxEntry) (path : str) : list FileSystemSandboxEntry :=
  let es :=
    if existsb (λ entry, can_write (entry_access entry)
                         && match entry_path entry with PathEntry existing => path_eq existing path | _ => false end) es
    then es else es ++ [MkEntry (PathEntry path) Write] in
  protect_default_subpaths false es path.
Definition with_additional_legacy_workspace_writable_roots (self : FileSystemSandboxPolicy)
    (additional_writable_roots : list str) : FileSystemSandboxPolicy :=
  if negb (is_restricted self) then self
  else set_entries self (foldl add_legacy_writable_root (entries self) additional_writable_roots).

(** ** Roots *)

Definition get_readable_roots_with_cwd (self : FileSystemSandboxPolicy) (cwd : str) : list str :=
  if has_full_disk_read_access self then []
  else
    dedup_absolute_paths
      (resolved_path <$>
       List.filter (λ entry, can_read (resolved_access entry) && can_read_path_with_cwd self (resolved_path entry) cwd)
         (resolved_entries_with_cwd self cwd)) true.

(** Where an entry that must not be written shows under a writable root, if it does. *)
Definition raw_carveout_path (root : str) (raw_writable_roots : list str) (path : str) : option str :=
  if is_some_b (path_parent root) then
    if path_eq path root then None
    else if path_starts_with path root then Some path
    else head (omap (λ raw_root,
           suffix ← path_strip_prefix path raw_root;
           if is_empty suffix then None else Some (join_absolute root suffix)) raw_writable_roots)
  else None.
Definition carveout_path (root : str) (raw_writable_roots : list str) (path : str) : option str :=
  let effective_path := normalize_effective_absolute_path path in
  match raw_carveout_path root raw_writable_roots path with
  | Some raw_carveout_path => Some raw_carveout_path
  | None =>
      if path_eq effective_path root || negb (path_starts_with effective_path root) then None else Some effective_path
  end.

Definition writable_root_at (self : FileSystemSandboxPolicy) (cwd : str) (resolved_entries : list ResolvedFileSystemEntry)
    (writable_entries : list str) (root : str) : WritableRoot :=
  let raw_writable_roots := List.filter (λ path, path_eq (normalize_effective_absolute_path path) root) writable_entries in
  let protect_missing_dot_codex :=
    match absolute cwd with Some cwd => path_eq (normalize_effective_absolute_path cwd) root | None => false end in
  let defaults :=
    List.filter (λ path, negb (has_explicit_resolved_path_entry resolved_entries path))
      (default_read_only_subpaths_for_writable_root root protect_missing_dot_codex) in
  let carveouts :=
    omap (λ entry, carveout_path root raw_writable_roots (resolved_path entry))
      (List.filter (λ entry, negb (can_write (resolved_access entry))
                             && negb (can_write_path_with_cwd self (resolved_path entry) cwd)) resolved_entries) in
  MkWritableRoot root (dedup_absolute_paths (defaults ++ carveouts) false).

Definition get_writable_roots_with_cwd (self : FileSystemSandboxPolicy) (cwd : str) : list WritableRoot :=
  if has_full_disk_write_access self then []
  else
    let resolved_entries := resolved_entries_with_cwd self cwd in
    let writable_entries :=
      resolved_path <$>
      List.filter (λ entry, can_write (resolved_access entry) && can_write_path_with_cwd self (resolved_path entry) cwd)
        resolved_entries in
    writable_root_at self cwd resolved_entries writable_entries <$> dedup_absolute_paths writable_entries true.

Definition is_path_writable (self : WritableRoot) (path : str) : bool :=
  path_starts_with path (root self) && negb (existsb (path_starts_with path) (read_only_subpaths self)).

Definition get_unreadable_roots_with_cwd (self : FileSystemSandboxPolicy) (cwd : str) : list str :=
  if negb (is_restricted self) then []
  else
    let root := cwd ← absolute cwd; absolute_root_path_for_cwd cwd in
    dedup_absolute_paths
      (resolved_path <$>
       List.filter (λ entry,
         bool_decide (resolved_access entry = NoAccess) && negb (can_read_path_with_cwd self (resolved_path entry) cwd)
         && negb (match root with Some root => path_eq root (resolved_path entry) | None => false end))
         (resolved_entries_with_cwd self cwd)) true.

(** [Vec::dedup] on sorted strings. *)
Fixpoint dedup_strs (l : list str) : list str :=
  match l with
  | x :: (y :: _) as r => if x =s? y then dedup_strs r else x :: dedup_strs r
  | _ => l
  end.
Definition str_le (a b : str) : bool := match str_compare a b with Gt => false | _ => true end.

Definition get_unreadable_globs_with_cwd (self : FileSystemSandboxPolicy) (cwd : str) : list str :=
  if negb (is_restricted self) then []
  else
    dedup_strs (sort_by str_le
      (omap (λ entry, match entry_path entry with
                      | GlobPattern pattern => Some (resolve_against pattern cwd)
                      | PathEntry _ | Special _ => None
                      end) (deny_entries (entries self)))).

(** ** Reading what is denied *)

Definition push_unique (candidates : list str) (candidate : str) : list str :=
  if existsb (λ existing, path_eq existing candidate) candidates then candidates else candidates ++ [candidate].
Definition normalized_and_canonical_candidates (path : str) : list str :=
  let candidates := push_unique [] (unwrap_or path (absolute path)) in
  match canonical ← disk_canonicalize path; absolute canonical with
  | Some canonical_absolute => push_unique candidates canonical_absolute
  | None => candidates
  end.

Record ReadDenyMatcher := MkReadDenyMatcher {
  denied_candidates : list (list str);
  deny_read_matchers : list (str → bool);
  invalid_pattern : bool
}.

Definition read_deny_matcher_new (file_system_sandbox_policy : FileSystemSandboxPolicy) (cwd : str) : option ReadDenyMatcher :=
  if negb (has_denied_read_restrictions file_system_sandbox_policy) then None
  else
    let globs := get_unreadable_globs_with_cwd file_system_sandbox_policy cwd in
    Some (MkReadDenyMatcher
      (normalized_and_canonical_candidates <$> get_unreadable_roots_with_cwd file_system_sandbox_policy cwd)
      (omap build_glob_matcher globs)
      (existsb (λ pattern, negb (is_some_b (build_glob_matcher pattern))) globs)).

Definition is_read_denied (self : ReadDenyMatcher) (path : str) : bool :=
  if invalid_pattern self then true
  else
    let path_candidates := normalized_and_canonical_candidates path in
    if existsb (λ denied_candidates,
         existsb (λ candidate,
           existsb (λ denied_candidate, path_eq candidate denied_candidate || path_starts_with candidate denied_candidate)
             denied_candidates) path_candidates) (denied_candidates self)
    then true
    else existsb (λ matcher, existsb matcher path_candidates) (deny_read_matchers self).

(** ** The way back to legacy policies *)

Record LegacyScan := MkLegacyScan {
  workspace_root_writable : bool;
  legacy_writable_roots : list str;
  tmpdir_writable : bool;
  slash_tmp_writable : bool;
  unbridgeable_root_write : bool
}.
Definition legacy_scan_start : LegacyScan := MkLegacyScan false [] false false false.

Definition scan_legacy_entry (cwd_absolute : option str) (scan : LegacyScan) (entry : FileSystemSandboxEntry) : LegacyScan :=
  let 'MkLegacyScan workspace roots tmpdir slash_tmp unbridgeable := scan in
  let write := can_write (entry_access entry) in
  match entry_path entry with
  | GlobPattern _ => scan
  | PathEntry path =>
      if write then
        if match cwd_absolute with Some cwd => path_eq cwd path | None => false end
        then MkLegacyScan true roots tmpdir slash_tmp unbridgeable
        else MkLegacyScan workspace (roots ++ [path]) tmpdir slash_tmp unbridgeable
      else scan
  | Special Root =>
      match entry_access entry with
      | NoAccess | Read => scan
      | Write => MkLegacyScan workspace roots tmpdir slash_tmp true
      end
  | Special Minimal => scan
  | Special (ProjectRoots subpath as value) =>
      if bool_decide (subpath = None) && write then MkLegacyScan true roots tmpdir slash_tmp unbridgeable
      else match resolve_file_system_special_path value cwd_absolute with
           | Some path => if write then MkLegacyScan workspace (roots ++ [path]) tmpdir slash_tmp unbridgeable else scan
           | None => scan
           end
  | Special Tmpdir => if write then MkLegacyScan workspace roots true slash_tmp unbridgeable else scan
  | Special SlashTmp => if write then MkLegacyScan workspace roots tmpdir true unbridgeable else scan
  | Special (UnknownPath _ _) => scan
  end.

Definition full_access_for (network_policy : NetworkSandboxPolicy) : SandboxPolicy :=
  if network_is_enabled network_policy then DangerFullAccess else ExternalSandboxPolicy AccessRestricted.

(** The only error of the code has a fixed text. *)
Definition to_legacy_sandbox_policy (self : FileSystemSandboxPolicy) (network_policy : NetworkSandboxPolicy) (cwd : str) :
    option SandboxPolicy :=
  match policy_kind self with
  | ExternalSandbox =>
      Some (ExternalSandboxPolicy (if network_is_enabled network_policy then AccessEnabled else AccessRestricted))
  | Unrestricted => Some (full_access_for network_policy)
  | Restricted =>
      let cwd_absolute := absolute cwd in
      let scan := foldl (scan_legacy_entry cwd_absolute) legacy_scan_start (entries self) in
      if has_full_disk_write_access self then Some (full_access_for network_policy)
      else if workspace_root_writable scan then
        Some (WorkspaceWrite (dedup_absolute_paths (legacy_writable_roots scan) false) (network_is_enabled network_policy)
                (negb (tmpdir_writable scan)) (negb (slash_tmp_writable scan)))
      else if unbridgeable_root_write scan || negb (is_empty (legacy_writable_roots scan)) || tmpdir_writable scan
              || slash_tmp_writable scan then None
      else Some (ReadOnly (network_is_enabled network_policy))
  end.

(** ** Policies that mean the same *)

Definition semantic_signature (self : FileSystemSandboxPolicy) (cwd : str) : FileSystemSemanticSignature :=
  MkSignature (has_full_disk_read_access self) (has_full_disk_write_access self) (include_platform_defaults self)
    (sorted_absolute_paths (get_readable_roots_with_cwd self cwd))
    (sorted_writable_roots (get_writable_roots_with_cwd self cwd))
    (sorted_absolute_paths (get_unreadable_roots_with_cwd self cwd))
    (get_unreadable_globs_with_cwd self cwd).

Definition paths_eqb (a b : list str) : bool := bool_decide (map components a = map components b).
Definition writable_root_parts (r : WritableRoot) : list component * list (list component) :=
  (components (root r), map components (read_only_subpaths r)).
Definition signature_eqb (a b : FileSystemSemanticSignature) : bool :=
  Bool.eqb (sig_full_disk_read_access a) (sig_full_disk_read_access b)
  && Bool.eqb (sig_full_disk_write_access a) (sig_full_disk_write_access b)
  && Bool.eqb (sig_include_platform_defaults a) (sig_include_platform_defaults b)
  && paths_eqb (sig_readable_roots a) (sig_readable_roots b)
  && bool_decide (map writable_root_parts (sig_writable_roots a) = map writable_root_parts (sig_writable_roots b))
  && paths_eqb (sig_unreadable_roots a) (sig_unreadable_roots b)
  && bool_decide (sig_unreadable_globs a = sig_unreadable_globs b).

Definition is_semantically_equivalent_to (self other : FileSystemSandboxPolicy) (cwd : str) : bool :=
  signature_eqb (semantic_signature self cwd) (semantic_signature other cwd).

Definition needs_direct_runtime_enforcement (self : FileSystemSandboxPolicy) (network_policy : NetworkSandboxPolicy)
    (cwd : str) : bool :=
  if negb (is_restricted self) then false
  else match to_legacy_sandbox_policy self network_policy cwd with
       | None => true
       | Some legacy_policy =>
           negb (signature_eqb (semantic_signature self cwd)
                   (semantic_signature (legacy_runtime_file_system_policy_for_cwd legacy_policy cwd) cwd))
       end.
End disk.
