(* ===== verification/Access.v ===== *)
(** How the entries of a policy decide: lemmas on [Permissions] and the theorems
    on single paths. The entry with the most components above a path decides, and
    of the entries for one path the severest; full access to the disk means what
    it says; what replaces, extends or fixes a policy keeps its denials. *)
From S2P Require Import Prelude Json Paths Types Host AbsolutePath Permissions.
#[local] Open Scope nat_scope.

(** The current directory and the home directory are absolute paths. *)
Class DiskLaws (D : Disk) := {
  current_dir_absolute : ∀ d, disk_current_dir = Ok d → is_absolute d = true;
  home_dir_absolute : ∀ d, disk_home_dir = Some d → is_absolute d = true
}.

(** ** Ancestors and prefixes *)

Lemma path_eq_true p q : path_eq p q = true ↔ components p = components q.
Proof. apply bool_decide_eq_true. Qed.

Lemma path_eq_settled p q : settled p → settled q → path_eq p q = true ↔ p = q.
Proof. intros Hp Hq. rewrite path_eq_true. split; [by apply settled_eq|by intros ->]. Qed.

Lemma settled_root : settled [ch_slash].
Proof. by exists []. Qed.

Lemma settled_above_root p : settled p → components [ch_slash] `prefix_of` components p.
Proof. intros (ns & _ & ->)%settled_names. by exists (map Normal ns). Qed.

Lemma parent_of_names ns n : Forall plain_name (ns ++ [n]) →
  path_parent (path_of_components (RootDir :: map Normal (ns ++ [n]))) = Some (path_of_components (RootDir :: map Normal ns)).
Proof.
  intros Hns. unfold path_parent. rewrite components_rooted // map_app /=.
  by rewrite app_comm_cons reverse_snoc /= reverse_involutive.
Qed.

Lemma ancestors_of_names ns :
  Forall plain_name ns →
  ancestors (path_of_components (RootDir :: map Normal ns))
  = (λ k, path_of_components (RootDir :: map Normal (take k ns))) <$> reverse (seq 0 (S (length ns))).
Proof.
  unfold ancestors. intros Hns. rewrite components_rooted //. cbn [length]. rewrite length_map.
  assert (∀ fuel, length ns ≤ fuel → ancestors_fuel fuel (path_of_components (RootDir :: map Normal ns))
    = (λ k, path_of_components (RootDir :: map Normal (take k ns))) <$> reverse (seq 0 (S (length ns)))) as H; [|apply H; lia].
  induction ns as [|n ns IH] using rev_ind; intros fuel Hf; [by destruct fuel|].
  rewrite length_app /= in Hf. destruct fuel as [|fuel]; [lia|]. simpl ancestors_fuel. rewrite parent_of_names //.
  rewrite length_app Nat.add_1_r seq_S reverse_snoc fmap_cons. f_equal.
  { rewrite take_ge //. rewrite length_app /=. lia. }
  rewrite IH; [by apply Forall_app in Hns as [? _]|lia|]. apply list_fmap_ext. intros i k Hk. simpl.
  apply list_elem_of_lookup_2 in Hk. rewrite elem_of_reverse in Hk. apply elem_of_seq in Hk. by rewrite take_app_le; [lia|].
Qed.

(** The ancestors of a path are the paths above it. *)
Lemma ancestors_settled p a : settled p → a ∈ ancestors p ↔ settled a ∧ components a `prefix_of` components p.
Proof.
  intros (ns & Hns & ->). rewrite ancestors_of_names // components_rooted // list_elem_of_fmap. split.
  - intros (k & -> & _). assert (Forall plain_name (take k ns)) as Hk by by apply Forall_take. split; [by eexists|].
    rewrite components_rooted //. exists (map Normal (drop k ns)). by rewrite -app_comm_cons -map_app take_drop.
  - intros [(ms & Hms & ->) [l Hl]]. rewrite components_rooted // in Hl. injection Hl as Hl.
    exists (length ms). rewrite elem_of_reverse elem_of_seq. assert (length ms ≤ length ns) as Hlen.
    { rewrite -(length_map Normal ms) -(length_map Normal ns) Hl length_app. lia. }
    split; [|lia]. do 2 f_equal. rewrite -firstn_map Hl. by rewrite -(length_map Normal ms) take_app_length.
Qed.

Lemma ancestors_head p : head (ancestors p) = Some p.
Proof. unfold ancestors. by destruct (length (components p)). Qed.

Lemma last_ancestor p : settled p → last (ancestors p) = Some [ch_slash].
Proof.
  intros (ns & Hns & ->). rewrite ancestors_of_names //. cbn [seq]. by rewrite reverse_cons fmap_app last_snoc.
Qed.

(** ** Resolution depends on components *)

(** A leading dot says nothing. *)
Definition strip_cur (cs : list component) : list component := match cs with CurDir :: r => r | _ => cs end.

Lemma no_cur_dir ps : strip_cur (piece_components ps) = piece_components ps.
Proof.
  unfold strip_cur. destruct (piece_components ps) as [|c r] eqn:E; [done|]. destruct c; try done.
  assert (CurDir ∈ piece_components ps) as H by (rewrite E; by left). unfold piece_components in H.
  apply list_elem_of_omap in H as (q & _ & Hq). unfold classify in Hq. by repeat case_match.
Qed.

Lemma components_relative_pieces p :
  is_absolute p = false → piece_components (split_on ch_slash p) = strip_cur (components p).
Proof.
  unfold is_absolute, components. intros ->. destruct (split_on ch_slash p) as [|d r]; [done|].
  destruct (d =s? ".") eqn:E; [|by rewrite no_cur_dir]. simpl. unfold piece_components. simpl. by rewrite E orb_true_r.
Qed.

Lemma components_absolute p :
  is_absolute p = true → components p = RootDir :: piece_components (split_on ch_slash p).
Proof. unfold is_absolute, components. by intros ->. Qed.

Lemma components_join_relative b p :
  is_absolute b = true → is_absolute p = false → components (path_join b p) = components b ++ strip_cur (components p).
Proof.
  intros Hb Hp. rewrite -components_relative_pieces // (components_absolute b) //.
  assert (is_absolute (path_join b p) = true) as Hj.
  { pose proof (path_with_base_absolute p b Hb) as H. unfold path_with_base in H. by rewrite Hp in H. }
  rewrite components_absolute // -app_comm_cons. f_equal. unfold is_absolute in Hp. unfold path_join. rewrite Hp.
  assert (is_empty b = false) as -> by (apply starts_with_spec in Hb as [r ->]; done). simpl.
  destruct (ends_with [ch_slash] b) eqn:E.
  - unfold ends_with in E. destruct (strip_suffix [ch_slash] b) as [b'|] eqn:Eb; [|done]. apply strip_suffix_Some in Eb as ->.
    rewrite -app_assoc /= split_on_app_sep (split_on_app_sep ch_slash b' []) !piece_components_app. by rewrite /= app_nil_r.
  - by rewrite split_on_app_sep piece_components_app.
Qed.

Lemma is_absolute_components p : is_absolute p = bool_decide (head (components p) = Some RootDir).
Proof.
  destruct (is_absolute p) eqn:E; [by rewrite components_absolute|].
  symmetry. apply bool_decide_eq_false. unfold is_absolute in E. unfold components. rewrite E. intros H.
  assert (∀ ps, head (piece_components ps) ≠ Some RootDir) as Hno.
  { intros ps Hh. assert (RootDir ∈ piece_components ps) as Hin.
    { destruct (piece_components ps); [done|]. injection Hh as ->. by left. }
    apply list_elem_of_omap in Hin as (q & _ & Hq). unfold classify in Hq. by repeat case_match. }
  destruct (split_on ch_slash p) as [|d r]; [done|]. destruct (d =s? "."); [done|]. by eapply Hno.
Qed.

Lemma components_with_base p q base :
  is_absolute base = true → components p = components q →
  components (path_with_base p base) = components (path_with_base q base).
Proof.
  intros Hb Heq. unfold path_with_base. pose proof (is_absolute_components p) as Hp. rewrite Heq -is_absolute_components in Hp.
  rewrite Hp. destruct (is_absolute q) eqn:Hq; [done|]. by rewrite !components_join_relative // Heq.
Qed.

Lemma trim_slashes_pieces r :
  piece_components (split_on ch_slash (trim_start_matches (N.eqb ch_slash) r)) = piece_components (split_on ch_slash r)
  ∧ is_absolute (trim_start_matches (N.eqb ch_slash) r) = false.
Proof.
  unfold trim_start_matches. induction r as [|c r IH]; [done|]. simpl drop_while.
  destruct (ch_slash =? c)%N eqn:E.
  - destruct IH as [-> ->]. split; [|done]. apply N.eqb_eq in E as <-. by rewrite (split_on_app_sep ch_slash [] r).
  - split; [done|]. unfold is_absolute, starts_with. simpl. by rewrite E.
Qed.

Definition tilde : component := Normal (lit "~").

Lemma components_tilde r : components (lit "~" ++ ch_slash :: r) = tilde :: piece_components (split_on ch_slash r).
Proof. unfold components. rewrite (split_on_app ch_slash (lit "~") r); [by apply not_elem_of_cons; split; [|apply not_elem_of_nil]|]. done. Qed.

Lemma head_tilde p : head (components p) = Some tilde → p = lit "~" ∨ ∃ r, p = lit "~" ++ ch_slash :: r.
Proof.
  intros H. pose proof (is_absolute_components p) as Ha. rewrite H in Ha. unfold components in H. unfold is_absolute in Ha.
  rewrite Ha in H. pose proof (join_split_on ch_slash p) as Hj. destruct (split_on ch_slash p) as [|d r]; [done|].
  destruct (d =s? ".") eqn:Ed; [done|]. destruct (is_empty d) eqn:Ee.
  - apply is_empty_true in Ee as ->. destruct r; [done|]. simpl in Hj. subst p. done.
  - unfold piece_components in H. simpl in H. rewrite Ee Ed in H. injection H as Hd. unfold classify in Hd.
    destruct (d =s? ".."); [done|]. injection Hd as ->. destruct r as [|q r]; [left; by rewrite -Hj|].
    right. exists (join [ch_slash] (q :: r)). by rewrite -Hj join_cons.
Qed.

(** Only a path that begins with the component of the home directory is expanded. *)
Lemma expand_components home p :
  is_absolute home = true →
  components (maybe_expand_home_directory (Some home) p)
  = match components p with
    | Normal n :: r => if n =s? "~" then components home ++ r else components p
    | _ => components p
    end.
Proof.
  intros Hh. unfold maybe_expand_home_directory.
  destruct (decide (head (components p) = Some tilde)) as [Hp|Hp].
  - destruct (head_tilde p Hp) as [->|[r ->]].
    { change (components (lit "~")) with [tilde]. by rewrite /= app_nil_r. }
    rewrite strip_prefix_app components_tilde. simpl.
    destruct (trim_slashes_pieces r) as [Ht Ha]. by rewrite components_join_relative // -components_relative_pieces // Ht.
  - trans (components p).
    + destruct (strip_prefix "~" p) as [rest|] eqn:E; [|done]. apply strip_prefix_Some in E as ->.
      destruct rest as [|c rest]; [by destruct Hp|]. simpl is_empty. cbv iota.
      destruct (strip_prefix [ch_slash] (c :: rest)) as [r|] eqn:E; [|done]. apply strip_prefix_Some in E as Hr.
      injection Hr as -> ->. by rewrite components_tilde in Hp.
    + destruct (components p) as [|[| | |n] r]; try done. destruct (n =s? "~") eqn:E; [|done].
      apply str_eqb_eq in E as ->. by destruct Hp.
Qed.

(** ** Paths on the disk *)

Section disk.
Context {D : Disk} {DL : DiskLaws D}.

Lemma expand_absolute home p : is_absolute p = true → maybe_expand_home_directory home p = p.
Proof.
  unfold maybe_expand_home_directory, is_absolute. intros [r ->]%starts_with_spec. destruct home; [|done].
  by destruct (strip_prefix "~" ([ch_slash] ++ r)) eqn:E; [apply strip_prefix_Some in E|].
Qed.

Lemma absolute_of_absolute p : is_absolute p = true → absolute p = Some (normalize_path p).
Proof. intros Hp. unfold absolute, from_absolute_path, absolutize. by rewrite expand_absolute // Hp. Qed.

Lemma absolute_of_settled p : settled p → absolute p = Some p.
Proof. intros Hp. rewrite absolute_of_absolute; [by apply settled_absolute|]. by rewrite normalize_settled. Qed.

Lemma absolute_settled p q : absolute p = Some q → settled q.
Proof.
  unfold absolute, from_absolute_path, absolutize. destruct (is_absolute (maybe_expand_home_directory _ p)) eqn:E.
  { intros [= <-]. by apply normalize_absolute. }
  destruct disk_current_dir as [d|] eqn:Hd; [|done]. intros [= <-]. apply current_dir_absolute in Hd.
  by apply normalize_absolute, path_with_base_absolute.
Qed.

Lemma resolve_against_settled p base : is_absolute base = true → settled (resolve_against p base).
Proof. intros Hb. by apply normalize_absolute, path_with_base_absolute. Qed.

Lemma root_of_cwd cwd : settled cwd → absolute_root_path_for_cwd cwd = Some [ch_slash].
Proof.
  intros Hcwd. unfold absolute_root_path_for_cwd. rewrite last_ancestor //=. by apply absolute_of_settled, settled_root.
Qed.

Lemma resolve_entry_settled path cwd p :
  (∀ q, path = PathEntry q → settled q) → (∀ c, cwd = Some c → settled c) → resolve_entry_path path cwd = Some p → settled p.
Proof.
  intros Hpath Hcwd. destruct path as [q|g|[| |sub| | |u sub]]; simpl; try done.
  - intros [= <-]. by apply Hpath.
  - intros (c & -> & Hc)%bind_Some. rewrite root_of_cwd in Hc; [by apply Hcwd|]. injection Hc as <-. apply settled_root.
  - intros (c & -> & Hc)%bind_Some. specialize (Hcwd c eq_refl).
    destruct sub; injection Hc as <-; [by apply resolve_against_settled, settled_absolute|done].
  - intros (t & _ & Ht)%bind_Some. destruct (is_empty t); [done|]. by eapply absolute_settled.
  - intros (t & Ht & Ht')%bind_Some. destruct (disk_is_dir t); [|done]. injection Ht' as <-. by eapply absolute_settled.
Qed.

(** The paths of a policy are [AbsolutePathBuf]s. *)
Definition settled_entries (es : list FileSystemSandboxEntry) : Prop :=
  ∀ entry q, entry ∈ es → entry_path entry = PathEntry q → settled q.

Lemma resolved_entries_elem self cwd e :
  e ∈ resolved_entries_with_cwd self cwd ↔
  ∃ entry, entry ∈ entries self ∧ resolve_entry_path (entry_path entry) (absolute cwd) = Some (resolved_path e)
    ∧ entry_access entry = resolved_access e.
Proof.
  unfold resolved_entries_with_cwd. rewrite list_elem_of_omap. split.
  - intros (entry & Hin & Hr). apply fmap_Some in Hr as (p & Hp & ->). by exists entry.
  - intros (entry & Hin & Hp & Ha). exists entry. rewrite Hp Ha /=. by destruct e.
Qed.

Lemma resolved_entries_settled self cwd e :
  settled_entries (entries self) → e ∈ resolved_entries_with_cwd self cwd → settled (resolved_path e).
Proof.
  intros Hs (entry & Hin & Hp & _)%resolved_entries_elem. eapply resolve_entry_settled; [| |exact Hp].
  - intros q Hq. by eapply Hs.
  - intros c Hc. by eapply absolute_settled.
Qed.

(** ** The deciding entry *)

Definition covers (path : str) (e : ResolvedFileSystemEntry) : Prop := components (resolved_path e) `prefix_of` components path.
#[global] Instance covers_dec path e : Decision (covers path e).
Proof. unfold covers. apply _. Defined.

(** An entry is outdone by entries for longer paths and by severer ones for its own. *)
Definition outdone (e' e : ResolvedFileSystemEntry) : Prop :=
  length (components (resolved_path e')) < length (components (resolved_path e))
  ∨ (components (resolved_path e') = components (resolved_path e)
     ∧ access_rank (resolved_access e') ≤ access_rank (resolved_access e)).
Definition decides (resolved : list ResolvedFileSystemEntry) (path : str) (e : ResolvedFileSystemEntry) : Prop :=
  e ∈ resolved ∧ covers path e ∧ ∀ e', e' ∈ resolved → covers path e' → outdone e' e.

Lemma prefix_same_length {A} (a b l : list A) : a `prefix_of` l → b `prefix_of` l → length a = length b → a = b.
Proof. intros [x ->] [y Hy] Hlen. by apply app_inj_1 in Hy as [? _]. Qed.

Lemma prefix_chain {A} (a b l : list A) : a `prefix_of` l → b `prefix_of` l → length a ≤ length b → a `prefix_of` b.
Proof.
  intros [x Hx] [y Hy] Hlen. rewrite Hx in Hy. apply (f_equal (take (length a))) in Hy.
  rewrite take_app_length take_app_le in Hy; [done|]. rewrite Hy. apply prefix_take.
Qed.

Lemma access_rank_inj a b : access_rank a = access_rank b → a = b.
Proof. by destruct a, b. Qed.

Lemma max_by_order_spec {A} (le : A → A → bool) l :
  (∀ a, le a a = true) → (∀ a b c, le a b = true → le b c = true → le a c = true) →
  (∀ a b, le a b = false → le b a = true) →
  match max_by_order le l with
  | Some x => x ∈ l ∧ ∀ y, y ∈ l → le y x = true
  | None => l = []
  end.
Proof.
  intros Hrefl Htrans Htotal. destruct l as [|x l]; [done|]. simpl. revert x.
  induction l as [|y l IH]; intros x; simpl.
  { split; [by left|]. by intros y ->%list_elem_of_singleton. }
  assert (∃ b, (if le x y then y else x) = b ∧ le x b = true ∧ le y b = true ∧ (b = x ∨ b = y)) as (b & -> & Hx & Hy & Hb).
  { eexists. split; [done|]. destruct (le x y) eqn:E; auto. }
  destruct (IH b) as [Hin Hle]. assert (le b (foldl (λ best y, if le best y then y else best) b l) = true) as Hb'
    by (apply Hle; by left). split.
  - apply elem_of_cons in Hin as [->|Hin]; [|by do 2 right]. destruct Hb as [->| ->]; [by left|by right; left].
  - intros z Hz. rewrite !elem_of_cons in Hz. destruct Hz as [->|[->|Hz]]; [eauto..|]. apply Hle. by right.
Qed.

Lemma resolved_entry_le_spec a b :
  resolved_entry_le a b = true ↔
  length (components (resolved_path a)) < length (components (resolved_path b))
  ∨ length (components (resolved_path a)) = length (components (resolved_path b))
    ∧ access_rank (resolved_access a) ≤ access_rank (resolved_access b).
Proof. unfold resolved_entry_le. by rewrite orb_true_iff andb_true_iff Nat.ltb_lt Nat.eqb_eq Nat.leb_le. Qed.

Lemma max_resolved l :
  match max_by_order resolved_entry_le l with
  | Some x => x ∈ l ∧ ∀ y, y ∈ l → resolved_entry_le y x = true
  | None => l = []
  end.
Proof.
  apply max_by_order_spec.
  - intros a. rewrite resolved_entry_le_spec. lia.
  - intros a b c. rewrite !resolved_entry_le_spec. lia.
  - intros a b Hf. apply not_true_iff_false in Hf. rewrite resolved_entry_le_spec in Hf. rewrite resolved_entry_le_spec. lia.
Qed.

Lemma deciding_entry_spec path resolved :
  match deciding_entry path resolved with
  | Some e => decides resolved path e
  | None => ∀ e, e ∈ resolved → ¬ covers path e
  end.
Proof.
  unfold deciding_entry. set (l := List.filter _ resolved).
  assert (∀ e, e ∈ l ↔ e ∈ resolved ∧ covers path e) as Hl.
  { intros e. unfold l. rewrite !list_elem_of_In List.filter_In. by rewrite starts_with_prefix. }
  pose proof (max_resolved l) as H. destruct (max_by_order resolved_entry_le l) as [e|].
  - destruct H as [Hin Hmax]. apply Hl in Hin as [Hin Hc]. split_and!; [done..|]. intros e' Hin' Hc'.
    assert (resolved_entry_le e' e = true) as Hle by (apply Hmax, Hl; done). apply resolved_entry_le_spec in Hle.
    destruct Hle as [|[Hlen ?]]; [by left|right]. split; [|done]. by eapply prefix_same_length.
  - intros e Hin Hc. assert (e ∈ l) as He by (apply Hl; done). rewrite H in He. by apply elem_of_nil in He.
Qed.

Lemma decides_unique resolved path e e' :
  decides resolved path e → decides resolved path e' →
  components (resolved_path e) = components (resolved_path e') ∧ resolved_access e = resolved_access e'.
Proof.
  intros (Hin & Hc & Hmax) (Hin' & Hc' & Hmax'). destruct (Hmax _ Hin' Hc') as [?|[? ?]], (Hmax' _ Hin Hc) as [?|[? ?]].
  1,2,3: exfalso; try match goal with H : components _ = components _ |- _ => apply (f_equal length) in H end; lia.
  split; [done|]. apply access_rank_inj. lia.
Qed.

(** The access that resolved entries give to a path. *)
Definition access_at (resolved : list ResolvedFileSystemEntry) (path : str) : FileSystemAccessMode :=
  unwrap_or NoAccess (resolved_access <$> deciding_entry path resolved).

Lemma access_at_decided resolved path e : decides resolved path e → access_at resolved path = resolved_access e.
Proof.
  intros He. unfold access_at. pose proof (deciding_entry_spec path resolved) as H. destruct (deciding_entry path resolved) as [e'|].
  - by destruct (decides_unique _ _ _ _ He H).
  - destruct He as (Hin & Hc & _). by destruct (H e).
Qed.

Lemma access_at_cases resolved path :
  (∃ e, decides resolved path e ∧ access_at resolved path = resolved_access e)
  ∨ (∀ e, e ∈ resolved → ¬ covers path e) ∧ access_at resolved path = NoAccess.
Proof.
  unfold access_at. pose proof (deciding_entry_spec path resolved) as H. destruct (deciding_entry path resolved) as [e|].
  - left. by exists e.
  - by right.
Qed.

(** Only the components and the access modes of the entries above a path matter. *)
Lemma access_at_same r1 r2 path :
  (∀ e, e ∈ r1 → covers path e → ∃ e', e' ∈ r2 ∧ components (resolved_path e') = components (resolved_path e)
                                    ∧ resolved_access e' = resolved_access e) →
  (∀ e, e ∈ r2 → covers path e → ∃ e', e' ∈ r1 ∧ components (resolved_path e') = components (resolved_path e)
                                    ∧ resolved_access e' = resolved_access e) →
  access_at r1 path = access_at r2 path.
Proof.
  intros H12 H21. destruct (access_at_cases r1 path) as [(e & (Hin & Hc & Hmax) & ->)|[Hno ->]].
  - destruct (H12 e Hin Hc) as (e' & Hin' & Hp & Ha). rewrite -Ha. symmetry. apply access_at_decided.
    split_and!; [done|by rewrite /covers Hp|]. intros e2 Hin2 Hc2. destruct (H21 e2 Hin2 Hc2) as (e1 & Hin1 & Hp1 & Ha1).
    rewrite /outdone Hp Ha -Hp1 -Ha1. apply Hmax; [done|]. by rewrite /covers Hp1.
  - destruct (access_at_cases r2 path) as [(e & (Hin & Hc & _) & _)|[_ ->]]; [|done].
    destruct (H21 e Hin Hc) as (e' & Hin' & Hp & _). destruct (Hno e' Hin'). by rewrite /covers Hp.
Qed.

Lemma resolve_access_restricted self path cwd :
  policy_kind self = Restricted → settled path →
  resolve_access_with_cwd self path cwd = access_at (resolved_entries_with_cwd self cwd) path.
Proof.
  intros Hk Hp. unfold resolve_access_with_cwd, resolve_candidate_path. rewrite Hk settled_absolute //.
  by rewrite absolute_of_settled.
Qed.

(** ** Entries for the same target *)

Lemma resolve_against_eq s t base :
  is_absolute base = true → components s = components t → resolve_against s base = resolve_against t base.
Proof.
  intros Hb Heq. apply settled_eq; [by apply resolve_against_settled..|].
  assert (components (maybe_expand_home_directory disk_home_dir s) = components (maybe_expand_home_directory disk_home_dir t)) as He.
  { destruct disk_home_dir as [h|] eqn:Hh; [|done]. by rewrite !expand_components; [by apply home_dir_absolute|by apply home_dir_absolute|rewrite Heq]. }
  unfold resolve_against, resolve_path_against_base, absolutize_from.
  destruct (normalize_absolute _ (path_with_base_absolute (maybe_expand_home_directory disk_home_dir s) base Hb)) as [_ ->].
  destruct (normalize_absolute _ (path_with_base_absolute (maybe_expand_home_directory disk_home_dir t) base Hb)) as [_ ->].
  by rewrite (components_with_base _ _ base Hb He).
Qed.

Lemma special_path_eqb_resolves v w cwd :
  (∀ c, cwd = Some c → settled c) → special_path_eqb v w = true →
  resolve_entry_path (Special v) cwd = resolve_entry_path (Special w) cwd.
Proof.
  intros Hcwd. destruct v, w; simpl; try done. destruct cwd as [c|]; [|done]. specialize (Hcwd c eq_refl). simpl.
  destruct subpath as [s|], subpath0 as [t|]; try done. intros Heq%path_eq_true. f_equal.
  apply resolve_against_eq; [by apply settled_absolute|done].
Qed.

Lemma settled_no_parent p : settled p → path_parent p = None → components p = [RootDir].
Proof.
  intros (ns & Hns & ->). destruct ns as [|n ns _] using rev_ind; [done|]. by rewrite parent_of_names.
Qed.

Lemma absolute_tmp : absolute (lit "/tmp") = Some (lit "/tmp").
Proof. by apply absolute_of_settled; exists [lit "tmp"]; split; [apply Forall_singleton; repeat split; try done; set_solver|]. Qed.

(** An entry and one for the same target resolve alike, when [/tmp] is there. *)
Lemma share_target_resolves a b cwd q :
  (∀ p, a = PathEntry p → settled p) → (∀ p, b = PathEntry p → settled p) → settled cwd → disk_is_dir (lit "/tmp") = true →
  file_system_paths_share_target a b = true → resolve_entry_path b (Some cwd) = Some q →
  ∃ p, resolve_entry_path a (Some cwd) = Some p ∧ components p = components q.
Proof.
  intros Ha Hb Hcwd Htmp Hshare Hq. destruct a as [p|g|v], b as [p'|g'|v']; simpl in Hshare; try done.
  - injection Hq as ->. exists p. split; [done|]. by apply path_eq_true.
  - exists p. split; [done|]. destruct v'; simpl in Hshare; try done.
    + unfold resolve_entry_path in Hq. simpl in Hq. rewrite root_of_cwd // in Hq. injection Hq as <-.
      rewrite (settled_no_parent p); [by apply Ha|by destruct (path_parent p)|done].
    + simpl in Hq. rewrite absolute_tmp /= Htmp in Hq. injection Hq as <-. by apply path_eq_true.
  - injection Hq as <-. destruct v; simpl in Hshare; try done.
    + exists [ch_slash]. rewrite /= root_of_cwd //. split; [done|].
      rewrite (settled_no_parent p'); [by apply Hb|by destruct (path_parent p')|done].
    + exists (lit "/tmp"). rewrite /= absolute_tmp /= Htmp. split; [done|]. symmetry. by apply path_eq_true.
  - exists q. split; [|done]. rewrite -Hq. apply special_path_eqb_resolves; [|done]. by intros c [= <-].
Qed.

(** ** Policies by what they grant *)

(** What the entries of a policy say, by components. *)
Definition grants (self : FileSystemSandboxPolicy) (cwd : str) (cs : list component) (a : FileSystemAccessMode) : Prop :=
  ∃ e, e ∈ resolved_entries_with_cwd self cwd ∧ components (resolved_path e) = cs ∧ resolved_access e = a.
Definition outdoes (path : list component) (G : list component → FileSystemAccessMode → Prop) (cs : list component)
    (a : FileSystemAccessMode) : Prop :=
  ∀ cs' a', G cs' a' → cs' `prefix_of` path → length cs' < length cs ∨ (cs' = cs ∧ access_rank a' ≤ access_rank a).

Lemma access_at_grants self path cwd cs a :
  policy_kind self = Restricted → settled path → grants self cwd cs a → cs `prefix_of` components path →
  outdoes (components path) (grants self cwd) cs a → resolve_access_with_cwd self path cwd = a.
Proof.
  intros Hk Hp (e & Hin & <- & <-) Hc Hout. rewrite resolve_access_restricted //. apply access_at_decided. split_and!; [done..|].
  intros e' Hin' Hc'. by apply Hout; [exists e'|].
Qed.

Lemma access_cases self path cwd :
  policy_kind self = Restricted → settled path →
  (∃ cs a, grants self cwd cs a ∧ cs `prefix_of` components path ∧ outdoes (components path) (grants self cwd) cs a
     ∧ resolve_access_with_cwd self path cwd = a)
  ∨ (∀ cs a, grants self cwd cs a → ¬ cs `prefix_of` components path) ∧ resolve_access_with_cwd self path cwd = NoAccess.
Proof.
  intros Hk Hp. rewrite resolve_access_restricted //.
  destruct (access_at_cases (resolved_entries_with_cwd self cwd) path) as [(e & (Hin & Hc & Hmax) & ->)|[Hno ->]].
  - left. exists (components (resolved_path e)), (resolved_access e). split_and!; [by exists e|done| |done].
    intros cs' a' (e' & Hin' & <- & <-). by apply Hmax.
  - right. split; [|done]. intros cs a (e & Hin & <- & _). by apply Hno.
Qed.

Lemma grants_same self other path cwd cwd' :
  policy_kind self = Restricted → policy_kind other = Restricted → settled path →
  (∀ cs a, cs `prefix_of` components path → grants self cwd cs a ↔ grants other cwd' cs a) →
  resolve_access_with_cwd self path cwd = resolve_access_with_cwd other path cwd'.
Proof.
  intros Hk Hk' Hp Hg. destruct (access_cases self path cwd Hk Hp) as [(cs & a & Hgr & Hc & Hout & ->)|[Hno ->]].
  - symmetry. apply (access_at_grants other path cwd' cs); [done..|by apply Hg|done|]. intros cs' a' Hgr' Hc'. apply Hout; [|done].
    by apply Hg.
  - destruct (access_cases other path cwd' Hk' Hp) as [(cs & a & Hgr & Hc & _)|[_ ->]]; [|done].
    destruct (Hno cs a); [by apply Hg|done].
Qed.

Lemma grants_entries k d es cwd cs a :
  grants (MkPolicy k d es) cwd cs a ↔
  ∃ entry p, entry ∈ es ∧ resolve_entry_path (entry_path entry) (absolute cwd) = Some p ∧ components p = cs ∧ entry_access entry = a.
Proof.
  split.
  - intros (e & (entry & Hin & Hp & Ha)%resolved_entries_elem & <- & <-). by exists entry, (resolved_path e).
  - intros (entry & p & Hin & Hp & <- & <-). exists (MkResolved p (entry_access entry)). split; [|done].
    apply resolved_entries_elem. by exists entry.
Qed.

Lemma grants_app k d es es' cwd cs a :
  grants (MkPolicy k d (es ++ es')) cwd cs a ↔ grants (MkPolicy k d es) cwd cs a ∨ grants (MkPolicy k d es') cwd cs a.
Proof. rewrite !grants_entries. setoid_rewrite elem_of_app. naive_solver. Qed.

Lemma entry_eqb_resolves a b cwd p :
  (∀ c, cwd = Some c → settled c) → entry_eqb a b = true → resolve_entry_path (entry_path b) cwd = Some p →
  entry_access a = entry_access b ∧ ∃ q, resolve_entry_path (entry_path a) cwd = Some q ∧ components q = components p.
Proof.
  intros Hcwd [Hp Ha%bool_decide_eq_true]%andb_true_iff Hr. split; [done|].
  destruct (entry_path a) as [q|g|v], (entry_path b) as [q'|g'|v']; simpl in Hp; try done.
  - injection Hr as ->. exists q. split; [done|]. by apply path_eq_true.
  - exists p. split; [|done]. rewrite -Hr. by apply special_path_eqb_resolves.
Qed.

(** Adding what is missing makes no difference where something is there already. *)
Lemma grants_add_missing k d es ds cwd cs a :
  grants (MkPolicy k d (foldl add_missing_entry es ds)) cwd cs a
  ↔ grants (MkPolicy k d es) cwd cs a ∨ grants (MkPolicy k d ds) cwd cs a.
Proof.
  revert es. induction ds as [|x ds IH]; intros es; simpl.
  { rewrite (grants_entries k d []). split; [auto|]. intros [?|(? & ? & []%elem_of_nil & _)]. done. }
  rewrite IH (grants_app k d [x] ds). unfold add_missing_entry. destruct (existsb _ es) eqn:E.
  - apply existsb_exists in E as (y & Hy & Heq). split; [naive_solver|]. intros [?|[Hx|?]]; [naive_solver| |naive_solver]. left.
    apply grants_entries in Hx as (? & p & ->%list_elem_of_singleton & Hp & <- & <-).
    destruct (entry_eqb_resolves y x (absolute cwd) p) as (Ha & q & Hq & Hc); [|done..|].
    { intros c. apply absolute_settled. }
    apply grants_entries. exists y, q. by rewrite list_elem_of_In.
  - rewrite (grants_app k d es [x]). naive_solver.
Qed.

(** ** Properties *)

(** C12. A policy that is unrestricted, or for an external sandbox, lets every path be
    written. In a restricted policy, for an absolute path without dots, the entry with the most
    components above the path
    decides; of several for that same path, one that denies before one that allows
    writing before one that allows reading. Paths without an entry above them are
    denied, and every path with one has an entry that decides. *)
Theorem the_most_specific_entry_decides policy path cwd :
  let resolved := resolved_entries_with_cwd policy cwd in
  (policy_kind policy ≠ Restricted → resolve_access_with_cwd policy path cwd = Write)
  ∧ (policy_kind policy = Restricted → settled path →
       (∀ e, decides resolved path e → resolve_access_with_cwd policy path cwd = resolved_access e)
       ∧ ((∃ e, e ∈ resolved ∧ covers path e) → ∃ e, decides resolved path e)
       ∧ ((∀ e, e ∈ resolved → ¬ covers path e) → resolve_access_with_cwd policy path cwd = NoAccess)).
Proof.
  intros resolved. split; [unfold resolve_access_with_cwd; by destruct (policy_kind policy)|]. intros Hk Hp.
  rewrite resolve_access_restricted //. fold resolved. split_and!.
  - apply access_at_decided.
  - intros (e & Hin & Hc). destruct (access_at_cases resolved path) as [(e' & He & _)|[Hno _]]; [by exists e'|by destruct (Hno e)].
  - intros Hno. destruct (access_at_cases resolved path) as [(e & (Hin & Hc & _) & _)|[_ ->]]; [by destruct (Hno e)|done].
Qed.

Lemma root_access_entry self predicate :
  has_root_access self predicate = true →
  ∃ entry, entry ∈ entries self ∧ entry_path entry = Special Root ∧ predicate (entry_access entry) = true.
Proof.
  unfold has_root_access. intros [_ (entry & Hin & He)%existsb_exists]%andb_true_iff. exists entry.
  split; [by apply list_elem_of_In|]. by destruct (entry_path entry) as [| |[]].
Qed.

Lemma root_entry_resolves self cwd entry :
  entry ∈ entries self → entry_path entry = Special Root → settled cwd →
  MkResolved [ch_slash] (entry_access entry) ∈ resolved_entries_with_cwd self cwd.
Proof.
  intros Hin Hp Hcwd. apply resolved_entries_elem. exists entry. split_and!; [done| |done].
  rewrite Hp absolute_of_settled //=. by apply root_of_cwd.
Qed.

(** A covered path has an entry that decides, which is a policy's own. *)
Lemma decided_by_entry self path cwd :
  settled path → (∃ e, e ∈ resolved_entries_with_cwd self cwd ∧ covers path e) →
  ∃ entry e, decides (resolved_entries_with_cwd self cwd) path e ∧ entry ∈ entries self
    ∧ resolve_entry_path (entry_path entry) (absolute cwd) = Some (resolved_path e) ∧ entry_access entry = resolved_access e.
Proof.
  intros Hp (e & Hin & Hc). destruct (access_at_cases (resolved_entries_with_cwd self cwd) path) as [(e' & He & _)|[Hno _]].
  - pose proof He as (Hin' & _). apply resolved_entries_elem in Hin' as (entry & ? & ? & ?). by exists entry, e'.
  - by destruct (Hno e).
Qed.

Lemma override_spec self entry :
  has_same_target_write_override self entry = true →
  ∃ candidate, candidate ∈ entries self ∧ entry_access candidate = Write ∧ entry_access entry = Read
    ∧ file_system_paths_share_target (entry_path candidate) (entry_path entry) = true.
Proof.
  unfold has_same_target_write_override. intros (c & Hin & Hc)%existsb_exists. rewrite !andb_true_iff in Hc.
  destruct Hc as [[Hw%bool_decide_eq_true Hr%Nat.ltb_lt] Hs]. exists c. split_and!; [by apply list_elem_of_In|done| |done].
  rewrite Hw in Hr. by destruct (entry_access entry); simpl in Hr; [|lia..].
Qed.

Lemma full_read_access policy path cwd :
  settled path → settled cwd → has_full_disk_read_access policy = true → can_read_path_with_cwd policy path cwd = true.
Proof.
  intros Hp Hcwd. unfold can_read_path_with_cwd, has_full_disk_read_access.
  destruct (policy_kind policy) eqn:Hk; [|by rewrite /resolve_access_with_cwd Hk..].
  rewrite resolve_access_restricted //.
  intros [Hroot Hdeny%negb_true_iff]%andb_true_iff. apply root_access_entry in Hroot as (entry & Hin & Hroot & _).
  destruct (decided_by_entry policy path cwd Hp) as (entry' & e & He & Hin' & _ & Ha).
  { eexists. split; [by apply root_entry_resolves|]. by apply settled_above_root. }
  rewrite (access_at_decided _ _ _ He). unfold can_read. rewrite -Ha. apply negb_true_iff, bool_decide_eq_false. intros Hno.
  unfold has_denied_read_restrictions, is_restricted in Hdeny. rewrite bool_decide_eq_true_2 //= in Hdeny.
  apply not_true_iff_false in Hdeny. apply Hdeny, existsb_exists. exists entry'. split; [by apply list_elem_of_In|].
  by apply bool_decide_eq_true.
Qed.

Lemma full_write_access policy path cwd :
  settled_entries (entries policy) → settled path → settled cwd → disk_is_dir (lit "/tmp") = true →
  has_full_disk_write_access policy = true → can_write_path_with_cwd policy path cwd = true.
Proof.
  intros Hs Hp Hcwd Htmp.
  unfold can_write_path_with_cwd, has_full_disk_write_access.
  destruct (policy_kind policy) eqn:Hk; [|by rewrite /resolve_access_with_cwd Hk..].
  rewrite resolve_access_restricted //.
  intros [Hroot Hnarrow%negb_true_iff]%andb_true_iff.
  apply root_access_entry in Hroot as (entry & Hin & Hroot & Hw%bool_decide_eq_true).
  assert (MkResolved [ch_slash] Write ∈ resolved_entries_with_cwd policy cwd) as Hslash.
  { rewrite -Hw. by apply root_entry_resolves. }
  destruct (decided_by_entry policy path cwd Hp) as (entry' & e & He & Hin' & Hr & Ha).
  { eexists. split; [exact Hslash|]. by apply settled_above_root. }
  rewrite (access_at_decided _ _ _ He). pose proof He as (_ & Hc & Hmax). unfold can_write. apply bool_decide_eq_true.
  assert (narrows_write policy entry' = false) as Hn.
  { unfold has_write_narrowing_entries, is_restricted in Hnarrow. rewrite bool_decide_eq_true_2 //= in Hnarrow.
    rewrite <-not_true_iff_false in Hnarrow |- *. intros Hn. apply Hnarrow, existsb_exists. exists entry'.
    by rewrite -list_elem_of_In. }
  apply dec_stable. intros Hne. rewrite absolute_of_settled // in Hr.
  assert (has_same_target_write_override policy entry' = true → False) as Hover.
  { intros (c & Hinc & Hcw & Her & Hshare)%override_spec.
    destruct (share_target_resolves (entry_path c) (entry_path entry') cwd (resolved_path e)) as (q & Hq & Hcomp);
      [exact (λ q, Hs c q Hinc)|exact (λ q, Hs entry' q Hin')|done..|].
    destruct (Hmax (MkResolved q Write)) as [Hlt|[_ Hrank]].
    - apply resolved_entries_elem. exists c. by rewrite absolute_of_settled.
    - by rewrite /covers /= Hcomp.
    - simpl in Hlt. rewrite Hcomp in Hlt. lia.
    - rewrite -Ha Her /= in Hrank. lia. }
  unfold narrows_write in Hn. rewrite /can_write Ha bool_decide_eq_false_2 // in Hn.
  destruct (entry_path entry') as [p|g|[| |sub| | |u sub]] eqn:Hep; simpl in Hr; try done; try (apply negb_false_iff in Hn; by destruct (Hover Hn)).
  rewrite root_of_cwd // in Hr. injection Hr as Hr. unfold is_denied in Hn. apply bool_decide_eq_false in Hn.
  destruct (Hmax _ Hslash) as [Hlt|[_ Hrank]]; [by apply settled_above_root| |].
  + rewrite -Hr /= in Hlt. lia.
  + rewrite -Ha /= in Hrank. destruct (entry_access entry') eqn:E; [simpl in Hrank; lia|congruence|done].
Qed.

(** A policy that reports unrestricted writing lets every path be written, and one
    that reports unrestricted reading lets every path be read, from any
    directory; for writing, as long as [/tmp] is a directory. *)
Theorem full_disk_access_covers_every_path policy path cwd :
  settled_entries (entries policy) → settled path → settled cwd →
  (has_full_disk_read_access policy = true → can_read_path_with_cwd policy path cwd = true)
  ∧ (disk_is_dir (lit "/tmp") = true → has_full_disk_write_access policy = true →
     can_write_path_with_cwd policy path cwd = true).
Proof. intros Hs Hp Hcwd. split; [by apply full_read_access|by apply full_write_access]. Qed.

Lemma is_restricted_true self : is_restricted self = true ↔ policy_kind self = Restricted.
Proof. apply bool_decide_eq_true. Qed.

(** What a restricted policy becomes when the denials of another are put into it. *)
Lemma preserve_restricted self existing :
  policy_kind self = Restricted →
  ∃ d, preserve_deny_read_restrictions_from self existing
       = MkPolicy Restricted d (foldl add_missing_entry (entries self) (deny_entries (entries existing))).
Proof.
  intros Hk. unfold preserve_deny_read_restrictions_from. rewrite Hk /=.
  rewrite (proj2 (is_restricted_true self) Hk) /= Hk. by eexists.
Qed.

Lemma deny_entries_grant k d es cwd cs a : grants (MkPolicy k d (deny_entries es)) cwd cs a → a = NoAccess.
Proof.
  intros (entry & p & Hin & _ & _ & <-)%grants_entries. unfold deny_entries in Hin.
  apply list_elem_of_In, List.filter_In in Hin as [_ H]. by apply bool_decide_eq_true in H.
Qed.

Lemma denial_not_empty k d es cwd cs a :
  settled_entries es → grants (MkPolicy k d (deny_entries es)) cwd cs a → 1 ≤ length cs.
Proof.
  intros Hs (e & He & <- & _). apply resolved_entries_settled in He; [by apply settled_names in He as (ns & _ & ->); simpl; lia|].
  intros entry q Hin Hq. apply list_elem_of_In, List.filter_In in Hin as [Hin%list_elem_of_In _]. by apply (Hs entry).
Qed.

Lemma adding_denials self denials d path cwd :
  policy_kind self = Restricted → settled path →
  (∀ cs a, grants (restricted denials) cwd cs a → a = NoAccess) →
  let result := MkPolicy Restricted d (foldl add_missing_entry (entries self) denials) in
  (resolve_access_with_cwd result path cwd = NoAccess ∨ resolve_access_with_cwd result path cwd = resolve_access_with_cwd self path cwd)
  ∧ (∀ cs, grants (restricted denials) cwd cs NoAccess → cs `prefix_of` components path →
       (∀ cs' a', grants self cwd cs' a' → cs' `prefix_of` components path → length cs' ≤ length cs) →
       resolve_access_with_cwd result path cwd = NoAccess)
  ∧ ((∀ cs a, grants (restricted denials) cwd cs a → ¬ cs `prefix_of` components path) →
     resolve_access_with_cwd result path cwd = resolve_access_with_cwd self path cwd).
Proof.
  intros Hk Hp Hno result.
  assert (∀ cs a, grants result cwd cs a ↔ grants self cwd cs a ∨ grants (restricted denials) cwd cs a) as Hg.
  { intros cs a. unfold result. rewrite grants_add_missing. destruct self as [k d' es]. simpl in Hk. subst k.
    unfold restricted. by rewrite !grants_entries. }
  assert (policy_kind result = Restricted) as Hk' by done. split_and!.
  - destruct (access_cases result path cwd Hk' Hp) as [(cs & a & Hgr & Hc & Hout & ->)|[_ ->]]; [|by left].
    apply Hg in Hgr as [Hgr|Hgr]; [|left; by eapply Hno]. right. symmetry. apply (access_at_grants self path cwd cs); [done..|].
    intros cs' a' Hgr' Hc'. apply Hout; [|done]. apply Hg. by left.
  - intros cs Hgr Hc Hlen. destruct (access_cases result path cwd Hk' Hp) as [(cs' & a & Hgr' & Hc' & Hout & ->)|[_ ->]]; [|done].
    destruct (Hout cs NoAccess) as [Hlt|[-> Hrank]]; [by apply Hg; right|done| |].
    + apply Hg in Hgr' as [Hgr'|Hgr']; [|by eapply Hno]. specialize (Hlen _ _ Hgr' Hc'). lia.
    + by destruct a; simpl in Hrank; [lia..|].
  - intros Hnone. apply grants_same; [done..|]. intros cs a Hc. rewrite Hg. split; [|auto]. intros [?|Hgr]; [done|].
    by destruct (Hnone cs a).
Qed.

(** Denials survive when the allowing side of a policy is replaced: a path below a
    denied one is denied unless the new policy has an entry for a longer path
    above it; nothing is allowed that the new policy would not allow; and what
    no denial covers is as the new policy has it. Only a policy for an external
    sandbox is left as it is. *)
Theorem denials_survive_replacement self existing path cwd :
  settled path → settled cwd → settled_entries (entries existing) → policy_kind self ≠ ExternalSandbox →
  let result := preserve_deny_read_restrictions_from self existing in
  let denials := restricted (deny_entries (entries existing)) in
  (resolve_access_with_cwd result path cwd = NoAccess
   ∨ resolve_access_with_cwd result path cwd = resolve_access_with_cwd self path cwd)
  ∧ (∀ cs, grants denials cwd cs NoAccess → cs `prefix_of` components path →
       (∀ cs' a', grants self cwd cs' a' → cs' `prefix_of` components path → length cs' ≤ length cs) →
       resolve_access_with_cwd result path cwd = NoAccess)
  ∧ ((∀ cs a, grants denials cwd cs a → ¬ cs `prefix_of` components path) →
     resolve_access_with_cwd result path cwd = resolve_access_with_cwd self path cwd).
Proof.
  intros Hp Hcwd Hs Hext result denials.
  assert (∀ cs a, grants denials cwd cs a → a = NoAccess) as Hno by (intros cs a; apply deny_entries_grant).
  destruct (policy_kind self) eqn:Hk; [| |done].
  { destruct (preserve_restricted self existing Hk) as [d Hr]. unfold result. rewrite Hr.
    destruct (adding_denials self (deny_entries (entries existing)) d path cwd Hk Hp Hno) as (H1 & H2 & H3). naive_solver. }
  assert (resolve_access_with_cwd self path cwd = Write) as Hself by by rewrite /resolve_access_with_cwd Hk.
  unfold result, preserve_deny_read_restrictions_from. rewrite Hk bool_decide_eq_true_2 //=.
  destruct (existsb is_denied (entries existing)) eqn:Hd; simpl.
  - set (w := restricted [root_entry Write]).
    assert (∀ cs a, grants w cwd cs a ↔ cs = [RootDir] ∧ a = Write) as Hw.
    { intros cs a. unfold w, restricted. rewrite grants_entries. rewrite absolute_of_settled //. split.
      - intros (? & p & ->%list_elem_of_singleton & Hr & <- & <-). simpl in Hr. rewrite root_of_cwd // in Hr. by injection Hr as <-.
      - intros [-> ->]. exists (root_entry Write), [ch_slash]. rewrite /= root_of_cwd //. split_and!; [by left|done..]. }
    assert (resolve_access_with_cwd w path cwd = Write) as Hwp.
    { apply (access_at_grants w path cwd [RootDir]); [done..|by apply Hw|by apply settled_above_root|].
      intros cs' a' [-> ->]%Hw _. by right. }
    destruct (adding_denials w (deny_entries (entries existing)) (or_else None (glob_scan_max_depth existing)) path cwd eq_refl Hp Hno)
      as (H1 & H2 & H3). rewrite Hwp -Hself in H1, H3. split_and!; [exact H1| |exact H3].
    intros cs Hcs Hc _. apply (H2 cs Hcs Hc). intros cs' a' [-> _]%Hw _. by eapply denial_not_empty.
  - rewrite /is_restricted Hk /=. split_and!; [by right| |done]. intros cs Hcs _ _. exfalso.
    apply grants_entries in Hcs as (entry & p & Hin & _ & _ & Ha). apply list_elem_of_In, List.filter_In in Hin as [Hin Hden].
    apply not_true_iff_false in Hd. apply Hd, existsb_exists. by exists entry.
Qed.

(** ** Roots fixed and added *)

Lemma materialize_resolves entry cwd cwd' :
  settled cwd → settled cwd' →
  resolve_entry_path (entry_path (materialize_entry (Some cwd) entry)) (Some cwd') = resolve_entry_path (entry_path entry) (Some cwd)
  ∧ entry_access (materialize_entry (Some cwd) entry) = entry_access entry.
Proof.
  intros Hcwd Hcwd'. unfold materialize_entry. destruct entry as [[q|g|[| |sub| | |u sub]] a]; simpl; try done.
  - by rewrite !root_of_cwd.
  - by destruct sub.
Qed.

(** A policy whose project roots are made absolute for one directory gives every
    path, from any directory, the access the policy gave it from that one. *)
Theorem materialized_roots_do_not_move policy path cwd cwd' :
  settled path → settled cwd → settled cwd' →
  resolve_access_with_cwd (materialize_project_roots_with_cwd policy cwd) path cwd' = resolve_access_with_cwd policy path cwd.
Proof.
  intros Hp Hcwd Hcwd'. destruct (policy_kind policy) eqn:Hk; [|by rewrite /resolve_access_with_cwd /= Hk..].
  rewrite !resolve_access_restricted //. f_equal. unfold resolved_entries_with_cwd, materialize_project_roots_with_cwd, set_entries.
  rewrite !absolute_of_settled //=. induction (entries policy) as [|entry es IH]; [done|]. simpl.
  destruct (materialize_resolves entry cwd cwd') as [-> ->]; [done..|].
  destruct (resolve_entry_path (entry_path entry) (Some cwd)); simpl; [f_equal|]; exact IH.
Qed.

(** One more entry either decides or changes nothing. *)
Lemma one_more_entry self p a path cwd :
  policy_kind self = Restricted → settled path →
  let result := set_entries self (entries self ++ [MkEntry (PathEntry p) a]) in
  (resolve_access_with_cwd result path cwd = a ∧ components p `prefix_of` components path
   ∧ outdoes (components path) (grants self cwd) (components p) a)
  ∨ resolve_access_with_cwd result path cwd = resolve_access_with_cwd self path cwd.
Proof.
  intros Hk Hp result. assert (policy_kind result = Restricted) as Hk' by done.
  assert (∀ cs b, grants result cwd cs b ↔ grants self cwd cs b ∨ cs = components p ∧ b = a) as Hg.
  { intros cs b. unfold result, set_entries. rewrite grants_app. destruct self as [k d es]. simpl. apply or_iff_compat_l.
    rewrite grants_entries. split.
    - intros (? & q & ->%list_elem_of_singleton & [= <-] & <- & <-). done.
    - intros [-> ->]. eexists _, p. by split; [by left|]. }
  destruct (access_cases result path cwd Hk' Hp) as [(cs & b & Hgr & Hc & Hout & ->)|[Hno ->]].
  - assert (outdoes (components path) (grants self cwd) cs b) as Hout'.
    { intros cs' b' Hgr'. apply Hout, Hg. by left. }
    apply Hg in Hgr as [Hgr|[-> ->]]; [right|by left]. symmetry. by apply (access_at_grants self path cwd cs).
  - right. destruct (access_cases self path cwd Hk Hp) as [(cs & b & Hgr & Hc & _)|[_ ->]]; [|done].
    destruct (Hno cs b); [apply Hg; by left|done].
Qed.

Definition denied_exactly (self : FileSystemSandboxPolicy) (cwd path : str) : Prop := grants self cwd (components path) NoAccess.

Lemma own_entry_decides self p a cwd :
  policy_kind self = Restricted → settled p → a ≠ NoAccess →
  let result := set_entries self (entries self ++ [MkEntry (PathEntry p) a]) in
  (∃ b, access_rank a ≤ access_rank b ∧ resolve_access_with_cwd result p cwd = b ∧ (b = NoAccess → denied_exactly self cwd p)).
Proof.
  intros Hk Hp Ha result. assert (policy_kind result = Restricted) as Hk' by done.
  assert (grants result cwd (components p) a) as Hgr.
  { unfold result, set_entries. rewrite grants_app. right. apply grants_entries. eexists _, p. by split; [by left|]. }
  destruct (access_cases result p cwd Hk' Hp) as [(cs & b & Hgb & Hc & Hout & ->)|[Hno _]]; [|by destruct (Hno _ _ Hgr)].
  destruct (Hout _ _ Hgr) as [Hlt|[<- Hrank]]; [done|apply prefix_length in Hc; lia|]. exists b. split_and!; [done..|].
  intros ->. unfold result, set_entries in Hgb. rewrite grants_app in Hgb. destruct Hgb as [?|Hb]; [by destruct self|].
  apply grants_entries in Hb as (? & q & ->%list_elem_of_singleton & _ & _ & Hb). by destruct Ha.
Qed.

(** What the addition of a root does: nobody loses access, and the root is accessible
    unless an entry denies just it. *)
Definition grown (self result : FileSystemSandboxPolicy) (cwd : str) : Prop :=
  policy_kind result = policy_kind self
  ∧ (∀ q, settled q → can_read_path_with_cwd self q cwd = true → can_read_path_with_cwd result q cwd = true)
  ∧ (∀ q, settled q → can_write_path_with_cwd self q cwd = true → can_write_path_with_cwd result q cwd = true)
  ∧ (∀ q, denied_exactly result cwd q → denied_exactly self cwd q).

Lemma grown_refl self cwd : grown self self cwd.
Proof. by repeat split. Qed.

Lemma grown_trans p q r cwd : grown p q cwd → grown q r cwd → grown p r cwd.
Proof. intros (? & ? & ? & ?) (? & ? & ? & ?). repeat split; [congruence|auto..]. Qed.

Lemma one_more_grows self p a cwd :
  policy_kind self = Restricted → settled p → a ≠ NoAccess →
  (if can_write a then can_write_path_with_cwd self p cwd = false else can_read_path_with_cwd self p cwd = false) →
  grown self (set_entries self (entries self ++ [MkEntry (PathEntry p) a])) cwd.
Proof.
  intros Hk Hp Ha Hold. split_and!; [done| | |].
  - intros q Hq. unfold can_read_path_with_cwd. destruct (one_more_entry self p a q cwd Hk Hq) as [(-> & _)| ->]; [|done].
    intros _. by destruct a.
  - intros q Hq. unfold can_write_path_with_cwd. destruct (one_more_entry self p a q cwd Hk Hq) as [(-> & Hc & Hout)| ->]; [|done].
    destruct a; [|done..]. intros Hw. exfalso. simpl in Hold. unfold can_write in Hw. apply bool_decide_eq_true in Hw.
    destruct (access_cases self q cwd Hk Hq) as [(cs & b & Hgr & Hcs & Hmax & Hb)|[_ Hb]]; [|congruence].
    rewrite Hw in Hb. subst b. assert (length cs < length (components p)) as Hlt.
    { destruct (Hout _ _ Hgr Hcs) as [?|[_ Hr]]; [done|]. simpl in Hr. lia. }
    assert (resolve_access_with_cwd self p cwd = Write) as Hpw.
    { apply (access_at_grants self p cwd cs); [done..| |].
      - apply (prefix_chain cs (components p) (components q)); [done..|lia].
      - intros cs' b' Hgr' Hc'. apply Hmax; [done|]. by etrans. }
    unfold can_read_path_with_cwd in Hold. by rewrite Hpw in Hold.
  - intros q Hd. unfold denied_exactly, set_entries in *. rewrite grants_app in Hd. destruct Hd as [?|Hd]; [by destruct self|].
    apply grants_entries in Hd as (? & r & ->%list_elem_of_singleton & _ & _ & Hd). by destruct Ha.
Qed.

(** What an access mode asks for. *)
Definition allowed (a : FileSystemAccessMode) (self : FileSystemSandboxPolicy) (path cwd : str) : bool :=
  if can_write a then can_write_path_with_cwd self path cwd else can_read_path_with_cwd self path cwd.
Definition add_root (a : FileSystemAccessMode) (cwd : str) (self : FileSystemSandboxPolicy) (path : str) : FileSystemSandboxPolicy :=
  if allowed a self path cwd then self else set_entries self (entries self ++ [MkEntry (PathEntry path) a]).

Lemma grown_allowed a self result cwd p :
  grown self result cwd → settled p → allowed a self p cwd = true → allowed a result p cwd = true.
Proof. intros (_ & Hr & Hw & _) Hp. unfold allowed. destruct (can_write a); auto. Qed.

Lemma add_root_spec a self p cwd :
  a ≠ NoAccess → settled p →
  grown self (add_root a cwd self p) cwd ∧ (allowed a (add_root a cwd self p) p cwd = true ∨ denied_exactly self cwd p).
Proof.
  intros Ha Hp. unfold add_root. destruct (allowed a self p cwd) eqn:E; [by split; [apply grown_refl|left]|].
  destruct (policy_kind self) eqn:Hk.
  2,3: exfalso; unfold allowed, can_write_path_with_cwd, can_read_path_with_cwd, resolve_access_with_cwd in E; rewrite Hk in E; by case_match.
  split; [by apply one_more_grows; [..|unfold allowed in E; destruct (can_write a)]|].
  destruct (own_entry_decides self p a cwd Hk Hp Ha) as (b & Hrank & Hb & Hd). destruct b; [left|left|right; by apply Hd].
  all: unfold allowed, can_read_path_with_cwd, can_write_path_with_cwd; rewrite Hb; destruct a; simpl in *; first [done|lia].
Qed.

Lemma add_roots_spec a roots self cwd :
  a ≠ NoAccess → Forall settled roots →
  grown self (foldl (add_root a cwd) self roots) cwd
  ∧ ∀ p, p ∈ roots → allowed a (foldl (add_root a cwd) self roots) p cwd = true ∨ denied_exactly self cwd p.
Proof.
  intros Ha Hroots. revert self. induction Hroots as [|p roots Hp Hroots IH]; intros self; simpl.
  { split; [apply grown_refl|]. by intros p ?%elem_of_nil. }
  destruct (add_root_spec a self p cwd Ha Hp) as [Hg Hor], (IH (add_root a cwd self p)) as [Hg' Hor'].
  split; [by eapply grown_trans|]. intros q [->|Hq]%elem_of_cons.
  - destruct Hor; [left|by right]. by eapply grown_allowed.
  - destruct (Hor' q Hq) as [?|Hd]; [by left|right]. by apply Hg.
Qed.

(** Adding roots takes no access from any path, and every root added can be written
    or read afterwards, unless the policy had an entry that denies just that root. *)
Theorem granting_roots_only_adds policy cwd roots :
  settled cwd → Forall settled roots →
  let w := with_additional_writable_roots policy cwd roots in
  let r := with_additional_readable_roots policy cwd roots in
  grown policy w cwd ∧ grown policy r cwd
  ∧ ∀ p, p ∈ roots →
      (can_write_path_with_cwd w p cwd = true ∨ denied_exactly policy cwd p)
      ∧ (can_read_path_with_cwd r p cwd = true ∨ denied_exactly policy cwd p).
Proof.
  intros Hcwd Hroots w r. destruct (add_roots_spec Write roots policy cwd) as [Hw Hwp]; [done..|].
  destruct (add_roots_spec Read roots policy cwd) as [Hr Hrp]; [done..|].
  unfold r, with_additional_readable_roots. destruct (has_full_disk_read_access policy) eqn:Hfull.
  - split_and!; [exact Hw|apply grown_refl|]. intros p Hp. split; [by apply Hwp|left].
    apply full_read_access; [|done..]. by eapply Forall_forall.
  - split_and!; [exact Hw|exact Hr|]. intros p Hp. split; [by apply Hwp|by apply Hrp].
Qed.
End disk.

(** ** Witnesses *)

(** A disk with the directories [/tmp] and [/work], and no links. *)
Definition demo_disk : Disk := {|
  disk_home_dir := None; disk_current_dir := Ok (lit "/work"); disk_tmpdir_var := None;
  disk_is_dir := λ p, (p =s? "/tmp") || (p =s? "/work"); disk_is_file := λ _, false; disk_exists := λ _, true;
  disk_read_to_string := λ _, Err (lit "no such file"); disk_is_symlink := λ _, Some false;
  disk_canonicalize := λ p, if is_absolute p then Some (normalize_path p) else None; build_glob_matcher := λ _, None
|}.
#[global] Instance demo_disk_laws : DiskLaws demo_disk.
Proof. by split; simpl; [intros d [= <-]|]. Defined.

Definition bare_disk : Disk := {|
  disk_home_dir := None; disk_current_dir := Ok (lit "/work"); disk_tmpdir_var := None;
  disk_is_dir := λ _, false; disk_is_file := λ _, false; disk_exists := λ _, false;
  disk_read_to_string := λ _, Err (lit "no such file"); disk_is_symlink := λ _, None;
  disk_canonicalize := λ _, None; build_glob_matcher := λ _, None
|}.

Ltac settled_path l := exists (map lit l); split; [repeat constructor; try done; set_solver|reflexivity].

Ltac eval_members H :=
  match type of H with
  | _ ∈ ?l => let l' := eval vm_compute in l in change l with l' in H; rewrite ?elem_of_cons elem_of_nil in H
  end.

Lemma demo_tmp_x : settled (lit "/tmp/x"). Proof. settled_path ["tmp"; "x"]%string. Qed.
Lemma demo_work : settled (lit "/work"). Proof. settled_path ["work"]%string. Qed.
Lemma demo_other : settled (lit "/other"). Proof. settled_path ["other"]%string. Qed.

(** Everything may be written; one entry says so for [/tmp] again. *)
Definition demo_full : FileSystemSandboxPolicy :=
  restricted [root_entry Write; MkEntry (PathEntry (lit "/tmp")) Read; MkEntry (Special SlashTmp) Write].
Lemma demo_full_settled : settled_entries (entries demo_full).
Proof.
  intros entry q Hin Hq. simpl in Hin. rewrite !elem_of_cons elem_of_nil in Hin.
  destruct Hin as [->|[->|[->|[]]]]; simpl in Hq; try done. injection Hq as <-. settled_path ["tmp"]%string.
Qed.

Lemma the_most_specific_entry_decides_witness :
  let policy := restricted [root_entry Read; MkEntry (PathEntry (lit "/tmp")) Write; MkEntry (PathEntry (lit "/tmp")) NoAccess] in
  @resolve_access_with_cwd demo_disk policy (lit "/tmp/x") (lit "/work") = NoAccess.
Proof.
  intros policy. destruct (proj2 (the_most_specific_entry_decides (D := demo_disk) policy (lit "/tmp/x") (lit "/work"))) as (Hd & _);
    [reflexivity|exact demo_tmp_x|].
  apply (Hd (MkResolved (lit "/tmp") NoAccess)). split_and!; [vm_compute; set_solver| |].
  - exists [Normal (lit "x")]. reflexivity.
  - intros e' He' _. eval_members He'. destruct He' as [->|[->|[->|[]]]].
    + left. vm_compute. lia.
    + right. split; [reflexivity|simpl; lia].
    + right. split; [reflexivity|simpl; lia].
Defined.

Lemma full_disk_access_covers_every_path_witness :
  @has_full_disk_write_access demo_full = true
  ∧ @can_write_path_with_cwd demo_disk demo_full (lit "/tmp/x") (lit "/work") = true.
Proof.
  split; [reflexivity|].
  apply (full_disk_access_covers_every_path (D := demo_disk) demo_full (lit "/tmp/x") (lit "/work"));
    [exact demo_full_settled|exact demo_tmp_x|exact demo_work|reflexivity|reflexivity].
Defined.

(** Without a directory [/tmp] the last entry of [demo_full] stands for no path, and
    still counts as one for the target of the entry before. *)
Lemma full_write_access_without_tmp :
  has_full_disk_write_access demo_full = true
  ∧ @can_write_path_with_cwd bare_disk demo_full (lit "/tmp/x") (lit "/work") = false.
Proof. by vm_compute. Qed.

Lemma denials_survive_replacement_witness :
  let existing := restricted [root_entry Read; MkEntry (PathEntry (lit "/tmp")) NoAccess] in
  @resolve_access_with_cwd demo_disk (preserve_deny_read_restrictions_from unrestricted existing) (lit "/tmp/x") (lit "/work") = NoAccess.
Proof.
  intros existing. destruct (denials_survive_replacement (D := demo_disk) unrestricted existing (lit "/tmp/x") (lit "/work"))
    as (_ & H & _); [exact demo_tmp_x|exact demo_work| |done|].
  - intros entry q Hin Hq. simpl in Hin. rewrite !elem_of_cons elem_of_nil in Hin.
    destruct Hin as [->|[->|[]]]; simpl in Hq; try done. injection Hq as <-. settled_path ["tmp"]%string.
  - apply (H [RootDir; Normal (lit "tmp")]).
    + exists (MkResolved (lit "/tmp") NoAccess). split_and!; [vm_compute; set_solver|reflexivity..].
    + exists [Normal (lit "x")]. reflexivity.
    + intros cs' a' (e & He & _). by eval_members He.
Defined.

Definition demo_workspace : FileSystemSandboxPolicy := restricted [root_entry Read; MkEntry (Special (ProjectRoots None)) Write].

Lemma materialized_roots_do_not_move_witness :
  @resolve_access_with_cwd demo_disk (@materialize_project_roots_with_cwd demo_disk demo_workspace (lit "/work"))
    (lit "/work") (lit "/other") = Write.
Proof.
  rewrite (materialized_roots_do_not_move (D := demo_disk) demo_workspace (lit "/work") (lit "/work") (lit "/other")
    demo_work demo_work demo_other). vm_compute. reflexivity.
Defined.

Lemma granting_roots_only_adds_witness :
  @can_write_path_with_cwd demo_disk (@with_additional_writable_roots demo_disk demo_workspace (lit "/work") [lit "/other"])
    (lit "/other") (lit "/work") = true.
Proof.
  destruct (granting_roots_only_adds (D := demo_disk) demo_workspace (lit "/work") [lit "/other"] demo_work) as (_ & _ & H).
  - apply Forall_singleton. exact demo_other.
  - destruct (H (lit "/other")) as [[Hw|Hd] _]; [apply list_elem_of_singleton; reflexivity|exact Hw|].
    exfalso. destruct Hd as (e & He & _ & Ha). eval_members He.
    destruct He as [->|[->|[]]]; discriminate Ha.
Defined.
