(* ===== verification/SandboxRoots.v ===== *)
(** Policies as roots and as legacy policies. Sandboxes are not given the entries of
    a policy but the directories that may be written, each with what is read-only
    below it; on a disk without links these say what the policy says. Legacy
    policies become entries and come back. *)
From S2P Require Import Prelude Json Paths Types Host AbsolutePath Permissions Access.
#[local] Open Scope nat_scope.

(** Nothing on the disk is a link: canonical paths are the absolute ones. *)
Class NoLinks (D : Disk) := {
  canonical_plain : ∀ p q, is_absolute p = true → disk_canonicalize p = Some q → q = normalize_path p
}.

Section roots.
Context {D : Disk} {DL : DiskLaws D} {NL : NoLinks D}.

(** ** Effective paths *)

Lemma canonicalize_settled a : settled a → canonicalize_preserving_symlinks a = Some a.
Proof.
  intros Ha. unfold canonicalize_preserving_symlinks. rewrite absolute_of_settled //=.
  destruct (disk_canonicalize a) as [q|] eqn:Hq; [|done]. apply canonical_plain in Hq as ->; [|by apply settled_absolute].
  rewrite normalize_settled //. by destruct (_ && _).
Qed.

(** A path below an absolute one is that path and the names that follow. *)
Lemma rejoin p a : settled p → settled a → components a `prefix_of` components p →
  absolute (path_join a (path_of_components (drop (length (components a)) (components p)))) = Some p.
Proof.
  intros Hp Ha [l Hl]. rewrite Hl drop_app_length. pose proof (settled_absolute a Ha) as Haa.
  destruct (settled_names p Hp) as (ns & Hns & Hpn), (settled_names a Ha) as (ms & Hms & Han). rewrite Hpn Han in Hl.
  injection Hl as Hl. assert (Forall plain_name ns → ∃ ks, l = map Normal ks ∧ Forall plain_name ks) as Hks.
  { intros _. exists (drop (length ms) ns). rewrite -skipn_map Hl -(length_map Normal ms) drop_app_length. split; [done|].
    by apply Forall_drop. }
  destruct (Hks Hns) as (ks & -> & Hk). pose proof (components_relative ks Hk) as Hc.
  assert (is_absolute (path_of_components (map Normal ks)) = false) as Hrel.
  { rewrite is_absolute_components Hc. apply bool_decide_eq_false. by destruct ks. }
  assert (is_absolute (path_join a (path_of_components (map Normal ks))) = true) as Habs.
  { pose proof (path_with_base_absolute (path_of_components (map Normal ks)) a Haa) as H. unfold path_with_base in H.
    by rewrite Hrel in H. }
  rewrite absolute_of_absolute //. f_equal.
  destruct (normalize_absolute _ Habs) as [Hs Hcomp]. apply settled_eq; [done..|]. rewrite Hcomp components_join_relative // Hc Han Hpn Hl.
  assert (strip_cur (map Normal ks) = map Normal ks) as -> by by destruct ks.
  rewrite -app_comm_cons -map_app. apply norm_components_id. change (Forall plain (map Normal (ms ++ ks))). apply Forall_fmap.
  eapply Forall_impl; [apply Forall_app_2; [exact Hms|exact Hk]|]. done.
Qed.

Lemma normalized_through_id p a : settled p → a ∈ ancestors p → normalized_through p a = None ∨ normalized_through p a = Some p.
Proof.
  intros Hp Ha. apply ancestors_settled in Ha as [Ha Hpre]; [|done]. unfold normalized_through.
  destruct (disk_is_symlink a); simpl; [right|by left]. rewrite canonicalize_settled //=. unfold path_strip_prefix.
  rewrite (proj2 (starts_with_prefix p a) Hpre) /=. by apply rejoin.
Qed.

Lemma effective_settled p : settled p → normalize_effective_absolute_path p = p.
Proof.
  intros Hp. unfold normalize_effective_absolute_path.
  assert (∀ l, (∀ a, a ∈ l → a ∈ ancestors p) → unwrap_or p (head (omap (normalized_through p) l)) = p) as H; [|by apply H].
  induction l as [|a l IH]; intros Hl; [done|]. simpl.
  destruct (normalized_through_id p a Hp) as [->| ->]; [apply Hl; by left| |done]. apply IH. intros b Hb. apply Hl. by right.
Qed.

Lemma insert_new_paths_elem seen l x :
  Forall settled seen → Forall settled l → x ∈ insert_new_paths seen l ↔ x ∈ l ∧ x ∉ seen.
Proof.
  intros Hseen Hl. revert seen Hseen. induction Hl as [|y l Hy Hl IH]; intros seen Hseen; simpl.
  { rewrite elem_of_nil. tauto. }
  assert (existsb (path_eq y) seen = true ↔ y ∈ seen) as Hex.
  { rewrite existsb_exists. split.
    - intros (z & Hz%list_elem_of_In & Heq). apply path_eq_settled in Heq; [by subst|done|]. by eapply Forall_forall.
    - intros Hin. exists y. split; [by apply list_elem_of_In|]. by apply path_eq_true. }
  destruct (existsb (path_eq y) seen) eqn:E.
  - rewrite IH // elem_of_cons. apply proj1 in Hex. specialize (Hex eq_refl). naive_solver.
  - assert (y ∉ seen) as Hno. { intros Hin. apply Hex in Hin. congruence. }
    rewrite elem_of_cons IH; [by constructor|]. rewrite !elem_of_cons. destruct (decide (x = y)) as [->|]; naive_solver.
Qed.

Lemma dedup_elem b l x : Forall settled l → x ∈ dedup_absolute_paths l b ↔ x ∈ l.
Proof.
  intros Hl. unfold dedup_absolute_paths.
  assert ((if b then normalize_effective_absolute_path <$> l else l) = l) as ->.
  { destruct b; [|done]. rewrite -{2}(list_fmap_id l). apply list_fmap_ext. intros i y Hy. apply effective_settled.
    eapply Forall_lookup_1; [exact Hl|exact Hy]. }
  rewrite insert_new_paths_elem //. split; [by intros [? _]|]. split; [done|apply not_elem_of_nil].
Qed.

(** ** Roots with their carveouts *)

Lemma carveout_spec r raws q :
  settled r → settled q → (∀ w, w ∈ raws → w = r) →
  carveout_path r raws q = if bool_decide (q ≠ r ∧ components r `prefix_of` components q) then Some q else None.
Proof.
  intros Hr Hq Hraws. unfold carveout_path. rewrite effective_settled //.
  assert (path_eq q r = bool_decide (q = r)) as Heq.
  { apply eq_true_iff_eq. by rewrite path_eq_settled // bool_decide_eq_true. }
  assert (path_starts_with q r = bool_decide (components r `prefix_of` components q)) as Hpre.
  { apply eq_true_iff_eq. by rewrite starts_with_prefix bool_decide_eq_true. }
  assert (raw_carveout_path r raws q = None
          ∨ raw_carveout_path r raws q = Some q ∧ q ≠ r ∧ components r `prefix_of` components q) as Hraw.
  { unfold raw_carveout_path. rewrite Heq Hpre. destruct (is_some_b _); [|by left].
    destruct (decide (q = r)) as [->|Hne]; [rewrite bool_decide_eq_true_2 //; by left|]. rewrite (bool_decide_eq_false_2 (q = r)) //.
    destruct (decide (components r `prefix_of` components q)) as [Hp|Hp]; [rewrite bool_decide_eq_true_2 //; by right|].
    rewrite bool_decide_eq_false_2 //. left. induction raws as [|w raws IH]; [done|]. simpl.
    rewrite (Hraws w); [by left|]. unfold path_strip_prefix. rewrite Hpre bool_decide_eq_false_2 //=. apply IH.
    intros v Hv. apply Hraws. by right. }
  rewrite Heq Hpre. destruct Hraw as [->|(-> & Hne & Hp)].
  - destruct (decide (q = r)) as [->|Hne]; [rewrite !(bool_decide_eq_true_2 (r = r)) //= bool_decide_eq_false_2 //; naive_solver|].
    rewrite (bool_decide_eq_false_2 (q = r)) //=.
    destruct (decide (components r `prefix_of` components q)) as [Hp|Hp].
    + by rewrite !bool_decide_eq_true_2.
    + rewrite !bool_decide_eq_false_2 //. naive_solver.
  - by rewrite bool_decide_eq_true_2.
Qed.

Lemma filter_elem {A} (f : A → bool) l x : x ∈ List.filter f l ↔ x ∈ l ∧ f x = true.
Proof. by rewrite !list_elem_of_In List.filter_In. Qed.

Lemma parent_absolute p q : settled p → path_parent p = Some q → is_absolute q = true.
Proof.
  intros (ns & Hns & ->). destruct ns as [|n ns _] using rev_ind; [done|]. rewrite parent_of_names //. intros [= <-].
  by destruct ns.
Qed.

Lemma join_absolute_settled p q : settled p → settled (join_absolute p q).
Proof. intros Hp. by apply resolve_against_settled, settled_absolute. Qed.

Lemma default_subpaths_settled r b s : settled r → s ∈ default_read_only_subpaths_for_writable_root r b → settled s.
Proof.
  intros Hr. unfold default_read_only_subpaths_for_writable_root.
  assert (∀ d, resolve_gitdir_from_file (join_absolute r ".git") = Some d → settled d) as Hgit.
  { intros d. unfold resolve_gitdir_from_file. destruct (disk_read_to_string _); [|done].
    intros ([? raw] & _ & Hd)%bind_Some. destruct (is_empty (trim raw)); [done|]. apply bind_Some in Hd as (base & Hb & Hd).
    destruct (disk_exists _); [|done]. injection Hd as <-. apply resolve_against_settled.
    eapply parent_absolute; [|exact Hb]. by apply join_absolute_settled. }
  match goal with |- s ∈ dedup_absolute_paths ?l _ → _ => assert (Forall settled l) as Hall end.
  { repeat apply Forall_app_2; repeat case_match; repeat (apply Forall_cons_2 || apply Forall_nil_2 || apply Forall_app_2);
      try (by apply join_absolute_settled).
    destruct (resolve_gitdir_from_file _) eqn:E; simpl; [|done]. apply Forall_singleton. by apply Hgit. }
  rewrite dedup_elem // => Hs. by eapply Forall_forall.
Qed.

(** What writable roots a policy has: its effective writable entries. *)
Lemma writable_roots_elem self cwd R :
  settled_entries (entries self) → has_full_disk_write_access self = false →
  R ∈ get_writable_roots_with_cwd self cwd ↔
  ∃ e, e ∈ resolved_entries_with_cwd self cwd ∧ resolved_access e = Write
    ∧ can_write_path_with_cwd self (resolved_path e) cwd = true
    ∧ R = writable_root_at self cwd (resolved_entries_with_cwd self cwd)
            (resolved_path <$> List.filter (λ entry, can_write (resolved_access entry)
               && can_write_path_with_cwd self (resolved_path entry) cwd) (resolved_entries_with_cwd self cwd)) (resolved_path e).
Proof.
  intros Hs Hfull. unfold get_writable_roots_with_cwd. rewrite Hfull. set (ws := resolved_path <$> _).
  assert (Forall settled ws) as Hws.
  { apply Forall_fmap, Forall_forall. intros e [He _]%filter_elem. by eapply resolved_entries_settled. }
  rewrite list_elem_of_fmap. setoid_rewrite dedup_elem; [|done]. unfold ws at 2. setoid_rewrite list_elem_of_fmap. split.
  - intros (r & -> & e & -> & [He [Hw%bool_decide_eq_true Hc]%andb_true_iff]%filter_elem). by exists e.
  - intros (e & He & Hw & Hc & ->). exists (resolved_path e). split; [done|]. exists e. split; [done|]. apply filter_elem.
    rewrite Hc andb_true_r. split; [done|]. by apply bool_decide_eq_true.
Qed.

(** The default subpaths of a root that stay read-only: those without an entry. *)
Definition protected_below (self : FileSystemSandboxPolicy) (cwd r s : str) : Prop :=
  s ∈ default_read_only_subpaths_for_writable_root r (path_eq cwd r)
  ∧ has_explicit_resolved_path_entry (resolved_entries_with_cwd self cwd) s = false.

Lemma subpaths_elem self cwd ws r s :
  settled_entries (entries self) → settled cwd → settled r → Forall settled ws →
  s ∈ read_only_subpaths (writable_root_at self cwd (resolved_entries_with_cwd self cwd) ws r) ↔
  protected_below self cwd r s
  ∨ ∃ e, e ∈ resolved_entries_with_cwd self cwd ∧ resolved_access e ≠ Write
      ∧ can_write_path_with_cwd self (resolved_path e) cwd = false
      ∧ resolved_path e ≠ r ∧ components r `prefix_of` components (resolved_path e) ∧ s = resolved_path e.
Proof.
  intros Hs Hcwd Hr Hws. unfold writable_root_at. simpl read_only_subpaths. rewrite absolute_of_settled // effective_settled //.
  set (raws := List.filter _ ws). assert (∀ w, w ∈ raws → w = r) as Hraws.
  { intros w [Hw Heq]%filter_elem. rewrite effective_settled in Heq; [by eapply Forall_forall|].
    apply path_eq_settled in Heq; [done| |done]. by eapply Forall_forall. }
  match goal with |- _ ∈ dedup_absolute_paths (?d ++ ?c) _ ↔ _ => set (defaults := d); set (carveouts := c) end.
  assert (∀ x, x ∈ carveouts ↔ ∃ e, e ∈ resolved_entries_with_cwd self cwd ∧ resolved_access e ≠ Write
      ∧ can_write_path_with_cwd self (resolved_path e) cwd = false
      ∧ resolved_path e ≠ r ∧ components r `prefix_of` components (resolved_path e) ∧ x = resolved_path e) as Hc.
  { intros x. unfold carveouts. rewrite list_elem_of_omap. split.
    - intros (e & [He [Ha%negb_true_iff Hw%negb_true_iff]%andb_true_iff]%filter_elem & Hx).
      rewrite carveout_spec // in Hx; [by eapply resolved_entries_settled|]. case_bool_decide as Hd; [|done].
      injection Hx as <-. apply bool_decide_eq_false in Ha. exists e. tauto.
    - intros (e & He & Ha & Hw & Hne & Hp & ->). exists e. split.
      + apply filter_elem. split; [done|]. rewrite Hw andb_true_r. by apply negb_true_iff, bool_decide_eq_false.
      + rewrite carveout_spec //; [by eapply resolved_entries_settled|]. by rewrite bool_decide_eq_true_2. }
  assert (∀ x, x ∈ defaults ↔ protected_below self cwd r x) as Hdef.
  { intros x. unfold defaults, protected_below. by rewrite filter_elem negb_true_iff. }
  rewrite dedup_elem.
  - apply Forall_app_2; apply Forall_forall; intros x Hx.
    + apply Hdef in Hx as [Hx _]. by eapply default_subpaths_settled.
    + apply Hc in Hx as (e & He & _ & _ & _ & _ & ->). by eapply resolved_entries_settled.
  - by rewrite elem_of_app Hdef Hc.
Qed.

Lemma not_full_is_restricted self : has_full_disk_write_access self = false → policy_kind self = Restricted.
Proof. unfold has_full_disk_write_access. by destruct (policy_kind self). Qed.

Lemma writable_entries_settled self cwd :
  settled_entries (entries self) →
  Forall settled (resolved_path <$> List.filter (λ entry, can_write (resolved_access entry)
    && can_write_path_with_cwd self (resolved_path entry) cwd) (resolved_entries_with_cwd self cwd)).
Proof. intros Hs. apply Forall_fmap, Forall_forall. intros e [He _]%filter_elem. by eapply resolved_entries_settled. Qed.

(** An entry that decides a path decides its own. *)
Lemma decides_itself self cwd path e :
  settled_entries (entries self) → policy_kind self = Restricted →
  decides (resolved_entries_with_cwd self cwd) path e → resolve_access_with_cwd self (resolved_path e) cwd = resolved_access e.
Proof.
  intros Hs Hk (He & Hc & Hmax). rewrite resolve_access_restricted //; [by eapply resolved_entries_settled|].
  apply access_at_decided. split_and!; [done|by rewrite /covers|]. intros e' He' Hc'. apply Hmax; [done|]. unfold covers in *. by etrans.
Qed.

(** On a disk without links, a path that a root lets be written may be written under the
    policy, and a path that may be written lies below a root that lets it, unless it is
    below one of the subpaths that are read-only by default and without an entry. *)
Lemma roots_without_links policy path cwd :
  settled_entries (entries policy) → settled path → settled cwd → has_full_disk_write_access policy = false →
  let roots := get_writable_roots_with_cwd policy cwd in
  (∀ R, R ∈ roots → is_path_writable R path = true → can_write_path_with_cwd policy path cwd = true)
  ∧ (can_write_path_with_cwd policy path cwd = true →
     ∃ R, R ∈ roots ∧ path_starts_with path (root R) = true
       ∧ (is_path_writable R path = true ∨ ∃ s, protected_below policy cwd (root R) s ∧ path_starts_with path s = true)).
Proof.
  intros Hs Hp Hcwd Hfull roots. pose proof (not_full_is_restricted _ Hfull) as Hk.
  pose proof (writable_entries_settled policy cwd Hs) as Hws. split.
  - intros R (e & He & Hw & Hcan & ->)%writable_roots_elem Hpath; [|done..].
    unfold is_path_writable in Hpath. apply andb_true_iff in Hpath as [Hbelow%starts_with_prefix Hsub%negb_true_iff].
    simpl root in Hbelow. assert (settled (resolved_path e)) as Hse by by eapply resolved_entries_settled.
    unfold can_write_path_with_cwd. rewrite resolve_access_restricted //.
    destruct (access_at_cases (resolved_entries_with_cwd policy cwd) path) as [(x & Hx & ->)|[Hno _]]; [|by destruct (Hno e)].
    apply bool_decide_eq_true, dec_stable. intros Hne. apply not_true_iff_false in Hsub. apply Hsub, existsb_exists.
    pose proof Hx as (Hxin & Hxc & Hxmax). exists (resolved_path x). rewrite starts_with_prefix. split; [|done].
    apply list_elem_of_In, subpaths_elem; [done..|]. right. exists x.
    pose proof (decides_itself policy cwd path x Hs Hk Hx) as Hself.
    assert (resolved_path x ≠ resolved_path e) as Hdiff.
    { intros Heq. unfold can_write_path_with_cwd in Hcan. rewrite -Heq Hself in Hcan. by apply bool_decide_eq_true in Hcan. }
    split_and!; [done..| |done| |done].
    + unfold can_write_path_with_cwd. rewrite Hself. by apply bool_decide_eq_false.
    + destruct (Hxmax e He Hbelow) as [Hlt|[Heq _]]; [|by rewrite Heq]. 
      eapply prefix_chain; [exact Hbelow|exact Hxc|lia].
  - unfold can_write_path_with_cwd at 1. rewrite resolve_access_restricted //.
    destruct (access_at_cases (resolved_entries_with_cwd policy cwd) path) as [(e & He & ->)|[_ ->]]; [|done].
    intros Hw%bool_decide_eq_true. pose proof He as (Hin & Hc & Hmax).
    assert (settled (resolved_path e)) as Hse by by eapply resolved_entries_settled.
    pose proof (decides_itself policy cwd path e Hs Hk He) as Hself.
    eexists. split; [apply writable_roots_elem; [done..|]; exists e; split_and!; [done..| |reflexivity]|].
    { unfold can_write_path_with_cwd. rewrite Hself. by apply bool_decide_eq_true. }
    split; [by apply starts_with_prefix|]. unfold is_path_writable. simpl root. rewrite (proj2 (starts_with_prefix _ _) Hc) /=.
    destruct (existsb _ _) eqn:E; [right|by left]. apply existsb_exists in E as (s & Hin'%list_elem_of_In & Hss).
    apply subpaths_elem in Hin' as [Hdef|(x & Hx & Hxa & _ & Hxne & Hxpre & ->)]; [by exists s| |done..]. exfalso.
    apply starts_with_prefix in Hss. destruct (Hmax x Hx Hss) as [Hlt|[Heq _]].
    + apply prefix_length in Hxpre. lia.
    + apply settled_eq in Heq; [done|by eapply resolved_entries_settled|done].
Qed.
End roots.

(** *** Links *)

Section links.
Context {D : Disk} {DL : DiskLaws D}.

(** An entry that lets its path not be written; a writable path that leads to a
    root. *)
Definition closed (policy : FileSystemSandboxPolicy) (cwd : str) (e : ResolvedFileSystemEntry) : Prop :=
  e ∈ resolved_entries_with_cwd policy cwd ∧ resolved_access e ≠ Write ∧ can_write_path_with_cwd policy (resolved_path e) cwd = false.
Definition leads_to (policy : FileSystemSandboxPolicy) (cwd r w : str) : Prop :=
  path_eq (normalize_effective_absolute_path w) r = true
  ∧ ∃ e, e ∈ resolved_entries_with_cwd policy cwd ∧ resolved_access e = Write
      ∧ can_write_path_with_cwd policy (resolved_path e) cwd = true ∧ resolved_path e = w.
(** Where such an entry shows below a root: as it is; as what it is below a writable
    path that leads to the root; or else as what it leads to. *)
Definition below (q r : str) : Prop := path_starts_with q r = true ∧ path_eq q r = false.
Definition shows_below (policy : FileSystemSandboxPolicy) (cwd r q c : str) : Prop :=
  path_parent r ≠ None ∧ path_starts_with q r = false
  ∧ ∃ w suffix, leads_to policy cwd r w ∧ path_strip_prefix q w = Some suffix ∧ suffix ≠ [] ∧ c = join_absolute r suffix.
Inductive carved (policy : FileSystemSandboxPolicy) (cwd r q : str) : str → Prop :=
| carved_itself : path_parent r ≠ None → below q r → carved policy cwd r q q
| carved_alias c : shows_below policy cwd r q c → carved policy cwd r q c
| carved_target : ¬ (path_parent r ≠ None ∧ below q r) → (∀ c, ¬ shows_below policy cwd r q c) →
    below (normalize_effective_absolute_path q) r → carved policy cwd r q (normalize_effective_absolute_path q).

Lemma insert_new_covers seen l x : x ∈ l → (∃ y, y ∈ insert_new_paths seen l ∧ path_eq x y = true) ∨ existsb (path_eq x) seen = true.
Proof.
  revert seen. induction l as [|z l IH]; intros seen; [by intros ?%elem_of_nil|]. cbn [insert_new_paths]. intros [->|Hx]%elem_of_cons.
  - destruct (existsb (path_eq z) seen) eqn:Hz; [by right|]. left. exists z. split; [by left|by apply path_eq_true].
  - destruct (existsb (path_eq z) seen) eqn:Hz; [by apply IH|]. destruct (IH (z :: seen) Hx) as [(y & Hy & Heq)|Hs].
    + left. exists y. split; [by right|done].
    + cbn in Hs. apply orb_true_iff in Hs as [Hs|Hs]; [|by right]. left. exists z. split; [by left|done].
Qed.

Lemma subpaths_cover self cwd entries writable r c path :
  (∃ e, e ∈ entries ∧ resolved_access e ≠ Write ∧ can_write_path_with_cwd self (resolved_path e) cwd = false
      ∧ carveout_path r (List.filter (λ path, path_eq (normalize_effective_absolute_path path) r) writable) (resolved_path e) = Some c) →
  path_starts_with path c = true → is_path_writable (writable_root_at self cwd entries writable r) path = false.
Proof.
  intros (e & He & Ha & Hw & Hc) Hp. unfold is_path_writable, writable_root_at. cbn [root read_only_subpaths].
  match goal with |- context [dedup_absolute_paths (?d ++ ?cs) false] => set (defaults := d); set (carveouts := cs) end.
  assert (c ∈ defaults ++ carveouts) as Hin.
  { apply elem_of_app. right. apply list_elem_of_omap. exists e. split; [|exact Hc]. apply list_elem_of_In, List.filter_In.
    split; [by apply list_elem_of_In|]. rewrite Hw andb_true_r. by apply negb_true_iff, bool_decide_eq_false. }
  unfold dedup_absolute_paths. destruct (insert_new_covers [] _ _ Hin) as [(y & Hy & Heq)|]; [|done].
  apply andb_false_iff. right. apply negb_false_iff, existsb_exists. exists y. split; [by apply list_elem_of_In|].
  apply path_eq_true in Heq. rewrite starts_with_prefix -Heq. by apply starts_with_prefix.
Qed.

Lemma head_omap_Some {A B} (f : A → option B) l b : head (omap f l) = Some b → ∃ x, x ∈ l ∧ f x = Some b.
Proof.
  intros Hh. apply list_elem_of_omap. destruct (omap f l); [done|]. injection Hh as ->. by left.
Qed.
Lemma head_omap_None {A B} (f : A → option B) l : head (omap f l) = None → ∀ x, x ∈ l → f x = None.
Proof.
  intros Hh x Hx. destruct (f x) as [b|] eqn:Hf; [|done]. assert (b ∈ omap f l) as Hb by (apply list_elem_of_omap; by exists x).
  destruct (omap f l); [by apply elem_of_nil in Hb|done].
Qed.

Lemma writable_paths_lead policy cwd r w :
  w ∈ List.filter (λ path, path_eq (normalize_effective_absolute_path path) r)
        (resolved_path <$> List.filter (λ entry, can_write (resolved_access entry)
           && can_write_path_with_cwd policy (resolved_path entry) cwd) (resolved_entries_with_cwd policy cwd)) ↔ leads_to policy cwd r w.
Proof.
  unfold leads_to. rewrite filter_elem list_elem_of_fmap. setoid_rewrite filter_elem. setoid_rewrite andb_true_iff.
  setoid_rewrite bool_decide_eq_true. split.
  - intros [(e & -> & He & Ha & Hc) Hr]. split; [done|]. by exists e.
  - intros [Hr (e & He & Ha & Hc & <-)]. split; [|done]. by exists e.
Qed.

Lemma carveout_is_carved policy cwd r q :
  let raws := List.filter (λ path, path_eq (normalize_effective_absolute_path path) r)
        (resolved_path <$> List.filter (λ entry, can_write (resolved_access entry)
           && can_write_path_with_cwd policy (resolved_path entry) cwd) (resolved_entries_with_cwd policy cwd)) in
  match carveout_path r raws q with
  | Some c => carved policy cwd r q c
  | None => ∀ c, ¬ carved policy cwd r q c
  end.
Proof.
  intros raws. unfold carveout_path. destruct (raw_carveout_path r raws q) as [c|] eqn:Hraw.
  - unfold raw_carveout_path in Hraw. destruct (path_parent r) eqn:Hpar; [|done]. cbn [is_some_b] in Hraw.
    destruct (path_eq q r) eqn:Heq; [done|]. destruct (path_starts_with q r) eqn:Hst; [injection Hraw as <-; by apply carved_itself; [rewrite Hpar|]|].
    apply head_omap_Some in Hraw as (w & Hw & Hf). apply writable_paths_lead in Hw. apply bind_Some in Hf as (suffix & Hsuf & Hf).
    destruct (is_empty suffix) eqn:He; [done|]. injection Hf as <-. apply carved_alias. split_and!; [by rewrite Hpar|done|].
    exists w, suffix. split_and!; [done..|by apply is_empty_false|done].
  - assert (¬ (path_parent r ≠ None ∧ below q r) ∧ ∀ c, ¬ shows_below policy cwd r q c) as [Hno1 Hno2].
    { unfold raw_carveout_path in Hraw. destruct (path_parent r) eqn:Hpar; cbn [is_some_b] in Hraw;
        [|split; [by intros [? _]|intros c (Hp & _); by rewrite Hpar in Hp]].
      destruct (path_eq q r) eqn:Heq.
      { split; [intros [_ [_ Hb]]; by rewrite Heq in Hb|]. intros c (_ & Hst & _). apply path_eq_true in Heq.
        assert (path_starts_with q r = true) as Ht by (apply starts_with_prefix; by rewrite Heq). by rewrite Ht in Hst. }
      destruct (path_starts_with q r) eqn:Hst; [done|]. split; [intros [_ [Hb _]]; by rewrite Hst in Hb|].
      intros c (_ & _ & w & suffix & Hw & Hsuf & Hne & _). apply writable_paths_lead in Hw. pose proof (head_omap_None _ _ Hraw w Hw) as Hf.
      cbn in Hf. rewrite Hsuf in Hf. cbn in Hf. by destruct suffix. }
    destruct (path_eq (normalize_effective_absolute_path q) r) eqn:Heq; cbn [orb].
    { intros c Hc. destruct Hc as [? ?|c ?|_ _ [_ Hb]]; [by apply Hno1|by eapply Hno2|congruence]. }
    destruct (path_starts_with (normalize_effective_absolute_path q) r) eqn:Hst; cbn [negb].
    + by apply carved_target.
    + intros c Hc. destruct Hc as [? ?|c ?|_ _ [Hb _]]; [by apply Hno1|by eapply Hno2|congruence].
Qed.

(** C13. The roots a sandbox is given are sound and complete on a disk without links: a
    path that one of them lets be written may be written under the policy, and
    a path that may be written lies below a root that lets it, unless it is
    below one of the subpaths that are read-only by default and without an entry.
    On any disk, an entry that may not be written is carved out of the roots:
    whatever is below where it shows under a root (as its own path, or else, below
    a writable path that leads to the root, as the same path below the root, or else
    as the path it leads to) is not written through that root. The paths are
    absolute and without dots, and the policy does not let the whole disk be written. *)
Theorem writable_roots_are_the_writable_paths policy cwd :
  settled_entries (entries policy) → settled cwd → has_full_disk_write_access policy = false →
  let roots := get_writable_roots_with_cwd policy cwd in
  (NoLinks D → ∀ path, settled path →
     (∀ R, R ∈ roots → is_path_writable R path = true → can_write_path_with_cwd policy path cwd = true)
     ∧ (can_write_path_with_cwd policy path cwd = true →
        ∃ R, R ∈ roots ∧ path_starts_with path (root R) = true
          ∧ (is_path_writable R path = true ∨ ∃ s, protected_below policy cwd (root R) s ∧ path_starts_with path s = true)))
  ∧ (∀ R e, R ∈ roots → closed policy cwd e →
       (∃ c, carved policy cwd (root R) (resolved_path e) c) →
       ∃ c, carved policy cwd (root R) (resolved_path e) c ∧ ∀ path, path_starts_with path c = true → is_path_writable R path = false).
Proof.
  intros Hs Hcwd Hfull roots. split; [intros NL path Hp; by apply roots_without_links|].
  intros R e HR (He & Ha & Hw) (c0 & Hc0). unfold roots, get_writable_roots_with_cwd in HR. rewrite Hfull in HR.
  apply list_elem_of_fmap in HR as (r & -> & _). cbn [root writable_root_at] in *.
  pose proof (carveout_is_carved policy cwd r (resolved_path e)) as Hc. cbn zeta in Hc. destruct (carveout_path _ _ _) as [c|] eqn:Hcar; [|by destruct (Hc c0)].
  exists c. split; [done|]. intros path. apply subpaths_cover. by exists e.
Qed.
End links.

(** ** Legacy policies *)

Section legacy.
Context {D : Disk}.

(** What protection adds to a list of entries: entries that are read, not written. *)
Definition only_reads (es es' : list FileSystemSandboxEntry) : Prop :=
  ∃ more, es' = es ++ more ∧ Forall (λ entry, entry_access entry = Read ∧ entry_path entry ≠ Special Root) more.

Lemma only_reads_refl es : only_reads es es.
Proof. exists []. by rewrite app_nil_r. Qed.

Lemma only_reads_trans a b c : only_reads a b → only_reads b c → only_reads a c.
Proof. intros (x & -> & Hx) (y & -> & Hy). exists (x ++ y). rewrite -app_assoc. split; [done|by apply Forall_app]. Qed.

Lemma append_only_reads es path : path ≠ Special Root → only_reads es (append_default_read_only_entry_if_no_explicit_rule es path).
Proof.
  intros Hp. unfold append_default_read_only_entry_if_no_explicit_rule. destruct (existsb _ es); [apply only_reads_refl|].
  exists [MkEntry path Read]. split; [done|]. by apply Forall_singleton.
Qed.

Lemma fold_only_reads {A} (f : list FileSystemSandboxEntry → A → list FileSystemSandboxEntry) l es :
  (∀ es x, only_reads es (f es x)) → only_reads es (foldl f es l).
Proof.
  intros Hf. revert es. induction l as [|x l IH]; intros es; [apply only_reads_refl|]. simpl. eapply only_reads_trans; [apply Hf|apply IH].
Qed.

Lemma protect_only_reads b es r : only_reads es (protect_default_subpaths b es r).
Proof. apply fold_only_reads. intros es' x. by apply append_only_reads. Qed.

Lemma workspace_write_entries roots xt xs :
  only_reads (workspace_write_grants roots xt xs) (entries (workspace_write roots xt xs)).
Proof.
  unfold workspace_write. simpl entries. eapply only_reads_trans; [|apply fold_only_reads; intros; apply protect_only_reads].
  do 2 (eapply only_reads_trans; [|by apply append_only_reads]). by apply append_only_reads.
Qed.

Lemma protect_roots_only_reads es roots cwd : only_reads es (protect_roots es roots cwd).
Proof.
  unfold protect_roots. destruct (absolute cwd).
  - eapply only_reads_trans; [apply protect_only_reads|apply fold_only_reads; intros; apply protect_only_reads].
  - apply fold_only_reads. intros. apply protect_only_reads.
Qed.

Lemma scan_reads c scan more :
  Forall (λ entry, entry_access entry = Read ∧ entry_path entry ≠ Special Root) more → foldl (scan_legacy_entry c) scan more = scan.
Proof.
  induction 1 as [|[path a] more [Ha Hp] _ IH]; [done|]. simpl in *. subst a. rewrite <-IH at 2. f_equal.
  destruct scan, path as [| |[| |sub| | |]]; simpl; try done. rewrite andb_false_r. by destruct (c ≫= _).
Qed.

Definition elsewhere (cwd : option str) (path : str) : bool :=
  match cwd with Some cwd => negb (path_eq cwd path) | None => true end.

Lemma scan_roots c roots workspace found tmpdir slash_tmp unbridgeable :
  let here := existsb (λ path, negb (elsewhere c path)) roots in
  foldl (scan_legacy_entry c) (MkLegacyScan workspace found tmpdir slash_tmp unbridgeable)
    ((λ path, MkEntry (PathEntry path) Write) <$> roots)
  = MkLegacyScan (workspace || here) (found ++ List.filter (elsewhere c) roots) tmpdir slash_tmp unbridgeable.
Proof.
  revert workspace found. induction roots as [|p roots IH]; intros workspace found; simpl; [by rewrite app_nil_r orb_false_r|].
  destruct c as [c|]; simpl.
  - destruct (path_eq c p); simpl; rewrite IH.
    + by rewrite orb_true_r.
    + by rewrite -app_assoc.
  - by rewrite IH -app_assoc.
Qed.

(** What comes back: roots once, and without the current directory. *)
Definition legacy_normal_form (cwd : str) (policy : SandboxPolicy) : SandboxPolicy :=
  match policy with
  | WorkspaceWrite roots network xt xs =>
      WorkspaceWrite (dedup_absolute_paths (List.filter (elsewhere (absolute cwd)) roots) false) network xt xs
  | _ => policy
  end.

Lemma reads_no_root_write d es more predicate :
  Forall (λ entry, entry_access entry = Read ∧ entry_path entry ≠ Special Root) more →
  has_root_access (MkPolicy Restricted d (es ++ more)) predicate = has_root_access (MkPolicy Restricted d es) predicate.
Proof.
  intros Hm. unfold has_root_access. simpl. rewrite existsb_app. assert (existsb (λ entry : FileSystemSandboxEntry,
    match entry_path entry with Special Root => predicate (entry_access entry) | _ => false end) more = false) as ->; [|by rewrite orb_false_r].
  induction Hm as [|[path a] more [_ Hp] _ IH]; [done|]. simpl in *. rewrite IH orb_false_r. by destruct path as [| |[]].
Qed.

Lemma workspace_to_legacy es roots network xt xs cwd :
  only_reads (workspace_write_grants roots xt xs) es →
  to_legacy_sandbox_policy (restricted es) network cwd
  = Some (WorkspaceWrite (dedup_absolute_paths (List.filter (elsewhere (absolute cwd)) roots) false) (network_is_enabled network) xt xs).
Proof.
  intros (more & -> & Hm). unfold to_legacy_sandbox_policy. simpl policy_kind. cbv iota.
  assert (has_full_disk_write_access (restricted (workspace_write_grants roots xt xs ++ more)) = false) as ->.
  { unfold has_full_disk_write_access. simpl policy_kind. cbv iota. unfold restricted. rewrite reads_no_root_write //.
    assert (has_root_access (MkPolicy Restricted None (workspace_write_grants roots xt xs)) can_write = false) as ->; [|done].
    unfold has_root_access, workspace_write_grants. simpl. rewrite !existsb_app.
    assert (existsb (λ entry : FileSystemSandboxEntry, match entry_path entry with Special Root => can_write (entry_access entry)
      | _ => false end) ((λ path, MkEntry (PathEntry path) Write) <$> roots) = false) as -> by by induction roots.
    by destruct xt, xs. }
  assert (foldl (scan_legacy_entry (absolute cwd)) legacy_scan_start (entries (restricted (workspace_write_grants roots xt xs ++ more)))
    = MkLegacyScan true (List.filter (elsewhere (absolute cwd)) roots) (negb xt) (negb xs) false) as ->.
  { unfold restricted, entries. rewrite foldl_app (scan_reads _ _ more) //. unfold workspace_write_grants. rewrite !foldl_app.
    set (start := foldl _ _ [_; _]). assert (start = MkLegacyScan true [] false false false) as -> by done.
    assert (foldl (scan_legacy_entry (absolute cwd)) (foldl (scan_legacy_entry (absolute cwd)) (MkLegacyScan true [] false false false)
        (if negb xs then [MkEntry (Special SlashTmp) Write] else [])) (if negb xt then [MkEntry (Special Tmpdir) Write] else [])
      = MkLegacyScan true [] (negb xt) (negb xs) false) as -> by by destruct xt, xs.
    by rewrite scan_roots. }
  simpl. by rewrite !negb_involutive.
Qed.

(** A legacy policy that becomes entries, with or without what is protected for the
    current directory, comes back as it was, but for its roots, which come back
    once each and without the current directory. *)
Theorem legacy_policies_come_back policy cwd :
  to_legacy_sandbox_policy (file_system_policy_from policy) (network_policy_from policy) cwd
  = Some (legacy_normal_form cwd policy)
  ∧ to_legacy_sandbox_policy (from_legacy_sandbox_policy_for_cwd policy cwd) (network_policy_from policy) cwd
  = Some (legacy_normal_form cwd policy).
Proof.
  assert (∀ b : bool, network_is_enabled (if b then NetworkEnabled else NetworkRestricted) = b) as Hnet by by intros [].
  destruct policy as [|b|[]|roots b xt xs]; try done.
  - unfold network_policy_from. simpl has_full_network_access. simpl file_system_policy_from.
    unfold from_legacy_sandbox_policy_for_cwd. by destruct b.
  - unfold network_policy_from. simpl has_full_network_access. simpl legacy_normal_form. split.
    + simpl file_system_policy_from. change (workspace_write roots xt xs) with (restricted (entries (workspace_write roots xt xs))).
      rewrite (workspace_to_legacy _ roots _ xt xs) ?Hnet //. apply workspace_write_entries.
    + unfold from_legacy_sandbox_policy_for_cwd. simpl file_system_policy_from. unfold set_entries. simpl policy_kind. simpl glob_scan_max_depth.
      change (MkPolicy Restricted None) with restricted. rewrite (workspace_to_legacy _ roots _ xt xs) ?Hnet //.
      eapply only_reads_trans; [apply workspace_write_entries|apply protect_roots_only_reads].
Qed.
End legacy.

(** ** The metadata of a project *)

Section metadata.
Context {D : Disk} {DL : DiskLaws D}.

Definition metadata_names : list str := map lit [".git"; ".agents"; ".codex"].

Lemma append_new_subpath es name :
  Forall (λ entry, file_system_paths_share_target (entry_path entry) (Special (ProjectRoots (Some name))) = false) es →
  append_default_read_only_project_root_subpath_if_no_explicit_rule es name = es ++ [MkEntry (Special (ProjectRoots (Some name))) Read].
Proof.
  intros Hes. unfold append_default_read_only_project_root_subpath_if_no_explicit_rule, append_default_read_only_entry_if_no_explicit_rule.
  assert (existsb (λ entry, file_system_paths_share_target (entry_path entry) (Special (ProjectRoots (Some name)))) es = false) as ->; [|done].
  induction Hes as [|e es He _ IH]; [done|]. simpl. by rewrite He.
Qed.

Lemma grants_share_no_subpath roots xt xs name :
  Forall (λ entry, file_system_paths_share_target (entry_path entry) (Special (ProjectRoots (Some name))) = false)
    (workspace_write_grants roots xt xs).
Proof.
  unfold workspace_write_grants. repeat apply Forall_app_2; [by repeat constructor|destruct xs; by repeat constructor|destruct xt; by repeat constructor|].
  apply Forall_fmap, Forall_forall. done.
Qed.

Lemma metadata_entry roots xt xs name :
  name ∈ metadata_names → MkEntry (Special (ProjectRoots (Some name))) Read ∈ entries (workspace_write roots xt xs).
Proof.
  intros Hname. unfold workspace_write. unfold restricted, entries. pose proof (grants_share_no_subpath roots xt xs) as Hg.
  rewrite (append_new_subpath _ ".git"); [apply Hg|]. rewrite (append_new_subpath _ ".agents").
  { apply Forall_app_2; [apply Hg|by repeat constructor]. }
  rewrite (append_new_subpath _ ".codex").
  { apply Forall_app_2; [apply Forall_app_2; [apply Hg|]|]; by repeat constructor. }
  match goal with |- _ ∈ foldl ?f ?es ?l => destruct (fold_only_reads f l es) as (more & -> & _) end.
  { intros. apply protect_only_reads. }
  apply elem_of_app. left. unfold metadata_names in Hname. simpl in Hname. rewrite !elem_of_cons elem_of_nil in Hname.
  rewrite !elem_of_app !list_elem_of_singleton. naive_solver.
Qed.

Lemma metadata_components cwd name :
  settled cwd → name ∈ metadata_names → components (resolve_against name cwd) = components cwd ++ [Normal name].
Proof.
  intros Hcwd Hname. destruct (settled_names cwd Hcwd) as (ns & Hns & Hc).
  assert (plain_name name ∧ is_absolute name = false ∧ components name = [Normal name]
          ∧ maybe_expand_home_directory disk_home_dir name = name) as (Hplain & Hrel & Hn & Hex).
  { unfold metadata_names in Hname. simpl in Hname. rewrite !elem_of_cons elem_of_nil in Hname.
    destruct Hname as [->|[->|[->|[]]]]; (split; [repeat split; [done|by vm_compute; set_solver|done..]|]);
      (split_and!; [done..|by destruct disk_home_dir]). }
  unfold resolve_against, resolve_path_against_base. rewrite Hex. unfold absolutize_from, path_with_base. rewrite Hrel.
  pose proof (path_with_base_absolute name cwd (settled_absolute cwd Hcwd)) as Habs. unfold path_with_base in Habs. rewrite Hrel in Habs.
  destruct (normalize_absolute _ Habs) as [_ ->]. rewrite components_join_relative //; [by apply settled_absolute|]. rewrite Hn Hc /=.
  rewrite -(map_app Normal ns [name]). apply norm_components_id. change (Forall plain (map Normal (ns ++ [name]))). apply Forall_fmap.
  eapply Forall_impl; [apply Forall_app_2; [exact Hns|by apply Forall_singleton]|]. done.
Qed.

(** C14. The policy of a writable workspace lets nothing below the metadata directories of
    the current one be written, unless a writable root or a directory for
    temporary files lies in there. *)
Theorem project_metadata_is_protected roots xt xs cwd name path :
  settled cwd → settled path → name ∈ metadata_names →
  components cwd ++ [Normal name] `prefix_of` components path →
  (∀ e, e ∈ resolved_entries_with_cwd (restricted (workspace_write_grants roots xt xs)) cwd → resolved_access e = Write →
     covers path e → ¬ (components cwd ++ [Normal name] `prefix_of` components (resolved_path e))) →
  can_write_path_with_cwd (workspace_write roots xt xs) path cwd = false.
Proof.
  intros Hcwd Hp Hname Hbelow Hroots. set (policy := workspace_write roots xt xs). assert (policy_kind policy = Restricted) as Hk by done.
  apply bool_decide_eq_false. intros Hw. set (dir := components cwd ++ [Normal name]) in *.
  destruct (access_cases policy path cwd Hk Hp) as [(cs & a & Hgr & Hcs & Hout & Ha)|[_ Ha]]; [|congruence].
  rewrite Hw in Ha. subst a.
  assert (grants policy cwd dir Read) as Hdir.
  { exists (MkResolved (resolve_against name cwd) Read). split_and!; [|by apply metadata_components|done].
    apply resolved_entries_elem. exists (MkEntry (Special (ProjectRoots (Some name))) Read).
    split_and!; [by apply metadata_entry| |done]. by rewrite absolute_of_settled. }
  assert (dir `prefix_of` cs) as Hpre.
  { destruct (Hout dir Read Hdir Hbelow) as [Hlt|[-> _]]; [|done]. apply (prefix_chain dir cs (components path)); [done..|lia]. }
  destruct Hgr as (e & (entry & Hin & Hr & Hea)%resolved_entries_elem & <- & He).
  destruct (workspace_write_entries roots xt xs) as (more & Hmore & Hread). unfold policy in Hin. rewrite Hmore elem_of_app in Hin.
  destruct Hin as [Hin|Hin].
  - apply (Hroots e); [|done..]. apply resolved_entries_elem. by exists entry.
  - rewrite Forall_forall in Hread. destruct (Hread entry Hin) as [Hra _]. congruence.
Qed.
End metadata.

(** ** Witnesses *)

#[global] Instance demo_disk_no_links : NoLinks demo_disk.
Proof. split. intros p q Hp. simpl. rewrite Hp. congruence. Defined.

Definition carved_policy : FileSystemSandboxPolicy :=
  restricted [root_entry Read; MkEntry (PathEntry (lit "/work")) Write; MkEntry (PathEntry (lit "/work/out")) Read].
Lemma carved_policy_settled : settled_entries (entries carved_policy).
Proof.
  intros entry q Hin Hq. simpl in Hin. rewrite !elem_of_cons elem_of_nil in Hin.
  destruct Hin as [->|[->|[->|[]]]]; simpl in Hq; try done; injection Hq as <-; [settled_path ["work"]%string|settled_path ["work"; "out"]%string].
Qed.
Lemma demo_work_x : settled (lit "/work/x"). Proof. settled_path ["work"; "x"]%string. Qed.
Lemma demo_git_hooks : settled (lit "/work/.git/hooks"). Proof. settled_path ["work"; ".git"; "hooks"]%string. Qed.

Lemma writable_roots_are_the_writable_paths_witness :
  (∃ R, R ∈ @get_writable_roots_with_cwd demo_disk carved_policy (lit "/work") ∧ is_path_writable R (lit "/work/x") = true)
  ∧ @can_write_path_with_cwd demo_disk carved_policy (lit "/work/x") (lit "/work") = true.
Proof.
  destruct (writable_roots_are_the_writable_paths (D := demo_disk) carved_policy (lit "/work")) as [Hplain _];
    [exact carved_policy_settled|exact demo_work|reflexivity|].
  destruct (Hplain demo_disk_no_links (lit "/work/x") demo_work_x) as [Hsound _].
  assert (MkWritableRoot (lit "/work") [lit "/work/.codex"; lit "/work/out"] ∈ @get_writable_roots_with_cwd demo_disk carved_policy (lit "/work"))
    as Hin.
  { assert (@get_writable_roots_with_cwd demo_disk carved_policy (lit "/work")
      = [MkWritableRoot (lit "/work") [lit "/work/.codex"; lit "/work/out"]]) as -> by (vm_compute; reflexivity).
    apply list_elem_of_singleton. reflexivity. }
  split; [|apply (Hsound _ Hin); vm_compute; reflexivity]. eexists. split; [exact Hin|vm_compute; reflexivity].
Defined.

Lemma project_metadata_is_protected_witness :
  @can_write_path_with_cwd demo_disk (@workspace_write demo_disk [] true true) (lit "/work/.git/hooks") (lit "/work") = false.
Proof.
  apply (project_metadata_is_protected (D := demo_disk) [] true true (lit "/work") (lit ".git") (lit "/work/.git/hooks")).
  - exact demo_work.
  - exact demo_git_hooks.
  - left.
  - exists [Normal (lit "hooks")]. reflexivity.
  - intros e He Hw _. eval_members He. destruct He as [->|[->|[]]]; [discriminate Hw|]. intros [l Hl]. discriminate Hl.
Defined.
