(* ===== verification/PatchApply.v ===== *)
(** Patches, applied: [codex-rs/apply-patch/src/seek_sequence.rs] and [lib.rs].
    The lines of a chunk are looked for in the file, at four levels of
    strictness; the regions found are replaced; the hunks of a patch are
    applied to the file system one after the other. *)
From S2P Require Import Prelude Json Paths Types Host PatchParser AbsolutePath.
#[local] Open Scope nat_scope.

(** ** [seek_sequence.rs] *)

Definition is_dash (c : char) : bool := in_range 8208 8213 c || (c =? 8722)%N.
Definition is_fancy_single_quote (c : char) : bool := in_range 8216 8219 c.
Definition is_fancy_double_quote (c : char) : bool := in_range 8220 8223 c.
Definition is_odd_space (c : char) : bool :=
  (c =? 160)%N || in_range 8194 8202 c || (c =? 8239)%N || (c =? 8287)%N || (c =? 12288)%N.

Definition normalise_char (c : char) : char :=
  if is_dash c then ch_minus
  else if is_fancy_single_quote c then 39%N
  else if is_fancy_double_quote c then 34%N
  else if is_odd_space c then ch_sp
  else c.
Definition normalise (s : str) : str := map normalise_char (trim s).

(** The loop over a pattern, from an index of the lines; the index never leaves
    too few lines. *)
Fixpoint matches_from (same : str → str → bool) (lines pattern : list str) : bool :=
  match pattern, lines with
  | [], _ => true
  | pat :: ps, l :: ls => same l pat && matches_from same ls ps
  | _ :: _, [] => false
  end.
Definition matches_at (same : str → str → bool) (lines pattern : list str) (i : nat) : bool :=
  matches_from same (drop i lines) pattern.

(** [for i in lo..=hi { if .. { return Some(i) } }]. *)
Definition positions (lo hi : nat) : list nat := seq lo (S hi - lo).
Definition first_match (same : str → str → bool) (lines pattern : list str) (lo hi : nat) : option nat :=
  List.find (matches_at same lines pattern) (positions lo hi).

Definition same_exact (l p : str) : bool := l =s? p.
Definition same_rstrip (l p : str) : bool := trim_end l =s? trim_end p.
Definition same_trim (l p : str) : bool := trim l =s? trim p.
Definition same_normalised (l p : str) : bool := normalise l =s? normalise p.

Definition seek_sequence (lines pattern : list str) (start : nat) (eof : bool) : option nat :=
  if is_empty pattern then Some start
  else if length lines <? length pattern then None
  else
    let search_start := if eof && (length pattern <=? length lines) then length lines - length pattern else start in
    let final := length lines - length pattern in
    or_else (first_match same_exact lines pattern search_start final)
      (or_else (first_match same_rstrip lines pattern search_start final)
         (or_else (first_match same_trim lines pattern search_start final)
            (first_match same_normalised lines pattern search_start final))).

(** ** Errors *)

Inductive io_kind : Type := NotFound | InvalidInput | OtherKind.
Record io_error := MkIoError { io_error_kind : io_kind; io_error_text : str }.

Inductive ApplyPatchError : Type :=
| ParseFailed (e : ParseError)
| IoError (context : str) (source : io_error)
| ComputeReplacements (message : str)
| ImplicitInvocation.

Definition show_nat (n : nat) : str := show_N (N.of_nat n).

Definition show_parse_error (e : ParseError) : str :=
  match e with
  | InvalidPatchError m => lit "invalid patch: " ++ m
  | InvalidHunkError m n => lit "invalid hunk at line " ++ show_nat n ++ lit ", " ++ m
  end.
Definition implicit_invocation_message : str :=
  lit "patch detected without explicit call to apply_patch. Rerun as [" ++ [34%N] ++ lit "apply_patch" ++ [34%N]
  ++ lit ", " ++ [34%N] ++ lit "<patch>" ++ [34%N] ++ lit "]".
Definition show_apply_error (e : ApplyPatchError) : str :=
  match e with
  | ParseFailed e => show_parse_error e
  | IoError context source => context ++ lit ": " ++ io_error_text source
  | ComputeReplacements m => m
  | ImplicitInvocation => implicit_invocation_message
  end.
(** [impl From<&std::io::Error> for ApplyPatchError]. *)
Definition apply_error_of_io (e : io_error) : ApplyPatchError := IoError "I/O error" e.

(** ** Replacements *)

(** [(start_index, old_len, new_lines)]. *)
Definition replacement : Type := nat * nat * list str.
Definition replacement_start (r : replacement) : nat := r.1.1.

Definition last_is_empty (l : list str) : bool := match last l with Some x => is_empty x | None => false end.

Definition context_not_found (ctx_line path : str) : ApplyPatchError :=
  ComputeReplacements (lit "Failed to find context '" ++ ctx_line ++ lit "' in " ++ path).
Definition lines_not_found (path : str) (old : list str) : ApplyPatchError :=
  ComputeReplacements (lit "Failed to find expected lines in " ++ path ++ lit ":" ++ [ch_nl] ++ join [ch_nl] old).

(** Where the context of a chunk leaves the index. *)
Definition seek_context (original_lines : list str) (path : str) (chunk : UpdateFileChunk) (line_index : nat)
    : result ApplyPatchError nat :=
  match change_context chunk with
  | Some ctx_line =>
      match seek_sequence original_lines [ctx_line] line_index false with
      | Some idx => Ok (idx + 1)
      | None => Err (context_not_found ctx_line path)
      end
  | None => Ok line_index
  end.

(** The region of a chunk with old lines: where, how long, and its new lines. *)
Definition find_region (original_lines : list str) (chunk : UpdateFileChunk) (line_index : nat)
    : option replacement :=
  let pattern := old_lines chunk in
  let new_slice := new_lines chunk in
  match seek_sequence original_lines pattern line_index (is_end_of_file chunk) with
  | Some start_idx => Some (start_idx, length pattern, new_slice)
  | None =>
      if last_is_empty pattern then
        let pattern := removelast pattern in
        let new_slice := if last_is_empty new_slice then removelast new_slice else new_slice in
        match seek_sequence original_lines pattern line_index (is_end_of_file chunk) with
        | Some start_idx => Some (start_idx, length pattern, new_slice)
        | None => None
        end
      else None
  end.

(** The loop over the chunks. *)
Fixpoint compute_loop (original_lines : list str) (path : str) (chunks : list UpdateFileChunk) (line_index : nat)
    : result ApplyPatchError (list replacement) :=
  match chunks with
  | [] => Ok []
  | chunk :: rest =>
      line_index ← seek_context original_lines path chunk line_index;
      if is_empty (old_lines chunk) then
        let insertion_idx :=
          if last_is_empty original_lines then length original_lines - 1 else length original_lines in
        replacements ← compute_loop original_lines path rest line_index;
        mret ((insertion_idx, 0, new_lines chunk) :: replacements)
      else
        match find_region original_lines chunk line_index with
        | Some (start_idx, old_len, new_slice) =>
            replacements ← compute_loop original_lines path rest (start_idx + old_len);
            mret ((start_idx, old_len, new_slice) :: replacements)
        | None => Err (lines_not_found path (old_lines chunk))
        end
  end.

Definition compute_replacements (original_lines : list str) (path : str) (chunks : list UpdateFileChunk)
    : result ApplyPatchError (list replacement) :=
  replacements ← compute_loop original_lines path chunks 0;
  mret (sort_by (λ a b, replacement_start a <=? replacement_start b) replacements).

(** [Vec::remove] behind its guard, and [Vec::insert], which panics ([None])
    past the end. *)
Definition remove_line (start_idx : nat) (lines : list str) : list str :=
  if start_idx <? length lines then take start_idx lines ++ drop (S start_idx) lines else lines.
Definition insert_line (idx : nat) (new_line : str) (lines : list str) : option (list str) :=
  if idx <=? length lines then Some (take idx lines ++ new_line :: drop idx lines) else None.

Fixpoint remove_lines (start_idx count : nat) (lines : list str) : list str :=
  match count with
  | 0 => lines
  | S k => remove_lines start_idx k (remove_line start_idx lines)
  end.
Fixpoint insert_lines (idx : nat) (segment lines : list str) : option (list str) :=
  match segment with
  | [] => Some lines
  | new_line :: rest => lines ← insert_line idx new_line lines; insert_lines (S idx) rest lines
  end.

Definition apply_replacement (lines : list str) (r : replacement) : option (list str) :=
  let '(start_idx, old_len, new_segment) := r in
  insert_lines start_idx new_segment (remove_lines start_idx old_len lines).

(** The last replacement first. *)
Definition apply_replacements (lines : list str) (replacements : list replacement) : option (list str) :=
  foldl (λ acc r, lines ← acc; apply_replacement lines r) (Some lines) (reverse replacements).

(** ** New contents *)

Record AppliedPatch := MkAppliedPatch { original_contents : str; new_contents : str }.

Definition file_lines (contents : str) : list str :=
  let original_lines := split_on ch_nl contents in
  if last_is_empty original_lines then removelast original_lines else original_lines.
Definition close_lines (new_lines : list str) : str :=
  join [ch_nl] (if last_is_empty new_lines then new_lines else new_lines ++ [[]]).

(** The part of [derive_new_contents_from_chunks] after the file is read. A
    panic of [apply_replacements] would be [None]; there is none. *)
Definition new_contents_of (contents path : str) (chunks : list UpdateFileChunk)
    : result ApplyPatchError (option str) :=
  let original_lines := file_lines contents in
  replacements ← compute_replacements original_lines path chunks;
  mret (close_lines <$> apply_replacements original_lines replacements).

(** ** The file system *)

(** [ExecutorFileSystem] in its sandbox, and the two streams the summary and the
    errors are written to. A write has no effect when it fails. *)
Class ExecutorFileSystem := {
  Fs : Type;
  read_file_text : str → Fs → Fs * result io_error str;
  fs_write_file : str → str → Fs → Fs * result io_error unit;
  create_directory : str → Fs → Fs * result io_error unit;
  metadata_is_directory : str → Fs → Fs * result io_error bool;
  fs_remove : str → Fs → Fs * result io_error unit;
  write_stdout : str → Fs → Fs * result io_error unit;
  write_stderr : str → Fs → Fs * result io_error unit
}.

(** A computation on the file system that may fail; what it did stays done. *)
Definition FsM `{ExecutorFileSystem} (E A : Type) : Type := Fs → Fs * result E A.
#[global] Instance FsM_ret `{ExecutorFileSystem} E : MRet (FsM E) := λ A a s, (s, Ok a).
#[global] Instance FsM_bind `{ExecutorFileSystem} E : MBind (FsM E) := λ A B f m s,
  match m s with (s', Ok a) => f a s' | (s', Err e) => (s', Err e) end.

Section files.
Context `{ExecutorFileSystem}.
Context (home_dir : option str).

Definition fs_err {E A} (e : E) : FsM E A := λ s, (s, Err e).
Definition fs_map_err {E F A} (f : E → F) (m : FsM E A) : FsM F A := λ s, let '(s', r) := m s in (s', map_err f r).
Definition of_res {E A} (r : result E A) : FsM E A := λ s, (s, r).

(** [anyhow::Error]: a message, an error of this crate, or an I/O error under a
    context; only the last can be downcast to an I/O error. *)
Inductive anyhow_error : Type :=
| Bail (message : str)
| FromApply (e : ApplyPatchError)
| WithContext (context : str) (e : io_error).
Definition show_anyhow (e : anyhow_error) : str :=
  match e with Bail m => m | FromApply e => show_apply_error e | WithContext c _ => c end.
Definition downcast_io (e : anyhow_error) : option io_error :=
  match e with WithContext _ e => Some e | _ => None end.

Definition derive_new_contents_from_chunks (path_abs : str) (chunks : list UpdateFileChunk)
    : FsM ApplyPatchError AppliedPatch :=
  original ← fs_map_err (IoError (lit "Failed to read file to update " ++ path_abs)) (read_file_text path_abs);
  new ← of_res (new_contents_of original path_abs chunks);
  mret (MkAppliedPatch original (unwrap_or [] new)).

Definition write_file_failed (path_abs : str) : io_error → anyhow_error :=
  WithContext (lit "Failed to write file " ++ path_abs).

Definition write_file_with_missing_parent_retry (path_abs contents : str) : FsM anyhow_error unit := λ s,
  match fs_write_file path_abs contents s with
  | (s, Ok _) => (s, Ok tt)
  | (s, Err err) =>
      match io_error_kind err with
      | NotFound =>
          (_ ← match path_parent path_abs with
               | Some parent_abs =>
                   fs_map_err (WithContext (lit "Failed to create parent directories for " ++ path_abs))
                     (create_directory parent_abs)
               | None => mret tt
               end;
           fs_map_err (write_file_failed path_abs) (fs_write_file path_abs contents)) s
      | _ => (s, Err (write_file_failed path_abs err))
      end
  end.

(** Removing a file that is no directory. *)
Definition remove_file_at (path_abs : str) : FsM io_error unit :=
  is_directory ← metadata_is_directory path_abs;
  if is_directory : bool then fs_err (MkIoError InvalidInput "path is a directory") else fs_remove path_abs.

Record AffectedPaths := MkAffectedPaths { added : list str; modified : list str; deleted : list str }.
Definition add_added (p : str) (a : AffectedPaths) : AffectedPaths :=
  MkAffectedPaths (added a ++ [p]) (modified a) (deleted a).
Definition add_modified (p : str) (a : AffectedPaths) : AffectedPaths :=
  MkAffectedPaths (added a) (modified a ++ [p]) (deleted a).
Definition add_deleted (p : str) (a : AffectedPaths) : AffectedPaths :=
  MkAffectedPaths (added a) (modified a) (deleted a ++ [p]).

(** [Hunk::resolve_path]: for an update, the path before the move. *)
Definition hunk_resolve_path (cwd : str) (h : Hunk) : str :=
  resolve_path_against_base home_dir (match h with UpdateFile path _ _ => path | _ => hunk_path h end) cwd.

(** The body of the loop over the hunks. *)
Definition apply_hunk (cwd : str) (hunk : Hunk) (affected : AffectedPaths) : FsM anyhow_error AffectedPaths :=
  let affected_path := hunk_path hunk in
  let path_abs := hunk_resolve_path cwd hunk in
  match hunk with
  | AddFile _ contents =>
      _ ← write_file_with_missing_parent_retry path_abs contents;
      mret (add_added affected_path affected)
  | DeleteFile _ =>
      _ ← fs_map_err (WithContext (lit "Failed to delete file " ++ path_abs)) (remove_file_at path_abs);
      mret (add_deleted affected_path affected)
  | UpdateFile _ move_path chunks =>
      applied ← fs_map_err FromApply (derive_new_contents_from_chunks path_abs chunks);
      match move_path with
      | Some dest =>
          _ ← write_file_with_missing_parent_retry (resolve_path_against_base home_dir dest cwd)
                (new_contents applied);
          _ ← fs_map_err (WithContext (lit "Failed to remove original " ++ path_abs)) (remove_file_at path_abs);
          mret (add_modified affected_path affected)
      | None =>
          _ ← fs_map_err (write_file_failed path_abs) (fs_write_file path_abs (new_contents applied));
          mret (add_modified affected_path affected)
      end
  end.

Fixpoint apply_hunks_loop (cwd : str) (hunks : list Hunk) (affected : AffectedPaths)
    : FsM anyhow_error AffectedPaths :=
  match hunks with
  | [] => mret affected
  | hunk :: rest => affected ← apply_hunk cwd hunk affected; apply_hunks_loop cwd rest affected
  end.

Definition apply_hunks_to_files (cwd : str) (hunks : list Hunk) : FsM anyhow_error AffectedPaths :=
  if is_empty hunks then fs_err (Bail "No files were modified.")
  else apply_hunks_loop cwd hunks (MkAffectedPaths [] [] []).

(** [writeln!] *)
Definition line_of (text : str) : str := text ++ [ch_nl].
Fixpoint write_lines (mark : str) (paths : list str) : FsM io_error unit :=
  match paths with
  | [] => mret tt
  | path :: rest => _ ← write_stdout (line_of (mark ++ lit " " ++ path)); write_lines mark rest
  end.
Definition print_summary (affected : AffectedPaths) : FsM io_error unit :=
  _ ← write_stdout (line_of "Success. Updated the following files:");
  _ ← write_lines "A" (added affected);
  _ ← write_lines "M" (modified affected);
  write_lines "D" (deleted affected).

Definition apply_hunks (cwd : str) (hunks : list Hunk) : FsM ApplyPatchError unit := λ s,
  match apply_hunks_to_files cwd hunks s with
  | (s, Ok affected) => fs_map_err apply_error_of_io (print_summary affected) s
  | (s, Err err) =>
      let msg := show_anyhow err in
      (_ ← fs_map_err apply_error_of_io (write_stderr (line_of msg));
       fs_err (match downcast_io err with
               | Some io => apply_error_of_io io
               | None => IoError msg (MkIoError OtherKind msg)
               end)) s
  end.

Definition patch_error_line (e : ParseError) : str :=
  match e with
  | InvalidPatchError m => lit "Invalid patch: " ++ m
  | InvalidHunkError m n => lit "Invalid patch hunk on line " ++ show_nat n ++ lit ": " ++ m
  end.

Definition apply_patch (patch cwd : str) : FsM ApplyPatchError unit :=
  match parse_patch patch with
  | Ok source => apply_hunks cwd (args_hunks source)
  | Err e =>
      _ ← fs_map_err apply_error_of_io (write_stderr (line_of (patch_error_line e)));
      fs_err (ParseFailed e)
  end.
End files.
