(* ===== verification/PatchProofs.v ===== *)
(** The application of patches: what is proved of [PatchApply]. *)
From S2P Require Import Prelude Json Paths Types Host PatchParser AbsolutePath PatchApply.
#[local] Open Scope nat_scope.

#[local] Arguments apply_replacement : simpl never.

(** ** Searching *)

Definition levels : list (str → str → bool) := [same_exact; same_rstrip; same_trim; same_normalised].

Lemma elem_of_positions lo hi i : i ∈ positions lo hi ↔ lo ≤ i ≤ hi.
Proof. unfold positions. rewrite elem_of_seq. lia. Qed.

Lemma first_match_Some same ls p lo hi i :
  first_match same ls p lo hi = Some i →
  lo ≤ i ≤ hi ∧ matches_at same ls p i = true ∧ ∀ j, lo ≤ j < i → matches_at same ls p j = false.
Proof.
  unfold first_match, positions. intros Hf.
  assert (∀ n lo, List.find (matches_at same ls p) (seq lo n) = Some i →
    lo ≤ i < lo + n ∧ matches_at same ls p i = true ∧ ∀ j, lo ≤ j < i → matches_at same ls p j = false) as Hgen.
  { clear Hf lo. induction n as [|n IH]; intros lo; simpl; [done|]. destruct (matches_at same ls p lo) eqn:E.
    - intros [= <-]. split_and!; [lia..|done|]. intros j ?. lia.
    - intros (Hb & Hm & Hall)%IH. split_and!; [lia..|done|]. intros j Hj.
      destruct (decide (j = lo)) as [->|]; [done|]. apply Hall. lia. }
  destruct (Hgen _ _ Hf) as (? & ? & ?). split_and!; [lia..|done|done].
Qed.

Lemma first_match_None same ls p lo hi :
  first_match same ls p lo hi = None → ∀ j, lo ≤ j ≤ hi → matches_at same ls p j = false.
Proof. intros Hf j Hj. eapply List.find_none in Hf; [exact Hf|]. apply list_elem_of_In, elem_of_positions. lia. Qed.

(** The first of the lists of positions that is searched. *)
Definition search_from (ls pattern : list str) (start : nat) (eof : bool) : nat :=
  if eof then length ls - length pattern else start.

(** The result for a pattern: where it is found, and that neither an earlier
    position nor a stricter comparison would have done. *)
Definition found_at (ls pattern : list str) (lo : nat) (r : option nat) : Prop :=
  match r with
  | Some i =>
      lo ≤ i ∧ i + length pattern ≤ length ls ∧
      ∃ strict same loose, levels = strict ++ same :: loose ∧ matches_at same ls pattern i = true
        ∧ (∀ j, lo ≤ j < i → matches_at same ls pattern j = false)
        ∧ (∀ s j, s ∈ strict → lo ≤ j ≤ length ls - length pattern → matches_at s ls pattern j = false)
  | None =>
      length ls < length pattern ∨
      ∀ s j, s ∈ levels → lo ≤ j ≤ length ls - length pattern → matches_at s ls pattern j = false
  end.

Lemma or_else_levels ls p lo hi before rest :
  hi = length ls - length p → length p ≤ length ls → levels = before ++ rest →
  (∀ s j, s ∈ before → lo ≤ j ≤ hi → matches_at s ls p j = false) →
  found_at ls p lo (foldr (λ s acc, or_else (first_match s ls p lo hi) acc) None rest).
Proof.
  intros Hhi Hlen. revert before. induction rest as [|s rest IH]; intros before Hl Hb; simpl.
  - right. intros s j Hs. rewrite app_nil_r in Hl. rewrite Hl in Hs. rewrite -Hhi. by apply Hb.
  - destruct (first_match s ls p lo hi) as [i|] eqn:E; simpl.
    + apply first_match_Some in E as (Hi & Hm & Hj). split_and!; [lia..|]. exists before, s, rest. subst hi.
      by split_and!.
    + apply (IH (before ++ [s])); [by rewrite -app_assoc|]. intros s' j [Hs'|Hs']%elem_of_app Hj.
      * by apply Hb.
      * apply list_elem_of_singleton in Hs' as ->. by eapply first_match_None.
Qed.

Lemma seek_found ls p start eof : p ≠ [] → found_at ls p (search_from ls p start eof) (seek_sequence ls p start eof).
Proof.
  intros Hne. unfold seek_sequence. apply is_empty_false in Hne. rewrite Hne.
  destruct (Nat.ltb_spec (length ls) (length p)) as [|Hlen]; [by left|].
  assert ((if eof && (length p <=? length ls) then length ls - length p else start) = search_from ls p start eof)
    as ->.
  { unfold search_from. destruct eof; [|done]. simpl. apply Nat.leb_le in Hlen. by rewrite Hlen. }
  pose proof (or_else_levels ls p (search_from ls p start eof) (length ls - length p) [] levels eq_refl Hlen eq_refl)
    as Hl. simpl in Hl. destruct (first_match same_normalised _ _ _ _); apply Hl; intros ? ? Hin; by apply elem_of_nil in Hin.
Qed.

Lemma seek_bounds ls p start eof i :
  start ≤ length ls → seek_sequence ls p start eof = Some i → i + length p ≤ length ls.
Proof.
  intros Hs. destruct (decide (p = [])) as [->|Hne]; [intros [= <-]; simpl; lia|].
  intros Hi. pose proof (seek_found ls p start eof Hne) as Hf. rewrite Hi in Hf. apply Hf.
Qed.

Lemma seek_after ls p start i : seek_sequence ls p start false = Some i → start ≤ i.
Proof.
  destruct (decide (p = [])) as [->|Hne]; [intros [= <-]; lia|].
  intros Hi. pose proof (seek_found ls p start false Hne) as Hf. rewrite Hi in Hf. apply Hf.
Qed.

(** The levels are ordered: what matches at one matches at the loosest. *)
Lemma trim_app_ws s q : Forall (λ c, is_whitespace c = true) q → trim (s ++ q) = trim s.
Proof.
  intros Hq. unfold trim, trim_matches, trim_start_matches, trim_end_matches.
  assert (drop_while is_whitespace (s ++ q) = drop_while is_whitespace s ++ q
    ∨ drop_while is_whitespace (s ++ q) = [] ∧ drop_while is_whitespace s = []) as [-> | [-> ->]].
  { induction s as [|c s IH]; simpl.
    - right. split; [by apply drop_while_all|done].
    - destruct (is_whitespace c); [done|]. by left. }
  - rewrite reverse_app. f_equal. assert (∀ a b, Forall (λ c, is_whitespace c = true) a →
      drop_while is_whitespace (a ++ b) = drop_while is_whitespace b) as Hd.
    { intros a b Ha. induction Ha as [|c a Hc _ IH]; simpl; [done|]. by rewrite Hc. }
    apply Hd. by apply Forall_reverse.
  - done.
Qed.

Lemma trim_trim_end s : trim s = trim (trim_end s).
Proof.
  destruct (trim_end_matches_prefix is_whitespace s) as (q & Hq & Hw). rewrite {1}Hq. by apply trim_app_ws.
Qed.

Lemma levels_normalised same l p : same ∈ levels → same l p = true → same_normalised l p = true.
Proof.
  intros Hin. unfold same_normalised, normalise.
  assert (trim l = trim p → (map normalise_char (trim l) =s? map normalise_char (trim p)) = true) as Htrim
    by (intros ->; apply str_eqb_refl).
  unfold levels in Hin. repeat (apply elem_of_cons in Hin as [-> |Hin]).
  - intros ->%str_eqb_eq. apply str_eqb_refl.
  - intros He%str_eqb_eq. apply Htrim. by rewrite (trim_trim_end l) (trim_trim_end p) He.
  - intros He%str_eqb_eq. by apply Htrim.
  - done.
  - by apply elem_of_nil in Hin.
Qed.

Lemma matches_normalised same ls p i :
  same ∈ levels → matches_at same ls p i = true → matches_at same_normalised ls p i = true.
Proof.
  intros Hin. unfold matches_at. generalize (drop i ls) as l. induction p as [|x p IH]; intros [|y l]; simpl; try done.
  intros [Hxy Hr]%andb_prop. rewrite (levels_normalised same y x) //. by apply IH.
Qed.

Lemma seek_matches ls p start eof i :
  seek_sequence ls p start eof = Some i → matches_at same_normalised ls p i = true.
Proof.
  destruct (decide (p = [])) as [->|Hne]; [unfold matches_at; by destruct (drop i ls)|].
  intros Hi. pose proof (seek_found ls p start eof Hne) as Hf. rewrite Hi in Hf.
  destruct Hf as (_ & _ & strict & same & loose & Hl & Hm & _). eapply matches_normalised; [|exact Hm].
  rewrite Hl. set_solver.
Qed.

(** ** Replacing *)

(** The reference: walk the lines once, each region giving way to its lines. *)
Fixpoint splice (pos : nat) (reps : list replacement) (rest : list str) : list str :=
  match reps with
  | [] => rest
  | (s, l, seg) :: reps => take (s - pos) rest ++ seg ++ splice (s + l) reps (drop (s - pos + l) rest)
  end.

(** Regions in order, without overlap, up to [n]. *)
Fixpoint ordered (pos n : nat) (reps : list replacement) : Prop :=
  match reps with
  | [] => pos ≤ n
  | (s, l, _) :: reps => pos ≤ s ∧ ordered (s + l) n reps
  end.

Lemma ordered_pos pos n reps : ordered pos n reps → pos ≤ n.
Proof.
  revert pos. induction reps as [|[[s l] seg] reps IH]; intros pos; simpl; [done|]. intros [? ?%IH]. lia.
Qed.

Lemma remove_line_spec i ls : remove_line i ls = take i ls ++ drop (S i) ls.
Proof.
  unfold remove_line. destruct (Nat.ltb_spec i (length ls)) as [|Hi]; [done|].
  rewrite take_ge ?drop_ge ?app_nil_r //; slia.
Qed.

Lemma remove_lines_spec i n ls : remove_lines i n ls = take i ls ++ drop (i + n) ls.
Proof.
  revert ls. induction n as [|n IH]; intros ls; simpl; [by rewrite Nat.add_0_r take_drop|].
  rewrite IH remove_line_spec. destruct (decide (i ≤ length ls)) as [Hi|Hi].
  - rewrite take_app_le; [rewrite length_take; slia|]. rewrite take_take Nat.min_id. f_equal.
    rewrite drop_app_ge; [rewrite length_take; slia|]. rewrite length_take drop_drop. f_equal. slia.
  - rewrite (take_ge ls); [slia|]. rewrite !(drop_ge ls) ?app_nil_r; [slia..|]. rewrite take_ge ?drop_ge ?app_nil_r //; slia.
Qed.

Lemma insert_lines_spec i seg ls :
  i ≤ length ls → insert_lines i seg ls = Some (take i ls ++ seg ++ drop i ls).
Proof.
  revert i ls. induction seg as [|l seg IH]; intros i ls Hi; simpl; [by rewrite take_drop|].
  unfold insert_line. apply Nat.leb_le in Hi as Hi'. rewrite Hi' /=. rewrite IH.
  - rewrite length_app length_take /= length_drop. slia.
  - f_equal. assert (length (take i ls) = i) as Hl by (rewrite length_take; slia).
    rewrite take_app_ge ?Hl; [slia|]. rewrite drop_app_ge ?Hl; [slia|].
    replace (S i - i) with 1 by lia. simpl. by rewrite -app_assoc take_0 drop_0.
Qed.

Lemma apply_replacement_spec ls s l seg :
  s ≤ length ls → apply_replacement ls (s, l, seg) = Some (take s ls ++ seg ++ drop (s + l) ls).
Proof.
  intros Hs. unfold apply_replacement. assert (length (take s ls) = s) as Hl by (rewrite length_take; slia).
  rewrite remove_lines_spec insert_lines_spec ?length_app ?Hl; [slia|].
  rewrite take_app_le ?Hl // take_take Nat.min_id drop_app_ge ?Hl // Nat.sub_diag drop_0 //.
Qed.

Lemma apply_replacements_cons ls r reps :
  apply_replacements ls (r :: reps) = (lines ← apply_replacements ls reps; apply_replacement lines r).
Proof. unfold apply_replacements. rewrite reverse_cons foldl_app. done. Qed.

Lemma apply_replacements_splice all pos reps :
  ordered pos (length all) reps →
  apply_replacements all reps = Some (take pos all ++ splice pos reps (drop pos all)).
Proof.
  revert pos. induction reps as [|[[s l] seg] reps IH]; intros pos; simpl; [by rewrite take_drop|].
  intros [Hs Hord]. pose proof (ordered_pos _ _ _ Hord) as Hn. rewrite apply_replacements_cons (IH _ Hord) /=.
  assert (length (take (s + l) all) = s + l) as Hl by (rewrite length_take; slia).
  rewrite apply_replacement_spec ?length_app ?Hl; [slia|]. f_equal.
  rewrite take_app_le ?Hl; [slia|]. rewrite drop_app_ge ?Hl // Nat.sub_diag drop_0 take_take Nat.min_l; [lia|].
  assert (take pos all ++ take (s - pos) (drop pos all) = take s all) as Htake.
  { rewrite take_drop_commute. replace (pos + (s - pos)) with s by lia.
    rewrite -{2}(take_drop pos (take s all)) take_take Nat.min_l //. }
  rewrite drop_drop. replace (pos + (s - pos + l)) with (s + l) by lia. by rewrite (app_assoc (take pos all)) Htake.
Qed.

(** Starts in order and in range are enough for the replacement not to panic. *)
Lemma apply_replacements_total all k reps :
  Sorted (λ a b, (replacement_start a <=? replacement_start b) = true) reps →
  Forall (λ r, k ≤ replacement_start r ≤ length all) reps → k ≤ length all →
  ∃ ls, apply_replacements all reps = Some ls ∧ take k ls = take k all.
Proof.
  intros Hsort. revert k. apply Sorted_StronglySorted in Hsort; [|intros ? ? ?; rewrite !Nat.leb_le; lia].
  induction Hsort as [|[[s l] seg] reps _ IH Hall]; intros k Hr Hk; [by exists all|].
  inversion Hr as [|? ? Hs Hr']; subst. unfold replacement_start in Hs. simpl in Hs.
  destruct (IH s) as (ls & Heq & Htake).
  { rewrite !Forall_forall in Hr' Hall |- *. intros r Hin. specialize (Hr' r Hin). specialize (Hall r Hin).
    apply Nat.leb_le in Hall. unfold replacement_start in Hall at 1. simpl in Hall. lia. }
  { lia. }
  rewrite apply_replacements_cons Heq /=.
  assert (s ≤ length ls) as Hlen.
  { apply (f_equal length) in Htake. rewrite !length_take in Htake. slia. }
  rewrite apply_replacement_spec //. eexists. split; [done|].
  rewrite Htake take_app_le; [rewrite length_take; slia|]. rewrite take_take. f_equal. lia.
Qed.

(** ** Computing *)

(** The region a chunk was found at: its old lines, up to the loosest
    comparison, perhaps without the empty line that stands for the end of the
    file. *)
Definition chunk_region (ls : list str) (chunk : UpdateFileChunk) (r : replacement) : Prop :=
  let '(s, l, seg) := r in
  (l = length (old_lines chunk) ∧ seg = new_lines chunk
   ∧ matches_at same_normalised ls (old_lines chunk) s = true)
  ∨ (last (old_lines chunk) = Some [] ∧ l = length (old_lines chunk) - 1
     ∧ seg = (if last_is_empty (new_lines chunk) then removelast (new_lines chunk) else new_lines chunk)
     ∧ matches_at same_normalised ls (removelast (old_lines chunk)) s = true).

Lemma last_is_empty_Some l : last_is_empty l = true ↔ last l = Some [].
Proof. unfold last_is_empty. destruct (last l) as [[|]|]; naive_solver. Qed.

Lemma length_removelast {A} (l : list A) : length (removelast l) = length l - 1.
Proof.
  destruct l as [|x l _] using rev_ind; [done|]. rewrite removelast_last length_app /=. lia.
Qed.

Lemma find_region_spec ls chunk i s l seg :
  i ≤ length ls → find_region ls chunk i = Some (s, l, seg) →
  chunk_region ls chunk (s, l, seg) ∧ s + l ≤ length ls ∧ (is_end_of_file chunk = false → i ≤ s).
Proof.
  intros Hi. unfold find_region.
  destruct (seek_sequence ls (old_lines chunk) i (is_end_of_file chunk)) as [s0|] eqn:Hs.
  - intros [= <- <- <-]. pose proof (seek_bounds _ _ _ _ _ Hi Hs). pose proof (seek_matches _ _ _ _ _ Hs).
    split_and!; [by left|done|]. intros He. rewrite He in Hs. by eapply seek_after.
  - destruct (last_is_empty (old_lines chunk)) eqn:Hl; [|done]. apply last_is_empty_Some in Hl.
    destruct (seek_sequence ls (removelast (old_lines chunk)) i (is_end_of_file chunk)) as [s0|] eqn:Hs'; [|done].
    intros [= <- <- <-]. pose proof (seek_bounds _ _ _ _ _ Hi Hs'). pose proof (seek_matches _ _ _ _ _ Hs').
    split_and!; [right; split_and!; [done|by rewrite length_removelast|done..]|done|].
    intros He. rewrite He in Hs'. by eapply seek_after.
Qed.

Lemma seek_context_spec ls path chunk i j :
  i ≤ length ls → seek_context ls path chunk i = Ok j → i ≤ j ≤ length ls.
Proof.
  intros Hi. unfold seek_context. destruct (change_context chunk) as [ctx|]; [|intros [= <-]; lia].
  destruct (seek_sequence ls [ctx] i false) as [k|] eqn:Hs; [|done]. intros [= <-].
  pose proof (seek_bounds _ _ _ _ _ Hi Hs) as Hb. apply seek_after in Hs. simpl in Hb. lia.
Qed.

Lemma compute_loop_in_range ls path chunks i reps :
  i ≤ length ls → compute_loop ls path chunks i = Ok reps →
  Forall (λ r, replacement_start r ≤ length ls) reps.
Proof.
  revert i reps. induction chunks as [|c chunks IH]; intros i reps Hi; simpl; [by intros [= <-]|].
  destruct (seek_context ls path c i) as [j|] eqn:Hc; [|done]. apply seek_context_spec in Hc; [|done]. simpl.
  case_match.
  - destruct (compute_loop ls path chunks j) as [rs|] eqn:Hr; [|done]. intros [= <-].
    constructor; [|eapply IH; [|exact Hr]; lia]. unfold replacement_start. simpl. case_match; lia.
  - destruct (find_region ls c j) as [[[s l] seg]|] eqn:Hf; [|done].
    apply find_region_spec in Hf as (_ & Hs & _); [|lia].
    destruct (compute_loop ls path chunks (s + l)) as [rs|] eqn:Hr; [|done]. intros [= <-].
    constructor; [unfold replacement_start; simpl; lia|]. by eapply IH.
Qed.

(** Chunks that replace lines and are not tied to the end of the file. *)
Definition in_order (chunk : UpdateFileChunk) : Prop := old_lines chunk ≠ [] ∧ is_end_of_file chunk = false.

Lemma ordered_weaken pos pos' n reps : pos' ≤ pos → ordered pos n reps → ordered pos' n reps.
Proof. destruct reps as [|[[s l] seg] reps]; simpl; [lia|]. intros ? []. split; [lia|done]. Qed.

Lemma compute_loop_ordered ls path chunks i reps :
  i ≤ length ls → Forall in_order chunks → compute_loop ls path chunks i = Ok reps →
  ordered i (length ls) reps ∧ Forall2 (chunk_region ls) chunks reps.
Proof.
  intros Hi Hall. revert i reps Hi. induction Hall as [|c chunks [Hne He] _ IH]; intros i reps Hi; simpl.
  { by intros [= <-]. }
  destruct (seek_context ls path c i) as [j|] eqn:Hc; [|done]. apply seek_context_spec in Hc; [|done]. simpl.
  apply is_empty_false in Hne. rewrite Hne.
  destruct (find_region ls c j) as [[[s l] seg]|] eqn:Hf; [|done].
  apply find_region_spec in Hf as (Hreg & Hs & Hjs); [|lia].
  destruct (compute_loop ls path chunks (s + l)) as [rs|] eqn:Hr; [|done]. intros [= <-].
  destruct (IH (s + l) rs Hs Hr) as [Hord Hf2]. specialize (Hjs He). split; [|by constructor].
  simpl. split; [lia|done].
Qed.

Lemma ordered_sorted pos n reps :
  ordered pos n reps → Sorted (λ a b, (replacement_start a <=? replacement_start b) = true) reps.
Proof.
  revert pos. induction reps as [|[[s l] seg] reps IH]; intros pos; simpl; [constructor|].
  intros [_ Hord]. constructor; [by eapply IH|]. destruct reps as [|[[s' l'] seg'] reps]; [constructor|].
  constructor. unfold replacement_start. simpl. apply Nat.leb_le. simpl in Hord. lia.
Qed.

Lemma sort_by_id {A} (le : A → A → bool) l : Sorted (λ a b, le a b = true) l → sort_by le l = l.
Proof.
  induction 1 as [|x l _ IH Hhd]; [done|]. simpl. rewrite IH.
  destruct Hhd as [|y l Hxy]; [done|]. simpl. by rewrite Hxy.
Qed.

Lemma compute_replacements_total ls path chunks reps :
  compute_replacements ls path chunks = Ok reps → is_Some (apply_replacements ls reps).
Proof.
  unfold compute_replacements. destruct (compute_loop ls path chunks 0) as [rs|] eqn:Hc; [|done]. intros [= <-].
  apply compute_loop_in_range in Hc; [|lia].
  set (le := λ a b : replacement, replacement_start a <=? replacement_start b).
  destruct (apply_replacements_total ls 0 (sort_by le rs)) as (ls' & -> & _); [..|lia|done].
  - apply sort_by_Sorted. intros a b. unfold le. rewrite !Nat.leb_le. lia.
  - rewrite (sort_by_perm le rs). eapply Forall_impl; [exact Hc|]. simpl. lia.
Qed.

Lemma new_contents_total contents path chunks new :
  new_contents_of contents path chunks = Ok new → is_Some new.
Proof.
  unfold new_contents_of. destruct (compute_replacements _ _ _) as [reps|] eqn:Hc; [|done].
  apply compute_replacements_total in Hc as [ls Hls]. unfold mbind, result_bind. rewrite Hls. intros [= <-]. by eexists.
Qed.

(** ** What an update says *)

(** Lines that each end with a newline; the lines of a text, of which the last may
    lack its newline. *)
Definition unlines (ls : list str) : str := l ← ls; l ++ [ch_nl].
Definition lines_of (text : str) (ls : list str) : Prop :=
  Forall (λ l, ch_nl ∉ l) ls ∧ (text = unlines ls ∨ ∃ init l, ls = init ++ [l] ∧ l ≠ [] ∧ text = unlines init ++ l).
Definition drop_blank (ls : list str) : list str := if decide (last ls = Some []) then removelast ls else ls.

(** Where lines are found: where the search starts, when there are none. *)
Definition found (ls pattern : list str) (start : nat) (eof : bool) (i : nat) : Prop :=
  if decide (pattern = []) then i = start else found_at ls pattern (if eof then length ls - length pattern else start) (Some i).
(** After the context of a chunk. *)
Definition after_context (ls : list str) (chunk : UpdateFileChunk) (i j : nat) : Prop :=
  match change_context chunk with
  | None => j = i
  | Some context => ∃ k, found_at ls [context] i (Some k) ∧ j = k + 1
  end.
(** What a chunk replaces: new lines alone go to the end; old lines are those found, and when
    there are none, perhaps those without the blank line at the end. *)
Inductive chunk_place (ls : list str) (chunk : UpdateFileChunk) (i : nat) : replacement → Prop :=
| new_at_end : old_lines chunk = [] → chunk_place ls chunk i (length (drop_blank ls), 0, new_lines chunk)
| old_found s : old_lines chunk ≠ [] → found ls (old_lines chunk) i (is_end_of_file chunk) s →
    chunk_place ls chunk i (s, length (old_lines chunk), new_lines chunk)
| old_without_blank old s : old_lines chunk = old ++ [[]] →
    found_at ls (old_lines chunk) (if is_end_of_file chunk then length ls - length (old_lines chunk) else i) None →
    found ls old i (is_end_of_file chunk) s → chunk_place ls chunk i (s, length old, drop_blank (new_lines chunk)).
(** Each chunk is looked for after the one before it. *)
Inductive places (ls : list str) : nat → list UpdateFileChunk → list replacement → Prop :=
| places_nil i : places ls i [] []
| places_cons i j chunk chunks s l seg reps :
    after_context ls chunk i j → chunk_place ls chunk j (s, l, seg) →
    places ls (if decide (old_lines chunk = []) then j else s + l) chunks reps → places ls i (chunk :: chunks) ((s, l, seg) :: reps).
(** The text after an update: in the order of the places, each gives way to its new
    lines, as far as places do not overlap; all other lines are kept, but for one
    blank line at the end. *)
Definition updated (original : str) (chunks : list UpdateFileChunk) (new : str) : Prop :=
  ∃ ls reps, lines_of original ls ∧ places ls 0 chunks reps ∧
    let sorted := sort_by (λ a b, replacement_start a <=? replacement_start b) reps in
    ordered 0 (length ls) sorted → new = unlines (drop_blank (splice 0 sorted ls)).

Lemma drop_blank_eq ls : drop_blank ls = if last_is_empty ls then removelast ls else ls.
Proof.
  unfold drop_blank. destruct (last_is_empty ls) eqn:He; [rewrite decide_True //; by apply last_is_empty_Some|].
  rewrite decide_False //. intros Hl%last_is_empty_Some. congruence.
Qed.
Lemma join_unlines ls l : join [ch_nl] (ls ++ [l]) = unlines ls ++ l.
Proof.
  induction ls as [|x ls IH]; [done|]. rewrite -app_comm_cons join_cons; [by destruct ls|]. rewrite IH. unfold unlines. cbn. by rewrite -!app_assoc.
Qed.
Lemma file_lines_of contents : lines_of contents (file_lines contents).
Proof.
  unfold file_lines. pose proof (split_on_pieces ch_nl contents) as Hp. pose proof (join_split_on ch_nl contents) as Hj.
  pose proof (split_on_not_nil ch_nl contents) as Hne. destruct (split_on ch_nl contents) as [|l init _] using rev_ind; [done|].
  rewrite join_unlines in Hj. unfold last_is_empty. rewrite last_snoc. destruct l as [|c l]; cbn [is_empty].
  - rewrite removelast_last. rewrite app_nil_r in Hj. apply Forall_app in Hp as [Hp _]. split; [done|by left].
  - split; [done|right]. by exists init, (c :: l).
Qed.
Lemma close_lines_eq ls : close_lines ls = unlines (drop_blank ls).
Proof.
  unfold close_lines. rewrite drop_blank_eq. destruct (last_is_empty ls) eqn:He; [|rewrite join_unlines; by rewrite app_nil_r].
  apply last_is_empty_Some in He. destruct ls as [|l ls _] using rev_ind; [done|]. rewrite last_snoc in He. injection He as ->.
  by rewrite join_unlines removelast_last app_nil_r.
Qed.
Lemma seek_is_found ls p i eof s : seek_sequence ls p i eof = Some s → found ls p i eof s.
Proof.
  intros Hs. unfold found. case_decide as Hp; [subst; by injection Hs|]. pose proof (seek_found ls p i eof Hp) as Hf. by rewrite Hs in Hf.
Qed.
Lemma find_region_place ls chunk i r : old_lines chunk ≠ [] → find_region ls chunk i = Some r → chunk_place ls chunk i r.
Proof.
  intros Hne. unfold find_region. destruct (seek_sequence ls (old_lines chunk) i _) as [s|] eqn:Hs.
  - intros [= <-]. apply old_found; [done|]. by apply seek_is_found.
  - pose proof (seek_found ls (old_lines chunk) i (is_end_of_file chunk) Hne) as Hn. rewrite Hs in Hn.
    destruct (last_is_empty (old_lines chunk)) eqn:Hl; [|done]. apply last_is_empty_Some, last_Some in Hl as (old & Ho).
    rewrite Ho removelast_last. destruct (seek_sequence ls old i _) as [s|] eqn:Hs'; [|done]. intros [= <-]. rewrite -drop_blank_eq.
    eapply old_without_blank; [exact Ho|exact Hn|]. by apply seek_is_found.
Qed.
Lemma compute_loop_places ls path chunks i reps : compute_loop ls path chunks i = Ok reps → places ls i chunks reps.
Proof.
  revert i reps. induction chunks as [|c chunks IH]; intros i reps; cbn [compute_loop]; [intros [= <-]; constructor|].
  destruct (seek_context ls path c i) as [j|] eqn:Hc; [|done]. cbn [mbind result_bind].
  assert (after_context ls c i j) as Hctx.
  { unfold seek_context in Hc. unfold after_context. destruct (change_context c) as [ctx|]; [|by injection Hc].
    destruct (seek_sequence ls [ctx] i false) as [k|] eqn:Hk; [|done]. injection Hc as <-. exists k. split; [|done].
    pose proof (seek_found ls [ctx] i false) as Hf. rewrite Hk in Hf. by apply Hf. }
  destruct (is_empty (old_lines c)) eqn:He.
  - apply is_empty_true in He. destruct (compute_loop ls path chunks j) as [rs|] eqn:Hr; [|done]. intros [= <-].
    econstructor; [exact Hctx| |rewrite decide_True //; by apply IH].
    assert ((if last_is_empty ls then length ls - 1 else length ls) = length (drop_blank ls)) as ->; [|by apply new_at_end].
    rewrite drop_blank_eq. destruct (last_is_empty ls); [by rewrite length_removelast|done].
  - apply is_empty_false in He. destruct (find_region ls c j) as [[[s l] seg]|] eqn:Hf; [|done].
    destruct (compute_loop ls path chunks (s + l)) as [rs|] eqn:Hr; [|done]. intros [= <-].
    econstructor; [exact Hctx|by apply find_region_place|]. rewrite decide_False //. by apply IH.
Qed.
Lemma new_contents_updated contents path chunks new : new_contents_of contents path chunks = Ok (Some new) → updated contents chunks new.
Proof.
  unfold new_contents_of, compute_replacements. destruct (compute_loop (file_lines contents) path chunks 0) as [reps|] eqn:Hc; [|done].
  cbn [mbind result_bind mret result_ret]. intros [= Hn]. exists (file_lines contents), reps. split_and!; [apply file_lines_of|by eapply compute_loop_places|].
  intros sorted Hord. fold sorted in Hn. rewrite (apply_replacements_splice _ 0 _ Hord) drop_0 /= in Hn. injection Hn as <-. by rewrite close_lines_eq.
Qed.

(** ** Properties *)

(** [seek_sequence] finds the first position, at or after the index where the
    search starts, at which the lines match the pattern under the strictest of
    the four comparisons that finds one at all, and nothing when no position
    matches even under the loosest; the match is within the lines. For a pattern
    at the end of the file, the only position tried is the last one. *)
Theorem seek_sequence_strictest_first (lines pattern : list str) (start : nat) (eof : bool) :
  pattern ≠ [] →
  found_at lines pattern (if eof then length lines - length pattern else start)
    (seek_sequence lines pattern start eof).
Proof. apply seek_found. Qed.

(** Replacing the last region first is one pass over the lines in which every
    region gives way to its new lines and all other lines are kept, when the
    regions are in order and do not overlap; and replacing never inserts past
    the end of the lines for the regions any list of chunks is given. *)
Theorem apply_replacements_is_splice :
  (∀ (lines : list str) reps, ordered 0 (length lines) reps → apply_replacements lines reps = Some (splice 0 reps lines))
  ∧ ∀ lines path chunks reps,
      compute_replacements lines path chunks = Ok reps → is_Some (apply_replacements lines reps).
Proof.
  split.
  - intros lines reps Hord. by rewrite (apply_replacements_splice _ 0).
  - exact compute_replacements_total.
Qed.

(** An update whose chunks all replace lines, none tied to the end of the
    file, replaces for every chunk, in the order of the chunks and without
    overlap, a region of the file that matches its old lines by its new lines,
    and keeps all other lines. *)
Theorem update_replaces_the_chunks contents path chunks new :
  Forall in_order chunks → new_contents_of contents path chunks = Ok new →
  ∃ reps, ordered 0 (length (file_lines contents)) reps
    ∧ Forall2 (chunk_region (file_lines contents)) chunks reps
    ∧ new = Some (close_lines (splice 0 reps (file_lines contents))).
Proof.
  intros Hall. unfold new_contents_of, compute_replacements.
  destruct (compute_loop (file_lines contents) path chunks 0) as [reps|] eqn:Hc; [|done].
  apply compute_loop_ordered in Hc as [Hord Hreg]; [|lia|done].
  unfold mret, result_ret, mbind, result_bind. intros [= <-]. exists reps. split_and!; [done..|].
  rewrite sort_by_id; [by eapply ordered_sorted|]. by rewrite (apply_replacements_splice _ 0).
Qed.

(** ** The theorems at concrete inputs *)

Definition demo_lines : list str := ["fn main() {" : str; "  old();  " : str; "}" : str].

Lemma seek_sequence_strictest_first_witness :
  found_at demo_lines ["  old();" : str; "}" : str] 0 (Some 1).
Proof. apply (seek_sequence_strictest_first demo_lines ["  old();" : str; "}" : str] 0 false). discriminate. Defined.

Definition demo_replacements : list replacement := [(0, 1, []); (1, 1, ["x" : str; "y" : str]); (3, 0, ["z" : str])].

Lemma apply_replacements_is_splice_witness :
  apply_replacements demo_lines demo_replacements = Some ["x" : str; "y" : str; "}" : str; "z" : str].
Proof.
  destruct apply_replacements_is_splice as [Hsplice _]. rewrite (Hsplice demo_lines demo_replacements).
  - vm_compute. lia.
  - reflexivity.
Defined.

Definition demo_chunk : UpdateFileChunk :=
  MkUpdateFileChunk (Some ("fn main() {" : str)) ["  old();" : str] ["  new();" : str] false.

Lemma update_replaces_the_chunks_witness :
  ∃ reps, Forall2 (chunk_region demo_lines) [demo_chunk] reps ∧ splice 0 reps demo_lines
    = ["fn main() {" : str; "  new();" : str; "}" : str].
Proof.
  destruct (update_replaces_the_chunks (join [ch_nl] (demo_lines ++ [[]])) "main.rs" [demo_chunk]
    (Some (join [ch_nl] ["fn main() {" : str; "  new();" : str; "}" : str; [] : str])))
    as (reps & Hord & Hreg & Hnew).
  - apply Forall_singleton. split; [discriminate|reflexivity].
  - vm_compute. reflexivity.
  - change (file_lines (join [ch_nl] (demo_lines ++ [[]]))) with demo_lines in *. exists reps. split; [exact Hreg|].
    inversion Hreg as [|? [[s l] seg] ? rest Hr Hrest]; subst. inversion Hrest; subst. destruct Hr as [Hr|Hr].
    + destruct Hr as (-> & -> & Hm). destruct s as [|[|[|s]]]; [discriminate Hm|reflexivity|discriminate Hm|].
      revert Hm. vm_compute. destruct s; discriminate.
    + destruct Hr as (Hl & _). discriminate Hl.
Defined.

(** A blank line at the end of a file does not survive an update elsewhere. *)
Lemma update_drops_a_trailing_blank_line :
  new_contents_of (lit "a" ++ [ch_nl; ch_nl]) "f" [MkUpdateFileChunk None ["a" : str] ["b" : str] false]
  = Ok (Some (lit "b" ++ [ch_nl])).
Proof. reflexivity. Qed.
