(* ===== verification/PatchFiles.v ===== *)
(** Patches and the files they change: the hunks of [PatchApply] against a
    specification on the map from paths to contents. *)
From S2P Require Import Prelude Json Paths Types Host PatchParser AbsolutePath PatchApply PatchProofs.
#[local] Open Scope nat_scope.

(** What an [ExecutorFileSystem] documents, for files that are text: a map from
    absolute paths to contents; an operation touches the file it names, and a
    write or a removal that fails may have damaged that file, but no other. *)
Class FileSystemLaws `{ExecutorFileSystem} := {
  files : Fs → gmap str str;
  law_read p s s' r : read_file_text p s = (s', r) →
    files s' = files s ∧ match r with Ok c => files s !! p = Some c | Err _ => True end;
  law_write p c s s' r : fs_write_file p c s = (s', r) →
    match r with Ok _ => files s' = <[p := c]> (files s) | Err _ => delete p (files s') = delete p (files s) end;
  law_create p s s' r : create_directory p s = (s', r) → files s' = files s;
  law_metadata p s s' r : metadata_is_directory p s = (s', r) → files s' = files s;
  law_remove p s s' r : fs_remove p s = (s', r) →
    match r with Ok _ => files s' = delete p (files s) | Err _ => delete p (files s') = delete p (files s) end
}.

(** ** The specification *)
Section specification.
Context (home_dir : option str).

Definition resolve (cwd path : str) : str := resolve_path_against_base home_dir path cwd.

(** What a hunk says of the files: a file added, removed or updated; an update
    that moves the file leaves it at its destination only, and nowhere when the destination is
    the file itself. *)
Definition hunk_says (cwd : str) (h : Hunk) (m m' : gmap str str) : Prop :=
  match h with
  | AddFile path contents => m' = <[resolve cwd path := contents]> m
  | DeleteFile path => m' = delete (resolve cwd path) m
  | UpdateFile path move_path chunks =>
      ∃ original new, m !! resolve cwd path = Some original ∧ updated original chunks new ∧
        match move_path with
        | None => m' = <[resolve cwd path := new]> m
        | Some dest => if decide (resolve cwd dest = resolve cwd path) then m' = delete (resolve cwd path) m
                       else m' = <[resolve cwd dest := new]> (delete (resolve cwd path) m)
        end
  end.
Fixpoint hunks_say (cwd : str) (hunks : list Hunk) (m m' : gmap str str) : Prop :=
  match hunks with
  | [] => m' = m
  | h :: rest => ∃ m1, hunk_says cwd h m m1 ∧ hunks_say cwd rest m1 m'
  end.

(** What a hunk comes to, computed. *)
Definition hunk_effect (cwd : str) (h : Hunk) (m : gmap str str) : option (gmap str str) :=
  match h with
  | AddFile path contents => Some (<[resolve cwd path := contents]> m)
  | DeleteFile path => Some (delete (resolve cwd path) m)
  | UpdateFile path move_path chunks =>
      original ← m !! resolve cwd path;
      match new_contents_of original (resolve cwd path) chunks with
      | Ok (Some new) =>
          Some (match move_path with
                | Some dest => delete (resolve cwd path) (<[resolve cwd dest := new]> m)
                | None => <[resolve cwd path := new]> m
                end)
      | _ => None
      end
  end.

Fixpoint hunks_effect (cwd : str) (hunks : list Hunk) (m : gmap str str) : option (gmap str str) :=
  match hunks with
  | [] => Some m
  | h :: rest => m ← hunk_effect cwd h m; hunks_effect cwd rest m
  end.

(** The files a hunk names. *)
Definition hunk_paths (cwd : str) (h : Hunk) : list str :=
  match h with
  | AddFile path _ | DeleteFile path | UpdateFile path None _ => [resolve cwd path]
  | UpdateFile path (Some dest) _ => [resolve cwd path; resolve cwd dest]
  end.
Definition same_outside (paths : list str) (m m' : gmap str str) : Prop :=
  ∀ p, p ∉ paths → m' !! p = m !! p.

Definition report (a : AffectedPaths) (h : Hunk) : AffectedPaths :=
  match h with
  | AddFile path _ => add_added path a
  | DeleteFile path => add_deleted path a
  | UpdateFile path move_path _ => add_modified (match move_path with Some dest => dest | None => path end) a
  end.

Lemma hunk_effect_says cwd h m m' : hunk_effect cwd h m = Some m' → hunk_says cwd h m m'.
Proof.
  destruct h as [path contents|path|path move_path chunks]; cbn [hunk_effect hunk_says]; [by intros [= <-]..|].
  intros (original & Ho & He)%bind_Some. destruct (new_contents_of _ _ _) as [[new|]|] eqn:Hn; [|done..].
  exists original, new. split; [done|]. split; [by eapply new_contents_updated|]. destruct move_path as [dest|]; [|by injection He as <-].
  injection He as <-. case_decide as Hd; [by rewrite Hd delete_insert_eq|]. by rewrite delete_insert_ne.
Qed.
Lemma hunks_effect_say cwd hunks m m' : hunks_effect cwd hunks m = Some m' → hunks_say cwd hunks m m'.
Proof.
  revert m. induction hunks as [|h hunks IH]; intros m; cbn [hunks_effect hunks_say]; [by intros [= <-]|].
  intros (m1 & Hh%hunk_effect_says & Hr%IH)%bind_Some. by exists m1.
Qed.
End specification.

(** ** Lemmas *)

Section lemmas.
Context `{FileSystemLaws}.
Context (home_dir : option str).

(** A write of [c] to [p], a removal of [p]: done, or failed at that file. *)
Definition wrote {A} (p c : str) (s s' : Fs) (r : result A unit) : Prop :=
  match r with Ok _ => files s' = <[p := c]> (files s) | Err _ => same_outside [p] (files s) (files s') end.
Definition removed {A} (p : str) (s s' : Fs) (r : result A unit) : Prop :=
  match r with Ok _ => files s' = delete p (files s) | Err _ => same_outside [p] (files s) (files s') end.

Lemma delete_same p (m m' : gmap str str) : delete p m' = delete p m → same_outside [p] m m'.
Proof.
  intros Heq q Hq. apply (f_equal (lookup q)) in Heq. rewrite !lookup_delete_ne // in Heq; set_solver.
Qed.

Lemma write_spec p c s s' r : fs_write_file p c s = (s', r) → wrote p c s s' r.
Proof. intros Hw%law_write. destruct r; [done|]. by apply delete_same. Qed.
Lemma remove_spec p s s' r : fs_remove p s = (s', r) → removed p s s' r.
Proof. intros Hw%law_remove. destruct r; [done|]. by apply delete_same. Qed.

Lemma wrote_after {A} p c s s1 s' (r : result A unit) :
  same_outside [p] (files s) (files s1) → wrote p c s1 s' r → wrote p c s s' r.
Proof.
  intros Hs Hw. destruct r; simpl in *.
  - rewrite Hw. apply map_eq. intros q. destruct (decide (q = p)) as [->|Hne]; [by rewrite !lookup_insert_eq|].
    rewrite !lookup_insert_ne //. apply Hs. set_solver.
  - intros q Hq. by rewrite Hw // Hs.
Qed.

Lemma wrote_map_err {A B} (f : A → B) p c s s' r : wrote p c s s' r → wrote p c s s' (map_err f r).
Proof. by destruct r. Qed.

Lemma write_retry_spec p c s s' r :
  write_file_with_missing_parent_retry p c s = (s', r) → wrote p c s s' r.
Proof.
  unfold write_file_with_missing_parent_retry.
  destruct (fs_write_file p c s) as [s1 [[]|err]] eqn:Hw; apply write_spec in Hw; simpl in Hw.
  { by intros [= <- <-]. }
  destruct (io_error_kind err); [|by intros [= <- <-]..].
  assert (∀ s2, files s2 = files s1 →
    fs_map_err (write_file_failed p) (fs_write_file p c) s2 = (s', r) → wrote p c s s' r) as Hagain.
  { intros s2 Hs2. unfold fs_map_err. destruct (fs_write_file p c s2) as [s3 r3] eqn:Hw2.
    apply write_spec in Hw2. intros [= <- <-]. apply wrote_map_err. eapply wrote_after; [|exact Hw2].
    by rewrite Hs2. }
  unfold mbind, FsM_bind. destruct (path_parent p) as [parent|]; [|by apply Hagain].
  unfold fs_map_err at 1. destruct (create_directory parent s1) as [s2 r2] eqn:Hc. apply law_create in Hc.
  destruct r2 as [|e]; simpl; [by apply Hagain|]. intros [= <- <-]. simpl. by rewrite Hc.
Qed.

Lemma remove_file_spec p s s' r : remove_file_at p s = (s', r) → removed p s s' r.
Proof.
  unfold remove_file_at, mbind, FsM_bind.
  destruct (metadata_is_directory p s) as [s1 [d|e]] eqn:Hm; apply law_metadata in Hm;
    [|intros [= <- <-]; intros q _; by rewrite Hm].
  destruct d; [intros [= <- <-]; intros q _; by rewrite Hm|].
  intros Hr. apply remove_spec in Hr. unfold removed in *. by rewrite Hm in Hr.
Qed.

Lemma derive_spec path chunks s s' r :
  derive_new_contents_from_chunks path chunks s = (s', r) →
  files s' = files s ∧
  match r with
  | Ok applied => ∃ original, files s !! path = Some original
      ∧ new_contents_of original path chunks = Ok (Some (new_contents applied))
  | Err _ => True
  end.
Proof.
  unfold derive_new_contents_from_chunks, mbind, FsM_bind, fs_map_err, of_res.
  destruct (read_file_text path s) as [s1 [c|e]] eqn:Hr; apply law_read in Hr as [Hf Hc]; simpl;
    [|by intros [= <- <-]].
  destruct (new_contents_of c path chunks) as [new|e] eqn:Hn; simpl; intros [= <- <-]; [|done].
  split; [done|]. exists c. split; [done|]. destruct (new_contents_total _ _ _ _ Hn) as [n ->]. done.
Qed.

(** What applying a hunk comes to. *)
Definition hunk_applied (cwd : str) (h : Hunk) (a : AffectedPaths) (s s' : Fs) (r : result anyhow_error AffectedPaths)
    : Prop :=
  match r with
  | Ok a' => hunk_effect home_dir cwd h (files s) = Some (files s') ∧ a' = report a h
  | Err _ => same_outside (hunk_paths home_dir cwd h) (files s) (files s')
  end.

Lemma apply_hunk_spec cwd h a s s' r :
  apply_hunk home_dir cwd h a s = (s', r) → hunk_applied cwd h a s s' r.
Proof.
  destruct h as [path contents|path|path mp chunks]; unfold apply_hunk, mbind, FsM_bind, fs_map_err; simpl.
  - destruct (write_file_with_missing_parent_retry _ _ s) as [s1 [[]|e]] eqn:Hw; apply write_retry_spec in Hw;
      intros [= <- <-]; [|exact Hw]. split; [|done]. simpl in *. by rewrite Hw.
  - destruct (remove_file_at _ s) as [s1 [[]|e]] eqn:Hr; apply remove_file_spec in Hr;
      intros [= <- <-]; [|exact Hr]. split; [|done]. simpl in *. by rewrite Hr.
  - destruct (derive_new_contents_from_chunks _ chunks s) as [s1 [applied|e]] eqn:Hd; apply derive_spec in Hd as [Hf Ho];
      simpl; [|intros [= <- <-]; intros p _; by rewrite Hf].
    destruct Ho as (original & Horig & Hnew). unfold hunk_applied, hunk_effect.
    change (resolve home_dir cwd path) with (hunk_resolve_path home_dir cwd (UpdateFile path mp chunks)).
    rewrite Horig. unfold mbind, option_bind. rewrite Hnew.
    destruct mp as [dest|].
    + destruct (write_file_with_missing_parent_retry _ _ s1) as [s2 [[]|e]] eqn:Hw; apply write_retry_spec in Hw;
        simpl in Hw.
      * destruct (remove_file_at _ s2) as [s3 [[]|e]] eqn:Hr; apply remove_file_spec in Hr; simpl in Hr;
          intros [= <- <-]; simpl.
        -- split; [|done]. by rewrite Hr Hw Hf.
        -- intros p Hp. rewrite Hr; [set_solver|]. rewrite Hw Hf lookup_insert_ne //. set_solver.
      * intros [= <- <-]. simpl. intros p Hp. rewrite Hw ?Hf //. set_solver.
    + destruct (fs_write_file _ _ s1) as [s2 [[]|e]] eqn:Hw; apply write_spec in Hw; simpl in Hw;
        intros [= <- <-]; simpl.
      * split; [|done]. by rewrite Hw Hf.
      * intros p Hp. by rewrite Hw // Hf.
Qed.

Lemma apply_hunks_loop_spec cwd hunks a s s' r :
  apply_hunks_loop home_dir cwd hunks a s = (s', r) →
  match r with
  | Ok a' => hunks_effect home_dir cwd hunks (files s) = Some (files s') ∧ a' = foldl report a hunks
  | Err _ => ∃ done h rest m, hunks = done ++ h :: rest ∧ hunks_effect home_dir cwd done (files s) = Some m
      ∧ same_outside (hunk_paths home_dir cwd h) m (files s')
  end.
Proof.
  revert a s. induction hunks as [|h hunks IH]; intros a s; simpl; [by intros [= <- <-]|].
  unfold mbind, FsM_bind. destruct (apply_hunk home_dir cwd h a s) as [s1 [a1|e]] eqn:Hh; apply apply_hunk_spec in Hh.
  - destruct Hh as [He ->]. intros Hr%IH. destruct r as [a'|e].
    + destruct Hr as [Hr ->]. split; [|done]. unfold mbind, option_bind. by rewrite He.
    + destruct Hr as (pre & h' & rest & m & -> & Hd & Hs). exists (h :: pre), h', rest, m. split_and!; [done| |done].
      simpl. unfold mbind, option_bind. by rewrite He.
  - intros [= <- <-]. exists [], h, hunks, (files s). by split_and!.
Qed.
End lemmas.

(** ** Properties *)

Section properties.
Context `{FileSystemLaws}.

(** C31. Applying hunks does to the files what the hunks say, in order, and reports
    the affected paths as the patch spells them. An update says that in the lines of
    the file each chunk, looked for after the one before, gives its new lines for
    the old lines found (the first under the strictest of the comparisons that
    finds any), as far as these do not overlap, and that all other lines are kept, but for one blank line at
    the end of the file; a move takes the file to its destination, and a move of a file to itself removes it.
    When it fails, it fails at one
    hunk: the hunks before it are applied, those after it are not, and only
    files the failing hunk names can be different otherwise. *)
Theorem apply_hunks_to_files_effect home_dir cwd hunks s s' r :
  apply_hunks_to_files home_dir cwd hunks s = (s', r) →
  match r with
  | Ok affected =>
      hunks ≠ [] ∧ hunks_say home_dir cwd hunks (files s) (files s')
      ∧ affected = foldl report (MkAffectedPaths [] [] []) hunks
  | Err _ =>
      (hunks = [] ∧ s' = s)
      ∨ ∃ before h after m, hunks = before ++ h :: after ∧ hunks_say home_dir cwd before (files s) m
          ∧ same_outside (hunk_paths home_dir cwd h) m (files s')
  end.
Proof.
  unfold apply_hunks_to_files. destruct hunks as [|h hunks]; simpl is_empty; cbv iota.
  - intros [= <- <-]. by left.
  - intros Hl%apply_hunks_loop_spec. destruct r as [affected|e].
    + destruct Hl as [Hl ->]. split_and!; [done|by apply hunks_effect_say|done].
    + right. destruct Hl as (before & h' & after & m & Hh & Hl & Hs). exists before, h', after, m. split_and!; [done|by apply hunks_effect_say|done].
Qed.

(** An update that moves a file to the path it has loses the file: the new
    contents are written to the destination, and the destination is then removed
    as the original; the patch is reported as applied. *)
Theorem move_to_itself_loses_the_file home_dir cwd path dest chunks s s' affected :
  resolve home_dir cwd dest = resolve home_dir cwd path →
  apply_hunks_to_files home_dir cwd [UpdateFile path (Some dest) chunks] s = (s', Ok affected) →
  is_Some (files s !! resolve home_dir cwd path) ∧ files s' !! resolve home_dir cwd path = None
  ∧ affected = MkAffectedPaths [] [dest] [].
Proof.
  intros Hdest Ha. change (apply_hunks_loop home_dir cwd [UpdateFile path (Some dest) chunks]
    (MkAffectedPaths [] [] []) s = (s', Ok affected)) in Ha.
  apply apply_hunks_loop_spec in Ha as [He ->]. simpl in He.
  destruct (files s !! resolve home_dir cwd path) as [original|]; [|done]. simpl in He.
  destruct (new_contents_of _ _ _) as [[new|]|]; [|done..]. simpl in He. injection He as <-.
  split_and!; [done| |done]. by rewrite lookup_delete_eq.
Qed.
End properties.

(** ** The theorems at a concrete file system *)

Definition not_found : io_error := MkIoError NotFound "No such file or directory (os error 2)".

(** Files only, none of them a directory; parents exist. *)
Definition demo_fs : ExecutorFileSystem := {|
  Fs := gmap str str;
  read_file_text := λ p m, (m, ok_or not_found (m !! p));
  fs_write_file := λ p c m, (<[p := c]> m, Ok tt);
  create_directory := λ _ m, (m, Ok tt);
  metadata_is_directory := λ p m, (m, match m !! p with Some _ => Ok false | None => Err not_found end);
  fs_remove := λ p m, (delete p m, Ok tt);
  write_stdout := λ _ m, (m, Ok tt);
  write_stderr := λ _ m, (m, Ok tt)
|}.

#[local] Instance demo_fs_laws : @FileSystemLaws demo_fs.
Proof.
  refine (@Build_FileSystemLaws demo_fs (λ m, m) _ _ _ _ _).
  - intros p s s' r [= <- <-]. split; [done|]. cbn. destruct (@lookup str str (gmap str str) _ p s) eqn:E; [reflexivity|exact I].
  - by intros p c s s' r [= <- <-].
  - by intros p s s' r [= <- <-].
  - by intros p s s' r [= <- <-].
  - by intros p s s' r [= <- <-].
Defined.

Definition demo_update (dest : option str) : Hunk :=
  UpdateFile "a.txt" dest [MkUpdateFileChunk None ["old" : str] ["new" : str] false].
Definition demo_files : gmap str str := {["/repo/a.txt" : str := lit "old" ++ [ch_nl]]}.

Lemma apply_hunks_to_files_effect_witness :
  apply_hunks_to_files (H := demo_fs) None "/repo" [demo_update None; AddFile "b.txt" []] demo_files
    = (<["/repo/b.txt" : str := []]> {["/repo/a.txt" : str := lit "new" ++ [ch_nl]]}, Ok (MkAffectedPaths ["b.txt" : str] ["a.txt" : str] []))
  ∧ hunks_say None "/repo" [demo_update None; AddFile "b.txt" []] demo_files (<["/repo/b.txt" : str := []]> {["/repo/a.txt" : str := lit "new" ++ [ch_nl]]}).
Proof.
  assert (apply_hunks_to_files (H := demo_fs) None "/repo" [demo_update None; AddFile "b.txt" []] demo_files
    = (<["/repo/b.txt" : str := []]> {["/repo/a.txt" : str := lit "new" ++ [ch_nl]]}, Ok (MkAffectedPaths ["b.txt" : str] ["a.txt" : str] []))) as Ha
    by (vm_compute; reflexivity).
  split; [exact Ha|].
  destruct (@apply_hunks_to_files_effect demo_fs demo_fs_laws None "/repo" [demo_update None; AddFile "b.txt" []] demo_files _ _ Ha) as (_ & He & _).
  exact He.
Defined.

Lemma move_to_itself_loses_the_file_witness :
  (apply_hunks_to_files (H := demo_fs) None "/repo" [demo_update (Some ("./a.txt" : str))] demo_files).1
    !! ("/repo/a.txt" : str) = None.
Proof.
  destruct (@move_to_itself_loses_the_file demo_fs demo_fs_laws None "/repo" "a.txt" "./a.txt"
    [MkUpdateFileChunk None ["old" : str] ["new" : str] false] demo_files
    (apply_hunks_to_files (H := demo_fs) None "/repo" [demo_update (Some ("./a.txt" : str))] demo_files).1
    (MkAffectedPaths [] ["./a.txt" : str] [])) as (_ & Hlost & _).
  - vm_compute. reflexivity.
  - vm_compute. reflexivity.
  - exact Hlost.
Defined.
