(* ===== verification/PatchInvocation.v ===== *)
(** Patches in commands: [codex-rs/apply-patch/src/invocation.rs]. A command that
    calls [apply_patch], by itself or in a script, becomes the changes it would
    make, which are shown to the user and judged before anything is applied.
    The query that finds the call in a script is tree-sitter's, and the unified
    diff is that of the similar crate: both are parameters. *)
From S2P Require Import Prelude Json Paths Types Host PatchParser AbsolutePath PatchApply PatchProofs PatchFiles.
#[local] Open Scope nat_scope.

Definition APPLY_PATCH_COMMANDS : list str := map lit ["apply_patch"; "applypatch"].

Inductive ApplyPatchShell : Type := UnixShell | PowerShell | Cmd.

Inductive ExtractHeredocError : Type :=
| CommandDidNotStartWithApplyPatch
| FailedToLoadBashGrammar (error : str)
| FailedToParsePatchIntoAst.

Inductive MaybeApplyPatch : Type :=
| Body (args : ApplyPatchArgs)
| ShellParseError (error : ExtractHeredocError)
| PatchParseError (error : ParseError)
| NotApplyPatch.

Inductive ApplyPatchFileChange : Type :=
| AddChange (content : str)
| DeleteChange (content : str)
| UpdateChange (unified_diff : str) (change_move_path : option str) (new_content : str).

Record ApplyPatchAction := MkAction { changes : gmap str ApplyPatchFileChange; action_patch : str; action_cwd : str }.
Definition action_is_empty (self : ApplyPatchAction) : bool := bool_decide (changes self = ∅).

Inductive MaybeApplyPatchVerified : Type :=
| VerifiedBody (action : ApplyPatchAction)
| VerifiedShellParseError (error : ExtractHeredocError)
| CorrectnessError (error : ApplyPatchError)
| VerifiedNotApplyPatch.

(** The matches of the query in a script, each a list of captures: their names and
    the texts of their nodes; and the diff of two texts with lines of context. *)
Class PatchTools := {
  apply_patch_matches : str → result ExtractHeredocError (list (list (str * str)));
  text_unified_diff : str → str → nat → str
}.

Definition classify_shell_name (shell : str) : option str := to_ascii_lowercase <$> file_stem shell.
Definition is_powershell (name : str) : bool := (name =s? "pwsh") || (name =s? "powershell").

Definition classify_shell (shell flag : str) : option ApplyPatchShell :=
  name ← classify_shell_name shell;
  if ((name =s? "bash") || (name =s? "zsh") || (name =s? "sh")) && ((flag =s? "-lc") || (flag =s? "-c")) then Some UnixShell
  else if is_powershell name && eq_ignore_ascii_case flag "-command" then Some PowerShell
  else if (name =s? "cmd") && eq_ignore_ascii_case flag "/c" then Some Cmd
  else None.

Definition can_skip_flag (shell flag : str) : bool :=
  match classify_shell_name shell with
  | Some name => is_powershell name && eq_ignore_ascii_case flag "-noprofile"
  | None => false
  end.

Definition parse_shell_script (argv : list str) : option (ApplyPatchShell * str) :=
  match argv with
  | [shell; flag; script] => (λ shell_type, (shell_type, script)) <$> classify_shell shell flag
  | [shell; skip_flag; flag; script] =>
      if can_skip_flag shell skip_flag then (λ shell_type, (shell_type, script)) <$> classify_shell shell flag else None
  | _ => None
  end.

(** The captures of one match: the body of the here document, and the directory. *)
Definition take_capture (acc : option str * option str) (capture : str * str) : option str * option str :=
  let '(heredoc_text, cd_path) := acc in
  let '(name, text) := capture in
  if name =s? "heredoc" then (Some (trim_end_matches (N.eqb ch_nl) text), cd_path)
  else if name =s? "cd_path" then (heredoc_text, Some text)
  else if name =s? "cd_raw_string" then
    (heredoc_text, Some (unwrap_or text (s ← strip_prefix "'" text; strip_suffix "'" s)))
  else acc.

Fixpoint first_heredoc (matches : list (list (str * str))) : result ExtractHeredocError (str * option str) :=
  match matches with
  | [] => Err CommandDidNotStartWithApplyPatch
  | captures :: rest =>
      match foldl take_capture (None, None) captures with
      | (Some heredoc, cd_path) => Ok (heredoc, cd_path)
      | (None, _) => first_heredoc rest
      end
  end.

Section invocation.
Context {PT : PatchTools}.

Definition extract_apply_patch_from_bash (src : str) : result ExtractHeredocError (str * option str) :=
  matches ← apply_patch_matches src; first_heredoc matches.
Definition extract_apply_patch_from_shell (shell : ApplyPatchShell) (script : str) : result ExtractHeredocError (str * option str) :=
  match shell with UnixShell | PowerShell | Cmd => extract_apply_patch_from_bash script end.

Definition maybe_parse_apply_patch (argv : list str) : MaybeApplyPatch :=
  let from_script :=
    match parse_shell_script argv with
    | Some (shell, script) =>
        match extract_apply_patch_from_shell shell script with
        | Ok (body, workdir) =>
            match parse_patch body with
            | Ok source => Body (MkApplyPatchArgs (args_patch source) (args_hunks source) workdir)
            | Err e => PatchParseError e
            end
        | Err CommandDidNotStartWithApplyPatch => NotApplyPatch
        | Err e => ShellParseError e
        end
    | None => NotApplyPatch
    end in
  match argv with
  | [cmd; body] =>
      if existsb (str_eqb cmd) APPLY_PATCH_COMMANDS then
        match parse_patch body with Ok source => Body source | Err e => PatchParseError e end
      else from_script
  | _ => from_script
  end.

Context `{ExecutorFileSystem} (home_dir : option str).

(** The file of [ApplyPatchFileUpdate]: the diff and the new contents. *)
Definition unified_diff_from_chunks_with_context (path_abs : str) (chunks : list UpdateFileChunk) (context : nat) :
    FsM ApplyPatchError (str * str) :=
  applied ← derive_new_contents_from_chunks path_abs chunks;
  mret (text_unified_diff (original_contents applied) (new_contents applied) context, new_contents applied).
Definition unified_diff_from_chunks (path_abs : str) (chunks : list UpdateFileChunk) : FsM ApplyPatchError (str * str) :=
  unified_diff_from_chunks_with_context path_abs chunks 1.

(** The body of the loop over hunks. A later hunk for a path replaces an earlier one. *)
Definition add_change (effective_cwd : str) (changes : gmap str ApplyPatchFileChange) (hunk : Hunk) :
    FsM ApplyPatchError (gmap str ApplyPatchFileChange) :=
  let path := hunk_resolve_path home_dir effective_cwd hunk in
  match hunk with
  | AddFile _ contents => mret (<[path := AddChange contents]> changes)
  | DeleteFile _ =>
      content ← fs_map_err (IoError (lit "Failed to read " ++ path)) (read_file_text path);
      mret (<[path := DeleteChange content]> changes)
  | UpdateFile _ move_path chunks =>
      '(unified_diff, contents) ← unified_diff_from_chunks path chunks;
      mret (<[path := UpdateChange unified_diff (resolve home_dir effective_cwd <$> move_path) contents]> changes)
  end.
Fixpoint add_changes (effective_cwd : str) (changes : gmap str ApplyPatchFileChange) (hunks : list Hunk) :
    FsM ApplyPatchError (gmap str ApplyPatchFileChange) :=
  match hunks with
  | [] => mret changes
  | hunk :: rest => changes ← add_change effective_cwd changes hunk; add_changes effective_cwd changes rest
  end.

Definition is_bare_patch (argv : list str) : bool :=
  match argv with [body] => is_ok (parse_patch body) | _ => false end
  || match parse_shell_script argv with Some (_, script) => is_ok (parse_patch script) | None => false end.

(** The directory the patch is for. *)
Definition effective_cwd_of (cwd : str) (args : ApplyPatchArgs) : str :=
  match args_workdir args with Some dir => absolute_join home_dir cwd dir | None => cwd end.

Definition maybe_parse_apply_patch_verified (argv : list str) (cwd : str) (s : Fs) : Fs * MaybeApplyPatchVerified :=
  if is_bare_patch argv then (s, CorrectnessError ImplicitInvocation)
  else
    match maybe_parse_apply_patch argv with
    | Body args =>
        let effective_cwd := effective_cwd_of cwd args in
        match add_changes effective_cwd ∅ (args_hunks args) s with
        | (s, Ok changes) => (s, VerifiedBody (MkAction changes (args_patch args) effective_cwd))
        | (s, Err e) => (s, CorrectnessError e)
        end
    | ShellParseError e => (s, VerifiedShellParseError e)
    | PatchParseError e => (s, CorrectnessError (ParseFailed e))
    | NotApplyPatch => (s, VerifiedNotApplyPatch)
    end.
End invocation.

(** ** What is shown and what is done *)

Section shown.
Context {PT : PatchTools} `{FileSystemLaws} (home_dir : option str).

(** Files as a change shows them: what is removed or replaced was there, and what is
    added or written is there. *)
Definition made (path : str) (c : ApplyPatchFileChange) (before after : gmap str str) : Prop :=
  match c with
  | AddChange content => after !! path = Some content
  | DeleteChange content => before !! path = Some content ∧ after !! path = None
  | UpdateChange diff move_path new_content =>
      (∃ original, before !! path = Some original ∧ diff = text_unified_diff original new_content 1)
      ∧ match move_path with
        | None => after !! path = Some new_content
        | Some dest => after !! path = None ∧ after !! dest = Some new_content
        end
  end.

Definition all_paths (cwd : str) (hunks : list Hunk) : list str := hunks ≫= hunk_paths home_dir cwd.

Lemma derive_original path chunks s s' applied : derive_new_contents_from_chunks path chunks s = (s', Ok applied) →
  files s !! path = Some (original_contents applied).
Proof.
  unfold derive_new_contents_from_chunks, mbind, FsM_bind, fs_map_err, of_res. destruct (read_file_text path s) as [s1 [c|e]] eqn:Hr; [|done].
  apply law_read in Hr as [_ Hc]. cbn. destruct (new_contents_of c path chunks) as [new|e] eqn:Hn; [|done]. cbn.
  intros [= _ <-]. exact Hc.
Qed.

(** One hunk: the change it is shown as is what it does to files that are still as
    they were for the paths it names. *)
Lemma add_change_spec cwd acc h s s' ch m :
  add_change home_dir cwd acc h s = (s', Ok ch) → NoDup (hunk_paths home_dir cwd h) →
  (∀ p, p ∈ hunk_paths home_dir cwd h → m !! p = files s !! p) →
  files s' = files s
  ∧ ∃ c m', ch = <[hunk_resolve_path home_dir cwd h := c]> acc ∧ hunk_effect home_dir cwd h m = Some m'
      ∧ (∀ p, p ∉ hunk_paths home_dir cwd h → m' !! p = m !! p) ∧ made (hunk_resolve_path home_dir cwd h) c (files s) m'.
Proof.
  destruct h as [path contents|path|path mp chunks]; unfold add_change, mbind, FsM_bind, fs_map_err, mret, FsM_ret; simpl; intros Hadd Hnd Hm.
  - injection Hadd as <- <-. split; [done|]. eexists _, _. split_and!; [done..| |apply lookup_insert_eq].
    intros p Hp. apply lookup_insert_ne. set_solver.
  - destruct (read_file_text _ s) as [s1 [content|e]] eqn:Hr; [|done]. apply law_read in Hr as [Hf Hc]. injection Hadd as <- <-.
    split; [done|]. eexists _, _. split_and!; [done..| |split; [exact Hc|apply lookup_delete_eq]]. intros p Hp. apply lookup_delete_ne. set_solver.
  - unfold unified_diff_from_chunks, unified_diff_from_chunks_with_context, mbind, FsM_bind, mret, FsM_ret in Hadd.
    destruct (derive_new_contents_from_chunks _ chunks s) as [s1 [applied|e]] eqn:Hd; [|done].
    pose proof (derive_original _ _ _ _ _ Hd) as Hor. apply derive_spec in Hd as [Hf (original & Horig & Hnew)]. simpl in Hadd. injection Hadd as <- <-. split; [done|].
    rewrite (Hm (resolve home_dir cwd path)); [destruct mp; simpl; set_solver|].
    change (resolve home_dir cwd path) with (hunk_resolve_path home_dir cwd (UpdateFile path mp chunks)).
    rewrite Horig. unfold mbind, option_bind. rewrite Hnew. eexists _, _. split_and!; [done..| |].
    + intros p Hp. destruct mp as [dest|]; simpl in Hp; [rewrite lookup_delete_ne ?lookup_insert_ne //|rewrite lookup_insert_ne //]; set_solver.
    + split; [by eexists|]. destruct mp as [dest|]; simpl; [|apply lookup_insert_eq]. split; [apply lookup_delete_eq|].
      simpl in Hnd. apply NoDup_cons in Hnd as [Hne _]. rewrite lookup_delete_ne; [set_solver|]. apply lookup_insert_eq.
Qed.

Lemma made_same path c before m m' :
  m' !! path = m !! path → (∀ diff dest new, c = UpdateChange diff (Some dest) new → m' !! dest = m !! dest) →
  made path c before m → made path c before m'.
Proof. intros Hp Hd. destruct c as [t|t|u [d|] n]; simpl; rewrite Hp; try done. by rewrite (Hd u d n). Qed.

Lemma add_change_paths cwd acc h s s' ch :
  add_change home_dir cwd acc h s = (s', Ok ch) →
  ∃ c, ch = <[hunk_resolve_path home_dir cwd h := c]> acc
    ∧ ∀ diff dest new, c = UpdateChange diff (Some dest) new → dest ∈ hunk_paths home_dir cwd h.
Proof.
  destruct h as [path contents|path|path mp chunks]; unfold add_change, mbind, FsM_bind, fs_map_err, mret, FsM_ret; simpl.
  - intros [= <- <-]. by eexists.
  - destruct (read_file_text _ s) as [s1 [content|e]]; [|done]. intros [= <- <-]. by eexists.
  - destruct (unified_diff_from_chunks _ _ s) as [s1 [[diff content]|e]]; [|done]. intros [= <- <-]. eexists. split; [done|].
    intros d dest new [= _ Hdest _]. destruct mp as [x|]; [|done]. injection Hdest as <-. simpl. set_solver.
Qed.

(** Verification only reads. *)
Lemma add_change_reads cwd acc h s s' ch : add_change home_dir cwd acc h s = (s', Ok ch) → files s' = files s.
Proof.
  destruct h as [path contents|path|path mp chunks]; unfold add_change, mbind, FsM_bind, fs_map_err, mret, FsM_ret; simpl.
  - by intros [= <- <-].
  - destruct (read_file_text _ s) as [s1 [content|e]] eqn:Hr; [|done]. apply law_read in Hr as [Hf _]. by intros [= <- _].
  - unfold unified_diff_from_chunks, unified_diff_from_chunks_with_context, mbind, FsM_bind, mret, FsM_ret.
    destruct (derive_new_contents_from_chunks _ chunks s) as [s1 [applied|e]] eqn:Hd; [|done].
    apply derive_spec in Hd as [Hf _]. by intros [= <- _].
Qed.
Lemma add_changes_reads cwd hunks acc s s' ch : add_changes home_dir cwd acc hunks s = (s', Ok ch) → files s' = files s.
Proof.
  revert acc s. induction hunks as [|h hunks IH]; intros acc s; simpl; [by intros [= <- _]|].
  unfold mbind, FsM_bind. destruct (add_change home_dir cwd acc h s) as [s1 [acc1|e]] eqn:Hadd; [|done].
  intros ->%IH. by eapply add_change_reads.
Qed.

Lemma resolve_path_in_paths cwd h : hunk_resolve_path home_dir cwd h ∈ hunk_paths home_dir cwd h.
Proof. destruct h as [| |? [dest|] ?]; simpl; by left. Qed.

Lemma add_changes_spec cwd hunks acc s s' ch m :
  add_changes home_dir cwd acc hunks s = (s', Ok ch) → NoDup (all_paths cwd hunks) →
  (∀ p, p ∈ all_paths cwd hunks → m !! p = files s !! p) → (∀ p, p ∈ all_paths cwd hunks → acc !! p = None) →
  files s' = files s
  ∧ ∃ m', hunks_effect home_dir cwd hunks m = Some m'
      ∧ (∀ p, p ∉ all_paths cwd hunks → m' !! p = m !! p ∧ ch !! p = acc !! p)
      ∧ (∀ p c, p ∈ all_paths cwd hunks → ch !! p = Some c → made p c (files s) m')
      ∧ ∀ h, h ∈ hunks → is_Some (ch !! hunk_resolve_path home_dir cwd h).
Proof.
  revert acc s m. induction hunks as [|h hunks IH]; intros acc s m; simpl.
  { intros [= <- <-] _ _ _. split; [done|]. exists m. split_and!; [done|done|by intros p c ?%elem_of_nil|by intros h ?%elem_of_nil]. }
  unfold mbind, FsM_bind. destruct (add_change home_dir cwd acc h s) as [s1 [acc1|e]] eqn:Hadd; [|done].
  unfold all_paths. simpl. change (hunks ≫= hunk_paths home_dir cwd) with (all_paths cwd hunks). intros Hrest [Hnd [Hdisj Hnd']]%NoDup_app Hm Hacc.
  destruct (add_change_spec _ _ _ _ _ _ m Hadd Hnd) as (Hf & c & m1 & -> & He & Hout & Hmade); [intros p Hp; apply Hm; set_solver|].
  destruct (add_change_paths _ _ _ _ _ _ Hadd) as (c' & Hc' & Hdest). assert (c' = c) as ->.
  { apply (f_equal (lookup (hunk_resolve_path home_dir cwd h))) in Hc'. rewrite !lookup_insert_eq in Hc'. by injection Hc'. }
  pose proof (resolve_path_in_paths cwd h) as Hsrc.
  destruct (IH _ _ m1 Hrest Hnd') as (Hf' & m' & He' & Hout' & Hmade' & Hall').
  { intros p Hp. rewrite Hout; [by intros ?; apply (Hdisj p)|]. rewrite Hm; [set_solver|]. by rewrite Hf. }
  { intros p Hp. rewrite lookup_insert_ne; [intros <-; by apply (Hdisj _ Hsrc)|]. apply Hacc. set_solver. }
  split; [congruence|]. exists m'. rewrite He /=. rewrite Hf in Hmade'. split_and!; [done| | |].
  - intros p Hp. rewrite elem_of_app in Hp. destruct (Hout' p) as [-> ->]; [tauto|]. split; [apply Hout; tauto|].
    apply lookup_insert_ne. intros <-. tauto.
  - intros p d [Hp|Hp]%elem_of_app; [|by apply Hmade']. destruct (Hout' p) as [Hm' Hch]; [by apply Hdisj|]. rewrite Hch.
    destruct (decide (p = hunk_resolve_path home_dir cwd h)) as [->|Hne].
    + rewrite lookup_insert_eq. intros [= <-]. eapply made_same; [exact Hm'| |exact Hmade]. intros u dest n ->.
      apply Hout'. apply Hdisj. by eapply Hdest.
    + rewrite lookup_insert_ne //. rewrite Hacc //. set_solver.
  - intros h' [->|Hh']%elem_of_cons; [|by apply Hall']. destruct (Hout' (hunk_resolve_path home_dir cwd h)) as [_ ->]; [by apply Hdisj|].
    by rewrite lookup_insert_eq.
Qed.

(** C11. A verification that succeeds changes nothing, and the changes the user is then
    shown are those that applying the patch makes, when its hunks name every file once,
    be it as the source or the destination: the hunks say of the files what comes of
    them, every hunk is shown as a change of its file, every change shown is made, from
    what it shows of the file before to what it shows of it after, and no other file is
    touched; whenever applying the patch to these files succeeds, that is what it does. *)
Theorem shown_changes_are_made argv cwd s s' action :
  maybe_parse_apply_patch_verified home_dir argv cwd s = (s', VerifiedBody action) →
  files s' = files s ∧
  ∃ args, maybe_parse_apply_patch argv = Body args ∧ action_patch action = args_patch args
    ∧ (NoDup (all_paths (action_cwd action) (args_hunks args)) →
       ∃ m, hunks_say home_dir (action_cwd action) (args_hunks args) (files s) m
           ∧ (∀ h, h ∈ args_hunks args → is_Some (changes action !! hunk_resolve_path home_dir (action_cwd action) h))
           ∧ (∀ p c, changes action !! p = Some c → made p c (files s) m)
           ∧ (∀ p, p ∉ all_paths (action_cwd action) (args_hunks args) → m !! p = files s !! p)
           ∧ ∀ s2 s3 affected, files s2 = files s →
               apply_hunks_to_files home_dir (action_cwd action) (args_hunks args) s2 = (s3, Ok affected) → files s3 = m).
Proof.
  unfold maybe_parse_apply_patch_verified. destruct (is_bare_patch argv); [done|].
  destruct (maybe_parse_apply_patch argv) as [args| | |]; try done.
  destruct (add_changes _ _ ∅ _ s) as [s1 [ch|e]] eqn:Hadd; [|done]. intros [= <- <-]. split; [by eapply add_changes_reads|].
  exists args. do 2 (split; [done|]).
  simpl. intros Hnd. destruct (add_changes_spec _ _ _ _ _ _ (files s) Hadd Hnd) as (_ & m & He & Hout & Hmade & Hall); [done|by intros; apply lookup_empty|].
  exists m. split_and!; [by apply hunks_effect_say|done| |by intros; apply Hout|].
  - intros p c Hc. destruct (decide (p ∈ all_paths (effective_cwd_of home_dir cwd args) (args_hunks args))) as [Hin|Hin]; [by apply Hmade|].
    destruct (Hout p Hin) as [_ Hno]. rewrite Hno lookup_empty in Hc. done.
  - intros s2 s3 affected Hs2. unfold apply_hunks_to_files. destruct (is_empty _); [done|]. intros [Hl _]%apply_hunks_loop_spec.
    rewrite Hs2 He in Hl. by injection Hl.
Qed.
End shown.

(** ** Witness *)

Definition demo_tools : PatchTools := {| apply_patch_matches := λ _, Ok []; text_unified_diff := λ _ _ _, [] |}.
Definition demo_argv : list str :=
  [lit "apply_patch";
   join [ch_nl] (map lit ["*** Begin Patch"; "*** Update File: a.txt"; "@@"; "-old"; "+new"; "*** End Patch"])].

Lemma shown_changes_are_made_witness :
  ∃ args m, maybe_parse_apply_patch (PT := demo_tools) demo_argv = Body args
    ∧ hunks_say None (lit "/repo") (args_hunks args) demo_files m ∧ m !! (lit "/repo/a.txt") = Some (lit "new" ++ [ch_nl]).
Proof.
  set (out := maybe_parse_apply_patch_verified (PT := demo_tools) (H := demo_fs) None demo_argv (lit "/repo") demo_files).
  assert (∃ action, out = (demo_files, VerifiedBody action) ∧ action_cwd action = lit "/repo"
    ∧ changes action !! (lit "/repo/a.txt") = Some (UpdateChange [] None (lit "new" ++ [ch_nl]))) as (action & Hout & Hcwd & Hch).
  { eexists. split; [vm_compute; reflexivity|]. split; vm_compute; reflexivity. }
  destruct (@shown_changes_are_made demo_tools demo_fs demo_fs_laws None demo_argv (lit "/repo") demo_files demo_files action Hout)
    as (_ & args & Hargs & _ & H).
  rewrite Hcwd in H. exists args. destruct H as (m & Hm & _ & Hmade & _).
  - vm_compute in Hargs. injection Hargs as <-. apply NoDup_singleton.
  - exists m. split; [exact Hargs|]. split; [exact Hm|]. exact (proj2 (Hmade _ _ Hch)).
Defined.
