(* ===== verification/StreamText.v ===== *)
(** The markup of streamed assistant text, part one:
    [codex-rs/utils/stream-parser/src/{stream_text,inline_hidden_tag,citation}.rs].
    The trait [StreamTextParser] is a class; its law is that feeding a text
    in pieces and feeding it at once give the same ([ChunkIndependent]). The
    parser of inline hidden tags, of which citations are the instance the agent
    uses, obeys it as long as no opening delimiter occurs in another. *)
From S2P Require Import Prelude.
#[local] Open Scope nat_scope.

(** ** [stream_text.rs] *)

Record StreamTextChunk (T : Type) := MkStreamTextChunk {
  visible_text : str;
  extracted : list T
}.
Arguments MkStreamTextChunk {T} visible_text extracted.
Arguments visible_text {T} s.
Arguments extracted {T} s.

Definition chunk_default {T} : StreamTextChunk T := MkStreamTextChunk [] [].
Definition chunk_is_empty {T} (c : StreamTextChunk T) : bool :=
  is_empty (visible_text c) && is_empty (extracted c).

(** The parser of type [P] extracts payloads of type [E]. *)
Class StreamTextParser (P E : Type) := {
  push_str : P → str → P * StreamTextChunk E;
  finish : P → P * StreamTextChunk E
}.

(** The chunks of a stream, one after the other. *)
Definition chunk_app {T} (a b : StreamTextChunk T) : StreamTextChunk T :=
  MkStreamTextChunk (visible_text a ++ visible_text b) (extracted a ++ extracted b).
Infix "⊕" := chunk_app (at level 50, left associativity).

(** A whole stream: every piece, then the end. *)
Fixpoint push_all `{StreamTextParser P E} (p : P) (pieces : list str) : P * StreamTextChunk E :=
  match pieces with
  | [] => (p, chunk_default)
  | c :: r => let '(p1, o1) := push_str p c in
              let '(p2, o2) := push_all p1 r in (p2, o1 ⊕ o2)
  end.
Definition collect `{StreamTextParser P E} (p : P) (pieces : list str) : StreamTextChunk E :=
  let '(p', out) := push_all p pieces in out ⊕ (finish p').2.

(** ** [inline_hidden_tag.rs] *)

Record ExtractedInlineTag (T : Type) := MkExtractedInlineTag {
  extracted_tag : T;
  extracted_content : str
}.
Arguments MkExtractedInlineTag {T} extracted_tag extracted_content.
Arguments extracted_tag {T} e.
Arguments extracted_content {T} e.

Record InlineTagSpec (T : Type) := MkInlineTagSpec {
  spec_tag : T;
  spec_open : str;
  spec_close : str
}.
Arguments MkInlineTagSpec {T} spec_tag spec_open spec_close.
Arguments spec_tag {T} i.
Arguments spec_open {T} i.
Arguments spec_close {T} i.

Record ActiveTag (T : Type) := MkActiveTag {
  active_name : T;
  active_close : str;
  active_content : str
}.
Arguments MkActiveTag {T} active_name active_close active_content.
Arguments active_name {T} a.
Arguments active_close {T} a.
Arguments active_content {T} a.

Record InlineHiddenTagParser (T : Type) := MkInlineHiddenTagParser {
  specs : list (InlineTagSpec T);
  pending : str;
  active : option (ActiveTag T)
}.
Arguments MkInlineHiddenTagParser {T} specs pending active.
Arguments specs {T} i.
Arguments pending {T} i.
Arguments active {T} i.

Section inline_hidden_tag.
Context {T : Type}.
Implicit Types (p : InlineHiddenTagParser T) (out : StreamTextChunk (ExtractedInlineTag T)).

Definition set_pending (pending : str) p : InlineHiddenTagParser T :=
  MkInlineHiddenTagParser (specs p) pending (active p).
Definition set_active (active : option (ActiveTag T)) p : InlineHiddenTagParser T :=
  MkInlineHiddenTagParser (specs p) (pending p) active.

(** [InlineHiddenTagParser::new]; [None] where an assertion fails. *)
Definition new_inline (specs : list (InlineTagSpec T)) : option (InlineHiddenTagParser T) :=
  if is_empty specs then None
  else if existsb (λ spec, is_empty (spec_open spec) || is_empty (spec_close spec)) specs then None
  else Some (MkInlineHiddenTagParser specs [] None).

(** The longest proper prefix of [needle] that ends [s], as a number of
    scalar values. *)
Fixpoint longest_from (k : nat) (s needle : str) : nat :=
  match k with
  | 0 => 0
  | S k' => if ends_with (take k needle) s then k else longest_from k' s needle
  end.
Definition longest_suffix_prefix_len (s needle : str) : nat :=
  longest_from (length s `min` (length needle - 1)) s needle.

(** Where each tag opens next: position, length of the delimiter, index. *)
Definition candidate : Type := nat * nat * nat.
Definition candidate_cmp (a b : candidate) : comparison :=
  let '(pos_a, len_a, idx_a) := a in let '(pos_b, len_b, idx_b) := b in
  match pos_a ?= pos_b with
  | Eq => match len_b ?= len_a with Eq => idx_a ?= idx_b | o => o end
  | o => o
  end.
Definition candidates (specs : list (InlineTagSpec T)) (s : str) : list candidate :=
  omap id (imap (λ idx spec, (λ pos, (pos, str_len (spec_open spec), idx)) <$> find_str (spec_open spec) s) specs).
Definition find_next_open p : option (nat * nat) :=
  (λ '(pos, _, idx), (pos, idx)) <$> min_by candidate_cmp (candidates (specs p) (pending p)).

Definition max_open_prefix_suffix_len p : nat :=
  foldr Nat.max 0 ((λ spec, longest_suffix_prefix_len (pending p) (spec_open spec)) <$> specs p).

Definition push_visible_prefix out (text : str) : StreamTextChunk (ExtractedInlineTag T) :=
  if negb (is_empty text) then MkStreamTextChunk (visible_text out ++ text) (extracted out) else out.

Definition drain_visible_to_suffix_match p out (keep_suffix_len : nat)
    : InlineHiddenTagParser T * StreamTextChunk (ExtractedInlineTag T) :=
  let n := length (pending p) - keep_suffix_len in
  if n =? 0 then (p, out)
  else (set_pending (drop n (pending p)) p, push_visible_prefix out (take n (pending p))).

Definition push_extracted out (e : ExtractedInlineTag T) : StreamTextChunk (ExtractedInlineTag T) :=
  MkStreamTextChunk (visible_text out) (extracted out ++ [e]).

(** The last round of the loop inside a tag: all but what may become the
    closing delimiter is content. *)
Definition buffer_content p (a : ActiveTag T) : InlineHiddenTagParser T :=
  let keep := longest_suffix_prefix_len (pending p) (active_close a) in
  let n := length (pending p) - keep in
  if n =? 0 then p
  else MkInlineHiddenTagParser (specs p) (drop n (pending p))
         (Some (MkActiveTag (active_name a) (active_close a) (active_content a ++ take n (pending p)))).

(** The loop of [push_str]; every round that goes on drops a delimiter from
    [pending]. *)
Fixpoint push_loop (fuel : nat) p out : InlineHiddenTagParser T * StreamTextChunk (ExtractedInlineTag T) :=
  match fuel with
  | 0 => (p, out)
  | S fuel =>
      match active p with
      | Some a =>
          let close := active_close a in
          match find_str close (pending p) with
          | Some close_idx =>
              push_loop fuel
                (MkInlineHiddenTagParser (specs p) (drop (close_idx + length close) (pending p)) None)
                (push_extracted out
                   (MkExtractedInlineTag (active_name a) (active_content a ++ take close_idx (pending p))))
          | None => (buffer_content p a, out)
          end
      | None =>
          match find_next_open p with
          | Some (open_idx, spec_idx) =>
              let out := push_visible_prefix out (take open_idx (pending p)) in
              match specs p !! spec_idx with
              | Some spec =>
                  push_loop fuel
                    (MkInlineHiddenTagParser (specs p)
                       (drop (open_idx + length (spec_open spec)) (pending p))
                       (Some (MkActiveTag (spec_tag spec) (spec_close spec) [])))
                    out
              | None => (p, out)
              end
          | None => drain_visible_to_suffix_match p out (max_open_prefix_suffix_len p)
          end
      end
  end.

Definition push_inline p (chunk : str) : InlineHiddenTagParser T * StreamTextChunk (ExtractedInlineTag T) :=
  let p := set_pending (pending p ++ chunk) p in
  push_loop (S (length (pending p))) p chunk_default.

Definition finish_inline p : InlineHiddenTagParser T * StreamTextChunk (ExtractedInlineTag T) :=
  match active p with
  | Some a =>
      (MkInlineHiddenTagParser (specs p) [] None,
       push_extracted chunk_default
         (MkExtractedInlineTag (active_name a) (active_content a ++ pending p)))
  | None =>
      (set_pending [] p, push_visible_prefix chunk_default (pending p))
  end.

#[export] Instance inline_hidden_tag_parser :
  StreamTextParser (InlineHiddenTagParser T) (ExtractedInlineTag T) :=
  {| push_str := push_inline; finish := finish_inline |}.
End inline_hidden_tag.

(** ** [citation.rs] *)

Inductive CitationTag : Type := Citation.

Definition CITATION_OPEN : str := "<oai-mem-citation>".
Definition CITATION_CLOSE : str := "</oai-mem-citation>".

Definition citation_spec : InlineTagSpec CitationTag :=
  MkInlineTagSpec Citation CITATION_OPEN CITATION_CLOSE.

Record CitationStreamParser := MkCitationStreamParser { inner : InlineHiddenTagParser CitationTag }.

(** The assertions of [InlineHiddenTagParser::new] hold: see [new_citation_asserts]. *)
Definition new_citation : CitationStreamParser :=
  MkCitationStreamParser (MkInlineHiddenTagParser [citation_spec] [] None).

Definition citation_chunk (c : StreamTextChunk (ExtractedInlineTag CitationTag)) : StreamTextChunk str :=
  MkStreamTextChunk (visible_text c) (extracted_content <$> extracted c).

#[export] Instance citation_stream_parser : StreamTextParser CitationStreamParser str :=
  {| push_str := λ p chunk, let '(i, o) := push_str (inner p) chunk in (MkCitationStreamParser i, citation_chunk o);
     finish := λ p, let '(i, o) := finish (inner p) in (MkCitationStreamParser i, citation_chunk o) |}.

Definition strip_citations (text : str) : str * list str :=
  let '(parser, out) := push_str new_citation text in
  let '(_, tail) := finish parser in
  (visible_text out ++ visible_text tail, extracted out ++ extracted tail).

Example strip_two : strip_citations "a<oai-mem-citation>one</oai-mem-citation>b<oai-mem-citation>two</oai-mem-citation>c"
  = (lit "abc", [lit "one"; lit "two"]).
Proof. eval_done. Qed.

Example strip_open : strip_citations "x<oai-mem-citation>y" = (lit "x", [lit "y"]).
Proof. eval_done. Qed.

Lemma new_citation_asserts : new_inline [citation_spec] = Some (inner new_citation).
Proof. eval_done. Qed.

(** ** Chunk independence, as an interface *)

Section chunk_rel.
Context {E : Type} (R : relation (list E)).

(** Chunks with the same text and related payloads. *)
Definition chunk_rel : relation (StreamTextChunk E) :=
  λ a b, visible_text a = visible_text b ∧ R (extracted a) (extracted b).

#[export] Instance chunk_rel_equivalence : Equivalence R → Equivalence chunk_rel.
Proof.
  intros ?. split; [done|intros ?? []; split; by symmetry|].
  intros ??? [] []. split; by etrans.
Qed.

#[export] Instance chunk_app_proper :
  Proper (R ==> R ==> R) app → Proper (chunk_rel ==> chunk_rel ==> chunk_rel) chunk_app.
Proof. intros Happ ?? [Hv1 HE1] ?? [Hv2 HE2]. split; simpl; [by rewrite Hv1 Hv2|by apply Happ]. Qed.
End chunk_rel.

Lemma chunk_app_nil_l {T} (a : StreamTextChunk T) : chunk_default ⊕ a = a.
Proof. by destruct a. Qed.
Lemma chunk_app_nil_r {T} (a : StreamTextChunk T) : a ⊕ chunk_default = a.
Proof. destruct a. unfold chunk_app. simpl. by rewrite !app_nil_r. Qed.
Lemma chunk_app_assoc {T} (a b c : StreamTextChunk T) : a ⊕ (b ⊕ c) = a ⊕ b ⊕ c.
Proof. unfold chunk_app. simpl. by rewrite !app_assoc. Qed.

Lemma chunk_app_nil_inv {T} (a b : StreamTextChunk T) : a = a ⊕ b → b = chunk_default.
Proof.
  destruct a as [v e], b as [v' e']. intros [= Hv He].
  rewrite -{1}(app_nil_r v) in Hv. rewrite -{1}(app_nil_r e) in He.
  by apply app_inv_head in Hv as <-, He as <-.
Qed.

(** What a parser promises: in the states [ok], which every push keeps, pushing
    two pieces in a row leaves the parser in the state, and gives up to [R] the
    chunk, of pushing them at once. *)
Class ChunkIndependent (P E : Type) `{StreamTextParser P E} (ok : P → Prop) (R : relation (list E)) := {
  independent_equivalence :: Equivalence R;
  independent_app :: Proper (R ==> R ==> R) app;
  push_ok p c : ok p → ok (push_str p c).1;
  push_nil p : ok p → push_str p [] = (p, chunk_default);
  push_app p c d : ok p →
    let '(p1, o1) := push_str p c in
    let '(p2, o2) := push_str p1 d in
    (push_str p (c ++ d)).1 = p2 ∧ chunk_rel R (push_str p (c ++ d)).2 (o1 ⊕ o2)
}.

Section independent.
Context `{ChunkIndependent P E ok R}.

Lemma push_all_ok p pieces : ok p → ok (push_all p pieces).1.
Proof.
  revert p. induction pieces as [|c r IH]; intros p Hp; [done|]. simpl.
  pose proof (push_ok p c Hp) as Hp1. destruct (push_str p c) as [p1 o1]. simpl in *.
  specialize (IH p1 Hp1). by destruct (push_all p1 r).
Qed.

Lemma push_all_concat p pieces : ok p →
  (push_str p (concat pieces)).1 = (push_all p pieces).1
  ∧ chunk_rel R (push_str p (concat pieces)).2 (push_all p pieces).2.
Proof.
  revert p. induction pieces as [|c r IH]; intros p Hp; simpl; [by rewrite push_nil|].
  pose proof (push_ok p c Hp) as Hp1. pose proof (push_app p c (concat r) Hp) as Happ.
  destruct (push_str p c) as [p1 o1]. simpl in Hp1. destruct (IH p1 Hp1) as [Hs Ho].
  destruct (push_str p1 (concat r)) as [p2 o2], (push_all p1 r) as [p3 o3]; simpl in *. subst p3.
  destruct Happ as [Hst Hout]. split; [done|]. by rewrite Hout Ho.
Qed.

(** The whole stream depends on the text only, not on its pieces. *)
Lemma collect_concat p pieces : ok p → chunk_rel R (collect p pieces) (collect p [concat pieces]).
Proof.
  intros Hp. destruct (push_all_concat p pieces Hp) as [Hs Ho]. unfold collect. simpl.
  destruct (push_all p pieces) as [p1 o1], (push_str p (concat pieces)) as [p2 o2]; simpl in *. subst p2.
  by rewrite chunk_app_nil_r Ho.
Qed.
End independent.

Lemma push_all_snoc `{StreamTextParser P E} p xs x :
  push_all p (xs ++ [x]) = let '(q, o) := push_all p xs in let '(r, o') := push_str q x in (r, o ⊕ o').
Proof.
  revert p. induction xs as [|y xs IH]; intros p; cbn [push_all app].
  - destruct (push_str p x). by rewrite chunk_app_nil_l chunk_app_nil_r.
  - destruct (push_str p y) as [p1 o1]. rewrite IH. destruct (push_all p1 xs) as [p2 o2].
    destruct (push_str p2 x). by rewrite chunk_app_assoc.
Qed.

Lemma collect_snoc `{StreamTextParser P E} p xs x q o :
  push_all p xs = (q, o) → collect p (xs ++ [x]) = let '(r, o') := push_str q x in o ⊕ o' ⊕ (finish r).2.
Proof. intros Hp. unfold collect. rewrite push_all_snoc Hp. by destruct (push_str q x). Qed.

(** ** Lemmas on delimiters *)

Lemma ends_with_spec n s : ends_with n s = true ↔ ∃ a, s = a ++ n.
Proof.
  unfold ends_with. destruct (strip_suffix n s) as [a|] eqn:E.
  - apply strip_suffix_Some in E. naive_solver.
  - split; [done|]. intros [a Ha%strip_suffix_Some]. congruence.
Qed.

Lemma longest_from_spec k s n :
  longest_from k s n ≤ k
  ∧ (∃ a, s = a ++ take (longest_from k s n) n)
  ∧ ∀ j, j ≤ k → (∃ a, s = a ++ take j n) → j ≤ longest_from k s n.
Proof.
  induction k as [|k (Hle & Hex & Hmax)]; cbn [longest_from].
  { repeat split; [done| |lia]. exists s. by rewrite app_nil_r. }
  destruct (ends_with (take (S k) n) s) eqn:E.
  - apply ends_with_spec in E. repeat split; [done|done|lia].
  - repeat split; [lia|done|]. intros j Hj Ha. destruct (decide (j = S k)) as [->|]; [|apply Hmax; [lia|done]].
    apply ends_with_spec in Ha. congruence.
Qed.

Section delimiter.
Context (n : str).

Lemma lsp_suffix s : ∃ a, s = a ++ take (longest_suffix_prefix_len s n) n.
Proof. apply longest_from_spec. Qed.

Lemma lsp_le s : longest_suffix_prefix_len s n ≤ length s `min` (length n - 1).
Proof. apply longest_from_spec. Qed.

Lemma lsp_max s a j : s = a ++ take j n → j < length n → j ≤ longest_suffix_prefix_len s n.
Proof.
  intros Hs Hj. apply longest_from_spec; [|by exists a].
  rewrite Hs length_app length_take. lia.
Qed.

(** [s] without the [d] first characters, of which no occurrence of [n] and no
    proper prefix of [n] that ends [s] takes one. *)
Context (s : str) (d : nat).
Context (Hd : d ≤ length s) (Hnone : find_str n s = None) (Hlsp : longest_suffix_prefix_len s n ≤ length s - d).

Lemma occurs_at_app_drop c i : occurs_at n (s ++ c) i ↔ ∃ j, i = d + j ∧ occurs_at n (drop d s ++ c) j.
Proof using Hd Hnone Hlsp.
  split.
  - intros (a & b & Hs & <-). destruct (decide (d ≤ length a)) as [Hda|Hda].
    + exists (length a - d). split; [lia|]. exists (drop d a), b. rewrite length_drop. split; [|done].
      by rewrite -(drop_app_le s) // Hs drop_app_le.
    + exfalso. destruct (decide (length a + length n ≤ length s)) as [Hin|Hin].
      * eapply (proj1 (find_str_None n s) Hnone (length a)). exists a, (drop (length a + length n) s).
        split; [|done]. rewrite app_assoc -{1}(take_drop (length a + length n) s). f_equal.
        rewrite -(take_app_le s c) // Hs app_assoc take_app_le ?length_app // -length_app firstn_all //.
      * assert (s = a ++ take (length s - length a) n) as Hsuf.
        { rewrite -{1}(firstn_all s) -(take_app_le s c) // Hs take_app_ge; [lia|]. f_equal.
          rewrite take_app_le; [slia|done]. }
        apply lsp_max in Hsuf; lia.
  - intros (j & -> & a & b & Hs & <-). exists (take d s ++ a), b. rewrite length_app length_take. split; [|lia].
    by rewrite -!app_assoc -Hs app_assoc take_drop.
Qed.

Lemma find_str_app_drop c : find_str n (s ++ c) = (λ j, d + j) <$> find_str n (drop d s ++ c).
Proof using Hd Hnone Hlsp. apply find_str_shift, occurs_at_app_drop. Qed.

Lemma lsp_app_drop c : longest_suffix_prefix_len (s ++ c) n = longest_suffix_prefix_len (drop d s ++ c) n.
Proof using Hd Hlsp.
  apply Nat.le_antisymm.
  - destruct (lsp_suffix (s ++ c)) as [a Ha]. pose proof (lsp_le (s ++ c)) as Hle.
    set (j := longest_suffix_prefix_len (s ++ c) n) in *.
    assert (length (take j n) = j) as Hj by (rewrite length_take; lia).
    destruct (decide (j = 0)) as [->|Hj0]; [lia|]. destruct (decide (d ≤ length a)) as [Hda|Hda].
    + apply (lsp_max _ (drop d a)); [|lia].
      by rewrite -(drop_app_le s) // Ha drop_app_le.
    + assert (length a + j = length s + length c) by (rewrite -length_app Ha length_app Hj; done).
      assert (s = a ++ take (j - length c) n) as Hsuf.
      { rewrite -{1}(firstn_all s) -(take_app_le s c) // Ha take_app_ge; [lia|]. f_equal.
        rewrite take_take. f_equal. lia. }
      apply lsp_max in Hsuf; lia.
  - destruct (lsp_suffix (drop d s ++ c)) as [a Ha]. pose proof (lsp_le (drop d s ++ c)) as Hle.
    destruct (decide (longest_suffix_prefix_len (drop d s ++ c) n = 0)) as [->|]; [lia|].
    apply (lsp_max _ (take d s ++ a)); [|lia].
    by rewrite -app_assoc -Ha app_assoc take_drop.
Qed.
End delimiter.

(** ** Inline tags: the next opening *)

(** The order of candidates, spelled out. *)
Lemma candidate_cmp_le pa la ia pb lb ib :
  candidate_cmp (pa, la, ia) (pb, lb, ib) ≠ Gt ↔
  pa < pb ∨ pa = pb ∧ (lb < la ∨ lb = la ∧ ia ≤ ib).
Proof.
  unfold candidate_cmp.
  destruct (Nat.compare_spec pa pb), (Nat.compare_spec lb la), (Nat.compare_spec ia ib); split; (done || lia).
Qed.

Lemma candidate_cmp_trans x y z : candidate_cmp x y ≠ Gt → candidate_cmp y z ≠ Gt → candidate_cmp x z ≠ Gt.
Proof. destruct x as [[]], y as [[]], z as [[]]. rewrite !candidate_cmp_le. lia. Qed.
Lemma candidate_cmp_flip x y : candidate_cmp x y = Gt → candidate_cmp y x ≠ Gt.
Proof.
  intros Hgt. assert (¬ candidate_cmp x y ≠ Gt) as Hn by auto. revert Hn.
  destruct x as [[]], y as [[]]. rewrite !candidate_cmp_le. lia.
Qed.
Lemma candidate_cmp_refl x : candidate_cmp x x ≠ Gt.
Proof. destruct x as [[]]. rewrite candidate_cmp_le. lia. Qed.

Section next_open.
Context {T : Type}.
Implicit Types (specs : list (InlineTagSpec T)).

Definition min_candidate specs (s : str) : option candidate := min_by candidate_cmp (candidates specs s).

Lemma elem_of_candidates specs s c :
  c ∈ candidates specs s ↔
  ∃ idx spec pos, specs !! idx = Some spec ∧ find_str (spec_open spec) s = Some pos
    ∧ c = (pos, str_len (spec_open spec), idx).
Proof.
  unfold candidates. rewrite list_elem_of_omap. split.
  - intros (o & (idx & spec & -> & Hl)%elem_of_lookup_imap & Hc). simpl in Hc.
    apply fmap_Some in Hc as (pos & Hf & ->). eauto 10.
  - intros (idx & spec & pos & Hl & Hf & ->). exists (Some (pos, str_len (spec_open spec), idx)).
    split; [|done]. apply elem_of_lookup_imap. exists idx, spec. by rewrite Hf.
Qed.

Lemma min_candidate_Some specs s c :
  min_candidate specs s = Some c ↔ c ∈ candidates specs s ∧ ∀ c', c' ∈ candidates specs s → candidate_cmp c c' ≠ Gt.
Proof.
  split.
  - apply min_by_Some; eauto using candidate_cmp_trans, candidate_cmp_flip, candidate_cmp_refl.
  - intros [Hin Hmin]. unfold min_candidate.
    destruct (min_by candidate_cmp (candidates specs s)) as [c'|] eqn:E.
    + apply min_by_Some in E as [Hin' Hmin'];
        eauto using candidate_cmp_trans, candidate_cmp_flip, candidate_cmp_refl.
      f_equal. specialize (Hmin c' Hin'). specialize (Hmin' c Hin).
      apply elem_of_candidates in Hin as (i & sp & pos & Hi & _ & ->), Hin' as (i' & sp' & pos' & Hi' & _ & ->).
      rewrite !candidate_cmp_le in Hmin, Hmin'. assert (i = i') as <- by lia. simplify_eq. repeat f_equal. lia.
    + apply min_by_None in E. rewrite E in Hin. by apply not_elem_of_nil in Hin.
Qed.

Lemma omap_id_fmap {A B} (f : A → B) (l : list (option A)) : omap id (fmap f <$> l) = f <$> omap id l.
Proof. induction l as [|[] l IH]; [done|by apply (f_equal (cons _)), IH|apply IH]. Qed.

Lemma min_candidate_shift specs s s' d :
  Forall (λ spec, find_str (spec_open spec) s = (λ j, d + j) <$> find_str (spec_open spec) s') specs →
  min_candidate specs s = (λ '(pos, len, idx), (d + pos, len, idx)) <$> min_candidate specs s'.
Proof.
  intros Hall. unfold min_candidate.
  assert (candidates specs s = (λ '(pos, len, idx), (d + pos, len, idx)) <$> candidates specs s') as ->.
  { unfold candidates. rewrite -omap_id_fmap fmap_imap. f_equal. apply imap_ext. intros i spec Hl.
    rewrite (proj1 (Forall_lookup _ _) Hall i spec Hl). simpl. by destruct (find_str _ s'). }
  apply min_by_map. intros [[pa ?] ?] [[pb ?] ?]. simpl.
  assert ((d + pa ?= d + pb) = (pa ?= pb)) as ->; [|done].
  destruct (Nat.compare_spec pa pb) as [->|?|?]; [apply Nat.compare_refl|apply Nat.compare_lt_iff; lia|apply Nat.compare_gt_iff; lia].
Qed.

Lemma min_candidate_None specs s :
  min_candidate specs s = None → Forall (λ spec, find_str (spec_open spec) s = None) specs.
Proof.
  intros Hn%min_by_None. apply Forall_lookup. intros i spec Hi.
  destruct (find_str (spec_open spec) s) as [pos|] eqn:E; [|done].
  assert ((pos, str_len (spec_open spec), i) ∈ candidates specs s) as Hin by (apply elem_of_candidates; eauto 10).
  rewrite Hn in Hin. by apply not_elem_of_nil in Hin.
Qed.

(** No opening delimiter stands inside another. *)
Definition openers_independent specs : Prop :=
  ∀ a b x y, a ∈ specs → b ∈ specs → spec_open b = x ++ spec_open a ++ y → spec_open a = spec_open b.

(** Then the text that follows cannot change which tag opens next. *)
Lemma min_candidate_app specs s t c :
  openers_independent specs → min_candidate specs s = Some c → min_candidate specs (s ++ t) = Some c.
Proof.
  intros Hind [Hin Hmin]%min_candidate_Some. apply min_candidate_Some.
  apply elem_of_candidates in Hin as (i & spec & pos & Hi & Hf & ->). split.
  { apply elem_of_candidates. exists i, spec, pos. by rewrite (find_str_app _ _ _ _ Hf). }
  intros c' (j & spec' & pos' & Hj & Hf' & ->)%elem_of_candidates.
  destruct (find_str (spec_open spec') s) as [q|] eqn:Hq.
  { rewrite (find_str_app _ _ _ _ Hq) in Hf'. simplify_eq. apply Hmin, elem_of_candidates. eauto 10. }
  rewrite candidate_cmp_le. destruct (decide (pos < pos')) as [|Hpos]; [by left|]. exfalso.
  pose proof Hf as [(a & b & Hs & Hla) _]%find_str_Some. apply find_str_Some in Hf' as [(a' & b' & Hs' & Hla') _].
  assert (length s < pos' + length (spec_open spec')) as Hlong.
  { apply Nat.nle_gt. intros Hle. eapply (proj1 (find_str_None _ s) Hq pos').
    exists a', (drop (pos' + length (spec_open spec')) s). split; [|done].
    rewrite app_assoc -{1}(take_drop (pos' + length (spec_open spec')) s). f_equal.
    rewrite -(take_app_le s t) // Hs' app_assoc take_app_le ?length_app -?Hla' // -length_app firstn_all //. }
  assert (spec_open spec' = drop pos' a ++ spec_open spec ++ take (pos' + length (spec_open spec') - pos - length (spec_open spec)) (b ++ t)) as Hocc.
  { assert (length s = pos + length (spec_open spec) + length b) by (rewrite Hs !length_app; slia).
    assert (spec_open spec' ++ b' = drop pos' a ++ spec_open spec ++ b ++ t) as Heq.
    { rewrite -(drop_app_length' a' (spec_open spec' ++ b') pos') // -Hs' Hs -app_assoc drop_app_le; [slia|].
      by rewrite -!app_assoc. }
    apply (f_equal (take (length (spec_open spec')))) in Heq. rewrite take_app_length in Heq.
    rewrite {1}Heq. rewrite take_app_ge length_drop; [slia|]. f_equal.
    rewrite take_app_ge; [slia|]. do 2 f_equal. slia. }
  apply Hind in Hocc; [|by eapply list_elem_of_lookup_2..]. rewrite -Hocc in Hq. congruence.
Qed.
End next_open.

(** ** Inline tags: one round of the loop *)

Section rounds.
Context {T : Type}.
Implicit Types (p q : InlineHiddenTagParser T) (out : StreamTextChunk (ExtractedInlineTag T)).

(** [inl]: the loop goes on; [inr]: it ends. *)
Definition round p : InlineHiddenTagParser T * StreamTextChunk (ExtractedInlineTag T)
    + InlineHiddenTagParser T * StreamTextChunk (ExtractedInlineTag T) :=
  match active p with
  | Some a =>
      match find_str (active_close a) (pending p) with
      | Some i =>
          inl (MkInlineHiddenTagParser (specs p) (drop (i + length (active_close a)) (pending p)) None,
               push_extracted chunk_default
                 (MkExtractedInlineTag (active_name a) (active_content a ++ take i (pending p))))
      | None => inr (buffer_content p a, chunk_default)
      end
  | None =>
      match find_next_open p with
      | Some (i, j) =>
          let out := push_visible_prefix chunk_default (take i (pending p)) in
          match specs p !! j with
          | Some spec =>
              inl (MkInlineHiddenTagParser (specs p) (drop (i + length (spec_open spec)) (pending p))
                     (Some (MkActiveTag (spec_tag spec) (spec_close spec) [])), out)
          | None => inr (p, out)
          end
      | None => inr (drain_visible_to_suffix_match p chunk_default (max_open_prefix_suffix_len p))
      end
  end.

Lemma push_visible_prefix_app out s : push_visible_prefix out s = out ⊕ MkStreamTextChunk s [].
Proof. unfold push_visible_prefix. destruct out, s; simpl; unfold chunk_app; simpl; by rewrite ?app_nil_r. Qed.

Lemma push_extracted_app out e : push_extracted out e = out ⊕ push_extracted chunk_default e.
Proof. unfold push_extracted, chunk_app. simpl. by rewrite app_nil_r. Qed.

Lemma push_loop_round fuel p out :
  push_loop (S fuel) p out =
    match round p with
    | inl (q, o) => push_loop fuel q (out ⊕ o)
    | inr (q, o) => (q, out ⊕ o)
    end.
Proof.
  cbn [push_loop]. unfold round, drain_visible_to_suffix_match.
  destruct (active p) as [a|].
  - destruct (find_str _ _); [by rewrite push_extracted_app|by rewrite chunk_app_nil_r].
  - destruct (find_next_open p) as [[i j]|].
    + destruct (specs p !! j); by rewrite !push_visible_prefix_app chunk_app_nil_l.
    + case_match; [by rewrite chunk_app_nil_r|by rewrite !push_visible_prefix_app chunk_app_nil_l].
Qed.

(** Delimiters are not empty: what [new] asserts. *)
Definition delimiters_ok p : Prop :=
  Forall (λ spec, spec_open spec ≠ [] ∧ spec_close spec ≠ []) (specs p)
  ∧ ∀ a, active p = Some a → active_close a ≠ [].
Definition inline_wf p : Prop := delimiters_ok p ∧ openers_independent (specs p).

Lemma find_str_bound n s i : find_str n s = Some i → i + length n ≤ length s.
Proof. intros [(a & b & -> & <-) _]%find_str_Some. rewrite !length_app. lia. Qed.

Lemma find_next_open_Some p i j spec :
  find_next_open p = Some (i, j) → specs p !! j = Some spec → find_str (spec_open spec) (pending p) = Some i.
Proof.
  unfold find_next_open. intros ([[pos len] idx] & Hmin & [= <- <-])%fmap_Some Hl.
  apply min_candidate_Some in Hmin as [(k & sp & q & Hk & Hf & [= -> -> ->])%elem_of_candidates _].
  by simplify_eq.
Qed.

Lemma length_cons_ne {A} (l : list A) : l ≠ [] → 0 < length l.
Proof. destruct l; [done|simpl; lia]. Qed.

(** A round that goes on shortens [pending]. *)
Lemma round_inl p q o :
  delimiters_ok p → round p = inl (q, o) →
  delimiters_ok q ∧ specs q = specs p ∧ length (pending q) < length (pending p).
Proof.
  intros [Hs Ha]. unfold round. destruct (active p) as [a|] eqn:Ea.
  - destruct (find_str _ _) as [i|] eqn:Hf; [|done]. intros [= <- <-].
    specialize (length_cons_ne _ (Ha a eq_refl)) as Hne. apply find_str_bound in Hf.
    repeat split; [done..|]. simpl. rewrite length_drop. slia.
  - destruct (find_next_open p) as [[i j]|] eqn:Hf; [|done].
    destruct (specs p !! j) as [spec|] eqn:Hj; [|done]. intros [= <- <-].
    pose proof (find_next_open_Some _ _ _ _ Hf Hj) as Hb%find_str_bound.
    destruct (proj1 (Forall_lookup _ _) Hs _ _ Hj) as [Ho%length_cons_ne Hc].
    repeat split; [done|by intros ? [= <-]|]. simpl. rewrite length_drop. slia.
Qed.

Lemma round_inr p q o :
  delimiters_ok p → round p = inr (q, o) →
  delimiters_ok q ∧ specs q = specs p ∧ length (pending q) ≤ length (pending p).
Proof.
  intros [Hs Ha]. unfold round. destruct (active p) as [a|] eqn:Ea.
  - destruct (find_str _ _); [done|]. intros [= <- <-]. unfold buffer_content.
    case_match; [repeat split; by rewrite ?Ea|]. repeat split; simpl; [done| |rewrite length_drop; lia].
    intros ? [= <-]. by apply (Ha a).
  - unfold drain_visible_to_suffix_match.
    repeat case_match; intros; simplify_eq; repeat split; simpl; rewrite ?Ea ?length_drop; (done || lia).
Qed.

(** Enough fuel: more does not matter. *)
Lemma push_loop_fuel n m p out :
  delimiters_ok p → length (pending p) < n → length (pending p) < m → push_loop n p out = push_loop m p out.
Proof.
  revert m p out. induction n as [|n IH]; intros m p out Hp Hn Hm; [lia|]. destruct m as [|m]; [lia|].
  rewrite !push_loop_round. destruct (round p) as [[q o]|[q o]] eqn:Hr; [|done].
  destruct (round_inl _ _ _ Hp Hr) as (Hq & _ & Hlt). apply IH; [done|lia..].
Qed.

Lemma push_loop_out n p out :
  push_loop n p out = let '(q, o) := push_loop n p chunk_default in (q, out ⊕ o).
Proof.
  revert p out. induction n as [|n IH]; intros p out; [by rewrite /= chunk_app_nil_r|].
  rewrite !push_loop_round. destruct (round p) as [[q o]|[q o]]; [|by rewrite chunk_app_nil_l].
  rewrite (IH q (out ⊕ o)) (IH q (chunk_default ⊕ o)) chunk_app_nil_l. destruct (push_loop n q chunk_default) as [r o'].
  by rewrite chunk_app_assoc.
Qed.
End rounds.

(** ** Inline tags: rounds and the text that follows *)

Lemma drop_app_split {A} n k (s c : list A) : n ≤ length s → drop (n + k) (s ++ c) = drop k (drop n s ++ c).
Proof. intros. by rewrite -(drop_app_le s) // drop_drop. Qed.

Lemma take_app_split {A} n k (s c : list A) : n ≤ length s → take (n + k) (s ++ c) = take n s ++ take k (drop n s ++ c).
Proof.
  intros Hn. rewrite -{1}(take_drop n s) -app_assoc take_app_ge length_take; [lia|]. do 2 f_equal. lia.
Qed.

Section append.
Context {T : Type}.
Implicit Types (p q : InlineHiddenTagParser T) (out : StreamTextChunk (ExtractedInlineTag T)).

Definition append p (c : str) : InlineHiddenTagParser T := set_pending (pending p ++ c) p.

Lemma find_next_open_min p :
  find_next_open p = (λ '(pos, _, idx), (pos, idx)) <$> min_candidate (specs p) (pending p).
Proof. done. Qed.

Lemma append_append p c d : append (append p c) d = append p (c ++ d).
Proof. unfold append, set_pending. simpl. by rewrite app_assoc. Qed.

Lemma append_nil p : append p [] = p.
Proof. unfold append, set_pending. rewrite app_nil_r. by destruct p. Qed.

Lemma round_append_go p q o c :
  inline_wf p → round p = inl (q, o) → round (append p c) = inl (append q c, o).
Proof.
  intros [_ Hind]. unfold round, append, set_pending. simpl. destruct (active p) as [a|].
  - destruct (find_str _ (pending p)) as [i|] eqn:Hf; [|done]. intros [= <- <-].
    rewrite (find_str_app _ _ c _ Hf). apply find_str_bound in Hf. do 2 f_equal.
    + by rewrite /= drop_app_le.
    + rewrite take_app_le //. slia.
  - rewrite !find_next_open_min /=.
    destruct (min_candidate (specs p) (pending p)) as [[[i l] j]|] eqn:Hm; [|done].
    rewrite (min_candidate_app _ _ c _ Hind Hm). simpl. apply min_candidate_Some in Hm as [Hin _].
    apply elem_of_candidates in Hin as (j' & spec & i' & Hj & Hf%find_str_bound & [= -> -> ->]).
    rewrite Hj. intros [= <- <-]. rewrite drop_app_le // take_app_le //. slia.
Qed.

Lemma buffer_content_eq p a : active p = Some a →
  let n := length (pending p) - longest_suffix_prefix_len (pending p) (active_close a) in
  buffer_content p a = MkInlineHiddenTagParser (specs p) (drop n (pending p))
    (Some (MkActiveTag (active_name a) (active_close a) (active_content a ++ take n (pending p)))).
Proof.
  intros Ha. unfold buffer_content. destruct (Nat.eqb_spec (length (pending p) - longest_suffix_prefix_len (pending p) (active_close a)) 0) as [->|]; [|done].
  rewrite drop_0 app_nil_r. destruct p, a; simpl in *. by subst.
Qed.

Lemma drain_eq p out k :
  let n := length (pending p) - k in
  drain_visible_to_suffix_match p out k
  = (set_pending (drop n (pending p)) p, out ⊕ MkStreamTextChunk (take n (pending p)) []).
Proof.
  unfold drain_visible_to_suffix_match. destruct (Nat.eqb_spec (length (pending p) - k) 0) as [->|].
  - rewrite drop_0 chunk_app_nil_r. by destruct p.
  - by rewrite push_visible_prefix_app.
Qed.

(** The output of a round in front of what it already produced. *)
Definition with_output (o : StreamTextChunk (ExtractedInlineTag T))
    (r : InlineHiddenTagParser T * StreamTextChunk (ExtractedInlineTag T)
         + InlineHiddenTagParser T * StreamTextChunk (ExtractedInlineTag T)) :=
  match r with inl (q, o') => inl (q, o ⊕ o') | inr (q, o') => inr (q, o ⊕ o') end.

Lemma round_append_stop_active p a c :
  active p = Some a → find_str (active_close a) (pending p) = None →
  round (append p c) = round (append (buffer_content p a) c).
Proof.
  intros Ha Hf. rewrite buffer_content_eq //. set (n := _ - _). unfold round, append, set_pending. simpl. rewrite Ha /=.
  pose proof (lsp_le (active_close a) (pending p)) as Hle.
  assert (n ≤ length (pending p)) as Hn by (unfold n; lia).
  assert (longest_suffix_prefix_len (pending p) (active_close a) ≤ length (pending p) - n) as Hlsp by (unfold n; lia).
  rewrite (find_str_app_drop _ _ n Hn Hf Hlsp). destruct (find_str _ (drop n _ ++ c)) as [i|] eqn:Hf'; simpl.
  - do 2 f_equal; [by rewrite -Nat.add_assoc drop_app_split|]. by rewrite take_app_split // app_assoc.
  - do 2 f_equal. rewrite !buffer_content_eq //. simpl. rewrite (lsp_app_drop _ _ n Hn Hlsp).
    pose proof (lsp_le (active_close a) (drop n (pending p) ++ c)) as Hle'. set (k := longest_suffix_prefix_len _ _) in Hle' |- *.
    rewrite length_app length_drop in Hle'.
    replace (length (pending p ++ c) - k) with (n + (length (drop n (pending p) ++ c) - k)) by (rewrite !length_app length_drop; slia).
    by rewrite drop_app_split // take_app_split // app_assoc.
Qed.

Lemma max_open_ge p spec : spec ∈ specs p → longest_suffix_prefix_len (pending p) (spec_open spec) ≤ max_open_prefix_suffix_len p.
Proof.
  unfold max_open_prefix_suffix_len. induction (specs p) as [|s l IH]; [by intros ?%not_elem_of_nil|].
  intros [->|Hin]%elem_of_cons; simpl; [lia|]. specialize (IH Hin). unfold fmap in *. lia.
Qed.

Lemma max_open_le p : max_open_prefix_suffix_len p ≤ length (pending p).
Proof.
  unfold max_open_prefix_suffix_len. induction (specs p) as [|s l IH]; simpl; [lia|].
  pose proof (lsp_le (spec_open s) (pending p)). unfold fmap in *. lia.
Qed.

Lemma round_append_stop_inactive p c :
  active p = None → find_next_open p = None →
  let '(q, o) := drain_visible_to_suffix_match p chunk_default (max_open_prefix_suffix_len p) in
  round (append p c) = with_output o (round (append q c)).
Proof.
  intros Ha Hf. rewrite drain_eq. set (n := _ - _). unfold round, append, set_pending. simpl. rewrite Ha /= chunk_app_nil_l.
  pose proof (max_open_le p) as Hmax. assert (n ≤ length (pending p)) as Hn by (unfold n; lia).
  assert (∀ spec, spec ∈ specs p → longest_suffix_prefix_len (pending p) (spec_open spec) ≤ length (pending p) - n) as Hlsp.
  { intros spec Hin. apply (max_open_ge p) in Hin. unfold n. lia. }
  rewrite find_next_open_min in Hf. apply fmap_None, min_candidate_None in Hf. rewrite Forall_forall in Hf.
  rewrite !find_next_open_min /= (min_candidate_shift _ _ (drop n (pending p) ++ c) n).
  { apply Forall_forall. intros spec Hin. apply find_str_app_drop; auto. }
  destruct (min_candidate _ _) as [[[i l] j]|] eqn:Hm; simpl.
  - rewrite !push_visible_prefix_app !chunk_app_nil_l take_app_split //.
    apply min_candidate_Some in Hm as [(j' & spec & i' & Hj & _ & [= -> -> ->])%elem_of_candidates _].
    by rewrite Hj /= -Nat.add_assoc drop_app_split.
  - rewrite !drain_eq /= !chunk_app_nil_l.
    assert (∀ s, max_open_prefix_suffix_len (MkInlineHiddenTagParser (specs p) s None)
      = foldr Nat.max 0 ((λ spec, longest_suffix_prefix_len s (spec_open spec)) <$> specs p)) as Hk by done.
    pose proof (max_open_le (MkInlineHiddenTagParser (specs p) (drop n (pending p) ++ c) None)) as Hle. simpl in Hle.
    assert (max_open_prefix_suffix_len (MkInlineHiddenTagParser (specs p) (pending p ++ c) None)
      = max_open_prefix_suffix_len (MkInlineHiddenTagParser (specs p) (drop n (pending p) ++ c) None)) as ->.
    { rewrite !Hk. f_equal. apply list_fmap_ext. intros j spec Hj%list_elem_of_lookup_2. apply lsp_app_drop; auto. }
    set (k := max_open_prefix_suffix_len _) in Hle |- *. rewrite length_app length_drop in Hle.
    replace (length (pending p ++ c) - k) with (n + (length (drop n (pending p) ++ c) - k)) by (rewrite !length_app length_drop; slia).
    by rewrite drop_app_split // take_app_split.
Qed.
End append.

(** ** Inline tags: chunk independence *)

Section inline_independent.
Context {T : Type}.
Implicit Types (p q : InlineHiddenTagParser T).

Lemma append_delimiters_ok p c : delimiters_ok p → delimiters_ok (append p c).
Proof. done. Qed.

Lemma round_append_stop p q o c :
  inline_wf p → round p = inr (q, o) → round (append p c) = with_output o (round (append q c)).
Proof.
  intros _ Hr. unfold round in Hr. destruct (active p) as [a|] eqn:Ea.
  - destruct (find_str _ _) eqn:Hf; [done|]. simplify_eq.
    rewrite (round_append_stop_active p a c Ea Hf). destruct (round _) as [[]|[]]; by rewrite /= chunk_app_nil_l.
  - destruct (find_next_open p) as [[i j]|] eqn:Hf.
    + rewrite find_next_open_min in Hf. apply fmap_Some in Hf as ([[i' l] j'] & [(j'' & spec & ? & Hj & _ & [= -> -> ->])%elem_of_candidates _]%min_candidate_Some & [= -> ->]).
      by rewrite Hj in Hr.
    + pose proof (round_append_stop_inactive p c Ea Hf) as Hs. by simplify_eq; rewrite Hr in Hs.
Qed.

Lemma push_loop_append n m k p c :
  inline_wf p → length (pending p) < n → length (pending p) + length c < m → length (pending p) + length c < k →
  push_loop m (append p c) chunk_default
  = let '(p1, o1) := push_loop n p chunk_default in
    let '(p2, o2) := push_loop k (append p1 c) chunk_default in (p2, o1 ⊕ o2).
Proof.
  revert m k p. induction n as [|n IH]; intros m k p Hp Hn Hm Hk; [lia|].
  destruct m as [|m], k as [|k]; try lia. rewrite !push_loop_round.
  destruct (round p) as [[q o]|[q o]] eqn:Hr.
  - destruct (round_inl p q o (proj1 Hp) Hr) as (Hq & Hs & Hlt).
    rewrite (round_append_go p q o c Hp Hr) !chunk_app_nil_l push_loop_out (push_loop_out n q o).
    rewrite (IH m (S k) q); [split; [done|rewrite Hs; apply Hp]|lia..|].
    destruct (push_loop n q chunk_default) as [p1 o1]. rewrite push_loop_round. destruct (round (append p1 c)) as [[r o2]|[r o2]].
    + rewrite push_loop_out. destruct (push_loop k r chunk_default). by rewrite !chunk_app_assoc.
    + by rewrite !chunk_app_assoc.
  - rewrite chunk_app_nil_l push_loop_round (round_append_stop p q o c Hp Hr) /=.
    destruct (round_inr p q o (proj1 Hp) Hr) as (Hq & Hs & Hle).
    destruct (round (append q c)) as [[r o2]|[r o2]] eqn:Hr2; simpl; rewrite !chunk_app_nil_l //.
    destruct (round_inl _ _ _ (append_delimiters_ok q c Hq) Hr2) as (Hr3 & _ & Hlt).
    simpl in Hlt. rewrite length_app in Hlt.
    rewrite push_loop_out (push_loop_out k r o2) (push_loop_fuel m k r chunk_default Hr3) ?chunk_app_assoc; [lia..|].
    destruct (push_loop k r chunk_default). by rewrite chunk_app_assoc.
Qed.

Lemma push_loop_wf n p out :
  inline_wf p → inline_wf (push_loop n p out).1 ∧ length (pending (push_loop n p out).1) ≤ length (pending p).
Proof.
  revert p out. induction n as [|n IH]; intros p out Hp; [done|]. rewrite push_loop_round.
  destruct (round p) as [[q o]|[q o]] eqn:Hr.
  - destruct (round_inl p q o (proj1 Hp) Hr) as (Hq & Hs & Hlt).
    destruct (IH q (out ⊕ o)) as [Hw Hl]; [split; [done|rewrite Hs; apply Hp]|]. split; [done|lia].
  - destruct (round_inr p q o (proj1 Hp) Hr) as (Hq & Hs & Hle).
    split; [split; [done|rewrite Hs; apply Hp]|done].
Qed.

(** A settled parser: an empty piece changes nothing. *)
Definition inline_ok p : Prop := inline_wf p ∧ push_inline p [] = (p, chunk_default).

Lemma push_inline_loop p c n :
  inline_wf p → length (pending p) + length c < n → push_inline p c = push_loop n (append p c) chunk_default.
Proof.
  intros Hp Hn. unfold push_inline. apply push_loop_fuel; [by apply append_delimiters_ok, Hp|simpl; lia|].
  simpl. rewrite length_app. slia.
Qed.

Lemma push_inline_app p c d :
  inline_wf p →
  push_inline p (c ++ d) = let '(p1, o1) := push_inline p c in let '(p2, o2) := push_inline p1 d in (p2, o1 ⊕ o2).
Proof.
  intros Hp. assert (∃ n, length (pending p) + length c + length d < n) as [n Hn] by (eexists; apply Nat.lt_succ_diag_r).
  rewrite (push_inline_loop p (c ++ d) n) ?length_app //; [slia|]. rewrite (push_inline_loop p c n) //; [slia|].
  rewrite -append_append (push_loop_append n n n (append p c) d) //; try (simpl; rewrite length_app; slia).
  destruct (push_loop_wf n (append p c) chunk_default Hp) as [Hw Hl]. simpl in Hl. rewrite length_app in Hl.
  destruct (push_loop n (append p c) chunk_default) as [p1 o1]. simpl in *.
  rewrite (push_inline_loop p1 d n) //. slia.
Qed.

Lemma push_inline_wf p c : inline_wf p → inline_wf (push_inline p c).1.
Proof. intros Hp. unfold push_inline. by apply push_loop_wf. Qed.

#[export] Instance inline_chunk_independent :
  ChunkIndependent (InlineHiddenTagParser T) (ExtractedInlineTag T) inline_ok eq.
Proof.
  split; try apply _; simpl.
  - intros p c [Hp _]. split; [by apply push_inline_wf|].
    pose proof (push_inline_app p c [] Hp) as Happ. rewrite app_nil_r in Happ.
    destruct (push_inline p c) as [p1 o1]. simpl. destruct (push_inline p1 []) as [p2 o2].
    injection Happ as <- Ho. f_equal. by apply chunk_app_nil_inv in Ho.
  - by intros p [].
  - intros p c d [Hp _]. rewrite push_inline_app //. destruct (push_inline p c) as [p1 o1].
    by destruct (push_inline p1 d) as [p2 o2].
Qed.
End inline_independent.

(** ** Properties of inline tags *)

Section new_inline.
Context {T : Type}.

Lemma new_inline_ok (specs : list (InlineTagSpec T)) p :
  new_inline specs = Some p → openers_independent specs → inline_ok p.
Proof.
  unfold new_inline. destruct (is_empty specs); [done|]. destruct (existsb _ specs) eqn:Hex; [done|].
  intros [= <-] Hind.
  assert (Forall (λ spec, spec_open spec ≠ [] ∧ spec_close spec ≠ []) specs) as Hne.
  { apply Forall_forall. intros spec Hin. apply not_true_iff_false in Hex. rewrite existsb_exists in Hex.
    split; intros He; apply Hex; exists spec; (split; [by apply list_elem_of_In|]); rewrite He ?orb_true_r //. }
  split; [by repeat split|]. unfold push_inline, set_pending. rewrite push_loop_round. unfold round. simpl.
  rewrite find_next_open_min. simpl. destruct (min_candidate specs []) as [[[i l] j]|] eqn:Hm; simpl.
  - apply min_candidate_Some in Hm as [(? & spec & ? & Hl & Hf%find_str_bound & _)%elem_of_candidates _].
    destruct (proj1 (Forall_lookup _ _) Hne _ _ Hl) as [Ho%length_cons_ne _]. simpl in Hf. slia.
  - done.
Qed.

(** However a text is cut into pieces, the parser of inline hidden tags shows
    the same text and extracts the same tags, provided that no opening
    delimiter stands inside another; an empty delimiter is refused. *)
Theorem inline_tags_independent_of_pieces (specs : list (InlineTagSpec T)) :
  match new_inline specs with
  | None => specs = [] ∨ Exists (λ spec, spec_open spec = [] ∨ spec_close spec = []) specs
  | Some p => openers_independent specs → ∀ pieces, collect p pieces = collect p [concat pieces]
  end.
Proof.
  destruct (new_inline specs) as [p|] eqn:Hn.
  - intros Hind pieces. destruct (collect_concat p pieces (new_inline_ok specs p Hn Hind)) as [Hv He].
    destruct (collect p pieces), (collect p [concat pieces]); simpl in *. by subst.
  - unfold new_inline in Hn. destruct specs as [|spec specs]; [by left|]. right. cbn [is_empty] in Hn.
    destruct (existsb _ (spec :: specs)) eqn:Hex; [|done]. apply existsb_exists in Hex as (s & Hs & He).
    apply Exists_exists. exists s. split; [by apply list_elem_of_In|].
    apply orb_true_iff in He as [He%is_empty_true|He%is_empty_true]; auto.
Qed.
End new_inline.

(** The condition is needed: of two tags whose openings begin alike, the pieces
    decide which one opens. *)
Example nested_openers_depend_on_pieces :
  let specs := [MkInlineTagSpec false "<a" ">"; MkInlineTagSpec true "<ab" ">"] in
  match new_inline specs with
  | Some p => extracted (collect p [lit "<ab>"]) = [MkExtractedInlineTag true []]
      ∧ extracted (collect p [lit "<a"; lit "b>"]) = [MkExtractedInlineTag false (lit "b")]
  | None => False
  end.
Proof. by vm_compute. Qed.

(** ** Citations *)

Lemma collect_citation p pieces :
  collect (MkCitationStreamParser p) pieces = citation_chunk (collect p pieces).
Proof.
  assert (∀ p pieces, push_all (MkCitationStreamParser p) pieces
    = let '(q, o) := push_all p pieces in (MkCitationStreamParser q, citation_chunk o)) as Hall.
  { clear. intros p pieces. revert p. induction pieces as [|c r IH]; intros p; [done|]. simpl.
    destruct (push_inline p c) as [p1 o1]. rewrite IH. destruct (push_all p1 r) as [p2 o2].
    unfold citation_chunk, chunk_app. simpl. by rewrite fmap_app. }
  unfold collect. rewrite Hall. destruct (push_all p pieces) as [q o]. simpl.
  destruct (finish_inline q) as [r o']. unfold citation_chunk, chunk_app. simpl. by rewrite fmap_app.
Qed.

Lemma citation_openers_independent : openers_independent [citation_spec].
Proof. by intros a b x y ->%list_elem_of_singleton ->%list_elem_of_singleton. Qed.

Lemma new_citation_ok : inline_ok (inner new_citation).
Proof. apply (new_inline_ok [citation_spec]); [apply new_citation_asserts|apply citation_openers_independent]. Qed.

#[export] Instance citation_chunk_independent :
  ChunkIndependent CitationStreamParser str (λ p, inline_ok (inner p)) eq.
Proof.
  split; try apply _.
  - intros [p] c Hp. pose proof (push_ok (R := eq) p c Hp) as Hok. simpl in *. by destruct (push_inline p c).
  - intros [p] Hp. pose proof (push_nil (R := eq) p Hp) as Hnil. simpl in *. by rewrite Hnil.
  - intros [p] c d Hp. pose proof (push_app (R := eq) p c d Hp) as Happ. simpl in *.
    destruct (push_inline p c) as [p1 o1]. simpl. destruct (push_inline p1 d) as [p2 o2], (push_inline p (c ++ d)) as [p3 o3].
    simpl in *. destruct Happ as (-> & Hv & He). split; [done|].
    split; simpl in *; [by rewrite Hv|]. by rewrite He /= fmap_app.
Qed.

Lemma collect_strip_citations pieces :
  collect new_citation pieces
  = MkStreamTextChunk (strip_citations (concat pieces)).1 (strip_citations (concat pieces)).2.
Proof.
  destruct (collect_concat (R := eq) new_citation pieces new_citation_ok) as [Hv He]. revert Hv He.
  destruct (collect new_citation pieces) as [v e]. unfold collect, strip_citations. cbn [push_all].
  destruct (push_str new_citation (concat pieces)) as [q o]. destruct (finish q) as [r t].
  rewrite chunk_app_nil_r. simpl. by intros -> ->.
Qed.

(** A text with citations: what stands before each, its body, the text after
    the last one, and the body of one that the text does not close. *)
Definition render_citations (cited : list (str * str)) (tail : str) (open : option str) : str :=
  concat ((λ '(v, c), v ++ CITATION_OPEN ++ c ++ CITATION_CLOSE) <$> cited) ++ tail
  ++ match open with Some c => CITATION_OPEN ++ c | None => [] end.
Definition citation_free (delimiter s : str) : Prop := find_str delimiter s = None.

(** No border: the delimiter does not overlap itself. *)
Lemma find_str_first n v r :
  longest_suffix_prefix_len n n = 0 → find_str n v = None → find_str n (v ++ n ++ r) = Some (length v).
Proof.
  intros Hb Hv. apply find_str_Some. split; [by exists v, r|]. intros j Hj (a & b & Hs & <-).
  destruct (decide (length a + length n ≤ length v)) as [Hin|Hin].
  - eapply (proj1 (find_str_None n v) Hv (length a)). exists a, (drop (length a + length n) v). split; [|done].
    rewrite app_assoc -{1}(take_drop (length a + length n) v). f_equal.
    rewrite -(take_app_le v (n ++ r)) // Hs app_assoc take_app_le ?length_app // -length_app firstn_all //.
  - assert (n = take (length v - length a) n ++ take (length n - (length v - length a)) n) as Hov.
    { rewrite -{1}(take_drop (length v - length a) n). f_equal.
      apply (f_equal (drop (length v))) in Hs. rewrite drop_app_length drop_app_ge in Hs; [lia|].
      rewrite drop_app_le in Hs; [slia|].
      apply (f_equal (take (length n - (length v - length a)))) in Hs.
      rewrite take_app_le in Hs; [lia|]. rewrite Hs take_app_le ?length_drop; [slia|].
      rewrite firstn_all2 // length_drop. slia. }
    apply lsp_max in Hov; [|lia]. lia.
Qed.

Lemma find_next_open_single {T} (spec : InlineTagSpec T) s a :
  find_next_open (MkInlineHiddenTagParser [spec] s a) = (λ i, (i, 0)) <$> find_str (spec_open spec) s.
Proof. unfold find_next_open, candidates. simpl. by destruct (find_str _ s). Qed.

Definition outside (s : str) : InlineHiddenTagParser CitationTag := MkInlineHiddenTagParser [citation_spec] s None.
Definition inside (c s : str) : InlineHiddenTagParser CitationTag :=
  MkInlineHiddenTagParser [citation_spec] s (Some (MkActiveTag Citation CITATION_CLOSE c)).

Lemma citation_open_free v r :
  citation_free CITATION_OPEN v → find_str CITATION_OPEN (v ++ CITATION_OPEN ++ r) = Some (length v).
Proof. by apply find_str_first. Qed.
Lemma citation_close_free v r :
  citation_free CITATION_CLOSE v → find_str CITATION_CLOSE (v ++ CITATION_CLOSE ++ r) = Some (length v).
Proof. by apply find_str_first. Qed.

(** The rounds of the loop on the parts of a rendered text. *)
Lemma round_open v r :
  citation_free CITATION_OPEN v →
  round (outside (v ++ CITATION_OPEN ++ r)) = inl (inside [] r, MkStreamTextChunk v []).
Proof.
  intros Hv. unfold round, outside. cbn [active pending specs]. rewrite find_next_open_single citation_open_free //.
  change (spec_open citation_spec) with CITATION_OPEN. cbn [fmap option_fmap option_map lookup list_lookup].
  rewrite take_app_length push_visible_prefix_app chunk_app_nil_l. unfold inside. do 3 f_equal.
  by rewrite app_assoc drop_app_length' // length_app.
Qed.

Lemma round_close c r :
  citation_free CITATION_CLOSE c →
  round (inside [] (c ++ CITATION_CLOSE ++ r))
  = inl (outside r, MkStreamTextChunk [] [MkExtractedInlineTag Citation c]).
Proof.
  intros Hc. unfold round, inside, active_close, active_content. cbn [active pending specs].
  rewrite citation_close_free // take_app_length. unfold outside. do 3 f_equal.
  by rewrite app_assoc drop_app_length' // length_app.
Qed.

(** What is left in the parser when the text ends. *)
Lemma finish_outside v :
  citation_free CITATION_OPEN v →
  ∃ q o, round (outside v) = inr (q, o) ∧ o ⊕ (finish_inline q).2 = MkStreamTextChunk v [].
Proof.
  intros Hv. unfold round, outside. cbn [active pending specs]. rewrite find_next_open_single Hv /= drain_eq chunk_app_nil_l.
  do 2 eexists. split; [done|]. unfold finish_inline. simpl. rewrite push_visible_prefix_app chunk_app_nil_l.
  unfold chunk_app. simpl. by rewrite take_drop.
Qed.

Lemma finish_inside c :
  citation_free CITATION_CLOSE c →
  ∃ q, round (inside [] c) = inr (q, chunk_default)
    ∧ (finish_inline q).2 = MkStreamTextChunk [] [MkExtractedInlineTag Citation c].
Proof.
  intros Hc. unfold round, inside, active_close, active_content. cbn [active pending specs]. rewrite Hc buffer_content_eq //.
  eexists. split; [done|]. unfold finish_inline, push_extracted. simpl. by rewrite take_drop.
Qed.

Lemma collect_render n cited tail open out :
  Forall (λ '(v, c), citation_free CITATION_OPEN v ∧ citation_free CITATION_CLOSE c) cited →
  citation_free CITATION_OPEN tail → from_option (citation_free CITATION_CLOSE) True open →
  2 * length cited + 1 < n →
  let '(q, o) := push_loop n (outside (render_citations cited tail open)) out in
  o ⊕ (finish_inline q).2
  = out ⊕ MkStreamTextChunk (concat cited.*1 ++ tail)
      (MkExtractedInlineTag Citation <$> cited.*2 ++ option_list open).
Proof.
  intros Hc Ht Ho. revert n out. unfold render_citations. induction Hc as [|[v c] cited [Hv Hc] _ IH]; intros n out Hn.
  - destruct n as [|n]; [lia|]. destruct open as [c|]; cbn [concat fmap list_fmap app option_list from_option] in *.
    + destruct n as [|n]; [simpl in Hn; lia|]. rewrite push_loop_round round_open // push_loop_round.
      destruct (finish_inside c Ho) as (q & -> & ->).
      rewrite chunk_app_nil_r -chunk_app_assoc. unfold chunk_app at 2. simpl. by rewrite app_nil_r.
    + rewrite app_nil_r push_loop_round. destruct (finish_outside tail Ht) as (q & o & -> & He).
      by rewrite -chunk_app_assoc He.
  - simpl in Hn. destruct n as [|[|n]]; [lia..|]. rewrite push_loop_round. cbn [concat fmap list_fmap app].
    rewrite -!app_assoc round_open //. rewrite push_loop_round round_close //.
    specialize (IH n (out ⊕ MkStreamTextChunk v [] ⊕ MkStreamTextChunk [] [MkExtractedInlineTag Citation c]) ltac:(lia)).
    destruct (push_loop n _ _) as [q o]. rewrite IH -!chunk_app_assoc. by f_equal.
Qed.

(** A text with citations is taken apart again: whatever the pieces it comes
    in, the citations are the bodies, also of one left open at the end, and
    what is shown is the rest. *)
Theorem citations_round_trip cited tail open pieces :
  Forall (λ '(v, c), citation_free CITATION_OPEN v ∧ citation_free CITATION_CLOSE c) cited →
  citation_free CITATION_OPEN tail → from_option (citation_free CITATION_CLOSE) True open →
  concat pieces = render_citations cited tail open →
  collect new_citation pieces
    = MkStreamTextChunk (concat cited.*1 ++ tail) (cited.*2 ++ option_list open)
  ∧ strip_citations (render_citations cited tail open) = (concat cited.*1 ++ tail, cited.*2 ++ option_list open).
Proof.
  intros Hc Ht Ho Hp.
  assert (collect new_citation [render_citations cited tail open]
    = MkStreamTextChunk (concat cited.*1 ++ tail) (cited.*2 ++ option_list open)) as Hone.
  { unfold new_citation. rewrite collect_citation. unfold collect. simpl.
    rewrite (push_inline_loop _ _ (S (S (length (render_citations cited tail open) + 2 * length cited)))); [apply new_citation_ok|simpl; slia|].
    pose proof (collect_render (S (S (length (render_citations cited tail open) + 2 * length cited))) cited tail open chunk_default Hc Ht Ho ltac:(lia)) as Hr.
    unfold outside in Hr. unfold append, set_pending. simpl specs. simpl pending. simpl active.
    destruct (push_loop _ _ _) as [q o]. rewrite chunk_app_nil_r Hr. unfold citation_chunk. simpl. f_equal.
    by rewrite -list_fmap_compose list_fmap_id. }
  rewrite !collect_strip_citations /= app_nil_r in Hone |- *. rewrite Hp Hone. split; [done|].
  injection Hone as <- <-. apply surjective_pairing.
Qed.

(** ** The properties at concrete inputs *)

Definition two_tags : list (InlineTagSpec bool) :=
  [MkInlineTagSpec false "<a>" "</a>"; MkInlineTagSpec true "<b>" "</b>"].

Lemma two_tags_independent : openers_independent two_tags.
Proof.
  intros a b x y Ha Hb Heq. rewrite /two_tags !elem_of_cons !elem_of_nil in Ha Hb. destruct Ha as [->|[->|[]]], Hb as [->|[->|[]]];
    try done; exfalso; vm_compute in Heq; repeat (destruct x as [|? x]; [by simplify_eq/=|]; simplify_eq/=).
Qed.

Example inline_tags_independent_of_pieces_witness :
  match new_inline two_tags with
  | Some p => collect p [lit "1<"; lit "a>x<"; lit "/a>2<b>y</b>3"] = MkStreamTextChunk "123"
      [MkExtractedInlineTag false (lit "x"); MkExtractedInlineTag true (lit "y")]
  | None => False
  end.
Proof.
  pose proof (inline_tags_independent_of_pieces two_tags) as H.
  destruct (new_inline two_tags) as [p|] eqn:E; [|vm_compute in E; discriminate].
  rewrite (H two_tags_independent). vm_compute in E. injection E as <-. by vm_compute.
Defined.

Example citations_round_trip_witness :
  collect new_citation [lit "Hello <oai-mem-"; lit "citation>source A</oai-mem-"; lit "citation> world<oai-mem-citation>B"]
  = MkStreamTextChunk "Hello  world" [lit "source A"; lit "B"].
Proof.
  apply (citations_round_trip [(lit "Hello ", lit "source A")] (lit " world") (Some (lit "B"))).
  - repeat constructor; vm_compute; reflexivity.
  - vm_compute; reflexivity.
  - vm_compute; reflexivity.
  - vm_compute; reflexivity.
Defined.
