(* ===== verification/TaggedLines.v ===== *)
(** The markup of streamed assistant text, part two:
    [codex-rs/utils/stream-parser/src/{tagged_line_parser,proposed_plan,assistant_text}.rs].
    A tag that stands alone on its line opens or closes a block. The parser
    works character by character and holds a line back only as long as it may
    still become a tag; it is proved to refine a specification that looks at
    whole lines ([text_atoms]). *)
From S2P Require Import Prelude StreamText.
#[local] Open Scope nat_scope.

(** ** [tagged_line_parser.rs] *)

Record TagSpec (T : Type) := MkTagSpec {
  tag_open : str;
  tag_close : str;
  tag_name : T
}.
Arguments MkTagSpec {T} tag_open tag_close tag_name.
Arguments tag_open {T} t.
Arguments tag_close {T} t.
Arguments tag_name {T} t.

Inductive TaggedLineSegment (T : Type) : Type :=
| Normal (text : str)
| TagStart (tag : T)
| TagDelta (tag : T) (text : str)
| TagEnd (tag : T).
Arguments Normal {T} text.
Arguments TagStart {T} tag.
Arguments TagDelta {T} tag text.
Arguments TagEnd {T} tag.

Record TaggedLineParser (T : Type) := MkTaggedLineParser {
  tag_specs : list (TagSpec T);
  active_tag : option T;
  detect_tag : bool;
  line_buffer : str
}.
Arguments MkTaggedLineParser {T} tag_specs active_tag detect_tag line_buffer.
Arguments tag_specs {T} t.
Arguments active_tag {T} t.
Arguments detect_tag {T} t.
Arguments line_buffer {T} t.

Section tagged_line.
Context {T : Type} `{EqDecision T}.
Implicit Types (p : TaggedLineParser T) (segments : list (TaggedLineSegment T)) (slug line : str).

Definition new_tagged_line (specs : list (TagSpec T)) : TaggedLineParser T :=
  MkTaggedLineParser specs None true [].

Definition set_last {A} (x : A) (l : list A) : list A := take (length l - 1) l ++ [x].

(** Text is joined to a last segment of the same kind. *)
Definition push_segment segments (segment : TaggedLineSegment T) : list (TaggedLineSegment T) :=
  match segment with
  | Normal delta =>
      if is_empty delta then segments
      else match last segments with
           | Some (Normal existing) => set_last (Normal (existing ++ delta)) segments
           | _ => segments ++ [Normal delta]
           end
  | TagDelta tag delta =>
      if is_empty delta then segments
      else match last segments with
           | Some (TagDelta existing_tag existing) =>
               if decide (existing_tag = tag) then set_last (TagDelta existing_tag (existing ++ delta)) segments
               else segments ++ [TagDelta tag delta]
           | _ => segments ++ [TagDelta tag delta]
           end
  | TagStart tag => segments ++ [TagStart tag]
  | TagEnd tag => segments ++ [TagEnd tag]
  end.

Definition push_text p (text : str) segments : list (TaggedLineSegment T) :=
  match active_tag p with
  | Some tag => push_segment segments (TagDelta tag text)
  | None => push_segment segments (Normal text)
  end.

Definition is_tag_prefix p slug : bool :=
  let slug := trim_end slug in
  existsb (λ spec, starts_with slug (tag_open spec) || starts_with slug (tag_close spec)) (tag_specs p).

Definition match_open p slug : option T := tag_name <$> find (λ spec, tag_open spec =s? slug) (tag_specs p).
Definition match_close p slug : option T := tag_name <$> find (λ spec, tag_close spec =s? slug) (tag_specs p).

Definition set_tag (tag : option T) p : TaggedLineParser T :=
  MkTaggedLineParser (tag_specs p) tag (detect_tag p) (line_buffer p).
Definition set_detect (detect : bool) p : TaggedLineParser T :=
  MkTaggedLineParser (tag_specs p) (active_tag p) detect (line_buffer p).
Definition set_buffer (line : str) p : TaggedLineParser T :=
  MkTaggedLineParser (tag_specs p) (active_tag p) (detect_tag p) line.

(** A buffered line, with or without its end, as a tag or as text. *)
Definition line_slug (line : str) : str :=
  trim_end (trim_start (match strip_suffix [ch_nl] line with Some l => l | None => line end)).

Definition finish_line p segments : TaggedLineParser T * list (TaggedLineSegment T) :=
  let line := line_buffer p in
  let p := set_buffer [] p in
  let slug := line_slug line in
  match match_open p slug, active_tag p with
  | Some tag, None => (set_detect true (set_tag (Some tag) p), push_segment segments (TagStart tag))
  | _, _ =>
      match match_close p slug with
      | Some tag =>
          if decide (active_tag p = Some tag)
          then (set_detect true (set_tag None p), push_segment segments (TagEnd tag))
          else let p := set_detect true p in (p, push_text p line segments)
      | None => let p := set_detect true p in (p, push_text p line segments)
      end
  end.

(** One round of the loop over the characters of [delta]; [run] is the text of
    the current line that is known not to be a tag. *)
Definition parse_char p (run : str) segments (ch : char)
    : TaggedLineParser T * str * list (TaggedLineSegment T) :=
  if detect_tag p then
    let '(run, segments) := if negb (is_empty run) then ([], push_text p run segments) else (run, segments) in
    let p := set_buffer (line_buffer p ++ [ch]) p in
    if (ch =? ch_nl)%N then let '(p, segments) := finish_line p segments in (p, run, segments)
    else
      let slug := trim_start (line_buffer p) in
      if is_empty slug || is_tag_prefix p slug then (p, run, segments)
      else
        let buffered := line_buffer p in
        let p := set_detect false (set_buffer [] p) in
        (p, run, push_text p buffered segments)
  else
    let run := run ++ [ch] in
    if (ch =? ch_nl)%N then (set_detect true p, [], push_text p run segments)
    else (p, run, segments).

Fixpoint parse_chars p (run : str) segments (delta : str)
    : TaggedLineParser T * list (TaggedLineSegment T) :=
  match delta with
  | [] => (p, if negb (is_empty run) then push_text p run segments else segments)
  | ch :: rest => let '(p, run, segments) := parse_char p run segments ch in parse_chars p run segments rest
  end.

Definition parse p (delta : str) : TaggedLineParser T * list (TaggedLineSegment T) :=
  parse_chars p [] [] delta.

(** The end of the stream: the last line, then the block that is open. *)
Definition finish_buffer p : TaggedLineParser T * list (TaggedLineSegment T) :=
  if negb (is_empty (line_buffer p)) then
    let buffered := line_buffer p in
    let p := set_buffer [] p in
    let slug := line_slug buffered in
    match match_open p slug, active_tag p with
    | Some tag, None => (set_tag (Some tag) p, push_segment [] (TagStart tag))
    | _, _ =>
        match match_close p slug with
        | Some tag =>
            if decide (active_tag p = Some tag) then (set_tag None p, push_segment [] (TagEnd tag))
            else (p, push_text p buffered [])
        | None => (p, push_text p buffered [])
        end
    end
  else (p, []).

Definition finish_tagged_line p : TaggedLineParser T * list (TaggedLineSegment T) :=
  let '(p, segments) := finish_buffer p in
  let segments := match active_tag p with Some tag => push_segment segments (TagEnd tag) | None => segments end in
  (set_detect true (set_tag None p), segments).
End tagged_line.

(** ** [proposed_plan.rs] *)

Definition OPEN_TAG : str := "<proposed_plan>".
Definition CLOSE_TAG : str := "</proposed_plan>".

Inductive PlanTag : Type := ProposedPlan.
#[export] Instance PlanTag_eq_dec : EqDecision PlanTag.
Proof. solve_decision. Defined.

Inductive ProposedPlanSegment : Type :=
| PlanNormal (text : str)
| ProposedPlanStart
| ProposedPlanDelta (text : str)
| ProposedPlanEnd.

Record ProposedPlanParser := MkProposedPlanParser { plan_parser : TaggedLineParser PlanTag }.

Definition plan_spec : TagSpec PlanTag := MkTagSpec OPEN_TAG CLOSE_TAG ProposedPlan.
Definition new_proposed_plan : ProposedPlanParser := MkProposedPlanParser (new_tagged_line [plan_spec]).

Definition map_segment (segment : TaggedLineSegment PlanTag) : ProposedPlanSegment :=
  match segment with
  | Normal text => PlanNormal text
  | TagStart ProposedPlan => ProposedPlanStart
  | TagDelta ProposedPlan text => ProposedPlanDelta text
  | TagEnd ProposedPlan => ProposedPlanEnd
  end.
Definition map_segments (segments : list (TaggedLineSegment PlanTag)) : StreamTextChunk ProposedPlanSegment :=
  foldl (λ out segment,
    let mapped := map_segment segment in
    MkStreamTextChunk
      (match mapped with PlanNormal text => visible_text out ++ text | _ => visible_text out end)
      (extracted out ++ [mapped])) chunk_default segments.

#[export] Instance proposed_plan_parser : StreamTextParser ProposedPlanParser ProposedPlanSegment :=
  {| push_str := λ p chunk, let '(q, segments) := parse (plan_parser p) chunk in (MkProposedPlanParser q, map_segments segments);
     finish := λ p, let '(q, segments) := finish_tagged_line (plan_parser p) in (MkProposedPlanParser q, map_segments segments) |}.

Definition strip_proposed_plan_blocks (text : str) : str :=
  let '(parser, out) := push_str new_proposed_plan text in
  visible_text out ++ visible_text (finish parser).2.

(** The text of the last block: each start clears what was gathered. *)
Definition plan_text_step (acc : bool * str) (segment : ProposedPlanSegment) : bool * str :=
  match segment with
  | ProposedPlanStart => (true, [])
  | ProposedPlanDelta delta => (acc.1, acc.2 ++ delta)
  | ProposedPlanEnd | PlanNormal _ => acc
  end.
Definition extract_proposed_plan_text (text : str) : option str :=
  let '(parser, out) := push_str new_proposed_plan text in
  let '(saw_plan_block, plan_text) := foldl plan_text_step (false, []) (extracted out ++ extracted (finish parser).2) in
  if saw_plan_block then Some plan_text else None.

(** ** [assistant_text.rs] *)

Record AssistantTextChunk := MkAssistantTextChunk {
  assistant_visible_text : str;
  citations : list str;
  plan_segments : list ProposedPlanSegment
}.

Record AssistantTextStreamParser := MkAssistantTextStreamParser {
  plan_mode : bool;
  citation_parser : CitationStreamParser;
  plan : ProposedPlanParser
}.

Definition new_assistant_text (plan_mode : bool) : AssistantTextStreamParser :=
  MkAssistantTextStreamParser plan_mode new_citation new_proposed_plan.

Definition parse_visible_text (p : AssistantTextStreamParser) (text : str)
    : AssistantTextStreamParser * AssistantTextChunk :=
  if negb (plan_mode p) then (p, MkAssistantTextChunk text [] [])
  else
    let '(plan, plan_chunk) := push_str (plan p) text in
    (MkAssistantTextStreamParser (plan_mode p) (citation_parser p) plan,
     MkAssistantTextChunk (visible_text plan_chunk) [] (extracted plan_chunk)).

Definition assistant_push_str (p : AssistantTextStreamParser) (chunk : str)
    : AssistantTextStreamParser * AssistantTextChunk :=
  let '(c, citation_chunk) := push_str (citation_parser p) chunk in
  let '(p, out) := parse_visible_text (MkAssistantTextStreamParser (plan_mode p) c (plan p)) (visible_text citation_chunk) in
  (p, MkAssistantTextChunk (assistant_visible_text out) (extracted citation_chunk) (plan_segments out)).

Definition assistant_finish (p : AssistantTextStreamParser) : AssistantTextStreamParser * AssistantTextChunk :=
  let '(c, citation_chunk) := finish (citation_parser p) in
  let '(p, out) := parse_visible_text (MkAssistantTextStreamParser (plan_mode p) c (plan p)) (visible_text citation_chunk) in
  let '(p, out) :=
    if plan_mode p then
      let '(plan, tail) := finish (plan p) in
      (MkAssistantTextStreamParser (plan_mode p) (citation_parser p) plan,
       if negb (chunk_is_empty tail)
       then MkAssistantTextChunk (assistant_visible_text out ++ visible_text tail) (citations out)
              (plan_segments out ++ extracted tail)
       else out)
    else (p, out) in
  (p, MkAssistantTextChunk (assistant_visible_text out) (extracted citation_chunk) (plan_segments out)).

Example strips_plan : strip_proposed_plan_blocks
  (lit "before" ++ [ch_nl] ++ lit "<proposed_plan>" ++ [ch_nl] ++ lit "- step" ++ [ch_nl] ++ lit "</proposed_plan>" ++ [ch_nl] ++ lit "after")
  = lit "before" ++ [ch_nl] ++ lit "after".
Proof. eval_done. Qed.

Example extracts_plan : extract_proposed_plan_text
  (lit "before" ++ [ch_nl] ++ lit "<proposed_plan>" ++ [ch_nl] ++ lit "- step" ++ [ch_nl] ++ lit "</proposed_plan>" ++ [ch_nl] ++ lit "after")
  = Some (lit "- step" ++ [ch_nl]).
Proof. eval_done. Qed.

(** ** What segments mean *)

(** One event per character and per tag: where a text is cut into segments
    does not show. *)
Inductive atom (T : Type) : Type :=
| AText (block : option T) (c : char)
| AStart (tag : T)
| AEnd (tag : T).
Arguments AText {T} block c.
Arguments AStart {T} tag.
Arguments AEnd {T} tag.

Definition segment_atoms {T} (segment : TaggedLineSegment T) : list (atom T) :=
  match segment with
  | Normal text => AText None <$> text
  | TagStart tag => [AStart tag]
  | TagDelta tag text => AText (Some tag) <$> text
  | TagEnd tag => [AEnd tag]
  end.
Definition atoms {T} (segments : list (TaggedLineSegment T)) : list (atom T) := concat (segment_atoms <$> segments).

(** The text outside of blocks. *)
Definition normal_char {T} (a : atom T) : option char :=
  match a with AText None c => Some c | _ => None end.
Definition normal_text {T} (l : list (atom T)) : str := omap normal_char l.

Lemma atoms_app {T} (a b : list (TaggedLineSegment T)) : atoms (a ++ b) = atoms a ++ atoms b.
Proof. unfold atoms. by rewrite fmap_app concat_app. Qed.
Lemma atoms_singleton {T} (s : TaggedLineSegment T) : atoms [s] = segment_atoms s.
Proof. unfold atoms. simpl. by rewrite app_nil_r. Qed.

(** ** The specification, line by line *)

Section specification.
Context {T : Type} `{EqDecision T} (specs : list (TagSpec T)).

Definition opens (slug : str) : option T := tag_name <$> find (λ spec, tag_open spec =s? slug) specs.
Definition closes (slug : str) : option T := tag_name <$> find (λ spec, tag_close spec =s? slug) specs.

(** What a line is, given the block it stands in. *)
Definition line_atoms (block : option T) (line : str) : option T * list (atom T) :=
  match opens (trim line), block with
  | Some tag, None => (Some tag, [AStart tag])
  | _, _ =>
      match closes (trim line) with
      | Some tag => if decide (block = Some tag) then (None, [AEnd tag]) else (block, AText block <$> line)
      | None => (block, AText block <$> line)
      end
  end.

Fixpoint lines_atoms (block : option T) (lines : list str) : list (atom T) :=
  match lines with
  | [] => match block with Some tag => [AEnd tag] | None => [] end
  | line :: rest => let '(block', out) := line_atoms block line in out ++ lines_atoms block' rest
  end.

(** A whole text: the block left open at its end is closed. *)
Definition text_atoms (text : str) : list (atom T) := lines_atoms None (split_lines text).
End specification.

(** ** The parser, one character at a time *)

Section refinement.
Context {T : Type} `{EqDecision T}.
Implicit Types (p q : TaggedLineParser T) (segments : list (TaggedLineSegment T)).

Lemma set_last_atoms segments s s' out :
  last segments = Some s → segment_atoms s' = segment_atoms s ++ out → atoms (set_last s' segments) = atoms segments ++ out.
Proof.
  intros [l ->]%last_Some Hs. unfold set_last. rewrite length_app /= Nat.add_sub take_app_length.
  rewrite !atoms_app !atoms_singleton Hs. apply app_assoc.
Qed.

Lemma push_segment_atoms segments s : atoms (push_segment segments s) = atoms segments ++ segment_atoms s.
Proof.
  assert (∀ x, atoms (segments ++ [x]) = atoms segments ++ segment_atoms x) as Hsnoc by (intros; by rewrite atoms_app atoms_singleton).
  destruct s as [d|t|t d|t]; simpl; [|done| |done].
  - destruct d as [|c d]; [by rewrite app_nil_r|]. cbn [is_empty].
    destruct (last segments) as [[e| | |]|] eqn:Hl; try apply Hsnoc. eapply set_last_atoms; [done|]. apply fmap_app.
  - destruct d as [|c d]; [by rewrite app_nil_r|]. cbn [is_empty].
    destruct (last segments) as [[|?|t' e|?]|] eqn:Hl; try apply Hsnoc.
    destruct (decide (t' = t)) as [->|]; [|apply Hsnoc]. eapply set_last_atoms; [done|]. apply fmap_app.
Qed.

Lemma push_text_atoms p text segments : atoms (push_text p text segments) = atoms segments ++ (AText (active_tag p) <$> text).
Proof. unfold push_text. destruct (active_tag p); by rewrite push_segment_atoms. Qed.

(** The line [line], buffered whole, as the specification has it. *)
Lemma line_slug_trim line : line_slug line = trim line.
Proof.
  unfold line_slug. destruct (strip_suffix [ch_nl] line) as [l|] eqn:Hs; [|done]. apply strip_suffix_Some in Hs as ->.
  change (trim_end (trim_start l)) with (trim l). unfold trim, trim_matches, trim_start_matches.
  destruct (drop_while is_whitespace l) as [|c r] eqn:Hd.
  - rewrite (drop_while_all _ (l ++ [ch_nl])) //. apply Forall_app. split; [by apply drop_while_nil|by repeat constructor].
  - assert (drop_while is_whitespace (l ++ [ch_nl]) = (c :: r) ++ [ch_nl]) as ->.
    { rewrite -Hd. clear - Hd. induction l as [|d l IH]; [done|]. simpl in *. destruct (is_whitespace d); auto. }
    unfold trim_end_matches. rewrite (reverse_snoc (c :: r)). done.
Qed.

Lemma match_open_opens p slug : match_open p slug = opens (tag_specs p) slug.
Proof. done. Qed.
Lemma match_close_closes p slug : match_close p slug = closes (tag_specs p) slug.
Proof. done. Qed.

Definition feed p (ch : char) : TaggedLineParser T * list (atom T) :=
  let '(q, run, segments) := parse_char p [] [] ch in (q, atoms segments ++ (AText (active_tag q) <$> run)).
Fixpoint feed_all p (delta : str) : TaggedLineParser T * list (atom T) :=
  match delta with
  | [] => (p, [])
  | ch :: rest => let '(q, out) := feed p ch in let '(r, out') := feed_all q rest in (r, out ++ out')
  end.

Lemma feed_all_app p c d :
  feed_all p (c ++ d) = let '(q, o) := feed_all p c in let '(r, o') := feed_all q d in (r, o ++ o').
Proof.
  revert p. induction c as [|ch c IH]; intros p; simpl; [by destruct (feed_all p d)|].
  destruct (feed p ch) as [q o]. rewrite IH. destruct (feed_all q c) as [r o']. destruct (feed_all r d). by rewrite app_assoc.
Qed.

(** Closing a line leaves the parser at the start of one. *)
Lemma finish_line_atoms p segments :
  let '(q, segments') := finish_line p segments in
  let '(block, out) := line_atoms (tag_specs p) (active_tag p) (line_buffer p) in
  q = MkTaggedLineParser (tag_specs p) block true [] ∧ atoms segments' = atoms segments ++ out.
Proof.
  unfold finish_line, line_atoms. rewrite line_slug_trim match_open_opens match_close_closes /=.
  destruct (opens _ _) as [tag|], (active_tag p) as [t|] eqn:Ha; simpl;
    repeat (case_match || case_decide); simplify_eq/=;
    rewrite /set_detect /set_tag /set_buffer /= ?push_text_atoms /= ?atoms_app ?atoms_singleton ?Ha //.
Qed.

Lemma parse_char_feed p run segments ch :
  let '(q, run', segments') := parse_char p run segments ch in
  let '(q', out) := feed p ch in
  q = q' ∧ atoms segments' ++ (AText (active_tag q) <$> run')
           = atoms segments ++ (AText (active_tag p) <$> run) ++ out.
Proof.
  unfold feed, parse_char. destruct (detect_tag p).
  - assert (∀ r s, (if negb (is_empty r) then ([], push_text p r s) else (r, s)) = (@nil char, if is_empty r then s else push_text p r s)) as Hflush by by intros [].
    rewrite !Hflush. cbn [is_empty negb]. set (segs := if is_empty run then segments else push_text p run segments).
    assert (atoms segs = atoms segments ++ (AText (active_tag p) <$> run)) as Hs.
    { unfold segs. destruct run; [by rewrite app_nil_r|apply push_text_atoms]. }
    destruct (ch =? ch_nl)%N.
    + pose proof (finish_line_atoms (set_buffer (line_buffer p ++ [ch]) p) segs) as H1.
      pose proof (finish_line_atoms (set_buffer (line_buffer p ++ [ch]) p) []) as H2.
      destruct (finish_line _ segs) as [q1 s1], (finish_line _ []) as [q2 s2], (line_atoms _ _ _) as [b o].
      destruct H1 as [-> ->], H2 as [-> ->]. by rewrite Hs /= !app_nil_r app_assoc.
    + destruct (is_empty _ || _); simpl; [by rewrite Hs !app_nil_r|].
      rewrite !push_text_atoms Hs /= !app_nil_r -app_assoc. done.
  - destruct (ch =? ch_nl)%N; simpl.
    + rewrite !push_text_atoms /= !app_nil_r fmap_app. by split.
    + rewrite fmap_app. by split.
Qed.

Lemma parse_chars_feed p run segments delta :
  let '(q, segments') := parse_chars p run segments delta in
  let '(q', out) := feed_all p delta in
  q = q' ∧ atoms segments' = atoms segments ++ (AText (active_tag p) <$> run) ++ out.
Proof.
  revert p run segments. induction delta as [|ch rest IH]; intros p run segments; simpl.
  - split; [done|]. rewrite app_nil_r. destruct run; [by rewrite app_nil_r|apply push_text_atoms].
  - pose proof (parse_char_feed p run segments ch) as Hc. destruct (parse_char p run segments ch) as [[q run'] s'].
    destruct (feed p ch) as [q' o]. destruct Hc as [<- Hc]. specialize (IH q run' s').
    destruct (parse_chars q run' s' rest) as [r s'']. destruct (feed_all q rest) as [r' o'].
    destruct IH as [<- IH]. split; [done|]. rewrite IH app_assoc Hc -!app_assoc. done.
Qed.

(** [parse] does what [feed_all] says. *)
Lemma parse_atoms p delta :
  (parse p delta).1 = (feed_all p delta).1 ∧ atoms (parse p delta).2 = (feed_all p delta).2.
Proof.
  pose proof (parse_chars_feed p [] [] delta) as H. unfold parse.
  destruct (parse_chars p [] [] delta), (feed_all p delta). destruct H as [-> Ha]. by split.
Qed.
End refinement.

(** ** The parser refines the specification *)

Lemma drop_while_stop f a c b : f c = false → ∃ z, drop_while f (a ++ c :: b) = z ++ c :: b.
Proof.
  intros Hc. induction a as [|x a [z Hz]]; simpl; [rewrite Hc; by exists []|].
  destruct (f x); [by exists z|by exists (x :: a)].
Qed.

Lemma trim_end_app s t : ∃ r, trim_end (s ++ t) = trim_end s ++ r.
Proof.
  destruct (trim_end_matches_prefix is_whitespace s) as (q & Hs & _). fold (trim_end s) in Hs.
  destruct (trim_end s) as [|c l _] eqn:He using rev_ind; [by eexists|].
  unfold trim_end in He. pose proof (trim_end_matches_last _ _ _ _ He) as Hc.
  unfold trim_end, trim_end_matches. rewrite Hs -!app_assoc !reverse_app reverse_singleton.
  rewrite -(app_assoc _ [c]). simpl.
  destruct (drop_while_stop is_whitespace (reverse t ++ reverse q) c (reverse l) Hc) as [z ->].
  exists (reverse z). by rewrite reverse_app reverse_cons reverse_involutive.
Qed.

Lemma drop_while_app f s t : drop_while f s ≠ [] → drop_while f (s ++ t) = drop_while f s ++ t.
Proof. induction s as [|c s IH]; [done|]. simpl. destruct (f c); auto. Qed.

Section lines.
Context {T : Type} `{EqDecision T}.
Implicit Types (p q : TaggedLineParser T) (line : str).

(** No tag, whatever follows. *)
Definition dead (specs : list (TagSpec T)) line : Prop :=
  opens specs (trim line) = None ∧ closes specs (trim line) = None.

Lemma find_none_prefix (key : TagSpec T → str) (specs : list (TagSpec T)) slug whole :
  existsb (λ spec, starts_with slug (key spec)) specs = false → (∃ r, whole = slug ++ r) →
  find (λ spec, key spec =s? whole) specs = None.
Proof.
  intros Hex [r ->]. induction specs as [|spec specs IH]; [done|]. simpl in *.
  apply orb_false_iff in Hex as [Hs Hex]. destruct (key spec =s? slug ++ r) eqn:E; [|auto].
  apply str_eqb_eq in E. rewrite (proj2 (starts_with_spec slug (key spec))) in Hs; [by exists r|done].
Qed.

Lemma disproved_dead p line ext :
  trim_start line ≠ [] → is_tag_prefix p (trim_start line) = false → dead (tag_specs p) (line ++ ext).
Proof.
  intros Hne Hpre.
  assert (∃ r, trim (line ++ ext) = trim_end (trim_start line) ++ r) as Hr.
  { unfold trim, trim_matches, trim_start, trim_start_matches in *. rewrite drop_while_app //. apply trim_end_app. }
  assert (∀ key, (∀ spec, starts_with (trim_end (trim_start line)) (key spec) = true →
      starts_with (trim_end (trim_start line)) (tag_open spec) || starts_with (trim_end (trim_start line)) (tag_close spec) = true) →
    find (λ spec, key spec =s? trim (line ++ ext)) (tag_specs p) = None) as Hfind.
  { intros key Hkey. eapply find_none_prefix; [|exact Hr]. apply not_true_iff_false. rewrite existsb_exists.
    intros (spec & Hin & Hs%Hkey). apply not_true_iff_false in Hpre. apply Hpre. unfold is_tag_prefix.
    apply existsb_exists. eauto. }
  split; [unfold opens|unfold closes]; rewrite Hfind //; intros spec ->; by rewrite ?orb_true_r.
Qed.

(** The parser has seen [line] of the current line. *)
Definition at_line p line : Prop :=
  (detect_tag p = true ∧ line_buffer p = line)
  ∨ (detect_tag p = false ∧ line_buffer p = [] ∧ ∀ ext, dead (tag_specs p) (line ++ ext)).
Definition emitted p line : list (atom T) :=
  if detect_tag p then [] else AText (active_tag p) <$> line.

Lemma dead_line_atoms specs block line : dead specs line → line_atoms specs block line = (block, AText block <$> line).
Proof. intros [Ho Hc]. unfold line_atoms. by rewrite Ho Hc. Qed.

Lemma feed_char p line ch :
  at_line p line → ch ≠ ch_nl →
  let '(q, o) := feed p ch in
  at_line q (line ++ [ch]) ∧ tag_specs q = tag_specs p ∧ active_tag q = active_tag p
  ∧ emitted p line ++ o = emitted q (line ++ [ch]).
Proof.
  intros Hp Hch. unfold feed, parse_char. apply N.eqb_neq in Hch as ->. unfold emitted.
  destruct Hp as [[Hd Hb]|(Hd & Hb & Hdead)]; rewrite Hd.
  - cbn [is_empty negb]. simpl line_buffer. rewrite Hb.
    destruct (is_empty _ || _) eqn:E; simpl; rewrite ?Hd.
    + split; [|done]. left. by rewrite Hd.
    + apply orb_false_iff in E as [Hne Hpre]. apply is_empty_false in Hne.
      rewrite push_text_atoms /= app_nil_r. split; [|done]. right. do 2 (split; [done|]). simpl.
      intros ext. by apply (disproved_dead (set_buffer (line ++ [ch]) p)).
  - simpl. rewrite Hd. split; [|by rewrite fmap_app]. right. do 2 (split; [done|]).
    intros ext. by rewrite -app_assoc.
Qed.

Lemma feed_newline p line :
  at_line p line →
  let '(q, o) := feed p ch_nl in
  let '(block, out) := line_atoms (tag_specs p) (active_tag p) (line ++ [ch_nl]) in
  q = MkTaggedLineParser (tag_specs p) block true [] ∧ emitted p line ++ o = out.
Proof.
  intros Hp. unfold feed, parse_char, emitted. rewrite N.eqb_refl.
  destruct Hp as [[Hd Hb]|(Hd & Hb & Hdead)]; rewrite Hd.
  - cbn [is_empty negb]. rewrite Hb.
    pose proof (finish_line_atoms (set_buffer (line ++ [ch_nl]) p) []) as Hf. simpl in Hf.
    destruct (finish_line _ _) as [q s], (line_atoms _ _ _) as [b o]. destruct Hf as [-> ->]. by rewrite /= app_nil_r.
  - rewrite (dead_line_atoms _ _ _ (Hdead [ch_nl])) push_text_atoms /= fmap_app. split; [|done].
    unfold set_detect. by rewrite Hb.
Qed.

Lemma feed_finish p line :
  at_line p line →
  emitted p line ++ atoms (finish_tagged_line p).2
  = lines_atoms (tag_specs p) (active_tag p) (if is_empty line then [] else [line])
  ∧ (finish_tagged_line p).1 = MkTaggedLineParser (tag_specs p) None true [].
Proof.
  intros Hp. unfold finish_tagged_line, finish_buffer, emitted.
  destruct Hp as [[Hd Hb]|(Hd & Hb & Hdead)]; rewrite Hd Hb.
  - destruct line as [|c l]; cbn [is_empty negb].
    { simpl. unfold set_detect, set_tag. simpl. rewrite Hb. by destruct (active_tag p). }
    rewrite line_slug_trim match_open_opens match_close_closes. simpl. unfold line_atoms.
    destruct (opens _ _) as [tag|], (active_tag p) as [t|] eqn:Ha; simpl;
      repeat (case_match || case_decide); simplify_eq/=; rewrite ?Ha ?atoms_app ?push_text_atoms /= ?Ha /= ?app_nil_r //.
  - cbn [is_empty negb]. specialize (Hdead []). rewrite app_nil_r in Hdead.
    destruct line as [|c l]; simpl; [|rewrite dead_line_atoms //];
      unfold set_detect, set_tag; simpl; rewrite Hb; destruct (active_tag p); by rewrite ?app_nil_r.
Qed.

Lemma feed_all_lines p line text :
  at_line p line → ch_nl ∉ line →
  let '(q, o) := feed_all p text in
  emitted p line ++ o ++ atoms (finish_tagged_line q).2
  = lines_atoms (tag_specs p) (active_tag p) (split_lines (line ++ text))
  ∧ (finish_tagged_line q).1 = MkTaggedLineParser (tag_specs p) None true [].
Proof.
  revert p line. induction text as [|ch r IH]; intros p line Hp Hnl; simpl.
  - destruct (feed_finish p line Hp) as [-> ->]. split; [|done]. rewrite app_nil_r.
    destruct line; [done|]. by rewrite split_lines_none.
  - destruct (decide (ch = ch_nl)) as [->|Hch].
    + pose proof (feed_newline p line Hp) as Hf. destruct (feed p ch_nl) as [q o].
      rewrite split_lines_cons //. simpl. destruct (line_atoms _ _ _) as [b out] eqn:El. destruct Hf as [-> <-].
      specialize (IH (MkTaggedLineParser (tag_specs p) b true []) [] ltac:(by left) ltac:(apply not_elem_of_nil)).
      destruct (feed_all _ r) as [q' o']. simpl in IH. destruct IH as [<- ->]. by rewrite -!app_assoc.
    + pose proof (feed_char p line ch Hp Hch) as Hf. destruct (feed p ch) as [q o].
      destruct Hf as (Hq & Hs & Ha & He). specialize (IH q (line ++ [ch]) Hq ltac:(set_solver)).
      destruct (feed_all q r) as [q' o']. rewrite -Hs -Ha -!app_assoc in IH |- *. rewrite app_assoc He.
      destruct IH as [IH ->]. by rewrite IH.
Qed.
End lines.

(** ** Plans *)

Definition unmap_segment (segment : ProposedPlanSegment) : TaggedLineSegment PlanTag :=
  match segment with
  | PlanNormal text => Normal text
  | ProposedPlanStart => TagStart ProposedPlan
  | ProposedPlanDelta text => TagDelta ProposedPlan text
  | ProposedPlanEnd => TagEnd ProposedPlan
  end.
Definition plan_atoms (segments : list ProposedPlanSegment) : list (atom PlanTag) := atoms (unmap_segment <$> segments).

(** Plan segments that mean the same: an equivalence that appending respects. *)
Definition plan_equiv : relation (list ProposedPlanSegment) := λ a b, plan_atoms a = plan_atoms b.

#[export] Instance plan_equiv_equivalence : Equivalence plan_equiv.
Proof. split; [by intros a|by intros a b|]. unfold plan_equiv. by intros a b c -> ->. Qed.

Lemma plan_atoms_app a b : plan_atoms (a ++ b) = plan_atoms a ++ plan_atoms b.
Proof. unfold plan_atoms. by rewrite fmap_app atoms_app. Qed.

#[export] Instance plan_equiv_app : Proper (plan_equiv ==> plan_equiv ==> plan_equiv) app.
Proof. intros a a' Ha b b' Hb. unfold plan_equiv in *. by rewrite !plan_atoms_app Ha Hb. Qed.

Lemma unmap_map (segments : list (TaggedLineSegment PlanTag)) : unmap_segment <$> (map_segment <$> segments) = segments.
Proof. rewrite -list_fmap_compose -{2}(list_fmap_id segments). apply list_fmap_ext. by intros i [|[]|[] ?|[]] _. Qed.

Lemma normal_text_app {T} (a b : list (atom T)) : normal_text (a ++ b) = normal_text a ++ normal_text b.
Proof. apply omap_app. Qed.

Lemma normal_text_block {T} (tag : T) text : normal_text (AText (Some tag) <$> text) = [].
Proof. by induction text. Qed.
Lemma normal_text_none {T} text : normal_text (@AText T None <$> text) = text.
Proof. unfold normal_text. induction text as [|c text IH]; [done|]. cbn. f_equal. apply IH. Qed.

Lemma map_segments_spec segments :
  extracted (map_segments segments) = map_segment <$> segments
  ∧ visible_text (map_segments segments) = normal_text (atoms segments).
Proof.
  unfold map_segments. induction segments as [|s segments [IHe IHv]] using rev_ind; [done|].
  rewrite foldl_app /= fmap_app IHe atoms_app normal_text_app atoms_singleton -IHv.
  split; [done|]. destruct s as [t|[]|[] t|[]]; by rewrite /= ?normal_text_none ?normal_text_block ?app_nil_r.
Qed.

(** What one call gives, from its segments. *)
Lemma plan_chunk_rel out segments o :
  out = map_segments segments → atoms segments = o →
  plan_atoms (extracted out) = o ∧ visible_text out = normal_text o.
Proof.
  intros -> <-. destruct (map_segments_spec segments) as [He Hv]. unfold plan_atoms. by rewrite He unmap_map.
Qed.

Lemma plan_push_spec p c :
  let '(q, o) := push_str p c in
  plan_parser q = (feed_all (plan_parser p) c).1
  ∧ plan_atoms (extracted o) = (feed_all (plan_parser p) c).2 ∧ visible_text o = normal_text (feed_all (plan_parser p) c).2.
Proof.
  simpl. destruct (parse_atoms (plan_parser p) c) as [Hs Ha]. destruct (parse (plan_parser p) c) as [q segs].
  split; [done|]. by eapply plan_chunk_rel.
Qed.

#[export] Instance plan_chunk_independent :
  ChunkIndependent ProposedPlanParser ProposedPlanSegment (λ _, True) plan_equiv.
Proof.
  split; try apply _; [done|by intros [[]] _|].
  intros p c d _. pose proof (plan_push_spec p c) as Hc. destruct (push_str p c) as [p1 o1].
  pose proof (plan_push_spec p1 d) as Hd. destruct (push_str p1 d) as [p2 o2].
  pose proof (plan_push_spec p (c ++ d)) as Hcd. destruct (push_str p (c ++ d)) as [p3 o3].
  rewrite feed_all_app in Hcd. destruct (feed_all (plan_parser p) c) as [q1 a1]. simpl in *.
  destruct Hc as (Hq1 & Ha1 & Hv1). rewrite Hq1 in Hd. destruct (feed_all q1 d) as [q2 a2]. simpl in *.
  destruct Hd as (Hq2 & Ha2 & Hv2), Hcd as (Hq3 & Ha3 & Hv3). split.
  - destruct p2, p3. simpl in *. congruence.
  - split; simpl; [by rewrite Hv3 normal_text_app Hv1 Hv2|]. unfold plan_equiv. by rewrite plan_atoms_app Ha3 Ha1 Ha2.
Qed.

(** A stream of text, in any pieces, gives the blocks of its lines. *)
Lemma plan_collect_spec pieces :
  plan_atoms (extracted (collect new_proposed_plan pieces)) = text_atoms [plan_spec] (concat pieces)
  ∧ visible_text (collect new_proposed_plan pieces) = normal_text (text_atoms [plan_spec] (concat pieces)).
Proof.
  destruct (collect_concat (R := plan_equiv) new_proposed_plan pieces I) as [Hv He]. unfold plan_equiv in He. rewrite Hv He. clear Hv He.
  unfold collect. cbn [push_all]. pose proof (plan_push_spec new_proposed_plan (concat pieces)) as Hp.
  destruct (push_str new_proposed_plan (concat pieces)) as [q o]. destruct Hp as (Hq & Ha & Hv). rewrite chunk_app_nil_r.
  pose proof (feed_all_lines (new_tagged_line [plan_spec]) [] (concat pieces) ltac:(by left) ltac:(apply not_elem_of_nil)) as Hf.
  simpl plan_parser in *. destruct (feed_all _ _) as [r a]. simpl in Hq, Ha, Hv. subst r. destruct Hf as [Hf _]. simpl in Hf.
  assert (plan_atoms (extracted (finish q).2) = atoms (finish_tagged_line (plan_parser q)).2
    ∧ visible_text (finish q).2 = normal_text (atoms (finish_tagged_line (plan_parser q)).2)) as [Hfa Hfv].
  { simpl. destruct (finish_tagged_line (plan_parser q)) as [r segs] eqn:E. simpl. by eapply plan_chunk_rel. }
  unfold chunk_app, text_atoms. simpl. rewrite plan_atoms_app Hfa Ha -Hf Hfv Hv normal_text_app. done.
Qed.

(** ** Assistant text *)

Definition assistant_app (a b : AssistantTextChunk) : AssistantTextChunk :=
  MkAssistantTextChunk (assistant_visible_text a ++ assistant_visible_text b) (citations a ++ citations b)
    (plan_segments a ++ plan_segments b).
Fixpoint assistant_push_all (p : AssistantTextStreamParser) (pieces : list str) : AssistantTextStreamParser * AssistantTextChunk :=
  match pieces with
  | [] => (p, MkAssistantTextChunk [] [] [])
  | c :: r => let '(p1, o1) := assistant_push_str p c in
              let '(p2, o2) := assistant_push_all p1 r in (p2, assistant_app o1 o2)
  end.
Definition assistant_collect (plan_mode : bool) (pieces : list str) : AssistantTextChunk :=
  let '(p, out) := assistant_push_all (new_assistant_text plan_mode) pieces in
  assistant_app out (assistant_finish p).2.

(** The plan parser reads what the citation parser shows. *)
Lemma assistant_push_all_plain c pl pieces :
  let '(c', co) := push_all c pieces in
  assistant_push_all (MkAssistantTextStreamParser false c pl) pieces
  = (MkAssistantTextStreamParser false c' pl, MkAssistantTextChunk (visible_text co) (extracted co) []).
Proof.
  revert c. induction pieces as [|x r IH]; intros c; [done|]. cbn [push_all assistant_push_all].
  unfold assistant_push_str. cbn [citation_parser plan_mode plan]. destruct (push_str c x) as [c1 o1]. simpl.
  specialize (IH c1). destruct (push_all c1 r) as [c2 o2]. by rewrite IH.
Qed.

Lemma assistant_push_all_plan c pl pieces :
  let '(c', co) := push_all c pieces in
  ∃ shown, concat shown = visible_text co ∧
    let '(pl', po) := push_all pl shown in
    assistant_push_all (MkAssistantTextStreamParser true c pl) pieces
    = (MkAssistantTextStreamParser true c' pl', MkAssistantTextChunk (visible_text po) (extracted co) (extracted po)).
Proof.
  revert c pl. induction pieces as [|x r IH]; intros c pl; [by exists []|]. cbn [push_all assistant_push_all].
  unfold assistant_push_str, parse_visible_text. cbn [citation_parser plan_mode plan negb]. destruct (push_str c x) as [c1 o1].
  destruct (push_str pl (visible_text o1)) as [pl1 po1] eqn:Hpl. specialize (IH c1 pl1).
  destruct (push_all c1 r) as [c2 o2]. destruct IH as (shown & Hc & IH).
  exists (visible_text o1 :: shown). split; [by rewrite /= Hc|]. cbn [push_all]. rewrite Hpl.
  destruct (push_all pl1 shown) as [pl2 po2]. by rewrite IH.
Qed.

(** C39. A message of the assistant, in whatever pieces it arrives: its citations
    are those of the whole text; outside of plan mode the rest is shown; in plan
    mode the rest is split line by line into the plan blocks and the text that
    is shown. *)
Theorem assistant_text_in_pieces pieces :
  let '(text, cited) := strip_citations (concat pieces) in
  assistant_collect false pieces = MkAssistantTextChunk text cited []
  ∧ citations (assistant_collect true pieces) = cited
  ∧ plan_atoms (plan_segments (assistant_collect true pieces)) = text_atoms [plan_spec] text
  ∧ assistant_visible_text (assistant_collect true pieces) = normal_text (text_atoms [plan_spec] text).
Proof.
  pose proof (collect_strip_citations pieces) as Hone.
  destruct (strip_citations (concat pieces)) as [text cited]. simpl in Hone.
  unfold assistant_collect, new_assistant_text, collect in *.
  pose proof (assistant_push_all_plain new_citation new_proposed_plan pieces) as Hplain.
  pose proof (assistant_push_all_plan new_citation new_proposed_plan pieces) as Hplan.
  destruct (push_all new_citation pieces) as [c co]. rewrite Hplain. destruct Hplan as (shown & Hshown & Hplan).
  destruct (push_all new_proposed_plan shown) as [pl po] eqn:Hpo. rewrite Hplan. unfold assistant_finish, parse_visible_text.
  cbn [citation_parser plan_mode plan negb]. destruct (finish c) as [c' ct]. simpl in Hone. injection Hone as Hv He.
  destruct (plan_collect_spec (shown ++ [visible_text ct])) as [Hatoms Hvis].
  rewrite concat_app /= app_nil_r Hshown Hv in Hatoms Hvis.
  rewrite (collect_snoc _ _ _ pl po Hpo) in Hatoms, Hvis. destruct (push_str pl (visible_text ct)) as [pl' o].
  cbn [plan plan_mode citation_parser]. destruct (finish pl') as [pl'' tail]. unfold chunk_app in Hatoms, Hvis. cbn [extracted visible_text snd] in Hatoms, Hvis.
  unfold assistant_app. simpl. rewrite He Hv. split; [done|].
  destruct (chunk_is_empty tail) eqn:Hemp; simpl; [|by rewrite -!app_assoc in Hatoms, Hvis |- *].
  unfold chunk_is_empty in Hemp. apply andb_true_iff in Hemp as [Hve%is_empty_true Hee%is_empty_true].
  rewrite Hve Hee !app_nil_r in Hatoms, Hvis. by split.
Qed.

(** ** Whole texts *)

Definition atom_plan_step (acc : bool * str) (a : atom PlanTag) : bool * str :=
  match a with
  | AStart _ => (true, [])
  | AText (Some _) c => (acc.1, acc.2 ++ [c])
  | _ => acc
  end.

Lemma plan_text_atoms segments acc : foldl plan_text_step acc segments = foldl atom_plan_step acc (plan_atoms segments).
Proof.
  revert acc. induction segments as [|s l IH]; intros acc; [done|].
  change (plan_atoms (s :: l)) with (segment_atoms (unmap_segment s) ++ plan_atoms l). rewrite foldl_app /= IH. f_equal.
  destruct s as [t| |t|]; [by induction t|done| |done]. clear. destruct acc as [saw acc]. simpl. revert acc.
  induction t as [|c t IH]; intros acc; simpl; [by rewrite app_nil_r|]. by rewrite -IH -app_assoc.
Qed.

Lemma plan_whole_text text :
  strip_proposed_plan_blocks text = normal_text (text_atoms [plan_spec] text)
  ∧ extract_proposed_plan_text text
    = let '(saw, plan_text) := foldl atom_plan_step (false, []) (text_atoms [plan_spec] text) in
      if saw : bool then Some plan_text else None.
Proof.
  destruct (plan_collect_spec [text]) as [Ha Hv]. rewrite /= app_nil_r in Ha, Hv. revert Ha Hv.
  unfold collect, strip_proposed_plan_blocks, extract_proposed_plan_text. cbn [push_all].
  destruct (push_str new_proposed_plan text) as [q o]. destruct (finish q) as [r t]. rewrite chunk_app_nil_r. simpl.
  intros <- <-. split; [done|]. by rewrite plan_text_atoms.
Qed.
