(* ===== verification/Utf8Stream.v ===== *)
(** Streams of bytes: [codex-rs/utils/stream-parser/src/utf8_stream.rs].
    [Utf8StreamParser] decodes the bytes it is fed and holds back a code point
    that a piece leaves incomplete. Against the interface of the parser it wraps
    ([ChunkIndependent]) it is proved that the bytes of a text, in any pieces,
    give what the text gives. UTF-8 is that of the standard library
    ([core::str::validations]). *)
From S2P Require Import Prelude StreamText.
#[local] Open Scope nat_scope.

(** ** UTF-8 *)

(** A byte is a number below 256. *)
Abbreviation byte := N (only parsing).

(** Unicode scalar values: no surrogates. *)
Definition is_scalar (c : char) : bool := (c <? 55296)%N || in_range 57344 1114111 c.

Definition utf8_encode_char (c : char) : list byte :=
  (if c <? 128 then [c]
   else if c <? 2048 then [192 + c / 64; 128 + c mod 64]
   else if c <? 65536 then [224 + c / 4096; 128 + c / 64 mod 64; 128 + c mod 64]
   else [240 + c / 262144; 128 + c / 4096 mod 64; 128 + c / 64 mod 64; 128 + c mod 64])%N.
Definition utf8_encode (s : str) : list byte := concat (utf8_encode_char <$> s).

Definition is_cont (b : byte) : bool := in_range 128 191 b.

(** The second byte of three and of four, which also keeps out overlong
    encodings, surrogates and values above the last scalar. *)
Definition second_of_three (b0 b1 : byte) : bool :=
  (b0 =? 224)%N && in_range 160 191 b1 || in_range 225 236 b0 && in_range 128 191 b1
  || (b0 =? 237)%N && in_range 128 159 b1 || in_range 238 239 b0 && in_range 128 191 b1.
Definition second_of_four (b0 b1 : byte) : bool :=
  (b0 =? 240)%N && in_range 144 191 b1 || in_range 241 243 b0 && in_range 128 191 b1
  || (b0 =? 244)%N && in_range 128 143 b1.

(** [run_utf8_validation]: the text of the longest valid prefix, its length in
    bytes, and what stopped there: [None] at the end, [Some error_len]
    otherwise. *)
Fixpoint utf8_prefix (bs : list byte) : str * nat * option (option nat) :=
  match bs with
  | [] => ([], 0, None)
  | b0 :: r0 =>
      if (b0 <? 128)%N then
        let '(t, n, e) := utf8_prefix r0 in (b0 :: t, 1 + n, e)
      else if in_range 194 223 b0 then
        match r0 with
        | [] => ([], 0, Some None)
        | b1 :: r1 =>
            if is_cont b1 then
              let '(t, n, e) := utf8_prefix r1 in (((b0 - 192) * 64 + (b1 - 128))%N :: t, 2 + n, e)
            else ([], 0, Some (Some 1))
        end
      else if in_range 224 239 b0 then
        match r0 with
        | [] => ([], 0, Some None)
        | b1 :: r1 =>
            if second_of_three b0 b1 then
              match r1 with
              | [] => ([], 0, Some None)
              | b2 :: r2 =>
                  if is_cont b2 then
                    let '(t, n, e) := utf8_prefix r2 in
                    (((b0 - 224) * 4096 + (b1 - 128) * 64 + (b2 - 128))%N :: t, 3 + n, e)
                  else ([], 0, Some (Some 2))
              end
            else ([], 0, Some (Some 1))
        end
      else if in_range 240 244 b0 then
        match r0 with
        | [] => ([], 0, Some None)
        | b1 :: r1 =>
            if second_of_four b0 b1 then
              match r1 with
              | [] => ([], 0, Some None)
              | b2 :: r2 =>
                  if is_cont b2 then
                    match r2 with
                    | [] => ([], 0, Some None)
                    | b3 :: r3 =>
                        if is_cont b3 then
                          let '(t, n, e) := utf8_prefix r3 in
                          (((b0 - 240) * 262144 + (b1 - 128) * 4096 + (b2 - 128) * 64 + (b3 - 128))%N :: t, 4 + n, e)
                        else ([], 0, Some (Some 3))
                    end
                  else ([], 0, Some (Some 2))
              end
            else ([], 0, Some (Some 1))
        end
      else ([], 0, Some (Some 1))
  end.

(** [std::str::Utf8Error]. *)
Record Utf8Error := MkUtf8Error { valid_up_to : nat; error_len : option nat }.

Definition from_utf8 (bs : list byte) : result Utf8Error str :=
  match utf8_prefix bs with
  | (text, _, None) => Ok text
  | (_, n, Some len) => Err (MkUtf8Error n len)
  end.

(** ** [utf8_stream.rs] *)

Inductive Utf8StreamParserError : Type :=
| InvalidUtf8 (valid_up_to error_len : nat)
| IncompleteUtf8AtEof.

Record Utf8StreamParser (P : Type) := MkUtf8StreamParser {
  wrapped : P;
  pending_utf8 : list byte
}.
Arguments MkUtf8StreamParser {P} wrapped pending_utf8.
Arguments wrapped {P} u.
Arguments pending_utf8 {P} u.

Section utf8_stream.
Context `{StreamTextParser P E}.
Implicit Types (p : Utf8StreamParser P).

Definition new_utf8 (inner : P) : Utf8StreamParser P := MkUtf8StreamParser inner [].

Definition push_bytes p (chunk : list byte) : Utf8StreamParser P * result Utf8StreamParserError (StreamTextChunk E) :=
  let old_len := length (pending_utf8 p) in
  let pending := pending_utf8 p ++ chunk in
  match from_utf8 pending with
  | Ok text =>
      let '(inner, out) := push_str (wrapped p) text in
      (MkUtf8StreamParser inner [], Ok out)
  | Err err =>
      match error_len err with
      | Some len =>
          (MkUtf8StreamParser (wrapped p) (take old_len pending), Err (InvalidUtf8 (valid_up_to err) len))
      | None =>
          let valid_up_to' := valid_up_to err in
          if valid_up_to' =? 0 then (MkUtf8StreamParser (wrapped p) pending, Ok chunk_default)
          else
            match from_utf8 (take valid_up_to' pending) with
            | Ok text =>
                let '(inner, out) := push_str (wrapped p) text in
                (MkUtf8StreamParser inner (drop valid_up_to' pending), Ok out)
            | Err prefix_err =>
                (MkUtf8StreamParser (wrapped p) (take old_len pending),
                 Err (InvalidUtf8 (valid_up_to prefix_err) (unwrap_or 0 (error_len prefix_err))))
            end
      end
  end.

(** The first test of [finish] and of [into_inner]: what is buffered is text. *)
Definition check_pending p : result Utf8StreamParserError () :=
  if is_empty (pending_utf8 p) then Ok ()
  else match from_utf8 (pending_utf8 p) with
       | Ok _ => Ok ()
       | Err err => match error_len err with
                    | Some len => Err (InvalidUtf8 (valid_up_to err) len)
                    | None => Err IncompleteUtf8AtEof
                    end
       end.

Definition finish_utf8 p : Utf8StreamParser P * result Utf8StreamParserError (StreamTextChunk E) :=
  match check_pending p with
  | Err e => (p, Err e)
  | Ok _ =>
      let '(p, first) :=
        if is_empty (pending_utf8 p) then (p, Ok chunk_default)
        else match from_utf8 (pending_utf8 p) with
             | Ok text => let '(inner, out) := push_str (wrapped p) text in (MkUtf8StreamParser inner [], Ok out)
             | Err err => (p, Err (InvalidUtf8 (valid_up_to err) (unwrap_or 0 (error_len err))))
             end in
      match first with
      | Err e => (p, Err e)
      | Ok out => let '(inner, tail) := finish (wrapped p) in
                  (MkUtf8StreamParser inner (pending_utf8 p), Ok (out ⊕ tail))
      end
  end.

Definition into_inner p : result Utf8StreamParserError P := (λ _, wrapped p) <$> check_pending p.
Definition into_inner_lossy p : P := wrapped p.

(** A whole stream of bytes, up to the first error. *)
Fixpoint push_all_bytes p (chunks : list (list byte)) : Utf8StreamParser P * result Utf8StreamParserError (StreamTextChunk E) :=
  match chunks with
  | [] => (p, Ok chunk_default)
  | c :: r =>
      match push_bytes p c with
      | (p1, Ok o1) => let '(p2, o2) := push_all_bytes p1 r in (p2, chunk_app o1 <$> o2)
      | (p1, Err e) => (p1, Err e)
      end
  end.
Definition collect_bytes p (chunks : list (list byte)) : result Utf8StreamParserError (StreamTextChunk E) :=
  match push_all_bytes p chunks with
  | (p', Ok out) => chunk_app out <$> (finish_utf8 p').2
  | (_, Err e) => Err e
  end.
End utf8_stream.

Example splits_code_points :
  collect_bytes (new_utf8 new_citation)
    [N_of_ascii "A" :: [195%N]; 169%N :: lit "<oai-mem-citation>" ++ [228%N]; [184%N; 173%N] ++ lit "</oai-mem-citation>Z"]
  = Ok (MkStreamTextChunk [65; 233; 90]%N [[20013%N]]).
Proof. eval_done. Qed.

Example rolls_back :
  let p := (push_bytes (new_utf8 new_citation) [195%N]).1 in
  push_bytes p [40%N] = (p, Err (InvalidUtf8 0 1)).
Proof. eval_done. Qed.

(** ** UTF-8: what is encoded is decoded *)

Lemma in_range_true lo hi c : in_range lo hi c = true ↔ (lo <= c <= hi)%N.
Proof. unfold in_range. by rewrite andb_true_iff !N.leb_le. Qed.
Lemma is_cont_true b : is_cont b = true ↔ (128 <= b <= 191)%N.
Proof. apply in_range_true. Qed.
Lemma second_of_three_true b0 b1 :
  second_of_three b0 b1 = true ↔
  (b0 = 224 ∧ 160 <= b1 <= 191 ∨ 225 <= b0 <= 236 ∧ 128 <= b1 <= 191
   ∨ b0 = 237 ∧ 128 <= b1 <= 159 ∨ 238 <= b0 <= 239 ∧ 128 <= b1 <= 191)%N.
Proof. unfold second_of_three, in_range. rewrite !orb_true_iff !andb_true_iff !N.eqb_eq !N.leb_le. tauto. Qed.
Lemma second_of_four_true b0 b1 :
  second_of_four b0 b1 = true ↔
  (b0 = 240 ∧ 144 <= b1 <= 191 ∨ 241 <= b0 <= 243 ∧ 128 <= b1 <= 191 ∨ b0 = 244 ∧ 128 <= b1 <= 143)%N.
Proof. unfold second_of_four, in_range. rewrite !orb_true_iff !andb_true_iff !N.eqb_eq !N.leb_le. tauto. Qed.
Lemma is_scalar_true c : is_scalar c = true ↔ (c < 55296 ∨ 57344 <= c <= 1114111)%N.
Proof. unfold is_scalar. by rewrite orb_true_iff N.ltb_lt in_range_true. Qed.

#[local] Ltac Zify.zify_post_hook ::= Z.to_euclidean_division_equations.
#[local] Arguments N.mul : simpl never.
#[local] Arguments N.add : simpl never.
#[local] Arguments N.sub : simpl never.
#[local] Arguments N.div : simpl never.
#[local] Arguments N.modulo : simpl never.
#[local] Arguments N.ltb : simpl never.

(** The bytes of a scalar value, by their number. *)
Inductive encoded (c : char) : list byte → Prop :=
| encoded_1 : (c < 128)%N → encoded c [c]
| encoded_2 b0 b1 :
    in_range 194 223 b0 = true → is_cont b1 = true → ((b0 - 192) * 64 + (b1 - 128))%N = c →
    encoded c [b0; b1]
| encoded_3 b0 b1 b2 :
    in_range 224 239 b0 = true → second_of_three b0 b1 = true → is_cont b2 = true →
    ((b0 - 224) * 4096 + (b1 - 128) * 64 + (b2 - 128))%N = c → encoded c [b0; b1; b2]
| encoded_4 b0 b1 b2 b3 :
    in_range 240 244 b0 = true → second_of_four b0 b1 = true → is_cont b2 = true → is_cont b3 = true →
    ((b0 - 240) * 262144 + (b1 - 128) * 4096 + (b2 - 128) * 64 + (b3 - 128))%N = c →
    encoded c [b0; b1; b2; b3].

Lemma encode_encoded c : is_scalar c = true → encoded c (utf8_encode_char c).
Proof.
  rewrite is_scalar_true. intros Hc. unfold utf8_encode_char.
  destruct (N.ltb_spec c 128); [by apply encoded_1|]. destruct (N.ltb_spec c 2048).
  { apply encoded_2; rewrite ?in_range_true ?is_cont_true; lia. }
  destruct (N.ltb_spec c 65536).
  - apply encoded_3; rewrite ?in_range_true ?is_cont_true ?second_of_three_true; lia.
  - apply encoded_4; rewrite ?in_range_true ?is_cont_true ?second_of_four_true; lia.
Qed.

Lemma in_range_false lo hi c : in_range lo hi c = false ↔ (c < lo ∨ hi < c)%N.
Proof. rewrite -not_true_iff_false in_range_true. lia. Qed.

(** Decides the tests of [utf8_prefix] on the bytes of one scalar value. *)
Ltac byte_tests :=
  repeat match goal with
  | H : in_range ?lo ?hi ?b = true |- context [in_range ?lo' ?hi' ?b] =>
      first [rewrite H | rewrite (proj2 (in_range_false lo' hi' b)); [apply in_range_true in H; lia|]]
  | H : in_range ?lo ?hi ?b = true |- context [(?b <? 128)%N] =>
      rewrite (proj2 (N.ltb_ge b 128)); [apply in_range_true in H; lia|]
  | H : is_cont ?b = true |- context [is_cont ?b] => rewrite H
  | H : second_of_three ?a ?b = true |- context [second_of_three ?a ?b] => rewrite H
  | H : second_of_four ?a ?b = true |- context [second_of_four ?a ?b] => rewrite H
  | H : (?c < 128)%N |- context [(?c <? 128)%N] => rewrite (proj2 (N.ltb_lt c 128) H)
  end.

Lemma utf8_prefix_encoded c bs r :
  encoded c bs → utf8_prefix (bs ++ r) = let '(t, n, e) := utf8_prefix r in (c :: t, length bs + n, e).
Proof. intros He. destruct He; subst; cbn [app utf8_prefix]; byte_tests; by destruct (utf8_prefix r) as [[t n] e]. Qed.

(** A code point that is cut off. *)
Lemma utf8_prefix_partial c bs k :
  encoded c bs → 0 < k < length bs → utf8_prefix (take k bs) = ([], 0, Some None).
Proof.
  intros He Hk. destruct He; subst; simpl in Hk; do 4 (destruct k as [|k]; [lia || (cbn [take utf8_prefix]; byte_tests; done)|]); lia.
Qed.

Lemma utf8_encode_app s t : utf8_encode (s ++ t) = utf8_encode s ++ utf8_encode t.
Proof. unfold utf8_encode. by rewrite fmap_app concat_app. Qed.
Lemma utf8_encode_cons c t : utf8_encode (c :: t) = utf8_encode_char c ++ utf8_encode t.
Proof. done. Qed.

Lemma encoded_length c bs : encoded c bs → 1 ≤ length bs ≤ 4.
Proof. destruct 1; simpl; lia. Qed.

(** Scalar values and only they: what a [String] holds. *)
Definition valid_text (s : str) : Prop := Forall (λ c, is_scalar c = true) s.

(** The bytes of a text up to any point: whole code points and the start of the
    next one. *)
Lemma utf8_prefix_of_encode t bs rest :
  valid_text t → bs ++ rest = utf8_encode t →
  ∃ u v partial, t = u ++ v ∧ bs = utf8_encode u ++ partial ∧ partial ++ rest = utf8_encode v
    ∧ utf8_prefix bs = (u, length (utf8_encode u), if is_empty partial then None else Some None)
    ∧ utf8_prefix partial = ([], 0, if is_empty partial then None else Some None).
Proof.
  intros Ht. revert bs. induction Ht as [|c t Hc Ht IH]; intros bs Hbs.
  - apply app_eq_nil in Hbs as [-> ->]. by exists [], [], [].
  - rewrite utf8_encode_cons in Hbs. pose proof (encode_encoded c Hc) as He. set (e := utf8_encode_char c) in *.
    destruct (decide (length e ≤ length bs)) as [Hle|Hle].
    + assert (bs = e ++ drop (length e) bs) as Hsplit.
      { rewrite -{1}(take_drop (length e) bs). f_equal.
        rewrite -(take_app_le bs rest) // Hbs take_app_length //. }
      rewrite Hsplit -app_assoc in Hbs. apply app_inv_head in Hbs.
      destruct (IH _ Hbs) as (u & v & partial & -> & Hd & Hr & Hp & Hpp). exists (c :: u), v, partial.
      split; [done|]. split; [by rewrite utf8_encode_cons -app_assoc -Hd|]. split; [done|]. split; [|done].
      by rewrite Hsplit (utf8_prefix_encoded c) // Hp utf8_encode_cons length_app.
    + assert (bs = take (length bs) e) as Htake.
      { rewrite -{1}(firstn_all bs) -(take_app_le bs rest) // Hbs take_app_le //. lia. }
      exists [], (c :: t), bs. split; [done|]. split; [done|]. split; [done|].
      destruct bs as [|b bs]; [done|]. cbn [is_empty].
      rewrite {1 2}Htake (utf8_prefix_partial c) //. simpl in *. lia.
Qed.

Lemma utf8_prefix_encode t bs :
  valid_text t → utf8_prefix bs = ([], 0, if is_empty bs then None else Some None) →
  utf8_prefix (utf8_encode t ++ bs) = (t, length (utf8_encode t), if is_empty bs then None else Some None).
Proof.
  intros Ht Hbs. induction Ht as [|c t Hc _ IH]; [done|].
  rewrite utf8_encode_cons -app_assoc (utf8_prefix_encoded c _ _ (encode_encoded c Hc)) IH length_app //.
Qed.

(** Any bytes begin with a code point, or decoding stops at once. *)
Lemma utf8_prefix_cases bs :
  bs = [] ∨ (∃ c b r, bs = b ++ r ∧ encoded c b) ∨ ∃ e, utf8_prefix bs = ([], 0, Some e).
Proof.
  destruct bs as [|b0 r0]; [by left|right]. cbn [utf8_prefix].
  destruct (N.ltb_spec b0 128). { left. exists b0, [b0], r0. split; [done|by apply encoded_1]. }
  destruct (in_range 194 223 b0) eqn:H2.
  { destruct r0 as [|b1 r1]; [by right; eexists|]. destruct (is_cont b1) eqn:H1; [left|by right; eexists].
    exists ((b0 - 192) * 64 + (b1 - 128))%N, [b0; b1], r1. split; [done|by apply encoded_2]. }
  destruct (in_range 224 239 b0) eqn:H3.
  { destruct r0 as [|b1 r1]; [by right; eexists|]. destruct (second_of_three b0 b1) eqn:H1; [|by right; eexists].
    destruct r1 as [|b2 r2]; [by right; eexists|]. destruct (is_cont b2) eqn:H4; [left|by right; eexists].
    exists ((b0 - 224) * 4096 + (b1 - 128) * 64 + (b2 - 128))%N, [b0; b1; b2], r2. split; [done|by apply encoded_3]. }
  destruct (in_range 240 244 b0) eqn:H4; [|by right; eexists].
  destruct r0 as [|b1 r1]; [by right; eexists|]. destruct (second_of_four b0 b1) eqn:H1; [|by right; eexists].
  destruct r1 as [|b2 r2]; [by right; eexists|]. destruct (is_cont b2) eqn:H5; [|by right; eexists].
  destruct r2 as [|b3 r3]; [by right; eexists|]. destruct (is_cont b3) eqn:H6; [left|by right; eexists].
  exists ((b0 - 240) * 262144 + (b1 - 128) * 4096 + (b2 - 128) * 64 + (b3 - 128))%N, [b0; b1; b2; b3], r3.
  split; [done|by apply encoded_4].
Qed.

(** The longest valid prefix decodes by itself. *)
Lemma utf8_prefix_take bs t n e :
  utf8_prefix bs = (t, n, e) →
  n ≤ length bs ∧ utf8_prefix (take n bs) = (t, n, None) ∧ (e = None → n = length bs) ∧ (n = 0 → t = []).
Proof.
  revert t n e. induction bs as [bs IH] using (induction_ltof1 _ length). intros t n e. unfold ltof in IH.
  destruct (utf8_prefix_cases bs) as [->|[(c & b & r & -> & He)|[e' ->]]].
  - by intros [= <- <- <-].
  - pose proof (encoded_length _ _ He) as Hlen. rewrite (utf8_prefix_encoded c) //.
    destruct (utf8_prefix r) as [[t' n'] e'] eqn:E. intros [= <- <- <-].
    destruct (IH r ltac:(rewrite length_app; lia) _ _ _ E) as (Hle & Ht & Hn & _). rewrite length_app.
    split; [lia|]. split; [|split; [intros ->%Hn; lia|lia]].
    rewrite take_app_ge; [lia|]. rewrite Nat.add_comm Nat.add_sub (utf8_prefix_encoded c) // Ht Nat.add_comm //.
  - intros [= <- <- <-]. split; [lia|done].
Qed.

(** ** One push *)

Section push_bytes.
Context `{StreamTextParser P E}.
Implicit Types (p : Utf8StreamParser P).

(** A push, whatever the bytes: the longest valid prefix of what is buffered
    goes to the wrapped parser and the rest stays; a sequence that no further
    byte can complete is an error that leaves the parser as it was. *)
Lemma push_bytes_spec p chunk :
  push_bytes p chunk =
    match utf8_prefix (pending_utf8 p ++ chunk) with
    | (_, n, Some (Some len)) => (p, Err (InvalidUtf8 n len))
    | (_, 0, Some None) => (MkUtf8StreamParser (wrapped p) (pending_utf8 p ++ chunk), Ok chunk_default)
    | (text, n, _) =>
        let '(inner, out) := push_str (wrapped p) text in
        (MkUtf8StreamParser inner (drop n (pending_utf8 p ++ chunk)), Ok out)
    end.
Proof.
  unfold push_bytes, from_utf8 at 1. set (bs := pending_utf8 p ++ chunk).
  destruct (utf8_prefix bs) as [[text n] e] eqn:Hp. destruct (utf8_prefix_take _ _ _ _ Hp) as (Hle & Htake & Hfull & _).
  destruct e as [[len|]|]; simpl.
  - unfold bs. rewrite take_app_length. by destruct p, n.
  - destruct n as [|n]; [done|]. unfold from_utf8. rewrite Htake. by destruct (push_str (wrapped p) text).
  - rewrite Hfull // drop_all. clear. by destruct (length bs), (push_str (wrapped p) text).
Qed.

(** The three ends of a stream. *)
Lemma finish_utf8_spec p :
  utf8_prefix (pending_utf8 p) = ([], 0, if is_empty (pending_utf8 p) then None else Some None) →
  (finish_utf8 p).2
  = if is_empty (pending_utf8 p) then Ok (finish (wrapped p)).2 else Err IncompleteUtf8AtEof.
Proof.
  intros Hp. unfold finish_utf8, check_pending, from_utf8. destruct (is_empty (pending_utf8 p)) eqn:He; rewrite ?Hp //.
  destruct (finish (wrapped p)) as [inner tail]. simpl. by rewrite chunk_app_nil_l.
Qed.
End push_bytes.

(** ** Streams of bytes, against the interface of the wrapped parser *)

Section stream.
Context `{ChunkIndependent P E ok R}.
Implicit Types (p : Utf8StreamParser P).

Lemma push_bytes_valid inner pending chunk text n e :
  ok inner → utf8_prefix (pending ++ chunk) = (text, n, e) → (e = None ∨ e = Some None) →
  push_bytes (MkUtf8StreamParser inner pending) chunk
  = (MkUtf8StreamParser (push_str inner text).1 (drop n (pending ++ chunk)), Ok (push_str inner text).2).
Proof.
  intros Hok Hp He. rewrite push_bytes_spec /= Hp. destruct (utf8_prefix_take _ _ _ _ Hp) as (_ & _ & _ & Hz).
  destruct He as [->| ->]; destruct n as [|n]; try (by destruct (push_str inner text)).
  rewrite (Hz eq_refl) push_nil //.
Qed.

Lemma push_all_bytes_spec chunks inner partial v rest :
  ok inner → valid_text v → utf8_prefix partial = ([], 0, if is_empty partial then None else Some None) →
  partial ++ concat chunks ++ rest = utf8_encode v →
  ∃ u w partial' out, v = u ++ w ∧ partial ++ concat chunks = utf8_encode u ++ partial'
    ∧ utf8_prefix partial' = ([], 0, if is_empty partial' then None else Some None)
    ∧ push_all_bytes (MkUtf8StreamParser inner partial) chunks
      = (MkUtf8StreamParser (push_str inner u).1 partial', Ok out)
    ∧ chunk_rel R out (push_str inner u).2.
Proof.
  revert inner partial v. induction chunks as [|c r IH]; intros inner partial v Hok Hv Hpart Hbs.
  - exists [], v, partial, chunk_default. rewrite push_nil // app_nil_r. by repeat split.
  - cbn [concat] in Hbs. rewrite -app_assoc app_assoc in Hbs.
    destruct (utf8_prefix_of_encode v _ _ Hv Hbs) as (u1 & v1 & part1 & -> & Hb1 & Hr1 & Hp1 & Hpp1).
    apply Forall_app in Hv as [Hu1 Hv1].
    destruct (IH (push_str inner u1).1 part1 v1 (push_ok inner u1 Hok) Hv1 Hpp1 Hr1) as (u2 & w & part2 & out2 & -> & Hb2 & Hp2 & Hall & Hout).
    exists (u1 ++ u2), w, part2, ((push_str inner u1).2 ⊕ out2). split; [by rewrite app_assoc|].
    split; [by rewrite /= app_assoc Hb1 -app_assoc Hb2 utf8_encode_app app_assoc|]. split; [done|].
    pose proof (push_app inner u1 u2 Hok) as Happ. cbn [push_all_bytes].
    rewrite (push_bytes_valid _ _ _ _ _ _ Hok Hp1); [by destruct part1; auto|].
    rewrite {1}Hb1 drop_app_length Hall. destruct (push_str inner u1) as [i1 o1]. simpl in *.
    destruct (push_str i1 u2) as [i2 o2]. destruct Happ as [-> Hrel]. split; [done|].
    rewrite Hrel. simpl in Hout. by rewrite Hout.
Qed.

(** The bytes of a text, cut into pieces anywhere, inside of code points too,
    give what the wrapped parser gives for the text; a stream that ends
    inside of a code point is reported as such, after everything before it has
    been parsed. *)
Theorem utf8_stream_refines inner text chunks rest :
  ok inner → valid_text text → concat chunks ++ rest = utf8_encode text →
  match utf8_prefix (concat chunks) with
  | (decoded, _, None) =>
      ∃ out, collect_bytes (new_utf8 inner) chunks = Ok out ∧ chunk_rel R out (collect inner [decoded])
        ∧ utf8_encode decoded = concat chunks
  | (_, _, Some _) => collect_bytes (new_utf8 inner) chunks = Err IncompleteUtf8AtEof
  end ∧ (rest = [] → utf8_prefix (concat chunks) = (text, length (concat chunks), None)).
Proof.
  intros Hok Ht Hbs. split.
  - destruct (push_all_bytes_spec chunks inner [] text rest Hok Ht eq_refl Hbs) as (u & w & part & out & -> & Hb & Hp & Hall & Hout).
    simpl in Hb. rewrite Hb (utf8_prefix_encode u part) //; [by apply Forall_app in Ht as []|].
    unfold collect_bytes, new_utf8. rewrite Hall finish_utf8_spec //=.
    destruct (is_empty part) eqn:Hemp; [|done]. apply is_empty_true in Hemp as ->. eexists. split; [done|].
    split; [|by rewrite app_nil_r]. unfold collect. cbn [push_all]. destruct (push_str inner u) as [i o]. simpl in *.
    by rewrite chunk_app_nil_r Hout.
  - intros ->. rewrite app_nil_r in Hbs. rewrite Hbs -{1}(app_nil_r (utf8_encode text)) utf8_prefix_encode //.
Qed.

(** Bytes that are not UTF-8 are an error, which names the offset and the
    length of the bad sequence, exactly when no further byte can complete what
    is buffered; the parser is then as before the push, so that the stream can
    go on. Otherwise all of the valid text goes to the wrapped parser. *)
Theorem push_bytes_rolls_back p chunk :
  ok (wrapped p) →
  match utf8_prefix (pending_utf8 p ++ chunk) with
  | (_, n, Some (Some len)) => push_bytes p chunk = (p, Err (InvalidUtf8 n len))
  | (text, n, _) =>
      push_bytes p chunk
      = (MkUtf8StreamParser (push_str (wrapped p) text).1 (drop n (pending_utf8 p ++ chunk)), Ok (push_str (wrapped p) text).2)
  end.
Proof.
  intros Hok. destruct (utf8_prefix (pending_utf8 p ++ chunk)) as [[text n] e] eqn:Hp.
  destruct e as [[len|]|]; [rewrite push_bytes_spec Hp; by destruct n|..]; destruct p as [inner pending];
    eapply push_bytes_valid; eauto.
Qed.
End stream.

(** ** The properties at concrete inputs *)

Example utf8_stream_refines_witness :
  collect_bytes (new_utf8 new_citation) [[65%N; 195%N]; 169%N :: lit "<oai-mem-citation>x" ++ [228%N]; [184%N; 173%N]]
    = Ok (MkStreamTextChunk [65; 233]%N [lit "x" ++ [20013%N]])
  ∧ collect_bytes (new_utf8 new_citation) [[65%N; 195%N]; [169%N; 228%N]] = Err IncompleteUtf8AtEof.
Proof.
  split.
  - destruct (utf8_stream_refines (R := eq) new_citation ([65; 233]%N ++ lit "<oai-mem-citation>x" ++ [20013%N])
      [[65%N; 195%N]; 169%N :: lit "<oai-mem-citation>x" ++ [228%N]; [184%N; 173%N]] []) as [Hout _].
    + apply new_citation_ok.
    + repeat constructor.
    + by vm_compute.
    + revert Hout. destruct (utf8_prefix _) as [[t n] e] eqn:E. vm_compute in E. injection E as <- <- <-.
      intros (out & Hc & [Hv Hx] & _). vm_compute in Hv, Hx. destruct out as [v x]. simpl in Hv, Hx. subst. exact Hc.
  - destruct (utf8_stream_refines (R := eq) new_citation [65; 233; 20013]%N [[65%N; 195%N]; [169%N; 228%N]] [184%N; 173%N]) as [Hout _].
    + apply new_citation_ok.
    + repeat constructor.
    + by vm_compute.
    + exact Hout.
Defined.

Example push_bytes_rolls_back_witness :
  let p := MkUtf8StreamParser new_citation [195%N] in
  push_bytes p [40%N] = (p, Err (InvalidUtf8 0 1))
  ∧ ∃ q o, push_bytes p [169%N; 226%N] = (MkUtf8StreamParser q [226%N], Ok o).
Proof.
  split.
  - exact (push_bytes_rolls_back (R := eq) (MkUtf8StreamParser new_citation [195%N]) [40%N] new_citation_ok).
  - do 2 eexists.
    exact (push_bytes_rolls_back (R := eq) (MkUtf8StreamParser new_citation [195%N]) [169%N; 226%N] new_citation_ok).
Defined.
