(* ===== verification/HeadTail.v ===== *)
(** The capped buffer of the output of a command:
    [codex-rs/core/src/unified_exec/head_tail_buffer.rs]. It keeps the start and
    the end of what was written and drops the middle. Sizes are unsigned 64-bit
    integers and the additions saturate, as in the code; that they saturate only
    in the count of dropped bytes is part of what is proved. *)
From S2P Require Import Prelude.
#[local] Open Scope N_scope.

(** ** Bytes *)

Definition len {A} (l : list A) : N := N.of_nat (length l).
Abbreviation byte := N (only parsing).

(** [slice::split_at]. *)
Definition split_at {A} (n : N) (l : list A) : list A * list A := (take (N.to_nat n) l, drop (N.to_nat n) l).

(** ** The buffer *)

Record HeadTailBuffer := MkHeadTailBuffer {
  max_bytes : N;
  head_budget : N;
  tail_budget : N;
  head : list (list byte);
  tail : list (list byte);
  head_bytes : N;
  tail_bytes : N;
  omitted_bytes : N
}.

Definition UNIFIED_EXEC_OUTPUT_MAX_BYTES : N := 1024 * 1024.

Definition new_buffer (max_bytes : N) : HeadTailBuffer :=
  let head_budget := max_bytes / 2 in
  let tail_budget := max_bytes - head_budget in
  MkHeadTailBuffer max_bytes head_budget tail_budget [] [] 0 0 0.
Definition default_buffer : HeadTailBuffer := new_buffer UNIFIED_EXEC_OUTPUT_MAX_BYTES.

Definition retained_bytes (b : HeadTailBuffer) : N := saturating_add (head_bytes b) (tail_bytes b).

Definition set_omitted (n : N) (b : HeadTailBuffer) : HeadTailBuffer :=
  MkHeadTailBuffer (max_bytes b) (head_budget b) (tail_budget b) (head b) (tail b) (head_bytes b) (tail_bytes b) n.
Definition set_head (h : list (list byte)) (n : N) (b : HeadTailBuffer) : HeadTailBuffer :=
  MkHeadTailBuffer (max_bytes b) (head_budget b) (tail_budget b) h (tail b) n (tail_bytes b) (omitted_bytes b).
Definition set_tail (t : list (list byte)) (n : N) (b : HeadTailBuffer) : HeadTailBuffer :=
  MkHeadTailBuffer (max_bytes b) (head_budget b) (tail_budget b) (head b) t (head_bytes b) n (omitted_bytes b).

(** The loop of [trim_tail_to_budget] over the front of the queue, with the
    sizes it updates. *)
Fixpoint trim_front (excess : N) (tail : list (list byte)) (tail_bytes omitted : N) : list (list byte) * N * N :=
  if excess =? 0 then (tail, tail_bytes, omitted)
  else match tail with
       | [] => ([], tail_bytes, omitted)
       | front :: rest =>
           if len front <=? excess then
             trim_front (excess - len front) rest (tail_bytes - len front) (saturating_add omitted (len front))
           else (drop (N.to_nat excess) front :: rest, tail_bytes - excess, saturating_add omitted excess)
       end.

Definition trim_tail_to_budget (b : HeadTailBuffer) : HeadTailBuffer :=
  let excess := tail_bytes b - tail_budget b in
  let '(t, n, omitted) := trim_front excess (tail b) (tail_bytes b) (omitted_bytes b) in
  set_omitted omitted (set_tail t n b).

Definition push_to_tail (chunk : list byte) (b : HeadTailBuffer) : HeadTailBuffer :=
  if tail_budget b =? 0 then set_omitted (saturating_add (omitted_bytes b) (len chunk)) b
  else if tail_budget b <=? len chunk then
    let start := len chunk - tail_budget b in
    let kept := drop (N.to_nat start) chunk in
    let dropped := len chunk - len kept in
    let omitted := saturating_add (saturating_add (omitted_bytes b) (tail_bytes b)) dropped in
    set_tail [kept] (len kept) (set_omitted omitted b)
  else
    trim_tail_to_budget (set_tail (tail b ++ [chunk]) (saturating_add (tail_bytes b) (len chunk)) b).

Definition push_chunk (chunk : list byte) (b : HeadTailBuffer) : HeadTailBuffer :=
  if max_bytes b =? 0 then set_omitted (saturating_add (omitted_bytes b) (len chunk)) b
  else if head_bytes b <? head_budget b then
    let remaining_head := head_budget b - head_bytes b in
    if len chunk <=? remaining_head then
      set_head (head b ++ [chunk]) (saturating_add (head_bytes b) (len chunk)) b
    else
      let '(head_part, tail_part) := split_at remaining_head chunk in
      let b := if negb (is_empty head_part)
               then set_head (head b ++ [head_part]) (saturating_add (head_bytes b) (len head_part)) b else b in
      push_to_tail tail_part b
  else push_to_tail chunk b.

Definition snapshot_chunks (b : HeadTailBuffer) : list (list byte) := head b ++ tail b.
Definition to_bytes (b : HeadTailBuffer) : list byte := concat (head b) ++ concat (tail b).
Definition drain_chunks (b : HeadTailBuffer) : HeadTailBuffer * list (list byte) :=
  (MkHeadTailBuffer (max_bytes b) (head_budget b) (tail_budget b) [] [] 0 0 0, head b ++ tail b).

Example keeps_both_ends :
  let b := push_chunk (lit "56789") (push_chunk (lit "0123") (push_chunk (lit "ab") (new_buffer 6))) in
  to_bytes b = lit "ab0789" ∧ omitted_bytes b = 5.
Proof. by vm_compute. Qed.

(** ** The specification: the two ends of what was written *)

Definition last_n {A} (n : N) (l : list A) : list A := drop (length l - N.to_nat n) l.
Definition kept_head (max : N) (all : list byte) : list byte := take (N.to_nat (max / 2)) all.
Definition kept_tail (max : N) (all : list byte) : list byte := last_n (max - max / 2) (drop (N.to_nat (max / 2)) all).

Record represents (max : N) (b : HeadTailBuffer) (all : list byte) : Prop := {
  rep_max : max_bytes b = max;
  rep_head_budget : head_budget b = max / 2;
  rep_tail_budget : tail_budget b = max - max / 2;
  rep_head : concat (head b) = kept_head max all;
  rep_tail : concat (tail b) = kept_tail max all;
  rep_head_bytes : head_bytes b = len (concat (head b));
  rep_tail_bytes : tail_bytes b = len (concat (tail b));
  rep_omitted : omitted_bytes b = N.min (len all - (head_bytes b + tail_bytes b)) usize_max
}.

(** ** Lemmas *)

Lemma len_app {A} (a b : list A) : len (a ++ b) = len a + len b.
Proof. unfold len. rewrite length_app. lia. Qed.
Lemma len_drop {A} n (l : list A) : len (drop (N.to_nat n) l) = len l - n.
Proof. unfold len. rewrite length_drop. lia. Qed.
Lemma len_take {A} n (l : list A) : len (take (N.to_nat n) l) = N.min n (len l).
Proof. unfold len. rewrite length_take. lia. Qed.
Lemma trim_front_spec excess tail tb om :
  tb = len (concat tail) → excess <= tb → om <= usize_max →
  let '(t, n, o) := trim_front excess tail tb om in
  concat t = drop (N.to_nat excess) (concat tail) ∧ n = tb - excess ∧ o = saturating_add om excess.
Proof.
  revert excess tb om. induction tail as [|front rest IH]; intros excess tb om Htb Hle Hom; cbn [trim_front].
  - unfold len in Htb. simpl in Htb. replace excess with 0 by lia. simpl. rewrite saturating_add_0 //. split; [done|]. split; [lia|done].
  - destruct (N.eqb_spec excess 0) as [->|Hex]; [rewrite saturating_add_0 // N.sub_0_r //|].
    rewrite /= len_app in Htb. destruct (N.leb_spec (len front) excess).
    + specialize (IH (excess - len front) (tb - len front) (saturating_add om (len front)) ltac:(lia) ltac:(lia)).
      destruct (trim_front _ _ _ _) as [[t n] o]. destruct IH as (-> & -> & ->); [unfold saturating_add; lia|].
      rewrite saturating_saturating drop_app_ge; [unfold len in *; lia|]. split; [|split; [lia|f_equal; lia]].
      f_equal. unfold len. lia.
    + simpl. rewrite drop_app_le //. unfold len in *. lia.
Qed.

Section last_n.
Context {A : Type}.
Implicit Types (l m : list A).

Lemma last_n_all n l : len l <= n → last_n n l = l.
Proof. unfold last_n, len. intros. replace (_ - _)%nat with 0%nat by lia. by rewrite drop_0. Qed.
Lemma last_n_drop n l : last_n n l = drop (N.to_nat (len l - n)) l.
Proof. unfold last_n, len. f_equal. lia. Qed.
Lemma len_last_n n l : len (last_n n l) = N.min n (len l).
Proof. rewrite last_n_drop len_drop. lia. Qed.

(** The last [n] of a concatenation need only the last [n] of the first part. *)
Lemma last_n_app n l m : last_n n (l ++ m) = last_n n (last_n n l ++ m).
Proof.
  rewrite !last_n_drop. rewrite len_app (len_app (drop _ _)) len_drop.
  destruct (N.le_gt_cases (len l) n) as [Hle|Hgt].
  - replace (len l - n) with 0 by lia. rewrite drop_0. do 3 f_equal. lia.
  - replace (N.to_nat (len l + len m - n)) with (N.to_nat (len l - n) + N.to_nat (len l - (len l - n) + len m - n))%nat by lia.
    rewrite -drop_drop. f_equal. rewrite drop_app_le //. unfold len. lia.
Qed.
Lemma last_n_app_ge n l m : n <= len m → last_n n (l ++ m) = last_n n m.
Proof.
  intros. rewrite !last_n_drop len_app drop_app_ge; [unfold len in *; lia|]. f_equal. unfold len. lia.
Qed.
End last_n.

(** ** The buffer refines its specification *)

Section refines.
Context (max : N) (Hmax : max <= usize_max).
Implicit Types (b : HeadTailBuffer) (all chunk : list byte).

Lemma half_bounds :
  max / 2 <= max - max / 2 ∧ 2 * (max - max / 2) <= usize_max + 1 ∧ (max <> 0 → max - max / 2 <> 0).
Proof using Hmax.
  pose proof (N.div_mod max 2 ltac:(done)). pose proof (N.mod_lt max 2 ltac:(done)).
  pose proof (N.le_0_l (max mod 2)). generalize dependent (max mod 2). generalize dependent (max / 2). intros. lia.
Qed.

Lemma new_buffer_represents : represents max (new_buffer max) [].
Proof. split; try done. - unfold kept_head. by rewrite take_nil. - unfold kept_tail. by rewrite drop_nil. Qed.

Lemma kept_len all : len (kept_head max all) + len (kept_tail max all) = N.min max (len all).
Proof using Hmax.
  unfold kept_head, kept_tail. rewrite len_take len_last_n len_drop.
  pose proof half_bounds. generalize dependent (max / 2). intros. lia.
Qed.

Lemma represents_sizes b all :
  represents max b all →
  head_bytes b = N.min (max / 2) (len all) ∧ tail_bytes b = N.min (max - max / 2) (len all - max / 2).
Proof.
  intros []. rewrite rep_head_bytes0 rep_tail_bytes0 rep_head0 rep_tail0.
  unfold kept_head, kept_tail. by rewrite len_take len_last_n len_drop.
Qed.

(** The count of dropped bytes, without and with bytes of the tail to spare. *)
Lemma omitted_all_tail (M a h T c t : N) :
  h + T <= a → t <= c → N.min (N.min (a - (h + T)) M + (T + (c - t))) M = N.min (a + c - (h + t)) M.
Proof. lia. Qed.
Lemma omitted_excess (M a h T c t : N) :
  h + T <= a → N.min (N.min (a - (h + T)) M + (T + c - t)) M = N.min (a + c - (h + (T + c - (T + c - t)))) M.
Proof. lia. Qed.

(** The tail, once the head is full. *)
Lemma push_to_tail_represents b all chunk :
  represents max b all → max <> 0 → max / 2 <= len all → represents max (push_to_tail chunk b) (all ++ chunk).
Proof using Hmax.
  intros Hb Hne Hfull. destruct (represents_sizes b all Hb) as [Hh Ht]. destruct Hb as [Hm Hhb Htb Hhd Htl Hhl Htlen Hom].
  pose proof half_bounds as (Hb1 & Hb2 & Hne2).
  assert (kept_head max (all ++ chunk) = kept_head max all) as Hkh.
  { unfold kept_head. rewrite take_app_le //. unfold len in Hfull. lia. }
  assert (kept_tail max (all ++ chunk) = last_n (max - max / 2) (kept_tail max all ++ chunk)) as Hkt.
  { unfold kept_tail. rewrite drop_app_le; [unfold len in Hfull; lia|]. apply last_n_app. }
  specialize (Hne2 Hne). assert (head_bytes b + tail_bytes b <= len all) as Hsum by (clear - Hh Ht; lia).
  unfold push_to_tail. rewrite Htb. destruct (N.eqb_spec (max - max / 2) 0) as [|_]; [done|].
  destruct (N.leb_spec (max - max / 2) (len chunk)) as [Hge|Hlt].
  - split; simpl; [assumption..|by rewrite Hkh| |assumption|by rewrite app_nil_r|].
    + by rewrite Hkt app_nil_r last_n_app_ge // last_n_drop.
    + rewrite len_drop !saturating_saturating Hom len_app.
      replace (len chunk - (len chunk - (max - max / 2))) with (max - max / 2) by (clear - Hge; lia).
      apply omitted_all_tail; [clear - Hsum; lia|done].
  - unfold trim_tail_to_budget. simpl. rewrite saturating_small; [lia|]. rewrite Htb.
    pose proof (trim_front_spec (tail_bytes b + len chunk - (max - max / 2)) (tail b ++ [chunk]) (tail_bytes b + len chunk) (omitted_bytes b)) as Hspec.
    destruct (trim_front _ _ _ _) as [[t n] o]. destruct Hspec as (Hc & Hn & Ho).
    { rewrite concat_app /= app_nil_r len_app. lia. } { lia. } { rewrite Hom. lia. }
    rewrite concat_app /= app_nil_r in Hc.
    split; simpl; [assumption..|by rewrite Hkh| |assumption| |].
    + by rewrite Hkt Hc last_n_drop len_app -Htl -Htlen.
    + rewrite Hc len_drop len_app. lia.
    + rewrite Ho Hom Hn len_app. by apply omitted_excess.
Qed.

Lemma push_head_represents b all part :
  represents max b all → len all + len part <= max / 2 →
  represents max (set_head (head b ++ [part]) (saturating_add (head_bytes b) (len part)) b) (all ++ part).
Proof using Hmax.
  intros Hb Hfit. pose proof half_bounds as (Hb1 & Hb2 & _). destruct (represents_sizes b all Hb) as [Hh Ht].
  destruct Hb as [Hm Hhb Htb Hhd Htl Hhl Htlen Hom].
  assert (head_bytes b + len part <= usize_max) as Hsat by lia.
  split; simpl; [assumption..| | | |assumption|].
  - rewrite concat_app /= app_nil_r Hhd. unfold kept_head. rewrite !firstn_all2 // ?length_app; unfold len in *; lia.
  - rewrite Htl. unfold kept_tail. rewrite !drop_ge // ?length_app; unfold len in *; lia.
  - rewrite concat_app /= app_nil_r len_app -Hhl. by apply saturating_small.
  - rewrite Hom len_app saturating_small //. lia.
Qed.

Lemma push_chunk_represents b all chunk :
  represents max b all → represents max (push_chunk chunk b) (all ++ chunk).
Proof using Hmax.
  intros Hb. pose proof half_bounds as (Hb1 & Hb2 & Hne2). destruct (represents_sizes b all Hb) as [Hh Ht]. unfold push_chunk.
  rewrite (rep_max _ _ _ Hb). destruct (N.eqb_spec max 0) as [Hz|Hz].
  { destruct Hb as [Hm Hhb Htb Hhd Htl Hhl Htlen Hom]. split; simpl; [assumption..| | |assumption|assumption|].
    - rewrite Hhd. unfold kept_head. by rewrite Hz.
    - rewrite Htl. unfold kept_tail, last_n. rewrite Hz /= !drop_0 !Nat.sub_0_r !drop_all //.
    - rewrite Hom len_app. unfold saturating_add. lia. }
  rewrite (rep_head_budget _ _ _ Hb). destruct (N.ltb_spec (head_bytes b) (max / 2)) as [Hlt|Hge].
  - assert (head_bytes b = len all) as Hlen by lia. destruct (N.leb_spec (len chunk) (max / 2 - head_bytes b)).
    + apply push_head_represents; [done|lia].
    + unfold split_at. set (r := max / 2 - head_bytes b). assert (len (take (N.to_nat r) chunk) = r) as Hr by (rewrite len_take; lia).
      destruct (is_empty (take (N.to_nat r) chunk)) eqn:He.
      { apply is_empty_true in He. rewrite He in Hr. unfold len in Hr. simpl in Hr. lia. }
      cbn [negb]. assert (all ++ chunk = (all ++ take (N.to_nat r) chunk) ++ drop (N.to_nat r) chunk) as -> by (by rewrite -app_assoc take_drop).
      apply push_to_tail_represents; [|done|rewrite len_app; lia]. apply push_head_represents; [done|lia].
  - apply push_to_tail_represents; [done..|lia].
Qed.

Lemma drain_chunks_represents b all :
  represents max b all →
  represents max (drain_chunks b).1 [] ∧ concat (drain_chunks b).2 = kept_head max all ++ kept_tail max all.
Proof.
  intros Hb. split.
  - destruct Hb. split; try done; [unfold kept_head; by rewrite take_nil|unfold kept_tail; by rewrite drop_nil].
  - simpl. rewrite concat_app. destruct Hb. congruence.
Qed.
End refines.

(** ** Histories of a buffer *)

Inductive operation : Type := Push (chunk : list byte) | Drain.

(** The chunks each [Drain] returned, in order. *)
Fixpoint run (b : HeadTailBuffer) (ops : list operation) : HeadTailBuffer * list (list (list byte)) :=
  match ops with
  | [] => (b, [])
  | Push chunk :: rest => run (push_chunk chunk b) rest
  | Drain :: rest => let '(b, out) := drain_chunks b in
                     let '(b, outs) := run b rest in (b, out :: outs)
  end.

(** What was written since the last [Drain], and before each of them. *)
Fixpoint written (all : list byte) (ops : list operation) : list byte * list (list byte) :=
  match ops with
  | [] => (all, [])
  | Push chunk :: rest => written (all ++ chunk) rest
  | Drain :: rest => let '(last, before) := written [] rest in (last, all :: before)
  end.

Lemma run_represents max b all ops :
  max <= usize_max → represents max b all →
  represents max (run b ops).1 (written all ops).1
  ∧ @concat byte <$> (run b ops).2 = (λ all, kept_head max all ++ kept_tail max all) <$> (written all ops).2.
Proof.
  intros Hmax. revert b all. induction ops as [|[chunk|] ops IH]; intros b all Hb; [done|..].
  - apply IH. by apply push_chunk_represents.
  - cbn [run written]. destruct (drain_chunks_represents max b all Hb) as [Hd Ho].
    destruct (drain_chunks b) as [b' out]. simpl in Hd, Ho. destruct (IH b' [] Hd) as [Hr Hos].
    destruct (run b' ops), (written [] ops). simpl in *. split; [done|]. by f_equal.
Qed.

(** C37. Whatever chunks are pushed and drained, a buffer of [max] bytes (a [usize]) holds
    exactly the first [max / 2] bytes and the last [max - max / 2] of the rest
    of what was written since the last drain, never more than [max] bytes, and
    everything when that fits; a drain returns what it holds; the size it reports is the
    true one, and the count of omitted bytes is exact up to the largest [usize]. *)
Theorem head_tail_buffer_keeps_both_ends max ops :
  max <= usize_max →
  let '(b, drained) := run (new_buffer max) ops in
  let '(all, before) := written [] ops in
  to_bytes b = kept_head max all ++ kept_tail max all
  ∧ @concat byte <$> drained = (λ all, kept_head max all ++ kept_tail max all) <$> before
  ∧ concat (snapshot_chunks b) = to_bytes b
  ∧ retained_bytes b = len (to_bytes b) ∧ len (to_bytes b) = N.min max (len all)
  ∧ (len all <= max → to_bytes b = all)
  ∧ omitted_bytes b = N.min (len all - max) usize_max.
Proof.
  intros Hmax. destruct (run_represents max (new_buffer max) [] ops Hmax (new_buffer_represents max)) as [Hb Ho].
  destruct (run _ _) as [b drained], (written _ _) as [all before]. simpl in Hb, Ho.
  pose proof (kept_len max Hmax all) as Hk. destruct (represents_sizes max b all Hb) as [Hh Ht].
  destruct Hb as [Hm Hhb Htb Hhd Htl Hhl Htlen Hom].
  assert (to_bytes b = kept_head max all ++ kept_tail max all) as Hto by (unfold to_bytes; congruence).
  assert (head_bytes b + tail_bytes b = N.min max (len all)) as Hsum by (rewrite Hhl Htlen Hhd Htl; exact Hk).
  split; [done|]. split; [done|]. split; [apply concat_app|]. split; [|split; [|split]].
  - unfold retained_bytes. rewrite saturating_small; [lia|]. by rewrite Hto len_app -Hhd -Htl Hhl Htlen.
  - by rewrite Hto len_app.
  - intros Hfit. rewrite Hto. unfold kept_head, kept_tail. rewrite last_n_all; [|apply take_drop].
    rewrite len_drop. pose proof (half_bounds max Hmax) as (Hb1 & Hb2 & _). clear - Hfit Hb1. lia.
  - rewrite Hom Hsum. clear. lia.
Qed.

Example head_tail_buffer_keeps_both_ends_witness :
  let '(b, drained) := run (new_buffer 6) [Push (lit "abcdefgh"); Drain; Push (lit "01"); Push (lit "2345"); Push (lit "678")] in
  to_bytes b = lit "012678" ∧ (@concat byte <$> drained) = [lit "abcfgh"] ∧ omitted_bytes b = 3.
Proof.
  pose proof (head_tail_buffer_keeps_both_ends 6
    [Push (lit "abcdefgh"); Drain; Push (lit "01"); Push (lit "2345"); Push (lit "678")] ltac:(vm_compute; discriminate)) as H.
  destruct (run _ _) as [b drained]. destruct H as (Hto & Hdr & _ & _ & _ & _ & Hom).
  rewrite Hto Hdr Hom. by vm_compute.
Defined.
