(* ===== verification/Protocol.v ===== *)
(** The data the codex agent exchanges with the model:
    [codex-rs/protocol/src/models.rs] (content, outputs of calls, items of a
    response) and the budgets of [protocol.rs]. *)
From S2P Require Import Prelude Json.

(** ** Content *)

Inductive ImageDetail : Type := DetailAuto | DetailLow | DetailHigh | DetailOriginal.

Inductive ContentItem : Type :=
| InputText (text : str)
| InputImage (image_url : str) (detail : option ImageDetail)
| OutputText (text : str).

(** What a call returns: text or images. The constructors of the code are
    [InputText] and [InputImage] again. *)
Inductive FunctionCallOutputContentItem : Type :=
| OutputItemText (text : str)
| OutputItemImage (image_url : str) (detail : option ImageDetail).

Inductive FunctionCallOutputBody : Type :=
| BodyText (content : str)
| BodyContentItems (items : list FunctionCallOutputContentItem).

Record FunctionCallOutputPayload := MkFunctionCallOutputPayload {
  body : FunctionCallOutputBody;
  success : option bool
}.

Definition payload_from_text (content : str) : FunctionCallOutputPayload :=
  MkFunctionCallOutputPayload (BodyText content) None.
Definition content_items (p : FunctionCallOutputPayload) : option (list FunctionCallOutputContentItem) :=
  match body p with BodyText _ => None | BodyContentItems items => Some items end.

(** ** Items of a response *)

Inductive MessagePhase : Type := Commentary | FinalAnswer.
Inductive LocalShellStatus : Type := ShellCompleted | ShellInProgress | ShellIncomplete.
Record LocalShellExecAction := MkLocalShellExecAction {
  command : list str;
  timeout_ms : option N;
  working_directory : option str;
  shell_env : option (gmap str str);
  shell_user : option str
}.
Inductive LocalShellAction : Type := Exec (action : LocalShellExecAction).
Inductive WebSearchAction : Type :=
| WebSearch (query : option str) (queries : option (list str))
| OpenPage (url : option str)
| FindInPage (url pattern : option str)
| WebOther.
Inductive ReasoningItemReasoningSummary : Type := SummaryText (text : str).
Inductive ReasoningItemContent : Type := ReasoningText (text : str) | PlainReasoning (text : str).

Inductive ResponseItem : Type :=
| Message (id : option str) (role : str) (content : list ContentItem) (phase : option MessagePhase)
| Reasoning (id : str) (summary : list ReasoningItemReasoningSummary)
    (content : option (list ReasoningItemContent)) (encrypted_content : option str)
| LocalShellCall (id call_id : option str) (status : LocalShellStatus) (action : LocalShellAction)
| FunctionCall (id : option str) (name : str) (namespace : option str) (arguments call_id : str)
| ToolSearchCall (id call_id status : option str) (execution : str) (arguments : value)
| FunctionCallOutput (call_id : str) (output : FunctionCallOutputPayload)
| CustomToolCall (id status : option str) (call_id name input : str)
| CustomToolCallOutput (call_id : str) (name : option str) (output : FunctionCallOutputPayload)
| ToolSearchOutput (call_id : option str) (status execution : str) (tools : list value)
| WebSearchCall (id status : option str) (action : option WebSearchAction)
| ImageGenerationCall (id status : str) (revised_prompt : option str) (result : str)
| Compaction (encrypted_content : str)
| Other.

(** ** Budgets *)

Inductive TruncationPolicy : Type := Bytes (bytes : N) | Tokens (tokens : N).

Inductive InputModality : Type := ModalityText | ModalityImage.
#[export] Instance InputModality_eq_dec : EqDecision InputModality.
Proof. solve_decision. Defined.
