(* ===== verification/Truncate.v ===== *)
(** Cutting the middle out of long texts:
    [codex-rs/utils/string/src/truncate.rs], [take_bytes_at_char_boundary] of its
    [lib.rs], and [codex-rs/utils/output-truncation/src/lib.rs]. Sizes are in
    bytes of UTF-8 and are unsigned 64-bit integers; slicing a string inside of a
    code point panics, which the definitions keep as [None] and the theorems
    exclude. *)
From S2P Require Import Prelude Json Protocol.
#[local] Open Scope N_scope.

(** ** Bytes of a string *)

Definition width (c : char) : N := N.of_nat (utf8_width c).
Fixpoint byte_len (s : str) : N := match s with [] => 0 | c :: r => width c + byte_len r end.

(** [&s[..n]] and [&s[n..]]: [None] for a panic. *)
Fixpoint slice_to (n : N) (s : str) : option str :=
  if n =? 0 then Some []
  else match s with
       | [] => None
       | c :: r => if width c <=? n then cons c <$> slice_to (n - width c) r else None
       end.
Fixpoint slice_from (n : N) (s : str) : option str :=
  if n =? 0 then Some s
  else match s with
       | [] => None
       | c :: r => if width c <=? n then slice_from (n - width c) r else None
       end.

(** ** [truncate.rs] *)

Definition APPROX_BYTES_PER_TOKEN : N := 4.

Definition approx_token_count (text : str) : N :=
  saturating_add (byte_len text) (APPROX_BYTES_PER_TOKEN - 1) / APPROX_BYTES_PER_TOKEN.
Definition approx_bytes_for_tokens (tokens : N) : N := saturating_mul tokens APPROX_BYTES_PER_TOKEN.
Definition approx_tokens_from_byte_count (bytes : N) : N :=
  saturating_add bytes (APPROX_BYTES_PER_TOKEN - 1) / APPROX_BYTES_PER_TOKEN.

(** The loop of [split_string] over the characters and their byte positions. *)
Fixpoint split_scan (s : str) (idx beginning_bytes tail_start_target : N)
    (prefix_end suffix_start removed_chars : N) (suffix_started : bool) : N * N * N :=
  match s with
  | [] => (prefix_end, suffix_start, removed_chars)
  | ch :: r =>
      let char_end := idx + width ch in
      if char_end <=? beginning_bytes then
        split_scan r char_end beginning_bytes tail_start_target char_end suffix_start removed_chars suffix_started
      else if tail_start_target <=? idx then
        let '(suffix_start, suffix_started) := if negb suffix_started then (idx, true) else (suffix_start, suffix_started) in
        split_scan r char_end beginning_bytes tail_start_target prefix_end suffix_start removed_chars suffix_started
      else
        split_scan r char_end beginning_bytes tail_start_target prefix_end suffix_start
          (saturating_add removed_chars 1) suffix_started
  end.

Definition split_string (s : str) (beginning_bytes end_bytes : N) : option (N * str * str) :=
  if is_empty s then Some (0, [], [])
  else
    let len := byte_len s in
    let tail_start_target := len - end_bytes in
    let '(prefix_end, suffix_start, removed_chars) := split_scan s 0 beginning_bytes tail_start_target 0 len 0 false in
    let suffix_start := if suffix_start <? prefix_end then prefix_end else suffix_start in
    before ← slice_to prefix_end s;
    after ← slice_from suffix_start s;
    Some (removed_chars, before, after).

Definition split_budget (budget : N) : N * N := let left := budget / 2 in (left, budget - left).

Definition ellipsis : str := [8230].
Definition format_truncation_marker (use_tokens : bool) (removed_count : N) : str :=
  if use_tokens then ellipsis ++ show_N removed_count ++ lit " tokens truncated" ++ ellipsis
  else ellipsis ++ show_N removed_count ++ lit " chars truncated" ++ ellipsis.

Definition removed_units (use_tokens : bool) (removed_bytes removed_chars : N) : N :=
  if use_tokens then approx_tokens_from_byte_count removed_bytes else removed_chars.

Definition assemble_truncated_output (prefix suffix marker : str) : str := prefix ++ marker ++ suffix.

Definition truncate_with_byte_estimate (s : str) (max_bytes : N) (use_tokens : bool) : option str :=
  if is_empty s then Some []
  else
    let total_chars := N.of_nat (length s) in
    if max_bytes =? 0 then
      Some (format_truncation_marker use_tokens (removed_units use_tokens (byte_len s) total_chars))
    else if byte_len s <=? max_bytes then Some s
    else
      let '(left_budget, right_budget) := split_budget max_bytes in
      '(removed_chars, before, after) ← split_string s left_budget right_budget;
      let marker := format_truncation_marker use_tokens (removed_units use_tokens (byte_len s - max_bytes) removed_chars) in
      Some (assemble_truncated_output before after marker).

Definition truncate_middle_chars (s : str) (max_bytes : N) : option str :=
  truncate_with_byte_estimate s max_bytes false.

Definition truncate_middle_with_token_budget (s : str) (max_tokens : N) : option (str * option N) :=
  if is_empty s then Some ([], None)
  else if (0 <? max_tokens) && (byte_len s <=? approx_bytes_for_tokens max_tokens) then Some (s, None)
  else
    truncated ← truncate_with_byte_estimate s (approx_bytes_for_tokens max_tokens) true;
    let total_tokens := approx_token_count s in
    Some (if truncated =s? s then (truncated, None) else (truncated, Some total_tokens)).

(** ** [lib.rs] of the string utilities *)

Fixpoint last_fit (s : str) (i maxb last_ok : N) : N :=
  match s with
  | [] => last_ok
  | ch :: r => let nb := i + width ch in if maxb <? nb then last_ok else last_fit r nb maxb nb
  end.
Definition take_bytes_at_char_boundary (s : str) (maxb : N) : option str :=
  if byte_len s <=? maxb then Some s else slice_to (last_fit s 0 maxb 0) s.

(** ** [TruncationPolicy] *)

Definition token_budget (policy : TruncationPolicy) : N :=
  match policy with Bytes bytes => approx_tokens_from_byte_count bytes | Tokens tokens => tokens end.
Definition byte_budget (policy : TruncationPolicy) : N :=
  match policy with Bytes bytes => bytes | Tokens tokens => approx_bytes_for_tokens tokens end.

(** ** [output-truncation] *)

Definition truncate_text (content : str) (policy : TruncationPolicy) : option str :=
  match policy with
  | Bytes bytes => truncate_middle_chars content bytes
  | Tokens tokens => fst <$> truncate_middle_with_token_budget content tokens
  end.

Definition formatted_truncate_text (content : str) (policy : TruncationPolicy) : option str :=
  if byte_len content <=? byte_budget policy then Some content
  else
    let total_lines := N.of_nat (length (lines content)) in
    result ← truncate_text content policy;
    Some (lit "Total output lines: " ++ show_N total_lines ++ [ch_nl; ch_nl] ++ result).

Definition item_text (item : FunctionCallOutputContentItem) : option str :=
  match item with OutputItemText text => Some text | OutputItemImage _ _ => None end.
Definition is_image (item : FunctionCallOutputContentItem) : bool :=
  match item with OutputItemText _ => false | OutputItemImage _ _ => true end.

Definition combine_segments (segments : list str) : str :=
  foldl (λ combined text, (if negb (is_empty combined) then combined ++ [ch_nl] else combined) ++ text) [] segments.

Definition formatted_truncate_text_content_items_with_policy (items : list FunctionCallOutputContentItem)
    (policy : TruncationPolicy) : option (list FunctionCallOutputContentItem * option N) :=
  let text_segments := omap item_text items in
  if is_empty text_segments then Some (items, None)
  else
    let combined := combine_segments text_segments in
    if byte_len combined <=? byte_budget policy then Some (items, None)
    else
      text ← formatted_truncate_text combined policy;
      Some (OutputItemText text :: filter (λ i, is_image i = true) items, Some (approx_token_count combined)).

Definition item_cost (policy : TruncationPolicy) (text : str) : N :=
  match policy with Bytes _ => byte_len text | Tokens _ => approx_token_count text end.
Definition with_budget (policy : TruncationPolicy) (budget : N) : TruncationPolicy :=
  match policy with Bytes _ => Bytes budget | Tokens _ => Tokens budget end.

(** The loop over the items, with what is left of the budget. *)
Fixpoint truncate_items (policy : TruncationPolicy) (items : list FunctionCallOutputContentItem)
    (remaining_budget omitted_text_items : N) : option (list FunctionCallOutputContentItem * N) :=
  match items with
  | [] => Some ([], omitted_text_items)
  | OutputItemText text :: rest =>
      if remaining_budget =? 0 then truncate_items policy rest remaining_budget (omitted_text_items + 1)
      else
        let cost := item_cost policy text in
        if cost <=? remaining_budget then
          '(out, n) ← truncate_items policy rest (remaining_budget - cost) omitted_text_items;
          Some (OutputItemText text :: out, n)
        else
          snippet ← truncate_text text (with_budget policy remaining_budget);
          if is_empty snippet then truncate_items policy rest 0 (omitted_text_items + 1)
          else '(out, n) ← truncate_items policy rest 0 omitted_text_items;
               Some (OutputItemText snippet :: out, n)
  | OutputItemImage url detail :: rest =>
      '(out, n) ← truncate_items policy rest remaining_budget omitted_text_items;
      Some (OutputItemImage url detail :: out, n)
  end.

Definition omitted_note (n : N) : FunctionCallOutputContentItem :=
  OutputItemText (lit "[omitted " ++ show_N n ++ lit " text items ...]").

Definition truncate_function_output_items_with_policy (items : list FunctionCallOutputContentItem)
    (policy : TruncationPolicy) : option (list FunctionCallOutputContentItem) :=
  let remaining_budget := match policy with Bytes _ => byte_budget policy | Tokens _ => token_budget policy end in
  '(out, omitted_text_items) ← truncate_items policy items remaining_budget 0;
  Some (if 0 <? omitted_text_items then out ++ [omitted_note omitted_text_items] else out).

(** [i64::try_from(n).unwrap_or(i64::MAX)]. *)
Definition i64_from_unsigned (n : N) : Z := Z.min (Z.of_N n) i64_max.
Definition approx_tokens_from_byte_count_i64 (bytes : Z) : Z :=
  if (bytes <=? 0)%Z then 0%Z else i64_from_unsigned (approx_tokens_from_byte_count (Z.to_N bytes)).

Example truncates_middle : truncate_middle_chars "abcdefghijkl" 5 = Some (lit "ab" ++ ellipsis ++ lit "7 chars truncated" ++ ellipsis ++ lit "jkl").
Proof. eval_done. Qed.

(** ** Lemmas: bytes *)

Lemma width_bounds c : 1 <= width c <= 4.
Proof. unfold width, utf8_width. repeat case_match; lia. Qed.

Lemma byte_len_app a b : byte_len (a ++ b) = byte_len a + byte_len b.
Proof. induction a as [|c a IH]; simpl; [done|]. rewrite IH. lia. Qed.

Lemma byte_len_pos s : s ≠ [] → 0 < byte_len s.
Proof. destruct s as [|c s]; [done|]. intros _. simpl. pose proof (width_bounds c). lia. Qed.

Lemma byte_len_ge s : N.of_nat (length s) <= byte_len s.
Proof. induction s as [|c s IH]; cbn [length byte_len]; [lia|]. pose proof (width_bounds c). lia. Qed.

Lemma slice_to_app a b : slice_to (byte_len a) (a ++ b) = Some a.
Proof.
  induction a as [|c a IH]; [by destruct b|]. cbn [byte_len app slice_to]. pose proof (width_bounds c).
  destruct (N.eqb_spec (width c + byte_len a) 0); [lia|]. destruct (N.leb_spec (width c) (width c + byte_len a)); [|lia].
  replace (width c + byte_len a - width c) with (byte_len a) by lia. by rewrite IH.
Qed.

Lemma slice_from_app a b : slice_from (byte_len a) (a ++ b) = Some b.
Proof.
  induction a as [|c a IH]; [by destruct b|]. cbn [byte_len app slice_from]. pose proof (width_bounds c).
  destruct (N.eqb_spec (width c + byte_len a) 0); [lia|]. destruct (N.leb_spec (width c) (width c + byte_len a)); [|lia].
  replace (width c + byte_len a - width c) with (byte_len a) by lia. done.
Qed.

(** The longest prefix of at most [n] bytes, and the shortest of at least [n]. *)
Fixpoint fitting (n : N) (s : str) : str :=
  match s with
  | [] => []
  | c :: r => if width c <=? n then c :: fitting (n - width c) r else []
  end.
Fixpoint covering (n : N) (s : str) : str :=
  match s with
  | [] => []
  | c :: r => if n =? 0 then [] else c :: covering (n - width c) r
  end.

Lemma fitting_spec n s :
  ∃ r, s = fitting n s ++ r ∧ byte_len (fitting n s) <= n ∧ ∀ c r', r = c :: r' → n < byte_len (fitting n s) + width c.
Proof.
  revert n. induction s as [|c s IH]; intros n; simpl; [exists []; split; [done|]; split; [lia|done]|].
  destruct (N.leb_spec (width c) n) as [Hle|Hgt].
  - destruct (IH (n - width c)) as (r & Hs & Hb & Hr). exists r. simpl. split; [by rewrite -Hs|]. split; [lia|].
    intros d r' Hd. specialize (Hr d r' Hd). lia.
  - exists (c :: s). split; [done|]. split; [simpl; lia|]. intros d r' [= <- <-]. simpl. lia.
Qed.

Lemma covering_spec n s :
  ∃ r, s = covering n s ++ r ∧ (r ≠ [] → n <= byte_len (covering n s))
    ∧ ∀ m c, covering n s = m ++ [c] → byte_len m < n.
Proof.
  revert n. induction s as [|c s IH]; intros n; simpl; [exists []; split; [done|]; split; [done|by intros []]|].
  destruct (N.eqb_spec n 0) as [->|Hn].
  - exists (c :: s). split; [done|]. split; [simpl; lia|by intros []].
  - destruct (IH (n - width c)) as (r & Hs & Hb & Hm). exists r. simpl. split; [by rewrite -Hs|]. split; [intros Hr%Hb; lia|].
    intros [|d m] e [= <- He]; simpl; [lia|]. specialize (Hm m e He). lia.
Qed.

(** ** [split_string] *)

Section split.
Context (b t : N).

(** The next character does not fit in the beginning. *)
Definition full (idx : N) (s : str) : Prop := match s with [] => True | c :: _ => b < idx + width c end.

Lemma full_next idx c r : full idx (c :: r) → full (idx + width c) r.
Proof. destruct r as [|d r]; simpl; [done|]. pose proof (width_bounds d). lia. Qed.

Lemma split_scan_right s idx pe ss rm : full idx s → t <= idx → split_scan s idx b t pe ss rm true = (pe, ss, rm).
Proof.
  revert idx. induction s as [|c r IH]; intros idx Hf Ht; [done|]. cbn [split_scan].
  destruct (N.leb_spec (idx + width c) b); [simpl in Hf; lia|]. destruct (N.leb_spec t idx); [|lia].
  simpl. apply IH; [by apply full_next|]. lia.
Qed.

Lemma split_scan_mid s idx pe ss rm :
  full idx s → rm + N.of_nat (length s) <= usize_max →
  let mid := covering (t - idx) s in
  split_scan s idx b t pe ss rm false
  = (pe, if is_empty (drop (length mid) s) then ss else idx + byte_len mid, rm + N.of_nat (length mid)).
Proof.
  revert idx rm. induction s as [|c r IH]; intros idx rm Hf Hrm; [by rewrite /= N.add_0_r|]. cbn [split_scan covering].
  destruct (N.leb_spec (idx + width c) b); [simpl in Hf; lia|].
  destruct (N.leb_spec t idx) as [Hle|Hgt].
  - destruct (N.eqb_spec (t - idx) 0); [|lia]. simpl. rewrite N.add_0_r N.add_0_r.
    apply split_scan_right; [by apply full_next|lia].
  - destruct (N.eqb_spec (t - idx) 0); [lia|]. simpl length in Hrm. rewrite saturating_small; [lia|].
    rewrite IH; [by apply full_next|lia|]. rewrite -N.sub_add_distr. cbn [length drop byte_len].
    case_match; f_equal; lia || (f_equal; lia).
Qed.

Lemma split_scan_left s idx ss rm :
  idx <= b → rm + N.of_nat (length s) <= usize_max →
  let before := fitting (b - idx) s in
  let rest := drop (length before) s in
  let mid := covering (t - (idx + byte_len before)) rest in
  split_scan s idx b t idx ss rm false
  = (idx + byte_len before, if is_empty (drop (length mid) rest) then ss else idx + byte_len before + byte_len mid,
     rm + N.of_nat (length mid)).
Proof.
  revert idx rm. induction s as [|c r IH]; intros idx rm Hidx Hrm; [by rewrite /= !N.add_0_r|]. cbn [fitting].
  destruct (N.leb_spec (width c) (b - idx)) as [Hle|Hgt].
  - cbn [split_scan]. pose proof (width_bounds c). destruct (N.leb_spec (idx + width c) b); [|lia].
    simpl length in Hrm. rewrite IH; [lia|lia|]. rewrite -N.sub_add_distr. cbn [length drop byte_len].
    rewrite !N.add_assoc. done.
  - cbn [length drop byte_len]. rewrite N.add_0_r. apply split_scan_mid; [simpl; lia|done].
Qed.
End split.

(** The beginning and the end fit their budgets and no further character
    would; what is between them is counted. *)
Lemma split_string_spec s b e :
  byte_len s <= usize_max → b + e <= byte_len s →
  ∃ before mid after, s = before ++ mid ++ after
    ∧ split_string s b e = Some (N.of_nat (length mid), before, after)
    ∧ byte_len before <= b ∧ byte_len after <= e
    ∧ (∀ c r, mid ++ after = c :: r → b < byte_len before + width c)
    ∧ (∀ m c, mid = m ++ [c] → e < width c + byte_len after).
Proof.
  intros Hs Hbe. destruct s as [|c0 s0]; [exists [], [], []; repeat split; [simpl; lia..|done|by intros []]|].
  set (s := c0 :: s0) in *.
  destruct (fitting_spec b s) as (rest & Hrest & Hb & Hmax). set (before := fitting b s) in *.
  destruct (covering_spec (byte_len s - e - byte_len before) rest) as (after & Hafter & Hcov & Hlast).
  set (mid := covering _ rest) in *. exists before, mid, after.
  assert (byte_len s = byte_len before + byte_len mid + byte_len after) as Hlen.
  { rewrite Hrest Hafter !byte_len_app. lia. }
  split; [by rewrite -Hafter|]. split; [|split; [done|split; [|split]]].
  - unfold split_string. change (is_empty s) with false. cbn iota.
    pose proof (split_scan_left b (byte_len s - e) s 0 (byte_len s) 0 ltac:(lia)) as Hscan.
    cbn beta zeta in Hscan. rewrite N.sub_0_r !N.add_0_l in Hscan. fold before in Hscan.
    assert (drop (length before) s = rest) as Hdrop by (rewrite Hrest; apply drop_app_length).
    rewrite Hdrop in Hscan. fold mid in Hscan.
    assert (drop (length mid) rest = after) as Hdrop2 by (rewrite Hafter; apply drop_app_length).
    rewrite Hdrop2 in Hscan. rewrite Hscan; [pose proof (byte_len_ge s); lia|]. clear Hscan.
    assert ((if is_empty after then byte_len s else byte_len before + byte_len mid) = byte_len before + byte_len mid) as ->.
    { destruct after; simpl in *; lia. }
    destruct (N.ltb_spec (byte_len before + byte_len mid) (byte_len before)); [lia|].
    assert (slice_to (byte_len before) s = Some before) as -> by (rewrite Hrest; apply slice_to_app).
    assert (slice_from (byte_len before + byte_len mid) s = Some after) as ->; [|done].
    rewrite Hrest Hafter app_assoc -byte_len_app. apply slice_from_app.
  - destruct after as [|d r]; [simpl; lia|]. specialize (Hcov ltac:(done)). lia.
  - intros c r Hc. apply (Hmax c r). by rewrite Hafter.
  - intros m c Hm. specialize (Hlast m c Hm). rewrite Hm byte_len_app in Hlen. change (byte_len [c]) with (width c + 0) in Hlen. lia.
Qed.

(** ** Truncating a text *)

(** What a marker counts: the tokens of the bytes over the budget, or the
    characters left out. *)
Definition marker_of (use_tokens : bool) (removed_bytes : N) (removed : str) : str :=
  format_truncation_marker use_tokens (removed_units use_tokens removed_bytes (N.of_nat (length removed))).

(** [out] is [s] with its middle cut down to a budget of [max] bytes. *)
Inductive truncated (s : str) (max : N) (use_tokens : bool) : str → Prop :=
| truncated_fits : byte_len s <= max → truncated s max use_tokens s
| truncated_whole : max = 0 → s ≠ [] → truncated s max use_tokens (marker_of use_tokens (byte_len s) s)
| truncated_middle before mid after :
    0 < max → max < byte_len s → s = before ++ mid ++ after → mid ≠ [] →
    byte_len before <= max / 2 → byte_len after <= max - max / 2 →
    (∀ c r, mid ++ after = c :: r → max / 2 < byte_len before + width c) →
    (∀ m c, mid = m ++ [c] → max - max / 2 < width c + byte_len after) →
    truncated s max use_tokens (before ++ marker_of use_tokens (byte_len s - max) mid ++ after).

Lemma half_le max : max / 2 <= max.
Proof. apply N.Div0.div_le_upper_bound. lia. Qed.

Lemma truncate_with_byte_estimate_spec s max use_tokens :
  byte_len s <= usize_max →
  ∃ out, truncate_with_byte_estimate s max use_tokens = Some out ∧ truncated s max use_tokens out.
Proof.
  intros Hs. unfold truncate_with_byte_estimate. destruct (is_empty s) eqn:Hemp.
  { apply is_empty_true in Hemp as ->. exists []. split; [done|]. apply truncated_fits. simpl. lia. }
  apply is_empty_false in Hemp. destruct (N.eqb_spec max 0) as [->|Hmax].
  { eexists. split; [done|]. by apply truncated_whole. }
  destruct (N.leb_spec (byte_len s) max) as [Hle|Hgt]; [exists s; split; [done|by apply truncated_fits]|].
  pose proof (half_le max). unfold split_budget.
  destruct (split_string_spec s (max / 2) (max - max / 2) Hs ltac:(lia)) as (before & mid & after & Hsplit & -> & Hb & Ha & Hmb & Hma).
  eexists. split; [done|]. apply truncated_middle; try done; [lia|].
  intros ->. rewrite Hsplit !byte_len_app /= in Hgt. lia.
Qed.

(** ** Bounds *)

Lemma digits_fuel_spec fuel n acc k :
  n < 10 ^ N.of_nat k → 1 <= N.of_nat k →
  N.of_nat (length (digits_fuel fuel n acc)) <= N.of_nat k + N.of_nat (length acc)
  ∧ byte_len (digits_fuel fuel n acc) + N.of_nat (length acc) = N.of_nat (length (digits_fuel fuel n acc)) + byte_len acc.
Proof.
  revert n acc k. induction fuel as [|fuel IH]; intros n acc k Hn Hk; cbn [digits_fuel]; [lia|].
  assert (width (48 + n mod 10) = 1) as Hw.
  { unfold width, utf8_width. pose proof (N.mod_lt n 10 ltac:(done)). destruct (N.leb_spec (48 + n mod 10) 127); [done|lia]. }
  destruct (N.ltb_spec n 10).
  - cbn [length byte_len]. rewrite Hw. lia.
  - destruct k as [|[|k]]; [lia|simpl in Hn; lia|].
    destruct (IH (n / 10) ((48 + n mod 10) :: acc) (S k)) as [H1 H2]; [|lia|cbn [length byte_len] in H1, H2; rewrite Hw in H2; lia].
    apply N.Div0.div_lt_upper_bound. rewrite Nat2N.inj_succ N.pow_succ_r' in Hn. lia.
Qed.

Lemma usize_max_digits : usize_max < 10 ^ N.of_nat 20.
Proof. by vm_compute. Qed.

Lemma show_N_bytes n : n <= usize_max → byte_len (show_N n) <= 20.
Proof.
  intros Hn. pose proof usize_max_digits. unfold show_N.
  destruct (digits_fuel_spec (S (N.size_nat n)) n [] 20) as [H1 H2]; [lia|done|]. cbn [length byte_len] in H1, H2. lia.
Qed.

(** Markers are short. *)
Lemma marker_of_bytes use_tokens bytes removed :
  bytes <= usize_max → byte_len removed <= usize_max → byte_len (marker_of use_tokens bytes removed) <= 43.
Proof.
  intros Hb Hr. unfold marker_of, format_truncation_marker. pose proof (byte_len_ge removed) as Hlen.
  assert (removed_units use_tokens bytes (N.of_nat (length removed)) <= usize_max) as Hu.
  { unfold removed_units, approx_tokens_from_byte_count, saturating_add, APPROX_BYTES_PER_TOKEN.
    destruct use_tokens; [|lia]. apply N.Div0.div_le_upper_bound. lia. }
  apply show_N_bytes in Hu.
  assert (byte_len ellipsis = 3 ∧ byte_len " tokens truncated" = 17 ∧ byte_len " chars truncated" = 16) as (He & Ht & Hc) by by vm_compute.
  destruct use_tokens; rewrite !byte_len_app He ?Ht ?Hc; lia.
Qed.

Definition counts_tokens (policy : TruncationPolicy) : bool :=
  match policy with Bytes _ => false | Tokens _ => true end.

Lemma truncate_text_spec s policy :
  byte_len s <= usize_max →
  ∃ out, truncate_text s policy = Some out ∧ truncated s (byte_budget policy) (counts_tokens policy) out.
Proof.
  intros Hs. destruct policy as [bytes|tokens]; [by apply truncate_with_byte_estimate_spec|]. simpl.
  unfold truncate_middle_with_token_budget. destruct (is_empty s) eqn:Hemp.
  { apply is_empty_true in Hemp as ->. exists []. split; [done|]. apply truncated_fits. simpl. lia. }
  destruct (N.ltb_spec 0 tokens); simpl.
  - destruct (N.leb_spec (byte_len s) (approx_bytes_for_tokens tokens)) as [Hle|Hgt].
    { exists s. split; [done|]. by apply truncated_fits. }
    destruct (truncate_with_byte_estimate_spec s (approx_bytes_for_tokens tokens) true Hs) as (out & -> & Ho).
    exists out. split; [|done]. simpl. by case_match.
  - destruct (truncate_with_byte_estimate_spec s (approx_bytes_for_tokens tokens) true Hs) as (out & -> & Ho).
    exists out. split; [|done]. simpl. by case_match.
Qed.

Lemma truncated_bytes s max use_tokens out :
  byte_len s <= usize_max → truncated s max use_tokens out → byte_len out <= max + 43.
Proof.
  intros Hs Ht. destruct Ht as [Hle|Hmax Hne|before mid after H0 Hlt Hsplit Hmid Hb Ha Hmb Hma]; [lia| |].
  - pose proof (marker_of_bytes use_tokens (byte_len s) s Hs Hs). lia.
  - assert (byte_len mid <= byte_len s) by (rewrite Hsplit !byte_len_app; lia).
    pose proof (marker_of_bytes use_tokens (byte_len s - max) mid ltac:(lia) ltac:(lia)).
    pose proof (half_le max). rewrite !byte_len_app. lia.
Qed.

Lemma truncated_nonempty s max use_tokens out : truncated s max use_tokens out → s ≠ [] → out ≠ [].
Proof.
  assert (∀ n r, marker_of use_tokens n r ≠ []) as Hm by (intros; unfold marker_of, format_truncation_marker; by destruct use_tokens).
  destruct 1 as [|? ?|before mid after]; [done|intros _; apply Hm|]. intros _ [_ [Hn _]%app_eq_nil]%app_eq_nil. by eapply Hm.
Qed.

(** C36. Cutting a text to a budget, in bytes or tokens, never slices a code point:
    a text that fits is kept; of any other the longest beginning of at most
    half the budget and the longest end of at most the rest are kept around a
    marker that counts what was left out, so that the result exceeds the budget
    by at most the 43 bytes of the longest marker. *)
Theorem truncation_keeps_both_ends s policy :
  byte_len s <= usize_max →
  ∃ out, truncate_text s policy = Some out ∧ truncated s (byte_budget policy) (counts_tokens policy) out
    ∧ byte_len out <= byte_budget policy + 43.
Proof.
  intros Hs. destruct (truncate_text_spec s policy Hs) as (out & Ho & Ht). exists out. do 2 (split; [done|]).
  by eapply truncated_bytes.
Qed.

Lemma last_fit_spec s i maxb : i <= maxb → last_fit s i maxb i = i + byte_len (fitting (maxb - i) s).
Proof.
  revert i. induction s as [|c s IH]; intros i Hi; cbn [last_fit fitting byte_len]; [lia|].
  destruct (N.ltb_spec maxb (i + width c)), (N.leb_spec (width c) (maxb - i)); try lia; [simpl; lia|].
  rewrite IH; [lia|]. cbn [byte_len]. rewrite N.sub_add_distr. lia.
Qed.

(** The prefix that fits, in whole characters. *)
Lemma take_bytes_at_char_boundary_spec s maxb : take_bytes_at_char_boundary s maxb = Some (fitting maxb s).
Proof.
  unfold take_bytes_at_char_boundary. destruct (fitting_spec maxb s) as (r & Hs & Hb & Hr).
  destruct (N.leb_spec (byte_len s) maxb) as [Hle|Hgt].
  - destruct r as [|c r]; [by rewrite app_nil_r in Hs; rewrite -Hs|]. specialize (Hr c r eq_refl).
    rewrite Hs byte_len_app /= in Hle. lia.
  - rewrite last_fit_spec ?N.sub_0_r ?N.add_0_l; [lia..|]. rewrite {2}Hs. apply slice_to_app.
Qed.

(** ** Truncating the items of an output *)

Definition texts (items : list FunctionCallOutputContentItem) : list str := omap item_text items.
Definition images (items : list FunctionCallOutputContentItem) : list FunctionCallOutputContentItem :=
  filter (λ i, is_image i = true) items.
Definition total_cost (policy : TruncationPolicy) (items : list FunctionCallOutputContentItem) : N :=
  foldr N.add 0 (item_cost policy <$> texts items).

Lemma byte_budget_with policy n : counts_tokens (with_budget policy n) = counts_tokens policy.
Proof. by destruct policy. Qed.

Lemma truncate_items_exhausted policy items om :
  truncate_items policy items 0 om = Some (images items, om + N.of_nat (length (texts items))).
Proof.
  revert om. induction items as [|[text|url d] items IH]; intros om; [by rewrite /= N.add_0_r|..]; cbn [truncate_items].
  - rewrite N.eqb_refl IH. change (texts (OutputItemText text :: items)) with (text :: texts items).
    change (images (OutputItemText text :: items)) with (images items). cbn [length]. do 2 f_equal. lia.
  - by rewrite IH.
Qed.

(** The three parts of a list of items: those kept, the text that is cut down
    to what the kept ones leave of the budget, and the rest, of which only
    images are kept. *)
Lemma truncate_items_spec policy items budget om :
  Forall (λ t, byte_len t <= usize_max) (texts items) →
  ∃ kept cut rest cut_out, items = kept ++ cut ++ rest
    ∧ truncate_items policy items budget om
      = Some (kept ++ cut_out ++ images rest, om + N.of_nat (length (texts rest)))
    ∧ total_cost policy kept <= budget
    ∧ (cut = [] ∧ cut_out = [] ∧ (rest = [] ∨ total_cost policy kept = budget)
       ∨ ∃ text out, cut = [OutputItemText text] ∧ cut_out = [OutputItemText out]
           ∧ total_cost policy kept < budget < total_cost policy kept + item_cost policy text
           ∧ truncate_text text (with_budget policy (budget - total_cost policy kept)) = Some out).
Proof.
  revert budget. induction items as [|[text|url d] items IH]; intros budget Hall.
  - exists [], [], [], []. split; [done|]. split; [by rewrite /= N.add_0_r|].
    split; [unfold total_cost; simpl; lia|by auto].
  - apply Forall_cons in Hall as [Ht Hall]. cbn [truncate_items].
    destruct (N.eqb_spec budget 0) as [->|Hb].
    { exists [], [], (OutputItemText text :: items), []. split; [done|]. split; [|split; [unfold total_cost; simpl; lia|by auto]].
      rewrite truncate_items_exhausted. change (texts (OutputItemText text :: items)) with (text :: texts items).
      change (images (OutputItemText text :: items)) with (images items). cbn [length]. do 2 f_equal. lia. }
    destruct (N.leb_spec (item_cost policy text) budget) as [Hle|Hgt].
    + destruct (IH (budget - item_cost policy text) Hall) as (kept & cut & rest & cut_out & -> & -> & Hc & Hcases).
      exists (OutputItemText text :: kept), cut, rest, cut_out.
      assert (total_cost policy (OutputItemText text :: kept) = item_cost policy text + total_cost policy kept) as Htc by done.
      split; [done|]. split; [done|]. rewrite Htc. split; [lia|].
      destruct Hcases as [(-> & -> & Hr)|(t & out & -> & -> & Hlt & Ho)]; [left|right].
      * split; [done|]. split; [done|]. destruct Hr; [by left|right; lia].
      * exists t, out. do 2 (split; [done|]). split; [lia|]. by rewrite N.sub_add_distr.
    + destruct (truncate_text_spec text (with_budget policy budget) Ht) as (out & Ho & Htr). rewrite Ho /=.
      assert (text ≠ []) as Hne. { intros ->. destruct policy; vm_compute in Hgt; by destruct budget. }
      pose proof (truncated_nonempty _ _ _ _ Htr Hne) as Hone. apply is_empty_false in Hone as ->.
      exists [], [OutputItemText text], items, [OutputItemText out]. split; [done|].
      split; [by rewrite truncate_items_exhausted|]. split; [unfold total_cost; simpl; lia|]. right. exists text, out.
      do 2 (split; [done|]). change (total_cost policy []) with 0. split; [lia|]. by rewrite N.sub_0_r.
  - destruct (IH budget Hall) as (kept & cut & rest & cut_out & -> & He & Hc & Hcases). cbn [truncate_items]. rewrite He.
    by exists (OutputItemImage url d :: kept), cut, rest, cut_out.
Qed.

(** The budget of a policy, in its own unit. *)
Definition budget_of (policy : TruncationPolicy) : N := match policy with Bytes n | Tokens n => n end.

(** What the items [rest] after the budget become. *)
Definition omitted (rest : list FunctionCallOutputContentItem) : list FunctionCallOutputContentItem :=
  images rest ++ match texts rest with [] => [] | ts => [omitted_note (N.of_nat (length ts))] end.

(** The items of an output are truncated from the end: those that fit the
    budget together are kept as they are, the first text that does not fit is
    cut down to what they leave of it, and of the items after it only images
    are kept, before a note of how many texts were left out. When no text is
    cut, nothing is left out unless the budget is used up exactly. *)
Theorem output_items_fill_the_budget items policy :
  Forall (λ t, byte_len t <= usize_max) (texts items) →
  ∃ kept cut rest cut_out, items = kept ++ cut ++ rest
    ∧ truncate_function_output_items_with_policy items policy = Some (kept ++ cut_out ++ omitted rest)
    ∧ total_cost policy kept <= budget_of policy
    ∧ (cut = [] ∧ cut_out = [] ∧ (rest = [] ∨ total_cost policy kept = budget_of policy)
       ∨ ∃ text out, let left := with_budget policy (budget_of policy - total_cost policy kept) in
           cut = [OutputItemText text] ∧ cut_out = [OutputItemText out]
           ∧ 0 < budget_of left < item_cost policy text
           ∧ truncated text (byte_budget left) (counts_tokens policy) out
           ∧ byte_len out <= byte_budget left + 43).
Proof.
  intros Hall. destruct (truncate_items_spec policy items (budget_of policy) 0 Hall)
    as (kept & cut & rest & cut_out & Hitems & Hrun & Hcost & Hcases).
  exists kept, cut, rest, cut_out. split; [done|]. split; [|split; [done|]].
  - unfold truncate_function_output_items_with_policy, omitted.
    assert (match policy with Bytes _ => byte_budget policy | Tokens _ => token_budget policy end = budget_of policy) as ->
      by by destruct policy.
    rewrite Hrun /=. destruct (texts rest) as [|t ts]; [by rewrite app_nil_r|]. by rewrite -!app_assoc.
  - destruct Hcases as [?|(text & out & -> & -> & Hlt & Ho)]; [by left|right]. exists text, out. simpl.
    assert (byte_len text <= usize_max) as Htext.
    { eapply (proj1 (Forall_forall _ _) Hall). rewrite Hitems. unfold texts. rewrite !omap_app. set_solver. }
    destruct (truncate_text_spec text (with_budget policy (budget_of policy - total_cost policy kept)) Htext)
      as (out' & Ho' & Ht). simplify_eq. rewrite byte_budget_with in Ht. do 2 (split; [done|]).
    split; [destruct policy; simpl in *; lia|]. split; [done|]. by eapply truncated_bytes.
Qed.

(** ** Witnesses *)

Lemma short_fits s : N.of_nat (4 * length s) <= 4096 → byte_len s <= usize_max.
Proof.
  intros Hs. transitivity 4096; [|by vm_compute]. transitivity (N.of_nat (4 * length s)); [|done]. clear Hs.
  induction s as [|c s IH]; cbn [byte_len length]; [done|]. pose proof (width_bounds c). lia.
Qed.

Lemma truncation_keeps_both_ends_witness :
  ∃ out, truncate_text "añbcdefghi→j" (Bytes 8) = Some out ∧ truncated (lit "añbcdefghi→j") 8 false out ∧ byte_len out <= 51.
Proof. apply (truncation_keeps_both_ends (lit "añbcdefghi→j") (Bytes 8)). apply short_fits. by vm_compute. Defined.

Lemma output_items_fill_the_budget_witness :
  let items := [OutputItemText "0123"; OutputItemText "456789abcdef"; OutputItemImage "data:x" None; OutputItemText "z"] in
  ∃ kept cut rest cut_out, items = kept ++ cut ++ rest
    ∧ truncate_function_output_items_with_policy items (Bytes 8) = Some (kept ++ cut_out ++ omitted rest)
    ∧ total_cost (Bytes 8) kept <= 8
    ∧ (cut = [] ∧ cut_out = [] ∧ (rest = [] ∨ total_cost (Bytes 8) kept = 8)
       ∨ ∃ text out, let left := with_budget (Bytes 8) (8 - total_cost (Bytes 8) kept) in
           cut = [OutputItemText text] ∧ cut_out = [OutputItemText out]
           ∧ 0 < budget_of left < item_cost (Bytes 8) text
           ∧ truncated text (byte_budget left) false out
           ∧ byte_len out <= byte_budget left + 43).
Proof.
  apply (output_items_fill_the_budget _ (Bytes 8)).
  repeat (apply Forall_cons; split; [apply short_fits; by vm_compute|]). by apply Forall_nil.
Defined.
