(* ===== verification/Contextual.v ===== *)
(** Which messages of a history the codex agent put there itself:
    [codex-rs/core/src/context/fragment.rs], [contextual_user_message.rs] and the
    markers of its fragments, the predicates of [event_mapping.rs], and
    [parse_hook_prompt_fragment] of [codex-rs/protocol/src/items.rs]. The XML and
    JSON of two kinds of message are read by libraries. *)
From S2P Require Import Prelude Json Protocol Truncate.
#[local] Open Scope N_scope.

(** What the libraries read: the text and run id of a hook prompt
    ([quick_xml]), and whether a text is an [InterAgentCommunication] ([serde]). *)
Class MessageParsers := {
  hook_prompt_from_xml : str → option (str * str);
  is_inter_agent_json : str → bool
}.

(** ** Fragments *)

Record FragmentMarkers := MkFragmentMarkers { START_MARKER : str; END_MARKER : str }.

(** [text.get(..n).is_some_and(|c| c.eq_ignore_ascii_case(marker))] and its mirror. *)
Definition starts_with_marker (marker text : str) : bool :=
  match slice_to (byte_len marker) text with Some candidate => eq_ignore_ascii_case candidate marker | None => false end.
Definition ends_with_marker (marker text : str) : bool :=
  match slice_from (byte_len text - byte_len marker) text with
  | Some candidate => eq_ignore_ascii_case candidate marker
  | None => false
  end.

Definition matches_text (T : FragmentMarkers) (text : str) : bool :=
  if is_empty (START_MARKER T) || is_empty (END_MARKER T) then false
  else
    let trimmed := trim_start text in
    let starts := starts_with_marker (START_MARKER T) trimmed in
    let trimmed := trim_end trimmed in
    starts && ends_with_marker (END_MARKER T) trimmed.

Definition render (T : FragmentMarkers) (body : str) : str :=
  if is_empty (START_MARKER T) && is_empty (END_MARKER T) then body
  else START_MARKER T ++ body ++ END_MARKER T.

Definition UserInstructions : FragmentMarkers := MkFragmentMarkers (lit "# AGENTS.md instructions for ") (lit "</INSTRUCTIONS>").
Definition EnvironmentContext : FragmentMarkers := MkFragmentMarkers (lit "<environment_context>") (lit "</environment_context>").
Definition SkillInstructions : FragmentMarkers := MkFragmentMarkers (lit "<skill>") (lit "</skill>").
Definition UserShellCommand : FragmentMarkers := MkFragmentMarkers (lit "<user_shell_command>") (lit "</user_shell_command>").
Definition TurnAborted : FragmentMarkers := MkFragmentMarkers (lit "<turn_aborted>") (lit "</turn_aborted>").
Definition SubagentNotification : FragmentMarkers :=
  MkFragmentMarkers (lit "<subagent_notification>") (lit "</subagent_notification>").

Definition CONTEXTUAL_USER_FRAGMENTS : list FragmentMarkers :=
  [UserInstructions; EnvironmentContext; SkillInstructions; UserShellCommand; TurnAborted; SubagentNotification].
Definition MEMORY_EXCLUDED_CONTEXTUAL_USER_FRAGMENTS : list FragmentMarkers := [UserInstructions; SkillInstructions].

Definition is_standard_contextual_user_text (text : str) : bool :=
  existsb (λ fragment, matches_text fragment text) CONTEXTUAL_USER_FRAGMENTS.

Definition is_memory_excluded_contextual_user_fragment (content_item : ContentItem) : bool :=
  match content_item with
  | InputText text => existsb (λ fragment, matches_text fragment text) MEMORY_EXCLUDED_CONTEXTUAL_USER_FRAGMENTS
  | _ => false
  end.

Section parsers.
Context {MP : MessageParsers}.

Definition parse_hook_prompt_fragment (text : str) : option (str * str) :=
  let trimmed := trim text in
  '(text, hook_run_id) ← hook_prompt_from_xml trimmed;
  if is_empty (trim hook_run_id) then None else Some (text, hook_run_id).

Definition is_contextual_user_fragment (content_item : ContentItem) : bool :=
  match content_item with
  | InputText text => is_some_b (parse_hook_prompt_fragment text) || is_standard_contextual_user_text text
  | _ => false
  end.

Definition is_contextual_user_message_content (message : list ContentItem) : bool :=
  existsb is_contextual_user_fragment message.

(** [InterAgentCommunication::is_message_content]. *)
Definition is_inter_agent_instruction_content (content : list ContentItem) : bool :=
  match content with
  | [InputText text] | [OutputText text] => is_inter_agent_json text
  | _ => false
  end.
End parsers.

(** ** Messages for the developer *)

Definition CONTEXTUAL_DEVELOPER_PREFIXES : list str :=
  [lit "<permissions instructions>"; lit "<model_switch>"; lit "<collaboration_mode>"; lit "<realtime_conversation>";
   lit "<personality_spec>"].

Definition is_contextual_dev_fragment (content_item : ContentItem) : bool :=
  match content_item with
  | InputText text =>
      let trimmed := trim_start text in
      existsb (λ prefix, starts_with_marker prefix trimmed) CONTEXTUAL_DEVELOPER_PREFIXES
  | _ => false
  end.
Definition is_contextual_dev_message_content (message : list ContentItem) : bool :=
  existsb is_contextual_dev_fragment message.
Definition has_non_contextual_dev_message_content (message : list ContentItem) : bool :=
  existsb (λ content_item, negb (is_contextual_dev_fragment content_item)) message.

Example matches_case : matches_text TurnAborted "  <Turn_Aborted>é</TURN_aborted>
" = true.
Proof. eval_done. Qed.

(** ** What is rendered is recognised *)

Lemma starts_with_marker_app marker text : starts_with_marker marker (marker ++ text) = true.
Proof. unfold starts_with_marker, eq_ignore_ascii_case. by rewrite slice_to_app str_eqb_refl. Qed.

Lemma ends_with_marker_app marker text : ends_with_marker marker (text ++ marker) = true.
Proof.
  unfold ends_with_marker, eq_ignore_ascii_case. rewrite byte_len_app N.add_sub slice_from_app. by rewrite str_eqb_refl.
Qed.

Lemma trim_start_spaces ws s : Forall (λ c, is_whitespace c = true) ws → trim_start (ws ++ s) = trim_start s.
Proof.
  induction 1 as [|c ws Hc _ IH]; [done|]. unfold trim_start, trim_start_matches in *. simpl. by rewrite Hc.
Qed.

Lemma trim_end_spaces ws s : Forall (λ c, is_whitespace c = true) ws → trim_end (s ++ ws) = trim_end s.
Proof.
  intros Hws. unfold trim_end, trim_end_matches. rewrite reverse_app.
  f_equal. apply trim_start_spaces. by apply Forall_reverse.
Qed.

(** Markers that a text between whitespace is recognised by. *)
Definition proper (T : FragmentMarkers) : bool :=
  match START_MARKER T, last (END_MARKER T) with
  | c :: _, Some d => negb (is_whitespace c) && negb (is_whitespace d)
  | _, _ => false
  end.

Lemma trim_end_proper s d r : r = s ++ [d] → is_whitespace d = false → trim_end r = r.
Proof.
  intros -> Hd. unfold trim_end, trim_end_matches. rewrite reverse_snoc /= Hd. by rewrite -reverse_snoc reverse_involutive.
Qed.

(** A fragment that the agent renders, with any body and whitespace around it,
    is recognised by its own markers. *)
Lemma rendered_fragment_matches T body ws ws' :
  proper T = true → Forall (λ c, is_whitespace c = true) ws → Forall (λ c, is_whitespace c = true) ws' →
  matches_text T (ws ++ render T body ++ ws') = true.
Proof.
  unfold proper. intros HT Hws Hws'. destruct (START_MARKER T) as [|c start] eqn:Hs; [done|].
  destruct (last (END_MARKER T)) as [d|] eqn:He; [|done]. apply andb_true_iff in HT as [Hc Hd].
  apply negb_true_iff in Hc, Hd. apply last_Some in He as [end_ He].
  assert (is_empty (END_MARKER T) = false) as Hne by (rewrite He; by destruct end_).
  unfold matches_text, render. rewrite Hs Hne. cbn [is_empty orb andb].
  rewrite trim_start_spaces // -Hs.
  assert (trim_start ((START_MARKER T ++ body ++ END_MARKER T) ++ ws') = START_MARKER T ++ (body ++ END_MARKER T) ++ ws') as ->.
  { rewrite -!app_assoc Hs. unfold trim_start, trim_start_matches. simpl. by rewrite Hc. }
  rewrite starts_with_marker_app (app_assoc (START_MARKER T)) trim_end_spaces //.
  rewrite (trim_end_proper (START_MARKER T ++ body ++ end_) d); [by rewrite He -!app_assoc|done|].
  by rewrite app_assoc ends_with_marker_app.
Qed.

(** Every fragment the agent renders for the user is taken for context, never
    for what the user typed. *)
Lemma rendered_fragments_are_contextual `{MessageParsers} T body ws ws' :
  T ∈ CONTEXTUAL_USER_FRAGMENTS → Forall (λ c, is_whitespace c = true) ws → Forall (λ c, is_whitespace c = true) ws' →
  is_contextual_user_fragment (InputText (ws ++ render T body ++ ws')) = true.
Proof.
  intros HT Hws Hws'. simpl. apply orb_true_iff. right. apply existsb_exists. exists T. rewrite -list_elem_of_In.
  split; [done|]. apply rendered_fragment_matches; [|done..]. revert T HT.
  apply Forall_forall. repeat constructor.
Qed.
