(* ===== verification/TokenUsage.v ===== *)
(** Counting tokens: [TokenUsage] and [TokenUsageInfo] of
    [codex-rs/protocol/src/protocol.rs], and the multiplication of a
    [TruncationPolicy] by a float. Counts are [i64]; unchecked arithmetic that
    overflows panics ([None]) in a debug build and wraps in a release build. *)
From Stdlib Require Import Floats.SpecFloat.
From S2P Require Import Prelude Json Protocol Truncate.
#[local] Open Scope Z_scope.

(** ** Integers of 64 bits *)

Definition i64_min : Z := -9223372036854775808.
Definition in_i64 (z : Z) : bool := (i64_min <=? z) && (z <=? i64_max).
Definition i64_wrap (z : Z) : Z := (z - i64_min) mod 2 ^ 64 + i64_min.
Definition i64_arith (debug_assertions : bool) (z : Z) : option Z :=
  if in_i64 z then Some z else if debug_assertions then None else Some (i64_wrap z).
Definition i64_saturating (z : Z) : Z := Z.max i64_min (Z.min z i64_max).
Definition i64_saturating_add (a b : Z) : Z := i64_saturating (a + b).
Definition i64_saturating_sub (a b : Z) : Z := i64_saturating (a - b).

(** ** [TokenUsage] *)

Record TokenUsage := MkTokenUsage {
  input_tokens : Z;
  cached_input_tokens : Z;
  output_tokens : Z;
  reasoning_output_tokens : Z;
  total_tokens : Z
}.
Definition token_usage_default : TokenUsage := MkTokenUsage 0 0 0 0 0.

Section build.
Context (debug_assertions : bool).
Let arith := i64_arith debug_assertions.

Definition add_assign (self other : TokenUsage) : option TokenUsage :=
  i ← arith (input_tokens self + input_tokens other);
  c ← arith (cached_input_tokens self + cached_input_tokens other);
  o ← arith (output_tokens self + output_tokens other);
  r ← arith (reasoning_output_tokens self + reasoning_output_tokens other);
  t ← arith (total_tokens self + total_tokens other);
  Some (MkTokenUsage i c o r t).

(** ** [TokenUsageInfo] *)

Record TokenUsageInfo := MkTokenUsageInfo {
  total_token_usage : TokenUsage;
  last_token_usage : TokenUsage;
  model_context_window : option Z
}.

Definition append_last_usage (self : TokenUsageInfo) (last : TokenUsage) : option TokenUsageInfo :=
  total ← add_assign (total_token_usage self) last;
  Some (MkTokenUsageInfo total last (model_context_window self)).

Definition new_or_append (info : option TokenUsageInfo) (last : option TokenUsage) (window : option Z) :
    option (option TokenUsageInfo) :=
  if negb (is_some_b info) && negb (is_some_b last) then Some None
  else
    let info := match info with
                | Some info => info
                | None => MkTokenUsageInfo token_usage_default token_usage_default window
                end in
    info ← match last with Some last => append_last_usage info last | None => Some info end;
    Some (Some (match window with
                | Some window => MkTokenUsageInfo (total_token_usage info) (last_token_usage info) (Some window)
                | None => info
                end)).

Definition fill_to_context_window (self : TokenUsageInfo) (context_window : Z) : option TokenUsageInfo :=
  let previous_total := total_tokens (total_token_usage self) in
  difference ← arith (context_window - previous_total);
  let delta := Z.max difference 0 in
  Some (MkTokenUsageInfo (MkTokenUsage 0 0 0 0 context_window) (MkTokenUsage 0 0 0 0 delta) (Some context_window)).

Definition full_context_window (context_window : Z) : option TokenUsageInfo :=
  fill_to_context_window (MkTokenUsageInfo token_usage_default token_usage_default (Some context_window)) context_window.
End build.

(** ** [TruncationPolicy * f64] *)

(** [n as f64]: the nearest double. *)
Definition as_f64 (n : N) : spec_float := binary_normalize 53 1024 (Z.of_N n) 0 false.
Definition f64_mul (a b : spec_float) : spec_float := SFmul 53 1024 a b.
(** [x.ceil() as usize]: what is negative or not a number becomes 0, what is
    too large the largest [usize]. *)
Definition ceil_as_usize (x : spec_float) : N :=
  match x with
  | S754_finite false m e =>
      N.min (match e with
             | Zneg p => Z.to_N ((Zpos m + (Zpos (2 ^ p) - 1)) / Zpos (2 ^ p))
             | _ => Z.to_N (Zpos m * 2 ^ e)
             end) usize_max
  | S754_infinity false => usize_max
  | _ => 0%N
  end.

Definition policy_mul (policy : TruncationPolicy) (multiplier : spec_float) : TruncationPolicy :=
  match policy with
  | Bytes bytes => Bytes (ceil_as_usize (f64_mul (as_f64 bytes) multiplier))
  | Tokens tokens => Tokens (ceil_as_usize (f64_mul (as_f64 tokens) multiplier))
  end.

(** The double nearest to 1.2. *)
Definition f64_1_2 : spec_float := S754_finite false 5404319552844595 (-52).

Example budget_10000 : policy_mul (Tokens 10000) f64_1_2 = Tokens 12000.
Proof. eval_done. Qed.
Example budget_5 : policy_mul (Bytes 5) f64_1_2 = Bytes 6.
Proof. eval_done. Qed.
Example budget_3 : policy_mul (Bytes 3) f64_1_2 = Bytes 4.
Proof. eval_done. Qed.
Example budget_max : policy_mul (Bytes 18446744073709551615) f64_1_2 = Bytes 18446744073709551615.
Proof. eval_done. Qed.

(** ** Overflow *)

Lemma i64_saturating_bounds z : i64_min <= i64_saturating z <= i64_max.
Proof. unfold i64_saturating, i64_min, i64_max. lia. Qed.

Lemma i64_wrap_bounds z : i64_min <= i64_wrap z <= i64_max.
Proof. unfold i64_wrap, i64_min, i64_max. pose proof (Z.mod_pos_bound (z - -9223372036854775808) (2 ^ 64) ltac:(lia)). lia. Qed.

Lemma i64_arith_exact debug z : i64_min <= z <= i64_max → i64_arith debug z = Some z.
Proof. intros [H1 H2]. unfold i64_arith, in_i64. by rewrite (proj2 (Z.leb_le _ _) H1) (proj2 (Z.leb_le _ _) H2). Qed.

Lemma i64_arith_release z : ∃ r, i64_arith false z = Some r ∧ i64_min <= r <= i64_max ∧ (r - z) mod 2 ^ 64 = 0.
Proof.
  unfold i64_arith, in_i64. destruct (Z.leb_spec i64_min z), (Z.leb_spec z i64_max); simpl.
  1: exists z; split; [done|]; split; [lia|by rewrite Z.sub_diag].
  all: exists (i64_wrap z); split; [done|]; split; [apply i64_wrap_bounds|].
  all: unfold i64_wrap; replace ((z - i64_min) mod 2 ^ 64 + i64_min - z) with ((z - i64_min) mod 2 ^ 64 - (z - i64_min)) by lia.
  all: by rewrite Zminus_mod_idemp_l Z.sub_diag.
Qed.

(** Saturated sums of non-negative terms: the sum, up to the largest [i64]. *)
Definition zsum (l : list Z) : Z := foldr Z.add 0 l.
Definition nonneg (z : Z) : Prop := 0 <= z.

Lemma zsum_nonneg l : Forall nonneg l → 0 <= zsum l.
Proof. induction 1 as [|z l Hz _ IH]; simpl; unfold nonneg in *; [done|]. change (0 <= z + zsum l). lia. Qed.

Lemma fold_saturating l a :
  0 <= a <= i64_max → Forall nonneg l → foldl i64_saturating_add a l = Z.min (a + zsum l) i64_max.
Proof.
  intros Ha Hl. revert a Ha. induction Hl as [|z l Hz Hl IH]; intros a Ha; cbn [foldl]; [simpl; lia|].
  change (zsum (z :: l)) with (z + zsum l). pose proof (zsum_nonneg l Hl). unfold nonneg in *.
  unfold i64_saturating_add at 2, i64_saturating. rewrite IH; unfold i64_min, i64_max in *; lia.
Qed.
