(* ===== verification/ImageEstimate.v ===== *)
(** How much of the context an item of the history takes: the estimators of
    [codex-rs/core/src/context_manager/history.rs]. Libraries serialize items,
    decode base64 and read image sizes; a cache keeps the estimates of images. *)
From S2P Require Import Prelude Json Protocol Truncate Contextual TokenUsage.
#[local] Open Scope Z_scope.

(** The length of an item in JSON ([serde_json]), if it can be serialized;
    decoding of base64 and of images (their width and height, both [u32]); and
    what the cache of estimates holds for an image at the moment. *)
Class EstimateEnv := {
  to_json_len : ResponseItem → option N;
  base64_decode : str → option (list N);
  image_load_from_memory : list N → option (N * N);
  cached_estimate : str → option (option Z)
}.

Definition estimate_reasoning_length (encoded_len : N) : N := (saturating_mul encoded_len 3 / 4 - 650)%N.

Definition RESIZED_IMAGE_BYTES_ESTIMATE : Z := 7373.
Definition ORIGINAL_IMAGE_PATCH_SIZE : Z := 32.
Definition ORIGINAL_IMAGE_MAX_PATCHES : N := 10000.

(** The text before and after the first comma. *)
Fixpoint split_at_comma (s : str) : option (str * str) :=
  match s with
  | [] => None
  | c :: r => if (c =? 44)%N then Some ([], r) else '(a, b) ← split_at_comma r; Some (c :: a, b)
  end.

(** The first five characters are [data:], so that the comma is past them and
    the slice after them is in bounds. *)
Definition parse_base64_image_data_url (url : str) : option str :=
  if negb (starts_with_marker "data:" url) then None
  else
    '(metadata, payload) ← split_at_comma url;
    let metadata_without_scheme := drop 5 metadata in
    let metadata_parts := split_on 59%N metadata_without_scheme in
    let mime_type := default [] (head metadata_parts) in
    let has_base64_marker := existsb (λ part, eq_ignore_ascii_case part "base64") (tail metadata_parts) in
    if negb (starts_with_marker "image/" mime_type) then None
    else if negb has_base64_marker then None
    else Some payload.

Section estimates.
Context {EE : EstimateEnv}.

(** The estimate of an image of the original detail, computed anew. *)
Definition compute_original_image_bytes (image_url : str) : option Z :=
  payload ← parse_base64_image_data_url image_url;
  bytes ← base64_decode payload;
  '(w, h) ← image_load_from_memory bytes;
  let patch_size := ORIGINAL_IMAGE_PATCH_SIZE in
  let patches_wide := Z.quot (i64_saturating_add (Z.of_N w) (i64_saturating_sub patch_size 1)) patch_size in
  let patches_high := Z.quot (i64_saturating_add (Z.of_N h) (i64_saturating_sub patch_size 1)) patch_size in
  let patch_count := i64_saturating (patches_wide * patches_high) in
  let patch_count := if patch_count <? 0 then usize_max else Z.to_N patch_count in
  let patch_count := N.min patch_count ORIGINAL_IMAGE_MAX_PATCHES in
  Some (i64_from_unsigned (approx_bytes_for_tokens patch_count)).

Definition estimate_original_image_bytes (image_url : str) : option Z :=
  match cached_estimate image_url with
  | Some v => v
  | None => compute_original_image_bytes image_url
  end.

(** The closure [accumulate]. *)
Definition accumulate (image_url : str) (detail : option ImageDetail) (acc : Z * Z) : Z * Z :=
  let '(payload_bytes, replacement_bytes) := acc in
  match parse_base64_image_data_url image_url with
  | Some payload =>
      (i64_saturating_add payload_bytes (i64_from_unsigned (byte_len payload)),
       i64_saturating_add replacement_bytes
         (match detail with
          | Some DetailOriginal => default RESIZED_IMAGE_BYTES_ESTIMATE (estimate_original_image_bytes image_url)
          | _ => RESIZED_IMAGE_BYTES_ESTIMATE
          end))
  | None => acc
  end.

Definition accumulate_outputs (output : FunctionCallOutputPayload) (acc : Z * Z) : Z * Z :=
  match body output with
  | BodyContentItems items =>
      foldl (λ acc content_item, match content_item with
                                 | OutputItemImage image_url detail => accumulate image_url detail acc
                                 | OutputItemText _ => acc
                                 end) acc items
  | BodyText _ => acc
  end.

Definition image_data_url_estimate_adjustment (item : ResponseItem) : Z * Z :=
  match item with
  | Message _ _ content _ =>
      foldl (λ acc content_item, match content_item with
                                 | InputImage image_url detail => accumulate image_url detail acc
                                 | _ => acc
                                 end) (0, 0) content
  | FunctionCallOutput _ output | CustomToolCallOutput _ _ output => accumulate_outputs output (0, 0)
  | _ => (0, 0)
  end.

Definition estimate_response_item_model_visible_bytes (item : ResponseItem) : Z :=
  match item with
  | Reasoning _ _ _ (Some content) | Compaction content => i64_from_unsigned (estimate_reasoning_length (byte_len content))
  | _ =>
      let raw := match to_json_len item with Some len => i64_from_unsigned len | None => 0 end in
      let '(payload_bytes, replacement_bytes) := image_data_url_estimate_adjustment item in
      if (payload_bytes =? 0) || (replacement_bytes =? 0) then raw
      else i64_saturating_add (i64_saturating_sub raw payload_bytes) replacement_bytes
  end.

Definition estimate_item_token_count (item : ResponseItem) : Z :=
  let model_visible_bytes := estimate_response_item_model_visible_bytes item in
  approx_tokens_from_byte_count_i64 model_visible_bytes.
End estimates.

Example data_url : parse_base64_image_data_url "DATA:image/png;Base64,AAAA" = Some (lit "AAAA").
Proof. eval_done. Qed.
Example data_url_plain : parse_base64_image_data_url "data:image/png,AAAA" = None.
Proof. eval_done. Qed.

(** ** Bounds *)

Lemma i64_from_unsigned_bounds n : 0 <= i64_from_unsigned n <= i64_max.
Proof. unfold i64_from_unsigned, i64_max. lia. Qed.

Lemma approx_tokens_bounds bytes : 0 <= approx_tokens_from_byte_count_i64 bytes <= i64_max.
Proof.
  unfold approx_tokens_from_byte_count_i64. case_match; [unfold i64_max; lia|]. apply i64_from_unsigned_bounds.
Qed.

Section bounds.
Context {EE : EstimateEnv}.

Lemma estimate_item_token_count_bounds item : 0 <= estimate_item_token_count item <= i64_max.
Proof. apply approx_tokens_bounds. Qed.

(** The cost of any image of the original detail is at most that of 10,000 patches. *)
Lemma compute_original_image_bytes_bounds url n : compute_original_image_bytes url = Some n → 0 <= n <= 40000.
Proof.
  unfold compute_original_image_bytes. intros (payload & _ & (bytes & _ & ([w h] & _ & [= <-])%bind_Some)%bind_Some)%bind_Some.
  set (count := N.min _ _). assert (count <= 10000)%N as Hc by (unfold count, ORIGINAL_IMAGE_MAX_PATCHES; lia).
  assert (approx_bytes_for_tokens count <= 40000)%N.
  { unfold approx_bytes_for_tokens, saturating_mul, APPROX_BYTES_PER_TOKEN. lia. }
  unfold i64_from_unsigned, i64_max. lia.
Qed.
End bounds.
