(* ===== verification/Normalize.v ===== *)
(** Calls and their outputs in the history of the codex agent:
    [codex-rs/core/src/context_manager/normalize.rs]. A build with debug
    assertions panics on an output that is missing or orphaned
    ([error_or_panic] of [util.rs]); [debug_assertions] tells the builds apart and
    [None] is a panic. *)
From S2P Require Import Prelude Json Protocol.

(** ** Vectors *)

(** [Vec::insert], which panics past the end. *)
Definition vec_insert {A} (idx : nat) (x : A) (l : list A) : option (list A) :=
  if Nat.leb idx (length l) then Some (take idx l ++ x :: drop idx l) else None.

(** [Iterator::position]. *)
Fixpoint position {A} (f : A → bool) (l : list A) : option nat :=
  match l with [] => None | x :: r => if f x then Some 0 else S <$> position f r end.

Definition remove_first_matching {A} (predicate : A → bool) (items : list A) : list A :=
  match position predicate items with Some pos => take pos items ++ drop (S pos) items | None => items end.

(** [Vec::retain] with a predicate that may panic. *)
Fixpoint retain {A} (f : A → option bool) (l : list A) : option (list A) :=
  match l with
  | [] => Some []
  | x :: r => keep ← f x; r' ← retain f r; Some (if keep : bool then x :: r' else r')
  end.

(** ** Matching calls and outputs *)

Definition is_function_output (call_id : str) (i : ResponseItem) : bool :=
  match i with FunctionCallOutput existing _ => existing =s? call_id | _ => false end.
Definition is_tool_search_output (call_id : str) (i : ResponseItem) : bool :=
  match i with ToolSearchOutput (Some existing) _ _ _ => existing =s? call_id | _ => false end.
Definition is_custom_output (call_id : str) (i : ResponseItem) : bool :=
  match i with CustomToolCallOutput existing _ _ => existing =s? call_id | _ => false end.
Definition is_function_call (call_id : str) (i : ResponseItem) : bool :=
  match i with FunctionCall _ _ _ _ existing => existing =s? call_id | _ => false end.
Definition is_local_shell_call (call_id : str) (i : ResponseItem) : bool :=
  match i with LocalShellCall _ (Some existing) _ _ => existing =s? call_id | _ => false end.
Definition is_tool_search_call (call_id : str) (i : ResponseItem) : bool :=
  match i with ToolSearchCall _ (Some existing) _ _ _ => existing =s? call_id | _ => false end.
Definition is_custom_call (call_id : str) (i : ResponseItem) : bool :=
  match i with CustomToolCall _ _ existing _ _ => existing =s? call_id | _ => false end.

(** ** [ensure_call_outputs_present] *)

Definition error_or_panic (debug_assertions : bool) : option unit :=
  if debug_assertions then None else Some tt.

Definition aborted : FunctionCallOutputPayload := payload_from_text (lit "aborted").

(** The output made up for one item, if it is a call without one. *)
Definition missing_output (debug_assertions : bool) (items : list ResponseItem) (item : ResponseItem) :
    option (option ResponseItem) :=
  match item with
  | FunctionCall _ _ _ _ call_id =>
      if existsb (is_function_output call_id) items then Some None
      else Some (Some (FunctionCallOutput call_id aborted))
  | ToolSearchCall _ (Some call_id) _ _ _ =>
      if existsb (is_tool_search_output call_id) items then Some None
      else Some (Some (ToolSearchOutput (Some call_id) (lit "completed") (lit "client") []))
  | CustomToolCall _ _ call_id _ _ =>
      if existsb (is_custom_output call_id) items then Some None
      else _ ← error_or_panic debug_assertions; Some (Some (CustomToolCallOutput call_id None aborted))
  | LocalShellCall _ (Some call_id) _ _ =>
      if existsb (is_function_output call_id) items then Some None
      else _ ← error_or_panic debug_assertions; Some (Some (FunctionCallOutput call_id aborted))
  | _ => Some None
  end.

(** The first loop: the outputs to insert, with the positions of their calls. *)
Fixpoint missing_outputs (debug_assertions : bool) (items : list ResponseItem) (idx : nat) (l : list ResponseItem) :
    option (list (nat * ResponseItem)) :=
  match l with
  | [] => Some []
  | item :: r =>
      missing ← missing_output debug_assertions items item;
      rest ← missing_outputs debug_assertions items (S idx) r;
      Some (match missing with Some output_item => (idx, output_item) :: rest | None => rest end)
  end.

(** The second loop: in reverse, so that positions stay valid. *)
Definition insert_missing (missing_outputs_to_insert : list (nat * ResponseItem)) (items : list ResponseItem) :
    option (list ResponseItem) :=
  foldl (λ acc '(idx, output_item), items ← acc; vec_insert (S idx) output_item items)
    (Some items) (rev missing_outputs_to_insert).

Definition ensure_call_outputs_present (debug_assertions : bool) (items : list ResponseItem) :
    option (list ResponseItem) :=
  missing ← missing_outputs debug_assertions items 0 items; insert_missing missing items.

(** ** [remove_orphan_outputs] *)

Definition function_call_ids (items : list ResponseItem) : gset str :=
  list_to_set (omap (λ i, match i with FunctionCall _ _ _ _ call_id => Some call_id | _ => None end) items).
Definition tool_search_call_ids (items : list ResponseItem) : gset str :=
  list_to_set (omap (λ i, match i with ToolSearchCall _ (Some call_id) _ _ _ => Some call_id | _ => None end) items).
Definition local_shell_call_ids (items : list ResponseItem) : gset str :=
  list_to_set (omap (λ i, match i with LocalShellCall _ (Some call_id) _ _ => Some call_id | _ => None end) items).
Definition custom_tool_call_ids (items : list ResponseItem) : gset str :=
  list_to_set (omap (λ i, match i with CustomToolCall _ _ call_id _ _ => Some call_id | _ => None end) items).

Definition keep_or_panic (debug_assertions has_match : bool) : option bool :=
  if has_match then Some true else _ ← error_or_panic debug_assertions; Some false.

Definition keep_output (debug_assertions : bool) (items : list ResponseItem) (item : ResponseItem) : option bool :=
  match item with
  | FunctionCallOutput call_id _ =>
      keep_or_panic debug_assertions
        (bool_decide (call_id ∈ function_call_ids items) || bool_decide (call_id ∈ local_shell_call_ids items))
  | CustomToolCallOutput call_id _ _ =>
      keep_or_panic debug_assertions (bool_decide (call_id ∈ custom_tool_call_ids items))
  | ToolSearchOutput call_id _ execution _ =>
      if execution =s? "server" then Some true
      else match call_id with
           | Some call_id => keep_or_panic debug_assertions (bool_decide (call_id ∈ tool_search_call_ids items))
           | None => Some true
           end
  | _ => Some true
  end.

Definition remove_orphan_outputs (debug_assertions : bool) (items : list ResponseItem) : option (list ResponseItem) :=
  retain (keep_output debug_assertions items) items.

(** ** [remove_corresponding_for] *)

Definition remove_corresponding_for (items : list ResponseItem) (item : ResponseItem) : list ResponseItem :=
  match item with
  | FunctionCall _ _ _ _ call_id => remove_first_matching (is_function_output call_id) items
  | FunctionCallOutput call_id _ =>
      match position (is_function_call call_id) items with
      | Some pos => take pos items ++ drop (S pos) items
      | None =>
          match position (is_local_shell_call call_id) items with
          | Some pos => take pos items ++ drop (S pos) items
          | None => items
          end
      end
  | ToolSearchCall _ (Some call_id) _ _ _ => remove_first_matching (is_tool_search_output call_id) items
  | ToolSearchOutput (Some call_id) _ _ _ => remove_first_matching (is_tool_search_call call_id) items
  | CustomToolCall _ _ call_id _ _ => remove_first_matching (is_custom_output call_id) items
  | CustomToolCallOutput call_id _ _ => remove_first_matching (is_custom_call call_id) items
  | LocalShellCall _ (Some call_id) _ _ => remove_first_matching (is_function_output call_id) items
  | _ => items
  end.

(** ** [strip_images_when_unsupported] *)

Definition IMAGE_CONTENT_OMITTED_PLACEHOLDER : str := lit "image content omitted because you do not support image input".

Definition strip_content (c : ContentItem) : ContentItem :=
  match c with InputImage _ _ => InputText IMAGE_CONTENT_OMITTED_PLACEHOLDER | _ => c end.
Definition strip_output_item (c : FunctionCallOutputContentItem) : FunctionCallOutputContentItem :=
  match c with OutputItemImage _ _ => OutputItemText IMAGE_CONTENT_OMITTED_PLACEHOLDER | _ => c end.
Definition strip_payload (output : FunctionCallOutputPayload) : FunctionCallOutputPayload :=
  match content_items output with
  | Some items => MkFunctionCallOutputPayload (BodyContentItems (strip_output_item <$> items)) (success output)
  | None => output
  end.
Definition strip_item (item : ResponseItem) : ResponseItem :=
  match item with
  | Message id role content phase => Message id role (strip_content <$> content) phase
  | FunctionCallOutput call_id output => FunctionCallOutput call_id (strip_payload output)
  | CustomToolCallOutput call_id name output => CustomToolCallOutput call_id name (strip_payload output)
  | ImageGenerationCall id status revised_prompt _ => ImageGenerationCall id status revised_prompt []
  | _ => item
  end.
Definition strip_images_when_unsupported (input_modalities : list InputModality) (items : list ResponseItem) :
    list ResponseItem :=
  if bool_decide (ModalityImage ∈ input_modalities) then items else strip_item <$> items.

(** ** [ContextManager::normalize_history] *)

Definition normalize_history (debug_assertions : bool) (input_modalities : list InputModality)
    (items : list ResponseItem) : option (list ResponseItem) :=
  items ← ensure_call_outputs_present debug_assertions items;
  items ← remove_orphan_outputs debug_assertions items;
  Some (strip_images_when_unsupported input_modalities items).

Example normalize_example :
  normalize_history false [ModalityText]
    [FunctionCallOutput (lit "o") aborted; FunctionCall None (lit "ls") None (lit "{}") (lit "c"); Other]
  = Some [FunctionCall None (lit "ls") None (lit "{}") (lit "c"); FunctionCallOutput (lit "c") aborted; Other].
Proof. eval_done. Qed.

(** ** Keys: which output answers which call *)

Inductive call_kind : Type := KFunction | KSearch | KCustom.
#[export] Instance call_kind_eq_dec : EqDecision call_kind.
Proof. solve_decision. Defined.
Definition call_id_of : Type := call_kind * str.

(** The key of a call, of an output, and of the call an output cannot do
    without: the server may search without a call. *)
Definition call_key (i : ResponseItem) : option call_id_of :=
  match i with
  | FunctionCall _ _ _ _ c | LocalShellCall _ (Some c) _ _ => Some (KFunction, c)
  | ToolSearchCall _ (Some c) _ _ _ => Some (KSearch, c)
  | CustomToolCall _ _ c _ _ => Some (KCustom, c)
  | _ => None
  end.
Definition output_key (i : ResponseItem) : option call_id_of :=
  match i with
  | FunctionCallOutput c _ => Some (KFunction, c)
  | ToolSearchOutput (Some c) _ _ _ => Some (KSearch, c)
  | CustomToolCallOutput c _ _ => Some (KCustom, c)
  | _ => None
  end.
Definition required_call (i : ResponseItem) : option call_id_of :=
  match i with
  | ToolSearchOutput _ _ execution _ => if execution =s? "server" then None else output_key i
  | _ => output_key i
  end.
Abbreviation calls items := (omap call_key items).
Abbreviation outputs items := (omap output_key items).

(** The invariants of the history: every call that has an id has an output, and every
    output that has an id a call, searches of the server apart. *)
Definition paired (items : list ResponseItem) : Prop :=
  (∀ k, k ∈ calls items → k ∈ outputs items) ∧ (∀ x k, x ∈ items → required_call x = Some k → k ∈ calls items).

(** A missing output is made up by the code for every call, but a debug build
    panics for the calls of custom tools and of the local shell. *)
Definition panics_without_output (i : ResponseItem) : bool :=
  match i with CustomToolCall _ _ _ _ _ | LocalShellCall _ _ _ _ => true | _ => false end.
Definition made_up (k : call_id_of) : ResponseItem :=
  match k with
  | (KFunction, c) => FunctionCallOutput c aborted
  | (KSearch, c) => ToolSearchOutput (Some c) (lit "completed") (lit "client") []
  | (KCustom, c) => CustomToolCallOutput c None aborted
  end.

Lemma required_call_output x k : required_call x = Some k → output_key x = Some k.
Proof. destruct x; try done. simpl. by case_match. Qed.

Lemma made_up_keys k : call_key (made_up k) = None ∧ output_key (made_up k) = Some k ∧ required_call (made_up k) = Some k.
Proof. destruct k as [[] c]; done. Qed.

Lemma call_not_output x k : call_key x = Some k → output_key x = None.
Proof. by destruct x. Qed.

Lemma existsb_omap {A B} `{EqDecision B} (f : A → bool) (g : A → option B) (k : B) (l : list A) :
  (∀ x, f x = true ↔ g x = Some k) → existsb f l = bool_decide (k ∈ omap g l).
Proof.
  intros Hfg. apply eq_bool_prop_intro. rewrite Is_true_true bool_decide_spec existsb_exists list_elem_of_omap.
  setoid_rewrite <-list_elem_of_In. by setoid_rewrite Hfg.
Qed.

Ltac key_cases :=
  let x := fresh "x" in intros x; destruct x; try done; simpl; try case_match; try done; rewrite ?str_eqb_eq; naive_solver.

Lemma is_function_output_key c x : is_function_output c x = true ↔ output_key x = Some (KFunction, c).
Proof. revert x. key_cases. Qed.
Lemma is_tool_search_output_key c x : is_tool_search_output c x = true ↔ output_key x = Some (KSearch, c).
Proof. revert x. key_cases. Qed.
Lemma is_custom_output_key c x : is_custom_output c x = true ↔ output_key x = Some (KCustom, c).
Proof. revert x. key_cases. Qed.
Lemma is_tool_search_call_key c x : is_tool_search_call c x = true ↔ call_key x = Some (KSearch, c).
Proof. revert x. key_cases. Qed.
Lemma is_custom_call_key c x : is_custom_call c x = true ↔ call_key x = Some (KCustom, c).
Proof. revert x. key_cases. Qed.
Lemma is_function_or_shell_call_key c x :
  is_function_call c x || is_local_shell_call c x = true ↔ call_key x = Some (KFunction, c).
Proof. rewrite orb_true_iff. revert x. key_cases. Qed.

(** ** Making outputs *)

Lemma missing_output_spec debug items x :
  missing_output debug items x
  = match call_key x with
    | Some k => if bool_decide (k ∈ outputs items) then Some None
                else if debug && panics_without_output x then None else Some (Some (made_up k))
    | None => Some None
    end.
Proof.
  destruct x as [| |? [c|] ? ?| |? [c|] ? ? ?| | | | | | | |]; try done; simpl;
    rewrite ?(existsb_omap _ _ _ _ (is_function_output_key _)) ?(existsb_omap _ _ _ _ (is_tool_search_output_key _))
      ?(existsb_omap _ _ _ _ (is_custom_output_key _));
    case_match; rewrite ?andb_false_r ?andb_true_r //; by destruct debug.
Qed.

Definition made_outputs (items : list ResponseItem) (x : ResponseItem) : list ResponseItem :=
  match call_key x with Some k => if bool_decide (k ∈ outputs items) then [] else [made_up k] | None => [] end.
Definition completed (items : list ResponseItem) : list ResponseItem := x ← items; x :: made_outputs items x.

Lemma vec_insert_app {A} i (x : A) p l : i = length p → vec_insert i x (p ++ l) = Some (p ++ x :: l).
Proof.
  intros ->. unfold vec_insert. rewrite length_app take_app_length drop_app_length.
  by destruct (Nat.leb_spec (length p) (length p + length l)); [|lia].
Qed.

Lemma insert_missing_spec debug items p l ms :
  missing_outputs debug items (length p) l = Some ms →
  insert_missing ms (p ++ l) = Some (p ++ (x ← l; x :: made_outputs items x)).
Proof.
  revert p ms. induction l as [|x l IH]; intros p ms; [by intros [= <-]|]. cbn [missing_outputs]. rewrite missing_output_spec.
  intros (m & Hm & (rest & Hrest & [= <-])%bind_Some)%bind_Some.
  assert (insert_missing rest (p ++ x :: l) = Some (p ++ x :: (y ← l; y :: made_outputs items y))) as Hrec.
  { specialize (IH (p ++ [x]) rest). rewrite length_app Nat.add_1_r -!app_assoc in IH. by apply IH. }
  unfold made_outputs at 1. cbn [mbind list_bind].
  destruct (call_key x) as [k|] eqn:Hk; [case_bool_decide; [|destruct (debug && _); [done|]]|]; simplify_eq; rewrite /= ?Hk.
  - exact Hrec.
  - unfold insert_missing in *. cbn [rev]. rewrite foldl_app Hrec /=.
    by rewrite (cons_middle x p) app_assoc vec_insert_app ?length_app ?Nat.add_1_r // -app_assoc.
  - exact Hrec.
Qed.

Lemma missing_outputs_release items i l : is_Some (missing_outputs false items i l).
Proof.
  revert i. induction l as [|x l IH]; intros i; [by eexists|]. cbn [missing_outputs]. rewrite missing_output_spec.
  destruct (IH (S i)) as [ms Hms]. destruct (call_key x); [case_bool_decide|]; rewrite /= Hms /=; by eexists.
Qed.

Lemma ensure_release items : ensure_call_outputs_present false items = Some (completed items).
Proof.
  unfold ensure_call_outputs_present. destruct (missing_outputs_release items 0 items) as [ms Hms]. rewrite Hms.
  by apply (insert_missing_spec false items [] items ms).
Qed.

(** ** Removing orphans *)

Lemma elem_of_ids {A B} `{Countable B} (f : A → option B) (l : list A) b :
  b ∈ (list_to_set (omap f l) : gset B) ↔ ∃ x, x ∈ l ∧ f x = Some b.
Proof. by rewrite elem_of_list_to_set list_elem_of_omap. Qed.

Lemma keep_output_spec debug items x :
  keep_output debug items x
  = match required_call x with
    | Some k => if bool_decide (k ∈ calls items) then Some true else if debug then None else Some false
    | None => Some true
    end.
Proof.
  assert (∀ P Q : Prop, ∀ dP : Decision P, ∀ dQ : Decision Q, (P ↔ Q) →
    keep_or_panic debug (bool_decide P) = if bool_decide Q then Some true else if debug then None else Some false) as Hk.
  { intros P Q ?? HPQ. rewrite (bool_decide_ext P Q HPQ). unfold keep_or_panic. case_match; [done|]. by destruct debug. }
  destruct x as [| | | | |c o| |c n o|[c|] st ex tools| | | |]; try done; simpl;
    try (destruct (ex =s? "server"); [done|]); try done.
  - rewrite -bool_decide_or. apply Hk. unfold function_call_ids, local_shell_call_ids. rewrite !elem_of_ids list_elem_of_omap.
    split.
    + intros [(y & Hy & Hc)|(y & Hy & Hc)]; exists y; (split; [done|]); destruct y as [| |? [] ? ?| | | | | | | | | |]; naive_solver.
    + intros (y & Hy & Hc). destruct y as [| |? [] ? ?| |? [] ? ? ?| | | | | | | |]; try done; [right|left]; eexists; naive_solver.
  - apply Hk. unfold custom_tool_call_ids. rewrite elem_of_ids list_elem_of_omap.
    f_equiv. intros y. destruct y as [| |? [] ? ?| |? [] ? ? ?| | | | | | | |]; naive_solver.
  - apply Hk. unfold tool_search_call_ids. rewrite elem_of_ids list_elem_of_omap.
    f_equiv. intros y. destruct y as [| |? [] ? ?| |? [] ? ? ?| | | | | | | |]; naive_solver.
Qed.

(** The outputs whose call is in the history, and all other items. *)
Definition has_call (items : list ResponseItem) (x : ResponseItem) : bool :=
  match required_call x with Some k => bool_decide (k ∈ calls items) | None => true end.

Lemma filter_id {A} (P : A → Prop) `{∀ x, Decision (P x)} (l : list A) : Forall P l → filter P l = l.
Proof. induction 1 as [|x l Hx _ IH]; [done|]. by rewrite filter_cons_True // IH. Qed.

Lemma retain_filter {A} (f : A → option bool) (g : A → bool) l :
  (∀ x, x ∈ l → f x = Some (g x)) → retain f l = Some (filter (λ x, g x = true) l).
Proof.
  induction l as [|x l IH]; intros Hf; [done|]. cbn [retain]. rewrite Hf; [set_solver|]. simpl. rewrite IH; [set_solver|]. simpl.
  rewrite filter_cons. by destruct (g x).
Qed.

Lemma remove_orphans_release items :
  remove_orphan_outputs false items = Some (filter (λ x, has_call items x = true) items).
Proof.
  apply retain_filter. intros x _. rewrite keep_output_spec. unfold has_call. by repeat case_match.
Qed.

(** ** The history after the normalisation *)

Definition repaired (items : list ResponseItem) : list ResponseItem :=
  filter (λ x, has_call (completed items) x = true) (completed items).

Lemma normalize_release mods items :
  normalize_history false mods items = Some (strip_images_when_unsupported mods (repaired items)).
Proof. unfold normalize_history. by rewrite ensure_release /= remove_orphans_release. Qed.

Lemma elem_of_completed items x :
  x ∈ completed items ↔ x ∈ items ∨ ∃ k, x = made_up k ∧ k ∈ calls items ∧ k ∉ outputs items.
Proof.
  unfold completed. rewrite list_elem_of_bind. setoid_rewrite elem_of_cons. unfold made_outputs. split.
  - intros (y & [->|Hx] & Hy); [by left|]. right. destruct (call_key y) as [k|] eqn:Hk; [|set_solver].
    case_bool_decide; [set_solver|]. apply list_elem_of_singleton in Hx as ->. exists k. split; [done|].
    split; [|done]. apply list_elem_of_omap. eauto.
  - intros [Hx|(k & -> & (y & Hy & Hk)%list_elem_of_omap & Hn)]; [eauto|]. exists y. split; [|done]. right.
    rewrite Hk bool_decide_eq_false_2 //. set_solver.
Qed.

Lemma calls_completed items k : k ∈ calls (completed items) ↔ k ∈ calls items.
Proof.
  rewrite !list_elem_of_omap. setoid_rewrite elem_of_completed. split; [|naive_solver].
  intros (x & [Hx|(k' & -> & _)] & Hk); [eauto|]. by rewrite (proj1 (made_up_keys k')) in Hk.
Qed.

Lemma has_call_completed items x : has_call (completed items) x = has_call items x.
Proof. unfold has_call. case_match; [|done]. apply bool_decide_ext, calls_completed. Qed.

Lemma elem_of_repaired items x :
  x ∈ repaired items ↔ (x ∈ items ∧ has_call items x = true) ∨ ∃ k, x = made_up k ∧ k ∈ calls items ∧ k ∉ outputs items.
Proof.
  unfold repaired. rewrite list_elem_of_filter has_call_completed elem_of_completed. split; [naive_solver|].
  intros [?|(k & -> & Hk & ?)]; [naive_solver|]. split; [|eauto]. unfold has_call.
  rewrite (proj2 (proj2 (made_up_keys k))). by apply bool_decide_eq_true_2.
Qed.

Lemma call_has_call items x k : call_key x = Some k → has_call items x = true.
Proof. intros Hk. unfold has_call. by destruct x. Qed.

Lemma calls_repaired items k : k ∈ calls (repaired items) ↔ k ∈ calls items.
Proof.
  rewrite !list_elem_of_omap. setoid_rewrite elem_of_repaired. split.
  - intros (x & [[? ?]|(k' & -> & _)] & Hk); [eauto|]. by rewrite (proj1 (made_up_keys k')) in Hk.
  - intros (x & Hx & Hk). exists x. split; [|done]. left. split; [done|]. by eapply call_has_call.
Qed.

Lemma repaired_paired items : paired (repaired items).
Proof.
  split.
  - intros k. rewrite calls_repaired. intros Hk. apply list_elem_of_omap. setoid_rewrite elem_of_repaired.
    destruct (decide (k ∈ outputs items)) as [(x & Hx & Ho)%list_elem_of_omap|Hn].
    + exists x. split; [|done]. left. split; [done|]. unfold has_call. destruct (required_call x) as [k'|] eqn:Hr; [|done].
      apply required_call_output in Hr. simplify_eq. by apply bool_decide_eq_true_2.
    + exists (made_up k). split; [|apply made_up_keys]. right. by exists k.
  - intros x k [[Hx Hc]|(k' & -> & Hk & _)]%elem_of_repaired Hr; apply calls_repaired.
    + unfold has_call in Hc. rewrite Hr in Hc. by apply bool_decide_eq_true in Hc.
    + rewrite (proj2 (proj2 (made_up_keys k'))) in Hr. by simplify_eq.
Qed.

(** ** Paired histories are left alone *)

Lemma strip_item_keys x :
  call_key (strip_item x) = call_key x ∧ output_key (strip_item x) = output_key x ∧ required_call (strip_item x) = required_call x.
Proof. by destruct x. Qed.

Lemma omap_strip {B} (f : ResponseItem → option B) mods items :
  (∀ x, f (strip_item x) = f x) → omap f (strip_images_when_unsupported mods items) = omap f items.
Proof.
  intros Hf. unfold strip_images_when_unsupported. case_bool_decide; [done|].
  induction items as [|x items IH]; [done|]. rewrite fmap_cons /= Hf. destruct (f x); [f_equal|]; exact IH.
Qed.

Lemma calls_strip mods items : calls (strip_images_when_unsupported mods items) = calls items.
Proof. apply omap_strip. intros; apply strip_item_keys. Qed.
Lemma outputs_strip mods items : outputs (strip_images_when_unsupported mods items) = outputs items.
Proof. apply omap_strip. intros; apply strip_item_keys. Qed.

Lemma paired_strip mods items : paired items → paired (strip_images_when_unsupported mods items).
Proof.
  intros [H1 H2]. split.
  - intros k. rewrite calls_strip outputs_strip. apply H1.
  - intros x k Hx Hk. rewrite calls_strip.
    unfold strip_images_when_unsupported in Hx. case_bool_decide; [by eapply H2|].
    apply list_elem_of_fmap in Hx as (y & -> & Hy). rewrite (proj2 (proj2 (strip_item_keys y))) in Hk. by eapply H2.
Qed.

Lemma strip_content_idemp c : strip_content (strip_content c) = strip_content c.
Proof. by destruct c. Qed.
Lemma strip_payload_idemp p : strip_payload (strip_payload p) = strip_payload p.
Proof.
  destruct p as [[t|l] s]; [done|]. unfold strip_payload. simpl. do 2 f_equal. rewrite -list_fmap_compose.
  apply list_fmap_ext. by intros ? [].
Qed.
Lemma strip_item_idemp x : strip_item (strip_item x) = strip_item x.
Proof.
  destruct x; simpl; rewrite ?strip_payload_idemp //. f_equal. rewrite -list_fmap_compose.
  apply list_fmap_ext. intros ???. apply strip_content_idemp.
Qed.
Lemma strip_images_idemp mods items :
  strip_images_when_unsupported mods (strip_images_when_unsupported mods items) = strip_images_when_unsupported mods items.
Proof.
  unfold strip_images_when_unsupported. case_bool_decide; [done|]. rewrite -list_fmap_compose.
  apply list_fmap_ext. intros ???. apply strip_item_idemp.
Qed.

Lemma missing_outputs_none debug items i l :
  (∀ x k, x ∈ l → call_key x = Some k → k ∈ outputs items) → missing_outputs debug items i l = Some [].
Proof.
  revert i. induction l as [|x l IH]; intros i Hl; [done|]. cbn [missing_outputs]. rewrite missing_output_spec.
  rewrite (IH (S i)); [set_solver|]. destruct (call_key x) as [k|] eqn:Hk; [|done].
  rewrite bool_decide_eq_true_2 //. apply (Hl x); [set_solver|done].
Qed.

Lemma normalize_paired debug mods items :
  paired items → normalize_history debug mods items = Some (strip_images_when_unsupported mods items).
Proof.
  intros [H1 H2]. unfold normalize_history, ensure_call_outputs_present. rewrite missing_outputs_none /=.
  { intros x k Hx Hk. apply H1, list_elem_of_omap. eauto. }
  unfold remove_orphan_outputs. rewrite (retain_filter _ (λ _, true)); [intros x Hx|].
  { rewrite keep_output_spec. destruct (required_call x) as [k|] eqn:Hk; [|done].
    rewrite bool_decide_eq_true_2 //. by eapply H2. }
  by rewrite filter_id // Forall_forall.
Qed.

(** No image is left for a model that takes none. *)
Definition no_image (i : ResponseItem) : Prop :=
  match i with
  | Message _ _ content _ => ∀ u d, InputImage u d ∉ content
  | FunctionCallOutput _ o | CustomToolCallOutput _ _ o => ∀ l u d, content_items o = Some l → OutputItemImage u d ∉ l
  | ImageGenerationCall _ _ _ result => result = []
  | _ => True
  end.

Lemma strip_payload_no_image o l u d : content_items (strip_payload o) = Some l → OutputItemImage u d ∉ l.
Proof. destruct o as [[t|l'] s]; simpl; [done|]. intros [= <-] (x & Hx & _)%list_elem_of_fmap. by destruct x. Qed.

Lemma strip_no_image x : no_image (strip_item x).
Proof.
  destruct x; simpl; try done; try (intros l u d; apply strip_payload_no_image).
  intros u d (c & Hc & _)%list_elem_of_fmap. by destruct c.
Qed.

Lemma has_call_true items x : has_call items x = true ↔ ∀ k, required_call x = Some k → k ∈ calls items.
Proof. unfold has_call. destruct (required_call x); [rewrite bool_decide_eq_true|]; naive_solver. Qed.

Lemma made_outputs_nil items x : call_key x = None → made_outputs items x = [].
Proof. unfold made_outputs. by intros ->. Qed.

Lemma filter_made_outputs items x :
  x ∈ items → filter (λ y, has_call items y = true) (made_outputs items x) = made_outputs items x.
Proof.
  intros Hx. unfold made_outputs. destruct (call_key x) as [k|] eqn:Hk; [|done]. case_bool_decide; [done|].
  rewrite filter_cons_True //. apply has_call_true. intros k' Hr.
  rewrite (proj2 (proj2 (made_up_keys k))) in Hr. simplify_eq. apply list_elem_of_omap. eauto.
Qed.

Lemma filter_completed items l :
  l ⊆ items →
  filter (λ x, has_call items x = true) (x ← l; x :: made_outputs items x)
  = (x ← filter (λ x, has_call items x = true) l; x :: made_outputs items x).
Proof.
  induction l as [|x l IH]; intros Hl; [done|]. cbn [mbind list_bind] in *. rewrite filter_app IH; [set_solver|].
  rewrite !(filter_cons _ x) filter_made_outputs; [set_solver|]. case_decide as Hc; [done|].
  rewrite made_outputs_nil //. destruct (call_key x) as [k|] eqn:Hk; [|done]. by rewrite (call_has_call _ _ _ Hk) in Hc.
Qed.

(** The repair in one pass: an item stays, in its place, unless it is an output
    without its call, and the output made up for a call follows it directly. *)
Lemma repaired_one_pass items :
  repaired items = (x ← filter (λ x, has_call items x = true) items; x :: made_outputs items x).
Proof.
  unfold repaired. rewrite -filter_completed //. apply list_filter_iff. intros x. by rewrite has_call_completed.
Qed.

(** C35. A release build repairs any history: an item stays, in its place, unless it
    is an output whose call is not there, and a call without an output gets one made up
    directly after it. After it every call that has an id has an output, and every
    output that has an id has a call, unless it is the output of a tool search of the
    server, which is kept without one; calls and outputs without ids stay as they are.
    The result has no image for a model that takes none, and is left alone by a second
    run, in a debug build too. *)
Theorem normalize_history_pairs_calls mods items :
  ∃ out, normalize_history false mods items
         = Some (strip_images_when_unsupported mods (x ← filter (λ x, has_call items x = true) items; x :: made_outputs items x))
    ∧ normalize_history false mods items = Some out
    ∧ paired out ∧ (ModalityImage ∉ mods → Forall no_image out)
    ∧ ∀ debug, normalize_history debug mods out = Some out.
Proof.
  rewrite normalize_release repaired_one_pass. eexists. do 2 (split; [done|]). rewrite -repaired_one_pass.
  pose proof (paired_strip mods _ (repaired_paired items)) as Hp. split; [done|]. split.
  - intros Hm. unfold strip_images_when_unsupported. rewrite bool_decide_eq_false_2 //.
    apply Forall_fmap, Forall_true. intros x. apply strip_no_image.
  - intros debug. by rewrite normalize_paired // strip_images_idemp.
Qed.

(** ** Debug builds *)

(** A call of a custom tool or of the local shell without an output. *)
Definition unanswered (items : list ResponseItem) (x : ResponseItem) : bool :=
  match call_key x with Some k => panics_without_output x && negb (bool_decide (k ∈ outputs items)) | None => false end.

Lemma missing_outputs_debug items i l :
  missing_outputs true items i l = if existsb (unanswered items) l then None else missing_outputs false items i l.
Proof.
  revert i. induction l as [|x l IH]; intros i; [done|]. cbn [missing_outputs existsb]. rewrite !missing_output_spec IH.
  destruct (existsb (unanswered items) l); unfold unanswered; destruct (call_key x) as [k|]; try done;
    case_bool_decide; rewrite ?andb_false_r ?andb_true_r //; by destruct (panics_without_output x).
Qed.

Lemma retain_debug items l :
  retain (keep_output true items) l
  = if existsb (λ x, negb (has_call items x)) l then None else retain (keep_output false items) l.
Proof.
  induction l as [|x l IH]; [done|]. cbn [retain existsb]. rewrite !keep_output_spec {}IH.
  destruct (existsb _ l); unfold has_call; destruct (required_call x) as [k|]; try done; by case_bool_decide.
Qed.

Lemma orphans_completed items :
  existsb (λ x, negb (has_call (completed items) x)) (completed items) = existsb (λ x, negb (has_call items x)) items.
Proof.
  apply eq_true_iff_eq. rewrite !existsb_exists. setoid_rewrite <-list_elem_of_In. setoid_rewrite has_call_completed.
  setoid_rewrite elem_of_completed. split; [|naive_solver]. intros (x & [Hx|(k & -> & Hk & _)] & Hn); [eauto|].
  rewrite negb_true_iff -not_true_iff_false has_call_true in Hn. destruct Hn. intros k' Hr.
  rewrite (proj2 (proj2 (made_up_keys k))) in Hr. by simplify_eq.
Qed.

(** A debug build panics for an orphaned output, and for a call of a custom tool
    or of the local shell without an output; on any other history it does
    what a release build does. *)
Theorem debug_build_panics_or_agrees mods items :
  normalize_history true mods items
  = if existsb (unanswered items) items || existsb (λ x, negb (has_call items x)) items then None
    else normalize_history false mods items.
Proof.
  unfold normalize_history, ensure_call_outputs_present. rewrite missing_outputs_debug.
  destruct (existsb (unanswered items) items); [done|]. rewrite orb_false_l.
  destruct (missing_outputs_release items 0 items) as [ms Hms]. rewrite Hms /=.
  rewrite (insert_missing_spec false items [] items ms Hms : _ = Some (completed items)) /=.
  unfold remove_orphan_outputs. rewrite retain_debug orphans_completed. by case_match.
Qed.

(** ** Removing an item and its counterpart *)

(** The key an item is known by, as a call or as an output. *)
Definition item_key (i : ResponseItem) : option call_id_of :=
  match call_key i with Some k => Some k | None => output_key i end.

(** No two calls, and no two outputs, share an id. *)
Definition unique_ids (items : list ResponseItem) : Prop := NoDup (calls items) ∧ NoDup (outputs items).

Lemma position_Some {A} (f : A → bool) l i :
  position f l = Some i → ∃ p x q, l = p ++ x :: q ∧ length p = i ∧ f x = true.
Proof.
  revert i. induction l as [|y l IH]; intros i; [done|]. simpl. destruct (f y) eqn:Hy.
  - intros [= <-]. by exists [], y, l.
  - intros (j & (p & x & q & -> & <- & Hx)%IH & ->)%fmap_Some. by exists (y :: p), x, q.
Qed.

Lemma position_None {A} (f : A → bool) l : position f l = None → ∀ x, x ∈ l → f x = false.
Proof.
  induction l as [|y l IH]; simpl; [set_solver|]. destruct (f y) eqn:Hy; [done|]. intros Hp%fmap_None x.
  rewrite elem_of_cons. intros [->|Hx]; [done|]. by apply IH.
Qed.

Lemma omap_unique {A B} (g : A → option B) p x q k y :
  NoDup (omap g (p ++ x :: q)) → g x = Some k → y ∈ p ++ q → g y ≠ Some k.
Proof.
  intros Hnd Hx Hy Hk. rewrite omap_app NoDup_app in Hnd. destruct Hnd as (_ & Hp & Hq). simpl in Hp, Hq. rewrite Hx in Hp, Hq.
  apply NoDup_cons in Hq as [Hq _]. apply elem_of_app in Hy as [Hy|Hy].
  - apply (Hp k); [apply list_elem_of_omap; eauto|by apply elem_of_cons; left].
  - apply Hq, (list_elem_of_omap g q). eauto.
Qed.

Lemma omap_sublist {A B} (g : A → option B) l1 l2 : sublist l1 l2 → sublist (omap g l1) (omap g l2).
Proof. induction 1 as [|x ?? _ IH|x ?? _ IH]; simpl; [done|..]; destruct (g x); try exact IH; by constructor. Qed.

Lemma filter_ext_in {A} (P Q : A → Prop) `{∀ x, Decision (P x), ∀ x, Decision (Q x)} (l : list A) :
  (∀ x, x ∈ l → P x ↔ Q x) → filter P l = filter Q l.
Proof.
  induction l as [|x l IH]; intros HPQ; [done|]. rewrite !filter_cons IH; [intros y Hy; apply HPQ; set_solver|].
  apply decide_ext, HPQ. set_solver.
Qed.

(** The first match is the only one. *)
Lemma remove_first_filter {A B} `{EqDecision B} (f : A → bool) (g : A → option B) k l :
  (∀ x, f x = true → g x = Some k) → (∀ x, x ∈ l → g x = Some k → ∃ y, y ∈ l ∧ f y = true) → NoDup (omap g l) →
  remove_first_matching f l = filter (λ x, g x ≠ Some k) l.
Proof.
  intros Hf Hex Hnd. unfold remove_first_matching. destruct (position f l) as [pos|] eqn:Hpos.
  - apply position_Some in Hpos as (p & x & q & -> & <- & Hx%Hf).
    rewrite take_app_length -Nat.add_1_r drop_app_add.
    pose proof (λ y, omap_unique g p x q k y Hnd Hx) as Huniq.
    rewrite filter_app filter_cons_False; [by rewrite Hx; intros []|].
    rewrite !filter_id //; apply Forall_forall; intros y Hy; apply Huniq; set_solver.
  - rewrite filter_id //. apply Forall_forall. intros x Hx Hk. destruct (Hex x Hx Hk) as (y & Hy & Hfy).
    by rewrite (position_None _ _ Hpos y Hy) in Hfy.
Qed.

Lemma unique_ids_sublist l1 l2 : sublist l1 l2 → unique_ids l2 → unique_ids l1.
Proof. intros Hl [H1 H2]. split; eapply sublist_NoDup; [apply H1| |apply H2|]; by apply omap_sublist. Qed.

Lemma sublist_without {A} (p : list A) x q : sublist (p ++ q) (p ++ x :: q).
Proof. apply sublist_app; [done|by constructor]. Qed.

(** With the ids unique, the counterpart is all that goes. *)
Lemma remove_corresponding_filter p x q :
  unique_ids (p ++ x :: q) →
  remove_corresponding_for (p ++ q) x
  = match item_key x with Some k => filter (λ y, item_key y ≠ Some k) (p ++ q) | None => p ++ q end.
Proof.
  intros Hu. pose proof (unique_ids_sublist _ _ (sublist_without p x q) Hu) as [Hc Ho].
  assert (∀ f k, call_key x = Some k → (∀ y, f y = true ↔ output_key y = Some k) →
    remove_first_matching f (p ++ q) = filter (λ y, item_key y ≠ Some k) (p ++ q)) as Hcall.
  { intros f k Hk Hf. rewrite (remove_first_filter f output_key k) //; [apply Hf|intros y Hy Hyk; exists y; by rewrite Hf|].
    apply filter_ext_in. intros y Hy. unfold item_key. pose proof (omap_unique call_key p x q k y (proj1 Hu) Hk Hy).
    destruct (call_key y) as [k'|] eqn:Hy'; [|done]. by rewrite (call_not_output _ _ Hy'). }
  assert (∀ f k, output_key x = Some k → (∀ y, f y = true → call_key y = Some k) →
    (∀ y, y ∈ p ++ q → call_key y = Some k → ∃ z, z ∈ p ++ q ∧ f z = true) →
    remove_first_matching f (p ++ q) = filter (λ y, item_key y ≠ Some k) (p ++ q)) as Hout.
  { intros f k Hk Hf Hex. rewrite (remove_first_filter f call_key k) //.
    apply filter_ext_in. intros y Hy. unfold item_key. pose proof (omap_unique output_key p x q k y (proj2 Hu) Hk Hy).
    by destruct (call_key y) as [k'|] eqn:Hy'. }
  destruct x as [| |? [c|] ? ?|? ? ? ? c|? [c|] ? ? ?|c o|? ? c ? ?|c ? ?|[c|] ? ? ?| | | |]; try done; unfold item_key; simpl.
  - apply Hcall; [done|]. intros y. apply is_function_output_key.
  - apply Hcall; [done|]. intros y. apply is_function_output_key.
  - apply Hcall; [done|]. intros y. apply is_tool_search_output_key.
  - change (match position (is_function_call c) (p ++ q) with Some pos => take pos (p ++ q) ++ drop (S pos) (p ++ q)
            | None => remove_first_matching (is_local_shell_call c) (p ++ q) end
            = filter (λ y, item_key y ≠ Some (KFunction, c)) (p ++ q)).
    destruct (position (is_function_call c) (p ++ q)) as [pos|] eqn:Hpos.
    + apply (f_equal (λ o, match o with Some pos => take pos (p ++ q) ++ drop (S pos) (p ++ q) | None => p ++ q end)) in Hpos as Hrm.
      change (remove_first_matching (is_function_call c) (p ++ q) = take pos (p ++ q) ++ drop (S pos) (p ++ q)) in Hrm.
      rewrite -Hrm. apply Hout; [done| |].
      * intros y Hy. apply is_function_or_shell_call_key. by rewrite Hy.
      * intros _ _ _. apply position_Some in Hpos as (p' & z & q' & -> & _ & Hz). exists z. split; [set_solver|done].
    + apply Hout; [done| |].
      * intros y Hy. apply is_function_or_shell_call_key. by rewrite Hy orb_true_r.
      * intros y Hy Hk. exists y. split; [done|]. apply is_function_or_shell_call_key in Hk.
        by rewrite (position_None _ _ Hpos y Hy) in Hk.
  - apply Hcall; [done|]. intros y. apply is_custom_output_key.
  - apply Hout; [done|intros y; apply is_custom_call_key|]. intros y Hy Hk. exists y. by rewrite is_custom_call_key.
  - apply Hout; [done|intros y; apply is_tool_search_call_key|]. intros y Hy Hk. exists y. by rewrite is_tool_search_call_key.
Qed.

Lemma output_not_call x k : output_key x = Some k → call_key x = None.
Proof. by destruct x. Qed.

Lemma item_key_call x k : call_key x = Some k → item_key x = Some k.
Proof. unfold item_key. by intros ->. Qed.
Lemma item_key_output x k : output_key x = Some k → item_key x = Some k.
Proof. intros Hk. unfold item_key. by rewrite (output_not_call _ _ Hk). Qed.

(** What keeps its key: members other than those of the removed pair. *)
Lemma elem_of_without p x q k z k' :
  item_key x = Some k → k' ≠ k → item_key z = Some k' → z ∈ p ++ x :: q → z ∈ filter (λ y, item_key y ≠ Some k) (p ++ q).
Proof.
  intros Hx Hne Hz. rewrite list_elem_of_filter !elem_of_app elem_of_cons.
  intros [?|[->|?]]; [split; [congruence|by left]|congruence|split; [congruence|by right]].
Qed.

Lemma paired_without p x q k :
  item_key x = Some k → paired (p ++ x :: q) → paired (filter (λ y, item_key y ≠ Some k) (p ++ q)).
Proof.
  intros Hx [H1 H2].
  assert (∀ z, z ∈ filter (λ y, item_key y ≠ Some k) (p ++ q) → item_key z ≠ Some k ∧ z ∈ p ++ x :: q) as Hin.
  { intros z [Hk Hz]%list_elem_of_filter. split; [done|]. set_solver. }
  split.
  - intros k' (z & [Hz Hz']%Hin & Hk)%list_elem_of_omap. apply list_elem_of_omap.
    assert (k' ≠ k) as Hne. { intros ->. by apply Hz, item_key_call. }
    destruct (proj1 (list_elem_of_omap _ _ _) (H1 k' ltac:(apply list_elem_of_omap; eauto))) as (y & Hy & Ho).
    exists y. split; [|done]. eapply elem_of_without; eauto using item_key_output.
  - intros z k' [Hz Hz']%Hin Hk. apply list_elem_of_omap.
    assert (k' ≠ k) as Hne. { intros ->. by apply Hz, item_key_output, required_call_output. }
    destruct (proj1 (list_elem_of_omap _ _ _) (H2 z k' Hz' Hk)) as (y & Hy & Ho).
    exists y. split; [|done]. eapply elem_of_without; eauto using item_key_call.
Qed.

Lemma paired_without_none p x q : item_key x = None → paired (p ++ x :: q) → paired (p ++ q).
Proof.
  unfold item_key. destruct (call_key x) eqn:Hc; [done|]. intros Ho [H1 H2].
  assert (calls (p ++ x :: q) = calls (p ++ q) ∧ outputs (p ++ x :: q) = outputs (p ++ q)) as [Ec Eo].
  { rewrite !omap_app /= Hc Ho. done. }
  rewrite Ec Eo in H1. rewrite Ec in H2. split; [done|]. intros y k Hy. apply H2. set_solver.
Qed.

(** Removing an item together with its counterpart leaves a paired history
    paired, *)
Lemma remove_corresponding_keeps_pairs p x q :
  paired (p ++ x :: q) → unique_ids (p ++ x :: q) →
  let out := remove_corresponding_for (p ++ q) x in
  paired out ∧ unique_ids out
  ∧ out = match item_key x with Some k => filter (λ y, item_key y ≠ Some k) (p ++ q) | None => p ++ q end.
Proof.
  intros Hp Hu out. unfold out. rewrite remove_corresponding_filter //. pose proof (sublist_without p x q) as Hs.
  destruct (item_key x) as [k|] eqn:Hk.
  - split; [by eapply paired_without|]. split; [|done]. eapply unique_ids_sublist; [|exact Hu].
    etrans; [apply sublist_filter|exact Hs].
  - split; [by eapply paired_without_none|]. split; [|done]. by eapply unique_ids_sublist.
Qed.

(** and takes the pair and no other call or output. *)
Lemma remove_corresponding_elem p x q y :
  unique_ids (p ++ x :: q) → item_key y ≠ None →
  y ∈ remove_corresponding_for (p ++ q) x ↔ y ∈ p ++ x :: q ∧ Some (item_key x) ≠ Some (item_key y).
Proof.
  intros Hu Hy. rewrite remove_corresponding_filter // !elem_of_app elem_of_cons.
  destruct (item_key x) as [k|] eqn:Hk.
  - rewrite list_elem_of_filter elem_of_app. split; [naive_solver congruence|]. intros [[?|[->|?]] ?]; naive_solver congruence.
  - rewrite elem_of_app. split; [|naive_solver]. intros H. split; [naive_solver|congruence].
Qed.
