(* ===== verification/ContextHistory.v ===== *)
(** The history of a thread of the codex agent:
    [codex-rs/core/src/context_manager/history.rs], over the pairing of calls
    ([Normalize]), the truncation of outputs ([Truncate]) and the counting of
    tokens ([TokenUsage], [ImageEstimate]). The state is [ContextManager]; an
    operation that can panic returns an option. *)
From S2P Require Import Prelude Json Protocol Truncate Contextual TokenUsage ImageEstimate Normalize.

#[local] Open Scope nat_scope.

(** ** Items *)

Definition is_api_message (message : ResponseItem) : bool :=
  match message with Message _ role _ _ => negb (role =s? "system") | Other => false | _ => true end.

Definition is_model_generated_item (item : ResponseItem) : bool :=
  match item with
  | Message _ role _ _ => role =s? "assistant"
  | Reasoning _ _ _ _ | FunctionCall _ _ _ _ _ | ToolSearchCall _ _ _ _ _ | WebSearchCall _ _ _ | ImageGenerationCall _ _ _ _
  | CustomToolCall _ _ _ _ _ | LocalShellCall _ _ _ _ | Compaction _ => true
  | FunctionCallOutput _ _ | ToolSearchOutput _ _ _ _ | CustomToolCallOutput _ _ _ | Other => false
  end.

Definition is_codex_generated_item (item : ResponseItem) : bool :=
  match item with
  | FunctionCallOutput _ _ | ToolSearchOutput _ _ _ _ | CustomToolCallOutput _ _ _ => true
  | Message _ role _ _ => role =s? "developer"
  | _ => false
  end.

Definition truncate_function_output_payload (output : FunctionCallOutputPayload) (policy : TruncationPolicy) :
    option FunctionCallOutputPayload :=
  body ← match body output with
         | BodyText content => BodyText <$> truncate_text content policy
         | BodyContentItems items => BodyContentItems <$> truncate_function_output_items_with_policy items policy
         end;
  Some (MkFunctionCallOutputPayload body (success output)).

Definition process_item (item : ResponseItem) (policy : TruncationPolicy) : option ResponseItem :=
  let policy_with_serialization_budget := policy_mul policy f64_1_2 in
  match item with
  | FunctionCallOutput call_id output =>
      FunctionCallOutput call_id <$> truncate_function_output_payload output policy_with_serialization_budget
  | CustomToolCallOutput call_id name output =>
      CustomToolCallOutput call_id name <$> truncate_function_output_payload output policy_with_serialization_budget
  | _ => Some item
  end.

(** [Iterator::rposition]. *)
Definition rposition {A} (f : A → bool) (l : list A) : option nat :=
  (λ i, length l - S i) <$> position f (reverse l).

Definition u64_max : N := 18446744073709551615.
(** [history_version.saturating_add(1)]. *)
Definition bump (version : N) : N := N.min (version + 1) u64_max.

Record TotalTokenUsageBreakdown := MkTotalTokenUsageBreakdown {
  last_api_response_total_tokens : Z;
  all_history_items_model_visible_bytes : Z;
  estimated_tokens_of_items_added_since_last_successful_api_response : Z;
  estimated_bytes_of_items_added_since_last_successful_api_response : Z
}.

Section history.
Context {MP : MessageParsers} {EE : EstimateEnv} {TurnContextItem : Type} (debug_assertions : bool).

Definition is_user_turn_boundary (item : ResponseItem) : bool :=
  match item with
  | Message _ role content _ =>
      ((role =s? "user") && negb (is_contextual_user_message_content content))
      || ((role =s? "assistant") && is_inter_agent_instruction_content content)
  | _ => false
  end.

Definition user_message_positions (items : list ResponseItem) : list nat :=
  omap (λ '(idx, item), if is_user_turn_boundary item then Some idx else None) (imap pair items).

(** ** [ContextManager] *)

Record ContextManager := MkContextManager {
  cm_items : list ResponseItem;
  history_version : N;
  token_info : option TokenUsageInfo;
  reference_context_item : option TurnContextItem
}.

Definition new : option ContextManager :=
  info ← new_or_append debug_assertions None None None;
  Some (MkContextManager [] 0 info None).

Definition set_token_info (info : option TokenUsageInfo) (self : ContextManager) : ContextManager :=
  MkContextManager (cm_items self) (history_version self) info (reference_context_item self).
Definition set_reference_context_item (item : option TurnContextItem) (self : ContextManager) : ContextManager :=
  MkContextManager (cm_items self) (history_version self) (token_info self) item.
Definition set_items (items : list ResponseItem) (self : ContextManager) : ContextManager :=
  MkContextManager items (history_version self) (token_info self) (reference_context_item self).
Definition bump_version (self : ContextManager) : ContextManager :=
  MkContextManager (cm_items self) (bump (history_version self)) (token_info self) (reference_context_item self).

Definition set_token_usage_full (context_window : Z) (self : ContextManager) : option ContextManager :=
  info ← match token_info self with
         | Some info => fill_to_context_window debug_assertions info context_window
         | None => full_context_window debug_assertions context_window
         end;
  Some (set_token_info (Some info) self).

Definition update_token_info (usage : TokenUsage) (window : option Z) (self : ContextManager) : option ContextManager :=
  info ← new_or_append debug_assertions (token_info self) (Some usage) window;
  Some (set_token_info info self).

Fixpoint record_items (items : list ResponseItem) (policy : TruncationPolicy) (self : ContextManager) :
    option ContextManager :=
  match items with
  | [] => Some self
  | item :: rest =>
      if negb (is_api_message item) then record_items rest policy self
      else
        processed ← process_item item policy;
        record_items rest policy (set_items (cm_items self ++ [processed]) self)
  end.

Definition for_prompt (input_modalities : list InputModality) (self : ContextManager) : option (list ResponseItem) :=
  normalize_history debug_assertions input_modalities (cm_items self).

Definition remove_first_item (self : ContextManager) : ContextManager :=
  match cm_items self with
  | [] => self
  | removed :: rest => set_items (remove_corresponding_for rest removed) self
  end.

Definition remove_last_item (self : ContextManager) : bool * ContextManager :=
  match last (cm_items self) with
  | Some removed =>
      let rest := take (length (cm_items self) - 1) (cm_items self) in
      (true, bump_version (set_items (remove_corresponding_for rest removed) self))
  | None => (false, self)
  end.

Definition replace (items : list ResponseItem) (self : ContextManager) : ContextManager :=
  bump_version (set_items items self).

Definition is_function_call_output (item : ResponseItem) : bool :=
  match item with FunctionCallOutput _ _ => true | _ => false end.
Definition is_output_image (c : FunctionCallOutputContentItem) : bool :=
  match c with OutputItemImage _ _ => true | OutputItemText _ => false end.

Definition replace_last_turn_images (placeholder : str) (self : ContextManager) : bool * ContextManager :=
  match rposition (λ item, is_function_call_output item || is_user_turn_boundary item) (cm_items self) with
  | None => (false, self)
  | Some index =>
      match cm_items self !! index with
      | Some (FunctionCallOutput call_id output) =>
          match content_items output with
          | None => (false, self)
          | Some content_items =>
              let replaced := existsb is_output_image content_items in
              let content_items := (λ item, if is_output_image item then OutputItemText placeholder else item) <$> content_items in
              let output := MkFunctionCallOutputPayload (BodyContentItems content_items) (success output) in
              let self := set_items (<[index := FunctionCallOutput call_id output]> (cm_items self)) self in
              (replaced, if replaced then bump_version self else self)
          end
      | _ => (false, self)
      end
  end.

(** The walk back from [cut_idx]; [None] is an index out of bounds. *)
Fixpoint trim_pre_turn_context_updates (snapshot : list ResponseItem) (first_instruction_turn_idx cut_idx : nat)
    (reference : option TurnContextItem) : option (nat * option TurnContextItem) :=
  match cut_idx with
  | 0 => Some (0, reference)
  | S cut_idx' =>
      if Nat.ltb first_instruction_turn_idx cut_idx then
        item ← snapshot !! cut_idx';
        match item with
        | Message _ role content _ =>
            if (role =s? "developer") && is_contextual_dev_message_content content then
              trim_pre_turn_context_updates snapshot first_instruction_turn_idx cut_idx'
                (if has_non_contextual_dev_message_content content then None else reference)
            else if (role =s? "user") && is_contextual_user_message_content content then
              trim_pre_turn_context_updates snapshot first_instruction_turn_idx cut_idx' reference
            else Some (cut_idx, reference)
        | _ => Some (cut_idx, reference)
        end
      else Some (cut_idx, reference)
  end.

Definition drop_last_n_user_turns (num_turns : N) (self : ContextManager) : option ContextManager :=
  if (num_turns =? 0)%N then Some self
  else
    let snapshot := cm_items self in
    let user_positions := user_message_positions snapshot in
    match user_positions with
    | [] => Some (replace snapshot self)
    | first_instruction_turn_idx :: _ =>
        let n_from_end := num_turns in
        cut_idx ← (if (N.of_nat (length user_positions) <=? n_from_end)%N then Some first_instruction_turn_idx
                   else user_positions !! (length user_positions - N.to_nat n_from_end));
        '(cut_idx, reference) ← trim_pre_turn_context_updates snapshot first_instruction_turn_idx cut_idx (reference_context_item self);
        let self := set_reference_context_item reference self in
        if Nat.leb cut_idx (length snapshot) then Some (replace (take cut_idx snapshot) self) else None
    end.

(** ** Token counts *)

Definition sum_saturating (l : list Z) : Z := foldl i64_saturating_add 0%Z l.

Definition estimate_token_count_with_base_instructions (base_instructions : str) (self : ContextManager) : option Z :=
  let base_tokens := i64_from_unsigned (approx_token_count base_instructions) in
  let items_tokens := sum_saturating (estimate_item_token_count <$> cm_items self) in
  Some (i64_saturating_add base_tokens items_tokens).

Definition is_encrypted_reasoning (item : ResponseItem) : bool :=
  match item with Reasoning _ _ _ (Some _) => true | _ => false end.

Definition get_non_last_reasoning_items_tokens (self : ContextManager) : Z :=
  match rposition is_user_turn_boundary (cm_items self) with
  | None => 0%Z
  | Some last_user_index =>
      sum_saturating (estimate_item_token_count <$>
        filter (λ item, is_encrypted_reasoning item = true) (take last_user_index (cm_items self)))
  end.

Definition items_after_last_model_generated_item (self : ContextManager) : list ResponseItem :=
  let start := match rposition is_model_generated_item (cm_items self) with
               | None => length (cm_items self)
               | Some index => S index
               end in
  drop start (cm_items self).

Definition last_usage (self : ContextManager) : TokenUsage :=
  match token_info self with Some info => last_token_usage info | None => token_usage_default end.

Definition get_total_token_usage (server_reasoning_included : bool) (self : ContextManager) : Z :=
  let last_tokens := match token_info self with Some info => total_tokens (last_token_usage info) | None => 0%Z end in
  let items_after_last_model_generated_tokens :=
    sum_saturating (estimate_item_token_count <$> items_after_last_model_generated_item self) in
  if server_reasoning_included then i64_saturating_add last_tokens items_after_last_model_generated_tokens
  else i64_saturating_add (i64_saturating_add last_tokens (get_non_last_reasoning_items_tokens self))
         items_after_last_model_generated_tokens.

Definition get_total_token_usage_breakdown (self : ContextManager) : TotalTokenUsageBreakdown :=
  let items_after_last_model_generated := items_after_last_model_generated_item self in
  MkTotalTokenUsageBreakdown
    (total_tokens (last_usage self))
    (sum_saturating (estimate_response_item_model_visible_bytes <$> cm_items self))
    (sum_saturating (estimate_item_token_count <$> items_after_last_model_generated))
    (sum_saturating (estimate_response_item_model_visible_bytes <$> items_after_last_model_generated)).
End history.

Arguments ContextManager : clear implicits.
Arguments MkContextManager {TurnContextItem}.

(** ** Rolling back turns *)

Section rollback.
Context {MP : MessageParsers} {TurnContextItem : Type}.
Abbreviation boundary := (λ item, is_user_turn_boundary item = true).

(** Messages that carry context the agent injected before a turn, and those
    that also carry instructions that persist. *)
Definition contextual (item : ResponseItem) : bool :=
  match item with
  | Message _ role content _ =>
      ((role =s? "developer") && is_contextual_dev_message_content content)
      || ((role =s? "user") && is_contextual_user_message_content content)
  | _ => false
  end.
Definition mixed (item : ResponseItem) : bool :=
  match item with
  | Message _ role content _ =>
      (role =s? "developer") && is_contextual_dev_message_content content && has_non_contextual_dev_message_content content
  | _ => false
  end.

(** The positions of the boundaries. *)
Fixpoint boundaries_from (k : nat) (items : list ResponseItem) : list nat :=
  match items with
  | [] => []
  | x :: r => if is_user_turn_boundary x then k :: boundaries_from (S k) r else boundaries_from (S k) r
  end.

Lemma user_message_positions_eq items : user_message_positions items = boundaries_from 0 items.
Proof.
  unfold user_message_positions. change (imap pair items) with (imap (λ i x, (0 + i, x)) items). generalize 0 as k.
  induction items as [|x items IH]; intros k; [done|]. rewrite imap_cons /= Nat.add_0_r -IH.
  assert (imap ((λ i y, (k + i, y)) ∘ S) items = imap (λ i y, (S k + i, y)) items) as ->.
  { apply imap_ext. intros i y _. simpl. f_equal. lia. }
  by destruct (is_user_turn_boundary x).
Qed.

Lemma boundaries_length k items : length (boundaries_from k items) = length (filter boundary items).
Proof.
  revert k. induction items as [|x items IH]; intros k; [done|]. simpl. rewrite filter_cons.
  destruct (is_user_turn_boundary x); simpl; by rewrite IH.
Qed.

Lemma boundaries_split k items i p :
  boundaries_from k items !! i = Some p →
  ∃ pre x post, items = pre ++ x :: post ∧ p = k + length pre ∧ boundary x ∧ length (filter boundary pre) = i.
Proof.
  revert k i. induction items as [|x items IH]; intros k i; [done|]. simpl. destruct (is_user_turn_boundary x) eqn:Hx.
  - destruct i as [|i].
    + intros [= <-]. exists [], x, items. repeat split; [simpl; lia|done].
    + intros (pre & y & post & -> & -> & Hy & <-)%IH. exists (x :: pre), y, post.
      rewrite filter_cons_True //. repeat split; [simpl; lia|done].
  - intros (pre & y & post & -> & -> & Hy & <-)%IH. exists (x :: pre), y, post.
    rewrite filter_cons_False ?Hx //. repeat split; [simpl; lia|done].
Qed.

(** One step of the walk back. *)
Lemma trim_step snapshot (first c : nat) x (reference : option TurnContextItem) :
  snapshot !! c = Some x → first ≤ c →
  trim_pre_turn_context_updates snapshot first (S c) reference
  = if contextual x then trim_pre_turn_context_updates snapshot first c (if mixed x then None else reference)
    else Some (S c, reference).
Proof.
  intros Hx Hc. cbn [trim_pre_turn_context_updates]. rewrite Hx. destruct (Nat.ltb_spec first (S c)); [|lia].
  destruct x as [id role content phase| | | | | | | | | | | |]; try done. simpl.
  destruct ((role =s? "developer") && is_contextual_dev_message_content content); [done|].
  by destruct ((role =s? "user") && is_contextual_user_message_content content).
Qed.

(** It stops at the first item that is no context, or at the first turn. *)
Lemma trim_pre_turn_spec base mid rest (reference : option TurnContextItem) :
  ∃ kept ctx, mid = kept ++ ctx
    ∧ trim_pre_turn_context_updates (base ++ mid ++ rest) (length base) (length base + length mid) reference
      = Some (length base + length kept, if existsb mixed ctx then None else reference)
    ∧ Forall (λ x, contextual x = true) ctx ∧ ∀ l x, kept = l ++ [x] → contextual x = false.
Proof.
  revert rest reference. induction mid as [|x mid IH] using rev_ind; intros rest reference.
  - exists [], []. rewrite /= Nat.add_0_r. split; [done|]. split; [|split; [done|by intros []]].
    destruct (length base) eqn:Hl; [done|]. cbn [trim_pre_turn_context_updates]. by rewrite Nat.ltb_irrefl.
  - rewrite length_app Nat.add_1_r Nat.add_succ_r -(app_assoc mid).
    rewrite (trim_step _ _ _ x); [|lia|].
    { rewrite lookup_app_r; [lia|]. rewrite lookup_app_r; [lia|].
      by replace (length base + length mid - length base - length mid) with 0 by lia. }
    destruct (contextual x) eqn:Hx.
    + destruct (IH ([x] ++ rest) (if mixed x then None else reference)) as (kept & ctx & -> & -> & Hc & Hk).
      exists kept, (ctx ++ [x]). rewrite app_assoc existsb_app /= orb_false_r. split; [done|]. split; [|split; [|done]].
      * by destruct (existsb mixed ctx), (mixed x).
      * apply Forall_app. by rewrite Forall_singleton.
    + exists (mid ++ [x]), []. rewrite app_nil_r length_app /=. split; [done|]. split; [do 2 f_equal; lia|].
      split; [done|]. by intros l y [_ [= <-]]%app_inj_tail.
Qed.

(** What a rollback of [n] turns leaves: the items before the first turn, then
    those of the turns that stay, less the context that was injected right
    before the first turn that goes. *)
Record rolled_back (n : N) (before after : ContextManager TurnContextItem) (base mid ctx turns : list ResponseItem) : Prop := {
  rb_before : cm_items before = base ++ mid ++ ctx ++ turns;
  rb_after : cm_items after = base ++ mid;
  rb_base : Forall (λ x, is_user_turn_boundary x = false) base;
  rb_first x r : mid ++ ctx ++ turns = x :: r → is_user_turn_boundary x = true;
  rb_turns : N.of_nat (length (filter boundary turns)) = N.min n (N.of_nat (length (filter boundary (cm_items before))));
  rb_cut x r : turns = x :: r → is_user_turn_boundary x = true;
  rb_ctx : Forall (λ x, contextual x = true) ctx;
  rb_mid l x : mid = l ++ [x] → contextual x = false;
  rb_version : history_version after = bump (history_version before);
  rb_info : token_info after = token_info before;
  rb_reference : reference_context_item after = if existsb mixed ctx then None else reference_context_item before
}.

Lemma no_boundary items :
  length (filter boundary items) = 0 → Forall (λ x, is_user_turn_boundary x = false) items.
Proof.
  induction items as [|x items IH]; [done|]. rewrite filter_cons. case_decide as Hx; [done|]. intros Hl.
  constructor; [by destruct (is_user_turn_boundary x)|]. by apply IH.
Qed.

Lemma boundary_filter_app p q : length (filter boundary (p ++ q)) = length (filter boundary p) + length (filter boundary q).
Proof. by rewrite filter_app length_app. Qed.

(** A position at or after the first boundary splits the items after it. *)
Lemma split_before base x0 post0 pre x post :
  Forall (λ x, is_user_turn_boundary x = false) base → is_user_turn_boundary x = true →
  base ++ x0 :: post0 = pre ++ x :: post → ∃ mid, pre = base ++ mid.
Proof.
  intros Hb Hx Heq. apply app_eq_app in Heq as [l [[-> Hl]|[-> _]]]; [|by exists l].
  destruct l as [|y l]; [by exists []; rewrite !app_nil_r|]. simplify_eq/=.
  apply Forall_app in Hb as [_ [Hb _]%Forall_cons]. congruence.
Qed.

Lemma drop_last_n_user_turns_spec n self :
  (0 < n)%N → ∃ after base mid ctx turns, drop_last_n_user_turns n self = Some after ∧ rolled_back n self after base mid ctx turns.
Proof.
  intros Hn. unfold drop_last_n_user_turns. destruct (N.eqb_spec n 0); [lia|]. rewrite user_message_positions_eq.
  pose proof (boundaries_length 0 (cm_items self)) as Hlen.
  destruct (boundaries_from 0 (cm_items self)) as [|first positions] eqn:Hpos.
  - exists (replace (cm_items self) self), (cm_items self), [], [], []. split; [done|].
    split; simpl; rewrite ?app_nil_r //; [by apply no_boundary| |by intros []]. rewrite -Hlen. simpl. lia.
  - destruct (boundaries_split 0 (cm_items self) 0 first) as (base & x0 & post0 & Hitems & -> & Hx0 & Hbase); [by rewrite Hpos|].
    apply no_boundary in Hbase as Hb. set (k := length (0 + length base :: positions)) in *.
    assert (∃ i cut, (if (N.of_nat k <=? n)%N then Some (0 + length base) else (0 + length base :: positions) !! (k - N.to_nat n)) = Some cut
      ∧ (0 + length base :: positions) !! i = Some cut ∧ N.of_nat (k - i) = N.min n (N.of_nat k) ∧ i ≤ k) as (i & cut & -> & Hi & Hki & Hik).
    { destruct (N.leb_spec (N.of_nat k) n).
      - exists 0, (0 + length base). split; [done|]. split; [done|]. lia.
      - destruct (lookup_lt_is_Some_2 (0 + length base :: positions) (k - N.to_nat n)) as [cut Hcut]; [fold k; lia|].
        exists (k - N.to_nat n), cut. rewrite Hcut. split; [done|]. split; [done|]. lia. }
    rewrite -Hpos in Hi. apply boundaries_split in Hi as (pre & x & post & Hitems' & -> & Hx & Hpre). simpl.
    destruct (split_before base x0 post0 pre x post Hb Hx) as [mid0 ->]; [congruence|].
    destruct (trim_pre_turn_spec base mid0 (x :: post) (reference_context_item self)) as (mid & ctx & -> & Htrim & Hctx & Hmid).
    rewrite (app_assoc base) -Hitems' -length_app in Htrim. rewrite Htrim /=.
    destruct (Nat.leb_spec (length base + length mid) (length (cm_items self))) as [_|Hgt];
      [|rewrite Hitems' !length_app in Hgt; lia].
    eexists _, base, mid, ctx, (x :: post). split; [done|]. rewrite -!app_assoc in Hitems'. split; try done; simpl.
    + by rewrite Hitems' (app_assoc base) -length_app take_app_length.
    + intros y r Hy. rewrite Hitems' in Hitems. apply app_inv_head in Hitems. congruence.
    + rewrite -Hlen. rewrite Hitems' (app_assoc mid) (app_assoc base) boundary_filter_app Hpre in Hlen. lia.
    + by intros y r [= <- _].
Qed.

(** C34. Rolling back [n] turns drops the last [n] messages that begin a turn with all
    that follows them, or all turns when there are fewer, never what comes
    before the first turn; the context injected right before the cut goes too,
    and when a message of it also carried persistent instructions the
    reference for the next turn is forgotten. Rolling back no turn changes nothing. *)
Theorem rollback_drops_the_last_turns n self :
  drop_last_n_user_turns 0 self = Some self
  ∧ ((0 < n)%N → ∃ after base mid ctx turns,
       drop_last_n_user_turns n self = Some after ∧ rolled_back n self after base mid ctx turns).
Proof. split; [done|]. apply drop_last_n_user_turns_spec. Qed.
End rollback.

(** ** Recording items *)

Section record.
Context {TurnContextItem : Type}.
Implicit Types self : ContextManager TurnContextItem.

(** The texts of an output, whose lengths fit an unsigned integer. *)
Definition output_texts (output : FunctionCallOutputPayload) : list str :=
  match body output with BodyText content => [content] | BodyContentItems items => texts items end.
Definition sized (item : ResponseItem) : Prop :=
  match item with
  | FunctionCallOutput _ output | CustomToolCallOutput _ _ output =>
      Forall (λ t, (byte_len t <= usize_max)%N) (output_texts output)
  | _ => True
  end.

(** The record of an output: its text cut to the budget, or its items. *)
Definition cut_output (policy : TruncationPolicy) (before after : FunctionCallOutputPayload) : Prop :=
  success after = success before
  ∧ match body before, body after with
    | BodyText content, BodyText out => truncated content (byte_budget policy) (counts_tokens policy) out
    | BodyContentItems items, BodyContentItems out => truncate_function_output_items_with_policy items policy = Some out
    | _, _ => False
    end.
Definition recorded (policy : TruncationPolicy) (before after : ResponseItem) : Prop :=
  match before, after with
  | FunctionCallOutput c o, FunctionCallOutput c' o' => c' = c ∧ cut_output policy o o'
  | CustomToolCallOutput c n o, CustomToolCallOutput c' n' o' => c' = c ∧ n' = n ∧ cut_output policy o o'
  | FunctionCallOutput _ _, _ | CustomToolCallOutput _ _ _, _ => False
  | _, _ => after = before
  end.

Lemma truncate_items_total items policy :
  Forall (λ t, (byte_len t <= usize_max)%N) (texts items) → is_Some (truncate_function_output_items_with_policy items policy).
Proof.
  intros Hall. unfold truncate_function_output_items_with_policy.
  destruct (truncate_items_spec policy items (match policy with Bytes _ => byte_budget policy | Tokens _ => token_budget policy end) 0 Hall)
    as (kept & cut & rest & cut_out & _ & -> & _). by eexists.
Qed.

Lemma truncate_payload_spec output policy :
  Forall (λ t, (byte_len t <= usize_max)%N) (output_texts output) →
  ∃ out, truncate_function_output_payload output policy = Some out ∧ cut_output policy output out.
Proof.
  unfold truncate_function_output_payload, output_texts, cut_output. destruct output as [[content|items] s]; simpl; intros Hall.
  - rewrite Forall_singleton in Hall. destruct (truncate_text_spec content policy Hall) as (out & -> & Ht). by eexists.
  - destruct (truncate_items_total items policy Hall) as [out Ho]. rewrite Ho. eexists. split; [done|]. done.
Qed.

Lemma process_item_spec item policy :
  sized item → ∃ out, process_item item policy = Some out ∧ recorded (policy_mul policy f64_1_2) item out.
Proof.
  unfold process_item, recorded. destruct item as [| | | | |c o| |c n o| | | | |]; try (intros _; by eexists); simpl; intros Hs;
    destruct (truncate_payload_spec o (policy_mul policy f64_1_2) Hs) as (out & -> & Ho); simpl; by eexists.
Qed.

(** Recording appends the items of the API in order, outputs cut to the budget of
    the policy and a fifth more, and never panics. *)
Theorem record_items_cuts_outputs items policy self :
  Forall sized items →
  ∃ news, record_items items policy self = Some (set_items (cm_items self ++ news) self)
    ∧ Forall2 (recorded (policy_mul policy f64_1_2)) (filter (λ i, is_api_message i = true) items) news.
Proof.
  intros Hs. revert self. induction Hs as [|item items Hi _ IH]; intros self.
  - exists []. rewrite app_nil_r. by destruct self.
  - cbn [record_items]. rewrite filter_cons. destruct (is_api_message item); simpl; [|apply IH].
    destruct (process_item_spec item policy Hi) as (out & -> & Ho). simpl.
    destruct (IH (set_items (cm_items self ++ [out]) self)) as (news & -> & Hn). exists (out :: news).
    simpl. rewrite -app_assoc. split; [done|]. by constructor.
Qed.
End record.

(** ** Trimming *)

Section trimming.
Context {TurnContextItem : Type}.
Implicit Types self : ContextManager TurnContextItem.

Lemma snoc_of_last (items : list ResponseItem) x :
  last items = Some x → items = take (length items - 1) items ++ [x].
Proof. intros [l ->]%last_Some. rewrite length_app /= Nat.add_sub take_app_length. done. Qed.

(** Removing the oldest or the newest item keeps calls and outputs paired: the
    other item of its pair goes with it, and no other call or output does. *)
Theorem trimming_keeps_pairs self :
  paired (cm_items self) → unique_ids (cm_items self) →
  let oldest := cm_items (remove_first_item self) in
  let newest := cm_items (remove_last_item self).2 in
  (paired oldest ∧ unique_ids oldest ∧ ∀ y, item_key y ≠ None →
     (y ∈ oldest ↔ y ∈ cm_items self ∧ item_key <$> head (cm_items self) ≠ Some (item_key y)))
  ∧ (paired newest ∧ unique_ids newest ∧ ∀ y, item_key y ≠ None →
     (y ∈ newest ↔ y ∈ cm_items self ∧ item_key <$> last (cm_items self) ≠ Some (item_key y))).
Proof.
  intros Hp Hu oldest newest. unfold oldest, newest, remove_first_item, remove_last_item. split.
  - destruct (cm_items self) as [|x rest] eqn:Hi; simpl; rewrite ?Hi; [split; [done|]; split; [done|]; set_solver|].
    destruct (remove_corresponding_keeps_pairs [] x rest Hp Hu) as (Hp' & Hu' & _). do 2 (split; [done|]).
    intros y Hy. by apply (remove_corresponding_elem [] x rest).
  - destruct (last (cm_items self)) as [x|] eqn:Hl; simpl.
    + apply snoc_of_last in Hl as Hi. rewrite Hi in Hp, Hu. set (p := take _ _) in *.
      destruct (remove_corresponding_keeps_pairs p x [] Hp Hu) as (Hp' & Hu' & _). rewrite app_nil_r in Hp', Hu'.
      do 2 (split; [done|]). intros y Hy. rewrite Hi. rewrite -{1}(app_nil_r p). by apply remove_corresponding_elem.
    + apply last_None in Hl. rewrite Hl in Hp, Hu |- *. split; [done|]. split; [done|]. set_solver.
Qed.
End trimming.

(** ** Token counts *)

Section counts.
Context {MP : MessageParsers} {EE : EstimateEnv} {TurnContextItem : Type}.
Implicit Types self : ContextManager TurnContextItem.

Lemma estimates_nonneg l : Forall nonneg (estimate_item_token_count <$> l).
Proof. apply Forall_fmap, Forall_true. intros x. apply estimate_item_token_count_bounds. Qed.

Lemma sum_saturating_spec l : Forall nonneg l → sum_saturating l = Z.min (zsum l) i64_max.
Proof. intros Hl. unfold sum_saturating. by rewrite fold_saturating. Qed.

(** The estimate of a list of items, unbounded. *)
Definition tokens_of (l : list ResponseItem) : Z := zsum (estimate_item_token_count <$> l).

Lemma tokens_of_nonneg l : (0 <= tokens_of l)%Z.
Proof. apply zsum_nonneg, estimates_nonneg. Qed.

Lemma saturating_add_min a b :
  (0 <= a)%Z → (0 <= b)%Z → i64_saturating_add (Z.min a i64_max) (Z.min b i64_max) = Z.min (a + b) i64_max.
Proof. unfold i64_saturating_add, i64_saturating, i64_min, i64_max. lia. Qed.

Lemma sum_estimates l : sum_saturating (estimate_item_token_count <$> l) = Z.min (tokens_of l) i64_max.
Proof. apply sum_saturating_spec, estimates_nonneg. Qed.

(** The encrypted reasoning before the last turn, in full. *)
Definition earlier_reasoning self : list ResponseItem :=
  match rposition is_user_turn_boundary (cm_items self) with
  | None => []
  | Some i => filter (λ item, is_encrypted_reasoning item = true) (take i (cm_items self))
  end.

(** The usage is the last count of the server, the reasoning before the last turn
    unless the server counted it, and the items added since: summed exactly, up
    to the largest [i64], which it never exceeds. The estimate of the whole
    history is exact in the same way. *)
Theorem token_usage_saturates (server_reasoning_included : bool) base_instructions self :
  (0 <= total_tokens (last_usage self) <= i64_max)%Z →
  let last := total_tokens (last_usage self) in
  let reasoning := if server_reasoning_included then 0%Z else tokens_of (earlier_reasoning self) in
  get_total_token_usage server_reasoning_included self
  = Z.min (last + reasoning + tokens_of (items_after_last_model_generated_item self)) i64_max
  ∧ estimate_token_count_with_base_instructions base_instructions self
    = Some (Z.min (Z.of_N (approx_token_count base_instructions) + tokens_of (cm_items self)) i64_max).
Proof.
  intros Hlast last reasoning. unfold get_total_token_usage, estimate_token_count_with_base_instructions.
  rewrite !sum_estimates. pose proof (tokens_of_nonneg (items_after_last_model_generated_item self)).
  pose proof (tokens_of_nonneg (earlier_reasoning self)). pose proof (tokens_of_nonneg (cm_items self)).
  assert (match token_info self with Some info => total_tokens (last_token_usage info) | None => 0%Z end = Z.min last i64_max) as ->.
  { unfold last, last_usage in *. destruct (token_info self); simpl in *; lia. }
  assert (get_non_last_reasoning_items_tokens self = Z.min (tokens_of (earlier_reasoning self)) i64_max) as ->.
  { unfold get_non_last_reasoning_items_tokens, earlier_reasoning. destruct (rposition _ _); [apply sum_estimates|done]. }
  unfold i64_from_unsigned. split; [|f_equal; rewrite saturating_add_min; lia].
  unfold reasoning. destruct server_reasoning_included; rewrite !saturating_add_min; lia.
Qed.
End counts.

(** ** Versions *)

Section versions.
Context {MP : MessageParsers} {TurnContextItem : Type}.
Implicit Types self : ContextManager TurnContextItem.

(** What a thread does to its history; an operation that panics has no result. *)
Inductive HistoryOp :=
| RecordItems (items : list ResponseItem) (policy : TruncationPolicy)
| RemoveFirst
| RemoveLast
| Replace (items : list ResponseItem)
| ReplaceImages (placeholder : str)
| Rollback (n : N)
| SetTokenInfo (info : option TokenUsageInfo)
| SetReference (reference : option TurnContextItem)
| UpdateTokenInfo (usage : TokenUsage) (window : option Z)
| SetTokenUsageFull (window : Z).
Definition run_op (debug : bool) (op : HistoryOp) self : option (ContextManager TurnContextItem) :=
  match op with
  | RecordItems items policy => record_items items policy self
  | RemoveFirst => Some (remove_first_item self)
  | RemoveLast => Some (remove_last_item self).2
  | Replace items => Some (replace items self)
  | ReplaceImages placeholder => Some (replace_last_turn_images placeholder self).2
  | Rollback n => drop_last_n_user_turns n self
  | SetTokenInfo info => Some (set_token_info info self)
  | SetReference reference => Some (set_reference_context_item reference self)
  | UpdateTokenInfo usage window => update_token_info debug usage window self
  | SetTokenUsageFull window => set_token_usage_full debug window self
  end.
Fixpoint run_ops (debug : bool) (ops : list HistoryOp) self : option (ContextManager TurnContextItem) :=
  match ops with [] => Some self | op :: rest => self ← run_op debug op self; run_ops debug rest self end.

(** How often the oldest item was dropped; it takes the other item of its pair along. *)
Definition drops (op : HistoryOp) : nat := match op with RemoveFirst => 1 | _ => 0 end.
Fixpoint dropped (ops : list HistoryOp) : nat := match ops with [] => 0 | op :: rest => drops op + dropped rest end.
(** What is left of the items, all but two for each drop, stands first, unchanged and in
    order; new ones follow. *)
Definition grown (n : nat) (items items' : list ResponseItem) : Prop :=
  ∃ kept new, items' = kept ++ new ∧ kept `sublist_of` items ∧ length items <= length kept + 2 * n.
Lemma items_grown_refl items : grown 0 items items.
Proof. exists items, []. rewrite app_nil_r. split_and!; [done|done|lia]. Qed.
Lemma items_grown_app items new : grown 0 items (items ++ new).
Proof. exists items, new. split_and!; [done|done|lia]. Qed.
Lemma items_grown_trans n1 n2 l1 l2 l3 : grown n1 l1 l2 → grown n2 l2 l3 → grown (n1 + n2) l1 l3.
Proof.
  intros (kept & new & -> & Hk & Hl) (kept' & new' & -> & (k1 & k2 & -> & H1 & H2)%sublist_app_r & Hl').
  exists k1, (k2 ++ new'). rewrite app_assoc. split_and!; [done|by trans kept|].
  apply sublist_length in H2. rewrite !length_app in Hl'. lia.
Qed.

(** At most one item is left out. *)
Definition all_but_one (l' l : list ResponseItem) : Prop := l' `sublist_of` l ∧ length l <= length l' + 1.
Lemma removed_at_one (l : list ResponseItem) pos : all_but_one (take pos l ++ drop (S pos) l) l.
Proof.
  split; [|rewrite length_app length_take length_drop; lia].
  assert (sublist (take pos l ++ drop (S pos) l) (take pos l ++ drop pos l)) as Hs; [|by rewrite take_drop in Hs].
  apply sublist_app; [done|]. rewrite -Nat.add_1_r -drop_drop. apply sublist_drop.
Qed.
Lemma all_but_none l : all_but_one l l.
Proof. split; [done|lia]. Qed.
Lemma remove_first_matching_one f (items : list ResponseItem) : all_but_one (remove_first_matching f items) items.
Proof. unfold remove_first_matching. destruct (position f items); [apply removed_at_one|apply all_but_none]. Qed.
Lemma remove_corresponding_one items item : all_but_one (remove_corresponding_for items item) items.
Proof.
  unfold remove_corresponding_for.
  repeat case_match; (apply remove_first_matching_one || apply removed_at_one || apply all_but_none).
Qed.

Lemma record_items_appends items policy self self' : record_items items policy self = Some self' →
  history_version self' = history_version self ∧ grown 0 (cm_items self) (cm_items self').
Proof.
  revert self. induction items as [|item items IH]; intros self; [intros [= <-]; by split; [|apply items_grown_refl]|]. cbn [record_items].
  destruct (negb _); [apply IH|]. intros (x & _ & [Hv Hg]%IH)%bind_Some. split; [done|].
  apply (items_grown_trans 0 0 _ (cm_items self ++ [x])); [apply items_grown_app|exact Hg].
Qed.
Lemma rollback_version n self self' : drop_last_n_user_turns n self = Some self' →
  self' = self ∨ history_version self' = bump (history_version self).
Proof.
  destruct (N.eqb_spec n 0) as [->|Hn]; [intros [= <-]; by left|]. intros Hd. right.
  destruct (drop_last_n_user_turns_spec n self ltac:(lia)) as (after & base & mid & ctx & turns & Ha & Hrb). simplify_eq.
  by destruct Hrb.
Qed.
(** Images are replaced under a new version; without one, nothing changes. *)
Lemma images_version placeholder self : let self' := (replace_last_turn_images placeholder self).2 in
  history_version self' = bump (history_version self) ∨
  history_version self' = history_version self ∧ cm_items self' = cm_items self.
Proof.
  intros self'. unfold self', replace_last_turn_images.
  destruct (rposition _ _) as [i|]; [|by right]. destruct (cm_items self !! i) as [x|] eqn:Hi; [|by right].
  destruct x as [| | | | |call_id output| | | | | | |]; try (by right). destruct output as [[t|items] s]; cbn [content_items body]; [by right|].
  destruct (existsb is_output_image items) eqn:He; [by left|]. right. cbn. split; [done|]. apply list_insert_id. rewrite Hi. do 4 f_equal.
  symmetry. trans (id <$> items); [|by rewrite list_fmap_id]. apply list_fmap_ext. intros j x Hx%list_elem_of_lookup_2. destruct (is_output_image x) eqn:Hxi; [|done].
  assert (existsb is_output_image items = true) as Hy; [|by rewrite Hy in He].
  apply existsb_exists. exists x. split; [by apply list_elem_of_In|done].
Qed.

(** An operation keeps the version and only drops the oldest item or adds new ones, or
    it moves the version on. *)
Lemma op_version debug op self self' : run_op debug op self = Some self' →
  history_version self' = bump (history_version self) ∨
  history_version self' = history_version self ∧ grown (drops op) (cm_items self) (cm_items self').
Proof.
  destruct op as [items policy| | |items|placeholder|n|info|r|usage window|window]; cbn [run_op drops]; intros Hr.
  - right. by eapply record_items_appends.
  - right. injection Hr as <-. unfold remove_first_item. destruct (cm_items self) as [|x rest] eqn:Hi; cbn; rewrite ?Hi; (split; [done|]).
    + exists [], []. split_and!; [done|done|cbn; lia].
    + destruct (remove_corresponding_one rest x) as [Hs Hl]. exists (remove_corresponding_for rest x), [].
      rewrite app_nil_r. split_and!; [done|by constructor|cbn; lia].
  - injection Hr as <-. unfold remove_last_item. destruct (last _); [by left|right]. by split; [|apply items_grown_refl].
  - injection Hr as <-. by left.
  - injection Hr as <-. destruct (images_version placeholder self) as [Hv|[Hv Hi]]; [by left|right]. rewrite Hi. by split; [|apply items_grown_refl].
  - destruct (rollback_version _ _ _ Hr) as [->|Hv]; [right|by left]. by split; [|apply items_grown_refl].
  - injection Hr as <-. right. by split; [|apply items_grown_refl].
  - injection Hr as <-. right. by split; [|apply items_grown_refl].
  - unfold update_token_info in Hr. apply bind_Some in Hr as (info & Hn & [= <-]). right. by split; [|apply items_grown_refl].
  - unfold set_token_usage_full in Hr. apply bind_Some in Hr as (info & Hn & [= <-]). right. by split; [|apply items_grown_refl].
Qed.

(** C38. A history that has the version it had before, below the largest u64, has not been
    rewritten, whatever operations ran: of the items it had at most two are gone for each
    time its oldest item was dropped, and none when it never was; those that are left
    stand first, unchanged and in order, and what was recorded since follows. A version
    that was left does not come back. *)
Theorem same_version_same_items debug ops self self' : run_ops debug ops self = Some self' → (history_version self <= u64_max)%N →
  (history_version self <= history_version self' <= u64_max)%N ∧
  (history_version self' = history_version self → (history_version self < u64_max)%N →
   ∃ kept new, cm_items self' = kept ++ new ∧ kept `sublist_of` cm_items self ∧ length (cm_items self) <= length kept + 2 * dropped ops).
Proof.
  fold (grown (dropped ops) (cm_items self) (cm_items self')). revert self.
  induction ops as [|op ops IH]; intros self; cbn [run_ops dropped].
  { intros [= <-] Hmax. split; [lia|]. intros _ _. apply items_grown_refl. }
  intros (self1 & Hop & Hrest)%bind_Some Hmax. specialize (IH _ Hrest).
  apply op_version in Hop as [Hv|[Hv Hg]]; rewrite Hv in IH; unfold bump in IH.
  - destruct (IH ltac:(lia)) as [Hle _]. split; lia.
  - destruct (IH Hmax) as [Hle Hsame]. split; [done|]. intros Heq Hlt. eapply items_grown_trans; [exact Hg|]. by apply Hsame.
Qed.
End versions.

(** ** Witnesses *)

(** A thread in which no text is a hook prompt or a message of another agent,
    and an item takes as many bytes as a plain count says. *)
Definition plain_parsers : MessageParsers := {| hook_prompt_from_xml := λ _, None; is_inter_agent_json := λ _, false |}.
Definition plain_estimates : EstimateEnv := {|
  to_json_len := λ _, Some 10%N; base64_decode := λ _, None; image_load_from_memory := λ _, None; cached_estimate := λ _, None
|}.
Definition user (text : string) : ResponseItem := Message None (lit "user") [InputText (lit text)] None.
Definition thread : list ResponseItem :=
  [user "hi"; Message None (lit "developer") [InputText (lit "<model_switch>"); InputText (lit "rules")] None; user "again";
   FunctionCall None (lit "ls") None (lit "{}") (lit "c"); FunctionCallOutput (lit "c") (payload_from_text (lit "files"))].
Definition history_of (items : list ResponseItem) : ContextManager unit := MkContextManager items 0 None (Some tt).

Example rollback_example :
  drop_last_n_user_turns (MP := plain_parsers) 1 (history_of thread) = Some (MkContextManager [user "hi"] 1 None None).
Proof. eval_done. Qed.

Lemma rollback_drops_the_last_turns_witness :
  drop_last_n_user_turns (MP := plain_parsers) 0 (history_of thread) = Some (history_of thread)
  ∧ ∃ after base mid ctx turns,
       drop_last_n_user_turns (MP := plain_parsers) 1 (history_of thread) = Some after
       ∧ rolled_back (MP := plain_parsers) 1 (history_of thread) after base mid ctx turns.
Proof.
  pose proof (rollback_drops_the_last_turns (MP := plain_parsers) 1 (history_of thread)) as [H0 H1].
  split; [exact H0|]. by apply H1.
Defined.

Lemma record_items_cuts_outputs_witness :
  Forall sized thread
  ∧ ∃ news, record_items thread (Bytes 4) (history_of []) = Some (set_items (cm_items (history_of []) ++ news) (history_of []))
    ∧ Forall2 (recorded (policy_mul (Bytes 4) f64_1_2)) (filter (λ i, is_api_message i = true) thread) news.
Proof.
  assert (Forall sized thread) as Hs.
  { unfold thread. repeat (apply Forall_cons; split; [try exact I|]); try by apply Forall_nil.
    apply short_fits. by vm_compute. }
  split; [exact Hs|]. apply (record_items_cuts_outputs thread (Bytes 4) (history_of []) Hs).
Defined.

Lemma thread_paired : paired thread ∧ unique_ids thread.
Proof.
  split; [|split; apply NoDup_singleton]. split; [done|].
  intros x k Hx Hk. change (calls thread) with [(KFunction, lit "c")]. unfold thread in Hx.
  rewrite !elem_of_cons in Hx. destruct Hx as [->|[->|[->|[->|[->|Hx]]]]]; try done; [|by apply elem_of_nil in Hx].
  injection Hk as <-. by apply list_elem_of_singleton.
Qed.

Lemma trimming_keeps_pairs_witness :
  let self := history_of thread in
  let newest := cm_items (remove_last_item self).2 in
  paired newest ∧ unique_ids newest ∧ ∀ y, item_key y ≠ None →
     (y ∈ newest ↔ y ∈ cm_items self ∧ item_key <$> last (cm_items self) ≠ Some (item_key y)).
Proof.
  intros self newest. destruct thread_paired as [Hp Hu].
  exact (proj2 (trimming_keeps_pairs (history_of thread) Hp Hu)).
Defined.

Lemma token_usage_saturates_witness :
  let self := history_of thread in
  get_total_token_usage (MP := plain_parsers) (EE := plain_estimates) false self
  = Z.min (0 + tokens_of (EE := plain_estimates) (earlier_reasoning (MP := plain_parsers) self)
           + tokens_of (EE := plain_estimates) (items_after_last_model_generated_item self)) i64_max
  ∧ estimate_token_count_with_base_instructions (EE := plain_estimates) (lit "base") self
    = Some (Z.min (1 + tokens_of (EE := plain_estimates) (cm_items self)) i64_max).
Proof.
  intros self. refine (token_usage_saturates (MP := plain_parsers) (EE := plain_estimates) false (lit "base") self _).
  split; vm_compute; discriminate.
Defined.

(** The oldest item is dropped and another is recorded. *)
Lemma same_version_same_items_witness :
  let ops := [RemoveFirst (TurnContextItem := unit); RecordItems [user "more"] (Bytes 400)] in
  ∃ self, run_ops (MP := plain_parsers) true ops (history_of thread) = Some self ∧
    cm_items self = drop 1 thread ++ [user "more"] ∧
    ∃ kept new, cm_items self = kept ++ new ∧ kept `sublist_of` thread ∧ length thread <= length kept + 2.
Proof.
  intros ops. assert (∃ self, run_ops (MP := plain_parsers) true ops (history_of thread) = Some self ∧
    history_version self = 0%N ∧ cm_items self = drop 1 thread ++ [user "more"]) as (self & Hr & Hv & Hi)
    by (eexists; split_and!; vm_compute; reflexivity).
  exists self. split; [exact Hr|]. split; [exact Hi|].
  apply (proj2 (same_version_same_items (MP := plain_parsers) true ops (history_of thread) self Hr ltac:(vm_compute; discriminate))); [exact Hv|reflexivity].
Defined.
