(* ===== verification/ExecRules.v ===== *)
(** The rules of execution of the codex agent: [decision.rs],
    [executable_name.rs], the errors of [error.rs] and the rules of [rule.rs] in
    [codex-rs/execpolicy/src], on Unix. *)
From S2P Require Import Prelude Json Paths.
#[local] Open Scope nat_scope.

(** ** Errors *)

Record TextPosition := MkTextPosition { line : N; column : N }.
Record TextRange := MkTextRange { range_start : TextPosition; range_end : TextPosition }.
Record ErrorLocation := MkErrorLocation { location_path : str; location_range : TextRange }.

(** A Starlark error is opaque but for its span. *)
Inductive Error : Type :=
| InvalidDecision (s : str)
| InvalidPattern (s : str)
| InvalidExample (s : str)
| InvalidRule (s : str)
| ExampleDidNotMatch (rules examples : list str) (location : option ErrorLocation)
| ExampleDidMatch (rule example : str) (location : option ErrorLocation)
| Starlark (span : option ErrorLocation).

Definition with_location (self : Error) (location : ErrorLocation) : Error :=
  match self with
  | ExampleDidNotMatch rules examples None => ExampleDidNotMatch rules examples (Some location)
  | ExampleDidMatch rule example None => ExampleDidMatch rule example (Some location)
  | other => other
  end.
Definition error_location (self : Error) : option ErrorLocation :=
  match self with
  | ExampleDidNotMatch _ _ location | ExampleDidMatch _ _ location => location
  | Starlark span => span
  | _ => None
  end.

(** ** Decisions *)

(** In the order of severity. *)
Inductive Decision : Type := Allow | Prompt | Forbidden.
#[export] Instance Decision_eq_dec : EqDecision Decision.
Proof. solve_decision. Defined.

Definition severity (d : Decision) : N := match d with Allow => 0 | Prompt => 1 | Forbidden => 2 end.
Definition decision_le (a b : Decision) : bool := (severity a <=? severity b)%N.

Definition decision_parse (raw : str) : result Error Decision :=
  if raw =s? "allow" then Ok Allow
  else if raw =s? "prompt" then Ok Prompt
  else if raw =s? "forbidden" then Ok Forbidden
  else Err (InvalidDecision raw).

(** ** Names of executables *)

Definition executable_lookup_key (raw : str) : str := raw.
Definition executable_path_lookup_key (path : str) : option str := executable_lookup_key <$> file_name path.

(** ** Patterns *)

Inductive PatternToken : Type := Single (expected : str) | Alts (alternatives : list str).

Definition token_matches (self : PatternToken) (token : str) : bool :=
  match self with
  | Single expected => expected =s? token
  | Alts alternatives => existsb (λ alt, alt =s? token) alternatives
  end.
Definition alternatives (self : PatternToken) : list str :=
  match self with Single expected => [expected] | Alts alternatives => alternatives end.

Record PrefixPattern := MkPrefixPattern { first : str; rest : list PatternToken }.

(** The loop over the pattern and the tokens of the command. *)
Fixpoint all_match (pattern : list PatternToken) (tokens : list str) : bool :=
  match pattern, tokens with
  | pattern_token :: pattern, cmd_token :: tokens => token_matches pattern_token cmd_token && all_match pattern tokens
  | _, _ => true
  end.

Definition matches_prefix (self : PrefixPattern) (cmd : list str) : option (list str) :=
  let pattern_length := length (rest self) + 1 in
  if (length cmd <? pattern_length) || negb (match head cmd with Some c => c =s? first self | None => false end) then None
  else if all_match (rest self) (take (pattern_length - 1) (drop 1 cmd)) then Some (take pattern_length cmd)
  else None.

(** ** Rules *)

Inductive RuleMatch : Type :=
| PrefixRuleMatch (matched_prefix : list str) (decision : Decision) (resolved_program justification : option str)
| HeuristicsRuleMatch (command : list str) (decision : Decision).

Definition match_decision (self : RuleMatch) : Decision :=
  match self with PrefixRuleMatch _ decision _ _ => decision | HeuristicsRuleMatch _ decision => decision end.
Definition with_resolved_program (self : RuleMatch) (resolved_program : str) : RuleMatch :=
  match self with
  | PrefixRuleMatch matched_prefix decision _ justification =>
      PrefixRuleMatch matched_prefix decision (Some resolved_program) justification
  | other => other
  end.

Record PrefixRule := MkPrefixRule { pattern : PrefixPattern; decision : Decision; justification : option str }.

(** [dyn Rule] has one implementation, [PrefixRule]. *)
Definition program (self : PrefixRule) : str := first (pattern self).
Definition rule_matches (self : PrefixRule) (cmd : list str) : option RuleMatch :=
  matched_prefix ← matches_prefix (pattern self) cmd;
  Some (PrefixRuleMatch matched_prefix (decision self) None (justification self)).

(** ** Rules of the network *)

Inductive NetworkRuleProtocol : Type := Http | Https | Socks5Tcp | Socks5Udp.

Definition protocol_parse (raw : str) : result Error NetworkRuleProtocol :=
  if raw =s? "http" then Ok Http
  else if (raw =s? "https") || (raw =s? "https_connect") || (raw =s? "http-connect") then Ok Https
  else if raw =s? "socks5_tcp" then Ok Socks5Tcp
  else if raw =s? "socks5_udp" then Ok Socks5Udp
  else Err (InvalidRule (lit "network_rule protocol must be one of http, https, socks5_tcp, socks5_udp (got " ++ raw ++ lit ")")).
Definition as_policy_string (self : NetworkRuleProtocol) : str :=
  match self with Http => lit "http" | Https => lit "https" | Socks5Tcp => lit "socks5_tcp" | Socks5Udp => lit "socks5_udp" end.

Record NetworkRule := MkNetworkRule {
  host : str; protocol : NetworkRuleProtocol; network_decision : Decision; network_justification : option str
}.

Definition count_char (c : char) (s : str) : nat := length (filter (λ d, d = c) s).
Definition all_digits (s : str) : bool := negb (is_empty s) && forallb is_ascii_digit s.

Definition ch_open : char := 91%N.
Definition ch_close : char := 93%N.

(** The host without brackets and port. *)
Definition strip_brackets_and_port (raw host : str) : result Error str :=
  match strip_prefix [ch_open] host with
  | Some stripped =>
      match split_once ch_close stripped with
      | None => Err (InvalidRule "network_rule host has an invalid bracketed IPv6 literal")
      | Some (inside, rest) =>
          let port_ok := match strip_prefix [ch_colon] rest with Some port => all_digits port | None => false end in
          if negb (is_empty rest) && negb port_ok then
            Err (InvalidRule (lit "network_rule host contains an unsupported suffix: " ++ raw))
          else Ok inside
      end
  | None =>
      if count_char ch_colon host =? 1 then
        match rsplit_once ch_colon host with
        | Some (candidate, port) => if negb (is_empty candidate) && all_digits port then Ok candidate else Ok host
        | None => Ok host
        end
      else Ok host
  end.

Definition normalize_network_rule_host (raw : str) : result Error str :=
  let host := trim raw in
  if is_empty host then Err (InvalidRule "network_rule host cannot be empty")
  else if is_some_b (find_str "://" host) || contains_char ch_slash host || contains_char 63%N host || contains_char 35%N host then
    Err (InvalidRule "network_rule host must be a hostname or IP literal (without scheme or path)")
  else
    host ← strip_brackets_and_port raw host;
    let normalized := to_ascii_lowercase (trim (trim_end_matches (N.eqb ch_dot) host)) in
    if is_empty normalized then Err (InvalidRule "network_rule host cannot be empty")
    else if contains_char ch_star normalized then
      Err (InvalidRule "network_rule host must be a specific host; wildcards are not allowed")
    else if existsb is_whitespace normalized then Err (InvalidRule "network_rule host cannot contain whitespace")
    else Ok normalized.

Example host_with_port : normalize_network_rule_host " GitHub.COM.:443 " = Ok (lit "github.com").
Proof. eval_done. Qed.
Example host_ipv6 : normalize_network_rule_host "[::1]:80" = Ok (lit "::1").
Proof. eval_done. Qed.

(** Not every normal form is normal: brackets hide a port. *)
Example brackets_hide_a_port :
  normalize_network_rule_host "[a:80]" = Ok (lit "a:80") ∧ normalize_network_rule_host "a:80" = Ok (lit "a").
Proof. split; eval_done. Qed.

(** ** Results *)

(** ** Hosts *)

(** What a host is after it was normalised. *)
Definition host_char (c : char) : bool :=
  negb (is_whitespace c) && negb (c =? ch_star)%N && negb (is_ascii_upper c)
  && negb (c =? ch_slash)%N && negb (c =? 63)%N && negb (c =? 35)%N.

(** The normal form comes from a part of the text. *)
Lemma strip_brackets_infix raw host h : strip_brackets_and_port raw host = Ok h → ∃ p q, host = p ++ h ++ q.
Proof.
  unfold strip_brackets_and_port. destruct (strip_prefix [ch_open] host) as [stripped|] eqn:Hp.
  - apply strip_prefix_Some in Hp as ->. destruct (split_once ch_close stripped) as [[inside rest]|] eqn:Hs; [|done].
    apply split_once_Some in Hs as ->. destruct (negb _ && negb _); [done|]. intros [= <-].
    by exists [ch_open], (ch_close :: rest).
  - assert (∃ p q, host = p ++ host ++ q) as Hself by (exists [], []; by rewrite app_nil_r).
    destruct (count_char ch_colon host =? 1); [|by intros [= <-]].
    destruct (rsplit_once ch_colon host) as [[a b]|] eqn:Hs; [|by intros [= <-]].
    apply rsplit_once_Some in Hs as ->. destruct (negb _ && _); intros [= <-]; [|done]. by exists [], (ch_colon :: b).
Qed.

Lemma lower_char_cases c : is_ascii_upper (lower_char c) = false ∧ (lower_char c = c ∨ (97 <= lower_char c)%N).
Proof.
  unfold lower_char, is_ascii_upper, in_range. destruct (N.leb_spec 65 c), (N.leb_spec c 90); simpl.
  2,3,4: split; [|by left]; apply andb_false_iff; rewrite !N.leb_gt; lia.
  split; [apply andb_false_iff; rewrite !N.leb_gt; lia|right; lia].
Qed.

Lemma lower_case s : Forall (λ c, is_ascii_upper c = false) (to_ascii_lowercase s).
Proof. apply Forall_forall. intros d (c & -> & _)%list_elem_of_fmap. apply lower_char_cases. Qed.

Lemma lower_case_id s : Forall (λ c, is_ascii_upper c = false) s → to_ascii_lowercase s = s.
Proof. induction 1 as [|c s Hc _ IH]; [done|]. simpl. unfold lower_char. by rewrite Hc IH. Qed.

Lemma lower_case_elem s c : (c < 97)%N → c ∈ to_ascii_lowercase s → c ∈ s.
Proof.
  intros Hc (d & Hd & Hin)%list_elem_of_fmap. destruct (lower_char_cases d) as [_ [He|He]]; rewrite -Hd in He; [by rewrite He|lia].
Qed.

(** A text of the normal form, without colons, brackets and a final dot. *)
Lemma normal_host h :
  h ≠ [] → Forall (λ c, host_char c = true) h → ch_colon ∉ h → ch_open ∉ h → last h ≠ Some ch_dot →
  normalize_network_rule_host h = Ok h.
Proof.
  intros Hne Hchars Hcolon Hopen Hdot. unfold host_char in Hchars.
  setoid_rewrite andb_true_iff in Hchars. setoid_rewrite andb_true_iff in Hchars. setoid_rewrite andb_true_iff in Hchars.
  setoid_rewrite andb_true_iff in Hchars. setoid_rewrite andb_true_iff in Hchars. setoid_rewrite negb_true_iff in Hchars.
  setoid_rewrite N.eqb_neq in Hchars. rewrite Forall_forall in Hchars.
  assert (trim h = h) as Htrim.
  { apply trim_id; intros; subst; apply Hchars; set_solver. }
  assert (trim_end_matches (N.eqb ch_dot) h = h) as Hdots.
  { apply trim_end_matches_id. intros r c ->. apply N.eqb_neq. intros <-. by rewrite last_snoc in Hdot. }
  unfold normalize_network_rule_host. rewrite Htrim. destruct (is_empty h) eqn:He; [by apply is_empty_true in He|].
  assert (∀ c, c = ch_slash ∨ c = 63%N ∨ c = 35%N ∨ c = ch_star → contains_char c h = false) as Hno.
  { intros c Hc. apply contains_char_false. intros Hin%Hchars. naive_solver. }
  rewrite !Hno; [tauto..|].
  assert (find_str "://" h = None) as ->.
  { apply find_str_None. intros i (a & b & -> & _). apply Hcolon. set_solver. }
  assert (strip_brackets_and_port h h = Ok h) as ->.
  { unfold strip_brackets_and_port. destruct (strip_prefix [ch_open] h) as [r|] eqn:Hp; [apply strip_prefix_Some in Hp; set_solver|].
    assert (count_char ch_colon h = 0) as ->; [|done]. unfold count_char.
    assert (Forall (λ d, d ≠ ch_colon) h) as Hall by (apply Forall_forall; by intros d Hd ->).
    clear -Hall. induction Hall as [|d l Hd _ IH]; [done|]. by rewrite filter_cons_False. }
  simpl. rewrite Hdots Htrim lower_case_id ?He ?Hno; [by apply Forall_forall; intros c Hc; apply Hchars|tauto..|].
  destruct (existsb is_whitespace h) eqn:Hws; [|done]. apply existsb_exists in Hws as (c & Hc%list_elem_of_In & Hw).
  destruct (Hchars c Hc). naive_solver congruence.
Qed.

(** What is read of a host: it is not empty and has no upper case, white space,
    wild card, path, query or fragment; and without colons, brackets or a final
    dot it is its own normal form. *)
Theorem normalized_host raw h :
  normalize_network_rule_host raw = Ok h →
  h ≠ [] ∧ Forall (λ c, host_char c = true) h
  ∧ (ch_colon ∉ h → ch_open ∉ h → last h ≠ Some ch_dot → normalize_network_rule_host h = Ok h).
Proof.
  unfold normalize_network_rule_host at 1. destruct (is_empty (trim raw)) eqn:He; [done|].
  destruct (_ || _ || _ || _) eqn:Hbad; [done|]. rewrite !orb_false_iff !contains_char_false in Hbad.
  destruct Hbad as [[[_ Hslash] Hq] Hhash].
  destruct (strip_brackets_and_port raw (trim raw)) as [host|] eqn:Hstrip; [|done]. cbn [mbind result_bind].
  set (n := to_ascii_lowercase _). destruct (is_empty n) eqn:Hn; [done|]. destruct (contains_char ch_star n) eqn:Hstar; [done|].
  destruct (existsb is_whitespace n) eqn:Hws; [done|]. intros [= <-].
  apply is_empty_false in Hn. apply contains_char_false in Hstar.
  assert (Forall (λ c, is_whitespace c = false) n) as Hnws.
  { apply Forall_forall. intros c Hc. apply not_true_iff_false. intros Hw. apply not_true_iff_false in Hws. apply Hws, existsb_exists.
    exists c. by rewrite -list_elem_of_In. }
  assert (∀ c, (c < 97)%N → c ∈ n → c ∈ trim raw) as Hsub.
  { intros c Hc Hin. apply (lower_case_elem _ _ Hc) in Hin. apply strip_brackets_infix in Hstrip as (p & q & ->).
    destruct (trim_infix (trim_end_matches (N.eqb ch_dot) host)) as (p' & q' & Hi & _).
    destruct (trim_end_matches_prefix (N.eqb ch_dot) host) as (t & Ht & _). rewrite Ht Hi !elem_of_app. tauto. }
  assert (Forall (λ c, host_char c = true) n) as Hchars.
  { apply Forall_forall. intros c Hc. unfold host_char. rewrite !andb_true_iff !negb_true_iff !N.eqb_neq.
    rewrite Forall_forall in Hnws. pose proof (lower_case (trim (trim_end_matches (N.eqb ch_dot) host))) as Hup.
    rewrite Forall_forall in Hup. repeat split; [by apply Hnws|by intros ->|by apply Hup|..]; intros ->;
      [apply Hslash|apply Hq|apply Hhash]; by apply Hsub. }
  split; [done|]. split; [done|]. intros Hcolon Hopen Hdot.
  apply normal_host; done.
Qed.

Lemma normalized_host_witness :
  normalize_network_rule_host " GitHub.COM.:443 " = Ok (lit "github.com")
  ∧ normalize_network_rule_host "github.com" = Ok (lit "github.com").
Proof.
  assert (normalize_network_rule_host " GitHub.COM.:443 " = Ok (lit "github.com")) as H by (vm_compute; reflexivity).
  split; [exact H|]. destruct (normalized_host (lit " GitHub.COM.:443 ") (lit "github.com") H) as (_ & _ & Hid).
  apply Hid; [rewrite -contains_char_false; reflexivity|rewrite -contains_char_false; reflexivity|vm_compute; discriminate].
Defined.
