(* ===== verification/ExecPolicy.v ===== *)
(** The policy of execution of the codex agent: [policy.rs] and the examples of
    [rule.rs] in [codex-rs/execpolicy/src]. The rules of a program are kept in
    the order they were added; programs are met in the order of a hash map. *)
From S2P Require Import Prelude Json Paths Types Host AbsolutePath ExecRules.
#[local] Open Scope nat_scope.

(** A [MultiMap]: the values of a key in the order of insertion. *)
Definition multimap_insert {V} (k : str) (v : V) (m : gmap str (list V)) : gmap str (list V) :=
  <[k := default [] (m !! k) ++ [v]]> m.

Record MatchOptions := MkMatchOptions { resolve_host_executables : bool }.
Definition match_options_default : MatchOptions := MkMatchOptions false.

Record Policy := MkPolicy {
  rules_by_program : gmap str (list PrefixRule);
  network_rules : list NetworkRule;
  host_executables_by_name : gmap str (list str)
}.

Definition policy_new (rules : gmap str (list PrefixRule)) : Policy := MkPolicy rules [] ∅.
Definition empty_policy : Policy := policy_new ∅.

(** ** Changing a policy *)

Definition add_prefix_rule (self : Policy) (prefix : list str) (decision : Decision) : result Error Policy :=
  match prefix with
  | [] => Err (InvalidPattern "prefix cannot be empty")
  | first_token :: rest =>
      let rule := MkPrefixRule (MkPrefixPattern first_token (Single <$> rest)) decision None in
      Ok (MkPolicy (multimap_insert first_token rule (rules_by_program self)) (network_rules self) (host_executables_by_name self))
  end.

Definition add_network_rule (self : Policy) (host : str) (protocol : NetworkRuleProtocol) (decision : Decision)
    (justification : option str) : result Error Policy :=
  host ← normalize_network_rule_host host;
  if match justification with Some raw => is_empty (trim raw) | None => false end then
    Err (InvalidRule "justification cannot be empty")
  else Ok (MkPolicy (rules_by_program self) (network_rules self ++ [MkNetworkRule host protocol decision justification])
             (host_executables_by_name self)).

Definition set_host_executable_paths (self : Policy) (name : str) (paths : list str) : Policy :=
  MkPolicy (rules_by_program self) (network_rules self) (<[name := paths]> (host_executables_by_name self)).

(** [iter_all] meets the programs in the order of a hash map. *)
Definition merge_overlay {HO : HashOrder} (self overlay : Policy) : Policy :=
  let combined_rules :=
    foldl (λ m '(program, rules), foldl (λ m rule, multimap_insert program rule m) m rules)
      (rules_by_program self) (hash_iter (rules_by_program overlay)) in
  let combined_network_rules := network_rules self ++ network_rules overlay in
  let host_executables_by_name :=
    foldl (λ m '(name, paths), <[name := paths]> m) (host_executables_by_name self)
      (hash_iter (host_executables_by_name overlay)) in
  MkPolicy combined_rules combined_network_rules host_executables_by_name.

(** ** Domains *)

Definition remove_domain (entries : list str) (host : str) : list str := filter (λ entry, entry ≠ host) entries.
Definition upsert_domain (entries : list str) (host : str) : list str := remove_domain entries host ++ [host].

Definition compile_rule (acc : list str * list str) (rule : NetworkRule) : list str * list str :=
  let '(allowed, denied) := acc in
  match network_decision rule with
  | Allow => (upsert_domain allowed (host rule), remove_domain denied (host rule))
  | Forbidden => (remove_domain allowed (host rule), upsert_domain denied (host rule))
  | Prompt => (allowed, denied)
  end.
Definition compiled_network_domains (self : Policy) : list str * list str := foldl compile_rule ([], []) (network_rules self).

(** ** Allowed prefixes *)

Definition render_pattern_token (token : PatternToken) : str :=
  match token with Single value => value | Alts alternatives => lit "[" ++ join (lit "|") alternatives ++ lit "]" end.

Fixpoint strs_compare (a b : list str) : comparison :=
  match a, b with
  | [], [] => Eq
  | [], _ :: _ => Lt
  | _ :: _, [] => Gt
  | s :: a, t :: b => match str_compare s t with Eq => strs_compare a b | o => o end
  end.
Definition strs_le (a b : list str) : bool := match strs_compare a b with Gt => false | _ => true end.

(** [Vec::dedup]: equal neighbours become one. *)
Fixpoint dedup (l : list (list str)) : list (list str) :=
  match l with
  | x :: (y :: _) as r => if bool_decide (x = y) then dedup r else x :: dedup r
  | _ => l
  end.

Definition rendered_prefix (rule : PrefixRule) : list str :=
  first (pattern rule) :: (render_pattern_token <$> rest (pattern rule)).
Definition get_allowed_prefixes {HO : HashOrder} (self : Policy) : list (list str) :=
  let prefixes :=
    '(_, rules) ← hash_iter (rules_by_program self);
    rule ← rules;
    if bool_decide (decision rule = Allow) then [rendered_prefix rule] else [] in
  dedup (sort_by strs_le prefixes).

(** ** Matching *)

Record Evaluation := MkEvaluation { evaluation_decision : Decision; matched_rules : list RuleMatch }.

Definition is_heuristic (m : RuleMatch) : bool := match m with HeuristicsRuleMatch _ _ => true | PrefixRuleMatch _ _ _ _ => false end.
Definition is_match (self : Evaluation) : bool := existsb (λ m, negb (is_heuristic m)) (matched_rules self).

(** [Iterator::max]: the last of the greatest. *)
Definition max_decision (l : list Decision) : option Decision :=
  match l with
  | [] => None
  | x :: r => Some (foldl (λ best y, if decision_le best y then y else best) x r)
  end.
(** [expect] panics on the empty list. *)
Definition from_matches (matched_rules : list RuleMatch) : option Evaluation :=
  decision ← max_decision (match_decision <$> matched_rules); Some (MkEvaluation decision matched_rules).

Section matching.
(** The home and current directories, which resolve a program that is not absolute. *)
Context (home_dir : option str) (current_dir : result str str).

Definition match_exact_rules (self : Policy) (cmd : list str) : option (list RuleMatch) :=
  first ← head cmd;
  Some (match rules_by_program self !! first with
        | Some rules => omap (λ rule, rule_matches rule cmd) rules
        | None => []
        end).

Definition match_host_executable_rules (self : Policy) (cmd : list str) : list RuleMatch :=
  match cmd with
  | [] => []
  | first :: args =>
      match from_absolute_path home_dir current_dir first with
      | Err _ => []
      | Ok program =>
          match executable_path_lookup_key program with
          | None => []
          | Some basename =>
              match rules_by_program self !! basename with
              | None => []
              | Some rules =>
                  if match host_executables_by_name self !! basename with
                     | Some paths => negb (existsb (λ path, path_eq path program) paths)
                     | None => false
                     end then []
                  else
                    let basename_command := basename :: args in
                    (λ m, with_resolved_program m program) <$> omap (λ rule, rule_matches rule basename_command) rules
              end
          end
      end
  end.

Definition non_empty {A} (l : list A) : option (list A) := if is_empty l then None else Some l.

Definition matches_for_command_with_options (self : Policy) (cmd : list str)
    (heuristics_fallback : option (list str → Decision)) (options : MatchOptions) : list RuleMatch :=
  let matched_rules :=
    default []
      (or_else (matched_rules ← match_exact_rules self cmd; non_empty matched_rules)
         (if resolve_host_executables options then non_empty (match_host_executable_rules self cmd) else None)) in
  match heuristics_fallback with
  | Some heuristics_fallback =>
      if is_empty matched_rules then [HeuristicsRuleMatch cmd (heuristics_fallback cmd)] else matched_rules
  | None => matched_rules
  end.
Definition matches_for_command (self : Policy) (cmd : list str) (heuristics_fallback : option (list str → Decision)) :
    list RuleMatch :=
  matches_for_command_with_options self cmd heuristics_fallback match_options_default.

Definition check_with_options (self : Policy) (cmd : list str) (heuristics_fallback : list str → Decision)
    (options : MatchOptions) : option Evaluation :=
  from_matches (matches_for_command_with_options self cmd (Some heuristics_fallback) options).
Definition check (self : Policy) (cmd : list str) (heuristics_fallback : list str → Decision) : option Evaluation :=
  from_matches (matches_for_command_with_options self cmd (Some heuristics_fallback) match_options_default).

Definition check_multiple_with_options (self : Policy) (commands : list (list str)) (heuristics_fallback : list str → Decision)
    (options : MatchOptions) : option Evaluation :=
  from_matches (command ← commands; matches_for_command_with_options self command (Some heuristics_fallback) options).
Definition check_multiple (self : Policy) (commands : list (list str)) (heuristics_fallback : list str → Decision) :
    option Evaluation :=
  check_multiple_with_options self commands heuristics_fallback match_options_default.
End matching.

(** ** Prefixes *)

Lemma all_match_spec pattern tokens :
  length pattern = length tokens →
  all_match pattern tokens = true ↔ Forall2 (λ p t, token_matches p t = true) pattern tokens.
Proof.
  revert tokens. induction pattern as [|p pattern IH]; intros [|t tokens] Hl; try done; simpl.
  rewrite andb_true_iff Forall2_cons IH //. by injection Hl.
Qed.

(** A pattern matches the commands that begin with its tokens. *)
Lemma matches_prefix_spec self cmd out :
  matches_prefix self cmd = Some out ↔
  ∃ tokens tail, cmd = first self :: tokens ++ tail ∧ out = first self :: tokens
    ∧ Forall2 (λ p t, token_matches p t = true) (rest self) tokens.
Proof.
  unfold matches_prefix. destruct cmd as [|c cmd]; [split; [by destruct (_ <? _)|naive_solver]|].
  cbn [head drop length]. rewrite Nat.add_1_r.
  destruct (Nat.ltb_spec (S (length cmd)) (S (length (rest self)))) as [Hlt|Hge]; simpl.
  { split; [done|]. intros (tokens & tail & [= -> ->] & _ & Hf%Forall2_length). rewrite length_app in Hlt. lia. }
  destruct (c =s? first self) eqn:Hc; simpl; [apply str_eqb_eq in Hc as ->|apply str_eqb_neq in Hc; naive_solver].
  rewrite Nat.sub_0_r drop_0. assert (length (rest self) = length (take (length (rest self)) cmd)) as Hlen.
  { rewrite length_take. lia. }
  destruct (all_match (rest self) (take (length (rest self)) cmd)) eqn:Hm.
  - apply all_match_spec in Hm; [|done]. split.
    + intros [= <-]. exists (take (length (rest self)) cmd), (drop (length (rest self)) cmd). by rewrite take_drop.
    + intros (tokens & tail & [= ->] & -> & Hf). do 2 f_equal. apply Forall2_length in Hf. by rewrite Hf take_app_length.
  - split; [done|]. intros (tokens & tail & [= ->] & -> & Hf). apply not_true_iff_false in Hm. destruct Hm.
    apply all_match_spec; [done|]. pose proof (Forall2_length _ _ _ Hf) as Hl. by rewrite Hl take_app_length.
Qed.

(** ** Severity *)

Lemma max_decision_spec l d :
  max_decision l = Some d → d ∈ l ∧ ∀ e, e ∈ l → decision_le e d = true.
Proof.
  destruct l as [|x l]; [done|]. intros [= <-]. revert x. induction l as [|y l IH]; intros x; simpl.
  - split; [set_solver|]. intros e ->%list_elem_of_singleton. by destruct x.
  - destruct (IH (if decision_le x y then y else x)) as [Hin Hmax]. split.
    + destruct (decision_le x y); set_solver.
    + intros e. rewrite !elem_of_cons. assert (decision_le x (if decision_le x y then y else x) = true
        ∧ decision_le y (if decision_le x y then y else x) = true) as [Hx Hy] by by destruct x, y.
      set (b := if decision_le x y then y else x) in *. specialize (Hmax b ltac:(apply elem_of_cons; by left)) as Hb.
      assert (∀ a c d, decision_le a c = true → decision_le c d = true → decision_le a d = true) as Htrans by by intros [] [] [].
      intros [->|[->|He]]; [by eapply Htrans..|]. apply Hmax. by apply elem_of_cons; right.
Qed.

Lemma max_decision_None l : max_decision l = None ↔ l = [].
Proof. by destruct l. Qed.

Lemma from_matches_spec l :
  l ≠ [] →
  ∃ ev, from_matches l = Some ev ∧ matched_rules ev = l
    ∧ (∃ m, m ∈ l ∧ match_decision m = evaluation_decision ev)
    ∧ ∀ m, m ∈ l → decision_le (match_decision m) (evaluation_decision ev) = true.
Proof.
  intros Hl. unfold from_matches. destruct (max_decision (match_decision <$> l)) as [d|] eqn:Hd.
  - apply max_decision_spec in Hd as [Hin Hmax]. exists (MkEvaluation d l). split; [done|]. split; [done|]. split.
    + apply list_elem_of_fmap in Hin as (m & -> & Hm). by exists m.
    + intros m Hm. apply Hmax. by apply list_elem_of_fmap_2.
  - apply max_decision_None, fmap_nil_inv in Hd. done.
Qed.

(** ** Which rules decide *)

Section deciding.
Context (home_dir : option str) (current_dir : result str str).
Abbreviation matches self cmd f o := (matches_for_command_with_options home_dir current_dir self cmd (Some f) o).

(** The rules of a program whose pattern the command begins with. *)
Definition applicable (self : Policy) (cmd : list str) : list RuleMatch :=
  match head cmd with
  | Some first => omap (λ rule, rule_matches rule cmd) (default [] (rules_by_program self !! first))
  | None => []
  end.

Lemma match_exact_applicable self cmd : default [] (match_exact_rules self cmd) = applicable self cmd.
Proof. unfold match_exact_rules, applicable. destruct (head cmd) as [first|]; [|done]. simpl. by destruct (_ !! first). Qed.

(** Exact rules first, then, where it is wanted, those of the file's name, and
    the heuristics only when no rule matches. *)
Lemma matches_for_command_eq self cmd f options :
  matches self cmd f options
  = if negb (is_empty (applicable self cmd)) then applicable self cmd
    else let resolved := if resolve_host_executables options then match_host_executable_rules home_dir current_dir self cmd else [] in
         if is_empty resolved then [HeuristicsRuleMatch cmd (f cmd)] else resolved.
Proof.
  unfold matches_for_command_with_options. rewrite -match_exact_applicable.
  unfold non_empty. generalize (match_host_executable_rules home_dir current_dir self cmd) as h. intros h.
  destruct (match_exact_rules self cmd) as [[|m l]|], (resolve_host_executables options), h; done.
Qed.

Lemma matches_not_empty self cmd f options : matches self cmd f options ≠ [].
Proof.
  rewrite matches_for_command_eq. destruct (is_empty (applicable self cmd)) eqn:He; simpl.
  - set (resolved := if resolve_host_executables options then _ else _).
    destruct (is_empty resolved) eqn:Hr; [done|by apply is_empty_false].
  - by apply is_empty_false.
Qed.

(** Checking commands never panics unless there are none; the decision is the
    severest of the rules that match, command by command, and is the decision
    of one of them. *)
Theorem check_takes_the_severest self commands f options :
  (commands = [] → check_multiple_with_options home_dir current_dir self commands f options = None)
  ∧ (commands ≠ [] → ∃ ev,
       check_multiple_with_options home_dir current_dir self commands f options = Some ev
       ∧ matched_rules ev = (command ← commands; matches self command f options)
       ∧ (∃ m, m ∈ matched_rules ev ∧ match_decision m = evaluation_decision ev)
       ∧ (∀ m, m ∈ matched_rules ev → decision_le (match_decision m) (evaluation_decision ev) = true)
       ∧ ∀ cmd m, cmd ∈ commands → m ∈ applicable self cmd → decision_le (match_decision m) (evaluation_decision ev) = true).
Proof.
  unfold check_multiple_with_options. split; [by intros ->|]. intros Hne.
  destruct (from_matches_spec (command ← commands; matches self command f options)) as (ev & Hev & Hm & Hex & Hall).
  { destruct commands as [|cmd commands]; [done|]. cbn [mbind list_bind]. intros [Hnil _]%app_eq_nil. by eapply matches_not_empty. }
  exists ev. split; [done|]. split; [done|]. rewrite Hm. do 2 (split; [done|]). intros cmd m Hcmd Happ. apply Hall.
  apply list_elem_of_bind. exists cmd. split; [|done]. rewrite matches_for_command_eq.
  destruct (is_empty (applicable self cmd)) eqn:He; [|done]. apply is_empty_true in He. rewrite He in Happ. set_solver.
Qed.

(** ** Host executables *)

(** A rule for a bare name applies to a program found by its path only when the
    name has no list of paths, or the path is on it; the path is what the text
    of the program resolves to. *)
Theorem host_executables_are_listed self cmd m :
  m ∈ match_host_executable_rules home_dir current_dir self cmd →
  ∃ text args path name rule, cmd = text :: args ∧ from_absolute_path home_dir current_dir text = Ok path
    ∧ file_name path = Some name
    ∧ rule ∈ default [] (rules_by_program self !! name)
    ∧ match host_executables_by_name self !! name with Some paths => ∃ p, p ∈ paths ∧ components p = components path | None => True end
    ∧ ∃ prefix, matches_prefix (pattern rule) (name :: args) = Some prefix
        ∧ m = PrefixRuleMatch prefix (decision rule) (Some path) (justification rule).
Proof.
  destruct cmd as [|text args]; simpl; [set_solver|].
  destruct (from_absolute_path home_dir current_dir text) as [path|] eqn:Hpath; [|set_solver].
  unfold executable_path_lookup_key, executable_lookup_key. destruct (file_name path) as [name|] eqn:Hname; simpl; [|set_solver].
  destruct (rules_by_program self !! name) as [rules|] eqn:Hrules; [|set_solver].
  intros Hm. assert (match host_executables_by_name self !! name with
    Some paths => ∃ p, p ∈ paths ∧ components p = components path | None => True end
    ∧ m ∈ (λ m, with_resolved_program m path) <$> omap (λ rule, rule_matches rule (name :: args)) rules) as [Hlist Hin].
  { destruct (host_executables_by_name self !! name) as [paths|]; [|done].
    destruct (existsb (λ p, path_eq p path) paths) eqn:He; simpl in Hm; [|set_solver]. split; [|done].
    apply existsb_exists in He as (p & Hp%list_elem_of_In & Heq). exists p. split; [done|]. by apply bool_decide_eq_true in Heq. }
  apply list_elem_of_fmap in Hin as (m0 & -> & (rule & Hrule & Hmatch)%list_elem_of_omap).
  exists text, args, path, name, rule. do 3 (split; [done|]). rewrite Hrules. do 2 (split; [done|]).
  unfold rule_matches in Hmatch. apply bind_Some in Hmatch as (prefix & Hp & [= <-]). by exists prefix.
Qed.
End deciding.

(** ** Merging *)

Lemma multimap_insert_lookup {V} k (v : V) m k' :
  default [] (multimap_insert k v m !! k') = default [] (m !! k') ++ (if bool_decide (k = k') then [v] else []).
Proof.
  unfold multimap_insert. case_bool_decide as Hk; [subst; by rewrite lookup_insert_eq|].
  by rewrite lookup_insert_ne // app_nil_r.
Qed.

Lemma insert_rules_lookup {V} k (vs : list V) m k' :
  default [] (foldl (λ m v, multimap_insert k v m) m vs !! k') = default [] (m !! k') ++ (if bool_decide (k = k') then vs else []).
Proof.
  revert m. induction vs as [|v vs IH]; intros m; simpl; [by case_match; rewrite app_nil_r|].
  rewrite IH multimap_insert_lookup -app_assoc. by case_bool_decide.
Qed.

(** Entries that are met once, in whatever order. *)
Lemma insert_groups_lookup {V} (entries : list (str * list V)) m k' :
  NoDup entries.*1 →
  default [] (foldl (λ m '(k, vs), foldl (λ m v, multimap_insert k v m) m vs) m entries !! k')
  = default [] (m !! k') ++ default [] ((list_to_map entries : gmap str (list V)) !! k').
Proof.
  revert m. induction entries as [|[k vs] entries IH]; intros m Hnd; simpl; [by rewrite lookup_empty app_nil_r|].
  apply NoDup_cons in Hnd as [Hk Hnd]. rewrite IH // insert_rules_lookup. case_bool_decide as Heq.
  - subst k'. rewrite lookup_insert_eq /=. rewrite (not_elem_of_list_to_map_1 entries k Hk) /= app_nil_r //.
  - by rewrite lookup_insert_ne // app_nil_r.
Qed.

Lemma overwrite_all_lookup {V} (entries : list (str * V)) (m : gmap str V) k' :
  NoDup entries.*1 →
  foldl (λ m '(k, v), <[k := v]> m) m entries !! k'
  = or_else ((list_to_map entries : gmap str V) !! k') (m !! k').
Proof.
  revert m. induction entries as [|[k v] entries IH]; intros m Hnd; simpl; [by rewrite lookup_empty|].
  apply NoDup_cons in Hnd as [Hk Hnd]. rewrite IH //. destruct (decide (k = k')) as [->|Hne].
  - by rewrite !lookup_insert_eq (not_elem_of_list_to_map_1 entries k' Hk).
  - by rewrite !lookup_insert_ne.
Qed.

Section merging.
Context {HO : HashOrder}.

Lemma hash_iter_map {V} (m : gmap str V) : (list_to_map (hash_iter m) : gmap str V) = m.
Proof.
  rewrite (list_to_map_proper (hash_iter m) (map_to_list m)); [apply hash_iter_NoDup_fst|apply hash_iter_perm|].
  apply list_to_map_to_list.
Qed.

Lemma merged_rules self overlay program :
  default [] (rules_by_program (merge_overlay self overlay) !! program)
  = default [] (rules_by_program self !! program) ++ default [] (rules_by_program overlay !! program).
Proof. simpl. by rewrite insert_groups_lookup ?hash_iter_map; [apply hash_iter_NoDup_fst|]. Qed.

Lemma merged_applicable self overlay cmd :
  applicable (merge_overlay self overlay) cmd = applicable self cmd ++ applicable overlay cmd.
Proof. unfold applicable. destruct (head cmd) as [first|]; [|done]. by rewrite merged_rules omap_app. Qed.

(** A merged policy has, for each program, the rules of the first policy and then
    those of the overlay, whatever the order of the hash maps; the paths of the
    overlay replace those of the first policy. So the rules of a command's own
    program match in it as they do in each of the two. *)
Theorem merged_policy_matches_both self overlay :
  let merged := merge_overlay self overlay in
  (∀ program, default [] (rules_by_program merged !! program)
              = default [] (rules_by_program self !! program) ++ default [] (rules_by_program overlay !! program))
  ∧ network_rules merged = network_rules self ++ network_rules overlay
  ∧ (∀ name, host_executables_by_name merged !! name
             = or_else (host_executables_by_name overlay !! name) (host_executables_by_name self !! name))
  ∧ ∀ cmd, applicable merged cmd = applicable self cmd ++ applicable overlay cmd.
Proof.
  split; [apply merged_rules|]. split; [done|]. split; [|apply merged_applicable].
  intros name. simpl. by rewrite overwrite_all_lookup ?hash_iter_map; [apply hash_iter_NoDup_fst|].
Qed.
End merging.

(** ** Domains *)

(** The last word on a host: its last rule that allows or forbids it. *)
Definition last_word (rules : list NetworkRule) (h : str) : option Decision :=
  last (omap (λ r, if bool_decide (host r = h) then match network_decision r with Prompt => None | d => Some d end else None) rules).

Lemma last_word_snoc rules r h :
  last_word (rules ++ [r]) h
  = if bool_decide (host r = h) then match network_decision r with Prompt => last_word rules h | d => Some d end
    else last_word rules h.
Proof.
  unfold last_word. rewrite omap_app last_app. simpl. case_bool_decide; [|done]. by destruct (network_decision r).
Qed.

Lemma elem_of_upsert entries h k : k ∈ upsert_domain entries h ↔ k = h ∨ k ∈ entries.
Proof.
  unfold upsert_domain, remove_domain. rewrite elem_of_app list_elem_of_filter list_elem_of_singleton.
  destruct (decide (k = h)); naive_solver.
Qed.
Lemma elem_of_remove entries h k : k ∈ remove_domain entries h ↔ k ≠ h ∧ k ∈ entries.
Proof. unfold remove_domain. by rewrite list_elem_of_filter. Qed.

Lemma upsert_NoDup entries h : NoDup entries → NoDup (upsert_domain entries h).
Proof.
  intros Hnd. apply NoDup_app. split; [by apply NoDup_filter|]. split; [|apply NoDup_singleton].
  intros k [Hk _]%elem_of_remove ->%list_elem_of_singleton. done.
Qed.

(** The domains a policy allows and denies: each host once, on the list of its
    last rule that allows or forbids it; rules that ask do not count. *)
Theorem domains_follow_the_last_rule self :
  let '(allowed, denied) := compiled_network_domains self in
  NoDup allowed ∧ NoDup denied
  ∧ ∀ h, (h ∈ allowed ↔ last_word (network_rules self) h = Some Allow) ∧ (h ∈ denied ↔ last_word (network_rules self) h = Some Forbidden).
Proof.
  unfold compiled_network_domains. induction (network_rules self) as [|r rules IH] using rev_ind.
  - simpl. split; [constructor|]. split; [constructor|]. intros h. unfold last_word. simpl. split; set_solver.
  - rewrite foldl_app. simpl. destruct (foldl compile_rule ([], []) rules) as [allowed denied]. destruct IH as (Ha & Hd & IH).
    unfold compile_rule. destruct (network_decision r) eqn:Hr; simpl; (split; [|split]);
      try (by apply upsert_NoDup || by apply NoDup_filter || done);
      intros h; rewrite last_word_snoc Hr; rewrite ?elem_of_upsert ?elem_of_remove; destruct (IH h) as [IH1 IH2];
      case_bool_decide; naive_solver.
Qed.

(** ** Allowed prefixes *)

Lemma elem_of_dedup l x : x ∈ dedup l ↔ x ∈ l.
Proof.
  induction l as [|y [|z l] IH]; [done..|]. cbn [dedup]. case_bool_decide as Hy; [subst; rewrite IH; set_solver|].
  rewrite !(elem_of_cons (z :: l)) in IH |- *. rewrite !(elem_of_cons _ x y) IH. set_solver.
Qed.

Lemma strs_compare_eq a b : strs_compare a b = Eq ↔ a = b.
Proof.
  revert b. induction a as [|s a IH]; intros [|t b]; simpl; try done.
  destruct (str_compare s t) eqn:E; [|split; [done|intros [= -> _]; by rewrite str_compare_refl in E]..].
  apply str_compare_eq in E as ->. rewrite IH. naive_solver.
Qed.

Lemma strs_compare_antisym a b : strs_compare b a = CompOpp (strs_compare a b).
Proof.
  revert b. induction a as [|s a IH]; intros [|t b]; simpl; try done.
  rewrite (str_compare_antisym s t). destruct (str_compare s t); [apply IH|done..].
Qed.

Lemma strs_compare_lt_trans a b c : strs_compare a b = Lt → strs_compare b c = Lt → strs_compare a c = Lt.
Proof.
  revert b c. induction a as [|s a IH]; intros [|t b] [|u c]; simpl; try done.
  destruct (str_compare s t) eqn:E1; [apply str_compare_eq in E1 as ->| |done].
  - destruct (str_compare t u); [apply IH|done|done].
  - destruct (str_compare t u) eqn:E2; [apply str_compare_eq in E2 as ->; by rewrite E1| |done].
    by rewrite (str_compare_lt_trans _ _ _ E1 E2).
Qed.

Lemma strs_le_total a b : strs_le a b = true ∨ strs_le b a = true.
Proof. unfold strs_le. rewrite (strs_compare_antisym a b). destruct (strs_compare a b); auto. Qed.

#[export] Instance strs_le_trans : Transitive (λ a b, strs_le a b = true).
Proof.
  intros a b c. unfold strs_le. destruct (strs_compare a b) eqn:E1; [apply strs_compare_eq in E1 as ->; done| |done].
  destruct (strs_compare b c) eqn:E2; [apply strs_compare_eq in E2 as ->; by rewrite E1| |done].
  by rewrite (strs_compare_lt_trans _ _ _ E1 E2).
Qed.
#[export] Instance strs_le_antisymm : AntiSymm (=) (λ a b, strs_le a b = true).
Proof.
  intros a b. unfold strs_le. rewrite (strs_compare_antisym a b). destruct (strs_compare a b) eqn:E; [|done..].
  by apply strs_compare_eq in E.
Qed.

Lemma dedup_sorted l :
  StronglySorted (λ a b, strs_le a b = true) l → StronglySorted (λ a b, strs_le a b = true) (dedup l) ∧ NoDup (dedup l).
Proof.
  induction l as [|x [|y l] IH]; intros Hs; [by split; constructor|split; [done|by apply NoDup_singleton]|].
  apply StronglySorted_inv in Hs as [Hs Hx]. destruct (IH Hs) as [IH1 IH2].
  change (dedup (x :: y :: l)) with (if bool_decide (x = y) then dedup (y :: l) else x :: dedup (y :: l)).
  case_bool_decide as Hxy; [done|]. rewrite Forall_forall in Hx.
  assert (Forall (λ b, strs_le x b = true) (dedup (y :: l))) as Hall.
  { apply Forall_forall. intros z. rewrite elem_of_dedup. apply Hx. }
  split; [by constructor|]. apply NoDup_cons. split; [|done]. rewrite elem_of_dedup. intros Hin.
  apply elem_of_cons in Hin as [->|Hin]; [done|]. apply StronglySorted_inv in Hs as [_ Hy].
  apply Hxy, (anti_symm (λ a b, strs_le a b = true)).
  - apply Hx, elem_of_cons. by left.
  - rewrite Forall_forall in Hy. by apply Hy.
Qed.

(** A rule is in a policy under its program. *)
Definition rule_in (self : Policy) (program : str) (rule : PrefixRule) : Prop :=
  ∃ rules, rules_by_program self !! program = Some rules ∧ rule ∈ rules.

(** The allowed prefixes of a policy are those of its rules that allow, each once
    and in order, and so do not depend on the order of the hash map. *)
Theorem allowed_prefixes_are_canonical self :
  (∀ (HO : HashOrder),
     StronglySorted (λ a b, strs_le a b = true) (get_allowed_prefixes self) ∧ NoDup (get_allowed_prefixes self)
     ∧ ∀ p, p ∈ get_allowed_prefixes self ↔ ∃ program rule, rule_in self program rule ∧ decision rule = Allow ∧ p = rendered_prefix rule)
  ∧ ∀ HO HO', get_allowed_prefixes (HO := HO) self = get_allowed_prefixes (HO := HO') self.
Proof.
  assert (∀ (HO : HashOrder),
     StronglySorted (λ a b, strs_le a b = true) (get_allowed_prefixes self) ∧ NoDup (get_allowed_prefixes self)
     ∧ ∀ p, p ∈ get_allowed_prefixes self ↔ ∃ program rule, rule_in self program rule ∧ decision rule = Allow ∧ p = rendered_prefix rule) as H.
  { intros HO. unfold get_allowed_prefixes. set (prefixes := hash_iter _ ≫= _).
    assert (StronglySorted (λ a b, strs_le a b = true) (sort_by strs_le prefixes)) as Hs.
    { apply Sorted_StronglySorted; [apply strs_le_trans|]. apply sort_by_Sorted, strs_le_total. }
    destruct (dedup_sorted _ Hs) as [H1 H2]. do 2 (split; [done|]). intros p. rewrite elem_of_dedup sort_by_perm.
    unfold prefixes, rule_in. rewrite list_elem_of_bind. split.
    - intros ([program rules] & (rule & Hp & Hrule)%list_elem_of_bind & Hin%elem_of_hash_iter). exists program, rule.
      case_bool_decide; [|set_solver]. apply list_elem_of_singleton in Hp. eauto.
    - intros (program & rule & (rules & Hr & Hrule) & Ha & ->). exists (program, rules). rewrite elem_of_hash_iter.
      split; [|done]. apply list_elem_of_bind. exists rule. split; [|done]. rewrite bool_decide_eq_true_2 //. set_solver. }
  split; [exact H|]. intros HO HO'. destruct (H HO) as (S1 & N1 & E1), (H HO') as (S2 & N2 & E2).
  apply (StronglySorted_unique (λ a b, strs_le a b = true)); [done..|].
  apply NoDup_Permutation; [done..|]. intros p. by rewrite E1 E2.
Qed.

(** ** Witnesses *)

Definition git_rules : Policy :=
  MkPolicy {[lit "git" := [MkPrefixRule (MkPrefixPattern (lit "git") [Single (lit "push")]) Forbidden None;
                           MkPrefixRule (MkPrefixPattern (lit "git") []) Allow None]]} [] ∅.
Definition prompts (cmd : list str) : Decision := Prompt.

(** A program that is not absolute takes the rules of its file's name as well:
    it is resolved against the current directory first. *)
Example relative_program_takes_the_rules_of_its_name :
  check_with_options None (Ok (lit "/work")) git_rules [lit "./git"; lit "status"] prompts (MkMatchOptions true)
  = Some (MkEvaluation Allow [PrefixRuleMatch [lit "git"] Allow (Some (lit "/work/git")) None]).
Proof. eval_done. Qed.

Lemma check_takes_the_severest_witness :
  ∃ ev, check_multiple_with_options None (Ok (lit "/work")) git_rules [[lit "git"; lit "push"]; [lit "ls"]] prompts match_options_default = Some ev
    ∧ evaluation_decision ev = Forbidden
    ∧ ∀ cmd m, cmd ∈ [[lit "git"; lit "push"]; [lit "ls"]] → m ∈ applicable git_rules cmd →
        decision_le (match_decision m) (evaluation_decision ev) = true.
Proof.
  destruct (check_takes_the_severest None (Ok (lit "/work")) git_rules [[lit "git"; lit "push"]; [lit "ls"]] prompts match_options_default)
    as [_ H]. destruct H as (ev & Hev & _ & _ & _ & Happ); [discriminate|].
  exists ev. split; [exact Hev|]. split; [|exact Happ]. vm_compute in Hev. injection Hev as <-. reflexivity.
Defined.

Definition listed_git : Policy := set_host_executable_paths git_rules (lit "git") [lit "/bin/git"; lit "/usr/bin/git"].

Example unlisted_program_has_no_rules :
  match_host_executable_rules None (Ok (lit "/work")) listed_git [lit "/tmp/git"; lit "push"] = [].
Proof. eval_done. Qed.

Lemma host_executables_are_listed_witness :
  ∃ m, m ∈ match_host_executable_rules None (Ok (lit "/work")) listed_git [lit "/usr/bin/git"; lit "log"]
  ∧ ∃ text args path name rule, [lit "/usr/bin/git"; lit "log"] = text :: args ∧ from_absolute_path None (Ok (lit "/work")) text = Ok path
    ∧ file_name path = Some name
    ∧ rule ∈ default [] (rules_by_program listed_git !! name)
    ∧ match host_executables_by_name listed_git !! name with Some paths => ∃ p, p ∈ paths ∧ components p = components path | None => True end
    ∧ ∃ prefix, matches_prefix (pattern rule) (name :: args) = Some prefix
        ∧ m = PrefixRuleMatch prefix (decision rule) (Some path) (justification rule).
Proof.
  set (m := PrefixRuleMatch [lit "git"] Allow (Some (lit "/usr/bin/git")) None).
  assert (m ∈ match_host_executable_rules None (Ok (lit "/work")) listed_git [lit "/usr/bin/git"; lit "log"]) as Hm.
  { assert (match_host_executable_rules None (Ok (lit "/work")) listed_git [lit "/usr/bin/git"; lit "log"] = [m]) as -> by (vm_compute; reflexivity).
    by apply list_elem_of_singleton. }
  exists m. split; [exact Hm|]. exact (host_executables_are_listed None (Ok (lit "/work")) listed_git _ m Hm).
Defined.
