(* ===== verification/ExecPolicyParser.v ===== *)
(** Reading policies of execution: [parser.rs] and the validation of examples of
    [rule.rs] in [codex-rs/execpolicy/src]. A policy file is a Starlark module
    whose evaluation calls three functions of the code; the evaluator is a
    library, of which the model keeps the calls a module makes, in order, and the
    error it ends with, if any. *)
From S2P Require Import Prelude Json Paths Types Host AbsolutePath ExecRules ExecPolicy.
#[local] Open Scope nat_scope.

(** ** Starlark *)

Inductive starlark : Type := SString (s : str) | SList (items : list starlark) | SOther (type_name : str).
Definition get_type (v : starlark) : str :=
  match v with SString _ => lit "string" | SList _ => lit "list" | SOther t => t end.
Definition unpack_str (v : starlark) : option str := match v with SString s => Some s | _ => None end.

Inductive builtin_call : Type :=
| CallPrefixRule (pattern : list starlark) (decision : option str) (matches not_matches : option (list starlark))
    (justification : option str)
| CallNetworkRule (host protocol decision : str) (justification : option str)
| CallHostExecutable (name : str) (paths : list starlark).

(** A call and where it is in the file. *)
Definition located_call : Type := builtin_call * option ErrorLocation.

(** What the libraries do: the calls of a module and its own error, if it has
    one; [shlex]; and the renderings of rules and matches for messages. *)
Class PolicyLibraries := {
  eval_module : str → str → list located_call * option (option ErrorLocation);
  shlex_split : str → option (list str);
  shlex_try_join : list str → option str;
  debug_rule : PrefixRule → str;
  debug_match : RuleMatch → str
}.

(** ** [PolicyBuilder] *)

Record PendingExampleValidation := MkPendingExampleValidation {
  pending_rules : list PrefixRule;
  pending_matches : list (list str);
  pending_not_matches : list (list str);
  pending_location : option ErrorLocation
}.
Record PolicyBuilder := MkPolicyBuilder {
  built_rules : gmap str (list PrefixRule);
  built_network_rules : list NetworkRule;
  built_host_executables : gmap str (list str);
  pending_example_validations : list PendingExampleValidation
}.
Definition builder_new : PolicyBuilder := MkPolicyBuilder ∅ [] ∅ [].

Definition add_rule (b : PolicyBuilder) (rule : PrefixRule) : PolicyBuilder :=
  MkPolicyBuilder (multimap_insert (program rule) rule (built_rules b)) (built_network_rules b) (built_host_executables b)
    (pending_example_validations b).
Definition builder_add_network_rule (b : PolicyBuilder) (rule : NetworkRule) : PolicyBuilder :=
  MkPolicyBuilder (built_rules b) (built_network_rules b ++ [rule]) (built_host_executables b) (pending_example_validations b).
Definition add_host_executable (b : PolicyBuilder) (name : str) (paths : list str) : PolicyBuilder :=
  MkPolicyBuilder (built_rules b) (built_network_rules b) (<[name := paths]> (built_host_executables b))
    (pending_example_validations b).
Definition add_pending_example_validation (b : PolicyBuilder) (v : PendingExampleValidation) : PolicyBuilder :=
  MkPolicyBuilder (built_rules b) (built_network_rules b) (built_host_executables b) (pending_example_validations b ++ [v]).
Definition build (b : PolicyBuilder) : Policy := MkPolicy (built_rules b) (built_network_rules b) (built_host_executables b).

Definition attach_validation_location (error : Error) (location : option ErrorLocation) : Error :=
  match location with Some location => with_location error location | None => error end.

(** ** Arguments *)

Definition parse_alternative (value : starlark) : result Error str :=
  ok_or (InvalidPattern (lit "pattern alternative must be a string (got " ++ get_type value ++ lit ")")) (unpack_str value).
Definition parse_pattern_token (value : starlark) : result Error PatternToken :=
  match value with
  | SString s => Ok (Single s)
  | SList items =>
      tokens ← mapM parse_alternative items;
      match tokens with
      | [] => Err (InvalidPattern "pattern alternatives cannot be empty")
      | [single] => Ok (Single single)
      | _ => Ok (Alts tokens)
      end
  | SOther _ => Err (InvalidPattern (lit "pattern element must be a string or list of strings (got " ++ get_type value ++ lit ")"))
  end.
Definition parse_pattern (pattern : list starlark) : result Error (list PatternToken) :=
  tokens ← mapM parse_pattern_token pattern;
  match tokens with [] => Err (InvalidPattern "pattern cannot be empty") | _ => Ok tokens end.

Definition validate_host_executable_name (name : str) : result Error unit :=
  if is_empty name then Err (InvalidRule "host_executable name cannot be empty")
  else if negb (length (components name) =? 1) || negb (bool_decide (file_name name = Some name)) then
    Err (InvalidRule (lit "host_executable name must be a bare executable name (got " ++ name ++ lit ")"))
  else Ok tt.

Definition parse_network_rule_decision (raw : str) : result Error Decision :=
  if raw =s? "deny" then Ok Forbidden else decision_parse raw.

Definition check_justification (justification : option str) : result Error (option str) :=
  match justification with
  | Some raw => if is_empty (trim raw) then Err (InvalidRule "justification cannot be empty") else Ok (Some raw)
  | None => Ok None
  end.

Section parser.
Context {PL : PolicyLibraries} (home_dir : option str) (current_dir : result str str).

Definition parse_literal_absolute_path (raw : str) : result Error str :=
  if negb (is_absolute raw) then
    Err (InvalidRule (lit "host_executable paths must be absolute (got " ++ raw ++ lit ")"))
  else
    map_err (λ error, InvalidRule (lit "invalid absolute path `" ++ raw ++ lit "`: " ++ error))
      (from_absolute_path home_dir current_dir raw).

Definition parse_string_example (raw : str) : result Error (list str) :=
  tokens ← ok_or (InvalidExample "example string has invalid shell syntax") (shlex_split raw);
  if is_empty tokens then Err (InvalidExample "example cannot be an empty string") else Ok tokens.
Definition parse_example_token (value : starlark) : result Error str :=
  ok_or (InvalidExample (lit "example tokens must be strings (got " ++ get_type value ++ lit ")")) (unpack_str value).
Definition parse_list_example (items : list starlark) : result Error (list str) :=
  tokens ← mapM parse_example_token items;
  if is_empty tokens then Err (InvalidExample "example cannot be an empty list") else Ok tokens.
Definition parse_example (value : starlark) : result Error (list str) :=
  match value with
  | SString raw => parse_string_example raw
  | SList items => parse_list_example items
  | SOther _ => Err (InvalidExample (lit "example must be a string or list of strings (got " ++ get_type value ++ lit ")"))
  end.
Definition parse_examples (examples : list starlark) : result Error (list (list str)) := mapM parse_example examples.
Definition parse_optional_examples (examples : option (list starlark)) : result Error (list (list str)) :=
  match examples with Some examples => parse_examples examples | None => Ok [] end.

(** ** The functions of a policy file *)

Definition prefix_rule (b : PolicyBuilder) (pattern : list starlark) (decision : option str)
    (matches not_matches : option (list starlark)) (justification : option str) (location : option ErrorLocation) :
    result Error PolicyBuilder :=
  decision ← match decision with Some raw => decision_parse raw | None => Ok Allow end;
  justification ← check_justification justification;
  pattern_tokens ← parse_pattern pattern;
  matches ← parse_optional_examples matches;
  not_matches ← parse_optional_examples not_matches;
  match pattern_tokens with
  | [] => Err (InvalidPattern "pattern cannot be empty")
  | first_token :: rest =>
      let rules := (λ head, MkPrefixRule (MkPrefixPattern head rest) decision justification) <$> alternatives first_token in
      let b := add_pending_example_validation b (MkPendingExampleValidation rules matches not_matches location) in
      Ok (foldl add_rule b rules)
  end.

Definition network_rule (b : PolicyBuilder) (host protocol decision : str) (justification : option str) :
    result Error PolicyBuilder :=
  protocol ← protocol_parse protocol;
  decision ← parse_network_rule_decision decision;
  justification ← check_justification justification;
  host ← normalize_network_rule_host host;
  Ok (builder_add_network_rule b (MkNetworkRule host protocol decision justification)).

Fixpoint parse_paths (name : str) (paths : list starlark) (parsed_paths : list str) : result Error (list str) :=
  match paths with
  | [] => Ok parsed_paths
  | value :: rest =>
      raw ← ok_or (InvalidRule (lit "host_executable paths must be strings (got " ++ get_type value ++ lit ")")) (unpack_str value);
      path ← parse_literal_absolute_path raw;
      let error := InvalidRule (lit "host_executable path `" ++ raw ++ lit "` must have basename `" ++ name ++ lit "`") in
      path_name ← ok_or error (executable_path_lookup_key path);
      if negb (path_name =s? executable_lookup_key name) then Err error
      else parse_paths name rest (if existsb (λ existing, path_eq existing path) parsed_paths then parsed_paths else parsed_paths ++ [path])
  end.
Definition host_executable (b : PolicyBuilder) (name : str) (paths : list starlark) : result Error PolicyBuilder :=
  _ ← validate_host_executable_name name;
  parsed_paths ← parse_paths name paths [];
  Ok (add_host_executable b (executable_lookup_key name) parsed_paths).

Definition run_call (b : PolicyBuilder) (call : located_call) : result Error PolicyBuilder :=
  let '(call, location) := call in
  match call with
  | CallPrefixRule pattern decision matches not_matches justification =>
      prefix_rule b pattern decision matches not_matches justification location
  | CallNetworkRule host protocol decision justification => network_rule b host protocol decision justification
  | CallHostExecutable name paths => host_executable b name paths
  end.

(** ** Examples *)

Definition render_example (example : list str) : str := default (lit "unable to render example") (shlex_try_join example).
Definition resolving : MatchOptions := MkMatchOptions true.
Definition example_matches (policy : Policy) (example : list str) : list RuleMatch :=
  matches_for_command_with_options home_dir current_dir policy example None resolving.

Definition validate_match_examples (policy : Policy) (rules : list PrefixRule) (matches : list (list str)) : result Error unit :=
  let unmatched_examples :=
    render_example <$> filter (λ example, is_empty (example_matches policy example) = true) matches in
  if is_empty unmatched_examples then Ok tt
  else Err (ExampleDidNotMatch (debug_rule <$> rules) unmatched_examples None).

Fixpoint validate_not_match_examples (policy : Policy) (not_matches : list (list str)) : result Error unit :=
  match not_matches with
  | [] => Ok tt
  | example :: rest =>
      match example_matches policy example with
      | rule :: _ => Err (ExampleDidMatch (debug_match rule) (render_example example) None)
      | [] => validate_not_match_examples policy rest
      end
  end.

(** The policy of the rules of one call alone. *)
Definition call_policy (b : PolicyBuilder) (rules : list PrefixRule) : Policy :=
  MkPolicy (foldl (λ m rule, multimap_insert (program rule) rule m) ∅ rules) [] (built_host_executables b).

Fixpoint validate_examples (b : PolicyBuilder) (validations : list PendingExampleValidation) : result Error unit :=
  match validations with
  | [] => Ok tt
  | validation :: rest =>
      let policy := call_policy b (pending_rules validation) in
      _ ← map_err (λ error, attach_validation_location error (pending_location validation))
            (validate_not_match_examples policy (pending_not_matches validation));
      _ ← map_err (λ error, attach_validation_location error (pending_location validation))
            (validate_match_examples policy (pending_rules validation) (pending_matches validation));
      validate_examples b rest
  end.
Definition validate_pending_examples_from (b : PolicyBuilder) (start : nat) : result Error unit :=
  validate_examples b (drop start (pending_example_validations b)).

(** ** [PolicyParser::parse] *)

(** The calls run until one fails; what they added before stays. A failing call
    ends the evaluation with a Starlark error. *)
Fixpoint run_calls (b : PolicyBuilder) (calls : list located_call) : PolicyBuilder * result Error unit :=
  match calls with
  | [] => (b, Ok tt)
  | call :: rest =>
      match run_call b call with
      | Ok b => run_calls b rest
      | Err _ => (b, Err (Starlark (snd call)))
      end
  end.

Definition parse (b : PolicyBuilder) (policy_identifier policy_file_contents : str) : PolicyBuilder * result Error unit :=
  let pending_validation_count := length (pending_example_validations b) in
  let '(calls, error) := eval_module policy_identifier policy_file_contents in
  match run_calls b calls with
  | (b, Err e) => (b, Err e)
  | (b, Ok _) =>
      match error with
      | Some span => (b, Err (Starlark span))
      | None => (b, validate_pending_examples_from b pending_validation_count)
      end
  end.
End parser.

(** ** Rules are kept under their programs *)

Section soundness.
Context {PL : PolicyLibraries} (home_dir : option str) (current_dir : result str str).

Definition keyed (m : gmap str (list PrefixRule)) : Prop := ∀ p rule, rule ∈ default [] (m !! p) → program rule = p.

Lemma insert_rule_lookup m rule p :
  default [] (multimap_insert (program rule) rule m !! p)
  = default [] (m !! p) ++ (if bool_decide (program rule = p) then [rule] else []).
Proof. apply multimap_insert_lookup. Qed.

Lemma insert_rules_by_program m rules p :
  default [] (foldl (λ m rule, multimap_insert (program rule) rule m) m rules !! p)
  = default [] (m !! p) ++ filter (λ rule, program rule = p) rules.
Proof.
  revert m. induction rules as [|rule rules IH]; intros m; simpl; [by rewrite app_nil_r|].
  rewrite IH insert_rule_lookup -app_assoc filter_cons. f_equal.
  case_decide; case_bool_decide; done.
Qed.

Lemma add_rules_built b rules :
  built_rules (foldl add_rule b rules) = foldl (λ m rule, multimap_insert (program rule) rule m) (built_rules b) rules
  ∧ built_network_rules (foldl add_rule b rules) = built_network_rules b
  ∧ built_host_executables (foldl add_rule b rules) = built_host_executables b
  ∧ pending_example_validations (foldl add_rule b rules) = pending_example_validations b.
Proof. revert b. induction rules as [|rule rules IH]; intros b; [done|]. simpl. apply (IH (add_rule b rule)). Qed.

(** What a builder keeps: rules are under their programs, and the rules of every
    call that waits for its examples are among them. *)
Definition builder_ok (b : PolicyBuilder) : Prop :=
  keyed (built_rules b)
  ∧ ∀ v rule, v ∈ pending_example_validations b → rule ∈ pending_rules v → rule ∈ default [] (built_rules b !! program rule).

Lemma run_call_pending b call b' :
  run_call home_dir current_dir b call = Ok b' →
  (∀ p, sublist (default [] (built_rules b !! p)) (default [] (built_rules b' !! p)))
  ∧ (keyed (built_rules b) → keyed (built_rules b'))
  ∧ ∃ new, pending_example_validations b' = pending_example_validations b ++ new
    ∧ ∀ v rule, v ∈ new → rule ∈ pending_rules v → rule ∈ default [] (built_rules b' !! program rule).
Proof.
  destruct call as [[pattern dec ms nms just|h pr dec just|name paths] location]; simpl.
  - unfold prefix_rule. intros (d & _ & (j & _ & (tokens & _ & (ms' & _ & (nms' & _ & Hb)%bind_Ok)%bind_Ok)%bind_Ok)%bind_Ok)%bind_Ok.
    destruct tokens as [|first_token rest]; [done|]. injection Hb as <-.
    set (rules := _ <$> alternatives first_token). set (v := MkPendingExampleValidation _ _ _ _).
    destruct (add_rules_built (add_pending_example_validation b v) rules) as (Hr & _ & _ & Hp). rewrite Hr Hp. simpl.
    split; [|split].
    + intros p. rewrite insert_rules_by_program. by apply sublist_inserts_r.
    + intros Hk p rule. rewrite insert_rules_by_program elem_of_app list_elem_of_filter. intros [?|[? _]]; [by apply Hk|done].
    + exists [v]. split; [done|]. intros v' rule ->%list_elem_of_singleton Hrule. rewrite insert_rules_by_program.
      apply elem_of_app. right. by apply list_elem_of_filter.
  - unfold network_rule. intros (? & _ & (? & _ & (? & _ & (? & _ & [= <-])%bind_Ok)%bind_Ok)%bind_Ok)%bind_Ok. simpl.
    split; [done|]. split; [done|]. exists []. rewrite app_nil_r. split; [done|set_solver].
  - unfold host_executable. intros (? & _ & (? & _ & [= <-])%bind_Ok)%bind_Ok. simpl.
    split; [done|]. split; [done|]. exists []. rewrite app_nil_r. split; [done|set_solver].
Qed.

Lemma run_calls_ok b calls :
  builder_ok b →
  let b' := (run_calls home_dir current_dir b calls).1 in
  builder_ok b' ∧ ∃ new, pending_example_validations b' = pending_example_validations b ++ new.
Proof.
  revert b. induction calls as [|call calls IH]; intros b Hb; simpl; [split; [done|]; by exists []; rewrite app_nil_r|].
  destruct (run_call home_dir current_dir b call) as [b1|e] eqn:Hcall; [|split; [done|]; by exists []; rewrite app_nil_r].
  apply run_call_pending in Hcall as (Hsub & Hkeyed & new1 & Hp1 & Hnew1).
  destruct (IH b1) as [Hok (new2 & Hp2)].
  - destruct Hb as [Hk Hv]. split; [by apply Hkeyed|]. intros v rule. rewrite Hp1 elem_of_app. intros [Hv'|Hv'] Hrule; [|by eapply Hnew1].
    eapply elem_of_sublist; [|apply Hsub]. by eapply Hv.
  - split; [done|]. exists (new1 ++ new2). by rewrite Hp2 Hp1 app_assoc.
Qed.

(** ** Examples *)

Lemma call_policy_rules b rules p :
  default [] (rules_by_program (call_policy b rules) !! p) = filter (λ rule, program rule = p) rules.
Proof. unfold call_policy. simpl. by rewrite insert_rules_by_program lookup_empty. Qed.

(** The matches without heuristics. *)
Lemma example_matches_eq policy cmd :
  example_matches home_dir current_dir policy cmd
  = if negb (is_empty (applicable policy cmd)) then applicable policy cmd
    else match_host_executable_rules home_dir current_dir policy cmd.
Proof.
  unfold example_matches, matches_for_command_with_options. rewrite -match_exact_applicable. simpl. unfold non_empty.
  generalize (match_host_executable_rules home_dir current_dir policy cmd) as h. intros h.
  destruct (match_exact_rules policy cmd) as [[|m l]|], h; done.
Qed.

(** With more rules and the same paths a command that matched still matches. *)
Lemma more_rules_match policy policy' cmd :
  (∀ p, default [] (rules_by_program policy !! p) ⊆ default [] (rules_by_program policy' !! p)) →
  host_executables_by_name policy' = host_executables_by_name policy →
  example_matches home_dir current_dir policy cmd ≠ [] → example_matches home_dir current_dir policy' cmd ≠ [].
Proof.
  intros Hsub Hhosts. rewrite !example_matches_eq.
  assert (∀ p cmd (f : RuleMatch → RuleMatch), f <$> omap (λ rule, rule_matches rule cmd) (default [] (rules_by_program policy !! p)) ≠ [] →
    f <$> omap (λ rule, rule_matches rule cmd) (default [] (rules_by_program policy' !! p)) ≠ []) as Hmono.
  { intros p cmd' f Hne Hnil. apply fmap_nil_inv in Hnil. destruct (omap _ (default [] (rules_by_program policy !! p))) as [|m l] eqn:Hl; [done|].
    assert (m ∈ omap (λ rule, rule_matches rule cmd') (default [] (rules_by_program policy !! p))) as (rule & Hr & Hm)%list_elem_of_omap
      by (rewrite Hl; by apply elem_of_cons; left).
    apply (not_elem_of_nil m). rewrite -Hnil. apply list_elem_of_omap. exists rule. split; [by apply Hsub|done]. }
  assert (applicable policy cmd ≠ [] → applicable policy' cmd ≠ []) as Happ.
  { unfold applicable. destruct (head cmd) as [first|]; [|done]. intros H. specialize (Hmono first cmd id). rewrite !list_fmap_id in Hmono. by apply Hmono. }
  destruct (is_empty (applicable policy' cmd)) eqn:He'; simpl; [|intros _; by apply is_empty_false].
  apply is_empty_true in He'. destruct (is_empty (applicable policy cmd)) eqn:He; simpl; [|apply is_empty_false in He; by apply Happ in He].
  unfold match_host_executable_rules. destruct cmd as [|text args]; [done|].
  destruct (from_absolute_path home_dir current_dir text) as [path|]; [|done]. destruct (executable_path_lookup_key path) as [name|]; [|done].
  rewrite Hhosts. specialize (Hmono name (name :: args) (λ m, with_resolved_program m path)).
  destruct (rules_by_program policy !! name) as [rules|]; [|done].
  destruct (match host_executables_by_name policy !! name with Some _ => _ | None => _ end); [by destruct (rules_by_program policy' !! name)|].
  destruct (rules_by_program policy' !! name) as [rules'|]; [exact Hmono|]. intros Hne. by apply Hmono in Hne.
Qed.

Lemma validate_match_Ok policy rules ms :
  validate_match_examples home_dir current_dir policy rules ms = Ok tt → ∀ e, e ∈ ms → example_matches home_dir current_dir policy e ≠ [].
Proof.
  unfold validate_match_examples. destruct (filter _ ms) as [|x l] eqn:Hf; [|done]. intros _ e He Hnil.
  apply (filter_nil_not_elem_of _ _ e Hf) in He; [done|]. by rewrite Hnil.
Qed.

Lemma validate_not_match_Ok policy nms :
  validate_not_match_examples home_dir current_dir policy nms = Ok tt → ∀ e, e ∈ nms → example_matches home_dir current_dir policy e = [].
Proof.
  induction nms as [|x nms IH]; simpl; [set_solver|]. destruct (example_matches home_dir current_dir policy x) eqn:Hx; [|done].
  intros H e [->|He]%elem_of_cons; [done|by apply IH].
Qed.

Lemma validate_examples_Ok b vs :
  validate_examples home_dir current_dir b vs = Ok tt →
  ∀ v, v ∈ vs →
    (∀ e, e ∈ pending_matches v → example_matches home_dir current_dir (call_policy b (pending_rules v)) e ≠ [])
    ∧ ∀ e, e ∈ pending_not_matches v → example_matches home_dir current_dir (call_policy b (pending_rules v)) e = [].
Proof.
  induction vs as [|x vs IH]; simpl; [set_solver|]. intros ([] & Hn%map_err_Ok & ([] & Hm%map_err_Ok & H)%bind_Ok)%bind_Ok v.
  rewrite elem_of_cons. intros [->|Hv]; [|by apply IH]. split; [by eapply validate_match_Ok|by eapply validate_not_match_Ok].
Qed.

(** When a policy file is read without an error, the rules of each of its calls
    match what the call says they match and nothing it says they do not; and the
    policy that is built matches the former too, whatever other rules it has.
    Rules are under their programs. *)
Theorem parsed_examples_hold b identifier contents b' :
  builder_ok b → parse home_dir current_dir b identifier contents = (b', Ok tt) →
  builder_ok b'
  ∧ ∃ new, pending_example_validations b' = pending_example_validations b ++ new
    ∧ ∀ v, v ∈ new →
        (∀ e, e ∈ pending_matches v → example_matches home_dir current_dir (call_policy b' (pending_rules v)) e ≠ []
                                      ∧ example_matches home_dir current_dir (build b') e ≠ [])
        ∧ ∀ e, e ∈ pending_not_matches v → example_matches home_dir current_dir (call_policy b' (pending_rules v)) e = [].
Proof.
  intros Hb. unfold parse. destruct (eval_module identifier contents) as [calls error].
  destruct (run_calls_ok b calls Hb) as [Hok (new & Hnew)].
  destruct (run_calls home_dir current_dir b calls) as [b1 [[]|e]] eqn:Hrun; [|done]. simpl in Hok, Hnew.
  destruct error as [span|]; [done|]. intros [= <- Hval]. split; [done|]. exists new. split; [done|]. intros v Hv.
  unfold validate_pending_examples_from in Hval. rewrite Hnew drop_app_length in Hval.
  destruct (validate_examples_Ok b1 new Hval v Hv) as [Hm Hn]. split; [|done]. intros e He. specialize (Hm e He). split; [done|].
  eapply more_rules_match; [| |exact Hm]; [|done]. intros p rule. rewrite call_policy_rules. intros [<- Hrule]%list_elem_of_filter.
  apply Hok with v; [|done]. rewrite Hnew. set_solver.
Qed.
End soundness.

(** ** Witnesses *)

(** A file with two calls: a rule with examples, and the paths of its program. *)
Definition two_calls : PolicyLibraries := {|
  eval_module := λ _ _,
    ([(CallPrefixRule [SString (lit "git"); SList [SString (lit "status"); SString (lit "diff")]] None
         (Some [SList [SString (lit "/usr/bin/git"); SString (lit "diff")]]) (Some [SList [SString (lit "git"); SString (lit "push")]]) None, None);
      (CallHostExecutable (lit "git") [SString (lit "/usr/bin/git")], None)], None);
  shlex_split := λ s, Some [s];
  shlex_try_join := λ _, None;
  debug_rule := λ _, [];
  debug_match := λ _, []
|}.
Definition two_calls_parsed : PolicyBuilder := (parse (PL := two_calls) None (Ok (lit "/work")) builder_new (lit "default.rules") []).1.

Lemma parsed_examples_hold_witness :
  parse (PL := two_calls) None (Ok (lit "/work")) builder_new (lit "default.rules") [] = (two_calls_parsed, Ok tt)
  ∧ builder_ok two_calls_parsed
  ∧ ∃ new, pending_example_validations two_calls_parsed = pending_example_validations builder_new ++ new
    ∧ ∀ v, v ∈ new →
        (∀ e, e ∈ pending_matches v → example_matches None (Ok (lit "/work")) (call_policy two_calls_parsed (pending_rules v)) e ≠ []
                                      ∧ example_matches None (Ok (lit "/work")) (build two_calls_parsed) e ≠ [])
        ∧ ∀ e, e ∈ pending_not_matches v → example_matches None (Ok (lit "/work")) (call_policy two_calls_parsed (pending_rules v)) e = [].
Proof.
  assert (parse (PL := two_calls) None (Ok (lit "/work")) builder_new (lit "default.rules") [] = (two_calls_parsed, Ok tt)) as Hp
    by (vm_compute; reflexivity).
  split; [exact Hp|]. apply (parsed_examples_hold (PL := two_calls) None (Ok (lit "/work")) builder_new (lit "default.rules") []); [|exact Hp].
  split; [|intros v rule Hv; by apply elem_of_nil in Hv].
  intros p rule Hr. unfold builder_new in Hr. simpl in Hr. rewrite lookup_empty in Hr. by apply elem_of_nil in Hr.
Defined.
