(* ===== verification/ShellScripts.v ===== *)
(** Scripts of POSIX shells: [codex-rs/shell-command/src/bash.rs] and
    [shell_detect.rs]. The parser of scripts is tree-sitter with its grammar of
    bash; the class [TreeSitter] is what the code asks of it. *)
From S2P Require Import Prelude Paths.
#[local] Open Scope nat_scope.

(** ** [shell_detect.rs] *)

Inductive ShellType : Type := Zsh | Bash | PowerShell | Sh | Cmd.
#[export] Instance ShellType_eq_dec : EqDecision ShellType.
Proof. solve_decision. Defined.

Definition shell_of_name (shell_path : str) : option ShellType :=
  if shell_path =s? "zsh" then Some Zsh
  else if shell_path =s? "sh" then Some Sh
  else if shell_path =s? "cmd" then Some Cmd
  else if shell_path =s? "bash" then Some Bash
  else if shell_path =s? "pwsh" then Some PowerShell
  else if shell_path =s? "powershell" then Some PowerShell
  else None.

(** A call per extension; [None] outside: out of fuel. *)
Fixpoint detect_shell_loop (fuel : nat) (shell_path : str) : option (option ShellType) :=
  match fuel with
  | O => None
  | S fuel =>
      match shell_of_name shell_path with
      | Some t => Some (Some t)
      | None =>
          match file_stem shell_path with
          | Some shell_name => if path_eq shell_name shell_path then Some None else detect_shell_loop fuel shell_name
          | None => Some None
          end
      end
  end.
Definition detect_shell_type (shell_path : str) : option ShellType :=
  default None (detect_shell_loop (S (length shell_path)) shell_path).

(** ** The trees of tree-sitter *)

(** A node knows its text only with the source; [descendant_count] includes the
    node itself, and so goes down from a node to its children. *)
Class TreeSitter := {
  Node : Type;
  kind : Node → str;
  is_named : Node → bool;
  has_error : Node → bool;
  start_byte : Node → nat;
  utf8_text : Node → str → option str;
  children : Node → list Node;
  descendant_count : Node → nat;
  descendant_count_spec n : descendant_count n = S (sum_list (descendant_count <$> children n));
  parse_bash : str → option Node
}.

Section scripts.
Context {TS : TreeSitter}.

Definition named_children (n : Node) : list Node := filter (λ c, is_named c = true) (children n).
Definition named_child (n : Node) (i : nat) : option Node := named_children n !! i.
Definition child_of (n c : Node) : Prop := c ∈ children n.

(** A loop that pops a node off a stack, looks at it, and pushes some of its
    children; looking can end the loop. [None] outside: out of fuel. *)
Fixpoint walk {R A : Type} (push : Node → list Node) (look : A → Node → R + A) (fuel : nat) (stack : list Node) (acc : A) :
    option (R + A) :=
  match stack with
  | [] => Some (inr acc)
  | node :: stack =>
      match fuel with
      | O => None
      | S fuel =>
          match look acc node with
          | inl r => Some (inl r)
          | inr acc => walk push look fuel (reverse (push node) ++ stack) acc
          end
      end
  end.

(** ** Words *)

Definition ch_quote : char := 34%N.
Definition ch_apostrophe : char := 39%N.

Definition unquote (c : char) (raw : str) : option str := text ← strip_prefix [c] raw; strip_suffix [c] text.

Definition parse_double_quoted_string (node : Node) (src : str) : option str :=
  if negb (kind node =s? "string") then None
  else if existsb (λ part, negb (kind part =s? "string_content")) (named_children node) then None
  else raw ← utf8_text node src; unquote ch_quote raw.

Definition parse_raw_string (node : Node) (src : str) : option str :=
  if negb (kind node =s? "raw_string") then None
  else raw_string ← utf8_text node src; unquote ch_apostrophe raw_string.

(** A part of a word such as [-g"*.py"]. *)
Definition parse_concatenated (src : str) (part : Node) : option str :=
  if (kind part =s? "word") || (kind part =s? "number") then utf8_text part src
  else if kind part =s? "string" then parse_double_quoted_string part src
  else if kind part =s? "raw_string" then parse_raw_string part src
  else None.

Definition parse_plain_word (src : str) (child : Node) : option str :=
  if kind child =s? "command_name" then
    word_node ← named_child child 0;
    if kind word_node =s? "word" then utf8_text word_node src else None
  else if (kind child =s? "word") || (kind child =s? "number") then utf8_text child src
  else if kind child =s? "string" then parse_double_quoted_string child src
  else if kind child =s? "raw_string" then parse_raw_string child src
  else if kind child =s? "concatenation" then
    parts ← mapM (parse_concatenated src) (named_children child);
    if is_empty (concat parts) then None else Some (concat parts)
  else None.

Definition parse_plain_command_from_node (src : str) (cmd : Node) : option (list str) :=
  if negb (kind cmd =s? "command") then None else mapM (parse_plain_word src) (named_children cmd).

(** ** Scripts of plain commands *)

Definition ALLOWED_KINDS : list str :=
  map lit ["program"; "list"; "pipeline"; "command"; "command_name"; "word"; "string"; "string_content"; "raw_string";
           "number"; "concatenation"].
Definition ALLOWED_PUNCT_TOKENS : list str := lit "&&" :: lit "||" :: lit ";" :: lit "|" :: [ch_quote] :: [[ch_apostrophe]].

Definition mem (x : str) (l : list str) : bool := existsb (str_eqb x) l.
#[global] Arguments mem x l : simpl never.

Definition look_plain (command_nodes : list Node) (node : Node) : unit + list Node :=
  let k := kind node in
  if is_named node then
    if negb (mem k ALLOWED_KINDS) then inl tt
    else inr (if k =s? "command" then command_nodes ++ [node] else command_nodes)
  else if existsb (λ c, contains_char c "&;|") k && negb (mem k ALLOWED_PUNCT_TOKENS) then inl tt
  else if negb (mem k ALLOWED_PUNCT_TOKENS || is_empty (trim k)) then inl tt
  else inr command_nodes.

Definition starts_before (a b : Node) : bool := start_byte a <=? start_byte b.

Definition try_parse_word_only_commands_sequence (root : Node) (src : str) : option (list (list str)) :=
  if has_error root then None
  else
    match walk children look_plain (descendant_count root) [root] [] with
    | Some (inr command_nodes) => mapM (parse_plain_command_from_node src) (sort_by starts_before command_nodes)
    | _ => None
    end.

Definition extract_bash_command (command : list str) : option (str * str) :=
  match command with
  | [shell; flag; script] =>
      if negb ((flag =s? "-lc") || (flag =s? "-c"))
         || negb (match detect_shell_type shell with Some Zsh | Some Bash | Some Sh => true | _ => false end)
      then None else Some (shell, script)
  | _ => None
  end.

Definition parse_shell_lc_plain_commands (command : list str) : option (list (list str)) :=
  '(_, script) ← extract_bash_command command;
  tree ← parse_bash script;
  try_parse_word_only_commands_sequence tree script.

(** ** Scripts with a here document *)

Definition has_named_descendant_kind (node : Node) (k : str) : bool :=
  match walk named_children (λ _ current, if kind current =s? k then inl tt else inr tt) (descendant_count node) [node] tt with
  | Some (inl _) => true
  | _ => false
  end.

Definition look_single (single_command : option Node) (node : Node) : unit + option Node :=
  if kind node =s? "command" then
    match single_command with Some _ => inl tt | None => inr (Some node) end
  else inr single_command.
Definition find_single_command_node (root : Node) : option Node :=
  match walk named_children look_single (descendant_count root) [root] None with
  | Some (inr single_command) => single_command
  | _ => None
  end.

Definition is_literal_word_or_number (node : Node) : bool :=
  if negb ((kind node =s? "word") || (kind node =s? "number")) then false else is_empty (named_children node).

Definition is_allowed_heredoc_attachment_kind (k : str) : bool :=
  mem k (map lit ["heredoc_body"; "simple_heredoc_body"; "heredoc_redirect"; "herestring_redirect"; "file_redirect";
                  "redirected_statement"]).

(** What a child of the command adds to its words: nothing or a word. *)
Definition parse_heredoc_child (src : str) (child : Node) : option (option str) :=
  if kind child =s? "command_name" then
    word_node ← named_child child 0;
    if negb ((kind word_node =s? "word") || (kind word_node =s? "number")) || negb (is_literal_word_or_number word_node) then None
    else Some <$> utf8_text word_node src
  else if (kind child =s? "word") || (kind child =s? "number") then
    if negb (is_literal_word_or_number child) then None else Some <$> utf8_text child src
  else if (kind child =s? "variable_assignment") || (kind child =s? "comment") then Some None
  else if is_allowed_heredoc_attachment_kind (kind child) then Some None
  else None.

Definition parse_heredoc_command_words (src : str) (cmd : Node) : option (list str) :=
  if negb (kind cmd =s? "command") then None
  else
    found ← mapM (parse_heredoc_child src) (named_children cmd);
    let words := omap id found in
    if is_empty words then None else Some words.

Definition parse_shell_lc_single_command_prefix (command : list str) : option (list str) :=
  '(_, script) ← extract_bash_command command;
  root ← parse_bash script;
  if has_error root then None
  else if negb (has_named_descendant_kind root "heredoc_redirect") then None
  else
    command_node ← find_single_command_node root;
    parse_heredoc_command_words script command_node.

(** ** Walks visit every node *)

(** The nodes of a tree from left to right, those [push] leads to. *)
Fixpoint preorder (push : Node → list Node) (fuel : nat) (n : Node) : list Node :=
  match fuel with O => [] | S fuel => n :: (c ← push n; preorder push fuel c) end.
Definition all_nodes (n : Node) : list Node := preorder children (descendant_count n) n.
Definition all_named (n : Node) : list Node := preorder named_children (descendant_count n) n.
End scripts.

(** ** Stems get shorter *)

Lemma split_on_infix c s p : p ∈ split_on c s → ∃ a b, s = a ++ p ++ b.
Proof.
  revert p. induction s as [|d s IH]; intros p; simpl.
  - intros ->%list_elem_of_singleton. by exists [], [].
  - destruct (c =? d)%N.
    + intros [->|Hp]%elem_of_cons; [by exists [], (d :: s)|]. destruct (IH p Hp) as (a & b & ->). by exists (d :: a), b.
    + destruct (split_on c s) as [|q qs] eqn:Hs.
      * by destruct (split_on_not_nil c s).
      * intros [->|Hp]%elem_of_cons.
        -- pose proof (join_split_on c s) as Hj. rewrite Hs in Hj. destruct qs as [|r qs]; simpl in Hj; subst s.
           ++ exists [], []. by rewrite app_nil_r.
           ++ by exists [], ([c] ++ join [c] (r :: qs)).
        -- destruct (IH p) as (a & b & ->); [by apply elem_of_cons; right|]. by exists (d :: a), b.
Qed.

Lemma normal_component p n : Normal n ∈ components p → n ∈ split_on ch_slash p.
Proof.
  assert (∀ ps, Normal n ∈ piece_components ps → n ∈ ps) as Hpieces.
  { intros ps Hn. apply list_elem_of_omap in Hn as (q & Hq & Hc).
    destruct (_ || _); [done|]. injection Hc. unfold classify. case_match; [done|]. by intros [= <-]. }
  unfold components. intros Hn. destruct (starts_with [ch_slash] p).
  - apply elem_of_cons in Hn as [?|Hn]; [done|]. by apply Hpieces.
  - destruct (split_on ch_slash p) as [|d r]; [by apply elem_of_nil in Hn|].
    destruct (d =s? "."); [|by apply Hpieces]. apply elem_of_cons in Hn as [?|Hn]; [done|].
    apply elem_of_cons. right. by apply Hpieces.
Qed.

Lemma file_stem_infix p q : file_stem p = Some q → ∃ a b, p = a ++ q ++ b.
Proof.
  unfold file_stem, file_name. destruct (last (components p)) as [[| | |n]|] eqn:Hl; try done. intros [= <-].
  apply last_Some_elem_of, normal_component, split_on_infix in Hl as (a & b & ->).
  unfold split_extension. destruct (rsplit_once ch_dot n) as [[x y]|] eqn:Hs; [|by exists a, b].
  destruct (is_empty x); [by exists a, b|]. apply rsplit_once_Some in Hs as ->. simpl.
  exists a, ((ch_dot :: y) ++ b). by rewrite -!app_assoc.
Qed.

Lemma file_stem_shorter p q : file_stem p = Some q → path_eq q p = false → length q < length p.
Proof.
  intros (a & b & Hp)%file_stem_infix Hne. subst p. rewrite !length_app.
  destruct a as [|x a]; [|simpl; lia]. destruct b as [|x b]; [|simpl; lia].
  rewrite app_nil_r /= in Hne. unfold path_eq in Hne. by rewrite bool_decide_eq_true_2 in Hne.
Qed.

(** The names a shell is looked for under: a path, and stem after stem. *)
Definition stem_of (p q : str) : Prop := file_stem p = Some q ∧ path_eq q p = false.

Lemma shell_name_stem p t q : shell_of_name p = Some t → ¬ stem_of p q.
Proof.
  unfold shell_of_name. intros Hs [Hq Hne].
  repeat (case_match; [match goal with H : (p =s? _) = true |- _ => apply str_eqb_eq in H; subst p end; vm_compute in Hq;
    injection Hq as <-; by vm_compute in Hne|]). done.
Qed.

Lemma detect_shell_loop_spec fuel p :
  length p < fuel →
  ∃ r, detect_shell_loop fuel p = Some r ∧ ∀ t, r = Some t ↔ ∃ q, rtc stem_of p q ∧ shell_of_name q = Some t.
Proof.
  revert p. induction fuel as [|fuel IH]; intros p Hlen; [lia|]. simpl.
  destruct (shell_of_name p) as [t|] eqn:Hp.
  - exists (Some t). split; [done|]. intros t'. split.
    + intros [= <-]. by exists p.
    + intros (q & [<-|(x & Hx & _)]%rtc_inv & Hq); [congruence|]. by destruct (shell_name_stem p t x).
  - destruct (file_stem p) as [n|] eqn:Hn.
    + destruct (path_eq n p) eqn:Hne.
      * exists None. split; [done|]. intros t. split; [done|]. intros (q & Hr & Hq).
        apply rtc_inv in Hr as [<-|(x & [Hx Hxp] & _)]; congruence.
      * destruct (IH n) as (r & Hr & Hspec); [by apply file_stem_shorter in Hn; [lia|]|].
        exists r. split; [done|]. intros t. rewrite Hspec. split.
        -- intros (q & Hrt & Hq). exists q. split; [|done]. by apply rtc_l with n.
        -- intros (q & Hrt & Hq). apply rtc_inv in Hrt as [<-|(x & [Hx _] & Hrt)]; [congruence|].
           exists q. split; [|done]. congruence.
    + exists None. split; [done|]. intros t. split; [done|]. intros (q & Hr & Hq).
      apply rtc_inv in Hr as [<-|(x & [Hx _] & _)]; congruence.
Qed.

(** A shell is recognised by its file name, whatever extensions it has: the type
    is the one of the first of its stems that names a shell, and the search ends. *)
Theorem shell_named_by_a_stem p :
  detect_shell_loop (S (length p)) p ≠ None
  ∧ ∀ t, detect_shell_type p = Some t ↔ ∃ q, rtc stem_of p q ∧ shell_of_name q = Some t.
Proof.
  unfold detect_shell_type. destruct (detect_shell_loop_spec (S (length p)) p) as (r & -> & Hr); [lia|]. done.
Qed.

(** ** What a walk sees *)

Section walks.
Context {TS : TreeSitter} {R A : Type} (push : Node → list Node).
Hypothesis push_smaller : ∀ n, sum_list (descendant_count <$> push n) < descendant_count n.

(** The nodes under a node in the order a stack gives them: from right to left. *)
Fixpoint visits (fuel : nat) (n : Node) : list Node :=
  match fuel with O => [] | S fuel => n :: (c ← reverse (push n); visits fuel c) end.
Definition stack_visits (stack : list Node) : list Node := n ← stack; visits (descendant_count n) n.

Lemma count_member c l : c ∈ l → descendant_count c ≤ sum_list (descendant_count <$> l).
Proof. induction l as [|x l IH]; [by intros ?%elem_of_nil|]. intros [->|Hc]%elem_of_cons; csimpl; [lia|]. specialize (IH Hc). lia. Qed.

Lemma pushed_count n c : c ∈ push n → descendant_count c < descendant_count n.
Proof. intros Hc%count_member. specialize (push_smaller n). lia. Qed.

Lemma bind_ext_in {B} (f g : Node → list B) l : (∀ c, c ∈ l → f c = g c) → (c ← l; f c) = (c ← l; g c).
Proof.
  induction l as [|x l IH]; [done|]. intros H. cbn [mbind list_bind]. assert (f x = g x) as -> by (apply H, elem_of_cons; by left). f_equal.
  apply IH. intros c Hc. apply H, elem_of_cons. by right.
Qed.

Lemma visits_enough f f' n : descendant_count n ≤ f → descendant_count n ≤ f' → visits f n = visits f' n.
Proof.
  revert f' n. induction f as [|f IH]; intros f' n Hf Hf'; [specialize (push_smaller n); lia|].
  destruct f' as [|f']; [specialize (push_smaller n); lia|]. simpl. f_equal. apply bind_ext_in.
  intros c Hc%elem_of_reverse%pushed_count. apply IH; lia.
Qed.

Lemma preorder_enough f f' n :
  descendant_count n ≤ f → descendant_count n ≤ f' → preorder push f n = preorder push f' n.
Proof.
  revert f' n. induction f as [|f IH]; intros f' n Hf Hf'; [specialize (push_smaller n); lia|].
  destruct f' as [|f']; [specialize (push_smaller n); lia|]. simpl. f_equal. apply bind_ext_in.
  intros c Hc%pushed_count. apply IH; lia.
Qed.

Lemma bind_perm {B} (f g : Node → list B) l l' :
  l ≡ₚ l' → (∀ c, f c ≡ₚ g c) → (c ← l; f c) ≡ₚ (c ← l'; g c).
Proof.
  intros Hl Hfg. transitivity (c ← l'; f c); [by rewrite Hl|]. clear Hl.
  induction l' as [|x l' IH]; [done|]. cbn [mbind list_bind]. by rewrite Hfg IH.
Qed.

Lemma visits_perm f n : visits f n ≡ₚ preorder push f n.
Proof.
  revert n. induction f as [|f IH]; intros n; [done|]. simpl. constructor. apply bind_perm; [apply reverse_Permutation|apply IH].
Qed.

(** The loop over the nodes in the order they are visited. *)
Fixpoint looks (look : A → Node → R + A) (acc : A) (l : list Node) : R + A :=
  match l with
  | [] => inr acc
  | n :: l => match look acc n with inl r => inl r | inr acc => looks look acc l end
  end.

Lemma walk_visits look fuel stack acc :
  sum_list (descendant_count <$> stack) ≤ fuel →
  walk push look fuel stack acc = Some (looks look acc (stack_visits stack)).
Proof.
  revert stack acc. induction fuel as [|fuel IH]; intros [|n stack] acc Hf; try done.
  - csimpl in Hf. specialize (push_smaller n). lia.
  - csimpl in Hf. assert (∃ k, descendant_count n = S k) as [k Hk] by (specialize (push_smaller n); destruct (descendant_count n); [lia|eauto]).
    assert (stack_visits (n :: stack) = n :: stack_visits (reverse (push n) ++ stack)) as ->.
    { unfold stack_visits. rewrite bind_app. cbn [mbind list_bind]. rewrite Hk /=. do 2 f_equal. apply bind_ext_in.
      intros c Hc%elem_of_reverse%pushed_count. apply visits_enough; lia. }
    simpl. destruct (look acc n) as [r|acc']; [done|]. apply IH.
    specialize (push_smaller n). rewrite fmap_app sum_list_with_app. rewrite fmap_reverse sum_list_with_reverse. lia.
Qed.

Lemma walk_tree look root acc :
  ∃ l, l ≡ₚ preorder push (descendant_count root) root
    ∧ walk push look (descendant_count root) [root] acc = Some (looks look acc l).
Proof.
  exists (visits (descendant_count root) root). split; [apply visits_perm|].
  rewrite walk_visits; [csimpl; lia|]. unfold stack_visits. cbn [mbind list_bind]. by rewrite app_nil_r.
Qed.
End walks.

(** ** Scripts *)

Section reading.
Context {TS : TreeSitter}.

Definition is_command (n : Node) : bool := is_named n && (kind n =s? "command").

(** A node that a script of plain commands may have. *)
Definition acceptable (n : Node) : bool :=
  if is_named n then mem (kind n) ALLOWED_KINDS else mem (kind n) ALLOWED_PUNCT_TOKENS || is_empty (trim (kind n)).

Lemma children_smaller n : sum_list (descendant_count <$> children n) < descendant_count n.
Proof. rewrite (descendant_count_spec n). lia. Qed.

Lemma named_children_smaller n : sum_list (descendant_count <$> named_children n) < descendant_count n.
Proof.
  pose proof (children_smaller n) as H. unfold named_children.
  assert (∀ l, sum_list (descendant_count <$> filter (λ c, is_named c = true) l) ≤ sum_list (descendant_count <$> l)) as Hl.
  { induction l as [|x l IH]; [done|]. rewrite filter_cons. case_decide; csimpl; lia. }
  specialize (Hl (children n)). lia.
Qed.

Lemma operator_not_blank k : existsb (λ c, contains_char c "&;|") k = true → is_empty (trim k) = false.
Proof.
  intros (c & Hin%list_elem_of_In & Hc)%existsb_exists. apply is_empty_false. intros Hk.
  assert (Forall (λ c, is_whitespace c = true) k) as Hws by (by apply trim_nil_iff).
  rewrite Forall_forall in Hws. specialize (Hws c Hin). unfold contains_char in Hc.
  apply existsb_exists in Hc as (d & [<-|[<-|[<-|[]]]] & ->%N.eqb_eq); by vm_compute in Hws.
Qed.

Lemma look_plain_spec acc n :
  look_plain acc n = if acceptable n then inr (if is_command n then acc ++ [n] else acc) else inl tt.
Proof.
  unfold look_plain, acceptable, is_command. destruct (is_named n); cbn [andb].
  - by destruct (mem (kind n) ALLOWED_KINDS).
  - set (blank := is_empty _). set (ok := mem _ _).
    destruct (existsb _ (kind n)) eqn:Hop; [|by destruct ok, blank].
    assert (blank = false) as -> by (by apply operator_not_blank). by destruct ok.
Qed.

Lemma looks_plain acc l :
  looks look_plain acc l = if forallb acceptable l then inr (acc ++ filter (λ n, is_command n = true) l) else inl tt.
Proof.
  revert acc. induction l as [|n l IH]; intros acc; cbn [looks forallb]; [by rewrite app_nil_r|].
  rewrite look_plain_spec. destruct (acceptable n); [|done]. rewrite IH filter_cons. simpl. destruct (forallb _ _); [|done].
  destruct (is_command n); simpl; [by rewrite -app_assoc|done].
Qed.

Lemma forallb_perm {A} (f : A → bool) l l' : l ≡ₚ l' → forallb f l = forallb f l'.
Proof. induction 1; simpl; [done|congruence|by destruct (f x), (f y)|congruence]. Qed.

Lemma strictly_sorted_inj l a b :
  StronglySorted (λ a b, start_byte a < start_byte b) l → a ∈ l → b ∈ l → start_byte a = start_byte b → a = b.
Proof.
  induction 1 as [|x l Hl IH Hx]; intros Ha Hb Heq; [by apply elem_of_nil in Ha|]. rewrite Forall_forall in Hx.
  apply elem_of_cons in Ha as [->|Ha], Hb as [->|Hb]; [done| | |by apply IH].
  - specialize (Hx b Hb). lia.
  - specialize (Hx a Ha). lia.
Qed.

Lemma sort_starts l l' :
  l ≡ₚ l' → StronglySorted (λ a b, start_byte a < start_byte b) l' → sort_by starts_before l = l'.
Proof.
  intros Hp Hl'. apply (StronglySorted_unique_strong (λ a b, starts_before a b = true)).
  - unfold starts_before. intros a b Ha Hb Hab%Nat.leb_le Hba%Nat.leb_le. rewrite sort_by_perm Hp in Ha. eapply strictly_sorted_inj; [done..|]. lia.
  - apply Sorted_StronglySorted; [intros a b c; unfold starts_before; rewrite !Nat.leb_le; lia|]. apply sort_by_Sorted.
    intros a b. unfold starts_before. rewrite !Nat.leb_le. lia.
  - clear Hp. induction Hl' as [|x r _ IH Hx]; [constructor|]. constructor; [done|]. eapply Forall_impl; [exact Hx|]. simpl. intros y Hy.
    apply Nat.leb_le. lia.
  - by rewrite sort_by_perm.
Qed.

(** *** Here documents *)

Lemma looks_has (k : str) (l : list Node) :
  looks (λ (_ : ()) current, if kind current =s? k then inl tt else inr tt) tt l
  = if existsb (λ n, kind n =s? k) l then inl tt else inr tt.
Proof. induction l as [|n l IH]; simpl; [done|]. by destruct (kind n =s? k). Qed.

Lemma looks_single acc l :
  looks look_single acc l
  = match option_list acc ++ filter (λ n, (kind n =s? "command") = true) l with
    | [] => inr None
    | [n] => inr (Some n)
    | _ => inl tt
    end.
Proof.
  revert acc. induction l as [|n l IH]; intros acc; cbn [looks]; [by rewrite app_nil_r; destruct acc|].
  unfold look_single at 1. rewrite filter_cons. destruct (kind n =s? "command"); simpl; [|by rewrite IH].
  destruct acc as [m|]; [done|]. by rewrite IH.
Qed.

Lemma existsb_perm {A} (f : A → bool) l l' : l ≡ₚ l' → existsb f l = existsb f l'.
Proof. induction 1; simpl; [done|congruence|by destruct (f x), (f y)|congruence]. Qed.

Lemma has_named_descendant_spec root k :
  has_named_descendant_kind root k = existsb (λ n, kind n =s? k) (all_named root).
Proof.
  unfold has_named_descendant_kind, all_named.
  destruct (walk_tree named_children named_children_smaller (λ (_ : ()) current, if kind current =s? k then inl tt else inr tt) root tt)
    as (l & Hl & ->). rewrite looks_has -(existsb_perm _ _ _ Hl). by destruct (existsb _ _).
Qed.

Lemma single_perm {A} (l l' : list A) :
  l ≡ₚ l' → match l with [n] => Some n | _ => None end = match l' with [n] => Some n | _ => None end.
Proof.
  intros H. destruct l as [|a [|b l]], l' as [|c [|d l']]; try done; apply Permutation_length in H as Hlen; try done.
  apply Permutation_singleton_r in H. congruence.
Qed.

Lemma find_single_command_spec root :
  find_single_command_node root
  = match filter (λ n, (kind n =s? "command") = true) (all_named root) with [n] => Some n | _ => None end.
Proof.
  unfold find_single_command_node, all_named.
  destruct (walk_tree named_children named_children_smaller look_single root None) as (l & Hl & ->).
  rewrite looks_single -(single_perm _ _ (filter_Permutation _ _ _ Hl)) /=.
  by destruct (filter _ l) as [|a [|b r]].
Qed.

(** *** The two readings *)

(** A script is read off its tree: as plain commands when the tree has no error
    and only acceptable nodes, and then as the words of its commands from left to
    right; as the prefix of a command with a here document when the tree has
    exactly one command. Commands start one after the other. *)
Theorem scripts_are_read_off_the_tree command shell script root :
  extract_bash_command command = Some (shell, script) →
  parse_bash script = Some root →
  StronglySorted (λ a b, start_byte a < start_byte b) (filter (λ n, is_command n = true) (all_nodes root)) →
  parse_shell_lc_plain_commands command
  = (if has_error root || negb (forallb acceptable (all_nodes root)) then None
     else mapM (parse_plain_command_from_node script) (filter (λ n, is_command n = true) (all_nodes root)))
  ∧ parse_shell_lc_single_command_prefix command
    = if has_error root || negb (existsb (λ n, kind n =s? "heredoc_redirect") (all_named root)) then None
      else match filter (λ n, (kind n =s? "command") = true) (all_named root) with
           | [cmd] => parse_heredoc_command_words script cmd
           | _ => None
           end.
Proof.
  intros Hcmd Htree Hsorted. split.
  - unfold parse_shell_lc_plain_commands, try_parse_word_only_commands_sequence. rewrite Hcmd /= Htree /=.
    destruct (has_error root); simpl; [done|].
    destruct (walk_tree children children_smaller look_plain root []) as (l & Hl & ->).
    rewrite looks_plain (forallb_perm _ _ _ Hl) -/(all_nodes root). destruct (forallb _ _); simpl; [|done].
    by rewrite (sort_starts _ _ (filter_Permutation _ _ _ Hl) Hsorted).
  - unfold parse_shell_lc_single_command_prefix. rewrite Hcmd /= Htree /=. destruct (has_error root); simpl; [done|].
    rewrite has_named_descendant_spec. destruct (existsb _ _); simpl; [|done].
    rewrite find_single_command_spec. by destruct (filter _ (all_named root)) as [|a [|b r]].
Qed.
End reading.

(** ** A script and its tree *)

Inductive demo_node : Type := Demo (demo_kind demo_text : str) (named : bool) (start : nat) (subnodes : list demo_node).
Definition subnodes_of (n : demo_node) : list demo_node := match n with Demo _ _ _ _ cs => cs end.
Fixpoint demo_count (n : demo_node) : nat := match n with Demo _ _ _ _ cs => S (sum_list (demo_count <$> cs)) end.

Definition demo_word (start : nat) (text : str) : demo_node := Demo (lit "word") text true start [].
Definition demo_command (start : nat) (name : str) (words : list demo_node) : demo_node :=
  Demo (lit "command") [] true start (Demo (lit "command_name") name true start [demo_word start name] :: words).

(** [ls -l && find . -\delete], where a word has its backslash. *)
Definition demo_script : str := lit "ls -l && find . -\delete".
Definition demo_tree : demo_node :=
  Demo (lit "program") demo_script true 0
    [Demo (lit "list") demo_script true 0
       [demo_command 0 (lit "ls") [demo_word 3 (lit "-l")];
        Demo (lit "&&") (lit "&&") false 6 [];
        demo_command 9 (lit "find") [demo_word 14 (lit "."); demo_word 16 (lit "-\delete")]]].

Lemma demo_count_spec n : demo_count n = S (sum_list (demo_count <$> subnodes_of n)).
Proof. by destruct n. Qed.

Definition demo_trees : TreeSitter := {|
  Node := demo_node;
  kind n := match n with Demo k _ _ _ _ => k end;
  is_named n := match n with Demo _ _ b _ _ => b end;
  has_error _ := false;
  start_byte n := match n with Demo _ _ _ s _ => s end;
  utf8_text n _ := match n with Demo _ t _ _ _ => Some t end;
  children := subnodes_of;
  descendant_count := demo_count;
  descendant_count_spec := demo_count_spec;
  parse_bash s := if s =s? demo_script then Some demo_tree else None
|}.

Definition demo_commands : list (list str) :=
  [[lit "ls"; lit "-l"]; [lit "find"; lit "."; lit "-\delete"]].

Lemma scripts_are_read_off_the_tree_witness :
  parse_shell_lc_plain_commands (TS := demo_trees) [lit "/bin/bash"; lit "-lc"; demo_script] = Some demo_commands
  ∧ parse_shell_lc_single_command_prefix (TS := demo_trees) [lit "/bin/bash"; lit "-lc"; demo_script] = None.
Proof.
  assert (StronglySorted (λ a b : demo_node, @start_byte demo_trees a < @start_byte demo_trees b)
            (filter (λ n, is_command (TS := demo_trees) n = true) (all_nodes (TS := demo_trees) demo_tree))) as Hs.
  { vm_compute. repeat constructor. }
  destruct (scripts_are_read_off_the_tree (TS := demo_trees) [lit "/bin/bash"; lit "-lc"; demo_script] (lit "/bin/bash") demo_script demo_tree)
    as [H1 H2]; [vm_compute; reflexivity..|exact Hs|].
  split; [rewrite H1|rewrite H2]; vm_compute; reflexivity.
Defined.
