(* ===== verification/CommandSafety.v ===== *)
(** Commands that are known to be safe, and commands that might be dangerous:
    [codex-rs/shell-command/src/command_safety], as it is compiled for Linux
    (on other Unix systems the list of safe programs lacks [numfmt] and [tac]).
    The parser of PowerShell is a process the code starts, here a parameter. *)
From S2P Require Import Prelude Paths ShellScripts.
#[local] Open Scope nat_scope.

(** ** [is_dangerous_command.rs] *)

Definition is_git_global_option_with_value (arg : str) : bool :=
  mem arg (map lit ["-C"; "-c"; "--config-env"; "--exec-path"; "--git-dir"; "--namespace"; "--super-prefix"; "--work-tree"]).

(** The long options whose value follows an equals sign. *)
Definition inline_options : list str :=
  map lit ["--config-env="; "--exec-path="; "--git-dir="; "--namespace="; "--super-prefix="; "--work-tree="].
Definition starts_with_any (prefixes : list str) (arg : str) : bool := existsb (λ p, starts_with p arg) prefixes.

Definition is_git_global_option_with_inline_value (arg : str) : bool :=
  starts_with_any inline_options arg || ((starts_with "-C" arg || starts_with "-c" arg) && (2 <? str_len arg)).

Definition git_global_option_requires_prompt (arg : str) : bool :=
  mem arg (map lit ["-c"; "--config-env"; "--exec-path"; "--git-dir"; "--namespace"; "--super-prefix"; "--work-tree"])
  || ((starts_with "-c" arg && (2 <? str_len arg)) || starts_with_any inline_options arg).

Definition executable_name_lookup_key (raw : str) : option str := file_name raw.

(** The loop of [find_git_subcommand] from the token at [idx] on. *)
Fixpoint scan_git (subcommands : list str) (skip_next : bool) (idx : nat) (args : list str) : option (nat * str) :=
  match args with
  | [] => None
  | arg :: rest =>
      if skip_next then scan_git subcommands false (S idx) rest
      else if is_git_global_option_with_inline_value arg then scan_git subcommands false (S idx) rest
      else if is_git_global_option_with_value arg then scan_git subcommands true (S idx) rest
      else if (arg =s? "--") || starts_with "-" arg then scan_git subcommands false (S idx) rest
      else if mem arg subcommands then Some (idx, arg)
      else None
  end.
Definition find_git_subcommand (command : list str) (subcommands : list str) : option (nat * str) :=
  match command with
  | [] => None
  | cmd0 :: args =>
      if bool_decide (executable_name_lookup_key cmd0 = Some (lit "git")) then scan_git subcommands false 1 args else None
  end.

Fixpoint is_dangerous_to_call_with_exec (command : list str) : bool :=
  match command with
  | [] => false
  | cmd0 :: rest =>
      if cmd0 =s? "rm" then match rest with arg :: _ => (arg =s? "-f") || (arg =s? "-rf") | [] => false end
      else if cmd0 =s? "sudo" then is_dangerous_to_call_with_exec rest
      else false
  end.

(** ** [windows_safe_commands.rs] *)

Inductive PowershellParseOutcome : Type := Commands (commands : list (list str)) | Unsupported | Failed.

Definition quote_argument (arg : str) : str :=
  if is_empty arg then lit "''"
  else if forallb (λ ch, negb (is_whitespace ch)) arg then arg
  else lit "'" ++ (c ← arg; if (c =? ch_apostrophe)%N then lit "''" else [c]) ++ lit "'".
Definition join_arguments_as_script (args : list str) : str :=
  match args with
  | [] => []
  | first :: rest => join (lit " ") (first :: map quote_argument rest)
  end.

Definition is_powershell_executable (exe : str) : bool :=
  let executable_name := to_ascii_lowercase (default exe (file_name exe)) in
  mem executable_name (map lit ["powershell"; "powershell.exe"; "pwsh"; "pwsh.exe"]).

(** A word of PowerShell without parentheses and leading dashes, in lower case. *)
Definition bare_word (w : str) : str :=
  to_ascii_lowercase (trim_start_matches (N.eqb ch_minus) (trim_matches (λ c, (c =? 40)%N || (c =? 41)%N) w)).

Definition SIDE_EFFECTING : list str :=
  map lit ["set-content"; "add-content"; "out-file"; "new-item"; "remove-item"; "move-item"; "copy-item"; "rename-item";
           "start-process"; "stop-process"].

Definition is_safe_ripgrep (words : list str) : bool :=
  negb (existsb (λ arg,
    let arg_lc := to_ascii_lowercase arg in
    mem arg_lc (map lit ["--search-zip"; "-z"])
    || existsb (λ opt, (arg_lc =s? opt) || starts_with (opt ++ lit "=") arg_lc) (map lit ["--pre"; "--hostname-bin"])) (drop 1 words)).

Fixpoint scan_safe_git (args : list str) : bool :=
  match args with
  | [] => false
  | arg :: rest =>
      let arg_lc := to_ascii_lowercase arg in
      if starts_with "-" arg then
        if git_global_option_requires_prompt arg_lc || eq_ignore_ascii_case arg "--config" || starts_with "--config=" arg_lc then false
        else scan_safe_git rest
      else mem arg_lc (map lit ["status"; "log"; "show"; "diff"; "cat-file"])
  end.
Definition is_safe_git_command (words : list str) : bool := scan_safe_git (drop 1 words).

Definition is_safe_powershell_command (words : list str) : bool :=
  match words with
  | [] => false
  | word :: _ =>
      if existsb (λ w, mem (bare_word w) SIDE_EFFECTING) words then false
      else
        let command := bare_word word in
        if mem command (map lit ["echo"; "write-output"; "write-host"; "dir"; "ls"; "get-childitem"; "gci"; "cat"; "type"; "gc";
                                 "get-content"; "select-string"; "sls"; "findstr"; "measure-object"; "measure"; "get-location"; "gl";
                                 "pwd"; "test-path"; "tp"; "resolve-path"; "rvpa"; "select-object"; "select"; "get-item"]) then true
        else if command =s? "git" then is_safe_git_command words
        else if command =s? "rg" then is_safe_ripgrep words
        else false
  end.

Section safety.
Context {TS : TreeSitter} (parse_with_powershell_ast : str → str → PowershellParseOutcome).

Definition parse_powershell_script (executable script : str) : option (list (list str)) :=
  match parse_with_powershell_ast executable script with Commands commands => Some commands | _ => None end.

Fixpoint parse_powershell_invocation (executable : str) (args : list str) : option (list (list str)) :=
  match args with
  | [] => None
  | arg :: rest =>
      let lower := to_ascii_lowercase arg in
      if mem lower (map lit ["-command"; "/command"; "-c"]) then
        match rest with
        | [script] => parse_powershell_script executable script
        | _ => None
        end
      else if starts_with "-command:" lower || starts_with "/command:" lower then
        match rest with
        | [] => '(_, script) ← split_once ch_colon arg; parse_powershell_script executable script
        | _ => None
        end
      else if mem lower (map lit ["-nologo"; "-noprofile"; "-noninteractive"; "-mta"; "-sta"]) then
        parse_powershell_invocation executable rest
      else if mem lower (map lit ["-encodedcommand"; "-ec"; "-file"; "/file"; "-windowstyle"; "-executionpolicy"; "-workingdirectory"]) then
        None
      else if starts_with "-" lower then None
      else parse_powershell_script executable (join_arguments_as_script args)
  end.

Definition try_parse_powershell_command_sequence (command : list str) : option (list (list str)) :=
  match command with
  | [] => None
  | exe :: rest => if is_powershell_executable exe then parse_powershell_invocation exe rest else None
  end.

Definition is_safe_command_windows (command : list str) : bool :=
  match try_parse_powershell_command_sequence command with
  | Some commands => forallb is_safe_powershell_command commands
  | None => false
  end.

(** ** [is_safe_command.rs] *)

Definition git_has_unsafe_global_option (command : list str) : bool := existsb git_global_option_requires_prompt (drop 1 command).

Definition UNSAFE_GIT_FLAGS : list str := map lit ["--output"; "--ext-diff"; "--textconv"; "--exec"; "--paginate"].
Definition git_subcommand_args_are_read_only (args : list str) : bool :=
  negb (existsb (λ arg, mem arg UNSAFE_GIT_FLAGS || starts_with "--output=" arg || starts_with "--exec=" arg) args).

Definition read_only_branch_flag (arg : str) : bool :=
  mem arg (map lit ["--list"; "-l"; "--show-current"; "-a"; "--all"; "-r"; "--remotes"; "-v"; "-vv"; "--verbose"])
  || starts_with "--format=" arg.
Fixpoint scan_branch_args (saw_read_only_flag : bool) (branch_args : list str) : bool :=
  match branch_args with
  | [] => saw_read_only_flag
  | arg :: rest => if read_only_branch_flag arg then scan_branch_args true rest else false
  end.
Definition git_branch_is_read_only (branch_args : list str) : bool :=
  if is_empty branch_args then true else scan_branch_args false branch_args.

Definition digits (s : str) : bool := negb (is_empty s) && forallb is_ascii_digit s.
Definition is_valid_sed_n_arg (arg : option str) : bool :=
  match arg with
  | None => false
  | Some s =>
      match strip_suffix "p" s with
      | None => false
      | Some core =>
          match split_on 44 core with
          | [num] => digits num
          | [a; b] => digits a && digits b
          | _ => false
          end
      end
  end.

Definition SAFE_PROGRAMS : list str :=
  map lit ["cat"; "cd"; "cut"; "echo"; "expr"; "false"; "grep"; "head"; "id"; "ls"; "nl"; "paste"; "pwd"; "rev"; "seq"; "stat";
           "tail"; "tr"; "true"; "uname"; "uniq"; "wc"; "which"; "whoami"].
Definition UNSAFE_FIND_OPTIONS : list str :=
  map lit ["-exec"; "-execdir"; "-ok"; "-okdir"; "-delete"; "-fls"; "-fprint"; "-fprint0"; "-fprintf"].

Definition unsafe_base64_option (arg : str) : bool :=
  mem arg (map lit ["-o"; "--output"]) || starts_with "--output=" arg || (starts_with "-o" arg && negb (arg =s? "-o")).
Definition unsafe_ripgrep_option (arg : str) : bool :=
  mem arg (map lit ["--search-zip"; "-z"])
  || existsb (λ opt, (arg =s? opt) || starts_with (opt ++ lit "=") arg) (map lit ["--pre"; "--hostname-bin"]).

Definition safe_git (command : list str) : bool :=
  if git_has_unsafe_global_option command then false
  else
    match find_git_subcommand command (map lit ["status"; "log"; "diff"; "show"; "branch"]) with
    | None => false
    | Some (subcommand_idx, subcommand) =>
        let subcommand_args := drop (subcommand_idx + 1) command in
        if mem subcommand (map lit ["status"; "log"; "diff"; "show"]) then git_subcommand_args_are_read_only subcommand_args
        else if subcommand =s? "branch" then
          git_subcommand_args_are_read_only subcommand_args && git_branch_is_read_only subcommand_args
        else false
    end.

Definition is_safe_to_call_with_exec (command : list str) : bool :=
  match command with
  | [] => false
  | cmd0 :: args =>
      match executable_name_lookup_key cmd0 with
      | None => false
      | Some cmd =>
          if mem cmd (map lit ["numfmt"; "tac"]) then true
          else if mem cmd SAFE_PROGRAMS then true
          else if cmd =s? "base64" then negb (existsb unsafe_base64_option args)
          else if cmd =s? "find" then negb (existsb (λ arg, mem arg UNSAFE_FIND_OPTIONS) command)
          else if cmd =s? "rg" then negb (existsb unsafe_ripgrep_option command)
          else if cmd =s? "git" then safe_git command
          else (cmd =s? "sed") && (length command <=? 4) && bool_decide (command !! 1 = Some (lit "-n"))
               && is_valid_sed_n_arg (command !! 2)
      end
  end.

Definition zsh_as_bash (s : str) : str := if s =s? "zsh" then lit "bash" else s.

Definition is_known_safe_command (command : list str) : bool :=
  let command := map zsh_as_bash command in
  if is_safe_command_windows command then true
  else if is_safe_to_call_with_exec command then true
  else
    match parse_shell_lc_plain_commands command with
    | Some all_commands => negb (is_empty all_commands) && forallb is_safe_to_call_with_exec all_commands
    | None => false
    end.

Definition command_might_be_dangerous (command : list str) : bool :=
  if is_dangerous_to_call_with_exec command then true
  else
    match parse_shell_lc_plain_commands command with
    | Some all_commands => existsb is_dangerous_to_call_with_exec all_commands
    | None => false
    end.
End safety.

(** ** Membership *)

Lemma mem_spec x l : mem x l = true ↔ x ∈ l.
Proof.
  unfold mem. rewrite existsb_exists. split.
  - intros (y & Hy%list_elem_of_In & ->%str_eqb_eq). done.
  - intros Hx%list_elem_of_In. exists x. split; [done|apply str_eqb_refl].
Qed.

(** Decides the cases of a membership in a list of literals. *)
Ltac each_of H := repeat first [apply elem_of_cons in H as [H|H] | apply elem_of_nil in H as [] ].

(** ** Shells *)

Lemma file_stem_plain n y : ch_slash ∉ n → ch_dot ∉ n → file_stem n = Some y → y = n.
Proof.
  intros Hs Hd. unfold file_stem, file_name, components. rewrite (split_on_none _ _ Hs).
  assert (starts_with [ch_slash] n = false) as ->.
  { apply not_true_iff_false. intros (r & ->)%starts_with_spec. apply Hs. simpl. set_solver. }
  assert (∀ m : str, ch_dot ∈ m → (n =s? m) = false) as Hne by (intros m Hm; apply str_eqb_neq; congruence).
  rewrite (Hne "."); [vm_compute; set_solver|]. unfold piece_components, classify. simpl.
  rewrite (Hne "."); [vm_compute; set_solver|]. rewrite (Hne ".."); [vm_compute; set_solver|].
  destruct (is_empty n); simpl; [done|]. unfold split_extension.
  destruct (rsplit_once ch_dot n) as [[a b]|] eqn:Hr; [|by intros [= <-]].
  apply rsplit_once_Some in Hr as ->. set_solver.
Qed.

Lemma file_name_of_shell p t : shell_of_name p = Some t → file_name p = Some p ∧ (ch_slash ∉ p) ∧ (ch_dot ∉ p).
Proof.
  unfold shell_of_name. intros H.
  repeat (case_match; [match goal with E : (p =s? _) = true |- _ => apply str_eqb_eq in E; subst p end;
    split; [by vm_compute|]; rewrite -!contains_char_false; by vm_compute|]). done.
Qed.

Lemma file_name_no_slash p n : file_name p = Some n → ch_slash ∉ n.
Proof.
  unfold file_name. destruct (last (components p)) as [[| | |m]|] eqn:Hl; try done. intros [= <-].
  apply last_Some_elem_of, normal_component in Hl. pose proof (split_on_pieces ch_slash p) as Hp.
  rewrite Forall_forall in Hp. by apply Hp.
Qed.

(** A file name whose stem has no dot is the only other name of a shell. *)
Lemma detect_shell_stem p n t :
  file_name p = Some n → ch_dot ∉ (split_extension n).1 → detect_shell_type p = Some t →
  shell_of_name n = Some t ∨ shell_of_name (split_extension n).1 = Some t.
Proof.
  intros Hn Hdot (q & Hq & Ht)%shell_named_by_a_stem.
  apply rtc_inv in Hq as [<-|(x & [Hx Hne] & Hq)].
  - left. apply file_name_of_shell in Ht as Hp. destruct Hp as [Hp _]. congruence.
  - right. unfold file_stem in Hx. rewrite Hn in Hx. injection Hx as <-.
    apply rtc_inv in Hq as [<-|(y & [Hy Hyne] & _)]; [done|]. exfalso.
    assert (ch_slash ∉ (split_extension n).1) as Hslash.
    { apply file_name_no_slash in Hn. unfold split_extension.
      destruct (rsplit_once ch_dot n) as [[a b]|] eqn:Hr; [|done]. destruct (is_empty a); [done|].
      apply rsplit_once_Some in Hr as ->. set_solver. }
    apply (file_stem_plain _ _ Hslash Hdot) in Hy as ->. unfold path_eq in Hyne. by rewrite bool_decide_eq_true_2 in Hyne.
Qed.

(** ** Safe is not dangerous *)

Lemma dangerous_head command :
  is_dangerous_to_call_with_exec command = true → ∃ cmd0 rest, command = cmd0 :: rest ∧ (cmd0 = lit "rm" ∨ cmd0 = lit "sudo").
Proof.
  destruct command as [|cmd0 rest]; simpl; [done|]. destruct (cmd0 =s? "rm") eqn:Hrm.
  - apply str_eqb_eq in Hrm as ->. eauto.
  - destruct (cmd0 =s? "sudo") eqn:Hs; [|done]. apply str_eqb_eq in Hs as ->. eauto.
Qed.

(** The programs [is_safe_to_call_with_exec] knows. *)
Definition known_programs : list str :=
  map lit ["numfmt"; "tac"] ++ SAFE_PROGRAMS ++ map lit ["base64"; "find"; "rg"; "git"; "sed"].

Lemma safe_exec_head command :
  is_safe_to_call_with_exec command = true →
  ∃ cmd0 args cmd, command = cmd0 :: args ∧ file_name cmd0 = Some cmd ∧ cmd ∈ known_programs.
Proof.
  destruct command as [|cmd0 args]; [done|]. unfold is_safe_to_call_with_exec, executable_name_lookup_key.
  destruct (file_name cmd0) as [cmd|] eqn:Hn; [|done]. intros H. exists cmd0, args, cmd. do 2 (split; [done|]).
  unfold known_programs. rewrite !elem_of_app -!mem_spec.
  destruct (mem cmd (map lit ["numfmt"; "tac"])); [tauto|]. destruct (mem cmd SAFE_PROGRAMS); [tauto|]. do 2 right.
  repeat (case_match; [match goal with E : (cmd =s? _) = true |- _ => apply str_eqb_eq in E; subst cmd end; by vm_compute|]).
  apply andb_true_iff in H as [[[H%str_eqb_eq _]%andb_true_iff _]%andb_true_iff _]. subst cmd. by vm_compute.
Qed.

Lemma known_programs_facts cmd :
  cmd ∈ known_programs →
  (ch_dot ∉ cmd) ∧ shell_of_name cmd = None ∧ split_extension cmd = (cmd, None) ∧ cmd ≠ lit "rm" ∧ cmd ≠ lit "sudo".
Proof.
  intros H. vm_compute in H. rewrite -contains_char_false. each_of H; subst cmd; by vm_compute.
Qed.

Lemma safe_exec_not_dangerous command :
  is_safe_to_call_with_exec command = true → is_dangerous_to_call_with_exec command = false.
Proof.
  intros (cmd0 & args & cmd & -> & Hn & Hcmd)%safe_exec_head. apply not_true_iff_false.
  intros (c & r & [= <- <-] & Hc)%dangerous_head. apply known_programs_facts in Hcmd as (_ & _ & _ & H1 & H2).
  destruct Hc as [-> | ->]; vm_compute in Hn; injection Hn as <-; [apply H1|apply H2]; by vm_compute.
Qed.

Section not_dangerous.
Context {TS : TreeSitter} (parse_with_powershell_ast : str → str → PowershellParseOutcome).

Lemma plain_commands_shell command commands :
  parse_shell_lc_plain_commands command = Some commands →
  ∃ shell flag script t, command = [shell; flag; script] ∧ detect_shell_type shell = Some t ∧ t ≠ PowerShell
    ∧ parse_shell_lc_plain_commands (lit "bash" :: [flag; script]) = Some commands.
Proof.
  unfold parse_shell_lc_plain_commands, extract_bash_command.
  destruct command as [|shell [|flag [|script [|]]]]; try done.
  destruct ((flag =s? "-lc") || (flag =s? "-c")) eqn:Hf; simpl; [|done].
  destruct (detect_shell_type shell) as [[]|] eqn:Ht; simpl; try done; intros H;
    eexists shell, flag, script, _; (split; [done|]); (split; [done|]); (split; [done|]); rewrite Hf; exact H.
Qed.

Lemma not_a_shell shell n t :
  file_name shell = Some n → (ch_dot ∉ (split_extension n).1) →
  shell_of_name n ∈ [None; Some PowerShell] → shell_of_name (split_extension n).1 ∈ [None; Some PowerShell] →
  detect_shell_type shell = Some t → t = PowerShell.
Proof.
  intros Hn Hd H1 H2 Ht. destruct (detect_shell_stem _ _ _ Hn Hd Ht) as [Hs|Hs]; rewrite Hs in H1, H2; set_solver.
Qed.

Lemma known_program_no_shell command cmd0 args cmd :
  command = cmd0 :: args → file_name cmd0 = Some cmd → cmd ∈ known_programs → parse_shell_lc_plain_commands command = None.
Proof.
  intros -> Hn (Hdot & Hsh & Hext & _)%known_programs_facts.
  destruct (parse_shell_lc_plain_commands (cmd0 :: args)) as [commands|] eqn:Hp; [|done].
  apply plain_commands_shell in Hp as (shell & flag & script & t & [= <- _] & Ht & Hne & _). destruct Hne.
  eapply not_a_shell; [exact Hn| | | |exact Ht]; rewrite ?Hext /= ?Hsh //; set_solver.
Qed.

(** *** PowerShell *)

Lemma lower_char_dot c : (lower_char c =? ch_dot)%N = (c =? ch_dot)%N.
Proof.
  unfold lower_char, is_ascii_upper, in_range, ch_dot. destruct ((65 <=? c) && (c <=? 90))%N eqn:H; [|done].
  apply andb_true_iff in H as [H1%N.leb_le H2%N.leb_le]. apply eq_true_iff_eq. rewrite !N.eqb_eq. lia.
Qed.

Lemma split_once_lower s :
  split_once ch_dot (to_ascii_lowercase s) = (λ '(a, b), (to_ascii_lowercase a, to_ascii_lowercase b)) <$> split_once ch_dot s.
Proof.
  induction s as [|c s IH]; [done|]. simpl. rewrite lower_char_dot. destruct (c =? ch_dot)%N; [done|].
  fold (to_ascii_lowercase s). rewrite IH. by destruct (split_once ch_dot s) as [[a b]|].
Qed.

Lemma reverse_map {A B} (f : A → B) l : reverse (map f l) = map f (reverse l).
Proof. induction l as [|x l IH]; [done|]. simpl. by rewrite !reverse_cons map_app IH. Qed.

Lemma split_extension_lower n :
  (split_extension (to_ascii_lowercase n)).1 = to_ascii_lowercase (split_extension n).1.
Proof.
  unfold split_extension, rsplit_once. assert (reverse (to_ascii_lowercase n) = to_ascii_lowercase (reverse n)) as -> by apply reverse_map.
  rewrite split_once_lower. destruct (split_once ch_dot (reverse n)) as [[b a]|]; simpl; [|done].
  unfold to_ascii_lowercase. rewrite reverse_map. by destruct (reverse a).
Qed.

Lemma shell_name_lower n t : shell_of_name n = Some t → to_ascii_lowercase n = n.
Proof.
  unfold shell_of_name. intros H.
  repeat (case_match; [match goal with E : (n =s? _) = true |- _ => apply str_eqb_eq in E; subst n end; by vm_compute|]). done.
Qed.

Lemma powershell_no_shell exe t : is_powershell_executable exe = true → detect_shell_type exe = Some t → t = PowerShell.
Proof.
  unfold is_powershell_executable. intros Hp%mem_spec Ht.
  destruct (file_name exe) as [n|] eqn:Hn; simpl in Hp.
  - assert (∀ m, shell_of_name m ∈ [None; Some PowerShell] ∨ to_ascii_lowercase m = m) as Hlow.
    { intros m. destruct (shell_of_name m) eqn:Hm; [right; by eapply shell_name_lower|left; set_solver]. }
    assert (to_ascii_lowercase (split_extension n).1 ∈ map lit ["powershell"; "pwsh"]) as Hs.
    { rewrite -split_extension_lower. cbn [map] in Hp. each_of Hp; rewrite Hp; vm_compute; set_solver. }
    eapply not_a_shell; [exact Hn| | | |exact Ht].
    + rewrite -contains_char_false. apply not_true_iff_false. intros Hd%existsb_exists.
      destruct Hd as (c & Hc & <-%N.eqb_eq). assert (lower_char ch_dot ∈ to_ascii_lowercase (split_extension n).1) as Hin.
      { apply list_elem_of_In. by apply in_map. }
      cbn [map] in Hs. each_of Hs; rewrite Hs in Hin; vm_compute in Hin; by each_of Hin.
    + destruct (Hlow n) as [|Hl]; [done|]. rewrite Hl in Hp. cbn [map] in Hp. each_of Hp; subst n; vm_compute; set_solver.
    + destruct (Hlow (split_extension n).1) as [|Hl]; [done|]. rewrite Hl in Hs. cbn [map] in Hs.
      each_of Hs; rewrite Hs; vm_compute; set_solver.
  - unfold detect_shell_type in Ht. simpl in Ht. destruct (shell_of_name exe) as [t'|] eqn:Hsh.
    + apply file_name_of_shell in Hsh as [? _]. congruence.
    + unfold file_stem in Ht. by rewrite Hn in Ht.
Qed.

Lemma zsh_as_bash_keeps s lit' : (lit' =s? "bash") = false → (lit' =s? "zsh") = false → (zsh_as_bash s =s? lit') = (s =s? lit').
Proof.
  intros Hb Hz. unfold zsh_as_bash. destruct (s =s? "zsh") eqn:E; [|done]. apply str_eqb_eq in E as ->.
  transitivity false; [|symmetry]; apply str_eqb_neq; intros <-; by rewrite str_eqb_refl in Hb, Hz.
Qed.
(** Replacing the shell [zsh] by [bash] changes neither whether the command is
    dangerous to run nor, unless the script itself is [zsh], what it is read as. *)
Lemma zsh_as_bash_exec command : is_dangerous_to_call_with_exec (map zsh_as_bash command) = is_dangerous_to_call_with_exec command.
Proof.
  induction command as [|c rest IH]; [done|]. cbn [map is_dangerous_to_call_with_exec]. rewrite IH !(zsh_as_bash_keeps c) //.
  destruct rest as [|arg rest]; [done|]. cbn [map]. by rewrite !(zsh_as_bash_keeps arg).
Qed.
Lemma zsh_as_bash_plain command : (∀ shell flag, command ≠ [shell; flag; lit "zsh"]) →
  parse_shell_lc_plain_commands (map zsh_as_bash command) = parse_shell_lc_plain_commands command.
Proof.
  intros Hne. destruct command as [|shell [|flag [|script [|]]]]; try done. cbn [map].
  unfold parse_shell_lc_plain_commands, extract_bash_command. rewrite !(zsh_as_bash_keeps flag) //.
  assert (zsh_as_bash script = script) as ->.
  { unfold zsh_as_bash. destruct (script =s? "zsh") eqn:E; [|done]. apply str_eqb_eq in E as ->. by destruct (Hne shell flag). }
  unfold zsh_as_bash. destruct (shell =s? "zsh") eqn:E; [apply str_eqb_eq in E as ->|done]. by destruct (_ || _).
Qed.

Lemma not_plain_not_dangerous command :
  parse_shell_lc_plain_commands command = None → is_dangerous_to_call_with_exec command = false →
  command_might_be_dangerous command = false.
Proof. unfold command_might_be_dangerous. by intros -> ->. Qed.

(** The script [zsh] is one word. *)
Definition reads_zsh_as_a_word : Prop :=
  ∀ commands, parse_shell_lc_plain_commands [lit "bash"; lit "-lc"; lit "zsh"] = Some commands → commands = [[lit "zsh"]].
Lemma zsh_as_bash_command command : reads_zsh_as_a_word → command_might_be_dangerous command = true →
  command_might_be_dangerous (map zsh_as_bash command) = true.
Proof.
  intros Hword. unfold command_might_be_dangerous. rewrite zsh_as_bash_exec. destruct (is_dangerous_to_call_with_exec command); [done|].
  destruct (decide (command !! 2 = Some (lit "zsh") ∧ length command = 3)) as [[Hz Hl]|Hno].
  - destruct command as [|shell [|flag [|script [|]]]]; try done. injection Hz as ->.
    destruct (parse_shell_lc_plain_commands [shell; flag; lit "zsh"]) as [commands|] eqn:Hp; [|done].
    apply plain_commands_shell in Hp as (? & ? & ? & ? & [= <- <- <-] & _ & _ & Hp). intros Hd. exfalso.
    assert (commands = [[lit "zsh"]]) as ->; [|by vm_compute in Hd]. apply Hword. revert Hp.
    unfold parse_shell_lc_plain_commands, extract_bash_command. by destruct (_ || _).
  - rewrite zsh_as_bash_plain; [|done]. intros shell flag ->. by apply Hno.
Qed.

(** No command is both known to be safe and possibly dangerous, whatever other
    scripts mean to the parsers of bash and PowerShell. *)
Lemma safe_not_dangerous command : reads_zsh_as_a_word →
  is_known_safe_command parse_with_powershell_ast command = true → command_might_be_dangerous command = false.
Proof.
  intros Hword Hsafe. apply not_true_iff_false. intros Hd. apply (zsh_as_bash_command _ Hword), not_false_iff_true in Hd. apply Hd. clear Hd.
  revert Hsafe. unfold is_known_safe_command. generalize (map zsh_as_bash command) as command'. clear command. intros command'.
  destruct (is_safe_command_windows _ command') eqn:Hw; [intros _|].
  - destruct command' as [|exe args]; [done|]. unfold is_safe_command_windows, try_parse_powershell_command_sequence in Hw.
    destruct (is_powershell_executable exe) eqn:He; [|done]. apply not_plain_not_dangerous.
    + destruct (parse_shell_lc_plain_commands (exe :: args)) as [commands|] eqn:Hp; [|done].
      apply plain_commands_shell in Hp as (shell & flag & script & t & [= <- _] & Ht & Hne & _). destruct Hne.
      by eapply powershell_no_shell.
    + apply not_true_iff_false. intros (c & r & [= <- <-] & [-> | ->])%dangerous_head; by vm_compute in He.
  - destruct (is_safe_to_call_with_exec command') eqn:Hs; [intros _|].
    + pose proof Hs as (cmd0 & args & cmd & Hc & Hn & Hk)%safe_exec_head. apply not_plain_not_dangerous.
      * by eapply known_program_no_shell.
      * by apply safe_exec_not_dangerous.
    + destruct (parse_shell_lc_plain_commands command') as [commands|] eqn:Hp; [|done].
      intros [_ Hall]%andb_true_iff. unfold command_might_be_dangerous. rewrite Hp.
      assert (existsb is_dangerous_to_call_with_exec commands = false) as ->.
      { apply not_true_iff_false. intros (c & Hin & Hc)%existsb_exists. rewrite forallb_forall in Hall.
        specialize (Hall c Hin). by rewrite (safe_exec_not_dangerous c Hall) in Hc. }
      assert (is_dangerous_to_call_with_exec command' = false) as ->; [|done].
      apply not_true_iff_false. intros (c & r & Hc & Hrm)%dangerous_head.
      apply plain_commands_shell in Hp as (shell & flag & script & t & Hc' & Ht & _). rewrite Hc in Hc'. injection Hc' as <- _.
      destruct Hrm as [-> | ->]; by vm_compute in Ht.
Qed.
End not_dangerous.

(** ** git *)

(** Options of git before the subcommand: one that takes the next token as its
    value, or any other one. *)
Inductive git_globals : list str → Prop :=
| globals_none : git_globals []
| globals_inline o rest : is_git_global_option_with_inline_value o = true → git_globals rest → git_globals (o :: rest)
| globals_value o v rest :
    is_git_global_option_with_inline_value o = false → is_git_global_option_with_value o = true → git_globals rest →
    git_globals (o :: v :: rest)
| globals_flag o rest :
    is_git_global_option_with_inline_value o = false → is_git_global_option_with_value o = false → starts_with "-" o = true →
    git_globals rest → git_globals (o :: rest).
#[local] Hint Constructors git_globals : codex.

Lemma dash_options o : starts_with "-" o = false →
  is_git_global_option_with_inline_value o = false ∧ is_git_global_option_with_value o = false ∧ (o =s? "--") = false.
Proof.
  intros H. destruct o as [|c o]; [by vm_compute|].
  assert ((ch_minus =? c)%N = false) as Hc.
  { change (lit "-") with [ch_minus] in H. unfold starts_with in H. simpl in H. by destruct (ch_minus =? c)%N. }
  assert (∀ p : str, head p = Some ch_minus → starts_with p (c :: o) = false) as Hs.
  { intros [|d p] Hd; [done|]. injection Hd as ->. unfold starts_with. simpl. by rewrite Hc. }
  assert (∀ p : str, head p = Some ch_minus → c :: o ≠ p) as Hne.
  { intros [|d p] Hd Heq; [done|]. injection Hd as ->. injection Heq as -> ->. by rewrite N.eqb_refl in Hc. }
  unfold is_git_global_option_with_inline_value, is_git_global_option_with_value. split; [|split].
  - unfold starts_with_any, inline_options. cbn [map existsb]. by rewrite !Hs.
  - apply not_true_iff_false. intros Hm%mem_spec. cbn [map] in Hm. each_of Hm; by apply Hne in Hm.
  - apply str_eqb_neq. by apply Hne.
Qed.

Lemma scan_git_spec subcommands idx args i sub :
  scan_git subcommands false idx args = Some (i, sub) ↔
  ∃ globals rest, args = globals ++ sub :: rest ∧ git_globals globals ∧ i = idx + length globals
    ∧ sub ∈ subcommands ∧ starts_with "-" sub = false.
Proof.
  split.
  - assert (∀ n args idx, length args ≤ n → scan_git subcommands false idx args = Some (i, sub) →
      ∃ globals rest, args = globals ++ sub :: rest ∧ git_globals globals ∧ i = idx + length globals
        ∧ sub ∈ subcommands ∧ starts_with "-" sub = false) as H; [|by apply (H (length args))]. clear args idx.
    induction n as [|n IH]; intros [|arg args] idx Hlen; simpl in Hlen; try (done || lia). simpl.
    destruct (is_git_global_option_with_inline_value arg) eqn:Hi.
    { intros (g & rest & -> & Hg & -> & Hsub)%IH; [|lia]. exists (arg :: g), rest. simpl. split_and!; first [done|lia|by auto with codex|tauto]. }
    destruct (is_git_global_option_with_value arg) eqn:Hv.
    { destruct args as [|v args]; [done|]. simpl in *. intros (g & rest & -> & Hg & -> & Hsub)%IH; [|lia].
      exists (arg :: v :: g), rest. simpl. split_and!; first [done|lia|by auto with codex|tauto]. }
    destruct ((arg =s? "--") || starts_with "-" arg) eqn:Hd.
    { intros (g & rest & -> & Hg & -> & Hsub)%IH; [|lia]. exists (arg :: g), rest. simpl.
      assert (starts_with "-" arg = true).
      { apply orb_true_iff in Hd as [->%str_eqb_eq|]; by vm_compute. }
      split_and!; first [done|lia|by auto with codex|tauto]. }
    destruct (mem arg subcommands) eqn:Hm; [|done]. intros [= <- <-]. apply mem_spec in Hm.
    apply orb_false_iff in Hd as [_ Hd]. exists [], args. split_and!; first [done|lia|by auto with codex|tauto].
  - intros (g & rest & -> & Hg & -> & Hsub & Hd). revert idx.
    induction Hg as [|o g Hi Hg IH|o v g Hi Hv Hg IH|o g Hi Hv Ho Hg IH]; intros idx; simpl.
    + destruct (dash_options _ Hd) as (-> & -> & ->). rewrite Hd /=. apply mem_spec in Hsub as ->. by rewrite Nat.add_0_r.
    + rewrite Hi IH. do 2 f_equal. lia.
    + rewrite Hi Hv IH. do 2 f_equal. lia.
    + rewrite Hi Hv Ho orb_true_r IH. do 2 f_equal. lia.
Qed.

Lemma existsb_negb {A} (f : A → bool) l : negb (existsb f l) = true ↔ ∀ x, x ∈ l → f x = false.
Proof.
  rewrite negb_true_iff -not_true_iff_false existsb_exists. setoid_rewrite <- list_elem_of_In.
  split; [intros H x Hx; apply not_true_iff_false; naive_solver|]. intros H (x & Hx & Hf). by rewrite (H x Hx) in Hf.
Qed.

Lemma branch_args_read_only args : git_branch_is_read_only args = true ↔ ∀ a, a ∈ args → read_only_branch_flag a = true.
Proof.
  assert (∀ saw l, scan_branch_args saw l = true ↔ (∀ a, a ∈ l → read_only_branch_flag a = true) ∧ (saw || negb (is_empty l)) = true) as H.
  { intros saw l. revert saw. induction l as [|a l IH]; intros saw; simpl.
    - rewrite orb_false_r. split; [|tauto]. intros ->. split; [|done]. intros a Ha. by apply elem_of_nil in Ha.
    - destruct (read_only_branch_flag a) eqn:Ha; [|split; [done|]; intros [H _]; rewrite -Ha; apply H, elem_of_cons; by left].
      rewrite IH orb_true_r. split.
      + intros [H _]. split; [|done]. intros b [->|Hb]%elem_of_cons; auto.
      + intros [H _]. split; [|done]. intros b Hb. apply H, elem_of_cons. by right. }
  unfold git_branch_is_read_only. destruct args as [|a args]; [|rewrite H; naive_solver].
  split; [|done]. intros _ a Ha. by apply elem_of_nil in Ha.
Qed.

Definition write_flag (arg : str) : bool := mem arg UNSAFE_GIT_FLAGS || starts_with "--output=" arg || starts_with "--exec=" arg.
Definition read_subcommands : list str := map lit ["status"; "log"; "diff"; "show"; "branch"].

Lemma read_subcommand_plain sub : sub ∈ read_subcommands → starts_with "-" sub = false.
Proof. intros H. vm_compute in H. each_of H; subst sub; by vm_compute. Qed.

Lemma safe_git_args globals sub rest prog :
  sub ∈ read_subcommands →
  (let subcommand_args := drop (1 + length globals + 1) (prog :: globals ++ sub :: rest) in
   if mem sub (map lit ["status"; "log"; "diff"; "show"]) then git_subcommand_args_are_read_only subcommand_args
   else if sub =s? "branch" then git_subcommand_args_are_read_only subcommand_args && git_branch_is_read_only subcommand_args
   else false) = true
  ↔ (∀ a, a ∈ rest → write_flag a = false) ∧ (sub = lit "branch" → ∀ a, a ∈ rest → read_only_branch_flag a = true).
Proof.
  intros Hsub. assert (drop (1 + length globals + 1) (prog :: globals ++ sub :: rest) = rest) as ->.
  { replace (1 + length globals + 1) with (S (S (length globals))) by lia. clear. by induction globals. }
  cbn zeta. assert (git_subcommand_args_are_read_only rest = true ↔ ∀ a, a ∈ rest → write_flag a = false) as Hro by apply existsb_negb.
  cbn [map read_subcommands] in Hsub. unfold read_subcommands in Hsub. cbn [map] in Hsub.
  each_of Hsub; subst sub;
    try (match goal with |- context [if mem ?x ?l then _ else _] => replace (mem x l) with true by reflexivity end;
         rewrite Hro; split; [intros H; split; [exact H|discriminate]|tauto]).
  match goal with |- context [if mem ?x ?l then _ else _] => replace (mem x l) with false by reflexivity end.
  rewrite str_eqb_refl andb_true_iff Hro branch_args_read_only. naive_solver.
Qed.

(** Which commands of git run unasked, outside of PowerShell: a program whose file
    name is git, options of git none of which redirects its configuration, one of
    five subcommands, and arguments without flags that write or run programs; for
    branches, only flags that list them. No token at all is an option that
    redirects the configuration. *)
Theorem safe_git_commands prog args :
  file_name prog = Some (lit "git") →
  is_safe_to_call_with_exec (prog :: args) = true
  ↔ (∀ a, a ∈ args → git_global_option_requires_prompt a = false)
    ∧ ∃ globals sub rest, args = globals ++ sub :: rest ∧ git_globals globals ∧ sub ∈ read_subcommands
        ∧ (∀ a, a ∈ rest → write_flag a = false)
        ∧ (sub = lit "branch" → ∀ a, a ∈ rest → read_only_branch_flag a = true).
Proof.
  intros Hprog.
  assert (is_safe_to_call_with_exec (prog :: args) = safe_git (prog :: args)) as ->.
  { unfold is_safe_to_call_with_exec, executable_name_lookup_key. by rewrite Hprog. }
  assert (∀ i, find_git_subcommand (prog :: args) i = scan_git i false 1 args) as Hfind.
  { intros i. unfold find_git_subcommand, executable_name_lookup_key. rewrite Hprog. by rewrite bool_decide_eq_true_2. }
  unfold safe_git, git_has_unsafe_global_option. rewrite Hfind. change (drop 1 (prog :: args)) with args.
  destruct (existsb git_global_option_requires_prompt args) eqn:Hopt.
  { split; [done|]. intros [Hall _]. apply existsb_exists in Hopt as (a & Ha%list_elem_of_In & Hr). by rewrite (Hall a Ha) in Hr. }
  rewrite -negb_true_iff existsb_negb in Hopt. change (map lit _) with read_subcommands at 1.
  destruct (scan_git read_subcommands false 1 args) as [[i sub]|] eqn:Hscan.
  - apply scan_git_spec in Hscan as (g & rest & -> & Hg & -> & Hsub & Hdash).
    rewrite -> (safe_git_args g sub rest prog Hsub). split.
    + intros [Hw Hb]. split; [done|]. by exists g, sub, rest.
    + intros (_ & g' & sub' & rest' & Heq & Hg' & Hsub' & Hw & Hb).
      assert (scan_git read_subcommands false 1 (g ++ sub :: rest) = Some (1 + length g', sub')) as H1.
      { apply scan_git_spec. exists g', rest'. split_and!; try done. by apply read_subcommand_plain. }
      assert (scan_git read_subcommands false 1 (g ++ sub :: rest) = Some (1 + length g, sub)) as H2.
      { apply scan_git_spec. by exists g, rest. }
      rewrite H1 in H2. injection H2 as Hlen <-. apply app_inj_1 in Heq as [-> [= ->]]; [done|lia].
  - split; [done|]. intros (_ & g & sub & rest & -> & Hg & Hsub & _).
    assert (scan_git read_subcommands false 1 (g ++ sub :: rest) = Some (1 + length g, sub)); [|congruence].
    apply scan_git_spec. exists g, rest. split_and!; try done. by apply read_subcommand_plain.
Qed.

(** ** sed *)

Lemma digits_no_comma s : digits s = true → 44%N ∉ s.
Proof.
  intros [_ H]%andb_true_iff Hin. rewrite forallb_forall in H. apply list_elem_of_In, H in Hin. by vm_compute in Hin.
Qed.

(** The only scripts of sed that run unasked print a line or a range of lines. *)
Theorem sed_prints_lines s :
  is_valid_sed_n_arg (Some s) = true
  ↔ (∃ n, s = n ++ lit "p" ∧ digits n = true) ∨ (∃ a b, s = a ++ lit "," ++ b ++ lit "p" ∧ digits a = true ∧ digits b = true).
Proof.
  assert (∀ core, strip_suffix "p" (core ++ lit "p") = Some core) as Hstrip.
  { intros core. unfold strip_suffix. change (reverse (lit "p")) with (lit "p"). rewrite reverse_app. change (reverse (lit "p")) with (lit "p").
    by rewrite strip_prefix_app /= reverse_involutive. }
  unfold is_valid_sed_n_arg. split.
  - destruct (strip_suffix "p" s) as [core|] eqn:Hs; [|done]. apply strip_suffix_Some in Hs as ->.
    pose proof (join_split_on 44%N core) as Hj. destruct (split_on 44%N core) as [|a [|b [|]]]; try done; simpl in Hj; subst core.
    + intros Hd. left. by exists a.
    + intros [Ha Hb]%andb_true_iff. right. exists a, b. by rewrite -!app_assoc.
  - intros [(n & -> & Hd)|(a & b & -> & Ha & Hb)].
    + by rewrite Hstrip (split_on_none _ _ (digits_no_comma _ Hd)).
    + rewrite (app_assoc (lit ",")) app_assoc Hstrip. change (lit "," ++ b) with (44%N :: b).
      rewrite (split_on_app _ _ _ (digits_no_comma _ Ha)) (split_on_none _ _ (digits_no_comma _ Hb)). by rewrite Ha Hb.
Qed.

(** ** What known to be safe does not exclude *)

(** In PowerShell the arguments of a subcommand of git are not looked at: a
    command that is read as one subcommand with any arguments but the side-effecting
    words runs unasked, also when the same command does not run unasked elsewhere
    because it writes to a file. *)
Theorem powershell_git_arguments_unchecked `{TreeSitter} parse script sub rest :
  sub ∈ map lit ["status"; "log"; "show"; "diff"] → script ≠ lit "zsh" →
  parse (lit "pwsh") script = Commands [lit "git" :: sub :: rest] →
  (∀ w, w ∈ rest → bare_word w ∉ SIDE_EFFECTING) →
  is_known_safe_command parse [lit "pwsh"; lit "-Command"; script] = true
  ∧ (Exists (λ a, write_flag a = true) rest → is_safe_to_call_with_exec (lit "git" :: sub :: rest) = false).
Proof.
  intros Hsub Hz Hparse Hrest.
  assert (starts_with "-" sub = false ∧ (bare_word sub ∉ SIDE_EFFECTING)
    ∧ mem (to_ascii_lowercase sub) (map lit ["status"; "log"; "show"; "diff"; "cat-file"]) = true) as (Hdash & Hbare & Hread).
  { cbn [map] in Hsub. rewrite -mem_spec not_true_iff_false. each_of Hsub; subst sub; by vm_compute. }
  split.
  - assert (is_safe_powershell_command (lit "git" :: sub :: rest) = true) as Hsafe.
    { unfold is_safe_powershell_command. assert (existsb (λ w, mem (bare_word w) SIDE_EFFECTING) (lit "git" :: sub :: rest) = false) as ->.
      { apply not_true_iff_false. intros (w & Hw%list_elem_of_In & Hm%mem_spec)%existsb_exists.
        apply elem_of_cons in Hw as [->|[->|Hw]%elem_of_cons]; [|done|by destruct (Hrest w)]. rewrite -mem_spec in Hm. by vm_compute in Hm. }
      change (is_safe_git_command (lit "git" :: sub :: rest) = true). unfold is_safe_git_command. simpl. by rewrite Hdash Hread. }
    assert (zsh_as_bash script = script) as Hs.
    { unfold zsh_as_bash. destruct (script =s? "zsh") eqn:E; [|done]. by apply str_eqb_eq in E. }
    unfold is_known_safe_command. cbn [map]. rewrite Hs. unfold is_safe_command_windows, try_parse_powershell_command_sequence.
    assert (parse_powershell_invocation parse (lit "pwsh") [lit "-Command"; script] = Some [lit "git" :: sub :: rest]) as Hp.
    { change (parse_powershell_script parse (lit "pwsh") script = Some [lit "git" :: sub :: rest]).
      unfold parse_powershell_script. by rewrite Hparse. }
    change (zsh_as_bash (lit "pwsh")) with (lit "pwsh"). change (zsh_as_bash (lit "-Command")) with (lit "-Command").
    change (is_powershell_executable (lit "pwsh")) with true. rewrite Hp. cbn [forallb]. by rewrite Hsafe.
  - intros (a & Ha & Hw)%Exists_exists. apply not_true_iff_false. intros Hx.
    apply safe_git_commands in Hx as (_ & g & sub' & rest' & Heq & Hg & Hsub' & Hok & _); [|done].
    destruct g as [|o g].
    + injection Heq as -> ->. by rewrite (Hok a Ha) in Hw.
    + injection Heq as -> _. by inversion Hg; congruence || destruct (dash_options _ Hdash) as (? & ? & _); congruence.
Qed.

(** A word keeps its backslashes, so that [-\delete], which the shell hands to the
    program as [-delete], is not seen to be an unsafe option. *)
Example escaped_options_are_not_seen :
  is_known_safe_command (TS := demo_trees) (λ _ _, Unsupported) [lit "bash"; lit "-lc"; demo_script] = true
  ∧ is_safe_to_call_with_exec (map lit ["find"; "."; "-delete"]) = false.
Proof. split; by vm_compute. Qed.

(** ** Witnesses *)

Lemma safe_not_dangerous_example : command_might_be_dangerous (TS := demo_trees) [lit "bash"; lit "-lc"; demo_script] = false.
Proof.
  apply (safe_not_dangerous (TS := demo_trees) (λ _ _, Unsupported)); [|vm_compute; reflexivity].
  intros commands Hp. vm_compute in Hp. congruence.
Defined.

Lemma safe_git_commands_witness :
  file_name (lit "/usr/bin/git") = Some (lit "git")
  ∧ is_safe_to_call_with_exec (map lit ["/usr/bin/git"; "-C"; "repo"; "--no-pager"; "log"; "-p"]) = true.
Proof.
  split; [vm_compute; reflexivity|]. apply (safe_git_commands (lit "/usr/bin/git")); [vm_compute; reflexivity|]. split.
  - intros a Ha. cbn [map] in Ha. each_of Ha; subst a; vm_compute; reflexivity.
  - exists (map lit ["-C"; "repo"; "--no-pager"]), (lit "log"), [lit "-p"].
    split; [reflexivity|]. split; [|split; [|split]].
    + apply globals_value; [vm_compute; reflexivity..|]. apply globals_flag; [vm_compute; reflexivity..|]. constructor.
    + apply mem_spec. vm_compute. reflexivity.
    + intros a Ha. each_of Ha; subst a. vm_compute. reflexivity.
    + intros Hb. vm_compute in Hb. discriminate Hb.
Defined.

Lemma powershell_git_arguments_unchecked_witness :
  is_known_safe_command (TS := demo_trees) (λ _ _, Commands [map lit ["git"; "diff"; "--output=notes"]])
    (map lit ["pwsh"; "-Command"; "git diff --output=notes"]) = true
  ∧ is_safe_to_call_with_exec (map lit ["git"; "diff"; "--output=notes"]) = false.
Proof.
  destruct (powershell_git_arguments_unchecked (H := demo_trees) (λ _ _, Commands [map lit ["git"; "diff"; "--output=notes"]])
    (lit "git diff --output=notes") (lit "diff") [lit "--output=notes"]) as [H1 H2].
  - apply mem_spec. vm_compute. reflexivity.
  - intros Hz. vm_compute in Hz. discriminate Hz.
  - reflexivity.
  - intros w Hw. each_of Hw; subst w. rewrite -mem_spec. by vm_compute.
  - split; [exact H1|]. apply H2, Exists_cons_hd. vm_compute. reflexivity.
Defined.
