(* ===== verification/ExecAmend.v ===== *)
(** Amending the policy file: [codex-rs/execpolicy/src/amend.rs]. A rule is one
    line of the file, appended under an advisory lock. *)
From S2P Require Import Prelude Json Paths Host ExecRules.
#[local] Open Scope nat_scope.

(** ** Errors *)

Inductive AmendError : Type :=
| EmptyPrefix
| InvalidNetworkRule (message : str)
| MissingParent (path : str)
| CreatePolicyDir (dir source : str)
| SerializePrefix (source : str)
| SerializeNetworkRule (source : str)
| OpenPolicyFile (path source : str)
| WritePolicyFile (path source : str)
| LockPolicyFile (path source : str)
| SeekPolicyFile (path source : str)
| ReadPolicyFile (path source : str)
| PolicyMetadata (path source : str).

(** How [std::fs::create_dir] fails. *)
Inductive CreateDirError : Type := AlreadyExists | OtherError (source : str).

(** The file system as far as the policy file is concerned; an open file is the
    path it was opened under. Writing may fail and then have written a part. *)
Class PolicyFiles := {
  Files : Type;
  create_dir : str → Files → Files * result CreateDirError unit;
  open_append : str → Files → Files * result str unit;
  lock_file : str → Files → result str unit;
  seek_start : str → Files → result str unit;
  read_file : str → Files → result str str;
  append_file : str → str → Files → Files * result str unit;
  json_string : str → result str str;
  error_text : Error → str
}.

Section amending.
Context {PF : PolicyFiles}.

(** [write_all] of a text at the end of the file. *)
Definition write_policy (policy_path text : str) (w : Files) : Files * result AmendError unit :=
  let '(w, r) := append_file policy_path text w in (w, map_err (WritePolicyFile policy_path) r).

Definition append_locked_line (policy_path line : str) (w : Files) : Files * result AmendError unit :=
  let '(w, opened) := open_append policy_path w in
  match opened with
  | Err source => (w, Err (OpenPolicyFile policy_path source))
  | Ok _ =>
      match lock_file policy_path w with
      | Err source => (w, Err (LockPolicyFile policy_path source))
      | Ok _ =>
          match seek_start policy_path w with
          | Err source => (w, Err (SeekPolicyFile policy_path source))
          | Ok _ =>
              match read_file policy_path w with
              | Err source => (w, Err (ReadPolicyFile policy_path source))
              | Ok contents =>
                  if existsb (λ existing, existing =s? line) (lines contents) then (w, Ok tt)
                  else
                    let '(w, newline) :=
                      if negb (is_empty contents) && negb (ends_with [ch_nl] contents) then write_policy policy_path [ch_nl] w
                      else (w, Ok tt) in
                    match newline with
                    | Err e => (w, Err e)
                    | Ok _ => write_policy policy_path (line ++ [ch_nl]) w
                    end
              end
          end
      end
  end.

Definition append_rule_line (policy_path rule : str) (w : Files) : Files * result AmendError unit :=
  match path_parent policy_path with
  | None => (w, Err (MissingParent policy_path))
  | Some dir =>
      let '(w, created) := create_dir dir w in
      match created with
      | Ok _ | Err AlreadyExists => append_locked_line policy_path rule w
      | Err (OtherError source) => (w, Err (CreatePolicyDir dir source))
      end
  end.

(** The line of a rule that allows a prefix. *)
Definition allow_rule (tokens : list str) : str :=
  let pattern := lit "[" ++ join (lit ", ") tokens ++ lit "]" in
  (lit "prefix_rule(pattern=" ++ pattern ++ lit ", decision=" ++ [34%N] ++ lit "allow" ++ [34%N]) ++ lit ")".
Definition allow_prefix_line (prefix : list str) : result AmendError str :=
  if is_empty prefix then Err EmptyPrefix
  else
    tokens ← map_err SerializePrefix (mapM json_string prefix);
    Ok (allow_rule tokens).

Definition blocking_append_allow_prefix_rule (policy_path : str) (prefix : list str) (w : Files) : Files * result AmendError unit :=
  match allow_prefix_line prefix with
  | Err e => (w, Err e)
  | Ok rule => append_rule_line policy_path rule w
  end.

Definition decision_word (d : Decision) : str :=
  match d with Allow => lit "allow" | Prompt => lit "prompt" | Forbidden => lit "deny" end.

(** The line of a network rule. *)
Definition network_rule_text (args : list str) : str := (lit "network_rule(" ++ join (lit ", ") args) ++ lit ")".
Definition network_rule_line (host : str) (protocol : NetworkRuleProtocol) (decision : Decision) (justification : option str) :
    result AmendError str :=
  host ← map_err (λ err, InvalidNetworkRule (error_text err)) (normalize_network_rule_host host);
  if match justification with Some raw => is_empty (trim raw) | None => false end then
    Err (InvalidNetworkRule "justification cannot be empty")
  else
    host ← map_err SerializeNetworkRule (json_string host);
    protocol ← map_err SerializeNetworkRule (json_string (as_policy_string protocol));
    decision ← map_err SerializeNetworkRule (json_string (decision_word decision));
    justification ← match justification with
                    | Some justification =>
                        justification ← map_err SerializeNetworkRule (json_string justification);
                        Ok [lit "justification=" ++ justification]
                    | None => Ok []
                    end;
    let args := [lit "host=" ++ host; lit "protocol=" ++ protocol; lit "decision=" ++ decision] ++ justification in
    Ok (network_rule_text args).

Definition blocking_append_network_rule (policy_path host : str) (protocol : NetworkRuleProtocol) (decision : Decision)
    (justification : option str) (w : Files) : Files * result AmendError unit :=
  match network_rule_line host protocol decision justification with
  | Err e => (w, Err e)
  | Ok rule => append_rule_line policy_path rule w
  end.
End amending.

(** What the theorems need of the file system: an opened file exists, what is
    written is appended, a failed write has appended a beginning of it, and other
    files are left alone; and a JSON string has no raw newline. *)
Class PolicyFileLaws `{PolicyFiles} := {
  contents : Files → str → option str;
  create_dir_keeps dir w p : contents (create_dir dir w).1 p = contents w p;
  open_contents path w p :
    contents (open_append path w).1 p = contents w p
    ∨ (open_append path w).2 = Ok tt ∧ p = path ∧ contents w p = None ∧ contents (open_append path w).1 p = Some [];
  read_contents path w text : read_file path w = Ok text → contents w path = Some text;
  append_contents path text w :
    ∃ written, written `prefix_of` text
      ∧ default [] (contents (append_file path text w).1 path) = default [] (contents w path) ++ written
      ∧ ((append_file path text w).2 = Ok tt → written = text);
  append_other path text w p : p ≠ path → contents (append_file path text w).1 p = contents w p;
  json_string_line s t : json_string s = Ok t → ch_nl ∉ t
}.

(** ** Lines *)

Lemma lines_of_open ps p : p ≠ [] → last p ≠ Some ch_cr → lines_of_pieces (ps ++ [p]) = map strip_cr (ps ++ [p]).
Proof.
  intros Hp Hcr. induction ps as [|q ps IH]; simpl.
  - rewrite strip_cr_id //. by destruct p.
  - simpl in IH. rewrite -IH. by destruct ps.
Qed.

Lemma split_on_last_piece c b : ∃ ps p, split_on c b = ps ++ [p] ∧ (last p = last b ∨ p = [] ∧ (b = [] ∨ last b = Some c)).
Proof.
  destruct (exists_last (split_on_not_nil c b)) as (ps & p & Hps). exists ps, p. split; [done|].
  pose proof (join_split_on c b) as Hj. rewrite Hps in Hj. subst b. clear Hps. destruct ps as [|q ps]; [by left|].
  rewrite join_snoc //. rewrite app_assoc last_app. destruct p as [|x p]; [|by left; destruct (last (x :: p)) eqn:Hl; [|apply last_None in Hl]].
  right. split; [done|]. right. by rewrite last_snoc.
Qed.

Lemma lines_open b : b ≠ [] → last b ≠ Some ch_nl → last b ≠ Some ch_cr → lines b = map strip_cr (split_on ch_nl b).
Proof.
  intros Hb Hnl Hcr. unfold lines. destruct (split_on_last_piece ch_nl b) as (ps & p & -> & [Hp|[_ [?|?]]]); [|done..].
  apply lines_of_open; [|congruence]. intros ->. symmetry in Hp. by apply last_None in Hp.
Qed.

Lemma split_on_line line : line_ok line → split_on ch_nl line = [line] ∧ strip_cr line = line.
Proof. intros [Hnl Hcr]. split; [by apply split_on_none|by apply strip_cr_id]. Qed.

(** A line is appended to a file whose last line is ended, or ended first. *)
Lemma lines_appended b line :
  line_ok line → last b ≠ Some ch_cr →
  lines (b ++ (if negb (is_empty b) && negb (ends_with [ch_nl] b) then [ch_nl] else []) ++ line ++ [ch_nl]) = lines b ++ [line].
Proof.
  intros [Hs Hcr]%split_on_line Hb. rewrite !app_assoc lines_terminated.
  destruct b as [|x b']; [by rewrite /= Hs /= Hcr|]. set (b := x :: b') in *. assert (b ≠ []) as Hne by done. clearbody b.
  assert (is_empty b = false) as -> by (by apply is_empty_false). simpl.
  unfold ends_with. destruct (strip_suffix [ch_nl] b) as [r|] eqn:He; simpl.
  - apply strip_suffix_Some in He as ->. rewrite app_nil_r -app_assoc split_on_app_sep map_app lines_terminated Hs /=. by rewrite Hcr.
  - rewrite -app_assoc split_on_app_sep map_app Hs /= Hcr lines_open //.
    intros Hl. apply last_Some in Hl as [r ->]. unfold strip_suffix in He. rewrite reverse_app in He.
    change (reverse [ch_nl]) with [ch_nl] in He. by rewrite strip_prefix_app in He.
Qed.

(** ** Amending *)

Section amended.
Context `{PolicyFileLaws}.

Definition text_of (w : Files) (p : str) : str := default [] (contents w p).

(** What a file lacks of a line: nothing, or the line, after a newline when the
    last line of the file is not ended. *)
Definition missing_text (line before : str) : str :=
  if existsb (λ existing, existing =s? line) (lines before) then []
  else (if negb (is_empty before) && negb (ends_with [ch_nl] before) then [ch_nl] else []) ++ line ++ [ch_nl].

(** An amendment adds a beginning of what is missing, all of it on success, and
    changes no other file. *)
Definition amended (path line : str) (w : Files) (out : Files * result AmendError unit) : Prop :=
  (∀ p, p ≠ path → contents out.1 p = contents w p)
  ∧ ∃ written, written `prefix_of` missing_text line (text_of w path)
      ∧ text_of out.1 path = text_of w path ++ written
      ∧ (out.2 = Ok tt → written = missing_text line (text_of w path)).

Lemma amended_nothing path line w w' e :
  (∀ p, p ≠ path → contents w' p = contents w p) → text_of w' path = text_of w path → amended path line w (w', Err e).
Proof. intros Hp Ht. split; [done|]. exists []. split; [apply prefix_nil|]. by rewrite app_nil_r. Qed.

Lemma opened_frame path w : (∀ p, p ≠ path → contents (open_append path w).1 p = contents w p) ∧ text_of (open_append path w).1 path = text_of w path.
Proof.
  split.
  - intros p Hp. by destruct (open_contents path w p) as [?|(_ & ? & _)].
  - unfold text_of. destruct (open_contents path w path) as [->|(_ & _ & -> & ->)]; done.
Qed.

Lemma write_policy_spec path text w :
  ∃ written, written `prefix_of` text ∧ text_of (write_policy path text w).1 path = text_of w path ++ written
    ∧ ((write_policy path text w).2 = Ok tt → written = text)
    ∧ ∀ p, p ≠ path → contents (write_policy path text w).1 p = contents w p.
Proof.
  unfold write_policy, text_of. destruct (append_contents path text w) as (written & Hpre & Hc & Hok).
  pose proof (append_other path text w) as Ho. destruct (append_file path text w) as [w' r]. simpl in *.
  exists written. split_and!; [done..| |by intros p Hp; apply Ho]. destruct r as [[]|]; [|done]. intros _. by apply Hok.
Qed.

Lemma append_locked_line_amends path line w : amended path line w (append_locked_line path line w).
Proof.
  unfold append_locked_line. destruct (opened_frame path w) as [Ho Ht].
  destruct (open_append path w) as [w1 opened]. simpl in Ho, Ht.
  destruct opened as [[]|e]; [|by apply amended_nothing]. destruct (lock_file path w1); [|by apply amended_nothing].
  destruct (seek_start path w1); [|by apply amended_nothing].
  destruct (read_file path w1) as [text|] eqn:Hread; [|by apply amended_nothing].
  apply read_contents in Hread. assert (text = text_of w path) as -> by (by rewrite -Ht /text_of Hread).
  unfold amended, missing_text. destruct (existsb _ _).
  { split; [done|]. exists []. split; [done|]. by rewrite app_nil_r. }
  set (sep := if _ && _ then [ch_nl] else []).
  assert (∃ w2 r sep', (if negb (is_empty (text_of w path)) && negb (ends_with [ch_nl] (text_of w path))
      then write_policy path [ch_nl] w1 else (w1, Ok tt)) = (w2, r) ∧ sep' `prefix_of` sep
      ∧ text_of w2 path = text_of w path ++ sep' ∧ (r = Ok tt → sep' = sep) ∧ ∀ p, p ≠ path → contents w2 p = contents w p)
    as (w2 & r & sep' & -> & Hpre & Ht2 & Hsep & Ho2).
  { subst sep. destruct (_ && _).
    - destruct (write_policy_spec path [ch_nl] w1) as (sep' & ? & ? & ? & Ho'). destruct (write_policy path [ch_nl] w1) as [w2 r].
      exists w2, r, sep'. simpl in *. rewrite -Ht. split_and!; try done. intros p Hp. by rewrite Ho' // Ho.
    - exists w1, (Ok tt), []. by rewrite app_nil_r Ht. }
  destruct r as [[]|e].
  - rewrite (Hsep eq_refl) in Ht2. destruct (write_policy_spec path (line ++ [ch_nl]) w2) as (written & Hw & Ht3 & Hok & Ho3).
    split; [intros p Hp; by rewrite Ho3 // Ho2|]. exists (sep ++ written). split; [by apply prefix_app|]. split.
    + by rewrite Ht3 Ht2 app_assoc.
    + intros Hr. by rewrite (Hok Hr).
  - split; [done|]. exists sep'. split_and!; [|done..]. by apply prefix_app_r.
Qed.

Lemma append_rule_line_amends path line w : amended path line w (append_rule_line path line w).
Proof.
  unfold append_rule_line. destruct (path_parent path) as [dir|]; [|by apply amended_nothing].
  pose proof (create_dir_keeps dir w) as Hk. destruct (create_dir dir w) as [w1 created]. simpl in Hk.
  assert (text_of w1 path = text_of w path) as Ht by (by rewrite /text_of Hk).
  assert (amended path line w (append_locked_line path line w1)) as H2.
  { destruct (append_locked_line_amends path line w1) as [Ho Hw]. split; [intros p Hp; by rewrite Ho // Hk|]. by rewrite Ht in Hw. }
  destruct created as [|[|source]]; [exact H2..|]. by apply amended_nothing.
Qed.

(** ** The lines of rules *)

Lemma no_newline_join sep (ls : list str) : ch_nl ∉ sep → Forall (λ l, ch_nl ∉ l) ls → ch_nl ∉ join sep ls.
Proof.
  intros Hs. induction 1 as [|l ls Hl _ IH]; [by apply not_elem_of_nil|]. destruct ls as [|l' ls]; [done|].
  rewrite join_cons // !not_elem_of_app. tauto.
Qed.

Lemma literal_no_newline (s : string) : contains_char ch_nl (lit s) = false → ch_nl ∉ lit s.
Proof. apply contains_char_false. Qed.

Lemma rule_line_ok body : ch_nl ∉ body → line_ok (body ++ lit ")").
Proof.
  intros Hb. split; [|by rewrite last_snoc]. rewrite not_elem_of_app. split; [done|]. by apply literal_no_newline.
Qed.

Lemma mapM_Ok {E A B} (f : A → result E B) l k : mapM f l = Ok k → Forall2 (λ x y, f x = Ok y) l k.
Proof.
  revert k. induction l as [|x l IH]; intros k; simpl; [by intros [= <-]|].
  intros (y & Hy & (ys & Hys & [= <-])%bind_Ok)%bind_Ok. constructor; [done|]. by apply IH.
Qed.

Lemma allow_prefix_line_ok prefix rule : allow_prefix_line prefix = Ok rule → line_ok rule.
Proof.
  unfold allow_prefix_line. destruct (is_empty prefix); [done|]. intros (tokens & Ht%map_err_Ok%mapM_Ok & [= <-])%bind_Ok.
  assert (ch_nl ∉ join (lit ", ") tokens) as Hj.
  { apply no_newline_join; [by apply literal_no_newline|]. induction Ht; constructor; [by eapply json_string_line|done]. }
  apply rule_line_ok. rewrite !not_elem_of_app. split_and!; by [|apply contains_char_false].
Qed.

Lemma network_rule_line_ok host protocol decision justification rule :
  network_rule_line host protocol decision justification = Ok rule → line_ok rule.
Proof.
  unfold network_rule_line. intros (h & _ & Hrest)%bind_Ok. destruct (match justification with Some _ => _ | _ => _ end); [done|].
  apply bind_Ok in Hrest as (jh & Hh%map_err_Ok%json_string_line & Hrest).
  apply bind_Ok in Hrest as (jp & Hp%map_err_Ok%json_string_line & Hrest).
  apply bind_Ok in Hrest as (jd & Hd%map_err_Ok%json_string_line & Hrest).
  apply bind_Ok in Hrest as (jj & Hj & Hr). cbn zeta in Hr.
  match type of Hr with Ok ?t = _ => assert (rule = t) as -> by congruence end. apply rule_line_ok.
  rewrite not_elem_of_app. split; [by apply literal_no_newline|].
  assert (∀ (k : string) v, contains_char ch_nl (lit k) = false → ch_nl ∉ v → ch_nl ∉ lit k ++ v) as Hkv.
  { intros k v Hk Hv. rewrite not_elem_of_app. split; [by apply literal_no_newline|done]. }
  apply no_newline_join; [by apply literal_no_newline|]. rewrite Forall_app. split; [repeat constructor; by apply Hkv|].
  destruct justification as [raw|]; [|by injection Hj as <-].
  apply bind_Ok in Hj as (j & Hjs%map_err_Ok%json_string_line & Hjr).
  match type of Hjr with Ok ?t = _ => assert (jj = t) as -> by congruence end. constructor; [by apply Hkv|done].
Qed.

(** ** One line *)

(** The rules the two functions write. *)
Definition amendment_line (rule : str) : Prop :=
  (∃ prefix, allow_prefix_line prefix = Ok rule)
  ∨ ∃ host protocol decision justification, network_rule_line host protocol decision justification = Ok rule.

Lemma existsb_line line l : existsb (λ existing, existing =s? line) l = bool_decide (line ∈ l).
Proof.
  apply eq_true_iff_eq. rewrite bool_decide_eq_true existsb_exists. split.
  - intros (x & Hx%list_elem_of_In & ->%str_eqb_eq). done.
  - intros Hx%list_elem_of_In. exists line. split; [done|apply str_eqb_refl].
Qed.

Lemma missing_text_lines rule before :
  line_ok rule → last before ≠ Some ch_cr →
  lines (before ++ missing_text rule before)
  = if bool_decide (rule ∈ lines before) then lines before else lines before ++ [rule].
Proof.
  intros Hr Hb. unfold missing_text. rewrite existsb_line. case_bool_decide; [by rewrite app_nil_r|]. by apply lines_appended.
Qed.

(** An amendment appends one line: on success the lines of the file are those it
    had and the rule, once; a second amendment changes nothing. Whatever fails, the
    text of the file is kept and at most a beginning of the line follows it; other
    files are as they were. A carriage return that ends the file without a newline
    is excepted, since the newline makes it part of a line end. *)
Theorem amending_appends_one_line path rule w w' r :
  amendment_line rule → append_rule_line path rule w = (w', r) →
  (∀ p, p ≠ path → contents w' p = contents w p)
  ∧ (∃ written, written `prefix_of` missing_text rule (text_of w path) ∧ text_of w' path = text_of w path ++ written)
  ∧ (r = Ok tt → last (text_of w path) ≠ Some ch_cr →
       lines (text_of w' path)
         = (if bool_decide (rule ∈ lines (text_of w path)) then lines (text_of w path) else lines (text_of w path) ++ [rule])
       ∧ rule ∈ lines (text_of w' path)
       ∧ ∀ w'' r', append_rule_line path rule w' = (w'', r') → text_of w'' path = text_of w' path).
Proof.
  intros Hline Hout. assert (line_ok rule) as Hok.
  { destruct Hline as [[prefix H1]|(h & p & d & j & H1)]; [by eapply allow_prefix_line_ok|by eapply network_rule_line_ok]. }
  destruct (append_rule_line_amends path rule w) as [Ho (written & Hpre & Ht & Hsucc)]. rewrite Hout /= in Ho Ht Hsucc.
  split; [done|]. split; [by exists written|]. intros Hr Hcr. rewrite (Hsucc Hr) in Ht.
  assert (rule ∈ lines (text_of w' path)) as Hin.
  { rewrite Ht missing_text_lines //. case_bool_decide; [done|]. rewrite elem_of_app list_elem_of_singleton. by right. }
  split; [by rewrite Ht missing_text_lines|]. split; [done|]. intros w'' r' Hout'.
  destruct (append_rule_line_amends path rule w') as [_ (written' & Hpre' & Ht' & _)]. rewrite Hout' /= in Ht'.
  unfold missing_text in Hpre'. rewrite existsb_line bool_decide_eq_true_2 // in Hpre'.
  apply prefix_nil_inv in Hpre' as ->. by rewrite Ht' app_nil_r.
Qed.
End amended.

(** ** A file system for the witness *)

Definition stored (w : gmap str str) (p : str) : str := match w !! p with Some t => t | None => [] end.

Definition map_files : PolicyFiles := {|
  Files := gmap str str;
  create_dir _ w := (w, Err AlreadyExists);
  open_append path w := (<[path := stored w path]> w, Ok tt);
  lock_file _ _ := Ok tt;
  seek_start _ _ := Ok tt;
  read_file path w := ok_or (lit "not found") (w !! path);
  append_file path text w := (<[path := stored w path ++ text : str]> w, Ok tt);
  json_string s := if contains_char ch_nl s then Err (lit "newline") else Ok ([34%N] ++ s ++ [34%N]);
  error_text _ := lit "invalid rule"
|}.

#[refine] Definition map_files_laws : @PolicyFileLaws map_files := {| contents w p := w !! p |}.
Proof.
  - done.
  - simpl. intros path w p. destruct (decide (p = path)) as [->|Hne]; [|by left; rewrite lookup_insert_ne].
    rewrite lookup_insert_eq. unfold stored. destruct (w !! path); [by left|right; by split_and!].
  - simpl. intros path w text. by destruct (w !! path); [intros [= ->]|].
  - simpl. intros path text w. exists text. simpl. rewrite lookup_insert_eq. split; [done|]. split; [|done]. unfold stored. by destruct (w !! path).
  - intros path text w p Hne. simpl. by rewrite lookup_insert_ne.
  - intros s t. simpl. destruct (contains_char ch_nl s) eqn:Hc; [done|]. intros [= <-].
    apply contains_char_false in Hc. rewrite !not_elem_of_cons not_elem_of_app. split; [done|]. split; [done|].
    by apply contains_char_false.
Defined.

Definition rules_file : str := lit "/home/codex/rules/default.rules".
Definition one_rule : @Files map_files := {[rules_file := lit "# rules"]}.
Definition git_rule : str := allow_rule [[34%N] ++ lit "git" ++ [34%N]; [34%N] ++ lit "log" ++ [34%N]].

Lemma amending_appends_one_line_witness :
  lines (@text_of map_files map_files_laws (@append_rule_line map_files rules_file git_rule one_rule).1 rules_file)
  = [lit "# rules"; git_rule].
Proof.
  destruct (@amending_appends_one_line map_files map_files_laws rules_file git_rule one_rule
    (@append_rule_line map_files rules_file git_rule one_rule).1 (Ok tt)) as (_ & _ & H).
  - left. exists [lit "git"; lit "log"]. vm_compute. reflexivity.
  - vm_compute. reflexivity.
  - destruct H as [H _]; [reflexivity|vm_compute; discriminate|]. rewrite H. vm_compute. reflexivity.
Defined.
