(* ===== verification/ExecApproval.v ===== *)
(** Whether a command of the agent runs, asks or is refused:
    [codex-rs/core/src/exec_policy.rs], up to the loading of policies, as it is
    compiled for Linux. A command is split into the commands of its script, each of
    which is decided by the rules of the policy or, without any, by what is known
    of it; the severest decision counts. *)
From S2P Require Import Prelude Json Paths Types Host AbsolutePath Permissions ExecRules ExecPolicy ExecPolicyParser.
From S2P Require Import ShellScripts CommandSafety ExecAmend.
#[local] Open Scope nat_scope.

(** ** [protocol.rs], [models.rs], [permissions.rs], [approvals.rs], [sandboxing.rs] *)

Record GranularApprovalConfig := MkGranular {
  sandbox_approval : bool; granular_rules : bool; skill_approval : bool; request_permissions : bool; mcp_elicitations : bool
}.
Inductive AskForApproval : Type := UnlessTrusted | OnFailure | OnRequest | Granular (config : GranularApprovalConfig) | Never.

Definition allows_sandbox_approval (self : GranularApprovalConfig) : bool := sandbox_approval self.
Definition allows_rules_approval (self : GranularApprovalConfig) : bool := granular_rules self.

Inductive SandboxPermissions : Type := UseDefault | RequireEscalated | WithAdditionalPermissions.
Definition requests_sandbox_override (self : SandboxPermissions) : bool :=
  match self with UseDefault => false | RequireEscalated | WithAdditionalPermissions => true end.

(** The permissions of a managed profile and of its network are not looked at. *)
Inductive PermissionProfile (FileSystem Network : Type) : Type :=
| Managed (file_system : FileSystem) (network : Network)
| Disabled
| External (network : Network).
Arguments Managed {_ _}. Arguments Disabled {_ _}. Arguments External {_ _}.


(** An amendment is the tokens of its prefix. *)
Definition ExecPolicyAmendment : Type := list str.

Inductive ExecApprovalRequirement : Type :=
| Skip (bypass_sandbox : bool) (proposed_execpolicy_amendment : option ExecPolicyAmendment)
| NeedsApproval (reason : option str) (proposed_execpolicy_amendment : option ExecPolicyAmendment)
| ForbiddenCommand (reason : str).

(** ** Constants *)

Definition PROMPT_CONFLICT_REASON : str := lit "approval required by policy, but AskForApproval is set to Never".
Definition REJECT_SANDBOX_APPROVAL_REASON : str :=
  lit "approval required by policy, but AskForApproval::Granular.sandbox_approval is false".
Definition REJECT_RULES_APPROVAL_REASON : str :=
  lit "approval required by policy rule, but AskForApproval::Granular.rules is false".

Definition BANNED_PREFIX_SUGGESTIONS : list (list str) :=
  map (map lit)
    [["python3"]; ["python3"; "-"]; ["python3"; "-c"]; ["python"]; ["python"; "-"]; ["python"; "-c"]; ["py"]; ["py"; "-3"];
     ["pythonw"]; ["pyw"]; ["pypy"]; ["pypy3"]; ["git"]; ["bash"]; ["bash"; "-lc"]; ["sh"]; ["sh"; "-c"]; ["sh"; "-lc"];
     ["zsh"]; ["zsh"; "-lc"]; ["/bin/zsh"]; ["/bin/zsh"; "-lc"]; ["/bin/bash"]; ["/bin/bash"; "-lc"]; ["pwsh"];
     ["pwsh"; "-Command"]; ["pwsh"; "-c"]; ["powershell"]; ["powershell"; "-Command"]; ["powershell"; "-c"];
     ["powershell.exe"]; ["powershell.exe"; "-Command"]; ["powershell.exe"; "-c"]; ["env"]; ["sudo"]; ["node"];
     ["node"; "-e"]; ["perl"]; ["perl"; "-e"]; ["ruby"]; ["ruby"; "-e"]; ["php"]; ["php"; "-r"]; ["lua"]; ["lua"; "-e"];
     ["osascript"]].

(** ** Prompts *)

Definition is_policy_match (rule_match : RuleMatch) : bool :=
  match rule_match with PrefixRuleMatch _ _ _ _ => true | HeuristicsRuleMatch _ _ => false end.
Definition is_policy_decision (d : Decision) (rule_match : RuleMatch) : bool :=
  is_policy_match rule_match && bool_decide (match_decision rule_match = d).

Definition prompt_is_rejected_by_policy (approval_policy : AskForApproval) (prompt_is_rule : bool) : option str :=
  match approval_policy with
  | Never => Some PROMPT_CONFLICT_REASON
  | OnFailure => None
  | OnRequest => None
  | UnlessTrusted => None
  | Granular granular_config =>
      if prompt_is_rule then
        if negb (allows_rules_approval granular_config) then Some REJECT_RULES_APPROVAL_REASON else None
      else if negb (allows_sandbox_approval granular_config) then Some REJECT_SANDBOX_APPROVAL_REASON
      else None
  end.

(** ** Amendments *)

Definition try_derive_execpolicy_amendment_for_prompt_rules (matched_rules : list RuleMatch) : option ExecPolicyAmendment :=
  if existsb (is_policy_decision Prompt) matched_rules then None
  else head (omap (λ m, match m with HeuristicsRuleMatch command Prompt => Some command | _ => None end) matched_rules).

Definition try_derive_execpolicy_amendment_for_allow_rules (matched_rules : list RuleMatch) : option ExecPolicyAmendment :=
  if existsb is_policy_match matched_rules then None
  else head (omap (λ m, match m with HeuristicsRuleMatch command Allow => Some command | _ => None end) matched_rules).

Section approval.
Context {TS : TreeSitter} {PL : PolicyLibraries} {FileSystem Network : Type}.
Context (parse_with_powershell_ast : str → str → PowershellParseOutcome).
Context (home_dir : option str) (current_dir : result str str).

Record ExecApprovalRequest := MkRequest {
  req_command : list str;
  req_approval_policy : AskForApproval;
  req_permission_profile : PermissionProfile FileSystem Network;
  req_file_system_sandbox_kind : FileSystemSandboxKind;
  req_sandbox_permissions : SandboxPermissions;
  req_prefix_rule : option (list str)
}.

(** [environment_lacks_sandbox_protections] is false but on Windows. *)
Definition render_decision_for_unmatched_command (approval_policy : AskForApproval)
    (permission_profile : PermissionProfile FileSystem Network) (kind : FileSystemSandboxKind) (command : list str)
    (sandbox_permissions : SandboxPermissions) (used_complex_parsing : bool) : Decision :=
  if is_known_safe_command parse_with_powershell_ast command && negb used_complex_parsing then Allow
  else if command_might_be_dangerous command then
    match approval_policy with
    | Never => match permission_profile with Disabled | External _ => Allow | Managed _ _ => Forbidden end
    | OnFailure | OnRequest | UnlessTrusted | Granular _ => Prompt
    end
  else
    match approval_policy with
    | Never | OnFailure => Allow
    | UnlessTrusted => Prompt
    | OnRequest | Granular _ =>
        match kind with
        | Unrestricted | ExternalSandbox => Allow
        | Restricted => if requests_sandbox_override sandbox_permissions then Prompt else Allow
        end
    end.

Definition commands_for_exec_policy (command : list str) : list (list str) * bool :=
  match opt_filter (λ commands, negb (is_empty commands)) (parse_shell_lc_plain_commands command) with
  | Some commands => (commands, false)
  | None =>
      match parse_shell_lc_single_command_prefix command with
      | Some single_command => ([single_command], true)
      | None => ([command], false)
      end
  end.

(** [None] where the evaluation of a command panics, which it never does. *)
Definition prefix_rule_would_approve_all_commands (exec_policy : Policy) (prefix_rule : list str) (commands : list (list str))
    (exec_policy_fallback : list str → Decision) (match_options : MatchOptions) : bool :=
  match add_prefix_rule exec_policy prefix_rule Allow with
  | Err _ => false
  | Ok policy_with_prefix_rule =>
      forallb (λ command,
        match check_with_options home_dir current_dir policy_with_prefix_rule command exec_policy_fallback match_options with
        | Some ev => bool_decide (evaluation_decision ev = Allow)
        | None => false
        end) commands
  end.

Definition derive_requested_execpolicy_amendment_from_prefix_rule (prefix_rule : option (list str)) (matched_rules : list RuleMatch)
    (exec_policy : Policy) (commands : list (list str)) (exec_policy_fallback : list str → Decision)
    (match_options : MatchOptions) : option ExecPolicyAmendment :=
  prefix_rule ← prefix_rule;
  if is_empty prefix_rule then None
  else if bool_decide (prefix_rule ∈ BANNED_PREFIX_SUGGESTIONS) then None
  else if existsb is_policy_match matched_rules then None
  else if prefix_rule_would_approve_all_commands exec_policy prefix_rule commands exec_policy_fallback match_options
  then Some prefix_rule else None.

(** ** Reasons *)

Definition render_shlex_command (args : list str) : str := default (join (lit " ") args) (shlex_try_join args).

Definition matched_prefixes (d : Decision) (matched_rules : list RuleMatch) : list (list str * option str) :=
  omap (λ m, match m with
             | PrefixRuleMatch matched_prefix decision _ justification =>
                 if bool_decide (decision = d) then Some (matched_prefix, justification) else None
             | HeuristicsRuleMatch _ _ => None
             end) matched_rules.
Definition most_specific (d : Decision) (matched_rules : list RuleMatch) : option (list str * option str) :=
  max_by_key (λ '(matched_prefix, _), Z.of_nat (length matched_prefix)) (matched_prefixes d matched_rules).

Definition derive_prompt_reason (command_args : list str) (evaluation : Evaluation) : option str :=
  let command := render_shlex_command command_args in
  match most_specific Prompt (matched_rules evaluation) with
  | Some (_, Some justification) => Some (lit "`" ++ command ++ lit "` requires approval: " ++ justification)
  | Some (_, None) => Some (lit "`" ++ command ++ lit "` requires approval by policy")
  | None => None
  end.

Definition derive_forbidden_reason (command_args : list str) (evaluation : Evaluation) : str :=
  let command := render_shlex_command command_args in
  match most_specific Forbidden (matched_rules evaluation) with
  | Some (_, Some justification) => lit "`" ++ command ++ lit "` rejected: " ++ justification
  | Some (matched_prefix, None) =>
      lit "`" ++ command ++ lit "` rejected: policy forbids commands starting with `" ++ render_shlex_command matched_prefix ++ lit "`"
  | None => lit "`" ++ command ++ lit "` rejected: blocked by policy"
  end.

(** ** The requirement *)

(** [None] where the evaluation panics. *)
Definition create_exec_approval_requirement_for_command (exec_policy : Policy) (req : ExecApprovalRequest) :
    option ExecApprovalRequirement :=
  let command := req_command req in
  let '(commands, used_complex_parsing) := commands_for_exec_policy command in
  let auto_amendment_allowed := negb used_complex_parsing in
  let exec_policy_fallback cmd :=
    render_decision_for_unmatched_command (req_approval_policy req) (req_permission_profile req)
      (req_file_system_sandbox_kind req) cmd (req_sandbox_permissions req) used_complex_parsing in
  let match_options := MkMatchOptions true in
  evaluation ← check_multiple_with_options home_dir current_dir exec_policy commands exec_policy_fallback match_options;
  let requested_amendment :=
    derive_requested_execpolicy_amendment_from_prefix_rule (req_prefix_rule req) (matched_rules evaluation) exec_policy commands
      exec_policy_fallback match_options in
  Some
    match evaluation_decision evaluation with
    | Forbidden => ForbiddenCommand (derive_forbidden_reason command evaluation)
    | Prompt =>
        let prompt_is_rule := existsb (is_policy_decision Prompt) (matched_rules evaluation) in
        match prompt_is_rejected_by_policy (req_approval_policy req) prompt_is_rule with
        | Some reason => ForbiddenCommand reason
        | None =>
            NeedsApproval (derive_prompt_reason command evaluation)
              (or_else requested_amendment
                 (if auto_amendment_allowed then try_derive_execpolicy_amendment_for_prompt_rules (matched_rules evaluation)
                  else None))
        end
    | Allow =>
        Skip
          (forallb (λ command,
             existsb (is_policy_decision Allow)
               (matches_for_command_with_options home_dir current_dir exec_policy command None match_options)) commands)
          (if auto_amendment_allowed then try_derive_execpolicy_amendment_for_allow_rules (matched_rules evaluation) else None)
    end.
End approval.

(** ** Updates of the policy *)

Definition RULES_DIR_NAME : str := lit "rules".
Definition RULE_EXTENSION : str := lit "rules".
Definition DEFAULT_POLICY_FILE : str := lit "default.rules".
Definition default_policy_path (codex_home : str) : str := path_join (path_join codex_home RULES_DIR_NAME) DEFAULT_POLICY_FILE.

(** The task that writes the file does not panic, and the lock of updates is never
    closed: the other errors of the code do not occur. *)
Inductive ExecPolicyUpdateError : Type :=
| AppendRule (path : str) (source : AmendError)
| AddRule (source : Error).

Section updates.
Context {PF : PolicyFiles} (home_dir : option str) (current_dir : result str str).

(** The policy in memory and the files, under the lock of updates. *)
Record ExecPolicyManager := MkManager { current : Policy; files : Files }.

Definition already_allowed (policy : Policy) (command : list str) : bool :=
  match check_multiple_with_options home_dir current_dir policy [command] (λ _, Forbidden) (MkMatchOptions true) with
  | Some ev => bool_decide (evaluation_decision ev = Allow) && existsb (is_policy_decision Allow) (matched_rules ev)
  | None => false
  end.

Definition append_amendment_and_update (codex_home : str) (amendment : ExecPolicyAmendment) (m : ExecPolicyManager) :
    ExecPolicyManager * result ExecPolicyUpdateError unit :=
  let policy_path := default_policy_path codex_home in
  let '(w, appended) := blocking_append_allow_prefix_rule policy_path amendment (files m) in
  let m := MkManager (current m) w in
  match appended with
  | Err source => (m, Err (AppendRule policy_path source))
  | Ok _ =>
      if already_allowed (current m) amendment then (m, Ok tt)
      else
        match add_prefix_rule (current m) amendment Allow with
        | Err source => (m, Err (AddRule source))
        | Ok updated_policy => (MkManager updated_policy w, Ok tt)
        end
  end.

Definition append_network_rule_and_update (codex_home host : str) (protocol : NetworkRuleProtocol) (decision : Decision)
    (justification : option str) (m : ExecPolicyManager) : ExecPolicyManager * result ExecPolicyUpdateError unit :=
  let policy_path := default_policy_path codex_home in
  let '(w, appended) := blocking_append_network_rule policy_path host protocol decision justification (files m) in
  let m := MkManager (current m) w in
  match appended with
  | Err source => (m, Err (AppendRule policy_path source))
  | Ok _ =>
      match add_network_rule (current m) host protocol decision justification with
      | Err source => (m, Err (AddRule source))
      | Ok updated_policy => (MkManager updated_policy w, Ok tt)
      end
  end.
End updates.

(** ** Loading policies *)

Inductive ExecPolicyError : Type :=
| ReadDir (dir source : str)
| ReadFile (path source : str)
| ParsePolicy (path : str) (source : Error).

(** A directory of rules: how reading it fails, and its entries, each with its
    path and whether it is a file. *)
Inductive ReadDirError : Type := NotFound | ReadDirFailed (source : str).
Class RulesDirs := {
  read_dir : str → result ReadDirError (list (result str (str * result str bool)));
  read_policy_text : str → result str str
}.

Inductive ConfigLayerSource : Type :=
| Mdm (domain key : str)
| System (file : str)
| User (file : str)
| Project (dot_codex_folder : str)
| SessionFlags
| LegacyManagedConfigTomlFromFile (file : str)
| LegacyManagedConfigTomlFromMdm.

(** What the code asks of the stack of configurations: the enabled layers, the
    lowest precedence first, each with its folder. *)
Record ConfigLayerStack := MkStack {
  enabled_layers : list (ConfigLayerSource * option str);
  ignore_user_and_project_exec_policy_rules : bool;
  requirements_exec_policy : option Policy
}.

Section loading.
Context {PL : PolicyLibraries} {RD : RulesDirs} {HO : HashOrder} (home_dir : option str) (current_dir : result str str).

Definition is_rules_file (path : str) (is_file : bool) : bool :=
  match extension path with Some ext => ext =s? RULE_EXTENSION | None => false end && is_file.

Fixpoint collect_entries (dir : str) (entries : list (result str (str * result str bool))) (policy_paths : list str) :
    result ExecPolicyError (list str) :=
  match entries with
  | [] => Ok policy_paths
  | entry :: rest =>
      '(path, file_type) ← map_err (ReadDir dir) entry;
      is_file ← map_err (ReadDir dir) file_type;
      collect_entries dir rest (if is_rules_file path is_file then policy_paths ++ [path] else policy_paths)
  end.

Definition collect_policy_files (dir : str) : result ExecPolicyError (list str) :=
  match read_dir dir with
  | Err NotFound => Ok []
  | Err (ReadDirFailed source) => Err (ReadDir dir source)
  | Ok entries => policy_paths ← collect_entries dir entries []; Ok (sort_by path_le policy_paths)
  end.

Definition is_ignored_layer (config_stack : ConfigLayerStack) (name : ConfigLayerSource) : bool :=
  ignore_user_and_project_exec_policy_rules config_stack && match name with User _ | Project _ => true | _ => false end.

Fixpoint layer_policy_files (config_stack : ConfigLayerStack) (layers : list (ConfigLayerSource * option str)) :
    result ExecPolicyError (list str) :=
  match layers with
  | [] => Ok []
  | (name, config_folder) :: rest =>
      if is_ignored_layer config_stack name then layer_policy_files config_stack rest
      else
        layer_policy_paths ← match config_folder with
                             | Some config_folder => collect_policy_files (path_join config_folder RULES_DIR_NAME)
                             | None => Ok []
                             end;
        policy_paths ← layer_policy_files config_stack rest;
        Ok (layer_policy_paths ++ policy_paths)
  end.

Fixpoint parse_policy_files (b : PolicyBuilder) (policy_paths : list str) : result ExecPolicyError PolicyBuilder :=
  match policy_paths with
  | [] => Ok b
  | policy_path :: rest =>
      contents ← map_err (ReadFile policy_path) (read_policy_text policy_path);
      let '(b, parsed) := parse home_dir current_dir b policy_path contents in
      _ ← map_err (ParsePolicy policy_path) parsed;
      parse_policy_files b rest
  end.

Definition load_exec_policy (config_stack : ConfigLayerStack) : result ExecPolicyError Policy :=
  policy_paths ← layer_policy_files config_stack (enabled_layers config_stack);
  parser ← parse_policy_files builder_new policy_paths;
  let policy := build parser in
  match requirements_exec_policy config_stack with
  | None => Ok policy
  | Some requirements_policy => Ok (merge_overlay policy requirements_policy)
  end.

Definition load_exec_policy_with_warning (config_stack : ConfigLayerStack) : result ExecPolicyError (Policy * option ExecPolicyError) :=
  match load_exec_policy config_stack with
  | Ok policy => Ok (policy, None)
  | Err (ParsePolicy path source) => Ok (empty_policy, Some (ParsePolicy path source))
  | Err err => Err err
  end.

Definition check_execpolicy_for_warnings (config_stack : ConfigLayerStack) : result ExecPolicyError (option ExecPolicyError) :=
  '(_, warning) ← load_exec_policy_with_warning config_stack; Ok warning.
End loading.

(** ** What decides *)

Section decided.
Context {TS : TreeSitter} {PL : PolicyLibraries} {FileSystem Network : Type}.
Context (parse_with_powershell_ast : str → str → PowershellParseOutcome).
Context (home_dir : option str) (current_dir : result str str).

(** The rules that match a command, under its own name or that of its file. *)
Abbreviation rules_of := (example_matches home_dir current_dir).

Lemma matches_rules_of policy cmd f :
  matches_for_command_with_options home_dir current_dir policy cmd (Some f) (MkMatchOptions true)
  = if is_empty (rules_of policy cmd) then [HeuristicsRuleMatch cmd (f cmd)] else rules_of policy cmd.
Proof.
  rewrite matches_for_command_eq example_matches_eq. simpl. destruct (is_empty (applicable policy cmd)) eqn:He; simpl; [|by rewrite He].
  done.
Qed.

Lemma rule_matches_policy rule cmd m : rule_matches rule cmd = Some m → is_policy_match m = true.
Proof. unfold rule_matches. by intros (prefix & _ & [= <-])%bind_Some. Qed.

Lemma rules_of_policy policy cmd m : m ∈ rules_of policy cmd → is_policy_match m = true.
Proof.
  rewrite example_matches_eq. assert (m ∈ applicable policy cmd → is_policy_match m = true) as Happ.
  { unfold applicable. destruct (head cmd) as [first|]; [|by intros ?%elem_of_nil].
    intros (rule & _ & Hm)%list_elem_of_omap. by eapply rule_matches_policy. }
  destruct (negb _); [done|]. unfold match_host_executable_rules. destruct cmd as [|first args]; [by intros ?%elem_of_nil|].
  repeat (case_match; try by intros ?%elem_of_nil);
    intros (m' & -> & (rule & _ & Hm)%list_elem_of_omap)%list_elem_of_fmap; apply rule_matches_policy in Hm; by destruct m'.
Qed.

Lemma commands_not_empty command : (commands_for_exec_policy command).1 ≠ [].
Proof.
  unfold commands_for_exec_policy. destruct (opt_filter _ _) as [commands|] eqn:Hp.
  - destruct (parse_shell_lc_plain_commands command) as [l|]; [|done]. simpl in Hp. destruct (is_empty l) eqn:He; [done|].
    injection Hp as <-. simpl. by apply is_empty_false.
  - by destruct (parse_shell_lc_single_command_prefix command).
Qed.

(** The decisions on a command: those of its rules, or the one of the fallback. *)
Definition decided (policy : Policy) (f : list str → Decision) (cmd : list str) (d : Decision) : Prop :=
  (rules_of policy cmd = [] ∧ f cmd = d) ∨ ∃ m, m ∈ rules_of policy cmd ∧ match_decision m = d.

Lemma decided_some policy f cmd : ∃ d, decided policy f cmd d.
Proof.
  destruct (rules_of policy cmd) as [|m l] eqn:H; [exists (f cmd); by left|]. exists (match_decision m). right. exists m.
  split; [|done]. rewrite H. apply elem_of_cons. by left.
Qed.

Lemma evaluation_spec policy commands f :
  commands ≠ [] →
  ∃ ev, check_multiple_with_options home_dir current_dir policy commands f (MkMatchOptions true) = Some ev
    ∧ matched_rules ev = (cmd ← commands; if is_empty (rules_of policy cmd) then [HeuristicsRuleMatch cmd (f cmd)] else rules_of policy cmd)
    ∧ (∃ cmd, cmd ∈ commands ∧ decided policy f cmd (evaluation_decision ev))
    ∧ ∀ cmd d, cmd ∈ commands → decided policy f cmd d → decision_le d (evaluation_decision ev) = true.
Proof.
  intros Hne. unfold check_multiple_with_options.
  set (l := command ← commands; _). assert (l = (cmd ← commands; if is_empty (rules_of policy cmd) then [HeuristicsRuleMatch cmd (f cmd)] else rules_of policy cmd)) as Hl.
  { unfold l. clear. induction commands as [|c cs IH]; [done|]. cbn [mbind list_bind]. by rewrite matches_rules_of IH. }
  assert (∀ d, (∃ m, m ∈ l ∧ match_decision m = d) ↔ ∃ cmd, cmd ∈ commands ∧ decided policy f cmd d) as Hdec.
  { intros d. rewrite Hl. setoid_rewrite list_elem_of_bind. split.
    - intros (m & (cmd & Hm & Hcmd) & <-). exists cmd. split; [done|]. destruct (is_empty (rules_of policy cmd)) eqn:He.
      + apply list_elem_of_singleton in Hm as ->. left. split; [by apply is_empty_true|done].
      + right. by exists m.
    - intros (cmd & Hcmd & [[Hr <-]|(m & Hm & <-)]).
      + exists (HeuristicsRuleMatch cmd (f cmd)). split; [|done]. exists cmd. rewrite Hr. split; [|done]. by apply list_elem_of_singleton.
      + exists m. split; [|done]. exists cmd. split; [|done]. destruct (is_empty (rules_of policy cmd)) eqn:He; [|done].
        apply is_empty_true in He. rewrite He in Hm. by apply elem_of_nil in Hm. }
  destruct (from_matches_spec l) as (ev & Hev & Hm & Hex & Hall).
  { destruct commands as [|cmd commands]; [done|]. intros Hnil. destruct (decided_some policy f cmd) as [d Hd].
    destruct (proj2 (Hdec d)) as (m & Hin & _); [exists cmd; split; [apply elem_of_cons; by left|done]|].
    rewrite Hnil in Hin. by apply elem_of_nil in Hin. }
  exists ev. split; [done|]. split; [by rewrite Hm|]. split; [by apply Hdec|].
  intros cmd d Hcmd Hd. destruct (proj2 (Hdec d)) as (m & Hin & <-); [by exists cmd|]. by apply Hall.
Qed.

(** ** The requirement *)

Abbreviation create := (create_exec_approval_requirement_for_command (FileSystem := FileSystem) (Network := Network)
  parse_with_powershell_ast home_dir current_dir).
Abbreviation request := (ExecApprovalRequest (FileSystem := FileSystem) (Network := Network)).

Definition fallback (req : request) (cmd : list str) : Decision :=
  render_decision_for_unmatched_command parse_with_powershell_ast (req_approval_policy req) (req_permission_profile req)
    (req_file_system_sandbox_kind req) cmd (req_sandbox_permissions req) (commands_for_exec_policy (req_command req)).2.
Definition commands_of (req : request) : list (list str) := (commands_for_exec_policy (req_command req)).1.

Definition approval_of (policy : Policy) (req : request) (evaluation : Evaluation) : ExecApprovalRequirement :=
  match evaluation_decision evaluation with
  | Forbidden => ForbiddenCommand (derive_forbidden_reason (req_command req) evaluation)
  | Prompt =>
      match prompt_is_rejected_by_policy (req_approval_policy req) (existsb (is_policy_decision Prompt) (matched_rules evaluation)) with
      | Some reason => ForbiddenCommand reason
      | None =>
          NeedsApproval (derive_prompt_reason (req_command req) evaluation)
            (or_else
               (derive_requested_execpolicy_amendment_from_prefix_rule home_dir current_dir (req_prefix_rule req)
                  (matched_rules evaluation) policy (commands_of req) (fallback req) (MkMatchOptions true))
               (if negb (commands_for_exec_policy (req_command req)).2
                then try_derive_execpolicy_amendment_for_prompt_rules (matched_rules evaluation) else None))
      end
  | Allow =>
      Skip (forallb (λ cmd, existsb (is_policy_decision Allow) (rules_of policy cmd)) (commands_of req))
        (if negb (commands_for_exec_policy (req_command req)).2
         then try_derive_execpolicy_amendment_for_allow_rules (matched_rules evaluation) else None)
  end.

Lemma create_cases policy (req : request) :
  ∃ ev, create policy req = Some (approval_of policy req ev)
    ∧ matched_rules ev = (cmd ← commands_of req; if is_empty (rules_of policy cmd) then [HeuristicsRuleMatch cmd (fallback req cmd)]
                                                 else rules_of policy cmd)
    ∧ (∃ cmd, cmd ∈ commands_of req ∧ decided policy (fallback req) cmd (evaluation_decision ev))
    ∧ ∀ cmd d, cmd ∈ commands_of req → decided policy (fallback req) cmd d → decision_le d (evaluation_decision ev) = true.
Proof.
  destruct (evaluation_spec policy (commands_of req) (fallback req)) as (ev & Hev & Hspec); [apply commands_not_empty|].
  exists ev. split; [|exact Hspec]. unfold create_exec_approval_requirement_for_command. unfold fallback, commands_of in Hev.
  unfold approval_of, commands_of, fallback. destruct (commands_for_exec_policy (req_command req)) as [commands complex].
  simpl in Hev |- *. rewrite Hev. reflexivity.
Qed.

(** C6. The decisions of rules reach the requirement whatever the request asks: a
    command that any rule forbids is refused, and one that any rule wants approved
    never runs unasked; there is always a requirement. A command runs unasked only
    when every part of it is allowed by its rules, or by the fallback when it has
    none; and outside of the sandbox only when every part has rules. *)
Theorem rules_are_enforced policy (req : request) :
  ∃ r, create policy req = Some r
  ∧ (∀ cmd m, cmd ∈ commands_of req → m ∈ rules_of policy cmd →
       (match_decision m = Forbidden → ∃ reason, r = ForbiddenCommand reason)
       ∧ (match_decision m = Prompt → ∀ bypass amendment, r ≠ Skip bypass amendment))
  ∧ (∀ bypass amendment, r = Skip bypass amendment →
       (∀ cmd, cmd ∈ commands_of req → (∀ m, m ∈ rules_of policy cmd → match_decision m = Allow)
                                       ∧ (rules_of policy cmd = [] → fallback req cmd = Allow))
       ∧ (bypass = true ↔ ∀ cmd, cmd ∈ commands_of req → rules_of policy cmd ≠ [])).
Proof.
  destruct (create_cases policy req) as (ev & Hc & _ & _ & Hmax). exists (approval_of policy req ev). split; [done|]. unfold approval_of. split.
  - intros cmd m Hcmd Hm. assert (decided policy (fallback req) cmd (match_decision m)) as Hd by (right; by exists m).
    specialize (Hmax cmd _ Hcmd Hd). split; intros Hdec; rewrite Hdec in Hmax; destruct (evaluation_decision ev); try done; [eauto|].
    by case_match.
  - intros bypass amendment Hr. destruct (evaluation_decision ev); [|by case_match|done]. injection Hr as <- _.
    assert (∀ cmd, cmd ∈ commands_of req → ∀ d, decided policy (fallback req) cmd d → d = Allow) as Hallow.
    { intros cmd Hcmd d Hd. specialize (Hmax cmd d Hcmd Hd). by destruct d. }
    split.
    + intros cmd Hcmd. split; [intros m Hm|intros Hnil]; apply (Hallow cmd Hcmd); [right; by exists m|by left].
    + rewrite forallb_forall. setoid_rewrite <- list_elem_of_In. split; intros H cmd Hcmd; specialize (H cmd Hcmd).
      * apply existsb_exists in H as (m & Hm & _). intros Hnil. by rewrite Hnil in Hm.
      * destruct (rules_of policy cmd) as [|m l] eqn:Hl; [done|]. simpl.
        assert (m ∈ rules_of policy cmd) as Hm by (rewrite Hl; apply elem_of_cons; by left).
        unfold is_policy_decision. rewrite (rules_of_policy _ _ _ Hm) bool_decide_eq_true_2 //.
        apply (Hallow cmd Hcmd). right. by exists m.
Qed.

(** *** Asking *)

Lemma prompt_rules_spec policy (req : request) ev :
  matched_rules ev = (cmd ← commands_of req; if is_empty (rules_of policy cmd) then [HeuristicsRuleMatch cmd (fallback req cmd)]
                                             else rules_of policy cmd) →
  ∀ d, existsb (is_policy_decision d) (matched_rules ev) = true
       ↔ ∃ cmd m, cmd ∈ commands_of req ∧ m ∈ rules_of policy cmd ∧ match_decision m = d.
Proof.
  intros -> d. rewrite existsb_exists. setoid_rewrite <- list_elem_of_In. setoid_rewrite list_elem_of_bind.
  unfold is_policy_decision. split.
  - intros (m & (cmd & Hm & Hcmd) & [Hp Hd%bool_decide_eq_true]%andb_true_iff). exists cmd, m. split_and!; [done| |done].
    destruct (is_empty (rules_of policy cmd)); [|done]. apply list_elem_of_singleton in Hm as ->. done.
  - intros (cmd & m & Hcmd & Hm & Hd). exists m. split.
    + exists cmd. split; [|done]. destruct (is_empty (rules_of policy cmd)) eqn:He; [|done].
      apply is_empty_true in He. rewrite He in Hm. by apply elem_of_nil in Hm.
    + rewrite (rules_of_policy _ _ _ Hm). by rewrite bool_decide_eq_true_2.
Qed.

(** C7. The user is asked only where the approval policy lets questions through:
    never under [Never]; under granular settings, by rules only with [rules], and
    otherwise only with [sandbox_approval]. Then some part of the command wants to
    be approved and no part is forbidden. *)
Theorem questions_follow_the_approval_policy policy (req : request) reason amendment :
  create policy req = Some (NeedsApproval reason amendment) →
  req_approval_policy req ≠ Never
  ∧ (∀ config, req_approval_policy req = Granular config →
       (∃ cmd m, cmd ∈ commands_of req ∧ m ∈ rules_of policy cmd ∧ match_decision m = Prompt) → granular_rules config = true)
  ∧ (∀ config, req_approval_policy req = Granular config →
       (∀ cmd m, cmd ∈ commands_of req → m ∈ rules_of policy cmd → match_decision m ≠ Prompt) → sandbox_approval config = true)
  ∧ (∃ cmd, cmd ∈ commands_of req ∧ decided policy (fallback req) cmd Prompt)
  ∧ ∀ cmd, cmd ∈ commands_of req → ¬ decided policy (fallback req) cmd Forbidden.
Proof.
  destruct (create_cases policy req) as (ev & -> & Hm & Hex & Hmax). intros [= Hr]. unfold approval_of in Hr.
  destruct (evaluation_decision ev) eqn:Hev; [done| |done]. pose proof (prompt_rules_spec policy req ev Hm Prompt) as Hrule.
  destruct (prompt_is_rejected_by_policy _ _) eqn:Hrej; [done|]. unfold prompt_is_rejected_by_policy in Hrej.
  split_and!; [| | |done|].
  - intros Heq. by rewrite Heq in Hrej.
  - intros config Heq Hprompt. rewrite Heq in Hrej. apply Hrule in Hprompt. rewrite Hprompt in Hrej.
    unfold allows_rules_approval in Hrej. by destruct (granular_rules config).
  - intros config Heq Hno. rewrite Heq in Hrej.
    assert (existsb (is_policy_decision Prompt) (matched_rules ev) = false) as Hf.
    { apply not_true_iff_false. rewrite Hrule. intros (cmd & m & Hcmd & Hin & Hd). by destruct (Hno cmd m). }
    rewrite Hf in Hrej. unfold allows_sandbox_approval in Hrej. by destruct (sandbox_approval config).
  - intros cmd Hcmd Hd. by specialize (Hmax cmd Forbidden Hcmd Hd).
Qed.

(** C8. A command without rules that might be dangerous never runs unasked under an
    approval policy that asks; under [Never] it is refused, unless there is no
    sandbox to begin with. The parser of bash is taken to read the script [zsh] as
    that one word. *)
Theorem dangerous_commands_do_not_run_unasked policy (req : request) cmd r :
  cmd ∈ commands_of req → rules_of policy cmd = [] → command_might_be_dangerous cmd = true → reads_zsh_as_a_word →
  create policy req = Some r →
  match req_approval_policy req, req_permission_profile req with
  | Never, Managed _ _ => ∃ reason, r = ForbiddenCommand reason
  | Never, _ => True
  | _, _ => ∀ bypass amendment, r ≠ Skip bypass amendment
  end.
Proof.
  intros Hcmd Hnone Hdanger Hword. assert (is_known_safe_command parse_with_powershell_ast cmd = false) as Hsafe.
  { apply not_true_iff_false. intros Hs. by rewrite (safe_not_dangerous parse_with_powershell_ast cmd Hword Hs) in Hdanger. }
  destruct (create_cases policy req) as (ev & -> & _ & _ & Hmax). intros [= <-].
  assert (decision_le (fallback req cmd) (evaluation_decision ev) = true) as Hle by (apply (Hmax cmd); [done|by left]).
  unfold fallback, render_decision_for_unmatched_command in Hle. rewrite Hsafe Hdanger /= in Hle. unfold approval_of.
  destruct (req_approval_policy req), (req_permission_profile req); try done; destruct (evaluation_decision ev); try done; by [eauto|case_match].
Qed.

(** *** Amendments *)

Lemma check_with_options_single policy cmd f options :
  check_with_options home_dir current_dir policy cmd f options
  = check_multiple_with_options home_dir current_dir policy [cmd] f options.
Proof. unfold check_with_options, check_multiple_with_options. cbn [mbind list_bind]. by rewrite app_nil_r. Qed.

Lemma all_allowed policy (req : request) :
  (∀ cmd, cmd ∈ commands_of req → ∀ d, decided policy (fallback req) cmd d → d = Allow) →
  ∃ bypass amendment, create policy req = Some (Skip bypass amendment).
Proof.
  intros H. destruct (create_cases policy req) as (ev & -> & _ & (cmd & Hcmd & Hd) & _). unfold approval_of.
  rewrite (H cmd Hcmd _ Hd). eauto.
Qed.

Lemma singles_match tokens : all_match (Single <$> tokens) tokens = true.
Proof. induction tokens as [|t tokens IH]; [done|]. simpl. by rewrite str_eqb_refl. Qed.

Lemma own_prefix_matches first rest d j :
  rule_matches (MkPrefixRule (MkPrefixPattern first (Single <$> rest)) d j) (first :: rest) = Some (PrefixRuleMatch (first :: rest) d None j).
Proof.
  unfold rule_matches. assert (matches_prefix (MkPrefixPattern first (Single <$> rest)) (first :: rest) = Some (first :: rest)) as Hm.
  { apply matches_prefix_spec. exists rest, []. rewrite app_nil_r. split; [done|]. split; [done|]. simpl.
    apply all_match_spec; [by rewrite length_fmap|]. apply singles_match. }
  simpl pattern. by rewrite Hm.
Qed.

(** Adding a rule for a prefix adds matches, and one for the prefix itself. *)
Lemma added_prefix_applies policy prefix d policy' :
  add_prefix_rule policy prefix d = Ok policy' →
  (∀ cmd, ∃ more, applicable policy' cmd = applicable policy cmd ++ more ∧ ∀ m, m ∈ more → match_decision m = d)
  ∧ ∃ m, applicable policy' prefix = applicable policy prefix ++ [m] ∧ match_decision m = d.
Proof.
  destruct prefix as [|first rest]; [done|]. intros [= <-]. unfold applicable. split.
  - intros [|c cmd]; simpl; [by exists []; split; [|intros m ?%elem_of_nil]|]. rewrite multimap_insert_lookup.
    case_bool_decide as Hc; [|exists []; rewrite app_nil_r; split; [by rewrite app_nil_r|by intros m ?%elem_of_nil]].
    rewrite omap_app. eexists. split; [done|]. intros m (rule & ->%list_elem_of_singleton & Hm)%list_elem_of_omap.
    unfold rule_matches in Hm. by apply bind_Some in Hm as (p & _ & [= <-]).
  - simpl. exists (PrefixRuleMatch (first :: rest) d None None). split; [|done].
    rewrite multimap_insert_lookup bool_decide_eq_true_2 // omap_app. f_equal. simpl. by rewrite own_prefix_matches.
Qed.

(** A command without rules that gets a rule of its own is decided by it. *)
Lemma added_prefix_decides policy prefix d policy' f :
  rules_of policy prefix = [] → add_prefix_rule policy prefix d = Ok policy' →
  ∀ e, decided policy' f prefix e → e = d.
Proof.
  intros Hnone [_ (m & Hm & Hd)]%added_prefix_applies. rewrite example_matches_eq in Hnone.
  destruct (is_empty (applicable policy prefix)) eqn:He; simpl in Hnone; [|by rewrite Hnone in He].
  apply is_empty_true in He. rewrite He in Hm. assert (rules_of policy' prefix = [m]) as Hr by (by rewrite example_matches_eq Hm).
  intros e [[Hnil _]|(m' & Hin & <-)]; [congruence|]. rewrite Hr in Hin. by apply list_elem_of_singleton in Hin as ->.
Qed.

Lemma head_omap {A B} (g : A → option B) l b : head (omap g l) = Some b → ∃ x, x ∈ l ∧ g x = Some b.
Proof.
  induction l as [|x l IH]; simpl; [done|]. destruct (g x) eqn:Hx; simpl.
  - intros [= ->]. exists x. split; [apply elem_of_cons; by left|done].
  - intros (y & Hy & Hg)%IH. exists y. split; [apply elem_of_cons; by right|done].
Qed.

(** The amendment a question proposes is either the prefix the request asked for,
    which is not banned, and then the same request runs unasked under the amended
    policy; or a part of the command that asked without any rule, and then that part
    is allowed under the amended policy. When a rule asks, none is proposed. *)
Theorem proposed_amendments_answer_the_question policy (req : request) reason a :
  create policy req = Some (NeedsApproval reason (Some a)) →
  (∀ cmd m, cmd ∈ commands_of req → m ∈ rules_of policy cmd → match_decision m = Allow)
  ∧ ((req_prefix_rule req = Some a ∧ (a ∉ BANNED_PREFIX_SUGGESTIONS)
      ∧ ∃ policy', add_prefix_rule policy a Allow = Ok policy'
          ∧ ∃ bypass amendment, create policy' req = Some (Skip bypass amendment))
     ∨ (a ∈ commands_of req ∧ rules_of policy a = [] ∧ fallback req a = Prompt
        ∧ ∀ policy', add_prefix_rule policy a Allow = Ok policy' → ∀ d, decided policy' (fallback req) a d → d = Allow)).
Proof.
  destruct (create_cases policy req) as (ev & -> & Hm & _ & Hmax). intros [= Hr]. unfold approval_of in Hr.
  destruct (evaluation_decision ev) eqn:Hev; [done| |done]. destruct (prompt_is_rejected_by_policy _ _); [done|].
  injection Hr as _ Ha. pose proof (prompt_rules_spec policy req ev Hm) as Hrules.
  assert (∀ cmd m, cmd ∈ commands_of req → m ∈ rules_of policy cmd → match_decision m ≠ Forbidden) as Hnf.
  { intros cmd m Hcmd Hin Hd. specialize (Hmax cmd Forbidden Hcmd). discriminate Hmax. right. by exists m. }
  destruct (derive_requested_execpolicy_amendment_from_prefix_rule _ _ _ _ _ _ _ _) as [a'|] eqn:Hreq; simpl in Ha.
  - injection Ha as ->. unfold derive_requested_execpolicy_amendment_from_prefix_rule in Hreq.
    apply bind_Some in Hreq as (p & Hp & Hreq). destruct (is_empty p); [done|]. case_bool_decide as Hban; [done|].
    destruct (existsb is_policy_match (matched_rules ev)) eqn:Hex; [done|].
    destruct (prefix_rule_would_approve_all_commands _ _ _ _ _ _ _) eqn:Happ; [|done]. injection Hreq as ->.
    assert (∀ cmd m, cmd ∈ commands_of req → m ∈ rules_of policy cmd → False) as Hnone.
    { intros cmd m Hcmd Hin. apply not_true_iff_false in Hex. apply Hex, existsb_exists. exists m.
      split; [|by eapply rules_of_policy]. rewrite -list_elem_of_In Hm list_elem_of_bind. exists cmd. split; [|done].
      destruct (is_empty (rules_of policy cmd)) eqn:He; [|done]. apply is_empty_true in He. rewrite He in Hin. by apply elem_of_nil in Hin. }
    split; [intros cmd m Hcmd Hin; by destruct (Hnone cmd m)|]. left. split; [done|]. split; [done|].
    unfold prefix_rule_would_approve_all_commands in Happ. destruct (add_prefix_rule policy a Allow) as [policy'|]; [|done].
    exists policy'. split; [done|]. apply all_allowed. intros cmd Hcmd d Hd.
    rewrite forallb_forall in Happ. apply list_elem_of_In in Hcmd as Hcmd'. specialize (Happ cmd Hcmd').
    rewrite check_with_options_single in Happ.
    destruct (evaluation_spec policy' [cmd] (fallback req)) as (ev' & Hev' & _ & _ & Hmax'); [done|]. rewrite Hev' in Happ.
    apply bool_decide_eq_true in Happ. specialize (Hmax' cmd d). rewrite Happ list_elem_of_singleton in Hmax'.
    specialize (Hmax' eq_refl Hd). by destruct d.
  - destruct (negb _); [|done]. unfold try_derive_execpolicy_amendment_for_prompt_rules in Ha.
    destruct (existsb (is_policy_decision Prompt) (matched_rules ev)) eqn:Hprompt; [done|].
    apply head_omap in Ha as (m & Hin & Hma). rewrite Hm list_elem_of_bind in Hin. destruct Hin as (cmd & Hin & Hcmd).
    apply not_true_iff_false in Hprompt. rewrite Hrules in Hprompt.
    split.
    { intros c m' Hc Hm'. destruct (match_decision m') eqn:Hd; [done| |by destruct (Hnf c m' Hc Hm')].
      destruct Hprompt. by exists c, m'. }
    right. destruct (is_empty (rules_of policy cmd)) eqn:He.
    + apply is_empty_true in He. apply list_elem_of_singleton in Hin as ->. destruct (fallback req cmd) eqn:Hf; try done.
      injection Hma as <-. split_and!; [done..|]. intros policy' Hadd d. by eapply added_prefix_decides.
    + apply rules_of_policy in Hin. by destruct m.
Qed.
End decided.

(** ** Updates *)

Section updated.
Context `{PolicyFileLaws} {PL : PolicyLibraries} (home_dir : option str) (current_dir : result str str).
Abbreviation rules_of := (example_matches home_dir current_dir).

Lemma allowed_has_a_rule policy command :
  already_allowed home_dir current_dir policy command = true →
  ∃ m, m ∈ rules_of policy command ∧ match_decision m = Allow.
Proof.
  unfold already_allowed. destruct (evaluation_spec home_dir current_dir policy [command] (λ _, Forbidden)) as (ev & -> & Hm & _); [done|].
  intros [_ (m & Hin & [Hp Hd%bool_decide_eq_true]%andb_true_iff)%existsb_exists]%andb_true_iff. exists m. split; [|done].
  rewrite -list_elem_of_In Hm in Hin. cbn [mbind list_bind] in Hin. rewrite app_nil_r in Hin.
  destruct (is_empty (rules_of policy command)); [|done]. by apply list_elem_of_singleton in Hin as ->.
Qed.

(** What the new rule matches begins with the prefix. *)
Lemma own_prefix_only first rest d j cmd m :
  rule_matches (MkPrefixRule (MkPrefixPattern first (Single <$> rest)) d j) cmd = Some m → (first :: rest) `prefix_of` cmd.
Proof.
  unfold rule_matches. intros (out & Hm & _)%bind_Some. apply matches_prefix_spec in Hm as (tokens & tail & -> & _ & Hf). cbn in *.
  exists tail. cbn. f_equal. f_equal. revert tokens Hf. induction rest as [|t rest IH]; intros tokens Hf; inversion Hf as [|? t' ? tokens' Ht Hf']; subst; [done|].
  apply str_eqb_eq in Ht as ->. f_equal. by apply IH.
Qed.
Lemma added_prefix_more policy prefix d policy' cmd : add_prefix_rule policy prefix d = Ok policy' →
  ∃ more, applicable policy' cmd = applicable policy cmd ++ more ∧ (∀ m, m ∈ more → match_decision m = d) ∧ (more ≠ [] → prefix `prefix_of` cmd).
Proof.
  destruct prefix as [|first rest]; [done|]. intros [= <-]. unfold applicable. destruct cmd as [|c cmd]; cbn [head rules_by_program].
  { exists []. split_and!; [done|by intros m ?%elem_of_nil|done]. }
  rewrite multimap_insert_lookup omap_app. eexists. split; [done|]. case_bool_decide as Hc; [subst c|by split; [intros m ?%elem_of_nil|]].
  split.
  - intros m (rule & ->%list_elem_of_singleton & Hm)%list_elem_of_omap. unfold rule_matches in Hm. by apply bind_Some in Hm as (p & _ & [= <-]).
  - cbn [omap list_omap]. destruct (rule_matches _ _) eqn:Hm; [|done]. intros _. by eapply own_prefix_only.
Qed.
(** The rules under the file name of a program are those of a command with that name. *)
Definition named_by_file (policy : Policy) (cmd : list str) : option (str * list str) :=
  match cmd with
  | [] => None
  | first :: args =>
      match from_absolute_path home_dir current_dir first with
      | Err _ => None
      | Ok program =>
          basename ← executable_path_lookup_key program;
          if match host_executables_by_name policy !! basename with
             | Some paths => negb (existsb (λ path, path_eq path program) paths)
             | None => false
             end then None else Some (program, basename :: args)
      end
  end.
Lemma host_rules_eq policy cmd : match_host_executable_rules home_dir current_dir policy cmd
  = match named_by_file policy cmd with Some (program, cmd') => (λ m, with_resolved_program m program) <$> applicable policy cmd' | None => [] end.
Proof.
  unfold match_host_executable_rules, named_by_file, applicable. destruct cmd as [|first args]; [done|].
  destruct (from_absolute_path _ _ _) as [program|]; [|done]. destruct (executable_path_lookup_key program) as [basename|]; [|done]. cbn [mbind option_bind].
  destruct (rules_by_program policy !! basename) eqn:Hr; destruct (match host_executables_by_name policy !! basename with Some _ => _ | None => _ end); try done;
    cbn [head]; by rewrite Hr.
Qed.
Lemma with_resolved_decision m program : match_decision (with_resolved_program m program) = match_decision m.
Proof. by destruct m. Qed.

(** All rules of a command stay, unless they are under a file name only and the
    command begins with the prefix. *)
Lemma added_prefix_rules policy prefix policy' cmd : add_prefix_rule policy prefix Allow = Ok policy' →
  (∃ more, rules_of policy' cmd = rules_of policy cmd ++ more ∧ ∀ m, m ∈ more → match_decision m = Allow) ∨
  (applicable policy cmd = [] ∧ prefix `prefix_of` cmd ∧ ∀ m, m ∈ rules_of policy' cmd → match_decision m = Allow).
Proof.
  intros Hadd. destruct (added_prefix_more _ _ _ _ cmd Hadd) as (more & Happ & Hall & Hpre). rewrite !example_matches_eq Happ.
  destruct (is_empty (applicable policy cmd)) eqn:He; cbn [negb].
  2: { left. exists more. split; [|done]. by destruct (applicable policy cmd). }
  apply is_empty_true in He. rewrite He. cbn [app]. destruct (is_empty more) eqn:Hm; cbn [negb].
  - left. apply is_empty_true in Hm as ->. rewrite !host_rules_eq.
    assert (named_by_file policy' cmd = named_by_file policy cmd) as -> by (destruct prefix; [done|]; by injection Hadd as <-).
    destruct (named_by_file policy cmd) as [[program cmd']|]; [|exists []; split; [done|by intros m ?%elem_of_nil]].
    destruct (added_prefix_more _ _ _ _ cmd' Hadd) as (more' & -> & Hall' & _). rewrite fmap_app. eexists. split; [done|].
    intros m (m' & -> & Hm')%list_elem_of_fmap. rewrite with_resolved_decision. by apply Hall'.
  - right. split; [done|]. split; [|done]. apply Hpre. by intros ->.
Qed.

(** C9. An amendment that is accepted is stored and in force: its rule is a line of the
    policy file, and the policy in memory has a rule that allows it. All rules for a
    command stay in force, with further ones that allow; except for a command that
    begins with the amendment and had rules only under the file name of its program,
    for which only rules that allow are left. When it fails, the policy in memory is what it
    was. *)
Theorem accepted_amendments_are_stored_and_in_force codex_home amendment (m m' : ExecPolicyManager) r :
  append_amendment_and_update home_dir current_dir codex_home amendment m = (m', r) →
  (∀ e, r = Err e → current m' = current m)
  ∧ (r = Ok tt →
       (∃ rule, allow_prefix_line amendment = Ok rule
          ∧ amended (default_policy_path codex_home) rule (files m) (files m', Ok tt))
       ∧ (∃ allowed, allowed ∈ rules_of (current m') amendment ∧ match_decision allowed = Allow)
       ∧ ∀ cmd, (∃ more, rules_of (current m') cmd = rules_of (current m) cmd ++ more ∧ ∀ x, x ∈ more → match_decision x = Allow)
                ∨ (applicable (current m) cmd = [] ∧ amendment `prefix_of` cmd ∧ ∀ x, x ∈ rules_of (current m') cmd → match_decision x = Allow)).
Proof.
  unfold append_amendment_and_update. set (path := default_policy_path codex_home).
  unfold blocking_append_allow_prefix_rule. destruct (allow_prefix_line amendment) as [rule|e] eqn:Hline; [|by intros [= <- <-]].
  pose proof (append_rule_line_amends path rule (files m)) as Ham. destruct (append_rule_line path rule (files m)) as [w appended].
  destruct appended as [[]|source]; [|by intros [= <- <-]].
  destruct (already_allowed home_dir current_dir _ amendment) eqn:Hallowed.
  - intros [= <- <-]. split; [done|]. intros _. split; [by exists rule|]. split; [by apply allowed_has_a_rule|].
    intros cmd. left. exists []. rewrite app_nil_r. split; [done|]. by intros x ?%elem_of_nil.
  - destruct (add_prefix_rule _ amendment Allow) as [policy'|source] eqn:Hadd; intros [= <- <-]; [|by split].
    split; [done|]. intros _. split; [by exists rule|]. split; [|intros cmd; by apply added_prefix_rules].
    apply added_prefix_applies in Hadd as [_ (a & Ha & Hd)]. exists a. split; [|done]. rewrite example_matches_eq Ha. cbn [current].
    assert (is_empty (applicable (current m) amendment ++ [a]) = false) as -> by (by destruct (applicable (current m) amendment)).
    apply elem_of_app. right. by apply list_elem_of_singleton.
Qed.
End updated.

(** ** Loading *)

Section loaded.
Context {PL : PolicyLibraries} {RD : RulesDirs} {HO : HashOrder} (home_dir : option str) (current_dir : result str str).

(** The requirements of an administrator are rules of the policy that is loaded,
    unless a rules file does not parse: then the policy is empty, and the rules of
    the requirements are gone with all others. *)
Theorem requirements_hold_unless_a_file_is_broken config_stack policy warning :
  load_exec_policy_with_warning home_dir current_dir config_stack = Ok (policy, warning) →
  match warning with
  | None => ∀ required cmd, requirements_exec_policy config_stack = Some required →
              ∃ own, applicable policy cmd = own ++ applicable required cmd
  | Some w => (∃ path source, w = ParsePolicy path source) ∧ ∀ cmd, example_matches home_dir current_dir policy cmd = []
  end.
Proof.
  unfold load_exec_policy_with_warning. destruct (load_exec_policy _ _ config_stack) as [p|[| |path source]] eqn:Hload; try done.
  - intros [= <- <-] required cmd Hreq. unfold load_exec_policy in Hload.
    apply bind_Ok in Hload as (paths & _ & Hload). apply bind_Ok in Hload as (parser & _ & Hload). rewrite Hreq in Hload.
    injection Hload as <-. exists (applicable (build parser) cmd). apply merged_applicable.
  - intros [= <- <-]. split; [eauto|]. intros cmd. rewrite example_matches_eq.
    assert (applicable empty_policy cmd = []) as -> by (unfold applicable; by destruct (head cmd)). simpl.
    unfold match_host_executable_rules. destruct cmd as [|first args]; [done|]. by repeat case_match.
Qed.
End loaded.

(** ** Witnesses *)

Definition no_powershell (executable script : str) : PowershellParseOutcome := Unsupported.
Definition request_of (command : list str) (approval : AskForApproval) : @ExecApprovalRequest unit unit :=
  MkRequest command approval (Managed tt tt) Restricted UseDefault None.
Abbreviation demo_create := (create_exec_approval_requirement_for_command (TS := demo_trees) (PL := two_calls) no_powershell None (Ok (lit "/work"))).

Lemma questions_follow_the_approval_policy_witness :
  demo_create git_rules (request_of [lit "touch"; lit "x"] UnlessTrusted) = Some (NeedsApproval None (Some [lit "touch"; lit "x"]))
  ∧ req_approval_policy (request_of [lit "touch"; lit "x"] UnlessTrusted) ≠ Never.
Proof.
  assert (demo_create git_rules (request_of [lit "touch"; lit "x"] UnlessTrusted) = Some (NeedsApproval None (Some [lit "touch"; lit "x"]))) as H
    by (vm_compute; reflexivity).
  split; [exact H|].
  exact (proj1 (questions_follow_the_approval_policy (TS := demo_trees) (PL := two_calls) no_powershell None (Ok (lit "/work")) git_rules
    (request_of [lit "touch"; lit "x"] UnlessTrusted) _ _ H)).
Defined.

Lemma dangerous_commands_do_not_run_unasked_witness :
  ∃ r reason, demo_create git_rules (request_of [lit "sudo"; lit "rm"; lit "-rf"; lit "x"] Never) = Some r ∧ r = ForbiddenCommand reason.
Proof.
  set (req := request_of [lit "sudo"; lit "rm"; lit "-rf"; lit "x"] Never).
  assert (∃ r, demo_create git_rules req = Some r) as (r & Hr) by (eexists; vm_compute; reflexivity).
  exists r. destruct (dangerous_commands_do_not_run_unasked (TS := demo_trees) (PL := two_calls) no_powershell None (Ok (lit "/work")) git_rules req
    [lit "sudo"; lit "rm"; lit "-rf"; lit "x"] r) as (reason & Hreason).
  - apply list_elem_of_singleton. vm_compute. reflexivity.
  - vm_compute. reflexivity.
  - vm_compute. reflexivity.
  - intros commands Hp. vm_compute in Hp. first [discriminate Hp | injection Hp as Hp; rewrite -Hp; reflexivity].
  - exact Hr.
  - exists reason. split; [exact Hr|exact Hreason].
Defined.

Lemma proposed_amendments_answer_the_question_witness :
  demo_create git_rules (request_of [lit "touch"; lit "x"] UnlessTrusted) = Some (NeedsApproval None (Some [lit "touch"; lit "x"]))
  ∧ [lit "touch"; lit "x"] ∈ commands_of (TS := demo_trees) (request_of [lit "touch"; lit "x"] UnlessTrusted).
Proof.
  assert (demo_create git_rules (request_of [lit "touch"; lit "x"] UnlessTrusted) = Some (NeedsApproval None (Some [lit "touch"; lit "x"]))) as H
    by (vm_compute; reflexivity).
  split; [exact H|].
  destruct (proposed_amendments_answer_the_question (TS := demo_trees) (PL := two_calls) no_powershell None (Ok (lit "/work")) git_rules
    (request_of [lit "touch"; lit "x"] UnlessTrusted) _ _ H) as [_ [(Hp & _)|(Hin & _)]]; [discriminate Hp|exact Hin].
Defined.

(** Rules under a file name give way to an amendment with the full path. *)
Example amendments_displace_rules_of_a_file_name :
  example_matches None (Ok (lit "/work")) git_rules [lit "/usr/bin/git"; lit "push"]
    = [PrefixRuleMatch [lit "git"; lit "push"] Forbidden (Some (lit "/usr/bin/git")) None;
       PrefixRuleMatch [lit "git"] Allow (Some (lit "/usr/bin/git")) None]
  ∧ match add_prefix_rule git_rules [lit "/usr/bin/git"] Allow with
    | Ok policy => example_matches None (Ok (lit "/work")) policy [lit "/usr/bin/git"; lit "push"] = [PrefixRuleMatch [lit "/usr/bin/git"] Allow None None]
    | Err _ => False
    end.
Proof. split; vm_compute; reflexivity. Qed.

Definition demo_manager : @ExecPolicyManager map_files := MkManager git_rules ∅.

Lemma accepted_amendments_are_stored_and_in_force_witness :
  ∃ m, @append_amendment_and_update map_files None (Ok (lit "/work")) (lit "/home/codex") [lit "make"; lit "test"] demo_manager = (m, Ok tt)
  ∧ ∃ allowed, allowed ∈ example_matches None (Ok (lit "/work")) (current m) [lit "make"; lit "test"] ∧ match_decision allowed = Allow.
Proof.
  assert (∃ m, @append_amendment_and_update map_files None (Ok (lit "/work")) (lit "/home/codex") [lit "make"; lit "test"] demo_manager = (m, Ok tt))
    as (m & Hm) by (eexists; vm_compute; reflexivity).
  exists m. split; [exact Hm|].
  destruct (@accepted_amendments_are_stored_and_in_force map_files map_files_laws None (Ok (lit "/work")) (lit "/home/codex")
    [lit "make"; lit "test"] demo_manager m (Ok tt) Hm) as [_ H]. destruct (H eq_refl) as (_ & Hallowed & _). exact Hallowed.
Defined.

(** A rules file that is not Starlark, next to requirements that forbid pushing. *)
Definition broken_rules : PolicyLibraries := {|
  eval_module _ _ := ([], Some None);
  shlex_split _ := None; shlex_try_join _ := None; debug_rule _ := []; debug_match _ := []
|}.
Definition one_rules_file : RulesDirs := {|
  read_dir _ := Ok [Ok (lit "/home/codex/rules/my.rules", Ok true)];
  read_policy_text _ := Ok (lit "prefix_rule(")
|}.
Definition demo_stack : ConfigLayerStack := MkStack [(User (lit "/home/codex/config.toml"), Some (lit "/home/codex"))] false (Some git_rules).

Lemma requirements_hold_unless_a_file_is_broken_witness :
  (∃ w, load_exec_policy_with_warning (PL := broken_rules) (RD := one_rules_file) (HO := map_order) None (Ok (lit "/work")) demo_stack
        = Ok (empty_policy, Some w))
  ∧ example_matches None (Ok (lit "/work")) empty_policy [lit "git"; lit "push"] = [].
Proof.
  assert (load_exec_policy_with_warning (PL := broken_rules) (RD := one_rules_file) (HO := map_order) None (Ok (lit "/work")) demo_stack
          = Ok (empty_policy, Some (ParsePolicy (lit "/home/codex/rules/my.rules") (Starlark None)))) as H by (vm_compute; reflexivity).
  split; [eexists; exact H|].
  destruct (requirements_hold_unless_a_file_is_broken (PL := broken_rules) (RD := one_rules_file) (HO := map_order) None (Ok (lit "/work"))
    demo_stack _ _ H) as [_ Hempty]. apply Hempty.
Defined.
