(* ===== verification/PolicyTransforms.v ===== *)
(** Permissions a command asks for on top of a profile:
    [codex-rs/sandboxing/src/policy_transforms.rs], with the permission profiles
    of [codex-rs/protocol/src/models.rs]. What is asked is normalised, merged
    with what was granted before, cut down to what is granted, and laid over
    the policy of the turn. *)
From S2P Require Import Prelude Json Paths Types Host AbsolutePath Permissions Access SandboxRoots ExecApproval.
#[local] Open Scope nat_scope.

(** ** [models.rs] *)

(** A [NonZeroUsize] is a number that [nonzero] gave. *)
Definition nonzero (n : N) : option N := if (n =? 0)%N then None else Some n.

Record FileSystemPermissions := MkFileSystemPermissions { asked_entries : list FileSystemSandboxEntry; asked_depth : option N }.
Definition file_system_permissions_default : FileSystemPermissions := MkFileSystemPermissions [] None.
Definition file_system_is_empty (self : FileSystemPermissions) : bool := is_empty (asked_entries self).

Record NetworkPermissions := MkNetworkPermissions { enabled : option bool }.
Definition network_is_empty (self : NetworkPermissions) : bool := negb (is_some_b (enabled self)).

Record AdditionalPermissionProfile := MkAdditional {
  network : option NetworkPermissions;
  file_system : option FileSystemPermissions
}.
Definition additional_is_empty (self : AdditionalPermissionProfile) : bool :=
  negb (is_some_b (network self)) && negb (is_some_b (file_system self)).

Definition from_read_write_roots (read write : option (list str)) : FileSystemPermissions :=
  let as_entries access paths := (λ path, MkEntry (PathEntry path) access) <$> default [] paths in
  MkFileSystemPermissions (as_entries Read read ++ as_entries Write write) None.

(** The roots that entries stand for when they only name paths to read or write. *)
Fixpoint read_write_roots (es : list FileSystemSandboxEntry) (read write : list str) : option (list str * list str) :=
  match es with
  | [] => Some (read, write)
  | MkEntry (PathEntry path) Read :: es => read_write_roots es (read ++ [path]) write
  | MkEntry (PathEntry path) Write :: es => read_write_roots es read (write ++ [path])
  | _ :: _ => None
  end.
Definition non_empty {A} (l : list A) : option (list A) := if is_empty l then None else Some l.
Definition legacy_read_write_roots (self : FileSystemPermissions) : option (option (list str) * option (list str)) :=
  if is_some_b (asked_depth self) then None
  else '(read, write) ← read_write_roots (asked_entries self) [] []; Some (non_empty read, non_empty write).

Inductive SandboxEnforcement : Type := EnforceManaged | EnforceDisabled | EnforceExternal.
#[global] Instance enforcement_eq_dec : EqDecision SandboxEnforcement.
Proof. solve_decision. Defined.
Definition enforcement_from_legacy (sandbox_policy : SandboxPolicy) : SandboxEnforcement :=
  match sandbox_policy with
  | DangerFullAccess => EnforceDisabled
  | ExternalSandboxPolicy _ => EnforceExternal
  | ReadOnly _ | WorkspaceWrite _ _ _ _ => EnforceManaged
  end.

Inductive ManagedFileSystemPermissions : Type :=
| ManagedRestricted (managed_entries : list FileSystemSandboxEntry) (managed_depth : option N)
| ManagedUnrestricted.

Definition Profile : Type := PermissionProfile ManagedFileSystemPermissions NetworkSandboxPolicy.

Definition to_sandbox_policy (self : ManagedFileSystemPermissions) : FileSystemSandboxPolicy :=
  match self with
  | ManagedRestricted es depth => MkPolicy Restricted depth es
  | ManagedUnrestricted => unrestricted
  end.

(** [None] for a policy of an external sandbox, where the code panics. *)
Definition managed_from_sandbox_policy (policy : FileSystemSandboxPolicy) : option ManagedFileSystemPermissions :=
  match policy_kind policy with
  | Restricted => Some (ManagedRestricted (entries policy) (glob_scan_max_depth policy ≫= nonzero))
  | Unrestricted => Some ManagedUnrestricted
  | ExternalSandbox => None
  end.

Definition from_runtime_permissions_with_enforcement (enforcement : SandboxEnforcement) (policy : FileSystemSandboxPolicy)
    (network : NetworkSandboxPolicy) : option Profile :=
  match policy_kind policy with
  | ExternalSandbox => Some (External network)
  | Unrestricted =>
      if bool_decide (enforcement = EnforceDisabled) then Some Disabled
      else (λ file_system, Managed file_system network) <$> managed_from_sandbox_policy policy
  | Restricted => (λ file_system, Managed file_system network) <$> managed_from_sandbox_policy policy
  end.
Definition from_runtime_permissions (policy : FileSystemSandboxPolicy) (network : NetworkSandboxPolicy) : option Profile :=
  let enforcement := match policy_kind policy with
                     | Restricted | Unrestricted => EnforceManaged
                     | ExternalSandbox => EnforceExternal
                     end in
  from_runtime_permissions_with_enforcement enforcement policy network.

Definition enforcement (self : Profile) : SandboxEnforcement :=
  match self with Managed _ _ => EnforceManaged | Disabled => EnforceDisabled | External _ => EnforceExternal end.
Definition file_system_sandbox_policy (self : Profile) : FileSystemSandboxPolicy :=
  match self with
  | Managed file_system _ => to_sandbox_policy file_system
  | Disabled => unrestricted
  | External _ => external_sandbox
  end.
Definition network_sandbox_policy (self : Profile) : NetworkSandboxPolicy :=
  match self with Managed _ network | External network => network | Disabled => NetworkEnabled end.
Definition to_runtime_permissions (self : Profile) : FileSystemSandboxPolicy * NetworkSandboxPolicy :=
  (file_system_sandbox_policy self, network_sandbox_policy self).

(** The profile that stands for what older rollouts stored. *)
Definition policy_from_permissions (value : FileSystemPermissions) : FileSystemSandboxPolicy :=
  MkPolicy Restricted (asked_depth value) (asked_entries value).
Definition permissions_from_policy (value : FileSystemSandboxPolicy) : FileSystemPermissions :=
  MkFileSystemPermissions
    match policy_kind value with
    | Restricted => entries value
    | Unrestricted | ExternalSandbox => [root_entry Write]
    end (glob_scan_max_depth value ≫= nonzero).
Definition profile_from_legacy (network : option NetworkPermissions) (file_system : option FileSystemPermissions) : option Profile :=
  let policy := match file_system with Some fs => policy_from_permissions fs | None => restricted [] end in
  let network_policy := if default false (network ≫= enabled) then NetworkEnabled else NetworkRestricted in
  from_runtime_permissions policy network_policy.

Section profiles.
Context {D : Disk}.

Definition profile_from_legacy_policy (sandbox_policy : SandboxPolicy) : option Profile :=
  from_runtime_permissions_with_enforcement (enforcement_from_legacy sandbox_policy)
    (file_system_policy_from sandbox_policy) (network_policy_from sandbox_policy).
Definition profile_from_legacy_policy_for_cwd (sandbox_policy : SandboxPolicy) (cwd : str) : option Profile :=
  from_runtime_permissions_with_enforcement (enforcement_from_legacy sandbox_policy)
    (from_legacy_sandbox_policy_for_cwd sandbox_policy cwd) (network_policy_from sandbox_policy).
Definition profile_to_legacy_policy (self : Profile) (cwd : str) : option SandboxPolicy :=
  match self with
  | Managed file_system network => to_legacy_sandbox_policy (to_sandbox_policy file_system) network cwd
  | Disabled => Some DangerFullAccess
  | External network => Some (ExternalSandboxPolicy (if network_is_enabled network then AccessEnabled else AccessRestricted))
  end.
Definition profile_workspace_write_with (writable_roots : list str) (network : NetworkSandboxPolicy)
    (exclude_tmpdir_env_var exclude_slash_tmp : bool) : option Profile :=
  (λ file_system, Managed file_system network) <$>
  managed_from_sandbox_policy (workspace_write writable_roots exclude_tmpdir_env_var exclude_slash_tmp).

(** ** [policy_transforms.rs] *)

Definition contains_entry (es : list FileSystemSandboxEntry) (entry : FileSystemSandboxEntry) : bool :=
  existsb (λ e, entry_eqb e entry) es.

Definition normalize_entry_path (path : FileSystemPath) : FileSystemPath :=
  match path with
  | PathEntry path => PathEntry (unwrap_or path (canonical ← canonicalize_preserving_symlinks path; absolute canonical))
  | GlobPattern _ | Special _ => path
  end.

Fixpoint normalize_entries (done es : list FileSystemSandboxEntry) : result str (list FileSystemSandboxEntry) :=
  match es with
  | [] => Ok done
  | entry :: es =>
      if match entry_path entry with GlobPattern _ => negb (is_denied entry) | _ => false end
      then Err (lit "glob file system permissions only support deny-read entries")
      else
        let normalized_entry := MkEntry (normalize_entry_path (entry_path entry)) (entry_access entry) in
        normalize_entries (if contains_entry done normalized_entry then done else done ++ [normalized_entry]) es
  end.

Definition normalize_additional_permissions (additional : AdditionalPermissionProfile) : result str AdditionalPermissionProfile :=
  let network := opt_filter (λ n, negb (network_is_empty n)) (network additional) in
  match file_system additional with
  | None => Ok (MkAdditional network None)
  | Some fs =>
      es ← normalize_entries [] (asked_entries fs);
      let fs := MkFileSystemPermissions es (asked_depth fs) in
      Ok (MkAdditional network (if file_system_is_empty fs then None else Some fs))
  end.

Definition both_true (f : bool → bool → bool) (a b : option NetworkPermissions) : option NetworkPermissions :=
  let on n := bool_decide ((n ≫= enabled) = Some true) in
  if f (on a) (on b) then Some (MkNetworkPermissions (Some true)) else None.

Inductive GlobScanDepth : Type := Bounded (depth : N) | Unbounded.
Definition effective_glob_scan_depth (es : list FileSystemSandboxEntry) (depth : option N) : option GlobScanDepth :=
  if existsb (λ entry, is_denied entry && match entry_path entry with GlobPattern _ => true | _ => false end) es
  then Some match depth with Some depth => Bounded depth | None => Unbounded end
  else None.
Definition merge_glob_scan_max_depth (left_entries : list FileSystemSandboxEntry) (left_depth : option N)
    (right_entries : list FileSystemSandboxEntry) (right_depth : option N) : option N :=
  match effective_glob_scan_depth left_entries left_depth, effective_glob_scan_depth right_entries right_depth with
  | Some Unbounded, _ | _, Some Unbounded => None
  | Some (Bounded l), Some (Bounded r) => Some (N.max l r)
  | Some (Bounded depth), None | None, Some (Bounded depth) => Some depth
  | None, None => None
  end.

Definition merge_permission_entries (base permissions : list FileSystemSandboxEntry) : list FileSystemSandboxEntry :=
  foldl add_missing_entry [] (base ++ permissions).

Definition merge_file_systems (base permissions : FileSystemPermissions) : FileSystemPermissions :=
  MkFileSystemPermissions (merge_permission_entries (asked_entries base) (asked_entries permissions))
    (merge_glob_scan_max_depth (asked_entries base) (asked_depth base) (asked_entries permissions) (asked_depth permissions)
     ≫= nonzero).
Definition merge_permission_profiles (base permissions : option AdditionalPermissionProfile) : option AdditionalPermissionProfile :=
  match permissions with
  | None => base
  | Some permissions =>
      opt_filter (λ p, negb (additional_is_empty p))
        match base with
        | Some base =>
            Some (MkAdditional (both_true orb (network base) (network permissions))
              match file_system base, file_system permissions with
              | Some base, Some permissions =>
                  opt_filter (λ fs, negb (file_system_is_empty fs)) (Some (merge_file_systems base permissions))
              | Some base, None => Some base
              | None, Some permissions => Some permissions
              | None, None => None
              end)
        | None => Some permissions
        end
  end.

(** *** What is granted of what was asked *)

Definition resolve_permission_path (path : FileSystemPath) (cwd : str) : option str :=
  match path with
  | PathEntry path => Some path
  | GlobPattern _ => None
  | Special Root => root ← last (ancestors cwd); absolute root
  | Special (ProjectRoots subpath) =>
      cwd ← absolute cwd;
      Some match subpath with Some subpath => resolve_against subpath cwd | None => cwd end
  | Special Tmpdir => tmpdir ← disk_tmpdir_var; if is_empty tmpdir then None else absolute tmpdir
  | Special SlashTmp => opt_filter disk_is_dir (absolute "/tmp")
  | Special (Minimal | UnknownPath _ _) => None
  end.

Definition access_covers (requested granted : FileSystemAccessMode) : bool :=
  match granted with Read => can_read requested | Write => can_write requested | NoAccess => false end.

Definition granted_file_system_entry_within_request (requested : FileSystemPermissions) (requested_policy : FileSystemSandboxPolicy)
    (matcher : option ReadDenyMatcher) (granted_entry : FileSystemSandboxEntry) (cwd : str) : bool :=
  if negb (can_read (entry_access granted_entry)) then false
  else match resolve_permission_path (entry_path granted_entry) cwd with
       | Some path =>
           if match matcher with Some matcher => is_read_denied matcher path | None => false end then false
           else access_covers (resolve_access_with_cwd requested_policy path cwd) (entry_access granted_entry)
       | None =>
           existsb (λ requested_entry,
             access_covers (entry_access requested_entry) (entry_access granted_entry)
             && file_system_path_eqb (entry_path requested_entry) (entry_path granted_entry)) (asked_entries requested)
       end.

Definition materialize_cwd_dependent_entry (entry : FileSystemSandboxEntry) (cwd : str) : FileSystemSandboxEntry :=
  match entry_path entry with
  | Special (ProjectRoots _) =>
      match resolve_permission_path (entry_path entry) cwd with
      | Some path => MkEntry (PathEntry path) (entry_access entry)
      | None => entry
      end
  | GlobPattern pattern => MkEntry (GlobPattern (resolve_against pattern cwd)) (entry_access entry)
  | PathEntry _ | Special _ => entry
  end.

Definition paths_overlap (a b : str) : bool := path_starts_with a b || path_starts_with b a.

Definition is_glob_char (c : char) : bool := existsb (N.eqb c) [ch_star; 63; 91; 93]%N.
Fixpoint literal_prefix (s : str) : str :=
  match s with [] => [] | c :: s => if is_glob_char c then [] else c :: literal_prefix s end.
Definition glob_static_prefix_path (pattern cwd : str) : option str :=
  let resolved_pattern := resolve_against pattern cwd in
  let literal := literal_prefix resolved_pattern in
  prefix ← (if (length literal =? length resolved_pattern)%nat then Some resolved_pattern
            else if is_empty literal then None
            else if ends_with [ch_slash] literal || ends_with [ch_backslash] literal then Some literal
            else path_parent literal);
  absolute prefix.

Definition deny_entry_constrains_accepted_grant (deny_entry : FileSystemSandboxEntry) (accepted_entries : list FileSystemSandboxEntry)
    (cwd : str) : bool :=
  existsb (λ entry,
    match resolve_permission_path (entry_path entry) cwd with
    | None => false
    | Some grant_path =>
        match entry_path deny_entry with
        | GlobPattern pattern =>
            match glob_static_prefix_path pattern cwd with Some prefix => paths_overlap prefix grant_path | None => false end
        | PathEntry _ | Special _ =>
            match resolve_permission_path (entry_path deny_entry) cwd with
            | Some deny_path => paths_overlap deny_path grant_path
            | None => false
            end
        end
    end) (List.filter (λ entry, can_read (entry_access entry)) accepted_entries).

(** The denials of the source that matter, as they are kept. *)
Definition retained_denials (source_entries accepted_entries : list FileSystemSandboxEntry) (cwd : str) : list FileSystemSandboxEntry :=
  (λ entry, materialize_cwd_dependent_entry entry cwd) <$>
  List.filter (λ entry, deny_entry_constrains_accepted_grant entry accepted_entries cwd) (deny_entries source_entries).

Definition intersect_file_systems (requested granted : FileSystemPermissions) (cwd : str) : FileSystemPermissions :=
  let requested_policy := restricted (asked_entries requested) in
  let matcher := read_deny_matcher_new requested_policy cwd in
  let accepted_entries :=
    foldl add_missing_entry []
      ((λ entry, materialize_cwd_dependent_entry entry cwd) <$>
       List.filter (λ entry, granted_file_system_entry_within_request requested requested_policy matcher entry cwd)
         (asked_entries granted)) in
  let requested_denials := retained_denials (asked_entries requested) accepted_entries cwd in
  let granted_denials := retained_denials (asked_entries granted) accepted_entries cwd in
  let es := foldl add_missing_entry (foldl add_missing_entry accepted_entries requested_denials) granted_denials in
  MkFileSystemPermissions es
    (merge_glob_scan_max_depth requested_denials (asked_depth requested) granted_denials (asked_depth granted) ≫= nonzero).

Definition intersect_permission_profiles (requested granted : AdditionalPermissionProfile) (cwd : str) : AdditionalPermissionProfile :=
  MkAdditional (both_true andb (network requested) (network granted))
    (opt_filter (λ fs, negb (file_system_is_empty fs))
       ((λ fs, intersect_file_systems fs (default file_system_permissions_default (file_system granted)) cwd) <$> file_system requested)).

(** *** Over the policy of the turn *)

Definition merge_file_system_policy_with_additional_permissions (policy : FileSystemSandboxPolicy)
    (additional : FileSystemPermissions) : FileSystemSandboxPolicy :=
  match policy_kind policy with
  | Restricted =>
      MkPolicy Restricted
        (merge_glob_scan_max_depth (entries policy) (glob_scan_max_depth policy) (asked_entries additional) (asked_depth additional))
        (foldl add_missing_entry (entries policy) (asked_entries additional))
  | Unrestricted | ExternalSandbox => policy
  end.

Definition effective_file_system_sandbox_policy (policy : FileSystemSandboxPolicy) (additional : option AdditionalPermissionProfile) :
    FileSystemSandboxPolicy :=
  match additional ≫= file_system with
  | None => policy
  | Some fs => if file_system_is_empty fs then policy else merge_file_system_policy_with_additional_permissions policy fs
  end.

Definition merge_network_access (base_network_access : bool) (additional : AdditionalPermissionProfile) : bool :=
  base_network_access || default false (network additional ≫= enabled).
Definition effective_network_sandbox_policy (network_policy : NetworkSandboxPolicy) (additional : option AdditionalPermissionProfile) :
    NetworkSandboxPolicy :=
  match additional with
  | Some permissions => if merge_network_access (network_is_enabled network_policy) permissions then NetworkEnabled else NetworkRestricted
  | None => network_policy
  end.

Definition effective_permission_profile (profile : Profile) (additional : option AdditionalPermissionProfile) : option Profile :=
  let '(policy, network_policy) := to_runtime_permissions profile in
  from_runtime_permissions_with_enforcement (enforcement profile) (effective_file_system_sandbox_policy policy additional)
    (effective_network_sandbox_policy network_policy additional).

Definition should_require_platform_sandbox (policy : FileSystemSandboxPolicy) (network_policy : NetworkSandboxPolicy)
    (has_managed_network_requirements : bool) : bool :=
  if has_managed_network_requirements then true
  else if negb (network_is_enabled network_policy) then negb (bool_decide (policy_kind policy = ExternalSandbox))
  else match policy_kind policy with
       | Restricted => negb (has_full_disk_write_access policy)
       | Unrestricted | ExternalSandbox => false
       end.
End profiles.

(** ** Lemmas *)

Section transforms.
Context {D : Disk} {DL : DiskLaws D}.

Lemma resolve_permission_entry path cwd :
  settled cwd → resolve_permission_path path cwd = resolve_entry_path path (Some cwd).
Proof.
  intros Hcwd. destruct path as [p|g|[| |sub| | |u sub]]; try done; simpl.
  - rewrite absolute_of_settled //=. by destruct sub.
  - destruct (absolute (lit "/tmp")); [|done]. simpl. by destruct (disk_is_dir _).
Qed.

Lemma materialize_dependent_resolves entry cwd :
  settled cwd →
  resolve_entry_path (entry_path (materialize_cwd_dependent_entry entry cwd)) (Some cwd) = resolve_entry_path (entry_path entry) (Some cwd)
  ∧ entry_access (materialize_cwd_dependent_entry entry cwd) = entry_access entry.
Proof.
  intros Hcwd. unfold materialize_cwd_dependent_entry. destruct entry as [[q|g|[| |sub| | |u sub]] a]; simpl; try done.
  rewrite absolute_of_settled //=. by destruct sub.
Qed.

(** Making paths absolute does not change what entries grant. *)
Lemma grants_materialized k d es cwd cs a :
  settled cwd →
  grants (MkPolicy k d ((λ entry, materialize_cwd_dependent_entry entry cwd) <$> es)) cwd cs a ↔ grants (MkPolicy k d es) cwd cs a.
Proof.
  intros Hcwd. rewrite !grants_entries absolute_of_settled //. setoid_rewrite list_elem_of_fmap. split.
  - intros (e & p & (entry & -> & Hin) & Hr & Hc & Ha). destruct (materialize_dependent_resolves entry cwd Hcwd) as [He1 He2].
    rewrite He1 in Hr. rewrite He2 in Ha. by exists entry, p.
  - intros (entry & p & Hin & Hr & Hc & Ha). destruct (materialize_dependent_resolves entry cwd Hcwd) as [He1 He2].
    exists (materialize_cwd_dependent_entry entry cwd), p. rewrite He1 He2. split; [by exists entry|done].
Qed.

Lemma prefix_overlap p q : paths_overlap p q = true ↔ components p `prefix_of` components q ∨ components q `prefix_of` components p.
Proof. unfold paths_overlap. rewrite orb_true_iff !starts_with_prefix. tauto. Qed.

Lemma grants_nil k d cwd cs a : ¬ grants (MkPolicy k d []) cwd cs a.
Proof. by intros (? & ? & []%elem_of_nil & _)%grants_entries. Qed.

(** A denial of the source that overlaps an accepted grant is retained. *)
Lemma retained_grants source accepted cwd cs a cs' :
  settled cwd → grants (restricted accepted) cwd cs' a → can_read a = true →
  grants (restricted source) cwd cs NoAccess → cs `prefix_of` cs' ∨ cs' `prefix_of` cs →
  grants (restricted (retained_denials source accepted cwd)) cwd cs NoAccess.
Proof.
  intros Hcwd (e & p' & Hin' & Hr' & <- & <-)%grants_entries Hread (d & p & Hin & Hr & <- & Ha)%grants_entries Hover.
  unfold retained_denials, restricted. apply grants_materialized; [done|]. apply grants_entries. exists d, p.
  split_and!; [|done..]. apply filter_elem. split; [unfold deny_entries; apply filter_elem; split; [done|by apply bool_decide_eq_true]|].
  apply existsb_exists. exists e. split; [by apply list_elem_of_In, filter_elem|].
  rewrite absolute_of_settled // in Hr Hr'. rewrite resolve_permission_entry // Hr'.
  assert (resolve_permission_path (entry_path d) cwd = Some p) as Hd by by rewrite resolve_permission_entry.
  destruct (entry_path d) as [q|g|v]; [|done|]; rewrite Hd; by apply prefix_overlap.
Qed.

Lemma retained_denies source accepted cwd cs a :
  settled cwd → grants (restricted (retained_denials source accepted cwd)) cwd cs a →
  a = NoAccess ∧ grants (restricted source) cwd cs NoAccess.
Proof.
  intros Hcwd Hg. unfold retained_denials, restricted in Hg. rewrite grants_materialized // in Hg.
  apply grants_entries in Hg as (d & p & [[Hin Hd]%filter_elem _]%filter_elem & Hr & <- & <-).
  apply bool_decide_eq_true in Hd. rewrite Hd. split; [done|]. apply grants_entries. by exists d, p.
Qed.

(** What was accepted was granted, and asked for. *)
Lemma accepted_grants requested matcher granted cwd cs a :
  settled cwd →
  let accepted := foldl add_missing_entry []
    ((λ entry, materialize_cwd_dependent_entry entry cwd) <$>
     List.filter (λ entry, granted_file_system_entry_within_request requested (restricted (asked_entries requested)) matcher entry cwd)
       granted) in
  grants (restricted accepted) cwd cs a →
  can_read a = true ∧ grants (restricted granted) cwd cs a
  ∧ ∃ p, components p = cs ∧ (settled_entries granted → settled p)
      ∧ access_covers (resolve_access_with_cwd (restricted (asked_entries requested)) p cwd) a = true.
Proof.
  intros Hcwd accepted Hg. unfold accepted, restricted in Hg. rewrite grants_add_missing in Hg.
  destruct Hg as [Hg|Hg]; [by destruct (grants_nil _ _ _ _ _ Hg)|]. rewrite grants_materialized // in Hg.
  apply grants_entries in Hg as (e & p & [Hin Hw]%filter_elem & Hr & <- & <-).
  unfold granted_file_system_entry_within_request in Hw. rewrite resolve_permission_entry // in Hw. pose proof Hr as Hr'.
  rewrite absolute_of_settled // in Hr. rewrite Hr in Hw. destruct (can_read (entry_access e)) eqn:Hread; [|done]. simpl in Hw.
  split_and!; [done|apply grants_entries; by exists e, p|]. exists p. split_and!; [done| |by destruct (match matcher with Some _ => _ | None => _ end)].
  intros Hs. apply (resolve_entry_settled (entry_path e) (Some cwd)); [intros q; by apply Hs|by intros c [= <-]|done].
Qed.

(** The heart of the intersection: where a source denies a path below an accepted
    grant that would decide, its denial decides instead. *)
Lemma accepted_not_denied source accepted more path cwd cs a cs_d :
  settled cwd → grants (restricted accepted) cwd cs a → can_read a = true → cs `prefix_of` components path →
  (∀ cs' a', grants (restricted (retained_denials source accepted cwd)) cwd cs' a' → more cs' a') →
  outdoes (components path) more cs a →
  grants (restricted source) cwd cs_d NoAccess → cs_d `prefix_of` components path → length cs ≤ length cs_d → False.
Proof.
  intros Hcwd Hg Hread Hc Hmore Hout Hd Hcd Hlen. assert (cs `prefix_of` cs_d) as Hpre by by eapply prefix_chain.
  destruct (Hout cs_d NoAccess) as [Hlt|[-> Hrank]]; [|done|lia|].
  - apply Hmore. eapply retained_grants; [done..|by right].
  - destruct a; simpl in Hrank; [lia..|done].
Qed.

Lemma can_read_denied a : can_read a = false → a = NoAccess.
Proof. unfold can_read. intros H%negb_false_iff. by apply bool_decide_eq_true in H. Qed.

(** Whether permissions, taken as a policy, let a path be read or written. *)
Definition readable (fs : FileSystemPermissions) (path cwd : str) : Prop :=
  can_read_path_with_cwd (restricted (asked_entries fs)) path cwd = true.
Definition writable (fs : FileSystemPermissions) (path cwd : str) : Prop :=
  can_write_path_with_cwd (restricted (asked_entries fs)) path cwd = true.

(** A path that is not readable has a denial that decides it, or nothing above it. *)
Lemma unreadable es path cwd :
  settled path → can_read_path_with_cwd (restricted es) path cwd = false →
  (∃ cs, grants (restricted es) cwd cs NoAccess ∧ cs `prefix_of` components path
     ∧ outdoes (components path) (grants (restricted es) cwd) cs NoAccess)
  ∨ ∀ cs a, grants (restricted es) cwd cs a → ¬ cs `prefix_of` components path.
Proof.
  intros Hp Hno%can_read_denied.
  destruct (access_cases (restricted es) path cwd eq_refl Hp) as [(cs & a & Hg & Hc & Hout & Ha)|[Hnone _]]; [left|by right].
  rewrite Hno in Ha. subst a. by exists cs.
Qed.

Lemma intersect_reads asked given path cwd :
  settled path → settled cwd → settled_entries (asked_entries given) →
  readable (intersect_file_systems asked given cwd) path cwd → readable asked path cwd ∧ readable given path cwd.
Proof.
  intros Hp Hcwd Hs Hr. unfold readable in Hr. set (out := restricted (asked_entries (intersect_file_systems asked given cwd))) in Hr.
  destruct (access_cases out path cwd eq_refl Hp) as [(cs & a & Hg & Hc & Hout & Ha)|[_ Ha]];
    unfold can_read_path_with_cwd in Hr; rewrite Ha in Hr; [|done].
  unfold out, intersect_file_systems, restricted in Hg, Hout. simpl asked_entries in Hg, Hout.
  set (accepted := foldl add_missing_entry [] (_ <$> _)) in Hg, Hout.
  assert (∀ cs a, grants (restricted (retained_denials (asked_entries asked) accepted cwd)) cwd cs a
                  ∨ grants (restricted (retained_denials (asked_entries given) accepted cwd)) cwd cs a → a = NoAccess) as Hden.
  { intros cs' a' [H|H]; by apply retained_denies in H as [-> _]. }
  assert (grants (restricted accepted) cwd cs a) as Hacc.
  { rewrite 2!grants_add_missing in Hg. destruct Hg as [[?|Hg]|Hg]; [done|..]; assert (a = NoAccess) as -> by (apply (Hden cs); auto); done. }
  destruct (accepted_grants _ _ _ cwd cs a Hcwd Hacc) as (_ & Hgiven & p & Hpc & Hps & Hcov). specialize (Hps Hs).
  split; apply not_false_iff_true; intros Hno%unreadable; try done.
  - assert (can_read (resolve_access_with_cwd (restricted (asked_entries asked)) p cwd) = true) as Hpr.
    { destruct a; [done| |done]. simpl in Hcov. unfold can_write in Hcov. apply bool_decide_eq_true in Hcov. by rewrite Hcov. }
    destruct (access_cases (restricted (asked_entries asked)) p cwd eq_refl Hps) as [(cs_r & a_r & Hgr & Hcr & Hout_r & Har)|[_ Har]];
      rewrite Har in Hpr; [|done]. rewrite Hpc in Hcr, Hout_r.
    destruct Hno as [(cs_d & Hgd & Hcd & Hout_d)|Hnone]; [|by apply (Hnone cs_r a_r); [|etrans]].
    destruct (decide (length cs ≤ length cs_d)) as [Hlen|Hlen].
    { eapply accepted_not_denied; [exact Hcwd|exact Hacc|exact Hr|exact Hc| |exact Hout|exact Hgd|exact Hcd|exact Hlen].
      intros cs' a' H. rewrite 2!grants_add_missing. auto. }
    destruct (Hout_r cs_d NoAccess Hgd) as [Hlt|[-> Hrank]]; [eapply prefix_chain; [exact Hcd|exact Hc|lia]| |].
    + destruct (Hout_d cs_r a_r Hgr) as [?|[-> _]]; [by etrans|lia..].
    + destruct a_r; simpl in Hrank; [lia..|done].
  - destruct Hno as [(cs_d & Hgd & Hcd & Hout_d)|Hnone]; [|by apply (Hnone cs a)].
    eapply accepted_not_denied; [exact Hcwd|exact Hacc|exact Hr|exact Hc| |exact Hout|exact Hgd|exact Hcd|].
    + intros cs' a' H. rewrite 2!grants_add_missing. auto.
    + destruct (Hout_d cs a Hgiven Hc) as [?|[-> _]]; lia.
Qed.

(** The intersection of what was asked with what was granted lets no path be read
    that the request, taken as a policy, would not let be read, nor any that
    the grant would not; it enables the network when both do, and only then. *)
Theorem intersections_read_what_was_asked_and_granted requested granted path cwd :
  settled path → settled cwd → (∀ fs, file_system granted = Some fs → settled_entries (asked_entries fs)) →
  let result := intersect_permission_profiles requested granted cwd in
  (∀ out, file_system result = Some out → readable out path cwd →
     ∃ asked given, file_system requested = Some asked ∧ file_system granted = Some given
       ∧ readable asked path cwd ∧ readable given path cwd)
  ∧ (network result = Some (MkNetworkPermissions (Some true)) ↔
     (network requested ≫= enabled) = Some true ∧ (network granted ≫= enabled) = Some true).
Proof.
  intros Hp Hcwd Hs result. split.
  - intros out Hout Hr. unfold result, intersect_permission_profiles in Hout. simpl in Hout.
    destruct (file_system requested) as [asked|]; [|done]. simpl in Hout. destruct (file_system_is_empty _); [done|].
    injection Hout as <-. exists asked. destruct (file_system granted) as [given|] eqn:Hg; simpl in Hr.
    + exists given. do 2 (split; [done|]). by apply intersect_reads; [..|apply Hs|].
    + exfalso. apply intersect_reads in Hr as [_ Hr]; [|done..|]; [|by intros ? ? []%elem_of_nil].
      unfold readable, can_read_path_with_cwd in Hr.
      destruct (access_cases (restricted []) path cwd eq_refl Hp) as [(? & ? & Hg' & _)|[_ Ha]]; [by destruct (grants_nil _ _ _ _ _ Hg')|].
      simpl in Hr. by rewrite Ha in Hr.
  - unfold result, intersect_permission_profiles, both_true. simpl.
    destruct (bool_decide ((network requested ≫= enabled) = Some true)) eqn:E1; simpl.
    + apply bool_decide_eq_true in E1. case_bool_decide as E2; naive_solver.
    + apply bool_decide_eq_false in E1. naive_solver.
Qed.

(** ** Profiles *)

(** The depths of a profile are non-zero. *)
Definition nonzero_depth (p : Profile) : Prop :=
  match p with Managed (ManagedRestricted _ (Some depth)) _ => depth ≠ 0%N | _ => True end.

Lemma nonzero_Some n : n ≠ 0%N → nonzero n = Some n.
Proof. intros Hn. unfold nonzero. by destruct (N.eqb_spec n 0). Qed.

(** What runs under a profile is enough to find the profile again. *)
Theorem profiles_are_what_they_enforce (p : Profile) :
  nonzero_depth p →
  from_runtime_permissions_with_enforcement (enforcement p) (to_runtime_permissions p).1 (to_runtime_permissions p).2 = Some p.
Proof.
  destruct p as [[es [depth|]|] n| |n]; simpl; intros Hd; try done.
  unfold from_runtime_permissions_with_enforcement, managed_from_sandbox_policy. simpl. by rewrite nonzero_Some.
Qed.

(** The network is used under a profile with more permissions when it was before, or
    when they ask for it. *)
Lemma effective_network p additional :
  network_is_enabled (effective_network_sandbox_policy p (Some additional))
  = network_is_enabled p || default false (network additional ≫= enabled).
Proof. unfold effective_network_sandbox_policy, merge_network_access. by destruct (_ || _). Qed.

Lemma effective_policy_grants policy fs cwd cs a :
  policy_kind policy = Restricted →
  grants (merge_file_system_policy_with_additional_permissions policy fs) cwd cs a
  ↔ grants policy cwd cs a ∨ grants (restricted (asked_entries fs)) cwd cs a.
Proof.
  intros Hk. unfold merge_file_system_policy_with_additional_permissions. rewrite Hk grants_add_missing. destruct policy as [k d es].
  simpl in *. subst k. unfold restricted. by rewrite !grants_entries.
Qed.

(** Permissions on top of a profile keep its enforcement and never panic. Of the
    entries of the profile and those that were asked for, the one with the
    longest path decides, so that what the profile denies for a path stays
    denied unless an entry for a longer one was asked for, and a path that no
    new entry covers keeps its access. *)
Theorem permissions_are_laid_over_the_profile (p : Profile) additional fs path cwd :
  settled path → nonzero_depth p → file_system additional = Some fs → asked_entries fs ≠ [] →
  ∃ q, effective_permission_profile p (Some additional) = Some q ∧ enforcement q = enforcement p
  ∧ (let base := file_system_sandbox_policy p in
     let result := file_system_sandbox_policy q in
     let asked := restricted (asked_entries fs) in
     (policy_kind base ≠ Restricted → resolve_access_with_cwd result path cwd = Write)
     ∧ (policy_kind base = Restricted →
        (resolve_access_with_cwd result path cwd = resolve_access_with_cwd base path cwd
         ∨ resolve_access_with_cwd result path cwd = resolve_access_with_cwd asked path cwd)
        ∧ ((∀ cs a, grants asked cwd cs a → ¬ cs `prefix_of` components path) →
           resolve_access_with_cwd result path cwd = resolve_access_with_cwd base path cwd)
        ∧ (∀ cs, grants base cwd cs NoAccess → cs `prefix_of` components path →
             (∀ cs' a', grants base cwd cs' a' ∨ grants asked cwd cs' a' → cs' `prefix_of` components path → length cs' ≤ length cs) →
             resolve_access_with_cwd result path cwd = NoAccess))).
Proof.
  intros Hp Hd Hfs Hne. unfold effective_permission_profile, effective_file_system_sandbox_policy. simpl. rewrite Hfs /=.
  assert (file_system_is_empty fs = false) as -> by by apply is_empty_false.
  destruct p as [[es depth|] n| |n]; simpl.
  2-4: eexists; split; [reflexivity|]; split; [done|]; by split.
  set (base := MkPolicy Restricted depth es). eexists. split; [reflexivity|]. split; [done|]. simpl. split; [done|]. intros _.
  match goal with |- context [MkPolicy Restricted (?d ≫= nonzero) ?l] => set (result := MkPolicy Restricted (d ≫= nonzero) l) end.
  set (asked := restricted (asked_entries fs)).
  assert (∀ cs a, grants result cwd cs a ↔ grants base cwd cs a ∨ grants asked cwd cs a) as Hg.
  { intros cs a. unfold result. rewrite grants_add_missing. unfold base, asked, restricted. by rewrite !grants_entries. }
  assert (policy_kind result = Restricted ∧ policy_kind base = Restricted ∧ policy_kind asked = Restricted) as (Hk & Hkb & Hka) by done.
  split_and!.
  - destruct (access_cases result path cwd Hk Hp) as [(cs & a & Hgr & Hc & Hout & ->)|[Hno ->]].
    + apply Hg in Hgr as [Hgr|Hgr]; [left|right]; symmetry; (eapply access_at_grants; [done..|exact Hgr|done|]);
        intros cs' a' Hgr'; apply Hout, Hg; auto.
    + left. destruct (access_cases base path cwd Hkb Hp) as [(cs & a & Hgr & Hc & _)|[_ ->]]; [|done].
      destruct (Hno cs a); [apply Hg; by left|done].
  - intros Hnone. apply grants_same; [done..|]. intros cs a Hc. rewrite Hg. split; [|auto]. intros [?|Hgr]; [done|].
    by destruct (Hnone cs a).
  - intros cs Hgr Hc Hlen. destruct (access_cases result path cwd Hk Hp) as [(cs' & a & Hgr' & Hc' & Hout & ->)|[_ ->]]; [|done].
    destruct (Hout cs NoAccess) as [Hlt|[-> Hrank]]; [apply Hg; by left|done| |].
    + apply Hg in Hgr'. specialize (Hlen _ _ Hgr' Hc'). lia.
    + by destruct a; simpl in Hrank; [lia..|].
Qed.

(** Where no sandbox of the platform is required, there is nothing for it to enforce:
    the network is open and every path may be written, or the sandbox is
    someone else's. *)
Theorem no_sandbox_means_nothing_to_enforce policy network_policy managed path cwd :
  settled_entries (entries policy) → settled path → settled cwd → disk_is_dir (lit "/tmp") = true →
  should_require_platform_sandbox policy network_policy managed = false →
  managed = false
  ∧ (policy_kind policy = ExternalSandbox
     ∨ network_policy = NetworkEnabled ∧ can_write_path_with_cwd policy path cwd = true).
Proof.
  intros Hs Hp Hcwd Htmp. unfold should_require_platform_sandbox. destruct managed; [done|]. intros H. split; [done|].
  destruct network_policy; simpl in H.
  - left. apply negb_false_iff in H. by apply bool_decide_eq_true in H.
  - right. split; [done|]. apply full_write_access; try done. unfold has_full_disk_write_access in *.
    destruct (policy_kind policy) eqn:Hk; [|done..]. by apply negb_false_iff in H.
Qed.

(** ** What is asked, normalised *)

Definition stray_glob (entry : FileSystemSandboxEntry) : bool :=
  match entry_path entry with GlobPattern _ => negb (is_denied entry) | _ => false end.

Lemma normalize_entries_spec acc es :
  match normalize_entries acc es with
  | Ok out => forallb (λ e, negb (stray_glob e)) es = true
      ∧ out = foldl add_missing_entry acc ((λ e, MkEntry (normalize_entry_path (entry_path e)) (entry_access e)) <$> es)
  | Err _ => existsb stray_glob es = true
  end.
Proof.
  revert acc. induction es as [|e es IH]; intros acc; [done|]. simpl. fold (stray_glob e).
  destruct (stray_glob e); [done|]. simpl. apply IH.
Qed.

Lemma add_missing_nonempty acc l : foldl add_missing_entry acc l = [] → acc = [] ∧ l = [].
Proof.
  revert acc. induction l as [|e l IH]; intros acc; [done|]. simpl. intros [H _]%IH. unfold add_missing_entry in H. exfalso.
  destruct (existsb _ acc) eqn:E; [by subst|]. by destruct acc.
Qed.

(** Permissions are refused when they allow a glob, and only then; otherwise they
    grant what was asked, on a disk without links, and nothing was asked of the
    disk when nothing is left. *)
Theorem normalizing_keeps_what_was_asked {NL : NoLinks D} additional fs cwd :
  file_system additional = Some fs → settled_entries (asked_entries fs) →
  match normalize_additional_permissions additional with
  | Err _ => existsb stray_glob (asked_entries fs) = true
  | Ok out =>
      existsb stray_glob (asked_entries fs) = false
      ∧ match file_system out with
        | None => asked_entries fs = []
        | Some out_fs =>
            asked_depth out_fs = asked_depth fs
            ∧ ∀ cs a, grants (restricted (asked_entries out_fs)) cwd cs a ↔ grants (restricted (asked_entries fs)) cwd cs a
        end
  end.
Proof.
  intros Hfs Hs. unfold normalize_additional_permissions. rewrite Hfs. pose proof (normalize_entries_spec [] (asked_entries fs)) as Hn.
  destruct (normalize_entries [] (asked_entries fs)) as [out|]; [|done]. simpl. destruct Hn as [Hglob ->].
  assert (((λ e, MkEntry (normalize_entry_path (entry_path e)) (entry_access e)) <$> asked_entries fs) = asked_entries fs) as ->.
  { rewrite -{2}(list_fmap_id (asked_entries fs)). apply list_fmap_ext. intros i [path a] Hin. apply list_elem_of_lookup_2 in Hin.
    simpl. f_equal. destruct path as [p| |]; try done. specialize (Hs _ p Hin eq_refl). simpl.
    by rewrite canonicalize_settled //= absolute_of_settled. }
  split.
  { apply not_true_iff_false. intros (e & Hin & He)%existsb_exists. rewrite forallb_forall in Hglob. specialize (Hglob e Hin). by rewrite He in Hglob. }
  destruct (file_system_is_empty _) eqn:E; simpl.
  - apply is_empty_true in E. simpl in E. by apply add_missing_nonempty in E as [_ E].
  - split; [done|]. intros cs a. unfold restricted. rewrite grants_add_missing. split; [|by auto]. intros [H|?]; [|done].
    by destruct (grants_nil _ _ _ _ _ H).
Qed.
End transforms.

(** ** Findings and witnesses *)

(** The request writes below one directory and only reads below another inside of
    it; a grant for the outer one is accepted as a whole. *)
Definition asked_outer : FileSystemPermissions :=
  MkFileSystemPermissions [MkEntry (PathEntry (lit "/work")) Write; MkEntry (PathEntry (lit "/work/x")) Read] None.
Definition given_outer : FileSystemPermissions := MkFileSystemPermissions [MkEntry (PathEntry (lit "/work")) Write] None.

(** Writing is not intersected as reading is: the result lets be written what the
    request only asked to read. *)
Theorem intersections_may_write_more_than_was_asked :
  let out := @intersect_file_systems demo_disk asked_outer given_outer (lit "/work") in
  @writable demo_disk out (lit "/work/x") (lit "/work") ∧ ¬ @writable demo_disk asked_outer (lit "/work/x") (lit "/work").
Proof. split; [by vm_compute|]. unfold writable. by vm_compute. Qed.

Lemma given_outer_settled : settled_entries (asked_entries given_outer).
Proof. intros entry q ->%list_elem_of_singleton [= <-]. exact demo_work. Qed.

Lemma intersections_read_what_was_asked_and_granted_witness :
  ∃ given, Some given_outer = Some given ∧ @readable demo_disk asked_outer (lit "/work/x") (lit "/work").
Proof.
  destruct (intersections_read_what_was_asked_and_granted (D := demo_disk) (MkAdditional None (Some asked_outer))
    (MkAdditional None (Some given_outer)) (lit "/work/x") (lit "/work")) as [H _].
  - exact demo_work_x.
  - exact demo_work.
  - intros fs [= <-]. exact given_outer_settled.
  - destruct (H (@intersect_file_systems demo_disk asked_outer given_outer (lit "/work"))) as (asked & given & Ha & Hg & Hr & _).
    + reflexivity.
    + vm_compute. reflexivity.
    + exists given. split; [exact Hg|]. injection Ha as <-. exact Hr.
Defined.

Definition demo_profile : Profile := Managed (ManagedRestricted [root_entry Read; MkEntry (PathEntry (lit "/work/x")) NoAccess] (Some 3%N)) NetworkRestricted.

Lemma profiles_are_what_they_enforce_witness :
  from_runtime_permissions_with_enforcement EnforceManaged (to_runtime_permissions demo_profile).1 NetworkRestricted = Some demo_profile.
Proof. apply (profiles_are_what_they_enforce demo_profile). discriminate. Defined.

Lemma permissions_are_laid_over_the_profile_witness :
  ∃ q, effective_permission_profile demo_profile (Some (MkAdditional None (Some given_outer))) = Some q
    ∧ @resolve_access_with_cwd demo_disk (file_system_sandbox_policy q) (lit "/work/x") (lit "/work") = NoAccess.
Proof.
  destruct (permissions_are_laid_over_the_profile (D := demo_disk) demo_profile (MkAdditional None (Some given_outer)) given_outer
    (lit "/work/x") (lit "/work") demo_work_x) as (q & Hq & _ & _ & H); [discriminate|reflexivity|discriminate|].
  exists q. split; [exact Hq|]. destruct H as (_ & _ & H); [reflexivity|].
  apply (H [RootDir; Normal (lit "work"); Normal (lit "x")]).
  - exists (MkResolved (lit "/work/x") NoAccess). split; [|split; reflexivity]. vm_compute. right. left.
  - reflexivity.
  - intros cs' a' _ Hc. apply prefix_length in Hc. exact Hc.
Defined.

Lemma no_sandbox_means_nothing_to_enforce_witness :
  @can_write_path_with_cwd demo_disk demo_full (lit "/tmp/x") (lit "/work") = true.
Proof.
  destruct (no_sandbox_means_nothing_to_enforce (D := demo_disk) demo_full NetworkEnabled false (lit "/tmp/x") (lit "/work"))
    as [_ [Hext|[_ H]]]; [exact demo_full_settled|exact demo_tmp_x|exact demo_work|reflexivity|reflexivity|discriminate Hext|exact H].
Defined.

Lemma normalizing_keeps_what_was_asked_witness :
  existsb stray_glob (asked_entries given_outer) = false.
Proof.
  pose proof (normalizing_keeps_what_was_asked (D := demo_disk) (MkAdditional None (Some given_outer)) given_outer (lit "/work") eq_refl
    given_outer_settled) as H. exact (proj1 H).
Defined.
