(* ===== verification/PatchSafety.v ===== *)
(** Whether a patch is applied, asked about or refused: [codex-rs/core/src/safety.rs],
    with [get_platform_sandbox] of [codex-rs/sandboxing/src/manager.rs]. A patch is
    applied unasked when every file it would change may be written under the
    policy of the turn. *)
From S2P Require Import Prelude Json Paths Types Host AbsolutePath Permissions Access SandboxRoots ExecApproval PolicyTransforms.
From S2P Require Import PatchParser PatchApply PatchProofs PatchFiles PatchInvocation.
#[local] Open Scope nat_scope.

Inductive SandboxType : Type := NoSandbox | MacosSeatbelt | LinuxSeccomp | WindowsRestrictedToken.
(** The operating systems the code tells apart. *)
Inductive TargetOs : Type := TargetMacos | TargetLinux | TargetWindows | TargetOther.
Definition get_platform_sandbox (target_os : TargetOs) (windows_sandbox_enabled : bool) : option SandboxType :=
  match target_os with
  | TargetMacos => Some MacosSeatbelt
  | TargetLinux => Some LinuxSeccomp
  | TargetWindows => if windows_sandbox_enabled then Some WindowsRestrictedToken else None
  | TargetOther => None
  end.
Inductive WindowsSandboxLevel : Type := LevelDisabled | RestrictedToken | Elevated.

Definition PATCH_REJECTED_OUTSIDE_PROJECT_REASON : str :=
  lit "writing outside of the project; rejected by user approval settings".
Definition PATCH_REJECTED_READ_ONLY_REASON : str :=
  lit "writing is blocked by read-only sandbox; rejected by user approval settings".

Inductive SafetyCheck : Type :=
| AutoApprove (sandbox_type : SandboxType) (user_explicitly_approved : bool)
| AskUser
| Reject (reason : str).

(** [resolve_path] of [core/src/util.rs]. *)
Definition resolve_path (base path : str) : str := if is_absolute path then path else path_join base path.
(** [normalize] in [is_write_patch_constrained_to_writable_paths], which always answers. *)
Definition normalize (path : str) : str := foldl push_component [] (components path).

Section safety.
Context {D : Disk} (target_os : TargetOs).

Definition is_path_writable_for (policy : FileSystemSandboxPolicy) (cwd p : str) : bool :=
  can_write_path_with_cwd policy (normalize (resolve_path cwd p)) cwd.

Definition change_is_writable (policy : FileSystemSandboxPolicy) (cwd : str) (change : str * ApplyPatchFileChange) : bool :=
  let '(path, change) := change in
  match change with
  | AddChange _ | DeleteChange _ => is_path_writable_for policy cwd path
  | UpdateChange _ move_path _ =>
      is_path_writable_for policy cwd path
      && match move_path with Some dest => is_path_writable_for policy cwd dest | None => true end
  end.

(** The order of the iteration over the changes makes no difference. *)
Definition is_write_patch_constrained_to_writable_paths {HO : HashOrder} (action : ApplyPatchAction) (policy : FileSystemSandboxPolicy)
    (cwd : str) : bool :=
  forallb (change_is_writable policy cwd) (hash_iter (changes action)).

Definition patch_rejection_reason (permission_profile : Profile) (policy : FileSystemSandboxPolicy) (cwd : str) : str :=
  match permission_profile with
  | Managed _ _ =>
      if negb (has_full_disk_write_access policy) && is_empty (get_writable_roots_with_cwd policy cwd)
      then PATCH_REJECTED_READ_ONLY_REASON else PATCH_REJECTED_OUTSIDE_PROJECT_REASON
  | Disabled | External _ => PATCH_REJECTED_OUTSIDE_PROJECT_REASON
  end.

Definition rejects_sandbox_approval (policy : AskForApproval) : bool :=
  match policy with
  | Never => true
  | Granular granular_config => negb (sandbox_approval granular_config)
  | _ => false
  end.

Definition assess_patch_safety {HO : HashOrder} (action : ApplyPatchAction) (policy : AskForApproval) (permission_profile : Profile)
    (file_system_sandbox_policy : FileSystemSandboxPolicy) (cwd : str) (windows_sandbox_level : WindowsSandboxLevel) : SafetyCheck :=
  if action_is_empty action then Reject (lit "empty patch")
  else
    let rejects := rejects_sandbox_approval policy in
    let reason := patch_rejection_reason permission_profile file_system_sandbox_policy cwd in
    match policy with
    | UnlessTrusted => AskUser
    | OnFailure | Never | OnRequest | Granular _ =>
        if is_write_patch_constrained_to_writable_paths action file_system_sandbox_policy cwd
           || match policy with OnFailure => true | _ => false end
        then
          match permission_profile with
          | Disabled | External _ => AutoApprove NoSandbox false
          | Managed _ _ =>
              match get_platform_sandbox target_os (match windows_sandbox_level with LevelDisabled => false | _ => true end) with
              | Some sandbox_type => AutoApprove sandbox_type false
              | None => if rejects then Reject reason else AskUser
              end
          end
        else if rejects then Reject reason
        else AskUser
    end.
End safety.

(** ** Properties *)

Section properties.
Context {D : Disk} {DL : DiskLaws D} {HO : HashOrder} {PT : PatchTools} `{FileSystemLaws} (target_os : TargetOs).

(** Patches are never asked about where the approval policy does not let questions
    through, and always under the policy that asks for everything; an empty
    patch is refused; and no sandbox is only chosen where the profile leaves
    sandboxing to nobody or to someone else. *)
Theorem patches_follow_the_approval_policy action policy (profile : Profile) file_system_policy cwd level :
  let check := assess_patch_safety target_os action policy profile file_system_policy cwd level in
  (check = AskUser → rejects_sandbox_approval policy = false)
  ∧ (policy = UnlessTrusted → check = if action_is_empty action then Reject (lit "empty patch") else AskUser)
  ∧ (∀ explicitly, check = AutoApprove NoSandbox explicitly → explicitly = false ∧ enforcement profile ≠ EnforceManaged)
  ∧ (∀ sandbox explicitly, check = AutoApprove sandbox explicitly → enforcement profile = EnforceManaged →
       get_platform_sandbox target_os (match level with LevelDisabled => false | _ => true end) = Some sandbox).
Proof.
  intros check. unfold check, assess_patch_safety. destruct (action_is_empty action); [by split_and!|].
  split_and!.
  - destruct policy as [| | |g|]; simpl; try done; repeat case_match; simplify_eq; try done.
  - by intros ->.
  - intros ex Hc. assert (∀ b, get_platform_sandbox target_os b ≠ Some NoSandbox) as Hno by by destruct target_os, b.
    destruct policy, profile; simpl in Hc; repeat case_match; simplify_eq; try done; by edestruct Hno.
  - intros sb ex Hc Hm. destruct policy, profile; simpl in Hc; repeat case_match; simplify_eq; done.
Qed.

(** ** What is checked is what is applied *)

Lemma add_changes_keep cwd hunks acc s s' ch p :
  add_changes disk_home_dir cwd acc hunks s = (s', Ok ch) → p ∉ (hunk_resolve_path disk_home_dir cwd <$> hunks) → ch !! p = acc !! p.
Proof.
  revert acc s. induction hunks as [|h hunks IH]; intros acc s; simpl; [by intros [= _ <-]|]. unfold mbind, FsM_bind.
  destruct (add_change disk_home_dir cwd acc h s) as [s1 [acc1|e]] eqn:Hadd; [|done]. intros Hrest [Hne Hno]%not_elem_of_cons.
  destruct (add_change_paths _ _ _ _ _ _ _ Hadd) as (c & -> & _). rewrite (IH _ _ Hrest Hno). by rewrite lookup_insert_ne.
Qed.

Lemma add_change_destination cwd acc h s s' ch :
  add_change disk_home_dir cwd acc h s = (s', Ok ch) →
  ∃ c, ch = <[hunk_resolve_path disk_home_dir cwd h := c]> acc
    ∧ ∀ p, p ∈ hunk_paths disk_home_dir cwd h → p = hunk_resolve_path disk_home_dir cwd h ∨ ∃ u n, c = UpdateChange u (Some p) n.
Proof.
  destruct h as [path contents|path|path mp chunks]; unfold add_change, mbind, FsM_bind, fs_map_err, mret, FsM_ret; simpl.
  - intros [= <- <-]. eexists. split; [done|]. intros p ->%list_elem_of_singleton. by left.
  - destruct (read_file_text _ s) as [s1 [content|e]]; [|done]. intros [= <- <-]. eexists. split; [done|].
    intros p ->%list_elem_of_singleton. by left.
  - destruct (unified_diff_from_chunks _ _ s) as [s1 [[diff content]|e]]; [|done]. intros [= <- <-]. eexists. split; [done|].
    intros p Hp. destruct mp as [dest|]; simpl in Hp; [|apply list_elem_of_singleton in Hp as ->; by left].
    rewrite !elem_of_cons elem_of_nil in Hp. destruct Hp as [->|[->|[]]]; [by left|right]. by eexists _, _.
Qed.

Lemma changes_name_paths cwd hunks acc s s' ch :
  add_changes disk_home_dir cwd acc hunks s = (s', Ok ch) → NoDup (hunk_resolve_path disk_home_dir cwd <$> hunks) →
  ∀ p, p ∈ all_paths disk_home_dir cwd hunks →
    ∃ src c, ch !! src = Some c ∧ (p = src ∨ ∃ u n, c = UpdateChange u (Some p) n).
Proof.
  revert acc s. induction hunks as [|h hunks IH]; intros acc s; simpl; [by intros _ _ p ?%elem_of_nil|]. unfold mbind, FsM_bind.
  destruct (add_change disk_home_dir cwd acc h s) as [s1 [acc1|e]] eqn:Hadd; [|done]. intros Hrest [Hno Hnd]%NoDup_cons p.
  unfold all_paths. simpl. rewrite elem_of_app. intros [Hp|Hp]; [|by eapply IH].
  destruct (add_change_destination _ _ _ _ _ _ Hadd) as (c & -> & Hc). exists (hunk_resolve_path disk_home_dir cwd h), c.
  split; [|by apply Hc]. rewrite (add_changes_keep _ _ _ _ _ _ _ Hrest Hno). apply lookup_insert_eq.
Qed.

Lemma hunk_effect_outside cwd h m m' p :
  hunk_effect disk_home_dir cwd h m = Some m' → p ∉ hunk_paths disk_home_dir cwd h → m' !! p = m !! p.
Proof.
  destruct h as [path contents|path|path mp chunks]; simpl.
  - intros [= <-] Hp. apply lookup_insert_ne. set_solver.
  - intros [= <-] Hp. apply lookup_delete_ne. set_solver.
  - intros (original & _ & He)%bind_Some Hp. destruct (new_contents_of _ _ _) as [[new|]|]; [|done..]. injection He as <-.
    destruct mp as [dest|]; [rewrite lookup_delete_ne ?lookup_insert_ne //|rewrite lookup_insert_ne //]; set_solver.
Qed.

Lemma hunks_effect_outside cwd hunks m m' p :
  hunks_effect disk_home_dir cwd hunks m = Some m' → p ∉ all_paths disk_home_dir cwd hunks → m' !! p = m !! p.
Proof.
  revert m. induction hunks as [|h hunks IH]; intros m; simpl; [by intros [= <-]|].
  intros (m1 & Hh & Hrest)%bind_Some. unfold all_paths. simpl. rewrite elem_of_app. intros Hno.
  rewrite (IH _ Hrest); [tauto|]. apply (hunk_effect_outside _ _ _ _ _ Hh). tauto.
Qed.

(** Applying hunks touches the files they name and no other, whether it fails or not. *)
Lemma applying_touches_named_files cwd hunks s s' r p :
  apply_hunks_to_files disk_home_dir cwd hunks s = (s', r) → p ∉ all_paths disk_home_dir cwd hunks → files s' !! p = files s !! p.
Proof.
  unfold apply_hunks_to_files. destruct (is_empty hunks); [by intros [= <- _]|].
  intros Hl%apply_hunks_loop_spec Hp. destruct r as [affected|e].
  - destruct Hl as [He _]. by eapply hunks_effect_outside.
  - destruct Hl as (before & h & after & m & -> & He & Hs). unfold all_paths in Hp. rewrite bind_app elem_of_app in Hp.
    rewrite Hs; [|by eapply hunks_effect_outside; [exact He|tauto]]. simpl in Hp. rewrite elem_of_app in Hp. tauto.
Qed.

Lemma normalize_resolved cwd p : settled p → normalize (resolve_path cwd p) = p.
Proof.
  intros Hp. unfold resolve_path. rewrite settled_absolute //. rewrite -{2}(normalize_settled p Hp). unfold normalize, normalize_path.
  destruct (normalize_stack p) as [-> _]. destruct (is_empty _) eqn:E; [|done]. exfalso. apply is_empty_true in E.
  destruct (settled_names p Hp) as (ns & Hns & Hc). rewrite Hc norm_components_id in E; [|by destruct ns].
  change (Forall plain (map Normal ns)). apply Forall_fmap. eapply Forall_impl; [exact Hns|]. done.
Qed.

Lemma constrained_changes action policy cwd path change :
  is_write_patch_constrained_to_writable_paths action policy cwd = true → changes action !! path = Some change →
  change_is_writable policy cwd (path, change) = true.
Proof.
  unfold is_write_patch_constrained_to_writable_paths. rewrite forallb_forall. intros Hall Hc. apply Hall.
  apply list_elem_of_In. rewrite hash_iter_perm. by apply elem_of_map_to_list.
Qed.

Lemma approved_is_constrained action policy profile file_system_policy cwd level sandbox explicitly :
  assess_patch_safety target_os action policy profile file_system_policy cwd level = AutoApprove sandbox explicitly →
  policy ≠ OnFailure → is_write_patch_constrained_to_writable_paths action file_system_policy cwd = true.
Proof.
  unfold assess_patch_safety. destruct (action_is_empty action); [done|]. intros Hcheck Hpol.
  destruct (is_write_patch_constrained_to_writable_paths _ _ _); [done|]. destruct policy; try done; simpl in Hcheck; by repeat case_match.
Qed.

(** C10. A patch that is approved without asking, under any approval policy but the one
    that asks after a failure (which approves patches for any files), only changes files that may be written:
    when its hunks are for different files, whatever applying it changes,
    now or later, wholly or up to a failure, may be written under the policy
    it was judged by. The directories are absolute and without dots, as
    [AbsolutePathBuf]s of the session are. *)
Theorem approved_patches_change_writable_files argv patch_cwd s s1 action args policy profile file_system_policy cwd level sandbox
    explicitly s2 s3 r p :
  settled patch_cwd → settled cwd →
  maybe_parse_apply_patch_verified disk_home_dir argv patch_cwd s = (s1, VerifiedBody action) →
  maybe_parse_apply_patch argv = Body args →
  NoDup (hunk_resolve_path disk_home_dir (action_cwd action) <$> args_hunks args) →
  assess_patch_safety target_os action policy profile file_system_policy cwd level = AutoApprove sandbox explicitly →
  apply_hunks_to_files disk_home_dir (action_cwd action) (args_hunks args) s2 = (s3, r) →
  files s3 !! p ≠ files s2 !! p → policy = OnFailure ∨ can_write_path_with_cwd file_system_policy p cwd = true.
Proof.
  intros Hpc Hcwd Hver Hargs Hnd Hcheck Happly Hchanged. assert (policy = OnFailure ∨ policy ≠ OnFailure) as [|Hpol] by (destruct policy; [by right|by left|by right..]); [by left|right]. apply approved_is_constrained in Hcheck; [|done].
  unfold maybe_parse_apply_patch_verified in Hver. destruct (is_bare_patch argv); [done|]. rewrite Hargs in Hver.
  destruct (add_changes _ _ ∅ _ s) as [s' [ch|e]] eqn:Hadd; [|done]. injection Hver as <- <-. simpl in Hnd, Happly.
  destruct (decide (p ∈ all_paths disk_home_dir (effective_cwd_of disk_home_dir patch_cwd args) (args_hunks args))) as [Hin|Hin].
  2: by destruct (Hchanged (applying_touches_named_files _ _ _ _ _ _ Happly Hin)).
  destruct (changes_name_paths _ _ _ _ _ _ Hadd Hnd p Hin) as (src & c & Hch & Hor).
  assert (settled p) as Hp.
  { unfold all_paths in Hin. apply list_elem_of_bind in Hin as (h & Hin & _).
    assert (is_absolute (effective_cwd_of disk_home_dir patch_cwd args) = true) as Habs.
    { unfold effective_cwd_of. destruct (args_workdir args); [|by apply settled_absolute]. by apply settled_absolute, join_absolute_settled. }
    destruct h as [| |? [dest|] ?]; simpl in Hin; rewrite ?elem_of_cons elem_of_nil in Hin;
      destruct_or?; subst; try done; by apply resolve_against_settled. }
  apply (constrained_changes _ _ _ src c) in Hcheck; [|exact Hch]. unfold change_is_writable, is_path_writable_for in Hcheck.
  destruct Hor as [<-|(u & n & ->)].
  - rewrite normalize_resolved // in Hcheck. destruct c; [done..|]. by apply andb_true_iff in Hcheck as [? _].
  - apply andb_true_iff in Hcheck as [_ Hcheck]. by rewrite normalize_resolved in Hcheck.
Qed.
End properties.

(** ** Findings and witnesses *)

Definition workspace_policy : FileSystemSandboxPolicy := restricted [root_entry Read; MkEntry (PathEntry (lit "/work")) Write].
Definition workspace_profile : Profile := Managed (ManagedRestricted (entries workspace_policy) None) NetworkRestricted.
Definition work_files : gmap str str := {[lit "/work/a.txt" := lit "old" ++ [ch_nl]]}.

Definition patch_argv (body : list string) : list str :=
  [lit "apply_patch"; join [ch_nl] (map lit (["*** Begin Patch"%string] ++ body ++ ["*** End Patch"%string]))].
Definition demo_check (argv : list str) : option (ApplyPatchAction * SafetyCheck) :=
  match maybe_parse_apply_patch_verified (PT := demo_tools) (H := demo_fs) None argv (lit "/work") work_files with
  | (_, VerifiedBody action) =>
      Some (action, assess_patch_safety (D := demo_disk) (HO := map_order) TargetLinux action OnRequest workspace_profile workspace_policy
                      (lit "/work") LevelDisabled)
  | _ => None
  end.

(** A patch that moves a file out of the workspace and adds the file anew. *)
Definition hidden_move : list str :=
  patch_argv ["*** Update File: a.txt"; "*** Move to: ../other/b.txt"; "@@"; "-old"; "+new"; "*** Add File: a.txt"; "+old"]%string.

(** The changes of a patch are kept by path, and a later hunk for a path takes the
    place of an earlier one, with its destination: the patch below moves a file
    out of the workspace and adds the file anew, and is approved without asking,
    although it writes a file that may not be written. *)
Example a_second_hunk_hides_a_move :
  match demo_check hidden_move, maybe_parse_apply_patch (PT := demo_tools) hidden_move with
  | Some (action, check), Body args =>
      check = AutoApprove LinuxSeccomp false
      ∧ (apply_hunks_to_files (H := demo_fs) None (action_cwd action) (args_hunks args) work_files).1 !! lit "/other/b.txt"
        = Some (lit "new" ++ [ch_nl])
      ∧ @can_write_path_with_cwd demo_disk workspace_policy (lit "/other/b.txt") (lit "/work") = false
  | _, _ => False
  end.
Proof. vm_compute. by split_and!. Qed.

Lemma approved_patches_change_writable_files_witness :
  ∃ action args s3 r, maybe_parse_apply_patch_verified (PT := demo_tools) (H := demo_fs) None
      (patch_argv ["*** Update File: a.txt"; "@@"; "-old"; "+new"]%string) (lit "/work") work_files = (work_files, VerifiedBody action)
    ∧ apply_hunks_to_files (H := demo_fs) None (action_cwd action) (args_hunks args) work_files = (s3, r)
    ∧ s3 !! lit "/work/a.txt" = Some (lit "new" ++ [ch_nl])
    ∧ @can_write_path_with_cwd demo_disk workspace_policy (lit "/work/a.txt") (lit "/work") = true.
Proof.
  set (argv := patch_argv ["*** Update File: a.txt"; "@@"; "-old"; "+new"]%string).
  assert (∃ action args, maybe_parse_apply_patch_verified (PT := demo_tools) (H := demo_fs) None argv (lit "/work") work_files
      = (work_files, VerifiedBody action) ∧ maybe_parse_apply_patch (PT := demo_tools) argv = Body args
      ∧ action_cwd action = lit "/work" ∧ args_hunks args = [UpdateFile (lit "a.txt") None [MkUpdateFileChunk None [lit "old"] [lit "new"] false]]
      ∧ assess_patch_safety (D := demo_disk) (HO := map_order) TargetLinux action OnRequest workspace_profile workspace_policy (lit "/work")
          LevelDisabled = AutoApprove LinuxSeccomp false) as (action & args & Hver & Hargs & Hcwd & Hhunks & Hcheck).
  { eexists _, _. split; [vm_compute; reflexivity|]. split; [vm_compute; reflexivity|]. repeat split; vm_compute; reflexivity. }
  destruct (apply_hunks_to_files (H := demo_fs) None (action_cwd action) (args_hunks args) work_files) as [s3 r] eqn:Happly.
  exists action, args, s3, r. split; [exact Hver|]. split; [exact Happly|].
  assert (s3 !! lit "/work/a.txt" = Some (lit "new" ++ [ch_nl])) as Hnew.
  { pose proof (f_equal fst Happly) as Hs. rewrite Hcwd Hhunks in Hs. simpl in Hs. rewrite -Hs. vm_compute. reflexivity. }
  split; [exact Hnew|].
  destruct (@approved_patches_change_writable_files demo_disk demo_disk_laws map_order demo_tools demo_fs demo_fs_laws TargetLinux argv
    (lit "/work") work_files work_files action args OnRequest workspace_profile workspace_policy (lit "/work") LevelDisabled LinuxSeccomp false
    work_files s3 r (lit "/work/a.txt")) as [He|Hw]; [..|discriminate He|exact Hw].
  - exact demo_work.
  - exact demo_work.
  - exact Hver.
  - exact Hargs.
  - rewrite Hhunks. apply NoDup_singleton.
  - exact Hcheck.
  - exact Happly.
  - simpl. rewrite Hnew. vm_compute. discriminate.
Defined.
