(* ===== verification/NetAddr.v ===== *)
(** Hosts as the network proxy compares them ([codex-rs/network-proxy/src/policy.rs]):
    the addresses of the standard library with their parser, which of them are
    not public, normal forms of hosts and of domain patterns, and the sets of
    globs the patterns become. Globs and the host parser of the [url] crate are
    the class [NetLib]; [GlobLaws] is what the code relies on. *)
From S2P Require Import Prelude.
From Stdlib Require Import ZArith Lia.
#[local] Open Scope Z_scope.

(** ** [std::net::IpAddr] *)

(** Four bytes, and eight groups of two bytes. *)
Inductive IpAddr : Type := V4 (a b c d : Z) | V6 (segments : list Z).
#[global] Instance IpAddr_eq_dec : EqDecision IpAddr.
Proof. solve_decision. Defined.

(** [char::to_digit] *)
Definition to_digit (radix : Z) (c : char) : option Z :=
  let z := Z.of_N c in
  let d := if is_ascii_digit c then Some (z - 48)
           else if is_ascii_lower c then Some (z - 87)
           else if is_ascii_upper c then Some (z - 55) else None in
  match d with Some d => if d <? radix then Some d else None | None => None end.

(** *** The parser of addresses *)

Fixpoint read_digits (radix : Z) (max_digits : nat) (s : str) (result : Z) (digit_count : nat) :
    option (Z * nat * str) :=
  match s with
  | c :: r =>
      match to_digit radix c with
      | Some digit =>
          if Nat.ltb max_digits (S digit_count) then None
          else read_digits radix max_digits r (result * radix + digit) (S digit_count)
      | None => Some (result, digit_count, s)
      end
  | [] => Some (result, digit_count, [])
  end.
Definition read_number (radix : Z) (max_digits : nat) (allow_zero_prefix : bool) (max_value : Z) (s : str) :
    option (Z * str) :=
  let has_leading_zero := match s with c :: _ => (c =? 48)%N | [] => false end in
  '(result, digit_count, r) ← read_digits radix max_digits s 0 0;
  if Nat.eqb digit_count 0 then None
  else if negb allow_zero_prefix && has_leading_zero && Nat.ltb 1 digit_count then None
  else if result <=? max_value then Some (result, r) else None.
Definition read_given_char (c : char) (s : str) : option str :=
  match s with d :: r => if (d =? c)%N then Some r else None | [] => None end.
Definition read_separator {A} (sep : char) (index : nat) (inner : str → option (A * str)) (s : str) : option (A * str) :=
  match index with O => inner s | S _ => r ← read_given_char sep s; inner r end.

Definition read_octet : str → option (Z * str) := read_number 10 3 false 255.
Definition read_ipv4_addr (s : str) : option ((Z * Z * Z * Z) * str) :=
  '(a, s) ← read_separator ch_dot 0 read_octet s;
  '(b, s) ← read_separator ch_dot 1 read_octet s;
  '(c, s) ← read_separator ch_dot 2 read_octet s;
  '(d, s) ← read_separator ch_dot 3 read_octet s;
  Some ((a, b, c, d), s).

(** The groups read, whether they end in an IPv4 address, and the rest; [n] is
    the number of groups that may still be read, [i] of those that were. *)
Fixpoint read_groups (n i : nat) (s : str) : list Z * bool * str :=
  match n with
  | O => ([], false, s)
  | S n' =>
      match (if Nat.ltb 0 n' then read_separator ch_colon i read_ipv4_addr s else None) with
      | Some ((one, two, three, four), r) => ([one * 256 + two; three * 256 + four], true, r)
      | None =>
          match read_separator ch_colon i (read_number 16 4 true 65535) s with
          | Some (g, r) => let '(gs, ipv4, rest) := read_groups n' (S i) r in (g :: gs, ipv4, rest)
          | None => ([], false, s)
          end
      end
  end.
Definition read_ipv6_addr (s : str) : option (list Z * str) :=
  let '(head, head_ipv4, s) := read_groups 8 0 s in
  if Nat.eqb (length head) 8 then Some (head, s)
  else if head_ipv4 then None
  else
    s ← read_given_char ch_colon s;
    s ← read_given_char ch_colon s;
    let '(tail, _, s) := read_groups (8 - (length head + 1)) 0 s in
    Some (head ++ replicate (8 - length head - length tail) 0 ++ tail, s).

Definition read_ip_addr (s : str) : option (IpAddr * str) :=
  match read_ipv4_addr s with
  | Some ((a, b, c, d), r) => Some (V4 a b c d, r)
  | None => '(gs, r) ← read_ipv6_addr s; Some (V6 gs, r)
  end.
(** [str::parse::<IpAddr>()] *)
Definition parse_ip (s : str) : option IpAddr :=
  '(ip, r) ← read_ip_addr s; match r with [] => Some ip | _ => None end.

(** *** Classes of addresses *)

Definition ipv4_to_u32 (a b c d : Z) : Z := a * 2 ^ 24 + b * 2 ^ 16 + c * 2 ^ 8 + d.
Definition u32_max : Z := 2 ^ 32 - 1.

Definition v4_is_loopback (a b c d : Z) : bool := a =? 127.
Definition v4_is_private (a b c d : Z) : bool :=
  (a =? 10) || ((a =? 172) && (16 <=? b) && (b <=? 31)) || ((a =? 192) && (b =? 168)).
Definition v4_is_link_local (a b c d : Z) : bool := (a =? 169) && (b =? 254).
Definition v4_is_unspecified (a b c d : Z) : bool := (a =? 0) && (b =? 0) && (c =? 0) && (d =? 0).
Definition v4_is_multicast (a b c d : Z) : bool := (224 <=? a) && (a <=? 239).
Definition v4_is_broadcast (a b c d : Z) : bool := (a =? 255) && (b =? 255) && (c =? 255) && (d =? 255).

Definition segment (segments : list Z) (i : nat) : Z := default 0 (segments !! i).
Definition v6_is_loopback (segments : list Z) : bool := bool_decide (segments = [0; 0; 0; 0; 0; 0; 0; 1]).
Definition v6_is_unspecified (segments : list Z) : bool := bool_decide (segments = [0; 0; 0; 0; 0; 0; 0; 0]).
Definition v6_is_multicast (segments : list Z) : bool := Z.land (segment segments 0) 0xff00 =? 0xff00.
Definition v6_is_unique_local (segments : list Z) : bool := Z.land (segment segments 0) 0xfe00 =? 0xfc00.
Definition v6_is_unicast_link_local (segments : list Z) : bool := Z.land (segment segments 0) 0xffc0 =? 0xfe80.
(** [Ipv6Addr::to_ipv4]: compatible and mapped addresses. *)
Definition to_ipv4 (segments : list Z) : option (Z * Z * Z * Z) :=
  match segments with
  | [0; 0; 0; 0; 0; m; ab; cd] =>
      if (m =? 0) || (m =? 0xffff) then Some (Z.shiftr ab 8, Z.land ab 255, Z.shiftr cd 8, Z.land cd 255) else None
  | _ => None
  end.

Definition is_loopback (ip : IpAddr) : bool :=
  match ip with V4 a b c d => v4_is_loopback a b c d | V6 segments => v6_is_loopback segments end.

Definition ipv4_in_cidr (a b c d : Z) (base : Z * Z * Z * Z) (prefix : Z) : bool :=
  let ip := ipv4_to_u32 a b c d in
  let '(e, f, g, h) := base in
  let base := ipv4_to_u32 e f g h in
  let mask := if prefix =? 0 then 0 else Z.land (Z.shiftl u32_max (32 - prefix)) u32_max in
  Z.land ip mask =? Z.land base mask.

Definition is_non_public_ipv4 (a b c d : Z) : bool :=
  v4_is_loopback a b c d
  || v4_is_private a b c d
  || v4_is_link_local a b c d
  || v4_is_unspecified a b c d
  || v4_is_multicast a b c d
  || v4_is_broadcast a b c d
  || ipv4_in_cidr a b c d (0, 0, 0, 0) 8
  || ipv4_in_cidr a b c d (100, 64, 0, 0) 10
  || ipv4_in_cidr a b c d (192, 0, 0, 0) 24
  || ipv4_in_cidr a b c d (192, 0, 2, 0) 24
  || ipv4_in_cidr a b c d (198, 18, 0, 0) 15
  || ipv4_in_cidr a b c d (198, 51, 100, 0) 24
  || ipv4_in_cidr a b c d (203, 0, 113, 0) 24
  || ipv4_in_cidr a b c d (240, 0, 0, 0) 4.

Definition is_non_public_ipv6 (segments : list Z) : bool :=
  match to_ipv4 segments with
  | Some (a, b, c, d) => is_non_public_ipv4 a b c d || v6_is_loopback segments
  | None =>
      v6_is_loopback segments || v6_is_unspecified segments || v6_is_multicast segments
      || v6_is_unique_local segments || v6_is_unicast_link_local segments
  end.

Definition is_non_public_ip (ip : IpAddr) : bool :=
  match ip with V4 a b c d => is_non_public_ipv4 a b c d | V6 segments => is_non_public_ipv6 segments end.

(** ** Hosts *)

Definition ch_lbracket : char := 91%N.
Definition ch_rbracket : char := 93%N.
Definition ch_percent : char := 37%N.
Definition ch_question : char := 63%N.

Definition normalize_dns_host (host : str) : str := trim_end_matches (λ c, (c =? ch_dot)%N) (to_ascii_lowercase host).

Definition count_char (c : char) (s : str) : nat := length (List.filter (λ d, (d =? c)%N) s).

Definition normalize_host (host : str) : str :=
  let host := trim host in
  match (if starts_with [ch_lbracket] host then find_str [ch_rbracket] host else None) with
  | Some end_ => normalize_dns_host (take (end_ - 1) (drop 1 host))
  | None =>
      if Nat.eqb (count_char ch_colon host) 1
      then normalize_dns_host (unwrap_or [] (head (split_on ch_colon host)))
      else normalize_dns_host host
  end.

(** A [Host] is its normal form. *)
Definition Host_parse (input : str) : option str :=
  let normalized := normalize_host input in
  if is_empty normalized then None else Some normalized.

(** The part before the zone of an address. *)
Definition host_no_scope (host : str) : str :=
  match split_once ch_percent host with Some (ip, _) => ip | None => host end.

Definition is_loopback_host (host : str) : bool :=
  let host := host_no_scope host in
  if host =s? lit "localhost" then true
  else match parse_ip host with Some ip => is_loopback ip | None => false end.

(** ** Domain patterns *)

Definition normalize_pattern (pattern : str) : str :=
  let pattern := trim pattern in
  if pattern =s? lit "*" then lit "*"
  else
    let '(prefix, remainder) :=
      match strip_prefix (lit "**.") pattern with
      | Some domain => (lit "**.", domain)
      | None => match strip_prefix (lit "*.") pattern with
                | Some domain => (lit "*.", domain)
                | None => ([], pattern)
                end
      end in
    let remainder := normalize_host remainder in
    if is_empty prefix then remainder else prefix ++ remainder.

Inductive DomainPattern : Type :=
  | ApexAndSubdomains (domain : str)
  | SubdomainsOnly (domain : str)
  | Exact (domain : str).

Definition parse_domain (domain : str) (build : str → DomainPattern) : DomainPattern :=
  let domain := trim domain in
  if is_empty domain then Exact [] else build domain.

Definition DomainPattern_parse (input : str) : DomainPattern :=
  let input := trim input in
  if is_empty input then Exact []
  else match strip_prefix (lit "**.") input with
       | Some domain => parse_domain domain ApexAndSubdomains
       | None => match strip_prefix (lit "*.") input with
                 | Some domain => parse_domain domain SubdomainsOnly
                 | None => Exact input
                 end
       end.

Definition expand_domain_pattern (pattern : str) : list str :=
  match DomainPattern_parse pattern with
  | Exact domain => [domain]
  | SubdomainsOnly domain => [lit "?*." ++ domain]
  | ApexAndSubdomains domain => [domain; lit "?*." ++ domain]
  end.

Definition is_global_wildcard_domain_pattern (pattern : str) : bool :=
  existsb (λ candidate, candidate =s? lit "*") (expand_domain_pattern (normalize_pattern pattern)).

Definition normalize_domain (domain : str) : str := to_ascii_lowercase (trim_end_matches (λ c, (c =? ch_dot)%N) domain).
Definition domain_eq (left right : str) : bool := normalize_domain left =s? normalize_domain right.
Definition is_subdomain_or_equal (child parent : str) : bool :=
  let child := normalize_domain child in
  let parent := normalize_domain parent in
  if child =s? parent then true else ends_with (ch_dot :: parent) child.
Definition is_strict_subdomain (child parent : str) : bool :=
  let child := normalize_domain child in
  let parent := normalize_domain parent in
  negb (child =s? parent) && ends_with (ch_dot :: parent) child.

Definition allows (self candidate : DomainPattern) : bool :=
  match self with
  | Exact domain => match candidate with Exact candidate => domain_eq candidate domain | _ => false end
  | SubdomainsOnly domain =>
      match candidate with
      | Exact candidate => is_strict_subdomain candidate domain
      | SubdomainsOnly candidate => is_subdomain_or_equal candidate domain
      | ApexAndSubdomains candidate => is_strict_subdomain candidate domain
      end
  | ApexAndSubdomains domain =>
      match candidate with
      | Exact candidate => is_subdomain_or_equal candidate domain
      | SubdomainsOnly candidate => is_subdomain_or_equal candidate domain
      | ApexAndSubdomains candidate => is_subdomain_or_equal candidate domain
      end
  end.

(** ** Sets of globs *)

(** The crates the patterns go through: whether [globset] builds a glob that
    ignores case, and a set of them; what a glob matches; [url::Host::parse]
    and its text; the host and the port of [url::Url::parse]; and whether two hosts
    are equal for [rama]. *)
Class NetLib := {
  glob_builds : str → bool;
  globset_builds : list str → bool;
  glob_matches : str → str → bool;
  url_host_parse : str → option str;
  url_parse : str → option (option str * option Z);
  rama_host_eq : str → str → bool
}.

Inductive GlobSetError : Type := GlobalWildcardUnsupported | InvalidGlob (candidate : str) | GlobSetTooLarge.

Inductive GlobalWildcard : Type := AllowWildcard | RejectWildcard.

Section library.
Context `{NetLib}.

Definition parse_domain_for_constraints (domain : str) : str :=
  let domain := trim_end_matches (λ c, (c =? ch_dot)%N) (trim domain) in
  if is_empty domain then []
  else
    let host := if starts_with [ch_lbracket] domain && ends_with [ch_rbracket] domain
                then take (length domain - 2) (drop 1 domain) else domain in
    if contains_char ch_star host || contains_char ch_question host || contains_char ch_percent host then domain
    else unwrap_or [] (url_host_parse host).

Definition parse_for_constraints (input : str) : DomainPattern :=
  let input := trim input in
  if is_empty input then Exact []
  else match strip_prefix (lit "**.") input with
       | Some domain => ApexAndSubdomains (parse_domain_for_constraints domain)
       | None => match strip_prefix (lit "*.") input with
                 | Some domain => SubdomainsOnly (parse_domain_for_constraints domain)
                 | None => Exact (parse_domain_for_constraints input)
                 end
       end.

(** A [GlobSet] is the list of its globs: it matches what one of them does. *)
Definition is_match (globs : list str) (host : str) : bool := existsb (λ glob, glob_matches glob host) globs.

Definition add_candidate (acc : result GlobSetError (gset str * list str)) (candidate : str) :
    result GlobSetError (gset str * list str) :=
  '(seen, builder) ← acc;
  if bool_decide (candidate ∈ seen) then Ok (seen, builder)
  else if glob_builds candidate then Ok ({[candidate]} ∪ seen, builder ++ [candidate])
  else Err (InvalidGlob candidate).

Definition add_pattern (global_wildcard : GlobalWildcard) (acc : result GlobSetError (gset str * list str)) (pattern : str) :
    result GlobSetError (gset str * list str) :=
  '(seen, builder) ← acc;
  if match global_wildcard with RejectWildcard => is_global_wildcard_domain_pattern pattern | AllowWildcard => false end
  then Err GlobalWildcardUnsupported
  else foldl add_candidate (Ok (seen, builder)) (expand_domain_pattern (normalize_pattern pattern)).

Definition compile_globset_with_policy (patterns : list str) (global_wildcard : GlobalWildcard) :
    result GlobSetError (list str) :=
  '(_, builder) ← foldl (add_pattern global_wildcard) (Ok (∅, [])) patterns;
  if globset_builds builder then Ok builder else Err GlobSetTooLarge.

Definition compile_allowlist_globset (patterns : list str) : result GlobSetError (list str) :=
  compile_globset_with_policy patterns AllowWildcard.
Definition compile_denylist_globset (patterns : list str) : result GlobSetError (list str) :=
  compile_globset_with_policy patterns RejectWildcard.

End library.

(** *** What the code relies on *)

Definition is_glob_special (c : char) : bool :=
  (c =? ch_star)%N || (c =? ch_question)%N || (c =? ch_lbracket)%N || (c =? ch_rbracket)%N
  || (c =? 123)%N || (c =? 125)%N || (c =? ch_backslash)%N.
(** Text that a glob takes as it is. *)
Definition is_literal (s : str) : bool := forallb (λ c, (c <=? 127)%N && negb (is_glob_special c)) s.

(** A literal matches itself whatever the case, [*] every text and [?*] every
    text that is not empty. *)
Class GlobLaws (L : NetLib) := {
  glob_literal : ∀ g h, is_literal g = true → glob_matches g h = (to_ascii_lowercase g =s? to_ascii_lowercase h);
  glob_subdomains : ∀ d h, is_literal d = true →
    glob_matches (lit "?*." ++ d) h = true
    ↔ ∃ p e, p ≠ [] ∧ h = p ++ ch_dot :: e ∧ to_ascii_lowercase e = to_ascii_lowercase d;
  glob_star : ∀ h, glob_matches (lit "*") h = true
}.

(** ** The text of an address *)

Fixpoint radix_digits (radix : Z) (fuel : nat) (z : Z) : str :=
  match fuel with
  | O => []
  | S fuel =>
      let d := z mod radix in
      let c := Z.to_N (if d <? 10 then d + 48 else d + 87) in
      if z <? radix then [c] else radix_digits radix fuel (z / radix) ++ [c]
  end.
(** Octets have at most three digits, groups at most four. *)
Definition show_octet (z : Z) : str := radix_digits 10 3 z.
Definition show_group (z : Z) : str := radix_digits 16 4 z.
Definition show_ipv4 (a b c d : Z) : str :=
  show_octet a ++ ch_dot :: show_octet b ++ ch_dot :: show_octet c ++ ch_dot :: show_octet d.

(** The longest run of zeros, the first of those, as its start and length. *)
Record ZeroSpans := MkSpans { longest : nat * nat; current_span : nat * nat }.
Definition scan_zero (spans : ZeroSpans) (i : nat) (seg : Z) : ZeroSpans :=
  if seg =? 0 then
    let '(start, len) := current_span spans in
    let cur := (if Nat.eqb len 0 then i else start, S len) in
    MkSpans (if Nat.ltb (longest spans).2 cur.2 then cur else longest spans) cur
  else MkSpans (longest spans) (O, O).
Fixpoint scan_zeros (spans : ZeroSpans) (i : nat) (segments : list Z) : ZeroSpans :=
  match segments with [] => spans | seg :: r => scan_zeros (scan_zero spans i seg) (S i) r end.
Definition zero_span (segments : list Z) : nat * nat := longest (scan_zeros (MkSpans (O, O) (O, O)) 0 segments).

Definition fmt_subslice (segments : list Z) : str := join [ch_colon] (show_group <$> segments).
Definition to_ipv4_mapped (segments : list Z) : option (Z * Z * Z * Z) :=
  match segments with
  | [0; 0; 0; 0; 0; 0xffff; ab; cd] => Some (Z.shiftr ab 8, Z.land ab 255, Z.shiftr cd 8, Z.land cd 255)
  | _ => None
  end.
Definition show_ipv6 (segments : list Z) : str :=
  match to_ipv4_mapped segments with
  | Some (a, b, c, d) => lit "::ffff:" ++ show_ipv4 a b c d
  | None =>
      let '(start, len) := zero_span segments in
      if Nat.ltb 1 len then fmt_subslice (take start segments) ++ lit "::" ++ fmt_subslice (drop (start + len) segments)
      else fmt_subslice segments
  end.
(** [IpAddr]'s [Display] *)
Definition show_ip (ip : IpAddr) : str :=
  match ip with V4 a b c d => show_ipv4 a b c d | V6 segments => show_ipv6 segments end.

(** ** Addresses that are well formed *)

Definition is_octet (z : Z) : Prop := 0 <= z < 256.
Definition is_group (z : Z) : Prop := 0 <= z < 65536.
Definition well_formed (ip : IpAddr) : Prop :=
  match ip with
  | V4 a b c d => is_octet a ∧ is_octet b ∧ is_octet c ∧ is_octet d
  | V6 segments => length segments = 8%nat ∧ Forall is_group segments
  end.
