(* ===== verification/IpAddresses.v ===== *)
(** Addresses of the standard library as [NetAddr] reads them: which numbers are
    not public, and that an address is read back from its text. *)
From S2P Require Import Prelude NetAddr.
From Stdlib Require Import ZArith Lia.
#[local] Open Scope Z_scope.

(** ** Ranges *)

Lemma land_prefix x k : 0 <= x < 2 ^ 32 → 0 <= k <= 32 →
  Z.land x (Z.land (Z.shiftl u32_max k) u32_max) = x / 2 ^ k * 2 ^ k.
Proof.
  intros Hx Hk. rewrite -Z.shiftr_div_pow2; first lia. rewrite -Z.shiftl_mul_pow2; first lia.
  apply Z.bits_inj'. intros n Hn.
  rewrite !Z.land_spec (Z.shiftl_spec u32_max k) // (Z.shiftl_spec (Z.shiftr x k) k) //.
  change u32_max with (Z.ones 32).
  destruct (decide (n < k)).
  - rewrite !(Z.testbit_neg_r _ (n - k)); [lia..|]. by rewrite andb_false_r.
  - rewrite Z.shiftr_spec; first lia. replace (n - k + k) with n by lia.
    destruct (decide (n < 32)).
    + rewrite !Z.ones_spec_low; [lia..|]. by rewrite !andb_true_r.
    + rewrite -(Z.mod_small x (2 ^ 32)); first lia. rewrite Z.mod_pow2_bits_high //; lia.
Qed.

Lemma octets_u32 a b c d : is_octet a → is_octet b → is_octet c → is_octet d → 0 <= ipv4_to_u32 a b c d < 2 ^ 32.
Proof. unfold is_octet, ipv4_to_u32. lia. Qed.

Lemma ipv4_in_cidr_range a b c d e f g h prefix :
  is_octet a → is_octet b → is_octet c → is_octet d → is_octet e → is_octet f → is_octet g → is_octet h →
  0 < prefix <= 32 →
  ipv4_in_cidr a b c d (e, f, g, h) prefix
  = (ipv4_to_u32 a b c d / 2 ^ (32 - prefix) =? ipv4_to_u32 e f g h / 2 ^ (32 - prefix)).
Proof.
  intros ???????? Hp. unfold ipv4_in_cidr. destruct (Z.eqb_spec prefix 0); first lia.
  rewrite !land_prefix; [by first [apply octets_u32 | lia]..|].
  assert (0 < 2 ^ (32 - prefix)) by (apply Z.pow_pos_nonneg; lia).
  apply eq_bool_prop_intro; rewrite !Is_true_true !Z.eqb_eq; nia.
Qed.

(** The ranges of RFC 1122, 1918, 3927, 5737, 5771, 6598 and 6890 that are not
    public. *)
Definition non_public_ranges : list ((Z * Z * Z * Z) * (Z * Z * Z * Z)) :=
  [((0, 0, 0, 0), (0, 255, 255, 255)); ((10, 0, 0, 0), (10, 255, 255, 255));
   ((100, 64, 0, 0), (100, 127, 255, 255)); ((127, 0, 0, 0), (127, 255, 255, 255));
   ((169, 254, 0, 0), (169, 254, 255, 255)); ((172, 16, 0, 0), (172, 31, 255, 255));
   ((192, 0, 0, 0), (192, 0, 0, 255)); ((192, 0, 2, 0), (192, 0, 2, 255));
   ((192, 168, 0, 0), (192, 168, 255, 255)); ((198, 18, 0, 0), (198, 19, 255, 255));
   ((198, 51, 100, 0), (198, 51, 100, 255)); ((203, 0, 113, 0), (203, 0, 113, 255));
   ((224, 0, 0, 0), (255, 255, 255, 255))].
Definition in_ipv4_range (ip : Z) (range : (Z * Z * Z * Z) * (Z * Z * Z * Z)) : bool :=
  let '((a, b, c, d), (e, f, g, h)) := range in
  (ipv4_to_u32 a b c d <=? ip) && (ip <=? ipv4_to_u32 e f g h).

Ltac range_of_octets :=
  intros; unfold in_ipv4_range, ipv4_to_u32, is_octet in *; apply eq_bool_prop_intro; rewrite !Is_true_true;
  rewrite ?orb_true_iff ?andb_true_iff ?Z.eqb_eq ?Z.leb_le; lia.

Ltac compare_ranges :=
  unfold in_ipv4_range; rewrite !andb_true_iff !Z.leb_le;
  match goal with |- context[ipv4_to_u32 ?a ?b ?c ?d] => is_var a; generalize (ipv4_to_u32 a b c d) => ?; unfold ipv4_to_u32; lia end.

Section ranges.
  Context (a b c d : Z) (Ha : is_octet a) (Hb : is_octet b) (Hc : is_octet c) (Hd : is_octet d).
  #[local] Abbreviation ip := (ipv4_to_u32 a b c d).

Lemma loopback_range : v4_is_loopback a b c d = in_ipv4_range ip ((127, 0, 0, 0), (127, 255, 255, 255)).
  Proof. unfold v4_is_loopback. range_of_octets. Qed.
Lemma private_ranges : v4_is_private a b c d
    = in_ipv4_range ip ((10, 0, 0, 0), (10, 255, 255, 255)) || in_ipv4_range ip ((172, 16, 0, 0), (172, 31, 255, 255))
      || in_ipv4_range ip ((192, 168, 0, 0), (192, 168, 255, 255)).
  Proof. unfold v4_is_private. range_of_octets. Qed.
Lemma link_local_range : v4_is_link_local a b c d = in_ipv4_range ip ((169, 254, 0, 0), (169, 254, 255, 255)).
  Proof. unfold v4_is_link_local. range_of_octets. Qed.
Lemma unspecified_range : v4_is_unspecified a b c d = in_ipv4_range ip ((0, 0, 0, 0), (0, 0, 0, 0)).
  Proof. unfold v4_is_unspecified. range_of_octets. Qed.
Lemma multicast_range : v4_is_multicast a b c d = in_ipv4_range ip ((224, 0, 0, 0), (239, 255, 255, 255)).
  Proof. unfold v4_is_multicast. range_of_octets. Qed.
Lemma broadcast_range : v4_is_broadcast a b c d = in_ipv4_range ip ((255, 255, 255, 255), (255, 255, 255, 255)).
  Proof. unfold v4_is_broadcast. range_of_octets. Qed.

  (** A block of addresses is a range. *)
Lemma cidr_range e f g h e' f' g' h' prefix :
    is_octet e → is_octet f → is_octet g → is_octet h → 0 < prefix <= 32 →
    ipv4_to_u32 e f g h mod 2 ^ (32 - prefix) = 0 →
    ipv4_to_u32 e' f' g' h' = ipv4_to_u32 e f g h + 2 ^ (32 - prefix) - 1 →
    ipv4_in_cidr a b c d (e, f, g, h) prefix = in_ipv4_range ip ((e, f, g, h), (e', f', g', h')).
  Proof using Ha Hb Hc Hd.
    intros ???? Hp Hlo Hhi. rewrite ipv4_in_cidr_range // /in_ipv4_range Hhi.
    assert (0 < 2 ^ (32 - prefix)) as Hk by (apply Z.pow_pos_nonneg; lia).
    move: Hk Hlo. generalize (2 ^ (32 - prefix)) ip (ipv4_to_u32 e f g h) => k n m Hk Hm.
    apply eq_bool_prop_intro. rewrite !Is_true_true andb_true_iff Z.eqb_eq !Z.leb_le.
    pose proof (Z.div_mod n k). pose proof (Z.mod_pos_bound n k). pose proof (Z.div_mod m k). nia.
  Qed.

  (** An IPv4 address is not public when its number is in one of the ranges. *)
Lemma non_public_ipv4 : is_non_public_ipv4 a b c d = existsb (in_ipv4_range ip) non_public_ranges.
  Proof using Ha Hb Hc Hd.
    unfold is_non_public_ipv4.
    rewrite loopback_range private_ranges link_local_range unspecified_range multicast_range broadcast_range.
    rewrite (cidr_range 0 0 0 0 0 255 255 255) // (cidr_range 100 64 0 0 100 127 255 255) //
      (cidr_range 192 0 0 0 192 0 0 255) // (cidr_range 192 0 2 0 192 0 2 255) // (cidr_range 198 18 0 0 198 19 255 255) //
      (cidr_range 198 51 100 0 198 51 100 255) // (cidr_range 203 0 113 0 203 0 113 255) //
      (cidr_range 240 0 0 0 255 255 255 255) //.
    assert (in_ipv4_range ip ((224, 0, 0, 0), (255, 255, 255, 255)) = true
      ↔ in_ipv4_range ip ((224, 0, 0, 0), (239, 255, 255, 255)) = true
        ∨ in_ipv4_range ip ((240, 0, 0, 0), (255, 255, 255, 255)) = true) as Hhigh.
    { compare_ranges. }
    assert (in_ipv4_range ip ((255, 255, 255, 255), (255, 255, 255, 255)) = true →
            in_ipv4_range ip ((240, 0, 0, 0), (255, 255, 255, 255)) = true) as Hbroadcast.
    { compare_ranges. }
    assert (in_ipv4_range ip ((0, 0, 0, 0), (0, 0, 0, 0)) = true →
            in_ipv4_range ip ((0, 0, 0, 0), (0, 255, 255, 255)) = true) as Hzero.
    { compare_ranges. }
    apply eq_bool_prop_intro. rewrite !Is_true_true. cbn [existsb non_public_ranges]. rewrite !orb_true_iff.
    split; [|move=> [?|[?|[?|[?|[?|[?|[?|[?|[?|[?|[?|[?|[/Hhigh ?|?]]]]]]]]]]]]]];
      intuition congruence.
  Qed.
End ranges.

(** ** Reading what was written *)

Definition digit_char (d : Z) : char := Z.to_N (if d <? 10 then d + 48 else d + 87).
Lemma to_digit_char radix d : 0 <= d < radix → radix <= 16 → to_digit radix (digit_char d) = Some d.
Proof.
  intros Hd Hr. unfold to_digit, digit_char, is_ascii_digit, is_ascii_lower, is_ascii_upper, in_range.
  destruct (Z.ltb_spec d 10).
  - replace (48 <=? Z.to_N (d + 48))%N with true by (symmetry; apply N.leb_le; lia).
    replace (Z.to_N (d + 48) <=? 57)%N with true by (symmetry; apply N.leb_le; lia).
    simpl. rewrite Z2N.id; first lia. replace (d + 48 - 48) with d by lia. destruct (Z.ltb_spec d radix); [done|lia].
  - replace (Z.to_N (d + 87) <=? 57)%N with false by (symmetry; apply N.leb_gt; lia). rewrite andb_false_r.
    replace (97 <=? Z.to_N (d + 87))%N with true by (symmetry; apply N.leb_le; lia).
    replace (Z.to_N (d + 87) <=? 122)%N with true by (symmetry; apply N.leb_le; lia).
    simpl. rewrite Z2N.id; first lia. replace (d + 87 - 87) with d by lia. destruct (Z.ltb_spec d radix); [done|lia].
Qed.

(** The rest does not go on with a digit. *)
Definition no_digit (radix : Z) (r : str) : Prop :=
  match r with c :: _ => to_digit radix c = None | [] => True end.

Section radix.
  Context (radix : Z) (Hradix : 2 <= radix <= 16).

Lemma radix_digits_step fuel z : 0 <= z →
    radix_digits radix (S fuel) z
    = (if z <? radix then [] else radix_digits radix fuel (z / radix)) ++ [digit_char (z mod radix)].
  Proof. intros Hz. cbn [radix_digits]. rewrite /digit_char. by destruct (z <? radix). Qed.

Lemma digits_step_bound fuel z : 0 <= z < radix ^ Z.of_nat (S fuel) → 0 <= z / radix < radix ^ Z.of_nat fuel.
  Proof using Hradix.
    intros Hz. rewrite Nat2Z.inj_succ Z.pow_succ_r in Hz; first lia.
    split; [apply Z.div_pos | apply Z.div_lt_upper_bound]; lia.
  Qed.

Lemma radix_digits_length fuel z : (length (radix_digits radix fuel z) <= fuel)%nat.
  Proof.
    revert z. induction fuel as [|fuel IH]; intros z; first done. cbn [radix_digits].
    destruct (z <? radix); first (simpl; lia). rewrite length_app /=. pose proof (IH (z / radix)). lia.
  Qed.

Lemma read_radix_digits max_digits fuel z acc n r : 0 <= z < radix ^ Z.of_nat fuel →
    (n + length (radix_digits radix fuel z) <= max_digits)%nat →
    read_digits radix max_digits (radix_digits radix fuel z ++ r) acc n
    = read_digits radix max_digits r (acc * radix ^ Z.of_nat (length (radix_digits radix fuel z)) + z)
        (n + length (radix_digits radix fuel z)).
  Proof using Hradix.
    revert z acc n r. induction fuel as [|fuel IH]; intros z acc n r Hz Hlen.
    { simpl in Hz. cbn. rewrite Nat.add_0_r. f_equal. lia. }
    pose proof (Z.mod_pos_bound z radix ltac:(lia)) as Hm.
    pose proof (Z.div_mod z radix ltac:(lia)) as Hdm.
    rewrite radix_digits_step in Hlen; first lia. rewrite radix_digits_step; first lia.
    destruct (Z.ltb_spec z radix) as [Hlt|Hge]; rewrite ?length_app /= in Hlen |- *.
    - rewrite to_digit_char; try lia. destruct (Nat.ltb_spec max_digits (S n)); first lia.
      rewrite Z.mod_small; first lia. f_equal; lia.
    - rewrite -app_assoc IH; [by apply digits_step_bound|lia|].
      simpl. rewrite to_digit_char; try lia.
      set (l := length (radix_digits radix fuel (z / radix))) in *.
      destruct (Nat.ltb_spec max_digits (S (n + l))); first lia.
      f_equal; last lia. replace (Z.of_nat (l + 1)) with (Z.succ (Z.of_nat l)) by lia.
      rewrite Z.pow_succ_r; first lia. nia.
  Qed.

Lemma read_digits_stop max_digits r acc n : no_digit radix r → read_digits radix max_digits r acc n = Some (acc, n, r).
  Proof. destruct r as [|c r]; first done. simpl. by intros ->. Qed.

Lemma radix_digits_pos fuel z : (0 < fuel)%nat → (0 < length (radix_digits radix fuel z))%nat.
  Proof. destruct fuel; first lia. cbn [radix_digits]. intros _. destruct (z <? radix); rewrite ?length_app /=; lia. Qed.

  (** No leading zeros. *)
Lemma radix_digits_head fuel z c s : 0 <= z < radix ^ Z.of_nat fuel → radix_digits radix fuel z = c :: s →
    s = [] ∨ c ≠ 48%N.
  Proof using Hradix.
    revert z c s. induction fuel as [|fuel IH]; intros z c s Hz; first done.
    rewrite radix_digits_step; first lia.
    destruct (Z.ltb_spec z radix) as [Hlt|Hge]; first by intros [= _ <-]; left.
    pose proof (digits_step_bound fuel z Hz) as Hz'.
    assert (1 <= z / radix) as H1 by (apply Z.div_le_lower_bound; lia).
    destruct fuel as [|fuel]; first (simpl in Hz'; lia).
    destruct (radix_digits radix (S fuel) (z / radix)) as [|c' s'] eqn:E.
    { pose proof (radix_digits_pos (S fuel) (z / radix) ltac:(lia)) as Hp. rewrite E in Hp. simpl in Hp. lia. }
    intros [= -> _]. right. destruct (IH _ _ _ Hz' E) as [->|]; last done.
    rewrite radix_digits_step in E; first lia.
    destruct (Z.ltb_spec (z / radix) radix); last first.
    { pose proof (radix_digits_pos fuel (z / radix / radix)) as Hp.
      destruct fuel; first (simpl in Hz'; lia).
      destruct (radix_digits radix (S fuel) (z / radix / radix)) as [|x y]; first (simpl in Hp; lia).
      simplify_eq/=. by destruct y. }
    simpl in E. simplify_eq. unfold digit_char. rewrite Z.mod_small; first lia. destruct (Z.ltb_spec (z / radix) 10); lia.
  Qed.

Lemma read_number_digits fuel zeros max_value z r : (0 < fuel)%nat → 0 <= z < radix ^ Z.of_nat fuel → z <= max_value →
    no_digit radix r →
    read_number radix fuel zeros max_value (radix_digits radix fuel z ++ r) = Some (z, r).
  Proof using Hradix.
    intros Hf Hz Hmax Hr. unfold read_number.
    pose proof (radix_digits_length fuel z) as Hl. pose proof (radix_digits_pos fuel z Hf) as Hp.
    rewrite read_radix_digits; [done|lia|]. rewrite read_digits_stop // /= Z.mul_0_l Z.add_0_l.
    destruct (Nat.eqb_spec (length (radix_digits radix fuel z)) 0); first lia.
    replace (z <=? max_value) with true by (symmetry; apply Z.leb_le; lia).
    destruct zeros; first done.
    destruct (radix_digits radix fuel z) as [|c s] eqn:E; first done. simpl.
    destruct (radix_digits_head _ _ _ _ Hz E) as [->|Hc]; first by rewrite andb_false_r.
    by rewrite (proj2 (N.eqb_neq _ _) Hc).
  Qed.
End radix.

(** *** Four octets *)

Lemma read_octet_text z r : is_octet z → no_digit 10 r → read_octet (show_octet z ++ r) = Some (z, r).
Proof. unfold is_octet. intros Hz Hr. apply read_number_digits; try done; lia. Qed.

Lemma no_digit_char radix c r : to_digit radix c = None → no_digit radix (c :: r).
Proof. done. Qed.

Lemma read_ipv4_text a b c d r : is_octet a → is_octet b → is_octet c → is_octet d → no_digit 10 r →
  read_ipv4_addr (show_ipv4 a b c d ++ r) = Some ((a, b, c, d), r).
Proof.
  intros Ha Hb Hc Hd Hr. unfold read_ipv4_addr, show_ipv4, read_separator, read_given_char.
  rewrite -!app_assoc !app_comm_cons -!app_assoc.
  rewrite read_octet_text //=. rewrite read_octet_text //=. rewrite read_octet_text //=. by rewrite read_octet_text.
Qed.

(** Without a dot there is no such address. *)
Lemma read_digits_suffix radix m s acc n z k r : read_digits radix m s acc n = Some (z, k, r) → ∃ p, s = p ++ r.
Proof.
  revert acc n. induction s as [|c s IH]; intros acc n; simpl; first (intros [= _ _ <-]; by exists []).
  destruct (to_digit radix c) as [x|]; last by intros [= _ _ <-]; exists [].
  destruct (Nat.ltb m (S n)); first done. intros [p ->]%IH. by exists (c :: p).
Qed.
Lemma read_ipv4_dot s x : read_ipv4_addr s = Some x → ch_dot ∈ s.
Proof.
  unfold read_ipv4_addr, read_separator. destruct (read_octet s) as [[a r]|] eqn:E; last done. simpl.
  destruct r as [|c r]; first done. unfold read_given_char. destruct (N.eqb_spec c ch_dot) as [->|]; last done. intros _.
  unfold read_octet, read_number in E.
  destruct (read_digits 10 3 s 0 0) as [[[z k] r']|] eqn:E'; last done. apply read_digits_suffix in E' as [p ->].
  simpl in E. case_match; first done. case_match; first done. case_match; last done. simplify_eq. set_solver.
Qed.

(** *** Eight groups *)

Lemma radix_digits_hex fuel z : Forall (λ c, to_digit 16 c ≠ None) (radix_digits 16 fuel z).
Proof.
  revert z. induction fuel as [|fuel IH]; intros z; first constructor. cbn [radix_digits].
  assert (to_digit 16 (digit_char (z mod 16)) ≠ None) as Hd.
  { rewrite to_digit_char //; pose proof (Z.mod_pos_bound z 16); lia. }
  unfold digit_char in Hd. destruct (z <? 16); first by constructor.
  apply Forall_app. by split; [apply IH | constructor].
Qed.

Lemma read_group_text g r : is_group g → no_digit 16 r → read_number 16 4 true 65535 (show_group g ++ r) = Some (g, r).
Proof. unfold is_group. intros Hg Hr. apply read_number_digits; try done; lia. Qed.

(** The groups after the first [i]. *)
Definition groups_text (i : nat) (gs : list Z) : str :=
  match i with O => fmt_subslice gs | S _ => mjoin ((λ g, ch_colon :: show_group g) <$> gs) end.
Lemma groups_text_cons g gs : fmt_subslice (g :: gs) = show_group g ++ groups_text 1 gs.
Proof.
  unfold fmt_subslice, groups_text. revert g. induction gs as [|h gs IH]; intros g; first by rewrite /= app_nil_r.
  rewrite 2!fmap_cons join_cons; first done. by rewrite -fmap_cons IH.
Qed.
Lemma groups_text_no_dot i gs : ch_dot ∉ groups_text i gs.
Proof.
  assert (∀ g, ch_dot ∉ show_group g) as Hg.
  { intros g Hin. by eapply Forall_forall in Hin; [|apply radix_digits_hex]. }
  assert (∀ gs, ch_dot ∉ groups_text 1 gs) as H1.
  { clear gs. intros gs. induction gs as [|g gs IH]; first by apply not_elem_of_nil. cbn.
    rewrite not_elem_of_cons not_elem_of_app. repeat split; [done|apply Hg|apply IH]. }
  destruct i; last apply H1. destruct gs as [|g gs]; first by apply not_elem_of_nil.
  cbn [groups_text]. rewrite groups_text_cons not_elem_of_app. split; [apply Hg|apply H1].
Qed.

(** Where a run of groups ends. *)
Definition groups_end (r : str) : Prop := r = [] ∨ ∃ r', r = ch_colon :: ch_colon :: r'.
Lemma groups_end_digit r : groups_end r → no_digit 16 r.
Proof. by intros [->|[r' ->]]. Qed.

Lemma read_ipv4_none s : ch_dot ∉ s → read_ipv4_addr s = None.
Proof. intros Hd. destruct (read_ipv4_addr s) eqn:E; last done. by apply read_ipv4_dot in E. Qed.

Lemma read_groups_text gs n i r : (length gs <= n)%nat → Forall is_group gs → ch_dot ∉ r → groups_end r →
  read_groups n i (groups_text i gs ++ r) = (gs, false, r).
Proof.
  revert n i. induction gs as [|g gs IH]; intros n i Hn Hgs Hd Hr.
  - destruct n as [|n]; first by destruct i. replace (groups_text i [] ++ r) with r by (by destruct i).
    cbn [read_groups].
    assert (∀ A (inner : str → option (A * str)), (∀ s, groups_end s ∨ no_digit 16 s → ch_dot ∉ s → inner s = None) →
            read_separator ch_colon i inner r = None) as Hsep.
    { intros A inner Hin. destruct i; cbn; first by apply Hin; [left|].
      destruct Hr as [->|[r' ->]]; first done. cbn. apply Hin; [by right|]. set_solver. }
    rewrite (Hsep _ read_ipv4_addr); first by intros; apply read_ipv4_none.
    rewrite (Hsep _ (read_number 16 4 true 65535)); last by destruct (Nat.ltb 0 n).
    intros s Hs _. assert (no_digit 16 s) as Hnd by (destruct Hs; [by apply groups_end_digit|done]).
    unfold read_number. by rewrite read_digits_stop.
  - apply Forall_cons in Hgs as [Hg Hgs]. destruct n as [|n]; first (simpl in Hn; lia).
    assert (∃ s : str, (groups_text i (g :: gs) ++ r = s) ∧ (ch_dot ∉ s) ∧
      read_separator ch_colon i (read_number 16 4 true 65535) s = Some (g, groups_text 1 gs ++ r) ∧
      read_separator ch_colon i read_ipv4_addr s = None) as (s & -> & Hds & Hnum & Hv4).
    { eexists. split; first done.
      assert (ch_dot ∉ groups_text i (g :: gs) ++ r) as Hdot by (rewrite not_elem_of_app; split; [apply groups_text_no_dot|done]).
      split; first done.
      assert (no_digit 16 (groups_text 1 gs ++ r)) as Hnd by (destruct gs; [by apply groups_end_digit|done]).
      destruct i; cbn [groups_text] in *.
      - rewrite groups_text_cons -app_assoc in Hdot |- *. split; [by apply read_group_text | by apply read_ipv4_none].
      - cbn in Hdot |- *. rewrite -app_assoc in Hdot |- *. split; first by apply read_group_text.
        apply read_ipv4_none. set_solver. }
    cbn [read_groups]. rewrite Hnum Hv4. rewrite (IH n (S i)) //; first (simpl in Hn; lia). by destruct (Nat.ltb 0 n).
Qed.

(** A run of zeros among the first [i] groups. *)
Definition zero_run (segments : list Z) (i : nat) (span : nat * nat) : Prop :=
  (span.1 + span.2 <= i)%nat ∧ ∀ j, (span.1 <= j < span.1 + span.2)%nat → segments !! j = Some 0.

Lemma scan_zeros_runs pre segments spans :
  zero_run (pre ++ segments) (length pre) (longest spans) →
  zero_run (pre ++ segments) (length pre) (current_span spans) →
  (current_span spans).2 = 0%nat ∨ ((current_span spans).1 + (current_span spans).2 = length pre)%nat →
  zero_run (pre ++ segments) (length (pre ++ segments)) (longest (scan_zeros spans (length pre) segments)).
Proof.
  revert pre spans. induction segments as [|seg segments IH]; intros pre spans Hl Hc Hcur.
  { simpl. rewrite length_app /=. by replace (length pre + 0)%nat with (length pre) by lia. }
  cbn [scan_zeros].
  replace (S (length pre)) with (length (pre ++ [seg])) by (rewrite length_app /=; lia).
  replace (pre ++ seg :: segments) with ((pre ++ [seg]) ++ segments) in * by (by rewrite -app_assoc).
  assert (∀ span, zero_run ((pre ++ [seg]) ++ segments) (length pre) span →
                  zero_run ((pre ++ [seg]) ++ segments) (length (pre ++ [seg])) span) as Hmore.
  { intros span [? ?]. split; [rewrite length_app /=; lia | done]. }
  unfold scan_zero. destruct (Z.eqb_spec seg 0) as [->|Hne]; last first.
  { apply IH; cbn; [by apply Hmore | split; simpl; [lia|intros j ?; lia] | by left]. }
  destruct (current_span spans) as [start len] eqn:E. cbn in Hcur, Hc.
  set (cur := (if Nat.eqb len 0 then length pre else start, S len)).
  assert (zero_run ((pre ++ [0]) ++ segments) (length (pre ++ [0])) cur ∧ (cur.1 + cur.2)%nat = length (pre ++ [0])) as [Hrun Hend].
  { rewrite length_app /=. assert (((pre ++ [0]) ++ segments) !! length pre = Some 0) as Hat.
    { rewrite -app_assoc lookup_app_r // Nat.sub_diag //. }
    unfold cur. destruct (Nat.eqb_spec len 0) as [->|Hlen]; cbn.
    - split; last lia. split; first (cbn; lia). cbn. intros j Hj. by replace j with (length pre) by lia.
    - destruct Hcur as [|Hcur]; first done. split; last lia. split; first (cbn; lia). cbn. intros j Hj.
      destruct (decide (j = length pre)) as [->|]; first done. apply Hc. cbn. lia. }
  apply IH; cbn [longest current_span]; [|done|by right].
  destruct (Nat.ltb (longest spans).2 cur.2); [done|by apply Hmore].
Qed.
Lemma zero_span_run segments : zero_run segments (length segments) (zero_span segments).
Proof. apply (scan_zeros_runs [] segments); cbn; try (split; cbn; [lia|intros; lia]). by left. Qed.

Lemma zeros_between segments start len : zero_run segments (length segments) (start, len) →
  segments = take start segments ++ replicate len 0 ++ drop (start + len) segments.
Proof.
  intros [Hle Hz]. cbn in *. rewrite -{1}(take_drop start segments). f_equal.
  rewrite -{1}(take_drop len (drop start segments)) drop_drop. f_equal.
  apply list_eq. intros j. destruct (decide (j < len)%nat).
  - rewrite lookup_take_lt; first lia. rewrite lookup_drop lookup_replicate_2 // Hz //. lia.
  - rewrite lookup_take_ge; first lia. symmetry. apply lookup_ge_None. rewrite length_replicate. lia.
Qed.

Lemma read_ipv6_compressed head tail zeros : (2 <= zeros)%nat → (length head + zeros + length tail = 8)%nat →
  Forall is_group head → Forall is_group tail →
  read_ipv6_addr (fmt_subslice head ++ lit "::" ++ fmt_subslice tail) = Some (head ++ replicate zeros 0 ++ tail, []).
Proof.
  intros Hz Hlen Hhead Htail. unfold read_ipv6_addr.
  rewrite (read_groups_text head 8 0 (lit "::" ++ fmt_subslice tail)) //; [lia| |by right; eexists|].
  { rewrite not_elem_of_app. split; [by apply (bool_decide_unpack _) | apply (groups_text_no_dot 0)]. }
  destruct (Nat.eqb_spec (length head) 8); first lia. simpl.
  pose proof (read_groups_text tail (8 - (length head + 1)) 0 []) as Ht.
  rewrite app_nil_r /= in Ht. rewrite Ht; [lia|done|apply not_elem_of_nil|by left|].
  do 2 f_equal. f_equal. f_equal. f_equal. lia.
Qed.

Lemma read_ipv6_mapped ab cd : is_group ab → is_group cd →
  read_ipv6_addr (lit "::ffff:" ++ show_ipv4 (Z.shiftr ab 8) (Z.land ab 255) (Z.shiftr cd 8) (Z.land cd 255))
  = Some ([0; 0; 0; 0; 0; 0xffff; ab; cd], []).
Proof.
  assert (∀ g, is_group g → is_octet (Z.shiftr g 8) ∧ is_octet (Z.land g 255) ∧ Z.shiftr g 8 * 256 + Z.land g 255 = g) as Hsplit.
  { intros g Hg. unfold is_group, is_octet in *. change 255 with (Z.ones 8). rewrite Z.land_ones // Z.shiftr_div_pow2 //.
    change (2 ^ 8) with 256. pose proof (Z.div_mod g 256). pose proof (Z.mod_pos_bound g 256).
    pose proof (Z.div_pos g 256). pose proof (Z.div_lt_upper_bound g 256 256). lia. }
  intros (Ha & Hb & Hab)%Hsplit (Hc & Hd & Hcd)%Hsplit.
  pose proof (read_ipv4_text _ _ _ _ [] Ha Hb Hc Hd I) as Htext. rewrite app_nil_r in Htext.
  set (text := show_ipv4 _ _ _ _) in *.
  set (tail := lit "ffff" ++ ch_colon :: text).
  assert (read_groups 7 0 tail = ([65535; ab; cd], true, [])) as Htail.
  { cbn [read_groups]. change (read_separator ch_colon 0 read_ipv4_addr tail) with (None : option ((Z * Z * Z * Z) * str)).
    change (read_separator ch_colon 0 (read_number 16 4 true 65535) tail) with (Some (65535, ch_colon :: text)).
    cbn [Nat.ltb Nat.leb]. change (read_separator ch_colon 1 read_ipv4_addr (ch_colon :: text)) with (read_ipv4_addr text).
    by rewrite Htext Hab Hcd. }
  assert (read_groups 8 0 (lit "::ffff:" ++ text) = ([], false, ch_colon :: ch_colon :: tail)) as Hhead by reflexivity.
  unfold read_ipv6_addr. rewrite Hhead.
  trans (let '(gs, _, s) := read_groups 7 0 tail in Some (replicate (8 - length gs) 0 ++ gs, s)); first done.
  by rewrite Htail.
Qed.

(** An address is read back from its text. *)
Theorem parse_show_ip ip : well_formed ip → parse_ip (show_ip ip) = Some ip.
Proof.
  unfold parse_ip, read_ip_addr. destruct ip as [a b c d|segments]; cbn [well_formed show_ip].
  { intros (Ha & Hb & Hc & Hd). rewrite -(app_nil_r (show_ipv4 a b c d)). by rewrite read_ipv4_text. }
  intros [Hlen Hgs].
  assert (read_ipv4_addr (show_ipv6 segments) = None ∧ read_ipv6_addr (show_ipv6 segments) = Some (segments, [])) as [-> ->]; last done.
  unfold show_ipv6. destruct (to_ipv4_mapped segments) as [[[[a b] c] d]|] eqn:Emap.
  { unfold to_ipv4_mapped in Emap. repeat (case_match; try done). simplify_eq. split; first done.
    apply read_ipv6_mapped; by decompose_Forall_hyps. }
  pose proof (zero_span_run segments) as Hrun. destruct (zero_span segments) as [start len].
  assert (∀ gs, ch_dot ∉ fmt_subslice gs) as Hdot by apply (groups_text_no_dot 0).
  destruct (Nat.ltb_spec 1 len) as [Hl|Hl].
  - pose proof (zeros_between _ _ _ Hrun) as Hsegs. destruct Hrun as [Hle _]. cbn in Hle. split.
    + apply read_ipv4_none. rewrite !not_elem_of_app. repeat split; [apply Hdot|by apply (bool_decide_unpack _)|apply Hdot].
    + rewrite (read_ipv6_compressed _ _ len); [lia|..|by rewrite -Hsegs].
      * rewrite length_take length_drop. lia.
      * by apply Forall_take.
      * by apply Forall_drop.
  - split; first by apply read_ipv4_none. unfold read_ipv6_addr.
    pose proof (read_groups_text segments 8 0 []) as Hr. rewrite app_nil_r in Hr. cbn [groups_text] in Hr.
    rewrite Hr; [lia|done|apply not_elem_of_nil|by left|]. by rewrite Hlen.
Qed.

(** IPv6: the unique local, link local and multicast prefixes, as the range of
    the first group. *)
Definition non_public_prefixes : list (Z * Z) := [(0xfc00, 0xfdff); (0xfe80, 0xfebf); (0xff00, 0xffff)].

Lemma land_prefix16 x k : is_group x → 0 <= k <= 16 → Z.land x (Z.shiftl (Z.ones (16 - k)) k) = x / 2 ^ k * 2 ^ k.
Proof.
  intros Hx Hk. rewrite -Z.shiftr_div_pow2; first lia. rewrite -Z.shiftl_mul_pow2; first lia.
  apply Z.bits_inj'. intros n Hn. rewrite Z.land_spec (Z.shiftl_spec (Z.ones _) k) // (Z.shiftl_spec (Z.shiftr x k) k) //.
  destruct (decide (n < k)).
  - rewrite !(Z.testbit_neg_r _ (n - k)); [lia..|]. by rewrite andb_false_r.
  - rewrite Z.shiftr_spec; first lia. replace (n - k + k) with n by lia.
    destruct (decide (n < 16)).
    + rewrite Z.ones_spec_low; [lia|]. by rewrite andb_true_r.
    + rewrite -(Z.mod_small x (2 ^ 16)); first done. rewrite Z.mod_pow2_bits_high //; lia.
Qed.
Lemma prefix_range x k lo : is_group x → 0 <= k <= 16 → 0 <= lo → lo mod 2 ^ k = 0 →
  (Z.land x (Z.shiftl (Z.ones (16 - k)) k) =? lo) = (lo <=? x) && (x <=? lo + 2 ^ k - 1).
Proof.
  intros Hx Hk Hlo Hm. rewrite land_prefix16 //. assert (0 < 2 ^ k) as Hpos by (apply Z.pow_pos_nonneg; lia).
  apply eq_bool_prop_intro. rewrite !Is_true_true andb_true_iff Z.eqb_eq !Z.leb_le.
  revert Hpos Hm. generalize (2 ^ k) => n Hpos Hm.
  assert (∃ p, lo = p * n) as [p ->] by (exists (lo / n); pose proof (Z.div_mod lo n); lia).
  pose proof (Z.div_mod x n ltac:(lia)). pose proof (Z.mod_pos_bound x n Hpos).
  destruct (Z.lt_trichotomy (x / n) p) as [?|[?|?]]; nia.
Qed.

Lemma group_octets g : is_group g → is_octet (Z.shiftr g 8) ∧ is_octet (Z.land g 255) ∧ Z.shiftr g 8 * 256 + Z.land g 255 = g.
Proof.
  unfold is_group, is_octet. intros Hg. rewrite Z.shiftr_div_pow2 //. change 255 with (Z.ones 8). rewrite Z.land_ones //. change (2 ^ 8) with 256.
  pose proof (Z.div_mod g 256). pose proof (Z.mod_pos_bound g 256). lia.
Qed.

Lemma to_ipv4_Some segments a b c d : to_ipv4 segments = Some (a, b, c, d) →
  ∃ m ab cd, segments = [0; 0; 0; 0; 0; m; ab; cd] ∧ (m = 0 ∨ m = 0xffff) ∧
    a = Z.shiftr ab 8 ∧ b = Z.land ab 255 ∧ c = Z.shiftr cd 8 ∧ d = Z.land cd 255.
Proof.
  unfold to_ipv4. intros H. repeat case_match; simplify_eq. do 3 eexists. split; first done.
  split; last done. match goal with H : _ || _ = true |- _ => apply orb_true_iff in H; rewrite !Z.eqb_eq in H end. tauto.
Qed.

(** An address is not public exactly when: it is an IPv4 address, or an IPv6
    address that stands for one, whose number is in one of the ranges; or an
    IPv6 address with one of the prefixes. *)
Theorem non_public_addresses ip : well_formed ip →
  is_non_public_ip ip = true ↔
  match ip with
  | V4 a b c d => existsb (in_ipv4_range (ipv4_to_u32 a b c d)) non_public_ranges = true
  | V6 segments =>
      (∃ m ab cd, segments = [0; 0; 0; 0; 0; m; ab; cd] ∧ (m = 0 ∨ m = 0xffff) ∧
         existsb (in_ipv4_range (ab * 2 ^ 16 + cd)) non_public_ranges = true)
      ∨ ∃ g r lo hi, segments = g :: r ∧ (lo, hi) ∈ non_public_prefixes ∧ lo <= g <= hi
  end.
Proof.
  destruct ip as [a b c d|segments]; cbn [well_formed is_non_public_ip].
  - intros (Ha & Hb & Hc & Hd). by rewrite non_public_ipv4.
  - intros [Hlen Hg]. unfold is_non_public_ipv6. destruct (to_ipv4 segments) as [[[[a b] c] d]|] eqn:E.
    + apply to_ipv4_Some in E as (m & ab & cd & -> & Hm & -> & -> & -> & ->).
      apply Forall_rev in Hg. cbn in Hg. inversion_clear Hg as [|? ? Hcd Hg']. inversion_clear Hg' as [|? ? Hab _].
      destruct (group_octets ab Hab) as (? & ? & Eab), (group_octets cd Hcd) as (? & ? & Ecd).
      rewrite non_public_ipv4 //.
      assert (ipv4_to_u32 (Z.shiftr ab 8) (Z.land ab 255) (Z.shiftr cd 8) (Z.land cd 255) = ab * 2 ^ 16 + cd) as ->.
      { unfold ipv4_to_u32. nia. }
      split; last first.
      * intros [(? & ? & ? & [= <- <- <-] & _ & Hr)|(? & ? & lo & hi & [= <- _] & Hin & Hr)]; first by rewrite Hr.
        unfold non_public_prefixes in Hin. set_unfold in Hin. naive_solver lia.
      * intros Hn. left. exists m, ab, cd. split_and!; [done..|]. apply orb_true_iff in Hn as [Hn|Hn]; first done.
        unfold v6_is_loopback in Hn. apply bool_decide_eq_true in Hn. simplify_eq. done.
    + destruct segments as [|g r]; first done. inversion_clear Hg as [|? ? Hg1 _].
      unfold v6_is_multicast, v6_is_unique_local, v6_is_unicast_link_local. change (segment (g :: r) 0) with g.
      change 0xff00 with (Z.shiftl (Z.ones (16 - 8)) 8). change 0xfe00 with (Z.shiftl (Z.ones (16 - 9)) 9).
      change 0xffc0 with (Z.shiftl (Z.ones (16 - 6)) 6). rewrite !prefix_range //.
      assert (v6_is_loopback (g :: r) = false ∧ v6_is_unspecified (g :: r) = false) as [-> ->].
      { split; apply bool_decide_eq_false; intros Hs; by rewrite Hs in E. }
      change (Z.shiftl (Z.ones (16 - 8)) 8) with 0xff00. unfold is_group in Hg1.
      change (2 ^ 8) with 256. change (2 ^ 9) with 512. change (2 ^ 6) with 64.
      rewrite !orb_true_iff !andb_true_iff !Z.leb_le. unfold non_public_prefixes. split.
      * intros [[[[?|?]|?]|?]|?]; try done; right;
          [exists g, r, 0xff00, 0xffff|exists g, r, 0xfc00, 0xfdff|exists g, r, 0xfe80, 0xfebf];
          (split_and!; [done|set_solver|lia|lia]).
      * intros [(m & ab & cd & Hs & Hm & _)|(? & ? & lo & hi & [= <- _] & Hin & Hr)].
        -- rewrite Hs in E. destruct Hm as [-> | ->]; done.
        -- set_unfold in Hin. naive_solver lia.
Qed.
Lemma non_public_addresses_witness : is_non_public_ip (V6 [0; 0; 0; 0; 0; 0xffff; 0x0a00; 1]) = true.
Proof.
  apply (non_public_addresses (V6 [0; 0; 0; 0; 0; 0xffff; 0x0a00; 1])).
  - split; [reflexivity|repeat constructor; lia].
  - left. exists 0xffff, 0x0a00, 1. split_and!; [reflexivity|by right|reflexivity].
Defined.

(** Addresses for documentation, translated addresses and 6to4 stand for no IPv4
    address here. *)
Lemma documentation_addresses_are_public g : is_non_public_ip (V6 [0x2001; 0xdb8; g; 0; 0; 0; 0; 1]) = false.
Proof. reflexivity. Qed.
Lemma translated_addresses_are_public a b : is_non_public_ip (V6 [0x64; 0xff9b; 0; 0; 0; 0; a; b]) = false.
Proof. reflexivity. Qed.
