(* ===== verification/HostPatterns.v ===== *)
(** What the domain patterns of the network proxy mean: the hosts each matches,
    how patterns include one another, what a compiled set of globs matches, and
    the spellings of a host that are the same. *)
From S2P Require Import Prelude NetAddr IpAddresses.
From Stdlib Require Import ZArith Lia.
#[local] Open Scope nat_scope.

(** The hosts of a pattern: the apex, and what has a part before it. *)
Definition subdomain_of (h d : str) : Prop := ∃ p, p ≠ [] ∧ h = p ++ ch_dot :: d.
Definition matches_host (pat : DomainPattern) (h : str) : Prop :=
  match pat with
  | Exact d => h = d
  | SubdomainsOnly d => subdomain_of h d
  | ApexAndSubdomains d => h = d ∨ subdomain_of h d
  end.
Definition pattern_domain (pat : DomainPattern) : str :=
  match pat with Exact d | SubdomainsOnly d | ApexAndSubdomains d => d end.

(** ** Inclusion of patterns *)

(** In lower case, no dots at the end, a first part before the first dot. *)
Definition normal_domain (d : str) : Prop := normalize_domain d = d ∧ head d ≠ Some ch_dot.

Lemma ends_with_suffix p s : ends_with p s = true ↔ ∃ r, s = r ++ p.
Proof.
  unfold ends_with. destruct (strip_suffix p s) as [r|] eqn:E.
  - apply strip_suffix_Some in E. split; [by exists r|done].
  - split; first done. intros [r ->]. assert (strip_suffix p (r ++ p) = Some r) as E' by by apply strip_suffix_Some.
    by rewrite E' in E.
Qed.

Lemma strict_subdomain_normal c d : normal_domain c → normal_domain d →
  is_strict_subdomain c d = true ↔ subdomain_of c d.
Proof.
  intros [Hc Hhc] [Hd _]. unfold is_strict_subdomain. rewrite Hc Hd andb_true_iff negb_true_iff str_eqb_neq ends_with_suffix.
  split.
  - intros [_ [p ->]]. exists p. split; last done. by intros ->.
  - intros (p & Hp & ->). split; last by exists p.
    intros Heq. apply (f_equal length) in Heq. rewrite length_app /= in Heq. lia.
Qed.
Lemma subdomain_or_equal_normal c d : normal_domain c → normal_domain d →
  is_subdomain_or_equal c d = true ↔ c = d ∨ subdomain_of c d.
Proof.
  intros Hc Hd. rewrite -strict_subdomain_normal //. unfold is_subdomain_or_equal, is_strict_subdomain.
  destruct Hc as [-> _], Hd as [-> _]. destruct (c =s? d) eqn:E.
  - apply str_eqb_eq in E. split; [by left|done].
  - apply str_eqb_neq in E. simpl. split; [by right|by intros [|]].
Qed.
Lemma domain_eq_normal c d : normal_domain c → normal_domain d → domain_eq c d = true ↔ c = d.
Proof. intros [Hc _] [Hd _]. by rewrite /domain_eq Hc Hd str_eqb_eq. Qed.

Lemma subdomain_trans a b c : subdomain_of a b → subdomain_of b c → subdomain_of a c.
Proof.
  intros (p & Hp & ->) (q & Hq & ->). exists (p ++ ch_dot :: q). split; [by destruct p|by rewrite -app_assoc].
Qed.

Lemma prefixed_subdomain x c : subdomain_of (x :: ch_dot :: c) c.
Proof. by exists [x]. Qed.

(** A subdomain of a subdomain: [x.c] lies under [d] only if [c] does. *)
Lemma under_both x c d : head c ≠ Some ch_dot → subdomain_of (x :: ch_dot :: c) d → c = d ∨ subdomain_of c d.
Proof.
  intros Hc (p & Hp & Heq). destruct p as [|x' p]; first done. simpl in Heq. injection Heq as Hx Heq.
  destruct p as [|y p]; simplify_eq/=; first by left. right. exists p. split; last done. by intros ->.
Qed.
(** One of two subdomains is not [d]. *)
Lemma some_subdomain c d : ∃ x, x :: ch_dot :: c ≠ d.
Proof.
  destruct (decide (ch_star :: ch_dot :: c = d)) as [<-|]; last by eexists. exists ch_plus. by intros [=].
Qed.

(** The test of managed patterns is inclusion of what they match. *)
Theorem allows_is_inclusion managed candidate :
  normal_domain (pattern_domain managed) → normal_domain (pattern_domain candidate) →
  allows managed candidate = true ↔ ∀ h, matches_host candidate h → matches_host managed h.
Proof.
  intros Hd Hc. pose proof (proj2 Hc) as Hhead.
  assert (∀ a b d : str, subdomain_of a b → b = d ∨ subdomain_of b d → subdomain_of a d) as Htrans.
  { intros a b d' Hab [<-|]; [done|by eapply subdomain_trans]. }
  destruct managed as [d|d|d], candidate as [c|c|c]; cbn [allows matches_host pattern_domain] in *;
    rewrite ?subdomain_or_equal_normal ?strict_subdomain_normal ?domain_eq_normal //;
    destruct (some_subdomain c d) as [x Hx]; pose proof (prefixed_subdomain x c) as Hxc.
  - split; [intros Hs h [->|Hh]; [done|right; by eauto] | intros H; apply H; by left].
  - split; [intros Hs h Hh; right; by eauto | intros H]. destruct (H _ Hxc) as [|Hs]; first done. by eapply under_both.
  - split; [by intros ? ? -> | intros H; by apply H].
  - split; [intros Hs h [->|Hh]; [done|by eauto using subdomain_trans] | intros H; apply H; by left].
  - split; [intros Hs h Hh; by eauto | intros H]. by eapply under_both, H.
  - split; [by intros ? ? -> | intros H; by apply H].
  - split; [done | intros H]. destruct Hx. apply H. by right.
  - split; [done | intros H]. destruct Hx. by apply H.
  - split; [by intros -> | intros H; by apply H].
Qed.

(** ** Plain domains *)

Abbreviation is_dot := (λ c : char, (c =? ch_dot)%N).

(** Names as they are registered: letters in lower case, digits, hyphens, low
    lines and dots, the dots inside. *)
Definition is_name_char (c : char) : bool :=
  is_ascii_lower c || is_ascii_digit c || (c =? ch_minus)%N || (c =? ch_underscore)%N || (c =? ch_dot)%N.
Record plain_domain (d : str) : Prop := {
  plain_nonempty : d ≠ [];
  plain_chars : Forall (λ c, is_name_char c = true) d;
  plain_head : head d ≠ Some ch_dot;
  plain_last : last d ≠ Some ch_dot
}.

Lemma name_char c : is_name_char c = true →
  lower_char c = c ∧ is_whitespace c = false ∧ is_glob_special c = false ∧ (c <= 127)%N ∧ c ≠ ch_colon ∧ c ≠ ch_star ∧ c ≠ ch_lbracket.
Proof.
  intros Hc.
  assert (c ∈ (N.of_nat <$> seq 45 2) ++ (N.of_nat <$> seq 48 10) ++ [95%N] ++ (N.of_nat <$> seq 97 26)) as Hin.
  { unfold is_name_char, is_ascii_lower, is_ascii_digit, in_range, ch_minus, ch_underscore, ch_dot in Hc.
    rewrite !orb_true_iff !andb_true_iff !N.leb_le !N.eqb_eq in Hc.
    rewrite !elem_of_app list_elem_of_singleton !list_elem_of_fmap. setoid_rewrite elem_of_seq.
    destruct Hc as [[[[Hc|Hc]|Hc]|Hc]|Hc];
      [right; right; right|right; left|left|right; right; left; done|left]; exists (N.to_nat c); lia. }
  clear Hc. revert c Hin. apply Forall_forall. apply (bool_decide_unpack _). vm_compute. exact I.
Qed.
Ltac name_chars H := let x := fresh in intros x ? ?; pose proof (name_char x) as ?; eapply Forall_forall in H; naive_solver.

Section plain.
  Context (d : str) (Hd : plain_domain d).

Lemma plain_char c : c ∈ d →
    lower_char c = c ∧ is_whitespace c = false ∧ is_glob_special c = false ∧ (c <= 127)%N ∧ c ≠ ch_colon ∧ c ≠ ch_star ∧ c ≠ ch_lbracket.
  Proof using Hd. intros Hc. apply name_char. by eapply Forall_forall in Hc; [|apply Hd]. Qed.
Lemma plain_lower : to_ascii_lowercase d = d.
  Proof using Hd.
    rewrite /to_ascii_lowercase -{2}(map_id d). apply map_ext_in. intros c Hc. by apply plain_char, list_elem_of_In.
  Qed.
Lemma plain_literal : is_literal d = true.
  Proof using Hd.
    apply forallb_forall. intros c Hc. apply list_elem_of_In, plain_char in Hc as (_ & _ & -> & Hle & _).
    by rewrite (proj2 (N.leb_le _ _) Hle).
  Qed.
Lemma plain_trim : trim d = d.
  Proof using Hd.
    apply trim_id; [intros c r Hr | intros r c Hr]; apply plain_char; rewrite Hr; set_solver.
  Qed.
Lemma plain_normal : normal_domain d.
  Proof using Hd.
    split; last apply Hd. unfold normalize_domain. rewrite trim_end_matches_id; last apply plain_lower.
    intros r c Hr. apply N.eqb_neq. intros ->. destruct Hd as [_ _ _ Hl]. apply Hl. by rewrite Hr last_snoc.
  Qed.
End plain.

(** ** Spellings of a host *)

Lemma lower_name_char c : is_name_char (lower_char c) = true →
  is_whitespace c = false ∧ c ≠ ch_colon ∧ c ≠ ch_lbracket.
Proof.
  unfold lower_char. destruct (is_ascii_upper c) eqn:Hu; last by intros (_ & Hw & _ & _ & Hc & _ & Hb)%name_char.
  intros _. assert (c ∈ N.of_nat <$> seq 65 26) as Hin.
  { unfold is_ascii_upper, in_range in Hu. rewrite andb_true_iff !N.leb_le in Hu.
    rewrite list_elem_of_fmap. exists (N.to_nat c). rewrite elem_of_seq. lia. }
  clear Hu. revert c Hin. apply Forall_forall. apply (bool_decide_unpack _). vm_compute. exact I.
Qed.

Lemma trim_around wsl s wsr : Forall (λ c, is_whitespace c = true) wsl → Forall (λ c, is_whitespace c = true) wsr →
  s ≠ [] → (∀ c, head s = Some c → is_whitespace c = false) → (∀ c, last s = Some c → is_whitespace c = false) →
  trim (wsl ++ s ++ wsr) = s.
Proof.
  intros Hl Hr Hs Hh Hla. trans (trim (s ++ wsr)).
  - unfold trim, trim_matches. f_equal. unfold trim_start_matches. by induction Hl as [|c wsl Hc _ IH]; rewrite /= ?Hc.
  - apply trim_padded; try done; [intros c r ->; by apply Hh | intros r c ->; apply Hla; by rewrite last_snoc].
Qed.

Section spellings.
  Context (d h : str) (Hd : plain_domain d) (Hlow : to_ascii_lowercase h = d).

Lemma spelled_char c : c ∈ h → is_whitespace c = false ∧ c ≠ ch_colon ∧ c ≠ ch_lbracket.
  Proof using Hd Hlow.
    intros Hc. apply lower_name_char. destruct Hd as [_ Hall _ _]. rewrite -Hlow in Hall.
    rewrite Forall_forall in Hall. apply Hall. apply list_elem_of_fmap. by exists c.
  Qed.
Lemma spelled_nonempty : h ≠ [].
  Proof using Hd Hlow. intros ->. by destruct Hd, Hlow. Qed.

Lemma normalize_dns_spelled n : normalize_dns_host (h ++ replicate n ch_dot) = d.
  Proof using Hd Hlow.
    unfold normalize_dns_host. assert (to_ascii_lowercase (h ++ replicate n ch_dot) = d ++ replicate n ch_dot) as ->.
    { rewrite -Hlow /to_ascii_lowercase map_app. f_equal. by induction n; f_equal/=. }
    assert (trim_end_matches is_dot d = d) as Hid.
    { apply trim_end_matches_id. intros r c Hr. apply N.eqb_neq. intros ->. apply (plain_last d Hd). by rewrite Hr last_snoc. }
    rewrite -{2}Hid. unfold trim_end_matches. f_equal. rewrite reverse_app reverse_replicate. by induction n.
  Qed.

  (** White space around, capitals, dots at the end and a port make no
      difference. *)
Definition port_text (port : option str) : str := match port with Some p => ch_colon :: p | None => [] end.
Theorem host_spellings wsl wsr n port :
    Forall (λ c, is_whitespace c = true) wsl → Forall (λ c, is_whitespace c = true) wsr →
    (∀ p, port = Some p → (ch_colon ∉ p) ∧ ∀ c, last p = Some c → is_whitespace c = false) →
    normalize_host (wsl ++ (h ++ replicate n ch_dot ++ port_text port) ++ wsr) = d.
  Proof using Hd Hlow.
    intros Hwl Hwr Hport. unfold normalize_host. pose proof spelled_nonempty as Hne. pose proof spelled_char as Hsp.
    rewrite trim_around //; [by destruct h| |..].
    { destruct h as [|c r]; first done. intros ? [= <-]. apply Hsp. set_solver. }
    { intros c Hc. destruct port as [p|]; cbn [port_text] in Hc.
      - rewrite app_assoc last_app last_cons in Hc. destruct (Hport p eq_refl) as [_ Hlast].
        destruct (last p); simplify_eq; [by apply Hlast|done].
      - rewrite app_nil_r in Hc. apply last_Some_elem_of, elem_of_app in Hc as [Hc|Hc]; first by apply Hsp.
        by apply elem_of_replicate_inv in Hc as ->. }
    set (s := h ++ replicate n ch_dot ++ port_text port).
    assert (starts_with [ch_lbracket] s = false) as ->.
    { unfold s. destruct h as [|c r]; first done. unfold starts_with. simpl.
      assert ((ch_lbracket =? c)%N = false) as ->; last done. apply N.eqb_neq. intros <-.
      destruct (Hsp ch_lbracket) as (_ & _ & ?); [set_solver|done]. }
    assert (ch_colon ∉ h ++ replicate n ch_dot) as Hnc.
    { rewrite not_elem_of_app. split; [intros Hin; by apply spelled_char in Hin as (_ & ? & _) | by intros ?%elem_of_replicate_inv]. }
    assert (∀ l, ch_colon ∉ l → count_char ch_colon l = 0) as Hcount.
    { clear. unfold count_char. intros l. induction l as [|x l IH]; first done. intros Hin. cbn.
      rewrite (proj2 (N.eqb_neq x ch_colon)); first by (intros ->; set_solver). apply IH. set_solver. }
    destruct port as [p|]; unfold s; cbn [port_text].
    - rewrite app_assoc. unfold count_char. rewrite List.filter_app length_app.
      fold (count_char ch_colon (h ++ replicate n ch_dot)). rewrite Hcount //=.
      fold (count_char ch_colon p). rewrite Hcount; first by apply Hport.
      cbn. rewrite split_on_app //. apply normalize_dns_spelled.
    - rewrite app_nil_r Hcount //. apply normalize_dns_spelled.
  Qed.
End spellings.

Lemma plain_normalize_host d : plain_domain d → normalize_host d = d.
Proof.
  intros Hd. pose proof (host_spellings d d Hd (plain_lower d Hd) [] [] 0 None) as H.
  cbn in H. rewrite !app_nil_r in H. by apply H; try apply Forall_nil_2.
Qed.

(** ** What patterns match *)

(** The text of a pattern. *)
Definition pattern_text (pat : DomainPattern) : str :=
  match pat with
  | Exact d => d
  | SubdomainsOnly d => lit "*." ++ d
  | ApexAndSubdomains d => lit "**." ++ d
  end.

Lemma plain_not_starred d : plain_domain d → ∀ p, strip_prefix (ch_star :: p) d = None.
Proof.
  intros Hd p. destruct d as [|c d]; first done. cbn.
  assert ((ch_star =? c)%N = false) as ->; last done. apply N.eqb_neq. intros <-.
  by destruct (plain_char _ Hd ch_star) as (_ & _ & _ & _ & _ & ? & _); first set_solver.
Qed.

Section pattern.
  Context (pat : DomainPattern) (Hd : plain_domain (pattern_domain pat)).

Lemma trim_pattern_text : trim (pattern_text pat) = pattern_text pat.
  Proof using Hd.
    assert (∀ p d, plain_domain d → Forall (λ c, is_whitespace c = false) p → trim (p ++ d) = p ++ d) as Htrim.
    { intros p d Hpd Hp. apply trim_id.
      - intros c r Hr. destruct p as [|x p]; simplify_eq/=; last by apply Forall_cons in Hp as [? _].
        apply (plain_char _ Hpd). set_solver.
      - intros r c Hr. apply (plain_char _ Hpd). apply (f_equal last) in Hr. rewrite last_app last_snoc in Hr.
        destruct (last d) eqn:E; simplify_eq; [by apply last_Some_elem_of|by apply last_None, plain_nonempty in E]. }
    destruct pat as [d|d|d]; cbn in *; [apply (Htrim (lit "**."))|apply (Htrim (lit "*."))|by apply plain_trim]; try done;
      apply (bool_decide_unpack _); vm_compute; exact I.
  Qed.

Lemma strip_stars :
    strip_prefix (lit "**.") (pattern_text pat) = match pat with ApexAndSubdomains d => Some d | _ => None end ∧
    strip_prefix (lit "*.") (pattern_text pat) = match pat with SubdomainsOnly d => Some d | _ => None end.
  Proof using Hd.
    destruct pat as [d|d|d]; cbn [pattern_text pattern_domain] in *;
      split; first [apply strip_prefix_app | done | apply (plain_not_starred _ Hd)].
  Qed.

Lemma normalize_pattern_text : normalize_pattern (pattern_text pat) = pattern_text pat.
  Proof using Hd.
    unfold normalize_pattern. rewrite trim_pattern_text.
    assert ((pattern_text pat =s? lit "*") = false) as ->.
    { apply str_eqb_neq. destruct pat as [d|d|d]; [done..|]. cbn in *. intros ->.
      by pose proof (plain_not_starred _ Hd []). }
    destruct strip_stars as [-> ->]. destruct pat as [d|d|d]; cbn [pattern_text pattern_domain] in *;
      by rewrite plain_normalize_host.
  Qed.

Lemma parse_pattern_text : DomainPattern_parse (pattern_text pat) = pat.
  Proof using Hd.
    unfold DomainPattern_parse. rewrite trim_pattern_text.
    assert (is_empty (pattern_text pat) = false) as ->.
    { apply is_empty_false. pose proof (plain_nonempty _ Hd). by destruct pat. }
    destruct strip_stars as [-> ->]. destruct pat as [d|d|d]; cbn [pattern_text pattern_domain] in *; try done;
      by rewrite /parse_domain plain_trim // (proj2 (is_empty_false _) (plain_nonempty _ Hd)).
  Qed.

Lemma plain_pattern_not_global : is_global_wildcard_domain_pattern (pattern_text pat) = false.
  Proof using Hd.
    unfold is_global_wildcard_domain_pattern, expand_domain_pattern. rewrite normalize_pattern_text parse_pattern_text.
    assert ((pattern_domain pat =s? lit "*") = false) as Hne.
    { apply str_eqb_neq. intros Heq. pose proof Hd as Hd'. rewrite Heq in Hd'. by pose proof (plain_not_starred _ Hd' []). }
    by destruct pat; cbn in *; rewrite ?Hne.
  Qed.

  (** The globs of a pattern match its hosts. *)
Theorem pattern_globs_match `{!NetLib} {_ : GlobLaws _} (h : str) : to_ascii_lowercase h = h →
    is_match (expand_domain_pattern (normalize_pattern (pattern_text pat))) h = true ↔ matches_host pat h.
  Proof using Hd.
    intros Hh. unfold expand_domain_pattern. rewrite normalize_pattern_text parse_pattern_text.
    assert (glob_matches (pattern_domain pat) h = true ↔ h = pattern_domain pat) as Hlit.
    { rewrite glob_literal ?plain_literal // plain_lower // Hh str_eqb_eq. split; congruence. }
    assert (glob_matches (lit "?*." ++ pattern_domain pat) h = true ↔ subdomain_of h (pattern_domain pat)) as Hsub.
    { rewrite glob_subdomains; first by apply plain_literal. rewrite plain_lower //. split.
      - intros (p & e & Hp & Heq & He). exists p. split; first done. rewrite Heq. do 2 f_equal.
        rewrite -He. rewrite Heq /to_ascii_lowercase map_app /= in Hh. apply app_inj_2 in Hh as [_ Hh]; last by rewrite /= length_map.
        by injection Hh.
      - intros (p & Hp & Heq). exists p, (pattern_domain pat). split_and!; try done. by apply plain_lower. }
    unfold is_match. destruct pat as [d|d|d]; cbn [existsb matches_host pattern_domain] in *; rewrite ?orb_true_iff ?Hlit ?Hsub; naive_solver.
  Qed.
End pattern.

(** ** Compiled sets *)

Section compiled.
Context `{NetLib}.

Lemma add_candidates_spec cs seen builder seen' builder' :
  foldl add_candidate (Ok (seen, builder)) cs = Ok (seen', builder') → (∀ c, c ∈ seen ↔ c ∈ builder) →
  (∀ c, c ∈ seen' ↔ c ∈ builder') ∧ ∀ c, c ∈ builder' ↔ c ∈ builder ∨ c ∈ cs.
Proof.
  revert seen builder. induction cs as [|c cs IH]; intros seen builder; cbn; first (intros [= <- <-] ?; set_solver).
  assert (∀ e, foldl add_candidate (Err e) cs = Err e) as Herr by (clear; intros e; by induction cs).
  case_bool_decide as Hin.
  - intros Hf Hs. destruct (IH _ _ Hf Hs) as [? Hb]. split; first done. intros x. rewrite Hb. set_solver.
  - destruct (glob_builds c); last by rewrite Herr. intros Hf Hs.
    destruct (IH _ _ Hf) as [? Hb]; first set_solver. split; first done. intros x. rewrite Hb. set_solver.
Qed.

Lemma add_patterns_spec w ps seen builder seen' builder' :
  foldl (add_pattern w) (Ok (seen, builder)) ps = Ok (seen', builder') → (∀ c, c ∈ seen ↔ c ∈ builder) →
  (∀ c, c ∈ builder' ↔ c ∈ builder ∨ ∃ p, p ∈ ps ∧ c ∈ expand_domain_pattern (normalize_pattern p)) ∧
  (w = RejectWildcard → Forall (λ p, is_global_wildcard_domain_pattern p = false) ps).
Proof.
  revert seen builder. induction ps as [|p ps IH]; intros seen builder; cbn.
  { intros [= <- <-] _. split; [set_solver|constructor]. }
  assert (∀ e, foldl (add_pattern w) (Err e) ps = Err e) as Herr by (clear; intros e; by induction ps).
  destruct (match w with RejectWildcard => is_global_wildcard_domain_pattern p | AllowWildcard => false end) eqn:Ew.
  { by rewrite Herr. }
  destruct (foldl add_candidate (Ok (seen, builder)) (expand_domain_pattern (normalize_pattern p))) as [[s b]|e] eqn:E;
    last by rewrite Herr.
  intros Hf Hs. destruct (add_candidates_spec _ _ _ _ _ E Hs) as [Hs' Hb]. destruct (IH _ _ Hf Hs') as [Hb' Hw].
  split; last by intros ->; constructor; [|apply Hw].
  intros c. rewrite Hb' Hb. setoid_rewrite elem_of_cons. naive_solver.
Qed.

(** A compiled set matches what a pattern's globs match; sets of denied domains
    have no global wildcard. *)
Theorem compiled_globset ps w globs : compile_globset_with_policy ps w = Ok globs →
  (∀ h, is_match globs h = true ↔ ∃ p, p ∈ ps ∧ is_match (expand_domain_pattern (normalize_pattern p)) h = true) ∧
  (w = RejectWildcard → Forall (λ p, is_global_wildcard_domain_pattern p = false) ps).
Proof.
  unfold compile_globset_with_policy.
  destruct (foldl (add_pattern w) (Ok (∅, [])) ps) as [[seen builder]|e] eqn:E; last done. cbn.
  destruct (globset_builds builder); last done. intros [= <-].
  apply add_patterns_spec in E as [Hb Hw]; last set_solver. split; last done.
  intros h. unfold is_match. rewrite -Is_true_true existb_True Exists_exists. setoid_rewrite <-Is_true_true.
  setoid_rewrite existb_True. setoid_rewrite Exists_exists. setoid_rewrite Hb. set_solver.
Qed.
End compiled.

(** ** Addresses as hosts *)

Lemma normalize_host_lower s : to_ascii_lowercase (normalize_host s) = normalize_host s.
Proof.
  assert (∀ l, to_ascii_lowercase (normalize_dns_host l) = normalize_dns_host l) as Hl.
  { intros l. unfold normalize_dns_host. destruct (trim_end_matches_prefix is_dot (to_ascii_lowercase l)) as (q & Hq & _).
    assert (∀ c, lower_char (lower_char c) = lower_char c) as Hidem.
    { intros c. unfold lower_char. destruct (is_ascii_upper c) eqn:E; last by rewrite E.
      unfold is_ascii_upper, in_range in *. rewrite andb_true_iff !N.leb_le in E.
      replace (c + 32 <=? 90)%N with false by (symmetry; apply N.leb_gt; lia). by rewrite andb_false_r. }
    assert (Forall (λ c, lower_char c = c) (to_ascii_lowercase l)) as Hall.
    { apply Forall_forall. intros c (c' & -> & _)%list_elem_of_fmap. apply Hidem. }
    rewrite Hq in Hall. apply Forall_app in Hall as [Hall _].
    revert Hall. generalize (trim_end_matches is_dot (to_ascii_lowercase l)) => m Hall.
    unfold to_ascii_lowercase. induction Hall as [|c r Hc _ IH]; cbn; [done|by rewrite Hc IH]. }
  unfold normalize_host. destruct (if starts_with _ _ then _ else _); [|destruct (_ =? 1)]; apply Hl.
Qed.

Lemma groups_text_1_cons g gs : groups_text 1 (g :: gs) = ch_colon :: show_group g ++ groups_text 1 gs.
Proof. done. Qed.

(** The characters of an address, and what follows for its text as a host. *)
Definition is_ip_char (c : char) : bool := is_ascii_digit c || in_range 97 102 c || (c =? ch_colon)%N || (c =? ch_dot)%N.
Lemma radix_digits_chars radix fuel z : (2 <= radix <= 16)%Z →
  Forall (λ c, is_ascii_digit c || in_range 97 102 c = true) (radix_digits radix fuel z).
Proof.
  intros Hr. revert z. induction fuel as [|fuel IH]; intros z; first constructor. cbn [radix_digits].
  assert (∀ d, (0 <= d < 16)%Z →
    is_ascii_digit (digit_char d) || in_range 97 102 (digit_char d) = true) as Hd.
  { intros d Hd. assert (d ∈ Z.of_nat <$> seq 0 16) as Hin.
    { rewrite list_elem_of_fmap. exists (Z.to_nat d). rewrite elem_of_seq. lia. }
    clear Hd. revert d Hin. apply Forall_forall. by apply (bool_decide_unpack _). }
  specialize (Hd (z mod radix)%Z ltac:(pose proof (Z.mod_pos_bound z radix); lia)). unfold digit_char in Hd.
  destruct (z <? radix)%Z; first by constructor. apply Forall_app. by split; [|constructor].
Qed.
Lemma show_ip_chars ip : Forall (λ c, is_ip_char c = true) (show_ip ip).
Proof.
  assert (∀ radix fuel z, (2 <= radix <= 16)%Z → Forall (λ c, is_ip_char c = true) (radix_digits radix fuel z)) as Hradix.
  { intros radix fuel z Hr. eapply Forall_impl; first by apply radix_digits_chars. intros c Hc. by rewrite /is_ip_char Hc. }
  assert (∀ a b c d, Forall (λ c, is_ip_char c = true) (show_ipv4 a b c d)) as Hv4.
  { intros. unfold show_ipv4, show_octet. rewrite !Forall_app !Forall_cons !Forall_app !Forall_cons !Forall_app !Forall_cons.
    split_and!; try done; by apply Hradix. }
  assert (∀ gs, Forall (λ c, is_ip_char c = true) (fmt_subslice gs)) as Hv6.
  { assert (∀ gs, Forall (λ c, is_ip_char c = true) (groups_text 1 gs)) as H1.
    { intros gs. induction gs as [|g gs IH]; first constructor. rewrite groups_text_1_cons. constructor; first done. apply Forall_app. split; [by apply Hradix|done]. }
    intros [|g gs]; first constructor. rewrite groups_text_cons. apply Forall_app. split; [by apply Hradix|apply H1]. }
  destruct ip as [a b c d|segments]; cbn; first apply Hv4. unfold show_ipv6.
  destruct (to_ipv4_mapped segments) as [[[[a b] c] d]|]; first (apply Forall_app; split; [by apply (bool_decide_unpack _)|apply Hv4]).
  destruct (zero_span segments) as [start len]. destruct (Nat.ltb 1 len); last apply Hv6.
  repeat (apply Forall_app; split); try apply Hv6. by apply (bool_decide_unpack _).
Qed.

Lemma count_char_app c s t : count_char c (s ++ t) = count_char c s + count_char c t.
Proof. unfold count_char. by rewrite List.filter_app length_app. Qed.
Lemma count_char_cons c d s : count_char c (d :: s) = (if (d =? c)%N then 1 else 0) + count_char c s.
Proof. unfold count_char. cbn. by destruct (d =? c)%N. Qed.
Lemma count_char_none c s : c ∉ s → count_char c s = 0.
Proof.
  induction s as [|d s IH]; first done. rewrite not_elem_of_cons count_char_cons. intros [Hd Hs].
  rewrite IH // (proj2 (N.eqb_neq d c)) //.
Qed.

Lemma digits_no_char c radix fuel z : (2 <= radix <= 16)%Z → is_ascii_digit c || in_range 97 102 c = false →
  c ∉ radix_digits radix fuel z.
Proof.
  intros Hr Hc Hin. pose proof (radix_digits_chars radix fuel z Hr) as Hall. rewrite Forall_forall in Hall.
  apply Hall in Hin. congruence.
Qed.

Lemma show_ipv4_colons a b c d : count_char ch_colon (show_ipv4 a b c d) = 0.
Proof.
  apply count_char_none. unfold show_ipv4, show_octet.
  rewrite !(not_elem_of_app, not_elem_of_cons). split_and!; try done; by apply digits_no_char.
Qed.
Lemma groups_text_colons gs : count_char ch_colon (groups_text 1 gs) = length gs.
Proof.
  induction gs as [|g gs IH]; first done. rewrite groups_text_1_cons count_char_cons count_char_app. rewrite (count_char_none _ (show_group g)); first by apply digits_no_char.
  by rewrite IH.
Qed.

(** The text of an address is a host in normal form. *)
Lemma show_ip_colons ip : well_formed ip → count_char ch_colon (show_ip ip) ≠ 1.
Proof.
  destruct ip as [a b c d|segments]; cbn [show_ip well_formed]; first by rewrite show_ipv4_colons.
  intros [Hlen _]. unfold show_ipv6. destruct (to_ipv4_mapped segments) as [[[[a b] c] d]|].
  { rewrite count_char_app show_ipv4_colons. by change (count_char ch_colon (lit "::ffff:")) with 3. }
  destruct (zero_span segments) as [start len]. destruct (Nat.ltb 1 len).
  - rewrite !count_char_app. change (count_char ch_colon (lit "::")) with 2. lia.
  - destruct segments as [|g gs]; first done. rewrite groups_text_cons count_char_app groups_text_colons.
    simpl in Hlen. lia.
Qed.

Lemma last_digits radix fuel z : (2 <= radix <= 16)%Z → 0 < fuel → last (radix_digits radix fuel z) ≠ Some ch_dot ∧ last (radix_digits radix fuel z) ≠ None.
Proof.
  intros Hr Hf. split.
  - intros Hl%last_Some_elem_of. by apply digits_no_char in Hl.
  - intros Hl%last_None. pose proof (radix_digits_pos radix fuel z Hf) as Hp. rewrite Hl /= in Hp. lia.
Qed.
Lemma show_ip_last ip : well_formed ip → last (show_ip ip) ≠ Some ch_dot.
Proof.
  assert (∀ p a b c d, last (p ++ show_ipv4 a b c d) ≠ Some ch_dot) as Hv4.
  { intros p a b c d.
    assert (p ++ show_ipv4 a b c d
      = (p ++ show_octet a ++ ch_dot :: show_octet b ++ ch_dot :: show_octet c ++ [ch_dot]) ++ show_octet d) as ->.
    { unfold show_ipv4. by repeat rewrite -?app_assoc /=. }
    destruct (last_digits 10 3 d) as [H1 H2]; [lia|lia|]. fold (show_octet d) in H1, H2.
    rewrite last_app. by destruct (last (show_octet d)). }
  destruct ip as [a b c d|segments]; cbn [show_ip well_formed]; first (intros _; apply (Hv4 [])).
  intros _. unfold show_ipv6. destruct (to_ipv4_mapped segments) as [[[[a b] c] d]|]; first apply (Hv4 (lit "::ffff:")).
  assert (∀ gs, ch_dot ∉ fmt_subslice gs) as Hdot by apply (groups_text_no_dot 0).
  intros Hl%last_Some_elem_of. destruct (zero_span segments) as [start len].
  destruct (Nat.ltb 1 len); last by apply Hdot in Hl.
  rewrite !elem_of_app in Hl. destruct Hl as [Hl|[Hl|Hl]]; [by apply Hdot in Hl| |by apply Hdot in Hl].
  by vm_compute in Hl; set_solver.
Qed.

Lemma ip_char c : is_ip_char c = true → lower_char c = c ∧ is_whitespace c = false ∧ c ≠ ch_lbracket.
Proof.
  intros Hc. assert (c ∈ (N.of_nat <$> seq 46 13) ++ (N.of_nat <$> seq 97 6)) as Hin.
  { unfold is_ip_char, is_ascii_digit, in_range, ch_colon, ch_dot in Hc.
    rewrite !orb_true_iff !andb_true_iff !N.leb_le !N.eqb_eq in Hc. rewrite elem_of_app !list_elem_of_fmap.
    setoid_rewrite elem_of_seq. destruct Hc as [[[Hc|Hc]|Hc]|Hc]; [left|right|left|left]; exists (N.to_nat c); lia. }
  clear Hc. revert c Hin. apply Forall_forall. apply (bool_decide_unpack _). vm_compute. exact I.
Qed.

Lemma normalize_show_ip ip : well_formed ip → normalize_host (show_ip ip) = show_ip ip.
Proof.
  intros Hip. pose proof (show_ip_chars ip) as Hall. rewrite Forall_forall in Hall.
  assert (trim (show_ip ip) = show_ip ip) as Htrim.
  { apply trim_id; [intros c r Hr | intros r c Hr]; apply ip_char, Hall; rewrite Hr; set_solver. }
  unfold normalize_host. rewrite Htrim.
  assert (starts_with [ch_lbracket] (show_ip ip) = false) as ->.
  { apply not_true_iff_false. intros [r Hr]%starts_with_spec.
    destruct (ip_char ch_lbracket) as (_ & _ & ?); last done. apply Hall. rewrite Hr. set_solver. }
  rewrite (proj2 (Nat.eqb_neq _ _) (show_ip_colons ip Hip)). unfold normalize_dns_host.
  assert (to_ascii_lowercase (show_ip ip) = show_ip ip) as ->.
  { rewrite /to_ascii_lowercase -{2}(map_id (show_ip ip)). apply map_ext_in. intros c Hc%list_elem_of_In.
    by apply ip_char, Hall. }
  apply trim_end_matches_id. intros r c Hr. apply N.eqb_neq. intros ->. apply (show_ip_last ip Hip). by rewrite Hr last_snoc.
Qed.

(** ** Globs that follow the laws *)

Definition demo_subdomain (d h : str) : bool :=
  (S (length d) <? length h) && (match h !! (length h - S (length d)) with Some c => (c =? ch_dot)%N | None => false end)
  && (to_ascii_lowercase (drop (length h - length d) h) =s? to_ascii_lowercase d).
Definition demo_glob_matches (g h : str) : bool :=
  if g =s? lit "*" then true
  else match strip_prefix (lit "?*.") g with
       | Some d => demo_subdomain d h
       | None => to_ascii_lowercase g =s? to_ascii_lowercase h
       end.
(** Names and addresses are what the host parser takes. *)
Definition demo_lib : NetLib := {|
  glob_builds _ := true;
  globset_builds _ := true;
  glob_matches := demo_glob_matches;
  url_host_parse h := Some h;
  url_parse _ := None;
  rama_host_eq a b := eq_ignore_ascii_case a b
|}.

Lemma demo_subdomain_spec d h : demo_subdomain d h = true ↔
  ∃ p e, p ≠ [] ∧ h = p ++ ch_dot :: e ∧ to_ascii_lowercase e = to_ascii_lowercase d.
Proof.
  unfold demo_subdomain. rewrite !andb_true_iff Nat.ltb_lt str_eqb_eq. split.
  - intros [[Hlen Hdot] Hlow]. set (k := length h - S (length d)) in *.
    destruct (h !! k) as [c|] eqn:E; last done. apply N.eqb_eq in Hdot as ->.
    exists (take k h), (drop (S k) h). split_and!.
    + intros Hnil%(f_equal length). rewrite length_take /= in Hnil. lia.
    + symmetry. by apply take_drop_middle.
    + by replace (S k) with (length h - length d) by lia.
  - intros (p & e & Hp & -> & He).
    assert (length e = length d) as Hed by by apply (f_equal length) in He; rewrite !length_map in He.
    rewrite length_app /= -Hed. assert (0 < length p) by (destruct p; [done|simpl; lia]). split; first split.
    + lia.
    + replace (length p + S (length e) - S (length e)) with (length p) by lia. by rewrite list_lookup_middle.
    + replace (length p + S (length e) - length e) with (length (p ++ [ch_dot])) by (rewrite length_app /=; lia).
      replace (p ++ ch_dot :: e) with ((p ++ [ch_dot]) ++ e) by by rewrite -app_assoc. by rewrite drop_app_length.
Qed.

#[global] Instance demo_laws : GlobLaws demo_lib.
Proof.
  split; cbn.
  - intros g h Hg. unfold demo_glob_matches.
    assert (∀ c r, is_glob_special c = true → g ≠ c :: r) as Hno.
    { intros c r Hc ->. cbn in Hg. by rewrite Hc andb_false_r in Hg. }
    rewrite (proj2 (str_eqb_neq _ _)); first by intros ->; eapply (Hno ch_star).
    destruct (strip_prefix (lit "?*.") g) eqn:E; last done. apply strip_prefix_Some in E. by eapply (Hno ch_question) in E.
  - intros d h _. unfold demo_glob_matches. rewrite (proj2 (str_eqb_neq _ _)) // strip_prefix_app. apply demo_subdomain_spec.
  - done.
Qed.
