(* ===== verification/NetConfig.v ===== *)
(** The settings of the network proxy and what managed settings allow of them:
    [codex-rs/network-proxy/src/{config,state}.rs]. *)
From S2P Require Import Prelude Json Paths Types Host AbsolutePath Permissions NetAddr IpAddresses HostPatterns.
From Stdlib Require Import ZArith Lia.
#[local] Open Scope nat_scope.

(** ** Data *)

(** The derived order: [None < Allow < Deny]. *)
Inductive NetworkDomainPermission : Type := DomainNone | DomainAllow | DomainDeny.
#[global] Instance domain_permission_eq_dec : EqDecision NetworkDomainPermission.
Proof. solve_decision. Defined.
Definition permission_rank (p : NetworkDomainPermission) : nat :=
  match p with DomainNone => 0 | DomainAllow => 1 | DomainDeny => 2 end.

Record NetworkDomainPermissionEntry := MkDomainEntry { pattern : str; permission : NetworkDomainPermission }.
#[global] Instance domain_entry_eq_dec : EqDecision NetworkDomainPermissionEntry.
Proof. solve_decision. Defined.
(** [NetworkDomainPermissions] is the list of its entries. *)
Abbreviation NetworkDomainPermissions := (list NetworkDomainPermissionEntry).

Inductive NetworkUnixSocketPermission : Type := SocketAllow | SocketNone.
#[global] Instance socket_permission_eq_dec : EqDecision NetworkUnixSocketPermission.
Proof. solve_decision. Defined.

Inductive NetworkMode : Type := Limited | Full.
#[global] Instance mode_eq_dec : EqDecision NetworkMode.
Proof. solve_decision. Defined.

Record NetworkProxySettings := MkSettings {
  enabled : bool;
  proxy_url : str;
  enable_socks5 : bool;
  socks_url : str;
  enable_socks5_udp : bool;
  allow_upstream_proxy : bool;
  dangerously_allow_non_loopback_proxy : bool;
  dangerously_allow_all_unix_sockets : bool;
  mode : NetworkMode;
  domains : option NetworkDomainPermissions;
  unix_sockets : option (gmap str NetworkUnixSocketPermission);
  allow_local_binding : bool;
  mitm : bool
}.
#[global] Instance settings_eq_dec : EqDecision NetworkProxySettings.
Proof. solve_decision. Defined.
(** [NetworkProxyConfig] is its only field, [network]. *)
Abbreviation NetworkProxyConfig := NetworkProxySettings.

Definition default_proxy_url : str := lit "http://127.0.0.1:3128".
Definition default_socks_url : str := lit "http://127.0.0.1:8081".
Definition NetworkProxySettings_default : NetworkProxySettings :=
  MkSettings false default_proxy_url true default_socks_url true true false false Full None None false false.

Definition set_mode (s : NetworkProxySettings) (m : NetworkMode) : NetworkProxySettings :=
  MkSettings (enabled s) (proxy_url s) (enable_socks5 s) (socks_url s) (enable_socks5_udp s) (allow_upstream_proxy s)
    (dangerously_allow_non_loopback_proxy s) (dangerously_allow_all_unix_sockets s) m (domains s) (unix_sockets s)
    (allow_local_binding s) (mitm s).
Definition set_domains (s : NetworkProxySettings) (d : option NetworkDomainPermissions) : NetworkProxySettings :=
  MkSettings (enabled s) (proxy_url s) (enable_socks5 s) (socks_url s) (enable_socks5_udp s) (allow_upstream_proxy s)
    (dangerously_allow_non_loopback_proxy s) (dangerously_allow_all_unix_sockets s) (mode s) d (unix_sockets s)
    (allow_local_binding s) (mitm s).
Definition set_unix_sockets (s : NetworkProxySettings) (u : option (gmap str NetworkUnixSocketPermission)) : NetworkProxySettings :=
  MkSettings (enabled s) (proxy_url s) (enable_socks5 s) (socks_url s) (enable_socks5_udp s) (allow_upstream_proxy s)
    (dangerously_allow_non_loopback_proxy s) (dangerously_allow_all_unix_sockets s) (mode s) (domains s) u
    (allow_local_binding s) (mitm s).

(** ** Domains and sockets *)

(** A [BTreeMap] iterates in the order of its keys. *)
Definition btree_iter {V} (m : gmap str V) : list (str * V) :=
  sort_by (λ a b, match str_compare a.1 b.1 with Gt => false | _ => true end) (map_to_list m).

Definition effective_step (acc : list str * gmap str NetworkDomainPermission) (entry : NetworkDomainPermissionEntry) :
    list str * gmap str NetworkDomainPermission :=
  let '(order, effective) := acc in
  match effective !! pattern entry with
  | None => (order ++ [pattern entry], <[pattern entry := permission entry]> effective)
  | Some p =>
      (order, if permission_rank p <? permission_rank (permission entry)
              then <[pattern entry := permission entry]> effective else effective)
  end.
Fixpoint take_effective (order : list str) (effective : gmap str NetworkDomainPermission) : NetworkDomainPermissions :=
  match order with
  | [] => []
  | p :: rest =>
      match effective !! p with
      | Some perm => MkDomainEntry p perm :: take_effective rest (delete p effective)
      | None => take_effective rest effective
      end
  end.
Definition effective_entries (self : NetworkDomainPermissions) : NetworkDomainPermissions :=
  let '(order, effective) := foldl effective_step ([], ∅) self in take_effective order effective.

(** What is written to and read from a settings file is a map. *)
Definition domains_to_map (self : NetworkDomainPermissions) : gmap str NetworkDomainPermission :=
  foldl (λ m entry, <[pattern entry := permission entry]> m) ∅ (effective_entries self).
Definition domains_of_map (m : gmap str NetworkDomainPermission) : NetworkDomainPermissions :=
  (λ '(p, perm), MkDomainEntry p perm) <$> btree_iter m.

Definition domain_entries (self : NetworkProxySettings) (perm : NetworkDomainPermission) : option (list str) :=
  opt_filter (λ es, negb (is_empty es))
    ((λ ds, pattern <$> List.filter (λ entry, bool_decide (permission entry = perm)) (effective_entries ds)) <$> domains self).
Definition allowed_domains (self : NetworkProxySettings) : option (list str) := domain_entries self DomainAllow.
Definition denied_domains (self : NetworkProxySettings) : option (list str) := domain_entries self DomainDeny.

Definition allow_unix_sockets (self : NetworkProxySettings) : list str :=
  match unix_sockets self with
  | Some m => (List.filter (λ '(_, perm), bool_decide (perm = SocketAllow)) (btree_iter m)).*1
  | None => []
  end.

Definition non_empty_domains (ds : NetworkDomainPermissions) : option NetworkDomainPermissions :=
  if is_empty ds then None else Some ds.

Definition upsert_domain_permission (self : NetworkProxySettings) (host : str) (perm : NetworkDomainPermission)
    (normalize : str → str) : NetworkProxySettings :=
  let ds := default [] (domains self) in
  let normalized_host := normalize host in
  let ds := List.filter (λ entry, negb (normalize (pattern entry) =s? normalized_host)) ds in
  set_domains self (non_empty_domains (ds ++ [MkDomainEntry host perm])).

Definition add_domain_entry (perm : NetworkDomainPermission) (ds : NetworkDomainPermissions) (entry : str) : NetworkDomainPermissions :=
  if existsb (λ existing, (pattern existing =s? entry) && bool_decide (permission existing = perm)) ds then ds
  else ds ++ [MkDomainEntry entry perm].
Definition set_domain_entries (self : NetworkProxySettings) (es : list str) (perm : NetworkDomainPermission) : NetworkProxySettings :=
  let ds := List.filter (λ entry, negb (bool_decide (permission entry = perm))) (default [] (domains self)) in
  set_domains self (non_empty_domains (foldl (add_domain_entry perm) ds es)).
Definition set_allowed_domains (self : NetworkProxySettings) (ds : list str) : NetworkProxySettings :=
  set_domain_entries self ds DomainAllow.
Definition set_denied_domains (self : NetworkProxySettings) (ds : list str) : NetworkProxySettings :=
  set_domain_entries self ds DomainDeny.

Definition set_unix_socket_entries (self : NetworkProxySettings) (es : list str) (perm : NetworkUnixSocketPermission) :
    NetworkProxySettings :=
  let m := filter (λ '(_, existing), existing ≠ perm) (default ∅ (unix_sockets self)) in
  let m := foldl (λ m entry, <[entry := perm]> m) m es in
  set_unix_sockets self (if decide (m = ∅) then None else Some m).
Definition set_allow_unix_sockets (self : NetworkProxySettings) (es : list str) : NetworkProxySettings :=
  set_unix_socket_entries self es SocketAllow.

Definition allows_method (self : NetworkMode) (method : str) : bool :=
  match self with
  | Full => true
  | Limited => (method =s? lit "GET") || (method =s? lit "HEAD") || (method =s? lit "OPTIONS")
  end.

(** ** Where the proxy listens *)

(** A [SocketAddr] is an address and a port. *)
Definition localhost (port : Z) : IpAddr * Z := (V4 127 0 0 1, port).
Definition clamp_non_loopback (addr : IpAddr * Z) (allow_non_loopback : bool) : IpAddr * Z :=
  if is_loopback addr.1 then addr
  else if allow_non_loopback then addr
  else localhost addr.2.
Definition clamp_bind_addrs (http_addr socks_addr : IpAddr * Z) (cfg : NetworkProxySettings) : (IpAddr * Z) * (IpAddr * Z) :=
  let http_addr := clamp_non_loopback http_addr (dangerously_allow_non_loopback_proxy cfg) in
  let socks_addr := clamp_non_loopback socks_addr (dangerously_allow_non_loopback_proxy cfg) in
  if is_empty (allow_unix_sockets cfg) && negb (dangerously_allow_all_unix_sockets cfg) then (http_addr, socks_addr)
  else (localhost http_addr.2, localhost socks_addr.2).

Inductive ValidatedUnixSocketPath : Type := Native (path : str) | UnixStyleAbsolute (path : str).

(** [str::parse::<u16>()] *)
Fixpoint parse_digits (s : str) (acc : Z) : option Z :=
  match s with
  | [] => Some acc
  | c :: r => d ← to_digit 10 c; let acc := (acc * 10 + d)%Z in if (acc <=? 65535)%Z then parse_digits r acc else None
  end.
Definition parse_u16 (s : str) : option Z :=
  let digits := match strip_prefix [ch_plus] s with Some r => r | None => s end in
  if is_empty digits then None else parse_digits digits 0%Z.

(** The errors of [anyhow], as far as they say what was wrong. *)
Inductive AddrError : Type := MissingHost (address : str).
Inductive Shown : Type := Text (s : str) | DebugList (l : list str).
Inductive NetworkProxyConstraintError : Type := InvalidValue (field_name : str) (candidate allowed : Shown).
Inductive NetError : Type :=
  | InvalidUnixSocket (index : nat) (path : str)
  | ConstraintError (context : option str) (e : NetworkProxyConstraintError)
  | GlobsError (context : option str) (e : GlobSetError)
  | MitmError (context : option str)
  | InvalidUrl (field : str) (e : AddrError)
  | InvalidHost
  | ReloadFailed (e : str).

Definition set_context (context : str) (e : NetError) : NetError :=
  match e with
  | ConstraintError _ e => ConstraintError (Some context) e
  | GlobsError _ e => GlobsError (Some context) e
  | MitmError _ => MitmError (Some context)
  | e => e
  end.

Definition ch_at : char := 64%N.

Record SocketAddressParts := MkParts { parts_host : str; parts_port : Z }.

Definition parse_host_port_fallback (input : str) (default_port : Z) : result AddrError SocketAddressParts :=
  let without_scheme := match find_str (lit "://") input with Some i => drop (i + 3) input | None => input end in
  let host_port := unwrap_or without_scheme (head (split_on ch_slash without_scheme)) in
  let host_port := match rsplit_once ch_at host_port with Some (_, rest) => rest | None => host_port end in
  match (if starts_with [ch_lbracket] host_port then find_str [ch_rbracket] host_port else None) with
  | Some end_ =>
      let host := take (end_ - 1) (drop 1 host_port) in
      let port := unwrap_or default_port (strip_prefix [ch_colon] (drop (end_ + 1) host_port) ≫= parse_u16) in
      if is_empty host then Err (MissingHost input) else Ok (MkParts host port)
  | None =>
      match (if Nat.eqb (count_char ch_colon host_port) 1 then rsplit_once ch_colon host_port else None) with
      | Some (host, port) =>
          if is_empty host then Err (MissingHost input) else Ok (MkParts host (unwrap_or default_port (parse_u16 port)))
      | None => if is_empty host_port then Err (MissingHost input) else Ok (MkParts host_port default_port)
      end
  end.

Definition format_host_and_port (host : str) (port : Z) : str :=
  if contains_char ch_colon host then [ch_lbracket] ++ host ++ [ch_rbracket; ch_colon] ++ show_N (Z.to_N port)
  else host ++ [ch_colon] ++ show_N (Z.to_N port).

(** ** Managed settings *)

Record NetworkProxyConstraints := MkConstraints {
  c_enabled : option bool;
  c_mode : option NetworkMode;
  c_allow_upstream_proxy : option bool;
  c_dangerously_allow_non_loopback_proxy : option bool;
  c_dangerously_allow_all_unix_sockets : option bool;
  c_allowed_domains : option (list str);
  c_allowlist_expansion_enabled : option bool;
  c_denied_domains : option (list str);
  c_denylist_expansion_enabled : option bool;
  c_allow_unix_sockets : option (list str);
  c_allow_local_binding : option bool
}.
#[global] Instance constraints_eq_dec : EqDecision NetworkProxyConstraints.
Proof. solve_decision. Defined.
Definition NetworkProxyConstraints_default : NetworkProxyConstraints :=
  MkConstraints None None None None None None None None None None None.

Definition network_mode_rank (m : NetworkMode) : nat := match m with Limited => 0 | Full => 1 end.
Definition debug_mode (m : NetworkMode) : str := match m with Limited => lit "Limited" | Full => lit "Full" end.

Definition invalid_value (field_name : str) (candidate allowed : Shown) : result NetworkProxyConstraintError unit :=
  Err (InvalidValue field_name candidate allowed).
Definition guard_value (ok : bool) (field_name : str) (candidate allowed : Shown) : result NetworkProxyConstraintError unit :=
  if ok then Ok tt else invalid_value field_name candidate allowed.

(** The entries of a set of lower-case names, in the order of a hash set. *)
Definition lower_set (l : list str) : gset str := list_to_set (to_ascii_lowercase <$> l).
Definition missing_from {HO : HashOrder} (required candidate : gset str) (override : gset str) : list str :=
  List.filter (λ entry, negb (bool_decide (entry ∈ candidate)) && negb (bool_decide (entry ∈ override)))
    (hash_iter (gset_to_gmap () required)).*1.

Section config.
Context {D : Disk} {L : NetLib} {HO : HashOrder}.

Definition parse_unix_socket_path (socket_path : str) : option ValidatedUnixSocketPath :=
  if is_absolute socket_path then Native <$> absolute socket_path
  else if starts_with [ch_slash] socket_path then Some (UnixStyleAbsolute socket_path)
  else None.

Fixpoint validate_socket_paths (index : nat) (paths : list str) : result NetError unit :=
  match paths with
  | [] => Ok tt
  | socket_path :: rest =>
      match parse_unix_socket_path socket_path with
      | Some _ => validate_socket_paths (S index) rest
      | None => Err (InvalidUnixSocket index socket_path)
      end
  end.
Definition validate_unix_socket_allowlist_paths (cfg : NetworkProxyConfig) : result NetError unit :=
  validate_socket_paths 0 (allow_unix_sockets cfg).

Definition parse_host_port (url : str) (default_port : Z) : result AddrError SocketAddressParts :=
  let trimmed := trim url in
  if is_empty trimmed then Err (MissingHost url)
  else if match parse_ip trimmed with Some (V6 _) => true | _ => false end && negb (starts_with [ch_lbracket] trimmed)
  then Ok (MkParts trimmed default_port)
  else
    let candidate := match find_str (lit "://") trimmed with Some _ => trimmed | None => lit "http://" ++ trimmed end in
    match url_parse candidate with
    | Some (Some host, port) =>
        let host := trim_matches (λ c, (c =? ch_lbracket)%N || (c =? ch_rbracket)%N) host in
        if is_empty host then Err (MissingHost url) else Ok (MkParts host (unwrap_or default_port port))
    | _ => parse_host_port_fallback trimmed default_port
    end.

Definition host_and_port_from_network_addr (value : str) (default_port : Z) : str :=
  let trimmed := trim value in
  if is_empty trimmed then lit "<missing>"
  else match parse_host_port trimmed default_port with
       | Ok parts => format_host_and_port (parts_host parts) (parts_port parts)
       | Err _ => format_host_and_port trimmed default_port
       end.

Definition resolve_addr (url : str) (default_port : Z) : result AddrError (IpAddr * Z) :=
  addr_parts ← parse_host_port url default_port;
  let host := if eq_ignore_ascii_case (parts_host addr_parts) (lit "localhost") then lit "127.0.0.1" else parts_host addr_parts in
  match parse_ip host with
  | Some ip => Ok (ip, parts_port addr_parts)
  | None => Ok (localhost (parts_port addr_parts))
  end.

(** The addresses of the two listeners. *)
Definition resolve_runtime (cfg : NetworkProxyConfig) : result NetError ((IpAddr * Z) * (IpAddr * Z)) :=
  _ ← validate_unix_socket_allowlist_paths cfg;
  http_addr ← map_err (InvalidUrl (lit "network.proxy_url")) (resolve_addr (proxy_url cfg) 3128);
  socks_addr ← map_err (InvalidUrl (lit "network.socks_url")) (resolve_addr (socks_url cfg) 8081);
  Ok (clamp_bind_addrs http_addr socks_addr cfg).

(** *** Checks against managed settings *)

Definition validate_non_global_wildcard_domain_patterns (field_name : str) (patterns : list str) :
    result NetworkProxyConstraintError unit :=
  match find is_global_wildcard_domain_pattern patterns with
  | Some p => invalid_value field_name (Text (trim p))
                (Text (lit "exact hosts or scoped wildcards like *.example.com or **.example.com"))
  | None => Ok tt
  end.

Definition disabled_by_managed : Shown := Text (lit "false (disabled by managed config)").
(** A switch that managed settings may turn off. *)
Definition validate_switch (limit : option bool) (candidate : bool) (field_name : str) : result NetworkProxyConstraintError unit :=
  guard_value (negb (candidate && match limit with Some false => true | _ => false end)) field_name (Text (lit "true")) disabled_by_managed.

Definition validate_mode (max_mode : option NetworkMode) (candidate : NetworkMode) : result NetworkProxyConstraintError unit :=
  match max_mode with
  | Some max_mode =>
      guard_value (negb (network_mode_rank max_mode <? network_mode_rank candidate)) (lit "network.mode")
        (Text (debug_mode candidate)) (Text (debug_mode max_mode ++ lit " or more restrictive"))
  | None => Ok tt
  end.

Definition validate_all_unix_sockets (constraints : NetworkProxyConstraints) (candidate : bool) :
    result NetworkProxyConstraintError unit :=
  let allow_all_unix_sockets :=
    unwrap_or (negb (is_some_b (c_allow_unix_sockets constraints))) (c_dangerously_allow_all_unix_sockets constraints) in
  guard_value (negb (candidate && negb allow_all_unix_sockets)) (lit "network.dangerously_allow_all_unix_sockets")
    (Text (lit "true")) disabled_by_managed.

Definition outside_managed (managed_patterns : list DomainPattern) (candidate : list str) : list str :=
  List.filter (λ entry, negb (existsb (λ managed, allows managed (parse_for_constraints entry)) managed_patterns)) candidate.

Definition validate_allowed_domains (managed : list str) (expansion : option bool) (candidate : list str)
    (denied_domain_overrides : gset str) : result NetworkProxyConstraintError unit :=
  let field := lit "network.allowed_domains" in
  _ ← validate_non_global_wildcard_domain_patterns field managed;
  match expansion with
  | Some true =>
      let missing := missing_from (lower_set managed) (lower_set candidate) denied_domain_overrides in
      guard_value (is_empty missing) field (Text (lit "missing managed allowed_domains entries")) (DebugList missing)
  | Some false =>
      guard_value (bool_decide (lower_set candidate = lower_set managed ∖ denied_domain_overrides)) field
        (DebugList candidate) (Text (lit "must match managed allowed_domains"))
  | None =>
      let invalid := outside_managed (parse_for_constraints <$> managed) candidate in
      guard_value (is_empty invalid) field (DebugList invalid) (Text (lit "subset of managed allowed_domains"))
  end.

Definition validate_denied_domains (managed : list str) (expansion : option bool) (candidate : list str) :
    result NetworkProxyConstraintError unit :=
  let field := lit "network.denied_domains" in
  _ ← validate_non_global_wildcard_domain_patterns field managed;
  match expansion with
  | Some false =>
      guard_value (bool_decide (lower_set candidate = lower_set managed)) field
        (DebugList candidate) (Text (lit "must match managed denied_domains"))
  | Some true | None =>
      let missing := missing_from (lower_set managed) (lower_set candidate) ∅ in
      guard_value (is_empty missing) field (Text (lit "missing managed denied_domains entries")) (DebugList missing)
  end.

Definition validate_allow_unix_sockets (managed candidate : list str) : result NetworkProxyConstraintError unit :=
  let invalid := List.filter (λ entry, negb (bool_decide (to_ascii_lowercase entry ∈ lower_set managed))) candidate in
  guard_value (is_empty invalid) (lit "network.allow_unix_sockets") (DebugList invalid)
    (Text (lit "subset of managed allow_unix_sockets")).

Definition when_some {A} (o : option A) (f : A → result NetworkProxyConstraintError unit) : result NetworkProxyConstraintError unit :=
  match o with Some a => f a | None => Ok tt end.

Definition validate_policy_against_constraints (config : NetworkProxyConfig) (constraints : NetworkProxyConstraints) :
    result NetworkProxyConstraintError unit :=
  let config_allowed_domains := default [] (allowed_domains config) in
  let config_denied_domains := default [] (denied_domains config) in
  let denied_domain_overrides := lower_set config_denied_domains in
  _ ← validate_non_global_wildcard_domain_patterns (lit "network.denied_domains") config_denied_domains;
  _ ← validate_switch (c_enabled constraints) (enabled config) (lit "network.enabled");
  _ ← validate_mode (c_mode constraints) (mode config);
  _ ← validate_switch (c_allow_upstream_proxy constraints) (allow_upstream_proxy config) (lit "network.allow_upstream_proxy");
  _ ← validate_switch (c_dangerously_allow_non_loopback_proxy constraints) (dangerously_allow_non_loopback_proxy config)
        (lit "network.dangerously_allow_non_loopback_proxy");
  _ ← validate_all_unix_sockets constraints (dangerously_allow_all_unix_sockets config);
  _ ← validate_switch (c_allow_local_binding constraints) (allow_local_binding config) (lit "network.allow_local_binding");
  _ ← when_some (c_allowed_domains constraints) (λ managed,
        validate_allowed_domains managed (c_allowlist_expansion_enabled constraints) config_allowed_domains denied_domain_overrides);
  _ ← when_some (c_denied_domains constraints) (λ managed,
        validate_denied_domains managed (c_denylist_expansion_enabled constraints) config_denied_domains);
  when_some (c_allow_unix_sockets constraints) (λ managed, validate_allow_unix_sockets managed (allow_unix_sockets config)).
End config.

(** ** Effective entries *)

Lemma take_effective_elem order effective p perm : NoDup order →
  MkDomainEntry p perm ∈ take_effective order effective ↔ p ∈ order ∧ effective !! p = Some perm.
Proof.
  revert effective. induction order as [|q order IH]; intros effective Hnd; cbn; first set_solver.
  apply NoDup_cons in Hnd as [Hq Hnd]. destruct (effective !! q) as [perm'|] eqn:E.
  - rewrite elem_of_cons elem_of_cons IH // lookup_delete_Some. split.
    + intros [[= -> ->]|(Hp & Hne & Hl)]; [by split; [left|] | by split; [right|]].
    + intros [[->|Hp] Hl]; first by left; simplify_eq. right. split_and!; try done. by intros ->.
  - rewrite IH // elem_of_cons. split; first by intros [? ?]; split; [right|].
    intros [[->|Hp] Hl]; [by simplify_eq | done].
Qed.
Lemma take_effective_NoDup order effective : NoDup order → NoDup (pattern <$> take_effective order effective).
Proof.
  revert effective. induction order as [|q order IH]; intros effective Hnd; cbn; first by apply NoDup_nil.
  apply NoDup_cons in Hnd as [Hq Hnd]. destruct (effective !! q) as [perm|]; last by apply IH.
  rewrite fmap_cons. apply NoDup_cons. split; last by apply IH. simpl.
  intros ([p perm'] & -> & Hin)%list_elem_of_fmap. by apply take_effective_elem in Hin as [? _].
Qed.

(** The severest of the permissions an entry list gives a pattern. *)
Definition severest (ds : NetworkDomainPermissions) (p : str) (perm : NetworkDomainPermission) : Prop :=
  MkDomainEntry p perm ∈ ds ∧ ∀ perm', MkDomainEntry p perm' ∈ ds → permission_rank perm' ≤ permission_rank perm.

Lemma rank_inj a b : permission_rank a = permission_rank b → a = b.
Proof. by destruct a, b. Qed.

Lemma effective_fold ds :
  let '(order, effective) := foldl effective_step ([], ∅) ds in
  NoDup order ∧ (∀ p, p ∈ order ↔ ∃ perm, MkDomainEntry p perm ∈ ds) ∧ ∀ p perm, effective !! p = Some perm ↔ severest ds p perm.
Proof.
  induction ds as [|[q perm] ds IH] using rev_ind.
  { cbn. split_and!; [by apply NoDup_nil|set_solver|].
    intros p perm. rewrite lookup_empty. split; [done|by intros [?%not_elem_of_nil _]]. }
  rewrite foldl_app /=. destruct (foldl effective_step ([], ∅) ds) as [order effective]. destruct IH as (Hnd & Hord & Heff).
  unfold effective_step. cbn [pattern permission].
  assert (∀ p x, MkDomainEntry p x ∈ ds ++ [MkDomainEntry q perm] ↔ MkDomainEntry p x ∈ ds ∨ p = q ∧ x = perm) as Hsnoc.
  { intros p x. rewrite elem_of_app list_elem_of_singleton. naive_solver. }
  assert (∀ p x, p ≠ q → severest (ds ++ [MkDomainEntry q perm]) p x ↔ severest ds p x) as Hother.
  { intros p x Hne. unfold severest. setoid_rewrite Hsnoc. naive_solver. }
  destruct (effective !! q) as [perm'|] eqn:E.
  - pose proof E as [Hq Hmax]%Heff. split_and!; first done.
    { intros p. rewrite Hord. setoid_rewrite Hsnoc. naive_solver. }
    intros p x. destruct (decide (p = q)) as [->|Hne]; last first.
    { rewrite Hother // -Heff. destruct (permission_rank perm' <? permission_rank perm); by rewrite ?lookup_insert_ne. }
    unfold severest. setoid_rewrite Hsnoc. destruct (Nat.ltb_spec (permission_rank perm') (permission_rank perm)) as [Hlt|Hge].
    + rewrite lookup_insert_eq. split.
      * intros [= <-]. split; first by right. intros y [Hy|[_ ->]]; last done. specialize (Hmax y Hy). lia.
      * intros [[Hx|[_ ->]] Hall]; last done. specialize (Hmax x Hx). specialize (Hall perm (or_intror (conj eq_refl eq_refl))). lia.
    + rewrite E. split.
      * intros [= <-]. split; first by left. intros y [Hy|[_ ->]]; [by apply Hmax|done].
      * intros [Hx Hall]. f_equal. apply rank_inj. specialize (Hall perm' (or_introl Hq)).
        destruct Hx as [Hx|[_ ->]]; [specialize (Hmax x Hx)|]; lia.
  - assert (∀ x, MkDomainEntry q x ∉ ds) as Hnone.
    { intros x Hx. assert (q ∈ order) as Hq by (apply Hord; by exists x).
      assert (∃ y, severest ds q y) as [y Hy].
      { clear -Hx. assert (∀ n x, MkDomainEntry q x ∈ ds → 2 - permission_rank x ≤ n → ∃ y, severest ds q y) as H.
        { induction n as [|n IHn]; intros z Hz Hn.
          - exists z. split; first done. intros w Hw. destruct w, z; simpl in *; lia.
          - destruct (decide (Exists (λ e, pattern e = q ∧ permission_rank z < permission_rank (permission e)) ds)) as [Hex|Hex].
            + apply Exists_exists in Hex as ([? w] & Hw & ? & Hr). simplify_eq/=. apply (IHn w); first done. lia.
            + exists z. split; first done. intros w Hw. destruct (decide (permission_rank w ≤ permission_rank z)); first done.
              destruct Hex. apply Exists_exists. exists (MkDomainEntry q w). split; first done. simpl. split; [done|lia]. }
        by apply (H 2 x); [|lia]. }
      apply Heff in Hy. by rewrite E in Hy. }
    split_and!.
    { apply NoDup_app. split_and!; [done| |by apply NoDup_singleton].
      intros p Hp ->%list_elem_of_singleton. apply Hord in Hp as [x Hx]. by eapply Hnone. }
    { intros p. rewrite elem_of_app list_elem_of_singleton Hord. setoid_rewrite Hsnoc. naive_solver. }
    intros p x. destruct (decide (p = q)) as [->|Hne]; last by rewrite lookup_insert_ne // Hother.
    rewrite lookup_insert_eq. unfold severest. setoid_rewrite Hsnoc. naive_solver.
Qed.

Lemma effective_entries_elem ds p perm : MkDomainEntry p perm ∈ effective_entries ds ↔ severest ds p perm.
Proof.
  pose proof (effective_fold ds) as H. unfold effective_entries.
  destruct (foldl effective_step ([], ∅) ds) as [order effective]. destruct H as (Hnd & Hord & Heff).
  rewrite take_effective_elem // Heff Hord. split; [by intros [_ ?]|intros Hs]. split; last done. exists perm. apply Hs.
Qed.
Lemma effective_entries_NoDup ds : NoDup (pattern <$> effective_entries ds).
Proof.
  pose proof (effective_fold ds) as H. unfold effective_entries.
  destruct (foldl effective_step ([], ∅) ds) as [order effective]. destruct H as (Hnd & _). by apply take_effective_NoDup.
Qed.

(** *** The two lists of domains *)

Lemma domain_entries_elem s perm p :
  p ∈ default [] (domain_entries s perm) ↔ ∃ ds, domains s = Some ds ∧ severest ds p perm.
Proof.
  unfold domain_entries. destruct (domains s) as [ds|]; last (cbn; split; [by intros ?%not_elem_of_nil|by intros (? & ? & _)]).
  set (l := pattern <$> List.filter (λ entry, bool_decide (permission entry = perm)) (effective_entries ds)). 
  trans (p ∈ l); first by cbn; fold l; destruct l.
  unfold l. rewrite list_elem_of_fmap. setoid_rewrite list_elem_of_In. setoid_rewrite filter_In.
  setoid_rewrite <-list_elem_of_In. setoid_rewrite bool_decide_eq_true. split.
  - intros ([q x] & -> & Hin & <-). exists ds. split; first done. by apply effective_entries_elem.
  - intros (? & [= <-] & Hs). exists (MkDomainEntry p perm). split_and!; try done. by apply effective_entries_elem.
Qed.

(** A pattern is denied when one entry denies it, and allowed when one entry
    allows it and none denies it. *)
Theorem deny_entries_win s p :
  (p ∈ default [] (denied_domains s) ↔ MkDomainEntry p DomainDeny ∈ default [] (domains s)) ∧
  (p ∈ default [] (allowed_domains s) ↔
     MkDomainEntry p DomainAllow ∈ default [] (domains s) ∧ MkDomainEntry p DomainDeny ∉ default [] (domains s)).
Proof.
  unfold denied_domains, allowed_domains. rewrite !domain_entries_elem.
  destruct (domains s) as [ds|]; cbn; last set_solver. split; split.
  - by intros (? & [= <-] & ? & _).
  - intros Hd. exists ds. split; first done. split; first done. intros [] _; cbn; lia.
  - intros (? & [= <-] & Ha & Hmax). split; first done. intros Hd. specialize (Hmax _ Hd). cbn in Hmax. lia.
  - intros [Ha Hd]. exists ds. split; first done. split; first done. intros [] Hx; cbn; [lia|lia|done].
Qed.

(** A domain that is allowed or denied anew replaces the entries with its normal
    form. *)
Lemma upsert_elem s host perm normalize p x :
  MkDomainEntry p x ∈ default [] (domains (upsert_domain_permission s host perm normalize))
  ↔ (p = host ∧ x = perm) ∨ (MkDomainEntry p x ∈ default [] (domains s) ∧ normalize p ≠ normalize host).
Proof.
  unfold upsert_domain_permission. cbn [domains set_domains].
  set (kept := List.filter (λ entry, negb (normalize (pattern entry) =s? normalize host)) (default [] (domains s))).
  assert (non_empty_domains (kept ++ [MkDomainEntry host perm]) = Some (kept ++ [MkDomainEntry host perm])) as ->.
  { unfold non_empty_domains. by destruct kept. }
  cbn. rewrite elem_of_app list_elem_of_singleton. unfold kept.
  rewrite list_elem_of_In filter_In -list_elem_of_In /= negb_true_iff str_eqb_neq. naive_solver.
Qed.

Theorem upserted_domains s host perm normalize p :
  let s' := upsert_domain_permission s host perm normalize in
  (p ∈ default [] (denied_domains s') ↔
     (p = host ∧ perm = DomainDeny) ∨ (p ∈ default [] (denied_domains s) ∧ normalize p ≠ normalize host)) ∧
  (p ∈ default [] (allowed_domains s') ↔
     (p = host ∧ perm = DomainAllow) ∨ (p ∈ default [] (allowed_domains s) ∧ normalize p ≠ normalize host)).
Proof.
  cbn zeta. rewrite !(proj1 (deny_entries_win _ _)) !(proj2 (deny_entries_win _ _)) !upsert_elem.
  destruct (decide (p = host)) as [->|]; naive_solver.
Qed.

(** ** Listeners *)

Lemma clamp_non_loopback_spec addr allow :
  (clamp_non_loopback addr allow).2 = addr.2 ∧
  (is_loopback (clamp_non_loopback addr allow).1 = true ∨ allow = true ∧ clamp_non_loopback addr allow = addr).
Proof. unfold clamp_non_loopback. destruct (is_loopback addr.1) eqn:E, allow; split; auto. Qed.

(** The listeners keep their ports. They are on loopback addresses, unless other
    addresses are allowed and no Unix socket is. *)
Theorem listeners_stay_local http_addr socks_addr cfg :
  let '(http, socks) := clamp_bind_addrs http_addr socks_addr cfg in
  http.2 = http_addr.2 ∧ socks.2 = socks_addr.2 ∧
  (is_loopback http.1 = true ∧ is_loopback socks.1 = true
   ∨ dangerously_allow_non_loopback_proxy cfg = true ∧ allow_unix_sockets cfg = []
     ∧ dangerously_allow_all_unix_sockets cfg = false ∧ http = http_addr ∧ socks = socks_addr).
Proof.
  unfold clamp_bind_addrs.
  destruct (clamp_non_loopback_spec http_addr (dangerously_allow_non_loopback_proxy cfg)) as [Hp1 H1].
  destruct (clamp_non_loopback_spec socks_addr (dangerously_allow_non_loopback_proxy cfg)) as [Hp2 H2].
  destruct (is_empty (allow_unix_sockets cfg)) eqn:Hs, (dangerously_allow_all_unix_sockets cfg) eqn:Ha; cbn;
    try by split_and!; auto.
  apply is_empty_true in Hs. split_and!; [done..|]. unfold clamp_non_loopback in *.
  destruct (is_loopback http_addr.1) eqn:?, (is_loopback socks_addr.1) eqn:?, (dangerously_allow_non_loopback_proxy cfg);
    cbn in *; naive_solver.
Qed.

(** ** Managed settings *)

Section managed.
Context {D : Disk} {L : NetLib} {HO : HashOrder}.

Abbreviation no_global := (Forall (λ p, is_global_wildcard_domain_pattern p = false)).
Definition config_allowed (config : NetworkProxyConfig) : list str := default [] (allowed_domains config).
Definition config_denied (config : NetworkProxyConfig) : list str := default [] (denied_domains config).

(** What the managed settings allow of the domains. *)
Definition allowed_permitted (managed : list str) (expansion : option bool) (config : NetworkProxyConfig) : Prop :=
  no_global managed ∧
  match expansion with
  | Some true => ∀ d, d ∈ lower_set managed → d ∈ lower_set (config_allowed config) ∨ d ∈ lower_set (config_denied config)
  | Some false => lower_set (config_allowed config) = lower_set managed ∖ lower_set (config_denied config)
  | None => ∀ d, d ∈ config_allowed config → ∃ m, m ∈ managed ∧ allows (parse_for_constraints m) (parse_for_constraints d) = true
  end.
Definition denied_permitted (managed : list str) (expansion : option bool) (config : NetworkProxyConfig) : Prop :=
  no_global managed ∧
  match expansion with
  | Some false => lower_set (config_denied config) = lower_set managed
  | Some true | None => lower_set managed ⊆ lower_set (config_denied config)
  end.

Record permitted (config : NetworkProxyConfig) (constraints : NetworkProxyConstraints) : Prop := {
  permitted_wildcards : no_global (config_denied config);
  permitted_enabled : c_enabled constraints = Some false → enabled config = false;
  permitted_mode : ∀ m, c_mode constraints = Some m → network_mode_rank (mode config) ≤ network_mode_rank m;
  permitted_upstream : c_allow_upstream_proxy constraints = Some false → allow_upstream_proxy config = false;
  permitted_loopback : c_dangerously_allow_non_loopback_proxy constraints = Some false →
    dangerously_allow_non_loopback_proxy config = false;
  permitted_all_sockets : dangerously_allow_all_unix_sockets config = true →
    c_dangerously_allow_all_unix_sockets constraints = Some true
    ∨ c_dangerously_allow_all_unix_sockets constraints = None ∧ c_allow_unix_sockets constraints = None;
  permitted_local : c_allow_local_binding constraints = Some false → allow_local_binding config = false;
  permitted_allowed : ∀ managed, c_allowed_domains constraints = Some managed →
    allowed_permitted managed (c_allowlist_expansion_enabled constraints) config;
  permitted_denied : ∀ managed, c_denied_domains constraints = Some managed →
    denied_permitted managed (c_denylist_expansion_enabled constraints) config;
  permitted_sockets : ∀ managed s, c_allow_unix_sockets constraints = Some managed →
    s ∈ allow_unix_sockets config → to_ascii_lowercase s ∈ lower_set managed
}.

Lemma guard_value_ok b f x y u : guard_value b f x y = Ok u ↔ b = true.
Proof. destruct b, u; cbn; by split. Qed.
Lemma filter_nil {A} (f : A → bool) l : is_empty (List.filter f l) = true ↔ ∀ x, x ∈ l → f x = false.
Proof.
  rewrite is_empty_true. induction l as [|x l IH]; cbn; first set_solver. destruct (f x) eqn:E.
  - split; [done|]. intros H. specialize (H x). rewrite E in H. by specialize (H ltac:(set_solver)).
  - rewrite IH. setoid_rewrite elem_of_cons. naive_solver.
Qed.
Lemma missing_nil required candidate override :
  is_empty (missing_from required candidate override) = true ↔ ∀ d, d ∈ required → d ∈ candidate ∨ d ∈ override.
Proof.
  unfold missing_from. rewrite filter_nil.
  assert (∀ d, d ∈ (hash_iter (gset_to_gmap () required)).*1 ↔ d ∈ required) as Hin.
  { intros d. rewrite list_elem_of_fmap. split.
    - intros ([k []] & -> & Hk). apply elem_of_hash_iter, lookup_gset_to_gmap_Some in Hk. by destruct Hk.
    - intros Hd. exists (d, ()). split; first done. apply elem_of_hash_iter, lookup_gset_to_gmap_Some. done. }
  setoid_rewrite Hin. setoid_rewrite andb_false_iff. setoid_rewrite negb_false_iff. by setoid_rewrite bool_decide_eq_true.
Qed.
Lemma validate_wildcards_ok f ps u : validate_non_global_wildcard_domain_patterns f ps = Ok u ↔ no_global ps.
Proof.
  destruct u. unfold validate_non_global_wildcard_domain_patterns.
  destruct (find is_global_wildcard_domain_pattern ps) eqn:E.
  - apply find_some in E as [Hin Hg]. split; first done. intros Hall. apply list_elem_of_In in Hin.
    eapply Forall_forall in Hall; last done. congruence.
  - split; last done. intros _. apply Forall_forall. intros p Hp. by eapply find_none in E; [|apply list_elem_of_In].
Qed.
Lemma validate_switch_ok limit b f u : validate_switch limit b f = Ok u ↔ (limit = Some false → b = false).
Proof. unfold validate_switch. rewrite guard_value_ok. destruct limit as [[]|], b; naive_solver. Qed.
Lemma when_some_ok {A} (o : option A) f u : when_some o f = Ok u ↔ ∀ a, o = Some a → f a = Ok tt.
Proof. destruct u, o; cbn; naive_solver. Qed.

Lemma then_ok {E} (m k : result E unit) : (_ ← m; k) = Ok tt ↔ m = Ok tt ∧ k = Ok tt.
Proof. destruct m as [[]|]; cbn; naive_solver. Qed.

Lemma validate_mode_ok limit m :
  validate_mode limit m = Ok tt ↔ ∀ x, limit = Some x → network_mode_rank m ≤ network_mode_rank x.
Proof.
  unfold validate_mode. destruct limit as [x|]; last by split.
  rewrite guard_value_ok negb_true_iff Nat.ltb_ge. split; [by intros ? ? [= <-]|auto].
Qed.
Lemma validate_all_sockets_ok constraints b :
  validate_all_unix_sockets constraints b = Ok tt ↔
  (b = true → c_dangerously_allow_all_unix_sockets constraints = Some true
    ∨ c_dangerously_allow_all_unix_sockets constraints = None ∧ c_allow_unix_sockets constraints = None).
Proof.
  unfold validate_all_unix_sockets. rewrite guard_value_ok.
  destruct b, (c_dangerously_allow_all_unix_sockets constraints) as [[]|], (c_allow_unix_sockets constraints); naive_solver.
Qed.
Lemma validate_allowed_ok managed expansion config :
  validate_allowed_domains managed expansion (config_allowed config) (lower_set (config_denied config)) = Ok tt
  ↔ allowed_permitted managed expansion config.
Proof.
  unfold validate_allowed_domains, allowed_permitted. rewrite then_ok validate_wildcards_ok.
  destruct expansion as [[]|]; rewrite guard_value_ok ?missing_nil ?bool_decide_eq_true //.
  unfold outside_managed. rewrite filter_nil. setoid_rewrite negb_false_iff. setoid_rewrite existsb_exists.
  setoid_rewrite <-list_elem_of_In. setoid_rewrite list_elem_of_fmap.
  split; intros [? H]; (split; first done); intros d Hd; destruct (H d Hd) as (x & Hx & Ha).
  - destruct Hx as (m & -> & Hm). by exists m.
  - exists (parse_for_constraints x). split; last done. by exists x.
Qed.
Lemma validate_denied_ok managed expansion config :
  validate_denied_domains managed expansion (config_denied config) = Ok tt ↔ denied_permitted managed expansion config.
Proof.
  unfold validate_denied_domains, denied_permitted. rewrite then_ok validate_wildcards_ok.
  destruct expansion as [[]|]; rewrite guard_value_ok ?missing_nil ?bool_decide_eq_true //; set_solver.
Qed.
Lemma validate_sockets_ok managed candidate :
  validate_allow_unix_sockets managed candidate = Ok tt
  ↔ ∀ s, s ∈ candidate → to_ascii_lowercase s ∈ lower_set managed.
Proof.
  unfold validate_allow_unix_sockets. rewrite guard_value_ok filter_nil. setoid_rewrite negb_false_iff.
  by setoid_rewrite bool_decide_eq_true.
Qed.

(** A configuration passes when the managed settings allow all of it. *)
Theorem validation_is_permission config constraints :
  validate_policy_against_constraints config constraints = Ok tt ↔ permitted config constraints.
Proof.
  unfold validate_policy_against_constraints. rewrite !then_ok validate_wildcards_ok !validate_switch_ok validate_mode_ok
    validate_all_sockets_ok !when_some_ok.
  setoid_rewrite validate_allowed_ok. setoid_rewrite validate_denied_ok. setoid_rewrite validate_sockets_ok.
  split; [intros (? & ? & ? & ? & ? & ? & ? & ? & ? & ?); by constructor; eauto | intros []; split_and!; eauto].
Qed.

(** ** Managed lists of domains *)

(** The host parser takes the domain as it is. *)
Definition parsed_as_is (d : str) : Prop := url_host_parse d = Some d.

Lemma parse_pattern_for_constraints pat : plain_domain (pattern_domain pat) → parsed_as_is (pattern_domain pat) →
  parse_for_constraints (pattern_text pat) = pat.
Proof.
  intros Hd Hp. unfold parse_for_constraints. rewrite trim_pattern_text //.
  assert (is_empty (pattern_text pat) = false) as ->.
  { apply is_empty_false. pose proof (plain_nonempty _ Hd). by destruct pat. }
  assert (parse_domain_for_constraints (pattern_domain pat) = pattern_domain pat) as Hparse.
  { unfold parse_domain_for_constraints. rewrite plain_trim // trim_end_matches_id.
    { intros r c Hr. apply N.eqb_neq. intros ->. apply (plain_last _ Hd). by rewrite Hr last_snoc. }
    rewrite (proj2 (is_empty_false _) (plain_nonempty _ Hd)).
    assert (∀ c, is_glob_special c = true → contains_char c (pattern_domain pat) = false) as Hno.
    { intros c Hc. apply contains_char_false. intros (_ & _ & Hs & _)%(plain_char _ Hd). congruence. }
    assert (starts_with [ch_lbracket] (pattern_domain pat) = false) as ->.
    { pose proof (Hno ch_lbracket eq_refl) as Hb. apply contains_char_false in Hb.
      apply not_true_iff_false. intros [r Hr]%starts_with_spec. apply Hb. rewrite Hr. set_solver. }
    cbn [andb]. rewrite (Hno ch_star) // (Hno ch_question) //. assert (contains_char ch_percent (pattern_domain pat) = false) as ->.
    { apply contains_char_false. intros Hin. pose proof (plain_chars _ Hd) as Hall. rewrite Forall_forall in Hall. by apply Hall in Hin. }
    cbn [orb]. by rewrite Hp. }
  destruct (strip_stars pat Hd) as [-> ->]. destruct pat; cbn [pattern_domain pattern_text] in *; by rewrite Hparse.
Qed.

(** What is not parsed has an empty pattern, and every such entry permits every other:
    those for IPv6 addresses, which the parser takes in brackets only. *)
Lemma ipv6_entries_permit_each_other :
  url_host_parse (lit "2001:db8::1") = None → url_host_parse (lit "2001:db8::2") = None →
  allows (parse_for_constraints (lit "2001:db8::1")) (parse_for_constraints (lit "2001:db8::2")) = true.
Proof.
  intros H1 H2. assert (∀ d, url_host_parse d = None → trim d = d → is_empty d = false → trim_end_matches (λ c, (c =? ch_dot)%N) d = d →
    strip_prefix (lit "**.") d = None → strip_prefix (lit "*.") d = None → starts_with [ch_lbracket] d = false →
    contains_char ch_star d || contains_char ch_question d || contains_char ch_percent d = false → parse_for_constraints d = Exact []) as Hempty.
  { intros d Hd Ht He Hdot Hp1 Hp2 Hb Hc. unfold parse_for_constraints. rewrite Ht He Hp1 Hp2. unfold parse_domain_for_constraints.
    by rewrite Ht Hdot He Hb /= Hc Hd. }
  rewrite (Hempty (lit "2001:db8::1")) // (Hempty (lit "2001:db8::2")) //.
Qed.

(** C18. Where the settings may only narrow the managed list, every host they allow, in
    lower case as hosts are compared, is one the managed list allows: when the entries
    of both lists are plain lower case names, alone or for their subdomains, that the
    host parser takes as they are. *)
Theorem managed_allowlist_bounds_the_hosts {_ : GlobLaws L} config constraints managed globs h :
  permitted config constraints →
  c_allowed_domains constraints = Some (pattern_text <$> managed) → c_allowlist_expansion_enabled constraints = None →
  Forall (λ pat, plain_domain (pattern_domain pat) ∧ parsed_as_is (pattern_domain pat)) managed →
  (∀ p, p ∈ config_allowed config →
     ∃ pat, p = pattern_text pat ∧ plain_domain (pattern_domain pat) ∧ parsed_as_is (pattern_domain pat)) →
  compile_allowlist_globset (config_allowed config) = Ok globs →
  to_ascii_lowercase h = h → is_match globs h = true →
  ∃ pat, pat ∈ managed ∧ matches_host pat h.
Proof.
  intros Hperm Hman Hexp Hplain Hplain' Hcomp Hh Hmatch.
  destruct (permitted_allowed _ _ Hperm _ Hman) as [_ Hall]. rewrite Hexp in Hall.
  apply (proj1 (compiled_globset _ _ _ Hcomp)) in Hmatch as (p & Hp & Hmatch).
  destruct (Hall p Hp) as (m & Hm & Hallows). destruct (Hplain' p Hp) as (pat & -> & Hpd & Hpp).
  apply list_elem_of_fmap in Hm as (mpat & -> & Hm).
  rewrite Forall_forall in Hplain. destruct (Hplain _ Hm) as [Hmd Hmp].
  rewrite !parse_pattern_for_constraints // in Hallows. exists mpat. split; first done.
  apply (allows_is_inclusion mpat pat); [by apply plain_normal..|done|].
  by apply (pattern_globs_match pat Hpd h Hh).
Qed.
End managed.

(** ** Witnesses *)

Definition managed_settings : NetworkProxySettings :=
  set_domains NetworkProxySettings_default (Some [MkDomainEntry (lit "api.example.com") DomainAllow]).
Definition managed_constraints : NetworkProxyConstraints :=
  MkConstraints None None None None None (Some [lit "*.example.com"]) None None None None None.

Lemma managed_allowlist_bounds_the_hosts_witness :
  ∃ pat, pat ∈ [SubdomainsOnly (lit "example.com")] ∧ matches_host pat (lit "api.example.com").
Proof.
  assert (∀ d, plain_domain d → plain_domain d ∧ parsed_as_is (L := demo_lib) d) as Hparsed by done.
  assert (plain_domain (lit "example.com") ∧ plain_domain (lit "api.example.com")) as [H1 H2].
  { split; (split; [done|by apply (bool_decide_unpack _)|done|done]). }
  assert (∀ s : str, s ∈ config_allowed managed_settings → s = lit "api.example.com") as Hallowed.
  { assert (config_allowed managed_settings = [lit "api.example.com"]) as -> by (vm_compute; reflexivity). set_solver. }
  apply (managed_allowlist_bounds_the_hosts (L := demo_lib) managed_settings managed_constraints [SubdomainsOnly (lit "example.com")]
    [lit "api.example.com"] (lit "api.example.com")).
  - apply (validation_is_permission (L := demo_lib) (HO := map_order)). vm_compute. reflexivity.
  - vm_compute. reflexivity.
  - done.
  - constructor; [by apply Hparsed|constructor].
  - intros p ->%Hallowed. by exists (Exact (lit "api.example.com")).
  - vm_compute. reflexivity.
  - vm_compute. reflexivity.
  - vm_compute. reflexivity.
Defined.
