(* ===== verification/NetProxy.v ===== *)
(** The state of the network proxy and its decisions on hosts:
    [codex-rs/network-proxy/src/{runtime,network_policy}.rs] and [build_config_state]
    of [state.rs]. Every operation reads what is behind the lock after asking the
    reloader, so that the settings may change between any two of its steps: the
    answers of the reloader, and those of the resolver of names at each time it is asked, are scripts. *)
From S2P Require Import Prelude Json Paths Types Host AbsolutePath Permissions NetAddr IpAddresses HostPatterns NetConfig.
From Stdlib Require Import ZArith Lia.
#[local] Open Scope nat_scope.

(** ** Data *)

Definition REASON_DENIED : str := lit "denied".
Definition REASON_METHOD_NOT_ALLOWED : str := lit "method_not_allowed".
Definition REASON_MITM_REQUIRED : str := lit "mitm_required".
Definition REASON_NOT_ALLOWED : str := lit "not_allowed".
Definition REASON_NOT_ALLOWED_LOCAL : str := lit "not_allowed_local".
Definition REASON_POLICY_DENIED : str := lit "policy_denied".
Definition REASON_PROXY_DISABLED : str := lit "proxy_disabled".
Definition REASON_UNIX_SOCKET_UNSUPPORTED : str := lit "unix_socket_unsupported".

Inductive HostBlockReason : Type := Denied | NotAllowed | NotAllowedLocal.
#[global] Instance block_reason_eq_dec : EqDecision HostBlockReason.
Proof. solve_decision. Defined.
Definition block_reason_str (r : HostBlockReason) : str :=
  match r with Denied => REASON_DENIED | NotAllowed => REASON_NOT_ALLOWED | NotAllowedLocal => REASON_NOT_ALLOWED_LOCAL end.
Inductive HostBlockDecision : Type := Allowed | Blocked (reason : HostBlockReason).

Record BlockedRequest := MkBlocked {
  b_host : str;
  b_reason : str;
  b_client : option str;
  b_method : option str;
  b_mode : option NetworkMode;
  b_protocol : str;
  b_decision : option str;
  b_source : option str;
  b_port : option Z;
  b_timestamp : Z
}.

(** What the interceptor of TLS was built with. *)
Record MitmState := MkMitm { upstream_from_env : bool }.

Record ConfigState := MkConfigState {
  config : NetworkProxyConfig;
  allow_set : list str;
  deny_set : list str;
  mitm_state : option MitmState;
  constraints : NetworkProxyConstraints;
  blocked : list BlockedRequest;
  blocked_total : N
}.
Definition set_blocked (s : ConfigState) (b : list BlockedRequest) (total : N) : ConfigState :=
  MkConfigState (config s) (allow_set s) (deny_set s) (mitm_state s) (constraints s) b total.
Definition set_config (s : ConfigState) (c : NetworkProxyConfig) : ConfigState :=
  MkConfigState c (allow_set s) (deny_set s) (mitm_state s) (constraints s) (blocked s) (blocked_total s).

Definition MAX_BLOCKED_EVENTS : nat := 200.
Definition u64_max : N := 18446744073709551615%N.

Inductive NetworkProtocol : Type := Http | HttpsConnect | Socks5Tcp | Socks5Udp.
Definition as_policy_protocol (p : NetworkProtocol) : str :=
  match p with
  | Http => lit "http" | HttpsConnect => lit "https_connect" | Socks5Tcp => lit "socks5_tcp" | Socks5Udp => lit "socks5_udp"
  end.
Inductive NetworkPolicyDecision : Type := PolicyDeny | PolicyAsk.
Definition policy_decision_str (d : NetworkPolicyDecision) : str :=
  match d with PolicyDeny => lit "deny" | PolicyAsk => lit "ask" end.
Inductive NetworkDecisionSource : Type := BaselinePolicy | ModeGuard | ProxyState | Decider.
Definition source_str (s : NetworkDecisionSource) : str :=
  match s with
  | BaselinePolicy => lit "baseline_policy" | ModeGuard => lit "mode_guard" | ProxyState => lit "proxy_state"
  | Decider => lit "decider"
  end.
Record NetworkPolicyRequest := MkRequest {
  protocol : NetworkProtocol;
  host : str;
  port : Z;
  client_addr : option str;
  method : option str;
  command : option str;
  exec_policy_hint : option str
}.
Inductive NetworkDecision : Type :=
  | NetAllow
  | NetDeny (reason : str) (source : NetworkDecisionSource) (decision : NetworkPolicyDecision).
Definition deny_with_source (reason : str) (source : NetworkDecisionSource) : NetworkDecision :=
  NetDeny (if is_empty reason then REASON_POLICY_DENIED else reason) source PolicyDeny.
Definition ask_with_source (reason : str) (source : NetworkDecisionSource) : NetworkDecision :=
  NetDeny (if is_empty reason then REASON_POLICY_DENIED else reason) source PolicyAsk.
Definition map_decider_decision (decision : NetworkDecision) : NetworkDecision :=
  match decision with NetAllow => NetAllow | NetDeny reason _ decision => NetDeny reason Decider decision end.

(** An audit event, without the fields of the conversation. *)
Record PolicyAuditEvent := MkAudit {
  a_scope : str;
  a_decision : str;
  a_source : str;
  a_reason : str;
  a_protocol : NetworkProtocol;
  a_server_address : str;
  a_server_port : Z;
  a_method : str;
  a_client_addr : str;
  a_policy_override : bool
}.

(** ** The machine *)

Inductive DnsAnswer : Type := Resolved (ips : list IpAddr) | LookupFailed | LookupTimedOut.

(** What is behind the lock; the answers to come of the reloader (then: no
    change) and of the resolver (then: failures), which each time it is asked answers for
    any host and port; the clock; what was logged and
    observed. *)
Record World := MkWorld {
  shared : ConfigState;
  reloads : list (result str (option ConfigState));
  lookups : list (str → Z → DnsAnswer);
  now : Z;
  audit : list PolicyAuditEvent;
  observer : bool;
  observed : list BlockedRequest
}.
Definition set_shared (w : World) (s : ConfigState) : World :=
  MkWorld s (reloads w) (lookups w) (now w) (audit w) (observer w) (observed w).
Definition set_reloads (w : World) (r : list (result str (option ConfigState))) : World :=
  MkWorld (shared w) r (lookups w) (now w) (audit w) (observer w) (observed w).
Definition set_lookups (w : World) (l : list (str → Z → DnsAnswer)) : World :=
  MkWorld (shared w) (reloads w) l (now w) (audit w) (observer w) (observed w).
Definition add_audit (w : World) (e : PolicyAuditEvent) : World :=
  MkWorld (shared w) (reloads w) (lookups w) (now w) (audit w ++ [e]) (observer w) (observed w).
Definition add_observed (w : World) (b : BlockedRequest) : World :=
  MkWorld (shared w) (reloads w) (lookups w) (now w) (audit w) (observer w) (observed w ++ [b]).

Definition ProxyM (A : Type) : Type := World → World * result NetError A.
#[global] Instance ProxyM_ret : MRet ProxyM := λ A a w, (w, Ok a).
#[global] Instance ProxyM_bind : MBind ProxyM := λ A B f m w,
  match m w with (w, Ok a) => f a w | (w, Err e) => (w, Err e) end.
Definition fail_with {A} (e : NetError) : ProxyM A := λ w, (w, Err e).
Definition of_result {A} (r : result NetError A) : ProxyM A := λ w, (w, r).
(** The result of an operation as a value, for callers that go on. *)
Definition attempt {A} (m : ProxyM A) : ProxyM (result NetError A) := λ w, let '(w, r) := m w in (w, Ok r).

Definition read_shared : ProxyM ConfigState := λ w, (w, Ok (shared w)).
Definition write_shared (s : ConfigState) : ProxyM unit := λ w, (set_shared w s, Ok tt).

(** The new state takes over the requests that were blocked. *)
Definition reload_if_needed : ProxyM unit := λ w,
  match reloads w with
  | [] => (w, Ok tt)
  | Ok None :: rest => (set_reloads w rest, Ok tt)
  | Ok (Some new_state) :: rest =>
      (set_shared (set_reloads w rest) (set_blocked new_state (blocked (shared w)) (blocked_total (shared w))), Ok tt)
  | Err e :: rest => (set_reloads w rest, Err (ReloadFailed e))
  end.

(** ** Reading the settings *)

Definition current (A : Type) (f : ConfigState → A) : ProxyM A := _ ← reload_if_needed; s ← read_shared; mret (f s).
Definition current_cfg : ProxyM NetworkProxyConfig := current _ config.
Definition current_patterns : ProxyM (list str * list str) :=
  current _ (λ s, (default [] (allowed_domains (config s)), default [] (denied_domains (config s)))).
Definition proxy_enabled : ProxyM bool := current _ (λ s, enabled (config s)).
Definition method_allowed (method : str) : ProxyM bool := current _ (λ s, allows_method (mode (config s)) method).
Definition upstream_proxy_allowed : ProxyM bool := current _ (λ s, allow_upstream_proxy (config s)).
Definition network_mode : ProxyM NetworkMode := current _ (λ s, mode (config s)).
Definition current_mitm_state : ProxyM (option MitmState) := current _ mitm_state.
Definition blocked_snapshot : ProxyM (list BlockedRequest) := current _ blocked.

(** ** Hosts *)

Definition is_explicit_local_allowlisted (allowed_domains : list str) (host : str) : bool :=
  existsb (λ pattern,
    let pattern := trim pattern in
    if (pattern =s? lit "*") || starts_with (lit "*.") pattern || starts_with (lit "**.") pattern then false
    else if contains_char ch_star pattern || contains_char ch_question pattern then false
    else normalize_host pattern =s? host) allowed_domains.

(** The resolver is asked for the addresses of the host. *)
Definition lookup_host (host : str) (port : Z) : ProxyM DnsAnswer := λ w,
  match lookups w with
  | [] => (w, Ok LookupFailed)
  | resolver :: rest => (set_lookups w rest, Ok (resolver host port))
  end.

Definition host_resolves_to_non_public_ip (host : str) (port : Z) : ProxyM bool :=
  match parse_ip host with
  | Some ip => mret (is_non_public_ip ip)
  | None =>
      answer ← lookup_host host port;
      mret (match answer with
            | LookupFailed | LookupTimedOut => true
            | Resolved ips => existsb is_non_public_ip ips
            end)
  end.

Definition is_local_literal (host : str) : bool :=
  if is_loopback_host host then true
  else match parse_ip (host_no_scope host) with Some ip => is_non_public_ip ip | None => false end.

Section lib.
Context {D : Disk} {L : NetLib} {HO : HashOrder}.

(** The third reason for a block: the list of allowed domains. *)
Definition allowlist_decision (allowed_domains_empty is_allowlisted : bool) : HostBlockDecision :=
  if allowed_domains_empty || negb is_allowlisted then Blocked NotAllowed else Allowed.

Definition host_blocked (host : str) (port : Z) : ProxyM HostBlockDecision :=
  _ ← reload_if_needed;
  match Host_parse host with
  | None => mret (Blocked NotAllowed)
  | Some host =>
      s ← read_shared;
      let allowed := allowed_domains (config s) in
      let allowed_domains_empty := negb (is_some_b allowed) in
      let allowed := default [] allowed in
      if is_match (deny_set s) host then mret (Blocked Denied)
      else
        let is_allowlisted := is_match (allow_set s) host in
        if negb (allow_local_binding (config s)) then
          if is_local_literal host then
            if negb (is_explicit_local_allowlisted allowed host) then mret (Blocked NotAllowedLocal)
            else mret (allowlist_decision allowed_domains_empty is_allowlisted)
          else
            non_public ← host_resolves_to_non_public_ip host port;
            if (non_public : bool) then mret (Blocked NotAllowedLocal)
            else mret (allowlist_decision allowed_domains_empty is_allowlisted)
        else mret (allowlist_decision allowed_domains_empty is_allowlisted)
  end.

(** ** Requests that were blocked *)

(** [while len > MAX_BLOCKED_EVENTS { pop_front() }] *)
Definition pop_excess (l : list BlockedRequest) : list BlockedRequest := drop (length l - MAX_BLOCKED_EVENTS) l.

Definition push_blocked (s : ConfigState) (entry : BlockedRequest) : ConfigState :=
  set_blocked s (pop_excess (blocked s ++ [entry])) (N.min (blocked_total s + 1) u64_max).

Definition notify_observer (entry : BlockedRequest) : ProxyM unit := λ w,
  (if observer w then add_observed w entry else w, Ok tt).

Definition record_blocked (entry : BlockedRequest) : ProxyM unit :=
  _ ← reload_if_needed;
  s ← read_shared;
  _ ← write_shared (push_blocked s entry);
  notify_observer entry.

Definition drain_blocked : ProxyM (list BlockedRequest) :=
  _ ← reload_if_needed;
  s ← read_shared;
  _ ← write_shared (set_blocked s [] (blocked_total s));
  mret (blocked s).

(** [BlockedRequest::new] *)
Definition blocked_request (host reason : str) (client method : option str) (mode : option NetworkMode) (protocol : str)
    (decision source : option str) (port : option Z) : ProxyM BlockedRequest := λ w,
  (w, Ok (MkBlocked host reason client method mode protocol decision source port (now w))).

(** ** Changing the settings *)

(** [MitmState::new] may fail to load or make its certificates: [mitm_ca] says
    whether it succeeds. *)
Definition build_config_state (mitm_ca : bool) (config : NetworkProxyConfig) (constraints : NetworkProxyConstraints) :
    result NetError ConfigState :=
  _ ← validate_unix_socket_allowlist_paths config;
  let allowed := default [] (allowed_domains config) in
  let denied := default [] (denied_domains config) in
  _ ← map_err (ConstraintError None) (validate_non_global_wildcard_domain_patterns (lit "network.denied_domains") denied);
  deny_set ← map_err (GlobsError None) (compile_denylist_globset denied);
  allow_set ← map_err (GlobsError None) (compile_allowlist_globset allowed);
  mitm ← (if mitm config then if mitm_ca then Ok (Some (MkMitm (allow_upstream_proxy config))) else Err (MitmError None)
          else Ok None);
  Ok (MkConfigState config allow_set deny_set mitm constraints [] 0).

(** The reloader is asked for a new state; its counter of blocked requests is
    taken over as it is. *)
Definition force_reload (reload_now : result str ConfigState) : ProxyM unit :=
  match reload_now with
  | Ok new_state =>
      s ← read_shared;
      write_shared (set_blocked new_state (blocked s) (blocked_total new_state))
  | Err e => fail_with (ReloadFailed e)
  end.

Definition replace_config_state (new_state : ConfigState) : ProxyM unit :=
  _ ← reload_if_needed;
  s ← read_shared;
  write_shared (set_blocked new_state (blocked s) (blocked_total s)).

Inductive DomainListKind : Type := AllowList | DenyList.
Definition list_name (k : DomainListKind) : str := match k with AllowList => lit "allowlist" | DenyList => lit "denylist" end.
Definition constraint_field (k : DomainListKind) : str :=
  match k with AllowList => lit "network.allowed_domains" | DenyList => lit "network.denied_domains" end.
Definition list_permission (k : DomainListKind) : NetworkDomainPermission :=
  match k with AllowList => DomainAllow | DenyList => DomainDeny end.
Definition list_entries (k : DomainListKind) (network : NetworkProxySettings) : list str :=
  match k with AllowList => default [] (allowed_domains network) | DenyList => default [] (denied_domains network) end.
Definition opposite_entries (k : DomainListKind) (network : NetworkProxySettings) : list str :=
  match k with AllowList => default [] (denied_domains network) | DenyList => default [] (allowed_domains network) end.

(** One round of the loop, between the lock for reading and the lock for
    writing: the state to write, or nothing to do. *)
Definition updated_state (mitm_ca : bool) (target : DomainListKind) (normalized_host : str) (read : ConfigState) :
    result NetError (option ConfigState) :=
  let contains entries := existsb (λ entry, normalize_host entry =s? normalized_host) entries in
  if contains (list_entries target (config read)) && negb (contains (opposite_entries target (config read))) then Ok None
  else
    let candidate := upsert_domain_permission (config read) normalized_host (list_permission target) normalize_host in
    _ ← map_err (λ e, ConstraintError (Some (constraint_field target ++ lit " constrained by managed config")) e)
          (validate_policy_against_constraints candidate (constraints read));
    new_state ← map_err (set_context (lit "failed to compile updated network " ++ list_name target))
                  (build_config_state mitm_ca candidate (constraints read));
    Ok (Some (set_blocked new_state (blocked read) (blocked_total read))).

(** The write: another round when the settings have changed since the read. *)
Definition commit_update (read new_state guard : ConfigState) : option ConfigState :=
  if bool_decide (constraints guard ≠ constraints read) || bool_decide (config guard ≠ config read) then None
  else Some new_state.

(** A round; [between] is what other tasks do between the two locks. *)
Definition update_round (mitm_ca : bool) (target : DomainListKind) (normalized_host : str) (between : ConfigState → ConfigState) :
    ProxyM bool :=
  _ ← reload_if_needed;
  read ← read_shared;
  update ← of_result (updated_state mitm_ca target normalized_host read);
  match update with
  | None => mret true
  | Some new_state =>
      let guard := between read in
      match commit_update read new_state guard with
      | Some s => _ ← write_shared s; mret true
      | None => _ ← write_shared guard; mret false
      end
  end.
Fixpoint update_rounds (mitm_ca : bool) (target : DomainListKind) (normalized_host : str)
    (interference : list (ConfigState → ConfigState)) : ProxyM unit :=
  match interference with
  | [] => _ ← update_round mitm_ca target normalized_host id; mret tt
  | between :: rest =>
      finished ← update_round mitm_ca target normalized_host between;
      if (finished : bool) then mret tt else update_rounds mitm_ca target normalized_host rest
  end.
(** The interference of other tasks ends. *)
Definition update_domain_list (mitm_ca : bool) (host : str) (target : DomainListKind)
    (interference : list (ConfigState → ConfigState)) : ProxyM unit :=
  match Host_parse host with
  | None => fail_with InvalidHost
  | Some host => update_rounds mitm_ca target host interference
  end.
Definition add_allowed_domain (mitm_ca : bool) (host : str) (interference : list (ConfigState → ConfigState)) : ProxyM unit :=
  update_domain_list mitm_ca host AllowList interference.
Definition add_denied_domain (mitm_ca : bool) (host : str) (interference : list (ConfigState → ConfigState)) : ProxyM unit :=
  update_domain_list mitm_ca host DenyList interference.

Definition mode_round (m : NetworkMode) (between : ConfigState → ConfigState) : ProxyM bool :=
  _ ← reload_if_needed;
  read ← read_shared;
  _ ← of_result (map_err (ConstraintError (Some (lit "network.mode constrained by managed config")))
                   (validate_policy_against_constraints (set_mode (config read) m) (constraints read)));
  let guard := between read in
  if bool_decide (constraints guard ≠ constraints read) then _ ← write_shared guard; mret false
  else _ ← write_shared (set_config guard (set_mode (config guard) m)); mret true.
Fixpoint set_network_mode (m : NetworkMode) (interference : list (ConfigState → ConfigState)) : ProxyM unit :=
  match interference with
  | [] => _ ← mode_round m id; mret tt
  | between :: rest =>
      finished ← mode_round m between;
      if (finished : bool) then mret tt else set_network_mode m rest
  end.

(** ** Decisions *)

Definition emit_audit (e : PolicyAuditEvent) : ProxyM unit := λ w, (add_audit w e, Ok tt).

Definition evaluate_host_policy (decider : option (NetworkPolicyRequest → NetworkDecision)) (request : NetworkPolicyRequest) :
    ProxyM NetworkDecision :=
  host_decision ← host_blocked (host request) (port request);
  let '(decision, policy_override) :=
    match host_decision with
    | Allowed => (NetAllow, false)
    | Blocked NotAllowed =>
        match decider with
        | Some decide =>
            let decision := map_decider_decision (decide request) in
            (decision, match decision with NetAllow => true | NetDeny _ _ _ => false end)
        | None => (deny_with_source (block_reason_str NotAllowed) BaselinePolicy, false)
        end
    | Blocked reason => (deny_with_source (block_reason_str reason) BaselinePolicy, false)
    end in
  let '(policy_decision, source, reason) :=
    match decision with
    | NetAllow =>
        (lit "allow", if (policy_override : bool) then Decider else BaselinePolicy,
         if (policy_override : bool) then block_reason_str NotAllowed else lit "allow")
    | NetDeny reason source decision => (policy_decision_str decision, source, reason)
    end in
  _ ← emit_audit (MkAudit (lit "domain") policy_decision (source_str source) reason (protocol request) (host request)
        (port request) (unwrap_or (lit "none") (method request)) (unwrap_or (lit "unknown") (client_addr request)) policy_override);
  mret decision.

(** *** Sockets *)

Definition socket_entry_allows (requested_abs : str) (requested_canonical : option str) (allowed : str) : bool :=
  match parse_unix_socket_path allowed with
  | Some (Native path) =>
      path_eq path requested_abs
      || match requested_canonical, disk_canonicalize path with
         | Some requested, Some allowed => path_eq allowed requested
         | _, _ => false
         end
  | Some (UnixStyleAbsolute _) | None => false
  end.

(** [macos] says what the proxy was compiled for. *)
Definition is_unix_socket_allowed (macos : bool) (path : str) : ProxyM bool :=
  _ ← reload_if_needed;
  if negb macos then mret false
  else if negb (is_absolute path) then mret false
  else
    s ← read_shared;
    if dangerously_allow_all_unix_sockets (config s) then mret true
    else match absolute path with
         | None => mret false
         | Some requested_abs =>
             let requested_canonical := disk_canonicalize requested_abs in
             mret (existsb (socket_entry_allows requested_abs requested_canonical) (allow_unix_sockets (config s)))
         end.
End lib.
