(* ===== verification/NetHandlers.v ===== *)
(** What the network proxy does with a request: the handlers of
    [codex-rs/network-proxy/src/{http_proxy,socks5,mitm}.rs] with the responses of
    [responses.rs]. A handler ends in a response or an error, or passes the
    request on; the bytes that are passed on are left to the crates that carry
    them. *)
From S2P Require Import Prelude Json Paths Types Host AbsolutePath Permissions NetAddr IpAddresses HostPatterns NetConfig NetProxy.
From Stdlib Require Import ZArith Lia.
#[local] Open Scope nat_scope.

(** ** Responses *)

Definition blocked_header_value (reason : str) : str :=
  if (reason =s? REASON_NOT_ALLOWED) || (reason =s? REASON_NOT_ALLOWED_LOCAL) then lit "blocked-by-allowlist"
  else if reason =s? REASON_DENIED then lit "blocked-by-denylist"
  else if reason =s? REASON_METHOD_NOT_ALLOWED then lit "blocked-by-method-policy"
  else if reason =s? REASON_MITM_REQUIRED then lit "blocked-by-mitm-required"
  else lit "blocked-by-policy".

Definition blocked_message (reason : str) : str :=
  if reason =s? REASON_NOT_ALLOWED then lit "Domain not in allowlist."
  else if reason =s? REASON_NOT_ALLOWED_LOCAL then lit "Sandbox policy blocks local/private network addresses."
  else if reason =s? REASON_DENIED then lit "Domain denied by the sandbox policy."
  else if reason =s? REASON_METHOD_NOT_ALLOWED then lit "Method not allowed in limited mode."
  else if reason =s? REASON_MITM_REQUIRED then lit "MITM required for limited HTTPS."
  else if reason =s? REASON_PROXY_DISABLED then lit "network proxy is disabled"
  else lit "Request blocked by network policy.".

Record PolicyDecisionDetails := MkDetails {
  d_decision : NetworkPolicyDecision;
  d_reason : str;
  d_source : NetworkDecisionSource;
  d_protocol : NetworkProtocol;
  d_host : str;
  d_port : Z
}.
Definition blocked_message_with_policy (reason : str) (details : PolicyDecisionDetails) : str := blocked_message reason.

(** The body of a blocked request in JSON. *)
Record BlockedResponse := MkBlockedResponse {
  r_host : str;
  r_reason : str;
  r_decision : option str;
  r_source : option str;
  r_protocol : option str;
  r_port : option Z;
  r_message : option str
}.
Inductive Body : Type := TextBody (text : str) | JsonBody (json : BlockedResponse).
Record Response := MkResponse { status : nat; x_proxy_error : option str; body : Body }.

Definition text_response (status : nat) (body : str) : Response := MkResponse status None (TextBody body).
Definition blocked_text_response (reason : str) : Response :=
  MkResponse 403 (Some (blocked_header_value reason)) (TextBody (blocked_message reason)).
Definition blocked_text_response_with_policy (reason : str) (details : PolicyDecisionDetails) : Response :=
  MkResponse 403 (Some (blocked_header_value reason)) (TextBody (blocked_message_with_policy reason details)).
Definition internal_error : Response := text_response 500 (lit "error").
Definition json_blocked (host reason : str) (details : option PolicyDecisionDetails) : Response :=
  MkResponse 403 (Some (blocked_header_value reason))
    (JsonBody (MkBlockedResponse host reason (policy_decision_str ∘ d_decision <$> details) (source_str ∘ d_source <$> details)
                 (as_policy_protocol ∘ d_protocol <$> details) (d_port <$> details)
                 (blocked_message_with_policy reason <$> details))).

(** ** Requests *)

(** What [RequestContext::try_from] finds: the host, its port as written, the
    port in effect, and whether the authority has the default port. *)
Record RequestContext := MkContext {
  ctx_host : str;
  ctx_authority_port : option Z;
  ctx_port : Z;
  ctx_default_port : bool
}.
(** A request, with its headers by their names in lower case; a value that is not
    text is [None]. *)
Record HttpRequest := MkHttp {
  req_method : str;
  req_context : option RequestContext;
  req_has_scheme : bool;
  req_host_header : result unit (option (str * option Z));
  req_headers : list (str * option str);
  req_client : option str
}.
Definition header_get (name : str) (headers : list (str * option str)) : option (option str) :=
  snd <$> List.find (λ h, h.1 =s? name) headers.
Definition header_remove (name : str) (headers : list (str * option str)) : list (str * option str) :=
  List.filter (λ h, negb (h.1 =s? name)) headers.

Inductive HttpOutcome : Type :=
  | Respond (response : Response)
  | SendUpstream (from_env_proxy : bool) (headers : list (str * option str))
  | SendUnixSocket (path : str) (headers : list (str * option str)).
(** The extensions a tunnel starts with. *)
Inductive ConnectOutcome : Type :=
  | Refuse (response : Response)
  | Tunnel (target : str * Z) (mode : NetworkMode) (mitm : option MitmState).
Inductive TunnelOutcome : Type := InterceptTls | ForwardTunnel (from_env_proxy : bool).
Inductive SocksOutcome : Type := SocksInvalid | SocksDenied (message : str) | SocksError | SocksConnect.

(** [HeaderName::from_bytes]: names of tokens, in lower case. *)
Definition is_token_char (c : char) : bool :=
  is_ascii_alphanumeric c || existsb (N.eqb c) (lit "!#$%&'*+-.^_`|~").
Definition header_name (s : str) : option str :=
  if negb (is_empty s) && forallb is_token_char s then Some (to_ascii_lowercase s) else None.

Definition ch_comma : char := 44%N.
Definition remove_token (headers : list (str * option str)) (token : str) : list (str * option str) :=
  match header_name token with Some name => header_remove name headers | None => headers end.
Fixpoint remove_connection_headers (fuel : nat) (headers : list (str * option str)) : list (str * option str) :=
  match fuel with
  | O => headers
  | S fuel =>
      match header_get (lit "connection") headers with
      | None => headers
      | Some raw_connection =>
          let headers := header_remove (lit "connection") headers in
          remove_connection_headers fuel
            (match raw_connection with
             | Some raw =>
                 foldl remove_token headers
                   (List.filter (λ token, negb (is_empty token)) (trim <$> split_on ch_comma raw))
             | None => headers
             end)
      end
  end.
Definition hop_by_hop_names : list str :=
  [lit "keep-alive"; lit "proxy-connection"; lit "proxy-authorization"; lit "trailer"; lit "transfer-encoding"; lit "upgrade"; lit "te"].
Definition remove_hop_by_hop_request_headers (headers : list (str * option str)) : list (str * option str) :=
  foldl (λ hs name, header_remove name hs) (remove_connection_headers (S (length headers)) headers) hop_by_hop_names.

Section handlers.
Context {D : Disk} {L : NetLib} {HO : HashOrder} (macos : bool)
  (policy_decider : option (NetworkPolicyRequest → NetworkDecision)).

Definition validate_absolute_form_host_header (req : HttpRequest) (request_ctx : RequestContext) : result str unit :=
  let mismatch := Err (lit "Host header does not match request target") in
  if negb (req_has_scheme req) then Ok tt
  else match req_host_header req with
       | Err _ => Err (lit "invalid Host header")
       | Ok None => Ok tt
       | Ok (Some (header_host, header_port)) =>
           if negb (rama_host_eq header_host (ctx_host request_ctx)) then mismatch
           else match header_port with
                | Some host_port => if bool_decide (Some host_port = ctx_authority_port request_ctx) then Ok tt else mismatch
                | None => if ctx_default_port request_ctx then Ok tt else mismatch
                end
       end.

(** An event that is not about a domain. *)
Definition emit_non_domain (decision : str) (source : NetworkDecisionSource) (reason : str) (protocol : NetworkProtocol)
    (server_address : str) (server_port : Z) (method client : option str) : ProxyM unit :=
  emit_audit (MkAudit (lit "non_domain") decision (source_str source) reason protocol server_address server_port
    (unwrap_or (lit "none") method) (unwrap_or (lit "unknown") client) false).
Definition emit_block_decision_audit_event := emit_non_domain (lit "deny").
Definition emit_allow_decision_audit_event := emit_non_domain (lit "allow").

(** The record of a request that was blocked; that it cannot be made is ignored. *)
Definition record_denied (host reason : str) (client method : option str) (mode : option NetworkMode) (protocol : str)
    (decision : NetworkPolicyDecision) (source : NetworkDecisionSource) (port : Z) : ProxyM unit :=
  entry ← blocked_request host reason client method mode protocol (Some (policy_decision_str decision))
            (Some (source_str source)) (Some port);
  _ ← attempt (record_blocked entry);
  mret tt.

Definition proxy_disabled_response (host : str) (port : Z) (client method : option str) (protocol : NetworkProtocol)
    (audit_endpoint_override : option (str * Z)) : ProxyM Response :=
  let '(audit_server_address, audit_server_port) := default (host, port) audit_endpoint_override in
  _ ← emit_block_decision_audit_event ProxyState REASON_PROXY_DISABLED protocol audit_server_address audit_server_port method client;
  _ ← record_denied host REASON_PROXY_DISABLED client method None (as_policy_protocol protocol) PolicyDeny ProxyState port;
  mret (text_response 503 (blocked_message_with_policy REASON_PROXY_DISABLED
          (MkDetails PolicyDeny REASON_PROXY_DISABLED ProxyState protocol host port))).

(** *** CONNECT *)

Definition http_connect_accept (req : HttpRequest) : ProxyM ConnectOutcome :=
  let connect := Some (lit "CONNECT") in
  match req_context req with
  | None => mret (Refuse (text_response 400 (lit "missing authority")))
  | Some authority =>
      let host := normalize_host (ctx_host authority) in
      let port := ctx_port authority in
      if is_empty host then mret (Refuse (text_response 400 (lit "invalid host")))
      else
        let client := req_client req in
        enabled ← attempt proxy_enabled;
        match enabled with
        | Err _ => mret (Refuse internal_error)
        | Ok false =>
            response ← proxy_disabled_response host port client connect HttpsConnect None;
            mret (Refuse response)
        | Ok true =>
            decision ← attempt (evaluate_host_policy policy_decider (MkRequest HttpsConnect host port client connect None None));
            match decision with
            | Err _ => mret (Refuse (text_response 500 (lit "error")))
            | Ok (NetDeny reason source decision) =>
                let details := MkDetails decision reason source HttpsConnect host port in
                _ ← record_denied host reason client connect None (lit "http-connect") decision source port;
                mret (Refuse (blocked_text_response_with_policy reason details))
            | Ok NetAllow =>
                mode ← attempt network_mode;
                match mode with
                | Err _ => mret (Refuse internal_error)
                | Ok mode =>
                    mitm ← attempt current_mitm_state;
                    match mitm with
                    | Err _ => mret (Refuse (text_response 500 (lit "error")))
                    | Ok mitm =>
                        if bool_decide (mode = Limited) && negb (is_some_b mitm) then
                          _ ← emit_block_decision_audit_event ModeGuard REASON_MITM_REQUIRED HttpsConnect host port connect client;
                          let details := MkDetails PolicyDeny REASON_MITM_REQUIRED ModeGuard HttpsConnect host port in
                          _ ← record_denied host REASON_MITM_REQUIRED client connect (Some Limited) (lit "http-connect")
                                PolicyDeny ModeGuard port;
                          mret (Refuse (blocked_text_response_with_policy REASON_MITM_REQUIRED details))
                        else mret (Tunnel (ctx_host authority, port) mode mitm)
                    end
                end
            end
        end
  end.

(** What becomes of a tunnel; without a mode the mode is full. *)
Definition http_connect_proxy (mode : NetworkMode) (mitm : option MitmState) : ProxyM TunnelOutcome :=
  if bool_decide (mode = Limited) && is_some_b mitm then mret InterceptTls
  else
    allow_upstream_proxy ← attempt upstream_proxy_allowed;
    mret (ForwardTunnel (match allow_upstream_proxy with Ok allowed => allowed | Err _ => false end)).

(** *** Requests inside an intercepted tunnel *)

Record MitmPolicyContext := MkMitmPolicy { target_host : str; target_port : Z; mitm_mode : NetworkMode }.
(** The context that [mitm_tunnel] makes of a tunnel. *)
Definition mitm_policy (target : str * Z) (mode : NetworkMode) : MitmPolicyContext :=
  MkMitmPolicy (normalize_host target.1) target.2 mode.

Definition mitm_record (policy : MitmPolicyContext) (reason : str) (client : option str) (method : str) : ProxyM unit :=
  entry ← blocked_request (target_host policy) reason client (Some method) (Some (mitm_mode policy)) (lit "https") None None
            (Some (target_port policy));
  _ ← attempt (record_blocked entry);
  mret tt.

Definition mitm_blocking_response (method : str) (request_host client : option str) (policy : MitmPolicyContext) :
    ProxyM (option Response) :=
  if method =s? lit "CONNECT" then mret (Some (text_response 405 (lit "CONNECT not supported inside MITM")))
  else
    let mismatch :=
      match request_host with
      | Some request_host =>
          let normalized := normalize_host request_host in
          negb (is_empty normalized) && negb (normalized =s? target_host policy)
      | None => false
      end in
    if mismatch then mret (Some (text_response 400 (lit "host mismatch")))
    else
      decision ← host_blocked (target_host policy) (target_port policy);
      match decision with
      | Blocked NotAllowedLocal =>
          _ ← mitm_record policy (block_reason_str NotAllowedLocal) client method;
          mret (Some (blocked_text_response (block_reason_str NotAllowedLocal)))
      | _ =>
          if negb (allows_method (mitm_mode policy) method) then
            _ ← mitm_record policy REASON_METHOD_NOT_ALLOWED client method;
            mret (Some (blocked_text_response REASON_METHOD_NOT_ALLOWED))
          else mret None
      end.

Definition authority_header_value (host : str) (port : Z) : str :=
  let port_text := [ch_colon] ++ show_N (Z.to_N port) in
  if contains_char ch_colon host then
    [ch_lbracket] ++ host ++ [ch_rbracket] ++ (if (port =? 443)%Z then [] else port_text)
  else if (port =? 443)%Z then host else host ++ port_text.

(** *** Plain requests *)

Definition proxy_via_unix_socket (req : HttpRequest) (socket_path : str) : HttpOutcome :=
  if macos then SendUnixSocket socket_path (remove_hop_by_hop_request_headers (header_remove (lit "x-unix-socket") (req_headers req)))
  else Respond (text_response 502 (lit "unix socket proxy failed")).

Definition http_unix_socket (req : HttpRequest) (method_allowed : bool) (header : option str) : ProxyM HttpOutcome :=
  let client := req_client req in
  let method := Some (req_method req) in
  let block := emit_block_decision_audit_event in
  match header with
  | None => mret (Respond (text_response 400 (lit "invalid x-unix-socket header")))
  | Some socket_path =>
      enabled ← attempt proxy_enabled;
      match enabled with
      | Err _ => mret (Respond internal_error)
      | Ok false =>
          response ← proxy_disabled_response socket_path 0 client method Http (Some (lit "unix-socket", 0%Z));
          mret (Respond response)
      | Ok true =>
          if negb method_allowed then
            _ ← block ModeGuard REASON_METHOD_NOT_ALLOWED Http (lit "unix-socket") 0%Z method client;
            mret (Respond (json_blocked (lit "unix-socket") REASON_METHOD_NOT_ALLOWED None))
          else if negb macos then
            _ ← block ProxyState REASON_UNIX_SOCKET_UNSUPPORTED Http (lit "unix-socket") 0%Z method client;
            mret (Respond (text_response 501 (lit "unix sockets unsupported")))
          else
            allowed ← attempt (is_unix_socket_allowed macos socket_path);
            match allowed with
            | Ok true =>
                _ ← emit_allow_decision_audit_event ProxyState (lit "allow") Http (lit "unix-socket") 0%Z method client;
                mret (proxy_via_unix_socket req socket_path)
            | Ok false =>
                _ ← block ProxyState REASON_NOT_ALLOWED Http (lit "unix-socket") 0%Z method client;
                mret (Respond (json_blocked (lit "unix-socket") REASON_NOT_ALLOWED None))
            | Err _ => mret (Respond (text_response 500 (lit "error")))
            end
      end
  end.

Definition http_to_host (req : HttpRequest) (method_allowed : bool) : ProxyM HttpOutcome :=
  let client := req_client req in
  let method := Some (req_method req) in
  match req_context req with
  | None => mret (Respond (text_response 400 (lit "missing host")))
  | Some request_ctx =>
      let host := normalize_host (ctx_host request_ctx) in
      let port := ctx_port request_ctx in
      match validate_absolute_form_host_header req request_ctx with
      | Err reason => mret (Respond (text_response 400 reason))
      | Ok _ =>
          enabled ← attempt proxy_enabled;
          match enabled with
          | Err _ => mret (Respond internal_error)
          | Ok false =>
              response ← proxy_disabled_response host port client method Http None;
              mret (Respond response)
          | Ok true =>
              decision ← attempt (evaluate_host_policy policy_decider (MkRequest Http host port client method None None));
              match decision with
              | Err _ => mret (Respond (text_response 500 (lit "error")))
              | Ok (NetDeny reason source decision) =>
                  _ ← record_denied host reason client method None (lit "http") decision source port;
                  mret (Respond (json_blocked host reason (Some (MkDetails decision reason source Http host port))))
              | Ok NetAllow =>
                  if negb method_allowed then
                    _ ← emit_block_decision_audit_event ModeGuard REASON_METHOD_NOT_ALLOWED Http host port method client;
                    _ ← record_denied host REASON_METHOD_NOT_ALLOWED client method (Some Limited) (lit "http") PolicyDeny ModeGuard port;
                    mret (Respond (json_blocked host REASON_METHOD_NOT_ALLOWED
                            (Some (MkDetails PolicyDeny REASON_METHOD_NOT_ALLOWED ModeGuard Http host port))))
                  else
                    upstream ← attempt upstream_proxy_allowed;
                    match upstream with
                    | Err _ => mret (Respond internal_error)
                    | Ok from_env => mret (SendUpstream from_env (remove_hop_by_hop_request_headers (req_headers req)))
                    end
              end
          end
      end
  end.

Definition http_plain_proxy (req : HttpRequest) : ProxyM HttpOutcome :=
  allowed ← attempt (method_allowed (req_method req));
  match allowed with
  | Err _ => mret (Respond internal_error)
  | Ok allowed =>
      match header_get (lit "x-unix-socket") (req_headers req) with
      | Some header => http_unix_socket req allowed header
      | None => http_to_host req allowed
      end
  end.

(** *** SOCKS *)

(** The handlers for TCP and UDP differ in the name of the protocol. *)
Definition socks_name (protocol : NetworkProtocol) : str :=
  match protocol with Socks5Udp => lit "socks5-udp" | _ => lit "socks5" end.

Definition socks_denied (protocol : NetworkProtocol) (host : str) (port : Z) (client : option str) (reason : str)
    (source : NetworkDecisionSource) (decision : NetworkPolicyDecision) (mode : option NetworkMode) : ProxyM SocksOutcome :=
  _ ← record_denied host reason client None mode (socks_name protocol) decision source port;
  mret (SocksDenied (blocked_message_with_policy reason (MkDetails decision reason source protocol host port))).

Definition handle_socks5 (protocol : NetworkProtocol) (authority_host : str) (port : Z) (client : option str) : ProxyM SocksOutcome :=
  let host := normalize_host authority_host in
  if is_empty host then mret SocksInvalid
  else
    enabled ← attempt proxy_enabled;
    match enabled with
    | Err _ => mret SocksError
    | Ok false =>
        _ ← emit_block_decision_audit_event ProxyState REASON_PROXY_DISABLED protocol host port None client;
        socks_denied protocol host port client REASON_PROXY_DISABLED ProxyState PolicyDeny None
    | Ok true =>
        mode ← attempt network_mode;
        match mode with
        | Err _ => mret SocksError
        | Ok Limited =>
            _ ← emit_block_decision_audit_event ModeGuard REASON_METHOD_NOT_ALLOWED protocol host port None client;
            socks_denied protocol host port client REASON_METHOD_NOT_ALLOWED ModeGuard PolicyDeny (Some Limited)
        | Ok Full =>
            decision ← attempt (evaluate_host_policy policy_decider (MkRequest protocol host port client None None None));
            match decision with
            | Err _ => mret SocksError
            | Ok (NetDeny reason source decision) => socks_denied protocol host port client reason source decision None
            | Ok NetAllow => mret SocksConnect
            end
        end
    end.
Definition handle_socks5_tcp : str → Z → option str → ProxyM SocksOutcome := handle_socks5 Socks5Tcp.
(** A datagram goes to an address. *)
Definition inspect_socks5_udp (ip_addr : IpAddr) (port : Z) (client : option str) : ProxyM SocksOutcome :=
  handle_socks5 Socks5Udp (show_ip ip_addr) port client.
End handlers.

(** ** Headers that are not passed on *)

Definition connection_tokens (raw : option str) : list str :=
  match raw with Some raw => List.filter (λ token, negb (is_empty token)) (trim <$> split_on ch_comma raw) | None => [] end.
(** The headers that the first [Connection] header names. *)
Definition connection_names (headers : list (str * option str)) : list str :=
  match header_get (lit "connection") headers with Some raw => omap header_name (connection_tokens raw) | None => [] end.

Lemma header_remove_elem name headers h : h ∈ header_remove name headers ↔ h ∈ headers ∧ h.1 ≠ name.
Proof. unfold header_remove. by rewrite list_elem_of_In filter_In -list_elem_of_In negb_true_iff str_eqb_neq. Qed.
Lemma remove_tokens_elem tokens headers h :
  h ∈ foldl remove_token headers tokens ↔ h ∈ headers ∧ h.1 ∉ omap header_name tokens.
Proof.
  revert headers. induction tokens as [|t ts IH]; intros headers; cbn; first set_solver.
  rewrite IH. unfold remove_token. destruct (header_name t) as [n|]; last set_solver.
  rewrite header_remove_elem. set_solver.
Qed.
Lemma header_get_none name headers : header_get name headers = None ↔ ∀ h, h ∈ headers → h.1 ≠ name.
Proof.
  unfold header_get. destruct (List.find (λ h, h.1 =s? name) headers) as [h|] eqn:E; cbn.
  - apply find_some in E as [Hin Heq%str_eqb_eq]. split; first done. intros Hno. by destruct (Hno h); first apply list_elem_of_In.
  - split; last done. intros _ h Hin Heq. eapply find_none in E; [|by apply list_elem_of_In]. by apply str_eqb_neq in E.
Qed.

(** One round is all the loop takes. *)
Lemma remove_connection_headers_elem fuel headers h :
  h ∈ remove_connection_headers (S fuel) headers
  ↔ h ∈ headers ∧ h.1 ≠ lit "connection" ∧ h.1 ∉ connection_names headers.
Proof.
  cbn [remove_connection_headers]. unfold connection_names.
  destruct (header_get (lit "connection") headers) as [raw|] eqn:E; last first.
  { rewrite header_get_none in E. split; [|naive_solver]. intros Hin. split; first done. split; [by apply E|apply not_elem_of_nil]. }
  assert (∀ f hs, (∀ h, h ∈ hs → h.1 ≠ lit "connection") → remove_connection_headers f hs = hs) as Hdone.
  { intros f hs Hno%header_get_none. destruct f; first done. cbn. by rewrite Hno. }
  assert ((match raw with
          | Some raw => foldl remove_token (header_remove (lit "connection") headers)
              (List.filter (λ token, negb (is_empty token)) (trim <$> split_on ch_comma raw))
          | None => header_remove (lit "connection") headers
          end) = foldl remove_token (header_remove (lit "connection") headers) (connection_tokens raw)) as ->; first by destruct raw.
  rewrite Hdone; first by intros x; rewrite remove_tokens_elem header_remove_elem; naive_solver.
  rewrite remove_tokens_elem header_remove_elem. naive_solver.
Qed.

Lemma remove_names_elem names hs h : h ∈ foldl (λ hs name, header_remove name hs) hs names ↔ h ∈ hs ∧ h.1 ∉ names.
Proof. revert hs. induction names as [|n ns IH]; intros hs; cbn; first set_solver. rewrite IH header_remove_elem. set_solver. Qed.

(** What is passed on: all but the headers of one hop and those that the first
    [Connection] header names. *)
Theorem hop_by_hop_headers_are_removed headers h :
  h ∈ remove_hop_by_hop_request_headers headers
  ↔ h ∈ headers ∧ (h.1 ∉ (lit "connection" :: hop_by_hop_names)) ∧ (h.1 ∉ connection_names headers).
Proof.
  unfold remove_hop_by_hop_request_headers. rewrite remove_names_elem remove_connection_headers_elem. set_solver.
Qed.

Lemma token_named name : header_name name = Some name → omap header_name (connection_tokens (Some name)) = [name].
Proof.
  intros Hn. assert (name ≠ [] ∧ ∀ c, c ∈ name → is_token_char c = true) as [Hne Hall].
  { unfold header_name in Hn. destruct (negb (is_empty name) && forallb is_token_char name) eqn:E; last done.
    apply andb_true_iff in E as [He%negb_true_iff%is_empty_false Hf]. split; first done. intros c Hc.
    by eapply forallb_forall in Hf; [|apply list_elem_of_In]. }
  assert (∀ c, c ∈ name → is_whitespace c = false) as Hws.
  { intros c Hc%Hall. apply not_true_iff_false. intros Hw.
    assert (is_token_char c = true → (33 <= c <= 126)%N) as Hr.
    { unfold is_token_char. intros [Ha|Hex]%orb_true_iff.
      - unfold is_ascii_alphanumeric, is_ascii_alphabetic, is_ascii_upper, is_ascii_lower, is_ascii_digit, in_range in Ha.
        rewrite !orb_true_iff !andb_true_iff !N.leb_le in Ha. lia.
      - apply existsb_exists in Hex as (x & Hx%list_elem_of_In & ->%N.eqb_eq). clear -Hx. revert x Hx.
        apply Forall_forall, (bool_decide_unpack _). vm_compute. exact I. }
    specialize (Hr Hc). unfold is_whitespace, in_range in Hw.
    rewrite !orb_true_iff !andb_true_iff !N.leb_le !N.eqb_eq in Hw. lia. }
  unfold connection_tokens. rewrite split_on_none; first by intros Hc%Hall.
  cbn [fmap list_fmap]. rewrite trim_id; [by intros c r ->; apply Hws; set_solver | by intros r c ->; apply Hws; set_solver|].
  cbn [List.filter]. rewrite (proj2 (is_empty_false name) Hne). cbn. by rewrite Hn.
Qed.

(** Later [Connection] headers go before the loop has read them: what they name
    is passed on. *)
Theorem later_connection_headers_are_not_read first_value name value :
  header_name name = Some name → name ∉ (lit "connection" :: hop_by_hop_names) →
  name ∉ omap header_name (connection_tokens (Some first_value)) →
  let headers := [(lit "connection", Some first_value); (lit "connection", Some name); (name, Some value)] in
  name ∈ omap header_name (connection_tokens (Some name)) ∧ (name, Some value) ∈ remove_hop_by_hop_request_headers headers.
Proof.
  intros Hn Hname Hfirst. cbn zeta. rewrite token_named //. split; first set_solver.
  unfold remove_hop_by_hop_request_headers. rewrite remove_names_elem remove_connection_headers_elem.
  split; last set_solver. split; first set_solver. split; first set_solver. exact Hfirst.
Qed.
