(* ===== verification/NetSafety.v ===== *)
(** Where the requests of the network proxy go: only to hosts that the settings in
    force allow, whatever is reloaded in between; never to a denied domain or to
    an address that is not public; in limited mode nothing is written. *)
From S2P Require Import Prelude Json Paths Types Host AbsolutePath Permissions Access NetAddr IpAddresses HostPatterns NetConfig NetProxy NetHandlers.
From Stdlib Require Import ZArith Lia.
#[local] Open Scope nat_scope.

(** ** Settings in force *)

(** The settings a task may read from now on: those behind the lock, and those
    that may be reloaded, up to the record of blocked requests. *)
Definition same_settings (s s' : ConfigState) : Prop :=
  config s = config s' ∧ allow_set s = allow_set s' ∧ deny_set s = deny_set s' ∧ mitm_state s = mitm_state s'
  ∧ constraints s = constraints s'.
Definition in_force (w : World) (s : ConfigState) : Prop :=
  same_settings s (shared w) ∨ ∃ s', Ok (Some s') ∈ reloads w ∧ same_settings s s'.
(** The machine goes on: what is in force was in force, and the names that will
    be looked up get the answers that are left. *)
Definition follows (w w' : World) : Prop :=
  (∀ s, in_force w' s → in_force w s) ∧ (∀ a, a ∈ lookups w' → a ∈ lookups w).

#[global] Instance same_settings_equiv : Equivalence same_settings.
Proof. unfold same_settings. split; [intros ?|intros ? ? ?|intros ? ? ?]; intuition congruence. Qed.
#[global] Instance follows_preorder : PreOrder follows.
Proof. split; [by intros w|]. intros a b c [H1 H2] [H3 H4]. split; auto. Qed.

Lemma in_force_shared w : in_force w (shared w).
Proof. by left. Qed.

(** An operation that only reads settings. *)
Definition reads_settings {A} (m : ProxyM A) : Prop := ∀ w w' r, m w = (w', r) → follows w w'.

Lemma reads_ret {A} (a : A) : reads_settings (mret a).
Proof. by intros w w' r [= <- _]. Qed.
Lemma reads_bind {A B} (m : ProxyM A) (f : A → ProxyM B) :
  reads_settings m → (∀ a, reads_settings (f a)) → reads_settings (m ≫= f).
Proof.
  intros Hm Hf w w' r. unfold mbind, ProxyM_bind. destruct (m w) as [w1 [a|e]] eqn:E.
  - intros Hf'. etrans; [by eapply Hm|by eapply Hf].
  - intros [= <- _]. by eapply Hm.
Qed.
Lemma reads_attempt {A} (m : ProxyM A) : reads_settings m → reads_settings (attempt m).
Proof. intros Hm w w' r. unfold attempt. destruct (m w) as [w1 r1] eqn:E. intros [= <- _]. by eapply Hm. Qed.
Lemma reads_if {A} (b : bool) (m n : ProxyM A) : reads_settings m → reads_settings n → reads_settings (if b then m else n).
Proof. by destruct b. Qed.
Lemma reads_shared : reads_settings read_shared.
Proof. by intros w w' r [= <- _]. Qed.
Lemma reads_reload : reads_settings reload_if_needed.
Proof.
  intros w w' r. unfold reload_if_needed. destruct (reloads w) as [|[[s|]|e] rest] eqn:E; intros [= <- _]; first done;
    (split; last done); intros s' [Hs|(s'' & Hin & Hs)]; cbn in *.
  - right. exists s. rewrite E. split; [by left|done].
  - right. exists s''. rewrite E. split; [by right|done].
  - by left.
  - right. exists s''. rewrite E. split; [by right|done].
  - by left.
  - right. exists s''. rewrite E. split; [by right|done].
Qed.
Lemma reads_current A f : reads_settings (current A f).
Proof. repeat (apply reads_bind; [first [apply reads_reload | apply reads_shared]|intros ?]). apply reads_ret. Qed.
Lemma reads_audit e : reads_settings (emit_audit e).
Proof. by intros w w' r [= <- _]. Qed.
Lemma reads_notify entry : reads_settings (notify_observer entry).
Proof. intros w w' r [= <- _]. by destruct (observer w). Qed.
Lemma reads_lookup host port : reads_settings (lookup_host host port).
Proof.
  intros w w' r. unfold lookup_host. destruct (lookups w) as [|a rest] eqn:E; intros [= <- _]; first done.
  split; first by intros s. intros a' Ha. cbn in Ha. rewrite E. by right.
Qed.
Lemma reads_record entry : reads_settings (record_blocked entry).
Proof.
  apply reads_bind; first apply reads_reload. intros []. 
  intros w w' r. cbn. unfold notify_observer. intros [= <- _]. cbn.
  destruct (observer w); (split; last done); (intros s [Hs|Hs]; [left; etrans; [exact Hs|done]|by right]).
Qed.
Lemma reads_blocked_request a b c d e f g h i : reads_settings (blocked_request a b c d e f g h i).
Proof. by intros w w' r [= <- _]. Qed.

Create HintDb reads.
#[export] Hint Resolve reads_ret reads_bind reads_attempt reads_if reads_shared reads_reload reads_current reads_audit
  reads_notify reads_lookup reads_record reads_blocked_request : reads.

(** Case analysis on the code of a handler. *)
Ltac reads_tac :=
  intros;
  repeat (progress cbn beta zeta iota || (apply reads_bind; [|intros ?]) || apply reads_ret
          || match goal with |- reads_settings (match ?x with _ => _ end) => destruct x end);
  eauto with reads.

Section facts.
Context {D : Disk} {L : NetLib} {HO : HashOrder}.

Lemma reads_host_blocked host port : reads_settings (host_blocked host port).
Proof. unfold host_blocked, host_resolves_to_non_public_ip. reads_tac. Qed.
Lemma reads_evaluate decider request : reads_settings (evaluate_host_policy decider request).
Proof. unfold evaluate_host_policy. apply reads_bind; [apply reads_host_blocked|]. reads_tac. Qed.
End facts.
#[export] Hint Resolve reads_host_blocked reads_evaluate : reads.

(** ** What a host has to pass *)

(** The check of local addresses: they are allowed, or the host is such an
    address and listed as it is, or every address that was found for it is public. *)
Definition resolved_public (w : World) (h : str) (port : Z) : Prop :=
  ∃ resolver ips, resolver ∈ lookups w ∧ resolver h port = Resolved ips ∧ Forall (λ ip, is_non_public_ip ip = false) ips.
Definition local_checked (s : ConfigState) (w : World) (h : str) (port : Z) : Prop :=
  allow_local_binding (config s) = true ∨
  if is_local_literal h then is_explicit_local_allowlisted (default [] (allowed_domains (config s))) h = true
  else match parse_ip h with
       | Some ip => is_non_public_ip ip = false
       | None => resolved_public w h port
       end.
Definition allowlisted `{NetLib} (s : ConfigState) (h : str) : Prop :=
  allowed_domains (config s) ≠ None ∧ is_match (allow_set s) h = true.
(** Not denied, and not local. *)
Definition host_checked `{NetLib} (w : World) (s : ConfigState) (h : str) (port : Z) : Prop :=
  in_force w s ∧ is_match (deny_set s) h = false ∧ local_checked s w h port.

(** Some settings in force let the host pass, or do not list it and the decider
    lets it pass; a host without a name only passes by the decider. *)
Definition host_permitted `{NetLib} (decider : option (NetworkPolicyRequest → NetworkDecision)) (w : World)
    (request : NetworkPolicyRequest) : Prop :=
  let decided := ∃ decide, decider = Some decide ∧ decide request = NetAllow in
  match Host_parse (host request) with
  | Some h => ∃ s, host_checked w s h (port request) ∧ (allowlisted s h ∨ decided)
  | None => decided
  end.

Lemma follows_in_force w w' s : follows w w' → in_force w' s → in_force w s.
Proof. intros [H _]. apply H. Qed.
Lemma resolved_public_follows w w' h port : follows w w' → resolved_public w' h port → resolved_public w h port.
Proof. intros [_ Ha] (resolver & ips & Hr & Hips). exists resolver, ips. split; last done. by apply Ha. Qed.
Lemma bind_ok {A B} (m : ProxyM A) (f : A → ProxyM B) w w' b :
  (m ≫= f) w = (w', Ok b) → ∃ w1 a, m w = (w1, Ok a) ∧ f a w1 = (w', Ok b).
Proof. unfold mbind, ProxyM_bind. destruct (m w) as [w1 [a|e]]; last done. intros H. by exists w1, a. Qed.
Lemma current_ok A f w w' a : current A f w = (w', Ok a) → ∃ s, in_force w s ∧ a = f s.
Proof.
  intros (w1 & [] & Hr & (w2 & s & [= <- <-] & [= <- <-])%bind_ok)%bind_ok. exists (shared w1). split; last done.
  eapply follows_in_force; [by eapply reads_reload|apply in_force_shared].
Qed.
Lemma attempt_ok {A} (m : ProxyM A) w w' r : attempt m w = (w', r) → ∃ r', r = Ok r' ∧ m w = (w', r').
Proof. unfold attempt. destruct (m w) as [w1 r1]. intros [= <- <-]. by exists r1. Qed.

Section decisions.
Context {D : Disk} {L : NetLib} {HO : HashOrder}.

Lemma resolves_public h port w w' : host_resolves_to_non_public_ip h port w = (w', Ok false) →
  match parse_ip h with
  | Some ip => is_non_public_ip ip = false
  | None => resolved_public w h port
  end.
Proof.
  unfold host_resolves_to_non_public_ip. destruct (parse_ip h) as [ip|]; first by intros [= _ ->].
  intros (w1 & a & Hl & Ha)%bind_ok. unfold lookup_host in Hl. destruct (lookups w) as [|resolver rest] eqn:E; simplify_eq.
  destruct (resolver h port) as [ips| |] eqn:Hr; simplify_eq/=. exists resolver, ips. split; [rewrite E; by left|]. split; first done.
  injection Ha as _ Ha. apply Forall_forall. intros ip Hip. apply not_true_iff_false. intros Hn.
  apply not_true_iff_false in Ha. apply Ha. apply existsb_exists. exists ip. by rewrite list_elem_of_In in Hip.
Qed.

(** A host that is not blocked, or blocked only because it is not listed, is
    neither denied nor local. *)
Lemma host_blocked_checked h0 port w w' decision : host_blocked h0 port w = (w', Ok decision) →
  decision = Allowed ∨ decision = Blocked NotAllowed →
  match Host_parse h0 with
  | Some h => ∃ s, host_checked w s h port ∧ (decision = Allowed → allowlisted s h)
  | None => decision = Blocked NotAllowed
  end.
Proof.
  unfold host_blocked. intros (w1 & [] & Hr%reads_reload & H)%bind_ok Hdec.
  destruct (Host_parse h0) as [h|]; last by injection H.
  apply bind_ok in H as (w2 & s & [= <- <-] & H). cbn zeta in H.
  destruct (is_match (deny_set (shared w1)) h) eqn:Hdeny; first by simplify_eq/=; naive_solver.
  assert (∀ d, allowlist_decision (negb (is_some_b (allowed_domains (config (shared w1))))) (is_match (allow_set (shared w1)) h) = d →
    d = Allowed → allowlisted (shared w1) h) as Hallow.
  { intros d <-. unfold allowlist_decision, allowlisted.
    destruct (allowed_domains (config (shared w1))), (is_match (allow_set (shared w1)) h); done. }
  exists (shared w1).
  assert (in_force w (shared w1)) as Hin by (eapply follows_in_force; [done|apply in_force_shared]).
  destruct (allow_local_binding (config (shared w1))) eqn:Hlocal; cbn [negb] in H.
  { injection H as _ H. split; last by eauto. split_and!; try done. by left. }
  destruct (is_local_literal h) eqn:Hlit.
  - destruct (is_explicit_local_allowlisted (default [] (allowed_domains (config (shared w1)))) h) eqn:Hex; cbn [negb] in H;
      last by simplify_eq/=; naive_solver.
    injection H as _ H. split; last by eauto. split_and!; try done. right. by rewrite Hlit.
  - apply bind_ok in H as (w3 & [] & Hres & H); first by simplify_eq/=; naive_solver.
    injection H as _ H. split; last by eauto. split_and!; try done. right. rewrite Hlit.
    apply resolves_public in Hres. destruct (parse_ip h); first done. by eapply resolved_public_follows.
Qed.

(** A request that the policy allows is permitted. *)
Lemma evaluate_allows decider request w w' : evaluate_host_policy decider request w = (w', Ok NetAllow) →
  host_permitted decider w request.
Proof.
  unfold evaluate_host_policy, host_permitted. intros (w1 & d & Hb & H)%bind_ok. cbn zeta.
  pose proof (host_blocked_checked _ _ _ _ _ Hb) as Hcheck.
  destruct d as [|[]].
  - specialize (Hcheck (or_introl eq_refl)). destruct (Host_parse (host request)); last done. naive_solver.
  - by apply bind_ok in H as (? & [] & _ & [= _]).
  - specialize (Hcheck (or_intror eq_refl)).
    assert (∃ decide, decider = Some decide ∧ decide request = NetAllow) as Hdecide.
    { destruct decider as [decide|]; last by apply bind_ok in H as (? & [] & _ & [= _]). exists decide. split; first done.
      destruct (decide request); first done. by apply bind_ok in H as (? & [] & _ & [= _]). }
    destruct (Host_parse (host request)); last done. naive_solver.
  - by apply bind_ok in H as (? & [] & _ & [= _]).
Qed.
End decisions.

(** ** Where requests go *)

Section passing.
Context {D : Disk} {L : NetLib} {HO : HashOrder} (macos : bool) (decider : option (NetworkPolicyRequest → NetworkDecision)).

(** A request that one of the handlers passes on, from the machine [w]; one inside an
    intercepted tunnel, later, goes to the host the tunnel was opened for, and passes for the
    request that opened it. *)
Inductive passes (w : World) : NetworkPolicyRequest → Prop :=
  | passes_http req ctx w' from_env headers :
      http_plain_proxy macos decider req w = (w', Ok (SendUpstream from_env headers)) → req_context req = Some ctx →
      passes w (MkRequest Http (normalize_host (ctx_host ctx)) (ctx_port ctx) (req_client req) (Some (req_method req)) None None)
  | passes_connect req ctx w' target m mitm :
      http_connect_accept decider req w = (w', Ok (Tunnel target m mitm)) → req_context req = Some ctx →
      passes w (MkRequest HttpsConnect (normalize_host (ctx_host ctx)) (ctx_port ctx) (req_client req)
                  (Some (lit "CONNECT")) None None)
  | passes_socks protocol authority_host port client w' :
      handle_socks5 decider protocol authority_host port client w = (w', Ok SocksConnect) →
      passes w (MkRequest protocol (normalize_host authority_host) port client None None None)
  | passes_inner req ctx w1 target m mitm w2 w3 method request_host client :
      http_connect_accept decider req w = (w1, Ok (Tunnel target m mitm)) → req_context req = Some ctx → follows w1 w2 →
      mitm_blocking_response method request_host client (mitm_policy target m) w2 = (w3, Ok None) →
      passes w (MkRequest HttpsConnect (target_host (mitm_policy target m)) (target_port (mitm_policy target m)) (req_client req)
                  (Some (lit "CONNECT")) None None).

Lemma host_checked_follows w w1 s h port : follows w w1 → host_checked w1 s h port → host_checked w s h port.
Proof.
  intros Hf (Hin & Hd & Hl). split; first by eapply follows_in_force. split; first done.
  destruct Hl as [Hl|Hl]; first by left. right. destruct (is_local_literal h); first done. destruct (parse_ip h); first done.
  by eapply resolved_public_follows.
Qed.
Lemma host_permitted_follows w w1 r : follows w w1 → host_permitted decider w1 r → host_permitted decider w r.
Proof.
  intros Hf. unfold host_permitted. destruct (Host_parse (host r)) as [h|]; last done.
  intros (s & Hs & Hd). exists s. split; last done. by eapply host_checked_follows.
Qed.


Lemma http_to_host_sends req allowed w w' env hs :
  http_to_host decider req allowed w = (w', Ok (SendUpstream env hs)) →
  ∃ ctx, req_context req = Some ctx ∧ allowed = true
    ∧ (∃ s, in_force w s ∧ enabled (config s) = true)
    ∧ host_permitted decider w (MkRequest Http (normalize_host (ctx_host ctx)) (ctx_port ctx) (req_client req) (Some (req_method req)) None None)
    ∧ hs = remove_hop_by_hop_request_headers (req_headers req).
Proof.
  unfold http_to_host. destruct (req_context req) as [ctx|]; last done. cbn zeta.
  destruct (validate_absolute_form_host_header req ctx); last done. intros H.
  apply bind_ok in H as (w1 & en & He & H). apply attempt_ok in He as (en' & [= ->] & He).
  assert (follows w w1) as Hf1 by (by eapply reads_current).
  destruct en' as [[]|]; [|by apply bind_ok in H as (? & ? & _ & [= _])|done].
  apply current_ok in He as (s & Hs & Hen).
  apply bind_ok in H as (w2 & d & Hd & H). apply attempt_ok in Hd as (d' & [= ->] & Hd).
  destruct d' as [[|reason source decision]|]; [|by apply bind_ok in H as (? & ? & _ & [= _])|done].
  apply evaluate_allows in Hd.
  destruct allowed; last first.
  { cbn [negb] in H. apply bind_ok in H as (? & ? & _ & H). by apply bind_ok in H as (? & ? & _ & [= _]). }
  cbn [negb] in H. apply bind_ok in H as (w3 & u & Hu & H). apply attempt_ok in Hu as (u' & [= ->] & Hu).
  destruct u'; last done. injection H as _ _ <-. exists ctx. split_and!; try done.
  - by exists s.
  - by eapply host_permitted_follows.
Qed.

Lemma http_unix_socket_not_upstream req allowed header w w' env hs :
  http_unix_socket macos req allowed header w ≠ (w', Ok (SendUpstream env hs)).
Proof.
  unfold http_unix_socket. destruct header as [path|]; last done. cbn zeta. intros H.
  apply bind_ok in H as (w1 & en & He & H). apply attempt_ok in He as (en' & [= ->] & He).
  destruct en' as [[]|]; [|by apply bind_ok in H as (? & ? & _ & [= _])|done].
  destruct allowed; cbn [negb] in H; last by apply bind_ok in H as (? & ? & _ & [= _]).
  destruct macos; cbn [negb] in H; last by apply bind_ok in H as (? & ? & _ & [= _]).
  apply bind_ok in H as (w2 & u & Hu & H). apply attempt_ok in Hu as (u' & [= ->] & Hu).
  destruct u' as [[]|]; [by apply bind_ok in H as (? & ? & _ & [= _])..|done].
Qed.

Lemma http_plain_sends req w w' env hs :
  http_plain_proxy macos decider req w = (w', Ok (SendUpstream env hs)) →
  ∃ ctx, req_context req = Some ctx
    ∧ (∃ s, in_force w s ∧ allows_method (mode (config s)) (req_method req) = true)
    ∧ (∃ s, in_force w s ∧ enabled (config s) = true)
    ∧ host_permitted decider w (MkRequest Http (normalize_host (ctx_host ctx)) (ctx_port ctx) (req_client req) (Some (req_method req)) None None)
    ∧ hs = remove_hop_by_hop_request_headers (req_headers req).
Proof.
  unfold http_plain_proxy. intros H.
  apply bind_ok in H as (w1 & m & Hm & H). apply attempt_ok in Hm as (m' & [= ->] & Hm).
  destruct m' as [allowed|]; last done.
  assert (follows w w1) as Hf1 by (by eapply reads_current). apply current_ok in Hm as (s & Hs & Hall).
  destruct (header_get (lit "x-unix-socket") (req_headers req)) as [header|]; first by apply http_unix_socket_not_upstream in H.
  apply http_to_host_sends in H as (ctx & Hctx & -> & (s' & Hs' & Hen) & Hp & Hhs). exists ctx.
  split; first done. split; first by exists s. split; first (exists s'; split; [by eapply follows_in_force|done]).
  split; last done. by eapply host_permitted_follows.
Qed.

Lemma connect_tunnels req w w' target m mitm :
  http_connect_accept decider req w = (w', Ok (Tunnel target m mitm)) →
  ∃ ctx, req_context req = Some ctx ∧ normalize_host (ctx_host ctx) ≠ []
    ∧ (∃ s, in_force w s ∧ enabled (config s) = true)
    ∧ host_permitted decider w (MkRequest HttpsConnect (normalize_host (ctx_host ctx)) (ctx_port ctx) (req_client req)
                                  (Some (lit "CONNECT")) None None)
    ∧ (∃ s, in_force w s ∧ m = mode (config s)) ∧ (m = Limited → mitm ≠ None) ∧ target = (ctx_host ctx, ctx_port ctx).
Proof.
  unfold http_connect_accept. cbn zeta. destruct (req_context req) as [ctx|]; last done.
  destruct (is_empty (normalize_host (ctx_host ctx))) eqn:Hne; first done. apply is_empty_false in Hne. intros H.
  apply bind_ok in H as (w1 & en & He & H). apply attempt_ok in He as (en' & [= ->] & He).
  assert (follows w w1) as Hf1 by (by eapply reads_current).
  destruct en' as [[]|]; [|by apply bind_ok in H as (? & ? & _ & [= _])|done].
  apply current_ok in He as (s & Hs & Hen).
  apply bind_ok in H as (w2 & d & Hd & H). apply attempt_ok in Hd as (d' & [= ->] & Hd).
  assert (follows w1 w2) as Hf2 by (by eapply reads_evaluate).
  destruct d' as [[|reason source decision]|]; [|by apply bind_ok in H as (? & ? & _ & [= _])|done].
  apply evaluate_allows in Hd.
  apply bind_ok in H as (w3 & m' & Hm & H). apply attempt_ok in Hm as (m'' & [= ->] & Hm).
  destruct m'' as [m0|]; last done. apply current_ok in Hm as (s' & Hs' & ->).
  apply bind_ok in H as (w4 & i & Hi & H). apply attempt_ok in Hi as (i' & [= ->] & Hi).
  destruct i' as [mitm'|]; last done.
  destruct (bool_decide (mode (config s') = Limited) && negb (is_some_b mitm')) eqn:Hguard.
  { apply bind_ok in H as (? & ? & _ & H). by apply bind_ok in H as (? & ? & _ & [= _]). }
  injection H as _ <- <- <-. exists ctx. split; first done. split; first done. split; first by exists s.
  split; first by eapply host_permitted_follows.
  split; [|split; last done].
  - exists s'. split; last done. eapply follows_in_force; first done. by eapply follows_in_force.
  - intros Hm ->. by rewrite bool_decide_eq_true_2 in Hguard.
Qed.

Lemma socks_connects protocol authority_host port client w w' :
  handle_socks5 decider protocol authority_host port client w = (w', Ok SocksConnect) →
  normalize_host authority_host ≠ []
  ∧ (∃ s, in_force w s ∧ enabled (config s) = true) ∧ (∃ s, in_force w s ∧ mode (config s) = Full)
  ∧ host_permitted decider w (MkRequest protocol (normalize_host authority_host) port client None None None).
Proof.
  unfold handle_socks5. destruct (is_empty (normalize_host authority_host)) eqn:Hne; first done. apply is_empty_false in Hne.
  intros H. apply bind_ok in H as (w1 & en & He & H). apply attempt_ok in He as (en' & [= ->] & He).
  assert (follows w w1) as Hf1 by (by eapply reads_current). unfold socks_denied in H.
  destruct en' as [[]|]; [|by do 2 (apply bind_ok in H as (? & ? & _ & H))|done].
  apply current_ok in He as (s & Hs & Hen).
  apply bind_ok in H as (w2 & m' & Hm & H). apply attempt_ok in Hm as (m'' & [= ->] & Hm).
  assert (follows w1 w2) as Hf2 by (by eapply reads_current).
  destruct m'' as [[]|]; [by do 2 (apply bind_ok in H as (? & ? & _ & H))| |done]. apply current_ok in Hm as (s' & Hs' & Hm).
  apply bind_ok in H as (w3 & d & Hd & H). apply attempt_ok in Hd as (d' & [= ->] & Hd).
  destruct d' as [[|reason source decision]|]; [|by apply bind_ok in H as (? & ? & _ & [= _])|done].
  apply evaluate_allows in Hd. split; first done. split; first by exists s.
  split; [exists s'; split; [by eapply follows_in_force|done]|].
  do 2 (eapply host_permitted_follows; first done). done.
Qed.

(** A request that is passed on was permitted by settings in force while it was
    handled, with the proxy on; the settings of each check may differ. *)
Theorem requests_go_where_the_settings_allow w r : passes w r →
  host_permitted decider w r ∧ ∃ s, in_force w s ∧ enabled (config s) = true.
Proof.
  intros [req ctx w' env hs H Hctx|req ctx w' target m mitm H Hctx|protocol authority_host port client w' H|
    req ctx w1 target m mitm w2 w3 method request_host client H Hctx Hf Hm].
  - apply http_plain_sends in H as (ctx' & Hctx' & _ & ? & ? & _). by simplify_eq.
  - apply connect_tunnels in H as (ctx' & Hctx' & _ & ? & ? & _). by simplify_eq.
  - by apply socks_connects in H as (_ & ? & _ & ?).
  - apply connect_tunnels in H as (ctx' & Hctx' & _ & ? & ? & _ & _ & ->). by simplify_eq.
Qed.
End passing.

(** ** Denied domains, local addresses, limited mode *)

(** The settings are those of a state that was built from its configuration. *)
Definition deny_set_built `{NetLib} (s : ConfigState) : Prop :=
  compile_denylist_globset (config_denied (config s)) = Ok (deny_set s).

Lemma compiled_denylist_blocks `{NetLib} {_ : GlobLaws _} denied globs pat h :
  compile_denylist_globset denied = Ok globs → plain_domain (pattern_domain pat) → pattern_text pat ∈ denied →
  to_ascii_lowercase h = h → matches_host pat h → is_match globs h = true.
Proof.
  intros Hc Hd Hin Hh Hm. apply (proj1 (compiled_globset _ _ _ Hc)). exists (pattern_text pat). split; first done.
  by apply (pattern_globs_match pat Hd h Hh).
Qed.

(** A local address is listed as it is, without wildcards. *)
Definition listed_as_is (s : ConfigState) (h : str) : Prop :=
  ∃ p, p ∈ config_allowed (config s) ∧ normalize_host (trim p) = h ∧ (ch_star ∉ p).

Lemma explicit_listed s h : is_explicit_local_allowlisted (default [] (allowed_domains (config s))) h = true → listed_as_is s h.
Proof.
  intros (p & Hp%list_elem_of_In & Hm)%existsb_exists. cbn zeta in Hm.
  destruct ((trim p =s? lit "*") || starts_with (lit "*.") (trim p) || starts_with (lit "**.") (trim p)); first done.
  destruct (contains_char ch_star (trim p) || contains_char ch_question (trim p)) eqn:Hstar; first done.
  apply orb_false_iff in Hstar as [Hstar _]. apply contains_char_false in Hstar.
  exists p. split; first done. split; first by apply str_eqb_eq.
  destruct (trim_infix p) as (a & b & Heq & Ha & Hb). rewrite {1}Heq. rewrite !not_elem_of_app.
  rewrite !Forall_forall in Ha Hb. split_and!; [|done|]; intros Hin; [by apply Ha in Hin|by apply Hb in Hin].
Qed.

Section safety.
Context {D : Disk} {L : NetLib} {HO : HashOrder} (macos : bool) (decider : option (NetworkPolicyRequest → NetworkDecision)).

(** C15. While all settings in force deny a pattern (a domain, alone, with or only its
    subdomains; plain lower case names), and were compiled as they are, no request for
    one of its hosts is passed on, by HTTP, by SOCKS or through a tunnel, intercepted or
    not, that is opened meanwhile; however the host is spelled ([host_spellings]) and
    whatever the decider would say. *)
Theorem denied_domains_are_not_reached {_ : GlobLaws L} w r pat d :
  (∀ s, in_force w s → deny_set_built s) →
  plain_domain (pattern_domain pat) → (∀ s, in_force w s → pattern_text pat ∈ config_denied (config s)) →
  plain_domain d → matches_host pat d →
  passes macos decider w r → host r ≠ d.
Proof.
  intros Hbuilt Hpat Hdenied Hd Hm Hpass <-.
  destruct (requests_go_where_the_settings_allow _ _ _ _ Hpass) as [Hperm _].
  unfold host_permitted, Host_parse in Hperm. rewrite plain_normalize_host // in Hperm.
  rewrite (proj2 (is_empty_false _) (plain_nonempty _ Hd)) in Hperm.
  destruct Hperm as (s & (Hin & Hno & _) & _).
  rewrite (compiled_denylist_blocks _ _ pat (host r) (Hbuilt s Hin) Hpat (Hdenied s Hin)) // in Hno.
  by apply plain_lower.
Qed.

(** The check of an intercepted request. *)
Lemma mitm_checked w w' method request_host client policy :
  mitm_blocking_response method request_host client policy w = (w', Ok None) →
  ∃ w1 decision, host_blocked (target_host policy) (target_port policy) w = (w1, Ok decision) ∧ decision ≠ Blocked NotAllowedLocal.
Proof.
  unfold mitm_blocking_response. destruct (method =s? lit "CONNECT"); first done. cbn zeta.
  destruct (match request_host with Some _ => _ | None => _ end); first done. intros (w1 & d & Hd & H)%bind_ok.
  exists w1, d. split; first done. intros ->. by apply bind_ok in H as (? & ? & _ & [= _]).
Qed.
Lemma host_blocked_denied h0 h p w w' : Host_parse h0 = Some h → host_blocked h0 p w = (w', Ok (Blocked Denied)) →
  ∃ s, in_force w s ∧ is_match (deny_set s) h = true.
Proof.
  intros Hh. unfold host_blocked. intros (w1 & [] & Hr%reads_reload & H)%bind_ok. rewrite Hh in H.
  apply bind_ok in H as (w2 & s & [= <- <-] & H). cbn zeta in H. exists (shared w1).
  split; first by eapply follows_in_force; [done|apply in_force_shared]. destruct (is_match (deny_set (shared w1)) h); first done.
  assert (∀ a b, allowlist_decision a b ≠ Blocked Denied) as Hno by by intros [] [].
  destruct (negb (allow_local_binding _)); [|injection H as _ H; by apply Hno in H].
  destruct (is_local_literal h); [destruct (negb _); injection H as _ H; [done|by apply Hno in H]|].
  apply bind_ok in H as (w3 & [] & _ & H); injection H as _ H; [done|by apply Hno in H].
Qed.

(** Only public addresses, or a local one that is listed. *)
Definition reaches_public_or_listed (w : World) (h : str) (p : Z) : Prop :=
  (∀ ip, parse_ip (host_no_scope h) = Some ip → is_non_public_ip ip = true → ∃ s, in_force w s ∧ listed_as_is s h) ∧
  (is_local_literal h = false → parse_ip h = None → resolved_public w h p).
Lemma checked_reaches w s h p : allow_local_binding (config s) = false → host_checked w s h p → reaches_public_or_listed w h p.
Proof.
  intros Hoff (Hin & _ & [Hl|Hl]); first by rewrite Hoff in Hl. split.
  - intros ip Hip Hn. exists s. split; first done. unfold is_local_literal in Hl. rewrite Hip in Hl.
    destruct (is_loopback_host h); [|rewrite Hn in Hl]; by apply explicit_listed.
  - intros Hlit Hp. by rewrite Hlit Hp in Hl.
Qed.

(** C16. While local binding is off in all settings in force, a request that is passed
    on to a named host goes to an address that is not public only when the
    settings list that very address; and a name was looked up, for the port asked for, and had public
    addresses only. A request inside an intercepted tunnel is checked again in
    this way when it is made, unless settings then in force deny its host. *)
Theorem local_addresses_need_a_listing w :
  (∀ s, in_force w s → allow_local_binding (config s) = false) →
  (∀ r h, passes macos decider w r → Host_parse (host r) = Some h → reaches_public_or_listed w h (port r)) ∧
  (∀ method request_host client policy w' h,
     mitm_blocking_response method request_host client policy w = (w', Ok None) → Host_parse (target_host policy) = Some h →
     (∃ s, in_force w s ∧ is_match (deny_set s) h = true) ∨ reaches_public_or_listed w h (target_port policy)).
Proof.
  intros Hoff. split.
  - intros r h Hpass Hh. destruct (requests_go_where_the_settings_allow _ _ _ _ Hpass) as [Hperm _].
    unfold host_permitted in Hperm. rewrite Hh in Hperm. destruct Hperm as (s & Hs & _).
    eapply checked_reaches; [|exact Hs]. apply Hoff, Hs.
  - intros method request_host client policy w' h (w1 & d & Hd & Hne)%mitm_checked Hh.
    pose proof (host_blocked_checked _ _ _ _ _ Hd) as Hc. rewrite Hh in Hc. destruct d as [|[]]; [| |right|done].
    + right. destruct (Hc (or_introl eq_refl)) as (s & Hs & _). eapply checked_reaches; [|exact Hs]. apply Hoff, Hs.
    + left. by eapply host_blocked_denied.
    + destruct (Hc (or_intror eq_refl)) as (s & Hs & _). eapply checked_reaches; [|exact Hs]. apply Hoff, Hs.
Qed.

(** A datagram goes to a private address only when the settings list it. *)
Theorem datagrams_stay_public w w' ip p client :
  (∀ s, in_force w s → allow_local_binding (config s) = false) → well_formed ip →
  inspect_socks5_udp decider ip p client w = (w', Ok SocksConnect) →
  is_non_public_ip ip = false ∨ ∃ s, in_force w s ∧ listed_as_is s (show_ip ip).
Proof.
  intros Hoff Hip H. apply socks_connects in H as (Hne & _ & _ & Hperm). rewrite normalize_show_ip // in Hne Hperm.
  unfold host_permitted, Host_parse in Hperm. cbn [host] in Hperm. rewrite normalize_show_ip // in Hperm.
  rewrite (proj2 (is_empty_false _) Hne) in Hperm. destruct Hperm as (s & (Hin & _ & [Hl|Hl]) & _); first by rewrite Hoff in Hl.
  assert (host_no_scope (show_ip ip) = show_ip ip) as Hscope.
  { unfold host_no_scope. destruct (split_once ch_percent (show_ip ip)) as [[a b]|] eqn:E; last done.
    apply split_once_Some in E. pose proof (show_ip_chars ip) as Hall. rewrite E in Hall.
    apply Forall_app in Hall as [_ [? _]%Forall_cons]. done. }
  destruct (is_non_public_ip ip) eqn:Hn; last by left. right. exists s. split; first done. apply explicit_listed.
  unfold is_local_literal in Hl. rewrite Hscope parse_show_ip // Hn in Hl. by destruct (is_loopback_host (show_ip ip)).
Qed.

(** While the mode is limited in all settings in force, plain requests that are
    passed on read; a tunnel is intercepted, and passes on what reads; and SOCKS
    connects nothing. *)
Theorem limited_mode_only_reads w w' :
  (∀ s, in_force w s → mode (config s) = Limited) →
  (∀ req from_env hs, http_plain_proxy macos decider req w = (w', Ok (SendUpstream from_env hs)) →
     req_method req ∈ [lit "GET"; lit "HEAD"; lit "OPTIONS"]) ∧
  (∀ req target m mitm, http_connect_accept decider req w = (w', Ok (Tunnel target m mitm)) →
     (∀ w1, http_connect_proxy m mitm w1 = (w1, Ok InterceptTls)) ∧
     ∀ w1 w2 method request_host client, mitm_blocking_response method request_host client (mitm_policy target m) w1 = (w2, Ok None) →
       method ∈ [lit "GET"; lit "HEAD"; lit "OPTIONS"]) ∧
  (∀ protocol authority_host p client, handle_socks5 decider protocol authority_host p client w ≠ (w', Ok SocksConnect)).
Proof.
  intros Hlim.
  assert (∀ method, allows_method Limited method = true → method ∈ [lit "GET"; lit "HEAD"; lit "OPTIONS"]) as Hmethod.
  { intros method. unfold allows_method. rewrite !orb_true_iff !str_eqb_eq. set_solver. }
  split_and!.
  - intros req from_env hs H. apply http_plain_sends in H as (_ & _ & (s & Hs & Hallow) & _).
    rewrite Hlim // in Hallow. by apply Hmethod.
  - intros req target m mitm H. apply connect_tunnels in H as (ctx & _ & _ & _ & _ & (s & Hs & ->) & Hmitm & _).
    rewrite Hlim // in Hmitm |- *. specialize (Hmitm eq_refl). split.
    + intros w1. unfold http_connect_proxy. by destruct mitm.
    + intros w1 w2 method request_host client. unfold mitm_blocking_response. cbn [mitm_mode mitm_policy].
      destruct (method =s? lit "CONNECT"); first done. cbn zeta.
      destruct (match request_host with Some _ => _ | None => _ end); first done.
      intros (w3 & d & _ & H)%bind_ok.
      assert (∀ w4 (P : ProxyM unit) x, (_ ← P; mret (Some x)) w4 ≠ (w2, Ok (None : option Response))) as Hsome.
      { intros w4 P x Hb. by apply bind_ok in Hb as (? & ? & _ & [= _]). }
      destruct (allows_method Limited method) eqn:Ha; first by intros; apply Hmethod.
      cbn [negb] in H. destruct d as [|[]]; by apply Hsome in H.
  - intros protocol authority_host p client H. apply socks_connects in H as (_ & _ & (s & Hs & Hfull) & _).
    by rewrite Hlim in Hfull.
Qed.
End safety.

(** ** Concrete inputs *)

Definition demo_entries : NetworkDomainPermissions :=
  [MkDomainEntry (lit "**.evil.com") DomainDeny; MkDomainEntry (lit "api.good.com") DomainAllow; MkDomainEntry (lit "9.9.9.9") DomainAllow].
Definition demo_settings (m : NetworkMode) : NetworkProxySettings :=
  MkSettings true default_proxy_url true default_socks_url true true false false m (Some demo_entries) None false false.
Definition demo_state (m : NetworkMode) : ConfigState :=
  MkConfigState (demo_settings m) [lit "api.good.com"; lit "9.9.9.9"] [lit "evil.com"; lit "?*.evil.com"] None
    NetworkProxyConstraints_default [] 0.
Definition demo_world (m : NetworkMode) : World := MkWorld (demo_state m) [] [λ host port, if host =s? "api.good.com" then Resolved [V4 8 8 8 8] else LookupFailed] 0 [] false [].
Definition demo_request (method host : string) : HttpRequest :=
  MkHttp (lit method) (Some (MkContext (lit host) None 80 true)) true (Ok None) [] None.

Lemma in_force_quiet w s : reloads w = [] → in_force w s → same_settings s (shared w).
Proof. intros Hr [Hs|(s' & Hin & _)]; [done|]. rewrite Hr in Hin. by apply not_elem_of_nil in Hin. Qed.
Lemma demo_built : build_config_state (D := demo_disk) (L := demo_lib) true (demo_settings Full) NetworkProxyConstraints_default
  = Ok (demo_state Full).
Proof. vm_compute. reflexivity. Qed.

Lemma demo_passes : passes (D := demo_disk) (L := demo_lib) false None (demo_world Full)
  (MkRequest Http (lit "api.good.com") 80 None (Some (lit "GET")) None None).
Proof.
  eapply (passes_http (D := demo_disk) (L := demo_lib) false None (demo_world Full) (demo_request "GET" "API.good.com.")
           (MkContext (lit "API.good.com.") None 80 true)); vm_compute; reflexivity.
Qed.

(** A tunnel that is open already: a host that is denied by now passes, wherever its
    name leads. *)
Example denied_hosts_pass_in_open_tunnels :
  (mitm_blocking_response (L := demo_lib) (lit "GET") None None (mitm_policy (lit "www.evil.com", 443%Z) Limited) (demo_world Limited)).2 = Ok None.
Proof. vm_compute. reflexivity. Qed.

Lemma denied_domains_are_not_reached_witness : lit "api.good.com" ≠ lit "www.evil.com".
Proof.
  apply (denied_domains_are_not_reached (D := demo_disk) (L := demo_lib) false None (demo_world Full)
    (MkRequest Http (lit "api.good.com") 80 None (Some (lit "GET")) None None)
    (ApexAndSubdomains (lit "evil.com")) (lit "www.evil.com")).
  - intros s Hs%in_force_quiet; last done. destruct Hs as (Hc & _ & Hd & _). unfold deny_set_built. rewrite Hc Hd.
    vm_compute. reflexivity.
  - split; [done|by apply (bool_decide_unpack _)|done|done].
  - intros s Hs%in_force_quiet; last done. destruct Hs as (Hc & _). rewrite Hc. vm_compute. by left.
  - split; [done|by apply (bool_decide_unpack _)|done|done].
  - right. by exists (lit "www").
  - apply demo_passes.
Defined.

Lemma local_addresses_need_a_listing_witness : resolved_public (demo_world Full) (lit "api.good.com") 80.
Proof.
  destruct (local_addresses_need_a_listing (D := demo_disk) (L := demo_lib) false None (demo_world Full)) as [H _].
  { intros s Hs%in_force_quiet; last done. destruct Hs as (Hc & _). by rewrite Hc. }
  refine (proj2 (H (MkRequest Http (lit "api.good.com") 80 None (Some (lit "GET")) None None) (lit "api.good.com") demo_passes _) _ _);
    vm_compute; reflexivity.
Defined.

Lemma datagrams_stay_public_witness :
  is_non_public_ip (V4 9 9 9 9) = false ∨ ∃ s, in_force (demo_world Full) s ∧ listed_as_is s (show_ip (V4 9 9 9 9)).
Proof.
  apply (datagrams_stay_public (L := demo_lib) None (demo_world Full) (add_audit (demo_world Full)
    (MkAudit (lit "domain") (lit "allow") (lit "baseline_policy") (lit "allow") Socks5Udp (lit "9.9.9.9") 53 (lit "none") (lit "unknown") false))
    (V4 9 9 9 9) 53 None).
  - intros s Hs%in_force_quiet; last done. destruct Hs as (Hc & _). by rewrite Hc.
  - cbn. unfold is_octet. lia.
  - vm_compute. reflexivity.
Defined.

Lemma limited_mode_only_reads_witness : lit "GET" ∈ [lit "GET"; lit "HEAD"; lit "OPTIONS"].
Proof.
  refine (proj1 (limited_mode_only_reads (D := demo_disk) (L := demo_lib) false None (demo_world Limited)
    (http_plain_proxy (D := demo_disk) (L := demo_lib) false None (demo_request "GET" "api.good.com") (demo_world Limited)).1 _)
    (demo_request "GET" "api.good.com") true [] _).
  - intros s Hs%in_force_quiet; last done. destruct Hs as (Hc & _). by rewrite Hc.
  - vm_compute. reflexivity.
Defined.
