(* ===== verification/NetSettings.v ===== *)
(** Changes to the settings of the network proxy while other tasks run: managed
    settings hold in every state, an update loses no settings of another task, a
    domain that was denied is blocked, and what the record of blocked requests
    keeps. *)
From S2P Require Import Prelude Json Paths Types Host AbsolutePath Permissions Access NetAddr IpAddresses HostPatterns NetConfig NetProxy NetHandlers NetSafety.
From Stdlib Require Import ZArith Lia.
#[local] Open Scope nat_scope.

(** ** The record of blocked requests *)

Lemma pop_excess_snoc l x : length l ≤ MAX_BLOCKED_EVENTS →
  pop_excess (l ++ [x]) = drop (length l + 1 - MAX_BLOCKED_EVENTS) (l ++ [x]).
Proof. intros _. unfold pop_excess. by rewrite length_app. Qed.

Lemma push_blocked_last s x all : blocked s = drop (length all - MAX_BLOCKED_EVENTS) all →
  blocked (push_blocked s x) = drop (length (all ++ [x]) - MAX_BLOCKED_EVENTS) (all ++ [x]).
Proof.
  intros Hb. cbn. unfold pop_excess. rewrite Hb. set (k := length all - MAX_BLOCKED_EVENTS).
  rewrite -(drop_app_le all [x] k); first lia. rewrite drop_drop !length_drop !length_app. f_equal. cbn [length]. lia.
Qed.

(** The buffer holds the last requests that were recorded, the counter says how
    many there were. *)
Theorem blocked_buffer_keeps_the_last s es :
  blocked s = [] → blocked_total s = 0%N →
  let s' := foldl push_blocked s es in
  blocked s' = drop (length es - MAX_BLOCKED_EVENTS) es ∧ length (blocked s') ≤ MAX_BLOCKED_EVENTS
  ∧ blocked_total s' = N.min (N.of_nat (length es)) u64_max.
Proof.
  intros Hb Ht. cbn zeta. induction es as [|x es IH] using rev_ind; first by cbn; rewrite Hb Ht; split_and!; [done|cbn; lia|].
  destruct IH as (IHb & _ & IHt). rewrite foldl_app. cbn [foldl]. split_and!.
  - by apply push_blocked_last.
  - rewrite (push_blocked_last _ x es) // length_drop. lia.
  - cbn. rewrite IHt length_app. cbn [length]. lia.
Qed.

Section settings.
Context {D : Disk} {L : NetLib} {HO : HashOrder}.

Lemma built_state mitm_ca c cs s : build_config_state mitm_ca c cs = Ok s →
  config s = c ∧ constraints s = cs ∧ blocked s = [] ∧ blocked_total s = 0%N ∧ deny_set_built s
  ∧ compile_allowlist_globset (config_allowed c) = Ok (allow_set s).
Proof.
  unfold build_config_state. rewrite bind_Ok. intros (_ & _ & H). rewrite bind_Ok in H. destruct H as (_ & _ & H).
  rewrite bind_Ok in H. destruct H as (deny & Hdeny%map_err_Ok & H). rewrite bind_Ok in H.
  destruct H as (allow & Hallow%map_err_Ok & H). rewrite bind_Ok in H. destruct H as (m & _ & [= <-]). by split_and!.
Qed.

(** Every other way to replace the settings keeps the count of blocked requests;
    a forced reload keeps the requests and starts the count anew. *)
Theorem forced_reload_forgets_the_count mitm_ca c cs new_state w :
  build_config_state mitm_ca c cs = Ok new_state →
  (let '(w', _) := force_reload (Ok new_state) w in
   blocked (shared w') = blocked (shared w) ∧ blocked_total (shared w') = 0%N) ∧
  (reloads w = [] → let '(w', _) := replace_config_state new_state w in
   blocked (shared w') = blocked (shared w) ∧ blocked_total (shared w') = blocked_total (shared w)) ∧
  (reloads w = [Ok (Some new_state)] → let '(w', _) := reload_if_needed w in
   blocked (shared w') = blocked (shared w) ∧ blocked_total (shared w') = blocked_total (shared w)).
Proof.
  intros (_ & _ & _ & Ht & _)%built_state. split_and!.
  - done.
  - intros Hr. unfold replace_config_state, reload_if_needed, mbind, ProxyM_bind. by rewrite Hr.
  - intros Hr. unfold reload_if_needed. by rewrite Hr.
Qed.

(** ** Managed settings hold *)

(** A property of settings that holds of all in force. *)
Definition always (P : ConfigState → Prop) (w : World) : Prop := ∀ s, in_force w s → P s.
Definition of_settings (P : ConfigState → Prop) : Prop := ∀ s s', same_settings s s' → P s' → P s.
Definition keeps (P : ConfigState → Prop) (between : ConfigState → ConfigState) : Prop := ∀ s, P s → P (between s).

Definition permitted_state (s : ConfigState) : Prop := permitted (config s) (constraints s).
Abbreviation all_permitted := (always permitted_state).
(** What another task does to the settings keeps them permitted. *)
Abbreviation keeps_permitted := (keeps permitted_state).

Lemma always_follows P w w' : follows w w' → always P w → always P w'.
Proof. intros [Hf _] Hw s Hs. by apply Hw, Hf. Qed.
Lemma always_write P w s : of_settings P → always P w → P s → always P (set_shared w s).
Proof.
  intros HP Hw Hs s' [Hin|(s'' & Hin & Hsame)]; first by eapply HP. apply Hw. right. by exists s''.
Qed.
Lemma permitted_of_settings : of_settings permitted_state.
Proof. intros s s' (Hc & _ & _ & _ & Hcs). by rewrite /permitted_state Hc Hcs. Qed.
Lemma built_of_settings : of_settings deny_set_built.
Proof. intros s s' (Hc & _ & Hd & _). by rewrite /deny_set_built Hc Hd. Qed.

Lemma permitted_set_mode c cs m : permitted c cs → permitted (set_mode c m) cs ↔ ∀ x, c_mode cs = Some x → network_mode_rank m ≤ network_mode_rank x.
Proof. intros Hp. split; [intros Hp'; apply Hp' | intros Hm; destruct Hp; by constructor]. Qed.

Lemma updated_state_spec mitm_ca target h read new_state : updated_state mitm_ca target h read = Ok (Some new_state) →
  config new_state = upsert_domain_permission (config read) h (list_permission target) normalize_host ∧
  constraints new_state = constraints read ∧ permitted_state new_state ∧ deny_set_built new_state
  ∧ blocked new_state = blocked read ∧ blocked_total new_state = blocked_total read.
Proof.
  unfold updated_state. cbn zeta. destruct (existsb _ _ && _); first done. rewrite bind_Ok.
  intros ([] & Hv%map_err_Ok & H). rewrite bind_Ok in H. destruct H as (s & Hs%map_err_Ok & [= <-]).
  apply built_state in Hs as (Hc & Hcs & _ & _ & Hdeny & _). cbn. split_and!; try done.
  unfold permitted_state. cbn. rewrite Hc Hcs. by apply validation_is_permission.
Qed.

Section updates.
Context (P : ConfigState → Prop) (HP : of_settings P) (mitm_ca : bool) (target : DomainListKind) (h : str)
  (Hnew : ∀ read new_state, P read → updated_state mitm_ca target h read = Ok (Some new_state) → P new_state).

Lemma update_round_always between w w' r : keeps P between → always P w →
  update_round mitm_ca target h between w = (w', r) → always P w'.
Proof using HP Hnew.
  intros Hb Hw. unfold update_round, mbind, ProxyM_bind. destruct (reload_if_needed w) as [w1 r1] eqn:Hr.
  apply reads_reload in Hr. pose proof (always_follows _ _ _ Hr Hw) as Hw1.
  destruct r1 as [[]|e]; last by intros [= <- _]. cbn [read_shared of_result].
  assert (P (shared w1)) as Hp1 by apply Hw1, in_force_shared.
  destruct (updated_state mitm_ca target h (shared w1)) as [[new_state|]|e] eqn:E; [|by intros [= <- _]..].
  destruct (commit_update (shared w1) new_state (between (shared w1))) as [s|] eqn:Ec; intros [= <- _];
    apply always_write; auto.
  unfold commit_update in Ec. case_match; simplify_eq. by eapply Hnew.
Qed.

Lemma update_rounds_always interference w w' r : Forall (keeps P) interference → always P w →
  update_rounds mitm_ca target h interference w = (w', r) → always P w'.
Proof using HP Hnew.
  intros Hi. revert w. induction Hi as [|between rest Hb Hi IH]; intros w Hw; cbn; unfold mbind, ProxyM_bind;
    [destruct (update_round mitm_ca target h id w) as [w1 r1] eqn:E | destruct (update_round mitm_ca target h between w) as [w1 r1] eqn:E];
    apply update_round_always in E; try done; try (by intros s).
  - by destruct r1; intros [= <- _].
  - destruct r1 as [[]|]; [by intros [= <- _]|by apply IH|by intros [= <- _]].
Qed.

(** The round an update ends with. *)
Lemma update_rounds_last interference w w' : Forall (keeps P) interference → always P w →
  update_rounds mitm_ca target h interference w = (w', Ok tt) →
  ∃ w0 between, always P w0 ∧ (between = id ∨ between ∈ interference) ∧ update_round mitm_ca target h between w0 = (w', Ok true).
Proof using HP Hnew.
  intros Hi. revert w. induction Hi as [|between rest Hb Hi IH]; intros w Hw; cbn.
  - intros (w1 & [] & E & [= ->])%bind_ok.
    + exists w, id. split; first done. split; [by left|done].
    + exfalso. unfold update_round in E. apply bind_ok in E as (w2 & [] & _ & E). apply bind_ok in E as (w3 & s & [= <- <-] & E).
      apply bind_ok in E as (w4 & u & _ & E). destruct u as [new_state|]; last done. cbn zeta in E.
      unfold commit_update in E. rewrite !bool_decide_eq_false_2 in E; try (by intros []). cbn [orb] in E.
      by apply bind_ok in E as (? & [] & _ & [= _]).
  - intros (w1 & b & E & H)%bind_ok. destruct b.
    + injection H as <-. exists w, between. split; first done. split; [right; by left|done].
    + pose proof E as Hw1. apply update_round_always in Hw1; [|done|done].
      destruct (IH _ Hw1 H) as (w0 & b & Hw0 & Hb0 & E0). exists w0, b. split; first done. split; last done.
      destruct Hb0; [by left|right; by right].
Qed.
End updates.

Lemma updated_permitted mitm_ca target h read new_state :
  updated_state mitm_ca target h read = Ok (Some new_state) → permitted_state new_state.
Proof. by intros (_ & _ & ? & _)%updated_state_spec. Qed.

Lemma mode_round_permitted m between w w' r : keeps_permitted between → all_permitted w →
  mode_round m between w = (w', r) → all_permitted w'.
Proof.
  intros Hb Hw. unfold mode_round, mbind, ProxyM_bind. destruct (reload_if_needed w) as [w1 r1] eqn:Hr.
  apply reads_reload in Hr. pose proof (always_follows _ _ _ Hr Hw) as Hw1.
  destruct r1 as [[]|e]; last by intros [= <- _]. cbn [read_shared of_result].
  destruct (validate_policy_against_constraints (set_mode (config (shared w1)) m) (constraints (shared w1))) as [[]|e] eqn:E;
    last by intros [= <- _].
  apply validation_is_permission in E. cbn [map_err].
  assert (permitted_state (shared w1)) as Hp1 by apply Hw1, in_force_shared. pose proof (Hb _ Hp1) as Hg.
  case_bool_decide as Hcs; intros [= <- _]; apply always_write; try done; try apply permitted_of_settings.
  unfold permitted_state. cbn. apply permitted_set_mode; first done. rewrite Hcs. exact (proj1 (permitted_set_mode (config (shared w1)) _ m Hp1) E).
Qed.
Lemma set_network_mode_permitted m interference w w' r : Forall keeps_permitted interference → all_permitted w →
  set_network_mode m interference w = (w', r) → all_permitted w'.
Proof.
  intros Hi. revert w. induction Hi as [|between rest Hb Hi IH]; intros w Hw; cbn; unfold mbind, ProxyM_bind;
    [destruct (mode_round m id w) as [w1 r1] eqn:E | destruct (mode_round m between w) as [w1 r1] eqn:E];
    apply mode_round_permitted in E; try done; try (by intros s).
  - by destruct r1; intros [= <- _].
  - destruct r1 as [[]|]; [by intros [= <- _]|by apply IH|by intros [= <- _]].
Qed.

(** What other tasks write while they have the lock: a state that the reloader, or a
    caller of [replace_config_state], brought; an update or a mode that was made for settings
    read before; the record of blocked requests. *)
Inductive other_write (s : ConfigState) : ConfigState → Prop :=
  | writes_brought new_state total : permitted_state new_state → other_write s (set_blocked new_state (blocked s) total)
  | writes_update mitm_ca target h read new_state s' :
      updated_state mitm_ca target h read = Ok (Some new_state) → commit_update read new_state s = Some s' → other_write s s'
  | writes_mode m read : validate_policy_against_constraints (set_mode (config read) m) (constraints read) = Ok tt →
      constraints s = constraints read → other_write s (set_config s (set_mode (config s) m))
  | writes_record l total : other_write s (set_blocked s l total).
(** The work of other tasks between two locks. *)
Definition by_other_tasks (between : ConfigState → ConfigState) : Prop := ∀ s, rtc other_write s (between s).

Lemma other_write_permitted s s' : other_write s s' → permitted_state s → permitted_state s'.
Proof.
  intros [new_state total Hnew|ca target h read new_state s1 Hu Hc|m read Hv Hcs|l total] Hs; [done| | |done].
  - unfold commit_update in Hc. case_match; simplify_eq. by eapply updated_permitted.
  - apply validation_is_permission in Hv. unfold permitted_state. cbn. apply permitted_set_mode; first done.
    intros x Hx. rewrite Hcs in Hx. exact (permitted_mode _ _ Hv x Hx).
Qed.
Lemma other_tasks_keep between : by_other_tasks between → keeps_permitted between.
Proof. intros Hb s Hs. specialize (Hb s). revert Hs. induction Hb; eauto using other_write_permitted. Qed.

(** The operations of the proxy, with the interference each may meet. *)
Inductive operation : Type :=
  | OpHttp (macos : bool) (decider : option (NetworkPolicyRequest → NetworkDecision)) (req : HttpRequest)
  | OpConnect (decider : option (NetworkPolicyRequest → NetworkDecision)) (req : HttpRequest)
  | OpSocks (decider : option (NetworkPolicyRequest → NetworkDecision)) (protocol : NetworkProtocol) (authority_host : str)
      (port : Z) (client : option str)
  | OpRecord (entry : BlockedRequest)
  | OpDrain
  | OpUpdate (mitm_ca : bool) (host : str) (target : DomainListKind) (interference : list (ConfigState → ConfigState))
  | OpSetMode (m : NetworkMode) (interference : list (ConfigState → ConfigState))
  | OpReplace (new_state : ConfigState)
  | OpForceReload (reload_now : result str ConfigState).
Definition run_operation (op : operation) (w : World) : World :=
  match op with
  | OpHttp macos decider req => (http_plain_proxy macos decider req w).1
  | OpConnect decider req => (http_connect_accept decider req w).1
  | OpSocks decider protocol authority_host port client => (handle_socks5 decider protocol authority_host port client w).1
  | OpRecord entry => (record_blocked entry w).1
  | OpDrain => (drain_blocked w).1
  | OpUpdate mitm_ca host target interference => (update_domain_list mitm_ca host target interference w).1
  | OpSetMode m interference => (set_network_mode m interference w).1
  | OpReplace new_state => (replace_config_state new_state w).1
  | OpForceReload reload_now => (force_reload reload_now w).1
  end.
(** What is brought is permitted; the interference is that of other tasks. *)
Definition brings_permitted (op : operation) : Prop :=
  match op with
  | OpUpdate _ _ _ interference | OpSetMode _ interference => Forall by_other_tasks interference
  | OpReplace new_state | OpForceReload (Ok new_state) => permitted_state new_state
  | _ => True
  end.

Lemma reads_unix_socket macos path : reads_settings (is_unix_socket_allowed macos path).
Proof. unfold is_unix_socket_allowed. reads_tac. Qed.
#[local] Hint Resolve reads_unix_socket : reads.
Lemma reads_http macos decider req : reads_settings (http_plain_proxy macos decider req).
Proof.
  unfold http_plain_proxy, http_unix_socket, http_to_host, proxy_disabled_response, record_denied,
    emit_allow_decision_audit_event, emit_block_decision_audit_event, emit_non_domain.
  reads_tac.
Qed.
Lemma reads_connect decider req : reads_settings (http_connect_accept decider req).
Proof.
  unfold http_connect_accept, proxy_disabled_response, record_denied, emit_block_decision_audit_event, emit_non_domain.
  reads_tac.
Qed.
Lemma reads_socks decider protocol authority_host p client : reads_settings (handle_socks5 decider protocol authority_host p client).
Proof. unfold handle_socks5, socks_denied, record_denied, emit_block_decision_audit_event, emit_non_domain. reads_tac. Qed.
Lemma reads_drain : reads_settings drain_blocked.
Proof.
  unfold drain_blocked. apply reads_bind; first apply reads_reload. intros []. intros w w' r [= <- _].
  split; last done. intros s [Hs|Hs]; [left; etrans; [exact Hs|done]|by right].
Qed.

(** C17. From settings that the managed settings allow, whatever requests the proxy handles,
    whatever updates, modes, reloads and replacements it is asked for, and whatever other
    tasks do the like between its locks: while the reloader and the callers that replace
    the settings bring settings that are allowed, the settings in force are allowed. *)
Theorem managed_settings_hold ops w : all_permitted w → Forall brings_permitted ops →
  all_permitted (foldl (λ w op, run_operation op w) w ops).
Proof.
  intros Hw Hops. revert w Hw. induction Hops as [|op ops Hop Hops IH]; intros w Hw; first done. apply IH.
  assert (∀ A (m : ProxyM A), reads_settings m → all_permitted (m w).1) as Hreads.
  { intros A m Hm. destruct (m w) as [w1 r] eqn:E. eapply always_follows; [by eapply Hm|done]. }
  destruct op as [macos decider req|decider req|decider protocol authority_host p client|entry| |ca h target i|m i|new_state|reload_now]; cbn in *.
  - apply Hreads, reads_http.
  - apply Hreads, reads_connect.
  - apply Hreads, reads_socks.
  - apply Hreads, reads_record.
  - apply Hreads, reads_drain.
  - assert (Forall keeps_permitted i) as Hi by (eapply Forall_impl; [exact Hop|apply other_tasks_keep]).
    unfold update_domain_list. destruct (Host_parse h) as [d|]; last done.
    destruct (update_rounds ca target d i w) as [w1 r] eqn:E. eapply update_rounds_always; eauto using permitted_of_settings, updated_permitted.
  - assert (Forall keeps_permitted i) as Hi by (eapply Forall_impl; [exact Hop|apply other_tasks_keep]).
    destruct (set_network_mode m i w) as [w1 r] eqn:E. by eapply set_network_mode_permitted.
  - unfold replace_config_state, mbind, ProxyM_bind. destruct (reload_if_needed w) as [w1 r1] eqn:Hr.
    apply reads_reload in Hr. pose proof (always_follows _ _ _ Hr Hw) as Hw1. destruct r1 as [[]|e]; last done.
    by apply always_write; [apply permitted_of_settings|..].
  - destruct reload_now as [new_state|e]; last done. by apply always_write; [apply permitted_of_settings|..].
Qed.

(** ** Updates while other tasks run *)

(** What a round that ends an update has written: nothing, where the host is on
    the list already, or the settings as they were at the write with the host
    added; the record of blocked requests is the one that was read before. *)
Lemma update_round_done mitm_ca target h between w w' : update_round mitm_ca target h between w = (w', Ok true) →
  ∃ read, in_force w read ∧
    ((updated_state mitm_ca target h read = Ok None ∧ shared w' = read) ∨
     (config (shared w') = upsert_domain_permission (config (between read)) h (list_permission target) normalize_host
      ∧ constraints (shared w') = constraints (between read) ∧ deny_set_built (shared w')
      ∧ blocked (shared w') = blocked read)).
Proof.
  intros (w1 & [] & Hr & H)%bind_ok. apply bind_ok in H as (w2 & s & [= <- <-] & H).
  apply bind_ok in H as (w3 & u & [= <- Hu] & H).
  exists (shared w1). split; first (eapply follows_in_force; [by eapply reads_reload|apply in_force_shared]).
  destruct u as [new_state|]; last by injection H as <-; left. right. cbn zeta in H.
  apply updated_state_spec in Hu as (Hc & Hcs & _ & Hdeny & Hb & _). unfold commit_update in H.
  destruct (bool_decide (constraints (between (shared w1)) ≠ constraints (shared w1))
            || bool_decide (config (between (shared w1)) ≠ config (shared w1))) eqn:Ec.
  { by apply bind_ok in H as (? & [] & _ & [= _]). }
  apply orb_false_iff in Ec as [Ecs%bool_decide_eq_false%dec_stable Ecc%bool_decide_eq_false%dec_stable].
  apply bind_ok in H as (w4 & [] & [= <-] & [= <-]). cbn. by rewrite Hc Hcs Ecc Ecs.
Qed.

Lemma always_true w : always (λ _, True) w.
Proof. done. Qed.
Lemma keeps_true interference : Forall (keeps (λ _, True)) interference.
Proof. by apply Forall_forall. Qed.

Lemma update_rounds_ended mitm_ca target h interference w w' : update_rounds mitm_ca target h interference w = (w', Ok tt) →
  ∃ w0 between, (between = id ∨ between ∈ interference) ∧ update_round mitm_ca target h between w0 = (w', Ok true).
Proof.
  intros H. assert (of_settings (λ _, True)) as HP by done.
  destruct (update_rounds_last _ HP mitm_ca target h (λ _ _ _ _, I) _ _ _ (keeps_true _) (always_true w) H)
    as (w0 & between & _ & ? & ?). by exists w0, between.
Qed.
Lemma updated_state_none mitm_ca target h read : updated_state mitm_ca target h read = Ok None →
  h ∈ normalize_host <$> list_entries target (config read).
Proof.
  unfold updated_state. cbn zeta.
  destruct (existsb (λ entry, normalize_host entry =s? h) (list_entries target (config read))) eqn:Hex.
  - apply existsb_exists in Hex as (e & He%list_elem_of_In & <-%str_eqb_eq). intros _. by apply list_elem_of_fmap_2.
  - cbn [andb]. intros (_ & _ & Hu)%bind_Ok. by apply bind_Ok in Hu as (? & _ & [=]).
Qed.

(** An update that succeeds adds the host to the settings of that moment: no
    change of another task is lost, however often its rounds were disturbed. *)
Theorem updates_lose_no_settings mitm_ca host target interference w w' :
  update_domain_list mitm_ca host target interference w = (w', Ok tt) →
  ∃ h read between, Host_parse host = Some h ∧ (between = id ∨ between ∈ interference) ∧
    (h ∈ normalize_host <$> list_entries target (config read) ∧ shared w' = read
     ∨ config (shared w') = upsert_domain_permission (config (between read)) h (list_permission target) normalize_host
       ∧ constraints (shared w') = constraints (between read)).
Proof.
  unfold update_domain_list. destruct (Host_parse host) as [h|]; last done. intros H.
  apply update_rounds_ended in H as (w0 & between & Hb & Hround).
  apply update_round_done in Hround as (read & _ & Hdone). exists h, read, between. split; first done. split; first done.
  destruct Hdone as [[Hu Hs]|(Hc & Hcs & _)]; last by right. left. split; last done. by eapply updated_state_none.
Qed.

(** The record is not part of what is compared: a request that another task
    records between the two locks is lost. *)
Theorem updates_forget_blocked_requests mitm_ca target h entry w w' new_state :
  reloads w = [] → updated_state mitm_ca target h (shared w) = Ok (Some new_state) →
  update_round mitm_ca target h (λ s, push_blocked s entry) w = (w', Ok true) →
  blocked (shared w') = blocked (shared w).
Proof.
  intros Hr Hu. unfold update_round, reload_if_needed, mbind, ProxyM_bind. rewrite Hr. cbn [read_shared of_result]. rewrite Hu.
  apply updated_state_spec in Hu as (_ & _ & _ & _ & Hb & _).
  unfold commit_update. cbn [constraints config push_blocked set_blocked]. rewrite !bool_decide_eq_false_2; try by intros [].
  cbn [orb]. by intros [= <-].
Qed.

(** *** A domain that was denied is blocked *)

Lemma starred_normal s r : trim s = ch_star :: r → head (normalize_host s) = Some ch_star.
Proof.
  intros Ht. assert (∀ l, head (normalize_dns_host (ch_star :: l)) = Some ch_star) as Hdns.
  { intros l. unfold normalize_dns_host. destruct (trim_end_matches_prefix is_dot (to_ascii_lowercase (ch_star :: l))) as (q & Hq & Hdots).
    destruct (trim_end_matches is_dot (to_ascii_lowercase (ch_star :: l))) as [|c t] eqn:E; cbn in Hq.
    - rewrite -Hq in Hdots. by apply Forall_cons in Hdots as [? _].
    - by injection Hq as <-. }
  unfold normalize_host. rewrite Ht. change (starts_with [ch_lbracket] (ch_star :: r)) with false. cbn [negb].
  destruct (_ =? 1); last apply Hdns. cbn [split_on].
  change ((ch_colon =? ch_star)%N) with false. destruct (split_on ch_colon r) as [|p ps]; [exact (Hdns [])|exact (Hdns p)].
Qed.

(** The glob of an entry for a plain host is the host. *)
Lemma plain_entry e d : plain_domain d → normalize_host e = d → expand_domain_pattern (normalize_pattern e) = [d].
Proof.
  intros Hd He. assert (∀ r, trim e ≠ ch_star :: r) as Hno.
  { intros r Hr%starred_normal. rewrite He in Hr. destruct d as [|c d']; first done. cbn in Hr. injection Hr as ->.
    by destruct (plain_char _ Hd ch_star) as (_ & _ & _ & _ & _ & ? & _); first set_solver. }
  assert (∀ p, strip_prefix (ch_star :: p) (trim e) = None) as Hstrip.
  { intros p. destruct (trim e) as [|c l] eqn:E; first done. cbn. destruct (N.eqb_spec ch_star c) as [<-|]; last done. by destruct (Hno l). }
  assert (normalize_pattern e = d) as ->.
  { unfold normalize_pattern. rewrite (proj2 (str_eqb_neq _ _)); first by apply Hno.
    rewrite !Hstrip. cbn [is_empty]. rewrite -He. unfold normalize_host. by rewrite trim_idemp. }
  unfold expand_domain_pattern. pose proof (parse_pattern_text (Exact d) Hd) as Hp. cbn [pattern_text] in Hp. by rewrite Hp.
Qed.

(** When adding a domain to the denied ones succeeds, it is blocked: also where it
    was on the list, and whatever other tasks did. *)
Theorem denied_domain_is_blocked {_ : GlobLaws L} mitm_ca host d interference w w' :
  Host_parse host = Some d → plain_domain d →
  always deny_set_built w → Forall (keeps deny_set_built) interference →
  add_denied_domain mitm_ca host interference w = (w', Ok tt) →
  is_match (deny_set (shared w')) d = true.
Proof.
  intros Hh Hd Hw Hi. unfold add_denied_domain, update_domain_list. rewrite Hh. intros Hup.
  assert (∀ read new_state, deny_set_built read → updated_state mitm_ca DenyList d read = Ok (Some new_state) → deny_set_built new_state) as Hnew.
  { by intros read new_state _ (_ & _ & _ & ? & _)%updated_state_spec. }
  destruct (update_rounds_last _ built_of_settings _ _ _ Hnew _ _ _ Hi Hw Hup) as (w0 & between & Hw0 & _ & Hround).
  apply update_round_done in Hround as (read & Hin & Hdone).
  assert (∀ s, deny_set_built s → d ∈ normalize_host <$> config_denied (config s) → is_match (deny_set s) d = true) as Hblocks.
  { intros s Hs (e & -> & He)%list_elem_of_fmap. apply (proj1 (compiled_globset _ _ _ Hs)). exists e. split; first done.
    rewrite (plain_entry e (normalize_host e)) //. unfold is_match. cbn. rewrite glob_literal ?plain_literal // plain_lower // str_eqb_refl //. }
  destruct Hdone as [[Hu Hs]|(Hc & _ & Hdeny & _)]; apply Hblocks; rewrite ?Hs; auto.
  - by apply updated_state_none in Hu.
  - rewrite Hc. apply list_elem_of_fmap. exists d. split; first by rewrite plain_normalize_host.
    apply upserted_domains. by left.
Qed.
End settings.

(** ** Concrete inputs *)

Definition demo_blocked : BlockedRequest := MkBlocked (lit "x.org") REASON_NOT_ALLOWED None None None (lit "http") None None None 0.
Definition other_settings : NetworkProxySettings := set_domains (demo_settings Full) (Some [MkDomainEntry (lit "c.org") DomainAllow]).
(** Another task that replaces the settings, if it may. *)
Definition other_task (s : ConfigState) : ConfigState :=
  if is_ok (validate_policy_against_constraints (L := demo_lib) (HO := map_order) other_settings (constraints s))
  then MkConfigState other_settings [lit "c.org"] [] None (constraints s) (blocked s) (blocked_total s) else s.
Lemma other_task_writes : by_other_tasks (D := demo_disk) (L := demo_lib) (HO := map_order) other_task.
Proof.
  intros s. unfold other_task.
  destruct (validate_policy_against_constraints (L := demo_lib) (HO := map_order) other_settings (constraints s)) as [[]|] eqn:E;
    last apply rtc_refl. apply rtc_once.
  apply (writes_brought s (MkConfigState other_settings [lit "c.org"] [] None (constraints s) [] 0) (blocked_total s)).
  by apply validation_is_permission in E.
Qed.
Lemma other_task_built : keeps (deny_set_built (H := demo_lib)) other_task.
Proof. intros s Hs. unfold other_task. by destruct (is_ok _). Qed.

Lemma blocked_buffer_keeps_the_last_witness :
  length (blocked (foldl push_blocked (demo_state Full) (replicate 201 demo_blocked))) ≤ MAX_BLOCKED_EVENTS.
Proof. apply (blocked_buffer_keeps_the_last (demo_state Full) (replicate 201 demo_blocked)); reflexivity. Defined.

Lemma forced_reload_forgets_the_count_witness :
  let '(w', _) := force_reload (Ok (demo_state Full)) (set_shared (demo_world Full) (push_blocked (demo_state Full) demo_blocked)) in
  blocked (shared w') = [demo_blocked] ∧ blocked_total (shared w') = 0%N.
Proof.
  exact (proj1 (forced_reload_forgets_the_count (D := demo_disk) (L := demo_lib) true (demo_settings Full) NetworkProxyConstraints_default
    (demo_state Full) (set_shared (demo_world Full) (push_blocked (demo_state Full) demo_blocked)) demo_built)).
Defined.

Lemma managed_settings_hold_witness :
  always (permitted_state (L := demo_lib)) (run_operation (D := demo_disk) (L := demo_lib) (HO := map_order)
    (OpUpdate true (lit "Bad.org") DenyList [other_task]) (demo_world Full)).
Proof.
  apply (managed_settings_hold (D := demo_disk) (L := demo_lib) (HO := map_order)
    [OpUpdate true (lit "Bad.org") DenyList [other_task]] (demo_world Full)).
  - intros s Hs%in_force_quiet; last done. destruct Hs as (Hc & _ & _ & _ & Hcs). unfold permitted_state. rewrite Hc Hcs.
    apply (validation_is_permission (L := demo_lib) (HO := map_order)). vm_compute. reflexivity.
  - constructor; last constructor. constructor; [apply other_task_writes | constructor].
Defined.

Definition update_end : World := (update_domain_list (D := demo_disk) (L := demo_lib) (HO := map_order) true (lit "Bad.org") DenyList
  [other_task] (demo_world Full)).1.

Lemma updates_lose_no_settings_witness :
  ∃ h read between, Host_parse (lit "Bad.org") = Some h ∧ (between = id ∨ between ∈ [other_task]) ∧
    (h ∈ normalize_host <$> list_entries DenyList (config read) ∧ shared update_end = read
     ∨ config (shared update_end) = upsert_domain_permission (config (between read)) h DomainDeny normalize_host
       ∧ constraints (shared update_end) = constraints (between read)).
Proof.
  apply (updates_lose_no_settings (D := demo_disk) (L := demo_lib) (HO := map_order) true (lit "Bad.org") DenyList [other_task]
    (demo_world Full)). vm_compute. reflexivity.
Defined.

Lemma updates_forget_blocked_requests_witness :
  blocked (shared (update_round (D := demo_disk) (L := demo_lib) (HO := map_order) true DenyList (lit "bad.org")
    (λ s, push_blocked s demo_blocked) (demo_world Full)).1) = [].
Proof.
  eapply (updates_forget_blocked_requests (D := demo_disk) (L := demo_lib) (HO := map_order) true DenyList (lit "bad.org") demo_blocked
    (demo_world Full)); [done|vm_compute; reflexivity|vm_compute; reflexivity].
Defined.

Lemma denied_domain_is_blocked_witness : is_match (H := demo_lib) (deny_set (shared update_end)) (lit "bad.org") = true.
Proof.
  apply (denied_domain_is_blocked (D := demo_disk) (L := demo_lib) (HO := map_order) true (lit "Bad.org") (lit "bad.org") [other_task]
    (demo_world Full)).
  - vm_compute. reflexivity.
  - split; [done|by apply (bool_decide_unpack _)|done|done].
  - intros s Hs%in_force_quiet; last done. destruct Hs as (Hc & _ & Hd & _). unfold deny_set_built. rewrite Hc Hd.
    vm_compute. reflexivity.
  - constructor; [apply other_task_built|constructor].
  - vm_compute. reflexivity.
Defined.
