(* ===== verification/LocalUsage.v ===== *)
(** The statistics of token usage ([src-tauri/src/shared/local_usage_core.rs]):
    the session files of the last days are read line by line, and what they say of
    tokens, runs of the agent and its activity is added up per day and per model.
    Integers are [i64] and wrap, as in a release build. Dates are those of the
    [chrono] crate (class [Calendar]); the session files are a snapshot (class
    [SessionFiles]). *)
From S2P Require Import Prelude Json Paths Types Host.
From Stdlib Require Import ZArith Lia Floats.SpecFloat.
#[local] Open Scope Z_scope.

(** ** Numbers *)

Definition i64_wrap (z : Z) : Z := (z + 2 ^ 63) mod 2 ^ 64 - 2 ^ 63.
Definition i64_add (a b : Z) : Z := i64_wrap (a + b).
Definition i64_sub (a b : Z) : Z := i64_wrap (a - b).
Definition i64_sum (l : list Z) : Z := foldl i64_add 0 l.

Definition i64_as_f64 (z : Z) : spec_float := binary_normalize 53 1024 z 0 false.
Definition f64_div (a b : spec_float) : spec_float := SFdiv 53 1024 a b.
Definition f64_times (a b : spec_float) : spec_float := SFmul 53 1024 a b.
Definition signed (negative : bool) (z : Z) : Z := if negative then - z else z.
(** [f64::round]: halves go away from zero. *)
Definition f64_round (x : spec_float) : spec_float :=
  match x with
  | S754_finite s m (Zneg p) =>
      let unit := Zpos (2 ^ p) in
      let q := Zpos m / unit in
      let n := if unit <=? 2 * (Zpos m mod unit) then q + 1 else q in
      binary_normalize 53 1024 (signed s n) 0 s
  | _ => x
  end.
(** [x as i64]: saturating, and 0 for what is not a number. *)
Definition f64_as_i64 (x : spec_float) : Z :=
  match x with
  | S754_finite s m e =>
      Z.max (- 2 ^ 63) (Z.min i64_max
        (match e with Zneg p => signed s (Zpos m / Zpos (2 ^ p)) | _ => signed s (Zpos m * 2 ^ e) end))
  | S754_infinity true => - 2 ^ 63
  | S754_infinity false => i64_max
  | _ => 0
  end.

(** ** Data *)

Record DailyTotals := MkDaily { day_input : Z; day_cached : Z; day_output : Z; agent_ms : Z; agent_runs : Z }.
Definition DailyTotals_default : DailyTotals := MkDaily 0 0 0 0 0.
Record UsageTotals := MkUsage { u_input : Z; u_cached : Z; u_output : Z }.
Definition UsageTotals_default : UsageTotals := MkUsage 0 0 0.
Definition MAX_ACTIVITY_GAP_MS : Z := 2 * 60 * 1000.

Record LocalUsageDay := MkUsageDay {
  day : str;
  input_tokens : Z;
  cached_input_tokens : Z;
  output_tokens : Z;
  total_tokens : Z;
  agent_time_ms : Z;
  day_agent_runs : Z
}.
Record LocalUsageTotals := MkUsageTotals {
  last7_days_tokens : Z;
  last30_days_tokens : Z;
  average_daily_tokens : Z;
  cache_hit_rate_percent : spec_float;
  peak_day : option str;
  peak_day_tokens : Z
}.
Record LocalUsageModel := MkUsageModel { model : str; tokens : Z; share_percent : spec_float }.
Record LocalUsageSnapshot := MkUsageSnapshot {
  updated_at : Z;
  days : list LocalUsageDay;
  totals : LocalUsageTotals;
  top_models : list LocalUsageModel
}.

(** The local time zone and the texts of dates: the milliseconds of an RFC 3339
    text, the day of a moment as [%Y-%m-%d] (none when the moment is out of
    range), and the day that many days ago. *)
Class Calendar := {
  rfc3339_millis : str → option Z;
  local_day : Z → option str;
  days_ago : N → str
}.

(** The session files: directories, their entries that can be read, and the
    iterator over the lines of a file (an item that is [None] is a read that
    failed); and the JSON parser. *)
Class SessionFiles := {
  session_path_exists : str → bool;
  session_read_dir : str → option (list str);
  session_lines : str → option (nat → option (option str));
  json_from_str : str → option value
}.

(** ** Lines *)

Fixpoint find_map {A B} (f : A → option B) (l : list A) : option B :=
  match l with [] => None | x :: r => match f x with Some y => Some y | None => find_map f r end end.

Definition payload_of (v : value) : option object := get "payload" v ≫= as_object.
Definition payload_str (key : str) (v : value) : option str := payload ← payload_of v; obj_get key payload ≫= as_str.

Definition extract_model_from_turn_context (v : value) : option str :=
  payload ← payload_of v;
  match obj_get "model" payload ≫= as_str with
  | Some model => Some model
  | None => info ← obj_get "info" payload ≫= as_object; obj_get "model" info ≫= as_str
  end.
Definition extract_model_from_token_count (v : value) : option str :=
  payload ← payload_of v;
  let info := obj_get "info" payload ≫= as_object in
  or_else (info ← info; or_else (obj_get "model" info) (obj_get "model_name" info) ≫= as_str)
    (or_else (obj_get "model" payload ≫= as_str) (get "model" v ≫= as_str)).
Definition find_usage_map (info : object) (keys : list str) : option object :=
  find_map (λ key, obj_get key info ≫= as_object) keys.
Definition read_i64 (m : object) (keys : list str) : Z :=
  unwrap_or 0 (find_map (λ key, obj_get key m) keys ≫= λ v, or_else (as_i64 v) (as_f64_cast v)).
Definition extract_cwd (v : value) : option str := payload ← get "payload" v; cwd ← get "cwd" payload; as_str cwd.
Definition path_matches_workspace (cwd workspace_path : str) : bool :=
  path_eq cwd workspace_path || path_starts_with cwd workspace_path.

Definition input_keys : list str := [lit "input_tokens"; lit "inputTokens"].
Definition cached_keys : list str :=
  [lit "cached_input_tokens"; lit "cache_read_input_tokens"; lit "cachedInputTokens"; lit "cacheReadInputTokens"].
Definition output_keys : list str := [lit "output_tokens"; lit "outputTokens"].
Definition read_usage (m : object) : UsageTotals :=
  MkUsage (read_i64 m input_keys) (read_i64 m cached_keys) (read_i64 m output_keys).

(** What a [token_count] says: the totals of the session so far, or what the last
    turn added. *)
Inductive UsageReport := TotalUsage (u : UsageTotals) | LastUsage (u : UsageTotals).
Definition usage_report (v : value) : option UsageReport :=
  payload ← payload_of v;
  info ← obj_get "info" payload ≫= as_object;
  match find_usage_map info [lit "total_token_usage"; lit "totalTokenUsage"] with
  | Some total => Some (TotalUsage (read_usage total))
  | None => last ← find_usage_map info [lit "last_token_usage"; lit "lastTokenUsage"]; Some (LastUsage (read_usage last))
  end.
(** What is to be added, and the totals so far. *)
Definition usage_delta (previous_totals : option UsageTotals) (report : UsageReport) : UsageTotals * UsageTotals :=
  let prev := unwrap_or UsageTotals_default previous_totals in
  match report with
  | TotalUsage u =>
      (MkUsage (Z.max (i64_sub (u_input u) (u_input prev)) 0) (Z.max (i64_sub (u_cached u) (u_cached prev)) 0)
         (Z.max (i64_sub (u_output u) (u_output prev)) 0), u)
  | LastUsage u =>
      (u, MkUsage (i64_add (u_input prev) (u_input u)) (i64_add (u_cached prev) (u_cached u)) (i64_add (u_output prev) (u_output u)))
  end.

(** ** One file *)

(** What the loop over the lines of a file keeps; [daily] and [model_totals]
    outlive the file. *)
Record ScanState := MkScan {
  daily : gmap str DailyTotals;
  model_totals : gmap str Z;
  previous_totals : option UsageTotals;
  current_model : option str;
  last_activity_ms : option Z;
  seen_runs : gset Z;
  match_known : bool;
  matches_workspace : bool
}.
Definition scan_start (daily : gmap str DailyTotals) (model_totals : gmap str Z) (workspace_path : option str) : ScanState :=
  MkScan daily model_totals None None None ∅ (negb (is_some_b workspace_path)) (negb (is_some_b workspace_path)).
Definition set_daily (st : ScanState) (d : gmap str DailyTotals) : ScanState :=
  MkScan d (model_totals st) (previous_totals st) (current_model st) (last_activity_ms st) (seen_runs st) (match_known st) (matches_workspace st).
Definition set_model_totals (st : ScanState) (m : gmap str Z) : ScanState :=
  MkScan (daily st) m (previous_totals st) (current_model st) (last_activity_ms st) (seen_runs st) (match_known st) (matches_workspace st).
Definition set_previous (st : ScanState) (u : UsageTotals) : ScanState :=
  MkScan (daily st) (model_totals st) (Some u) (current_model st) (last_activity_ms st) (seen_runs st) (match_known st) (matches_workspace st).
Definition set_model (st : ScanState) (m : str) : ScanState :=
  MkScan (daily st) (model_totals st) (previous_totals st) (Some m) (last_activity_ms st) (seen_runs st) (match_known st) (matches_workspace st).
Definition set_activity (st : ScanState) (ms : Z) : ScanState :=
  MkScan (daily st) (model_totals st) (previous_totals st) (current_model st) (Some ms) (seen_runs st) (match_known st) (matches_workspace st).
Definition set_seen (st : ScanState) (s : gset Z) : ScanState :=
  MkScan (daily st) (model_totals st) (previous_totals st) (current_model st) (last_activity_ms st) s (match_known st) (matches_workspace st).
Definition set_match (st : ScanState) (b : bool) : ScanState :=
  MkScan (daily st) (model_totals st) (previous_totals st) (current_model st) (last_activity_ms st) (seen_runs st) true b.

Section calendar.
Context {C : Calendar}.

Definition read_timestamp_ms (v : value) : option Z :=
  raw ← get "timestamp" v;
  match as_str raw with
  | Some text => rfc3339_millis text
  | None =>
      numeric ← or_else (as_i64 raw) (as_f64_cast raw);
      Some (if (0 <? numeric) && (numeric <? 1000000000000) then numeric * 1000 else numeric)
  end.

(** [daily.get_mut(&day)], for the day of a moment. *)
Definition update_day (ms : Z) (f : DailyTotals → DailyTotals) (d : gmap str DailyTotals) : gmap str DailyTotals :=
  match local_day ms with Some key => alter f key d | None => d end.
Definition add_ms (delta : Z) (t : DailyTotals) : DailyTotals :=
  MkDaily (day_input t) (day_cached t) (day_output t) (i64_add (agent_ms t) delta) (agent_runs t).
Definition add_run (t : DailyTotals) : DailyTotals :=
  MkDaily (day_input t) (day_cached t) (day_output t) (agent_ms t) (i64_add (agent_runs t) 1).
Definition add_usage (delta : UsageTotals) (t : DailyTotals) : DailyTotals :=
  MkDaily (i64_add (day_input t) (u_input delta)) (i64_add (day_cached t) (Z.min (u_cached delta) (u_input delta)))
    (i64_add (day_output t) (u_output delta)) (agent_ms t) (agent_runs t).

Definition track_activity (st : ScanState) (timestamp_ms : Z) : ScanState :=
  let d :=
    match last_activity_ms st with
    | Some prev_ms =>
        let delta := i64_sub timestamp_ms prev_ms in
        if (0 <? delta) && (delta <=? MAX_ACTIVITY_GAP_MS) then update_day timestamp_ms (add_ms delta) (daily st) else daily st
    | None => daily st
    end in
  set_activity (set_daily st d) timestamp_ms.

(** A message of the assistant: a run, once for each moment. *)
Definition count_run (st : ScanState) (timestamp_ms : Z) : ScanState :=
  if bool_decide (timestamp_ms ∈ seen_runs st) then st
  else set_seen (set_daily st (update_day timestamp_ms add_run (daily st))) ({[timestamp_ms]} ∪ seen_runs st).
Definition assistant_message (st : ScanState) (v : value) : ScanState :=
  match read_timestamp_ms v with
  | Some ms => track_activity (count_run st ms) ms
  | None => st
  end.
Definition other_activity (st : ScanState) (v : value) : ScanState :=
  match read_timestamp_ms v with Some ms => track_activity st ms | None => st end.

(** The usage is added to its day and to its model when the day is one that is
    asked for. *)
Definition record_usage (st : ScanState) (v : value) (delta : UsageTotals) : ScanState :=
  match (ms ← read_timestamp_ms v; local_day ms) with
  | Some key =>
      if bool_decide (is_Some (daily st !! key)) then
        let model := unwrap_or (lit "unknown") (or_else (current_model st) (extract_model_from_token_count v)) in
        set_model_totals (set_daily st (alter (add_usage delta) key (daily st)))
          (<[model := i64_add (unwrap_or 0 (model_totals st !! model)) (i64_add (u_input delta) (u_output delta))]> (model_totals st))
      else st
  | None => st
  end.
Definition token_count (st : ScanState) (v : value) : ScanState :=
  match usage_report v with
  | None => st
  | Some report =>
      let '(delta, next) := usage_delta (previous_totals st) report in
      let st := set_previous st next in
      if (u_input delta =? 0) && (u_cached delta =? 0) && (u_output delta =? 0) then st
      else other_activity (record_usage st v delta) v
  end.

Definition event_msg (st : ScanState) (v : value) : ScanState :=
  let payload_type := payload_str "type" v in
  if bool_decide (payload_type = Some (lit "agent_message")) then assistant_message st v
  else if bool_decide (payload_type = Some (lit "agent_reasoning")) then other_activity st v
  else if bool_decide (payload_type = Some (lit "token_count")) then token_count st v
  else st.
Definition response_item (st : ScanState) (v : value) : ScanState :=
  if unwrap_or [] (payload_str "role" v) =s? lit "assistant" then assistant_message st v
  else if negb (bool_decide (payload_str "type" v = Some (lit "message"))) then other_activity st v
  else st.

Definition entry_type (v : value) : str := unwrap_or [] (get "type" v ≫= as_str).
(** Whether an entry names a directory of the workspace that is asked for. *)
Definition entry_match (workspace_path : option str) (v : value) : option bool :=
  if (entry_type v =s? lit "session_meta") || (entry_type v =s? lit "turn_context") then
    cwd ← extract_cwd v; filter ← workspace_path; Some (path_matches_workspace cwd filter)
  else None.
Definition turn_context (st : ScanState) (v : value) : ScanState :=
  match extract_model_from_turn_context v with Some m => set_model st m | None => st end.

(** An entry, and whether the loop goes on. *)
Definition scan_value (workspace_path : option str) (st : ScanState) (v : value) : ScanState * bool :=
  let st := match entry_match workspace_path v with Some b => set_match st b | None => st end in
  if bool_decide (entry_match workspace_path v = Some false) then (st, false)
  else if entry_type v =s? lit "turn_context" then (turn_context st v, true)
  else if entry_type v =s? lit "session_meta" then (st, true)
  else if negb (matches_workspace st) then (st, negb (match_known st))
  else if negb (match_known st) then (st, true)
  else if (entry_type v =s? lit "event_msg") || is_empty (entry_type v) then (event_msg st v, true)
  else if entry_type v =s? lit "response_item" then (response_item st v, true)
  else (st, true).
End calendar.

(** ** Files *)

Section files.
Context {C : Calendar} {F : SessionFiles}.

(** A line that cannot be read, is too long, or is no JSON is skipped. *)
Definition scan_item (workspace_path : option str) (st : ScanState) (item : option str) : ScanState * bool :=
  match item with
  | None => (st, true)
  | Some line =>
      if (512000 <? Z.of_nat (str_len line)) then (st, true)
      else match json_from_str line with Some v => scan_value workspace_path st v | None => (st, true) end
  end.

(** The loop over the lines; it may not end, so it has fuel. *)
Fixpoint scan_lines (workspace_path : option str) (fuel : nat) (items : nat → option (option str)) (i : nat) (st : ScanState) :
    option ScanState :=
  match fuel with
  | O => None
  | S fuel =>
      match items i with
      | None => Some st
      | Some item =>
          let '(st, continue) := scan_item workspace_path st item in
          if (continue : bool) then scan_lines workspace_path fuel items (S i) st else Some st
      end
  end.

(** What outlives a file. *)
Abbreviation Usage := (gmap str DailyTotals * gmap str Z)%type.
Definition scan_file (fuel : nat) (workspace_path : option str) (acc : Usage) (path : str) : option Usage :=
  match session_lines path with
  | None => Some acc
  | Some items =>
      st ← scan_lines workspace_path fuel items 0 (scan_start acc.1 acc.2 workspace_path);
      Some (daily st, model_totals st)
  end.

Definition make_day_keys (days : N) : list str := (λ offset, days_ago (N.of_nat offset)) <$> rev (seq 0 (N.to_nat days)).
Definition day_dir_for_key (root day_key : str) : str :=
  let parts := split_on ch_minus day_key in
  path_join (path_join (path_join root (unwrap_or (lit "1970") (parts !! 0%nat))) (unwrap_or (lit "01") (parts !! 1%nat)))
    (unwrap_or (lit "01") (parts !! 2%nat)).

(** The files of a root for a day. *)
Definition session_files (root day_key : str) : list str :=
  let day_dir := day_dir_for_key root day_key in
  if negb (session_path_exists day_dir) then []
  else match session_read_dir day_dir with
       | Some entries => List.filter (λ path, bool_decide (extension path = Some (lit "jsonl"))) entries
       | None => []
       end.
Fixpoint scan_files (fuel : nat) (workspace_path : option str) (acc : Usage) (paths : list str) : option Usage :=
  match paths with
  | [] => Some acc
  | path :: rest => acc ← scan_file fuel workspace_path acc path; scan_files fuel workspace_path acc rest
  end.
End files.

(** ** The snapshot *)

Definition usage_day (d : gmap str DailyTotals) (day_key : str) : LocalUsageDay :=
  let t := unwrap_or DailyTotals_default (d !! day_key) in
  MkUsageDay day_key (day_input t) (day_cached t) (day_output t) (i64_add (day_input t) (day_output t)) (agent_ms t) (agent_runs t).

(** [(part / whole * 1000.0).round() / 10.0] *)
Definition percent (part whole : Z) : spec_float :=
  if 0 <? whole
  then f64_div (f64_round (f64_times (f64_div (i64_as_f64 part) (i64_as_f64 whole)) (i64_as_f64 1000))) (i64_as_f64 10)
  else i64_as_f64 0.

Definition average_of (sum : Z) (n : nat) : Z :=
  if Nat.eqb n 0 then 0 else f64_as_i64 (f64_round (f64_div (i64_as_f64 sum) (i64_as_f64 (Z.of_nat n)))).

Definition build_snapshot {HO : HashOrder} (updated_at : Z) (day_keys : list str) (d : gmap str DailyTotals) (models : gmap str Z) :
    LocalUsageSnapshot :=
  let days := usage_day d <$> day_keys in
  let total := i64_sum (total_tokens <$> days) in
  let last7 := take 7 (rev days) in
  let last7_tokens := i64_sum (total_tokens <$> last7) in
  let peak := opt_filter (λ day, 0 <? total_tokens day) (max_by_key total_tokens days) in
  let named := List.filter (λ '(name, n), negb (name =s? lit "unknown") && (0 <? n)) (hash_iter models) in
  let top := (λ '(name, n), MkUsageModel name n (percent n total)) <$> named in
  MkUsageSnapshot updated_at days
    (MkUsageTotals last7_tokens total (average_of last7_tokens (length last7))
       (percent (i64_sum (cached_input_tokens <$> last7)) (i64_sum (input_tokens <$> last7)))
       (day <$> peak) (unwrap_or 0 (total_tokens <$> peak)))
    (take 4 (sort_by (λ a b, tokens b <=? tokens a) top)).

(** ** The scan *)

Section snapshot.
Context {C : Calendar} {F : SessionFiles} {HO : HashOrder}.

Definition scan_local_usage (fuel : nat) (updated_at : Z) (days : N) (workspace_path : option str) (sessions_roots : list str) :
    option LocalUsageSnapshot :=
  let day_keys := make_day_keys days in
  let daily := list_to_map ((λ key, (key, DailyTotals_default)) <$> day_keys) in
  if is_empty sessions_roots then Some (build_snapshot updated_at day_keys daily ∅)
  else
    '(daily, models) ← scan_files fuel workspace_path (daily, ∅)
      (root ← sessions_roots; day_key ← day_keys; session_files root day_key);
    Some (build_snapshot updated_at day_keys daily models).

Context {H : Host}.

Definition resolve_codex_sessions_root (w : World) (codex_home_override : option str) : option str :=
  (λ home, path_join home (lit "sessions")) <$> or_else codex_home_override (resolve_default_codex_home w).

Definition parent_of (workspaces : gmap str WorkspaceEntry) (entry : WorkspaceEntry) : option WorkspaceEntry :=
  parent_id ← entry_parent_id entry; workspaces !! parent_id.
Definition resolve_workspace_codex_home_for_path (w : World) (workspaces : gmap str WorkspaceEntry) (workspace_path : str) : option str :=
  entry ← max_by_key (λ entry, Z.of_nat (str_len (entry_path entry)))
            (List.filter (λ entry, path_eq workspace_path (entry_path entry) || path_starts_with workspace_path (entry_path entry))
               (hash_iter workspaces).*2);
  resolve_workspace_codex_home w entry (parent_of workspaces entry).

(** [if seen.insert(root) { roots.push(root) }], for equality of paths. *)
Definition push_root (roots : list str) (root : str) : list str :=
  if existsb (path_eq root) roots then roots else roots ++ [root].
Definition push_workspace_root (w : World) (workspaces : gmap str WorkspaceEntry) (roots : list str) (entry : WorkspaceEntry) : list str :=
  match resolve_workspace_codex_home w entry (parent_of workspaces entry) with
  | Some codex_home =>
      match resolve_codex_sessions_root w (Some codex_home) with Some root => push_root roots root | None => roots end
  | None => roots
  end.
Definition resolve_sessions_roots (w : World) (workspaces : gmap str WorkspaceEntry) (workspace_path : option str) : list str :=
  match workspace_path with
  | Some path => option_list (resolve_codex_sessions_root w (resolve_workspace_codex_home_for_path w workspaces path))
  | None =>
      let roots := match resolve_codex_sessions_root w None with Some root => push_root [] root | None => [] end in
      foldl (push_workspace_root w workspaces) roots (hash_iter workspaces).*2
  end.

Definition local_usage_snapshot_core (fuel : nat) (w : World) (now : Z) (workspaces : gmap str WorkspaceEntry) (days : option N)
    (workspace_path : option str) : option LocalUsageSnapshot :=
  let days := N.max 1 (N.min 90 (unwrap_or 30%N days)) in
  let workspace_path := opt_filter (λ p, negb (is_empty p)) (trim <$> workspace_path) in
  scan_local_usage fuel now days workspace_path (resolve_sessions_roots w workspaces workspace_path).
End snapshot.
