(* ===== verification/UsageStats.v ===== *)
(** Proofs about the statistics of [LocalUsage]: what a session counts for does
    not depend on how it reports its totals, the models account for the days,
    runs are counted once and activity within the time that passed, a workspace
    counts its own sessions; and a file that cannot be read is read forever. *)
From S2P Require Import Prelude Json Paths Types Host LocalUsage.
From Stdlib Require Import ZArith Lia Zdiv.
#[local] Open Scope Z_scope.

(** ** Sums over days, up to the width of [i64] *)

(** Equal as 64-bit integers. *)
Definition same64 (a b : Z) : Prop := ∃ k, a = b + k * 2 ^ 64.
#[local] Notation "a ≡₆₄ b" := (same64 a b) (at level 70).
#[local] Instance same64_equiv : Equivalence same64.
Proof.
  split.
  - intros a. exists 0. lia.
  - intros a b [k ->]. exists (- k). lia.
  - intros a b c [k ->] [l ->]. exists (k + l). lia.
Qed.
#[local] Instance same64_add : Proper (same64 ==> same64 ==> same64) Z.add.
Proof. intros a b [k ->] c d [l ->]. exists (k + l). lia. Qed.
#[local] Instance same64_sub : Proper (same64 ==> same64 ==> same64) Z.sub.
Proof. intros a b [k ->] c d [l ->]. exists (k - l). lia. Qed.
Lemma same64_eq a b : a = b → a ≡₆₄ b.
Proof. by intros ->. Qed.

Lemma i64_wrap_same z : i64_wrap z ≡₆₄ z.
Proof.
  unfold i64_wrap. exists (- ((z + 2 ^ 63) / 2 ^ 64)). pose proof (Z.div_mod (z + 2 ^ 63) (2 ^ 64) ltac:(lia)). lia.
Qed.
Lemma i64_wrap_id z : - 2 ^ 63 <= z < 2 ^ 63 → i64_wrap z = z.
Proof. intros Hz. unfold i64_wrap. rewrite Z.mod_small; lia. Qed.
Lemma i64_add_same a b : i64_add a b ≡₆₄ a + b.
Proof. apply i64_wrap_same. Qed.

Definition sum_over {A} (f : A → Z) (m : gmap str A) : Z := map_fold (λ _ a acc, f a + acc) 0 m.

Lemma sum_over_delete {A} (f : A → Z) (m : gmap str A) k a : m !! k = Some a →
  sum_over f m = f a + sum_over f (delete k m).
Proof. intros Hk. unfold sum_over. rewrite (map_fold_delete_L _ _ k a m) //. intros; lia. Qed.
Lemma sum_over_insert_new {A} (f : A → Z) (m : gmap str A) k a : m !! k = None →
  sum_over f (<[k := a]> m) = f a + sum_over f m.
Proof. intros Hk. rewrite (sum_over_delete f _ k a); first by rewrite lookup_insert_eq. by rewrite delete_insert_id. Qed.
Lemma sum_over_insert {A} (f : A → Z) (m : gmap str A) k a b : m !! k = Some a →
  sum_over f (<[k := b]> m) = f b - f a + sum_over f m.
Proof.
  intros Hk. rewrite (sum_over_delete f _ k b); first by rewrite lookup_insert_eq.
  rewrite (sum_over_delete f m k a) // delete_insert_eq. lia.
Qed.
Lemma sum_over_alter {A} (f : A → Z) (g : A → A) (m : gmap str A) k a : m !! k = Some a →
  sum_over f (alter g k m) = f (g a) - f a + sum_over f m.
Proof.
  intros Hk. assert (alter g k m = <[k := g a]> m) as ->.
  { apply map_eq. intros i. destruct (decide (i = k)) as [->|];
      [by rewrite lookup_alter_eq Hk lookup_insert_eq|by rewrite lookup_alter_ne // lookup_insert_ne]. }
  by apply sum_over_insert.
Qed.
Lemma alter_none {A} (g : A → A) (m : gmap str A) k : m !! k = None → alter g k m = m.
Proof.
  intros Hk. apply map_eq. intros i. destruct (decide (i = k)) as [->|]; [by rewrite lookup_alter_eq Hk|by rewrite lookup_alter_ne].
Qed.
Lemma sum_over_alter_same {A} (f : A → Z) (g : A → A) (m : gmap str A) k : (∀ a, f (g a) = f a) →
  sum_over f (alter g k m) = sum_over f m.
Proof.
  intros Hg. destruct (m !! k) as [a|] eqn:Hk; last by rewrite alter_none. rewrite (sum_over_alter f g m k a) // Hg. lia.
Qed.

Section scan.
Context {C : Calendar}.

(** ** The days of a scan *)

Lemma update_day_sum (f : DailyTotals → Z) g ms d : (∀ t, f (g t) = f t) → sum_over f (update_day ms g d) = sum_over f d.
Proof. intros Hg. unfold update_day. destruct (local_day ms); last done. by apply sum_over_alter_same. Qed.
Lemma update_day_dom g ms (d : gmap str DailyTotals) : dom (update_day ms g d) = dom d.
Proof. unfold update_day. destruct (local_day ms); [by rewrite dom_alter_L|done]. Qed.

(** ** What an entry does to the usage *)

(** The usage of [st'] is that of [st]. *)
Record same_usage (st st' : ScanState) : Prop := {
  same_input : sum_over day_input (daily st') = sum_over day_input (daily st);
  same_output : sum_over day_output (daily st') = sum_over day_output (daily st);
  same_models : model_totals st' = model_totals st;
  same_previous : previous_totals st' = previous_totals st;
  same_days : dom (daily st') = dom (daily st)
}.
#[local] Instance same_usage_refl : Reflexive same_usage.
Proof. intros st. by split. Qed.
#[local] Instance same_usage_trans : Transitive same_usage.
Proof. intros a b c [] []. split; congruence. Qed.

Lemma track_activity_same st ms : same_usage st (track_activity st ms).
Proof.
  unfold track_activity. split; cbn; try done; destruct (last_activity_ms st) as [p|]; try done; destruct (_ && _); try done;
    by rewrite ?update_day_sum ?update_day_dom.
Qed.
Lemma count_run_same st ms : same_usage st (count_run st ms).
Proof. unfold count_run. case_bool_decide; first done. split; cbn; by rewrite ?update_day_sum ?update_day_dom. Qed.
Lemma other_activity_same st v : same_usage st (other_activity st v).
Proof. unfold other_activity. destruct (read_timestamp_ms v); [apply track_activity_same|done]. Qed.
Lemma assistant_message_same st v : same_usage st (assistant_message st v).
Proof.
  unfold assistant_message. destruct (read_timestamp_ms v); last done.
  etrans; [apply count_run_same|apply track_activity_same].
Qed.
Lemma response_item_same st v : same_usage st (response_item st v).
Proof.
  unfold response_item. destruct (_ =s? _); first apply assistant_message_same.
  destruct (negb _); [apply other_activity_same|done].
Qed.

(** The day of an entry. *)
Definition entry_day (v : value) : option str := ms ← read_timestamp_ms v; local_day ms.
Definition in_window (window : gset str) (v : value) : Prop := ∃ key, entry_day v = Some key ∧ key ∈ window.

(** What [delta] adds to the usage of [st]. *)
Record adds_usage (delta : UsageTotals) (st st' : ScanState) : Prop := {
  adds_input : sum_over day_input (daily st') ≡₆₄ sum_over day_input (daily st) + u_input delta;
  adds_output : sum_over day_output (daily st') ≡₆₄ sum_over day_output (daily st) + u_output delta;
  adds_models : sum_over id (model_totals st') ≡₆₄ sum_over id (model_totals st) + (u_input delta + u_output delta);
  adds_days : dom (daily st') = dom (daily st)
}.
Lemma same_adds st st' : same_usage st st' → adds_usage (MkUsage 0 0 0) st st'.
Proof. intros [Hi Ho Hm _ Hd]. split; cbn; rewrite ?Hi ?Ho ?Hm ?Z.add_0_r; done. Qed.
Lemma adds_same delta a b c : adds_usage delta a b → same_usage b c → adds_usage delta a c.
Proof. intros [] [Hi Ho Hm _ Hd]. split; by rewrite ?Hi ?Ho ?Hm ?Hd. Qed.

Lemma record_usage_in st v delta : in_window (dom (daily st)) v → adds_usage delta st (record_usage st v delta).
Proof.
  intros (key & Hk & Hin). unfold record_usage. fold (entry_day v). rewrite Hk. apply elem_of_dom in Hin as [t Ht].
  rewrite bool_decide_true; first by eexists. cbn zeta. split; cbn.
  - rewrite (sum_over_alter _ _ _ _ t) //. cbn. rewrite i64_add_same. apply same64_eq. lia.
  - rewrite (sum_over_alter _ _ _ _ t) //. cbn. rewrite i64_add_same. apply same64_eq. lia.
  - set (name := unwrap_or _ _). destruct (model_totals st !! name) as [n|] eqn:Hn.
    + rewrite (sum_over_insert _ _ _ n) //. cbn. rewrite !i64_add_same. apply same64_eq. cbn. lia.
    + rewrite sum_over_insert_new //. cbn. rewrite !i64_add_same. apply same64_eq. cbn. lia.
  - by rewrite dom_alter_L.
Qed.
Lemma record_usage_out st v delta : ¬ in_window (dom (daily st)) v → record_usage st v delta = st.
Proof.
  intros Hout. unfold record_usage. fold (entry_day v). destruct (entry_day v) as [key|] eqn:Hk; last done.
  rewrite bool_decide_false //. intros Hin. apply Hout. exists key. split; [done|by apply elem_of_dom].
Qed.
Lemma record_usage_previous st v delta : previous_totals (record_usage st v delta) = previous_totals st.
Proof. unfold record_usage. destruct (ms ← _; _); last done. by case_bool_decide. Qed.

#[global] Instance in_window_dec window v : Decision (in_window window v).
Proof.
  refine (match entry_day v as o return entry_day v = o → _ with
          | Some key => λ Hk, cast_if (decide (key ∈ window))
          | None => λ Hk, right _
          end eq_refl).
  - by exists key.
  - intros (key' & Hk' & ?). congruence.
  - intros (key' & Hk' & ?). congruence.
Defined.

Definition no_usage : UsageTotals := MkUsage 0 0 0.
Lemma token_count_adds st v report : usage_report v = Some report →
  let delta := (usage_delta (previous_totals st) report).1 in
  previous_totals (token_count st v) = Some (usage_delta (previous_totals st) report).2 ∧
  adds_usage (if decide (in_window (dom (daily st)) v) then delta else no_usage) st (token_count st v).
Proof.
  intros Hr. cbn zeta. unfold token_count. rewrite Hr. destruct (usage_delta _ report) as [delta next]. cbn [fst snd].
  assert (∀ d st', adds_usage d (set_previous st next) st' → adds_usage d st st') as Hprev by (by intros ? ? []; split).
  destruct ((u_input delta =? 0) && (u_cached delta =? 0) && (u_output delta =? 0)) eqn:Hz.
  - apply andb_true_iff in Hz as [[Hi _]%andb_true_iff Ho]. apply Z.eqb_eq in Hi, Ho. split; first done.
    assert (adds_usage no_usage st (set_previous st next)) as [] by (split; cbn; rewrite ?Z.add_0_r; done).
    destruct (decide _); split; try done; by rewrite ?Hi ?Ho.
  - split.
    + rewrite (same_previous _ _ (other_activity_same _ _)). apply record_usage_previous.
    + eapply adds_same; last apply other_activity_same. apply Hprev. destruct (decide _).
      * by apply record_usage_in.
      * rewrite record_usage_out //. by apply same_adds.
Qed.

(** ** The loop, for all workspaces *)

(** What an entry reports, when its kind is one that counts. *)
Definition counted_report (v : value) : option UsageReport :=
  if ((entry_type v =s? lit "event_msg") || is_empty (entry_type v)) && bool_decide (payload_str "type" v = Some (lit "token_count"))
  then usage_report v else None.
Definition step (st : ScanState) (v : value) : ScanState := (scan_value None st v).1.
Definition opened (st : ScanState) : Prop := match_known st = true ∧ matches_workspace st = true.

Lemma event_msg_usage st v :
  match (if bool_decide (payload_str "type" v = Some (lit "token_count")) then usage_report v else None) with
  | Some _ => event_msg st v = token_count st v
  | None => same_usage st (event_msg st v)
  end.
Proof.
  unfold event_msg. destruct (decide (payload_str "type" v = Some (lit "token_count"))) as [Ht|Ht].
  - rewrite Ht. cbn -[usage_report]. destruct (usage_report v) eqn:Hr; first done. unfold token_count. by rewrite Hr.
  - rewrite bool_decide_false //. case_bool_decide; first apply assistant_message_same.
    by case_bool_decide; first apply other_activity_same.
Qed.
Lemma entry_match_all v : entry_match None v = None.
Proof. unfold entry_match. destruct (_ || _); last done. by destruct (extract_cwd v). Qed.
Lemma step_usage st v : opened st →
  match counted_report v with
  | Some _ => step st v = token_count st v
  | None => same_usage st (step st v)
  end.
Proof.
  intros [Hk Hm]. unfold step, counted_report, scan_value. rewrite entry_match_all. cbn zeta.
  rewrite (bool_decide_false (None = Some false)) //.
  assert (∀ a, entry_type v = a → a ≠ [] → a ≠ lit "event_msg" →
    (entry_type v =s? lit "event_msg") || is_empty (entry_type v) = false) as Hother.
  { intros a -> Hne He. apply orb_false_iff. split; [by apply str_eqb_neq|by apply is_empty_false]. }
  destruct (str_eqb (entry_type v) (lit "turn_context")) eqn:Et.
  { apply str_eqb_eq in Et. rewrite (Hother _ Et) //. cbn. unfold turn_context. by destruct (extract_model_from_turn_context v). }
  destruct (str_eqb (entry_type v) (lit "session_meta")) eqn:Es.
  { apply str_eqb_eq in Es. by rewrite (Hother _ Es). }
  rewrite Hk Hm. cbn [negb]. destruct ((entry_type v =s? lit "event_msg") || is_empty (entry_type v)).
  - cbn [andb fst]. apply event_msg_usage.
  - cbn [andb]. destruct (entry_type v =s? lit "response_item"); [apply response_item_same|done].
Qed.

Lemma opened_same st st' : match_known st' = match_known st → matches_workspace st' = matches_workspace st → opened st → opened st'.
Proof. unfold opened. by intros -> ->. Qed.
Lemma track_activity_opened st ms : opened st → opened (track_activity st ms).
Proof. done. Qed.
Lemma other_activity_opened st v : opened st → opened (other_activity st v).
Proof. unfold other_activity. by destruct (read_timestamp_ms v). Qed.
Lemma assistant_message_opened st v : opened st → opened (assistant_message st v).
Proof. unfold assistant_message, count_run. destruct (read_timestamp_ms v); last done. by case_bool_decide. Qed.
Lemma record_usage_opened st v delta : opened st → opened (record_usage st v delta).
Proof. unfold record_usage. destruct (ms ← _; _); last done. by case_bool_decide. Qed.
Lemma token_count_opened st v : opened st → opened (token_count st v).
Proof.
  unfold token_count. destruct (usage_report v); last done. destruct (usage_delta _ _). intros Ho.
  destruct (_ && _); first done. by apply other_activity_opened, record_usage_opened.
Qed.
#[local] Hint Resolve other_activity_opened assistant_message_opened token_count_opened : core.
Lemma scan_value_all st v : opened st → scan_value None st v = (step st v, true) ∧ opened (step st v).
Proof.
  intros Ho. pose proof Ho as [Hk Hm]. unfold step, scan_value. rewrite entry_match_all (bool_decide_false (None = Some false)) //.
  rewrite Hk Hm. cbn [negb].
  destruct (entry_type v =s? _); first by unfold turn_context; destruct (extract_model_from_turn_context v).
  destruct (entry_type v =s? _); first done.
  destruct (_ || _); [|destruct (entry_type v =s? _); last done]; (split; first done); cbn [fst].
  - unfold event_msg. repeat case_bool_decide; auto.
  - unfold response_item. destruct (_ =s? _); first auto. destruct (negb _); auto.
Qed.

Fixpoint scan_values (workspace_path : option str) (st : ScanState) (vs : list value) : ScanState :=
  match vs with
  | [] => st
  | v :: rest => let '(st, continue) := scan_value workspace_path st v in if (continue : bool) then scan_values workspace_path st rest else st
  end.
Lemma scan_values_all st vs : opened st → scan_values None st vs = foldl step st vs.
Proof.
  revert st. induction vs as [|v vs IH]; intros st Ho; first done. cbn. destruct (scan_value_all st v Ho) as [-> Ho']. by apply IH.
Qed.

(** ** Usage is counted once *)

Definition usage_plus (a b : UsageTotals) : UsageTotals :=
  MkUsage (u_input a + u_input b) (u_cached a + u_cached b) (u_output a + u_output b).
(** The totals after a report, without bounds. *)
Definition total_after (prev : UsageTotals) (report : UsageReport) : UsageTotals :=
  match report with TotalUsage u => u | LastUsage u => usage_plus prev u end.
Definition final_total (prev : UsageTotals) (vs : list value) : UsageTotals :=
  foldl (λ prev v, match counted_report v with Some report => total_after prev report | None => prev end) prev vs.

(** Totals that do not decrease and fit [i64]. *)
Definition grows (a b : UsageTotals) : Prop :=
  0 <= u_input a <= u_input b ∧ u_input b <= i64_max ∧ 0 <= u_output a <= u_output b ∧ u_output b <= i64_max.
(** A session whose reports never go back. *)
Fixpoint growing (prev : UsageTotals) (vs : list value) : Prop :=
  match vs with
  | [] => True
  | v :: rest =>
      match counted_report v with
      | Some report => grows prev (total_after prev report) ∧ growing (total_after prev report) rest
      | None => growing prev rest
      end
  end.
(** What the reports that are dated on the days asked for add to the totals. *)
Fixpoint added_on (window : gset str) (prev : UsageTotals) (vs : list value) : UsageTotals :=
  match vs with
  | [] => no_usage
  | v :: rest =>
      match counted_report v with
      | Some report =>
          let next := total_after prev report in
          usage_plus (if decide (in_window window v) then MkUsage (u_input next - u_input prev) 0 (u_output next - u_output prev) else no_usage)
            (added_on window next rest)
      | None => added_on window prev rest
      end
  end.
(** All reports are dated on these days. *)
Definition reports_in (window : gset str) (vs : list value) : Prop := ∀ v, v ∈ vs → is_Some (counted_report v) → in_window window v.

#[global] Instance growing_dec prev vs : Decision (growing prev vs).
Proof.
  revert prev. induction vs as [|v vs IH]; intros prev; cbn; first apply _. destruct (counted_report v); last apply IH.
  unfold grows. repeat apply and_dec; first [apply IH | apply _].
Defined.
Lemma added_on_all window prev vs : reports_in window vs →
  u_input (added_on window prev vs) = u_input (final_total prev vs) - u_input prev
  ∧ u_output (added_on window prev vs) = u_output (final_total prev vs) - u_output prev.
Proof.
  revert prev. induction vs as [|v vs IH]; intros prev Hin; cbn; first lia.
  assert (reports_in window vs) as Hin' by (intros v' Hv'; apply Hin; by right).
  destruct (counted_report v) as [report|] eqn:Hr; last by apply IH. rewrite decide_True; first by (apply Hin; [by left|by rewrite Hr]).
  destruct (IH (total_after prev report) Hin') as [Hi Ho]. cbn. rewrite Hi Ho. unfold final_total. lia.
Qed.

Definition tokens_of (u : UsageTotals) : Z * Z := (u_input u, u_output u).
Lemma usage_delta_grows prev0 prev report : tokens_of (unwrap_or UsageTotals_default prev0) = tokens_of prev → grows prev (total_after prev report) →
  let '(delta, next) := usage_delta prev0 report in
  u_input delta = u_input (total_after prev report) - u_input prev ∧ u_output delta = u_output (total_after prev report) - u_output prev ∧
  tokens_of next = tokens_of (total_after prev report).
Proof.
  intros [= Hi Ho] (? & ? & ? & ?). unfold i64_max in *. destruct report as [u|u]; cbn in *.
  - rewrite /i64_sub Hi Ho !i64_wrap_id; [lia..|]. split_and!; [lia..|done].
  - split_and!; [lia..|]. unfold tokens_of. cbn. rewrite /i64_add Hi Ho !i64_wrap_id; [lia..|done].
Qed.

Lemma adds_usage_trans da db a b c : adds_usage da a b → adds_usage db b c → adds_usage (usage_plus da db) a c.
Proof.
  intros [Hi Ho Hm Hd] [Hi' Ho' Hm' Hd']. split; cbn; try (by rewrite Hd').
  - rewrite Hi' Hi. apply same64_eq. lia.
  - rewrite Ho' Ho. apply same64_eq. lia.
  - rewrite Hm' Hm. apply same64_eq. lia.
Qed.
Lemma adds_usage_tokens d d' a b : tokens_of d = tokens_of d' → adds_usage d a b → adds_usage d' a b.
Proof. intros [= Hi Ho] []. split; by rewrite -?Hi -?Ho. Qed.
Lemma step_opened st v : opened st → opened (step st v).
Proof. intros Ho. by apply scan_value_all. Qed.

Lemma usage_counted window prev vs st : growing prev vs → opened st → dom (daily st) = window →
  tokens_of (unwrap_or UsageTotals_default (previous_totals st)) = tokens_of prev →
  adds_usage (added_on window prev vs) st (foldl step st vs).
Proof.
  revert prev st. induction vs as [|v vs IH]; intros prev st Hg Ho Hw Hp; cbn -[step].
  { by apply same_adds. }
  pose proof (step_usage st v Ho) as Hs. cbn in Hg. destruct (counted_report v) as [report|] eqn:Hr.
  - destruct Hg as (Hgrow & Hg).
    assert (usage_report v = Some report) as Hu by (unfold counted_report in Hr; by destruct (_ && _)).
    pose proof (token_count_adds st v report Hu) as [Hprev Hadds]. rewrite Hw in Hadds.
    pose proof (usage_delta_grows _ _ _ Hp Hgrow) as Hd. rewrite Hs in IH |- *.
    destruct (usage_delta (previous_totals st) report) as [delta next] eqn:Ed. destruct Hd as (Hdi & Hdo & Hdn). cbn [fst snd] in *.
    eapply adds_usage_trans; [eapply adds_usage_tokens; [|exact Hadds]|apply (IH (total_after prev report))].
    + destruct (decide _); last done. unfold tokens_of. cbn. by rewrite Hdi Hdo.
    + done.
    + by apply token_count_opened.
    + by rewrite (adds_days _ _ _ Hadds).
    + rewrite Hprev. exact Hdn.
  - eapply adds_usage_tokens; last eapply adds_usage_trans; [|by apply same_adds, Hs|apply (IH prev)].
    + unfold tokens_of; cbn. f_equal; lia.
    + done.
    + by apply step_opened.
    + by rewrite (same_days _ _ Hs).
    + by rewrite (same_previous _ _ Hs).
Qed.

(** ** Every scan keeps the models and the days together *)

Definition adds_some (st st' : ScanState) : Prop := ∃ delta, adds_usage delta st st'.
Lemma adds_some_same st st' : same_usage st st' → adds_some st st'.
Proof. exists no_usage. by apply same_adds. Qed.
Lemma event_msg_adds st v : adds_some st (event_msg st v).
Proof.
  pose proof (event_msg_usage st v) as H. destruct (if bool_decide _ then _ else _) as [report|] eqn:Hr; last by apply adds_some_same.
  rewrite H. eexists. by apply (token_count_adds st v report); case_bool_decide.
Qed.
Lemma scan_value_adds workspace_path st v : adds_some st (scan_value workspace_path st v).1.
Proof.
  unfold scan_value. set (st0 := match entry_match workspace_path v with Some b => set_match st b | None => st end).
  assert (same_usage st st0) as H0 by (unfold st0; destruct (entry_match workspace_path v); [by split|done]).
  assert (∀ st', adds_some st0 st' → adds_some st st') as Htrans.
  { intros st' [d Hd]. eexists. eapply adds_usage_trans; [by apply same_adds|done]. }
  destruct (bool_decide _); first by apply adds_some_same.
  destruct (entry_type v =s? _).
  { apply Htrans, adds_some_same. unfold turn_context. by destruct (extract_model_from_turn_context v). }
  destruct (entry_type v =s? _); first by apply adds_some_same.
  destruct (negb (matches_workspace st0)); first by apply adds_some_same.
  destruct (negb (match_known st0)); first by apply adds_some_same.
  destruct (_ || _); first apply Htrans, event_msg_adds.
  destruct (entry_type v =s? _); [apply Htrans, adds_some_same, response_item_same|by apply adds_some_same].
Qed.
Lemma scan_values_adds workspace_path vs st : adds_some st (scan_values workspace_path st vs).
Proof.
  revert st. induction vs as [|v vs IH]; intros st; first by apply adds_some_same. cbn.
  pose proof (scan_value_adds workspace_path st v) as [d Hd]. destruct (scan_value workspace_path st v) as [st' []]; last by exists d.
  destruct (IH st') as [d' Hd']. eexists. by eapply adds_usage_trans.
Qed.

(** ** Sessions of other workspaces *)

(** What a scan for a workspace sees of a session: without entries before the
    first directory it names, but for the models of its turns, up to an entry that
    names another directory. *)
Definition names_directory (v : value) : option str :=
  if (entry_type v =s? lit "session_meta") || (entry_type v =s? lit "turn_context") then extract_cwd v else None.
Definition is_context (v : value) : bool := (entry_type v =s? lit "session_meta") || (entry_type v =s? lit "turn_context").
Fixpoint up_to_another (filter : str) (vs : list value) : list value :=
  match vs with
  | [] => []
  | v :: rest =>
      match names_directory v with
      | Some cwd => if path_matches_workspace cwd filter then v :: up_to_another filter rest else []
      | None => v :: up_to_another filter rest
      end
  end.
Fixpoint of_workspace (filter : str) (vs : list value) : list value :=
  match vs with
  | [] => []
  | v :: rest =>
      match names_directory v with
      | Some cwd => up_to_another filter vs
      | None => if is_context v then v :: of_workspace filter rest else of_workspace filter rest
      end
  end.

(** The states agree on all but what is known of the workspace. *)
Definition same_counts (a b : ScanState) : Prop := set_match a true = set_match b true.
Lemma same_counts_open a b : opened a → opened b → same_counts a b → a = b.
Proof. destruct a, b. unfold opened, same_counts, set_match. cbn. intros [-> ->] [-> ->]. by intros [= -> -> -> -> -> ->]. Qed.

Lemma entry_match_some filter v : entry_match (Some filter) v = (λ cwd, path_matches_workspace cwd filter) <$> names_directory v.
Proof. unfold entry_match, names_directory. destruct (_ || _); last done. by destruct (extract_cwd v). Qed.
Lemma set_match_opened st : opened st → set_match st true = st.
Proof. destruct st. intros [??]. cbn in *. by subst. Qed.
Lemma scan_value_matching filter st v : opened st → entry_match (Some filter) v ≠ Some false →
  scan_value (Some filter) st v = scan_value None st v.
Proof.
  intros Ho Hm. unfold scan_value. rewrite entry_match_all. destruct (entry_match (Some filter) v) as [[]|] eqn:E; [|done|done].
  rewrite set_match_opened // !bool_decide_false //.
Qed.
Lemma scan_value_mismatch filter st v : entry_match (Some filter) v = Some false → scan_value (Some filter) st v = (set_match st false, false).
Proof. intros E. unfold scan_value. by rewrite E bool_decide_true. Qed.

Lemma scan_up_to_another filter vs st : opened st →
  same_counts (scan_values (Some filter) st vs) (scan_values None st (up_to_another filter vs)).
Proof.
  revert st. induction vs as [|v vs IH]; intros st Ho; first done. cbn. pose proof (entry_match_some filter v) as Hm.
  pose proof (scan_value_all st v Ho) as [Hv Ho'].
  destruct (names_directory v) as [cwd|]; cbn in Hm.
  - destruct (path_matches_workspace cwd filter).
    + rewrite scan_value_matching ?Hm // Hv. cbn. rewrite Hv. by apply IH.
    + by rewrite scan_value_mismatch.
  - rewrite scan_value_matching ?Hm // Hv. cbn. rewrite Hv. by apply IH.
Qed.

(** Before the first directory is known, only the model is noted. *)
Lemma scan_value_unknown filter st v : match_known st = false → matches_workspace st = false → names_directory v = None →
  scan_value (Some filter) st v = (if is_context v && (entry_type v =s? lit "turn_context") then turn_context st v else st, true).
Proof.
  intros Hk Hm Hn. unfold scan_value. rewrite entry_match_some Hn. cbn. rewrite bool_decide_false //. unfold is_context.
  rewrite Hk Hm. destruct (entry_type v =s? lit "turn_context"); first by rewrite orb_true_r.
  rewrite andb_false_r. by destruct (entry_type v =s? _).
Qed.
Lemma scan_of_workspace filter vs st : match_known st = false → matches_workspace st = false →
  same_counts (scan_values (Some filter) st vs) (scan_values None (set_match st true) (of_workspace filter vs)).
Proof.
  revert st. induction vs as [|v vs IH]; intros st Hk Hm; first done. cbn [of_workspace].
  destruct (names_directory v) as [cwd|] eqn:Hn.
  - cbn. rewrite Hn. pose proof (entry_match_some filter v) as Hmatch. rewrite Hn in Hmatch. cbn in Hmatch.
    destruct (path_matches_workspace cwd filter); last by rewrite scan_value_mismatch.
    assert (scan_value (Some filter) st v = scan_value (Some filter) (set_match st true) v) as ->.
    { unfold scan_value. by rewrite Hmatch. }
    rewrite scan_value_matching // ?Hmatch //. cbn. pose proof (scan_value_all (set_match st true) v) as [-> Ho]; first done.
    by apply scan_up_to_another.
  - cbn [scan_values]. rewrite scan_value_unknown //. destruct (is_context v) eqn:Hc; cbn [andb]; last by apply IH.
    cbn [scan_values]. unfold scan_value. rewrite entry_match_all bool_decide_false //.
    destruct (entry_type v =s? lit "turn_context") eqn:Et.
    + assert (turn_context (set_match st true) v = set_match (turn_context st v) true) as ->
        by (unfold turn_context; by destruct (extract_model_from_turn_context v)).
      apply IH; unfold turn_context; by destruct (extract_model_from_turn_context v).
    + unfold is_context in Hc. rewrite Et orb_false_r in Hc. rewrite Hc. by apply IH.
Qed.

(** ** Runs *)

(** The moment of a message of the assistant. *)
Definition run_time (v : value) : option Z :=
  if is_context v then None
  else if (entry_type v =s? lit "event_msg") || is_empty (entry_type v)
  then if bool_decide (payload_str "type" v = Some (lit "agent_message")) then read_timestamp_ms v else None
  else if entry_type v =s? lit "response_item"
  then if unwrap_or [] (payload_str "role" v) =s? lit "assistant" then read_timestamp_ms v else None
  else None.

Record same_runs (st st' : ScanState) : Prop := {
  runs_sum : sum_over agent_runs (daily st') = sum_over agent_runs (daily st);
  runs_seen : seen_runs st' = seen_runs st;
  runs_days : dom (daily st') = dom (daily st)
}.
#[local] Instance same_runs_refl : Reflexive same_runs.
Proof. intros st. by split. Qed.
#[local] Instance same_runs_trans : Transitive same_runs.
Proof. intros a b c [] []. split; congruence. Qed.
Lemma track_activity_runs st ms : same_runs st (track_activity st ms).
Proof.
  unfold track_activity. split; cbn; try done; destruct (last_activity_ms st); try done; destruct (_ && _); try done;
    by rewrite ?update_day_sum ?update_day_dom.
Qed.
Lemma other_activity_runs st v : same_runs st (other_activity st v).
Proof. unfold other_activity. destruct (read_timestamp_ms v); [apply track_activity_runs|done]. Qed.
Lemma record_usage_runs st v delta : same_runs st (record_usage st v delta).
Proof.
  unfold record_usage. destruct (ms ← _; _) as [key|]; last done. case_bool_decide; last done.
  split; cbn; try done; [by apply sum_over_alter_same|by rewrite dom_alter_L].
Qed.
Lemma token_count_runs st v : same_runs st (token_count st v).
Proof.
  unfold token_count. destruct (usage_report v); last done. destruct (usage_delta _ _) as [delta next].
  assert (same_runs st (set_previous st next)) as H by by split.
  destruct (_ && _); first done. etrans; first exact H. etrans; [apply record_usage_runs|apply other_activity_runs].
Qed.

(** The moments of a set that are on days of the window. *)
Definition on_days (window : gset str) (ms : Z) : Prop := ∃ key, local_day ms = Some key ∧ key ∈ window.
#[local] Instance on_days_dec window ms : Decision (on_days window ms).
Proof.
  refine (match local_day ms as o return local_day ms = o → _ with
          | Some key => λ Hk, cast_if (decide (key ∈ window))
          | None => λ Hk, right _
          end eq_refl).
  - by exists key.
  - intros (key' & Hk' & ?). congruence.
  - intros (key' & Hk' & ?). congruence.
Defined.
Definition runs_on (window : gset str) (moments : gset Z) : Z := Z.of_nat (size (filter (on_days window) moments)).

(** The runs of a state are those of the moments it has seen, up to a constant. *)
Definition runs_balance (st : ScanState) : Z := sum_over agent_runs (daily st) - runs_on (dom (daily st)) (seen_runs st).
Lemma same_runs_balance st st' : same_runs st st' → runs_balance st' = runs_balance st.
Proof. intros [Hs Hr Hd]. unfold runs_balance. by rewrite Hs Hr Hd. Qed.

Lemma count_run_balance st ms :
  runs_balance (count_run st ms) ≡₆₄ runs_balance st ∧ seen_runs (count_run st ms) = {[ms]} ∪ seen_runs st
  ∧ dom (daily (count_run st ms)) = dom (daily st).
Proof.
  unfold count_run. case_bool_decide as Hin; first by split_and!; [done|set_solver|].
  unfold runs_balance, runs_on. cbn. rewrite update_day_dom. split_and!; [|done|done].
  destruct (decide (on_days (dom (daily st)) ms)) as [(key & Hk & Hkey)|Hout].
  - rewrite filter_union_L filter_singleton_True_L; first by exists key.
    rewrite size_union ?size_singleton; first set_solver.
    unfold update_day. rewrite Hk. apply elem_of_dom in Hkey as [t Ht]. rewrite (sum_over_alter _ _ _ _ t) //. cbn.
    rewrite i64_add_same. apply same64_eq. lia.
  - rewrite filter_union_L filter_singleton_False_L // left_id_L. apply same64_eq. f_equal.
    unfold update_day. destruct (local_day ms) as [key|] eqn:Hk; last done. rewrite alter_none //. apply not_elem_of_dom.
    intros Hkey. apply Hout. by exists key.
Qed.

Lemma assistant_message_runs st v :
  runs_balance (assistant_message st v) ≡₆₄ runs_balance st ∧ dom (daily (assistant_message st v)) = dom (daily st)
  ∧ seen_runs (assistant_message st v) = list_to_set (option_list (read_timestamp_ms v)) ∪ seen_runs st.
Proof.
  unfold assistant_message. destruct (read_timestamp_ms v) as [ms|]; cbn; last by split_and!; [done|done|set_solver].
  destruct (count_run_balance st ms) as (Hb & Hs & Hd). pose proof (track_activity_runs (count_run st ms) ms) as H.
  rewrite (same_runs_balance _ _ H) (runs_days _ _ H). split_and!; [done|done|]. etrans; first exact (runs_seen _ _ H). rewrite Hs. set_solver.
Qed.

Lemma step_runs st v : opened st →
  runs_balance (step st v) ≡₆₄ runs_balance st ∧ dom (daily (step st v)) = dom (daily st)
  ∧ seen_runs (step st v) = list_to_set (option_list (run_time v)) ∪ seen_runs st.
Proof.
  intros [Hk Hm]. assert (∀ st', same_runs st st' → run_time v = None →
    runs_balance st' ≡₆₄ runs_balance st ∧ dom (daily st') = dom (daily st)
    ∧ seen_runs st' = list_to_set (option_list (run_time v)) ∪ seen_runs st) as Hsame.
  { intros st' H ->. rewrite (same_runs_balance _ _ H) (runs_days _ _ H) (runs_seen _ _ H). split_and!; [done|done|set_solver]. }
  unfold step, scan_value. rewrite entry_match_all (bool_decide_false (None = Some false)) // Hk Hm. cbn [negb].
  unfold run_time, is_context in *.
  destruct (entry_type v =s? lit "turn_context").
  { rewrite orb_true_r in Hsame |- *. apply Hsame; last done. unfold turn_context. by destruct (extract_model_from_turn_context v). }
  rewrite orb_false_r in Hsame |- *. destruct (entry_type v =s? lit "session_meta"); first by apply Hsame.
  destruct ((entry_type v =s? lit "event_msg") || is_empty (entry_type v)); cbn [fst].
  - unfold event_msg. destruct (bool_decide (payload_str "type" v = Some (lit "agent_message"))); first apply assistant_message_runs.
    apply Hsame; last done. case_bool_decide; first apply other_activity_runs. case_bool_decide; [apply token_count_runs|done].
  - destruct (entry_type v =s? lit "response_item"); last by apply Hsame. unfold response_item.
    destruct (unwrap_or [] (payload_str "role" v) =s? lit "assistant"); first apply assistant_message_runs.
    apply Hsame; last done. destruct (negb _); [apply other_activity_runs|done].
Qed.

Lemma runs_counted vs st : opened st →
  runs_balance (foldl step st vs) ≡₆₄ runs_balance st ∧ dom (daily (foldl step st vs)) = dom (daily st)
  ∧ seen_runs (foldl step st vs) = list_to_set (omap run_time vs) ∪ seen_runs st.
Proof.
  revert st. induction vs as [|v vs IH]; intros st Ho; cbn -[step]; first by split_and!; [done|done|set_solver].
  destruct (step_runs st v Ho) as (Hb & Hd & Hs), (IH (step st v) (step_opened _ _ Ho)) as (Hb' & Hd' & Hs').
  split_and!; [by rewrite Hb'|by rewrite Hd'|]. rewrite Hs' Hs. destruct (run_time v); cbn; set_solver.
Qed.

(** ** Activity *)

Definition activity (st : ScanState) : Z := sum_over agent_ms (daily st).

(** At a moment, at most the time since the last activity is added, and no more
    than the longest gap. *)
Definition tracks (ms : Z) (st st' : ScanState) : Prop :=
  last_activity_ms st' = Some ms ∧ ∃ k, activity st' ≡₆₄ activity st + k ∧ 0 <= k <= MAX_ACTIVITY_GAP_MS ∧
    match last_activity_ms st with Some p => k <= Z.max 0 (i64_sub ms p) | None => k = 0 end.
Definition keeps_activity (st st' : ScanState) : Prop :=
  last_activity_ms st' = last_activity_ms st ∧ activity st' = activity st.

Lemma update_day_activity ms delta d : 0 <= delta →
  ∃ k, sum_over agent_ms (update_day ms (add_ms delta) d) ≡₆₄ sum_over agent_ms d + k ∧ (k = 0 ∨ k = delta).
Proof.
  intros _. unfold update_day. destruct (local_day ms) as [key|]; last by exists 0; rewrite Z.add_0_r; split; [|by left].
  destruct (d !! key) as [t|] eqn:Ht; last by exists 0; rewrite alter_none // Z.add_0_r; split; [|by left].
  exists delta. split; last by right. rewrite (sum_over_alter _ _ _ _ t) //. cbn. rewrite i64_add_same. apply same64_eq. lia.
Qed.
Lemma track_activity_tracks st ms : tracks ms st (track_activity st ms).
Proof.
  unfold tracks, track_activity, activity. split; first done. cbn.
  destruct (last_activity_ms st) as [p|]; last by exists 0; rewrite Z.add_0_r; split_and!; done.
  destruct ((0 <? i64_sub ms p) && (i64_sub ms p <=? MAX_ACTIVITY_GAP_MS)) eqn:Hgap.
  - apply andb_true_iff in Hgap as [Hpos%Z.ltb_lt Hmax%Z.leb_le].
    destruct (update_day_activity ms (i64_sub ms p) (daily st)) as (k & Hk & Hor); first lia. exists k. split; first done. lia.
  - exists 0. rewrite Z.add_0_r. split; first done. unfold MAX_ACTIVITY_GAP_MS. lia.
Qed.

Lemma keeps_tracks ms a b c : keeps_activity a b → tracks ms b c → tracks ms a c.
Proof. intros [Hl Ha] (Hl' & k & Hk & Hb & Hm). split; first done. exists k. by rewrite -Ha -Hl. Qed.
Lemma count_run_keeps st ms : keeps_activity st (count_run st ms).
Proof. unfold count_run, keeps_activity, activity. case_bool_decide; first done. cbn. by rewrite update_day_sum. Qed.
Lemma record_usage_keeps st v delta : keeps_activity st (record_usage st v delta).
Proof.
  unfold record_usage. destruct (ms ← _; _); last done. case_bool_decide; last done.
  split; first done. by apply (sum_over_alter_same agent_ms).
Qed.

(** An entry is no activity, or activity at its moment. *)
Definition acts (v : value) (st st' : ScanState) : Prop :=
  keeps_activity st st' ∨ ∃ ms, read_timestamp_ms v = Some ms ∧ tracks ms st st'.
Lemma other_activity_acts v st0 st : keeps_activity st0 st → acts v st0 (other_activity st v).
Proof.
  intros Hk. unfold other_activity. destruct (read_timestamp_ms v) as [ms|] eqn:Hms; last by left.
  right. exists ms. split; first done. eapply keeps_tracks; [exact Hk|apply track_activity_tracks].
Qed.
Lemma assistant_message_acts v st : acts v st (assistant_message st v).
Proof.
  unfold assistant_message. destruct (read_timestamp_ms v) as [ms|] eqn:Hms; last by left.
  right. exists ms. split; first done. eapply keeps_tracks; [apply count_run_keeps|apply track_activity_tracks].
Qed.
Lemma token_count_acts v st : acts v st (token_count st v).
Proof.
  unfold token_count. destruct (usage_report v); last by left. destruct (usage_delta _ _) as [delta next].
  destruct (_ && _); first by left. apply other_activity_acts. apply (record_usage_keeps (set_previous st next)).
Qed.
Lemma step_acts v st : opened st → acts v st (step st v).
Proof.
  intros [Hk Hm]. assert (acts v st st) as Hno by by left.
  unfold step, scan_value. rewrite entry_match_all (bool_decide_false (None = Some false)) // Hk Hm. cbn [negb].
  destruct (entry_type v =s? lit "turn_context").
  { left. unfold turn_context. by destruct (extract_model_from_turn_context v). }
  destruct (entry_type v =s? lit "session_meta"); first done.
  destruct ((entry_type v =s? lit "event_msg") || is_empty (entry_type v)); cbn [fst].
  - unfold event_msg. case_bool_decide; first apply assistant_message_acts. case_bool_decide; first by apply other_activity_acts.
    case_bool_decide; [apply token_count_acts|done].
  - destruct (entry_type v =s? lit "response_item"); last done. unfold response_item.
    destruct (_ =s? _); first apply assistant_message_acts. destruct (negb _); [by apply other_activity_acts|done].
Qed.

(** The moments of a session between [lo] and [hi], in order. *)
Fixpoint chronological (lo hi : Z) (vs : list value) : Prop :=
  match vs with
  | [] => True
  | v :: rest =>
      match read_timestamp_ms v with
      | Some ms => lo <= ms <= hi ∧ chronological ms hi rest
      | None => chronological lo hi rest
      end
  end.
#[global] Instance chronological_dec lo hi vs : Decision (chronological lo hi vs).
Proof.
  revert lo. induction vs as [|v vs IH]; intros lo; cbn; first apply _. destruct (read_timestamp_ms v); last apply IH.
  apply and_dec; [apply _|apply IH].
Defined.
Lemma chronological_weaken lo lo' hi vs : lo' <= lo → chronological lo hi vs → chronological lo' hi vs.
Proof.
  revert lo lo'. induction vs as [|v vs IH]; intros lo lo' Hle; first done. cbn. destruct (read_timestamp_ms v).
  - intros [? ?]. split; [lia|done].
  - by apply IH.
Qed.

Lemma activity_counted vs lo hi st : opened st → lo <= hi → 0 <= lo → hi <= i64_max → chronological lo hi vs →
  (∀ p, last_activity_ms st = Some p → p = lo) →
  ∃ k, activity (foldl step st vs) ≡₆₄ activity st + k ∧ 0 <= k <= hi - lo.
Proof.
  revert lo st. induction vs as [|v vs IH]; intros lo st Ho Hle Hlo Hhi Hc Hp; cbn -[step].
  { exists 0. rewrite Z.add_0_r. split; [done|lia]. }
  cbn in Hc. destruct (step_acts v st Ho) as [[Hl Ha]|(ms & Hms & Hl & k & Hk & Hb & Hm)].
  - rewrite -Ha. apply IH; [by apply step_opened|done..| |by rewrite Hl].
    destruct (read_timestamp_ms v); last done. destruct Hc as [? Hc]. eapply chronological_weaken; [|exact Hc]. lia.
  - rewrite Hms in Hc. destruct Hc as [Hin Hc].
    destruct (IH ms (step st v)) as (k' & Hk' & Hb'); [by apply step_opened|lia..|done|by rewrite Hl; intros p [= ->]|].
    exists (k + k'). split.
    + rewrite Hk' Hk. apply same64_eq. lia.
    + destruct (last_activity_ms st) as [p|] eqn:E; last lia. rewrite (Hp p) // in Hm. unfold i64_max in Hhi.
      rewrite /i64_sub i64_wrap_id in Hm; lia.
Qed.
End scan.

(** ** Files *)

Section files.
Context {C : Calendar} {F : SessionFiles}.

Definition read_item (item : option str) : option value :=
  line ← item; if 512000 <? Z.of_nat (str_len line) then None else json_from_str line.
Lemma scan_item_read workspace_path st item :
  scan_item workspace_path st item = match read_item item with Some v => scan_value workspace_path st v | None => (st, true) end.
Proof. destruct item as [line|]; last done. cbn. by destruct (_ <? _). Qed.

(** Enough fuel for the lines is enough. *)
Lemma scan_lines_values workspace_path l fuel i st : (length l - i < fuel)%nat →
  scan_lines workspace_path fuel (λ j, l !! j) i st = Some (scan_values workspace_path st (omap read_item (drop i l))).
Proof.
  revert i st. induction fuel as [|fuel IH]; intros i st Hf; first lia. cbn.
  destruct (l !! i) as [item|] eqn:Hi; last by apply lookup_ge_None in Hi; rewrite drop_ge.
  apply lookup_lt_Some in Hi as Hlt. rewrite (drop_S _ item) // scan_item_read. cbn. destruct (read_item item) as [v|]; cbn.
  - destruct (scan_value workspace_path st v) as [st' []]; last done. apply IH. lia.
  - apply IH. lia.
Qed.

(** The entries of a file with the lines [l]. *)
Abbreviation entries l := (omap read_item l).
Lemma scan_file_values fuel workspace_path acc path l : session_lines path = Some (λ j, l !! j) → (length l < fuel)%nat →
  scan_file fuel workspace_path acc path =
  let st := scan_values workspace_path (scan_start acc.1 acc.2 workspace_path) (entries l) in Some (daily st, model_totals st).
Proof. intros Hl Hf. unfold scan_file. rewrite Hl scan_lines_values; first lia. done. Qed.

(** C19. In a scan for all workspaces, a session counts for what its reports that are dated on the days asked
    for add to its totals, modulo 2^64, however it reports them: by totals, by what
    each turn added, or by both in any order, if its totals never go back and fit 63 bits. Where
    all its reports are dated on these days, that is its final total. *)
Theorem usage_is_counted_once fuel acc path l :
  session_lines path = Some (λ j, l !! j) → (length l < fuel)%nat → growing no_usage (entries l) →
  ∃ acc', scan_file fuel None acc path = Some acc' ∧
    let added := added_on (dom acc.1) no_usage (entries l) in
    (sum_over day_input acc'.1 ≡₆₄ sum_over day_input acc.1 + u_input added ∧
     sum_over day_output acc'.1 ≡₆₄ sum_over day_output acc.1 + u_output added ∧
     sum_over id acc'.2 ≡₆₄ sum_over id acc.2 + (u_input added + u_output added)) ∧
    (reports_in (dom acc.1) (entries l) →
       u_input added = u_input (final_total no_usage (entries l)) ∧ u_output added = u_output (final_total no_usage (entries l))).
Proof.
  intros Hl Hf Hg. eexists. split; first by apply scan_file_values. cbn zeta. rewrite scan_values_all; first done.
  destruct (usage_counted (dom acc.1) no_usage (entries l) (scan_start acc.1 acc.2 None) Hg) as [Hi Ho Hm _]; [done..|].
  cbn in Hi, Ho, Hm. split; first by split_and!.
  intros Hin. destruct (added_on_all (dom acc.1) no_usage (entries l) Hin) as [-> ->]. cbn. lia.
Qed.

Lemma scan_lines_adds workspace_path fuel items i st st' :
  scan_lines workspace_path fuel items i st = Some st' → adds_some st st'.
Proof.
  revert i st. induction fuel as [|fuel IH]; intros i st; first done. cbn.
  destruct (items i) as [item|]; last by intros [= <-]; exists no_usage; apply same_adds; split.
  assert (adds_some st (scan_item workspace_path st item).1) as [d Hd].
  { rewrite scan_item_read. destruct (read_item item); [apply scan_value_adds|by exists no_usage; apply same_adds; split]. }
  destruct (scan_item workspace_path st item) as [st1 []]; last by intros [= <-]; exists d.
  intros [d' Hd']%IH. eexists. by eapply adds_usage_trans.
Qed.

(** What the models have beyond the days. *)
Definition unaccounted (acc : gmap str DailyTotals * gmap str Z) : Z :=
  sum_over id acc.2 - (sum_over day_input acc.1 + sum_over day_output acc.1).
Lemma scan_file_accounted fuel workspace_path acc path acc' : scan_file fuel workspace_path acc path = Some acc' →
  unaccounted acc' ≡₆₄ unaccounted acc ∧ dom acc'.1 = dom acc.1.
Proof.
  unfold scan_file. destruct (session_lines path) as [items|]; last by intros [= <-].
  destruct (scan_lines _ _ _ _ _) as [st|] eqn:E; last done. intros [= <-]. apply scan_lines_adds in E as [d [Hi Ho Hm Hd]].
  cbn in *. split; last done. unfold unaccounted. cbn. rewrite Hi Ho Hm. apply same64_eq. lia.
Qed.
Lemma scan_files_accounted fuel workspace_path paths acc acc' : scan_files fuel workspace_path acc paths = Some acc' →
  unaccounted acc' ≡₆₄ unaccounted acc ∧ dom acc'.1 = dom acc.1.
Proof.
  revert acc. induction paths as [|path paths IH]; intros acc; first by intros [= <-]. cbn.
  destruct (scan_file _ _ _ _) as [acc1|] eqn:E; last done. cbn. intros [Hu Hd]%IH. apply scan_file_accounted in E as [Hu1 Hd1].
  split; [by rewrite Hu|by rewrite Hd].
Qed.

(** A scan for a workspace counts what it sees of a session as its own. *)
Theorem workspace_scan_counts_its_sessions fuel filter acc path l :
  session_lines path = Some (λ j, l !! j) → (length l < fuel)%nat →
  let st := scan_values None (scan_start acc.1 acc.2 None) (of_workspace filter (entries l)) in
  scan_file fuel (Some filter) acc path = Some (daily st, model_totals st).
Proof.
  intros Hl Hf. rewrite (scan_file_values _ _ _ _ l) //. cbn zeta.
  pose proof (scan_of_workspace filter (entries l) (scan_start acc.1 acc.2 (Some filter)) eq_refl eq_refl) as Hs.
  change (set_match (scan_start acc.1 acc.2 (Some filter)) true) with (scan_start acc.1 acc.2 None) in Hs.
  f_equal. f_equal; [exact (f_equal daily Hs)|exact (f_equal model_totals Hs)].
Qed.

(** A file adds a run for each moment at which the assistant spoke on the days that
    are asked for, and activity no longer than the session took. *)
Theorem runs_and_activity fuel acc path l lo hi :
  session_lines path = Some (λ j, l !! j) → (length l < fuel)%nat →
  0 <= lo <= hi → hi <= i64_max → chronological lo hi (entries l) →
  ∃ acc' k, scan_file fuel None acc path = Some acc' ∧
    sum_over agent_runs acc'.1 ≡₆₄ sum_over agent_runs acc.1 + runs_on (dom acc.1) (list_to_set (omap run_time (entries l))) ∧
    sum_over agent_ms acc'.1 ≡₆₄ sum_over agent_ms acc.1 + k ∧ 0 <= k <= hi - lo.
Proof.
  intros Hl Hf Hlo Hhi Hc. set (st0 := scan_start acc.1 acc.2 None).
  assert (opened st0) as Ho by done.
  destruct (activity_counted (entries l) lo hi st0 Ho) as (k & Hk & Hb); [lia..|done|done|].
  destruct (runs_counted (entries l) st0 Ho) as (Hr & Hd & Hs). eexists _, k.
  split; first by apply scan_file_values. cbn zeta. rewrite scan_values_all //. cbn [fst]. split; last by split.
  unfold runs_balance in Hr. rewrite Hd Hs in Hr. cbn [seen_runs daily st0 scan_start] in Hr.
  assert (runs_on (dom acc.1) ∅ = 0) as Hzero by (unfold runs_on; by rewrite filter_empty_L size_empty).
  rewrite right_id_L Hzero Z.sub_0_r in Hr. destruct Hr as [j Hr]. exists j. unfold st0 in Hr. lia.
Qed.

(** Reading a directory fails every time it is tried: where a session file should
    be, it is read forever. *)
Theorem unreadable_file_is_read_forever fuel workspace_path acc path :
  session_lines path = Some (λ _, Some None) → scan_file fuel workspace_path acc path = None.
Proof.
  intros Hl. unfold scan_file. rewrite Hl. generalize (scan_start acc.1 acc.2 workspace_path) 0%nat.
  induction fuel as [|fuel IH]; intros st i; [done|]. apply IH.
Qed.
End files.

(** ** The snapshot *)

Definition list_sum (l : list Z) : Z := foldr Z.add 0 l.
Lemma foldl_i64_add l a : foldl i64_add a l ≡₆₄ a + list_sum l.
Proof.
  revert a. induction l as [|x l IH]; intros a; first by cbn; rewrite Z.add_0_r.
  cbn [foldl]. change (list_sum (x :: l)) with (x + list_sum l). rewrite IH i64_add_same. apply same64_eq. lia.
Qed.
Lemma i64_sum_same l : i64_sum l ≡₆₄ list_sum l.
Proof. unfold i64_sum. by rewrite foldl_i64_add. Qed.

(** The sum over the days that are asked for is the sum over the map. *)
Lemma list_sum_days (f : DailyTotals → Z) keys (d : gmap str DailyTotals) : NoDup keys → list_to_set keys = dom d →
  list_sum ((λ k, f (unwrap_or DailyTotals_default (d !! k))) <$> keys) = sum_over f d.
Proof.
  intros Hnd. revert d. induction Hnd as [|k keys Hk Hnd IH]; intros d Hd; cbn.
  - symmetry in Hd. apply dom_empty_iff_L in Hd as ->. done.
  - assert (is_Some (d !! k)) as [t Ht] by (apply elem_of_dom; rewrite -Hd; set_solver).
    rewrite (sum_over_delete f d k t) // Ht. cbn. rewrite -(IH (delete k d)).
    + rewrite dom_delete_L -Hd. cbn. apply set_eq. intros x. set_unfold.
      split; [intros Hx; split; [by right|by intros ->]|by intros [[->|] ?]].
    + do 2 f_equal. apply list_fmap_ext. intros i x Hx. rewrite lookup_delete_ne //. intros ->. apply Hk. by eapply list_elem_of_lookup_2.
Qed.
Lemma sum_over_zero {A} (f : A → Z) (m : gmap str A) : (∀ k a, m !! k = Some a → f a = 0) → sum_over f m = 0.
Proof.
  induction m as [|k a m Hk IH] using map_ind; intros Hz; first done. rewrite sum_over_insert_new // (Hz k a).
  - by rewrite lookup_insert_eq.
  - rewrite IH //. intros k' a' Hk'. apply (Hz k'). rewrite lookup_insert_ne //. by intros ->; congruence.
Qed.

Lemma sum_over_plus {A} (f g : A → Z) (m : gmap str A) : sum_over (λ a, f a + g a) m = sum_over f m + sum_over g m.
Proof. induction m as [|k a m Hk IH] using map_ind; first done. rewrite !sum_over_insert_new // IH. lia. Qed.
Lemma list_sum_fmap_same {A} (f g : A → Z) l : (∀ a, f a ≡₆₄ g a) → list_sum (f <$> l) ≡₆₄ list_sum (g <$> l).
Proof. intros Hfg. induction l as [|a l IH]; first done. rewrite !fmap_cons /=. by apply same64_add. Qed.

Lemma max_by_key_last {A} (key : A → Z) l x : max_by_key key l = Some x →
  ∃ before after, l = before ++ x :: after ∧ (∀ y, y ∈ before → key y <= key x) ∧ (∀ y, y ∈ after → key y < key x).
Proof.
  assert (∀ l best, ∃ before after, best :: l = before ++ max_by_key_from key best l :: after ∧
    (∀ y, y ∈ before → key y <= key (max_by_key_from key best l)) ∧
    (∀ y, y ∈ after → key y < key (max_by_key_from key best l))) as H.
  { clear. induction l as [|z l IH]; intros best; cbn.
    - exists [], []. split_and!; [done|intros ? []%elem_of_nil..].
    - destruct (Z.leb_spec (key best) (key z)).
      + destruct (IH z) as (b & a & Heq & Hb & Ha). exists (best :: b), a. split; first by rewrite Heq. split; last done.
        intros y [->|Hy]%elem_of_cons; last by apply Hb. etrans; first done.
        apply (proj2 (max_by_key_from_spec key z l)). by left.
      + destruct (IH best) as (b & a & Heq & Hb & Ha). destruct b as [|b0 b]; cbn in Heq; injection Heq as E1 E2.
        * exists [], (z :: a). split_and!; [by rewrite -E1 -E2|intros ? []%elem_of_nil|].
          intros y [->|Hy]%elem_of_cons; [by rewrite -E1|by apply Ha].
        * exists (b0 :: z :: b), a. split; first by cbn; rewrite -E1 -E2. split; last done.
          assert (key b0 <= key (max_by_key_from key best l)) as Hb0 by (apply Hb; by left). rewrite -E1 in Hb0.
          intros y [->|[->|Hy]%elem_of_cons]%elem_of_cons; [by rewrite -E1|lia|apply Hb; by right]. }
  destruct l as [|y l]; first done. intros [= <-]. apply H.
Qed.

Section snapshot.
Context {C : Calendar} {F : SessionFiles} {HO : HashOrder}.

(** The tokens of a day. *)
Definition day_total (d : gmap str DailyTotals) (key : str) : Z := total_tokens (usage_day d key).

(** The peak is the last of the days with most tokens, if they have any. *)
Definition is_peak (d : gmap str DailyTotals) (keys : list str) (peak : option str) (peak_tokens : Z) : Prop :=
  match peak with
  | Some k => peak_tokens = day_total d k ∧ 0 < peak_tokens ∧ ∃ before after, keys = before ++ k :: after ∧
      (∀ k', k' ∈ before → day_total d k' <= peak_tokens) ∧ (∀ k', k' ∈ after → day_total d k' < peak_tokens)
  | None => peak_tokens = 0 ∧ ∀ k, k ∈ keys → day_total d k <= 0
  end.
(** The top models are the at most four named models with most tokens. *)
Record are_top (models : gmap str Z) (top : list LocalUsageModel) : Prop := {
  top_count : (length top <= 4)%nat;
  top_sorted : Sorted (λ a b, tokens b <= tokens a) top;
  top_named : ∀ m, m ∈ top → models !! model m = Some (tokens m) ∧ 0 < tokens m ∧ model m ≠ lit "unknown";
  top_complete : ∀ name n, models !! name = Some n → 0 < n → name ≠ lit "unknown" →
    (∃ m, m ∈ top ∧ model m = name) ∨ length top = 4%nat ∧ ∀ m, m ∈ top → n <= tokens m
}.

Lemma peak_spec d keys : let peak := opt_filter (λ day, 0 <? total_tokens day) (max_by_key total_tokens (usage_day d <$> keys)) in
  is_peak d keys (day <$> peak) (unwrap_or 0 (total_tokens <$> peak)).
Proof.
  cbn zeta. destruct (max_by_key total_tokens (usage_day d <$> keys)) as [x|] eqn:E; last first.
  { apply max_by_key_None, fmap_nil_inv in E as ->. split; [done|intros ? []%elem_of_nil]. }
  apply max_by_key_last in E as (b & a & Heq & Hb & Ha).
  apply fmap_app_inv in Heq as (kb & ka' & -> & Hka & ->). destruct ka' as [|k ka]; first done.
  cbn in Hka. injection Hka as -> ->. rewrite <-(Forall_forall) in Hb, Ha. rewrite !Forall_fmap !Forall_forall in Hb, Ha.
  unfold is_peak, opt_filter. fold (day_total d k). destruct (Z.ltb_spec 0 (day_total d k)) as [Hpos|Hpos].
  - split_and!; [done|done|]. by exists kb, ka.
  - split; first done. intros k' [Hk'|[->|Hk']%elem_of_cons]%elem_of_app; [|done|].
    + specialize (Hb _ Hk'). unfold day_total in *. unfold compose in Hb. lia.
    + specialize (Ha _ Hk'). unfold day_total in *. unfold compose in Ha. lia.
Qed.

Lemma sorted_take_top {A} (key : A → Z) l n x : Sorted (λ a b, key b <= key a) l → x ∈ l →
  x ∈ take n l ∨ length (take n l) = n ∧ ∀ y, y ∈ take n l → key x <= key y.
Proof.
  intros Hs Hx. destruct (decide (length l <= n)%nat) as [Hle|Hgt]; first by left; rewrite take_ge.
  rewrite -(take_drop n l) elem_of_app in Hx. destruct Hx as [Hx|Hx]; [by left|right].
  split; first by rewrite length_take; lia. intros y Hy.
  apply Sorted_StronglySorted in Hs; last by intros ? ? ?; lia. rewrite -(take_drop n l) in Hs.
  by eapply (StronglySorted_app_1_elem_of _ _ _ _ _ Hs).
Qed.

Lemma sort_by_tokens (l : list LocalUsageModel) : Sorted (λ a b, tokens b <= tokens a) (sort_by (λ a b, tokens b <=? tokens a) l).
Proof.
  assert (∀ a b : LocalUsageModel, (tokens b <=? tokens a) = true ∨ (tokens a <=? tokens b) = true) as Htot by (intros; rewrite !Z.leb_le; lia).
  pose proof (sort_by_Sorted _ Htot l) as Hl.
  induction Hl as [|x r _ IH Hx]; constructor; [done|]. destruct Hx as [|y r Hx]; constructor. by apply Z.leb_le.
Qed.
Lemma top_spec models total :
  are_top models (take 4 (sort_by (λ a b, tokens b <=? tokens a)
    ((λ '(name, n), MkUsageModel name n (percent n total)) <$>
       List.filter (λ '(name, n), negb (name =s? lit "unknown") && (0 <? n)) (hash_iter models)))).
Proof.
  set (l := _ <$> _). set (sorted := sort_by _ l).
  assert (∀ m, m ∈ sorted ↔ ∃ name n, m = MkUsageModel name n (percent n total) ∧ models !! name = Some n ∧ 0 < n ∧ name ≠ lit "unknown") as Hin.
  { intros m. unfold sorted. rewrite sort_by_perm. unfold l. rewrite list_elem_of_fmap. split.
    - intros ([name n] & -> & Hm). apply list_elem_of_In, filter_In in Hm as [Hm Hf].
      apply list_elem_of_In in Hm. rewrite hash_iter_perm in Hm. apply elem_of_map_to_list in Hm.
      apply andb_true_iff in Hf as [Hu%negb_true_iff%str_eqb_neq Hn%Z.ltb_lt]. by exists name, n.
    - intros (name & n & -> & Hm & Hn & Hu). exists (name, n). split; first done. apply list_elem_of_In, filter_In.
      split; last by rewrite (proj2 (str_eqb_neq _ _) Hu) (proj2 (Z.ltb_lt _ _) Hn).
      apply list_elem_of_In. rewrite hash_iter_perm. by apply elem_of_map_to_list. }
  assert (Sorted (λ a b, tokens b <= tokens a) sorted) as Hs.
  { apply sort_by_tokens. }
  split.
  - rewrite length_take. lia.
  - apply Sorted_StronglySorted in Hs; last by intros ? ? ?; lia. rewrite -(take_drop 4 sorted) in Hs.
    by apply StronglySorted_app_1_l, StronglySorted_Sorted in Hs.
  - intros m Hm. apply elem_of_take in Hm as (i & Hm & _). apply list_elem_of_lookup_2, Hin in Hm as (name & n & -> & ? & ? & ?). done.
  - intros name n Hm Hn Hu. assert (MkUsageModel name n (percent n total) ∈ sorted) as Hx by (apply Hin; by exists name, n).
    destruct (sorted_take_top tokens sorted 4 _ Hs Hx) as [H|H]; [left; by eexists|by right].
Qed.

Lemma scan_files_ends fuel workspace_path paths acc :
  Forall (λ path, ∀ items, session_lines path = Some items → ∃ l, items = (λ j, l !! j) ∧ (length l < fuel)%nat) paths →
  is_Some (scan_files fuel workspace_path acc paths).
Proof.
  intros Hall. revert acc. induction Hall as [|path paths Hp _ IH]; intros acc; first by eexists. cbn.
  unfold scan_file at 1. destruct (session_lines path) as [items|]; last apply IH.
  destruct (Hp items eq_refl) as (l & -> & Hl). rewrite scan_lines_values; first lia. apply IH.
Qed.
Definition zero_days (keys : list str) : gmap str DailyTotals := list_to_map ((λ key, (key, DailyTotals_default)) <$> keys).
Lemma zero_days_lookup keys k t : zero_days keys !! k = Some t → t = DailyTotals_default.
Proof. intros Hk. apply elem_of_list_to_map_2, list_elem_of_fmap in Hk as (? & [= _ ->] & _). done. Qed.
Lemma zero_days_dom keys : dom (zero_days keys) = list_to_set keys.
Proof. unfold zero_days. rewrite dom_list_to_map_L -list_fmap_compose. f_equal. by rewrite list_fmap_id. Qed.

(** The files of a scan. *)
Definition scanned_files (days : N) (roots : list str) : list str :=
  root ← roots; day_key ← make_day_keys days; session_files root day_key.

(** When the files end, so does the scan. Its total is what the models have; the
    peak and the top models are those of the days and models that were counted. *)
Theorem snapshot_sums_up fuel now days workspace_path roots :
  NoDup (make_day_keys days) →
  Forall (λ path, ∀ items, session_lines path = Some items → ∃ l, items = (λ j, l !! j) ∧ (length l < fuel)%nat) (scanned_files days roots) →
  ∃ snap d models, scan_local_usage fuel now days workspace_path roots = Some snap ∧
    scan_files fuel workspace_path (zero_days (make_day_keys days), ∅) (scanned_files days roots) = Some (d, models) ∧
    LocalUsage.days snap = usage_day d <$> make_day_keys days ∧
    last30_days_tokens (totals snap) ≡₆₄ sum_over id models ∧
    is_peak d (make_day_keys days) (peak_day (totals snap)) (peak_day_tokens (totals snap)) ∧
    are_top models (top_models snap).
Proof.
  intros Hnd Hfiles. set (keys := make_day_keys days) in *.
  destruct (scan_files_ends fuel workspace_path _ (zero_days keys, ∅) Hfiles) as [[d models] Hscan].
  assert (scan_local_usage fuel now days workspace_path roots = Some (build_snapshot now keys d models)) as Hsnap.
  { unfold scan_local_usage. fold keys. destruct roots as [|root roots]; cbn [is_empty].
    - injection Hscan as <- <-. done.
    - unfold scanned_files in Hscan. fold keys in Hscan. unfold zero_days in Hscan. by rewrite Hscan. }
  eexists _, d, models. split; first exact Hsnap. split; first done. split; first done.
  destruct (scan_files_accounted _ _ _ _ _ Hscan) as [Hu Hd]. cbn [fst] in Hd. rewrite zero_days_dom in Hd.
  split; [|split; [apply peak_spec|apply top_spec]]. cbn [totals build_snapshot last30_days_tokens].
  unfold unaccounted in Hu. cbn [fst snd] in Hu. rewrite !(sum_over_zero _ (zero_days keys)) in Hu;
    [by intros k t ->%zero_days_lookup..|]. 
  rewrite i64_sum_same -(list_fmap_compose (usage_day d) total_tokens keys).
  rewrite (list_sum_fmap_same _ (λ k, (λ t, day_input t + day_output t) (unwrap_or DailyTotals_default (d !! k)))).
  { intros k. apply i64_add_same. }
  rewrite (list_sum_days (λ t, day_input t + day_output t)) // sum_over_plus. destruct Hu as [j Hu]. exists (- j).
  change (sum_over id ∅) with 0 in Hu. lia.
Qed.
End snapshot.

(** All workspaces share the sessions of one codex home. *)
Theorem one_sessions_root {H : Host} {HO : HashOrder} w workspaces workspace_path :
  resolve_sessions_roots w workspaces workspace_path = option_list (resolve_codex_sessions_root w None).
Proof.
  unfold resolve_sessions_roots. destruct workspace_path as [path|].
  - unfold resolve_workspace_codex_home_for_path. destruct (max_by_key _ _) as [entry|]; last done. cbn.
    unfold resolve_workspace_codex_home, resolve_codex_sessions_root. by destruct (resolve_default_codex_home w).
  - assert (∀ l root, resolve_codex_sessions_root w None = Some root → foldl (push_workspace_root w workspaces) [root] l = [root]) as Hone.
    { intros l root Hr. induction l as [|entry l IH]; first done. cbn. rewrite -{2}IH. f_equal.
      unfold push_workspace_root, resolve_workspace_codex_home. unfold resolve_codex_sessions_root in *.
      destruct (resolve_default_codex_home w) as [home|]; last done. injection Hr as <-. cbn. unfold push_root. cbn.
      unfold path_eq. by rewrite bool_decide_true. }
    destruct (resolve_codex_sessions_root w None) as [root|] eqn:Hr; first by apply Hone.
    induction (hash_iter workspaces).*2 as [|entry l IH]; first done. cbn. etrans; last exact IH. f_equal.
    unfold push_workspace_root, resolve_workspace_codex_home. unfold resolve_codex_sessions_root in Hr.
    by destruct (resolve_default_codex_home w).
Qed.

(** ** A session *)

Definition demo_calendar : Calendar := {|
  rfc3339_millis _ := None;
  local_day ms := if 0 <=? ms then Some (show_N (Z.to_N (ms / 86400000))) else None;
  days_ago n := show_N (20001 - n)
|}.
Definition demo_moment (n : Z) : Z := 20000 * 86400000 + n.
Definition demo_number (n : Z) : value := VNumber (PosInt n).
Definition demo_entry (kind : str) (n : Z) (payload : list (str * value)) : value :=
  VObject (mk_object [(lit "type", vstr kind); (lit "timestamp", demo_number (demo_moment n)); (lit "payload", VObject (mk_object payload))]).
Definition demo_usage (n : Z) (key : str) (input cached output : Z) : value :=
  demo_entry (lit "event_msg") n [(lit "type", vstr (lit "token_count"));
    (lit "info", VObject [(key, VObject (mk_object [(lit "input_tokens", demo_number input); (lit "cached_input_tokens", demo_number cached);
      (lit "output_tokens", demo_number output)]))])].
Definition demo_cwd (kind cwd : str) : value := VObject (mk_object [(lit "type", vstr kind); (lit "payload", VObject [(lit "cwd", vstr cwd)])]).
Definition demo_entries : list value :=
  [ demo_cwd (lit "session_meta") (lit "/work/app/sub");
    demo_usage 0 (lit "last_token_usage") 10 0 5; demo_usage 1000 (lit "total_token_usage") 20 4 10;
    demo_entry (lit "response_item") 2000 [(lit "type", vstr (lit "message")); (lit "role", vstr (lit "assistant"))];
    demo_entry (lit "event_msg") 2000 [(lit "type", vstr (lit "agent_message"))];
    demo_cwd (lit "turn_context") (lit "/work/other");
    demo_usage 400000 (lit "total_token_usage") 25 4 11 ].
Definition demo_lines : list (option str) := (λ n, Some [N.of_nat n]) <$> seq 0 (length demo_entries).
Definition demo_sessions : SessionFiles := {|
  session_path_exists p := p =s? lit "/home/.codex/sessions/20000/01/01";
  session_read_dir _ := Some [lit "/s/a.jsonl"; lit "/s/b.txt"];
  session_lines p := if p =s? lit "/s/a.jsonl" then Some (λ i, demo_lines !! i) else None;
  json_from_str s := n ← head s; demo_entries !! N.to_nat n
|}.

Section demo.
#[local] Existing Instances demo_calendar demo_sessions map_order.
Definition demo_days : list str := make_day_keys 2.
Definition demo_zero : gmap str DailyTotals * gmap str Z := (zero_days demo_days, ∅).

Example demo_scan :
  (λ acc, (usage_day acc.1 (lit "20000"), map_to_list acc.2)) <$> scan_file 10 None demo_zero (lit "/s/a.jsonl")
  = Some (MkUsageDay (lit "20000") 25 4 11 36 2000 1, [(lit "unknown", 36)]).
Proof. vm_compute. reflexivity. Qed.
Example demo_scan_workspace :
  (λ acc, usage_day acc.1 (lit "20000")) <$> scan_file 10 (Some (lit "/work/app")) demo_zero (lit "/s/a.jsonl")
  = Some (MkUsageDay (lit "20000") 20 4 10 30 2000 1).
Proof. vm_compute. reflexivity. Qed.
Example demo_percent : percent 4 25 = i64_as_f64 16 ∧ average_of 36 2 = 18 ∧ average_of 5 2 = 3.
Proof. vm_compute. done. Qed.

Lemma demo_file : session_lines (lit "/s/a.jsonl") = Some (λ i, demo_lines !! i).
Proof. reflexivity. Qed.

Lemma usage_is_counted_once_witness :
  ∃ acc', scan_file 10 None demo_zero (lit "/s/a.jsonl") = Some acc' ∧
    let added := added_on (dom demo_zero.1) no_usage (omap read_item demo_lines) in
    sum_over day_input acc'.1 ≡₆₄ sum_over day_input demo_zero.1 + u_input added ∧
    sum_over day_output acc'.1 ≡₆₄ sum_over day_output demo_zero.1 + u_output added ∧
    sum_over id acc'.2 ≡₆₄ sum_over id demo_zero.2 + (u_input added + u_output added).
Proof.
  destruct (usage_is_counted_once 10 demo_zero (lit "/s/a.jsonl") demo_lines) as (acc' & Hs & Hadd & _); [reflexivity|cbn; lia| |].
  - apply (bool_decide_unpack _). vm_compute. exact I.
  - exists acc'. split; [exact Hs|exact Hadd].
Defined.

Lemma workspace_scan_counts_its_sessions_witness :
  let st := scan_values None (scan_start demo_zero.1 demo_zero.2 None) (of_workspace (lit "/work/app") (omap read_item demo_lines)) in
  scan_file 10 (Some (lit "/work/app")) demo_zero (lit "/s/a.jsonl") = Some (daily st, model_totals st).
Proof. apply (workspace_scan_counts_its_sessions 10 (lit "/work/app") demo_zero (lit "/s/a.jsonl") demo_lines); [reflexivity|cbn; lia]. Defined.

Lemma runs_and_activity_witness :
  ∃ acc' k, scan_file 10 None demo_zero (lit "/s/a.jsonl") = Some acc' ∧
    sum_over agent_runs acc'.1 ≡₆₄ sum_over agent_runs demo_zero.1
      + runs_on (dom demo_zero.1) (list_to_set (omap run_time (omap read_item demo_lines))) ∧
    sum_over agent_ms acc'.1 ≡₆₄ sum_over agent_ms demo_zero.1 + k ∧ 0 <= k <= demo_moment 400000 - demo_moment 0.
Proof.
  apply (runs_and_activity 10 demo_zero (lit "/s/a.jsonl") demo_lines (demo_moment 0) (demo_moment 400000));
    [reflexivity|cbn; lia|unfold demo_moment; lia|unfold demo_moment, i64_max; lia|].
  apply (bool_decide_unpack _). vm_compute. exact I.
Defined.

Definition demo_root : str := lit "/home/.codex/sessions".
Lemma demo_files : scanned_files 2 [demo_root] = [lit "/s/a.jsonl"].
Proof. vm_compute. reflexivity. Qed.
Lemma snapshot_sums_up_witness :
  ∃ snap d models, scan_local_usage 10 0 2 None [demo_root] = Some snap ∧
    scan_files 10 None (zero_days (make_day_keys 2), ∅) (scanned_files 2 [demo_root]) = Some (d, models) ∧
    LocalUsage.days snap = usage_day d <$> make_day_keys 2 ∧
    last30_days_tokens (totals snap) ≡₆₄ sum_over id models ∧
    is_peak d (make_day_keys 2) (peak_day (totals snap)) (peak_day_tokens (totals snap)) ∧
    are_top models (top_models snap).
Proof.
  apply (snapshot_sums_up 10 0 2 None [demo_root]).
  - apply (bool_decide_unpack _). vm_compute. exact I.
  - rewrite demo_files. constructor; last constructor. intros items [= <-]. exists demo_lines. split; [reflexivity|cbn; lia].
Defined.

Lemma unreadable_file_is_read_forever_witness :
  let F := {| session_path_exists _ := true; session_read_dir _ := None; session_lines _ := Some (λ _, Some None); json_from_str _ := None |} in
  scan_file 1000 None demo_zero (lit "/s/directory.jsonl") = None.
Proof. apply (unreadable_file_is_read_forever 1000 None demo_zero (lit "/s/directory.jsonl")). reflexivity. Defined.
End demo.
