(* ===== verification/Prompts.v ===== *)
(** Custom prompts ([src-tauri/src/shared/prompts_core.rs]): Markdown files, with
    a block of metadata in front, in a directory of the workspace and one of the
    codex home. The files are those of [Host]; what it lacks (class
    [PromptFiles]) is a parameter. Where an operation takes the lock of the
    workspaces twice, it is given the workspaces it sees each time. *)
From S2P Require Import Prelude Paths Types Host.

(** ** The block of metadata *)

Definition ch_quote : char := 34%N.
Definition ch_apostrophe : char := 39%N.
Definition is_line_end (c : char) : bool := (c =? ch_cr)%N || (c =? ch_nl)%N.

(** A value loses the quotes around it. *)
Definition unquote (val : str) : str :=
  let quoted q := bool_decide (head val = Some q ∧ last val = Some q) in
  if Nat.leb 2 (str_len val) && (quoted ch_quote || quoted ch_apostrophe) then take (length val - 2) (drop 1 val) else val.

Abbreviation Metadata := (option str * option str)%type.
Definition read_metadata (trimmed : str) (meta : Metadata) : Metadata :=
  match split_once ch_colon trimmed with
  | Some (key, v) =>
      let val := unquote (trim v) in
      let key := to_ascii_lowercase (trim key) in
      if key =s? "description" then (Some val, meta.2)
      else if (key =s? "argument-hint") || (key =s? "argument_hint") then (meta.1, Some val)
      else meta
  | None => meta
  end.

Definition segment_text (segment : str) : str := trim (trim_end_matches is_line_end segment).
(** The lines up to the closing one, and how much of the text they are. *)
Fixpoint read_frontmatter (segments : list str) (meta : Metadata) (consumed : nat) : option (Metadata * nat) :=
  match segments with
  | [] => None
  | segment :: rest =>
      let trimmed := segment_text segment in
      if trimmed =s? "---" then Some (meta, consumed + length segment)
      else if is_empty trimmed || starts_with "#" trimmed then read_frontmatter rest meta (consumed + length segment)
      else read_frontmatter rest (read_metadata trimmed meta) (consumed + length segment)
  end.
Definition parse_frontmatter (content : str) : option str * option str * str :=
  match split_lines content with
  | [] => (None, None, [])
  | first_segment :: segments =>
      if negb (segment_text first_segment =s? "---") then (None, None, content)
      else match read_frontmatter segments (None, None) (length first_segment) with
           | None => (None, None, content)
           | Some (meta, consumed) => (meta.1, meta.2, drop consumed content)
           end
  end.

(** [replace('"', "\\\"")] *)
Definition escape_quotes (s : str) : str := flat_map (λ c, if (c =? ch_quote)%N then [ch_backslash; ch_quote] else [c]) s.
Definition nonblank (v : option str) : bool := is_some_b (opt_filter (λ v, negb (is_empty (trim v))) v).
Definition metadata_line (key : str) (v : option str) : str :=
  match v with
  | Some v => if negb (is_empty (trim v)) then key ++ lit ": " ++ [ch_quote] ++ escape_quotes (trim v) ++ [ch_quote; ch_nl] else []
  | None => []
  end.
Definition build_prompt_contents (description argument_hint : option str) (content : str) : str :=
  if negb (nonblank description || nonblank argument_hint) then content
  else lit "---" ++ [ch_nl] ++ metadata_line "description" description ++ metadata_line "argument-hint" argument_hint
       ++ lit "---" ++ [ch_nl] ++ content.

Definition sanitize_prompt_name (name : str) : result str str :=
  let trimmed := trim name in
  if is_empty trimmed then Err ("Prompt name is required." : str)
  else if existsb is_whitespace trimmed then Err ("Prompt name cannot include whitespace." : str)
  else if contains_char ch_slash trimmed || contains_char ch_backslash trimmed
  then Err ("Prompt name cannot include path separators." : str)
  else Ok trimmed.

(** ** Prompts *)

Record CustomPromptEntry := MkPrompt {
  prompt_name : str;
  prompt_path : str;
  prompt_description : option str;
  prompt_argument_hint : option str;
  prompt_content : str;
  prompt_scope : option str
}.

(** The paths of the entries of a directory that can be read, [canonicalize], and
    whether the text of an error is that of [EXDEV]. *)
Class PromptFiles `{Host} := {
  read_dir : World → str → option (list str);
  canonicalize : World → str → option str;
  is_cross_device_error : str → bool
}.

Section prompts.
Context `{PromptFiles}.
Implicit Types (workspaces later : gmap str WorkspaceEntry) (entry : WorkspaceEntry).

Definition lift_result {A} (r : result str A) : W A := λ w, (w, r).
(** What is read from the machine. *)
Definition ask {A} (f : World → A) : W A := λ w, (w, Ok (f w)).

Definition resolve_codex_home_for_workspace (w : World) workspaces entry : option str :=
  let parent_entry := parent_id ← entry_parent_id entry; workspaces !! parent_id in
  or_else (resolve_workspace_codex_home w entry parent_entry) (resolve_default_codex_home w).
Definition default_prompts_dir_for_workspace (w : World) workspaces entry : option str :=
  (λ home, path_join home "prompts") <$> resolve_codex_home_for_workspace w workspaces entry.
Definition require_workspace_entry workspaces (workspace_id : str) : result str WorkspaceEntry :=
  ok_or ("workspace not found" : str) (workspaces !! workspace_id).
Definition app_data_dir (settings_path : str) : result str str :=
  ok_or ("Unable to resolve app data dir." : str) (path_parent settings_path).
Definition workspace_prompts_dir (settings_path : str) entry : result str str :=
  data_dir ← app_data_dir settings_path;
  Ok (path_join (path_join (path_join data_dir "workspaces") (entry_id entry)) "prompts").
Definition prompt_roots_for_workspace (w : World) (settings_path : str) workspaces entry : result str (list str) :=
  dir ← workspace_prompts_dir settings_path entry;
  Ok (dir :: option_list (default_prompts_dir_for_workspace w workspaces entry)).

Definition is_within (w : World) (canonical_path root : str) : bool :=
  match canonicalize w root with Some canonical_root => path_starts_with canonical_path canonical_root | None => false end.
Definition ensure_path_within_roots (path : str) (roots : list str) : W unit := λ w,
  match canonicalize w path with
  | None => (w, Err ("Invalid prompt path." : str))
  | Some canonical_path =>
      if existsb (is_within w canonical_path) roots then (w, Ok tt)
      else (w, Err ("Prompt path is not within allowed directories." : str))
  end.

Definition copy_and_remove (src dest : str) : W unit := _ ← (copy_file src dest : W unit); remove_file src.
Definition move_file (src dest : str) : W unit := λ w,
  match rename_file src dest w with
  | (w, Err err) => if is_cross_device_error err then copy_and_remove src dest w else (w, Err err)
  | (w, Ok _) => (w, Ok tt)
  end.

Definition read_prompt (w : World) (scope : option str) (path : str) : option CustomPromptEntry :=
  if negb (is_file w path) then None
  else if negb (unwrap_or false ((λ ext, eq_ignore_ascii_case ext "md") <$> extension path)) then None
  else
    name ← file_stem path;
    match read_to_string w path with
    | Ok content =>
        let '(description, argument_hint, body) := parse_frontmatter content in
        Some (MkPrompt name path description argument_hint body scope)
    | Err _ => None
    end.
Definition name_le (a b : CustomPromptEntry) : bool :=
  match str_compare (prompt_name a) (prompt_name b) with Gt => false | _ => true end.
Definition discover_prompts_in (w : World) (dir : str) (scope : option str) : list CustomPromptEntry :=
  match read_dir w dir with
  | None => []
  | Some entries => sort_by name_le (omap (read_prompt w scope) entries)
  end.

(** ** The operations *)

Definition create_and_discover (dir : option str) (scope : str) : W (list CustomPromptEntry) := λ w,
  match dir with
  | Some dir => let '(w, _) := create_dir_all dir w in (w, Ok (discover_prompts_in w dir (Some scope)))
  | None => (w, Ok [])
  end.
Definition prompts_list_core workspaces (settings_path workspace_id : str) : W (list CustomPromptEntry) :=
  global_dir ← ask (λ w, entry ← workspaces !! workspace_id; default_prompts_dir_for_workspace w workspaces entry);
  let workspace_dir :=
    entry ← workspaces !! workspace_id;
    match workspace_prompts_dir settings_path entry with Ok dir => Some dir | Err _ => None end in
  workspace_prompts ← create_and_discover workspace_dir "workspace";
  global_prompts ← create_and_discover global_dir "global";
  mret (workspace_prompts ++ global_prompts).

Definition prompts_workspace_dir_core workspaces (settings_path workspace_id : str) : W str :=
  entry ← lift_result (require_workspace_entry workspaces workspace_id);
  dir ← lift_result (workspace_prompts_dir settings_path entry);
  _ ← (create_dir_all dir : W unit);
  mret dir.

Definition global_dir workspaces entry : W str :=
  dir ← ask (λ w, default_prompts_dir_for_workspace w workspaces entry);
  lift_result (ok_or ("Unable to resolve CODEX_HOME" : str) dir).
Definition prompts_global_dir_core workspaces (workspace_id : str) : W str :=
  entry ← lift_result (require_workspace_entry workspaces workspace_id);
  dir ← global_dir workspaces entry;
  _ ← (create_dir_all dir : W unit);
  mret dir.

(** The directory of a scope. *)
Definition scope_dir workspaces (settings_path : str) entry (scope : str) : W str :=
  if scope =s? "workspace" then lift_result (workspace_prompts_dir settings_path entry)
  else if scope =s? "global" then global_dir workspaces entry
  else W_err "Invalid scope.".
Definition create_parent (path : str) : W unit :=
  match path_parent path with Some parent => create_dir_all parent | None => mret tt end.
Definition prompt_file (dir name : str) : str := path_join dir (name ++ lit ".md").

Definition prompts_create_core workspaces (settings_path workspace_id scope name : str) (description argument_hint : option str)
    (content : str) : W CustomPromptEntry :=
  name ← lift_result (sanitize_prompt_name name);
  entry ← lift_result (require_workspace_entry workspaces workspace_id);
  target_dir ← scope_dir workspaces settings_path entry scope;
  let path := prompt_file target_dir name in
  exists_ ← ask (λ w, path_exists w path);
  if exists_ : bool then W_err "Prompt already exists."
  else
    _ ← create_parent path;
    _ ← (write_file path (build_prompt_contents description argument_hint content) : W unit);
    mret (MkPrompt name path description argument_hint content (Some scope)).

(** The check that the operations on a prompt begin with. *)
Definition check_prompt workspaces (settings_path workspace_id path : str) : W unit :=
  entry ← lift_result (require_workspace_entry workspaces workspace_id);
  roots ← (λ w, (w, prompt_roots_for_workspace w settings_path workspaces entry) : World * result str (list str));
  ensure_path_within_roots path roots.

Definition prompts_update_core workspaces later (settings_path workspace_id path name : str) (description argument_hint : option str)
    (content : str) : W CustomPromptEntry :=
  name ← lift_result (sanitize_prompt_name name);
  found ← ask (λ w, path_exists w path);
  if negb found then W_err "Prompt not found."
  else
    _ ← check_prompt workspaces settings_path workspace_id path;
    dir ← lift_result (ok_or ("Unable to resolve prompt directory." : str) (path_parent path));
    let next_path := prompt_file dir name in
    taken ← ask (λ w, negb (path_eq next_path path) && path_exists w next_path);
    if taken : bool then W_err "Prompt with that name already exists."
    else
      _ ← (write_file next_path (build_prompt_contents description argument_hint content) : W unit);
      _ ← (if path_eq next_path path then mret tt else remove_file path : W unit);
      entry ← lift_result (require_workspace_entry later workspace_id);
      workspace_dir ← lift_result (workspace_prompts_dir settings_path entry);
      let scope := if path_starts_with next_path workspace_dir then lit "workspace" else lit "global" in
      mret (MkPrompt name next_path description argument_hint content (Some scope)).

Definition prompts_delete_core workspaces (settings_path workspace_id path : str) : W unit :=
  found ← ask (λ w, path_exists w path);
  if negb found then mret tt
  else
    _ ← check_prompt workspaces settings_path workspace_id path;
    remove_file path.

Definition prompts_move_core workspaces later (settings_path workspace_id path scope : str) : W CustomPromptEntry :=
  found ← ask (λ w, path_exists w path);
  if negb found then W_err "Prompt not found."
  else
    _ ← check_prompt workspaces settings_path workspace_id path;
    name ← lift_result (ok_or ("Invalid prompt path." : str) (file_name path));
    entry ← lift_result (require_workspace_entry later workspace_id);
    target_dir ← scope_dir later settings_path entry scope;
    let next_path := path_join target_dir name in
    if path_eq next_path path then W_err "Prompt is already in that scope."
    else
      taken ← ask (λ w, path_exists w next_path);
      if taken : bool then W_err "Prompt with that name already exists."
      else
        _ ← create_parent next_path;
        _ ← move_file path next_path;
        content ← ask (λ w, match read_to_string w next_path with Ok content => content | Err _ => [] end);
        let '(description, argument_hint, body) := parse_frontmatter content in
        mret (MkPrompt (unwrap_or [] (file_stem next_path)) next_path description argument_hint body (Some scope)).
End prompts.
