(* ===== verification/PromptProofs.v ===== *)
(** What is proved of custom prompts ([Prompts]): a prompt that is saved is read
    back with its content, the operations leave alone what lies outside of the
    directories of prompts, and no prompt is overwritten or lost. *)
From S2P Require Import Prelude Paths Types Host Prompts.

(** ** Saving and reading a prompt *)

(** The metadata that is written. *)
Definition kept (v : option str) : option str := opt_filter (λ v, negb (is_empty v)) (trim <$> v).
Lemma nonblank_kept v : nonblank v = is_some_b (kept v).
Proof. destruct v as [v|]; [|done]. unfold nonblank, kept. cbn. by destruct (is_empty (trim v)). Qed.

Definition quoted_line (key v : str) : str := key ++ lit ": " ++ [ch_quote] ++ v ++ [ch_quote].
Definition kept_lines (key : str) (v : option str) : list str :=
  match kept v with Some v => [quoted_line key (escape_quotes v)] | None => [] end.
Lemma metadata_line_kept key v : metadata_line key v = concat ((λ l, l ++ [ch_nl]) <$> kept_lines key v).
Proof.
  destruct v as [v|]; [|done]. unfold metadata_line, kept_lines, kept. cbn. destruct (is_empty (trim v)); [done|].
  unfold quoted_line. cbn [negb fmap list_fmap concat]. by rewrite app_nil_r -!app_assoc.
Qed.

(** A line that neither begins nor ends with a space. *)
Definition bare (s : str) : Prop :=
  (∀ c r, s = c :: r → is_whitespace c = false) ∧ (∀ r c, s = r ++ [c] → is_whitespace c = false).
Lemma line_end_whitespace c : is_whitespace c = false → is_line_end c = false.
Proof. intros Hc. unfold is_line_end. destruct (N.eqb_spec c ch_cr), (N.eqb_spec c ch_nl); subst; try done. Qed.
Lemma segment_text_line s : bare s → segment_text (s ++ [ch_nl]) = s.
Proof.
  intros [Hf Hl]. unfold segment_text.
  assert (trim_end_matches is_line_end (s ++ [ch_nl]) = s) as ->.
  { transitivity (trim_end_matches is_line_end s).
    - unfold trim_end_matches. by rewrite reverse_snoc.
    - apply trim_end_matches_id. intros r c ->. by eapply line_end_whitespace, Hl. }
  by apply trim_id.
Qed.
Lemma dashes_bare : bare "---".
Proof.
  split; [by intros c r [= <- _]|]. intros r c Heq. apply (f_equal last) in Heq. rewrite last_snoc in Heq. by injection Heq as <-.
Qed.
Lemma quoted_line_bare c key v : is_whitespace c = false → bare (quoted_line (c :: key) v).
Proof.
  intros Hc. split; [by intros ? ? [= <- _]|]. intros r d Hd. unfold quoted_line in Hd. rewrite !app_assoc in Hd.
  by apply app_inj_tail in Hd as [_ <-].
Qed.
Lemma quoted_line_nl key v : ch_nl ∉ key → ch_nl ∉ v → ch_nl ∉ quoted_line key v.
Proof.
  intros Hk Hv. unfold quoted_line. rewrite !not_elem_of_app. split_and!; try done; by apply (bool_decide_unpack _).
Qed.

Lemma split_once_app c a b : c ∉ a → split_once c (a ++ c :: b) = Some (a, b).
Proof.
  induction a as [|d a IH]; intros Ha; cbn; [by rewrite N.eqb_refl|]. apply not_elem_of_cons in Ha as [Hd Ha].
  destruct (N.eqb_spec d c); [congruence|]. by rewrite IH.
Qed.
Lemma unquote_quoted v : unquote ([ch_quote] ++ v ++ [ch_quote]) = v.
Proof.
  unfold unquote. set (s := [ch_quote] ++ v ++ [ch_quote]).
  assert (str_len s = 2 + str_len v)%nat as ->.
  { unfold s. cbn. f_equal. induction v as [|c v IH]; cbn; [done|]. rewrite IH. lia. }
  rewrite (bool_decide_true (head s = _ ∧ last s = Some ch_quote)).
  { split; [done|]. unfold s. by rewrite app_assoc last_snoc. }
  cbn. replace (length (v ++ [ch_quote]) - 1)%nat with (length v) by (rewrite length_app /=; lia).
  by rewrite take_app_length.
Qed.
Lemma trim_quoted v : trim (ch_sp :: [ch_quote] ++ v ++ [ch_quote]) = [ch_quote] ++ v ++ [ch_quote].
Proof.
  change (trim (ch_sp :: ?s)) with (trim s). apply trim_id; [by intros c r [= <- _]|].
  intros r c Hr. rewrite app_assoc in Hr. by apply app_inj_tail in Hr as [_ <-].
Qed.
Lemma read_quoted_line key v meta : ch_colon ∉ key →
  read_metadata (quoted_line key v) meta =
    let key := to_ascii_lowercase (trim key) in
    if key =s? "description" then (Some v, meta.2)
    else if (key =s? "argument-hint") || (key =s? "argument_hint") then (meta.1, Some v) else meta.
Proof.
  intros Hk. unfold read_metadata, quoted_line. change (lit ": ") with [ch_colon; ch_sp]. cbn [app].
  rewrite (split_once_app _ _ _ Hk). change (ch_quote :: v ++ [ch_quote]) with ([ch_quote] ++ v ++ [ch_quote]).
  by rewrite trim_quoted unquote_quoted.
Qed.

(** A line of metadata is read and the rest follows. *)
Lemma read_frontmatter_line c key v rest meta n : is_whitespace c = false → c ≠ 45%N → c ≠ 35%N →
  read_frontmatter ((quoted_line (c :: key) v ++ [ch_nl]) :: rest) meta n =
    read_frontmatter rest (read_metadata (quoted_line (c :: key) v) meta) (n + length (quoted_line (c :: key) v ++ [ch_nl])).
Proof.
  intros Hc Hd Hh. cbn [read_frontmatter]. rewrite segment_text_line; [by apply quoted_line_bare|].
  unfold quoted_line. cbn [app]. rewrite (proj2 (str_eqb_neq _ _)); [by intros [= ?]|].
  unfold starts_with. change (lit "#") with [35%N]. cbn [is_empty strip_prefix orb].
  destruct (N.eqb_spec 35 c); [congruence|]. done.
Qed.
Lemma read_frontmatter_closing rest meta n :
  read_frontmatter ((lit "---" ++ [ch_nl]) :: rest) meta n = Some (meta, n + 4).
Proof. cbn [read_frontmatter]. by rewrite segment_text_line; first apply dashes_bare. Qed.

Lemma escape_nl v : ch_nl ∉ v → ch_nl ∉ escape_quotes v.
Proof.
  induction v as [|c v IH]; [done|]. intros [Hc Hv]%not_elem_of_cons. cbn. apply not_elem_of_app. split; [|by apply IH].
  destruct (c =? ch_quote)%N; set_solver.
Qed.

(** Whether a text begins with a block of metadata. *)
Definition begins_with_block (content : str) : bool :=
  match split_lines content with
  | [] => false
  | first :: rest => (segment_text first =s? "---") && existsb (λ s, segment_text s =s? "---") rest
  end.
Lemma read_frontmatter_open segments meta n :
  existsb (λ s, segment_text s =s? "---") segments = false → read_frontmatter segments meta n = None.
Proof.
  revert meta n. induction segments as [|s segments IH]; intros meta n; [done|]. cbn. intros [Hs Hr]%orb_false_iff.
  rewrite Hs. case_match; by apply IH.
Qed.
Lemma parse_without_block content : begins_with_block content = false → parse_frontmatter content = (None, None, content).
Proof.
  unfold begins_with_block, parse_frontmatter. destruct content as [|c content]; [done|].
  destruct (split_lines (c :: content)) as [|s segments] eqn:Hs.
  - cbn in Hs. destruct (c =? ch_nl)%N; [done|]. by destruct (split_lines content).
  - intros [->|Hr]%andb_false_iff; [done|]. rewrite read_frontmatter_open //. by destruct (segment_text s =s? "---").
Qed.

(** A block of lines of metadata, and what follows. *)
Definition is_metadata (l : str) : Prop :=
  (ch_nl ∉ l) ∧ ∀ rest meta n, read_frontmatter ((l ++ [ch_nl]) :: rest) meta n
    = read_frontmatter rest (read_metadata l meta) (n + length (l ++ [ch_nl])).
Definition with_newline (l : str) : str := l ++ [ch_nl].
Lemma split_lines_metadata ls r : Forall is_metadata ls →
  split_lines (concat (with_newline <$> ls) ++ r) = (with_newline <$> ls) ++ split_lines r.
Proof.
  induction 1 as [|l ls [Hl _] _ IH]; [done|]. cbn. rewrite -app_assoc. unfold with_newline at 1. rewrite -app_assoc.
  by rewrite split_lines_cons // IH.
Qed.
Lemma read_frontmatter_lines ls rest meta n : Forall is_metadata ls →
  read_frontmatter ((with_newline <$> ls) ++ (lit "---" ++ [ch_nl]) :: rest) meta n
  = Some (foldl (λ meta l, read_metadata l meta) meta ls, (n + length (concat (with_newline <$> ls)) + 4)%nat).
Proof.
  intros Hls. revert meta n. induction Hls as [|l ls [_ Hl] _ IH]; intros meta n.
  - rewrite Nat.add_0_r. apply read_frontmatter_closing.
  - cbn [fmap list_fmap app concat foldl]. unfold with_newline at 1. rewrite Hl IH. do 3 f_equal.
    change (with_newline l) with (l ++ [ch_nl]). rewrite !length_app. slia.
Qed.
Lemma parse_block ls content : Forall is_metadata ls →
  parse_frontmatter (lit "---" ++ [ch_nl] ++ concat (with_newline <$> ls) ++ lit "---" ++ [ch_nl] ++ content)
  = let meta := foldl (λ meta l, read_metadata l meta) (None, None) ls in (meta.1, meta.2, content).
Proof.
  intros Hls. assert (ch_nl ∉ lit "---") as Hd by (apply (bool_decide_unpack _); exact I).
  unfold parse_frontmatter. cbn [app]. rewrite split_lines_cons // split_lines_metadata // split_lines_cons //.
  rewrite segment_text_line; [apply dashes_bare|]. rewrite read_frontmatter_lines //. cbn -[drop]. do 2 f_equal.
  rewrite (app_assoc (lit "---") [ch_nl] content).
  change (lit "---" ++ ch_nl :: ?x) with ((lit "---" ++ [ch_nl]) ++ x).
  rewrite (app_assoc (concat _)) (app_assoc (lit "---" ++ [ch_nl])). apply drop_app_length'.
  rewrite !length_app. change (length (lit "---")) with 3%nat. cbn. lia.
Qed.
Lemma quoted_line_metadata c key v : is_whitespace c = false → c ≠ 45%N → c ≠ 35%N → ch_nl ∉ (c :: key) → ch_nl ∉ v →
  is_metadata (quoted_line (c :: key) v).
Proof. intros Hc Hd Hh Hk Hv. split; [by apply quoted_line_nl|]. intros. by apply read_frontmatter_line. Qed.
Lemma kept_lines_metadata key v : key = lit "description" ∨ key = lit "argument-hint" →
  (∀ t, kept v = Some t → ch_nl ∉ t) → Forall is_metadata (kept_lines key v).
Proof.
  unfold kept_lines. destruct (kept v) as [t|]; intros Hk Hv; [|constructor]. apply Forall_singleton.
  destruct Hk as [-> | ->]; apply quoted_line_metadata; try done; try (apply (bool_decide_unpack _); exact I);
    by apply escape_nl, Hv.
Qed.

(** A prompt with metadata that is saved is read back. *)
Lemma parse_saved description argument_hint content :
  (∀ v, kept description = Some v ∨ kept argument_hint = Some v → ch_nl ∉ v) →
  is_some_b (kept description) || is_some_b (kept argument_hint) = true →
  parse_frontmatter (build_prompt_contents description argument_hint content)
  = (escape_quotes <$> kept description, escape_quotes <$> kept argument_hint, content).
Proof.
  intros Hnl Hk. unfold build_prompt_contents. rewrite !nonblank_kept !metadata_line_kept Hk. cbn [negb].
  pose proof (kept_lines_metadata "description" description ltac:(by left) ltac:(auto)) as Hd.
  pose proof (kept_lines_metadata "argument-hint" argument_hint ltac:(by right) ltac:(auto)) as Hh.
  rewrite (app_assoc (concat _)) -concat_app -fmap_app.
  rewrite (parse_block _ _ (proj2 (Forall_app _ _ _) (conj Hd Hh))). unfold kept_lines.
  destruct (kept description), (kept argument_hint); cbn [app foldl];
    rewrite ?read_quoted_line //; apply (bool_decide_unpack _); exact I.
Qed.

(** C20. A prompt is read back as it was saved: with its content, and with its
    metadata, trimmed and with its quotes escaped, when the description and the hint
    are each on one line. A prompt without metadata comes back when its content does
    not begin like one. *)
Theorem saved_prompts_are_read_back description argument_hint content :
  (∀ v, kept description = Some v ∨ kept argument_hint = Some v → ch_nl ∉ v) →
  (kept description = None → kept argument_hint = None → begins_with_block content = false) →
  parse_frontmatter (build_prompt_contents description argument_hint content)
  = (escape_quotes <$> kept description, escape_quotes <$> kept argument_hint, content).
Proof.
  intros Hnl Hblock. destruct (is_some_b (kept description) || is_some_b (kept argument_hint)) eqn:Hk; [by apply parse_saved|].
  unfold build_prompt_contents. rewrite !nonblank_kept Hk. apply orb_false_iff in Hk as [Hd Hh].
  destruct (kept description), (kept argument_hint); try done. by apply parse_without_block, Hblock.
Qed.

(** Quotes in a description are escaped each time the prompt is saved as it was
    read. *)
Definition saved_and_read (description : str) : str :=
  unwrap_or [] (parse_frontmatter (build_prompt_contents (Some description) None [])).1.1.
Definition one_line (d : str) : Prop := (ch_nl ∉ d) ∧ bare d ∧ d ≠ [].
Lemma escape_one_line d : one_line d → one_line (escape_quotes d).
Proof.
  intros (Hnl & [Hf Hl] & Hne). split; [by apply escape_nl|]. split; [split|].
  - intros c r. destruct d as [|x d]; [done|]. specialize (Hf x d eq_refl). cbn.
    destruct (x =? ch_quote)%N; by intros [= <- _].
  - intros r c. destruct d as [|x d _] using rev_ind; [done|]. specialize (Hl d x eq_refl).
    unfold escape_quotes. rewrite flat_map_app. cbn. rewrite app_nil_r. destruct (N.eqb_spec x ch_quote) as [->|].
    + change [ch_backslash; ch_quote] with ([ch_backslash] ++ [ch_quote]). rewrite app_assoc. by intros [_ <-]%app_inj_tail.
    + by intros [_ <-]%app_inj_tail.
  - destruct d as [|x d]; [done|]. cbn. by destruct (x =? ch_quote)%N.
Qed.
Lemma saved_and_read_escapes d : one_line d → saved_and_read d = escape_quotes d.
Proof.
  intros (Hnl & [Hf Hl] & Hne). assert (kept (Some d) = Some d) as Hk.
  { unfold kept. cbn. rewrite trim_id //. by destruct d. }
  unfold saved_and_read. rewrite parse_saved Hk //. by intros v [[= <-]|].
Qed.
Theorem quotes_are_escaped_on_every_save description n : one_line description →
  Nat.iter n saved_and_read description = Nat.iter n escape_quotes description ∧ one_line (Nat.iter n escape_quotes description).
Proof.
  intros Hd. induction n as [|n [IH Hn]]; [done|]. rewrite !Nat.iter_succ IH saved_and_read_escapes //. split; [done|]. by apply escape_one_line.
Qed.

(** ** What the operations change *)

Section operations.
Context `{PromptFiles}.
Implicit Types (workspaces later : gmap str WorkspaceEntry).

(** A path that the machine resolves to nothing below the directories of prompts. *)
Definition leads_outside (w : World) workspaces (settings_path workspace_id path : str) : Prop :=
  ∀ entry roots root target canonical_root,
    workspaces !! workspace_id = Some entry → prompt_roots_for_workspace w settings_path workspaces entry = Ok roots →
    canonicalize w path = Some target → root ∈ roots → canonicalize w root = Some canonical_root →
    ¬ components canonical_root `prefix_of` components target.

Lemma check_prompt_outside w workspaces settings_path workspace_id path :
  leads_outside w workspaces settings_path workspace_id path →
  ∃ e, check_prompt workspaces settings_path workspace_id path w = (w, Err e).
Proof.
  intros Hout. unfold check_prompt, require_workspace_entry, lift_result, mbind, W_bind.
  destruct (workspaces !! workspace_id) as [entry|] eqn:He; cbn; [|by eexists].
  destruct (prompt_roots_for_workspace w settings_path workspaces entry) as [roots|e] eqn:Hr; [|by eexists].
  unfold ensure_path_within_roots. destruct (canonicalize w path) as [target|] eqn:Hc; [|by eexists].
  destruct (existsb (is_within w target) roots) eqn:Hw; [|by eexists]. exfalso.
  apply existsb_exists in Hw as (root & Hin%list_elem_of_In & Hw). unfold is_within in Hw.
  destruct (canonicalize w root) as [cr|] eqn:Hcr; [|done]. by eapply Hout, starts_with_prefix.
Qed.

(** What lies outside of the directories of prompts is neither changed nor moved
    nor deleted. *)
Theorem paths_outside_change_nothing w workspaces later settings_path workspace_id path name scope description argument_hint content :
  leads_outside w workspaces settings_path workspace_id path →
  (∃ e, prompts_update_core workspaces later settings_path workspace_id path name description argument_hint content w = (w, Err e)) ∧
  (∃ e, prompts_move_core workspaces later settings_path workspace_id path scope w = (w, Err e)) ∧
  (prompts_delete_core workspaces settings_path workspace_id path w = (w, Ok tt) ∧ path_exists w path = false
   ∨ ∃ e, prompts_delete_core workspaces settings_path workspace_id path w = (w, Err e)).
Proof.
  intros [e He]%check_prompt_outside.
  unfold prompts_update_core, prompts_move_core, prompts_delete_core, lift_result, ask, mbind, W_bind, W_err, mret, W_ret.
  destruct (path_exists w path) eqn:Hex; cbn; rewrite ?He.
  all: split_and!; try (by eexists); try (by right; eexists); try (by left).
  all: destruct (sanitize_prompt_name name); cbn; rewrite ?He; by eexists.
Qed.

Lemma sanitized_name name n : sanitize_prompt_name name = Ok n → n = trim name ∧ n ≠ [] ∧ ch_slash ∉ n.
Proof.
  unfold sanitize_prompt_name. destruct (is_empty (trim name)) eqn:He; [done|]. destruct (existsb _ _); [done|].
  destruct (contains_char ch_slash (trim name)) eqn:Hs; [done|]. destruct (contains_char ch_backslash (trim name)); [done|].
  intros [= <-]. apply is_empty_false in He. by apply contains_char_false in Hs.
Qed.
Lemma prompt_file_components dir n : dir ≠ [] → n ≠ [] → ch_slash ∉ n →
  components (prompt_file dir n) = components dir ++ [Normal (n ++ lit ".md")].
Proof.
  intros Hd Hn Hs. unfold prompt_file. assert (last (n ++ lit ".md") = Some 100%N) as Hl by by rewrite last_app.
  rewrite components_join //.
  - rewrite not_elem_of_app. split; [done|]. apply (bool_decide_unpack _); exact I.
  - by destruct n.
  - intros Hc. by rewrite Hc in Hl.
  - unfold classify. rewrite (proj2 (str_eqb_neq _ _)) //. intros Hc. by rewrite Hc in Hl.
Qed.

(** A prompt that is created did not exist; it is written into the directory of its
    scope. *)
Theorem created_prompts_are_new w w' workspaces settings_path workspace_id scope name description argument_hint content e :
  prompts_create_core workspaces settings_path workspace_id scope name description argument_hint content w = (w', Ok e) →
  ∃ entry dir, workspaces !! workspace_id = Some entry ∧ scope_dir workspaces settings_path entry scope w = (w, Ok dir) ∧
    path_exists w (prompt_path e) = false ∧
    (dir ≠ [] → components (prompt_path e) = components dir ++ [Normal (trim name ++ lit ".md")]) ∧
    w' = (write_file (prompt_path e) (build_prompt_contents description argument_hint content) (create_parent (prompt_path e) w).1).1.
Proof.
  unfold prompts_create_core. intros (w1 & n & [= <- Hn] & Hc)%W_bind_ok.
  apply W_bind_ok in Hc as (w1 & entry & [= <- He] & Hc). apply W_bind_ok in Hc as (w1 & dir & Hd & Hc).
  assert (w1 = w) as ->.
  { revert Hd. unfold scope_dir, global_dir, lift_result, ask, W_err, mbind, W_bind. repeat case_match; congruence. }
  apply W_bind_ok in Hc as (w1 & found & [= <- <-] & Hc). destruct (path_exists w (prompt_file dir n)) eqn:Hex; [done|].
  apply W_bind_ok in Hc as (w1 & [] & Hp & Hc). apply W_bind_ok in Hc as (w2 & [] & Hw & [-> ->]%W_ret_ok).
  apply sanitized_name in Hn as (-> & Hne & Hs). exists entry, dir. cbn [prompt_path]. split_and!; try done.
  - unfold require_workspace_entry in He. by destruct (workspaces !! workspace_id); simplify_eq/=.
  - intros Hdir. by apply prompt_file_components.
  - by rewrite Hp Hw.
Qed.

(** An update changes nothing, or writes a prompt that is the old one or did not
    exist; a prompt that gets another name is removed only after it was written
    under the new one. *)
Theorem updates_replace_no_other_prompt w w' r workspaces later settings_path workspace_id path name description argument_hint content :
  prompts_update_core workspaces later settings_path workspace_id path name description argument_hint content w = (w', r) →
  w' = w ∧ is_ok r = false ∨
  ∃ dir, let next_path := prompt_file dir (trim name) in
    path_parent path = Some dir ∧ (path_eq next_path path = true ∨ path_exists w next_path = false) ∧
    match write_file next_path (build_prompt_contents description argument_hint content) w with
    | (w1, Err _) => w' = w1 ∧ is_ok r = false
    | (w1, Ok _) => w' = if path_eq next_path path then w1 else (remove_file path w1).1
    end.
Proof.
  unfold prompts_update_core, mbind, W_bind, lift_result. destruct (sanitize_prompt_name name) as [n|e] eqn:Hn; [|intros [= <- <-]; by left].
  apply sanitized_name in Hn as (-> & _). unfold ask at 1. cbn [negb].
  destruct (path_exists w path); [|intros [= <- <-]; by left]. cbn [negb].
  destruct (check_prompt workspaces settings_path workspace_id path w) as [w0 c] eqn:Hc.
  assert (w0 = w) as ->.
  { revert Hc. unfold check_prompt, lift_result, ensure_path_within_roots, mbind, W_bind. repeat case_match; congruence. }
  destruct c as [[]|e]; [|intros [= <- <-]; by left]. destruct (path_parent path) as [dir|]; [|intros [= <- <-]; by left].
  cbn [ok_or]. unfold ask at 1. set (next := prompt_file dir (trim name)).
  destruct (negb (path_eq next path) && path_exists w next) eqn:Ht; [intros [= <- <-]; by left|].
  intros Hr. right. exists dir. split_and!; [done| |].
  - apply andb_false_iff in Ht as [Ht%negb_false_iff|Ht]; [by left|by right].
  - fold next. destruct (write_file next _ w) as [w1 [[]|e]]; [|by injection Hr as <- <-].
    destruct (path_eq next path); [|destruct (remove_file path w1) as [w2 [[]|e]]]; unfold mret, W_ret in *; cbn in *; repeat case_match; by simplify_eq/=.
Qed.

(** The check takes the directory of prompts itself for a prompt: an update of it
    writes a file next to it, outside of all directories of prompts. *)
Theorem the_directory_passes_for_a_prompt w workspaces later settings_path workspace_id entry dir parent canonical name n content :
  workspaces !! workspace_id = Some entry → workspace_prompts_dir settings_path entry = Ok dir →
  path_exists w dir = true → canonicalize w dir = Some canonical → path_parent dir = Some parent →
  sanitize_prompt_name name = Ok n → path_eq (prompt_file parent n) dir = false → path_exists w (prompt_file parent n) = false →
  (∀ w1 e, write_file (prompt_file parent n) content w = (w1, Err e) →
     prompts_update_core workspaces later settings_path workspace_id dir name None None content w = (w1, Err e)) ∧
  (∀ w1, write_file (prompt_file parent n) content w = (w1, Ok tt) →
     (prompts_update_core workspaces later settings_path workspace_id dir name None None content w).1 = (remove_file dir w1).1).
Proof.
  intros Hw Hd Hex Hc Hp Hn Heq Hfree.
  assert (check_prompt workspaces settings_path workspace_id dir w = (w, Ok tt)) as Hcheck.
  { unfold check_prompt, require_workspace_entry, lift_result, mbind, W_bind. rewrite Hw. cbn.
    unfold prompt_roots_for_workspace. rewrite Hd. cbn. unfold ensure_path_within_roots. rewrite Hc. cbn. unfold is_within at 1.
    rewrite Hc. unfold path_starts_with. by rewrite firstn_all bool_decide_true. }
  unfold prompts_update_core, mbind, W_bind, lift_result, ask. rewrite Hn Hex. cbn [negb]. rewrite Hcheck Hp. cbn [ok_or].
  rewrite Heq Hfree. cbn [negb andb]. change (build_prompt_contents None None content) with content.
  split; [intros w1 e ->; done|]. intros w1 ->. destruct (remove_file dir w1) as [w2 [[]|e]]; [|done].
  cbn. by repeat case_match.
Qed.
End operations.

(** ** Prompts of a machine *)

(** Files by their paths, and the directories they need; [/links/out.md] is a link
    to a file elsewhere. *)
Definition prompt_host : Host := {|
  target_os := OtherOS; World := gmap str str;
  is_dir := λ _ _, true; is_file := λ w p, is_some_b (w !! p);
  path_exists := λ w p, is_some_b (w !! p) || (p =s? lit "/data/workspaces/w1/prompts");
  read_dir_is_empty := λ _ _, Ok true; read_to_string := λ w p, ok_or (lit "not found") (w !! p);
  create_dir_all := λ _ w, (w, Ok tt); remove_dir_all := λ _ w, (w, Ok tt);
  copy_file := λ _ _ w, (w, Ok tt); rename_file := λ _ _ w, (w, Ok tt);
  remove_file := λ p w, if is_some_b (w !! p) then (delete p w, Ok tt) else (w, Err (lit "is a directory"));
  write_file := λ p c w, (<[p := c]> w, Ok tt);
  git := λ _ _ w, (w, Ok (MkGitOutput (Some 0%Z) [] [])); new_uuid := λ w, (w, lit "0b5f");
  unix_seconds := λ _, 0%N; env_var := λ _ name, if name =s? "HOME" then Some (lit "/home/me") else None; passwd_dir := λ _, None
|}.
Definition prompt_files : PromptFiles (H := prompt_host) := {|
  read_dir := λ w _, Some (map_to_list w).*1;
  canonicalize := λ _ p, Some (if p =s? lit "/links/out.md" then lit "/elsewhere/out.md" else p);
  is_cross_device_error := λ _, false
|}.
Definition prompt_workspace : WorkspaceEntry := MkWorkspaceEntry "w1" "app" "/work/app" Main None None WorkspaceSettings_default.
Definition prompt_workspaces : gmap str WorkspaceEntry := {["w1" : str := prompt_workspace]}.
Definition prompt_world : World (Host := prompt_host) := {["/data/workspaces/w1/prompts/a.md" : str := lit "hello"]}.

Section demo.
#[local] Existing Instances prompt_host prompt_files.
Definition demo_settings_path : str := "/data/settings.json".
Definition demo_create : W CustomPromptEntry :=
  prompts_create_core prompt_workspaces demo_settings_path "w1" "workspace" " review " (Some (lit "Review the change")) None (lit "Look at it.").
Example demo_created :
  (demo_create prompt_world).2 = Ok (MkPrompt "review" "/data/workspaces/w1/prompts/review.md" (Some (lit "Review the change")) None (lit "Look at it.")
    (Some (lit "workspace"))).
Proof. vm_compute. reflexivity. Qed.
Example demo_listed :
  (λ r, match r with Ok l => (λ p, (prompt_name p, prompt_description p, prompt_content p)) <$> l | Err _ => [] end)
    (prompts_list_core prompt_workspaces demo_settings_path "w1" (demo_create prompt_world).1).2
  = let one := [(lit "a", None, lit "hello"); (lit "review", Some (lit "Review the change"), lit "Look at it.")] in one ++ one.
Proof. vm_compute. reflexivity. Qed.

Definition demo_meta : str := "say hello".
Lemma saved_prompts_are_read_back_witness :
  parse_frontmatter (build_prompt_contents (Some demo_meta) None (lit "body")) = (Some demo_meta, None, lit "body").
Proof.
  apply (saved_prompts_are_read_back (Some demo_meta) None (lit "body")); [|done].
  intros v [[= <-]|[=]]. apply (bool_decide_unpack _). exact I.
Defined.
Lemma quotes_are_escaped_on_every_save_witness :
  let d : str := [115; 97; 121; 32; 34; 104; 105; 34]%N in Nat.iter 2 saved_and_read d = Nat.iter 2 escape_quotes d.
Proof.
  intros d. apply (quotes_are_escaped_on_every_save d 2). split; [|split]; [apply (bool_decide_unpack _); exact I| |done].
  split; [by intros c r [= <- _]|]. intros r c Hr. apply (f_equal last) in Hr. rewrite last_snoc in Hr. by injection Hr as <-.
Defined.
Lemma demo_outside : leads_outside prompt_world prompt_workspaces demo_settings_path "w1" "/links/out.md".
Proof.
  intros entry roots root target cr [= <-] Hr [= <-] Hroot Hc Hpre. vm_compute in Hr. injection Hr as <-.
  rewrite !elem_of_cons in Hroot. destruct Hroot as [-> | [-> | Hroot]]; [| |by apply not_elem_of_nil in Hroot].
  all: vm_compute in Hc; injection Hc as <-; vm_compute in Hpre; destruct Hpre as [k Hk]; discriminate.
Qed.
Lemma paths_outside_change_nothing_witness :
  ∃ e, prompts_update_core prompt_workspaces prompt_workspaces demo_settings_path "w1" "/links/out.md" "b" None None (lit "x") prompt_world
       = (prompt_world, Err e).
Proof.
  apply (paths_outside_change_nothing prompt_world prompt_workspaces prompt_workspaces demo_settings_path "w1" "/links/out.md" "b" "global"
    None None (lit "x") demo_outside).
Defined.
Lemma created_prompts_are_new_witness : path_exists prompt_world "/data/workspaces/w1/prompts/review.md" = false.
Proof.
  destruct (created_prompts_are_new prompt_world (demo_create prompt_world).1 prompt_workspaces demo_settings_path "w1" "workspace" " review "
    (Some (lit "Review the change")) None (lit "Look at it.") _ ltac:(vm_compute; reflexivity)) as (_ & _ & _ & _ & H & _). exact H.
Defined.
Lemma updates_replace_no_other_prompt_witness :
  let w' := (prompts_update_core prompt_workspaces prompt_workspaces demo_settings_path "w1" "/data/workspaces/w1/prompts/a.md" "b" None None
              (lit "x") prompt_world).1 in
  w' = {["/data/workspaces/w1/prompts/b.md" : str := lit "x"]}.
Proof.
  intros w'. destruct (updates_replace_no_other_prompt prompt_world w' _ prompt_workspaces prompt_workspaces demo_settings_path "w1"
    "/data/workspaces/w1/prompts/a.md" "b" None None (lit "x") (surjective_pairing _)) as [[_ H]|(dir & [= <-] & _ & H)]; [done|].
  refine (eq_trans H _). vm_compute. reflexivity.
Defined.
Lemma the_directory_passes_for_a_prompt_witness :
  (prompts_update_core prompt_workspaces prompt_workspaces demo_settings_path "w1" "/data/workspaces/w1/prompts" "b" None None (lit "x") prompt_world).1
  = (remove_file "/data/workspaces/w1/prompts" (<["/data/workspaces/w1/b.md" : str := lit "x"]> prompt_world)).1.
Proof.
  refine (proj2 (the_directory_passes_for_a_prompt prompt_world prompt_workspaces prompt_workspaces demo_settings_path "w1" prompt_workspace
    "/data/workspaces/w1/prompts" "/data/workspaces/w1" "/data/workspaces/w1/prompts" "b" "b" (lit "x") _ _ _ _ _ _ _ _)
    (<["/data/workspaces/w1/b.md" : str := lit "x"]> prompt_world) _); vm_compute; reflexivity.
Defined.
End demo.
