(* ===== verification/WorkspaceFiles.v ===== *)
(** The files of a workspace and of the codex home that the user edits
    ([src-tauri/src/files/], [src-tauri/src/shared/files_core.rs]), and the rules
    file to which approved commands are added ([src-tauri/src/rules.rs]). The files
    are those of [Host]; what it lacks (classes [FileLinks] and [LockFiles]) is a
    parameter. *)
From S2P Require Import Prelude Paths Types Host.
From Stdlib Require Import Lia.

(** ** Text files below a directory *)

Record TextFileResponse := MkTextFile { tf_exists : bool; tf_content : str; tf_truncated : bool }.
Definition missing_response : TextFileResponse := MkTextFile false [] false.

(** What opening and reading a file gives. *)
Inductive ReadOutcome := OpenFailed (err : str) | ReadFailed (err : str) | NotUtf8 | Contents (text : str).
Class FileLinks `{Host} := {
  canonical : World → str → result str str;
  is_symlink : World → str → result str bool;
  open_and_read : World → str → ReadOutcome
}.

Section files.
Context `{FileLinks}.
Implicit Types (workspaces : gmap str WorkspaceEntry).

Definition of_result {A} (r : World → result str A) : W A := λ w, (w, r w).
Definition failed (what context err : str) : str := lit "Failed to " ++ what ++ lit " " ++ context ++ lit ": " ++ err.
Definition canonical_dir (root root_context : str) (w : World) : result str str :=
  canonical_root ← map_err (failed "resolve" root_context) (canonical w root);
  if negb (is_dir w canonical_root) then Err (root_context ++ lit " is not a directory") else Ok canonical_root.
Definition resolve_root (root root_context : str) (root_may_be_missing : bool) (w : World) : result str (option str) :=
  if root_may_be_missing && negb (path_exists w root) then Ok None
  else canonical_root ← canonical_dir root root_context w; Ok (Some canonical_root).
Definition resolve_or_create_root (root root_context : str) : W str :=
  _ ← W_map_err (failed "create" root_context) (create_dir_all root);
  of_result (canonical_dir root root_context).

(** The file a path leads to, which is to be below the root. *)
Definition resolve_within (canonical_root candidate what file_context : str) (allow_external_symlink_target : bool) (w : World) :
    result str str :=
  candidate_is_symlink ← map_err (failed what file_context) (is_symlink w candidate);
  canonical_path ← map_err (failed what file_context) (canonical w candidate);
  if negb (path_starts_with canonical_path canonical_root) && negb (allow_external_symlink_target && candidate_is_symlink)
  then Err (lit "Invalid " ++ file_context ++ lit " path")
  else Ok canonical_path.

Definition read_text_file_within (root filename : str) (root_may_be_missing : bool) (root_context file_context : str)
    (allow_external_symlink_target : bool) (w : World) : result str TextFileResponse :=
  canonical_root ← resolve_root root root_context root_may_be_missing w;
  match canonical_root with
  | None => Ok missing_response
  | Some canonical_root =>
      let candidate := path_join canonical_root filename in
      if negb (path_exists w candidate) then Ok missing_response
      else
        canonical_path ← resolve_within canonical_root candidate "open" file_context allow_external_symlink_target w;
        match open_and_read w canonical_path with
        | OpenFailed err => Err (failed "open" file_context err)
        | ReadFailed err => Err (failed "read" file_context err)
        | NotUtf8 => Err (file_context ++ lit " is not valid UTF-8")
        | Contents content => Ok (MkTextFile true content false)
        end
  end.

(** The path that is written. *)
Definition write_target (canonical_root filename file_context : str) (allow_external_symlink_target : bool) (w : World) : result str str :=
  let candidate := path_join canonical_root filename in
  if negb (path_starts_with candidate canonical_root) then Err (lit "Invalid " ++ file_context ++ lit " path")
  else if path_exists w candidate
  then resolve_within canonical_root candidate "resolve" file_context allow_external_symlink_target w
  else Ok candidate.
Definition root_to_write (root root_context : str) (create_root : bool) : W str :=
  if create_root then resolve_or_create_root root root_context
  else of_result (λ w, canonical_root ← resolve_root root root_context false w;
                       ok_or (lit "Failed to resolve " ++ root_context) canonical_root).
Definition write_text_file_within (root filename content : str) (create_root : bool) (root_context file_context : str)
    (allow_external_symlink_target : bool) : W unit :=
  canonical_root ← root_to_write root root_context create_root;
  target_path ← of_result (write_target canonical_root filename file_context allow_external_symlink_target);
  W_map_err (failed "write" file_context) (write_file target_path content).

(** ** Which files *)

Inductive FileScope := WorkspaceScope | GlobalScope.
Inductive FileKind := AgentsKind | ConfigKind.
#[global] Instance FileScope_eq_dec : EqDecision FileScope.
Proof. solve_decision. Defined.
#[global] Instance FileKind_eq_dec : EqDecision FileKind.
Proof. solve_decision. Defined.
Record FilePolicy := MkFilePolicy {
  filename : str;
  root_context : str;
  root_may_be_missing : bool;
  create_root : bool;
  allow_external_symlink_target : bool
}.
Definition AGENTS_FILENAME : str := "AGENTS.md".
Definition CONFIG_FILENAME : str := "config.toml".
Definition policy_for (scope : FileScope) (kind : FileKind) : result str FilePolicy :=
  match scope, kind with
  | WorkspaceScope, AgentsKind => Ok (MkFilePolicy AGENTS_FILENAME "workspace root" false false false)
  | GlobalScope, AgentsKind => Ok (MkFilePolicy AGENTS_FILENAME "CODEX_HOME" true true true)
  | GlobalScope, ConfigKind => Ok (MkFilePolicy CONFIG_FILENAME "CODEX_HOME" true true false)
  | WorkspaceScope, ConfigKind => Err ("config.toml is only supported for global scope" : str)
  end.

Definition read_with_policy (root : str) (policy : FilePolicy) : World → result str TextFileResponse :=
  read_text_file_within root (filename policy) (root_may_be_missing policy) (root_context policy) (filename policy)
    (allow_external_symlink_target policy).
Definition write_with_policy (root : str) (policy : FilePolicy) (content : str) : W unit :=
  write_text_file_within root (filename policy) content (create_root policy) (root_context policy) (filename policy)
    (allow_external_symlink_target policy).

Definition resolve_workspace_root workspaces (workspace_id : str) : result str str :=
  entry ← ok_or ("workspace not found" : str) (workspaces !! workspace_id); Ok (entry_path entry).
Definition resolve_root_core workspaces (scope : FileScope) (workspace_id : option str) (w : World) : result str str :=
  match scope with
  | GlobalScope => ok_or ("Unable to resolve CODEX_HOME" : str) (resolve_default_codex_home w)
  | WorkspaceScope => workspace_id ← ok_or ("workspaceId is required" : str) workspace_id; resolve_workspace_root workspaces workspace_id
  end.
Definition file_read_core workspaces (scope : FileScope) (kind : FileKind) (workspace_id : option str) : W TextFileResponse :=
  policy ← of_result (λ _, policy_for scope kind);
  root ← of_result (resolve_root_core workspaces scope workspace_id);
  of_result (read_with_policy root policy).
Definition file_write_core workspaces (scope : FileScope) (kind : FileKind) (workspace_id : option str) (content : str) : W unit :=
  policy ← of_result (λ _, policy_for scope kind);
  root ← of_result (resolve_root_core workspaces scope workspace_id);
  write_with_policy root policy content.
End files.

(** ** The rules file *)

Definition RULES_DIR : str := "rules".
Definition DEFAULT_RULES_FILE : str := "default.rules".
Definition default_rules_path (codex_home : str) : str := path_join (path_join codex_home RULES_DIR) DEFAULT_RULES_FILE.

Definition ch_tab : char := 9%N.
Definition ch_double_quote : char := 34%N.
Definition replace_char (c : char) (by_ : str) (s : str) : str := flat_map (λ d, if (d =? c)%N then by_ else [d]) s.
Definition escape_string (v : str) : str :=
  replace_char ch_tab (lit "\t") (replace_char ch_cr (lit "\r") (replace_char ch_nl (lit "\n")
    (replace_char ch_double_quote [ch_backslash; ch_double_quote] (replace_char ch_backslash (lit "\\") v)))).
Definition in_quotes (s : str) : str := ch_double_quote :: s ++ [ch_double_quote].
Definition format_pattern_list (pattern : list str) : str := join (lit ", ") ((λ item, in_quotes (escape_string item)) <$> pattern).
Definition bracketed (s : str) : str := lit "[" ++ s ++ lit "]".
Definition format_prefix_rule (pattern : list str) : str :=
  lit "prefix_rule(" ++ [ch_nl] ++ lit "    pattern = " ++ bracketed (format_pattern_list pattern) ++ lit "," ++ [ch_nl]
  ++ lit "    decision = " ++ in_quotes (lit "allow") ++ lit "," ++ [ch_nl] ++ lit ")" ++ [ch_nl].
Definition normalize_rule_value (v : str) : str := List.filter (λ ch, negb (is_whitespace ch)) v.

(** The scan of the lines of the file: whether it stands in a rule, and whether
    the pattern and the decision of the rule were seen. *)
Record RuleScan := MkRuleScan { in_rule : bool; pattern_matches : bool; decision_allows : bool }.
Definition candidate_of (trimmed : str) : option str :=
  '(_, v) ← split_once 61%N trimmed; Some (trim_end_matches (N.eqb 44%N) (trim v)).
Definition scan_rule_line (target_pattern : str) (st : RuleScan) (line : str) : RuleScan * bool :=
  let trimmed := trim line in
  if starts_with "prefix_rule(" trimmed then (MkRuleScan true false false, false)
  else if negb (in_rule st) then (st, false)
  else if starts_with "pattern" trimmed then
    match candidate_of trimmed with
    | Some candidate =>
        if normalize_rule_value candidate =s? target_pattern then (MkRuleScan (in_rule st) true (decision_allows st), false) else (st, false)
    | None => (st, false)
    end
  else if starts_with "decision" trimmed then
    match candidate_of trimmed with
    | Some candidate =>
        if contains_str (in_quotes (lit "allow")) candidate || contains_str (lit "'allow'") candidate
        then (MkRuleScan (in_rule st) (pattern_matches st) true, false) else (st, false)
    | None => (st, false)
    end
  else if starts_with ")" trimmed then
    if pattern_matches st && decision_allows st then (st, true) else (MkRuleScan false (pattern_matches st) (decision_allows st), false)
  else (st, false).
Fixpoint scan_rules (target_pattern : str) (st : RuleScan) (ls : list str) : bool :=
  match ls with
  | [] => false
  | line :: rest =>
      let '(st, found) := scan_rule_line target_pattern st line in
      if (found : bool) then true else scan_rules target_pattern st rest
  end.
Definition rule_already_present (contents : str) (pattern : list str) : bool :=
  scan_rules (normalize_rule_value (bracketed (format_pattern_list pattern))) (MkRuleScan false false false) (lines contents).

(** The text of the file with the rule at its end. *)
Definition with_rule (existing : str) (pattern : list str) : str :=
  let updated := if negb (is_empty existing) && negb (ends_with [ch_nl] existing) then existing ++ [ch_nl] else existing in
  let updated := if negb (is_empty updated) then updated ++ [ch_nl] else updated in
  let updated := updated ++ format_prefix_rule pattern in
  if negb (ends_with [ch_nl] updated) then updated ++ [ch_nl] else updated.

(** ** Its lock *)

(** Creating a file that is not there. *)
Inductive CreateOutcome := Created | AlreadyExists | CreateFailed (err : str).
Class LockFiles `{Host} := {
  create_new : str → World → World * CreateOutcome;
  (** How long ago a file was modified, in milliseconds, when that can be told. *)
  file_age : World → str → option N;
  now_ms : World → N;
  sleep : N → World → World
}.

Section rules.
Context `{LockFiles}.

Definition is_lock_stale (w : World) (path : str) (stale_after : N) : bool :=
  match file_age w path with Some age => (stale_after <? age)%N | None => false end.
(** The loop may not end, so it has fuel. *)
Fixpoint acquire_loop (fuel : nat) (lock_path : str) (deadline : N) (w : World) : option (World * result str unit) :=
  match fuel with
  | O => None
  | S fuel =>
      match create_new lock_path w with
      | (w, Created) => Some (w, Ok tt)
      | (w, AlreadyExists) =>
          if is_lock_stale w lock_path 30000 then acquire_loop fuel lock_path deadline (remove_file lock_path w).1
          else if (deadline <=? now_ms w)%N then Some (w, Err ("timed out waiting for rules file lock" : str))
          else acquire_loop fuel lock_path deadline (sleep 50 w)
      | (w, CreateFailed err) => Some (w, Err err)
      end
  end.
Definition with_extension (path ext : str) : str :=
  match path_parent path, file_stem path with
  | Some parent, Some stem => path_join parent (stem ++ lit "." ++ ext)
  | _, _ => path
  end.
Definition acquire_rules_lock (fuel : nat) (path : str) (w : World) : option (World * result str unit) :=
  acquire_loop fuel (with_extension path "lock") (now_ms w + 2000) w.

(** What is done under the lock. *)
Definition add_rule (path : str) (pattern : list str) : W unit := λ w,
  let existing := match read_to_string w path with Ok text => text | Err _ => [] end in
  if rule_already_present existing pattern then (w, Ok tt) else write_file path (with_rule existing pattern) w.
Definition append_prefix_rule (fuel : nat) (path : str) (pattern : list str) (w : World) : option (World * result str unit) :=
  if is_empty pattern then Some (w, Err ("empty command pattern" : str))
  else
    match (match path_parent path with Some parent => create_dir_all parent w | None => (w, Ok tt) end) with
    | (w, Err err) => Some (w, Err err)
    | (w, Ok _) =>
        '(w, locked) ← acquire_rules_lock fuel path w;
        match locked with
        | Err err => Some (w, Err err)
        | Ok _ => let '(w, r) := add_rule path pattern w in Some ((remove_file (with_extension path "lock") w).1, r)
        end
    end.
End rules.
