(* ===== verification/FileProofs.v ===== *)
(** What is proved of the files the user edits and of the rules file
    ([WorkspaceFiles]): writes stay below the directory that was resolved, a rule
    that is added is found again, and the lock of the rules file is got or given
    up. *)
From S2P Require Import Prelude Paths Types Host WorkspaceFiles.
From Stdlib Require Import Lia.

(** ** What is written *)

Section files.
Context `{FileLinks}.
Implicit Types (workspaces : gmap str WorkspaceEntry).

(** What is written for a file of a directory: the file it leads to, where that is below
    the directory or it is a link that may leave it; and the path itself, as text below
    the directory, where nothing is found there. *)
Definition leads_below (w : World) (canonical_root filename : str) (links_may_leave : bool) (target : str) : Prop :=
  path_exists w (path_join canonical_root filename) = true ∧ canonical w (path_join canonical_root filename) = Ok target ∧
  (components canonical_root `prefix_of` components target ∨
   links_may_leave = true ∧ is_symlink w (path_join canonical_root filename) = Ok true).
Definition not_there (w : World) (canonical_root filename target : str) : Prop :=
  path_exists w (path_join canonical_root filename) = false ∧ target = path_join canonical_root filename ∧
  components canonical_root `prefix_of` components target.
Definition may_be_written (w : World) (canonical_root filename : str) (links_may_leave : bool) (target : str) : Prop :=
  leads_below w canonical_root filename links_may_leave target ∨ not_there w canonical_root filename target.
Lemma write_target_ok canonical_root filename file_context allow w target :
  write_target canonical_root filename file_context allow w = Ok target → may_be_written w canonical_root filename allow target.
Proof.
  unfold write_target. destruct (path_starts_with (path_join canonical_root filename) canonical_root) eqn:Hs; [|done]. cbn [negb].
  destruct (path_exists w _) eqn:He; [|intros [= <-]; right; split_and!; [done..|by apply starts_with_prefix]].
  unfold resolve_within. intros (link & Hl%map_err_Ok & Hr)%bind_Ok. apply bind_Ok in Hr as (p & Hp%map_err_Ok & Hr). left.
  destruct (path_starts_with p canonical_root) eqn:Hb; cbn [negb andb] in Hr.
  - injection Hr as <-. split_and!; [done..|]. left. by apply starts_with_prefix.
  - destruct allow, link; try done. injection Hr as <-. split_and!; [done..|by right].
Qed.

Lemma canonical_dir_ok root root_context w canonical_root :
  canonical_dir root root_context w = Ok canonical_root → canonical w root = Ok canonical_root ∧ is_dir w canonical_root = true.
Proof.
  unfold canonical_dir. intros (p & Hp%map_err_Ok & Hr)%bind_Ok. destruct (is_dir w p) eqn:Hd; [|done]. by injection Hr as <-.
Qed.
Lemma root_to_write_ok root root_context create w w0 r : root_to_write root root_context create w = (w0, r) →
  (w0 = w ∨ create = true ∧ w0 = (create_dir_all root w).1) ∧
  ∀ canonical_root, r = Ok canonical_root → canonical w0 root = Ok canonical_root ∧ is_dir w0 canonical_root = true.
Proof.
  unfold root_to_write. destruct create.
  - unfold resolve_or_create_root, mbind, W_bind, W_map_err, of_result. destruct (create_dir_all root w) as [w1 [[]|e]] eqn:Hc;
      cbn; intros [= <- <-]; (split; [by right|]); [intros c Hr; by eapply canonical_dir_ok|done].
  - unfold of_result. intros [= <- <-]. split; [by left|]. intros c (o & Ho & Hr)%bind_Ok.
    apply bind_Ok in Ho as (d & Hd & [= <-]). injection Hr as <-. by eapply canonical_dir_ok.
Qed.

(** Writing a text file changes nothing, or that file below its directory. *)
Definition wrote_below (w0 w' : World) (r : result str unit) (root file content : str) (links_may_leave : bool) : Prop :=
  ∃ canonical_root target, canonical w0 root = Ok canonical_root ∧ is_dir w0 canonical_root = true ∧
    may_be_written w0 canonical_root file links_may_leave target ∧ w' = (write_file target content w0).1 ∧
    is_ok r = is_ok (write_file target content w0).2.
Lemma write_text_file_below root file content create root_context file_context allow w w' r :
  write_text_file_within root file content create root_context file_context allow w = (w', r) →
  ∃ w0, (w0 = w ∨ create = true ∧ w0 = (create_dir_all root w).1) ∧
    (w' = w0 ∧ is_ok r = false ∨ wrote_below w0 w' r root file content allow).
Proof.
  unfold write_text_file_within, mbind, W_bind. destruct (root_to_write root root_context create w) as [w0 rr] eqn:Hr.
  apply root_to_write_ok in Hr as [Hw0 Hok]. intros Hrun. exists w0. split; [done|].
  destruct rr as [c|e]; [|injection Hrun as <- <-; by left]. destruct (Hok c eq_refl) as [Hc Hd].
  unfold of_result in Hrun. destruct (write_target c file file_context allow w0) as [target|e] eqn:Ht; [|injection Hrun as <- <-; by left].
  right. exists c, target. split_and!; [done..|by eapply write_target_ok| |]; unfold W_map_err in Hrun;
    destruct (write_file target content w0) as [w1 []]; by injection Hrun as <- <-.
Qed.

(** The file that is written for a scope and a kind, and whether it may be a link that
    leads elsewhere; the directory it is in. *)
Definition file_named (scope : FileScope) (kind : FileKind) : option (str * bool) :=
  match scope, kind with
  | WorkspaceScope, AgentsKind => Some (lit "AGENTS.md", false)
  | GlobalScope, AgentsKind => Some (lit "AGENTS.md", true)
  | GlobalScope, ConfigKind => Some (lit "config.toml", false)
  | WorkspaceScope, ConfigKind => None
  end.
Definition directory_of workspaces (scope : FileScope) (workspace_id : option str) (w : World) : option str :=
  match scope with
  | WorkspaceScope => id ← workspace_id; entry_path <$> workspaces !! id
  | GlobalScope => resolve_default_codex_home w
  end.
Lemma resolve_root_directory workspaces scope workspace_id w root :
  resolve_root_core workspaces scope workspace_id w = Ok root → directory_of workspaces scope workspace_id w = Some root.
Proof.
  unfold resolve_root_core, directory_of, resolve_workspace_root. destruct scope.
  - destruct workspace_id as [id|]; [|done]. cbn. destruct (workspaces !! id); [|done]. cbn. by intros [= <-].
  - destruct (resolve_default_codex_home w); [|done]. cbn. by intros [= <-].
Qed.

(** C21. A write of a file of a workspace or of the codex home fails and changes nothing, or it
    changes only the AGENTS.md of the directory of the workspace, or the AGENTS.md or
    the config.toml of the codex home, which is created before where it is missing.
    What is written is the file that this path leads to, if there is one: it is below
    the directory, except that the AGENTS.md of the codex home may be a link that leads
    elsewhere. Where the path leads to no file, the path itself is written, and a link
    that leads nowhere is such a path: it is written through, wherever it points. *)
Theorem writes_stay_below_the_root w w' r workspaces scope kind workspace_id content :
  file_write_core workspaces scope kind workspace_id content w = (w', r) →
  w' = w ∧ is_ok r = false ∨
  ∃ root w0 file may_leave, directory_of workspaces scope workspace_id w = Some root ∧ file_named scope kind = Some (file, may_leave) ∧
    (w0 = w ∨ scope = GlobalScope ∧ w0 = (create_dir_all root w).1) ∧
    (w' = w0 ∧ is_ok r = false ∨ wrote_below w0 w' r root file content may_leave).
Proof.
  unfold file_write_core, of_result, mbind, W_bind.
  destruct (policy_for scope kind) as [policy|e] eqn:Hp; [|intros [= <- <-]; by left].
  destruct (resolve_root_core workspaces scope workspace_id w) as [root|e] eqn:Hr; [|intros [= <- <-]; by left].
  intros (w0 & Hw0 & Hw)%write_text_file_below. right. exists root, w0, (filename policy), (allow_external_symlink_target policy).
  split; [by apply resolve_root_directory|]. destruct scope, kind; simplify_eq/=; (split_and!; [done|naive_solver|done]).
Qed.

(** A link that leads nowhere is not taken for a link: what is written goes through
    it, wherever it points. *)
Theorem dangling_links_are_written_through w root canonical_root file content root_context file_context :
  canonical w root = Ok canonical_root → is_dir w canonical_root = true →
  path_starts_with (path_join canonical_root file) canonical_root = true → path_exists w (path_join canonical_root file) = false →
  write_text_file_within root file content false root_context file_context false w
  = W_map_err (failed "write" file_context) (write_file (path_join canonical_root file) content) w.
Proof.
  intros Hc Hd Hs He. unfold write_text_file_within, root_to_write, resolve_root, canonical_dir, write_target, of_result, mbind, W_bind.
  cbn. rewrite Hc. cbn. rewrite Hd. cbn. by rewrite Hs He.
Qed.
End files.

(** ** Rules *)

Lemma replace_char_absent c by_ s : c ∉ by_ → c ∉ replace_char c by_ s.
Proof.
  intros Hc. induction s as [|d s IH]; cbn; [apply not_elem_of_nil|]. apply not_elem_of_app. split; [|done].
  destruct (N.eqb_spec d c); [done|]. by intros ->%list_elem_of_singleton.
Qed.
Lemma replace_char_other c d by_ s : d ∉ by_ → d ∉ s → d ∉ replace_char c by_ s.
Proof.
  intros Hd. induction s as [|x s IH]; cbn; [done|]. intros [Hx Hs]%not_elem_of_cons. apply not_elem_of_app. split; [|by apply IH].
  destruct (x =? c)%N; [done|]. by intros ->%list_elem_of_singleton.
Qed.
Lemma escape_string_nl v : ch_nl ∉ escape_string v.
Proof.
  unfold escape_string. do 2 (apply replace_char_other; [apply (bool_decide_unpack _); exact I|]).
  apply replace_char_absent. apply (bool_decide_unpack _); exact I.
Qed.
Lemma join_absent c sep (l : list str) : c ∉ sep → Forall (λ s, c ∉ s) l → c ∉ join sep l.
Proof.
  intros Hs. induction 1 as [|x l Hx Hl IH]; [apply not_elem_of_nil|]. destruct l as [|y l]; [done|].
  rewrite join_cons // !not_elem_of_app. done.
Qed.
Lemma format_pattern_list_nl pattern : ch_nl ∉ format_pattern_list pattern.
Proof.
  apply join_absent; [apply (bool_decide_unpack _); exact I|]. apply Forall_fmap, Forall_true. intros item. cbn.
  unfold in_quotes. rewrite not_elem_of_cons not_elem_of_app. split_and!; [done|apply escape_string_nl|].
  apply (bool_decide_unpack _); exact I.
Qed.

(** The lines of a rule. *)
Definition pattern_line (pattern : list str) : str := lit "    pattern = " ++ bracketed (format_pattern_list pattern) ++ lit ",".
Definition decision_line : str := lit "    decision = " ++ in_quotes (lit "allow") ++ lit ",".
Definition rule_lines (pattern : list str) : list str := [lit "prefix_rule("; pattern_line pattern; decision_line; lit ")"].
Lemma format_prefix_rule_lines pattern : format_prefix_rule pattern = join [ch_nl] (rule_lines pattern) ++ [ch_nl].
Proof. unfold format_prefix_rule, pattern_line, decision_line. cbn [join rule_lines]. by rewrite -!app_assoc. Qed.
Lemma pattern_line_nl pattern : ch_nl ∉ pattern_line pattern.
Proof.
  unfold pattern_line, bracketed. rewrite !not_elem_of_app.
  split_and!; try (apply (bool_decide_unpack _); exact I). apply format_pattern_list_nl.
Qed.
Lemma rule_lines_ok pattern : Forall line_ok (rule_lines pattern).
Proof.
  repeat apply Forall_cons_2; [| | | |constructor]; try (split; [apply (bool_decide_unpack _); exact I|by vm_compute]).
  split; [apply pattern_line_nl|]. unfold pattern_line. by rewrite app_assoc last_app.
Qed.

(** The text of the file ends with the lines of the rule. *)
Lemma with_rule_lines existing pattern : ∃ before, lines (with_rule existing pattern) = before ++ rule_lines pattern.
Proof.
  unfold with_rule. set (base := if negb (is_empty existing) && _ then _ else _).
  set (updated := if negb (is_empty base) then _ else _). rewrite format_prefix_rule_lines app_assoc.
  assert (∀ s : str, ends_with [ch_nl] (s ++ [ch_nl]) = true) as He.
  { intros s. unfold ends_with. by rewrite (proj2 (strip_suffix_Some _ _ s)). }
  rewrite He. cbn [negb]. rewrite lines_terminated.
  assert (map strip_cr (rule_lines pattern) = rule_lines pattern) as Hcr.
  { rewrite -{2}(map_id (rule_lines pattern)). apply map_ext_in. intros l Hl%list_elem_of_In.
    apply strip_cr_id, (proj1 (Forall_forall _ _) (rule_lines_ok pattern) l Hl). }
  assert (split_on ch_nl (join [ch_nl] (rule_lines pattern)) = rule_lines pattern) as Hsplit.
  { apply split_join; [done|]. eapply Forall_impl; [apply rule_lines_ok|]. by intros l []. }
  assert (updated = [] ∨ ∃ b, updated = b ++ [ch_nl]) as [-> | [b ->]].
  { subst updated. destruct base; [by left|right; by eexists]. }
  - exists []. by rewrite Hsplit Hcr.
  - exists (map strip_cr (split_on ch_nl b)). by rewrite -app_assoc /= split_on_app_sep Hsplit map_app Hcr.
Qed.

Lemma trim_bare s : (∃ c r, s = c :: r ∧ is_whitespace c = false) → (∃ r c, s = r ++ [c] ∧ is_whitespace c = false) → trim s = s.
Proof.
  intros (c & r & -> & Hc) (r' & c' & Heq & Hc'). apply trim_id; [by intros ? ? [= <- _]|].
  intros r2 c2 H2. rewrite H2 in Heq. by apply app_inj_tail in Heq as [_ ->].
Qed.
Lemma scan_pattern_line pattern st : in_rule st = true →
  scan_rule_line (normalize_rule_value (bracketed (format_pattern_list pattern))) st (pattern_line pattern)
  = (MkRuleScan true true (decision_allows st), false).
Proof.
  intros Hin. set (value := bracketed (format_pattern_list pattern)).
  assert (∀ s, trim (lit "    " ++ s) = trim s) as Hpad by done.
  assert (trim (pattern_line pattern) = lit "pattern = " ++ value ++ lit ",") as Ht.
  { unfold pattern_line. fold value. change (lit "    pattern = ") with (lit "    " ++ lit "pattern = "). rewrite -app_assoc Hpad.
    apply trim_bare; [by eexists _, _|]. exists (lit "pattern = " ++ value), 44%N. by rewrite -app_assoc. }
  unfold scan_rule_line. rewrite Ht Hin. cbn [negb].
  change (starts_with "prefix_rule(" (lit "pattern = " ++ ?x)) with false.
  change (starts_with "pattern" (lit "pattern = " ++ ?x)) with true. cbv iota.
  assert (candidate_of (lit "pattern = " ++ value ++ lit ",") = Some value) as ->.
  { unfold candidate_of. change (split_once 61 (lit "pattern = " ++ ?x)) with (Some (lit "pattern ", lit " " ++ x)).
    cbn [mbind option_bind]. change (trim (lit " " ++ ?x)) with (trim x). rewrite trim_bare.
    - unfold value, bracketed. by eexists _, _.
    - by exists value, 44%N.
    - f_equal. change (trim_end_matches (N.eqb 44) (value ++ lit ",") = value). unfold trim_end_matches.
      unfold lit. cbn [map String.list_ascii_of_string]. rewrite reverse_snoc. cbn. apply (trim_end_matches_id (N.eqb 44)).
      intros r c Hr. unfold value, bracketed in Hr. rewrite app_assoc in Hr. by apply app_inj_tail in Hr as [_ <-]. }
  by rewrite str_eqb_refl.
Qed.

Lemma scan_rule_lines pattern st :
  scan_rules (normalize_rule_value (bracketed (format_pattern_list pattern))) st (rule_lines pattern) = true.
Proof.
  cbn [scan_rules rule_lines]. change (scan_rule_line ?t st (lit "prefix_rule(")) with (MkRuleScan true false false, false).
  cbv iota beta. by rewrite scan_pattern_line.
Qed.
Lemma scan_rules_app t ls1 ls2 : (∀ st, scan_rules t st ls2 = true) → ∀ st, scan_rules t st (ls1 ++ ls2) = true.
Proof.
  intros H2. induction ls1 as [|l ls1 IH]; intros st; [by apply H2|]. cbn. destruct (scan_rule_line t st l) as [st' []]; [done|]. apply IH.
Qed.

(** A rule that is written is found again, in front of it the file is as it was. *)
Theorem written_rules_are_found existing pattern :
  rule_already_present (with_rule existing pattern) pattern = true ∧ existing `prefix_of` with_rule existing pattern.
Proof.
  split.
  - unfold rule_already_present. destruct (with_rule_lines existing pattern) as [before ->]. apply scan_rules_app. apply scan_rule_lines.
  - unfold with_rule. repeat case_match; rewrite -?app_assoc; by eexists.
Qed.

(** Spaces in arguments do not count: a rule for [echo "ab"] is taken for present
    when there is one for [echo "a b"]. *)
Theorem spaces_in_arguments_are_lost existing pattern other :
  normalize_rule_value (format_pattern_list pattern) = normalize_rule_value (format_pattern_list other) →
  rule_already_present (with_rule existing pattern) other = true.
Proof.
  intros Heq. unfold rule_already_present. destruct (with_rule_lines existing pattern) as [before ->]. apply scan_rules_app.
  assert (∀ s, normalize_rule_value (bracketed s) = bracketed (normalize_rule_value s)) as Hb.
  { intros s. unfold bracketed, normalize_rule_value. by rewrite !List.filter_app. }
  rewrite Hb -Heq -Hb. apply scan_rule_lines.
Qed.

Section rules.
Context `{LockFiles}.

(** Adding a rule a second time changes nothing. *)
Theorem rules_are_added_once w w' path pattern :
  (∀ text, write_file path text w = (w', Ok tt) → read_to_string w' path = Ok text) →
  add_rule path pattern w = (w', Ok tt) → add_rule path pattern w' = (w', Ok tt).
Proof.
  unfold add_rule at 1. intros Hread. set (existing := match read_to_string w path with Ok text => text | Err _ => [] end).
  destruct (rule_already_present existing pattern) eqn:Hp.
  - intros [= <-]. unfold add_rule. fold existing. by rewrite Hp.
  - intros Hw. unfold add_rule. rewrite (Hread _ Hw). by destruct (written_rules_are_found existing pattern) as [-> _].
Qed.

(** A rules file that cannot be read, such as one that is not UTF-8, is written
    anew: its rules are lost. *)
Theorem unreadable_rules_are_replaced w path pattern err :
  read_to_string w path = Err err → add_rule path pattern w = write_file path (format_prefix_rule pattern) w.
Proof.
  intros Hr. unfold add_rule. rewrite Hr. unfold with_rule. cbn [is_empty negb andb app].
  assert (ends_with [ch_nl] (format_prefix_rule pattern) = true) as ->; [|done].
  unfold ends_with. rewrite format_prefix_rule_lines. by rewrite (proj2 (strip_suffix_Some _ _ (join [ch_nl] (rule_lines pattern)))).
Qed.

(** ** The lock *)

(** Time does not run backwards, sleeping takes its time, and a stale lock that is
    removed is not found stale right after. *)
Record clock_ok (lock_path : str) : Prop := {
  create_time w : (now_ms w <= now_ms (create_new lock_path w).1)%N;
  remove_time w : (now_ms w <= now_ms (remove_file lock_path w).1)%N;
  sleep_time n w : (now_ms w + n <= now_ms (sleep n w))%N;
  removed_is_fresh w : is_lock_stale (create_new lock_path (remove_file lock_path w).1).1 lock_path 30000 = false
}.

(** How often the loop may still go round: twice for every nap that is left. *)
Definition rounds_left (deadline : N) (w : World) (stale : bool) : nat :=
  2 * N.to_nat ((deadline - now_ms w + 49) / 50) + (if stale then 1 else 0) + 1.
Lemma acquire_loop_ends lock_path deadline fuel w : clock_ok lock_path →
  rounds_left deadline w (is_lock_stale (create_new lock_path w).1 lock_path 30000) < fuel →
  is_Some (acquire_loop fuel lock_path deadline w).
Proof.
  intros Hok. revert w. induction fuel as [|fuel IH]; intros w Hf; [lia|]. cbn.
  pose proof (create_time lock_path Hok w) as Hct. destruct (create_new lock_path w) as [w1 []] eqn:Hc; [by eexists| |by eexists].
  cbn [fst] in *. destruct (is_lock_stale w1 lock_path 30000) eqn:Hs.
  - apply IH. rewrite (removed_is_fresh lock_path Hok). pose proof (remove_time lock_path Hok w1) as Hrt.
    assert ((deadline - now_ms (remove_file lock_path w1).1 + 49) / 50 <= (deadline - now_ms w + 49) / 50)%N as Hle
      by (apply N.Div0.div_le_mono; lia).
    unfold rounds_left in *. lia.
  - destruct (N.leb_spec deadline (now_ms w1)); [by eexists|]. apply IH. pose proof (sleep_time lock_path Hok 50 w1) as Hst.
    assert ((deadline - now_ms (sleep 50 w1) + 49) / 50 + 1 <= (deadline - now_ms w + 49) / 50)%N as Hle.
    { destruct (N.le_gt_cases deadline (now_ms (sleep 50 w1))).
      - replace (deadline - now_ms (sleep 50 w1))%N with 0%N by lia. change ((0 + 49) `div` 50)%N with 0%N. apply N.div_le_lower_bound; lia.
      - rewrite -N.div_add //. apply N.Div0.div_le_mono. lia. }
    unfold rounds_left in *. revert Hf Hle.
    generalize ((deadline - now_ms (sleep 50 w1) + 49) `div` 50)%N ((deadline - now_ms w + 49) `div` 50)%N. intros a b.
    clear. intros Hf Hle. destruct (is_lock_stale _ _ _); lia.
Qed.

(** The lock is got, or given up after two seconds: 83 rounds of the loop are
    enough. *)
Theorem lock_is_got_or_given_up path w fuel : clock_ok (with_extension path "lock") → 83 <= fuel →
  is_Some (acquire_rules_lock fuel path w).
Proof.
  intros Hok Hf. apply acquire_loop_ends; [done|]. unfold rounds_left.
  assert ((now_ms w + 2000 - now_ms w + 49) / 50 = 40)%N as -> by (replace (now_ms w + 2000 - now_ms w)%N with 2000%N by lia; done).
  destruct (is_lock_stale _ _ _); lia.
Qed.

(** A stale lock that cannot be removed is tried for ever: the deadline is looked at
    only while the lock is fresh. *)
Theorem stale_lock_is_tried_for_ever path w fuel : let lock_path := with_extension path "lock" in
  create_new lock_path w = (w, AlreadyExists) → is_lock_stale w lock_path 30000 = true → (remove_file lock_path w).1 = w →
  acquire_rules_lock fuel path w = None.
Proof.
  intros lock_path Hc Hs Hr. unfold acquire_rules_lock. fold lock_path. induction fuel as [|fuel IH]; [done|].
  cbn. by rewrite Hc Hs Hr.
Qed.
End rules.

(** ** A machine *)

(** Files by their paths, and a clock; [/work/app/AGENTS.md] is a link to a file
    that does not exist. *)
Definition file_host : Host := {|
  target_os := OtherOS; World := gmap str str * N;
  is_dir := λ _ p, p =s? "/work/app"; is_file := λ w p, is_some_b (w.1 !! p);
  path_exists := λ w p, is_some_b (w.1 !! p) || (p =s? "/work/app");
  read_dir_is_empty := λ _ _, Ok true; read_to_string := λ w p, ok_or (lit "not found") (w.1 !! p);
  create_dir_all := λ _ w, (w, Ok tt); remove_dir_all := λ _ w, (w, Ok tt);
  copy_file := λ _ _ w, (w, Ok tt); rename_file := λ _ _ w, (w, Ok tt);
  remove_file := λ p w, ((delete p w.1, w.2), Ok tt);
  write_file := λ p c w, ((<[p := c]> w.1, w.2), Ok tt);
  git := λ _ _ w, (w, Ok (MkGitOutput (Some 0%Z) [] [])); new_uuid := λ w, (w, lit "0b5f");
  unix_seconds := λ _, 0%N; env_var := λ _ _, None; passwd_dir := λ _, None
|}.
Definition file_links : FileLinks (H := file_host) :=
  @Build_FileLinks file_host (λ _ p, Ok p) (λ _ p, Ok (p =s? "/work/app/AGENTS.md"))
    (λ (w : gmap str str * N) p, match w.1 !! p with Some text => Contents text | None => OpenFailed (lit "not found") end).
(** A machine where nobody else takes the lock. *)
Definition lock_files : LockFiles (H := file_host) :=
  @Build_LockFiles file_host
    (λ p (w : gmap str str * N), if is_some_b (w.1 !! p) then (w, AlreadyExists) else ((<[p := []]> w.1, w.2), Created))
    (λ (w : gmap str str * N) p, if is_some_b (w.1 !! p) then Some 0%N else None)
    (λ w : gmap str str * N, w.2) (λ n (w : gmap str str * N), (w.1, (w.2 + n)%N)).
(** One where a stale lock is there and cannot be removed. *)
Definition stuck_host : Host := {|
  target_os := OtherOS; World := unit;
  is_dir := λ _ _, true; is_file := λ _ _, true; path_exists := λ _ _, true;
  read_dir_is_empty := λ _ _, Ok true; read_to_string := λ _ _, Err (lit "stream did not contain valid UTF-8");
  create_dir_all := λ _ w, (w, Ok tt); remove_dir_all := λ _ w, (w, Ok tt);
  copy_file := λ _ _ w, (w, Ok tt); rename_file := λ _ _ w, (w, Ok tt); remove_file := λ _ w, (w, Err (lit "permission denied"));
  write_file := λ _ _ w, (w, Ok tt); git := λ _ _ w, (w, Ok (MkGitOutput (Some 0%Z) [] [])); new_uuid := λ w, (w, lit "0b5f");
  unix_seconds := λ _, 0%N; env_var := λ _ _, None; passwd_dir := λ _, None
|}.
Definition stuck_lock : LockFiles (H := stuck_host) := {|
  create_new := λ _ w, (w, AlreadyExists); file_age := λ _ _, Some 60000%N; now_ms := λ _, 0%N; sleep := λ _ w, w
|}.

Definition demo_workspace : WorkspaceEntry := MkWorkspaceEntry "w1" "app" "/work/app" Main None None WorkspaceSettings_default.
Definition demo_pattern : list str := [lit "git"; lit "log -1"].

Lemma writes_stay_below_the_root_witness :
  let w := (∅, 0%N) in
  let run := @file_write_core file_host file_links {["w1" : str := demo_workspace]} WorkspaceScope AgentsKind (Some (lit "w1")) (lit "text") w in
  run.1 = w ∧ is_ok run.2 = false ∨
  ∃ root w0 file may_leave, @directory_of file_host {["w1" : str := demo_workspace]} WorkspaceScope (Some (lit "w1")) w = Some root ∧
    file_named WorkspaceScope AgentsKind = Some (file, may_leave) ∧
    (w0 = w ∨ WorkspaceScope = GlobalScope ∧ w0 = (@create_dir_all file_host root w).1) ∧
    (run.1 = w0 ∧ is_ok run.2 = false ∨ @wrote_below file_host file_links w0 run.1 run.2 root file (lit "text") may_leave).
Proof.
  intros w run. apply (@writes_stay_below_the_root file_host file_links w run.1 run.2 {["w1" : str := demo_workspace]} WorkspaceScope AgentsKind
    (Some (lit "w1")) (lit "text")). reflexivity.
Defined.
Lemma dangling_links_are_written_through_witness :
  @write_text_file_within file_host file_links "/work/app" "AGENTS.md" (lit "text") false "workspace root" "AGENTS.md" false (∅, 0%N)
  = @W_map_err file_host unit (failed "write" "AGENTS.md") (@write_file file_host "/work/app/AGENTS.md" (lit "text")) (∅, 0%N).
Proof. apply (@dangling_links_are_written_through file_host file_links (∅, 0%N) "/work/app" "/work/app"); vm_compute; reflexivity. Defined.

Lemma spaces_in_arguments_are_lost_witness :
  rule_already_present (with_rule [] [lit "echo"; lit "a b"]) [lit "echo"; lit "ab"] = true.
Proof. apply (spaces_in_arguments_are_lost [] [lit "echo"; lit "a b"] [lit "echo"; lit "ab"]). vm_compute. reflexivity. Defined.
Lemma rules_are_added_once_witness :
  let w := (@add_rule file_host "/h/rules/default.rules" demo_pattern (∅, 0%N)).1 in
  @add_rule file_host "/h/rules/default.rules" demo_pattern w = (w, Ok tt).
Proof.
  intros w. apply (@rules_are_added_once file_host (∅, 0%N) w "/h/rules/default.rules" demo_pattern).
  - clearbody w. intros text [= <-]. cbn. by rewrite lookup_insert_eq.
  - vm_compute. reflexivity.
Defined.
Lemma unreadable_rules_are_replaced_witness :
  @add_rule stuck_host "/h/rules/default.rules" demo_pattern tt
  = @write_file stuck_host "/h/rules/default.rules" (format_prefix_rule demo_pattern) tt.
Proof. apply (@unreadable_rules_are_replaced stuck_host tt "/h/rules/default.rules" demo_pattern _ eq_refl). Defined.
Lemma demo_clock lock_path : @clock_ok file_host lock_files lock_path.
Proof.
  constructor; cbn.
  - intros w. by destruct (is_some_b _).
  - done.
  - done.
  - intros w. unfold is_lock_stale. cbn. rewrite lookup_delete_eq. cbn. by rewrite lookup_insert_eq.
Qed.
Lemma lock_is_got_or_given_up_witness :
  is_Some (@acquire_rules_lock file_host lock_files 100 "/h/rules/default.rules" ({["/h/rules/default.lock" : str := []]}, 0%N)).
Proof.
  apply (@lock_is_got_or_given_up file_host lock_files "/h/rules/default.rules" ({["/h/rules/default.lock" : str := []]}, 0%N) 100);
    [apply demo_clock|lia].
Defined.
Lemma stale_lock_is_tried_for_ever_witness : @acquire_rules_lock stuck_host stuck_lock 1000 "/h/rules/default.rules" tt = None.
Proof. by apply (@stale_lock_is_tried_for_ever stuck_host stuck_lock). Defined.
Example demo_rules :
  (λ r, r.2) <$> @append_prefix_rule file_host lock_files 5 "/h/rules/default.rules" demo_pattern (∅, 0%N) = Some (Ok tt).
Proof. vm_compute. reflexivity. Qed.
