(* ===== verification/TextArea.v ===== *)
(** The editable text of the composer of the terminal interface
    ([codex-rs/tui/src/bottom_pane/textarea.rs], with [wrap_ranges] of
    [codex-rs/tui/src/wrapping.rs]): a text, a cursor, elements that are edited as a
    whole, a kill buffer and a cache of wrapped lines. Positions are byte offsets;
    an operation that would panic (a slice off a character boundary, a range that
    runs backwards) has no result. What [unicode-segmentation], [unicode-width] and
    [textwrap] do is a parameter (class [Segmentation]); drawing is not modelled. *)
From S2P Require Import Prelude.
From Stdlib Require Import Lia.

(** ** Slices *)

(** [str::split_at_checked] *)
Fixpoint split_at (pos : nat) (s : str) : option (str * str) :=
  match pos, s with
  | O, _ => Some ([], s)
  | _, [] => None
  | _, c :: r => if Nat.leb (utf8_width c) pos then '(a, b) ← split_at (pos - utf8_width c) r; Some (c :: a, b) else None
  end.
Definition is_char_boundary (s : str) (pos : nat) : bool := is_some_b (split_at pos s).
(** [&s[..pos]], [&s[pos..]] and [&s[start..end]] *)
Definition slice_to (s : str) (pos : nat) : option str := fst <$> split_at pos s.
Definition slice_from (s : str) (pos : nat) : option str := snd <$> split_at pos s.
Definition slice (s : str) (start end_ : nat) : option str := pre ← slice_to s end_; slice_from pre start.
(** [String::insert_str] and [String::replace_range] *)
Definition insert_at (s : str) (pos : nat) (t : str) : option str := '(a, b) ← split_at pos s; Some (a ++ t ++ b).
Definition replace_at (s : str) (start end_ : nat) (t : str) : option str :=
  '(pre, b) ← split_at end_ s; a ← slice_to pre start; Some (a ++ t ++ b).

(** The first and the last character of a kind, with their offsets. *)
Fixpoint find_char (f : char → bool) (s : str) : option (nat * char) :=
  match s with
  | [] => None
  | c :: r => if f c then Some (0, c) else '(i, d) ← find_char f r; Some (utf8_width c + i, d)
  end.
Fixpoint rfind_char (f : char → bool) (s : str) : option (nat * char) :=
  match s with
  | [] => None
  | c :: r => match rfind_char f r with
              | Some (i, d) => Some (utf8_width c + i, d)
              | None => if f c then Some (0, c) else None
              end
  end.

(** ** Other crates *)

(** A line that [textwrap] gives: a slice of the text, or a text of its own. *)
Inductive WrappedLine := Borrowed (start : nat) (slice : str) | Owned (line : str).
Class Segmentation := {
  (** [GraphemeCursor::prev_boundary] and [next_boundary] over a whole text. *)
  prev_boundary : str → nat → option nat;
  next_boundary : str → nat → option nat;
  width : str → nat;
  grapheme_indices : str → list (nat * str);
  split_word_bound_indices : str → list (nat * str);
  textwrap : nat → str → list WrappedLine
}.

(** ** Words *)

Definition WORD_SEPARATORS : str := lit "`~!@#$%^&*()-=+[{]}\|;:'" ++ [34%N] ++ lit ",.<>/?".
Definition is_word_separator (ch : char) : bool := contains_char ch WORD_SEPARATORS.
Definition all_separators (piece : str) : bool := forallb is_word_separator piece.

(** The pieces of a segment: runs of separators and of other characters. [piece] is
    the run so far, which starts at [piece_start]. *)
Fixpoint segment_pieces (offset piece_start : nat) (in_separator : bool) (piece rest : str) : list (nat * str) :=
  match rest with
  | [] => [(offset + piece_start, piece)]
  | ch :: rest =>
      if Bool.eqb (is_word_separator ch) in_separator then segment_pieces offset piece_start in_separator (piece ++ [ch]) rest
      else (offset + piece_start, piece)
           :: segment_pieces offset (piece_start + str_len piece) (is_word_separator ch) [ch] rest
  end.
Definition split_word_pieces `{Segmentation} (run : str) : list (nat * str) :=
  '(segment_start, segment) ← split_word_bound_indices run;
  match segment with
  | [] => []
  | first_char :: rest => segment_pieces segment_start 0 (is_word_separator first_char) [first_char] rest
  end.

(** ** Wrapped lines *)

Abbreviation Range := (nat * nat)%type.
Definition trailing_spaces (text : str) (end_ : nat) : option nat :=
  rest ← slice_from text end_; Some (length rest - length (drop_while (N.eqb ch_sp) rest)).

(** Spaces of the text that the line does not begin with. *)
Fixpoint skip_spaces (rest : str) : nat :=
  match rest with c :: r => if (c =? ch_sp)%N then S (skip_spaces r) else 0 | [] => 0 end.
(** How far the text agrees with the line: its length, while there is a character
    of the text for each, and characters the line has on its own. *)
Fixpoint match_source (line rest : str) (saw_source_char : bool) : nat :=
  match line with
  | [] => 0
  | ch :: line' =>
      let own := match line', (ch =? ch_minus)%N with [], true => true | _, _ => negb saw_source_char end in
      match rest with
      | src :: rest' =>
          if (ch =? src)%N then utf8_width src + match_source line' rest' true
          else if own then match_source line' rest saw_source_char else 0
      | [] => if own then match_source line' [] saw_source_char else 0
      end
  end.
Definition map_owned_wrapped_line_to_range (text : str) (cursor : nat) (wrapped : str) : option Range :=
  rest ← (if Nat.ltb cursor (str_len text) then slice_from text cursor else Some []);
  let skipped := if starts_with " " wrapped then 0 else skip_spaces rest in
  let start := cursor + skipped in
  Some (start, start + match_source wrapped (drop skipped rest) false).

Fixpoint wrap_lines (text : str) (cursor : nat) (ls : list WrappedLine) : option (list Range) :=
  match ls with
  | [] => Some []
  | Borrowed start slice :: rest =>
      let end_ := start + str_len slice in
      spaces ← trailing_spaces text end_;
      others ← wrap_lines text (end_ + spaces) rest;
      Some ((start, end_ + spaces + 1) :: others)
  | Owned slice :: rest =>
      mapped ← map_owned_wrapped_line_to_range text cursor slice;
      spaces ← trailing_spaces text mapped.2;
      others ← wrap_lines text (mapped.2 + spaces) rest;
      Some ((mapped.1, mapped.2 + spaces + 1) :: others)
  end.
(** Without indents, as the text area calls it. *)
Definition wrap_ranges `{Segmentation} (text : str) (width : nat) : option (list Range) := wrap_lines text 0 (textwrap width text).

(** ** The state *)

Record TextElement := MkElement { el_id : N; el_start : nat; el_end : nat; el_name : option str }.
Record WrapCache := MkWrapCache { cache_width : nat; cache_lines : list Range }.
Record TextArea := MkTextArea {
  text : str;
  cursor_pos : nat;
  wrap_cache : option WrapCache;
  preferred_col : option nat;
  text_elements : list TextElement;
  next_element_id : N;
  kill_buffer : str
}.
Definition TextArea_new : TextArea := MkTextArea [] 0 None None [] 1 [].

Definition set_cursor_pos (pos : nat) (t : TextArea) : TextArea :=
  MkTextArea (text t) pos (wrap_cache t) (preferred_col t) (text_elements t) (next_element_id t) (kill_buffer t).
Definition set_preferred_col (col : option nat) (t : TextArea) : TextArea :=
  MkTextArea (text t) (cursor_pos t) (wrap_cache t) col (text_elements t) (next_element_id t) (kill_buffer t).
Definition set_elements (es : list TextElement) (t : TextArea) : TextArea :=
  MkTextArea (text t) (cursor_pos t) (wrap_cache t) (preferred_col t) es (next_element_id t) (kill_buffer t).
Definition set_kill_buffer (k : str) (t : TextArea) : TextArea :=
  MkTextArea (text t) (cursor_pos t) (wrap_cache t) (preferred_col t) (text_elements t) (next_element_id t) k.
Definition set_wrap_cache (c : option WrapCache) (t : TextArea) : TextArea :=
  MkTextArea (text t) (cursor_pos t) c (preferred_col t) (text_elements t) (next_element_id t) (kill_buffer t).
(** A text that was changed: what was cached for the old one goes. *)
Definition set_text (s : str) (t : TextArea) : TextArea :=
  MkTextArea s (cursor_pos t) None None (text_elements t) (next_element_id t) (kill_buffer t).
Definition text_len (t : TextArea) : nat := str_len (text t).

(** ** Boundaries *)

(** [while pos > 0 && !is_char_boundary(pos) { pos -= 1 }], and the other way. *)
Fixpoint boundary_before (s : str) (pos : nat) : nat :=
  match pos with O => 0 | S p => if is_char_boundary s (S p) then S p else boundary_before s p end.
Fixpoint boundary_after (s : str) (fuel pos : nat) : nat :=
  match fuel with O => pos | S fuel => if is_char_boundary s pos then pos else boundary_after s fuel (S pos) end.
Definition clamp_pos_to_char_boundary (t : TextArea) (pos : nat) : nat :=
  let pos := Nat.min pos (text_len t) in
  if is_char_boundary (text t) pos then pos
  else
    let prev := boundary_before (text t) pos in
    let next := boundary_after (text t) (text_len t - pos) pos in
    if Nat.leb (pos - prev) (next - pos) then prev else next.

Definition find_element (f : TextElement → bool) (t : TextArea) : option TextElement := List.find f (text_elements t).
Definition contains_pos (pos : nat) (e : TextElement) : bool := Nat.ltb (el_start e) pos && Nat.ltb pos (el_end e).
Definition find_element_containing (t : TextArea) (pos : nat) : option TextElement := find_element (contains_pos pos) t.
Definition clamp_pos_to_nearest_boundary (t : TextArea) (pos : nat) : nat :=
  let pos := clamp_pos_to_char_boundary t pos in
  match find_element_containing t pos with
  | Some e =>
      if Nat.leb (pos - el_start e) (el_end e - pos) then clamp_pos_to_char_boundary t (el_start e)
      else clamp_pos_to_char_boundary t (el_end e)
  | None => pos
  end.
(** The two functions are the same. *)
Definition clamp_pos_for_insertion (t : TextArea) (pos : nat) : nat := clamp_pos_to_nearest_boundary t pos.
Definition adjust_pos_out_of_elements (t : TextArea) (pos : nat) (prefer_start : bool) : nat :=
  match find_element_containing t pos with
  | Some e => if prefer_start then el_start e else el_end e
  | None => pos
  end.
Definition clamp_cursor (t : TextArea) : TextArea := set_cursor_pos (clamp_pos_to_nearest_boundary t (cursor_pos t)) t.

(** One pass over the elements, and passes until nothing changes; each pass that
    changes something takes in another element. *)
Definition intersects (range : Range) (e : TextElement) : bool := Nat.ltb (el_start e) range.2 && Nat.ltb range.1 (el_end e).
Definition expand_over (range : Range) (e : TextElement) : Range :=
  if intersects range e then (Nat.min range.1 (el_start e), Nat.max range.2 (el_end e)) else range.
Fixpoint expand_loop (fuel : nat) (es : list TextElement) (range : Range) : Range :=
  match fuel with
  | O => range
  | S fuel =>
      let next := foldl expand_over range es in
      if bool_decide (next = range) then range else expand_loop fuel es next
  end.
Definition expand_range_to_element_boundaries (t : TextArea) (range : Range) : Range :=
  expand_loop (S (length (text_elements t))) (text_elements t) range.

(** ** Elements that follow an edit *)

Definition shift_element (at_ removed inserted : nat) (e : TextElement) : TextElement :=
  let end_ := at_ + removed in
  if Nat.leb (el_end e) at_ then e
  else if Nat.leb end_ (el_start e)
  then MkElement (el_id e) (el_start e + inserted - removed) (el_end e + inserted - removed) (el_name e)
  else MkElement (el_id e) (Nat.min at_ (el_start e)) (at_ + Nat.max inserted (el_end e - end_)) (el_name e).
Definition shift_elements (at_ removed inserted : nat) (t : TextArea) : TextArea :=
  let kept := List.filter (λ e, negb (Nat.leb at_ (el_start e) && Nat.leb (el_end e) (at_ + removed))) (text_elements t) in
  set_elements (shift_element at_ removed inserted <$> kept) t.
Definition sort_elements (t : TextArea) : TextArea :=
  set_elements (sort_by (λ a b, Nat.leb (el_start a) (el_start b)) (text_elements t)) t.
Definition take_element_id (t : TextArea) : N * TextArea :=
  (next_element_id t,
   MkTextArea (text t) (cursor_pos t) (wrap_cache t) (preferred_col t) (text_elements t)
     (N.min (next_element_id t + 1) 18446744073709551615) (kill_buffer t)).
Definition add_element_with_id (range : Range) (name : option str) (t : TextArea) : N * TextArea :=
  let '(id, t) := take_element_id t in
  (id, sort_elements (set_elements (text_elements t ++ [MkElement id range.1 range.2 name]) t)).

(** ** Edits *)

Definition insert_str_at (pos : nat) (s : str) (t : TextArea) : option TextArea :=
  let pos := clamp_pos_for_insertion t pos in
  changed ← insert_at (text t) pos s;
  let t := set_text changed t in
  let t := if Nat.leb pos (cursor_pos t) then set_cursor_pos (cursor_pos t + str_len s) t else t in
  Some (shift_elements pos 0 (str_len s) t).
Definition insert_str (s : str) (t : TextArea) : option TextArea := insert_str_at (cursor_pos t) s t.

(** The cursor after an edit. *)
Definition edited_cursor (start end_ inserted_len pos : nat) : nat :=
  if Nat.ltb pos start then pos
  else if Nat.leb pos end_ then start + inserted_len
  else pos + inserted_len - (end_ - start).
Definition replace_range_raw (range : Range) (s : str) (t : TextArea) : option TextArea :=
  if Nat.ltb range.2 range.1 then None
  else
    let start := Nat.min range.1 (text_len t) in
    let end_ := Nat.min range.2 (text_len t) in
    if Nat.eqb (end_ - start) 0 && Nat.eqb (str_len s) 0 then Some t
    else
      changed ← replace_at (text t) range.1 range.2 s;
      let t := shift_elements start (end_ - start) (str_len s) (set_text changed t) in
      let t := set_cursor_pos (Nat.min (edited_cursor start end_ (str_len s) (cursor_pos t)) (text_len t)) t in
      Some (clamp_cursor t).
Definition replace_range (range : Range) (s : str) (t : TextArea) : option TextArea :=
  replace_range_raw (expand_range_to_element_boundaries t range) s t.

Definition set_cursor (pos : nat) (t : TextArea) : TextArea :=
  set_preferred_col None (clamp_cursor (set_cursor_pos (Nat.min pos (text_len t)) t)).

(** The elements a caller gives with a text: ranges of it. *)
Definition place_element (t : TextArea) (range : Range) : TextArea :=
  let start := clamp_pos_to_char_boundary t (Nat.min range.1 (text_len t)) in
  let end_ := clamp_pos_to_char_boundary t (Nat.min range.2 (text_len t)) in
  if Nat.leb end_ start then t
  else let '(id, t) := take_element_id t in set_elements (text_elements t ++ [MkElement id start end_ None]) t.
Definition set_text_inner (s : str) (ranges : option (list Range)) (t : TextArea) : TextArea :=
  let t := set_elements [] (set_cursor_pos (Nat.min (cursor_pos t) (str_len s)) (set_text s t)) in
  let t := match ranges with Some ranges => sort_elements (foldl place_element t ranges) | None => t end in
  clamp_cursor t.
Definition set_text_clearing_elements (s : str) (t : TextArea) : TextArea := set_text_inner s None t.
Definition set_text_with_elements (s : str) (ranges : list Range) (t : TextArea) : TextArea := set_text_inner s (Some ranges) t.

(** ** Lines *)

Definition is_nl (c : char) : bool := (c =? ch_nl)%N.
Definition beginning_of_line (t : TextArea) (pos : nat) : option nat :=
  before ← slice_to (text t) pos; Some (match rfind_char is_nl before with Some (i, _) => i + 1 | None => 0 end).
Definition beginning_of_current_line (t : TextArea) : option nat := beginning_of_line t (cursor_pos t).
Definition end_of_line (t : TextArea) (pos : nat) : option nat :=
  after ← slice_from (text t) pos; Some (match find_char is_nl after with Some (i, _) => i + pos | None => text_len t end).
Definition end_of_current_line (t : TextArea) : option nat := end_of_line t (cursor_pos t).

Definition kill_range (range : Range) (t : TextArea) : option TextArea :=
  let range := expand_range_to_element_boundaries t range in
  if Nat.leb range.2 range.1 then Some t
  else
    removed ← slice (text t) range.1 range.2;
    if is_empty removed then Some t else replace_range_raw range [] (set_kill_buffer removed t).
Definition kill_to_end_of_line (t : TextArea) : option TextArea :=
  eol ← end_of_current_line t;
  if Nat.eqb (cursor_pos t) eol
  then if Nat.ltb eol (text_len t) then kill_range (cursor_pos t, eol + 1) t else Some t
  else kill_range (cursor_pos t, eol) t.
Definition kill_to_beginning_of_line (t : TextArea) : option TextArea :=
  bol ← beginning_of_current_line t;
  if Nat.eqb (cursor_pos t) bol
  then if Nat.ltb 0 bol then kill_range (bol - 1, bol) t else Some t
  else kill_range (bol, cursor_pos t) t.
Definition yank (t : TextArea) : option TextArea :=
  if is_empty (kill_buffer t) then Some t else insert_str (kill_buffer t) t.

Definition move_cursor_to_beginning_of_line (move_up_at_bol : bool) (t : TextArea) : option TextArea :=
  bol ← beginning_of_current_line t;
  pos ← (if move_up_at_bol && Nat.eqb (cursor_pos t) bol then beginning_of_line t (cursor_pos t - 1) else Some bol);
  Some (set_preferred_col None (set_cursor pos t)).
Definition move_cursor_to_end_of_line (move_down_at_eol : bool) (t : TextArea) : option TextArea :=
  eol ← end_of_current_line t;
  pos ← (if move_down_at_eol && Nat.eqb (cursor_pos t) eol then end_of_line t (Nat.min (cursor_pos t + 1) (text_len t)) else Some eol);
  Some (set_cursor pos t).

Section segmentation.
Context `{Segmentation}.

(** ** Atomic steps *)

Definition prev_atomic_boundary (t : TextArea) (pos : nat) : nat :=
  if Nat.eqb pos 0 then 0
  else
    match find_element (λ e, Nat.ltb (el_start e) pos && Nat.leb pos (el_end e)) t with
    | Some e => el_start e
    | None =>
        match prev_boundary (text t) pos with
        | Some b => match find_element_containing t b with Some e => el_start e | None => b end
        | None => 0
        end
    end.
Definition next_atomic_boundary (t : TextArea) (pos : nat) : nat :=
  if Nat.leb (text_len t) pos then text_len t
  else
    match find_element (λ e, Nat.leb (el_start e) pos && Nat.ltb pos (el_end e)) t with
    | Some e => el_end e
    | None =>
        match next_boundary (text t) pos with
        | Some b => match find_element_containing t b with Some e => el_end e | None => b end
        | None => text_len t
        end
    end.

Fixpoint steps_back (n : nat) (t : TextArea) (target : nat) : nat :=
  match n with
  | O => target
  | S n => let target := prev_atomic_boundary t target in if Nat.eqb target 0 then target else steps_back n t target
  end.
Fixpoint steps_forward (n : nat) (t : TextArea) (target : nat) : nat :=
  match n with
  | O => target
  | S n => let target := next_atomic_boundary t target in if Nat.leb (text_len t) target then target else steps_forward n t target
  end.
Definition delete_backward (n : nat) (t : TextArea) : option TextArea :=
  if Nat.eqb n 0 || Nat.eqb (cursor_pos t) 0 then Some t
  else replace_range (steps_back n t (cursor_pos t), cursor_pos t) [] t.
Definition delete_forward (n : nat) (t : TextArea) : option TextArea :=
  if Nat.eqb n 0 || Nat.leb (text_len t) (cursor_pos t) then Some t
  else replace_range (cursor_pos t, steps_forward n t (cursor_pos t)) [] t.

Definition move_cursor_left (t : TextArea) : TextArea :=
  set_preferred_col None (set_cursor_pos (prev_atomic_boundary t (cursor_pos t)) t).
Definition move_cursor_right (t : TextArea) : TextArea :=
  set_preferred_col None (set_cursor_pos (next_atomic_boundary t (cursor_pos t)) t).

(** ** Words *)

(** The start of the first of the pieces of separators, which are given from the
    last to the first; and the end of the last one. *)
Fixpoint separators_start (run_start start : nat) (pieces : list (nat * str)) : nat :=
  match pieces with
  | (idx, piece) :: rest => if all_separators piece then separators_start run_start (run_start + idx) rest else start
  | [] => start
  end.
Fixpoint separators_end (run_start end_ : nat) (pieces : list (nat * str)) : nat :=
  match pieces with
  | (idx, piece) :: rest => if all_separators piece then separators_end run_start (run_start + idx + str_len piece) rest else end_
  | [] => end_
  end.
Definition not_whitespace (ch : char) : bool := negb (is_whitespace ch).

Definition beginning_of_previous_word (t : TextArea) : option nat :=
  prefix ← slice_to (text t) (cursor_pos t);
  match rfind_char not_whitespace prefix with
  | None => Some 0
  | Some (first_non_ws_idx, ch) =>
      before ← slice_to prefix first_non_ws_idx;
      let run_start := match rfind_char is_whitespace before with Some (idx, ws) => idx + utf8_width ws | None => 0 end in
      run ← slice prefix run_start (first_non_ws_idx + utf8_width ch);
      match reverse (split_word_pieces run) with
      | [] => Some run_start
      | (piece_start, piece) :: pieces =>
          let start := run_start + piece_start in
          let start := if all_separators piece then separators_start run_start start pieces else start in
          Some (adjust_pos_out_of_elements t start true)
      end
  end.
Definition end_of_next_word (t : TextArea) : option nat :=
  suffix ← slice_from (text t) (cursor_pos t);
  match find_char not_whitespace suffix with
  | None => Some (text_len t)
  | Some (first_non_ws, _) =>
      run ← slice_from suffix first_non_ws;
      run ← slice_to run (match find_char is_whitespace run with Some (idx, _) => idx | None => str_len run end);
      match split_word_pieces run with
      | [] => Some (cursor_pos t + first_non_ws)
      | (start, piece) :: pieces =>
          let end_ := cursor_pos t + first_non_ws + start + str_len piece in
          let end_ := if all_separators piece then separators_end (cursor_pos t + first_non_ws) end_ pieces else end_ in
          Some (adjust_pos_out_of_elements t end_ false)
      end
  end.
Definition delete_backward_word (t : TextArea) : option TextArea :=
  start ← beginning_of_previous_word t; kill_range (start, cursor_pos t) t.
Definition delete_forward_word (t : TextArea) : option TextArea :=
  end_ ← end_of_next_word t;
  if Nat.ltb (cursor_pos t) end_ then kill_range (cursor_pos t, end_) t else Some t.
Definition move_to_previous_word (t : TextArea) : option TextArea := start ← beginning_of_previous_word t; Some (set_cursor start t).
Definition move_to_next_word (t : TextArea) : option TextArea := end_ ← end_of_next_word t; Some (set_cursor end_ t).

(** ** Up and down *)

(** The last line that does not begin after a position
    ([partition_point(|r| r.start <= pos)], for starts that grow). *)
Fixpoint partition_point (pos : nat) (ls : list Range) : nat :=
  match ls with (start, _) :: rest => if Nat.leb start pos then S (partition_point pos rest) else 0 | [] => 0 end.
Definition wrapped_line_index_by_start (ls : list Range) (pos : nat) : option nat :=
  match partition_point pos ls with O => None | S i => Some i end.

Fixpoint col_of_line (line_start line_end target_col width_so_far : nat) (graphemes : list (nat * str)) : nat :=
  match graphemes with
  | [] => line_end
  | (i, g) :: rest =>
      if Nat.ltb target_col (width_so_far + width g) then line_start + i
      else col_of_line line_start line_end target_col (width_so_far + width g) rest
  end.
Definition move_to_display_col_on_line (line_start line_end target_col : nat) (t : TextArea) : option TextArea :=
  line ← slice (text t) line_start line_end;
  Some (clamp_cursor (set_cursor_pos (col_of_line line_start line_end target_col 0 (grapheme_indices line)) t)).
Definition current_display_col (t : TextArea) : option nat :=
  bol ← beginning_of_current_line t; before ← slice (text t) bol (cursor_pos t); Some (width before).
Definition remember_col (col : nat) (t : TextArea) : TextArea :=
  match preferred_col t with Some _ => t | None => set_preferred_col (Some col) t end.
Definition move_to_start (t : TextArea) : TextArea := set_preferred_col None (set_cursor_pos 0 t).
Definition move_to_end (t : TextArea) : TextArea := set_preferred_col None (set_cursor_pos (text_len t) t).

(** With a cache of wrapped lines: the column that is aimed at, and the number of
    the line the cursor is on. *)
Definition visual_line (t : TextArea) (ls : list Range) : option (option (nat * nat)) :=
  match wrapped_line_index_by_start ls (cursor_pos t) with
  | None => Some None
  | Some idx =>
      line ← ls !! idx;
      target_col ← match preferred_col t with
                   | Some c => Some c
                   | None => before ← slice (text t) line.1 (cursor_pos t); Some (width before)
                   end;
      Some (Some (target_col, idx))
  end.
Definition move_to_visual_line (line : Range) (target_col : nat) (t : TextArea) : option TextArea :=
  move_to_display_col_on_line line.1 (line.2 - 1) target_col (remember_col target_col t).

Definition target_column (t : TextArea) : option nat :=
  match preferred_col t with Some c => Some c | None => current_display_col t end.
Definition move_up_logical (t : TextArea) : option TextArea :=
  before ← slice_to (text t) (cursor_pos t);
  match rfind_char is_nl before with
  | Some (prev_nl, _) =>
      target_col ← target_column t;
      line_start ← beginning_of_line t prev_nl;
      move_to_display_col_on_line line_start prev_nl target_col (remember_col target_col t)
  | None => Some (move_to_start t)
  end.
Definition move_down_logical (t : TextArea) : option TextArea :=
  target_col ← target_column t;
  let t := remember_col target_col t in
  after ← slice_from (text t) (cursor_pos t);
  match find_char is_nl after with
  | Some (i, _) =>
      let next_line_start := i + cursor_pos t + 1 in
      next_line_end ← end_of_line t next_line_start;
      move_to_display_col_on_line next_line_start next_line_end target_col t
  | None => Some (move_to_end t)
  end.
Definition move_cursor_up (t : TextArea) : option TextArea :=
  match wrap_cache t with
  | Some cache =>
      v ← visual_line t (cache_lines cache);
      match v with
      | Some (_, O) => Some (move_to_start t)
      | Some (target_col, S idx) => line ← cache_lines cache !! idx; move_to_visual_line line target_col t
      | None => move_up_logical t
      end
  | None => move_up_logical t
  end.
Definition move_cursor_down (t : TextArea) : option TextArea :=
  match wrap_cache t with
  | Some cache =>
      v ← visual_line t (cache_lines cache);
      match v with
      | Some (target_col, idx) =>
          match cache_lines cache !! S idx with
          | Some line => move_to_visual_line line target_col t
          | None => Some (move_to_end t)
          end
      | None => move_down_logical t
      end
  | None => move_down_logical t
  end.

(** The wrapped lines, from the cache when it is for the width. *)
Definition wrapped_lines (width : nat) (t : TextArea) : option (list Range * TextArea) :=
  match wrap_cache t with
  | Some cache =>
      if Nat.eqb (cache_width cache) width then Some (cache_lines cache, t)
      else ls ← wrap_ranges (text t) width; Some (ls, set_wrap_cache (Some (MkWrapCache width ls)) t)
  | None => ls ← wrap_ranges (text t) width; Some (ls, set_wrap_cache (Some (MkWrapCache width ls)) t)
  end.

Definition as_u16 (n : nat) : nat := Z.to_nat (Z.of_nat n mod 65536).
(** The first line that is shown: the cursor is to be on the screen. *)
Definition effective_scroll (t : TextArea) (area_height : nat) (ls : list Range) (current_scroll : nat) : nat :=
  let total_lines := as_u16 (length ls) in
  if Nat.leb total_lines area_height then 0
  else
    let cursor_line_idx := as_u16 (unwrap_or 0 (wrapped_line_index_by_start ls (cursor_pos t))) in
    let scroll := Nat.min current_scroll (total_lines - area_height) in
    if Nat.ltb cursor_line_idx scroll then cursor_line_idx
    else if Nat.leb (scroll + area_height) cursor_line_idx then cursor_line_idx + 1 - area_height
    else scroll.

Definition desired_height (area_width : nat) (t : TextArea) : option (nat * TextArea) :=
  '(ls, t) ← wrapped_lines area_width t; Some (as_u16 (length ls), t).
(** The column and the row of the cursor, in an area at [x] and [y]. *)
Definition cursor_pos_with_state (x y area_width area_height scroll : nat) (t : TextArea) : option (option (nat * nat)) :=
  '(ls, t) ← wrapped_lines area_width t;
  let first := effective_scroll t area_height ls scroll in
  match wrapped_line_index_by_start ls (cursor_pos t) with
  | None => Some None
  | Some i =>
      line ← ls !! i;
      before ← slice (text t) line.1 (cursor_pos t);
      let screen_row := if (Z.of_nat (i - first) <=? 65535)%Z then i - first else 0 in
      Some (Some (as_u16 (x + as_u16 (width before)), as_u16 (y + screen_row)))
  end.

(** ** Elements *)

Definition payload (t : TextArea) (e : TextElement) : option str := slice (text t) (el_start e) (el_end e).
Definition element_payloads (t : TextArea) : list str := omap (payload t) (text_elements t).
(** [text_elements], [text_element_snapshots], [element_id_for_exact_range] and
    [named_element_range] *)
Definition user_text_elements (t : TextArea) : list (Range * option str) :=
  (λ e, ((el_start e, el_end e), payload t e)) <$> text_elements t.
Definition text_element_snapshots (t : TextArea) : list (N * Range * str) :=
  omap (λ e, s ← payload t e; Some (el_id e, (el_start e, el_end e), s)) (text_elements t).
Definition element_id_for_exact_range (range : Range) (t : TextArea) : option N :=
  el_id <$> find_element (λ e, Nat.eqb (el_start e) range.1 && Nat.eqb (el_end e) range.2) t.
Definition insert_element_with (s : str) (name : option str) (t : TextArea) : option (N * TextArea) :=
  let start := clamp_pos_for_insertion t (cursor_pos t) in
  t ← insert_str_at start s t;
  let end_ := start + str_len s in
  let '(id, t) := add_element_with_id (start, end_) name t in
  Some (id, set_cursor end_ t).
Definition insert_element (s : str) (t : TextArea) : option (N * TextArea) := insert_element_with s None t.
Definition insert_named_element (s id : str) (t : TextArea) : option TextArea := snd <$> insert_element_with s (Some id) t.

Definition is_named (id : str) (e : TextElement) : bool := bool_decide (el_name e = Some id).
Definition named_element_range (id : str) (t : TextArea) : option Range :=
  (λ e, (el_start e, el_end e)) <$> find_element (is_named id) t.
Definition replace_element_by_id (id s : str) (t : TextArea) : option (bool * TextArea) :=
  match find_element (is_named id) t with
  | Some e =>
      t ← replace_range_raw (el_start e, el_end e) s t;
      Some (true, set_elements (List.filter (λ e, negb (is_named id e)) (text_elements t)) t)
  | None => Some (false, t)
  end.
Definition update_named_element_by_id (id s : str) (t : TextArea) : option (bool * TextArea) :=
  match find_element (is_named id) t with
  | Some e =>
      t ← replace_range_raw (el_start e, el_end e) s t;
      Some (true, (add_element_with_id (el_start e, el_start e + str_len s) (Some id) t).2)
  | None => Some (false, t)
  end.

Definition add_element_range (range : Range) (t : TextArea) : option N * TextArea :=
  let start := clamp_pos_to_char_boundary t (Nat.min range.1 (text_len t)) in
  let end_ := clamp_pos_to_char_boundary t (Nat.min range.2 (text_len t)) in
  if Nat.leb end_ start then (None, t)
  else if existsb (λ e, Nat.eqb (el_start e) start && Nat.eqb (el_end e) end_) (text_elements t) then (None, t)
  else if existsb (λ e, Nat.ltb start (el_end e) && Nat.ltb (el_start e) end_) (text_elements t) then (None, t)
  else let '(id, t) := add_element_with_id (start, end_) None t in (Some id, t).
Definition remove_element_range (range : Range) (t : TextArea) : bool * TextArea :=
  let start := clamp_pos_to_char_boundary t (Nat.min range.1 (text_len t)) in
  let end_ := clamp_pos_to_char_boundary t (Nat.min range.2 (text_len t)) in
  if Nat.leb end_ start then (false, t)
  else
    let kept := List.filter (λ e, negb (Nat.eqb (el_start e) start) || negb (Nat.eqb (el_end e) end_)) (text_elements t) in
    (negb (Nat.eqb (length (text_elements t)) (length kept)), set_elements kept t).

(** The other elements follow the one whose payload changes. *)
Definition follow_payload (start end_ inserted_len : nat) (e : TextElement) : TextElement :=
  let removed_len := end_ - start in
  if Nat.eqb inserted_len removed_len then e
  else if Nat.leb (el_end e) start then e
  else if Nat.leb end_ (el_start e)
  then MkElement (el_id e) (el_start e + inserted_len - removed_len) (el_end e + inserted_len - removed_len) (el_name e)
  else MkElement (el_id e) (Nat.min start (el_start e)) (Nat.max (start + inserted_len) (el_end e + inserted_len - removed_len)) (el_name e).
Fixpoint index_of {A} (f : A → bool) (l : list A) : option nat :=
  match l with [] => None | x :: r => if f x then Some 0 else S <$> index_of f r end.
Definition replace_element_payload (old new : str) (t : TextArea) : option (bool * TextArea) :=
  match index_of (λ e, bool_decide (payload t e = Some old)) (text_elements t) with
  | None => Some (false, t)
  | Some idx =>
      e ← text_elements t !! idx;
      let start := el_start e in
      let end_ := el_end e in
      if Nat.ltb end_ start || Nat.ltb (text_len t) end_ then Some (false, t)
      else
        changed ← replace_at (text t) start end_ new;
        let inserted_len := str_len new in
        let es := imap (λ j e', if Nat.eqb j idx then MkElement (el_id e) start (start + inserted_len) (el_name e)
                                else follow_payload start end_ inserted_len e') (text_elements t) in
        let t := set_elements es (set_text changed t) in
        let t := set_cursor_pos (edited_cursor start end_ inserted_len (cursor_pos t)) t in
        Some (true, sort_elements (clamp_cursor t))
  end.

(** ** Keys *)

Inductive KeyCode :=
  KeyChar (c : char) | KeyEnter | KeyBackspace | KeyDelete | KeyLeft | KeyRight | KeyUp | KeyDown | KeyHome | KeyEnd | KeyOther.
Inductive KeyEventKind := Press | Repeat | Release.
(** The bits of [KeyModifiers]. *)
Definition NONE : N := 0.
Definition SHIFT : N := 1.
Definition CONTROL : N := 2.
Definition ALT : N := 4.
Record KeyEvent := MkKeyEvent { code : KeyCode; modifiers : N; kind : KeyEventKind }.

(** [is_altgr] is a function of the platform. *)
Definition is_altgr (windows : bool) (mods : N) : bool :=
  windows && (N.land mods ALT =? ALT)%N && (N.land mods CONTROL =? CONTROL)%N.

Definition input_char (windows : bool) (c : char) (mods : N) (t : TextArea) : option TextArea :=
  let key ch m := (c =? ch)%N && (mods =? m)%N in
  if key 2%N NONE then Some (move_cursor_left t)
  else if key 6%N NONE then Some (move_cursor_right t)
  else if key 16%N NONE then move_cursor_up t
  else if key 14%N NONE then move_cursor_down t
  else if (mods =? NONE)%N || (mods =? SHIFT)%N then insert_str [c] t
  else if key 106%N CONTROL || key 109%N CONTROL then insert_str [ch_nl] t
  else if key 104%N (N.lor CONTROL ALT) then delete_backward_word t
  else if is_altgr windows mods then insert_str [c] t
  else if key 104%N CONTROL then delete_backward 1 t
  else if key 100%N ALT then delete_forward_word t
  else if key 100%N CONTROL then delete_forward 1 t
  else if key 119%N CONTROL then delete_backward_word t
  else if key 98%N ALT then move_to_previous_word t
  else if key 102%N ALT then move_to_next_word t
  else if key 117%N CONTROL then kill_to_beginning_of_line t
  else if key 107%N CONTROL then kill_to_end_of_line t
  else if key 121%N CONTROL then yank t
  else if key 98%N CONTROL then Some (move_cursor_left t)
  else if key 102%N CONTROL then Some (move_cursor_right t)
  else if key 112%N CONTROL then move_cursor_up t
  else if key 110%N CONTROL then move_cursor_down t
  else if key 97%N CONTROL then move_cursor_to_beginning_of_line true t
  else if key 101%N CONTROL then move_cursor_to_end_of_line true t
  else Some t.
Definition input (windows : bool) (event : KeyEvent) (t : TextArea) : option TextArea :=
  let mods := modifiers event in
  let word_key := (mods =? ALT)%N || (mods =? CONTROL)%N in
  match kind event with
  | Release => Some t
  | _ =>
      match code event with
      | KeyChar c => input_char windows c mods t
      | KeyEnter => insert_str [ch_nl] t
      | KeyBackspace => if (mods =? ALT)%N then delete_backward_word t else delete_backward 1 t
      | KeyDelete => if (mods =? ALT)%N then delete_forward_word t else delete_forward 1 t
      | KeyLeft => if (mods =? NONE)%N then Some (move_cursor_left t) else if word_key then move_to_previous_word t else Some t
      | KeyRight => if (mods =? NONE)%N then Some (move_cursor_right t) else if word_key then move_to_next_word t else Some t
      | KeyUp => move_cursor_up t
      | KeyDown => move_cursor_down t
      | KeyHome => move_cursor_to_beginning_of_line false t
      | KeyEnd => move_cursor_to_end_of_line false t
      | KeyOther => Some t
      end
  end.
End segmentation.
