(* ===== verification/TextEdits.v ===== *)
(** Lemmas about [TextArea]: slices and character boundaries, and what an edit does
    to the elements around it. *)
From S2P Require Import Prelude TextArea.
From Stdlib Require Import Lia.
From stdpp Require Import sorting.

(** ** Slices *)

Lemma split_at_Some pos s a b : split_at pos s = Some (a, b) ↔ s = a ++ b ∧ str_len a = pos.
Proof.
  revert pos a b. induction s as [|c s IH]; intros [|pos] a b.
  - cbn. split; [intros [= <- <-]; done|]. intros [Hs Hl]. apply str_len_zero in Hl as ->. by destruct b.
  - cbn. split; [done|]. intros [Hs Hl]. symmetry in Hs. apply app_eq_nil in Hs as [-> ->]. done.
  - cbn. split; [intros [= <- <-]; done|]. intros [Hs Hl]. apply str_len_zero in Hl as ->. by rewrite Hs.
  - cbn -[Nat.leb utf8_width Nat.sub]. destruct (Nat.leb_spec (utf8_width c) (S pos)) as [Hle|Hlt].
    + destruct (split_at (S pos - utf8_width c) s) as [[a' b']|] eqn:Hs; cbn -[Nat.sub].
      * apply IH in Hs as [-> Hl]. split.
        -- intros [= <- <-]. split; [done|]. cbn. lia.
        -- intros [Heq Hlen]. destruct a as [|c' a]; [done|]. injection Heq as <- Heq. cbn in Hlen.
           assert (a' = a) as -> by (eapply prefix_len_eq; [exact Heq|lia]). by apply app_inv_head in Heq as ->.
      * split; [done|]. intros [Heq Hlen]. exfalso. destruct a as [|c' a]; [done|]. injection Heq as <- Heq. cbn in Hlen.
        assert (split_at (S pos - utf8_width c) s = Some (a, b)) as Hx by (apply IH; split; [done|lia]). congruence.
    + split; [done|]. intros [Heq Hlen]. destruct a as [|c' a]; [done|]. injection Heq as <- Heq. cbn in Hlen. lia.
Qed.

(** A position on a character boundary. *)
Definition boundary (s : str) (pos : nat) : Prop := ∃ a b, s = a ++ b ∧ str_len a = pos.
Lemma is_char_boundary_spec s pos : is_char_boundary s pos = true ↔ boundary s pos.
Proof.
  unfold is_char_boundary. destruct (split_at pos s) as [[a b]|] eqn:Hs.
  - apply split_at_Some in Hs. split; [by exists a, b|done].
  - split; [done|]. intros (a & b & Hab). apply split_at_Some in Hab. congruence.
Qed.
Lemma boundary_0 s : boundary s 0. Proof. by exists [], s. Qed.
Lemma boundary_end s : boundary s (str_len s). Proof. exists s, []. by rewrite app_nil_r. Qed.
Lemma boundary_le s pos : boundary s pos → pos <= str_len s.
Proof. intros (a & b & -> & <-). rewrite str_len_app. lia. Qed.
#[export] Hint Resolve boundary_0 boundary_end : codex.
Lemma boundary_mid a b : boundary (a ++ b) (str_len a). Proof. by exists a, b. Qed.
Lemma boundary_left a x p : boundary (a ++ x) p → p <= str_len a → boundary a p.
Proof.
  intros (u & v & Heq & <-) Hle. apply app_eq_inv in Heq as [(k & -> & ->)|(k & -> & ->)].
  - apply boundary_mid.
  - rewrite str_len_app in Hle. assert (str_len k = 0) as ->%str_len_zero by lia. rewrite app_nil_r. apply boundary_end.
Qed.
Lemma boundary_app_l a x p : boundary a p → boundary (a ++ x) p.
Proof. intros (u & v & -> & <-). rewrite -app_assoc. apply boundary_mid. Qed.
Lemma boundary_right a x p : boundary (a ++ x) p → str_len a <= p → boundary x (p - str_len a).
Proof.
  intros (u & v & Heq & <-) Hle. apply app_eq_inv in Heq as [(k & -> & ->)|(k & -> & ->)].
  - rewrite str_len_app in Hle. assert (str_len k = 0) as Hk%str_len_zero by lia. subst. rewrite app_nil_r Nat.sub_diag. apply boundary_0.
  - rewrite str_len_app. replace (str_len a + str_len k - str_len a) with (str_len k) by lia. apply boundary_mid.
Qed.
Lemma boundary_app_r a x p : boundary x p → boundary (a ++ x) (str_len a + p).
Proof. intros (u & v & -> & <-). rewrite app_assoc -str_len_app. apply boundary_mid. Qed.

Lemma slice_to_Some s pos a : slice_to s pos = Some a ↔ ∃ b, s = a ++ b ∧ str_len a = pos.
Proof.
  unfold slice_to. split.
  - intros ([a' b] & Hs & ->)%fmap_Some. apply split_at_Some in Hs. by exists b.
  - intros (b & Hs). by rewrite (proj2 (split_at_Some pos s a b) Hs).
Qed.
Lemma slice_from_Some s pos b : slice_from s pos = Some b ↔ ∃ a, s = a ++ b ∧ str_len a = pos.
Proof.
  unfold slice_from. split.
  - intros ([a b'] & Hs & ->)%fmap_Some. apply split_at_Some in Hs. by exists a.
  - intros (a & Hs). by rewrite (proj2 (split_at_Some pos s a b) Hs).
Qed.
Lemma slice_Some s i j m : slice s i j = Some m ↔ ∃ a b, s = a ++ m ++ b ∧ str_len a = i ∧ i + str_len m = j.
Proof.
  unfold slice. split.
  - intros (pre & Hp & Hm)%bind_Some. apply slice_to_Some in Hp as (b & -> & Hl). apply slice_from_Some in Hm as (a & -> & Ha).
    exists a, b. rewrite -app_assoc. split_and!; [done..|]. rewrite str_len_app in Hl. lia.
  - intros (a & b & -> & Ha & Hm). apply bind_Some. exists (a ++ m). split.
    + apply slice_to_Some. exists b. rewrite -app_assoc str_len_app. split; [done|lia].
    + apply slice_from_Some. by exists a.
Qed.
Lemma slice_to_is_Some s pos : boundary s pos → ∃ a b, slice_to s pos = Some a ∧ s = a ++ b ∧ str_len a = pos.
Proof. intros (a & b & -> & Hl). exists a, b. split; [|done]. apply slice_to_Some. by exists b. Qed.
Lemma slice_from_is_Some s pos : boundary s pos → ∃ a b, slice_from s pos = Some b ∧ s = a ++ b ∧ str_len a = pos.
Proof. intros (a & b & -> & Hl). exists a, b. split; [|done]. apply slice_from_Some. by exists a. Qed.
(** A range of the text. *)
Lemma between s i j : boundary s i → boundary s j → i <= j → ∃ a m b, s = a ++ m ++ b ∧ str_len a = i ∧ i + str_len m = j.
Proof.
  intros Hi (u & b & -> & Hu) Hle. assert (boundary u i) as (a & m & -> & Ha) by (eapply boundary_left; [done|lia]).
  exists a, m, b. rewrite -app_assoc. split_and!; [done..|]. rewrite str_len_app in Hu. lia.
Qed.
Lemma slice_is_Some s i j : boundary s i → boundary s j → i <= j → is_Some (slice s i j).
Proof. intros Hi Hj Hle. destruct (between s i j Hi Hj Hle) as (a & m & b & Hs). exists m. apply slice_Some. by exists a, b. Qed.

Lemma insert_at_split a b t : insert_at (a ++ b) (str_len a) t = Some (a ++ t ++ b).
Proof. unfold insert_at. by rewrite (proj2 (split_at_Some (str_len a) (a ++ b) a b)). Qed.
Lemma replace_at_split a x b t : replace_at (a ++ x ++ b) (str_len a) (str_len a + str_len x) t = Some (a ++ t ++ b).
Proof.
  unfold replace_at. rewrite app_assoc (proj2 (split_at_Some _ ((a ++ x) ++ b) (a ++ x) b)); [by rewrite str_len_app|]. cbn.
  by rewrite (proj2 (slice_to_Some (a ++ x) (str_len a) a)); [exists x|].
Qed.

(** ** Characters *)

Lemma find_char_Some f s i c : find_char f s = Some (i, c) → ∃ a b, s = a ++ c :: b ∧ str_len a = i ∧ f c = true ∧ Forall (λ d, f d = false) a.
Proof.
  revert i c. induction s as [|d s IH]; intros i c; cbn; [done|]. destruct (f d) eqn:Hd.
  - intros [= <- <-]. by exists [], s.
  - destruct (find_char f s) as [[j e]|] eqn:Hf; [|done]. intros [= <- <-]. destruct (IH _ _ eq_refl) as (a & b & -> & Hl & Hc & Ha).
    exists (d :: a), b. cbn. rewrite Hl. split_and!; auto.
Qed.
Lemma rfind_char_Some f s i c : rfind_char f s = Some (i, c) → ∃ a b, s = a ++ c :: b ∧ str_len a = i ∧ f c = true ∧ Forall (λ d, f d = false) b.
Proof.
  assert (∀ s, rfind_char f s = None → Forall (λ d, f d = false) s) as Hnone.
  { clear. induction s as [|d s IH]; cbn; [done|]. destruct (rfind_char f s) as [[]|]; [done|]. destruct (f d) eqn:Hd; [done|]. by auto. }
  revert i c. induction s as [|d s IH]; intros i c; cbn; [done|].
  destruct (rfind_char f s) as [[j e]|] eqn:Hf.
  - intros [= <- <-]. destruct (IH _ _ eq_refl) as (a & b & -> & Hl & Hc & Hb). exists (d :: a), b. cbn. rewrite Hl. auto.
  - destruct (f d) eqn:Hd; [|done]. intros [= <- <-]. exists [], s. auto.
Qed.

(** ** Clamping *)

Lemma boundary_before_spec s pos : boundary s (boundary_before s pos) ∧ boundary_before s pos <= pos.
Proof.
  induction pos as [|p [Hb Hl]]; cbn; [auto with codex|]. destruct (is_char_boundary s (S p)) eqn:He.
  - apply is_char_boundary_spec in He. auto.
  - auto.
Qed.
Lemma boundary_after_spec s fuel pos : pos + fuel = str_len s → boundary s (boundary_after s fuel pos) ∧ pos <= boundary_after s fuel pos.
Proof.
  revert pos. induction fuel as [|fuel IH]; intros pos Hl; cbn.
  - replace pos with (str_len s) by lia. auto with codex.
  - destruct (is_char_boundary s pos) eqn:He; [apply is_char_boundary_spec in He; auto|].
    destruct (IH (S pos)) as [Hb Hle]; [lia|]. split; [done|lia].
Qed.
Lemma clamp_char_boundary t pos : boundary (text t) (clamp_pos_to_char_boundary t pos).
Proof.
  unfold clamp_pos_to_char_boundary. destruct (is_char_boundary _ _) eqn:He; [by apply is_char_boundary_spec|].
  case_match; [apply boundary_before_spec|]. apply boundary_after_spec. unfold text_len. lia.
Qed.
Lemma clamp_char_id t pos : boundary (text t) pos → clamp_pos_to_char_boundary t pos = pos.
Proof.
  intros Hb. unfold clamp_pos_to_char_boundary. assert (Nat.min pos (text_len t) = pos) as ->.
  { apply boundary_le in Hb. unfold text_len. lia. }
  by rewrite (proj2 (is_char_boundary_spec _ _) Hb).
Qed.

(** ** Elements *)

Definition element_ok (s : str) (e : TextElement) : Prop := boundary s (el_start e) ∧ boundary s (el_end e) ∧ el_start e <= el_end e.
(** Elements that share no character. *)
Definition apart (a b : TextElement) : Prop := el_end a <= el_start b ∨ el_end b <= el_start a.
Definition all_apart (es : list TextElement) : Prop := StronglySorted apart es.
Definition elements_ok (s : str) (es : list TextElement) : Prop := Forall (element_ok s) es ∧ all_apart es.

#[global] Instance apart_symm : Symmetric apart. Proof. intros a b [|]; [by right|by left]. Qed.
Lemma StronglySorted_perm {A} (R : A → A → Prop) `{!Symmetric R} l k : l ≡ₚ k → StronglySorted R l → StronglySorted R k.
Proof.
  induction 1 as [|x l k Hp IH|x y l|l k m _ IH1 _ IH2]; auto.
  - intros [Hs Hf]%StronglySorted_inv. constructor; [by apply IH|]. by rewrite -Hp.
  - intros [[Hs Hy]%StronglySorted_inv Hx]%StronglySorted_inv. apply Forall_cons in Hx as [Hxy Hx]. repeat (constructor; auto).
Qed.
Lemma Forall_List_filter {A} (P : A → Prop) f l : Forall P l → Forall P (List.filter f l).
Proof. induction 1; cbn; [done|]. destruct (f x); auto. Qed.
Lemma StronglySorted_filter {A} (R : A → A → Prop) f l : StronglySorted R l → StronglySorted R (List.filter f l).
Proof.
  induction 1 as [|x l Hs IH Hf]; cbn; [constructor|]. destruct (f x); [|done]. constructor; [done|]. by apply Forall_List_filter.
Qed.
Lemma StronglySorted_pair {A} (R : A → A → Prop) `{!Symmetric R} l x y : StronglySorted R l → x ∈ l → y ∈ l → x = y ∨ R x y.
Proof.
  induction 1 as [|z l Hs IH Hf]; [by intros ?%not_elem_of_nil|]. rewrite Forall_forall in Hf.
  intros [->|Hx]%elem_of_cons [->|Hy]%elem_of_cons; auto.
Qed.
Lemma elements_ok_filter s f es : elements_ok s es → elements_ok s (List.filter f es).
Proof. intros [Ho Ha]. split; [by apply Forall_List_filter|by apply StronglySorted_filter]. Qed.
Lemma elements_ok_sort s f es : elements_ok s es → elements_ok s (sort_by f es).
Proof.
  intros [Ho Ha]. split; [by rewrite sort_by_perm|]. eapply StronglySorted_perm; [apply _|symmetry; apply sort_by_perm|done].
Qed.
Lemma elements_ok_snoc s es e : elements_ok s es → element_ok s e → Forall (apart e) es → elements_ok s (es ++ [e]).
Proof.
  intros [Ho Ha] He Hap. split; [by apply Forall_app; auto|].
  eapply (StronglySorted_perm apart (e :: es)); [apply Permutation_cons_append|]. by constructor.
Qed.

(** ** An edit *)

(** An element that an edit of a range takes away, or leaves before or after it. *)
Definition clear_of (start end_ : nat) (e : TextElement) : Prop := el_end e <= start ∨ end_ <= el_start e.
Definition taken (start end_ : nat) (e : TextElement) : bool := Nat.leb start (el_start e) && Nat.leb (el_end e) end_.

Section edit.
Variables (a x y b : str).
Let start := str_len a.
Let removed := str_len x.
Let inserted := str_len y.
Let old := a ++ x ++ b.
Let new := a ++ y ++ b.

Lemma edit_boundary_before p : boundary old p → p <= start → boundary new p.
Proof. intros Hp Hle. by apply boundary_app_l, (boundary_left _ (x ++ b)). Qed.
Lemma edit_boundary_after p : boundary old p → start + removed <= p → boundary new (p + inserted - removed).
Proof.
  unfold old, new, start, removed, inserted. rewrite !app_assoc. intros Hp Hle.
  apply boundary_right in Hp; [|rewrite str_len_app; lia]. rewrite str_len_app in Hp.
  apply (boundary_app_r (a ++ y)) in Hp. rewrite str_len_app in Hp.
  by replace (p + str_len y - str_len x) with (str_len a + str_len y + (p - (str_len a + str_len x))) by lia.
Qed.

Lemma shift_before e : el_end e <= start → shift_element start removed inserted e = e.
Proof. intros Hle. unfold shift_element. by rewrite (proj2 (Nat.leb_le _ _) Hle). Qed.
Lemma shift_after e : start + removed <= el_start e → el_start e <= el_end e → taken start (start + removed) e = false →
  shift_element start removed inserted e
  = MkElement (el_id e) (el_start e + inserted - removed) (el_end e + inserted - removed) (el_name e).
Proof.
  intros Hs Hse Ht. unfold shift_element. destruct (Nat.leb_spec (el_end e) start) as [Hle|_].
  - exfalso. unfold taken in Ht. rewrite (proj2 (Nat.leb_le _ _)) in Ht; [lia|]. apply Nat.leb_gt in Ht. lia.
  - by rewrite (proj2 (Nat.leb_le _ _) Hs).
Qed.
Lemma shift_element_id e : el_id (shift_element start removed inserted e) = el_id e.
Proof. unfold shift_element. by repeat case_match. Qed.

Lemma shift_element_name e : el_name (shift_element start removed inserted e) = el_name e.
Proof. unfold shift_element. by repeat case_match. Qed.

Lemma shift_ok e : element_ok old e → clear_of start (start + removed) e → taken start (start + removed) e = false →
  element_ok new (shift_element start removed inserted e).
Proof.
  intros (Hs & He & Hle) Hc Ht. destruct (decide (el_end e <= start)) as [Hb|Hb].
  - rewrite shift_before //. split_and!; [apply edit_boundary_before; [done|lia]|by apply edit_boundary_before|done].
  - destruct Hc as [Hc|Hc]; [done|]. rewrite shift_after //.
    split_and!; cbn; [by apply edit_boundary_after|apply edit_boundary_after; [done|lia]|lia].
Qed.
Lemma shift_apart e1 e2 : element_ok old e1 → element_ok old e2 → clear_of start (start + removed) e1 → clear_of start (start + removed) e2 →
  taken start (start + removed) e1 = false → taken start (start + removed) e2 = false → apart e1 e2 →
  apart (shift_element start removed inserted e1) (shift_element start removed inserted e2).
Proof.
  intros (_ & _ & H1) (_ & _ & H2) Hc1 Hc2 Ht1 Ht2 Ha.
  destruct (decide (el_end e1 <= start)) as [Hb1|Hb1], (decide (el_end e2 <= start)) as [Hb2|Hb2];
    [rewrite !shift_before //|rewrite (shift_before e1) // (shift_after e2) //|rewrite (shift_before e2) // (shift_after e1) //|rewrite !shift_after //];
    unfold clear_of, apart in *; cbn; lia.
Qed.
Lemma shift_payload e : element_ok old e → clear_of start (start + removed) e → taken start (start + removed) e = false →
  slice new (el_start (shift_element start removed inserted e)) (el_end (shift_element start removed inserted e))
  = slice old (el_start e) (el_end e).
Proof.
  intros (Hs & He & Hle) Hc Ht. destruct (between _ _ _ Hs He Hle) as (u & m & v & Heq & Hu & Hm).
  rewrite (proj2 (slice_Some old _ _ m)); [by exists u, v|]. apply slice_Some.
  destruct (decide (el_end e <= start)) as [Hb|Hb].
  - rewrite shift_before //. rewrite app_assoc in Heq. assert (boundary ((u ++ m) ++ v) start) as Hst.
    { rewrite -Heq. apply boundary_mid. }
    apply boundary_right in Hst as (k & r & -> & Hk); [|rewrite str_len_app; unfold start in *; lia].
    assert (a = (u ++ m) ++ k) as Ha.
    { unfold old in Heq. rewrite (app_assoc (u ++ m)) in Heq. eapply prefix_len_eq; [exact Heq|].
      rewrite !str_len_app Hk str_len_app. unfold start in *. lia. }
    exists u, (k ++ y ++ b). unfold new. rewrite Ha -!app_assoc. done.
  - destruct Hc as [Hc|Hc]; [done|]. rewrite shift_after //. cbn.
    assert (boundary u (start + removed)) as Hst.
    { apply (boundary_left _ (m ++ v)); [|lia]. rewrite -Heq. unfold old, start, removed. rewrite app_assoc -str_len_app. apply boundary_mid. }
    destruct Hst as (k & r & -> & Hk). unfold old in Heq. rewrite -app_assoc app_assoc in Heq.
    assert (a ++ x = k) as Hax by (eapply prefix_len_eq; [exact Heq|]; rewrite str_len_app; unfold start, removed in *; lia).
    subst k. apply app_inv_head in Heq. exists (a ++ y ++ r), v. unfold new. rewrite Heq -!app_assoc. split; [done|].
    rewrite !str_len_app in Hu |- *. unfold inserted, removed. lia.
Qed.

(** What is left of the elements. *)
Definition left_over (es : list TextElement) : list TextElement :=
  shift_element start removed inserted <$> List.filter (λ e, negb (taken start (start + removed) e)) es.
Lemma left_over_ok es : elements_ok old es → Forall (λ e, taken start (start + removed) e = true ∨ clear_of start (start + removed) e) es →
  elements_ok new (left_over es).
Proof.
  intros [Ho Ha] Hc. unfold left_over. revert Ho Hc. induction Ha as [|e es Hs IH Hf]; [split; constructor|].
  intros [He Ho]%Forall_cons [Hce Hc]%Forall_cons. destruct (IH Ho Hc) as [Ho' Ha']. cbn.
  destruct (taken start (start + removed) e) eqn:Ht; cbn; [done|]. destruct Hce as [|Hce]; [done|]. split.
  - constructor; [by apply shift_ok|done].
  - constructor; [done|]. apply Forall_fmap, Forall_forall. intros e' He'. apply list_elem_of_In, filter_In in He' as [He'%list_elem_of_In Ht'].
    apply negb_true_iff in Ht'. rewrite Forall_forall in Hf. rewrite Forall_forall in Ho. rewrite Forall_forall in Hc.
    destruct (Hc _ He') as [|Hc']; [congruence|]. apply shift_apart; auto.
Qed.
End edit.

(** ** Ranges that contain the elements they touch *)

Definition inside (r : Range) (e : TextElement) : bool := Nat.leb r.1 (el_start e) && Nat.leb (el_end e) r.2.
Definition closed_range (es : list TextElement) (r : Range) : Prop := ∀ e, e ∈ es → intersects r e = true → inside r e = true.
Definition within (r r' : Range) : Prop := r'.1 <= r.1 ∧ r.2 <= r'.2.
Lemma expand_over_within r e : within r (expand_over r e).
Proof. unfold expand_over, within. destruct (intersects r e); cbn; lia. Qed.
Lemma expand_pass_within es r : within r (foldl expand_over r es).
Proof.
  revert r. induction es as [|e es IH]; intros r; [by split|]. cbn. specialize (IH (expand_over r e)).
  pose proof (expand_over_within r e). unfold within in *. lia.
Qed.
Lemma inside_within r r' e : within r r' → inside r e = true → inside r' e = true.
Proof. unfold within, inside. rewrite !andb_true_iff !Nat.leb_le. lia. Qed.
(** A pass that changes nothing found the range closed; one that changes something
    took in an element that was outside. *)
Lemma expand_pass_same es r : foldl expand_over r es = r → closed_range es r.
Proof.
  revert r. induction es as [|e es IH]; intros r Hr; [by intros ? ?%not_elem_of_nil|]. cbn in Hr.
  assert (expand_over r e = r) as He.
  { pose proof (expand_over_within r e) as H1. pose proof (expand_pass_within es (expand_over r e)) as H2. rewrite Hr in H2.
    unfold within in *. destruct r as [i j], (expand_over _ _) as [i' j']. cbn in *. f_equal; lia. }
  rewrite He in Hr. intros e' [->|He']%elem_of_cons Hi; [|by apply (IH r)].
  unfold expand_over in He. rewrite Hi in He. unfold inside. destruct r as [i j]. injection He as H1 H2. cbn in *.
  rewrite andb_true_iff !Nat.leb_le. lia.
Qed.
Lemma expand_pass_takes es r : foldl expand_over r es ≠ r →
  ∃ e, e ∈ es ∧ inside r e = false ∧ inside (foldl expand_over r es) e = true.
Proof.
  revert r. induction es as [|e es IH]; intros r Hr; [done|]. cbn in *. destruct (decide (expand_over r e = r)) as [He|He].
  - rewrite He in Hr |- *. destruct (IH r Hr) as (e' & Hin & Hi). exists e'. split; [by right|done].
  - exists e. split; [by left|]. unfold expand_over in He |- *. destruct (intersects r e) eqn:Hi; [|done]. split.
    + apply not_true_iff_false. unfold inside. rewrite andb_true_iff !Nat.leb_le. intros [H1 H2]. apply He. destruct r as [i j]. cbn in *. f_equal; lia.
    + eapply inside_within; [apply expand_pass_within|]. unfold inside. cbn. rewrite andb_true_iff !Nat.leb_le. lia.
Qed.
Definition outside_count (r : Range) (es : list TextElement) : nat := length (List.filter (λ e, negb (inside r e)) es).
Lemma outside_count_le r r' es : within r r' → outside_count r' es <= outside_count r es.
Proof.
  intros Hw. unfold outside_count. induction es as [|e es IH]; [done|]. cbn. destruct (inside r e) eqn:Hi.
  - rewrite (inside_within _ _ _ Hw Hi). done.
  - destruct (inside r' e); cbn; lia.
Qed.
Lemma outside_count_lt r r' es e : within r r' → e ∈ es → inside r e = false → inside r' e = true → outside_count r' es < outside_count r es.
Proof.
  intros Hw He Hi Hi'. unfold outside_count. induction es as [|e' es IH]; [by apply not_elem_of_nil in He|].
  pose proof (outside_count_le r r' es Hw) as Hle. unfold outside_count in Hle. cbn.
  apply elem_of_cons in He as [<-|He].
  - rewrite Hi Hi'. cbn. lia.
  - specialize (IH He). destruct (inside r e') eqn:Hr; [rewrite (inside_within _ _ _ Hw Hr) //|]. destruct (inside r' e'); cbn; lia.
Qed.
Lemma expand_loop_spec es : ∀ fuel r, outside_count r es < fuel → within r (expand_loop fuel es r) ∧ closed_range es (expand_loop fuel es r).
Proof.
  induction fuel as [|fuel IH]; intros r Hf; [lia|]. cbn. case_bool_decide as Hr.
  - split; [by split|by apply expand_pass_same].
  - destruct (expand_pass_takes es r Hr) as (e & He & Hi & Hi'). pose proof (expand_pass_within es r) as Hw.
    pose proof (outside_count_lt _ _ _ _ Hw He Hi Hi'). destruct (IH (foldl expand_over r es)) as [Hw' Hc]; [lia|].
    split; [|done]. unfold within in *. lia.
Qed.
Lemma outside_count_length r es : outside_count r es <= length es.
Proof. unfold outside_count. induction es as [|e es IH]; [done|]. cbn. destruct (negb _); cbn; lia. Qed.

(** The loop over the elements ends with a range that contains the elements it
    touches, in as many passes as there are elements. *)
Lemma expand_spec t r : let r' := expand_range_to_element_boundaries t r in within r r' ∧ closed_range (text_elements t) r'.
Proof. apply expand_loop_spec. pose proof (outside_count_length r (text_elements t)). lia. Qed.

(** Its ends are ends of the range or of elements. *)
Lemma expand_loop_ends (P : nat → Prop) es : Forall (λ e, P (el_start e) ∧ P (el_end e)) es →
  ∀ fuel r, P r.1 → P r.2 → P (expand_loop fuel es r).1 ∧ P (expand_loop fuel es r).2.
Proof.
  intros Hes. assert (∀ r, P r.1 → P r.2 → P (foldl expand_over r es).1 ∧ P (foldl expand_over r es).2) as Hpass.
  { induction Hes as [|e es [Hs He] _ IH]; intros r H1 H2; [done|]. cbn. apply IH; unfold expand_over; destruct (intersects r e); cbn; try done.
    - destruct (Nat.min_dec r.1 (el_start e)) as [-> | ->]; done.
    - destruct (Nat.max_dec r.2 (el_end e)) as [-> | ->]; done. }
  induction fuel as [|fuel IH]; intros r H1 H2; [done|]. cbn. case_bool_decide; [done|]. destruct (Hpass r H1 H2). by apply IH.
Qed.
Lemma expand_boundaries t r : elements_ok (text t) (text_elements t) → boundary (text t) r.1 → boundary (text t) r.2 →
  let r' := expand_range_to_element_boundaries t r in boundary (text t) r'.1 ∧ boundary (text t) r'.2.
Proof.
  intros [Ho _] H1 H2. apply (expand_loop_ends (boundary (text t))); [|done..]. eapply Forall_impl; [exact Ho|]. by intros e (? & ? & _).
Qed.

Lemma closed_taken_or_clear es r : closed_range es r → Forall (λ e, taken r.1 r.2 e = true ∨ clear_of r.1 r.2 e) es.
Proof.
  intros Hc. apply Forall_forall. intros e He. destruct (intersects r e) eqn:Hi; [left; by apply Hc|]. right. unfold intersects in Hi.
  apply andb_false_iff in Hi as [Hi|Hi]; apply Nat.ltb_ge in Hi; [by right|by left].
Qed.

(** ** Clamping out of elements *)

Lemma find_element_Some f t e : find_element f t = Some e → e ∈ text_elements t ∧ f e = true.
Proof. intros Hf. apply List.find_some in Hf as [Hin Hf]. by apply list_elem_of_In in Hin. Qed.
Lemma find_element_None f t : find_element f t = None ↔ Forall (λ e, f e = false) (text_elements t).
Proof.
  unfold find_element. induction (text_elements t) as [|e es IH]; cbn; [by split|]. destruct (f e) eqn:Hf.
  - split; [done|]. intros [? _]%Forall_cons. congruence.
  - rewrite IH Forall_cons. naive_solver.
Qed.
Definition free (t : TextArea) (pos : nat) : Prop := find_element_containing t pos = None.
Lemma contains_pos_true pos e : contains_pos pos e = true ↔ el_start e < pos < el_end e.
Proof. unfold contains_pos. rewrite andb_true_iff !Nat.ltb_lt. done. Qed.
Lemma free_spec t pos : free t pos ↔ ∀ e, e ∈ text_elements t → ¬ el_start e < pos < el_end e.
Proof.
  unfold free, find_element_containing. rewrite find_element_None Forall_forall. split; intros Hf e He; specialize (Hf e He).
  - rewrite -contains_pos_true. congruence.
  - apply not_true_iff_false. by rewrite contains_pos_true.
Qed.
Lemma elements_ok_elem s es e : elements_ok s es → e ∈ es → element_ok s e.
Proof. intros [Ho _]. by apply Forall_forall. Qed.
Lemma element_ends_free t e : elements_ok (text t) (text_elements t) → e ∈ text_elements t → free t (el_start e) ∧ free t (el_end e).
Proof.
  intros Hok He. pose proof (elements_ok_elem _ _ _ Hok He) as (_ & _ & Hle). rewrite !free_spec.
  split; intros e' He'; destruct (StronglySorted_pair apart _ e e' (proj2 Hok) He He') as [<-|Ha]; unfold apart in *;
    pose proof (elements_ok_elem _ _ _ Hok He') as (_ & _ & Hle'); lia.
Qed.
Lemma clamp_nearest_spec t pos : elements_ok (text t) (text_elements t) →
  boundary (text t) (clamp_pos_to_nearest_boundary t pos) ∧ free t (clamp_pos_to_nearest_boundary t pos).
Proof.
  intros Hok. unfold clamp_pos_to_nearest_boundary. destruct (find_element_containing t _) as [e|] eqn:Hf.
  - apply find_element_Some in Hf as [He _]. pose proof (elements_ok_elem _ _ _ Hok He) as (Hs & Hend & _).
    destruct (element_ends_free t e Hok He). case_match; rewrite clamp_char_id //.
  - split; [apply clamp_char_boundary|done].
Qed.
Lemma clamp_nearest_id t pos : boundary (text t) pos → free t pos → clamp_pos_to_nearest_boundary t pos = pos.
Proof. intros Hb Hf. unfold clamp_pos_to_nearest_boundary. rewrite clamp_char_id //. by rewrite Hf. Qed.
