(* ===== verification/TextAreaProofs.v ===== *)
(** What is proved of the text area ([TextArea]): no operation panics, the cursor
    and the elements stay on character boundaries and the elements apart, edits
    leave the elements around them as they are, what is killed can be yanked back,
    and the cursor stays on the screen. *)
From S2P Require Import Prelude TextArea TextEdits.
From Stdlib Require Import Lia.

(** ** What the other crates promise *)

Class SegmentationOk `{Segmentation} : Prop := {
  prev_boundary_ok s pos b : boundary s pos → prev_boundary s pos = Some b → boundary s b ∧ b < pos;
  next_boundary_ok s pos b : boundary s pos → next_boundary s pos = Some b → boundary s b ∧ pos < b;
  graphemes_ok s i g : (i, g) ∈ grapheme_indices s → boundary s i;
  word_bounds_ok s i seg : (i, seg) ∈ split_word_bound_indices s → ∃ a b, s = a ++ seg ++ b ∧ str_len a = i;
  textwrap_ok w s i sl : Borrowed i sl ∈ textwrap w s → ∃ a b, s = a ++ sl ++ b ∧ str_len a = i
}.

(** A range of wrapped lines: from a boundary to one past another. *)
Definition line_range_ok (s : str) (r : Range) : Prop := boundary s r.1 ∧ boundary s (r.2 - 1) ∧ r.1 <= r.2 - 1.
Definition cache_ok `{Segmentation} (t : TextArea) : Prop :=
  ∀ c, wrap_cache t = Some c → Forall (line_range_ok (text t)) (cache_lines c).
Record sound `{Segmentation} (t : TextArea) : Prop := {
  sound_cursor : boundary (text t) (cursor_pos t);
  sound_elements : elements_ok (text t) (text_elements t);
  sound_cache : cache_ok t
}.
(** The cursor is not within an element. *)
Definition cursor_free (t : TextArea) : Prop := free t (cursor_pos t).

Section proofs.
Context `{SegmentationOk}.

Lemma clamp_cursor_ok t : elements_ok (text t) (text_elements t) → cache_ok t → sound (clamp_cursor t) ∧ cursor_free (clamp_cursor t).
Proof. intros Ho Hc. destruct (clamp_nearest_spec t (cursor_pos t) Ho) as [Hb Hf]. by repeat split; cbn; try apply Ho. Qed.
Lemma set_cursor_ok pos t : sound t → sound (set_cursor pos t) ∧ cursor_free (set_cursor pos t).
Proof. intros [_ Ho Hc]. destruct (clamp_cursor_ok (set_cursor_pos (Nat.min pos (text_len t)) t)) as [[] ?]; try done. Qed.
Lemma no_cache t : wrap_cache t = None → cache_ok t.
Proof. intros Hn c Hc. congruence. Qed.

(** ** Edits *)

(** The text between two parts is replaced, and the elements follow. *)
Definition edit (t t' : TextArea) (a x y b : str) : Prop :=
  text t = a ++ x ++ b ∧ text t' = a ++ y ++ b ∧ text_elements t' = left_over a x y (text_elements t) ∧ next_element_id t' = next_element_id t.
Lemma edit_elements t t' a x y b : edit t t' a x y b → elements_ok (text t) (text_elements t) →
  closed_range (text_elements t) (str_len a, str_len a + str_len x) → elements_ok (text t') (text_elements t').
Proof.
  intros (Ht & Ht' & He & _) Hok Hc. rewrite Ht' He. apply (left_over_ok a x y b); [by rewrite -Ht|].
  by apply (closed_taken_or_clear _ (str_len a, str_len a + str_len x)).
Qed.

Lemma insert_str_at_edit pos s t : sound t → ∃ t' a b, insert_str_at pos s t = Some t' ∧ edit t t' a [] s b ∧
  str_len a = clamp_pos_to_nearest_boundary t pos ∧ kill_buffer t' = kill_buffer t ∧
  cursor_pos t' = (if Nat.leb (str_len a) (cursor_pos t) then cursor_pos t + str_len s else cursor_pos t).
Proof.
  intros [Hcur Hok Hc]. unfold insert_str_at, clamp_pos_for_insertion. set (p := clamp_pos_to_nearest_boundary t pos).
  destruct (clamp_nearest_spec t pos Hok) as [Hb _]. fold p in Hb. destruct Hb as (a & b & Ht & Hp).
  rewrite Ht -Hp insert_at_split. cbn [mbind option_bind]. eexists _, a, b. split; [reflexivity|].
  split; [|split_and!; [done| |]]; [|by destruct (Nat.leb _ _)..].
  split_and!; [done| | |]; by destruct (Nat.leb _ _).
Qed.
Lemma point_closed t a : free t (str_len a) → closed_range (text_elements t) (str_len a, str_len a + str_len []).
Proof.
  intros Hf e He Hi. apply free_spec with (e := e) in Hf; [|done]. unfold intersects in Hi. cbn in Hi.
  apply andb_true_iff in Hi as [H1%Nat.ltb_lt H2%Nat.ltb_lt]. lia.
Qed.
(** A position that an insertion does not move into an element. *)
Lemma insertion_free a s es pos p :
  Forall (λ e, clear_of (str_len a) (str_len a) e) es → Forall (λ e, el_start e <= el_end e) es →
  p = (if Nat.leb (str_len a) pos then pos + str_len s else pos) →
  (∀ e, e ∈ es → ¬ el_start e < pos < el_end e) → ∀ e, e ∈ left_over a [] s es → ¬ el_start e < p < el_end e.
Proof.
  intros Hc Hle -> Hf e' He'. unfold left_over in He'. apply list_elem_of_fmap in He' as (e & -> & He).
  apply list_elem_of_In, filter_In in He as [He%list_elem_of_In Ht%negb_true_iff]. rewrite Forall_forall in Hc. rewrite Forall_forall in Hle.
  specialize (Hf e He). specialize (Hc e He). specialize (Hle e He).
  assert (str_len a + str_len [] = str_len a) as Hz by (cbn; lia). rewrite Hz in Ht.
  destruct (decide (el_end e <= str_len a)).
  - rewrite shift_before //. destruct (Nat.leb_spec (str_len a) pos); lia.
  - destruct Hc as [|Hc]; [done|]. rewrite shift_after ?Hz //. cbn.
    destruct (Nat.leb_spec (str_len a) pos); lia.
Qed.
(** Replacing a range that contains the elements it touches. *)
Lemma replace_range_raw_edit r s t : sound t → boundary (text t) r.1 → boundary (text t) r.2 → r.1 <= r.2 →
  closed_range (text_elements t) r →
  ∃ t' a x b, replace_range_raw r s t = Some t' ∧ text t = a ++ x ++ b ∧ str_len a = r.1 ∧ str_len a + str_len x = r.2 ∧ sound t' ∧
    kill_buffer t' = kill_buffer t ∧ text t' = a ++ s ++ b ∧
    (x = [] ∧ s = [] ∧ t' = t ∨
     edit t t' a x s b ∧ cursor_free t' ∧
     cursor_pos t' = clamp_pos_to_nearest_boundary t' (edited_cursor r.1 r.2 (str_len s) (cursor_pos t))).
Proof.
  intros [Hcur Hok Hc] H1 H2 Hle Hclosed. destruct (between _ _ _ H1 H2 Hle) as (a & x & b & Ht & Ha & Hx).
  unfold replace_range_raw. rewrite (proj2 (Nat.ltb_ge _ _) Hle).
  assert (Nat.min r.1 (text_len t) = r.1 ∧ Nat.min r.2 (text_len t) = r.2) as [-> ->].
  { apply boundary_le in H1, H2. unfold text_len. lia. }
  assert (replace_at (text t) r.1 r.2 s = Some (a ++ s ++ b)) as Hr by (rewrite Ht -Hx -Ha; apply replace_at_split).
  destruct (Nat.eqb_spec (r.2 - r.1) 0) as [Hz|Hz], (Nat.eqb_spec (str_len s) 0) as [Hs|Hs]; cbn [andb].
  { apply str_len_zero in Hs as ->. assert (x = []) as -> by (apply str_len_zero; lia).
    exists t, a, [], b. split_and!; try done; [by rewrite Ha|]. by left. }
  all: rewrite Hr; cbn [mbind option_bind].
  all: set (t1 := set_cursor_pos _ _).
  all: assert (edit t t1 a x s b) as He
    by (subst t1; split_and!; try done; cbn; rewrite -Hx -Ha; by replace (str_len a + str_len x - str_len a) with (str_len x) by lia).
  all: assert (elements_ok (text t1) (text_elements t1)) as Hok1
    by (eapply edit_elements; [done..|]; rewrite Ha Hx; by destruct r).
  all: destruct (clamp_cursor_ok t1 Hok1) as [Hs1 Hf1]; [by apply no_cache|].
  all: eexists _, a, x, b; (split; [reflexivity|]); split_and!; try done; try (by rewrite Ha).
  all: right; split; [done|split; [done|]]; cbn.
  all: change (text_len t1) with (str_len (a ++ s ++ b)) in *.
  all: assert (Nat.min (edited_cursor r.1 r.2 (str_len s) (cursor_pos t)) (str_len (a ++ s ++ b)) = edited_cursor r.1 r.2 (str_len s) (cursor_pos t)) as Hm.
  all: try (apply boundary_le in Hcur; rewrite Ht !str_len_app in Hcur; rewrite !str_len_app; unfold edited_cursor;
    destruct (Nat.ltb_spec (cursor_pos t) r.1); [lia|]; destruct (Nat.leb_spec (cursor_pos t) r.2); lia).
  all: change (cursor_pos t1) with (Nat.min (edited_cursor r.1 r.2 (str_len s) (cursor_pos t)) (str_len (a ++ s ++ b))); by rewrite Hm.
Qed.

(** An element, and the text it stands for. *)
Definition view (t : TextArea) (e : TextElement) : N * option str * option str := (el_id e, el_name e, payload t e).
Definition views (t : TextArea) : list (N * option str * option str) := view t <$> text_elements t.
Lemma sublist_List_filter {A} (f : A → bool) l : sublist (List.filter f l) l.
Proof. induction l as [|x l IH]; cbn; [done|]. destruct (f x); by constructor. Qed.
Lemma edit_views t t' a x y b : edit t t' a x y b → elements_ok (text t) (text_elements t) →
  closed_range (text_elements t) (str_len a, str_len a + str_len x) → sublist (views t') (views t).
Proof.
  intros (Ht & Ht' & He & _) [Hok _] Hc%closed_taken_or_clear. unfold views. rewrite He. unfold left_over. rewrite -list_fmap_compose.
  rewrite (list_fmap_ext _ (view t)); last apply fmap_sublist, sublist_List_filter. intros i e Hi. apply list_elem_of_lookup_2 in Hi.
  apply list_elem_of_In, filter_In in Hi as [Hi%list_elem_of_In Htk%negb_true_iff].
  rewrite Forall_forall in Hok. rewrite Forall_forall in Hc. destruct (Hc e Hi) as [Hx|Hcl]; [unfold taken in *; cbn in Hx; congruence|].
  unfold view, payload; cbn. rewrite Ht Ht' shift_element_id shift_element_name. f_equal. apply shift_payload; [|done..]. rewrite -Ht. by apply Hok.
Qed.

(** An operation that succeeds, on a sound text area, keeps the cursor out of the
    elements and the elements that it does not remove as they are. *)
Definition good (t : TextArea) (r : option TextArea) : Prop :=
  ∃ t', r = Some t' ∧ sound t' ∧ (cursor_free t → cursor_free t') ∧ sublist (views t') (views t).
Lemma good_same t : sound t → good t (Some t).
Proof. intros Hs. by exists t. Qed.
Lemma good_free t t' : text t' = text t → text_elements t' = text_elements t → sound t' ∧ cursor_free t' → good t (Some t').
Proof. intros Ht He [Hs Hf]. exists t'. split_and!; try done. unfold views, view, payload. by rewrite Ht He. Qed.

Lemma insert_str_at_good pos s t : sound t → good t (insert_str_at pos s t).
Proof.
  intros Hs. destruct (insert_str_at_edit pos s t Hs) as (t' & a & b & Hi & He & Ha & _ & Hcur). destruct Hs as [Hb Hok Hc].
  destruct (clamp_nearest_spec t pos Hok) as [_ Hf]. rewrite -Ha in Hf. exists t'. split; [done|].
  pose proof (point_closed t a Hf) as Hclosed. split; [split|split].
  - destruct He as (Ht & Ht' & _). rewrite Ht' Hcur. rewrite Ht in Hb. destruct (Nat.leb_spec (str_len a) (cursor_pos t)).
    + pose proof (edit_boundary_after a [] s b _ Hb) as Hx. cbn in Hx. rewrite Nat.sub_0_r in Hx. apply Hx. lia.
    + apply (edit_boundary_before a [] s b); [done|lia].
  - by eapply edit_elements.
  - apply no_cache. unfold insert_str_at in Hi. destruct (insert_at _ _ _); [|done]. injection Hi as <-. by destruct (Nat.leb _ _).
  - intros Hfree. unfold cursor_free. rewrite free_spec. destruct He as (Ht & Ht' & Hes & _). rewrite Hes.
    apply (insertion_free a s (text_elements t) (cursor_pos t)); [| |done|by apply free_spec].
    + eapply Forall_impl; [by apply (closed_taken_or_clear _ _ Hclosed)|]. cbn. rewrite Nat.add_0_r. intros e [Htk|]; [|done].
      unfold taken in Htk. apply andb_true_iff in Htk as [H1%Nat.leb_le H2%Nat.leb_le]. by right.
    + eapply Forall_impl; [apply Hok|]. by intros e (_ & _ & ?).
  - by eapply edit_views.
Qed.
Lemma replace_range_raw_good r s t : sound t → boundary (text t) r.1 → boundary (text t) r.2 → r.1 <= r.2 →
  closed_range (text_elements t) r → good t (replace_range_raw r s t).
Proof.
  intros Hs H1 H2 Hle Hc. destruct (replace_range_raw_edit r s t Hs H1 H2 Hle Hc) as (t' & a & x & b & Hr & _ & Ha & Hx & Hs' & _ & _ & Hd).
  exists t'. split; [done|]. split; [done|]. destruct Hd as [(_ & _ & ->)|(He & Hf' & _)]; [done|]. split; [done|].
  apply (edit_views _ _ _ _ _ _ He); [apply Hs|]. rewrite Hx Ha. by destruct r.
Qed.
Lemma replace_range_good r s t : sound t → boundary (text t) r.1 → boundary (text t) r.2 → r.1 <= r.2 → good t (replace_range r s t).
Proof.
  intros Hs H1 H2 Hle. destruct (expand_spec t r) as [Hw Hc]. destruct (expand_boundaries t r (sound_elements _ Hs) H1 H2) as [H1' H2'].
  apply replace_range_raw_good; try done. unfold within in Hw. lia.
Qed.
Lemma kill_range_good r t : sound t → boundary (text t) r.1 → boundary (text t) r.2 → good t (kill_range r t).
Proof.
  intros Hs H1 H2. unfold kill_range. destruct (expand_spec t r) as [_ Hc].
  destruct (expand_boundaries t r (sound_elements _ Hs) H1 H2) as [H1' H2']. set (r' := expand_range_to_element_boundaries t r) in *.
  destruct (Nat.leb_spec r'.2 r'.1) as [Hle|Hlt]; [by apply good_same|].
  destruct (slice_is_Some _ _ _ H1' H2') as [m ->]; [lia|]. cbn. destruct (is_empty m); [by apply good_same|].
  destruct Hs. apply (replace_range_raw_good r' [] (set_kill_buffer m t)); try done. lia.
Qed.
Lemma insert_str_good s t : sound t → good t (insert_str s t).
Proof. apply insert_str_at_good. Qed.

(** ** Boundaries of lines *)

Lemma nl_width c : is_nl c = true → utf8_width c = 1.
Proof. unfold is_nl. by intros ->%N.eqb_eq. Qed.
Lemma beginning_of_line_ok t pos : boundary (text t) pos →
  ∃ bol, beginning_of_line t pos = Some bol ∧ boundary (text t) bol ∧ bol <= pos ∧ (0 < bol → boundary (text t) (bol - 1)).
Proof.
  intros Hb. unfold beginning_of_line. destruct (slice_to_is_Some _ _ Hb) as (a & b & -> & Ht & Ha). cbn.
  eexists. split; [reflexivity|]. destruct (rfind_char is_nl a) as [[i c]|] eqn:Hr; [|split_and!; auto with codex lia].
  apply rfind_char_Some in Hr as (u & v & -> & Hu & Hc%nl_width & _). rewrite str_len_app /= Hc in Ha.
  rewrite Ht -Hu. split_and!; [|lia|intros _; rewrite Nat.add_sub].
  - rewrite -(app_assoc u (c :: v) b) (app_assoc u [c] (v ++ b)). replace (str_len u + 1) with (str_len (u ++ [c])) by (rewrite str_len_app /= Hc; lia).
    apply boundary_mid.
  - rewrite -app_assoc. apply boundary_mid.
Qed.
Lemma end_of_line_ok t pos : boundary (text t) pos →
  ∃ eol, end_of_line t pos = Some eol ∧ boundary (text t) eol ∧ pos <= eol ∧ (eol < text_len t → boundary (text t) (eol + 1)).
Proof.
  intros Hb. unfold end_of_line. destruct (slice_from_is_Some _ _ Hb) as (a & b & -> & Ht & Ha). cbn.
  eexists. split; [reflexivity|]. destruct (find_char is_nl b) as [[i c]|] eqn:Hr.
  - apply find_char_Some in Hr as (u & v & -> & Hu & Hc%nl_width & _). rewrite Ht. split_and!; [|lia|intros _].
    + rewrite app_assoc. replace (i + pos) with (str_len (a ++ u)) by (rewrite str_len_app; lia). apply boundary_mid.
    + rewrite (app_assoc a u (c :: v)) (app_assoc (a ++ u) [c] v).
      replace (i + pos + 1) with (str_len ((a ++ u) ++ [c])) by (rewrite !str_len_app /= Hc; lia). apply boundary_mid.
  - split_and!; [apply boundary_end|by apply boundary_le|unfold text_len; lia].
Qed.
Lemma kill_to_end_of_line_good t : sound t → good t (kill_to_end_of_line t).
Proof.
  intros Hs. unfold kill_to_end_of_line, end_of_current_line. destruct (end_of_line_ok t _ (sound_cursor _ Hs)) as (eol & -> & Hb & Hle & Hn). cbn.
  repeat case_match; try (by apply good_same); apply kill_range_good; try done; try apply Hs. cbn. apply Hn. by apply Nat.ltb_lt.
Qed.
Lemma kill_to_beginning_of_line_good t : sound t → good t (kill_to_beginning_of_line t).
Proof.
  intros Hs. unfold kill_to_beginning_of_line, beginning_of_current_line.
  destruct (beginning_of_line_ok t _ (sound_cursor _ Hs)) as (bol & -> & Hb & Hle & Hn). cbn.
  repeat case_match; try (by apply good_same); apply kill_range_good; try done; try apply Hs. cbn. apply Hn. by apply Nat.ltb_lt.
Qed.
Lemma yank_good t : sound t → good t (yank t).
Proof. intros Hs. unfold yank. case_match; [by apply good_same|by apply insert_str_good]. Qed.
Lemma move_cursor_to_beginning_of_line_good up t : sound t → good t (move_cursor_to_beginning_of_line up t).
Proof.
  intros Hs. unfold move_cursor_to_beginning_of_line, beginning_of_current_line.
  destruct (beginning_of_line_ok t _ (sound_cursor _ Hs)) as (bol & -> & Hb & Hle & Hn). cbn.
  destruct (up && Nat.eqb (cursor_pos t) bol) eqn:Hup.
  - assert (boundary (text t) (cursor_pos t - 1)) as Hb1.
    { apply andb_true_iff in Hup as [_ ->%Nat.eqb_eq]. destruct bol; [apply boundary_0|apply Hn; lia]. }
    destruct (beginning_of_line_ok t _ Hb1) as (b2 & -> & _). cbn. apply good_free; [done..|].
    destruct (set_cursor_ok b2 t Hs) as [[] ?]. by split.
  - cbn. apply good_free; [done..|]. destruct (set_cursor_ok bol t Hs) as [[] ?]. by split.
Qed.
Lemma move_cursor_to_end_of_line_good down t : sound t → good t (move_cursor_to_end_of_line down t).
Proof.
  intros Hs. unfold move_cursor_to_end_of_line, end_of_current_line.
  destruct (end_of_line_ok t _ (sound_cursor _ Hs)) as (eol & -> & Hb & Hle & Hn). cbn.
  destruct (down && Nat.eqb (cursor_pos t) eol) eqn:Hd; cbn; [|apply good_free, set_cursor_ok, Hs; done].
  assert (boundary (text t) (Nat.min (cursor_pos t + 1) (text_len t))) as Hb1.
  { apply andb_true_iff in Hd as [_ Heq%Nat.eqb_eq]. destruct (decide (eol < text_len t)).
    - rewrite Nat.min_l; [lia|]. rewrite Heq. by apply Hn.
    - rewrite Nat.min_r; [lia|]. apply boundary_end. }
  destruct (end_of_line_ok t _ Hb1) as (e2 & -> & _). cbn. apply good_free, set_cursor_ok, Hs; done.
Qed.

(** ** Steps *)

Lemma prev_atomic_ok t pos : sound t → boundary (text t) pos →
  let b := prev_atomic_boundary t pos in boundary (text t) b ∧ b <= pos ∧ free t b.
Proof.
  intros Hs Hb. pose proof (sound_elements _ Hs) as Hok. assert (free t 0) as Hzero by (apply free_spec; intros; lia).
  unfold prev_atomic_boundary. destruct (Nat.eqb_spec pos 0) as [->|Hp]; [auto with codex|].
  destruct (find_element _ t) as [e|] eqn:Hf.
  - apply find_element_Some in Hf as [He [Hlt%Nat.ltb_lt _]%andb_true_iff]. pose proof (elements_ok_elem _ _ _ Hok He) as (H1 & _ & _).
    destruct (element_ends_free t e Hok He). split_and!; [done|lia|done].
  - destruct (prev_boundary (text t) pos) as [b|] eqn:Hpb; [|split_and!; auto with codex lia].
    apply prev_boundary_ok in Hpb as [Hb' Hlt]; [|done].
    destruct (find_element_containing t b) as [e|] eqn:Hc; [|split_and!; [done|lia|done]].
    apply find_element_Some in Hc as [He Hc%contains_pos_true]. pose proof (elements_ok_elem _ _ _ Hok He) as (H1 & _ & _).
    destruct (element_ends_free t e Hok He). split_and!; [done|lia|done].
Qed.
Lemma end_free t : sound t → free t (text_len t).
Proof.
  intros Hs. apply free_spec. intros e He. destruct (elements_ok_elem _ _ _ (sound_elements _ Hs) He) as (_ & Hb%boundary_le & _).
  unfold text_len. lia.
Qed.
Lemma next_atomic_ok t pos : sound t → boundary (text t) pos →
  let b := next_atomic_boundary t pos in boundary (text t) b ∧ pos <= b ∧ free t b.
Proof.
  intros Hs Hb. pose proof (sound_elements _ Hs) as Hok. pose proof (end_free t Hs) as Hend.
  assert (boundary (text t) (text_len t)) as Hbend by apply boundary_end. pose proof (boundary_le _ _ Hb) as Hle.
  unfold next_atomic_boundary. destruct (Nat.leb_spec (text_len t) pos) as [Hp|Hp]; [done|].
  destruct (find_element _ t) as [e|] eqn:Hf.
  - apply find_element_Some in Hf as [He [_ Hlt%Nat.ltb_lt]%andb_true_iff]. pose proof (elements_ok_elem _ _ _ Hok He) as (_ & H1 & _).
    destruct (element_ends_free t e Hok He). split_and!; [done|lia|done].
  - destruct (next_boundary (text t) pos) as [b|] eqn:Hpb; [|done]. apply next_boundary_ok in Hpb as [Hb' Hlt]; [|done].
    destruct (find_element_containing t b) as [e|] eqn:Hc; [|split_and!; [done|lia|done]].
    apply find_element_Some in Hc as [He Hc%contains_pos_true]. pose proof (elements_ok_elem _ _ _ Hok He) as (_ & H1 & _).
    destruct (element_ends_free t e Hok He). split_and!; [done|lia|done].
Qed.
Lemma steps_back_ok n t target : sound t → boundary (text t) target → boundary (text t) (steps_back n t target) ∧ steps_back n t target <= target.
Proof.
  intros Hs. revert target. induction n as [|n IH]; intros target Hb; [done|]. cbn.
  destruct (prev_atomic_ok t target Hs Hb) as (Hb' & Hle & _). case_match; [done|]. destruct (IH _ Hb'). split; [done|lia].
Qed.
Lemma steps_forward_ok n t target : sound t → boundary (text t) target → boundary (text t) (steps_forward n t target) ∧ target <= steps_forward n t target.
Proof.
  intros Hs. revert target. induction n as [|n IH]; intros target Hb; [done|]. cbn.
  destruct (next_atomic_ok t target Hs Hb) as (Hb' & Hle & _). case_match; [done|]. destruct (IH _ Hb'). split; [done|lia].
Qed.
Lemma delete_backward_good n t : sound t → good t (delete_backward n t).
Proof.
  intros Hs. unfold delete_backward. case_match; [by apply good_same|]. pose proof (sound_cursor _ Hs) as Hc.
  destruct (steps_back_ok n t _ Hs Hc). by apply replace_range_good.
Qed.
Lemma delete_forward_good n t : sound t → good t (delete_forward n t).
Proof.
  intros Hs. unfold delete_forward. case_match; [by apply good_same|]. pose proof (sound_cursor _ Hs) as Hc.
  destruct (steps_forward_ok n t _ Hs Hc). by apply replace_range_good.
Qed.
Lemma placed_cursor t pos : sound t → boundary (text t) pos → free t pos → good t (Some (set_preferred_col None (set_cursor_pos pos t))).
Proof. intros [] Hb Hf. by apply good_free. Qed.
Lemma move_cursor_left_good t : sound t → good t (Some (move_cursor_left t)).
Proof. intros Hs. destruct (prev_atomic_ok t _ Hs (sound_cursor _ Hs)) as (? & _ & ?). by apply placed_cursor. Qed.
Lemma move_cursor_right_good t : sound t → good t (Some (move_cursor_right t)).
Proof. intros Hs. destruct (next_atomic_ok t _ Hs (sound_cursor _ Hs)) as (? & _ & ?). by apply placed_cursor. Qed.
Lemma move_to_start_good t : sound t → good t (Some (move_to_start t)).
Proof. intros Hs. apply placed_cursor; [done|apply boundary_0|]. apply free_spec. intros. lia. Qed.
Lemma move_to_end_good t : sound t → good t (Some (move_to_end t)).
Proof. intros Hs. apply placed_cursor; [done|apply boundary_end|by apply end_free]. Qed.

(** ** Up and down *)

Lemma move_to_display_col_on_line_good line_start line_end col t : sound t → boundary (text t) line_start → boundary (text t) line_end →
  line_start <= line_end → good t (move_to_display_col_on_line line_start line_end col t).
Proof.
  intros Hs H1 H2 Hle. unfold move_to_display_col_on_line. destruct (slice_is_Some _ _ _ H1 H2 Hle) as [line ->]. cbn.
  apply good_free; [done..|]. apply clamp_cursor_ok; apply Hs.
Qed.
Lemma remember_col_fields col t : text (remember_col col t) = text t ∧ cursor_pos (remember_col col t) = cursor_pos t ∧
  text_elements (remember_col col t) = text_elements t ∧ wrap_cache (remember_col col t) = wrap_cache t.
Proof. unfold remember_col. by destruct (preferred_col t). Qed.
Lemma remember_col_good col t r : sound t → (sound (remember_col col t) → good (remember_col col t) r) → good t r.
Proof.
  intros [] Hg. destruct (remember_col_fields col t) as (H1 & H2 & H3 & H4). destruct Hg as (t' & -> & Hs' & Hf & Hv).
  - split; unfold cache_ok; rewrite ?H1 ?H2 ?H3 ?H4; done.
  - exists t'. split; [done|]. split; [done|]. unfold cursor_free, free, find_element_containing, find_element in *. rewrite H2 H3 in Hf.
    split; [done|]. revert Hv. unfold views, view, payload. by rewrite H1 H3.
Qed.
Lemma partition_point_spec pos ls i : i < partition_point pos ls → ∃ r, ls !! i = Some r ∧ r.1 <= pos.
Proof.
  revert i. induction ls as [|[start e] ls IH]; intros i; cbn; [lia|]. destruct (Nat.leb_spec start pos); [|lia].
  destruct i as [|i]; [by eexists|]. intros Hi. apply IH. lia.
Qed.
Lemma line_index_spec ls pos i : wrapped_line_index_by_start ls pos = Some i → ∃ r, ls !! i = Some r ∧ r.1 <= pos.
Proof. unfold wrapped_line_index_by_start. destruct (partition_point pos ls) eqn:Hp; [done|]. intros [= <-]. apply partition_point_spec. lia. Qed.
Lemma visual_line_ok t ls : sound t → Forall (line_range_ok (text t)) ls → ∃ v, visual_line t ls = Some v.
Proof.
  intros Hs Hls. unfold visual_line. destruct (wrapped_line_index_by_start ls (cursor_pos t)) as [i|] eqn:Hi; [|by eexists].
  apply line_index_spec in Hi as (r & Hr & Hle). rewrite Hr. cbn. destruct (preferred_col t); cbn; [by eexists|].
  destruct (Forall_lookup_1 _ _ _ _ Hls Hr) as (H1 & _ & _). destruct (slice_is_Some _ _ _ H1 (sound_cursor _ Hs) Hle) as [m ->]. by eexists.
Qed.
Lemma visual_line_index t ls col i : visual_line t ls = Some (Some (col, i)) → is_Some (ls !! i).
Proof.
  unfold visual_line. destruct (wrapped_line_index_by_start _ _) as [j|]; [|done]. destruct (ls !! j) as [r|] eqn:Hr; [|done]. cbn.
  destruct (preferred_col t); cbn; [|destruct (slice _ _ _); [|done]]; intros [= _ <-]; by exists r.
Qed.
Lemma move_to_visual_line_good line col t : sound t → line_range_ok (text t) line → good t (move_to_visual_line line col t).
Proof.
  intros Hs (H1 & H2 & Hle). apply (remember_col_good col); [done|]. intros Hs'. destruct (remember_col_fields col t) as (Ht & _).
  apply move_to_display_col_on_line_good; rewrite ?Ht; done.
Qed.
Lemma target_column_ok t : sound t → is_Some (target_column t).
Proof.
  intros Hs. unfold target_column. destruct (preferred_col t); [by eexists|]. unfold current_display_col, beginning_of_current_line.
  destruct (beginning_of_line_ok t _ (sound_cursor _ Hs)) as (bol & -> & Hb & Hle & _). cbn.
  destruct (slice_is_Some _ _ _ Hb (sound_cursor _ Hs) Hle) as [m ->]. by eexists.
Qed.
Lemma move_up_logical_good t : sound t → good t (move_up_logical t).
Proof.
  intros Hs. unfold move_up_logical. destruct (slice_to_is_Some _ _ (sound_cursor _ Hs)) as (a & b & -> & Ht & Ha). cbn.
  destruct (rfind_char is_nl a) as [[i c]|] eqn:Hr; [|by apply move_to_start_good].
  destruct (target_column_ok t Hs) as [col ->]. cbn. apply rfind_char_Some in Hr as (u & v & -> & Hu & _).
  assert (boundary (text t) i) as Hi by (rewrite Ht -Hu -app_assoc; apply boundary_mid).
  destruct (beginning_of_line_ok t i Hi) as (bol & -> & Hb & Hle & _). cbn.
  apply (remember_col_good col); [done|]. intros Hs'. destruct (remember_col_fields col t) as (He & _).
  apply move_to_display_col_on_line_good; rewrite ?He; done.
Qed.
Lemma move_down_logical_good t : sound t → good t (move_down_logical t).
Proof.
  intros Hs. unfold move_down_logical. destruct (target_column_ok t Hs) as [col ->]. cbn.
  apply (remember_col_good col); [done|]. intros Hs'. destruct (remember_col_fields col t) as (He & Hc & _). rewrite He Hc.
  destruct (slice_from_is_Some _ _ (sound_cursor _ Hs)) as (a & b & -> & Ht & Ha). cbn.
  destruct (find_char is_nl b) as [[i c]|] eqn:Hr; [|by apply move_to_end_good].
  apply find_char_Some in Hr as (u & v & -> & Hu & Hw%nl_width & _).
  assert (boundary (text t) (i + cursor_pos t + 1)) as Hi.
  { rewrite Ht (app_assoc a u (c :: v)) (app_assoc (a ++ u) [c] v).
    replace (i + cursor_pos t + 1) with (str_len ((a ++ u) ++ [c])) by (rewrite !str_len_app /= Hw; lia). apply boundary_mid. }
  destruct (end_of_line_ok (remember_col col t) (i + cursor_pos t + 1)) as (eol & -> & Hb & Hle & _); [by rewrite He|]. cbn.
  apply move_to_display_col_on_line_good; rewrite ?He //. by rewrite He in Hb.
Qed.
Lemma move_cursor_up_good t : sound t → good t (move_cursor_up t).
Proof.
  intros Hs. unfold move_cursor_up. destruct (wrap_cache t) as [c|] eqn:Hc; [|by apply move_up_logical_good].
  pose proof (sound_cache _ Hs c Hc) as Hls. destruct (visual_line_ok t _ Hs Hls) as [v Hv]. rewrite Hv. cbn.
  destruct v as [[col [|idx]]|]; [by apply move_to_start_good| |by apply move_up_logical_good].
  apply visual_line_index in Hv as [r Hr]. apply lookup_lt_Some in Hr. destruct (lookup_lt_is_Some_2 (cache_lines c) idx) as [line Hl]; [lia|].
  rewrite Hl. cbn. apply move_to_visual_line_good; [done|]. by eapply Forall_lookup_1.
Qed.
Lemma move_cursor_down_good t : sound t → good t (move_cursor_down t).
Proof.
  intros Hs. unfold move_cursor_down. destruct (wrap_cache t) as [c|] eqn:Hc; [|by apply move_down_logical_good].
  pose proof (sound_cache _ Hs c Hc) as Hls. destruct (visual_line_ok t _ Hs Hls) as [v Hv]. rewrite Hv. cbn.
  destruct v as [[col idx]|]; [|by apply move_down_logical_good].
  destruct (cache_lines c !! S idx) as [line|] eqn:Hl; [|by apply move_to_end_good].
  apply move_to_visual_line_good; [done|]. by eapply Forall_lookup_1.
Qed.

(** ** Wrapped lines *)

Lemma trailing_spaces_ok s e : boundary s e → ∃ n, trailing_spaces s e = Some n ∧ boundary s (e + n).
Proof.
  intros Hb. unfold trailing_spaces. destruct (slice_from_is_Some _ _ Hb) as (a & b & -> & -> & Ha). cbn.
  destruct (drop_while_suffix (N.eqb ch_sp) b) as (p & Hp & Hsp). eexists. split; [reflexivity|].
  assert (length b - length (drop_while (N.eqb ch_sp) b) = str_len p) as ->.
  { rewrite {1}Hp length_app. assert (str_len p = length p) as ->.
    - clear Hp. induction Hsp as [|c p Hc%N.eqb_eq _ IH]; [done|]. subst c. cbn. by rewrite IH.
    - slia. }
  rewrite Hp -Ha. rewrite app_assoc -str_len_app. apply boundary_mid.
Qed.
Lemma skip_spaces_split s : ∃ a b, s = a ++ b ∧ length a = skip_spaces s ∧ str_len a = skip_spaces s ∧ b = drop (skip_spaces s) s.
Proof.
  induction s as [|c s (a & b & Hs & Hl & Ha & Hb)]; [by exists [], []|]. cbn. destruct (N.eqb_spec c ch_sp) as [->|].
  - exists (ch_sp :: a), b. cbn. rewrite -Hs Hl Ha. done.
  - by exists [], (c :: s).
Qed.
Lemma match_source_boundary line rest saw : boundary rest (match_source line rest saw).
Proof.
  revert rest saw. induction line as [|ch line IH]; intros rest saw; [apply boundary_0|]. cbn -[utf8_width].
  destruct rest as [|src rest]; [destruct (match line with [] => _ | _ => _ end); [apply IH|apply boundary_0]|].
  destruct (ch =? src)%N.
  - pose proof (boundary_app_r [src] rest _ (IH rest true)) as Hb. cbn in Hb. by rewrite Nat.add_0_r in Hb.
  - destruct (match line with [] => _ | _ => _ end); [apply IH|apply boundary_0].
Qed.
Lemma map_owned_ok s cursor line : boundary s cursor →
  ∃ r, map_owned_wrapped_line_to_range s cursor line = Some r ∧ boundary s r.1 ∧ boundary s r.2 ∧ r.1 <= r.2.
Proof.
  intros Hb. unfold map_owned_wrapped_line_to_range.
  assert (∃ a b, s = a ++ b ∧ str_len a = cursor ∧ (if Nat.ltb cursor (str_len s) then slice_from s cursor else Some []) = Some b)
    as (a & b & -> & <- & ->).
  { destruct (slice_from_is_Some _ _ Hb) as (a & b & Hsl & -> & Ha). exists a, b. rewrite Hsl. split_and!; try done.
    destruct (Nat.ltb_spec cursor (str_len (a ++ b))) as [|Hge]; [done|]. rewrite str_len_app in Hge.
    assert (str_len b = 0) as ->%str_len_zero by lia. done. }
  cbn. eexists. split; [reflexivity|]. cbn. set (n := if starts_with " " line then 0 else skip_spaces b).
  assert (∃ u, b = u ++ drop n b ∧ str_len u = n) as (u & Hu & Hn).
  { subst n. destruct (starts_with " " line); [by exists []|]. destruct (skip_spaces_split b) as (u & v & Hb' & _ & Hlen & ->). by exists u. }
  pose proof (match_source_boundary line (drop n b) false) as Hm. revert Hu Hm. generalize (match_source line (drop n b) false) as m.
  generalize (drop n b) as v. intros v m -> Hm. rewrite -Hn.
  split_and!; [| |lia]; rewrite app_assoc -str_len_app; [apply boundary_mid|by apply boundary_app_r].
Qed.
Lemma wrap_lines_ok s ls cursor : boundary s cursor → (∀ i sl, Borrowed i sl ∈ ls → ∃ a b, s = a ++ sl ++ b ∧ str_len a = i) →
  ∃ rs, wrap_lines s cursor ls = Some rs ∧ Forall (line_range_ok s) rs.
Proof.
  revert cursor. induction ls as [|[i sl|line] ls IH]; intros cursor Hb Hls; cbn [wrap_lines]; [by exists []|..].
  - destruct (Hls i sl) as (a & b & Hs & Ha); [by left|].
    assert (boundary s i) as Hi by (rewrite Hs -Ha; apply boundary_mid).
    assert (boundary s (i + str_len sl)) as He by (rewrite Hs app_assoc -Ha -str_len_app; apply boundary_mid).
    destruct (trailing_spaces_ok s _ He) as (n & -> & Hn). cbn.
    destruct (IH (i + str_len sl + n)) as (rs & -> & Hrs); [done|intros; apply Hls; by right|]. cbn. eexists. split; [reflexivity|].
    constructor; [|done]. split_and!; cbn; rewrite ?Nat.add_sub //. lia.
  - destruct (map_owned_ok s cursor line Hb) as ([i e] & -> & Hi & He & Hle). cbn in *.
    destruct (trailing_spaces_ok s _ He) as (n & -> & Hn). cbn.
    destruct (IH (e + n)) as (rs & -> & Hrs); [done|intros; apply Hls; by right|]. cbn. eexists. split; [reflexivity|].
    constructor; [|done]. split_and!; cbn; rewrite ?Nat.add_sub //. lia.
Qed.
Lemma wrapped_lines_good w t : sound t → ∃ ls t', wrapped_lines w t = Some (ls, t') ∧ Forall (line_range_ok (text t)) ls ∧
  sound t' ∧ text t' = text t ∧ cursor_pos t' = cursor_pos t ∧ text_elements t' = text_elements t.
Proof.
  intros Hs. assert (∃ ls, wrap_ranges (text t) w = Some ls ∧ Forall (line_range_ok (text t)) ls) as (ls & Hw & Hls).
  { apply wrap_lines_ok; [apply boundary_0|]. intros i sl. apply textwrap_ok. }
  assert (sound (set_wrap_cache (Some (MkWrapCache w ls)) t)) as Hs'.
  { destruct Hs. split; [done..|]. by intros c [= <-]. }
  unfold wrapped_lines. destruct (wrap_cache t) as [c|] eqn:Hc; [destruct (Nat.eqb _ _)|].
  - exists (cache_lines c), t. split_and!; try done. by apply (sound_cache _ Hs).
  - rewrite Hw. by exists ls, (set_wrap_cache (Some (MkWrapCache w ls)) t).
  - rewrite Hw. by exists ls, (set_wrap_cache (Some (MkWrapCache w ls)) t).
Qed.

(** ** Words *)

Definition piece_of (run : str) (p : nat * str) : Prop := ∃ a b, run = a ++ p.2 ++ b ∧ str_len a = p.1.
Lemma piece_of_boundaries a run b p : piece_of run p →
  boundary (a ++ run ++ b) (str_len a + p.1) ∧ boundary (a ++ run ++ b) (str_len a + p.1 + str_len p.2).
Proof.
  destruct p as [i p]. intros (u & v & -> & Hu). cbn in *. subst i. rewrite !app_assoc -!str_len_app -(app_assoc ((a ++ u) ++ p) v b).
  split; [rewrite -app_assoc|]; apply boundary_mid.
Qed.
Lemma segment_pieces_ok run a segment b sep pre piece rest : run = a ++ segment ++ b → segment = pre ++ piece ++ rest →
  Forall (piece_of run) (segment_pieces (str_len a) (str_len pre) sep piece rest).
Proof.
  intros Hr. revert sep pre piece. induction rest as [|ch rest IH]; intros sep pre piece Hs; cbn [segment_pieces].
  - constructor; [|done]. exists (a ++ pre), b. rewrite str_len_app Hr Hs app_nil_r !app_assoc. done.
  - destruct (Bool.eqb _ _).
    + apply IH. by rewrite Hs -app_assoc.
    + constructor.
      * exists (a ++ pre), (ch :: rest ++ b). rewrite str_len_app Hr Hs. cbn. by rewrite -!app_assoc.
      * rewrite -str_len_app. apply IH. by rewrite Hs -!app_assoc.
Qed.
Lemma split_word_pieces_ok run : Forall (piece_of run) (split_word_pieces run).
Proof.
  apply Forall_forall. intros p Hp. unfold split_word_pieces in Hp. apply list_elem_of_bind in Hp as ([i segment] & Hp & Hin).
  destruct (word_bounds_ok _ _ _ Hin) as (a & b & Hr & <-). destruct segment as [|c rest]; [by apply not_elem_of_nil in Hp|].
  revert p Hp. apply Forall_forall. by apply (segment_pieces_ok run a (c :: rest) b _ [] [c] rest).
Qed.
Lemma separators_start_ok a run b start pieces : Forall (piece_of run) pieces → boundary (a ++ run ++ b) start →
  boundary (a ++ run ++ b) (separators_start (str_len a) start pieces).
Proof.
  intros Hp. revert start. induction Hp as [|[i p] ps Hp _ IH]; intros start Hs; cbn; [done|]. case_match; [|done].
  apply IH. by apply (piece_of_boundaries a run b (i, p)).
Qed.
Lemma separators_end_ok a run b e pieces : Forall (piece_of run) pieces → boundary (a ++ run ++ b) e →
  boundary (a ++ run ++ b) (separators_end (str_len a) e pieces).
Proof.
  intros Hp. revert e. induction Hp as [|[i p] ps Hp _ IH]; intros e Hs; cbn; [done|]. case_match; [|done].
  apply IH. by apply (piece_of_boundaries a run b (i, p)).
Qed.
Lemma adjust_pos_ok t pos b : sound t → boundary (text t) pos → boundary (text t) (adjust_pos_out_of_elements t pos b).
Proof.
  intros Hs Hb. unfold adjust_pos_out_of_elements. destruct (find_element_containing t pos) as [e|] eqn:Hf; [|done].
  apply find_element_Some in Hf as [He _]. destruct (elements_ok_elem _ _ _ (sound_elements _ Hs) He) as (? & ? & _). by destruct b.
Qed.
Lemma beginning_of_previous_word_ok t : sound t → ∃ b, beginning_of_previous_word t = Some b ∧ boundary (text t) b ∧ b <= cursor_pos t.
Proof.
  intros Hs. unfold beginning_of_previous_word. destruct (slice_to_is_Some _ _ (sound_cursor _ Hs)) as (prefix & suffix & -> & Ht & Hcur). cbn.
  assert (∀ b, boundary prefix b → boundary (text t) b ∧ b <= cursor_pos t) as Hin
    by (intros b Hb; rewrite -Hcur Ht; split; [by apply boundary_app_l|by apply boundary_le]).
  destruct (rfind_char not_whitespace prefix) as [[i ch]|] eqn:Hr; [|eexists; split; [done|apply Hin, boundary_0]].
  apply rfind_char_Some in Hr as (u & v & -> & Hu & _). rewrite (proj2 (slice_to_Some _ i u)); [by exists (ch :: v)|]. cbn.
  set (rs := match rfind_char is_whitespace u with Some (idx, ws) => idx + utf8_width ws | None => 0 end).
  assert (boundary u rs) as Hrs.
  { subst rs. destruct (rfind_char is_whitespace u) as [[j ws]|] eqn:Hw; [|apply boundary_0].
    apply rfind_char_Some in Hw as (x & y & -> & <- & _). exists (x ++ [ws]), y. rewrite -app_assoc str_len_app /=. split; [done|lia]. }
  clearbody rs. destruct Hrs as (x & y & -> & <-). rewrite str_len_app in Hu.
  assert (slice ((x ++ y) ++ ch :: v) (str_len x) (i + utf8_width ch) = Some (y ++ [ch])) as ->.
  { apply slice_Some. exists x, v. rewrite -!app_assoc str_len_app /= -Hu. split_and!; [done..|lia]. }
  cbn. set (run := y ++ [ch]). assert ((x ++ y) ++ ch :: v = x ++ run ++ v) as Hp by (subst run; by rewrite -!app_assoc). rewrite Hp in Hin.
  pose proof (split_word_pieces_ok run) as Hps. destruct (reverse (split_word_pieces run)) as [|[j p] ps] eqn:Hrev.
  { eexists. split; [done|]. apply Hin, boundary_mid. }
  assert (Forall (piece_of run) ((j, p) :: ps)) as [Hpc Hrest]%Forall_cons by (rewrite -Hrev; by apply Forall_reverse).
  apply (piece_of_boundaries x run v) in Hpc as [Hpc _]. eexists. split; [done|]. set (start := if all_separators p then _ else _).
  assert (boundary (x ++ run ++ v) start) as [Hb Hle]%Hin by (subst start; case_match; [by apply separators_start_ok|done]).
  split; [by apply adjust_pos_ok|]. unfold adjust_pos_out_of_elements. destruct (find_element_containing t start) as [e|] eqn:Hf; [|done].
  apply find_element_Some in Hf as [_ Hc%contains_pos_true]. lia.
Qed.
Lemma end_of_next_word_ok t : sound t → ∃ b, end_of_next_word t = Some b ∧ boundary (text t) b.
Proof.
  intros Hs. unfold end_of_next_word. destruct (slice_from_is_Some _ _ (sound_cursor _ Hs)) as (prefix & suffix & -> & Ht & Hc). cbn.
  destruct (find_char not_whitespace suffix) as [[i ch]|] eqn:Hr; [|eexists; split; [done|apply boundary_end]].
  apply find_char_Some in Hr as (u & v & -> & Hu & _). rewrite (proj2 (slice_from_Some _ i (ch :: v))); [by exists u|]. cbn [mbind option_bind].
  set (re := match find_char is_whitespace (ch :: v) with Some (idx, _) => idx | None => str_len (ch :: v) end).
  assert (boundary (ch :: v) re) as Hre.
  { subst re. destruct (find_char is_whitespace (ch :: v)) as [[j ws]|] eqn:Hw; [|apply boundary_end].
    apply find_char_Some in Hw as (x & y & -> & <- & _). apply boundary_mid. }
  clearbody re. destruct Hre as (run & y & Hv & <-). rewrite Hv (proj2 (slice_to_Some _ (str_len run) run)); [by exists y|].
  cbn -[split_word_pieces]. assert (text t = (prefix ++ u) ++ run ++ y) as Htext by (by rewrite Ht Hv -!app_assoc).
  assert (cursor_pos t + i = str_len (prefix ++ u)) as -> by (rewrite str_len_app; lia).
  pose proof (split_word_pieces_ok run) as Hps. destruct (split_word_pieces run) as [|[j p] ps].
  { eexists. split; [done|]. rewrite Htext. apply boundary_mid. }
  apply Forall_cons in Hps as [Hp Hrest]. eexists. split; [done|]. apply adjust_pos_ok; [done|]. rewrite Htext.
  apply (piece_of_boundaries (prefix ++ u) run y) in Hp as [_ Hp]. case_match; [by apply separators_end_ok|done].
Qed.
Lemma delete_backward_word_good t : sound t → good t (delete_backward_word t).
Proof.
  intros Hs. unfold delete_backward_word. destruct (beginning_of_previous_word_ok t Hs) as (b & -> & Hb & _).
  by apply kill_range_good; [|done|apply Hs].
Qed.
Lemma delete_forward_word_good t : sound t → good t (delete_forward_word t).
Proof.
  intros Hs. unfold delete_forward_word. destruct (end_of_next_word_ok t Hs) as (b & -> & Hb). cbn.
  case_match; [|by apply good_same]. by apply kill_range_good; [|apply Hs|].
Qed.
Lemma move_to_previous_word_good t : sound t → good t (move_to_previous_word t).
Proof.
  intros Hs. unfold move_to_previous_word. destruct (beginning_of_previous_word_ok t Hs) as (b & -> & _). by apply good_free, set_cursor_ok.
Qed.
Lemma move_to_next_word_good t : sound t → good t (move_to_next_word t).
Proof.
  intros Hs. unfold move_to_next_word. destruct (end_of_next_word_ok t Hs) as (b & -> & _). by apply good_free, set_cursor_ok.
Qed.
End proofs.
