(* ===== verification/TextElements.v ===== *)
(** What is proved of the text area ([TextArea]): no operation panics, the cursor
    and the elements stay on character boundaries and the elements apart, keys
    leave the elements they do not remove as they are, what is killed can be yanked
    back, and the cursor stays on the screen. *)
From S2P Require Import Prelude TextArea TextEdits TextAreaProofs.
From Stdlib Require Import Lia.

(** An operation that succeeds on a sound text area and keeps the cursor out of the
    elements. *)
Definition fine `{Segmentation} (t : TextArea) (r : option TextArea) : Prop :=
  ∃ t', r = Some t' ∧ sound t' ∧ (cursor_free t → cursor_free t').

Section proofs.
Context `{SegmentationOk}.

Lemma good_fine t r : good t r → fine t r.
Proof. intros (t' & ? & ? & ? & _). by exists t'. Qed.

(** ** Keys *)

Lemma input_char_good windows c mods t : sound t → good t (input_char windows c mods t).
Proof.
  intros Hs. unfold input_char. repeat case_match;
    auto using good_same, move_cursor_left_good, move_cursor_right_good, move_cursor_up_good, move_cursor_down_good, insert_str_good,
      delete_backward_word_good, delete_backward_good, delete_forward_word_good, delete_forward_good, move_to_previous_word_good,
      move_to_next_word_good, kill_to_beginning_of_line_good, kill_to_end_of_line_good, yank_good,
      move_cursor_to_beginning_of_line_good, move_cursor_to_end_of_line_good.
Qed.
Lemma input_good windows ev t : sound t → good t (input windows ev t).
Proof.
  intros Hs. unfold input. repeat case_match;
    auto using good_same, input_char_good, move_cursor_left_good, move_cursor_right_good, move_cursor_up_good, move_cursor_down_good,
      insert_str_good, delete_backward_word_good, delete_backward_good, delete_forward_word_good, delete_forward_good,
      move_to_previous_word_good, move_to_next_word_good, move_cursor_to_beginning_of_line_good, move_cursor_to_end_of_line_good.
Qed.

(** ** New and fewer elements *)

Lemma sort_elements_ok t : sound t → sound (sort_elements t) ∧ (cursor_free t → cursor_free (sort_elements t)).
Proof.
  intros [Hcur Hok Hc]. split; [split; [done|by apply elements_ok_sort|done]|]. unfold cursor_free. rewrite !free_spec. intros Hf e He.
  apply Hf. by rewrite -(sort_by_perm (λ a b, Nat.leb (el_start a) (el_start b)) (text_elements t)).
Qed.
Lemma filter_elements_ok f t : sound t →
  sound (set_elements (List.filter f (text_elements t)) t) ∧ (cursor_free t → cursor_free (set_elements (List.filter f (text_elements t)) t)).
Proof.
  intros [Hcur Hok Hc]. split; [split; [done|by apply elements_ok_filter|done]|]. unfold cursor_free. rewrite !free_spec. intros Hf e He.
  apply Hf. apply list_elem_of_In in He. apply filter_In in He as [He _]. by apply list_elem_of_In.
Qed.
Lemma add_element_ok r name t : sound t → boundary (text t) r.1 → boundary (text t) r.2 → r.1 <= r.2 →
  Forall (λ e, el_end e <= r.1 ∨ r.2 <= el_start e) (text_elements t) →
  let t' := (add_element_with_id r name t).2 in
  sound t' ∧ text t' = text t ∧ (cursor_free t → (r.1 < cursor_pos t < r.2 → False) → cursor_free t').
Proof.
  intros [Hcur Hok Hc] H1 H2 Hle Ha. cbn. set (e := MkElement (next_element_id t) r.1 r.2 name).
  assert (elements_ok (text t) (text_elements t ++ [e])) as Hok'.
  { apply elements_ok_snoc; [done|by split_and!|]. eapply Forall_impl; [exact Ha|]. unfold apart. cbn. intros e' [?|?]; [by right|by left]. }
  destruct (sort_elements_ok (set_elements (text_elements t ++ [e]) (take_element_id t).2)) as [Hs Hf]; [by split|].
  split; [exact Hs|]. split; [done|]. intros Hfree Hout. apply Hf. unfold cursor_free in *. rewrite -> free_spec in Hfree |- *. cbn.
  intros e' [He|He%list_elem_of_singleton]%elem_of_app; [by apply Hfree|]. by subst e'.
Qed.
(** What is left of the elements is apart from what was put in. *)
Lemma left_over_clear a x y es : Forall (λ e, el_start e <= el_end e) es →
  Forall (λ e, taken (str_len a) (str_len a + str_len x) e = true ∨ clear_of (str_len a) (str_len a + str_len x) e) es →
  Forall (λ e, el_end e <= str_len a ∨ str_len a + str_len y <= el_start e) (left_over a x y es).
Proof.
  intros Hle Hc. unfold left_over. apply Forall_fmap, Forall_forall. intros e He.
  apply list_elem_of_In, filter_In in He as [He%list_elem_of_In Ht%negb_true_iff]. rewrite Forall_forall in Hle. rewrite Forall_forall in Hc.
  specialize (Hle e He). destruct (Hc e He) as [|Hcl]; [congruence|]. cbn. destruct (decide (el_end e <= str_len a)).
  - rewrite shift_before //. by left.
  - destruct Hcl as [|Hcl]; [done|]. rewrite shift_after //. cbn. lia.
Qed.
Lemma elements_forward t : sound t → Forall (λ e, el_start e <= el_end e) (text_elements t).
Proof. intros Hs. eapply Forall_impl; [apply Hs|]. by intros e (_ & _ & ?). Qed.

Lemma insert_element_fine s name t : sound t → fine t (snd <$> insert_element_with s name t).
Proof.
  intros Hs. unfold insert_element_with, clamp_pos_for_insertion. set (start := clamp_pos_to_nearest_boundary t (cursor_pos t)).
  destruct (clamp_nearest_spec t (cursor_pos t) (sound_elements _ Hs)) as [Hb Hf]. fold start in Hb, Hf.
  destruct (insert_str_at_good start s t Hs) as (t1 & Hi & Hs1 & _).
  destruct (insert_str_at_edit start s t Hs) as (t1' & a & b & Hi' & (Ht & Ht1 & He & _) & Ha & _). rewrite Hi in Hi'. injection Hi' as <-.
  rewrite clamp_nearest_id // in Ha. rewrite Hi. cbn [mbind option_bind fmap option_fmap option_map]. rewrite -Ha in Hf |- *.
  assert (Forall (λ e, el_end e <= str_len a ∨ str_len a + str_len s <= el_start e) (text_elements t1)) as Hclear.
  { rewrite He. apply left_over_clear; [by apply elements_forward|]. apply (closed_taken_or_clear _ (str_len a, str_len a + str_len [])).
    by apply point_closed. }
  destruct (add_element_ok (str_len a, str_len a + str_len s) name t1) as [Hs2 _]; try done; cbn.
  - rewrite Ht1. apply boundary_mid.
  - rewrite Ht1 app_assoc -str_len_app. apply boundary_mid.
  - lia.
  - eexists. split; [reflexivity|]. destruct (set_cursor_ok (str_len a + str_len s) _ Hs2). by split.
Qed.

(** ** Named elements *)

(** The cursor follows an edit to a boundary, out of the elements that are left and
    out of what was put in. *)
Lemma edited_cursor_ok t a x y b pos : text t = a ++ x ++ b → elements_ok (text t) (text_elements t) → boundary (text t) pos → free t pos →
  closed_range (text_elements t) (str_len a, str_len a + str_len x) →
  let p := edited_cursor (str_len a) (str_len a + str_len x) (str_len y) pos in
  boundary (a ++ y ++ b) p ∧ (∀ e, e ∈ left_over a x y (text_elements t) → ¬ el_start e < p < el_end e) ∧
  ¬ str_len a < p < str_len a + str_len y.
Proof.
  intros Ht [Hok _] Hb Hf Hc%closed_taken_or_clear. rewrite Ht in Hb Hok. unfold edited_cursor. split_and!.
  - destruct (Nat.ltb_spec pos (str_len a)); [apply (edit_boundary_before a x y b); [done|lia]|].
    destruct (Nat.leb_spec pos (str_len a + str_len x)).
    + rewrite app_assoc -str_len_app. apply boundary_mid.
    + pose proof (edit_boundary_after a x y b pos Hb) as Hx. replace (pos + str_len y - (str_len a + str_len x - str_len a))
        with (pos + str_len y - str_len x) by lia. apply Hx. lia.
  - intros e' He'. unfold left_over in He'. apply list_elem_of_fmap in He' as (e & -> & He).
    apply list_elem_of_In, filter_In in He as [He%list_elem_of_In Htk%negb_true_iff].
    rewrite Forall_forall in Hok. rewrite Forall_forall in Hc. destruct (Hok e He) as (_ & _ & Hle).
    destruct (Hc e He) as [Hx|Hcl]; [cbn in Hx; congruence|]. cbn in Hcl. rewrite free_spec in Hf. specialize (Hf e He).
    destruct (decide (el_end e <= str_len a)).
    + rewrite shift_before //. destruct (Nat.ltb_spec pos (str_len a)); [done|]. destruct (Nat.leb_spec pos (str_len a + str_len x)); lia.
    + destruct Hcl as [|Hcl]; [done|]. rewrite shift_after //. cbn [el_start el_end].
      destruct (Nat.ltb_spec pos (str_len a)); [lia|]. destruct (Nat.leb_spec pos (str_len a + str_len x)); lia.
  - destruct (Nat.ltb_spec pos (str_len a)); [lia|]. destruct (Nat.leb_spec pos (str_len a + str_len x)); lia.
Qed.
(** An element is a range that takes in no other. *)
Lemma element_closed t e : sound t → e ∈ text_elements t → closed_range (text_elements t) (el_start e, el_end e).
Proof.
  intros Hs He e' He' Hi. unfold intersects in Hi. cbn in Hi. apply andb_true_iff in Hi as [H1%Nat.ltb_lt H2%Nat.ltb_lt].
  destruct (StronglySorted_pair apart _ e e' (proj2 (sound_elements _ Hs)) He He') as [<-|Ha]; [|unfold apart in Ha; lia].
  unfold inside. cbn. by rewrite !Nat.leb_refl.
Qed.
Lemma replace_element_by_id_fine id s t : sound t → fine t (snd <$> replace_element_by_id id s t).
Proof.
  intros Hs. unfold replace_element_by_id. destruct (find_element (is_named id) t) as [e|] eqn:Hf; [|by apply good_fine, good_same].
  apply find_element_Some in Hf as [He _]. destruct (elements_ok_elem _ _ _ (sound_elements _ Hs) He) as (H1 & H2 & Hle).
  destruct (replace_range_raw_good (el_start e, el_end e) s t) as (t' & -> & Hs' & Hf' & _); try done; [by apply element_closed|]. cbn.
  destruct (filter_elements_ok (λ e, negb (is_named id e)) t' Hs') as [Hs2 Hf2]. eexists. split; [reflexivity|]. split; [done|]. auto.
Qed.
Lemma update_named_element_fine id s t : sound t → cursor_free t → fine t (snd <$> update_named_element_by_id id s t).
Proof.
  intros Hs Hfree. unfold update_named_element_by_id.
  destruct (find_element (is_named id) t) as [e|] eqn:Hf; [|by apply good_fine, good_same].
  apply find_element_Some in Hf as [He _]. destruct (elements_ok_elem _ _ _ (sound_elements _ Hs) He) as (H1 & H2 & Hle).
  pose proof (element_closed t e Hs He) as Hc.
  destruct (replace_range_raw_edit (el_start e, el_end e) s t Hs H1 H2 Hle Hc) as (t1 & a & x & b & -> & Ht & Ha & Hx & Hs1 & _ & Ht1 & Hd).
  cbn [mbind option_bind fmap option_fmap option_map fst snd] in *. rewrite -?Ha -?Hx in Hc Hd |- *.
  destruct (add_element_ok (str_len a, str_len a + str_len s) (Some id) t1 Hs1) as (Hs2 & _ & Hfree2); cbn.
  - rewrite Ht1. apply boundary_mid.
  - rewrite Ht1 app_assoc -str_len_app. apply boundary_mid.
  - lia.
  - destruct Hd as [(-> & -> & ->)|((_ & _ & -> & _) & _)].
    + cbn in *. apply Forall_forall. intros e' He'. destruct (StronglySorted_pair apart _ e e' (proj2 (sound_elements _ Hs)) He He') as [<-|Hap].
      * lia.
      * unfold apart in Hap. lia.
    + apply left_over_clear; [by apply elements_forward|]. by apply (closed_taken_or_clear _ (str_len a, str_len a + str_len x)).
  - eexists. split; [reflexivity|]. split; [exact Hs2|]. intros _. apply Hfree2.
    + by destruct Hd as [(_ & _ & ->)|(_ & ? & _)].
    + cbn. destruct Hd as [(-> & -> & ->)|((_ & Ht' & He' & _) & Hf' & Hp)]; [cbn; lia|].
      destruct (edited_cursor_ok t a x s b (cursor_pos t) Ht (sound_elements _ Hs) (sound_cursor _ Hs) Hfree Hc) as (Hb & Hl & Hout).
      rewrite Hp clamp_nearest_id; [by rewrite Ht'|apply free_spec; by rewrite He'|lia].
Qed.

(** ** Ranges that become elements, and elements that become text *)

Lemma add_element_range_sound r t : sound t → sound (add_element_range r t).2 ∧
  (cursor_free t → (r.1 < cursor_pos t < r.2 → False) → boundary (text t) r.1 → boundary (text t) r.2 → cursor_free (add_element_range r t).2).
Proof.
  intros Hs. unfold add_element_range. set (i := clamp_pos_to_char_boundary t (Nat.min r.1 (text_len t))). set (j := clamp_pos_to_char_boundary t (Nat.min r.2 (text_len t))).
  assert (boundary (text t) i ∧ boundary (text t) j) as [Hi Hj] by (split; apply clamp_char_boundary).
  destruct (Nat.leb_spec j i) as [|Hlt]; [done|]. destruct (existsb _ _); [done|].
  destruct (existsb _ _) eqn:Ho; [done|].
  destruct (add_element_ok (i, j) None t Hs) as (Hs' & _ & Hf); cbn; try done; [lia| |].
  - apply Forall_forall. intros e He. apply not_true_iff_false in Ho. rewrite existsb_exists in Ho.
    destruct (decide (i < el_end e ∧ el_start e < j)) as [[H1 H2]|]; [|lia]. exfalso. apply Ho. exists e. split; [by apply list_elem_of_In|].
    apply andb_true_iff. by rewrite !Nat.ltb_lt.
  - split; [exact Hs'|]. intros Hfree Hout H1 H2. apply Hf; [done|]. pose proof (boundary_le _ _ H1). pose proof (boundary_le _ _ H2).
    subst i j. cbn. unfold text_len. rewrite !Nat.min_l // !clamp_char_id //.
Qed.
Lemma remove_element_range_fine r t : sound t → fine t (Some (remove_element_range r t).2).
Proof.
  intros Hs. unfold remove_element_range. case_match; [by apply good_fine, good_same|]. eexists. split; [reflexivity|].
  by apply filter_elements_ok.
Qed.

(** ** A payload that changes *)

Lemma index_of_split {A} (f : A → bool) l i : index_of f l = Some i → ∃ l1 x l2, l = l1 ++ x :: l2 ∧ length l1 = i ∧ f x = true.
Proof.
  revert i. induction l as [|x l IH]; intros i; cbn; [done|]. destruct (f x) eqn:Hf; [intros [= <-]; by exists [], x, l|].
  destruct (index_of f l) as [j|]; [|done]. cbn. intros [= <-]. destruct (IH j eq_refl) as (l1 & y & l2 & -> & <- & Hy). by exists (x :: l1), y, l2.
Qed.
(** All but one of a list are mapped. *)
Lemma imap_but_one {A B} (f : A → B) (g : B) l1 x l2 :
  imap (λ j e, if Nat.eqb j (length l1) then g else f e) (l1 ++ x :: l2) = (f <$> l1) ++ g :: (f <$> l2).
Proof.
  rewrite imap_app. cbn. rewrite Nat.add_0_r Nat.eqb_refl. f_equal; [|f_equal].
  - rewrite -(imap_const f l1). apply imap_ext. intros i y Hi%lookup_lt_Some. by rewrite (proj2 (Nat.eqb_neq _ _)); [lia|].
  - rewrite -(imap_const f l2). apply imap_ext. intros i y _. cbn. by rewrite (proj2 (Nat.eqb_neq _ _)); [lia|].
Qed.
Lemma follow_cases start removed inserted e : clear_of start (start + removed) e →
  (el_end e <= start ∧ follow_payload start (start + removed) inserted e = e) ∨
  (start + removed <= el_start e ∧ follow_payload start (start + removed) inserted e
     = MkElement (el_id e) (el_start e + inserted - removed) (el_end e + inserted - removed) (el_name e)).
Proof.
  intros Hc. unfold follow_payload. replace (start + removed - start) with removed by lia.
  destruct (decide (el_end e <= start)) as [Hle|Hle].
  - left. split; [done|]. case_match; [done|]. by rewrite (proj2 (Nat.leb_le _ _) Hle).
  - destruct Hc as [|Hc]; [done|]. right. split; [done|]. destruct (Nat.eqb_spec inserted removed) as [->|].
    + destruct e. cbn. f_equal; lia.
    + rewrite (proj2 (Nat.leb_gt _ _)); [lia|]. by rewrite (proj2 (Nat.leb_le _ _) Hc).
Qed.
Lemma follow_elements_ok a x y b id name es : elements_ok (a ++ x ++ b) es →
  Forall (clear_of (str_len a) (str_len a + str_len x)) es →
  elements_ok (a ++ y ++ b) (MkElement id (str_len a) (str_len a + str_len y) name :: (follow_payload (str_len a) (str_len a + str_len x) (str_len y) <$> es)).
Proof.
  intros [Hok Hap] Hc. assert (Forall (λ e, element_ok (a ++ x ++ b) e ∧ clear_of (str_len a) (str_len a + str_len x) e) es) as Hes
    by (by apply Forall_and). clear Hok Hc. split; constructor.
  - split_and!; cbn; [apply boundary_mid|rewrite app_assoc -str_len_app; apply boundary_mid|lia].
  - apply Forall_fmap. eapply Forall_impl; [exact Hes|]. intros e [(H1 & H2 & Hle) Hc]. cbn.
    destruct (follow_cases _ _ (str_len y) _ Hc) as [[Hcl ->]|[Hcl ->]]; split_and!; cbn; try lia; try done;
      first [by apply (edit_boundary_after a x y b); [|lia]|apply (edit_boundary_before a x y b); [done|lia]].
  - induction Hap as [|e es Hap IH Hf]; [constructor|]. apply Forall_cons in Hes as [[(_ & _ & Hle) Hc] Hes]. cbn. constructor; [by apply IH|].
    apply Forall_fmap, Forall_forall. intros e' He'. rewrite Forall_forall in Hf. rewrite Forall_forall in Hes.
    specialize (Hf e' He'). destruct (Hes e' He') as [(_ & _ & Hle') Hc']. cbn. unfold apart in *.
    destruct (follow_cases _ _ (str_len y) _ Hc) as [[Hcl ->]|[Hcl ->]], (follow_cases _ _ (str_len y) _ Hc') as [[Hcl' ->]|[Hcl' ->]]; cbn; lia.
  - apply Forall_fmap. eapply Forall_impl; [exact Hes|]. intros e [(H1 & H2 & Hle) Hc]. unfold apart. cbn.
    destruct (follow_cases _ _ (str_len y) _ Hc) as [[Hcl ->]|[Hcl ->]]; cbn; lia.
Qed.
Lemma replace_element_payload_fine old new t : sound t → fine t (snd <$> replace_element_payload old new t).
Proof.
  intros Hs. unfold replace_element_payload. destruct (index_of _ _) as [i|] eqn:Hi; [|by apply good_fine, good_same].
  apply index_of_split in Hi as (l1 & e & l2 & Hes & <- & Hp%bool_decide_eq_true). unfold payload in Hp.
  apply slice_Some in Hp as (a & b & Ht & Ha & Hx). rewrite Hes list_lookup_middle //. cbn [mbind option_bind]. rewrite -Hx -Ha.
  assert (Nat.ltb (str_len a + str_len old) (str_len a) || Nat.ltb (text_len t) (str_len a + str_len old) = false) as ->
    by (apply orb_false_iff; rewrite !Nat.ltb_ge; unfold text_len; rewrite Ht !str_len_app; lia).
  rewrite Ht replace_at_split. cbn [mbind option_bind fmap option_fmap option_map snd]. rewrite imap_but_one.
  set (es := (follow_payload _ _ _ <$> l1) ++ _). destruct Hs as [Hcur [Hok Hap] Hc]. rewrite Hes in Hok, Hap.
  assert (l1 ++ e :: l2 ≡ₚ e :: (l1 ++ l2)) as Hperm by (symmetry; apply Permutation_middle).
  pose proof (StronglySorted_perm apart _ _ Hperm Hap) as Hap'. inversion Hap' as [|? ? Hrest Hfe]; subst. rewrite Hperm in Hok.
  apply Forall_cons in Hok as [He Hok].
  assert (elements_ok (a ++ new ++ b) es) as Hes'.
  { destruct (follow_elements_ok a old new b (el_id e) (el_name e) (l1 ++ l2)) as [Ho1 Ho2].
    - rewrite -Ht. by split.
    - eapply Forall_impl; [exact Hfe|]. unfold apart, clear_of. rewrite Ha Hx. tauto.
    - assert (es ≡ₚ MkElement (el_id e) (str_len a) (str_len a + str_len new) (el_name e) ::
        (follow_payload (str_len a) (str_len a + str_len old) (str_len new) <$> l1 ++ l2)) as Hpe
        by (subst es; rewrite fmap_app; symmetry; apply Permutation_middle).
      split; [by rewrite Hpe|]. apply (StronglySorted_perm apart _ _ (symmetry Hpe) Ho2). }
  set (t1 := set_cursor_pos _ _). destruct (clamp_cursor_ok t1) as [Hs1 Hf1]; [done|by apply no_cache|].
  destruct (sort_elements_ok _ Hs1) as [Hs2 Hf2]. eexists. split; [reflexivity|]. split; [done|]. auto.
Qed.

(** ** A new text *)

Definition range_apart (r1 r2 : Range) : Prop := r1.2 <= r2.1 ∨ r2.2 <= r1.1.
(** Ranges of a text that may become its elements. *)
Definition ranges_ok (s : str) (ranges : list Range) : Prop :=
  Forall (λ r, boundary s r.1 ∧ boundary s r.2) ranges ∧ StronglySorted range_apart ranges.
Lemma place_element_cases t r : boundary (text t) r.1 → boundary (text t) r.2 →
  place_element t r = t ∨
  r.1 < r.2 ∧ text (place_element t r) = text t ∧ wrap_cache (place_element t r) = wrap_cache t ∧
  text_elements (place_element t r) = text_elements t ++ [MkElement (next_element_id t) r.1 r.2 None].
Proof.
  intros H1 H2. pose proof (boundary_le _ _ H1). pose proof (boundary_le _ _ H2). unfold place_element, text_len.
  rewrite !Nat.min_l // !clamp_char_id //. destruct (Nat.leb_spec r.2 r.1) as [Hle|Hlt]; [by left|]. right. split_and!; done.
Qed.
Lemma place_elements_ok ranges t : elements_ok (text t) (text_elements t) → ranges_ok (text t) ranges →
  Forall (λ e, Forall (range_apart (el_start e, el_end e)) ranges) (text_elements t) →
  let t' := foldl place_element t ranges in text t' = text t ∧ wrap_cache t' = wrap_cache t ∧ elements_ok (text t') (text_elements t').
Proof.
  revert t. induction ranges as [|r ranges IH]; intros t Hok [Hb Hap] Hes; [done|].
  apply Forall_cons in Hb as [[H1 H2] Hb]. inversion Hap as [|? ? Hap' Hr]; subst. cbn [foldl].
  assert (Forall (λ e, Forall (range_apart (el_start e, el_end e)) ranges) (text_elements t)) as Hes'.
  { eapply Forall_impl; [exact Hes|]. by intros e [_ ?]%Forall_cons. }
  destruct (place_element_cases t r H1 H2) as [-> | (Hlt & Ht & Hw & He)]; [by apply IH|]. rewrite -Hw. rewrite -Ht in Hok H1 H2 Hb |- *.
  apply IH; rewrite ?He; [|by split|].
  - apply elements_ok_snoc; [done|split_and!; [done..|cbn; lia]|]. eapply Forall_impl; [exact Hes|].
    intros e [Ha _]%Forall_cons. unfold apart, range_apart in *. cbn in *. tauto.
  - apply Forall_app. split; [done|]. constructor; [|done]. cbn. eapply Forall_impl; [exact Hr|]. unfold range_apart. cbn. tauto.
Qed.
Lemma set_text_inner_ok s ranges t : ranges_ok s (unwrap_or [] ranges) →
  let t' := set_text_inner s ranges t in sound t' ∧ cursor_free t'.
Proof.
  intros Hr. unfold set_text_inner. set (t1 := set_elements [] _). assert (elements_ok (text t1) (text_elements t1)) as Hok by (split; constructor).
  destruct ranges as [ranges|]; [|by apply clamp_cursor_ok; [|apply no_cache]].
  destruct (place_elements_ok ranges t1 Hok Hr) as (Ht & Hc & Hok'); [constructor|].
  apply clamp_cursor_ok; [|by apply no_cache]. by apply elements_ok_sort.
Qed.
End proofs.
