(* ===== verification/TextComposer.v ===== *)
(** The theorems about the text area ([TextArea]), and a segmentation for which
    they are evaluated: a character is a grapheme and a word, and no line is
    wrapped. *)
From S2P Require Import Prelude TextArea TextEdits TextAreaProofs TextElements.
From Stdlib Require Import Lia.

(** ** Calls *)

(** What the composer calls. *)
Inductive TextOp :=
  | OpInput (windows : bool) (event : KeyEvent)
  | OpInsertStrAt (pos : nat) (s : str)
  | OpReplaceRange (range : Range) (s : str)
  | OpSetText (s : str)
  | OpSetTextWithElements (s : str) (ranges : list Range)
  | OpSetCursor (pos : nat)
  | OpWrappedLines (width : nat)
  | OpInsertElement (s : str)
  | OpInsertNamed (s id : str)
  | OpReplaceById (id s : str)
  | OpUpdateNamed (id s : str)
  | OpAddRange (range : Range)
  | OpRemoveRange (range : Range)
  | OpReplacePayload (old new : str).

Definition run_op `{Segmentation} (op : TextOp) (t : TextArea) : option TextArea :=
  match op with
  | OpInput windows event => input windows event t
  | OpInsertStrAt pos s => insert_str_at pos s t
  | OpReplaceRange range s => replace_range range s t
  | OpSetText s => Some (set_text_clearing_elements s t)
  | OpSetTextWithElements s ranges => Some (set_text_with_elements s ranges t)
  | OpSetCursor pos => Some (set_cursor pos t)
  | OpWrappedLines width => snd <$> wrapped_lines width t
  | OpInsertElement s => snd <$> insert_element s t
  | OpInsertNamed s id => insert_named_element s id t
  | OpReplaceById id s => snd <$> replace_element_by_id id s t
  | OpUpdateNamed id s => snd <$> update_named_element_by_id id s t
  | OpAddRange range => Some (add_element_range range t).2
  | OpRemoveRange range => Some (remove_element_range range t).2
  | OpReplacePayload old new => snd <$> replace_element_payload old new t
  end.
(** What a caller has to see to: ranges of bytes are ranges of characters, elements
    that come with a text do not overlap, and the cursor is not within what becomes
    an element. *)
Definition allowed (op : TextOp) (t : TextArea) : Prop :=
  match op with
  | OpReplaceRange range _ => boundary (text t) range.1 ∧ boundary (text t) range.2 ∧ range.1 <= range.2
  | OpSetTextWithElements s ranges => ranges_ok s ranges
  | OpAddRange range => boundary (text t) range.1 ∧ boundary (text t) range.2 ∧ ¬ range.1 < cursor_pos t < range.2
  | _ => True
  end.
Fixpoint run_ops `{Segmentation} (ops : list TextOp) (t : TextArea) : option TextArea :=
  match ops with [] => Some t | op :: ops => t' ← run_op op t; run_ops ops t' end.
Fixpoint all_allowed `{Segmentation} (ops : list TextOp) (t : TextArea) : Prop :=
  match ops with [] => True | op :: ops => allowed op t ∧ match run_op op t with Some t' => all_allowed ops t' | None => True end end.

Inductive Kill := KillToEndOfLine | KillToBeginningOfLine | KillPreviousWord | KillNextWord.
Definition run_kill `{Segmentation} (k : Kill) (t : TextArea) : option TextArea :=
  match k with
  | KillToEndOfLine => kill_to_end_of_line t
  | KillToBeginningOfLine => kill_to_beginning_of_line t
  | KillPreviousWord => delete_backward_word t
  | KillNextWord => delete_forward_word t
  end.

(** The elements that are left are as they were, in the same order. *)
Definition keeps_elements (t t' : TextArea) : Prop := sublist (views t') (views t).
(** A line is among those that are shown. *)
Definition is_shown (first height line : nat) : Prop := first <= line < first + height.

(** ** A segmentation *)

Fixpoint chars_from (i : nat) (s : str) : list (nat * str) :=
  match s with [] => [] | c :: r => (i, [c]) :: chars_from (i + utf8_width c) r end.
#[local] Instance by_characters : Segmentation := {
  prev_boundary s pos := match pos with O => None | S p => Some (boundary_before s p) end;
  next_boundary s pos := if Nat.ltb pos (str_len s) then Some (boundary_after s (str_len s - S pos) (S pos)) else None;
  width s := length s;
  grapheme_indices s := chars_from 0 s;
  split_word_bound_indices s := chars_from 0 s;
  textwrap _ s := [Borrowed 0 s]
}.
Lemma chars_from_ok a s i g : (i, g) ∈ chars_from (str_len a) s → ∃ u v, a ++ s = u ++ g ++ v ∧ str_len u = i.
Proof.
  revert a. induction s as [|c s IH]; intros a; cbn; [by intros ?%not_elem_of_nil|].
  intros [[= -> ->]|Hin]%elem_of_cons; [by exists a, s|].
  replace (str_len a + utf8_width c) with (str_len (a ++ [c])) in Hin by (rewrite str_len_app /=; lia).
  destruct (IH _ Hin) as (u & v & Heq & Hu). exists u, v. by rewrite -Heq -app_assoc.
Qed.
#[local] Instance by_characters_ok : SegmentationOk.
Proof.
  split; cbn -[boundary_after Nat.ltb].
  - intros s [|p] b _; [done|]. intros [= <-]. destruct (boundary_before_spec s p). split; [done|lia].
  - intros s pos b _. destruct (Nat.ltb_spec pos (str_len s)); [|done]. intros [= <-].
    destruct (boundary_after_spec s (str_len s - S pos) (S pos)); [lia|]. split; [done|lia].
  - intros s i g Hin. destruct (chars_from_ok [] s i g Hin) as (u & v & Heq & <-). cbn in Heq. subst s. apply boundary_mid.
  - intros s i g Hin. destruct (chars_from_ok [] s i g Hin) as (u & v & Heq & <-). by exists u, v.
  - intros _ s i g Hin%list_elem_of_singleton. injection Hin as -> ->. exists [], []. by rewrite app_nil_r.
Qed.

(** ** Soundness *)

Section proofs.
Context `{SegmentationOk}.

Lemma run_op_fine op t : sound t → cursor_free t → allowed op t → ∃ t', run_op op t = Some t' ∧ sound t' ∧ cursor_free t'.
Proof.
  intros Hs Hf Ha. assert (fine t (run_op op t)) as (t' & ? & ? & ?); [|by exists t'; auto].
  destruct op as [windows ev|pos s|r s|s|s ranges|pos|w|s|s id|id s|id s|range|range|old new]; cbn in *.
  - by apply good_fine, input_good.
  - by apply good_fine, insert_str_at_good.
  - destruct Ha as (? & ? & ?). by apply good_fine, replace_range_good.
  - destruct (set_text_inner_ok s None t) as [? ?]; [split; constructor|]. by eexists.
  - destruct (set_text_inner_ok s (Some ranges) t) as [? ?]; [done|]. by eexists.
  - destruct (set_cursor_ok pos t Hs) as [? ?]. by eexists.
  - destruct (wrapped_lines_good w t Hs) as (ls & t' & -> & _ & Hs' & Ht & Hc & He). exists t'. split; [done|]. split; [done|].
    unfold cursor_free, free, find_element_containing, find_element. by rewrite Hc He.
  - by apply insert_element_fine.
  - by apply insert_element_fine.
  - by apply replace_element_by_id_fine.
  - by apply update_named_element_fine.
  - destruct Ha as (? & ? & ?). destruct (add_element_range_sound range t Hs) as [? Hfree]. eexists. split; [reflexivity|]. split; [done|]. auto.
  - by apply remove_element_range_fine.
  - by apply replace_element_payload_fine.
Qed.
Lemma new_is_sound : sound TextArea_new ∧ cursor_free TextArea_new.
Proof. split; [split; [apply boundary_0|split; constructor|by apply no_cache]|done]. Qed.

(** C22. From a new text area, calls that meet what the text area asks of its callers
    never panic, whatever the keys: the cursor stays on a character boundary and out
    of the elements, the elements are ranges of characters that do not overlap, and
    the cached lines are lines of the text. *)
Theorem text_area_never_panics ops : all_allowed ops TextArea_new → ∃ t, run_ops ops TextArea_new = Some t ∧ sound t ∧ cursor_free t.
Proof.
  destruct new_is_sound as [Hs Hf]. revert Hs Hf. generalize TextArea_new. induction ops as [|op ops IH]; intros t Hs Hf; cbn; [by exists t|].
  intros [Ha Hrest]. destruct (run_op_fine op t Hs Hf Ha) as (t' & Hr & Hs' & Hf'). rewrite Hr in Hrest |- *. by apply IH.
Qed.

(** C23. A key leaves the elements that it does not remove as they are: their ids,
    names and texts, in the same order; no key makes an element or edits one in
    part. *)
Theorem keys_keep_elements_whole windows event t : sound t →
  ∃ t', input windows event t = Some t' ∧ keeps_elements t t'.
Proof. intros Hs. destruct (input_good windows event t Hs) as (t' & ? & _ & _ & ?). by exists t'. Qed.

(** ** Kill and yank *)

Lemma kill_range_around_cursor r t t1 : sound t → cursor_free t → boundary (text t) r.1 → boundary (text t) r.2 →
  r.1 <= cursor_pos t <= r.2 → kill_range r t = Some t1 →
  t1 = t ∨ ∃ a b, text t = a ++ kill_buffer t1 ++ b ∧ text t1 = a ++ b ∧ kill_buffer t1 ≠ [] ∧ cursor_pos t1 = str_len a ∧ sound t1 ∧ cursor_free t1.
Proof.
  intros Hs Hf H1 H2 Hcur. unfold kill_range. destruct (expand_spec t r) as [Hw Hc].
  destruct (expand_boundaries t r (sound_elements _ Hs) H1 H2) as [H1' H2']. set (r' := expand_range_to_element_boundaries t r) in *.
  unfold within in Hw. destruct (Nat.leb_spec r'.2 r'.1) as [|Hlt]; [intros [= ->]; by left|].
  destruct (slice (text t) r'.1 r'.2) as [m|] eqn:Hsl; [|done]. cbn [mbind option_bind]. destruct (is_empty m) eqn:Hm; [intros [= ->]; by left|].
  set (tk := set_kill_buffer m t). assert (sound tk) as Hsk by (by destruct Hs).
  destruct (replace_range_raw_edit r' [] tk Hsk H1' H2') as (t' & a & x & b & -> & Ht & Ha & Hx & Hs' & Hk & Ht' & Hd); [lia|done|].
  intros [= <-]. right. exists a, b. rewrite Hk. cbn [kill_buffer tk set_kill_buffer]. apply slice_Some in Hsl as (u & v & Htu & Hu & Hum).
  cbn in Ht. assert (u = a) as -> by (rewrite Ht in Htu; symmetry; eapply prefix_len_eq; [exact Htu|lia]).
  rewrite Ht in Htu. apply app_inv_head in Htu. assert (x = m) as -> by (eapply prefix_len_eq; [exact Htu|lia]).
  destruct Hd as [(-> & _)|((_ & _ & He & _) & Hf' & Hp)]; [done|]. split_and!; try done; [by intros ->|].
  rewrite Hp -Hx -Ha. cbn [tk set_kill_buffer cursor_pos]. rewrite -?Ha -?Hx in Hc.
  destruct (edited_cursor_ok t a m [] b (cursor_pos t) Ht (sound_elements _ Hs) (sound_cursor _ Hs) Hf) as (Hb & Hl & _).
  { rewrite Hx Ha. by destruct r'. }
  assert (edited_cursor (str_len a) (str_len a + str_len m) (str_len []) (cursor_pos t) = str_len a) as Heq.
  { unfold edited_cursor. destruct (Nat.ltb_spec (cursor_pos t) (str_len a)); [lia|].
    destruct (Nat.leb_spec (cursor_pos t) (str_len a + str_len m)); cbn; lia. }
  rewrite Heq in Hb, Hl |- *. apply clamp_nearest_id; [by rewrite Ht'|]. apply free_spec. by rewrite He.
Qed.
Lemma run_kill_range k t : sound t →
  ∃ r, boundary (text t) r.1 ∧ boundary (text t) r.2 ∧ r.1 <= cursor_pos t <= r.2 ∧ (run_kill k t = kill_range r t ∨ run_kill k t = Some t).
Proof.
  intros Hs. pose proof (sound_cursor _ Hs) as Hc. assert (run_kill k t = Some t → ∃ r, boundary (text t) r.1 ∧ boundary (text t) r.2 ∧
    r.1 <= cursor_pos t <= r.2 ∧ (run_kill k t = kill_range r t ∨ run_kill k t = Some t)) as Hnone
    by (intros ?; exists (cursor_pos t, cursor_pos t); split_and!; auto).
  destruct k; cbn [run_kill mbind option_bind] in *.
  - unfold kill_to_end_of_line, end_of_current_line in *. destruct (end_of_line_ok t _ Hc) as (eol & Heq & Hb & Hle & Hn). rewrite Heq in Hnone |- *. cbn [run_kill mbind option_bind] in *.
    destruct (Nat.eqb_spec (cursor_pos t) eol) as [<-|]; [destruct (Nat.ltb_spec (cursor_pos t) (text_len t))|].
    + exists (cursor_pos t, cursor_pos t + 1). cbn [fst snd]. split_and!; auto; lia.
    + by apply Hnone.
    + exists (cursor_pos t, eol). cbn [fst snd]. split_and!; auto.
  - unfold kill_to_beginning_of_line, beginning_of_current_line in *. destruct (beginning_of_line_ok t _ Hc) as (bol & Heq & Hb & Hle & Hn).
    rewrite Heq in Hnone |- *. cbn [run_kill mbind option_bind] in *. destruct (Nat.eqb_spec (cursor_pos t) bol) as [<-|]; [destruct (Nat.ltb_spec 0 (cursor_pos t))|].
    + exists (cursor_pos t - 1, cursor_pos t). cbn [fst snd]. split_and!; auto; lia.
    + by apply Hnone.
    + exists (bol, cursor_pos t). cbn [fst snd]. split_and!; auto.
  - unfold delete_backward_word. destruct (beginning_of_previous_word_ok t Hs) as (b & -> & Hb & Hle). exists (b, cursor_pos t). cbn [fst snd]. split_and!; auto.
  - unfold delete_forward_word in *. destruct (end_of_next_word_ok t Hs) as (b & Heq & Hb). rewrite Heq in Hnone |- *. cbn [run_kill mbind option_bind] in *.
    destruct (Nat.ltb_spec (cursor_pos t) b); [|by apply Hnone]. exists (cursor_pos t, b). cbn [fst snd]. split_and!; auto; lia.
Qed.
(** C24. What a kill command takes out of the text, yanking puts back where it was:
    the text is as before, whatever elements the killed range was widened to. *)
Theorem yank_restores_the_killed_text k t t1 : sound t → cursor_free t → run_kill k t = Some t1 → text t1 ≠ text t →
  ∃ t2, yank t1 = Some t2 ∧ text t2 = text t.
Proof.
  intros Hs Hf Hk Hne. destruct (run_kill_range k t Hs) as (r & H1 & H2 & Hcur & [Hr|Hr]); rewrite Hk in Hr; [symmetry in Hr|by injection Hr as ->].
  destruct (kill_range_around_cursor r t t1 Hs Hf H1 H2 Hcur Hr) as [->|(a & b & Ht & Ht1 & Hbuf & Hc1 & Hs1 & Hf1)]; [done|].
  unfold yank, insert_str. destruct (kill_buffer t1) as [|c x] eqn:Hkb; [done|]. cbn [is_empty].
  destruct (insert_str_at_edit (cursor_pos t1) (c :: x) t1 Hs1) as (t2 & u & v & -> & (Hu & Ht2 & _) & Hlen & _).
  exists t2. split; [done|]. rewrite clamp_nearest_id // in Hlen; [by apply (sound_cursor _ Hs1)|]. rewrite Ht1 in Hu. cbn in Hu.
  assert (a = u) as <- by (eapply prefix_len_eq; [exact Hu|lia]). apply app_inv_head in Hu as <-. by rewrite Ht2 Ht.
Qed.

(** ** The screen *)

Lemma partition_point_le pos ls : partition_point pos ls <= length ls.
Proof. induction ls as [|[i j] ls IH]; cbn; [lia|]. case_match; lia. Qed.
Lemma as_u16_small n : (Z.of_nat n < 65536)%Z → as_u16 n = n.
Proof. intros Hn. unfold as_u16. rewrite Z.mod_small; lia. Qed.
(** With fewer than 65,536 wrapped lines and some room, the line of the cursor is
    among the lines that are shown, and no room is left blank that lines could fill;
    scrolling changes only when it has to. *)
Theorem scroll_shows_the_cursor t height ls scroll :
  (Z.of_nat (length ls) < 65536)%Z → 0 < height →
  let first := effective_scroll t height ls scroll in
  let line := unwrap_or 0 (wrapped_line_index_by_start ls (cursor_pos t)) in
  is_shown first height line ∧ first <= length ls - height ∧
  (is_shown scroll height line → scroll <= length ls - height → first = scroll).
Proof.
  intros Hn Hh first line. assert (line <= length ls - 1) as Hl.
  { subst line. unfold wrapped_line_index_by_start. pose proof (partition_point_le (cursor_pos t) ls). destruct (partition_point _ _); cbn; lia. }
  subst first. unfold is_shown, effective_scroll. fold line. rewrite !as_u16_small; [lia..|].
  destruct (Nat.leb_spec (length ls) height); [lia|]. destruct (Nat.ltb_spec line (Nat.min scroll (length ls - height))); [lia|].
  destruct (Nat.leb_spec (Nat.min scroll (length ls - height) + height) line); lia.
Qed.
End proofs.

(** ** Witnesses *)

(** [see \[img\] now], with an element over [\[img\]], and the cursor at its end. *)
Definition example_area : TextArea := set_cursor 13 (set_text_with_elements (lit "see [img] now") [(4, 9)] TextArea_new).
Lemma example_area_sound : sound example_area ∧ cursor_free example_area.
Proof.
  apply set_cursor_ok. refine (proj1 (set_text_inner_ok _ (Some [(4, 9)]) _ _)). split; [|repeat constructor]. repeat constructor; cbn.
  - by exists (lit "see "), (lit "[img] now").
  - by exists (lit "see [img]"), (lit " now").
Qed.
Definition ctrl (c : char) : KeyEvent := MkKeyEvent (KeyChar c) CONTROL Press.
Definition key (k : KeyCode) : KeyEvent := MkKeyEvent k NONE Press.

Definition example_ops : list TextOp :=
  [OpInput false (key (KeyChar 233)); OpInsertElement (lit "[img]"); OpInput false (key (KeyChar 32));
   OpInput false (key KeyLeft); OpInput false (key KeyLeft); OpReplaceRange (0, 2) (lit "ab"); OpWrappedLines 3;
   OpInput false (key KeyUp); OpInput false (ctrl 107); OpInput false (ctrl 121); OpAddRange (0, 2); OpReplacePayload (lit "ab") (lit "abc")].
Example example_ops_run : (λ t, (text t, cursor_pos t, views t)) <$> run_ops example_ops TextArea_new
  = Some (lit "abc[img] ", 9, [(2%N, None, Some (lit "abc"))]).
Proof. vm_compute. reflexivity. Qed.
(** The conditions of calls, as they are checked on concrete ones. *)
Definition allowed_b (op : TextOp) (t : TextArea) : bool :=
  match op with
  | OpReplaceRange r _ => is_char_boundary (text t) r.1 && is_char_boundary (text t) r.2 && Nat.leb r.1 r.2
  | OpSetTextWithElements _ _ => false
  | OpAddRange r => is_char_boundary (text t) r.1 && is_char_boundary (text t) r.2 && negb (Nat.ltb r.1 (cursor_pos t) && Nat.ltb (cursor_pos t) r.2)
  | _ => true
  end.
Fixpoint all_allowed_b (ops : list TextOp) (t : TextArea) : bool :=
  match ops with [] => true | op :: ops => allowed_b op t && match run_op op t with Some t' => all_allowed_b ops t' | None => true end end.
Lemma all_allowed_b_spec ops t : all_allowed_b ops t = true → all_allowed ops t.
Proof.
  revert t. induction ops as [|op ops IH]; intros t; cbn [all_allowed_b all_allowed]; [done|]. intros [Ha Hr]%andb_true_iff. split.
  - destruct op; cbn -[Nat.ltb Nat.leb] in *; try done.
    + apply andb_true_iff in Ha as [[H1%is_char_boundary_spec H2%is_char_boundary_spec]%andb_true_iff Hle%Nat.leb_le]. done.
    + apply andb_true_iff in Ha as [[H1%is_char_boundary_spec H2%is_char_boundary_spec]%andb_true_iff Hc%negb_true_iff]. split_and!; [done..|].
      rewrite -!Nat.ltb_lt -andb_true_iff. congruence.
  - destruct (run_op op t); [by apply IH|done].
Qed.
Lemma text_area_never_panics_witness : all_allowed example_ops TextArea_new ∧
  ∃ t, run_ops example_ops TextArea_new = Some t ∧ sound t ∧ cursor_free t.
Proof.
  assert (all_allowed example_ops TextArea_new) as Ha by (apply all_allowed_b_spec; vm_compute; reflexivity).
  split; [exact Ha|apply (text_area_never_panics example_ops Ha)].
Defined.

(** A key on the element removes it as a whole. *)
Example left_of_the_element_backspace :
  (t ← input false (key KeyBackspace) (set_cursor 9 example_area); Some (text t, views t)) = Some (lit "see  now", []).
Proof. vm_compute. reflexivity. Qed.
Lemma keys_keep_elements_whole_witness : ∃ t', input false (key KeyBackspace) example_area = Some t' ∧ keeps_elements example_area t'.
Proof. apply (keys_keep_elements_whole false (key KeyBackspace) example_area), example_area_sound. Defined.

Lemma yank_restores_the_killed_text_witness : ∃ t1 t2, run_kill KillToBeginningOfLine example_area = Some t1 ∧ text t1 = [] ∧
  yank t1 = Some t2 ∧ text t2 = lit "see [img] now".
Proof.
  destruct example_area_sound as [Hs Hf].
  destruct (run_kill KillToBeginningOfLine example_area) as [t1|] eqn:Hk; [|vm_compute in Hk; discriminate].
  assert (text t1 = []) as Ht by (vm_compute in Hk; by injection Hk as <-).
  destruct (yank_restores_the_killed_text KillToBeginningOfLine example_area t1 Hs Hf Hk) as (t2 & Hy & Ht2); [by rewrite Ht|].
  exists t1, t2. split_and!; [done..|]. rewrite Ht2. vm_compute. reflexivity.
Defined.

Lemma scroll_shows_the_cursor_witness :
  let ls := [(0, 4); (3, 7); (6, 10); (9, 14)] in
  let first := effective_scroll example_area 2 ls 0 in
  first = 2 ∧ is_shown first 2 (unwrap_or 0 (wrapped_line_index_by_start ls (cursor_pos example_area))).
Proof.
  split; [vm_compute; reflexivity|]. apply (scroll_shows_the_cursor example_area 2 [(0, 4); (3, 7); (6, 10); (9, 14)] 0); cbn; lia.
Defined.

(** The condition on ranges that become elements matters: the composer makes one of
    [/plan] as soon as it is spelled out, also with the cursor in it, and does not
    move the cursor. What is typed next goes behind the element and the cursor
    stays within it. *)
Example typing_within_a_new_element :
  (t ← run_ops ((λ c, OpInput false (key (KeyChar c))) <$> lit "/pln ") TextArea_new;
   t ← run_ops [OpInput false (key KeyLeft); OpInput false (key KeyLeft); OpInput false (key (KeyChar 97));
                OpAddRange (0, 5); OpInput false (key (KeyChar 120)); OpInput false (key (KeyChar 121))] t;
   Some (text t, cursor_pos t, find_element_containing t (cursor_pos t))) = Some (lit "/planyx ", 4, Some (MkElement 1 0 5 None)).
Proof. vm_compute. reflexivity. Qed.
