(* ===== verification/PasteBurst.v ===== *)
(** The detection of pastes among the keys of terminals that do not mark them
    ([codex-rs/tui/src/bottom_pane/paste_burst.rs]): characters that arrive quickly
    are held or collected in a buffer, and handed over as one paste. Times are
    nanoseconds of a clock; a slice off a character boundary would panic and has no
    result. The documentation of the file asks the composer to follow a contract;
    [client_step] is that contract over a text with the cursor at its end. *)
From S2P Require Import Prelude TextArea TextEdits.
From Stdlib Require Import Lia.

(** ** The state *)

Definition from_millis (ms : N) : N := ms * 1000000.
Definition duration_since (now earlier : N) : N := now - earlier.
Definition PASTE_BURST_MIN_CHARS : N := 3.
Definition PASTE_ENTER_SUPPRESS_WINDOW : N := from_millis 120.
Definition PASTE_BURST_CHAR_INTERVAL (windows : bool) : N := if windows then from_millis 30 else from_millis 8.
Definition PASTE_BURST_ACTIVE_IDLE_TIMEOUT (windows : bool) : N := if windows then from_millis 60 else from_millis 8.

Record PasteBurst := MkPasteBurst {
  last_plain_char_time : option N;
  consecutive_plain_char_burst : N;
  burst_window_until : option N;
  buffer : str;
  active : bool;
  pending_first_char : option (char * N)
}.
Definition PasteBurst_default : PasteBurst := MkPasteBurst None 0 None [] false None.
Inductive CharDecision := BeginBuffer (retro_chars : N) | BufferAppend | RetainFirstChar | BeginBufferFromPending.
Record RetroGrab := MkRetroGrab { start_byte : nat; grabbed : str }.
Inductive FlushResult := FlushPaste (out : str) | FlushTyped (ch : char) | FlushNone.

Section burst.
Variable windows : bool.

Definition recommended_flush_delay : N := PASTE_BURST_CHAR_INTERVAL windows + from_millis 1.

Definition is_active_internal (b : PasteBurst) : bool := active b || negb (is_empty (buffer b)).
Definition is_active (b : PasteBurst) : bool := is_active_internal b || is_some_b (pending_first_char b).

(** [burst_window_until = Some(now + PASTE_ENTER_SUPPRESS_WINDOW)] *)
Definition extend_window (now : N) (b : PasteBurst) : PasteBurst :=
  MkPasteBurst (last_plain_char_time b) (consecutive_plain_char_burst b) (Some (now + PASTE_ENTER_SUPPRESS_WINDOW)%N)
    (buffer b) (active b) (pending_first_char b).
Definition set_buffer (s : str) (b : PasteBurst) : PasteBurst :=
  MkPasteBurst (last_plain_char_time b) (consecutive_plain_char_burst b) (burst_window_until b) s (active b) (pending_first_char b).
Definition set_active (a : bool) (b : PasteBurst) : PasteBurst :=
  MkPasteBurst (last_plain_char_time b) (consecutive_plain_char_burst b) (burst_window_until b) (buffer b) a (pending_first_char b).
Definition set_pending (p : option (char * N)) (b : PasteBurst) : PasteBurst :=
  MkPasteBurst (last_plain_char_time b) (consecutive_plain_char_burst b) (burst_window_until b) (buffer b) (active b) p.

Definition note_plain_char (now : N) (b : PasteBurst) : PasteBurst :=
  let quick := match last_plain_char_time b with
               | Some prev => (duration_since now prev <=? PASTE_BURST_CHAR_INTERVAL windows)%N
               | None => false
               end in
  MkPasteBurst (Some now) (if quick then N.min (consecutive_plain_char_burst b + 1) 65535 else 1%N)
    (burst_window_until b) (buffer b) (active b) (pending_first_char b).

(** What both entry points do when nothing is held. *)
Definition retro_decision (b : PasteBurst) : option CharDecision :=
  if (PASTE_BURST_MIN_CHARS <=? consecutive_plain_char_burst b)%N
  then Some (BeginBuffer (consecutive_plain_char_burst b - 1)) else None.
Definition on_plain_char (ch : char) (now : N) (b : PasteBurst) : CharDecision * PasteBurst :=
  let b := note_plain_char now b in
  if active b then (BufferAppend, extend_window now b)
  else
    let retain := match retro_decision b with
                  | Some d => (d, b)
                  | None => (RetainFirstChar, set_pending (Some (ch, now)) b)
                  end in
    match pending_first_char b with
    | Some (held, held_at) =>
        if (duration_since now held_at <=? PASTE_BURST_CHAR_INTERVAL windows)%N
        then (BeginBufferFromPending, extend_window now (set_buffer (buffer b ++ [held]) (set_pending None (set_active true b))))
        else retain
    | None => retain
    end.
Definition on_plain_char_no_hold (now : N) (b : PasteBurst) : option CharDecision * PasteBurst :=
  let b := note_plain_char now b in
  if active b then (Some BufferAppend, extend_window now b) else (retro_decision b, b).

Definition flush_if_due (now : N) (b : PasteBurst) : FlushResult * PasteBurst :=
  let timeout := if is_active_internal b then PASTE_BURST_ACTIVE_IDLE_TIMEOUT windows else PASTE_BURST_CHAR_INTERVAL windows in
  let timed_out := match last_plain_char_time b with Some t => (timeout <? duration_since now t)%N | None => false end in
  if timed_out && is_active_internal b then (FlushPaste (buffer b), set_buffer [] (set_active false b))
  else if timed_out
  then match pending_first_char b with
       | Some (ch, _) => (FlushTyped ch, set_pending None b)
       | None => (FlushNone, b)
       end
  else (FlushNone, b).

Definition append_char_to_buffer (ch : char) (now : N) (b : PasteBurst) : PasteBurst :=
  extend_window now (set_buffer (buffer b ++ [ch]) b).
Definition append_newline_if_active (now : N) (b : PasteBurst) : bool * PasteBurst :=
  if is_active b then (true, extend_window now (set_buffer (buffer b ++ [ch_nl]) b)) else (false, b).
Definition newline_should_insert_instead_of_submit (now : N) (b : PasteBurst) : bool :=
  is_active b || match burst_window_until b with Some until => (now <=? until)%N | None => false end.
Definition begin_with_retro_grabbed (grabbed : str) (now : N) (b : PasteBurst) : PasteBurst :=
  extend_window now (set_active true (if negb (is_empty grabbed) then set_buffer (buffer b ++ grabbed) b else b)).
Definition try_append_char_if_active (ch : char) (now : N) (b : PasteBurst) : bool * PasteBurst :=
  if active b || negb (is_empty (buffer b)) then (true, append_char_to_buffer ch now b) else (false, b).

Fixpoint char_indices_from (i : nat) (s : str) : list (nat * char) :=
  match s with [] => [] | c :: r => (i, c) :: char_indices_from (i + utf8_width c) r end.
Definition retro_start_index (before : str) (retro_chars : nat) : nat :=
  if Nat.eqb retro_chars 0 then str_len before
  else match reverse (char_indices_from 0 before) !! (retro_chars - 1) with Some (idx, _) => idx | None => 0 end.
Definition decide_begin_buffer (now : N) (before : str) (retro_chars : nat) (b : PasteBurst) : option (option RetroGrab * PasteBurst) :=
  let start_byte := retro_start_index before retro_chars in
  grabbed ← slice_from before start_byte;
  let looks_pastey := existsb is_whitespace grabbed || Nat.leb 16 (length grabbed) in
  if looks_pastey then Some (Some (MkRetroGrab start_byte grabbed), begin_with_retro_grabbed grabbed now b) else Some (None, b).

Definition flush_before_modified_input (b : PasteBurst) : option str * PasteBurst :=
  if negb (is_active b) then (None, b)
  else
    let held := match pending_first_char b with Some (ch, _) => [ch] | None => [] end in
    (Some (buffer b ++ held), set_pending None (set_buffer [] (set_active false b))).
Definition clear_window_after_non_char (b : PasteBurst) : PasteBurst := MkPasteBurst None 0 None (buffer b) false None.
Definition clear_after_explicit_paste (b : PasteBurst) : PasteBurst := MkPasteBurst None 0 None [] false None.

(** ** The contract of the composer *)

(** The text that is shown, and the messages that were submitted. *)
Record Client := MkClient { shown : str; submitted : list str; burst : PasteBurst }.
Inductive ClientEvent := PlainChar (ch : char) | EnterKey | OtherKey | Tick.

Definition paste (out : str) (c : Client) : Client :=
  MkClient (shown c ++ out) (submitted c) (clear_after_explicit_paste (burst c)).
Definition set_burst (b : PasteBurst) (c : Client) : Client := MkClient (shown c) (submitted c) b.
Definition type (ch : char) (c : Client) : Client := MkClient (shown c ++ [ch]) (submitted c) (burst c).
Definition flush_due (now : N) (c : Client) : Client :=
  let '(r, b) := flush_if_due now (burst c) in
  match r with
  | FlushPaste out => paste out (set_burst b c)
  | FlushTyped ch => type ch (set_burst b c)
  | FlushNone => set_burst b c
  end.
Definition flush_before (c : Client) : Client :=
  let '(out, b) := flush_before_modified_input (burst c) in
  match out with Some out => paste out (set_burst b c) | None => set_burst b c end.
(** The characters that were shown already are taken back, when they look like the
    beginning of a paste. *)
Definition begin_buffer (ch : char) (now : N) (retro_chars : N) (c : Client) : option Client :=
  '(grab, b) ← decide_begin_buffer now (shown c) (N.to_nat retro_chars) (burst c);
  match grab with
  | Some grab =>
      rest ← slice_to (shown c) (start_byte grab);
      Some (MkClient rest (submitted c) (append_char_to_buffer ch now b))
  | None => Some (type ch (flush_before (set_burst b c)))
  end.
Definition ascii_char (ch : char) (now : N) (c : Client) : option Client :=
  let '(d, b) := on_plain_char ch now (burst c) in
  let c := set_burst b c in
  match d with
  | BufferAppend | BeginBufferFromPending => Some (set_burst (append_char_to_buffer ch now b) c)
  | RetainFirstChar => Some c
  | BeginBuffer retro_chars => begin_buffer ch now retro_chars c
  end.
Definition non_ascii_char (ch : char) (now : N) (c : Client) : option Client :=
  let '(appended, b) := try_append_char_if_active ch now (burst c) in
  if (appended : bool) then Some (set_burst b c)
  else
    let c := flush_before c in
    let '(d, b) := on_plain_char_no_hold now (burst c) in
    let c := set_burst b c in
    match d with
    | Some BufferAppend => Some (set_burst (append_char_to_buffer ch now b) c)
    | Some (BeginBuffer retro_chars) => begin_buffer ch now retro_chars c
    | _ => Some (type ch (flush_before c))
    end.
Definition enter (now : N) (c : Client) : Client :=
  let '(appended, b) := append_newline_if_active now (burst c) in
  if (appended : bool) then set_burst b c
  else if newline_should_insert_instead_of_submit now b then set_burst (extend_window now b) (type ch_nl c)
  else MkClient [] (submitted c ++ [shown c]) b.
Definition client_step (e : N * ClientEvent) (c : Client) : option Client :=
  let now := e.1 in
  match e.2 with
  | PlainChar ch => if (ch <? 128)%N then ascii_char ch now (flush_due now c) else non_ascii_char ch now (flush_due now c)
  | EnterKey => Some (enter now c)
  | OtherKey => let c := flush_before (flush_due now c) in Some (set_burst (clear_window_after_non_char (burst c)) c)
  | Tick => Some (flush_due now c)
  end.
Fixpoint client_run (es : list (N * ClientEvent)) (c : Client) : option Client :=
  match es with [] => Some c | e :: es => c ← client_step e c; client_run es c end.
Definition Client_new : Client := MkClient [] [] PasteBurst_default.

(** What the user entered: a newline for each Enter. *)
Definition entered (es : list (N * ClientEvent)) : str :=
  e ← es; match e.2 with PlainChar ch => [ch] | EnterKey => [ch_nl] | _ => [] end.
(** What became of it: the messages that were submitted, the text that is shown and
    what is still held. *)
Definition held (b : PasteBurst) : str := buffer b ++ match pending_first_char b with Some (ch, _) => [ch] | None => [] end.
Definition kept (c : Client) : str := (m ← submitted c; m ++ [ch_nl]) ++ shown c ++ held (burst c).
End burst.
