(* ===== verification/PasteProofs.v ===== *)
(** What is proved of the detection of pastes ([PasteBurst]): a composer that follows
    its contract loses, doubles and reorders nothing that is entered, unless Enter
    comes while a first character is held; and nothing is held for long. *)
From S2P Require Import Prelude TextArea TextEdits PasteBurst.
From Stdlib Require Import Lia.

(** Only an active burst has a buffer, a character is held only outside of one, and
    both have a time from which they are overdue. *)
Record burst_ok (b : PasteBurst) : Prop := {
  buffered_is_active : active b = false → buffer b = [];
  active_holds_none : active b = true → pending_first_char b = None;
  held_since_last : ∀ ch t, pending_first_char b = Some (ch, t) → last_plain_char_time b = Some t;
  active_is_timed : active b = true → is_Some (last_plain_char_time b)
}.

Section proofs.
Variable windows : bool.

Lemma internal_is_active b : burst_ok b → is_active_internal b = active b.
Proof. intros Hok. unfold is_active_internal. destruct (active b) eqn:Ha; [done|]. by rewrite (buffered_is_active _ Hok Ha). Qed.
Lemma cleared_ok b : burst_ok (clear_after_explicit_paste b).
Proof. by split. Qed.
Lemma window_cleared_ok b : buffer b = [] → burst_ok (clear_window_after_non_char b).
Proof. by split. Qed.
Lemma extend_window_ok now b : burst_ok b → burst_ok (extend_window now b).
Proof. by intros []. Qed.
Lemma append_ok ch now b : burst_ok b → active b = true → burst_ok (append_char_to_buffer ch now b).
Proof. intros [H1 H2 H3 H4] Ha. split; cbn; try done. by rewrite Ha. Qed.

Lemma kept_paste out b c : held (burst c) = out → kept (paste out (set_burst b c)) = kept c.
Proof. intros <-. unfold kept, held. cbn. by rewrite app_nil_r. Qed.
Lemma kept_same_burst b c : held b = held (burst c) → kept (set_burst b c) = kept c.
Proof. unfold kept. cbn. by intros ->. Qed.

Lemma flush_due_kept now c : burst_ok (burst c) →
  let c' := flush_due windows now c in
  burst_ok (burst c') ∧ kept c' = kept c ∧
  (∀ ch t, pending_first_char (burst c') = Some (ch, t) → (duration_since now t <= PASTE_BURST_CHAR_INTERVAL windows)%N).
Proof.
  intros Hok. unfold flush_due, flush_if_due. rewrite internal_is_active //. destruct Hok as [H1 H2 H3 H4].
  destruct (active (burst c)) eqn:Ha; cbn.
  - rewrite andb_true_r. destruct (match last_plain_char_time (burst c) with Some t => _ | None => _ end); cbn.
    + split; [apply cleared_ok|]. split; [|done]. unfold kept, held. by rewrite H2 // !app_nil_r.
    + split; [by split; rewrite ?Ha|]. split; [done|]. by rewrite H2.
  - rewrite andb_false_r. destruct (pending_first_char (burst c)) as [[ch t]|] eqn:Hp.
    + rewrite (H3 ch t) //. destruct (N.ltb_spec (PASTE_BURST_CHAR_INTERVAL windows) (duration_since now t)) as [Hlt|Hge]; cbn.
      * split; [split; cbn; [by rewrite Ha|congruence|done|congruence]|]. split; [|done]. unfold kept, held. cbn. rewrite H1 // Hp /=. by rewrite !app_nil_r !app_assoc.
      * split; [split; [by rewrite Ha|congruence|by rewrite Hp|congruence]|]. split; [done|]. rewrite Hp. by intros ? ? [= <- <-].
    + destruct (match last_plain_char_time (burst c) with Some t => _ | None => _ end); cbn; (split; [split; cbn; rewrite ?Ha ?Hp //|]; by rewrite Hp).
Qed.
Lemma flush_before_kept c : burst_ok (burst c) →
  let c' := flush_before c in burst_ok (burst c') ∧ kept c' = kept c ∧ held (burst c') = [] ∧ active (burst c') = false ∧
  (is_active (burst c) = false → c' = c).
Proof.
  intros Hok. unfold flush_before, flush_before_modified_input. destruct (is_active (burst c)) eqn:Hia; cbn [negb].
  - split; [apply cleared_ok|]. split_and!; try done. by apply kept_paste.
  - unfold is_active in Hia. rewrite internal_is_active // in Hia. apply orb_false_iff in Hia as [Ha Hp].
    split_and!; try done; [|by destruct c].
    unfold held. cbn. rewrite (buffered_is_active _ Hok Ha). by destruct (pending_first_char (burst c)) as [[]|].
Qed.
Lemma note_plain_char_ok now b : burst_ok b → pending_first_char b = None → burst_ok (note_plain_char windows now b).
Proof. intros [H1 H2 H3 H4] Hp. split; cbn; try done. by rewrite Hp. Qed.

Lemma char_indices_snoc i s c : char_indices_from i (s ++ [c]) = char_indices_from i s ++ [(i + str_len s, c)].
Proof. revert i. induction s as [|d s IH]; intros i; cbn; [by rewrite Nat.add_0_r|]. rewrite IH. do 4 f_equal. lia. Qed.
Lemma retro_start_boundary before n : boundary before (retro_start_index before n).
Proof.
  unfold retro_start_index. destruct (Nat.eqb n 0); [apply boundary_end|]. generalize (n - 1). clear n.
  induction before as [|c s IH] using rev_ind; intros n; [apply boundary_0|].
  rewrite char_indices_snoc reverse_snoc. destruct n as [|n]; cbn; [apply boundary_mid|]. by apply boundary_app_l.
Qed.
(** What is taken back goes to the buffer; what is not is entered. *)
Lemma begin_buffer_kept ch now n c : burst_ok (burst c) → held (burst c) = [] → is_Some (last_plain_char_time (burst c)) → active (burst c) = false →
  ∃ c', begin_buffer ch now n c = Some c' ∧ burst_ok (burst c') ∧ kept c' = kept c ++ [ch].
Proof.
  intros Hok Hh Hl Ha. unfold held in Hh. apply app_nil in Hh as [Hb Hp].
  assert (pending_first_char (burst c) = None) as Hpn by (by destruct (pending_first_char (burst c)) as [[]|]).
  unfold begin_buffer, decide_begin_buffer. set (i := retro_start_index _ _).
  destruct (slice_from_is_Some _ _ (retro_start_boundary (shown c) (N.to_nat n))) as (u & v & Hv & Ht & Hu). fold i in Hv, Hu. rewrite Hv. cbn.
  destruct (existsb is_whitespace v || _); cbn.
  - rewrite (proj2 (slice_to_Some (shown c) i u)); [by exists v|]. cbn. eexists. split; [reflexivity|]. split.
    + split; cbn; destruct (is_empty v); cbn; rewrite ?Hpn; done.
    + unfold kept, held. cbn. rewrite Ht Hb Hpn. destruct v; cbn; by rewrite ?Hb ?Hpn ?app_nil_r /= -?app_assoc.
  - eexists. split; [reflexivity|]. destruct (flush_before_kept (set_burst (burst c) c)) as (Hok' & Hk & Hh' & _); [done|]. split; [done|].
    transitivity (kept (flush_before (set_burst (burst c) c)) ++ [ch]); [|by rewrite Hk kept_same_burst].
    unfold kept. cbn. rewrite Hh' !app_nil_r. by rewrite app_assoc.
Qed.

(** ** Events *)

Lemma kept_append ch c : held (burst c) = buffer (burst c) → ∀ b, held b = buffer (burst c) ++ [ch] → kept (set_burst b c) = kept c ++ [ch].
Proof. intros Hh b Hb. unfold kept. cbn. by rewrite Hb Hh !app_assoc. Qed.
Lemma kept_type ch c : held (burst c) = [] → kept (type ch c) = kept c ++ [ch].
Proof. intros Hh. unfold kept. cbn. rewrite Hh !app_nil_r. by rewrite app_assoc. Qed.
Lemma held_none b : pending_first_char b = None → held b = buffer b.
Proof. intros Hp. unfold held. by rewrite Hp app_nil_r. Qed.

Lemma ascii_char_kept ch now c : burst_ok (burst c) →
  (∀ h t, pending_first_char (burst c) = Some (h, t) → (duration_since now t <= PASTE_BURST_CHAR_INTERVAL windows)%N) →
  ∃ c', ascii_char windows ch now c = Some c' ∧ burst_ok (burst c') ∧ kept c' = kept c ++ [ch].
Proof.
  intros Hok Hdue. unfold ascii_char, on_plain_char. destruct Hok as [H1 H2 H3 H4]. cbn [active note_plain_char pending_first_char].
  destruct (active (burst c)) eqn:Ha.
  - eexists. split; [reflexivity|]. split; [split; cbn; rewrite ?Ha ?H2 //; by eexists|].
    apply (kept_append ch c); [by apply held_none, H2|]. rewrite held_none; [by apply H2|done].
  - destruct (pending_first_char (burst c)) as [[h t]|] eqn:Hp.
    + rewrite (proj2 (N.leb_le _ _) (Hdue _ _ eq_refl)). eexists. split; [reflexivity|].
      split; [split; cbn; try done; by eexists|]. unfold kept, held. cbn. rewrite H1 // Hp. by rewrite /= -!app_assoc.
    + set (b := note_plain_char windows now (burst c)). assert (burst_ok b) as Hokb by (split; cbn; rewrite ?Hp ?Ha //).
      assert (held b = []) as Hh by (rewrite held_none //; by apply H1).
      destruct (retro_decision b) as [d|] eqn:Hd.
      * unfold retro_decision in Hd. destruct (_ <=? _)%N; [|done]. injection Hd as <-.
        destruct (begin_buffer_kept ch now (consecutive_plain_char_burst b - 1) (set_burst b c) Hokb Hh) as (c' & Hr & Hok' & Hk); [by eexists|done|].
        exists c'. split; [exact Hr|]. split; [done|]. rewrite Hk kept_same_burst //.
      * eexists. split; [reflexivity|]. split; [split; cbn; rewrite ?Ha //; by intros ? ? [= <- <-]|].
        unfold kept, held. cbn. rewrite H1 // Hp /=. by rewrite app_nil_r !app_assoc.
Qed.
Lemma non_ascii_char_kept ch now c : burst_ok (burst c) →
  ∃ c', non_ascii_char windows ch now c = Some c' ∧ burst_ok (burst c') ∧ kept c' = kept c ++ [ch].
Proof.
  intros Hok. unfold non_ascii_char, try_append_char_if_active. fold (is_active_internal (burst c)). rewrite internal_is_active //.
  destruct (active (burst c)) eqn:Ha.
  - eexists. split; [reflexivity|]. split; [by apply append_ok|]. pose proof (active_holds_none _ Hok Ha) as Hp.
    apply (kept_append ch c); [by apply held_none|]. by rewrite held_none.
  - destruct (flush_before_kept c Hok) as (Hok1 & Hk1 & Hh1 & Ha1 & _).
    set (c1 := flush_before c) in *. unfold on_plain_char_no_hold. cbn [active note_plain_char]. rewrite Ha1.
    assert (buffer (burst c1) = [] ∧ pending_first_char (burst c1) = None) as [Hb1 Hp1].
    { unfold held in Hh1. apply app_nil in Hh1 as [-> Hp]. split; [done|]. by destruct (pending_first_char (burst c1)) as [[]|]. }
    set (b := note_plain_char windows now (burst c1)). assert (burst_ok b) as Hokb by (by apply note_plain_char_ok).
    assert (held b = []) as Hh by (rewrite held_none //).
    destruct (retro_decision b) as [d|] eqn:Hd.
    + unfold retro_decision in Hd. destruct (_ <=? _)%N; [|done]. injection Hd as <-.
      destruct (begin_buffer_kept ch now (consecutive_plain_char_burst b - 1) (set_burst b c1) Hokb Hh) as (c' & Hr & Hok' & Hk); [by eexists|done|].
      exists c'. split; [exact Hr|]. split; [done|]. rewrite Hk kept_same_burst ?Hk1 //.
    + eexists. split; [reflexivity|]. destruct (flush_before_kept (set_burst b c1) Hokb) as (Hok2 & Hk2 & Hh2 & _).
      split; [done|]. rewrite kept_type // Hk2 kept_same_burst ?Hk1 //.
Qed.
Lemma enter_kept now c : burst_ok (burst c) → pending_first_char (burst c) = None →
  burst_ok (burst (enter now c)) ∧ kept (enter now c) = kept c ++ [ch_nl].
Proof.
  intros Hok Hp. assert (is_active (burst c) = active (burst c)) as Hia by (unfold is_active; by rewrite internal_is_active // Hp orb_false_r).
  unfold enter, append_newline_if_active, newline_should_insert_instead_of_submit. rewrite Hia. destruct (active (burst c)) eqn:Ha.
  - split; [by apply (append_ok ch_nl now)|]. apply (kept_append ch_nl c); [by apply held_none|]. by rewrite held_none.
  - assert (held (burst c) = []) as Hh by (rewrite held_none //; by apply Hok).
    rewrite Hia. cbn [orb]. destruct (match burst_window_until (burst c) with Some _ => _ | None => _ end).
    + split; [by apply extend_window_ok|]. transitivity (kept (type ch_nl c)); [done|by apply kept_type].
    + split; [done|]. unfold kept. cbn. rewrite Hh bind_app /= !app_nil_r. by rewrite !app_assoc.
Qed.

(** Enter comes only when no first character is held. *)
Fixpoint enter_when_clear (es : list (N * ClientEvent)) (c : Client) : Prop :=
  match es with
  | [] => True
  | e :: es => (e.2 = EnterKey → pending_first_char (burst c) = None) ∧
               match client_step windows e c with Some c' => enter_when_clear es c' | None => True end
  end.
Lemma client_step_kept e c : burst_ok (burst c) → (e.2 = EnterKey → pending_first_char (burst c) = None) →
  ∃ c', client_step windows e c = Some c' ∧ burst_ok (burst c') ∧ kept c' = kept c ++ entered [e].
Proof.
  intros Hok Hen. destruct e as [now e]. unfold client_step. cbn in *. destruct (flush_due_kept now c Hok) as (Hok1 & Hk1 & Hdue).
  destruct e as [ch| | |]; cbn.
  - rewrite -Hk1. case_match; [by apply ascii_char_kept|by apply non_ascii_char_kept].
  - eexists. split; [reflexivity|]. apply enter_kept; auto.
  - eexists. split; [reflexivity|]. destruct (flush_before_kept _ Hok1) as (Hok2 & Hk2 & Hh2 & _).
    unfold held in Hh2. apply app_nil in Hh2 as [Hb2 Hp2]. split; [by apply window_cleared_ok|].
    rewrite app_nil_r -Hk1 -Hk2. apply kept_same_burst. unfold held. cbn. by rewrite Hb2 Hp2.
  - eexists. split; [reflexivity|]. split; [done|]. by rewrite app_nil_r.
Qed.
Lemma entered_cons e es : entered (e :: es) = entered [e] ++ entered es.
Proof. unfold entered. cbn. by rewrite app_nil_r. Qed.
Lemma client_run_kept es c : burst_ok (burst c) → enter_when_clear es c →
  ∃ c', client_run windows es c = Some c' ∧ burst_ok (burst c') ∧ kept c' = kept c ++ entered es.
Proof.
  revert c. induction es as [|e es IH]; intros c Hok; cbn [client_run enter_when_clear].
  - intros _. exists c. by rewrite app_nil_r.
  - intros [Hen Hrest]. destruct (client_step_kept e c Hok Hen) as (c1 & Hs & Hok1 & Hk1). rewrite Hs in Hrest |- *.
    destruct (IH c1 Hok1 Hrest) as (c' & Hr & Hok' & Hk). exists c'. split; [done|]. split; [done|]. by rewrite Hk Hk1 (entered_cons e es) app_assoc.
Qed.

(** C25. Whatever is entered and whenever, ticks and other keys in between, a composer that
    follows the contract does not panic, and what was submitted, what is shown and
    what is held are together what was entered, in order: nothing is lost, doubled or
    moved, whether it was taken for typing or for a paste. Enter is only pressed when
    no first character is held. *)
Theorem bursts_keep_what_is_entered es : enter_when_clear es Client_new →
  ∃ c, client_run windows es Client_new = Some c ∧ kept c = entered es.
Proof.
  intros He. destruct (client_run_kept es Client_new) as (c & Hr & _ & Hk); [by split|done|]. by exists c.
Qed.

(** What is held does not stay: at a tick that is later than the last character by
    more than the timeout, all that was entered is submitted or shown. *)
Theorem nothing_is_held_for_long es now c t : enter_when_clear es Client_new → client_run windows es Client_new = Some c →
  last_plain_char_time (burst c) = Some t → (PASTE_BURST_ACTIVE_IDLE_TIMEOUT windows < duration_since now t)%N →
  ∃ c', client_step windows (now, Tick) c = Some c' ∧ (m ← submitted c'; m ++ [ch_nl]) ++ shown c' = entered es.
Proof.
  intros He Hr Hl Hlate. destruct (client_run_kept es Client_new) as (c1 & Hr1 & Hok & Hk); [by split|done|]. rewrite Hr in Hr1. injection Hr1 as <-.
  destruct (flush_due_kept now c Hok) as (_ & Hk' & _). eexists. split; [reflexivity|]. transitivity (kept (flush_due windows now c)); [|by rewrite Hk' Hk].
  unfold kept. assert (held (burst (flush_due windows now c)) = []) as ->; [|by rewrite app_nil_r].
  unfold flush_due, flush_if_due. rewrite internal_is_active // Hl.
  assert ((PASTE_BURST_CHAR_INTERVAL windows <? duration_since now t)%N = true) as Hc
    by (apply N.ltb_lt; revert Hlate; unfold PASTE_BURST_CHAR_INTERVAL, PASTE_BURST_ACTIVE_IDLE_TIMEOUT, from_millis; destruct windows; lia).
  destruct (active (burst c)) eqn:Ha; cbn.
  - by rewrite (proj2 (N.ltb_lt _ _) Hlate).
  - rewrite Hc. cbn. destruct (pending_first_char (burst c)) as [[ch s]|] eqn:Hp; cbn; unfold held; cbn; by rewrite (buffered_is_active _ Hok Ha) ?Hp.
Qed.

(** The condition on Enter matters: when Enter follows a first character that is
    held, the newline goes to the buffer and the character, with the next one, behind
    it. *)
Theorem newlines_overtake_held_characters ch ch' t t1 t2 b : burst_ok b → held b = [] →
  active b = false → (∀ l, last_plain_char_time b = Some l → PASTE_BURST_CHAR_INTERVAL windows < duration_since t l)%N →
  (duration_since t2 t <= PASTE_BURST_CHAR_INTERVAL windows)%N →
  let '(d1, b1) := on_plain_char windows ch t b in
  let '(appended, b2) := append_newline_if_active t1 b1 in
  let '(d2, b3) := on_plain_char windows ch' t2 b2 in
  d1 = RetainFirstChar ∧ appended = true ∧ d2 = BeginBufferFromPending ∧ held (append_char_to_buffer ch' t2 b3) = [ch_nl; ch; ch'].
Proof.
  intros Hok Hh Ha Hl Ht. unfold held in Hh. apply app_nil in Hh as [Hb Hp].
  assert (pending_first_char b = None) as Hpn by (by destruct (pending_first_char b) as [[]|]).
  assert (match last_plain_char_time b with Some prev => (duration_since t prev <=? PASTE_BURST_CHAR_INTERVAL windows)%N | None => false end = false) as Hq.
  { destruct (last_plain_char_time b) as [l|]; [|done]. apply N.leb_gt. by apply Hl. }
  unfold on_plain_char at 1, note_plain_char, retro_decision. cbn. rewrite Ha Hpn Hq. cbn.
  unfold append_newline_if_active, is_active. cbn. rewrite orb_true_r. cbn. unfold on_plain_char. cbn. rewrite (proj2 (N.leb_le _ _) Ht). cbn.
  split_and!; try done. unfold held. cbn. by rewrite Hb.
Qed.
End proofs.

(** ** Witnesses *)

Definition ms (n : N) : N := from_millis n.
(** Typing, a paste of two lines in one go, characters that are taken back. *)
Definition example_events : list (N * ClientEvent) :=
  [(ms 0, PlainChar 97); (ms 100, PlainChar 98); (ms 200, OtherKey); (ms 300, PlainChar 99); (ms 301, PlainChar 100); (ms 302, EnterKey);
   (ms 303, PlainChar 101); (ms 400, Tick); (ms 500, EnterKey); (ms 1000, PlainChar 233); (ms 1001, PlainChar 12288); (ms 1002, PlainChar 233);
   (ms 1003, PlainChar 120); (ms 1100, PlainChar 121)]%N.
Example example_events_run :
  (λ c, (submitted c, shown c, held (burst c))) <$> client_run false example_events Client_new
  = Some ([lit "abcd" ++ [ch_nl] ++ lit "e"], [233; 12288; 233; 120]%N, lit "y").
Proof. vm_compute. reflexivity. Qed.
Lemma example_events_clear : enter_when_clear false example_events Client_new.
Proof. vm_compute. repeat split; done. Qed.
Lemma bursts_keep_what_is_entered_witness : ∃ c, client_run false example_events Client_new = Some c ∧ kept c = entered example_events.
Proof. apply (bursts_keep_what_is_entered false example_events). exact example_events_clear. Defined.
Lemma nothing_is_held_for_long_witness : ∃ c c', client_run false example_events Client_new = Some c ∧ held (burst c) = lit "y" ∧
  client_step false (ms 1109, Tick) c = Some c' ∧ (m ← submitted c'; m ++ [ch_nl]) ++ shown c' = entered example_events.
Proof.
  destruct (client_run false example_events Client_new) as [c|] eqn:Hr; [|vm_compute in Hr; discriminate].
  destruct (nothing_is_held_for_long false example_events (ms 1109) c (ms 1100) example_events_clear Hr) as (c' & Hs & Hk).
  - vm_compute in Hr. by injection Hr as <-.
  - vm_compute. reflexivity.
  - exists c, c'. split_and!; [done| |done|done]. vm_compute in Hr. by injection Hr as <-.
Defined.
Lemma newlines_overtake_held_characters_witness :
  let '(_, b1) := on_plain_char false 97%N (ms 0) PasteBurst_default in
  let '(_, b2) := append_newline_if_active (ms 1) b1 in
  let '(d2, b3) := on_plain_char false 98%N (ms 2) b2 in
  d2 = BeginBufferFromPending ∧ held (append_char_to_buffer 98%N (ms 2) b3) = [ch_nl; 97; 98]%N.
Proof.
  pose proof (newlines_overtake_held_characters false 97%N 98%N (ms 0) (ms 1) (ms 2) PasteBurst_default) as Hn.
  destruct Hn as (_ & _ & Hd & Hh); [by split|done|done|done|vm_compute; discriminate|]. by split.
Defined.
(** The first line of a paste is one character: it ends up on the second. *)
Example one_character_lines :
  shown <$> client_run false [(ms 0, PlainChar 97); (ms 1, EnterKey); (ms 2, PlainChar 98); (ms 100, Tick)]%N Client_new
  = Some [ch_nl; 97; 98]%N.
Proof. vm_compute. reflexivity. Qed.
