(* ===== verification/WorktreeChanges.v ===== *)
(** The changes of a worktree are applied to its parent
    ([shared/workspaces_core/git_orchestration.rs], with [run_git_command_bytes] and
    [run_git_diff] of [shared/git_core.rs] on bytes): staged, unstaged and untracked
    changes become one patch, which [git apply] takes in the parent. It is proved
    that nothing but queries runs unless the parent is clean, and what the patch
    holds. *)
From S2P Require Import Prelude Types Host Utf8Stream.
From Stdlib Require Import Lia.

(** ** git *)

(** [std::process::Output], with the bytes as they are. *)
Record BytesOutput := MkBytesOutput { bytes_success : bool; bytes_code : option Z; bytes_stdout : list byte; bytes_stderr : list byte }.
(** How a process ends that is given its input. *)
Inductive FedProcess := NotRun (err : str) | InputNotWritten (err : str) | Finished (output : BytesOutput).
Class GitBytes `{Host} := {
  git_bytes : str → list str → World → World * result str BytesOutput;
  git_fed : str → list str → list byte → World → World * FedProcess
}.

(** [String::from_utf8_lossy]: each maximal invalid piece becomes U+FFFD. *)
Fixpoint lossy_loop (fuel : nat) (bs : list byte) : str :=
  match fuel with
  | O => []
  | S fuel =>
      let '(text, n, stop) := utf8_prefix bs in
      match stop with
      | None => text
      | Some None => text ++ [65533%N]
      | Some (Some len) => text ++ 65533%N :: lossy_loop fuel (drop (n + len) bs)
      end
  end.
Definition from_utf8_lossy (bs : list byte) : str := lossy_loop (S (length bs)) bs.
Fixpoint split_nul (bs : list byte) : list (list byte) :=
  match bs with
  | [] => [[]]
  | b :: r => if (b =? 0)%N then [] :: split_nul r
              else match split_nul r with piece :: rest => (b :: piece) :: rest | [] => [[b]] end
  end.

(** The names of a list whose entries end in a NUL. *)
Definition names_of (listing : list byte) (names : list str) : Prop :=
  ∃ pieces rest, listing = (p ← pieces; p ++ [0%N]) ++ rest ∧ Forall (λ p, 0%N ∉ p) (pieces ++ [rest]) ∧
    names = from_utf8_lossy <$> filter (λ p, p ≠ []) (pieces ++ [rest]).
Lemma split_nul_spec bs : ∃ pieces rest, split_nul bs = pieces ++ [rest] ∧ bs = (p ← pieces; p ++ [0%N]) ++ rest ∧ Forall (λ p, 0%N ∉ p) (pieces ++ [rest]).
Proof.
  induction bs as [|b bs (pieces & rest & Hs & Hb & Hf)]; [exists [], []; split_and!; [done..|]; constructor; [apply not_elem_of_nil|constructor]|].
  cbn [split_nul]. destruct (N.eqb_spec b 0) as [->|Hne]; rewrite Hs.
  - exists ([] :: pieces), rest. split_and!; [done|by rewrite /= -Hb|constructor; [apply not_elem_of_nil|done]].
  - destruct pieces as [|p pieces]; cbn [app] in *; apply Forall_cons in Hf as [Hp Hf].
    + exists [], (b :: rest). split_and!; [done|by rewrite Hb|]. constructor; [apply not_elem_of_cons; split; [congruence|done]|done].
    + exists ((b :: p) :: pieces), rest. split_and!; [done|by rewrite Hb|]. constructor; [apply not_elem_of_cons; split; [congruence|done]|done].
Qed.
Lemma cut_at_nul (a b x y : list byte) : 0%N ∉ a → 0%N ∉ b → a ++ 0%N :: x = b ++ 0%N :: y → a = b ∧ x = y.
Proof.
  revert b. induction a as [|c a IH]; intros [|d b] Ha Hb He; cbn in He.
  - by injection He.
  - injection He as He _. exfalso. apply Hb. rewrite He. by left.
  - injection He as He _. exfalso. apply Ha. rewrite He. by left.
  - injection He as He1 He2. apply not_elem_of_cons in Ha as [_ Ha]. apply not_elem_of_cons in Hb as [_ Hb]. destruct (IH b Ha Hb He2) as [-> ->]. by subst.
Qed.
Lemma pieces_unique pieces rest pieces' rest' : Forall (λ p, 0%N ∉ p) (pieces ++ [rest]) → Forall (λ p, 0%N ∉ p) (pieces' ++ [rest']) →
  (p ← pieces; p ++ [0%N]) ++ rest = (p ← pieces'; p ++ [0%N]) ++ rest' → pieces ++ [rest] = pieces' ++ [rest'].
Proof.
  revert pieces'. induction pieces as [|p ps IH]; intros [|p' ps'] H1 H2 He; cbn [app] in *.
  - cbn in He. by subst.
  - exfalso. apply Forall_cons in H1 as [H1 _]. apply H1. cbn in He. rewrite He -!app_assoc. apply elem_of_app. right. by left.
  - exfalso. apply Forall_cons in H2 as [H2 _]. apply H2. cbn in He. rewrite -He -!app_assoc. apply elem_of_app. right. by left.
  - apply Forall_cons in H1 as [H1 H1']. apply Forall_cons in H2 as [H2 H2']. cbn in He. rewrite -!app_assoc /= in He.
    destruct (cut_at_nul _ _ _ _ H1 H2 He) as [-> Hr]. f_equal. by apply IH.
Qed.

(** ** git_orchestration.rs *)

Section changes.
Context `{GitBytes}.

Definition run_git_command_bytes (repo_path : str) (args : list str) : W (list byte) :=
  output ← W_map_err (λ err, lit "Failed to run git: " ++ err) (git_bytes repo_path args);
  if bytes_success output then mret (bytes_stdout output)
  else W_err (format_git_error (from_utf8_lossy (bytes_stdout output)) (from_utf8_lossy (bytes_stderr output))).
Definition run_git_diff_bytes (repo_path : str) (args : list str) : W (list byte) :=
  output ← W_map_err (λ err, lit "Failed to run git: " ++ err) (git_bytes repo_path args);
  if bytes_success output || bool_decide (bytes_code output = Some 1%Z) then mret (bytes_stdout output)
  else W_err (format_git_error (from_utf8_lossy (bytes_stdout output)) (from_utf8_lossy (bytes_stderr output))).

Definition null_device_path : str := match target_os with Windows => "NUL" | _ => "/dev/null" end.
Definition status_args : list str := ["status" : str; "--porcelain" : str].
Definition staged_args : list str := ["diff" : str; "--binary" : str; "--no-color" : str; "--cached" : str].
Definition unstaged_args : list str := ["diff" : str; "--binary" : str; "--no-color" : str].
Definition untracked_args : list str := ["ls-files" : str; "--others" : str; "--exclude-standard" : str; "-z" : str].
Definition untracked_diff_args (path : str) : list str :=
  ["diff" : str; "--binary" : str; "--no-color" : str; "--no-index" : str; "--" : str; null_device_path; path].
Definition apply_args : list str := ["apply" : str; "--3way" : str; "--whitespace=nowarn" : str; "-" : str].

Definition uncommitted_changes : str :=
  "Your current branch has uncommitted changes. Please commit, stash, or discard them before applying worktree changes.".
Definition nothing_to_apply : str := "No changes to apply.".

Fixpoint untracked_patches (worktree_root : str) (raw_paths : list (list byte)) (patch : list byte) : W (list byte) :=
  match raw_paths with
  | [] => mret patch
  | [] :: rest => untracked_patches worktree_root rest patch
  | raw_path :: rest =>
      diff ← run_git_diff_bytes worktree_root (untracked_diff_args (from_utf8_lossy raw_path));
      untracked_patches worktree_root rest (patch ++ diff)
  end.
Definition worktree_patch (worktree_root : str) : W (list byte) :=
  staged_patch ← run_git_diff_bytes worktree_root staged_args;
  unstaged_patch ← run_git_diff_bytes worktree_root unstaged_args;
  untracked_output ← run_git_command_bytes worktree_root untracked_args;
  untracked_patches worktree_root (split_nul untracked_output) (staged_patch ++ unstaged_patch).

Definition apply_result (output : BytesOutput) : result str unit :=
  if bytes_success output then Ok tt
  else
    let stderr := from_utf8_lossy (bytes_stderr output) in
    let stdout := from_utf8_lossy (bytes_stdout output) in
    let detail := if is_empty (trim stderr) then trim stdout else trim stderr in
    if is_empty detail then Err ("Git apply failed." : str)
    else if contains_str "Applied patch to" detail then
      if contains_str "with conflicts" detail
      then Err ("Applied with conflicts. Resolve conflicts in the parent repo before retrying." : str)
      else Err ("Patch applied partially. Resolve changes in the parent repo before retrying." : str)
    else Err detail.
Definition apply_patch (parent_root : str) (patch : list byte) : W unit := λ w,
  match git_fed parent_root apply_args patch w with
  | (w', NotRun e) => (w', Err (lit "Failed to run git: " ++ e))
  | (w', InputNotWritten e) => (w', Err (lit "Failed to write git apply input: " ++ e))
  | (w', Finished output) => (w', apply_result output)
  end.

Definition apply_worktree_changes_inner_core (entry parent : WorkspaceEntry) : W unit :=
  worktree_root ← resolve_git_root entry;
  parent_root ← resolve_git_root parent;
  parent_status ← run_git_command_bytes parent_root status_args;
  if negb (is_empty (trim (from_utf8_lossy parent_status))) then W_err uncommitted_changes
  else
    patch ← worktree_patch worktree_root;
    if is_empty (trim (from_utf8_lossy patch)) then W_err nothing_to_apply
    else apply_patch parent_root patch.

Definition changes_of (workspaces : gmap str WorkspaceEntry) (workspace_id : str) : result str (WorkspaceEntry * WorkspaceEntry) :=
  match workspaces !! workspace_id with
  | None => Err ("workspace not found" : str)
  | Some entry =>
      if negb (is_worktree (entry_kind entry)) then Err ("Not a worktree workspace." : str)
      else
        match parent_id ← entry_parent_id entry; workspaces !! parent_id with
        | None => Err ("worktree parent not found" : str)
        | Some parent => Ok (entry, parent)
        end
  end.
Definition apply_worktree_changes_core (workspaces : gmap str WorkspaceEntry) (workspace_id : str) : W unit := λ w,
  match changes_of workspaces workspace_id with
  | Err e => (w, Err e)
  | Ok (entry, parent) => apply_worktree_changes_inner_core entry parent w
  end.

(** ** Queries *)

Definition is_query (args : list str) : bool :=
  match args with
  | c :: _ => (c =s? lit "status") || (c =s? lit "diff") || (c =s? lit "ls-files")
  | [] => false
  end.
(** Reached by queries only. *)
Definition queried : World → World → Prop := rtc (λ w w', ∃ root args, is_query args = true ∧ w' = (git_bytes root args w).1).
(** A computation that only queries. *)
Definition queries {A} (m : W A) : Prop := ∀ w, queried w (m w).1.

Lemma queries_ret {A} (x : A) : queries (mret x).
Proof. intros w. apply rtc_refl. Qed.
Lemma queries_err {A} e : queries (W_err e : W A).
Proof. intros w. apply rtc_refl. Qed.
Lemma queries_bind {A B} (m : W A) (f : A → W B) : queries m → (∀ x, queries (f x)) → queries (m ≫= f).
Proof.
  intros Hm Hf w. unfold mbind, W_bind. specialize (Hm w). destruct (m w) as [w' [x|e]]; cbn in *; [|done].
  etransitivity; [exact Hm|apply Hf].
Qed.
Lemma queries_if {A} (b : bool) (m1 m2 : W A) : queries m1 → queries m2 → queries (if b then m1 else m2).
Proof. by destruct b. Qed.
Lemma queries_root entry : queries (resolve_git_root entry).
Proof. intros w. unfold resolve_git_root. repeat case_match; apply rtc_refl. Qed.
Lemma queries_git f root args : is_query args = true → queries (W_map_err f (git_bytes root args)).
Proof. intros Hq w. unfold W_map_err. destruct (git_bytes root args w) as [w' r] eqn:Hg. cbn. apply rtc_once. exists root, args. by rewrite Hg. Qed.
Create HintDb queries.
#[local] Hint Resolve queries_ret queries_err queries_root queries_git : queries.
#[local] Hint Extern 1 (queries (_ ≫= _)) => apply queries_bind; [|intros ?] : queries.
#[local] Hint Extern 1 (queries (if _ then _ else _)) => apply queries_if : queries.
Lemma queries_command root args : is_query args = true → queries (run_git_command_bytes root args).
Proof. unfold run_git_command_bytes. auto with queries. Qed.
Lemma queries_diff root args : is_query args = true → queries (run_git_diff_bytes root args).
Proof. unfold run_git_diff_bytes. auto with queries. Qed.
Lemma queries_untracked root paths patch : queries (untracked_patches root paths patch).
Proof.
  revert patch. induction paths as [|[|b raw] rest IH]; intros patch; cbn [untracked_patches]; [apply queries_ret|apply IH|].
  apply queries_bind; [by apply queries_diff|intros; apply IH].
Qed.
Lemma queries_patch root : queries (worktree_patch root).
Proof.
  unfold worktree_patch. apply queries_bind; [by apply queries_diff|intros staged]. apply queries_bind; [by apply queries_diff|intros unstaged].
  apply queries_bind; [by apply queries_command|intros out]. apply queries_untracked.
Qed.
(** What a bind did. *)
Lemma W_bind_inv {A B} (m : W A) (f : A → W B) w w' r : (m ≫= f) w = (w', r) →
  (∃ e, m w = (w', Err e) ∧ r = Err e) ∨ ∃ x w1, m w = (w1, Ok x) ∧ f x w1 = (w', r).
Proof. unfold mbind, W_bind. destruct (m w) as [w1 [x|e]]; intros Hf; [right; by exists x, w1|left]. injection Hf as <- <-. by exists e. Qed.
Lemma queried_run {A} (m : W A) w w' r : queries m → m w = (w', r) → queried w w'.
Proof. intros Hm Hr. specialize (Hm w). by rewrite Hr in Hm. Qed.

Lemma queried_trans w1 w2 w3 : queried w1 w2 → queried w2 w3 → queried w1 w3.
Proof. intros H1 H2. unfold queried in *. by etransitivity. Qed.
Lemma queried_command root args w w' r : is_query args = true → run_git_command_bytes root args w = (w', r) → queried w w'.
Proof. intros Hq. apply queried_run. by apply queries_command. Qed.

(** ** What is applied *)

(** What git is asked and answers: a query that has to succeed, and a comparison, which
    ends with 1 when there are differences. *)
Definition answered (root : str) (args : list str) (w : World) (out : list byte) (w' : World) : Prop :=
  ∃ o, git_bytes root args w = (w', Ok o) ∧ bytes_success o = true ∧ bytes_stdout o = out.
Definition compared (root : str) (args : list str) (w : World) (out : list byte) (w' : World) : Prop :=
  ∃ o, git_bytes root args w = (w', Ok o) ∧ (bytes_success o = true ∨ bytes_code o = Some 1%Z) ∧ bytes_stdout o = out.
(** Each new file, compared with nothing. *)
Inductive new_files (root : str) : World → list str → list byte → World → Prop :=
| no_new_files w : new_files root w [] [] w
| a_new_file w name names diff w1 diffs w2 :
    compared root ["diff" : str; "--binary" : str; "--no-color" : str; "--no-index" : str; "--" : str;
                   match target_os with Windows => "NUL" : str | _ => "/dev/null" : str end; name] w diff w1 →
    new_files root w1 names diffs w2 → new_files root w (name :: names) (diff ++ diffs) w2.
(** The changes of a worktree: of the index, of its files, and its new files. *)
Definition collected (root : str) (w : World) (patch : list byte) (w' : World) : Prop :=
  ∃ staged unstaged listing names new w1 w2 w3,
    compared root ["diff" : str; "--binary" : str; "--no-color" : str; "--cached" : str] w staged w1 ∧
    compared root ["diff" : str; "--binary" : str; "--no-color" : str] w1 unstaged w2 ∧
    answered root ["ls-files" : str; "--others" : str; "--exclude-standard" : str; "-z" : str] w2 listing w3 ∧
    names_of listing names ∧ new_files root w3 names new w' ∧ patch = staged ++ unstaged ++ new.
(** The workspace is a worktree, its parent is clean, and there are changes. *)
Definition applicable (workspaces : gmap str WorkspaceEntry) (id : str) (w : World) (parent_root : str) (patch : list byte) (w' : World) : Prop :=
  ∃ entry parent_id parent worktree_root status w1,
    workspaces !! id = Some entry ∧ entry_kind entry = Worktree ∧ entry_parent_id entry = Some parent_id ∧ workspaces !! parent_id = Some parent ∧
    (resolve_git_root entry w).2 = Ok worktree_root ∧ (resolve_git_root parent w).2 = Ok parent_root ∧
    answered parent_root ["status" : str; "--porcelain" : str] w status w1 ∧ trim (from_utf8_lossy status) = [] ∧
    collected worktree_root w1 patch w' ∧ trim (from_utf8_lossy patch) ≠ [].

Lemma command_answered root args w w' out : run_git_command_bytes root args w = (w', Ok out) ↔ answered root args w out w'.
Proof.
  unfold run_git_command_bytes, answered, mbind, W_bind, W_map_err, mret, W_ret, W_err. destruct (git_bytes root args w) as [w1 [o|e]]; [|split; [done|by intros (? & ? & _)]].
  cbn [map_err]. destruct (bytes_success o) eqn:Ho; split.
  - intros [= <- <-]. by exists o.
  - by intros (? & [= <- <-] & _ & <-).
  - done.
  - intros (? & [= <- <-] & ? & _). congruence.
Qed.
Lemma diff_compared root args w w' out : run_git_diff_bytes root args w = (w', Ok out) ↔ compared root args w out w'.
Proof.
  unfold run_git_diff_bytes, compared, mbind, W_bind, W_map_err, mret, W_ret, W_err. destruct (git_bytes root args w) as [w1 [o|e]]; [|naive_solver].
  cbn [map_err]. destruct (bytes_success o || bool_decide (bytes_code o = Some 1%Z)) eqn:Ho; split.
  - intros [= <- <-]. exists o. split_and!; [done| |done]. apply orb_prop in Ho as [Ho|Ho]; [by left|right]. by apply bool_decide_eq_true in Ho.
  - by intros (? & [= <- <-] & _ & <-).
  - done.
  - intros (? & [= <- <-] & [Hs|Hc] & _); [by rewrite Hs in Ho|]. by rewrite Hc orb_comm in Ho.
Qed.
Lemma untracked_spec root raws patch w w' out : untracked_patches root raws patch w = (w', Ok out) ↔
  ∃ new, new_files root w (from_utf8_lossy <$> filter (λ p, p ≠ []) raws) new w' ∧ out = patch ++ new.
Proof.
  revert patch w. induction raws as [|raw raws IH]; intros patch w.
  - cbn. split.
    + intros [= <- <-]. exists []. split; [constructor|by rewrite app_nil_r].
    + intros (new & Hn & ->). inversion Hn; subst. by rewrite app_nil_r.
  - destruct raw as [|b raw]; [rewrite filter_cons_False; [naive_solver|]; apply IH|]. rewrite filter_cons_True // fmap_cons. cbn [untracked_patches]. split.
    + intros [(e & _ & ?)|(diff & w1 & Hd & Hr)]%W_bind_inv; [done|]. apply IH in Hr as (new & Hn & ->). exists (diff ++ new).
      split; [|by rewrite app_assoc]. econstructor; [|exact Hn]. by apply diff_compared.
    + intros (new & Hn & ->). inversion Hn as [|? ? ? diff w1 diffs ? Hc Hn']; subst. unfold mbind, W_bind.
      apply diff_compared in Hc. unfold untracked_diff_args, null_device_path. rewrite Hc. apply IH. exists diffs. by rewrite app_assoc.
Qed.
Lemma patch_collected root w patch w' : worktree_patch root w = (w', Ok patch) ↔ collected root w patch w'.
Proof.
  unfold worktree_patch, collected. split.
  - intros [(e & _ & ?)|(staged & w1 & Hs & Hr)]%W_bind_inv; [done|]. apply W_bind_inv in Hr as [(e & _ & ?)|(unstaged & w2 & Hu & Hr)]; [done|].
    apply W_bind_inv in Hr as [(e & _ & ?)|(listing & w3 & Hl & Hr)]; [done|]. apply untracked_spec in Hr as (new & Hn & ->).
    apply diff_compared in Hs. apply diff_compared in Hu. apply command_answered in Hl.
    destruct (split_nul_spec listing) as (pieces & rest & Hsp & Hli & Hf). rewrite Hsp in Hn.
    eexists staged, unstaged, listing, _, new, w1, w2, w3. split_and!; [done..| |exact Hn|by rewrite app_assoc]. by exists pieces, rest.
  - intros (staged & unstaged & listing & names & new & w1 & w2 & w3 & Hs & Hu & Hl & (pieces & rest & Hli & Hf & ->) & Hn & ->).
    apply diff_compared in Hs. apply diff_compared in Hu. apply command_answered in Hl. unfold staged_args, unstaged_args, untracked_args.
    unfold mbind at 1, W_bind at 1. rewrite Hs. unfold mbind at 1, W_bind at 1. rewrite Hu. unfold mbind at 1, W_bind at 1. rewrite Hl.
    apply untracked_spec. exists new. split; [|by rewrite app_assoc].
    destruct (split_nul_spec listing) as (pieces' & rest' & Hsp & Hli' & Hf'). rewrite Hsp.
    by rewrite (pieces_unique pieces' rest' pieces rest) // -Hli' -Hli.
Qed.
Lemma changes_of_spec workspaces id entry parent : changes_of workspaces id = Ok (entry, parent) ↔
  workspaces !! id = Some entry ∧ entry_kind entry = Worktree ∧ ∃ pid, entry_parent_id entry = Some pid ∧ workspaces !! pid = Some parent.
Proof.
  split.
  - unfold changes_of. destruct (workspaces !! id) as [en|]; [|done]. destruct (entry_kind en) eqn:Hk; cbn [is_worktree negb]; [done|].
    destruct (entry_parent_id en) as [pid|] eqn:Hp; cbn [mbind option_bind]; [|done].
    destruct (workspaces !! pid) as [pa|] eqn:Hw; [|done]. intros [= <- <-]. eauto 6.
  - intros (He & Hk & pid & Hp & Hpa). unfold changes_of. by rewrite He Hk /= Hp /= Hpa.
Qed.
Lemma root_same entry w : (resolve_git_root entry w).1 = w.
Proof. unfold resolve_git_root. by repeat case_match. Qed.

Lemma apply_cases workspaces id w w' r : apply_worktree_changes_core workspaces id w = (w', r) →
  (queried w w' ∧ is_ok r = false ∧ ∀ parent_root patch w2, ¬ applicable workspaces id w parent_root patch w2) ∨
  ∃ parent_root patch w2, applicable workspaces id w parent_root patch w2 ∧ queried w w2 ∧ apply_patch parent_root patch w2 = (w', r).
Proof.
  unfold apply_worktree_changes_core. destruct (changes_of workspaces id) as [[entry parent]|e] eqn:Hch.
  2: { intros [= <- <-]. left. split_and!; [apply rtc_refl|done|]. intros pr patch w2 (en & pid & pa & wr & st & w1 & H1 & H2 & H3 & H4 & _).
    by rewrite (proj2 (changes_of_spec workspaces id en pa)) in Hch; [eauto 6|]. }
  apply changes_of_spec in Hch as (He & Hk & pid & Hpid & Hpa). unfold apply_worktree_changes_inner_core. intros Hr.
  assert (∀ pr patch w2, applicable workspaces id w pr patch w2 → ∃ wr status w1,
    resolve_git_root entry w = (w, Ok wr) ∧ resolve_git_root parent w = (w, Ok pr) ∧ run_git_command_bytes pr status_args w = (w1, Ok status) ∧
    trim (from_utf8_lossy status) = [] ∧ worktree_patch wr w1 = (w2, Ok patch) ∧ trim (from_utf8_lossy patch) ≠ []) as Happ.
  { intros pr patch w2 (en & pid' & pa & wr & st & w1 & H1 & H2 & H3 & H4 & H5 & H6 & H7 & H8 & H9 & H10). rewrite He in H1. injection H1 as <-.
    rewrite Hpid in H3. injection H3 as <-. rewrite Hpa in H4. injection H4 as <-. exists wr, st, w1.
    pose proof (root_same entry w). pose proof (root_same parent w). destruct (resolve_git_root entry w), (resolve_git_root parent w). cbn in *. subst.
    split_and!; try done; [by apply command_answered|by apply patch_collected]. }
  apply W_bind_inv in Hr as [(e & Hr & ->)|(wr & w0 & Hwr & Hr)].
  { left. split_and!; [by eapply queried_run; [apply queries_root|]|done|]. intros ??? (?&?&?&?&_)%Happ. congruence. }
  assert (w0 = w) as -> by (pose proof (root_same entry w) as Hs; by rewrite Hwr in Hs).
  apply W_bind_inv in Hr as [(e & Hr & ->)|(pr & w0 & Hpr & Hr)].
  { left. split_and!; [by eapply queried_run; [apply queries_root|]|done|]. intros ??? (?&?&?&?&?&_)%Happ. congruence. }
  assert (w0 = w) as -> by (pose proof (root_same parent w) as Hs; by rewrite Hpr in Hs).
  apply W_bind_inv in Hr as [(e & Hr & ->)|(status & w1 & Hst & Hr)].
  { left. split_and!; [by eapply queried_command; [|exact Hr]|done|]. intros ??? (?&?&?&?&?&?&_)%Happ. congruence. }
  assert (queried w w1) as Hq1 by (by eapply queried_command; [|exact Hst]).
  destruct (is_empty (trim (from_utf8_lossy status))) eqn:Hclean; cbn [negb] in Hr.
  2: { injection Hr as <- <-. left. split_and!; [done..|]. intros ??? (?&st'&?&?&?&?&Hc&_)%Happ. assert (st' = status) as -> by congruence. by rewrite Hc in Hclean. }
  apply W_bind_inv in Hr as [(e & Hr & ->)|(patch & w2 & Hp & Hr)].
  { left. split_and!; [exact (queried_trans _ _ _ Hq1 (queried_run _ _ _ _ (queries_patch wr) Hr))|done|]. intros ??? (?&?&?&?&?&?&_&?&_)%Happ. congruence. }
  pose proof (queried_trans _ _ _ Hq1 (queried_run _ _ _ _ (queries_patch wr) Hp) : queried w w2) as Hq2.
  destruct (is_empty (trim (from_utf8_lossy patch))) eqn:Hblank.
  { injection Hr as <- <-. left. split_and!; [done..|]. intros ? patch' ? (?&?&?&?&?&?&_&?&Hn)%Happ. assert (patch' = patch) as -> by congruence. by apply is_empty_true in Hblank. }
  right. exists pr, patch, w2. split_and!; [|done..]. exists entry, pid, parent, wr, status, w1.
  split_and!; try done; [by rewrite Hwr|by rewrite Hpr|by apply command_answered|by apply is_empty_true|by apply patch_collected|by apply is_empty_false].
Qed.

(** C4. Applying the changes of a worktree runs nothing but queries and fails, unless
    the workspace is a worktree with a parent whose status is clean, and its changes,
    which are those of the index, those of its files and its new files as git compares
    and lists them, are not blank; then one [git apply] runs, in the parent, with
    these changes, and the outcome is a success exactly when that command is one. *)
Theorem only_clean_parents_are_changed workspaces id w w' r :
  apply_worktree_changes_core workspaces id w = (w', r) →
  (queried w w' ∧ is_ok r = false ∧ ∀ parent_root patch w2, ¬ applicable workspaces id w parent_root patch w2) ∨
  ∃ parent_root patch w2 process,
    applicable workspaces id w parent_root patch w2 ∧ queried w w2 ∧
    git_fed parent_root ["apply" : str; "--3way" : str; "--whitespace=nowarn" : str; "-" : str] patch w2 = (w', process) ∧
    (is_ok r = true ↔ ∃ output, process = Finished output ∧ bytes_success output = true).
Proof.
  intros Hr. destruct (apply_cases workspaces id w w' r Hr) as [|(pr & patch & w2 & Happ & Hq & Ha)]; [by left|right].
  unfold apply_patch in Ha. destruct (git_fed pr apply_args patch w2) as [w3 process] eqn:Hf.
  exists pr, patch, w2, process. destruct process as [e|e|out]; injection Ha as <- <-; split_and!; try done.
  - split; [done|]. by intros (? & ? & _).
  - split; [done|]. by intros (? & ? & _).
  - unfold apply_result. destruct (bytes_success out) eqn:Ho; [split; [by exists out|done]|]. split.
    + by repeat case_match.
    + intros (? & [= <-] & ?). congruence.
Qed.
End changes.

(** ** New files *)

Lemma lossy_of_text t : valid_text t → from_utf8_lossy (utf8_encode t) = t.
Proof.
  intros Ht. unfold from_utf8_lossy. cbn [lossy_loop]. pose proof (utf8_prefix_encode t [] Ht eq_refl) as Hp. rewrite app_nil_r in Hp. by rewrite Hp.
Qed.
Lemma encode_no_nul t : valid_text t → (0%N ∉ t) → Forall (λ b, b ≠ 0%N) (utf8_encode t).
Proof.
  intros Ht Hn. induction Ht as [|c t Hc Ht IH]; [constructor|]. rewrite utf8_encode_cons. apply Forall_app. split; [|apply IH; set_solver].
  assert (c ≠ 0%N) as Hc0 by set_solver. unfold utf8_encode_char. repeat case_match; rewrite !Forall_cons; split_and?; first [by apply Forall_nil|lia|intros He%N.eq_add_0; lia].
Qed.
Lemma split_nul_piece p rest : Forall (λ b, b ≠ 0%N) p → split_nul (p ++ 0%N :: rest) = p :: split_nul rest.
Proof.
  induction 1 as [|b p Hb _ IH]; [done|]. cbn. by rewrite (proj2 (N.eqb_neq _ _) Hb) IH.
Qed.
(** [git ls-files -z] lists names that each end in a NUL. *)
Definition listed (paths : list str) : list byte := p ← paths; utf8_encode p ++ [0%N].
Lemma split_listed paths : Forall (λ p, valid_text p ∧ 0%N ∉ p) paths → split_nul (listed paths) = (utf8_encode <$> paths) ++ [[]].
Proof.
  induction 1 as [|p ps [Hv Hn] _ IH]; [done|]. unfold listed in *. cbn. rewrite -app_assoc /=. rewrite split_nul_piece; [by apply encode_no_nul|]. by rewrite IH.
Qed.
Lemma encode_nonempty p : p ≠ [] → ∃ b r, utf8_encode p = b :: r.
Proof. destruct p as [|c p]; [done|]. intros _. rewrite utf8_encode_cons. unfold utf8_encode_char. repeat case_match; by do 2 eexists. Qed.

Section new_files.
Context `{GitBytes}.

(** The patch holds the changes of the index, then those of the files, then each new
    file that git lists, in its order and under its own name; names are those that
    are UTF-8. *)
Theorem patches_hold_all_changes root w staged unstaged paths (diff_of : str → list byte) :
  run_git_diff_bytes root staged_args w = (w, Ok staged) →
  run_git_diff_bytes root unstaged_args w = (w, Ok unstaged) →
  run_git_command_bytes root untracked_args w = (w, Ok (listed paths)) →
  Forall (λ p, p ≠ [] ∧ valid_text p ∧ (0%N ∉ p)) paths →
  (∀ p, p ∈ paths → run_git_diff_bytes root (untracked_diff_args p) w = (w, Ok (diff_of p))) →
  worktree_patch root w = (w, Ok (staged ++ unstaged ++ (p ← paths; diff_of p))).
Proof.
  intros Hs Hu Hl Hp Hd. unfold worktree_patch, mbind at 1, W_bind at 1. rewrite Hs. unfold mbind at 1, W_bind at 1. rewrite Hu.
  unfold mbind at 1, W_bind at 1. rewrite Hl split_listed; [eapply Forall_impl; [exact Hp|by intros p (_ & ? & ?)]|].
  rewrite app_assoc. generalize (staged ++ unstaged). clear Hs Hu Hl.
  induction paths as [|p ps IH]; intros patch; [cbn; by rewrite app_nil_r|].
  apply Forall_cons in Hp as [(Hne & Hv & _) Hp]. destruct (encode_nonempty p Hne) as (b & r & Hb).
  pose proof (lossy_of_text p Hv) as Hlossy. cbn [fmap list_fmap app]. rewrite Hb in Hlossy |- *. cbn [untracked_patches]. rewrite Hlossy.
  unfold mbind at 1, W_bind at 1. rewrite Hd; [by left|]. rewrite IH; [done|intros; apply Hd; by right|]. by rewrite /= app_assoc.
Qed.
End new_files.

(** A name that is not UTF-8 is not asked for. *)
Example names_that_are_not_utf8 : from_utf8_lossy [97; 255]%N = [97; 65533]%N ∧ utf8_encode [97; 65533]%N ≠ [97; 255]%N.
Proof. split; [vm_compute; reflexivity|vm_compute; discriminate]. Qed.

(** ** Witnesses *)

(** A parent that is clean, a worktree with a staged change and a new file; the world
    counts the patches that were applied. *)
Definition change_host : Host := {|
  target_os := OtherOS; World := list (str * list byte);
  is_dir := λ _ _, true; is_file := λ _ _, false; path_exists := λ _ _, false;
  read_dir_is_empty := λ _ _, Ok true; read_to_string := λ _ _, Ok [];
  create_dir_all := λ _ w, (w, Ok tt); remove_dir_all := λ _ w, (w, Ok tt);
  copy_file := λ _ _ w, (w, Ok tt); rename_file := λ _ _ w, (w, Ok tt); remove_file := λ _ w, (w, Ok tt);
  write_file := λ _ _ w, (w, Ok tt); git := λ _ _ w, (w, Err []); new_uuid := λ w, (w, []);
  unix_seconds := λ _, 0%N; env_var := λ _ _, None; passwd_dir := λ _, None
|}.
Definition change_git : @GitBytes change_host := @Build_GitBytes change_host
  (λ _ args w, (w, Ok (MkBytesOutput true (Some 0%Z)
    (if bool_decide (args = staged_args) then utf8_encode "staged;"
     else if bool_decide (args = untracked_args) then listed ["new.txt" : str]
     else if bool_decide (args = @untracked_diff_args change_host "new.txt") then utf8_encode "new" else []) [])))
  (λ root _ patch (w : list (str * list byte)), ((root, patch) :: w, Finished (MkBytesOutput true (Some 0%Z) [] []))).
Definition change_workspaces : gmap str WorkspaceEntry :=
  {["p" : str := MkWorkspaceEntry "p" "app" "/app" Main None None WorkspaceSettings_default;
    "t" : str := MkWorkspaceEntry "t" "tree" "/tree" Worktree (Some ("p" : str)) None WorkspaceSettings_default]}.

Lemma only_clean_parents_are_changed_witness :
  let run := @apply_worktree_changes_core change_host change_git change_workspaces "t" [] in
  run.1 = [("/app" : str, utf8_encode "staged;new")] ∧ run.2 = Ok tt ∧
  ∃ parent_root patch w2 process, @applicable change_host change_git change_workspaces "t" [] parent_root patch w2 ∧
    @git_fed change_host change_git parent_root ["apply" : str; "--3way" : str; "--whitespace=nowarn" : str; "-" : str] patch w2 = (run.1, process).
Proof.
  assert (@apply_worktree_changes_core change_host change_git change_workspaces "t" [] = ([("/app" : str, utf8_encode "staged;new")], Ok tt)) as Hr
    by (vm_compute; reflexivity).
  intros run. unfold run. rewrite Hr. split_and!; [done..|].
  destruct (@only_clean_parents_are_changed change_host change_git _ _ _ _ _ Hr) as [(_ & Hf & _)|(pr & patch & w2 & process & Ha & _ & Hg & _)];
    [discriminate|by exists pr, patch, w2, process].
Defined.
Lemma patches_hold_all_changes_witness :
  @worktree_patch change_host change_git "/tree" [] = ([], Ok (utf8_encode "staged;" ++ [] ++ (p ← ["new.txt" : str]; utf8_encode "new"))).
Proof.
  apply (@patches_hold_all_changes change_host change_git "/tree" [] (utf8_encode "staged;") [] ["new.txt" : str] (λ _, utf8_encode "new")).
  - vm_compute. reflexivity.
  - vm_compute. reflexivity.
  - vm_compute. reflexivity.
  - apply Forall_singleton. split_and!; [discriminate| |].
    + unfold valid_text. apply Forall_forall. intros c Hc. vm_compute in Hc. repeat (apply elem_of_cons in Hc as [->|Hc]; [reflexivity|]).
      by apply not_elem_of_nil in Hc.
    + vm_compute. intros Hc. repeat (apply elem_of_cons in Hc as [Hc|Hc]; [discriminate|]). by apply not_elem_of_nil in Hc.
  - intros p ->%list_elem_of_singleton. vm_compute. reflexivity.
Defined.
