(* ===== verification/MentionCodec.v ===== *)
(** Mentions in the history of messages ([codex-rs/tui/src/mention_codec.rs]):
    [$name] is stored as a link [\[$name\](path)] and read back. The code walks over
    bytes and looks at ASCII characters only, which never are part of another
    character, so positions are what is left of the text here. *)
From S2P Require Import Prelude Host.
From Stdlib Require Import Lia.

Definition TOOL_MENTION_SIGIL : char := 36.
Definition PLUGIN_TEXT_MENTION_SIGIL : char := 64.
Definition ch_open_bracket : char := 91.
Definition ch_close_bracket : char := 93.
Definition ch_open_paren : char := 40.
Definition ch_close_paren : char := 41.

Record LinkedMention := MkMention { mention : str; path : str }.
Record DecodedHistoryText := MkDecoded { decoded_text : str; mentions : list LinkedMention }.

Definition is_mention_name_char (c : char) : bool := is_ascii_alphanumeric c || (c =? 95)%N || (c =? 45)%N.
Definition is_common_env_var (name : str) : bool :=
  let upper := to_ascii_uppercase name in
  existsb (λ v, upper =s? v)
    ["PATH" : str; "HOME" : str; "USER" : str; "SHELL" : str; "PWD" : str; "TMPDIR" : str; "TEMP" : str; "TMP" : str; "LANG" : str;
     "TERM" : str; "XDG_CONFIG_HOME" : str].
(** [path.rsplit(\['/', '\\'\]).next()]: what comes after the last separator. *)
Fixpoint after_last_separator (s : str) : str :=
  match s with
  | [] => []
  | c :: r => if existsb (λ d, (d =? ch_slash)%N || (d =? ch_backslash)%N) r then after_last_separator r
              else if (c =? ch_slash)%N || (c =? ch_backslash)%N then r else s
  end.
Definition is_tool_path (path : str) : bool :=
  starts_with "app://" path || starts_with "mcp://" path || starts_with "plugin://" path || starts_with "skill://" path
  || eq_ignore_ascii_case (after_last_separator path) "SKILL.md".

(** The longest run of characters of a kind, and the rest. *)
Fixpoint span (f : char → bool) (s : str) : str * str :=
  match s with
  | c :: r => if f c then let '(a, b) := span f r in (c :: a, b) else ([], s)
  | [] => ([], [])
  end.

(** [u8::is_ascii_whitespace] *)
Definition is_ascii_whitespace (c : char) : bool := (c =? 9)%N || (c =? 10)%N || (c =? 12)%N || (c =? 13)%N || (c =? 32)%N.

(** ** Encoding *)

Abbreviation Queues := (gmap str (list str)).
Definition queue_mention (queues : Queues) (m : LinkedMention) : Queues :=
  <[mention m := unwrap_or [] (queues !! mention m) ++ [path m]]> queues.
Definition mentions_by_name (ms : list LinkedMention) : Queues := foldl queue_mention ∅ ms.
(** [get_mut(name).and_then(VecDeque::pop_front)] *)
Definition pop_front (queues : Queues) (name : str) : option (str * Queues) :=
  match queues !! name with
  | Some (path :: rest) => Some (path, <[name := rest]> queues)
  | _ => None
  end.
Definition link (name path : str) : str :=
  ch_open_bracket :: TOOL_MENTION_SIGIL :: name ++ [ch_close_bracket; ch_open_paren] ++ path ++ [ch_close_paren].

(** Each round takes a character at least. *)
Fixpoint encode_loop (fuel : nat) (queues : Queues) (text : str) : str :=
  match fuel, text with
  | S fuel, c :: r =>
      let '(name, rest) := span is_mention_name_char r in
      match (if (c =? TOOL_MENTION_SIGIL)%N && negb (is_empty name) then pop_front queues name else None) with
      | Some (path, queues) => link name path ++ encode_loop fuel queues rest
      | None => c :: encode_loop fuel queues r
      end
  | _, _ => []
  end.
Definition encode_history_mentions (text : str) (ms : list LinkedMention) : str :=
  if is_empty ms || is_empty text then text else encode_loop (length text) (mentions_by_name ms) text.

(** ** Decoding *)

(** What follows the opening bracket: the name, the path and the rest. *)
Definition parse_linked_tool_mention (after_bracket : str) (sigil : char) : option (str * str * str) :=
  match after_bracket with
  | c :: r =>
      if negb (c =? sigil)%N then None
      else
        let '(name, r) := span is_mention_name_char r in
        if is_empty name then None
        else
          match r with
          | c :: r =>
              if negb (c =? ch_close_bracket)%N then None
              else
                match drop_while is_ascii_whitespace r with
                | c :: r =>
                    if negb (c =? ch_open_paren)%N then None
                    else
                      let '(path, r) := span (λ d, negb (d =? ch_close_paren)%N) r in
                      match r with
                      | _ :: rest => let path := trim path in if is_empty path then None else Some (name, path, rest)
                      | [] => None
                      end
                | [] => None
                end
          | [] => None
          end
  | [] => None
  end.
Definition parse_history_linked_mention (after_bracket : str) : option (str * str * str) :=
  let accepted ok := λ '(name, path, rest), if negb (is_common_env_var name) && ok path then Some (name, path, rest) else None in
  or_else (parse_linked_tool_mention after_bracket TOOL_MENTION_SIGIL ≫= accepted is_tool_path)
    (parse_linked_tool_mention after_bracket PLUGIN_TEXT_MENTION_SIGIL ≫= accepted (starts_with "plugin://")).
Fixpoint decode_loop (fuel : nat) (text : str) : DecodedHistoryText :=
  match fuel, text with
  | S fuel, c :: r =>
      match (if (c =? ch_open_bracket)%N then parse_history_linked_mention r else None) with
      | Some (name, path, rest) =>
          let d := decode_loop fuel rest in
          MkDecoded (TOOL_MENTION_SIGIL :: name ++ decoded_text d) (MkMention name path :: mentions d)
      | None => let d := decode_loop fuel r in MkDecoded (c :: decoded_text d) (mentions d)
      end
  | _, _ => MkDecoded [] []
  end.
Definition decode_history_mentions (text : str) : DecodedHistoryText := decode_loop (length text) text.

(** ** Round trip *)

(** A mention that a link can hold. *)
Definition storable (m : LinkedMention) : Prop :=
  is_common_env_var (mention m) = false ∧ is_tool_path (path m) = true ∧ trim (path m) = path m ∧ path m ≠ [] ∧ (ch_close_paren ∉ path m).
(** A text in which no bracket opens something like a link. *)
Fixpoint linkless (s : str) : bool :=
  match s with
  | c :: r => negb ((c =? ch_open_bracket)%N && match r with d :: _ => (d =? TOOL_MENTION_SIGIL)%N || (d =? PLUGIN_TEXT_MENTION_SIGIL)%N | [] => false end)
              && linkless r
  | [] => true
  end.
(** The mentions that stand in the text, each with the first path that is left for
    its name. *)
Fixpoint placed (fuel : nat) (queues : Queues) (text : str) : list LinkedMention :=
  match fuel, text with
  | S fuel, c :: r =>
      let '(name, rest) := span is_mention_name_char r in
      match (if (c =? TOOL_MENTION_SIGIL)%N && negb (is_empty name) then pop_front queues name else None) with
      | Some (path, queues) => MkMention name path :: placed fuel queues rest
      | None => placed fuel queues r
      end
  | _, _ => []
  end.
Definition placed_mentions (text : str) (ms : list LinkedMention) : list LinkedMention := placed (length text) (mentions_by_name ms) text.

Lemma span_spec f s : s = (span f s).1 ++ (span f s).2 ∧ Forall (λ c, f c = true) (span f s).1 ∧ length (span f s).2 <= length s.
Proof.
  induction s as [|c s (Hs & Hf & Hl)]; cbn; [done|]. destruct (f c) eqn:Hc; [|done]. destruct (span f s) as [a b]. cbn in *.
  split; [by rewrite -Hs|]. split; [by constructor|lia].
Qed.
Lemma span_app f a c r : Forall (λ d, f d = true) a → f c = false → span f (a ++ c :: r) = (a, c :: r).
Proof. intros Ha Hc. induction Ha as [|d a Hd _ IH]; cbn; [by rewrite Hc|]. by rewrite Hd IH. Qed.
Lemma linkless_drop a b : linkless (a ++ b) = true → linkless b = true.
Proof. induction a as [|c a IH]; [done|]. cbn. intros [_ Hl]%andb_true_iff. auto. Qed.

Lemma parse_link name p rest : name ≠ [] → Forall (λ c, is_mention_name_char c = true) name → storable (MkMention name p) →
  parse_history_linked_mention (TOOL_MENTION_SIGIL :: name ++ [ch_close_bracket; ch_open_paren] ++ p ++ ch_close_paren :: rest) = Some (name, p, rest).
Proof.
  intros Hne Hn (Henv & Htool & Htrim & Hp & Hparen). cbn [mention path] in Henv, Htool, Htrim, Hp, Hparen.
  unfold parse_history_linked_mention. assert (parse_linked_tool_mention (TOOL_MENTION_SIGIL :: name ++ [ch_close_bracket; ch_open_paren] ++ p ++ ch_close_paren :: rest)
    TOOL_MENTION_SIGIL = Some (name, p, rest)) as ->; [|by cbn [mbind option_bind]; rewrite Henv Htool].
  unfold parse_linked_tool_mention. rewrite N.eqb_refl. cbn [negb app]. rewrite span_app //.
  rewrite (proj2 (is_empty_false name) Hne) N.eqb_refl. cbn [negb drop_while]. change (is_ascii_whitespace ch_open_paren) with false. cbv iota.
  rewrite N.eqb_refl. cbn [negb]. rewrite span_app //.
  - apply Forall_forall. intros c Hc. apply negb_true_iff, N.eqb_neq. intros ->. done.
  - rewrite Htrim. by rewrite (proj2 (is_empty_false p) Hp).
Qed.
Lemma parse_none c r : c ≠ TOOL_MENTION_SIGIL → c ≠ PLUGIN_TEXT_MENTION_SIGIL → parse_history_linked_mention (c :: r) = None.
Proof.
  intros H1%N.eqb_neq H2%N.eqb_neq. unfold parse_history_linked_mention, parse_linked_tool_mention. by rewrite H1 H2.
Qed.

Definition queues_ok (q : Queues) : Prop := ∀ name ps, q !! name = Some ps → Forall (λ p, storable (MkMention name p)) ps.
Lemma queues_ok_by_name ms : Forall storable ms → queues_ok (mentions_by_name ms).
Proof.
  unfold mentions_by_name. assert (queues_ok ∅) as H0 by (by intros ? ?; rewrite lookup_empty). revert H0. generalize (∅ : Queues).
  induction ms as [|[n p] ms IH]; intros q Hq; [done|]. intros [Hm Hms]%Forall_cons. cbn. apply IH; [|done].
  intros name ps. unfold queue_mention. cbn. destruct (decide (n = name)) as [->|Hne].
  - rewrite lookup_insert_eq. intros [= <-]. apply Forall_app. split; [|by constructor].
    destruct (q !! name) as [ps|] eqn:Hl; [by apply Hq|constructor].
  - rewrite lookup_insert_ne //. apply Hq.
Qed.
Lemma pop_front_ok q name p q' : queues_ok q → pop_front q name = Some (p, q') → storable (MkMention name p) ∧ queues_ok q'.
Proof.
  intros Hq. unfold pop_front. destruct (q !! name) as [[|p' ps]|] eqn:Hl; [done| |done]. intros [= -> <-].
  pose proof (Hq _ _ Hl) as [Hp Hps]%Forall_cons. split; [done|]. intros n ps'. destruct (decide (name = n)) as [<-|Hne].
  - rewrite lookup_insert_eq. by intros [= <-].
  - rewrite lookup_insert_ne //. apply Hq.
Qed.
(** Encoding changes the beginning of a text only where a mention stands. *)
Lemma encode_head fuel q d r : d ≠ TOOL_MENTION_SIGIL → ∃ r', encode_loop (S fuel) q (d :: r) = d :: r'.
Proof. intros Hd%N.eqb_neq. cbn [encode_loop]. destruct (span is_mention_name_char r) as [name rest]. rewrite Hd. by eexists. Qed.

Lemma decode_encode fuel q text fuel' : length text <= fuel → queues_ok q → linkless text = true →
  length (encode_loop fuel q text) <= fuel' →
  decode_loop fuel' (encode_loop fuel q text) = MkDecoded text (placed fuel q text).
Proof.
  revert q text fuel'. induction fuel as [|fuel IH]; intros q text fuel' Hl Hq Hk Hf.
  { destruct text; [|cbn in Hl; lia]. by destruct fuel'. }
  destruct text as [|c r]; [by destruct fuel'|]. cbn [encode_loop placed] in *. cbn in Hl.
  destruct (span is_mention_name_char r) as [name rest] eqn:Hsp. pose proof (span_spec is_mention_name_char r) as (Hr & Hn & Hlen).
  rewrite Hsp in Hr, Hn, Hlen. cbn in Hr, Hn, Hlen.
  destruct (if (c =? TOOL_MENTION_SIGIL)%N && negb (is_empty name) then pop_front q name else None) as [[p q']|] eqn:Hpop.
  - destruct (N.eqb_spec c TOOL_MENTION_SIGIL) as [->|]; [|done]. destruct (is_empty name) eqn:He; [done|]. apply is_empty_false in He. cbn in Hpop.
    apply pop_front_ok in Hpop as [Hst Hq']; [|done]. destruct fuel' as [|fuel']; [cbn in Hf; lia|].
    assert (link name p ++ encode_loop fuel q' rest = ch_open_bracket :: TOOL_MENTION_SIGIL ::
      name ++ [ch_close_bracket; ch_open_paren] ++ p ++ ch_close_paren :: encode_loop fuel q' rest) as Hlink
      by (unfold link; cbn; by rewrite -!app_assoc /= -!app_assoc).
    rewrite Hlink in Hf |- *. cbn [decode_loop]. rewrite N.eqb_refl.
    rewrite parse_link // IH //; [lia| | |by rewrite Hr].
    + rewrite Hr in Hk. apply (linkless_drop (TOOL_MENTION_SIGIL :: name)). exact Hk.
    + cbn in Hf. rewrite length_app /= length_app /= in Hf. lia.
  - destruct fuel' as [|fuel']; [cbn in Hf; lia|]. cbn [decode_loop]. cbn in Hf.
    assert ((if (c =? ch_open_bracket)%N then parse_history_linked_mention (encode_loop fuel q r) else None) = None) as ->.
    { destruct (N.eqb_spec c ch_open_bracket) as [->|]; [|done]. destruct r as [|d r]; [by destruct fuel|].
      cbn [linkless] in Hk. apply andb_true_iff in Hk as [[H1 H2]%negb_true_iff%orb_false_iff _].
      apply N.eqb_neq in H1, H2. destruct fuel as [|fuel]; [done|]. destruct (encode_head fuel q d r H1) as [r' ->]. by apply parse_none. }
    rewrite IH //; [lia| |lia]. cbn [linkless] in Hk. by apply andb_true_iff in Hk as [_ ?].
Qed.

(** C27. A message whose mentions are stored with it is read back: its text, and the
    mentions that stand in it, each with its path. This holds for texts in which no `[`
    is followed by `$` or `@`, and for mentions whose name is none of the common
    environment variables and whose path is one of a tool, has no white space at its
    ends and no closing parenthesis. *)
Theorem stored_mentions_are_read_back text ms : linkless text = true → Forall storable ms →
  decode_history_mentions (encode_history_mentions text ms) = MkDecoded text (placed_mentions text ms).
Proof.
  intros Hk Hms. unfold decode_history_mentions, encode_history_mentions, placed_mentions.
  destruct (is_empty ms || is_empty text) eqn:He; [|by apply decode_encode; [lia|apply queues_ok_by_name| |lia]].
  assert (encode_loop (length text) (mentions_by_name ms) text = text) as Hid.
  { apply orb_true_iff in He as [->%is_empty_true | ->%is_empty_true]; [|done]. clear Hk Hms. unfold mentions_by_name. cbn [foldl].
    assert (∀ fuel t, length t <= fuel → encode_loop fuel ∅ t = t) as Hgen; [|by apply Hgen].
    induction fuel as [|fuel IH]; intros [|c t] Hl; cbn in Hl; try done; [lia|]. cbn [encode_loop]. destruct (span is_mention_name_char t) as [name rest].
    unfold pop_front. rewrite lookup_empty. assert (encode_loop fuel ∅ t = t) as Ht by (apply IH; lia).
    destruct (_ && _); by rewrite Ht. }
  pose proof (decode_encode (length text) (mentions_by_name ms) text (length text)) as Hd. rewrite Hid in Hd.
  apply Hd; [lia|by apply queues_ok_by_name|done|lia].
Qed.
Lemma stored_mentions_are_read_back_witness :
  let ms := [MkMention "sheets" "app://sheets"; MkMention "fmt" "/skills/fmt/SKILL.md"] in
  decode_history_mentions (encode_history_mentions "use $sheets, $HOME and $fmt [1]" ms) = MkDecoded "use $sheets, $HOME and $fmt [1]" ms.
Proof.
  intros ms. rewrite (stored_mentions_are_read_back "use $sheets, $HOME and $fmt [1]" ms); [vm_compute; reflexivity| |vm_compute; reflexivity].
  apply Forall_cons; split; [|apply Forall_cons; split; [|by apply Forall_nil]];
    (split_and!; [vm_compute; reflexivity..|discriminate|vm_compute; intros Hc;
      repeat (apply elem_of_cons in Hc as [Hc|Hc]; [discriminate|]); by apply not_elem_of_nil in Hc]).
Defined.

(** A mention with the name of a common environment variable is stored as a link that
    is not read. *)
Example names_of_variables_are_not_read_back :
  decode_history_mentions (encode_history_mentions "use $shell" [MkMention "shell" "/skills/shell/SKILL.md"])
  = MkDecoded "use [$shell](/skills/shell/SKILL.md)" [].
Proof. vm_compute. reflexivity. Qed.
(** A bracket before one mention takes the next one for its path. *)
Example brackets_can_take_a_mention :
  let d := decode_history_mentions (encode_history_mentions "see [$fmt] ($b) for more" [MkMention "b" "/skills/b/SKILL.md"]) in
  decoded_text d ≠ "see [$fmt] ($b) for more".
Proof. vm_compute. discriminate. Qed.
(** A path with a closing parenthesis is cut there, and what is left of it becomes
    text. *)
Example parentheses_of_paths_end_the_link :
  let d := decode_history_mentions (encode_history_mentions "$fmt" [MkMention "fmt" "/a (b)/skills/SKILL.md"]) in
  decoded_text d ≠ "$fmt".
Proof. vm_compute. discriminate. Qed.
