(* ===== verification/ComposerHistory.v ===== *)
(** The history of messages of the composer
    ([codex-rs/tui/src/bottom_pane/chat_composer_history.rs]): Up and Down through the
    messages of the log and of the session, and incremental search (Ctrl+R). Messages
    of the log are asked for one at a time and answered later. The cursor of the code
    is signed and never negative. Unicode lower case is the standard library's. *)
From S2P Require Import Prelude TextArea MentionCodec.
From Stdlib Require Import Lia.

(** ** The state *)

Record HistoryEntry := MkEntry {
  entry_text : str;
  entry_elements : list (Range * option str);
  local_image_paths : list str;
  remote_image_urls : list str;
  mention_bindings : list LinkedMention;
  pending_pastes : list (str * str)
}.
#[global] Instance LinkedMention_eq_dec : EqDecision LinkedMention.
Proof. solve_decision. Defined.
#[global] Instance HistoryEntry_eq_dec : EqDecision HistoryEntry.
Proof. solve_decision. Defined.
Definition HistoryEntry_new (text : str) : HistoryEntry :=
  let decoded := decode_history_mentions text in MkEntry (decoded_text decoded) [] [] [] (mentions decoded) [].

Inductive HistorySearchDirection := Older | Newer.
Inductive HistorySearchResult := SearchFound (e : HistoryEntry) | SearchPending | AtBoundary | NotFound.
Inductive HistoryEntryResponse := ResponseFound (e : HistoryEntry) | ResponseSearch (r : HistorySearchResult) | Ignored.

Record UniqueHistoryMatch := MkUnique { unique_offset : nat; unique_entry : HistoryEntry }.
Record PendingHistorySearch := MkPendingSearch { awaited : nat; direction : HistorySearchDirection; boundary_if_exhausted : bool }.
Record HistorySearchState := MkSearch {
  query : str;
  query_lower : str;
  selected_offset : option nat;
  unique_matches : list UniqueHistoryMatch;
  selected_match_index : option nat;
  seen_texts : gset str;
  awaiting : option PendingHistorySearch;
  exhausted_older : bool;
  exhausted_newer : bool
}.
Record ChatComposerHistory := MkHistory {
  history_log_id : option N;
  history_entry_count : nat;
  local_history : list HistoryEntry;
  fetched_history : gmap nat HistoryEntry;
  history_cursor : option nat;
  last_history_text : option str;
  search_state : option HistorySearchState
}.
(** [GetHistoryEntryRequest] *)
Record HistoryRequest := MkRequest { request_offset : nat; request_log : N }.

Section history.
Variable to_lowercase : str → str.

Definition ChatComposerHistory_new : ChatComposerHistory := MkHistory None 0 [] ∅ None None None.
Definition HistorySearchState_new (q : str) : HistorySearchState := MkSearch q (to_lowercase q) None [] None ∅ None false false.

Definition set_search (s : option HistorySearchState) (h : ChatComposerHistory) : ChatComposerHistory :=
  MkHistory (history_log_id h) (history_entry_count h) (local_history h) (fetched_history h) (history_cursor h) (last_history_text h) s.
Definition set_history_cursor (c : option nat) (t : option str) (h : ChatComposerHistory) : ChatComposerHistory :=
  MkHistory (history_log_id h) (history_entry_count h) (local_history h) (fetched_history h) c t (search_state h).
Definition update_search (f : HistorySearchState → HistorySearchState) (h : ChatComposerHistory) : ChatComposerHistory :=
  set_search (f <$> search_state h) h.
Definition set_awaiting (p : option PendingHistorySearch) (s : HistorySearchState) : HistorySearchState :=
  MkSearch (query s) (query_lower s) (selected_offset s) (unique_matches s) (selected_match_index s) (seen_texts s) p (exhausted_older s) (exhausted_newer s).

Definition set_metadata (log_id : N) (entry_count : nat) (h : ChatComposerHistory) : ChatComposerHistory :=
  MkHistory (Some log_id) entry_count [] ∅ None None None.
Definition record_local_submission (e : HistoryEntry) (h : ChatComposerHistory) : ChatComposerHistory :=
  if is_empty (entry_text e) && is_empty (entry_elements e) && is_empty (local_image_paths e) && is_empty (remote_image_urls e)
     && is_empty (mention_bindings e) && is_empty (pending_pastes e)
  then h
  else
    let h := set_search None (set_history_cursor None None h) in
    if bool_decide (last (local_history h) = Some e) then h
    else MkHistory (history_log_id h) (history_entry_count h) (local_history h ++ [e]) (fetched_history h) (history_cursor h) (last_history_text h) (search_state h).
Definition reset_navigation (h : ChatComposerHistory) : ChatComposerHistory := set_search None (set_history_cursor None None h).
Definition reset_search (h : ChatComposerHistory) : ChatComposerHistory := set_search None h.

Definition should_handle_navigation (text : str) (cursor : nat) (h : ChatComposerHistory) : bool :=
  if Nat.eqb (history_entry_count h) 0 && is_empty (local_history h) then false
  else if is_empty text then true
  else if negb (Nat.eqb cursor 0) && negb (Nat.eqb cursor (str_len text)) then false
  else bool_decide (last_history_text h = Some text).

Definition total_entries (h : ChatComposerHistory) : nat := history_entry_count h + length (local_history h).
Definition entry_at_cached_offset (h : ChatComposerHistory) (offset : nat) : option HistoryEntry :=
  if Nat.leb (history_entry_count h) offset then local_history h !! (offset - history_entry_count h) else fetched_history h !! offset.

(** ** Up and Down *)

Definition populate_history_at_index (i : nat) (h : ChatComposerHistory) : option HistoryEntry * ChatComposerHistory * list HistoryRequest :=
  let found e := (Some e, set_history_cursor (history_cursor h) (Some (entry_text e)) h, []) in
  if Nat.leb (history_entry_count h) i
  then match local_history h !! (i - history_entry_count h) with Some e => found e | None => (None, h, []) end
  else
    match fetched_history h !! i with
    | Some e => found e
    | None => match history_log_id h with Some log_id => (None, h, [MkRequest i log_id]) | None => (None, h, []) end
    end.
Definition navigate_up (h : ChatComposerHistory) : option HistoryEntry * ChatComposerHistory * list HistoryRequest :=
  let h := set_search None h in
  if Nat.eqb (total_entries h) 0 then (None, h, [])
  else
    match history_cursor h with
    | Some O => (None, h, [])
    | Some (S i) => populate_history_at_index i (set_history_cursor (Some i) (last_history_text h) h)
    | None => let i := total_entries h - 1 in populate_history_at_index i (set_history_cursor (Some i) (last_history_text h) h)
    end.
Definition navigate_down (h : ChatComposerHistory) : option HistoryEntry * ChatComposerHistory * list HistoryRequest :=
  let h := set_search None h in
  if Nat.eqb (total_entries h) 0 then (None, h, [])
  else
    match history_cursor h with
    | None => (None, h, [])
    | Some i =>
        if Nat.leb (total_entries h) (i + 1) then (Some (HistoryEntry_new []), set_history_cursor None None h, [])
        else populate_history_at_index (i + 1) (set_history_cursor (Some (i + 1)) (last_history_text h) h)
    end.

(** ** Search *)

Definition is_exhausted (d : HistorySearchDirection) (s : HistorySearchState) : bool :=
  match d with Older => exhausted_older s | Newer => exhausted_newer s end.
Definition mark_exhausted (d : HistorySearchDirection) (s : HistorySearchState) : HistorySearchState :=
  let '(older, newer) := match d with Older => (true, exhausted_newer s) | Newer => (exhausted_older s, true) end in
  MkSearch (query s) (query_lower s) (selected_offset s) (unique_matches s) (selected_match_index s) (seen_texts s) (awaiting s) older newer.
Definition select_match (index : nat) (s : HistorySearchState) : HistorySearchState :=
  match unique_matches s !! index with
  | None => s
  | Some m => MkSearch (query s) (query_lower s) (Some (unique_offset m)) (unique_matches s) (Some index) (seen_texts s) None false false
  end.
(** [partition_point(|m| m.offset > offset)], for offsets that fall. *)
Fixpoint insert_index (offset : nat) (ms : list UniqueHistoryMatch) : nat :=
  match ms with m :: rest => if Nat.ltb offset (unique_offset m) then S (insert_index offset rest) else 0 | [] => 0 end.
Definition record_match (offset : nat) (e : HistoryEntry) (s : HistorySearchState) : HistorySearchState :=
  match index_of (λ m, Nat.eqb (unique_offset m) offset) (unique_matches s) with
  | Some index => select_match index s
  | None =>
      let i := insert_index offset (unique_matches s) in
      select_match i
        (MkSearch (query s) (query_lower s) (selected_offset s) (take i (unique_matches s) ++ MkUnique offset e :: drop i (unique_matches s))
           (selected_match_index s) ({[entry_text e]} ∪ seen_texts s) (awaiting s) (exhausted_older s) (exhausted_newer s))
  end.

Definition search_matches (h : ChatComposerHistory) (e : HistoryEntry) : bool :=
  match search_state h with
  | None => false
  | Some s => is_empty (query s) || is_some_b (find_str (query_lower s) (to_lowercase (entry_text e)))
  end.
Definition search_result_is_unique (h : ChatComposerHistory) (e : HistoryEntry) : bool :=
  match search_state h with Some s => bool_decide (entry_text e ∉ seen_texts s) | None => true end.
Definition search_match (offset : nat) (e : HistoryEntry) (h : ChatComposerHistory) : HistorySearchResult * ChatComposerHistory :=
  let h := set_history_cursor (Some offset) (Some (entry_text e)) h in
  (SearchFound e,
   update_search (λ s,
     let s := record_match offset e
       (MkSearch (query s) (query_lower s) (Some offset) (unique_matches s) (selected_match_index s) (seen_texts s) (awaiting s) (exhausted_older s) (exhausted_newer s)) in
     MkSearch (query s) (query_lower s) (selected_offset s) (unique_matches s) (selected_match_index s) (seen_texts s) None false false) h).

Definition exhausted_search_result (d : HistorySearchDirection) (boundary : bool) (h : ChatComposerHistory) : HistorySearchResult * ChatComposerHistory :=
  let h := update_search (λ s, let s := set_awaiting None s in if boundary then mark_exhausted d s else s) h in
  (if boundary then AtBoundary else NotFound, h).
Definition next_offset (d : HistorySearchDirection) (total offset : nat) : option nat :=
  match d with
  | Older => match offset with O => None | S o => Some o end
  | Newer => if Nat.ltb (offset + 1) total then Some (offset + 1) else None
  end.
(** A round for each entry is enough. *)
Fixpoint advance_loop (fuel : nat) (offset : nat) (d : HistorySearchDirection) (boundary : bool) (h : ChatComposerHistory) :
    HistorySearchResult * ChatComposerHistory * list HistoryRequest :=
  match fuel with
  | O => (NotFound, h, [])
  | S fuel =>
      if negb (Nat.ltb offset (total_entries h)) then (NotFound, h, [])
      else
        let continue := match next_offset d (total_entries h) offset with
                        | Some next => advance_loop fuel next d boundary h
                        | None => (NotFound, h, [])
                        end in
        match entry_at_cached_offset h offset with
        | Some e => if search_matches h e && search_result_is_unique h e then (search_match offset e h, []) else continue
        | None =>
            match history_log_id h with
            | Some log_id =>
                if Nat.ltb offset (history_entry_count h)
                then (SearchPending, update_search (set_awaiting (Some (MkPendingSearch offset d boundary))) h, [MkRequest offset log_id])
                else continue
            | None => continue
            end
        end
  end.
Definition advance_search_from (offset : nat) (d : HistorySearchDirection) (boundary : bool) (h : ChatComposerHistory) :
    HistorySearchResult * ChatComposerHistory * list HistoryRequest :=
  advance_loop (S (total_entries h)) offset d boundary h.
(** A scan from an offset, if there is one; when it finds nothing, the direction is
    exhausted. *)
Definition scan_from (start : option nat) (d : HistorySearchDirection) (boundary : bool) (h : ChatComposerHistory) :
    HistorySearchResult * ChatComposerHistory * list HistoryRequest :=
  match start with
  | None => (exhausted_search_result d boundary h, [])
  | Some offset =>
      match advance_search_from offset d boundary h with
      | (NotFound, h, requests) => (exhausted_search_result d boundary h, requests)
      | result => result
      end
  end.
Definition advance_search_after (offset : nat) (d : HistorySearchDirection) (boundary : bool) (h : ChatComposerHistory) :
    HistorySearchResult * ChatComposerHistory * list HistoryRequest :=
  scan_from (next_offset d (total_entries h) offset) d boundary h.

Definition search_start_offset (d : HistorySearchDirection) (restart : bool) (h : ChatComposerHistory) : option nat :=
  let selected := s ← search_state h; selected_offset s in
  match d with
  | Older => if restart then match total_entries h with O => None | S n => Some n end
             else offset ← selected; match offset with O => None | S o => Some o end
  | Newer => if restart then Some 0 else offset ← selected; if Nat.ltb (offset + 1) (total_entries h) then Some (offset + 1) else None
  end.
(** [None] is a panic: [unique_matches\[next_index\]]. *)
Definition select_cached_unique_match (d : HistorySearchDirection) (h : ChatComposerHistory) : option (option (HistorySearchResult * ChatComposerHistory)) :=
  match
    s ← search_state h;
    selected ← selected_match_index s;
    index ← match d with
            | Older => if Nat.ltb (selected + 1) (length (unique_matches s)) then Some (selected + 1) else None
            | Newer => match selected with O => None | S i => Some i end
            end;
    Some (s, index)
  with
  | None => Some None
  | Some (s, index) =>
      m ← unique_matches s !! index;
      let h := set_history_cursor (Some (unique_offset m)) (Some (entry_text (unique_entry m))) h in
      Some (Some (SearchFound (unique_entry m), update_search (select_match index) h))
  end.

Definition search (q : str) (d : HistorySearchDirection) (restart : bool) (h : ChatComposerHistory) :
    option (HistorySearchResult * ChatComposerHistory * list HistoryRequest) :=
  if Nat.eqb (total_entries h) 0 then Some (NotFound, set_search (Some (HistorySearchState_new q)) h, [])
  else
    let query_changed := match search_state h with Some s => negb (query s =s? q) | None => true end in
    if negb query_changed && negb restart && is_some_b (s ← search_state h; awaiting s) then Some (SearchPending, h, [])
    else
      let h := if query_changed || restart then set_search (Some (HistorySearchState_new q)) h else update_search (set_awaiting None) h in
      let boundary := negb restart && is_some_b (s ← search_state h; selected_offset s) in
      cached ← (if negb restart && negb query_changed then select_cached_unique_match d h else Some None);
      match cached with
      | Some result => Some (result, [])
      | None =>
          if boundary && match search_state h with Some s => is_exhausted d s | None => false end then Some (AtBoundary, h, [])
          else Some (scan_from (search_start_offset d (query_changed || restart) h) d boundary h)
      end.

(** ** Answers *)

Definition on_entry_response (log_id : N) (offset : nat) (answer : option str) (h : ChatComposerHistory) :
    HistoryEntryResponse * ChatComposerHistory * list HistoryRequest :=
  if negb (bool_decide (history_log_id h = Some log_id)) then (Ignored, h, [])
  else
    let entry := HistoryEntry_new <$> answer in
    let h := match entry with
             | Some e => MkHistory (history_log_id h) (history_entry_count h) (local_history h) (<[offset := e]> (fetched_history h))
                           (history_cursor h) (last_history_text h) (search_state h)
             | None => h
             end in
    let pending := p ← (s ← search_state h; awaiting s); if Nat.eqb (awaited p) offset then Some p else None in
    match pending with
    | Some p =>
        let after := let '(r, h, requests) := advance_search_after offset (direction p) (boundary_if_exhausted p) h in (ResponseSearch r, h, requests) in
        match entry with
        | Some e => if search_matches h e && search_result_is_unique h e
                    then let '(r, h) := search_match offset e h in (ResponseSearch r, h, []) else after
        | None => after
        end
    | None =>
        if bool_decide (history_cursor h = Some offset)
        then match entry with
             | None => (Ignored, h, [])
             | Some e => (ResponseFound e, set_history_cursor (history_cursor h) (Some (entry_text e)) h, [])
             end
        else (Ignored, h, [])
    end.
End history.
