(* ===== verification/ComposerSearch.v ===== *)
(** What is proved of the history of the composer ([ComposerHistory]): searching
    towards older messages lists the messages that match, each text once and the
    newest first, whether they were there or had to be asked for; Up walks over all
    messages. *)
From S2P Require Import Prelude TextArea MentionCodec ComposerHistory.
From Stdlib Require Import Lia.

Section search.
Variable to_lowercase : str → str.
(** The log, and the messages of the session. *)
Variable id : N.
Variable log : nat → option str.
Variable count : nat.
Variable local : list HistoryEntry.
Variable q : str.

(** ** What a search is to find *)

Definition full (o : nat) : option HistoryEntry :=
  if Nat.leb count o then local !! (o - count) else HistoryEntry_new <$> log o.
Definition matches (e : HistoryEntry) : bool := is_empty q || is_some_b (find_str (to_lowercase q) (to_lowercase (entry_text e))).
(** The messages that match below an offset, from the newest. *)
Fixpoint candidates (n : nat) : list (nat * HistoryEntry) :=
  match n with
  | O => []
  | S o => match full o with
           | Some e => if matches e then (o, e) :: candidates o else candidates o
           | None => candidates o
           end
  end.
(** Each text once. *)
Fixpoint uniques (seen : gset str) (l : list (nat * HistoryEntry)) : list (nat * HistoryEntry) :=
  match l with
  | [] => []
  | (o, e) :: rest => if bool_decide (entry_text e ∈ seen) then uniques seen rest else (o, e) :: uniques ({[entry_text e]} ∪ seen) rest
  end.
Definition found (seen : gset str) (n : nat) : list (nat * HistoryEntry) := uniques seen (candidates n).
Definition total : nat := count + length local.

Lemma found_next seen n o e rest : found seen n = (o, e) :: rest →
  o < n ∧ full o = Some e ∧ rest = found ({[entry_text e]} ∪ seen) o ∧ entry_text e ∉ seen.
Proof.
  unfold found. induction n as [|m IH]; cbn [candidates]; [done|]. destruct (full m) as [e'|] eqn:Hf.
  - destruct (matches e'); [|intros Hr; destruct (IH Hr) as (? & ? & ? & ?); split_and!; auto].
    cbn [uniques]. case_bool_decide; [intros Hr; destruct (IH Hr) as (? & ? & ? & ?); split_and!; auto; lia|].
    intros [= -> -> <-]. split_and!; auto.
  - intros Hr. destruct (IH Hr) as (? & ? & ? & ?). split_and!; auto.
Qed.
Lemma found_skip seen o : (∀ e, full o = Some e → matches e && bool_decide (entry_text e ∉ seen) = false) → found seen (S o) = found seen o.
Proof.
  intros Hs. unfold found. cbn [candidates]. destruct (full o) as [e|]; [|done]. specialize (Hs e eq_refl). destruct (matches e); [|done].
  cbn [uniques]. cbn [andb] in Hs. destruct (decide (entry_text e ∈ seen)) as [H1|H1]; [by rewrite bool_decide_true|]. by rewrite bool_decide_true in Hs.
Qed.
Lemma found_here seen o e : full o = Some e → matches e = true → entry_text e ∉ seen →
  found seen (S o) = (o, e) :: found ({[entry_text e]} ∪ seen) o.
Proof. intros Hf Hm Hn. unfold found. cbn [candidates]. rewrite Hf Hm. cbn [uniques]. by rewrite bool_decide_false. Qed.

(** ** States *)

(** The history is that of the log and the session, and what was fetched is from the
    log. *)
Record of_log (h : ChatComposerHistory) : Prop := {
  of_log_id : history_log_id h = Some id;
  of_log_count : history_entry_count h = count;
  of_log_local : local_history h = local;
  of_log_fetched : ∀ o e, o < count → fetched_history h !! o = Some e → full o = Some e
}.
(** A search for the query is on, up to what is awaited. *)
Definition searching (s : HistorySearchState) (h : ChatComposerHistory) : Prop :=
  of_log h ∧ query s = q ∧ query_lower s = to_lowercase q ∧ ∃ p, search_state h = Some (set_awaiting p s).

Lemma total_of_log h : of_log h → total_entries h = total.
Proof. intros [_ Hc Hl _]. unfold total_entries, total. by rewrite Hc Hl. Qed.
Lemma cached_entry h o : of_log h → match entry_at_cached_offset h o with
  | Some e => full o = Some e
  | None => o < count ∨ full o = None
  end.
Proof.
  intros [_ Hc Hl Hf]. unfold entry_at_cached_offset. rewrite Hc Hl. unfold full. destruct (Nat.leb_spec count o).
  - destruct (local !! (o - count)); [done|]. by right.
  - destruct (fetched_history h !! o) as [e|] eqn:He; [|by left]. specialize (Hf o e). unfold full in Hf.
    rewrite (proj2 (Nat.leb_gt count o)) // in Hf. auto.
Qed.
Lemma searching_matches s h e : searching s h → search_matches to_lowercase h e = matches e.
Proof. intros (_ & Hq & Hl & p & Hs). unfold search_matches, matches. rewrite Hs. cbn. by rewrite Hq Hl. Qed.
Lemma searching_unique s h e : searching s h → search_result_is_unique h e = bool_decide (entry_text e ∉ seen_texts s).
Proof. intros (_ & _ & _ & p & Hs). unfold search_result_is_unique. by rewrite Hs. Qed.
Lemma searching_awaiting s h p : searching s h → searching s (update_search (set_awaiting p) h).
Proof. intros ([] & Hq & Hl & p' & Hs). split; [by split|]. split; [done|]. split; [done|]. exists p. cbn. by rewrite Hs. Qed.

(** ** Scans *)

(** How a scan towards older messages ends. *)
Definition scanned (s : HistorySearchState) (n : nat) (b : bool) (r : HistorySearchResult * ChatComposerHistory * list HistoryRequest) : Prop :=
  match found (seen_texts s) n with
  | (o, e) :: _ => ∃ h, searching s h ∧ r = (search_match o e h, [])
  | [] => ∃ h, searching s h ∧ r = (exhausted_search_result Older b h, [])
  end.
(** Or where it waits for an answer. *)
Definition waits (s : HistorySearchState) (n : nat) (b : bool) (r : HistorySearchResult * ChatComposerHistory * list HistoryRequest) : Prop :=
  ∃ o h, o < n ∧ o < count ∧ found (seen_texts s) n = found (seen_texts s) (S o) ∧ searching s h ∧
    (s' ← search_state h; awaiting s') = Some (MkPendingSearch o Older b) ∧ r = (SearchPending, h, [MkRequest o id]).

Lemma advance_older s b h n fuel : searching s h → n < fuel → n < total →
  let r := advance_loop to_lowercase fuel n Older b h in
  (r = (NotFound, h, []) ∧ found (seen_texts s) (S n) = []) ∨
  (∃ o e rest, found (seen_texts s) (S n) = (o, e) :: rest ∧ r = (search_match o e h, [])) ∨
  waits s (S n) b r.
Proof.
  intros Hs. revert n. induction fuel as [|fuel IH]; intros n Hn Hlt; [lia|]. cbn [advance_loop]. destruct Hs as (Hol & Hs). pose proof (conj Hol Hs : searching s h) as Hsearch.
  rewrite total_of_log // (proj2 (Nat.ltb_lt _ _) Hlt). cbn [negb]. pose proof (cached_entry h n Hol) as Hcached.
  set (continue := match next_offset Older total n with Some next => _ | None => _ end).
  assert ((∀ e, full n = Some e → matches e && bool_decide (entry_text e ∉ seen_texts s) = false) →
    (continue = (NotFound, h, []) ∧ found (seen_texts s) (S n) = []) ∨
    (∃ o e rest, found (seen_texts s) (S n) = (o, e) :: rest ∧ continue = (search_match o e h, [])) ∨ waits s (S n) b continue) as Hcont.
  { intros Hskip. pose proof (found_skip _ _ Hskip) as Heq. subst continue. destruct n as [|m]; cbn [next_offset].
    - left. split; [done|]. by rewrite Heq.
    - rewrite Heq. destruct (IH m) as [?|[?|(o & h' & ? & ? & ? & ? & ? & ?)]]; [lia|lia|by left|by right; left|]. right; right.
      exists o, h'. split_and!; [lia|done|by rewrite Heq|done..]. }
  destruct (entry_at_cached_offset h n) as [e|].
  - rewrite (searching_matches s) // (searching_unique s) //. destruct (matches e && bool_decide _) eqn:Hm.
    + apply andb_true_iff in Hm as [Hm Hu%bool_decide_eq_true]. right; left. rewrite (found_here _ _ _ Hcached Hm Hu). by do 3 eexists.
    + apply Hcont. intros e'. rewrite Hcached. by intros [= <-].
  - rewrite (of_log_id _ Hol) (of_log_count _ Hol). destruct (Nat.ltb_spec n count).
    + right; right. exists n, (update_search (set_awaiting (Some (MkPendingSearch n Older b))) h).
      split_and!; auto; [by apply searching_awaiting|]. destruct Hs as (_ & _ & p & Hst). cbn. by rewrite Hst.
    + apply Hcont. intros e. destruct Hcached as [|Hnone]; [lia|]. congruence.
Qed.
Lemma scan_older s b h n : searching s h → n <= total →
  let r := scan_from to_lowercase (match n with O => None | S o => Some o end) Older b h in
  scanned s n b r ∨ waits s n b r.
Proof.
  intros Hs Hn. destruct n as [|n]; cbn [scan_from].
  - left. exists h. done.
  - unfold advance_search_from. rewrite total_of_log; [apply Hs|].
    destruct (advance_older s b h n (S total) Hs) as [[-> Hf]|[(o & e & rest & Hf & ->)|Hw]]; [lia|lia| | |].
    + left. unfold scanned. rewrite Hf. by exists h.
    + left. unfold scanned. rewrite Hf. exists h. unfold search_match. done.
    + right. destruct Hw as (o & h' & H1 & H2 & H3 & H4 & H5 & ->). by exists o, h'.
Qed.

(** The log answers until nothing is awaited. *)
Fixpoint settle (fuel : nat) (r : HistorySearchResult * ChatComposerHistory * list HistoryRequest) :
    HistorySearchResult * ChatComposerHistory * list HistoryRequest :=
  match fuel, r with
  | S fuel, (SearchPending, h, [MkRequest o log_id]) =>
      match on_entry_response to_lowercase log_id o (log o) h with
      | (ResponseSearch r, h, requests) => settle fuel (r, h, requests)
      | (_, h, requests) => (SearchPending, h, requests)
      end
  | _, _ => r
  end.
Lemma settled_scan s n b r fuel : scanned s n b r → settle fuel r = r.
Proof.
  unfold scanned. destruct (found _ _) as [|[o e] rest]; intros (h & _ & ->); destruct fuel; try done.
  cbn. by destruct b.
Qed.
Lemma settle_scan s b r n fuel : n <= total → n <= fuel → scanned s n b r ∨ waits s n b r → scanned s n b (settle fuel r).
Proof.
  revert n r. induction fuel as [|fuel IH]; intros n r Ht Hf [Hsc|Hw]; [done| |by rewrite (settled_scan s n b)|].
  { destruct Hw as (o & ? & ? & _). lia. }
  destruct Hw as (o & h & Hlt & Hc & Hfound & Hs & Haw & ->). cbn [settle]. unfold on_entry_response.
  destruct Hs as (Hol & Hq & Hl & p & Hst). rewrite (of_log_id _ Hol) bool_decide_true //. cbn [negb].
  set (h1 := match HistoryEntry_new <$> log o with Some e => _ | None => h end).
  assert (full o = HistoryEntry_new <$> log o) as Hfull by (unfold full; by rewrite (proj2 (Nat.leb_gt _ _) Hc)).
  assert (searching s h1) as Hs1.
  { subst h1. split; [|split; [done|split; [done|]]].
    - destruct (HistoryEntry_new <$> log o) as [e|] eqn:He; [|done]. destruct Hol as [Hi Hcnt Hloc Hfe]. split; cbn; [done..|].
      intros o' e' Ho'. destruct (decide (o = o')) as [<-|Hne]; [rewrite lookup_insert_eq; intros [= <-]; by rewrite Hfull|].
      rewrite lookup_insert_ne //. by apply Hfe.
    - exists p. by destruct (HistoryEntry_new <$> log o). }
  assert ((s' ← search_state h1; awaiting s') = Some (MkPendingSearch o Older b)) as Haw1 by (subst h1; by destruct (HistoryEntry_new <$> log o)).
  rewrite Haw1. cbn [mbind option_bind awaited]. rewrite Nat.eqb_refl. cbn [direction boundary_if_exhausted].
  unfold scanned. rewrite Hfound.
  assert ((∀ e, full o = Some e → matches e && bool_decide (entry_text e ∉ seen_texts s) = false) →
    let '(r, h', requests) := advance_search_after to_lowercase o Older b h1 in scanned s (S o) b (settle fuel (r, h', requests))) as Hafter.
  { intros Hskip. unfold scanned. rewrite (found_skip _ _ Hskip). unfold advance_search_after.
    destruct (scan_from to_lowercase (next_offset Older (total_entries h1) o) Older b h1) as [[r h'] requests] eqn:Hr.
    apply (IH o); [lia|lia|]. rewrite -Hr. apply scan_older; [done|lia]. }
  destruct (HistoryEntry_new <$> log o) as [e|].
  - rewrite (searching_matches s) // (searching_unique s) //. destruct (matches e && bool_decide _) eqn:Hm.
    + apply andb_true_iff in Hm as [Hm Hu%bool_decide_eq_true]. unfold scanned. rewrite (found_here _ _ e) //. exists h1. split; [done|].
      unfold search_match. by destruct fuel.
    + destruct (advance_search_after _ _ _ _ h1) as [[r h'] requests]. apply Hafter. intros e'. rewrite Hfull. by intros [= <-].
  - destruct (advance_search_after _ _ _ _ h1) as [[r h'] requests]. apply Hafter. intros e'. by rewrite Hfull.
Qed.

(** ** One search after the other *)

Definition all_found : list (nat * HistoryEntry) := found ∅ total.
(** A search has shown the first [k] of what is to be found, and is to go on below
    an offset. *)
Record shown_first (k bound : nat) (s : HistorySearchState) : Prop := {
  shown_matches : unique_matches s = (λ m, MkUnique m.1 m.2) <$> take k all_found;
  shown_count : k <= length all_found;
  shown_above : Forall (λ m, bound <= unique_offset m) (unique_matches s);
  shown_rest : drop k all_found = found (seen_texts s) bound;
  shown_bound : bound <= total;
  shown_selected : match k with
                   | O => selected_offset s = None ∧ selected_match_index s = None
                   | S i => selected_offset s = Some bound ∧ selected_match_index s = Some i
                   end
}.
Lemma record_new_match o e s : Forall (λ m, o < unique_offset m) (unique_matches s) →
  record_match o e s = MkSearch (query s) (query_lower s) (Some o) (unique_matches s ++ [MkUnique o e]) (Some (length (unique_matches s)))
    ({[entry_text e]} ∪ seen_texts s) None false false.
Proof.
  intros Ho. unfold record_match.
  assert (index_of (λ m, Nat.eqb (unique_offset m) o) (unique_matches s) = None ∧ insert_index o (unique_matches s) = length (unique_matches s)) as [-> ->].
  { induction Ho as [|m ms Hm _ [IH1 IH2]]; [done|]. cbn [index_of insert_index]. rewrite (proj2 (Nat.eqb_neq _ _)); [lia|].
    by rewrite IH1 (proj2 (Nat.ltb_lt _ _) Hm) IH2. }
  rewrite firstn_all drop_all. unfold select_match. cbn [unique_matches]. by rewrite list_lookup_middle.
Qed.
Lemma take_snoc {A} k (l : list A) x rest : drop k l = x :: rest → take (S k) l = take k l ++ [x] ∧ drop (S k) l = rest ∧ S k <= length l ∧ l !! k = Some x.
Proof.
  intros Hd. assert (k < length l) as Hk by (apply Nat.nle_gt; intros Hk; by rewrite drop_ge in Hd).
  assert (l !! k = Some x) as Hl by (rewrite -(Nat.add_0_r k) -lookup_drop Hd //).
  split; [by apply take_S_r|]. split; [|split; [lia|done]]. rewrite -Nat.add_1_r -drop_drop Hd. by destruct rest.
Qed.
Lemma shown_next k bound s h o e rest : searching s h → shown_first k bound s → drop k all_found = (o, e) :: rest →
  ∃ s', searching s' (search_match o e h).2 ∧ search_state (search_match o e h).2 = Some (set_awaiting None s') ∧ shown_first (S k) o s'.
Proof.
  intros (Hol & Hq & Hl & p & Hst) [Hm Hk Ha Hr Hb Hsel] Hd. rewrite Hr in Hd. pose proof (found_next _ _ _ _ _ Hd) as (Hlt & Hf & Hrest & Hnew).
  rewrite -Hr in Hd. destruct (take_snoc _ _ _ _ Hd) as (Ht & Hdr & Hlen & _).
  assert (length (unique_matches s) = k) as Hlen' by (rewrite Hm length_fmap length_take; lia).
  exists (MkSearch q (to_lowercase q) (Some o) (unique_matches s ++ [MkUnique o e]) (Some k) ({[entry_text e]} ∪ seen_texts s) None false false).
  assert (search_state (search_match o e h).2 = Some (MkSearch q (to_lowercase q) (Some o) (unique_matches s ++ [MkUnique o e]) (Some k)
    ({[entry_text e]} ∪ seen_texts s) None false false)) as Hst'.
  { unfold search_match. cbn [snd update_search search_state set_search set_history_cursor]. rewrite Hst. cbn [fmap option_fmap option_map].
    rewrite record_new_match; [eapply Forall_impl; [exact Ha|cbn; lia]|]. cbn. by rewrite Hq Hl Hlen'. }
  split; [|split; [exact Hst'|]].
  - split; [by destruct Hol|]. split; [done|]. split; [done|]. by exists None.
  - split; cbn [unique_matches seen_texts selected_offset selected_match_index].
    + by rewrite Hm Ht fmap_app.
    + done.
    + apply Forall_app. split; [eapply Forall_impl; [exact Ha|cbn; lia]|]. constructor; [done|constructor].
    + by rewrite Hdr Hrest.
    + lia.
    + done.
Qed.
(** Nothing is awaited between searches, and a direction counts as exhausted only
    when it is. *)
Definition progress (k : nat) (h : ChatComposerHistory) : Prop :=
  ∃ s bound, searching s h ∧ search_state h = Some (set_awaiting None s) ∧ shown_first k bound s ∧ (exhausted_older s = true → drop k all_found = []) ∧
    (k = 0 → all_found = []).
Definition older (restart : bool) (h : ChatComposerHistory) : option (HistorySearchResult * ChatComposerHistory * list HistoryRequest) :=
  settle total <$> search to_lowercase q Older restart h.
(** The answer to the search after the first [k]. *)
Definition expected (k : nat) : HistorySearchResult :=
  match all_found !! k with
  | Some (_, e) => SearchFound e
  | None => if is_empty all_found then NotFound else AtBoundary
  end.

(** What a scan leaves. *)
Lemma scanned_progress k bound s b r : shown_first k bound s → scanned s bound b r →
  match drop k all_found with
  | (_, e) :: _ => ∃ h, r = (SearchFound e, h, []) ∧ progress (S k) h
  | [] => ∃ h, r = (if b then AtBoundary else NotFound, h, []) ∧ ((k = 0 → all_found = []) → progress k h)
  end.
Proof.
  intros Hs. unfold scanned. rewrite -(shown_rest _ _ _ Hs). destruct (drop k all_found) as [|[o e] rest] eqn:Hd.
  - intros (h & Hse & ->). eexists. split; [reflexivity|]. intros Hk0. destruct Hse as (Hol & Hq & Hl & p & Hst).
    exists (if b then mark_exhausted Older s else s), bound. set (h' := update_search _ h).
    assert (search_state h' = Some (set_awaiting None (if b then mark_exhausted Older s else s))) as Hst' by (cbn; rewrite Hst; by destruct b).
    split; [|split; [exact Hst'|split; [|done]]].
    + split; [by destruct Hol|]. split; [by destruct b|]. split; [by destruct b|]. by exists None.
    + destruct Hs. by destruct b; split.
  - intros (h & Hse & ->). destruct (shown_next k bound s h o e rest Hse Hs Hd) as (s' & Hse' & Hst' & Hs'). eexists. split; [reflexivity|].
    exists s', o. split_and!; [done..| |done]. intros Hex. exfalso. destruct Hse' as (_ & _ & _ & p & Hp). rewrite Hp in Hst'.
    revert Hex. cbn in Hp. unfold search_match, update_search in Hp. cbn in Hp. destruct (search_state h) as [s0|]; [|done]. injection Hp as _ _ _ _ _ _ _ Hex _. by rewrite -Hex.
Qed.

Lemma expected_drop k : expected k = match drop k all_found with (_, e) :: _ => SearchFound e | [] => if is_empty all_found then NotFound else AtBoundary end.
Proof.
  unfold expected. destruct (drop k all_found) as [|[o e] rest] eqn:Hd.
  - rewrite lookup_ge_None_2 //. apply (f_equal length) in Hd. rewrite length_drop in Hd. cbn in Hd. lia.
  - by destruct (take_snoc _ _ _ _ Hd) as (_ & _ & _ & ->).
Qed.
(** A scan that is settled, after the first [k]. *)
Lemma settled_step k bound s b h : searching s h → shown_first k bound s →
  b = negb (is_empty all_found) ∨ k < length all_found →
  ∃ h', settle total (scan_from to_lowercase (match bound with O => None | S o => Some o end) Older b h) = (expected k, h', []) ∧
        progress (Nat.min (S k) (length all_found)) h'.
Proof.
  intros Hse Hs Hb. assert (scanned s bound b (settle total (scan_from to_lowercase (match bound with O => None | S o => Some o end) Older b h))) as Hsc.
  { apply settle_scan; [apply Hs|apply Hs|]. apply scan_older; [done|apply Hs]. }
  apply (scanned_progress k) in Hsc; [|done]. rewrite expected_drop. pose proof (shown_count _ _ _ Hs) as Hlen.
  destruct (drop k all_found) as [|[o e] rest] eqn:Hd.
  - assert (length all_found <= k) as Hge by (apply (f_equal length) in Hd; rewrite length_drop in Hd; cbn in Hd; lia).
    destruct Hsc as (h' & -> & Hp). exists h'. rewrite Nat.min_r; [lia|]. assert (length all_found = k) as -> by lia.
    destruct Hb as [->|]; [|lia]. split; [by destruct (is_empty all_found)|]. apply Hp. intros ->. apply length_zero_iff_nil. lia.
  - destruct (take_snoc _ _ _ _ Hd) as (_ & _ & Hl & _). destruct Hsc as (h' & -> & Hp). exists h'. by rewrite Nat.min_l.
Qed.
Lemma searching_new h : of_log h → searching (HistorySearchState_new to_lowercase q) (set_search (Some (HistorySearchState_new to_lowercase q)) h).
Proof. intros []. split; [by split|]. split; [done|]. split; [done|]. by exists None. Qed.
Lemma new_shown : shown_first 0 total (HistorySearchState_new to_lowercase q).
Proof. split; cbn; try done; lia. Qed.

Lemma older_first h : of_log h → ∃ h', older true h = Some (expected 0, h', []) ∧ progress (Nat.min 1 (length all_found)) h'.
Proof.
  intros Hol. unfold older, search. rewrite total_of_log //. destruct (Nat.eqb_spec total 0) as [H0|H0].
  - assert (all_found = []) as Hnil by (unfold all_found; by rewrite H0). eexists. split; [unfold expected; rewrite Hnil H0; reflexivity|].
    rewrite Hnil. exists (HistorySearchState_new to_lowercase q), total. split_and!; try done; [by apply searching_new|apply new_shown].
  - cbn [negb]. rewrite andb_false_r. cbn [andb]. rewrite orb_true_r. set (h1 := set_search _ h). cbn [mbind option_bind andb].
    assert (searching (HistorySearchState_new to_lowercase q) h1) as Hse by (by apply searching_new).
    unfold search_start_offset. rewrite total_of_log; [apply Hse|]. cbn [fmap option_fmap option_map].
    destruct (settled_step 0 total _ false h1 Hse new_shown) as (h' & -> & Hp); [|by exists h'].
    destruct all_found; [by left|right; cbn; lia].
Qed.
Lemma older_next k h : progress k h → k <= length all_found → ∃ h', older false h = Some (expected k, h', []) ∧ progress (Nat.min (S k) (length all_found)) h'.
Proof.
  intros (s & bound & Hse & Hst & Hs & Hex & Hk0) Hk. pose proof Hse as (Hol & Hq & Hl & _). unfold older, search. rewrite total_of_log //.
  destruct (Nat.eqb_spec total 0) as [H0|H0].
  { assert (all_found = []) as Hnil by (unfold all_found; by rewrite H0). eexists. split; [unfold expected; rewrite Hnil H0; reflexivity|].
    rewrite Hnil Nat.min_r; [cbn; lia|]. exists (HistorySearchState_new to_lowercase q), total. split_and!; try done; [by apply searching_new|apply new_shown]. }
  rewrite Hst. cbn [query set_awaiting]. rewrite Hq str_eqb_refl. cbn [negb andb orb mbind option_bind awaiting set_awaiting is_some_b].
  set (h1 := update_search (set_awaiting None) h). assert (searching s h1) as Hse1 by (by apply searching_awaiting).
  assert (search_state h1 = Some (set_awaiting None s)) as Hst1 by (cbn; by rewrite Hst).
  assert (length (unique_matches s) = k) as Hlen by (rewrite (shown_matches _ _ _ Hs) length_fmap length_take; lia).
  assert (select_cached_unique_match Older h1 = Some None) as ->.
  { unfold select_cached_unique_match. rewrite Hst1. cbn [mbind option_bind selected_match_index set_awaiting unique_matches].
    destruct k as [|i]; [by destruct (shown_selected _ _ _ Hs) as [_ ->]|]. destruct (shown_selected _ _ _ Hs) as [_ ->].
    cbn [mbind option_bind]. by rewrite Hlen (proj2 (Nat.ltb_ge _ _)); [lia|]. }
  cbn [mbind option_bind]. unfold search_start_offset. rewrite Hst1. cbn [mbind option_bind selected_offset set_awaiting is_exhausted exhausted_older].
  destruct k as [|i].
  - destruct (shown_selected _ _ _ Hs) as [-> _]. cbn [is_some_b andb]. specialize (Hk0 eq_refl).
    assert (shown_first 0 0 s) as Hs0.
    { destruct Hs as [H1 H2 H3 H4 H5 H6]. split; try done; [eapply Forall_impl; [exact H3|cbn; lia]|lia]. }
    destruct (settled_step 0 0 s false h1 Hse1 Hs0) as (h' & He & Hp); [left; by rewrite Hk0|]. exists h'. split; [|done]. cbn in He |- *. by rewrite He.
  - destruct (shown_selected _ _ _ Hs) as [-> _]. cbn [is_some_b andb]. assert (all_found ≠ []) as Hne by (intros Hn; rewrite Hn in Hk; cbn in Hk; lia).
    destruct (exhausted_older s) eqn:Hexs.
    + assert (drop (S i) all_found = []) as Hd by (by apply Hex). exists h1. rewrite expected_drop Hd (proj2 (is_empty_false _) Hne).
      split; [by destruct total|]. assert (length all_found <= S i) by (apply (f_equal length) in Hd; rewrite length_drop in Hd; cbn in Hd; lia).
      rewrite Nat.min_r; [lia|]. assert (length all_found = S i) as -> by lia. exists s, bound. split_and!; try done.
    + cbn [mbind option_bind fmap option_fmap option_map]. destruct (settled_step (S i) bound s true h1 Hse1 Hs) as (h' & -> & Hp); [|by exists h'].
      left. by rewrite (proj2 (is_empty_false _) Hne).
Qed.

(** The searches of a user who keeps looking for older messages. *)
Fixpoint older_again (n : nat) (h : ChatComposerHistory) : option (list HistorySearchResult) :=
  match n with
  | O => Some []
  | S n => '(r, h, _) ← older false h; rest ← older_again n h; Some (r :: rest)
  end.
Definition search_again (n : nat) (h : ChatComposerHistory) : option (list HistorySearchResult) :=
  '(r, h, _) ← older true h; rest ← older_again n h; Some (r :: rest).
Lemma older_again_expected n k h : progress k h → k <= length all_found →
  older_again n h = Some ((λ i, expected (Nat.min (k + i) (length all_found))) <$> seq 0 n).
Proof.
  revert k h. induction n as [|n IH]; intros k h Hp Hk; [done|]. cbn [older_again]. destruct (older_next k h Hp Hk) as (h' & -> & Hp').
  cbn [mbind option_bind]. rewrite (IH _ _ Hp'); [lia|]. cbn [mbind option_bind seq fmap list_fmap]. do 2 f_equal.
  - f_equal. lia.
  - rewrite -(fmap_S_seq 0 n) -list_fmap_compose. apply list_fmap_ext. intros i j _. unfold compose. f_equal. lia.
Qed.

(** C26. Searching for older messages, again and again, does not panic and shows the
    messages that match, the newest first and each text once, and then says that
    there are no more (or, when there are none, that nothing was found); it makes no
    difference which messages of the log were fetched before, as each that is asked
    for is answered. *)
Theorem searches_list_the_unique_matches h n : of_log h →
  search_again n h = Some ((λ i, expected (Nat.min i (length all_found))) <$> seq 0 (S n)).
Proof.
  intros Hol. unfold search_again. destruct (older_first h Hol) as (h1 & -> & Hp1). cbn [mbind option_bind].
  rewrite (older_again_expected _ _ _ Hp1); [lia|]. cbn [mbind option_bind seq fmap list_fmap]. do 2 f_equal.
  rewrite -(fmap_S_seq 0 n) -list_fmap_compose. apply list_fmap_ext. intros i j _.
  unfold compose. f_equal. lia.
Qed.

(** ** Up *)

(** A message that Up asks for is answered. *)
Definition settle_up (r : option HistoryEntry * ChatComposerHistory * list HistoryRequest) : option HistoryEntry * ChatComposerHistory :=
  match r with
  | (None, h, [MkRequest o log_id]) =>
      match on_entry_response to_lowercase log_id o (log o) h with
      | (ResponseFound e, h, _) => (Some e, h)
      | (_, h, _) => (None, h)
      end
  | (e, h, _) => (e, h)
  end.
Fixpoint ups (n : nat) (h : ChatComposerHistory) : list (option HistoryEntry) :=
  match n with O => [] | S n => let '(e, h) := settle_up (navigate_up h) in e :: ups n h end.
Lemma populate_settled h i e : of_log h → history_cursor h = Some i → search_state h = None → i < total → full i = Some e →
  ∃ h', settle_up (populate_history_at_index i h) = (Some e, h') ∧ of_log h' ∧ history_cursor h' = Some i ∧ search_state h' = None.
Proof.
  intros Hol Hc Hs Hi Hf. pose proof (cached_entry h i Hol) as Hca. unfold entry_at_cached_offset in Hca. unfold populate_history_at_index.
  assert (∀ e', e' = e → ∃ h', settle_up (Some e', set_history_cursor (history_cursor h) (Some (entry_text e')) h, []) = (Some e, h') ∧ of_log h' ∧
    history_cursor h' = Some i ∧ search_state h' = None) as Hdone
    by (intros e' ->; eexists; split; [reflexivity|]; split; [by destruct Hol|done]).
  rewrite (of_log_count _ Hol) (of_log_local _ Hol) in Hca |- *. destruct (Nat.leb_spec count i) as [Hle|Hlt].
  - destruct (local !! (i - count)) as [e'|]; [apply Hdone; congruence|]. destruct Hca as [|Hn]; [lia|congruence].
  - destruct (fetched_history h !! i) as [e'|]; [apply Hdone; congruence|]. rewrite (of_log_id _ Hol). cbn [settle_up].
    unfold on_entry_response. rewrite (of_log_id _ Hol) bool_decide_true //. cbn [negb].
    assert (HistoryEntry_new <$> log i = Some e) as He by (unfold full in Hf; by rewrite (proj2 (Nat.leb_gt _ _) Hlt) in Hf).
    rewrite He. cbn [search_state history_cursor]. rewrite Hs Hc. cbn [mbind option_bind]. rewrite bool_decide_true //.
    eexists. split; [reflexivity|]. split; [|done]. destruct Hol as [H1 H2 H3 H4]. split; cbn; [done..|].
    intros o e' Ho. destruct (decide (i = o)) as [<-|Hne]; [rewrite lookup_insert_eq; by intros [= <-]|]. rewrite lookup_insert_ne //. by apply H4.
Qed.
Lemma ups_from n h i : of_log h → search_state h = None → history_cursor h = Some i → i < total → (∀ o, o < total → is_Some (full o)) →
  ups n h = (λ k, if Nat.ltb k i then full (i - 1 - k) else None) <$> seq 0 n.
Proof.
  revert h i. induction n as [|n IH]; intros h i Hol Hs Hc Hi Hall; [done|]. cbn [ups]. unfold navigate_up.
  set (h0 := set_search None h). assert (of_log h0) as Hol0 by (by destruct Hol).
  rewrite total_of_log // (proj2 (Nat.eqb_neq _ _)); [lia|]. change (history_cursor h0) with (history_cursor h). rewrite Hc. destruct i as [|i].
  - cbn [settle_up seq fmap list_fmap]. f_equal. rewrite (IH h0 0) // -(fmap_S_seq 0 n) -list_fmap_compose. by apply list_fmap_ext.
  - destruct (Hall i) as [e He]; [lia|]. destruct (populate_settled (set_history_cursor (Some i) (last_history_text h0) h0) i e) as (h' & -> & Hol' & Hc' & Hs');
      [by destruct Hol0|done|done|lia|done|].
    cbn [seq fmap list_fmap]. rewrite (proj2 (Nat.ltb_lt _ _)); [lia|]. replace (S i - 1 - 0) with i by lia. rewrite He. f_equal.
    rewrite (IH h' i) //; [lia|]. rewrite -(fmap_S_seq 0 n) -list_fmap_compose. apply list_fmap_ext. intros j k _. unfold compose.
    destruct (Nat.ltb_spec k i), (Nat.ltb_spec (S k) (S i)); try lia; [|done]. f_equal. lia.
Qed.

(** From outside of the history, Up shows every message, from the newest to the oldest,
    whether it was there or had to be asked for, and stays at the oldest. *)
Theorem up_walks_over_the_history h n : of_log h → search_state h = None → history_cursor h = None → 0 < total →
  (∀ o, o < total → is_Some (full o)) →
  ups n h = (λ k, if Nat.ltb k total then full (total - 1 - k) else None) <$> seq 0 n.
Proof.
  intros Hol Hs Hc Ht Hall. destruct n as [|n]; [done|]. cbn [ups]. unfold navigate_up. set (h0 := set_search None h).
  assert (of_log h0) as Hol0 by (by destruct Hol). rewrite total_of_log // (proj2 (Nat.eqb_neq _ _)); [lia|].
  change (history_cursor h0) with (history_cursor h). rewrite Hc. destruct (Hall (total - 1)) as [e He]; [lia|].
  destruct (populate_settled (set_history_cursor (Some (total - 1)) (last_history_text h0) h0) (total - 1) e) as (h' & -> & Hol' & Hc' & Hs');
    [by destruct Hol0|done|done|lia|done|].
  cbn [seq fmap list_fmap]. rewrite (proj2 (Nat.ltb_lt 0 _)) // Nat.sub_0_r He. f_equal.
  rewrite (ups_from n h' (total - 1)) //; [lia|]. rewrite -(fmap_S_seq 0 n) -list_fmap_compose. apply list_fmap_ext. intros j k _. unfold compose.
  destruct (Nat.ltb_spec k (total - 1)), (Nat.ltb_spec (S k) total); try lia; [|done]. f_equal. lia.
Qed.
End search.

(** ** Witnesses *)

Definition example_log (o : nat) : option str := 
  nth_error ["fix the bug" : str; "add [$fmt](/skills/fmt/SKILL.md) test" : str; "Fix the docs" : str; "fix the bug" : str] o.
Definition example_local : list HistoryEntry := [MkEntry "run it" [] [] [] [] []; MkEntry "fix the docs" [] [] [] [] []].
Definition example_history : ChatComposerHistory :=
  foldr record_local_submission (set_metadata 7 4 ChatComposerHistory_new) (reverse example_local).
Lemma example_of_log : of_log 7 example_log 4 example_local example_history.
Proof. split; [vm_compute; reflexivity..|]. intros o e _. by rewrite lookup_empty. Qed.
Example example_search : fmap (M:=list) (λ r, match r with SearchFound e => Some (entry_text e) | _ => None end)
    <$> search_again to_ascii_lowercase example_log 4 example_local "fix" 4 example_history
  = Some [Some ("fix the docs" : str); Some ("fix the bug" : str); Some ("Fix the docs" : str); None; None].
Proof. vm_compute. reflexivity. Qed.
Lemma searches_list_the_unique_matches_witness :
  search_again to_ascii_lowercase example_log 4 example_local "fix" 4 example_history
  = Some ((λ i, expected to_ascii_lowercase example_log 4 example_local "fix" (Nat.min i 3)) <$> seq 0 5).
Proof.
  rewrite (searches_list_the_unique_matches to_ascii_lowercase 7 example_log 4 example_local "fix" example_history 4 example_of_log).
  by replace (length (all_found to_ascii_lowercase example_log 4 example_local "fix")) with 3 by (vm_compute; reflexivity).
Defined.
Lemma up_walks_over_the_history_witness :
  ups to_ascii_lowercase example_log 7 example_history
  = (λ k, if Nat.ltb k 6 then full example_log 4 example_local (5 - k) else None) <$> seq 0 7.
Proof.
  apply (up_walks_over_the_history to_ascii_lowercase 7 example_log 4 example_local example_history 7 example_of_log);
    [vm_compute; reflexivity..|cbn; lia|].
  intros o Ho. unfold total in Ho. cbn in Ho. do 6 (destruct o as [|o]; [by eexists|]). lia.
Defined.
