(* ===== verification/Streaming.v ===== *)
(** The streaming of messages to the terminal ([codex-rs/tui/src/markdown_stream.rs] and
    [codex-rs/tui/src/streaming/{mod,controller,chunking,commit_tick}.rs]): source is
    taken over at the ends of lines and rendered, the rendered lines wait in a queue,
    and each tick moves one line or all of them to the history, as the pressure of
    the queue demands. Times are nanoseconds of a clock. The lines of [ratatui] and
    the renderer of markdown are parameters (class [Rendering]); a slice that is out of
    range would panic and has no result. *)
From S2P Require Import Prelude TextArea.
From Stdlib Require Import Lia.

(** [ratatui::text::Line] and what is done with it. *)
Class Rendering := {
  Line : Type;
  (** [append_markdown], for the directory of the session: the lines it appends. *)
  append_markdown : str → option nat → list Line;
  (** The title of a plan, a blank line, and the prefix and style of its lines. *)
  plan_title : Line;
  blank_line : Line;
  plan_line : Line → Line
}.

(** ** markdown_stream.rs *)

Record MarkdownStreamCollector := MkCollector { md_buffer : str; committed_source_len : nat; md_width : option nat }.
Definition collector_new (width : option nat) : MarkdownStreamCollector := MkCollector [] 0 width.
Definition collector_set_width (width : option nat) (c : MarkdownStreamCollector) : MarkdownStreamCollector :=
  MkCollector (md_buffer c) (committed_source_len c) width.
Definition collector_clear (c : MarkdownStreamCollector) : MarkdownStreamCollector := MkCollector [] 0 (md_width c).
Definition collector_push_delta (delta : str) (c : MarkdownStreamCollector) : MarkdownStreamCollector :=
  MkCollector (md_buffer c ++ delta) (committed_source_len c) (md_width c).
Definition commit_complete_source (c : MarkdownStreamCollector) : option (option str * MarkdownStreamCollector) :=
  match rfind_char is_nl (md_buffer c) with
  | None => Some (None, c)
  | Some (idx, _) =>
      let commit_end := idx + 1 in
      if Nat.leb commit_end (committed_source_len c) then Some (None, c)
      else
        out ← slice (md_buffer c) (committed_source_len c) commit_end;
        Some (Some out, MkCollector (md_buffer c) commit_end (md_width c))
  end.
Definition finalize_and_drain_source (c : MarkdownStreamCollector) : option (str * MarkdownStreamCollector) :=
  if Nat.leb (str_len (md_buffer c)) (committed_source_len c) then Some ([], collector_clear c)
  else
    out ← slice_from (md_buffer c) (committed_source_len c);
    let out := if negb (ends_with [ch_nl] out) then out ++ [ch_nl] else out in
    Some (out, collector_clear c).

Section streaming.
Context `{Rendering}.

(** ** streaming/mod.rs *)

Record QueuedLine := MkQueued { line : Line; enqueued_at : N }.
Record StreamState := MkStream { collector : MarkdownStreamCollector; queue : list QueuedLine; has_seen_delta : bool }.
Definition stream_new (width : option nat) : StreamState := MkStream (collector_new width) [] false.
Definition stream_clear (s : StreamState) : StreamState := MkStream (collector_clear (collector s)) [] false.
Definition step (s : StreamState) : list Line * StreamState :=
  match queue s with
  | queued :: rest => ([line queued], MkStream (collector s) rest (has_seen_delta s))
  | [] => ([], s)
  end.
Definition drain_n (max_lines : nat) (s : StreamState) : list Line * StreamState :=
  let end_ := Nat.min max_lines (length (queue s)) in
  (line <$> take end_ (queue s), MkStream (collector s) (drop end_ (queue s)) (has_seen_delta s)).
Definition clear_queue (s : StreamState) : StreamState := MkStream (collector s) [] (has_seen_delta s).
Definition is_idle (s : StreamState) : bool := is_empty (queue s).
Definition queued_len (s : StreamState) : nat := length (queue s).
Definition oldest_queued_age (now : N) (s : StreamState) : option N := (λ q, now - enqueued_at q)%N <$> head (queue s).
Definition enqueue (now : N) (lines : list Line) (s : StreamState) : StreamState :=
  MkStream (collector s) (queue s ++ ((λ l, MkQueued l now) <$> lines)) (has_seen_delta s).

(** ** streaming/controller.rs *)

Record StreamCore := MkCore {
  state : StreamState;
  core_width : option nat;
  raw_source : str;
  rendered_lines : list Line;
  enqueued_len : nat;
  emitted_len : nat
}.
Definition core_new (width : option nat) : StreamCore := MkCore (stream_new width) width [] [] 0 0.
Definition set_state (s : StreamState) (c : StreamCore) : StreamCore :=
  MkCore s (core_width c) (raw_source c) (rendered_lines c) (enqueued_len c) (emitted_len c).
Definition set_raw_source (s : str) (c : StreamCore) : StreamCore :=
  MkCore (state c) (core_width c) s (rendered_lines c) (enqueued_len c) (emitted_len c).
Definition set_enqueued_len (n : nat) (c : StreamCore) : StreamCore :=
  MkCore (state c) (core_width c) (raw_source c) (rendered_lines c) n (emitted_len c).
Definition set_emitted_len (n : nat) (c : StreamCore) : StreamCore :=
  MkCore (state c) (core_width c) (raw_source c) (rendered_lines c) (enqueued_len c) n.
Definition with_width (width : option nat) (c : StreamCore) : StreamCore :=
  MkCore (MkStream (collector_set_width width (collector (state c))) (queue (state c)) (has_seen_delta (state c)))
    width (raw_source c) (rendered_lines c) (enqueued_len c) (emitted_len c).
Definition recompute_render (c : StreamCore) : StreamCore :=
  MkCore (state c) (core_width c) (raw_source c) (append_markdown (raw_source c) (core_width c)) (enqueued_len c) (emitted_len c).

(** [lines\[start..end_\]] *)
Definition slice_lines (lines : list Line) (start end_ : nat) : option (list Line) :=
  if Nat.leb start end_ && Nat.leb end_ (length lines) then Some (take (end_ - start) (drop start lines)) else None.
Definition rebuild_queue_from_render (now : N) (c : StreamCore) : option StreamCore :=
  let c := set_state (clear_queue (state c)) c in
  let target_len := Nat.max (length (rendered_lines c)) (emitted_len c) in
  if Nat.ltb (emitted_len c) target_len
  then lines ← slice_lines (rendered_lines c) (emitted_len c) target_len;
       Some (set_enqueued_len target_len (set_state (enqueue now lines (state c)) c))
  else Some (set_enqueued_len target_len c).
Definition sync_queue_to_render (now : N) (c : StreamCore) : option (bool * StreamCore) :=
  let target_len := Nat.max (length (rendered_lines c)) (emitted_len c) in
  if Nat.ltb target_len (enqueued_len c)
  then c ← rebuild_queue_from_render now c; Some (Nat.ltb 0 (queued_len (state c)), c)
  else if Nat.eqb target_len (enqueued_len c) then Some (false, c)
  else
    lines ← slice_lines (rendered_lines c) (enqueued_len c) target_len;
    Some (true, set_enqueued_len target_len (set_state (enqueue now lines (state c)) c)).
Definition push_delta (now : N) (delta : str) (c : StreamCore) : option (bool * StreamCore) :=
  let s := state c in
  let c := set_state (MkStream (collector_push_delta delta (collector s)) (queue s) (negb (is_empty delta) || has_seen_delta s)) c in
  if negb (contains_char ch_nl delta) then Some (false, c)
  else
    '(committed, collector') ← commit_complete_source (collector (state c));
    let c := set_state (MkStream collector' (queue (state c)) (has_seen_delta (state c))) c in
    match committed with
    | None => Some (false, c)
    | Some committed_source => sync_queue_to_render now (recompute_render (set_raw_source (raw_source c ++ committed_source) c))
    end.
Definition finalize_remaining (c : StreamCore) : option (list Line * StreamCore) :=
  '(remainder_source, collector') ← finalize_and_drain_source (collector (state c));
  let c := set_state (MkStream collector' (queue (state c)) (has_seen_delta (state c))) c in
  let c := if negb (is_empty remainder_source) then set_raw_source (raw_source c ++ remainder_source) c else c in
  let rendered := append_markdown (raw_source c) (core_width c) in
  Some (if Nat.leb (length rendered) (emitted_len c) then [] else drop (emitted_len c) rendered, c).
Definition count_emitted (r : list Line * StreamState) (c : StreamCore) : list Line * StreamCore :=
  (r.1, set_emitted_len (emitted_len c + length r.1) (set_state r.2 c)).
Definition tick (c : StreamCore) : list Line * StreamCore := count_emitted (step (state c)) c.
Definition tick_batch (max_lines : nat) (c : StreamCore) : list Line * StreamCore :=
  if Nat.eqb max_lines 0 then ([], c) else count_emitted (drain_n max_lines (state c)) c.
Definition set_width (now : N) (width : option nat) (c : StreamCore) : option StreamCore :=
  if bool_decide (core_width c = width) then Some c
  else
    let had_pending_queue := Nat.ltb 0 (queued_len (state c)) in
    let c := with_width width c in
    if is_empty (raw_source c) then Some c
    else
      let c := recompute_render c in
      let c := set_emitted_len (Nat.min (emitted_len c) (length (rendered_lines c))) c in
      let c := if had_pending_queue && Nat.eqb (emitted_len c) (length (rendered_lines c)) && Nat.ltb 0 (emitted_len c)
               then set_emitted_len (emitted_len c - 1) c else c in
      let c := set_state (clear_queue (state c)) c in
      if Nat.ltb 0 (emitted_len c) && negb had_pending_queue then Some (set_enqueued_len (length (rendered_lines c)) c)
      else rebuild_queue_from_render now c.
Definition core_clear_queue (c : StreamCore) : StreamCore := set_enqueued_len (emitted_len c) (set_state (clear_queue (state c)) c).
Definition reset (c : StreamCore) : StreamCore := MkCore (stream_clear (state c)) (core_width c) [] [] 0 0.

(** What is shown of a message or a plan: lines, and whether they are the first (for a
    message) or continue (for a plan). *)
Inductive HistoryCell := AgentMessageCell (lines : list Line) (is_first_line : bool) | ProposedPlanStreamCell (lines : list Line) (is_stream_continuation : bool).

Record StreamController := MkController { core : StreamCore; header_emitted : bool }.
Definition controller_new (width : option nat) : StreamController := MkController (core_new width) false.
Definition emit (lines : list Line) (c : StreamController) : option HistoryCell * StreamController :=
  if is_empty lines then (None, c) else (Some (AgentMessageCell lines (negb (header_emitted c))), MkController (core c) true).
Definition push (now : N) (delta : str) (c : StreamController) : option (bool * StreamController) :=
  '(more, core') ← push_delta now delta (core c); Some (more, MkController core' (header_emitted c)).
Definition finalize (c : StreamController) : option ((option HistoryCell * option str) * StreamController) :=
  '(remaining, core') ← finalize_remaining (core c);
  let c := MkController core' (header_emitted c) in
  if is_empty (raw_source core') then Some ((None, None), MkController (reset core') (header_emitted c))
  else
    let source := raw_source core' in
    let '(out, c) := emit remaining (MkController (set_raw_source [] core') (header_emitted c)) in
    Some ((out, Some source), MkController (reset (core c)) (header_emitted c)).
Definition on_commit_tick (c : StreamController) : option HistoryCell * bool * StreamController :=
  let '(lines, core') := tick (core c) in
  let '(cell, c) := emit lines (MkController core' (header_emitted c)) in (cell, is_idle (state (core c)), c).
Definition on_commit_tick_batch (max_lines : nat) (c : StreamController) : option HistoryCell * bool * StreamController :=
  let '(lines, core') := tick_batch max_lines (core c) in
  let '(cell, c) := emit lines (MkController core' (header_emitted c)) in (cell, is_idle (state (core c)), c).

Definition controller_clear_queue (c : StreamController) : StreamController := MkController (core_clear_queue (core c)) (header_emitted c).
Definition controller_set_width (now : N) (width : option nat) (c : StreamController) : option StreamController :=
  core' ← set_width now width (core c); Some (MkController core' (header_emitted c)).

Record PlanStreamController := MkPlanController { plan_core : StreamCore; plan_header_emitted : bool; top_padding_emitted : bool }.
Definition plan_controller_new (width : option nat) : PlanStreamController := MkPlanController (core_new width) false false.
Definition plan_emit (lines : list Line) (include_bottom_padding : bool) (c : PlanStreamController) : option HistoryCell * PlanStreamController :=
  if is_empty lines && negb include_bottom_padding then (None, c)
  else
    let header := if plan_header_emitted c then [] else [plan_title; blank_line] in
    let plan_lines := (if top_padding_emitted c then [] else [blank_line]) ++ lines ++ (if include_bottom_padding then [blank_line] else []) in
    (Some (ProposedPlanStreamCell (header ++ (plan_line <$> plan_lines)) (plan_header_emitted c)), MkPlanController (plan_core c) true true).
Definition plan_push (now : N) (delta : str) (c : PlanStreamController) : option (bool * PlanStreamController) :=
  '(more, core') ← push_delta now delta (plan_core c); Some (more, MkPlanController core' (plan_header_emitted c) (top_padding_emitted c)).
Definition plan_finalize (c : PlanStreamController) : option ((option HistoryCell * option str) * PlanStreamController) :=
  '(remaining, core') ← finalize_remaining (plan_core c);
  let with_core core' c := MkPlanController core' (plan_header_emitted c) (top_padding_emitted c) in
  if is_empty (raw_source core') then Some ((None, None), with_core (reset core') c)
  else
    let source := raw_source core' in
    let '(out, c) := plan_emit remaining true (with_core (set_raw_source [] core') c) in
    Some ((out, Some source), with_core (reset (plan_core c)) c).
Definition plan_on_commit_tick (c : PlanStreamController) : option HistoryCell * bool * PlanStreamController :=
  let '(lines, core') := tick (plan_core c) in
  let '(cell, c) := plan_emit lines false (MkPlanController core' (plan_header_emitted c) (top_padding_emitted c)) in
  (cell, is_idle (state (plan_core c)), c).
Definition plan_on_commit_tick_batch (max_lines : nat) (c : PlanStreamController) : option HistoryCell * bool * PlanStreamController :=
  let '(lines, core') := tick_batch max_lines (plan_core c) in
  let '(cell, c) := plan_emit lines false (MkPlanController core' (plan_header_emitted c) (top_padding_emitted c)) in
  (cell, is_idle (state (plan_core c)), c).

Definition plan_controller_clear_queue (c : PlanStreamController) : PlanStreamController :=
  MkPlanController (core_clear_queue (plan_core c)) (plan_header_emitted c) (top_padding_emitted c).
Definition plan_controller_set_width (now : N) (width : option nat) (c : PlanStreamController) : option PlanStreamController :=
  core' ← set_width now width (plan_core c); Some (MkPlanController core' (plan_header_emitted c) (top_padding_emitted c)).

(** ** streaming/chunking.rs *)

Definition from_millis (ms : N) : N := ms * 1000000.
Definition ENTER_QUEUE_DEPTH_LINES : nat := 8.
Definition ENTER_OLDEST_AGE : N := from_millis 120.
Definition EXIT_QUEUE_DEPTH_LINES : nat := 2.
Definition EXIT_OLDEST_AGE : N := from_millis 40.
Definition EXIT_HOLD : N := from_millis 250.
Definition REENTER_CATCH_UP_HOLD : N := from_millis 250.
Definition SEVERE_QUEUE_DEPTH_LINES : nat := 64.
Definition SEVERE_OLDEST_AGE : N := from_millis 300.

Inductive ChunkingMode := Smooth | CatchUp.
#[global] Instance ChunkingMode_eq_dec : EqDecision ChunkingMode.
Proof. solve_decision. Defined.
Record QueueSnapshot := MkSnapshot { queued_lines : nat; oldest_age : option N }.
Inductive DrainPlan := Single | Batch (n : nat).
Record ChunkingDecision := MkDecision { decided_mode : ChunkingMode; entered_catch_up : bool; drain_plan : DrainPlan }.
Record AdaptiveChunkingPolicy := MkPolicy { mode : ChunkingMode; below_exit_threshold_since : option N; last_catch_up_exit_at : option N }.
Definition policy_default : AdaptiveChunkingPolicy := MkPolicy Smooth None None.
Definition policy_reset (p : AdaptiveChunkingPolicy) : AdaptiveChunkingPolicy := MkPolicy Smooth None None.

Definition age_at_least (bound : N) (age : option N) : bool := match age with Some oldest => (bound <=? oldest)%N | None => false end.
Definition should_enter_catch_up (s : QueueSnapshot) : bool :=
  Nat.leb ENTER_QUEUE_DEPTH_LINES (queued_lines s) || age_at_least ENTER_OLDEST_AGE (oldest_age s).
Definition should_exit_catch_up (s : QueueSnapshot) : bool :=
  Nat.leb (queued_lines s) EXIT_QUEUE_DEPTH_LINES && match oldest_age s with Some oldest => (oldest <=? EXIT_OLDEST_AGE)%N | None => false end.
Definition is_severe_backlog (s : QueueSnapshot) : bool :=
  Nat.leb SEVERE_QUEUE_DEPTH_LINES (queued_lines s) || age_at_least SEVERE_OLDEST_AGE (oldest_age s).

Definition reentry_hold_active (now : N) (p : AdaptiveChunkingPolicy) : bool :=
  match last_catch_up_exit_at p with Some exit => (now - exit <? REENTER_CATCH_UP_HOLD)%N | None => false end.
Definition note_catch_up_exit (now : N) (p : AdaptiveChunkingPolicy) : AdaptiveChunkingPolicy :=
  if bool_decide (mode p = CatchUp) then MkPolicy (mode p) (below_exit_threshold_since p) (Some now) else p.
Definition maybe_enter_catch_up (s : QueueSnapshot) (now : N) (p : AdaptiveChunkingPolicy) : bool * AdaptiveChunkingPolicy :=
  if negb (should_enter_catch_up s) then (false, p)
  else if reentry_hold_active now p && negb (is_severe_backlog s) then (false, p)
  else (true, MkPolicy CatchUp None None).
Definition maybe_exit_catch_up (s : QueueSnapshot) (now : N) (p : AdaptiveChunkingPolicy) : AdaptiveChunkingPolicy :=
  if negb (should_exit_catch_up s) then MkPolicy (mode p) None (last_catch_up_exit_at p)
  else match below_exit_threshold_since p with
       | Some since => if (EXIT_HOLD <=? now - since)%N then MkPolicy Smooth None (Some now) else p
       | None => MkPolicy (mode p) (Some now) (last_catch_up_exit_at p)
       end.
Definition decide_chunking (s : QueueSnapshot) (now : N) (p : AdaptiveChunkingPolicy) : ChunkingDecision * AdaptiveChunkingPolicy :=
  if Nat.eqb (queued_lines s) 0
  then let p := note_catch_up_exit now p in (MkDecision Smooth false Single, MkPolicy Smooth None (last_catch_up_exit_at p))
  else
    let '(entered, p) := match mode p with Smooth => maybe_enter_catch_up s now p | CatchUp => (false, maybe_exit_catch_up s now p) end in
    let plan := match mode p with Smooth => Single | CatchUp => Batch (Nat.max (queued_lines s) 1) end in
    (MkDecision (mode p) entered plan, p).

(** ** streaming/commit_tick.rs *)

Inductive CommitTickScope := AnyMode | CatchUpOnly.
#[global] Instance CommitTickScope_eq_dec : EqDecision CommitTickScope.
Proof. solve_decision. Defined.
Record CommitTickOutput := MkOutput { cells : list HistoryCell; has_controller : bool; all_idle : bool }.
Definition output_default : CommitTickOutput := MkOutput [] false true.
Definition max_duration (lhs rhs : option N) : option N :=
  match lhs, rhs with
  | Some l, Some r => Some (N.max l r)
  | Some l, None => Some l
  | None, rhs => rhs
  end.
Definition add_core (now : N) (c : option StreamCore) (s : QueueSnapshot) : QueueSnapshot :=
  match c with
  | Some c => MkSnapshot (queued_lines s + queued_len (state c)) (max_duration (oldest_age s) (oldest_queued_age now (state c)))
  | None => s
  end.
Definition stream_queue_snapshot (sc : option StreamController) (pc : option PlanStreamController) (now : N) : QueueSnapshot :=
  add_core now (plan_core <$> pc) (add_core now (core <$> sc) (MkSnapshot 0 None)).
Definition drain_stream_controller (c : StreamController) (plan : DrainPlan) : option HistoryCell * bool * StreamController :=
  match plan with Single => on_commit_tick c | Batch max_lines => on_commit_tick_batch max_lines c end.
Definition drain_plan_stream_controller (c : PlanStreamController) (plan : DrainPlan) : option HistoryCell * bool * PlanStreamController :=
  match plan with Single => plan_on_commit_tick c | Batch max_lines => plan_on_commit_tick_batch max_lines c end.
(** What a drained controller adds to the output. *)
Definition add_output {C} (r : option (option HistoryCell * bool * C)) (o : CommitTickOutput) : CommitTickOutput :=
  match r with
  | Some (cell, idle, _) => MkOutput (cells o ++ option_list cell) true (all_idle o && idle)
  | None => o
  end.
Definition apply_commit_tick_plan (plan : DrainPlan) (sc : option StreamController) (pc : option PlanStreamController) :
    CommitTickOutput * option StreamController * option PlanStreamController :=
  let sr := (λ c, drain_stream_controller c plan) <$> sc in
  let pr := (λ c, drain_plan_stream_controller c plan) <$> pc in
  (add_output pr (add_output sr output_default), snd <$> sr, snd <$> pr).
Definition run_commit_tick (p : AdaptiveChunkingPolicy) (sc : option StreamController) (pc : option PlanStreamController)
    (scope : CommitTickScope) (now : N) : CommitTickOutput * AdaptiveChunkingPolicy * option StreamController * option PlanStreamController :=
  let '(decision, p) := decide_chunking (stream_queue_snapshot sc pc now) now p in
  if bool_decide (scope = CatchUpOnly) && negb (bool_decide (decided_mode decision = CatchUp)) then (output_default, p, sc, pc)
  else let '(out, sc, pc) := apply_commit_tick_plan (drain_plan decision) sc pc in (out, p, sc, pc).
End streaming.
