(* ===== verification/StreamProofs.v ===== *)
(** What is proved of the streaming of messages ([Streaming]): no schedule of pieces, ticks
    and resizes panics or loses source; while the width stays, what is shown is what
    the whole text is rendered to; ticks move lines in order and a severe backlog at
    once; the two modes do not flap. *)
From S2P Require Import Prelude TextArea TextEdits TextAreaProofs Streaming.
From Stdlib Require Import Lia.

Section streams.
Context `{Rendering}.

(** ** A stream from its first piece to its end *)

Inductive StreamEvent := Push (now : N) (delta : str) | Tick | TickBatch (max_lines : nat) | SetWidth (now : N) (width : option nat) | ClearQueue.
Definition stream_event (e : StreamEvent) (c : StreamController) : option (list HistoryCell * StreamController) :=
  match e with
  | Push now delta => '(_, c) ← push now delta c; Some ([], c)
  | Tick => let '(cell, _, c) := on_commit_tick c in Some (option_list cell, c)
  | TickBatch n => let '(cell, _, c) := on_commit_tick_batch n c in Some (option_list cell, c)
  | SetWidth now width => c ← controller_set_width now width c; Some ([], c)
  | ClearQueue => Some ([], controller_clear_queue c)
  end.
Fixpoint stream_run (es : list StreamEvent) (c : StreamController) : option (list HistoryCell * StreamController) :=
  match es with
  | [] => Some ([], c)
  | e :: es => '(shown, c) ← stream_event e c; '(more, c) ← stream_run es c; Some (shown ++ more, c)
  end.
Definition stream_whole (es : list StreamEvent) (width : option nat) : option (list HistoryCell * option str) :=
  '(shown, c) ← stream_run es (controller_new width);
  '(last_cell, source, _) ← finalize c;
  Some (shown ++ option_list last_cell, source).

Definition pushed (e : StreamEvent) : str := match e with Push _ delta => delta | _ => [] end.
Definition text_of (es : list StreamEvent) : str := es ≫= pushed.
Definition line_complete (s : str) : Prop := s = [] ∨ ∃ a, s = a ++ [ch_nl].
(** The text with its last line ended. *)
Definition source_of (text : str) : str := if is_empty text || ends_with [ch_nl] text then text else text ++ [ch_nl].

(** ** Source *)

(** The source so far is what was taken over of the text, in whole lines; lines are
    counted as queued before they are counted as shown. *)
Record core_ok (text : str) (c : StreamCore) : Prop := {
  ok_buffer : md_buffer (collector (state c)) = text;
  ok_committed : committed_source_len (collector (state c)) = str_len (raw_source c);
  ok_source : ∃ rest, text = raw_source c ++ rest;
  ok_lines : line_complete (raw_source c);
  ok_queue : emitted_len c + length (queue (state c)) <= enqueued_len c
}.
Lemma core_ok_new width : core_ok [] (core_new width).
Proof. split; try done; [by exists []|by left]. Qed.

Lemma commit_spec text raw rest w : text = raw ++ rest →
  ∃ m, (commit_complete_source (MkCollector text (str_len raw) w) = Some (None, MkCollector text (str_len raw) w) ∧ m = [] ∨
        commit_complete_source (MkCollector text (str_len raw) w) = Some (Some m, MkCollector text (str_len (raw ++ m)) w) ∧ line_complete (raw ++ m) ∧ raw ++ m ≠ []) ∧
       ∃ rest', text = (raw ++ m) ++ rest'.
Proof.
  intros Ht. unfold commit_complete_source. cbn [md_buffer committed_source_len md_width].
  assert (∃ rest', text = (raw ++ []) ++ rest') as Hnone by (exists rest; by rewrite app_nil_r).
  destruct (rfind_char is_nl text) as [[i ch]|] eqn:Hr; [|exists []; by split; [left|]].
  apply rfind_char_Some in Hr as (a & b & Ha & Hi & Hc & _). pose proof (nl_width _ Hc) as Hw. unfold is_nl in Hc. apply N.eqb_eq in Hc as ->.
  destruct (Nat.leb_spec (i + 1) (str_len raw)) as [Hle|Hlt]; [exists []; by split; [left|]|].
  assert (boundary text (str_len raw)) as Hb1 by (rewrite Ht; apply boundary_mid).
  assert (str_len (a ++ [ch_nl]) = i + 1) as Hl by (rewrite str_len_app; cbn; lia).
  assert (boundary text (i + 1)) as Hb2 by (rewrite Ha -Hl cons_middle app_assoc; apply boundary_mid).
  destruct (between text (str_len raw) (i + 1) Hb1 Hb2) as (u & m & v & Hs & Hu & Hm); [lia|].
  assert (u = raw) as -> by (apply (prefix_len_eq u raw (m ++ v) rest); [congruence|done]).
  exists m. split; [|exists v; by rewrite -app_assoc]. right. rewrite (proj2 (slice_Some text (str_len raw) (i + 1) m)); [by exists raw, v|].
  cbn [mbind option_bind]. rewrite str_len_app -Hm. split; [by do 3 f_equal|].
  assert (raw ++ m = a ++ [ch_nl]) as ->; [|split; [right; by exists a|by destruct a]].
  apply (prefix_len_eq _ _ v b); [|rewrite Hl str_len_app; lia]. by rewrite -!app_assoc -Hs Ha.
Qed.
Lemma ends_in_newline s : ends_with [ch_nl] s = true ↔ ∃ a, s = a ++ [ch_nl].
Proof.
  unfold ends_with. destruct (strip_suffix [ch_nl] s) as [r|] eqn:Hs.
  - apply strip_suffix_Some in Hs. split; [by exists r|done].
  - split; [done|]. intros [a Ha]. apply strip_suffix_Some in Ha. congruence.
Qed.
Lemma slice_lines_ok (ls : list Line) i j : i <= j → j <= length ls → slice_lines ls i j = Some (take (j - i) (drop i ls)).
Proof. intros Hi Hj. unfold slice_lines. by rewrite (proj2 (Nat.leb_le i j) Hi) (proj2 (Nat.leb_le j _) Hj). Qed.
Lemma length_enqueued now (ls : list Line) : length ((λ l, MkQueued l now) <$> ls) = length ls.
Proof. apply length_fmap. Qed.
Lemma rebuild_ok text now c : md_buffer (collector (state c)) = text → committed_source_len (collector (state c)) = str_len (raw_source c) →
  (∃ rest, text = raw_source c ++ rest) → line_complete (raw_source c) →
  ∃ c', rebuild_queue_from_render now c = Some c' ∧ core_ok text c'.
Proof.
  intros H1 H2 H3 H4. unfold rebuild_queue_from_render. cbn [rendered_lines emitted_len set_state].
  destruct (Nat.ltb_spec (emitted_len c) (Nat.max (length (rendered_lines c)) (emitted_len c))) as [Hlt|Hge].
  - rewrite slice_lines_ok; [lia..|]. eexists. split; [reflexivity|]. split; cbn -[Nat.max]; try done.
    rewrite length_enqueued length_take length_drop. lia.
  - eexists. split; [reflexivity|]. split; cbn -[Nat.max]; try done. lia.
Qed.
Lemma sync_ok text now c : core_ok text c → ∃ b c', sync_queue_to_render now c = Some (b, c') ∧ core_ok text c'.
Proof.
  intros [H1 H2 H3 H4 H5]. unfold sync_queue_to_render. destruct (Nat.ltb_spec (Nat.max (length (rendered_lines c)) (emitted_len c)) (enqueued_len c)) as [Hlt|Hge].
  - destruct (rebuild_ok text now c) as (c' & -> & Hok); [done..|]. eexists _, _. by split.
  - destruct (Nat.eqb_spec (Nat.max (length (rendered_lines c)) (emitted_len c)) (enqueued_len c)) as [He|Hne]; [by eexists _, _|].
    rewrite slice_lines_ok; [lia..|]. eexists _, _. split; [reflexivity|]. split; cbn -[Nat.max]; try done.
    rewrite length_app length_enqueued length_take length_drop. lia.
Qed.

(** What a push does before the queue follows: the text grows, and the source may. *)
Lemma push_cases text now delta c : core_ok text c →
  (∃ c', push_delta now delta c = Some (false, c') ∧ core_ok (text ++ delta) c' ∧ raw_source c' = raw_source c ∧ rendered_lines c' = rendered_lines c ∧
     queue (state c') = queue (state c) ∧ enqueued_len c' = enqueued_len c ∧ emitted_len c' = emitted_len c ∧ core_width c' = core_width c) ∨
  (∃ m c1, push_delta now delta c = sync_queue_to_render now (recompute_render c1) ∧ core_ok (text ++ delta) c1 ∧ raw_source c1 = raw_source c ++ m ∧ raw_source c1 ≠ [] ∧
     rendered_lines c1 = rendered_lines c ∧ queue (state c1) = queue (state c) ∧ enqueued_len c1 = enqueued_len c ∧ emitted_len c1 = emitted_len c ∧
     core_width c1 = core_width c).
Proof.
  intros [H1 H2 (rest & H3) H4 H5]. unfold push_delta. destruct (contains_char ch_nl delta) eqn:Hc; cbn [negb].
  - cbn [collector state set_state]. unfold collector_push_delta. rewrite H1 H2.
    destruct (commit_spec (text ++ delta) (raw_source c) (rest ++ delta) (md_width (collector (state c)))) as (m & Hm & rest' & Hr); [by rewrite H3 app_assoc|].
    destruct Hm as [[-> ->]|(-> & Hl & Hne)]; cbn [mbind option_bind].
    + left. eexists. split; [reflexivity|]. split_and!; try done. split; cbn; try done. exists rest'. by rewrite Hr app_nil_r.
    + right. exists m. eexists. split; [reflexivity|]. split_and!; try done. split; cbn; try done. by exists rest'.
  - left. eexists. split; [reflexivity|]. split_and!; try done. split; cbn; try done; [by rewrite H1|]. exists (rest ++ delta). by rewrite H3 app_assoc.
Qed.
Lemma recompute_ok text c : core_ok text c → core_ok text (recompute_render c).
Proof. by intros []. Qed.
Lemma push_ok text now delta c : core_ok text c → ∃ b c', push_delta now delta c = Some (b, c') ∧ core_ok (text ++ delta) c'.
Proof.
  intros Hok. destruct (push_cases text now delta c Hok) as [(c' & -> & Hok' & _)|(m & c1 & -> & Hok' & _)]; [by eexists _, _|].
  by apply sync_ok, recompute_ok.
Qed.
Lemma count_emitted_ok text (c : StreamCore) n k : core_ok text c → n = (line <$> take k (queue (state c))) →
  core_ok text (count_emitted (n, MkStream (collector (state c)) (drop k (queue (state c))) (has_seen_delta (state c))) c).2.
Proof.
  intros [H1 H2 H3 H4 H5] ->. split; cbn; try done. rewrite length_fmap length_take length_drop. lia.
Qed.
(** A tick takes lines from the front. *)
Lemma tick_spec (c : StreamCore) : tick c = count_emitted (line <$> take 1 (queue (state c)), MkStream (collector (state c)) (drop 1 (queue (state c))) (has_seen_delta (state c))) c.
Proof. unfold tick, step. by destruct (state c) as [? [|q qs] ?]. Qed.
Lemma tick_batch_spec n (c : StreamCore) : tick_batch n c =
  count_emitted (line <$> take n (queue (state c)), MkStream (collector (state c)) (drop n (queue (state c))) (has_seen_delta (state c))) c.
Proof.
  unfold tick_batch. destruct (Nat.eqb_spec n 0) as [->|Hn].
  - unfold count_emitted, set_emitted_len, set_state. cbn. rewrite Nat.add_0_r. by destruct c as [[] ? ? ? ? ?].
  - unfold drain_n. destruct (Nat.min_spec n (length (queue (state c)))) as [[Hlt ->]|[Hge ->]]; [done|].
    by rewrite (take_ge _ n) ?(drop_ge _ n) ?firstn_all ?drop_all.
Qed.
Lemma set_width_ok text now width c : core_ok text c → ∃ c', set_width now width c = Some c' ∧ core_ok text c'.
Proof.
  intros Hok. pose proof Hok as [H1 H2 H3 H4 H5]. unfold set_width. case_bool_decide; [by eexists|].
  cbn [raw_source with_width]. destruct (is_empty (raw_source c)); [eexists; split; [reflexivity|by split]|].
  set (c1 := recompute_render _). set (c2 := set_emitted_len _ c1).
  set (c3 := if _ && _ then set_emitted_len _ c2 else c2).
  assert (collector (state c3) = collector_set_width width (collector (state c)) ∧ raw_source c3 = raw_source c ∧ rendered_lines c3 = rendered_lines c1 ∧
          emitted_len c3 <= length (rendered_lines c1)) as (Hc & Hr & Hl & He).
  { unfold c3. destruct (_ && _); cbn -[c1]; split_and!; try done; lia. }
  destruct (_ && negb _).
  - eexists. split; [reflexivity|]. split; cbn; rewrite ?Hc ?Hr; try done. rewrite Hl. lia.
  - apply rebuild_ok; cbn; rewrite ?Hc ?Hr; done.
Qed.
Lemma clear_queue_ok text c : core_ok text c → core_ok text (core_clear_queue c).
Proof. intros [H1 H2 H3 H4 H5]. split; cbn; try done. lia. Qed.

(** The end takes the rest of the text as the last line. *)
Lemma finalize_remaining_spec text c : core_ok text c →
  let rendered := append_markdown (source_of text) (core_width c) in
  ∃ c', finalize_remaining c = Some (drop (emitted_len c) rendered, c') ∧ raw_source c' = source_of text.
Proof.
  intros [H1 H2 (rest & H3) H4 H5] rendered. unfold finalize_remaining, finalize_and_drain_source. rewrite H1 H2.
  assert (∀ c' : StreamCore, raw_source c' = source_of text → core_width c' = core_width c → emitted_len c' = emitted_len c →
    ∃ c'', Some (if Nat.leb (length (append_markdown (raw_source c') (core_width c'))) (emitted_len c') then []
                 else drop (emitted_len c') (append_markdown (raw_source c') (core_width c')), c')
           = Some (drop (emitted_len c) rendered, c'') ∧ raw_source c'' = source_of text) as Hend.
  { intros c' Hr Hw He. exists c'. split; [|done]. rewrite Hr Hw He. fold rendered.
    destruct (Nat.leb_spec (length rendered) (emitted_len c)); [|done]. by rewrite drop_ge. }
  destruct (Nat.leb_spec (str_len text) (str_len (raw_source c))) as [Hle|Hlt].
  - assert (rest = []) as -> by (apply str_len_zero; rewrite H3 str_len_app in Hle; lia). rewrite app_nil_r in H3.
    cbn [mbind option_bind is_empty negb]. apply Hend; try done. cbn. rewrite -H3. unfold source_of.
    rewrite -H3 in H4. destruct H4 as [->|Ha]; [done|]. by rewrite (proj2 (ends_in_newline text) Ha) orb_true_r.
  - rewrite (proj2 (slice_from_Some text _ rest)); [by exists (raw_source c)|]. cbn [mbind option_bind].
    assert (rest ≠ []) as Hne by (intros ->; rewrite H3 app_nil_r in Hlt; lia).
    assert (text ≠ []) as Hnt by (intros Hn; rewrite Hn in H3; destruct (raw_source c), rest; done).
    assert (ends_with [ch_nl] text = ends_with [ch_nl] rest) as He.
    { apply eq_true_iff_eq. rewrite !ends_in_newline. destruct rest as [|d r _] using rev_ind; [done|]. rewrite H3. split.
      - intros [r' Hr']. rewrite app_assoc in Hr'. apply app_inj_tail in Hr' as [_ ->]. by exists r.
      - intros [r' Hr']. apply app_inj_tail in Hr' as [_ ->]. exists (raw_source c ++ r). by rewrite app_assoc. }
    destruct (ends_with [ch_nl] rest) eqn:Hn; cbn [negb].
    + rewrite (proj2 (is_empty_false rest)) //. cbn [negb]. apply Hend; try done. cbn. unfold source_of. by rewrite (proj2 (is_empty_false text)) // He -H3.
    + rewrite (proj2 (is_empty_false (rest ++ _))); [by destruct rest|]. cbn [negb]. apply Hend; try done. cbn. unfold source_of.
      by rewrite (proj2 (is_empty_false text)) // He app_assoc -H3.
Qed.
Lemma source_of_empty text : is_empty (source_of text) = is_empty text.
Proof. unfold source_of. destruct text as [|c r]; [done|]. cbn [is_empty orb]. by destruct (ends_with _ _). Qed.
Lemma emit_core ls c : core (emit ls c).2 = core c.
Proof. unfold emit. by destruct (is_empty ls). Qed.
Lemma finalize_spec text c : core_ok text (core c) →
  let remaining := drop (emitted_len (core c)) (append_markdown (source_of text) (core_width (core c))) in
  ∃ c', finalize c = Some (if is_empty text then (None, None) else ((emit remaining (MkController (core c) (header_emitted c))).1, Some (source_of text)), c').
Proof.
  intros Hok remaining. destruct (finalize_remaining_spec text (core c) Hok) as (c1 & Hf & Hr). unfold finalize. rewrite Hf. cbn [mbind option_bind].
  rewrite Hr source_of_empty. destruct (is_empty text); [by eexists|]. unfold emit. fold remaining. cbn [header_emitted].
  destruct (is_empty remaining); by eexists.
Qed.
(** A tick of a controller: the lines from the front, in a cell. *)
Lemma on_commit_tick_spec c : on_commit_tick c =
  let '(lines, core') := count_emitted (line <$> take 1 (queue (state (core c))), MkStream (collector (state (core c))) (drop 1 (queue (state (core c)))) (has_seen_delta (state (core c)))) (core c) in
  let '(cell, c') := emit lines (MkController core' (header_emitted c)) in (cell, is_idle (state (core c')), c').
Proof. unfold on_commit_tick. by rewrite tick_spec. Qed.
Lemma on_commit_tick_batch_spec n c : on_commit_tick_batch n c =
  let '(lines, core') := count_emitted (line <$> take n (queue (state (core c))), MkStream (collector (state (core c))) (drop n (queue (state (core c)))) (has_seen_delta (state (core c)))) (core c) in
  let '(cell, c') := emit lines (MkController core' (header_emitted c)) in (cell, is_idle (state (core c')), c').
Proof. unfold on_commit_tick_batch. by rewrite tick_batch_spec. Qed.

Lemma event_ok text e c : core_ok text (core c) → ∃ shown c', stream_event e c = Some (shown, c') ∧ core_ok (text ++ pushed e) (core c').
Proof.
  intros Hok. destruct e as [now delta| |n|now w|]; cbn [stream_event pushed]; rewrite ?app_nil_r.
  - unfold push. destruct (push_ok text now delta (core c) Hok) as (b & c' & -> & Hok'). cbn. by eexists _, _.
  - rewrite on_commit_tick_spec. cbn [count_emitted fst snd]. destruct (emit _ _) as [cell c'] eqn:He. eexists _, _. split; [reflexivity|].
    pose proof (emit_core) as Hc. apply (f_equal snd) in He. cbn [snd] in He. rewrite -He emit_core. by apply (count_emitted_ok text (core c) _ 1).
  - rewrite on_commit_tick_batch_spec. cbn [count_emitted fst snd]. destruct (emit _ _) as [cell c'] eqn:He. eexists _, _. split; [reflexivity|].
    apply (f_equal snd) in He. cbn [snd] in He. rewrite -He emit_core. by apply (count_emitted_ok text (core c) _ n).
  - unfold controller_set_width. destruct (set_width_ok text now w (core c) Hok) as (c' & -> & Hok'). cbn. by eexists _, _.
  - eexists _, _. split; [reflexivity|]. by apply clear_queue_ok.
Qed.
Lemma run_ok text es c : core_ok text (core c) → ∃ shown c', stream_run es c = Some (shown, c') ∧ core_ok (text ++ text_of es) (core c').
Proof.
  revert text c. induction es as [|e es IH]; intros text c Hok; cbn [stream_run]; [rewrite app_nil_r; by eexists _, _|].
  destruct (event_ok text e c Hok) as (shown & c1 & -> & Hok1). cbn [mbind option_bind]. destruct (IH _ _ Hok1) as (more & c2 & -> & Hok2).
  eexists _, _. split; [reflexivity|]. by rewrite -app_assoc in Hok2.
Qed.

(** Whatever arrives and whenever lines are moved, queues cleared or the width changed,
    no step of a stream panics, and its end gives back the whole text, with its last
    line ended, for the transcript to be rendered from. *)
Theorem streams_lose_no_source es width :
  ∃ shown, stream_whole es width = Some (shown, if is_empty (text_of es) then None else Some (source_of (text_of es))).
Proof.
  unfold stream_whole. destruct (run_ok [] es (controller_new width) (core_ok_new width)) as (shown & c & -> & Hok). cbn [mbind option_bind].
  destruct (finalize_spec _ _ Hok) as (c' & ->). cbn [app]. destruct (is_empty (text_of es)); by eexists.
Qed.

(** ** Lines *)

Definition cell_lines (c : HistoryCell) : list Line := match c with AgentMessageCell ls _ | ProposedPlanStreamCell ls _ => ls end.
(** Of whole lines, what comes first is rendered as it is in the whole. *)
Definition renders_stably (width : option nat) (source : str) : Prop :=
  ∀ a t u, source = a ++ t ++ u → line_complete a → a ≠ [] → line_complete t → append_markdown a width `prefix_of` append_markdown (a ++ t) width.
Definition keeps_width (e : StreamEvent) : Prop := match e with SetWidth _ _ | ClearQueue => False | _ => True end.
Definition rendered_so_far (c : StreamCore) : list Line := if is_empty (raw_source c) then [] else append_markdown (raw_source c) (core_width c).
(** What is shown and what is queued are what is rendered. *)
Record in_step (w : option nat) (shown : list Line) (c : StreamCore) : Prop := {
  step_width : core_width c = w;
  step_rendered : rendered_lines c = rendered_so_far c;
  step_lines : shown ++ (line <$> queue (state c)) = rendered_lines c;
  step_emitted : emitted_len c = length shown;
  step_enqueued : enqueued_len c = length (rendered_lines c)
}.
(** The first cell, and no other, has the header. *)
Definition headed (cells : list HistoryCell) : Prop := ∀ i cell, cells !! i = Some cell → ∃ ls, ls ≠ [] ∧ cell = AgentMessageCell ls (Nat.eqb i 0).

Lemma line_complete_app a t : line_complete a → line_complete (a ++ t) → line_complete t.
Proof.
  intros Ha Hat. destruct t as [|d t _] using rev_ind; [by left|]. right. destruct Hat as [Hn|[b Hb]]; [by destruct a, t|].
  rewrite app_assoc in Hb. apply app_inj_tail in Hb as [_ ->]. by exists t.
Qed.
Lemma push_in_step w text now delta shown c source : renders_stably w source → (∃ u, source = (text ++ delta) ++ u) → core_ok text c → in_step w shown c →
  ∃ b c', push_delta now delta c = Some (b, c') ∧ in_step w shown c'.
Proof.
  intros Hst [u Hu] Hok Hin. pose proof Hin as [I1 I2 I3 I4 I5].
  destruct (push_cases text now delta c Hok) as [(c' & -> & _ & E1 & E2 & E3 & E4 & E5 & E6)|(m & c1 & -> & Hok1 & E1 & Hne & E2 & E3 & E4 & E5 & E6)].
  - eexists _, _. split; [reflexivity|]. split; unfold rendered_so_far; rewrite ?E1 ?E2 ?E3 ?E4 ?E5 ?E6; done.
  - assert (∃ new, append_markdown (raw_source c1) w = rendered_lines c ++ new) as [new Hnew].
    { rewrite I2. unfold rendered_so_far. destruct (is_empty (raw_source c)) eqn:He; [by eexists|]. apply is_empty_false in He.
      destruct (ok_source _ _ Hok1) as [r Hr]. rewrite E1 I1.
      apply (Hst (raw_source c) m (r ++ u)); [by rewrite Hu Hr E1 -!app_assoc|apply Hok|done|].
      apply (line_complete_app (raw_source c)); [apply Hok|]. rewrite -E1. apply Hok1. }
    unfold sync_queue_to_render. cbn [rendered_lines emitted_len enqueued_len recompute_render raw_source core_width state]. rewrite E6 I1 Hnew E4 E5 I4 I5.
    assert (length shown <= length (rendered_lines c)) as Hle by (rewrite -I3 length_app; lia).
    assert (∀ c', raw_source c' = raw_source c1 → core_width c' = w → rendered_lines c' = rendered_lines c ++ new →
      (line <$> queue (state c')) = (line <$> queue (state c)) ++ new → emitted_len c' = length shown → enqueued_len c' = length (rendered_lines c) + length new →
      in_step w shown c') as Hfin.
    { intros c' F1 F2 F3 F4 F5 F6. split; try done.
      - rewrite F3. unfold rendered_so_far. by rewrite F1 F2 (proj2 (is_empty_false _) Hne).
      - by rewrite F3 F4 app_assoc I3.
      - by rewrite F6 F3 length_app. }
    rewrite length_app Nat.max_l; [lia|]. rewrite (proj2 (Nat.ltb_ge _ _)); [lia|].
    destruct (Nat.eqb_spec (length (rendered_lines c) + length new) (length (rendered_lines c))) as [Hz|_].
    + eexists _, _. split; [reflexivity|]. assert (new = []) as Hnil by (apply nil_length_inv; lia).
      apply Hfin; cbn; rewrite ?E3 ?E4 ?E5 ?E6 ?I1 ?I5 ?I4 ?Hnew ?Hnil ?app_nil_r //= Nat.add_0_r.
    + rewrite slice_lines_ok; [lia|rewrite length_app; lia|]. eexists _, _. split; [reflexivity|].
      replace (take _ (drop _ (rendered_lines c ++ new))) with new by (rewrite drop_app_length take_ge //; lia).
      apply Hfin; cbn; rewrite ?E3 ?E5 ?E6 ?I1; try done. by rewrite fmap_app -list_fmap_compose list_fmap_id.
Qed.

Lemma headed_snoc cs ls : headed cs → ls ≠ [] → headed (cs ++ [AgentMessageCell ls (is_empty cs)]).
Proof.
  intros Hh Hne i cell Hi. apply lookup_app_Some in Hi as [Hi|[Hi Hc]]; [by apply Hh|]. apply list_lookup_singleton_Some in Hc as [Hi' <-].
  exists ls. split; [done|]. f_equal. destruct cs as [|c cs]; cbn in *; [by replace i with 0 by lia|]. destruct i; [lia|done].
Qed.
(** What a controller has shown: cells that hold the lines, the first with the header. *)
Definition showing (w : option nat) (cs : list HistoryCell) (c : StreamController) : Prop :=
  in_step w (cs ≫= cell_lines) (core c) ∧ headed cs ∧ header_emitted c = negb (is_empty cs).
Lemma emit_showing ls cs c : headed cs → header_emitted c = negb (is_empty cs) →
  let r := emit ls c in let cs' := cs ++ option_list r.1 in
  headed cs' ∧ header_emitted r.2 = negb (is_empty cs') ∧ cs' ≫= cell_lines = (cs ≫= cell_lines) ++ ls.
Proof.
  intros Hh He. unfold emit. destruct ls as [|l ls]; cbn [is_empty fst snd option_list]; [by rewrite !app_nil_r|].
  rewrite He negb_involutive bind_app. cbn [option_list]. split_and!; [by apply headed_snoc|by destruct cs|]. cbn. by rewrite app_nil_r.
Qed.
Lemma take_in_step w n shown c : in_step w shown c →
  in_step w (shown ++ (line <$> take n (queue (state c))))
    (count_emitted (line <$> take n (queue (state c)), MkStream (collector (state c)) (drop n (queue (state c))) (has_seen_delta (state c))) c).2.
Proof.
  intros [I1 I2 I3 I4 I5]. split; cbn; try done; [by rewrite -app_assoc -fmap_app take_drop|by rewrite I4 length_app].
Qed.
Lemma event_showing w e text cs c source : keeps_width e → renders_stably w source → (∃ u, source = (text ++ pushed e) ++ u) → core_ok text (core c) →
  showing w cs c → ∃ shown c', stream_event e c = Some (shown, c') ∧ showing w (cs ++ shown) c'.
Proof.
  intros Hk Hst Hu Hok (Hin & Hh & He). assert (∀ n, let '(cell, c') := emit (line <$> take n (queue (state (core c))))
      (MkController (count_emitted (line <$> take n (queue (state (core c))), MkStream (collector (state (core c))) (drop n (queue (state (core c)))) (has_seen_delta (state (core c)))) (core c)).2 (header_emitted c)) in
    showing w (cs ++ option_list cell) c') as Htake.
  { intros n. set (c0 := MkController _ _). pose proof (emit_showing (line <$> take n (queue (state (core c)))) cs c0 Hh He) as (H1 & H2 & H3).
    pose proof (emit_core (line <$> take n (queue (state (core c)))) c0) as Hc. destruct (emit _ c0) as [cell c']. cbn [fst snd] in *.
    split; [|done]. rewrite Hc H3. by apply take_in_step. }
  destruct e as [now delta| |n|now width|]; cbn [stream_event pushed] in *; try done.
  - unfold push. destruct (push_in_step w text now delta _ (core c) source Hst Hu Hok Hin) as (b & c' & -> & Hin'). cbn. eexists _, _. split; [reflexivity|].
    by rewrite app_nil_r.
  - rewrite on_commit_tick_spec. specialize (Htake 1). cbn [count_emitted fst snd] in *. destruct (emit _ _) as [cell c']. by eexists _, _.
  - rewrite on_commit_tick_batch_spec. specialize (Htake n). cbn [count_emitted fst snd] in *. destruct (emit _ _) as [cell c']. by eexists _, _.
Qed.
Lemma run_showing w es text cs c source : Forall keeps_width es → renders_stably w source → (∃ u, source = (text ++ text_of es) ++ u) → core_ok text (core c) →
  showing w cs c → ∃ shown c', stream_run es c = Some (shown, c') ∧ showing w (cs ++ shown) c'.
Proof.
  revert text cs c. induction es as [|e es IH]; intros text cs c Hes Hst [u Hu] Hok Hsh; cbn [stream_run]; [eexists _, _; split; [reflexivity|by rewrite app_nil_r]|].
  apply Forall_cons in Hes as [Hk Hes].
  destruct (event_showing w e text cs c source Hk Hst) as (shown & c1 & He & Hsh1); [exists (text_of es ++ u); rewrite Hu; cbn; by rewrite -!app_assoc|done..|].
  destruct (event_ok text e c Hok) as (shown' & c1' & He' & Hok1). rewrite He in He'. injection He' as <- <-. rewrite He. cbn [mbind option_bind].
  destruct (IH (text ++ pushed e) (cs ++ shown) c1) as (more & c2 & -> & Hsh2); [done|done|exists u; rewrite Hu; cbn; by rewrite -!app_assoc|done|done|].
  eexists _, _. split; [reflexivity|]. by rewrite app_assoc.
Qed.

(** C28. While the width stays, a stream shows the text it is given, in any pieces and
    with ticks whenever they come: the lines of its cells, the last included, are
    those that the whole source is rendered to, each once and in order, and only the
    first cell has the header; for texts of which whole lines are rendered as they
    are within the whole. *)
Theorem streams_show_the_whole_text es width : Forall keeps_width es → renders_stably width (source_of (text_of es)) →
  ∃ cs source, stream_whole es width = Some (cs, source) ∧ headed cs ∧
    cs ≫= cell_lines = match source with Some s => append_markdown s width | None => [] end ∧
    source = if is_empty (text_of es) then None else Some (source_of (text_of es)).
Proof.
  intros Hes Hst. unfold stream_whole. destruct (run_ok [] es (controller_new width) (core_ok_new width)) as (shown & c & Hr & Hok). cbn [app] in Hok.
  assert (∃ u, source_of (text_of es) = text_of es ++ u) as Hu
    by (unfold source_of; destruct (_ || _); [exists []; by rewrite app_nil_r|by eexists]).
  destruct (run_showing width es [] [] (controller_new width) _ Hes Hst Hu (core_ok_new width)) as (shown' & c' & Hr' & Hin & Hh & He).
  { split; [|split]; [by split|intros i cell Hi; by rewrite lookup_nil in Hi|done]. }
  rewrite Hr in Hr'. injection Hr' as <- <-. rewrite Hr. cbn [mbind option_bind app] in *. destruct (finalize_spec _ _ Hok) as (c' & ->).
  destruct Hin as [I1 I2 I3 I4 I5]. destruct (ok_source _ _ Hok) as [rest Ht]. destruct (is_empty (text_of es)) eqn:Hem.
  - apply is_empty_true in Hem. eexists _, _. split; [reflexivity|]. cbn [fst option_list]. rewrite app_nil_r. split_and!; try done.
    rewrite Hem in Ht. assert (raw_source (core c) = []) as Hraw by (by destruct (raw_source (core c))).
    rewrite I2 in I3. unfold rendered_so_far in I3. rewrite Hraw in I3. by apply app_eq_nil in I3 as [-> _].
  - eexists _, _. split; [reflexivity|]. pose proof (emit_showing (drop (emitted_len (core c)) (append_markdown (source_of (text_of es)) (core_width (core c)))) shown
      (MkController (core c) (header_emitted c)) Hh He) as (H1 & _ & H3). cbn [fst]. split_and!; [done| |done].
    rewrite H3 I4 I1. assert (((shown ≫= cell_lines) ++ (line <$> queue (state (core c)))) `prefix_of` append_markdown (source_of (text_of es)) width) as [new Hnew].
    { rewrite I3 I2. unfold rendered_so_far. destruct (is_empty (raw_source (core c))) eqn:Hraw; [apply prefix_nil|]. apply is_empty_false in Hraw. rewrite I1.
      destruct Hu as [u Hu]. assert (source_of (text_of es) = raw_source (core c) ++ (rest ++ u)) as Hs by (by rewrite Hu {1}Ht -app_assoc).
      rewrite Hs. apply (Hst _ _ []); [by rewrite app_nil_r|apply Hok|done|]. apply (line_complete_app (raw_source (core c))); [apply Hok|]. rewrite -Hs.
      unfold source_of. destruct (is_empty (text_of es) || ends_with [ch_nl] (text_of es)) eqn:Hends; [|right; by eexists].
      rewrite Hem in Hends. right. by apply ends_in_newline. }
    rewrite Hnew -app_assoc drop_app_length. by rewrite app_assoc.
Qed.

(** ** Ticks *)

(** How many lines a plan takes. *)
Definition plan_size (plan : DrainPlan) : nat := match plan with Single => 1 | Batch n => n end.
(** The core after it lost its first lines to the history. *)
Definition advanced (n : nat) (c : StreamCore) : StreamCore :=
  MkCore (MkStream (collector (state c)) (drop n (queue (state c))) (has_seen_delta (state c))) (core_width c) (raw_source c) (rendered_lines c)
    (enqueued_len c) (emitted_len c + Nat.min n (length (queue (state c)))).
Definition front (n : nat) (c : StreamCore) : list Line := line <$> take n (queue (state c)).
Lemma count_front n c : count_emitted (front n c, MkStream (collector (state c)) (drop n (queue (state c))) (has_seen_delta (state c))) c = (front n c, advanced n c).
Proof. unfold count_emitted, front, advanced, set_emitted_len, set_state. cbn. by rewrite length_fmap length_take. Qed.
Definition stream_drained (plan : DrainPlan) (c : StreamController) : option HistoryCell * StreamController :=
  emit (front (plan_size plan) (core c)) (MkController (advanced (plan_size plan) (core c)) (header_emitted c)).
Definition plan_drained (plan : DrainPlan) (c : PlanStreamController) : option HistoryCell * PlanStreamController :=
  plan_emit (front (plan_size plan) (plan_core c)) false (MkPlanController (advanced (plan_size plan) (plan_core c)) (plan_header_emitted c) (top_padding_emitted c)).
Lemma plan_emit_core ls b c : plan_core (plan_emit ls b c).2 = plan_core c.
Proof. unfold plan_emit. by destruct (is_empty ls && negb b). Qed.
Lemma drain_stream_spec plan c : drain_stream_controller c plan =
  ((stream_drained plan c).1, is_empty (drop (plan_size plan) (queue (state (core c)))), (stream_drained plan c).2).
Proof.
  unfold stream_drained. pose proof (λ n, emit_core (front n (core c)) (MkController (advanced n (core c)) (header_emitted c))) as Hc.
  destruct plan as [|n]; cbn [drain_stream_controller plan_size].
  - rewrite on_commit_tick_spec -/(front 1 (core c)) count_front. specialize (Hc 1). destruct (emit _ _) as [cell c']. cbn [fst snd] in *. by rewrite Hc.
  - rewrite on_commit_tick_batch_spec -/(front n (core c)) count_front. specialize (Hc n). destruct (emit _ _) as [cell c']. cbn [fst snd] in *. by rewrite Hc.
Qed.
Lemma drain_plan_spec plan c : drain_plan_stream_controller c plan =
  ((plan_drained plan c).1, is_empty (drop (plan_size plan) (queue (state (plan_core c)))), (plan_drained plan c).2).
Proof.
  unfold plan_drained. pose proof (λ n, plan_emit_core (front n (plan_core c)) false (MkPlanController (advanced n (plan_core c)) (plan_header_emitted c) (top_padding_emitted c))) as Hc.
  destruct plan as [|n]; cbn [drain_plan_stream_controller plan_size].
  - unfold plan_on_commit_tick. rewrite tick_spec -/(front 1 (plan_core c)) count_front. specialize (Hc 1). destruct (plan_emit _ _ _) as [cell c']. cbn [fst snd] in *. by rewrite Hc.
  - unfold plan_on_commit_tick_batch. rewrite tick_batch_spec -/(front n (plan_core c)) count_front. specialize (Hc n). destruct (plan_emit _ _ _) as [cell c']. cbn [fst snd] in *. by rewrite Hc.
Qed.

(** The lines that wait in both queues. *)
Definition waiting (sc : option StreamController) (pc : option PlanStreamController) : nat :=
  match sc with Some c => queued_len (state (core c)) | None => 0 end + match pc with Some c => queued_len (state (plan_core c)) | None => 0 end.
Lemma snapshot_waiting sc pc now : queued_lines (stream_queue_snapshot sc pc now) = waiting sc pc.
Proof. by destruct sc, pc. Qed.
Lemma decide_catch_up s now p d p' : decide_chunking s now p = (d, p') → decided_mode d = CatchUp → drain_plan d = Batch (Nat.max (queued_lines s) 1) ∧ queued_lines s ≠ 0.
Proof.
  unfold decide_chunking. destruct (Nat.eqb_spec (queued_lines s) 0); [by intros [= <- <-]|].
  destruct (match mode p with Smooth => _ | CatchUp => _ end) as [entered p1]. intros [= <- <-]. cbn [decided_mode drain_plan]. by intros ->.
Qed.
Lemma decide_smooth s now p d p' : decide_chunking s now p = (d, p') → decided_mode d = Smooth → drain_plan d = Single.
Proof.
  unfold decide_chunking. destruct (Nat.eqb_spec (queued_lines s) 0); [by intros [= <- <-]|].
  destruct (match mode p with Smooth => _ | CatchUp => _ end) as [entered p1]. intros [= <- <-]. cbn [decided_mode drain_plan]. by intros ->.
Qed.
Lemma severe_enters s : is_severe_backlog s = true → should_enter_catch_up s = true ∧ should_exit_catch_up s = false.
Proof.
  unfold is_severe_backlog, should_enter_catch_up, should_exit_catch_up, age_at_least, SEVERE_QUEUE_DEPTH_LINES, ENTER_QUEUE_DEPTH_LINES, EXIT_QUEUE_DEPTH_LINES,
    SEVERE_OLDEST_AGE, ENTER_OLDEST_AGE, EXIT_OLDEST_AGE, from_millis.
  intros [Hl%Nat.leb_le|Ha]%orb_true_iff.
  - split; [apply orb_true_iff; left; apply Nat.leb_le; lia|]. apply andb_false_iff. left. apply Nat.leb_gt. lia.
  - destruct (oldest_age s) as [a|]; [|done]. apply N.leb_le in Ha. split; [apply orb_true_iff; right; apply N.leb_le; lia|].
    apply andb_false_iff. right. apply N.leb_gt. lia.
Qed.
Lemma decide_severe s now p d p' : decide_chunking s now p = (d, p') → is_severe_backlog s = true → queued_lines s ≠ 0 → decided_mode d = CatchUp.
Proof.
  intros Hd Hs Hq. destruct (severe_enters s Hs) as [He Hx]. unfold decide_chunking in Hd. rewrite (proj2 (Nat.eqb_neq _ _) Hq) in Hd.
  destruct (mode p) eqn:Hm.
  - unfold maybe_enter_catch_up in Hd. rewrite He Hs andb_false_r in Hd. cbn in Hd. by injection Hd as <- <-.
  - unfold maybe_exit_catch_up in Hd. rewrite Hx in Hd. cbn in Hd. rewrite Hm in Hd. by injection Hd as <- <-.
Qed.
(** Only lines have an age. *)
Lemma severe_waits sc pc now : is_severe_backlog (stream_queue_snapshot sc pc now) = true → waiting sc pc ≠ 0.
Proof.
  intros Hs H0. rewrite -(snapshot_waiting sc pc now) in H0. unfold is_severe_backlog in Hs. rewrite H0 in Hs. cbn [Nat.leb SEVERE_QUEUE_DEPTH_LINES orb] in Hs.
  rewrite snapshot_waiting in H0. unfold waiting, queued_len in H0.
  assert (oldest_age (stream_queue_snapshot sc pc now) = None) as Hn; [|by rewrite Hn in Hs].
  unfold stream_queue_snapshot, add_core, oldest_queued_age. destruct sc as [c|], pc as [c'|]; cbn in *; try done.
  - rewrite (nil_length_inv (queue (state (core c)))); [lia|]. by rewrite (nil_length_inv (queue (state (plan_core c')))); [lia|].
  - by rewrite (nil_length_inv (queue (state (core c)))); [lia|].
  - by rewrite (nil_length_inv (queue (state (plan_core c')))); [lia|].
Qed.

(** What the lines that are taken are shown in: nothing when there are none; a cell of the
    message with just these lines, which is marked when it is the first; or a cell of
    the plan with these lines in the style of plans, which follow the title and the
    padding in the first one. *)
Definition message_shown (ls : list Line) (c : StreamController) : list HistoryCell :=
  match ls with [] => [] | _ => [AgentMessageCell ls (negb (header_emitted c))] end.
Definition plan_shown (ls : list Line) (c : PlanStreamController) : list HistoryCell :=
  match ls with
  | [] => []
  | _ =>
      let title := if plan_header_emitted c then [] else [plan_title; blank_line] in
      let padding := if top_padding_emitted c then [] else [plan_line blank_line] in
      [ProposedPlanStreamCell (title ++ padding ++ (plan_line <$> ls)) (plan_header_emitted c)]
  end.
(** The controllers after it: they remember that something was shown. *)
Definition message_after (n : nat) (c : StreamController) : StreamController :=
  MkController (advanced n (core c)) (header_emitted c || negb (is_empty (front n (core c)))).
Definition plan_after (n : nat) (c : PlanStreamController) : PlanStreamController :=
  let shown := negb (is_empty (front n (plan_core c))) in
  MkPlanController (advanced n (plan_core c)) (plan_header_emitted c || shown) (top_padding_emitted c || shown).
Lemma stream_drained_shown plan c :
  option_list (stream_drained plan c).1 = message_shown (front (plan_size plan) (core c)) c ∧ (stream_drained plan c).2 = message_after (plan_size plan) c.
Proof.
  unfold stream_drained, emit, message_shown, message_after. destruct (front _ _); cbn; [by rewrite orb_false_r|by rewrite orb_true_r].
Qed.
Lemma plan_drained_shown plan c :
  option_list (plan_drained plan c).1 = plan_shown (front (plan_size plan) (plan_core c)) c ∧ (plan_drained plan c).2 = plan_after (plan_size plan) c.
Proof.
  unfold plan_drained, plan_emit, plan_shown, plan_after. destruct (front _ _) as [|l ls]; cbn; [by rewrite !orb_false_r|].
  rewrite !orb_true_r app_nil_r. by destruct (top_padding_emitted c).
Qed.

(** C29. A tick either does nothing, when it is only for catching up and the mode is
    smooth, or takes the same number of lines from the front of each queue and shows
    just these lines, in their order, in a cell of the message and, after it, in a cell
    of the plan: one line of each in the smooth mode, all of them when catching up. A
    queue without lines gives no cell, and a severe backlog is always caught up with. *)
Theorem ticks_move_lines_in_order p sc pc scope now :
  let snapshot := stream_queue_snapshot sc pc now in
  let '(d, p') := decide_chunking snapshot now p in
  let '(out, p1, sc', pc') := run_commit_tick p sc pc scope now in
  p1 = p' ∧ (is_severe_backlog snapshot = true → decided_mode d = CatchUp) ∧
  (scope = CatchUpOnly ∧ decided_mode d = Smooth ∧ out = output_default ∧ sc' = sc ∧ pc' = pc ∨
   ∃ n, sc' = message_after n <$> sc ∧ pc' = plan_after n <$> pc ∧
   cells out = (option_list sc ≫= (λ c, message_shown (front n (core c)) c)) ++
               (option_list pc ≫= (λ c, plan_shown (front n (plan_core c)) c)) ∧
   (decided_mode d = Smooth → n = 1) ∧
   (decided_mode d = CatchUp → waiting sc' pc' = 0 ∧ all_idle out = true)).
Proof.
  intros snapshot. destruct (decide_chunking snapshot now p) as [d p'] eqn:Hd. unfold run_commit_tick. fold snapshot. rewrite Hd.
  assert (is_severe_backlog snapshot = true → decided_mode d = CatchUp) as Hsev.
  { intros Hs. apply (decide_severe _ _ _ _ _ Hd Hs). unfold snapshot. rewrite snapshot_waiting. by apply (severe_waits sc pc now). }
  destruct (bool_decide (scope = CatchUpOnly) && negb (bool_decide (decided_mode d = CatchUp))) eqn:Hsup.
  - apply andb_true_iff in Hsup as [Hsc%bool_decide_eq_true Hm%negb_true_iff%bool_decide_eq_false]. split_and!; [done|done|].
    left. split_and!; try done. by destruct (decided_mode d).
  - unfold apply_commit_tick_plan. split_and!; [done|done|]. right.
    assert (decided_mode d = CatchUp → ∀ q : list QueuedLine, length q <= waiting sc pc → drop (plan_size (drain_plan d)) q = []) as Hall.
    { intros Hm q Hq. destruct (decide_catch_up _ _ _ _ _ Hd Hm) as [-> _]. unfold snapshot. rewrite snapshot_waiting. apply drop_ge. cbn [plan_size]. lia. }
    exists (plan_size (drain_plan d)). pose proof (stream_drained_shown (drain_plan d)) as Hsd. pose proof (plan_drained_shown (drain_plan d)) as Hpd.
    split_and!.
    + destruct sc as [c|]; [|done]. cbn. rewrite drain_stream_spec. cbn. by rewrite (proj2 (Hsd c)).
    + destruct pc as [c|]; [|done]. cbn. rewrite drain_plan_spec. cbn. by rewrite (proj2 (Hpd c)).
    + destruct sc as [c|], pc as [c'|]; cbn; rewrite ?drain_stream_spec ?drain_plan_spec; cbn;
        rewrite ?(proj1 (Hsd _)) ?(proj1 (Hpd _)); by rewrite ?app_nil_r.
    + intros Hm. by rewrite (decide_smooth _ _ _ _ _ Hd Hm).
    + intros Hm. specialize (Hall Hm). unfold waiting, queued_len in *.
      destruct sc as [c|], pc as [c'|]; cbn; rewrite ?drain_stream_spec ?drain_plan_spec; cbn -[stream_drained plan_drained];
        rewrite ?(proj2 (Hsd _)) ?(proj2 (Hpd _)); cbn; rewrite ?Hall; cbn; lia || done.
Qed.
End streams.

(** ** The two modes *)

(** The decisions of ticks, each on the pressure at its time. *)
Abbreviation Moment := (QueueSnapshot * N)%type.
Definition policy_after (ms : list Moment) : AdaptiveChunkingPolicy := foldl (λ p m, (decide_chunking m.1 m.2 p).2) policy_default ms.
Definition mode_at (ms : list Moment) : ChunkingMode := mode (policy_after ms).
(** Catching up ends, or starts, with the last decision. *)
Definition leaves_catch_up (ms : list Moment) (m : Moment) : Prop := mode_at ms = CatchUp ∧ mode_at (ms ++ [m]) = Smooth.
Definition enters_catch_up (ms : list Moment) (m : Moment) : Prop := mode_at ms = Smooth ∧ mode_at (ms ++ [m]) = CatchUp.
Lemma policy_snoc ms m : policy_after (ms ++ [m]) = (decide_chunking m.1 m.2 (policy_after ms)).2.
Proof. unfold policy_after. by rewrite foldl_app. Qed.
(** Since when the pressure is low. *)
Definition low (m : Moment) : Prop := should_exit_catch_up m.1 = true.
Lemma below_since ms t : below_exit_threshold_since (policy_after ms) = Some t →
  mode_at ms = CatchUp ∧ ∃ before m after, ms = before ++ m :: after ∧ m.2 = t ∧ Forall low (m :: after).
Proof.
  induction ms as [|[s now] ms IH] using rev_ind; [done|]. unfold mode_at. rewrite policy_snoc. cbn [fst snd].
  unfold decide_chunking. destruct (Nat.eqb (queued_lines s) 0); [done|]. fold (mode_at ms). destruct (mode_at ms) eqn:Hm.
  - unfold maybe_enter_catch_up. destruct (negb _); [|destruct (_ && _); [|done]]; intros Hb; destruct (IH Hb) as [Hc _]; done.
  - unfold maybe_exit_catch_up. destruct (should_exit_catch_up s) eqn:Hlow; cbn [negb]; [|done].
    destruct (below_exit_threshold_since (policy_after ms)) as [since|] eqn:Hb.
    + destruct (EXIT_HOLD <=? now - since)%N; [done|]. cbn. rewrite Hb. intros [= <-]. split; [done|].
      destruct (IH eq_refl) as (_ & before & m & after & -> & Ht & Hf). exists before, m, (after ++ [(s, now)]). rewrite -app_assoc. split_and!; [done..|].
      rewrite app_comm_cons. apply Forall_app. split; [done|]. by repeat constructor.
    + intros [= <-]. split; [done|]. exists ms, (s, now), []. split_and!; [done..|]. by repeat constructor.
Qed.
(** The last end of catching up is remembered until it starts again. *)
Lemma last_exit before m after : leaves_catch_up before m → Forall (λ x : Moment, m.2 <= x.2)%N after →
  mode_at (before ++ m :: after) = CatchUp ∨ ∃ t, last_catch_up_exit_at (policy_after (before ++ m :: after)) = Some t ∧ (m.2 <= t)%N.
Proof.
  intros [Hb Ha]. induction after as [|[s now] after IH] using rev_ind; intros Hall.
  - right. exists m.2. split; [|done]. unfold mode_at in *. rewrite policy_snoc in Ha |- *. unfold decide_chunking in *.
    destruct (Nat.eqb _ 0); [cbn; unfold note_catch_up_exit; by rewrite bool_decide_true|]. rewrite Hb in Ha |- *. unfold maybe_exit_catch_up in *.
    destruct (negb _); [cbn in Ha; congruence|]. destruct (below_exit_threshold_since _); [|cbn in Ha; congruence].
    destruct (_ <=? _)%N; [done|cbn in Ha; congruence].
  - apply Forall_app in Hall as [Hall Hle]. apply Forall_cons in Hle as [Hle _]. cbn in Hle. specialize (IH Hall). rewrite app_comm_cons app_assoc. set (ms := before ++ m :: after) in *.
    unfold mode_at in *. rewrite policy_snoc. cbn [fst snd]. unfold decide_chunking. destruct (Nat.eqb (queued_lines s) 0).
    + right. cbn. unfold note_catch_up_exit. destruct IH as [Hm|(t & Ht & Hle')]; [rewrite bool_decide_true //; by exists now|].
      case_bool_decide; [by exists now|by exists t].
    + destruct (mode (policy_after ms)) eqn:Hm.
      * destruct IH as [|(t & Ht & Hle')]; [done|]. unfold maybe_enter_catch_up. destruct (negb _); [right; exists t; split; [exact Ht|done]|].
        destruct (_ && _); [right; exists t; split; [exact Ht|done]|by left].
      * unfold maybe_exit_catch_up. destruct (negb _); [by left|]. destruct (below_exit_threshold_since _) as [since|]; [|by left].
        destruct (_ <=? _)%N; [right; by exists now|by left].
Qed.

(** C30. The two modes do not flap: while lines are queued, catching up ends only after the
    pressure was low, at every decision, for 250 milliseconds; and once it ended it
    does not start again for as long, unless the backlog is severe. *)
Theorem modes_do_not_flap ms m :
  (leaves_catch_up ms m → queued_lines m.1 ≠ 0 →
     ∃ before x after, ms = before ++ x :: after ∧ (EXIT_HOLD <= m.2 - x.2)%N ∧ Forall low (x :: after ++ [m])) ∧
  (enters_catch_up ms m → Sorted (λ a b : Moment, a.2 <= b.2)%N (ms ++ [m]) →
     ∀ before x after, ms = before ++ x :: after → leaves_catch_up before x →
       is_severe_backlog m.1 = true ∨ (REENTER_CATCH_UP_HOLD <= m.2 - x.2)%N).
Proof.
  destruct m as [s now]. unfold leaves_catch_up, enters_catch_up, mode_at. rewrite policy_snoc. cbn [fst snd]. split.
  - intros [Hc Hs] Hq. unfold decide_chunking in Hs. rewrite (proj2 (Nat.eqb_neq _ _) Hq) Hc in Hs. unfold maybe_exit_catch_up in Hs.
    destruct (should_exit_catch_up s) eqn:Hlow; [|cbn in Hs; congruence]. destruct (below_exit_threshold_since (policy_after ms)) as [since|] eqn:Hb; [|cbn in Hs; congruence].
    destruct (N.leb_spec EXIT_HOLD (now - since)) as [Hle|]; [|cbn in Hs; congruence].
    destruct (below_since ms since Hb) as (_ & before & x & after & -> & <- & Hf). exists before, x, after. split_and!; [done..|].
    rewrite app_comm_cons. apply Forall_app. split; [done|]. by repeat constructor.
  - intros [Hs Hc] Hsort before x after -> Hl. apply Sorted_StronglySorted in Hsort; [|intros a b c; lia].
    rewrite -app_assoc in Hsort. assert (Forall (λ y : Moment, x.2 <= y.2)%N after) as Hall.
    { clear -Hsort. induction before as [|y before IH]; cbn in Hsort; apply StronglySorted_inv in Hsort as [Hsort Hx]; [|by apply IH].
      by apply Forall_app in Hx as [? _]. }
    destruct (last_exit before x after Hl Hall) as [Hm|(t & Ht & Hle)]; [unfold mode_at in Hm; congruence|].
    unfold decide_chunking in Hc. destruct (Nat.eqb _ 0); [done|]. rewrite Hs in Hc. unfold maybe_enter_catch_up in Hc.
    destruct (negb _); [cbn in Hc; congruence|]. unfold reentry_hold_active in Hc. rewrite Ht in Hc.
    destruct (is_severe_backlog s); [by left|]. right. destruct (N.ltb_spec (now - t) REENTER_CATCH_UP_HOLD) as [|Hge]; [cbn in Hc; congruence|lia].
Qed.

(** ** Witnesses *)

(** A renderer that breaks each line after so many characters. *)
Fixpoint chunks (fuel n : nat) (s : str) : list str :=
  match fuel with
  | S fuel => if Nat.leb (length s) n then [s] else take n s :: chunks fuel n (drop n s)
  | O => [s]
  end.
Fixpoint plain_lines (current s : str) : list str :=
  match s with
  | [] => if is_empty current then [] else [current]
  | c :: r => if (c =? ch_nl)%N then current :: plain_lines [] r else plain_lines (current ++ [c]) r
  end.
Definition wrap (width : option nat) (l : str) : list str := match width with Some w => chunks (length l) w l | None => [l] end.
#[local] Instance example_rendering : Rendering :=
  {| Line := str; append_markdown := λ s width, plain_lines [] s ≫= wrap width; plan_title := lit "Proposed Plan"; blank_line := lit " ";
     plan_line := λ l, lit "  " ++ l |}.
Lemma plain_lines_app current a t : plain_lines current ((a ++ [ch_nl]) ++ t) = plain_lines current (a ++ [ch_nl]) ++ plain_lines [] t.
Proof. revert current. induction a as [|c a IH]; intros current; cbn; [done|]. destruct (c =? ch_nl)%N; by rewrite IH. Qed.
Lemma example_renders_stably width source : renders_stably width source.
Proof.
  intros a t u _ [->|[b ->]] Hne _; [done|]. cbn [append_markdown example_rendering]. rewrite plain_lines_app bind_app. by eexists.
Qed.
Definition example_stream : list StreamEvent :=
  [Push 0 (lit "first li"); Push 1 (lit "ne" ++ [ch_nl] ++ lit "second"); Tick; Tick; Push 2 (lit " line" ++ [ch_nl; ch_nl] ++ lit "third"); TickBatch 1].
Example example_stream_run : stream_whole example_stream (Some 8) =
  Some ([AgentMessageCell [lit "first li" : Line] true; AgentMessageCell [lit "ne" : Line] false; AgentMessageCell [lit "second l" : Line] false;
         AgentMessageCell [lit "ine" : Line; [] : Line; lit "third" : Line] false],
        Some (lit "first line" ++ [ch_nl] ++ lit "second line" ++ [ch_nl; ch_nl] ++ lit "third" ++ [ch_nl])).
Proof. vm_compute. reflexivity. Qed.
Lemma streams_show_the_whole_text_witness : ∃ cs source, stream_whole example_stream (Some 8) = Some (cs, source) ∧ headed cs ∧
  cs ≫= cell_lines = match source with Some s => append_markdown s (Some 8) | None => [] end ∧
  source = if is_empty (text_of example_stream) then None else Some (source_of (text_of example_stream)).
Proof. apply streams_show_the_whole_text; [by repeat constructor|apply example_renders_stably]. Defined.

(** Rows that were shown at one width are counted as rows of the next: after a resize
    rows are shown again, or never. *)
Example rows_shown_twice :
  (λ r : list HistoryCell * option str, r.1 ≫= cell_lines) <$>
    stream_whole [Push 0 (lit "abcdefgh" ++ [ch_nl]); Tick; SetWidth 1 (Some 4)] (Some 8)
  = Some [lit "abcdefgh"; lit "efgh"].
Proof. vm_compute. reflexivity. Qed.
Example rows_never_shown :
  (λ r : list HistoryCell * option str, r.1 ≫= cell_lines) <$>
    stream_whole [Push 0 (lit "aaaaaaaa" ++ [ch_nl] ++ lit "bbbbbbbb" ++ [ch_nl] ++ lit "cccccccc" ++ [ch_nl]); TickBatch 2; SetWidth 1 (Some 8)] (Some 4)
  = Some [lit "aaaa"; lit "aaaa"; lit "cccccccc"].
Proof. vm_compute. reflexivity. Qed.

(** Ten lines start catching up, two that are young end it after a quarter of a second,
    and then ten lines have to wait. *)
Definition example_moments : list Moment :=
  [(MkSnapshot 10 (Some (from_millis 10)), from_millis 0); (MkSnapshot 2 (Some (from_millis 10)), from_millis 100);
   (MkSnapshot 2 (Some (from_millis 20)), from_millis 350); (MkSnapshot 10 (Some (from_millis 20)), from_millis 500);
   (MkSnapshot 70 (Some (from_millis 20)), from_millis 550)].
Example example_modes : (λ n, mode_at (take n example_moments)) <$> seq 0 6 = [Smooth; CatchUp; CatchUp; Smooth; Smooth; CatchUp].
Proof. vm_compute. reflexivity. Qed.
Lemma modes_do_not_flap_witness :
  (∃ before x after, take 2 example_moments = before ++ x :: after ∧ (EXIT_HOLD <= from_millis 350 - x.2)%N ∧
     Forall low (x :: after ++ [(MkSnapshot 2 (Some (from_millis 20)), from_millis 350)])) ∧
  (is_severe_backlog (MkSnapshot 70 (Some (from_millis 20))) = true ∨ (REENTER_CATCH_UP_HOLD <= from_millis 550 - from_millis 350)%N).
Proof.
  split.
  - apply (proj1 (modes_do_not_flap (take 2 example_moments) (MkSnapshot 2 (Some (from_millis 20)), from_millis 350))); [split; reflexivity|discriminate].
  - apply (proj2 (modes_do_not_flap (take 4 example_moments) (MkSnapshot 70 (Some (from_millis 20)), from_millis 550))
      ltac:(split; reflexivity) ltac:(repeat constructor; discriminate)
      (take 2 example_moments) (MkSnapshot 2 (Some (from_millis 20)), from_millis 350) [(MkSnapshot 10 (Some (from_millis 20)), from_millis 500)] eq_refl).
    split; reflexivity.
Defined.
